(* ===== verification/_CoqProject ===== *)
-Q . S2P
Prelude.v
Decimals.v
PreciseDecimals.v
IndexMap.v
Resource.v
FeeReserve.v
FeeFinalization.v
SubstateLocks.v
FungibleResource.v
Pools.v
PoolLedger.v
PoolSpec.v
SeveralPools.v
Time.v
AccessController.v
Text.v
Authorization.v
IdValidator.v
IntentHeaders.v
IntentTree.v
TransactionTracker.v
Bytes.v
Sbor.v
SborCustom.v
NonFungibleIds.v
BTreeMap.v
SubstateStore.v
StateUpdates.v
Track.v
TrackCommit.v
ResourceConstraints.v
ManifestInstructions.v
NativeInvocations.v
NodeIds.v
ResourceBounds.v
Traversal.v
Schema.v
TypedTraversal.v
SchemaTyping.v
ScryptoSchema.v
BlueprintInterface.v
TypeChecker.v
ManifestInterpreter.v
StaticMovements.v
InterpreterSpec.v
MovementsSpec.v
MovementsOutput.v
ManifestValidation.v
