(* ===== verification/Prelude.v ===== *)
(** * Verification of the Radix Engine

    The Radix Engine executes transactions against a ledger of resources and
    components.  A transaction carries a manifest, which is checked statically
    before execution; while it runs, every call is authorized against the
    proofs in its auth zones, every substate it opens is locked, every unit of
    work is charged to a fee reserve, and resources move between vaults,
    buckets and proofs; when it ends, its fees are settled.  This library
    models these parts of the engine as executable definitions and proves the
    properties that make each of them correct.

    ** Conventions

    Integers of a fixed width are [Z] with the width written out ([Int] below:
    [checked_u]/[checked_i] for checked operations, [wrap_u]/[wrap_i] for
    wrapping ones).  [Exec] separates normal ends from panics, [Result] is the
    source's [Result], and stateful code is in the state and error monad [M]:
    an [Err] keeps the state reached so far, as in the source, and a panic has
    none.  [wp] is total correctness (no panic, both outcomes specified),
    [wlp] speaks of successful runs only.  Maps whose order is observable are
    lists with the operations of [IndexMap]; the others are [gmap]s.  Code
    outside the repository (the bnum integers' text conversion, hash functions
    that make badges, roots of big integers) is a parameter of the definitions
    that use it, with its documented behaviour as a hypothesis, and each
    theorem with such a hypothesis is instantiated at a concrete function.

    ** Files

    - Prelude: machine integers, the monads with their rules and tactics,
      sums over maps.
    - Decimals: the 192-bit fixed-point [Decimal] of
      radix-common/src/math/decimal.rs with the rounding modes of
      rounding_mode.rs and the narrowing conversion of bnum_integer/convert.rs.
      Products, quotients, rounding, powers and roots are compared with exact
      integer arithmetic; the overflow behaviour is exact.
    - PreciseDecimals: the 256-bit [PreciseDecimal] of
      radix-common/src/math/precise_decimal.rs, on the same rounding, and the
      conversions between the two types.
    - IndexMap: insertion-ordered maps, their laws.
    - Resource: liquid and locked resources and withdrawal rounding
      (radix-engine-interface/src/blueprints/resource/).
    - FeeReserve: [SystemLoanFeeReserve] of costing/fee_reserve.rs: every
      method, the invariant of the reserve over all call sequences, loan
      repayment and its enforcement.
    - FeeFinalization: fee_summary.rs and, of system_callback.rs, the verdict
      on a transaction and the settlement of its fees; conservation of the
      fee currency from the first charge to the last refund, at prices on which
      the tip is a whole number of attos.
    - SubstateLocks: kernel/substate_locks.rs, refined against a
      reader/writer specification on the set of held handles.
    - FungibleResource: vaults, buckets, proofs and the manager of a fungible
      resource (radix-engine/src/blueprints/resource/fungible/): supply
      conservation over all histories, locks against live proofs, freezing.
    - Pools: the pools of one, two and many resources
      (radix-engine/src/blueprints/pool/v1/v1_1/) with the calls of the native
      SDK, over a ledger of the fungible resources of FungibleResource.
    - PoolLedger: what each call moves between the objects of the ledger, as
      rules for the [wp] of the pool operations.
    - PoolSpec: the pools of one and two resources: contributions and
      redemptions move the stated amounts and never panic, a pool unit never
      loses worth, and a redemption succeeds.
    - SeveralPools: redemptions from several vaults, and contributions to the
      pool of many resources.
    - Time: instants, the minute clock, calendar dates
      (radix-common/src/time/); the conversions are inverse to each other and
      agree with the Gregorian calendar.
    - AccessController: blueprints/access_controller/v2/: the state machine,
      the blueprint methods and their roles; what each role, and each pair of
      roles, can do to the asset over every sequence of calls.
    - Text: printing and parsing of decimals and dates, with Rust's byte and
      character views of a string.
    - Authorization: system_modules/auth/: access rules, roles, auth zones;
      rule evaluation refines a declarative semantics of rules over the
      evidence a caller can use.
    - IdValidator: radix-transactions/src/validation/id_validator.rs,
      id_allocator.rs and the basic validation of instructions of
      transaction_validator_v1.rs, refined against the linear use of ids.
    - IntentHeaders: the header checks of transaction_validator_v1.rs and
      transaction_validator_v2.rs; the validity range of a transaction is
      exactly the intersection of those of its intents.
    - IntentTree: transaction_structure_validator.rs; accepted subintents form
      a tree of bounded depth under the root, and their yields match.
    - TransactionTracker: blueprints/transaction_tracker/package.rs and the
      boot checks and nullifications of system_callback.rs; no committed
      intent runs again, and a fresh one is accepted.
    - Bytes: little- and big-endian byte forms of machine integers.
    - Sbor: the encoder, decoder and [Value] codec of sbor/src/; encoding and
      decoding are inverse, decoding ends on every input.
    - SborCustom: the custom values of engine and manifest payloads
      (radix-common/src/data/), with the round trip of whole payloads.
    - NonFungibleIds: non-fungible local ids and their text form.
    - BTreeMap: ordered maps as sorted lists, their laws.
    - SubstateStore: the in-memory database, the staging overlay of
      substate_database_overlay.rs and its iterators; reading the overlay is
      reading the database after the commit.
    - StateUpdates: radix-common/src/state/state_updates.rs and the key mapper
      of db_key_mapper.rs; composed updates act as one after the other.
    - Track: radix-engine/src/track/: the substate cache of a transaction,
      with an IO callback that may fail; specification and simulation lemmas.
    - TrackCommit: histories of the track and of what it forced, its
      finalization, revert and commit; the track is a plain store, the database
      after the commit holds what the transaction saw, and after a revert what it
      saw of the substates it forced.
    - ResourceConstraints: the constraints a manifest puts on resource
      balances (manifest_resource_assertion.rs), with their meaning as sets of
      balances; validation and normalization are exact for that meaning, given
      the documented rule on allowlists of fungible resources that the code does
      not check.
    - ResourceBounds: the bounds of the static analysis of resource movements
      (static_resource_movements/types.rs), sound for the concrete balances.
    - NativeInvocations: the native blueprints, their methods and the typed
      invocations (static_resource_movements/typed_invocation.rs).
    - StaticMovements: the outputs of native invocations (effect.rs) and the
      visitor that follows the movements of a manifest (visitor.rs).
    - MovementsSpec: runs of a manifest over concrete balances, and the
      soundness of the analysis for them.
    - MovementsOutput: the account changes, deposits and withdraws that the
      analysis reports (types.rs); for fungible resources they bound what a run
      moves, exactly so unless a deposit is returned, and the reported ids of
      repeated deposits can be wrong.
    - Traversal: the untyped traverser of payloads (sbor/src/traversal/untyped/)
      and [IndexedScryptoValue]; traversing a payload gives the events of the
      value it decodes to, or fails when decoding does.
    - NodeIds: the entity types of nodes (radix-common/src/types/entity_type.rs
      and node_and_substate.rs).
    - Schema: schemas of SBOR types and their validation (sbor/src/schema/).
    - TypedTraversal: the traversal of a payload along a type and the validation
      of payloads (sbor/src/traversal/typed/, sbor/src/payload_validation/).
    - SchemaTyping: typing of values by a schema, as an inductive relation, and
      its equivalence with validation for every extension that obeys its laws
      ([CustomSchemaLaws], [ExtensionLaws]).
    - ScryptoSchema: the custom types of Scrypto with all well-known types, and
      their static, manifest and engine validation
      (radix-common/src/data/, radix-engine/src/system/payload_validation.rs);
      each validation is an instance of the laws, so a payload is accepted
      exactly when it decodes to a value of the type.
    - BlueprintInterface: the fields, collections, functions and events of a
      blueprint, their payloads and partitions
      (radix-engine-interface/src/blueprints/package/substates.rs,
      radix-engine/src/system/system_substates.rs).
    - TypeChecker: the type checker of the system with its caches
      (radix-engine/src/system/system_type_checker.rs) and the callers in
      system.rs that write fields and entries and create objects and stores;
      what a checked payload owns and refers to, and that checked writes do
      not panic.
    - ManifestInstructions: the instructions of a manifest and their effects.
    - ManifestInterpreter: the static interpreter of manifests
      (static_manifest_interpreter.rs) with its visitors.
    - InterpreterSpec: well-formed manifests, as a specification on sets of live
      ids, and the simulation between interpreter and specification.
    - ManifestValidation: the verdict of the interpreter is exact, and its
      ruleset for the first network version agrees with IdValidator.

    Each component file holds its data and operations first, then a
    specification where the component has a contract, then the lemmas, and at
    its end a module of the theorems with their witnesses on concrete inputs.

    ** Fuel and bounds

    Loops of the source are structural recursions on the data they traverse,
    with these exceptions.  The walk over the auth zones of a caller follows
    references in a store and takes the size of the store as fuel: zones have
    no cycles, so this is enough ([authorization_correct] shows that the walk
    ends).  Printing of an integer takes its binary logarithm as fuel.
    Exponentiation by squaring recurses on the binary exponent.  The walk that
    assigns depths to subintents takes the number of subintents as fuel, and
    [subintents_form_tree] shows that it ends.  The SBOR decoder recurses on
    the depth limit it is given, as the source counts depth; a size has at
    most four bytes, and the loops that write and read one take ten and four
    steps.  The merging iterators take the lengths of both inputs plus one.
    A traversal takes three times the length of the payload plus three, and
    [traversal_matches_decoder] shows that it ends; validation runs one step
    for each event of it, and [scrypto_payload_typing] shows that it ends too.
    Sequences of calls are bounded only where a counter of the source could
    wrap (2^32 lock handles or manifest ids).

    ** Hypotheses

    Hash functions return 32 bytes where database keys are made of them, the
    hex crate's encoding and decoding are inverse, and the text conversion of
    bnum integers is the decimal notation.  The track is used on a database
    whose keys decode and whose payloads are valid, and each partition is used
    with one kind of substate key; these are obligations of its clients.
    The schemas that the system stores passed their validation when they were
    published; the type checker reads them, blueprint definitions and the types
    of nodes through the class [SystemReads], whose reads may fail.
    The roots that the pools take are the truncated roots of big integers.
    The buckets passed to a call are distinct objects.
    The decoders of the arguments of native methods, which derive macros
    generate, are a parameter of the analysis of resource movements, and what
    native blueprints return is a contract that its runs obey ([behaves] of
    MovementsSpec; a pool resolves an amount by the strategy of the withdrawal,
    as in Pools).  The soundness of the analysis holds for manifests whose
    protected withdrawals from pools cannot round and whose constraints keep the
    documented rules.
    The fees of a transaction settle at prices on which its tip is exact, as at
    genesis, in a world whose balances stay below the largest decimal.

    ** Not modelled

    The manifest compiler, transaction models and signatures, the comparison
    of schemas and their derivation from types, call frames and heap, the calls
    and objects of the system API, cost tables and limits, non-fungible vaults
    and managers, the worktop and the operations on auth zones, accounts
    and lockers, epochs and validators, packages and the virtual machines, the
    state tree.  The calls the modelled blueprints make on the system appear as
    the store operations they amount to.

    What follows next, in the order of its weight for the resources of users:
    the worktop and auth zone operations, accounts and lockers, non-fungible
    resources, the consensus manager, call frames and heap, the state tree. *)

From Stdlib Require Export ZArith Lia Bool.
From stdpp Require Export base tactics option list numbers strings gmap fin_maps fin_sets.

#[global] Open Scope Z_scope.

(** ** Fixed-width machine integers

    A [w]-bit integer of the source is a [Z]; the predicates below are its
    value range and the operations are Rust's: [checked_*] return [None] when
    the mathematical result leaves the range, the plain operators of unsigned
    types wrap around (the release profile of the workspace does not enable
    overflow checks). *)

Module Int.

Definition u_max (w : Z) : Z := 2 ^ w - 1.
Definition i_min (w : Z) : Z := - 2 ^ (w - 1).
Definition i_max (w : Z) : Z := 2 ^ (w - 1) - 1.

Definition in_u (w z : Z) : bool := (0 <=? z) && (z <=? u_max w).
Definition in_i (w z : Z) : bool := (i_min w <=? z) && (z <=? i_max w).

Definition checked_u (w z : Z) : option Z := if in_u w z then Some z else None.
Definition checked_i (w z : Z) : option Z := if in_i w z then Some z else None.

(** Wrap-around of the unsigned operators, e.g. [u32::wrapping_add]. *)
Definition wrap_u (w z : Z) : Z := z mod 2 ^ w.

(** Wrap-around of the signed operators. *)
Definition wrap_i (w z : Z) : Z := (z + 2 ^ (w - 1)) mod 2 ^ w - 2 ^ (w - 1).

(** Division of the integer types truncates toward zero; [checked_div] is
    [None] on a zero divisor and on the one overflow [MIN / -1]. *)
Definition checked_div_i (w a b : Z) : option Z :=
  if b =? 0 then None else checked_i w (Z.quot a b).

Lemma in_u_spec w z : in_u w z = true <-> 0 <= z <= u_max w.
Proof. unfold in_u. rewrite andb_true_iff, !Z.leb_le. lia. Qed.

Lemma in_i_spec w z : in_i w z = true <-> i_min w <= z <= i_max w.
Proof. unfold in_i. rewrite andb_true_iff, !Z.leb_le. lia. Qed.

Lemma checked_i_Some w z r :
  checked_i w z = Some r <-> r = z /\ i_min w <= z <= i_max w.
Proof.
  unfold checked_i. destruct (in_i w z) eqn:H.
  - apply in_i_spec in H. split; [by intros [= <-] | intros [-> _]; done].
  - split; [done | intros [-> Hz]]. apply in_i_spec in Hz. congruence.
Qed.

Lemma checked_i_None w z :
  checked_i w z = None <-> z < i_min w \/ i_max w < z.
Proof.
  unfold checked_i. destruct (in_i w z) eqn:H.
  - apply in_i_spec in H. split; [done | lia].
  - split; [intros _ | done]. assert (~ (i_min w <= z <= i_max w)) by
      (rewrite <- in_i_spec; congruence). lia.
Qed.

Lemma checked_u_Some w z r :
  checked_u w z = Some r <-> r = z /\ 0 <= z <= u_max w.
Proof.
  unfold checked_u. destruct (in_u w z) eqn:H.
  - apply in_u_spec in H. split; [by intros [= <-] | intros [-> _]; done].
  - split; [done | intros [-> Hz]]. apply in_u_spec in Hz. congruence.
Qed.

Lemma checked_u_small w z : 0 <= z <= u_max w -> checked_u w z = Some z.
Proof. intros H. unfold checked_u. by rewrite (proj2 (in_u_spec w z) H). Qed.

Lemma wrap_u_small w z : 0 <= z <= u_max w -> wrap_u w z = z.
Proof. unfold wrap_u, u_max. intros. apply Z.mod_small. lia. Qed.

Lemma wrap_i_small w z : 0 < w -> i_min w <= z <= i_max w -> wrap_i w z = z.
Proof.
  unfold wrap_i, i_min, i_max. intros Hw Hz.
  assert (2 ^ w = 2 * 2 ^ (w - 1)) as ->
    by (rewrite <- Z.pow_succ_r by lia; f_equal; lia).
  rewrite Z.mod_small; lia.
Qed.

End Int.

Abbreviation U8_MAX := 255 (only parsing).
Abbreviation U32_MAX := 4294967295 (only parsing).

(** Addresses and vault ids are node ids (30 bytes), which the code modelled
    here only compares. *)
Abbreviation NodeId := N (only parsing).

(** ** Results, panics and the state monad

    [Result E A] is Rust's [Result<A, E>].  A call either finishes ([Done]) or
    unwinds ([Panicked]: a failed [assert!], [unwrap], [expect] or index).  A
    component with state [S] is a computation of type [M S E A]: the state of a
    returned [Err] is the state the code had reached, since Rust does not undo
    the writes that precede a [?]. *)

Inductive Result (E A : Type) : Type :=
| Ok (a : A)
| Err (e : E).
Arguments Ok {E A} a.
Arguments Err {E A} e.

Inductive Exec (A : Type) : Type :=
| Done (a : A)
| Panicked.
Arguments Done {A} a.
Arguments Panicked {A}.

#[global] Instance Exec_ret : MRet Exec := fun A a => Done a.
#[global] Instance Exec_bind : MBind Exec :=
  fun A B f m => match m with Done a => f a | Panicked => Panicked end.

#[global] Instance Result_ret {E} : MRet (Result E) := fun A a => Ok a.
#[global] Instance Result_bind {E} : MBind (Result E) :=
  fun A B f m => match m with Ok a => f a | Err e => Err e end.

(** [Option::ok_or]. *)
Definition ok_or {E A} (o : option A) (e : E) : Result E A :=
  match o with Some a => Ok a | None => Err e end.

Lemma ok_or_Ok {E A} (o : option A) (e : E) a : ok_or o e = Ok a -> o = Some a.
Proof. destruct o; by intros [= ->]. Qed.

(** [Option::expect] and [Option::unwrap]. *)
Definition expect {A} (o : option A) : Exec A :=
  match o with Some a => Done a | None => Panicked end.

Definition M (S E A : Type) : Type := S -> Exec (Result E A * S).

#[global] Instance M_ret {S E} : MRet (M S E) := fun A a s => Done (Ok a, s).
#[global] Instance M_bind {S E} : MBind (M S E) := fun A B f m s =>
  match m s with
  | Done (Ok a, s') => f a s'
  | Done (Err e, s') => Done (Err e, s')
  | Panicked => Panicked
  end.

Section Primitives.
Context {S E : Type}.

Definition gets {A} (f : S -> A) : M S E A := fun s => Done (Ok (f s), s).
Definition modify (f : S -> S) : M S E unit := fun s => Done (Ok tt, f s).
Definition throw {A} (e : E) : M S E A := fun s => Done (Err e, s).
Definition panic {A} : M S E A := fun _ => Panicked.
Definition lift_result {A} (r : Result E A) : M S E A := fun s => Done (r, s).
Definition lift_exec {A} (x : Exec A) : M S E A :=
  fun s => match x with Done a => Done (Ok a, s) | Panicked => Panicked end.
(** [if !b { return Err(e) }] *)
Definition guard_or (b : bool) (e : E) : M S E unit := if b then mret tt else throw e.
(** [assert!(b)] *)
Definition assert_ (b : bool) : M S E unit := if b then mret tt else panic.

(** Weakest precondition: the computation does not panic, and it ends in a
    state satisfying [Q] on [Ok] and [R] on [Err]. *)
Definition wp {A} (m : M S E A) (s : S) (Q : A -> S -> Prop) (R : E -> S -> Prop) : Prop :=
  match m s with
  | Done (Ok a, s') => Q a s'
  | Done (Err e, s') => R e s'
  | Panicked => False
  end.

Lemma wp_bind {A B} (m : M S E A) (f : A -> M S E B) s Q R :
  wp m s (fun a s' => wp (f a) s' Q R) R -> wp (m ≫= f) s Q R.
Proof.
  unfold wp, mbind, M_bind. by destruct (m s) as [[[a|e] s']|].
Qed.

Lemma wp_mono {A} (m : M S E A) s (Q Q' : A -> S -> Prop) (R R' : E -> S -> Prop) :
  wp m s Q R ->
  (forall a s', Q a s' -> Q' a s') -> (forall e s', R e s' -> R' e s') ->
  wp m s Q' R'.
Proof. unfold wp. destruct (m s) as [[[a|e] s']|]; eauto. Qed.

Lemma wp_ret {A} (a : A) s (Q : A -> S -> Prop) (R : E -> S -> Prop) :
  Q a s -> wp (mret a) s Q R.
Proof. done. Qed.

Lemma wp_gets {A} (f : S -> A) s (Q : A -> S -> Prop) (R : E -> S -> Prop) :
  Q (f s) s -> wp (gets f) s Q R.
Proof. done. Qed.

Lemma wp_modify f s (Q : unit -> S -> Prop) (R : E -> S -> Prop) :
  Q tt (f s) -> wp (modify f) s Q R.
Proof. done. Qed.

Lemma wp_throw {A} e s (Q : A -> S -> Prop) (R : E -> S -> Prop) :
  R e s -> wp (throw e) s Q R.
Proof. done. Qed.

Lemma wp_lift_result {A} (r : Result E A) s (Q : A -> S -> Prop) (R : E -> S -> Prop) :
  (forall a, r = Ok a -> Q a s) -> (forall e, r = Err e -> R e s) ->
  wp (lift_result r) s Q R.
Proof. unfold wp, lift_result. destruct r; eauto. Qed.

Lemma wp_lift_exec {A} (x : Exec A) s (Q : A -> S -> Prop) (R : E -> S -> Prop) a :
  x = Done a -> Q a s -> wp (lift_exec x) s Q R.
Proof. by intros ->. Qed.

Lemma wp_guard_or b e s (Q : unit -> S -> Prop) (R : E -> S -> Prop) :
  (b = true -> Q tt s) -> (b = false -> R e s) -> wp (guard_or b e) s Q R.
Proof. unfold guard_or. destruct b; intros; [apply wp_ret | apply wp_throw]; eauto. Qed.

Lemma wp_assert b s (Q : unit -> S -> Prop) (R : E -> S -> Prop) :
  b = true -> Q tt s -> wp (assert_ b) s Q R.
Proof. intros ->. done. Qed.

Lemma wp_ok {A} (m : M S E A) s a s' (Q : A -> S -> Prop) (R : E -> S -> Prop) :
  wp m s Q R -> m s = Done (Ok a, s') -> Q a s'.
Proof. unfold wp. intros H Hm. by rewrite Hm in H. Qed.

Lemma wp_err {A} (m : M S E A) s e s' (Q : A -> S -> Prop) (R : E -> S -> Prop) :
  wp m s Q R -> m s = Done (Err e, s') -> R e s'.
Proof. unfold wp. intros H Hm. by rewrite Hm in H. Qed.

(** Inversion of a successful sequence. *)
Lemma bind_Ok_inv {A B} (m : M S E A) (f : A -> M S E B) s b s'' :
  (m ≫= f) s = Done (Ok b, s'') ->
  exists a s', m s = Done (Ok a, s') /\ f a s' = Done (Ok b, s'').
Proof.
  unfold mbind, M_bind. destruct (m s) as [[[a|e] s']|]; intros; simplify_eq; eauto.
Qed.

Lemma bind_Done_inv {A B} (m : M S E A) (f : A -> M S E B) s r s'' :
  (m ≫= f) s = Done (r, s'') ->
  (exists a s', m s = Done (Ok a, s') /\ f a s' = Done (r, s'')) \/
  (exists e, m s = Done (Err e, s'') /\ r = Err e).
Proof.
  unfold mbind, M_bind. destruct (m s) as [[[a|e] s']|]; intros; simplify_eq; eauto.
Qed.

Lemma guard_or_Ok_inv b e s u s' :
  guard_or b e s = Done (Ok u, s') -> b = true /\ s' = s.
Proof. unfold guard_or. destruct b; by intros [= _ ->]. Qed.

Lemma lift_result_Ok_inv {A} (r : Result E A) s a s' :
  lift_result r s = Done (Ok a, s') -> r = Ok a /\ s' = s.
Proof. unfold lift_result. by intros [= -> ->]. Qed.

Lemma lift_exec_Ok_inv {A} (x : Exec A) s a s' :
  lift_exec x s = Done (Ok a, s') -> x = Done a /\ s' = s.
Proof. unfold lift_exec. destruct x; by intros [= -> ->]. Qed.

Lemma assert_Ok_inv b s u s' :
  assert_ b s = Done (Ok u, s') -> b = true /\ s' = s.
Proof. unfold assert_. destruct b; by intros [= _ ->]. Qed.

(** Partial correctness: what a successful run establishes. *)
Definition wlp {A} (m : M S E A) (s : S) (Q : A -> S -> Prop) : Prop :=
  match m s with Done (Ok a, s') => Q a s' | _ => True end.

Lemma wlp_run {A} (m : M S E A) s Q a s' : wlp m s Q -> m s = Done (Ok a, s') -> Q a s'.
Proof. unfold wlp. intros H Hm. by rewrite Hm in H. Qed.

Lemma wlp_bind {A B} (m : M S E A) (f : A -> M S E B) s Q :
  wlp m s (fun a s' => wlp (f a) s' Q) -> wlp (m ≫= f) s Q.
Proof. unfold wlp, mbind, M_bind. by destruct (m s) as [[[a|e] s']|]. Qed.

Lemma wlp_ret {A} (a : A) s (Q : A -> S -> Prop) : Q a s -> wlp (mret a) s Q.
Proof. done. Qed.

Lemma wlp_gets {A} (f : S -> A) s (Q : A -> S -> Prop) : Q (f s) s -> wlp (gets f) s Q.
Proof. done. Qed.

Lemma wlp_modify f s (Q : unit -> S -> Prop) : Q tt (f s) -> wlp (modify f) s Q.
Proof. done. Qed.

Lemma wlp_throw {A} e s (Q : A -> S -> Prop) : wlp (throw e) s Q.
Proof. done. Qed.

Lemma wlp_lift_result {A} (r : Result E A) s (Q : A -> S -> Prop) :
  (forall a, r = Ok a -> Q a s) -> wlp (lift_result r) s Q.
Proof. unfold wlp, lift_result. destruct r; eauto. Qed.

Lemma wlp_lift_exec {A} (x : Exec A) s (Q : A -> S -> Prop) :
  (forall a, x = Done a -> Q a s) -> wlp (lift_exec x) s Q.
Proof. unfold wlp, lift_exec. destruct x; eauto. Qed.

(** Running a computation on a part of the state. *)
Definition zoom {T A} (get : S -> T) (set : T -> S -> S) (m : M T E A) : M S E A := fun s =>
  match m (get s) with Done (r, t) => Done (r, set t s) | Panicked => Panicked end.

Lemma wlp_guard_or b e s (Q : unit -> S -> Prop) :
  (b = true -> Q tt s) -> wlp (guard_or b e) s Q.
Proof. unfold guard_or. destruct b; intros; [apply wlp_ret; auto|apply wlp_throw]. Qed.

End Primitives.

Lemma wlp_zoom {S T E A} (get : S -> T) (set : T -> S -> S) (m : M T E A) s (Q : A -> S -> Prop) :
  wlp m (get s) (fun a t => Q a (set t s)) -> wlp (zoom get set m) s Q.
Proof. unfold wlp, zoom. by destruct (m (get s)) as [[[a|e] t]|]. Qed.

Lemma wlp_mono {S E A} (m : M S E A) s (Q Q' : A -> S -> Prop) :
  wlp m s Q -> (forall a s', Q a s' -> Q' a s') -> wlp m s Q'.
Proof. unfold wlp. destruct (m s) as [[[a|e] s']|]; eauto. Qed.

Arguments gets {S E A} f / s.
Arguments modify {S E} f / s.
Arguments throw {S E A} e / s.
Arguments lift_result {S E A} r / s.

(** Weakest precondition of a computation without state and errors. *)
Definition ewp {A} (x : Exec A) (Q : A -> Prop) : Prop :=
  match x with Done a => Q a | Panicked => False end.

Lemma ewp_bind {A B} (x : Exec A) (f : A -> Exec B) Q :
  ewp x (fun a => ewp (f a) Q) -> ewp (x ≫= f) Q.
Proof. by destruct x. Qed.

Lemma ewp_mono {A} (x : Exec A) (Q Q' : A -> Prop) :
  ewp x Q -> (forall a, Q a -> Q' a) -> ewp x Q'.
Proof. destruct x; cbn; eauto. Qed.

Lemma ewp_Done {A} (x : Exec A) a (Q : A -> Prop) : x = Done a -> Q a -> ewp x Q.
Proof. by intros ->. Qed.

(** [minv H] takes apart a successful run [H : m s = Done (Ok a, s')] of a
    computation built from the primitives. *)
Ltac minv H :=
  lazymatch type of H with
  | (mbind _ _) _ = Done (Ok _, _) =>
      let a := fresh "a" in let s := fresh "s" in
      let H1 := fresh H in
      apply bind_Ok_inv in H as (a & s & H1 & H); minv H1; minv H
  | gets _ _ = Done (Ok _, _) => cbv [gets] in H; simplify_eq
  | modify _ _ = Done (Ok _, _) => cbv [modify] in H; simplify_eq
  | mret _ _ = Done (Ok _, _) => cbv [mret M_ret] in H; simplify_eq
  | throw _ _ = Done (Ok _, _) => cbv [throw] in H; discriminate H
  | guard_or _ _ _ = Done (Ok _, _) =>
      apply guard_or_Ok_inv in H as [H ?]; simplify_eq
  | assert_ _ _ = Done (Ok _, _) =>
      apply assert_Ok_inv in H as [H ?]; simplify_eq
  | lift_result _ _ = Done (Ok _, _) =>
      apply lift_result_Ok_inv in H as [H ?]; simplify_eq
  | lift_exec _ _ = Done (Ok _, _) =>
      apply lift_exec_Ok_inv in H as [H ?]; simplify_eq
  | _ => idtac
  end.

(** [wp_step] applies the rule of the primitive at the head of a [wp] goal. *)
Ltac wp_step :=
  lazymatch goal with
  | |- wp (mbind _ _) _ _ _ => apply wp_bind
  | |- wp (mret _) _ _ _ => apply wp_ret
  | |- wp (gets _) _ _ _ => apply wp_gets
  | |- wp (modify _) _ _ _ => apply wp_modify
  | |- wp (throw _) _ _ _ => apply wp_throw
  end.
Ltac wp_steps := repeat (wp_step; cbn beta).

(** [wlp_steps] runs a [wlp] goal through, case by case. *)
Ltac wlp_step :=
  lazymatch goal with
  | |- wlp (mbind _ _) _ _ => apply wlp_bind
  | |- wlp (mret _) _ _ => apply wlp_ret
  | |- wlp (gets _) _ _ => apply wlp_gets
  | |- wlp (modify _) _ _ => apply wlp_modify
  | |- wlp (throw _) _ _ => apply wlp_throw
  | |- wlp (lift_result _) _ _ => apply wlp_lift_result; intros ? ?
  | |- wlp (lift_exec _) _ _ => apply wlp_lift_exec; intros ? ?
  | |- wlp (guard_or _ _) _ _ => apply wlp_guard_or; intros ?
  | |- wlp (match ?x with _ => _ end) _ _ => destruct x eqn:?
  | |- wlp (let _ := _ in _) _ _ => cbv zeta
  end.
Ltac wlp_steps := repeat (wlp_step; cbn beta).

(** [zbool] turns the boolean comparisons of the code into propositions. *)
Ltac zbool :=
  repeat match goal with
  | H : _ && _ = true |- _ => apply andb_true_iff in H as [? ?]
  | H : _ || _ = false |- _ => apply orb_false_iff in H as [? ?]
  | H : negb _ = true |- _ => apply negb_true_iff in H
  | H : negb _ = false |- _ => apply negb_false_iff in H
  | H : (_ <? _) = true |- _ => apply Z.ltb_lt in H
  | H : (_ <? _) = false |- _ => apply Z.ltb_ge in H
  | H : (_ <=? _) = true |- _ => apply Z.leb_le in H
  | H : (_ <=? _) = false |- _ => apply Z.leb_gt in H
  | H : (_ =? _) = true |- _ => apply Z.eqb_eq in H
  | H : (_ =? _) = false |- _ => apply Z.eqb_neq in H
  end.

Create HintDb radix.

(** ** Sums over finite maps *)
Section MapSum.
Context {K A : Type} `{Countable K} (f : A -> Z).
Implicit Types (m : gmap K A).

Definition msum m : Z := map_fold (fun _ a acc => f a + acc) 0 m.

Lemma msum_empty : msum ∅ = 0.
Proof. apply map_fold_empty. Qed.

Lemma msum_insert_fresh m k a : m !! k = None -> msum (<[k:=a]> m) = f a + msum m.
Proof.
  intros Hk. unfold msum. rewrite map_fold_insert_L; [done| |done]. intros. lia.
Qed.

Lemma msum_delete m k a : m !! k = Some a -> msum m = f a + msum (delete k m).
Proof.
  intros Hk. rewrite <- (msum_insert_fresh (delete k m) k a) by (apply lookup_delete_eq).
  by rewrite insert_delete_id.
Qed.

Lemma msum_insert m k a b :
  m !! k = Some a -> msum (<[k:=b]> m) = msum m - f a + f b.
Proof.
  intros Hk. rewrite (msum_delete m k a) by done.
  rewrite <- (insert_delete_eq m k b), msum_insert_fresh by apply lookup_delete_eq. lia.
Qed.

Lemma msum_nonneg m : (forall k a, m !! k = Some a -> 0 <= f a) -> 0 <= msum m.
Proof.
  unfold msum. apply (map_fold_weak_ind
    (fun r m => (forall k a, m !! k = Some a -> 0 <= f a) -> 0 <= r)); [done|].
  intros k a m' r Hk IH Hall.
  assert (0 <= f a) by (apply (Hall k); by rewrite lookup_insert_eq).
  assert (0 <= r); [|lia]. apply IH. intros k' a' Hk'. apply (Hall k').
  rewrite lookup_insert_ne; [done|]. congruence.
Qed.

Lemma msum_lookup_le m k a :
  (forall k a, m !! k = Some a -> 0 <= f a) -> m !! k = Some a -> f a <= msum m.
Proof.
  intros Hall Hk. rewrite (msum_delete m k a) by done.
  assert (0 <= msum (delete k m)); [|lia]. apply msum_nonneg.
  intros k' a' [_ Hk']%lookup_delete_Some. by eapply Hall.
Qed.
End MapSum.

