(* ===== verification/Decimals.v ===== *)
(** * Fixed-point decimals

    [Decimal] (radix-common/src/math/decimal.rs) is a 192-bit signed integer
    counting subunits of 10^-18.  A value of the type is the integer [d : Z] of
    its subunits; [wf d] says that it fits in [I192].  This file holds the
    rounding modes (rounding_mode.rs), the narrowing conversions of the wide
    integers (bnum_integer/convert.rs), the checked arithmetic, rounding, powers
    and roots. *)

From S2P Require Import Prelude.
Import Int.

Abbreviation Decimal := Z (only parsing).

(** ** Rounding modes *)
Module Rounding.

Inductive RoundingMode : Type :=
| ToPositiveInfinity
| ToNegativeInfinity
| ToZero
| AwayFromZero
| ToNearestMidpointTowardZero
| ToNearestMidpointAwayFromZero
| ToNearestMidpointToEven.

Inductive ResolvedRoundingStrategy : Type :=
| RoundUp
| RoundDown
| RoundToEven.

Definition towards_zero (is_positive : bool) : ResolvedRoundingStrategy :=
  if is_positive then RoundDown else RoundUp.

Definition away_from_zero (is_positive : bool) : ResolvedRoundingStrategy :=
  if is_positive then RoundUp else RoundDown.

Definition from_midpoint_ordering (ordering : comparison)
    (equal_strategy : ResolvedRoundingStrategy) : ResolvedRoundingStrategy :=
  match ordering with
  | Lt => RoundDown
  | Eq => equal_strategy
  | Gt => RoundUp
  end.

Definition from_mode (mode : RoundingMode) (is_positive : bool)
    (compare_to_midpoint : comparison) : ResolvedRoundingStrategy :=
  match mode with
  | ToPositiveInfinity => RoundUp
  | ToNegativeInfinity => RoundDown
  | ToZero => towards_zero is_positive
  | AwayFromZero => away_from_zero is_positive
  | ToNearestMidpointTowardZero =>
      from_midpoint_ordering compare_to_midpoint (towards_zero is_positive)
  | ToNearestMidpointAwayFromZero =>
      from_midpoint_ordering compare_to_midpoint (away_from_zero is_positive)
  | ToNearestMidpointToEven =>
      from_midpoint_ordering compare_to_midpoint RoundToEven
  end.

#[export] Instance RoundingMode_eq_dec : EqDecision RoundingMode.
Proof. solve_decision. Defined.

End Rounding.
Import Rounding.

(** ** Narrowing of the wide signed integers *)
Module Wide.

(** [leading_zeros] of a [w]-bit two's complement integer. *)
Definition leading_zeros (w x : Z) : Z :=
  if x <? 0 then 0 else if x =? 0 then w else w - (Z.log2 x + 1).

(** [TryFrom<I{wf}> for I{wt}] ([impl_try_from_bnum]): the absolute value is
    taken (except for [MIN]), its leading zeros are compared with the difference
    of the widths, and the sign is multiplied back. *)
Definition try_from_bnum (wf wt val : Z) : option Z :=
  let '(other, sign) :=
    if val <? 0
    then if val =? i_min wf then (val, 1) else (0 - val, -1)
    else (val, 1) in
  if leading_zeros wf other <=? wf - wt then None
  else Some (wrap_i wt other * sign).

Lemma leading_zeros_gt w k x :
  0 <= x -> 0 <= k < w -> (k < leading_zeros w x <-> x < 2 ^ (w - k - 1)).
Proof.
  intros Hx Hk. unfold leading_zeros.
  replace (x <? 0) with false by (symmetry; apply Z.ltb_ge; lia).
  destruct (x =? 0) eqn:H0; zbool.
  - subst. pose proof (Z.pow_pos_nonneg 2 (w - k - 1)). lia.
  - rewrite (Z.log2_lt_pow2 x (w - k - 1)) by lia. lia.
Qed.

(** The conversion succeeds exactly on the values whose magnitude is at most
    [i_max wt], and then it is the identity; in particular it refuses
    [i_min wt], which the target type could hold. *)
Lemma try_from_bnum_spec wf wt val :
  0 < wt < wf -> i_min wf <= val <= i_max wf ->
  try_from_bnum wf wt val = if Z.abs val <=? i_max wt then Some val else None.
Proof.
  intros Hw Hv. unfold try_from_bnum.
  assert (Hpos : forall x, 0 <= x <= i_max wf ->
    (leading_zeros wf x <=? wf - wt) = negb (x <=? i_max wt)).
  { intros x Hx. pose proof (leading_zeros_gt wf (wf - wt) x) as Hl.
    unfold i_max. replace (wf - (wf - wt) - 1) with (wt - 1) in Hl by lia.
    destruct (leading_zeros wf x <=? wf - wt) eqn:E1, (x <=? 2 ^ (wt - 1) - 1) eqn:E2;
      try done; zbool; exfalso; lia. }
  assert (Hwrap : forall x, 0 <= x <= i_max wt -> wrap_i wt x = x).
  { intros x Hx. apply wrap_i_small; [lia|]. unfold i_min.
    pose proof (Z.pow_pos_nonneg 2 (wt - 1)). lia. }
  assert (Hlt : i_max wt < i_max wf).
  { unfold i_max. pose proof (Z.pow_lt_mono_r 2 (wt - 1) (wf - 1)). lia. }
  assert (Hm : i_min wf = - i_max wf - 1) by (unfold i_min, i_max; lia).
  destruct (val <? 0) eqn:Hneg; zbool.
  - destruct (val =? i_min wf) eqn:Hmin; zbool.
    + unfold leading_zeros. replace (val <? 0) with true by (symmetry; apply Z.ltb_lt; lia).
      replace (0 <=? wf - wt) with true by (symmetry; apply Z.leb_le; lia).
      replace (Z.abs val <=? i_max wt) with false; [done|]. symmetry; apply Z.leb_gt; lia.
    + replace (Z.abs val) with (0 - val) by lia. rewrite Hpos by lia.
      destruct (0 - val <=? i_max wt) eqn:E; [|done]. zbool. simpl.
      rewrite Hwrap by lia. f_equal. lia.
  - replace (Z.abs val) with val by lia. rewrite Hpos by lia.
    destruct (val <=? i_max wt) eqn:E; [|done]. zbool. simpl.
    rewrite Hwrap by lia. f_equal. lia.
Qed.

Lemma quot_bound a b : b <> 0 -> Z.abs (Z.quot a b) <= Z.abs a.
Proof.
  intros Hb. rewrite <- Z.quot_abs by done.
  rewrite Z.quot_div_nonneg by lia.
  apply Z.div_le_upper_bound; nia.
Qed.

Lemma checked_div_i_small w c b :
  b <> 0 -> i_min w <= Z.quot c b <= i_max w -> checked_div_i w c b = Some (Z.quot c b).
Proof.
  intros Hb Hq. unfold checked_div_i. rewrite (proj2 (Z.eqb_neq b 0) Hb). by apply checked_i_Some.
Qed.

(** Fixed-point arithmetic through integers of [ws] bits, where the scaled range
    of the type fits: the detour never loses a representable result, apart from
    the single value [i_min w], which the conversion refuses. *)
Section Through.
Context (w ws one : Z) (Hw : 0 < w < ws) (Hone : 1 < one)
  (Hfit : 2 ^ (w - 1) * one < 2 ^ (ws - 1)).

Lemma quotient_through c b :
  b <> 0 -> i_min ws <= Z.quot c b <= i_max ws ->
  (c ← checked_div_i ws c b; try_from_bnum ws w c) =
    if Z.abs (Z.quot c b) <=? i_max w then Some (Z.quot c b) else None.
Proof.
  intros Hb Hq. rewrite checked_div_i_small by done. by apply try_from_bnum_spec.
Qed.

Lemma mul_through a b :
  (c ← checked_i ws (a * b); c ← checked_div_i ws c one; try_from_bnum ws w c) =
    let q := Z.quot (a * b) one in
    if Z.abs q <=? i_max w then Some q else None.
Proof.
  cbv zeta. assert (Hq : Z.abs (Z.quot (a * b) one) = Z.abs (a * b) / one)
    by (rewrite <- Z.quot_abs, Z.quot_div_nonneg, (Z.abs_eq one) by lia; done).
  destruct (checked_i ws (a * b)) as [c|] eqn:Hc; cbn [mbind option_bind].
  - apply checked_i_Some in Hc as [-> Hr]. apply quotient_through; [lia|].
    assert (Z.abs (a * b) / one < 2 ^ (ws - 1)); [|unfold i_min, i_max; lia].
    apply Z.div_lt_upper_bound; [lia|]. unfold i_min, i_max in Hr.
    pose proof (Z.pow_pos_nonneg 2 (ws - 1)). nia.
  - apply checked_i_None in Hc.
    replace (Z.abs (Z.quot (a * b) one) <=? i_max w) with false; [done|].
    symmetry. apply Z.leb_gt. rewrite Hq.
    apply Z.lt_le_trans with (2 ^ (w - 1)); [unfold i_max; lia|].
    apply Z.div_le_lower_bound; [lia|]. unfold i_min, i_max in Hc. lia.
Qed.

Lemma div_through a b :
  i_min w <= a <= i_max w ->
  (c ← checked_i ws (a * one); c ← checked_div_i ws c b; try_from_bnum ws w c) =
    if b =? 0 then None else
    let q := Z.quot (a * one) b in
    if Z.abs q <=? i_max w then Some q else None.
Proof.
  intros Ha. assert (Hm : Z.abs (a * one) < 2 ^ (ws - 1)).
  { rewrite Z.abs_mul, (Z.abs_eq one) by lia. unfold i_min, i_max in Ha. nia. }
  rewrite (proj2 (checked_i_Some ws (a * one) (a * one)))
    by (split; [done|unfold i_min, i_max; lia]).
  cbn [mbind option_bind]. destruct (b =? 0) eqn:Hb; zbool.
  - by subst.
  - apply quotient_through; [done|]. pose proof (quot_bound (a * one) b Hb).
    unfold i_min, i_max. lia.
Qed.
End Through.

End Wide.
Import Wide.

(** ** Rounding of a fixed-point number

    [Decimal] and [PreciseDecimal] round with the same code, over the width [w]
    of their integer and their number [scale] of decimal places. *)
Module Fixed.

(** The last part of [checked_round]: apply the resolved strategy. *)
Definition round_resolved (w d divisor positive_remainder : Z)
    (resolved_strategy : ResolvedRoundingStrategy) : Exec (option Z) :=
  match resolved_strategy with
  | RoundUp =>
      to_add ← expect (checked_i w (divisor - positive_remainder));
      Done (checked_i w (d + to_add))
  | RoundDown => Done (checked_i w (d - positive_remainder))
  | RoundToEven =>
      let double_divisor := Z.shiftl divisor 1 in
      if 0 <? d then
        match checked_i w (d - positive_remainder) with
        | None => Done None
        | Some rounded_down =>
            if Z.rem rounded_down double_divisor =? 0 then Done (Some rounded_down)
            else Done (checked_i w (rounded_down + divisor))
        end
      else
        to_add ← expect (checked_i w (divisor - positive_remainder));
        match checked_i w (d + to_add) with
        | None => Done None
        | Some rounded_up =>
            if Z.rem rounded_up double_divisor =? 0 then Done (Some rounded_up)
            else Done (checked_i w (rounded_up - divisor))
        end
  end.

Definition checked_round_at (w scale d decimal_places : Z) (mode : RoundingMode) :
    Exec (option Z) :=
  if negb (decimal_places <=? scale) then Panicked else
  if negb (0 <=? decimal_places) then Panicked else
  let n := scale - decimal_places in
  let divisor := 10 ^ n in
  let remainder := Z.rem d divisor in
  match Z.compare remainder 0 with
  | Eq => Done (Some d)
  | c =>
    let positive_remainder :=
      match c with Lt => divisor + remainder | _ => remainder end in
    let midpoint := Z.shiftr divisor 1 in
    round_resolved w d divisor positive_remainder
      (from_mode mode (0 <? d) (Z.compare positive_remainder midpoint))
  end.

End Fixed.
Import Fixed.

(** ** The [Decimal] type *)
Module Dec.

Definition SCALE : Z := 18.
Definition MIN : Decimal := i_min 192.
Definition MAX : Decimal := i_max 192.
Definition ZERO : Decimal := 0.
Definition ONE : Decimal := 10 ^ SCALE.
Definition ONE_HUNDREDTH : Decimal := 10 ^ (SCALE - 2).

(** The values of the type. *)
Definition wf (d : Decimal) : Prop := MIN <= d <= MAX.

Definition is_zero (d : Decimal) : bool := d =? 0.
Definition is_positive (d : Decimal) : bool := 0 <? d.
Definition is_negative (d : Decimal) : bool := d <? 0.

Definition checked_neg (d : Decimal) : option Decimal := checked_i 192 (- d).
Definition checked_add (a b : Decimal) : option Decimal := checked_i 192 (a + b).
Definition checked_sub (a b : Decimal) : option Decimal := checked_i 192 (a - b).

Definition saturating_add (a b : Decimal) : Decimal :=
  Z.max MIN (Z.min MAX (a + b)).

Definition checked_mul (a b : Decimal) : option Decimal :=
  c ← checked_i 256 (a * b);
  c ← checked_div_i 256 c ONE;
  try_from_bnum 256 192 c.

Definition checked_div (a b : Decimal) : option Decimal :=
  c ← checked_i 256 (a * ONE);
  c ← checked_div_i 256 c b;
  try_from_bnum 256 192 c.

(** The operators [+], [-], [*], [/] panic where the checked forms are [None]. *)
Definition add (a b : Decimal) : Exec Decimal := expect (checked_add a b).
Definition sub (a b : Decimal) : Exec Decimal := expect (checked_sub a b).
Definition mul (a b : Decimal) : Exec Decimal := expect (checked_mul a b).
Definition div (a b : Decimal) : Exec Decimal := expect (checked_div a b).

(** [From<uN/iN> for Decimal]. *)
Definition from_int (val : Z) : Exec Decimal := expect (checked_i 192 (val * ONE)).

(** [CheckedMul<u32> for Decimal] and its siblings ([impl_arith_ops]): the
    conversion of a primitive integer cannot fail but may panic. *)
Definition checked_mul_int (d : Decimal) (val : Z) : Exec (option Decimal) :=
  v ← from_int val; mret (checked_mul d v).

Definition checked_abs (d : Decimal) : option Decimal :=
  if negb (d =? MIN) then Some (Z.abs d) else None.

Definition checked_round (d : Decimal) (decimal_places : Z) (mode : RoundingMode) :
    Exec (option Decimal) :=
  checked_round_at 192 SCALE d decimal_places mode.

Definition checked_floor (d : Decimal) : Exec (option Decimal) :=
  checked_round d 0 ToNegativeInfinity.

Definition checked_ceiling (d : Decimal) : Exec (option Decimal) :=
  checked_round d 0 ToPositiveInfinity.

(** Exponentiation by squaring, for [exp >= 1].  The tests [exp == 1] and
    [exp % 2 == 0] and the halvings of the source are the cases of the binary
    representation of the exponent. *)
Fixpoint checked_powi_pos (d : Decimal) (exp : positive) : option Decimal :=
  match exp with
  | xH => Some d
  | xO half =>
      sq ← checked_i 256 (d * d);
      dec_192 ← try_from_bnum 256 192 (Z.quot sq ONE);
      checked_powi_pos dec_192 half
  | xI half =>
      sq ← checked_i 256 (d * d);
      dec_192 ← try_from_bnum 256 192 (Z.quot sq ONE);
      b ← checked_powi_pos dec_192 half;
      checked_mul d b
  end.

Definition checked_powi (d : Decimal) (exp : Z) : option Decimal :=
  match exp with
  | Z0 => Some ONE
  | Zpos p => checked_powi_pos d p
  | Zneg p =>
      c ← checked_div_i 256 (ONE * ONE) d;
      dec_192 ← try_from_bnum 256 192 c;
      e ← checked_i 64 (exp * -1);
      match e with
      | Zpos p' => checked_powi_pos dec_192 p'
      | _ => Some ONE
      end
  end.

(** The integer roots come from the crates [bnum] and [num-integer]. *)
Section Roots.
Variable sqrt_256 : Z -> Z.
Variable nth_root_big : Z -> Z -> Z.

Definition checked_sqrt (d : Decimal) : option Decimal :=
  if is_negative d then None else
  if is_zero d then Some ZERO else
  try_from_bnum 256 192 (sqrt_256 (d * ONE)).

(** [I192::try_from(BigInt)] succeeds on the range of [I192]. *)
Definition checked_nth_root (d : Decimal) (n : Z) : Exec (option Decimal) :=
  if (is_negative d && (n mod 2 =? 0)) || (n =? 0) then Done None
  else if n =? 1 then Done (Some d)
  else if is_zero d then Done (Some ZERO)
  else
    nth_root ← expect (checked_i 192 (nth_root_big (d * ONE ^ (n - 1)) n));
    Done (Some nth_root).
End Roots.

End Dec.

(** ** Correctness of the checked arithmetic *)
Module DecSpec.
Import Dec.

Lemma MAX_val : MAX = 2 ^ 191 - 1. Proof. done. Qed.
Lemma MIN_val : MIN = - 2 ^ 191. Proof. done. Qed.
Lemma ONE_val : ONE = 1000000000000000000. Proof. done. Qed.

Lemma wf_range d : wf d <-> - 2 ^ 191 <= d <= 2 ^ 191 - 1.
Proof. done. Qed.

Lemma checked_add_Some a b c : checked_add a b = Some c <-> c = a + b /\ wf (a + b).
Proof. apply checked_i_Some. Qed.

Lemma checked_sub_Some a b c : checked_sub a b = Some c <-> c = a - b /\ wf (a - b).
Proof. apply checked_i_Some. Qed.

Lemma checked_add_wf a b c : checked_add a b = Some c -> wf c.
Proof. by intros [-> ?]%checked_add_Some. Qed.

Lemma checked_sub_nonneg a b : wf a -> 0 <= b <= a -> checked_sub a b = Some (a - b).
Proof. intros Ha Hb. apply checked_sub_Some. split; [done|]. rewrite wf_range in *. lia. Qed.

Lemma try_from_192 c :
  i_min 256 <= c <= i_max 256 ->
  try_from_bnum 256 192 c = if Z.abs c <=? MAX then Some c else None.
Proof. intros. by apply try_from_bnum_spec. Qed.

(** Multiplication computes the truncated product of the represented numbers;
    the detour through 256 bits never loses a representable result, apart from
    the single value [MIN]. *)
Lemma checked_mul_spec a b :
  checked_mul a b =
    let q := Z.quot (a * b) ONE in
    if Z.abs q <=? MAX then Some q else None.
Proof. by apply mul_through. Qed.

(** Division computes the truncated quotient, and is [None] on a zero divisor. *)
Lemma checked_div_spec a b :
  wf a ->
  checked_div a b =
    if b =? 0 then None else
    let q := Z.quot (a * ONE) b in
    if Z.abs q <=? MAX then Some q else None.
Proof. by apply div_through. Qed.

(** A product of non-negative decimals is non-negative and rounds down. *)
Lemma checked_mul_nonneg a b c :
  0 <= a -> 0 <= b -> checked_mul a b = Some c ->
  0 <= c /\ c * ONE <= a * b < (c + 1) * ONE /\ wf c.
Proof.
  intros Ha Hb. rewrite checked_mul_spec. cbv zeta.
  rewrite Z.quot_div_nonneg by (rewrite ?ONE_val; nia).
  destruct (Z.abs _ <=? MAX) eqn:E; [|done]. intros [= <-]. zbool.
  pose proof (Z.div_pos (a * b) ONE). rewrite ONE_val in *.
  pose proof (Z.div_mod (a * b) 1000000000000000000).
  pose proof (Z.mod_pos_bound (a * b) 1000000000000000000).
  rewrite wf_range. rewrite MAX_val in E. nia.
Qed.

Lemma checked_mul_wf a b c : checked_mul a b = Some c -> wf c.
Proof.
  rewrite checked_mul_spec. cbv zeta. destruct (_ <=? _) eqn:E; [|done].
  intros [= <-]. zbool. rewrite MAX_val in E. apply wf_range. lia.
Qed.

(** Multiplying by a whole number is exact. *)
Lemma checked_mul_whole a k :
  checked_mul a (k * ONE) = if Z.abs (a * k) <=? MAX then Some (a * k) else None.
Proof.
  rewrite checked_mul_spec. cbv zeta.
  replace (a * (k * ONE)) with (a * k * ONE) by ring.
  by rewrite Z.quot_mul by done.
Qed.

Lemma from_int_Done v :
  Z.abs v <= 2 ^ 128 -> from_int v = Done (v * ONE).
Proof.
  intros Hv. unfold from_int.
  replace (checked_i 192 (v * ONE)) with (Some (v * ONE)); [done|].
  symmetry. apply checked_i_Some. split; [done|].
  change (i_min 192) with (- 2 ^ 191). change (i_max 192) with (2 ^ 191 - 1).
  rewrite ONE_val. lia.
Qed.

(** [price * cost_units] of the fee code is exact. *)
Lemma checked_mul_int_spec a v :
  Z.abs v <= 2 ^ 128 ->
  checked_mul_int a v = Done (if Z.abs (a * v) <=? MAX then Some (a * v) else None).
Proof.
  intros Hv. unfold checked_mul_int. rewrite from_int_Done by done. cbn.
  by rewrite checked_mul_whole.
Qed.

End DecSpec.

(** ** Correctness of rounding *)
Module RoundSpec.
Import Dec DecSpec.

(** What each mode promises of the result [r] of rounding [d] to a multiple
    of [D]. *)
Definition nearest (d D r : Z) : Prop :=
  forall m, Z.abs (r - d) <= Z.abs (m * D - d).

Definition is_midpoint (d D r : Z) : Prop := 2 * Z.abs (r - d) = D.

Definition rounds_to (mode : RoundingMode) (d D r : Z) : Prop :=
  (D | r) /\ Z.abs (r - d) < D /\
  match mode with
  | ToPositiveInfinity => d <= r
  | ToNegativeInfinity => r <= d
  | ToZero => Z.abs r <= Z.abs d
  | AwayFromZero => Z.abs d <= Z.abs r
  | ToNearestMidpointTowardZero =>
      nearest d D r /\ (is_midpoint d D r -> Z.abs r <= Z.abs d)
  | ToNearestMidpointAwayFromZero =>
      nearest d D r /\ (is_midpoint d D r -> Z.abs d <= Z.abs r)
  | ToNearestMidpointToEven =>
      nearest d D r /\ (is_midpoint d D r -> (2 * D | r))
  end.

(** The value [checked_round] computes before its range check. *)
Definition strategy_value (s : ResolvedRoundingStrategy) (q D : Z) : Z :=
  match s with
  | RoundUp => (q + 1) * D
  | RoundDown => q * D
  | RoundToEven => if Z.even q then q * D else (q + 1) * D
  end.

Definition round_value (mode : RoundingMode) (d D : Z) : Z :=
  if d mod D =? 0 then d else
  strategy_value (from_mode mode (is_positive d) (Z.compare (2 * (d mod D)) D)) (d / D) D.

Lemma pow10_pos n : 0 <= n -> 0 < 10 ^ n.
Proof. intros. by apply Z.pow_pos_nonneg. Qed.

Lemma rem_mod d D : 0 < D ->
  match Z.compare (Z.rem d D) 0 with
  | Eq => d mod D = 0
  | Lt => D + Z.rem d D = d mod D /\ d mod D <> 0
  | Gt => Z.rem d D = d mod D /\ d mod D <> 0
  end.
Proof.
  intros HD. pose proof (Z.quot_rem' d D) as Hq. pose proof (Z.rem_bound_abs d D ltac:(lia)).
  destruct (Z.compare_spec (Z.rem d D) 0).
  - symmetry. apply Z.mod_unique with (Z.quot d D); lia.
  - assert (D + Z.rem d D = d mod D) by (apply Z.mod_unique with (Z.quot d D - 1); lia). lia.
  - assert (Z.rem d D = d mod D) by (apply Z.mod_unique with (Z.quot d D); lia). lia.
Qed.

Lemma midpoint_compare n r :
  1 <= n -> Z.compare r (Z.shiftr (10 ^ n) 1) = Z.compare (2 * r) (10 ^ n).
Proof.
  intros Hn. rewrite Z.shiftr_div_pow2 by lia. change (2 ^ 1) with 2.
  replace (10 ^ n) with (2 * (5 * 10 ^ (n - 1)))
    by (replace n with (Z.succ (n - 1)) at 2 by lia; rewrite Z.pow_succ_r by lia; ring).
  rewrite (Z.mul_comm 2 (5 * _)), Z.div_mul by lia.
  rewrite (Z.mul_comm (5 * _) 2). symmetry. apply Zcompare_mult_compat.
Qed.

Lemma rem_double_even q D :
  0 < D -> (Z.rem (q * D) (Z.shiftl D 1) =? 0) = Z.even q.
Proof.
  intros HD. rewrite Z.shiftl_mul_pow2 by lia. change (2 ^ 1) with 2.
  rewrite (Z.mul_comm D 2), Z.mul_rem_distr_r by lia.
  destruct (Z.even q) eqn:E.
  - apply Z.even_spec in E as [k ->]. rewrite (Z.mul_comm 2 k), Z.rem_mul by lia. done.
  - apply Z.eqb_neq. intros H%Z.eq_mul_0. destruct H as [H|H]; [|lia].
    apply Z.rem_divide in H as [k ->]; [|lia]. rewrite Z.even_mul in E.
    by rewrite orb_true_r in E.
Qed.

(** Between two representable values, a multiple of [D] next to [d] is
    representable on the side of zero. *)
Lemma round_resolved_value w d D st :
  i_min w <= d <= i_max w -> 0 < D <= i_max w -> d mod D <> 0 ->
  round_resolved w d D (d mod D) st = Done (checked_i w (strategy_value st (d / D) D)).
Proof.
  intros Hd HD Hr. unfold i_min, i_max in *.
  pose proof (Z.div_mod d D ltac:(lia)) as Hdm.
  pose proof (Z.mod_pos_bound d D ltac:(lia)) as Hb.
  set (q := d / D) in *. set (r := d mod D) in *.
  assert (Hrange : forall z, - 2 ^ (w - 1) <= z <= 2 ^ (w - 1) - 1 -> checked_i w z = Some z)
    by (intros; by apply checked_i_Some).
  unfold round_resolved. rewrite (Hrange (D - r)) by lia.
  cbn [expect mbind Exec_bind].
  assert (Hup : (q + 1) * D = d + (D - r)) by lia. assert (Hdown : q * D = d - r) by lia.
  rewrite <- Hup, <- Hdown.
  destruct st; [done..|]. cbn [strategy_value].
  destruct (0 <? d) eqn:Hp; zbool.
  - assert (0 <= q * D) by (apply Z.mul_nonneg_nonneg; [apply Z.div_pos|]; lia).
    rewrite (Hrange (q * D)), rem_double_even by lia.
    destruct (Z.even q); [by rewrite Hrange by lia | do 2 f_equal; lia].
  - assert ((q + 1) * D <= 0) by (assert (q + 1 <= 0); nia).
    rewrite (Hrange ((q + 1) * D)), rem_double_even by lia.
    rewrite Z.add_1_r, Z.even_succ, <- Z.negb_even, <- Z.add_1_r.
    destruct (Z.even q); simpl; [do 2 f_equal; lia | by rewrite Hrange by lia].
Qed.

(** The code computes [round_value] and then checks its range. *)
Lemma checked_round_at_value w scale d dp mode :
  i_min w <= d <= i_max w -> 0 <= dp <= scale -> 10 ^ scale <= i_max w ->
  checked_round_at w scale d dp mode = Done (checked_i w (round_value mode d (10 ^ (scale - dp)))).
Proof.
  intros Hd Hdp Hs. unfold checked_round_at.
  replace (dp <=? scale) with true by (symmetry; apply Z.leb_le; lia).
  replace (0 <=? dp) with true by (symmetry; apply Z.leb_le; lia). cbn [negb].
  cbv zeta. set (n := scale - dp). set (D := 10 ^ n).
  assert (HD : 0 < D) by (apply pow10_pos; unfold n; lia).
  assert (HDs : D <= i_max w).
  { etransitivity; [|exact Hs]. unfold D. apply Z.pow_le_mono_r; unfold n; lia. }
  pose proof (Z.mod_pos_bound d D HD) as Hb.
  assert (Hn : d mod D <> 0 ->
    Z.compare (d mod D) (Z.shiftr D 1) = Z.compare (2 * (d mod D)) D).
  { intros Hr. apply midpoint_compare. destruct (decide (n = 0)) as [E|E].
    - unfold D in Hb, Hr. rewrite E in Hb, Hr. change (10 ^ 0) with 1 in *. lia.
    - unfold n in *; lia. }
  unfold round_value, is_positive. pose proof (rem_mod d D HD) as Hrem.
  destruct (Z.compare (Z.rem d D) 0) eqn:Hc.
  - rewrite Hrem. cbn [Z.eqb]. f_equal. symmetry. by apply checked_i_Some.
  - destruct Hrem as [-> Hr]. apply Z.eqb_neq in Hr as Hr'. rewrite Hr', Hn by done.
    by apply round_resolved_value.
  - destruct Hrem as [-> Hr]. apply Z.eqb_neq in Hr as Hr'. rewrite Hr', Hn by done.
    by apply round_resolved_value.
Qed.

Lemma checked_round_value d dp mode :
  wf d -> 0 <= dp <= SCALE ->
  checked_round d dp mode = Done (checked_i 192 (round_value mode d (10 ^ (SCALE - dp)))).
Proof. intros. by apply checked_round_at_value. Qed.

Lemma nearest_spec d D q r0 :
  0 < D -> d = q * D + r0 -> 0 < r0 < D ->
  (2 * r0 <= D -> nearest d D (q * D)) /\ (D <= 2 * r0 -> nearest d D ((q + 1) * D)).
Proof.
  intros HD -> Hr. split; intros H m; destruct (Z.le_gt_cases m q); nia.
Qed.

Lemma even_double_divide q D : Z.even q = true -> (2 * D | q * D).
Proof. intros [k ->]%Z.even_spec. exists k. ring. Qed.

Lemma odd_double_divide q D : Z.even q = false -> (2 * D | (q + 1) * D).
Proof.
  intros E. apply even_double_divide. by rewrite Z.add_1_r, Z.even_succ, <- Z.negb_even, E.
Qed.

(** What the code computes is what the mode promises. *)
Lemma round_value_rounds mode d D : 0 < D -> rounds_to mode d D (round_value mode d D).
Proof.
  intros HD. unfold round_value.
  pose proof (Z.div_mod d D ltac:(lia)) as Hdm. pose proof (Z.mod_pos_bound d D HD) as Hb.
  set (q := d / D) in *. set (r := d mod D) in *.
  destruct (r =? 0) eqn:Hr; zbool.
  { split; [exists q; lia|]. split; [lia|].
    destruct mode; repeat split; unfold nearest, is_midpoint; intros; lia. }
  destruct (nearest_spec d D q r HD ltac:(lia) ltac:(lia)) as [Hn1 Hn2].
  assert (Hpos : 0 < d -> 0 <= q) by (intros; apply Z.div_pos; lia).
  assert (Hneg : d <= 0 -> q + 1 <= 0) by nia.
  assert (Hd1 : (D | q * D)) by (by exists q).
  assert (Hd2 : (D | (q + 1) * D)) by (by exists (q + 1)).
  unfold rounds_to, is_midpoint, is_positive, from_mode, from_midpoint_ordering,
    towards_zero, away_from_zero, strategy_value.
  destruct mode; try (destruct (Z.compare_spec (2 * r) D));
    try (destruct (0 <? d) eqn:Hp; zbool); try (destruct (Z.even q) eqn:Ev);
    repeat split; auto; intros; try nia; try (apply Hn1; lia); try (apply Hn2; lia);
    auto using even_double_divide, odd_double_divide.
Qed.

End RoundSpec.

(** ** Powers and roots *)
Module PowSpec.
Import Dec DecSpec.

Lemma square_step k :
  Z.abs (k * k) * ONE <= MAX ->
  (sq ← checked_i 256 (k * ONE * (k * ONE));
   try_from_bnum 256 192 (Z.quot sq ONE)) = Some (k * k * ONE).
Proof.
  intros Hk. rewrite MAX_val, ONE_val in Hk.
  replace (checked_i 256 (k * ONE * (k * ONE))) with (Some (k * k * ONE * ONE)).
  - cbn [mbind option_bind]. rewrite Z.quot_mul by done.
    rewrite try_from_192 by
      (change (i_min 256) with (- 2 ^ 255); change (i_max 256) with (2 ^ 255 - 1);
       rewrite ONE_val; lia).
    replace (Z.abs (k * k * ONE) <=? MAX) with true; [done|].
    symmetry. apply Z.leb_le. rewrite MAX_val, ONE_val. lia.
  - symmetry. apply checked_i_Some. split; [ring|].
    change (i_min 256) with (- 2 ^ 255); change (i_max 256) with (2 ^ 255 - 1).
    rewrite ONE_val. lia.
Qed.

Lemma square_le_pow k p : k <> 0 -> Z.abs (k * k) <= Z.abs ((k * k) ^ Zpos p).
Proof.
  intros Hk. rewrite (Z.abs_eq (k * k)) by nia. rewrite Z.abs_eq by (apply Z.pow_nonneg; nia).
  rewrite <- (Z.pow_1_r (k * k)) at 1. apply Z.pow_le_mono_r; nia.
Qed.

(** All intermediate values of the squaring loop are bounded by the result. *)
Lemma checked_powi_pos_whole p k :
  k <> 0 -> Z.abs (k ^ Zpos p) * ONE <= MAX ->
  checked_powi_pos (k * ONE) p = Some (k ^ Zpos p * ONE).
Proof.
  revert k. induction p as [p IH|p IH|]; intros k Hk Hb; cbn [checked_powi_pos].
  - assert (E : k ^ Zpos p~1 = (k * k) ^ Zpos p * k).
    { rewrite <- Z.pow_2_r, <- Z.pow_mul_r, Z.mul_comm, <- Z.pow_succ_r by lia. done. }
    rewrite E in *. rewrite Z.abs_mul in Hb.
    assert (1 <= Z.abs ((k * k) ^ Zpos p)) by (pose proof (Z.pow_nonzero (k * k) (Zpos p)); nia).
    pose proof (square_le_pow k p Hk) as Hkk.
    pose proof (square_step k ltac:(rewrite ONE_val in *; nia)) as Hsq.
    destruct (checked_i 256 _) as [sq|]; [|done]. cbn [mbind option_bind] in *.
    rewrite Hsq. cbn [mbind option_bind].
    rewrite IH by (rewrite ?ONE_val in *; nia). cbn [mbind option_bind].
    rewrite checked_mul_whole.
    replace (k * ONE * (k * k) ^ Zpos p) with ((k * k) ^ Zpos p * k * ONE) by ring.
    replace (Z.abs _ <=? MAX) with true; [done|]. symmetry. apply Z.leb_le.
    rewrite !Z.abs_mul. by rewrite (Z.abs_eq ONE) by done.
  - assert (E : k ^ Zpos p~0 = (k * k) ^ Zpos p).
    { rewrite <- Z.pow_2_r, <- Z.pow_mul_r by lia. done. }
    rewrite E in *.
    pose proof (square_le_pow k p Hk) as Hkk.
    pose proof (square_step k ltac:(rewrite ONE_val in *; nia)) as Hsq.
    destruct (checked_i 256 _) as [sq|]; [|done]. cbn [mbind option_bind] in *.
    rewrite Hsq. cbn [mbind option_bind]. apply IH; [nia|done].
  - by rewrite Z.pow_1_r.
Qed.

End PowSpec.

(** ** The properties of the decimal arithmetic *)
Module DecTheorems.
Import Dec DecSpec RoundSpec PowSpec.

(** C34 (functional): multiplication and division of decimals compute the
    truncated product and quotient of the represented numbers on every input,
    through the 256-bit intermediate of the code, and are [None] exactly when
    that value's magnitude exceeds [MAX] (or the divisor is zero). *)
Theorem decimal_mul_div_correct (a b : Decimal) :
  wf a ->
  checked_mul a b =
    (if Z.abs (Z.quot (a * b) ONE) <=? MAX then Some (Z.quot (a * b) ONE) else None) /\
  checked_div a b =
    (if b =? 0 then None else
     if Z.abs (Z.quot (a * ONE) b) <=? MAX then Some (Z.quot (a * ONE) b) else None).
Proof. intros Ha. split; [apply checked_mul_spec | by apply checked_div_spec]. Qed.

Lemma decimal_mul_div_correct_witness :
  wf (7 * ONE) /\ checked_mul (7 * ONE) (ONE / 2) = Some (35 * ONE / 10) /\
  checked_div (7 * ONE) 0 = None.
Proof.
  assert (H : wf (7 * ONE)) by (vm_compute; split; congruence). split; [exact H|]. split.
  - rewrite (proj1 (decimal_mul_div_correct (7 * ONE) (ONE / 2) H)). vm_compute. reflexivity.
  - rewrite (proj2 (decimal_mul_div_correct (7 * ONE) 0 H)). reflexivity.
Defined.

(** Rounding to [dp] decimal places, in each of the seven
    modes, never panics for [0 <= dp <= 18] and returns the multiple of
    [10^(18-dp)] subunits that the mode promises, or [None] exactly when that
    multiple does not fit in 192 bits. *)
Theorem checked_round_correct (d dp : Z) (mode : RoundingMode) :
  wf d -> 0 <= dp <= SCALE ->
  exists r, rounds_to mode d (10 ^ (SCALE - dp)) r /\
            checked_round d dp mode = Done (checked_i 192 r).
Proof.
  intros Hd Hdp. exists (round_value mode d (10 ^ (SCALE - dp))). split.
  - apply round_value_rounds, pow10_pos. lia.
  - by apply checked_round_value.
Qed.

Lemma checked_round_correct_witness :
  checked_round (25 * ONE / 10) 0 ToNearestMidpointToEven = Done (Some (2 * ONE)) /\
  exists r, rounds_to ToNearestMidpointToEven (25 * ONE / 10) (10 ^ 18) r /\
            checked_round (25 * ONE / 10) 0 ToNearestMidpointToEven = Done (checked_i 192 r).
Proof.
  split; [reflexivity|].
  apply (checked_round_correct (25 * ONE / 10) 0 ToNearestMidpointToEven);
    [vm_compute; split; congruence | unfold SCALE; lia].
Defined.

(** Exponentiation by squaring is exact on whole numbers:
    [k^n] is returned whenever its magnitude is representable, so no
    intermediate square of the loop overflows first. *)
Theorem checked_powi_whole (k n : Z) :
  0 <= n -> k <> 0 -> Z.abs (k ^ n) * ONE <= MAX ->
  checked_powi (k * ONE) n = Some (k ^ n * ONE).
Proof.
  intros Hn Hk Hb. destruct n as [|p|p]; [done| |lia].
  by apply checked_powi_pos_whole.
Qed.

Lemma checked_powi_whole_witness : checked_powi (-3 * ONE) 77 = Some ((-3) ^ 77 * ONE).
Proof. apply (checked_powi_whole (-3) 77); [lia | lia | vm_compute; congruence]. Defined.

Lemma root_bound a o r n :
  2 <= n -> 0 < o < r -> 0 <= a <= r -> r ^ n <= a * o ^ (n - 1) -> False.
Proof.
  intros Hn Ho Ha Hle.
  assert (Hlt : o ^ (n - 1) < r ^ (n - 1)) by (apply Z.pow_lt_mono_l; lia).
  replace n with (Z.succ (n - 1)) in Hle at 1 by lia.
  rewrite Z.pow_succ_r in Hle by lia.
  assert (a * o ^ (n - 1) <= r * o ^ (n - 1)).
  { apply Z.mul_le_mono_nonneg_r; [apply Z.pow_nonneg|]; lia. }
  assert (r * o ^ (n - 1) < r * r ^ (n - 1)) by (apply Z.mul_lt_mono_pos_l; lia).
  lia.
Qed.

Section Roots.
Variable sqrt_256 : Z -> Z.
Variable nth_root_big : Z -> Z -> Z.

(** Documented behaviour of [num_integer::Roots]: the truncated principal
    root. *)
Definition sqrt_truncates : Prop :=
  forall x, 0 <= x -> 0 <= sqrt_256 x /\ sqrt_256 x ^ 2 <= x < (sqrt_256 x + 1) ^ 2.
Definition nth_root_truncates : Prop :=
  forall x n, 2 <= n -> (0 <= x \/ n mod 2 = 1) ->
    0 <= Z.sgn x * nth_root_big x n /\
    Z.abs (nth_root_big x n) ^ n <= Z.abs x < (Z.abs (nth_root_big x n) + 1) ^ n.

(** The square root of every non-negative decimal exists and
    is the largest decimal whose square does not exceed it. *)
Theorem checked_sqrt_correct (d : Decimal) :
  sqrt_truncates -> wf d -> 0 <= d ->
  exists r, checked_sqrt sqrt_256 d = Some r /\ 0 <= r /\ r ^ 2 <= d * ONE < (r + 1) ^ 2.
Proof.
  intros Hs Hd%proj2 H0. unfold checked_sqrt, is_negative, is_zero.
  replace (d <? 0) with false by (symmetry; apply Z.ltb_ge; lia).
  destruct (d =? 0) eqn:E; zbool.
  { subst. exists 0. split; [done|]. split; [lia|]. rewrite Z.mul_0_l. lia. }
  destruct (Hs (d * ONE)) as [Hr Hb]; [rewrite ONE_val; lia|].
  set (r := sqrt_256 (d * ONE)) in *. exists r. split; [|done].
  change (d <= MAX) in Hd. rewrite MAX_val, ONE_val in *.
  assert (Hle : r <= 2 ^ 191 - 1) by (destruct (Z.le_gt_cases r (2 ^ 191 - 1)); [done|nia]).
  rewrite try_from_192 by
    (change (i_min 256) with (- 2 ^ 255); change (i_max 256) with (2 ^ 255 - 1); lia).
  replace (Z.abs r <=? MAX) with true; [done|]. symmetry. apply Z.leb_le. rewrite MAX_val. lia.
Qed.

(** For [n >= 2] the [n]-th root of a decimal (a non-negative
    one, or any when [n] is odd) never panics, keeps the sign, and is the exact
    root truncated toward zero to 18 places. *)
Theorem checked_nth_root_correct (d : Decimal) (n : Z) :
  nth_root_truncates -> wf d -> 2 <= n -> (0 <= d \/ n mod 2 = 1) ->
  exists r, checked_nth_root nth_root_big d n = Done (Some r) /\ 0 <= Z.sgn d * r /\
            Z.abs r ^ n <= Z.abs d * ONE ^ (n - 1) < (Z.abs r + 1) ^ n.
Proof.
  intros Hs Hd Hn Hodd. unfold checked_nth_root, is_negative, is_zero.
  replace ((d <? 0) && (n mod 2 =? 0) || (n =? 0)) with false by
    (symmetry; apply orb_false_iff; split; [apply andb_false_iff; rewrite Z.ltb_ge, Z.eqb_neq|
     apply Z.eqb_neq]; lia).
  replace (n =? 1) with false by (symmetry; apply Z.eqb_neq; lia).
  destruct (d =? 0) eqn:E; zbool.
  { subst. exists 0. split; [done|]. split; [lia|].
    rewrite Z.pow_0_l, Z.mul_0_l, Z.pow_1_l by lia. lia. }
  assert (HO : 0 < ONE ^ (n - 1)) by (apply Z.pow_pos_nonneg; [done|lia]).
  assert (Hsgn : Z.sgn (d * ONE ^ (n - 1)) = Z.sgn d)
    by (rewrite Z.sgn_mul, (Z.sgn_pos (ONE ^ _)) by done; lia).
  destruct (Hs (d * ONE ^ (n - 1)) n Hn) as [Hpos Hb]; [destruct Hodd; [left; nia | by right]|].
  rewrite Hsgn, Z.abs_mul, (Z.abs_eq (ONE ^ _)) in * by lia.
  set (r := nth_root_big _ _) in *. exists r. split; [|done].
  assert (Hr : Z.abs r <= MAX).
  { apply Z.nlt_ge. intros Hgt. apply (root_bound (Z.abs d) ONE (Z.abs r) n).
    - done.
    - rewrite ONE_val, MAX_val in *. lia.
    - unfold wf in Hd. rewrite MIN_val, MAX_val in *. lia.
    - apply Hb. }
  rewrite MAX_val in Hr.
  assert (checked_i 192 r = Some r) as ->
    by (apply checked_i_Some; split; [done|]; change (i_min 192) with (- 2 ^ 191);
        change (i_max 192) with (2 ^ 191 - 1); lia).
  done.
Qed.
End Roots.

Lemma sqrt_truncates_Z : sqrt_truncates Z.sqrt.
Proof.
  intros x Hx. split; [apply Z.sqrt_nonneg|]. rewrite !Z.pow_2_r.
  rewrite !Z.add_1_r. by apply Z.sqrt_spec.
Qed.

(** A concrete integer root, bit by bit from the top, which has the documented
    behaviour. *)
Fixpoint root_bits (k : nat) (x n acc : Z) : Z :=
  match k with
  | O => acc
  | S k' =>
      let c := acc + 2 ^ Z.of_nat k' in
      root_bits k' x n (if c ^ n <=? x then c else acc)
  end.

Definition int_root (x n : Z) : Z :=
  Z.sgn x * root_bits (Z.to_nat (Z.log2 (Z.abs x) + 1)) (Z.abs x) n 0.

Lemma root_bits_spec k x n acc :
  0 <= acc -> acc ^ n <= x < (acc + 2 ^ Z.of_nat k) ^ n ->
  let r := root_bits k x n acc in 0 <= r /\ r ^ n <= x < (r + 1) ^ n.
Proof.
  revert acc. induction k as [|k IH]; intros acc H0 Hb; [done|].
  cbn [root_bits]. cbv zeta.
  assert (Hp : 2 ^ Z.of_nat (S k) = 2 ^ Z.of_nat k + 2 ^ Z.of_nat k)
    by (rewrite Nat2Z.inj_succ, Z.pow_succ_r by lia; lia).
  pose proof (Z.pow_pos_nonneg 2 (Z.of_nat k)). rewrite Hp, Z.add_assoc in Hb.
  destruct (_ <=? x) eqn:E; zbool; apply IH; lia.
Qed.

Lemma int_root_truncates : nth_root_truncates int_root.
Proof.
  intros x n Hn _. unfold int_root.
  set (k := Z.to_nat (Z.log2 (Z.abs x) + 1)).
  destruct (decide (x = 0)) as [->|Hx].
  { cbn. rewrite Z.pow_0_l, Z.pow_1_l by lia. lia. }
  destruct (root_bits_spec k (Z.abs x) n 0) as [H0 Hb]; [lia| |].
  { rewrite Z.pow_0_l by lia. split; [lia|]. unfold k.
    rewrite Z2Nat.id by (pose proof (Z.log2_nonneg (Z.abs x)); lia).
    pose proof (Z.log2_spec (Z.abs x)) as Hl. rewrite Z.add_0_l, Z.add_1_r in *.
    apply Z.lt_le_trans with (2 ^ Z.succ (Z.log2 (Z.abs x))); [lia|].
    rewrite <- (Z.pow_1_r (2 ^ Z.succ _)) at 1. apply Z.pow_le_mono_r; lia. }
  set (r := root_bits _ _ _ _) in *.
  assert (Z.abs (Z.sgn x * r) = r) as -> by (destruct x; simpl; lia).
  split; [|done]. destruct x; simpl; lia.
Qed.

Lemma checked_sqrt_correct_witness :
  exists r, checked_sqrt Z.sqrt (2 * ONE) = Some r /\ 0 <= r /\ r ^ 2 <= 2 * ONE * ONE < (r + 1) ^ 2.
Proof.
  apply (checked_sqrt_correct Z.sqrt (2 * ONE));
    [exact sqrt_truncates_Z | vm_compute; split; congruence | vm_compute; congruence].
Defined.

Lemma checked_nth_root_correct_witness :
  exists r, checked_nth_root int_root (-27 * ONE) 3 = Done (Some r) /\
            0 <= Z.sgn (-27 * ONE) * r /\
            Z.abs r ^ 3 <= Z.abs (-27 * ONE) * ONE ^ (3 - 1) < (Z.abs r + 1) ^ 3.
Proof.
  apply (checked_nth_root_correct int_root (-27 * ONE) 3);
    [exact int_root_truncates | vm_compute; split; congruence | lia | right; reflexivity].
Defined.

End DecTheorems.
