(* ===== verification/PreciseDecimals.v ===== *)
(** * Precise decimals

    [PreciseDecimal] (radix-common/src/math/precise_decimal.rs) is a 256-bit
    signed integer counting subunits of 10^-36, computed with through 384-bit
    integers: the arithmetic in which the pools compute shares.  A value is the
    integer of its subunits, as for [Decimal]; the generic facts on rounding and
    on the detour through wider integers are those of Decimals.v. *)

From S2P Require Import Prelude Decimals.
Import Int Rounding Wide Fixed.

Abbreviation PreciseDecimal := Z (only parsing).

(** ** The type *)
Module PDec.

Definition SCALE : Z := 36.
Definition MIN : PreciseDecimal := i_min 256.
Definition MAX : PreciseDecimal := i_max 256.
Definition ZERO : PreciseDecimal := 0.
(** The digits of [from_digits], least significant first, in base 2^64. *)
Definition ONE : PreciseDecimal := 12919594847110692864 + Z.shiftl 54210108624275221 64.
Definition ONE_ATTO : PreciseDecimal := 1000000000000000000.

(** The values of the type. *)
Definition wf (d : PreciseDecimal) : Prop := MIN <= d <= MAX.

Definition is_zero (d : PreciseDecimal) : bool := d =? 0.
Definition is_positive (d : PreciseDecimal) : bool := 0 <? d.
Definition is_negative (d : PreciseDecimal) : bool := d <? 0.

Definition checked_abs (d : PreciseDecimal) : option PreciseDecimal :=
  if negb (d =? MIN) then Some (Z.abs d) else None.

Definition checked_neg (d : PreciseDecimal) : option PreciseDecimal := checked_i 256 (- d).
Definition checked_add (a b : PreciseDecimal) : option PreciseDecimal := checked_i 256 (a + b).
Definition checked_sub (a b : PreciseDecimal) : option PreciseDecimal := checked_i 256 (a - b).

Definition checked_mul (a b : PreciseDecimal) : option PreciseDecimal :=
  c ← checked_i 384 (a * b);
  c ← checked_div_i 384 c ONE;
  try_from_bnum 384 256 c.

Definition checked_div (a b : PreciseDecimal) : option PreciseDecimal :=
  c ← checked_i 384 (a * ONE);
  c ← checked_div_i 384 c b;
  try_from_bnum 384 256 c.

Definition checked_round (d : PreciseDecimal) (decimal_places : Z) (mode : RoundingMode) :
    Exec (option PreciseDecimal) :=
  checked_round_at 256 SCALE d decimal_places mode.

Definition checked_floor (d : PreciseDecimal) : Exec (option PreciseDecimal) :=
  checked_round d 0 ToNegativeInfinity.

Definition checked_ceiling (d : PreciseDecimal) : Exec (option PreciseDecimal) :=
  checked_round d 0 ToPositiveInfinity.

(** Exponentiation by squaring, for [exp >= 1]. *)
Fixpoint checked_powi_pos (d : PreciseDecimal) (exp : positive) : option PreciseDecimal :=
  match exp with
  | xH => Some d
  | xO half =>
      sq ← checked_i 384 (d * d);
      sub_256 ← try_from_bnum 384 256 (Z.quot sq ONE);
      checked_powi_pos sub_256 half
  | xI half =>
      sq ← checked_i 384 (d * d);
      sub_256 ← try_from_bnum 384 256 (Z.quot sq ONE);
      b ← checked_powi_pos sub_256 half;
      checked_mul d b
  end.

Definition checked_powi (d : PreciseDecimal) (exp : Z) : option PreciseDecimal :=
  match exp with
  | Z0 => Some ONE
  | Zpos p => checked_powi_pos d p
  | Zneg p =>
      sub_384 ← checked_div_i 384 (ONE * ONE) d;
      sub_256 ← try_from_bnum 384 256 sub_384;
      e ← checked_i 64 (exp * -1);
      match e with
      | Zpos p' => checked_powi_pos sub_256 p'
      | _ => Some ONE
      end
  end.

(** The integer roots come from the crates [bnum] and [num-integer]. *)
Section Roots.
Variable sqrt_384 : Z -> Z.
Variable cbrt_big : Z -> Z.
Variable nth_root_big : Z -> Z -> Z.

Definition checked_sqrt (d : PreciseDecimal) : option PreciseDecimal :=
  if is_negative d then None else
  if is_zero d then Some ZERO else
  try_from_bnum 384 256 (sqrt_384 (d * ONE)).

(** [I256::try_from(BigInt)] succeeds on the range of [I256]. *)
Definition checked_cbrt (d : PreciseDecimal) : option PreciseDecimal :=
  if is_zero d then Some ZERO else checked_i 256 (cbrt_big (d * ONE ^ 2)).

Definition checked_nth_root (d : PreciseDecimal) (n : Z) : Exec (option PreciseDecimal) :=
  if (is_negative d && (n mod 2 =? 0)) || (n =? 0) then Done None
  else if n =? 1 then Done (Some d)
  else if is_zero d then Done (Some ZERO)
  else
    nth_root ← expect (checked_i 256 (nth_root_big (d * ONE ^ (n - 1)) n));
    Done (Some nth_root).
End Roots.

(** [From<uN/iN> for PreciseDecimal] and [TryFrom] of the wide integers. *)
Definition from_int (val : Z) : Exec PreciseDecimal := expect (checked_i 256 (val * ONE)).

Inductive ParsePreciseDecimalError : Type :=
| InvalidDigit
| Overflow
| EmptyIntegralPart
| EmptyFractionalPart
| MoreThanThirtySixDecimalPlaces
| MoreThanOneDecimalPoint
| InvalidLength (len : Z).

Definition try_from_int (val : Z) : Result ParsePreciseDecimalError PreciseDecimal :=
  match checked_i 256 val with
  | Some val => ok_or (checked_i 256 (val * ONE)) Overflow
  | None => Err Overflow
  end.

(** [TryFrom<PreciseDecimal>] for a primitive integer with range test [fits]. *)
Definition to_int (fits : Z -> bool) (val : PreciseDecimal) :
    Exec (Result ParsePreciseDecimalError Z) :=
  o ← checked_round val 0 ToZero;
  match o with
  | None => Done (Err Overflow)
  | Some rounded =>
      match checked_sub val rounded with
      | None => Done (Err Overflow)
      | Some fraction =>
          if negb (is_zero fraction) then Done (Err InvalidDigit)
          else
            let i_256 := Z.quot rounded (10 ^ SCALE) in
            Done (if fits i_256 then Ok i_256 else Err Overflow)
      end
  end.

(** [From<Decimal>]: the widening [unwrap] cannot fail; the product is the
    operator of the 256-bit integer, which panics on overflow. *)
Definition from_decimal (val : Decimal) : Exec PreciseDecimal :=
  expect (checked_i 256 (val * 10 ^ (SCALE - Dec.SCALE))).

Definition checked_truncate (d : PreciseDecimal) (mode : RoundingMode) : Exec (option Decimal) :=
  o ← checked_round d Dec.SCALE mode;
  match o with
  | None => Done None
  | Some rounded =>
      Done (a_256 ← checked_div_i 256 rounded (10 ^ (SCALE - Dec.SCALE));
            try_from_bnum 256 192 a_256)
  end.

(** [TryFrom<PreciseDecimal> for Decimal]; every failure is an overflow. *)
Definition to_decimal (val : PreciseDecimal) : Exec (option Decimal) :=
  checked_truncate val ToZero.

End PDec.

(** ** What the operations compute *)
Module PDecSpec.
Import PDec RoundSpec.

(** A [Decimal] subunit, in precise subunits. *)
Definition A : Z := 10 ^ 18.

Lemma A_val : A = 1000000000000000000. Proof. done. Qed.
Lemma ONE_A : ONE = A * A. Proof. done. Qed.
Lemma ONE_pow : ONE = 10 ^ SCALE. Proof. done. Qed.
Lemma PMAX_val : MAX = 2 ^ 255 - 1. Proof. done. Qed.

Lemma pwf_range d : wf d <-> - 2 ^ 255 <= d <= 2 ^ 255 - 1.
Proof. done. Qed.

Lemma pchecked_add_Some a b c : checked_add a b = Some c <-> c = a + b /\ wf (a + b).
Proof. apply checked_i_Some. Qed.

Lemma pchecked_mul_spec a b :
  checked_mul a b =
    let q := Z.quot (a * b) ONE in
    if Z.abs q <=? MAX then Some q else None.
Proof. by apply mul_through. Qed.

Lemma pchecked_div_spec a b :
  wf a ->
  checked_div a b =
    if b =? 0 then None else
    let q := Z.quot (a * ONE) b in
    if Z.abs q <=? MAX then Some q else None.
Proof. by apply div_through. Qed.

Lemma pchecked_round_value d dp mode :
  wf d -> 0 <= dp <= SCALE ->
  checked_round d dp mode = Done (checked_i 256 (round_value mode d (10 ^ (SCALE - dp)))).
Proof. intros Hd Hdp. apply checked_round_at_value; [exact Hd|exact Hdp|by vm_compute]. Qed.

Lemma round_value_ToZero d D : 0 < D -> round_value ToZero d D = Z.quot d D * D.
Proof.
  intros HD. destruct (round_value_rounds ToZero d D HD) as ([q ->] & Hlt & Hle).
  f_equal. pose proof (Z.quot_rem' d D) as He. pose proof (Z.rem_bound_abs d D ltac:(lia)) as Hb.
  assert (0 <= d -> 0 <= Z.quot d D /\ 0 <= Z.rem d D)
    by (intros; split; [apply Z.quot_pos|apply Z.rem_nonneg]; lia).
  assert (d <= 0 -> Z.rem d D <= 0) by (intros; apply Z.rem_nonpos; lia).
  set (p := Z.quot d D) in *. set (r := Z.rem d D) in *. destruct (Z.le_gt_cases 0 d); nia.
Qed.

(** *** Between the two types *)

Lemma from_decimal_Done d : Dec.wf d -> from_decimal d = Done (d * A).
Proof.
  intros Hd. pose proof (proj1 (DecSpec.wf_range d) Hd). unfold from_decimal.
  change (10 ^ (SCALE - Dec.SCALE)) with A.
  rewrite (proj2 (checked_i_Some 256 (d * A) (d * A))); [done|].
  split; [done|]. apply pwf_range. rewrite A_val. lia.
Qed.

(** [try_from] truncates toward zero; it refuses exactly the values beyond the
    range of [Decimal], and [Decimal::MIN]. *)
Lemma to_decimal_spec v :
  wf v ->
  to_decimal v =
    Done (if Z.abs (Z.quot v A) <=? Dec.MAX then Some (Z.quot v A) else None).
Proof.
  intros Hv. unfold to_decimal, checked_truncate.
  rewrite pchecked_round_value by (done || by vm_compute).
  change (10 ^ (SCALE - Dec.SCALE)) with A. rewrite round_value_ToZero by done.
  pose proof (proj1 (pwf_range v) Hv) as Hr.
  assert (Hm : - 2 ^ 255 <= Z.quot v A * A <= 2 ^ 255 - 1).
  { rewrite Z.mul_comm. destruct (Z.le_gt_cases 0 v).
    - pose proof (Z.mul_quot_le v A ltac:(lia) ltac:(done)). lia.
    - pose proof (Z.mul_quot_ge v A ltac:(lia) ltac:(done)). lia. }
  assert (Hqr : i_min 256 <= Z.quot v A <= i_max 256).
  { change (- 2 ^ 255 <= Z.quot v A <= 2 ^ 255 - 1). rewrite A_val in *. lia. }
  rewrite (proj2 (checked_i_Some 256 _ _)) by (split; [reflexivity|exact Hm]).
  cbn [mbind Exec_bind]. rewrite checked_div_i_small, Z.quot_mul; [| |done|].
  - cbn [mbind option_bind]. rewrite try_from_bnum_spec; [done|lia|exact Hqr].
  - done.
  - by rewrite Z.quot_mul.
Qed.

(** *** Non-negative shares *)

Lemma quot_mul_A a b : 0 <= a -> 0 < b -> Z.quot (a * A * ONE) (b * A) = a * ONE / b.
Proof.
  intros Ha Hb. replace (a * A * ONE) with (a * ONE * A) by ring.
  rewrite Z.quot_mul_cancel_r by (rewrite ?A_val; lia). apply Z.quot_div_nonneg; [|lia].
  apply Z.mul_nonneg_nonneg; [lia|done].
Qed.

(** The quotient of two decimals, rounded down. *)
Lemma ratio_spec a b :
  0 <= a -> Dec.wf a -> 0 < b ->
  checked_div (a * A) (b * A) = if a * ONE / b <=? MAX then Some (a * ONE / b) else None.
Proof.
  intros H0 Ha Hb. rewrite pchecked_div_spec.
  2: { pose proof (proj1 (DecSpec.wf_range a) Ha). apply pwf_range. rewrite A_val. lia. }
  rewrite (proj2 (Z.eqb_neq (b * A) 0)) by (rewrite A_val; lia). cbv zeta.
  rewrite quot_mul_A by done. rewrite Z.abs_eq; [done|].
  apply Z.div_pos; [apply Z.mul_nonneg_nonneg; [lia|done]|done].
Qed.

(** A share [k] of a decimal, rounded down. *)
Lemma share_spec k z :
  0 <= k -> 0 <= z ->
  checked_mul k (z * A) = if k * z / A <=? MAX then Some (k * z / A) else None.
Proof.
  intros Hk Hz. rewrite pchecked_mul_spec. cbv zeta. rewrite ONE_A, Z.mul_assoc.
  rewrite Z.quot_mul_cancel_r by done. rewrite Z.quot_div_nonneg by (rewrite ?A_val; nia).
  rewrite Z.abs_eq; [done|]. apply Z.div_pos; [nia|done].
Qed.

Lemma to_decimal_nonneg v :
  0 <= v -> wf v -> to_decimal v = Done (if v / A <=? Dec.MAX then Some (v / A) else None).
Proof.
  intros H0 Hv. rewrite to_decimal_spec, Z.quot_div_nonneg by done.
  rewrite Z.abs_eq; [done|]. by apply Z.div_pos.
Qed.

Lemma to_from_decimal d :
  Dec.wf d -> d <> Dec.MIN -> (p ← from_decimal d; to_decimal p) = Done (Some d).
Proof.
  intros Hd Hm. rewrite from_decimal_Done by done. cbn [mbind Exec_bind].
  pose proof (proj1 (DecSpec.wf_range d) Hd) as Hr.
  rewrite to_decimal_spec, Z.quot_mul by (done || (apply pwf_range; rewrite A_val; lia)).
  rewrite (proj2 (Z.leb_le _ _)); [done|]. rewrite DecSpec.MAX_val, DecSpec.MIN_val in *. lia.
Qed.

End PDecSpec.

(** ** Theorems *)
Module PDecTheorems.
Import PDec PDecSpec.

(** Converting a decimal to a precise decimal and back gives it back,
    except [Decimal::MIN], which the way back refuses; a precise decimal converts to
    the decimal that truncates it toward zero, and is refused exactly when that is
    beyond [Decimal::MAX] in magnitude. Neither way panics. *)
Theorem precise_decimal_roundtrip (d : Decimal) (v : PreciseDecimal) :
  Dec.wf d -> wf v ->
  (p ← from_decimal d; to_decimal p) = Done (if d =? Dec.MIN then None else Some d) /\
  to_decimal v = Done (if Z.abs (Z.quot v A) <=? Dec.MAX then Some (Z.quot v A) else None) /\
  (forall d', to_decimal v = Done (Some d') -> Dec.wf d' /\ Z.abs (v - d' * A) < A).
Proof.
  intros Hd Hv. split; [|split; [by apply to_decimal_spec|]].
  - destruct (d =? Dec.MIN) eqn:E; zbool; [subst d; by vm_compute|by apply to_from_decimal].
  - intros d'. rewrite to_decimal_spec by done. destruct (_ <=? _) eqn:E; [|done]. intros [= <-]. zbool.
    rewrite DecSpec.MAX_val in E. split; [apply DecSpec.wf_range; lia|].
    pose proof (Z.quot_rem' v A). pose proof (Z.rem_bound_abs v A ltac:(done)) as Hr.
    change (Z.abs A) with A in Hr. replace (v - Z.quot v A * A) with (Z.rem v A) by lia. exact Hr.
Qed.

Lemma precise_decimal_roundtrip_witness :
  to_decimal (-1999999999999999999) = Done (Some (-1)) /\
  (p ← from_decimal (-5); to_decimal p) = Done (Some (-5)) /\
  (p ← from_decimal Dec.MIN; to_decimal p) = Done None.
Proof.
  split; [|split].
  - rewrite (proj1 (proj2 (precise_decimal_roundtrip (-5) (-1999999999999999999)
      ltac:(vm_compute; split; congruence) ltac:(vm_compute; split; congruence)))). by vm_compute.
  - exact (proj1 (precise_decimal_roundtrip (-5) 0 ltac:(vm_compute; split; congruence)
      ltac:(vm_compute; split; congruence))).
  - exact (proj1 (precise_decimal_roundtrip Dec.MIN 0 ltac:(vm_compute; split; congruence)
      ltac:(vm_compute; split; congruence))).
Defined.

(** Multiplication and division of precise decimals are the exact results
    truncated toward zero to 36 digits, or [None] exactly on overflow or division by
    zero: their intermediate, of 384 bits, never overflows first. *)
Theorem precise_mul_div_correct (a b : PreciseDecimal) :
  wf a ->
  checked_mul a b =
    (if Z.abs (Z.quot (a * b) ONE) <=? MAX then Some (Z.quot (a * b) ONE) else None) /\
  checked_div a b =
    (if b =? 0 then None else
     if Z.abs (Z.quot (a * ONE) b) <=? MAX then Some (Z.quot (a * ONE) b) else None).
Proof. intros Ha. split; [apply pchecked_mul_spec|by apply pchecked_div_spec]. Qed.

End PDecTheorems.
