(* ===== verification/IndexMap.v ===== *)
(** * Insertion-ordered maps

    The engine uses [IndexMap] (radix-rust/src/rust.rs re-exports it) wherever
    the iteration order of a map is observable.  A map is the list of its
    entries in iteration order: [insert] keeps the position of an existing key
    and appends a new one, [swap_remove] moves the last entry into the hole,
    [entry(k).or_default()] is an insertion of the default when [k] is absent. *)

From S2P Require Import Prelude.

Abbreviation IndexMap K V := (list (K * V)) (only parsing).

Section Ops.
Context {K V : Type} `{EqDecision K}.

Fixpoint im_get (k : K) (m : IndexMap K V) : option V :=
  match m with
  | [] => None
  | (k', v) :: m' => if decide (k = k') then Some v else im_get k m'
  end.

Fixpoint im_insert (k : K) (v : V) (m : IndexMap K V) : IndexMap K V :=
  match m with
  | [] => [(k, v)]
  | (k', v') :: m' =>
      if decide (k = k') then (k', v) :: m' else (k', v') :: im_insert k v m'
  end.

Definition im_keys (m : IndexMap K V) : list K := m.*1.
Definition im_values (m : IndexMap K V) : list V := m.*2.

(** [*m.entry(k).or_insert(d) = f(..)] *)
Definition im_update (d : V) (f : V -> V) (k : K) (m : IndexMap K V) : IndexMap K V :=
  im_insert k (f (default d (im_get k m))) m.

(** The entries after the last one has been moved over the entry of [k]. *)
Definition im_swap_over (k : K) (e : K * V) (m : IndexMap K V) : IndexMap K V :=
  (fun x : K * V => if decide (x.1 = k) then e else x) <$> m.

Definition im_swap_remove (k : K) (m : IndexMap K V) : option V * IndexMap K V :=
  match im_get k m with
  | None => (None, m)
  | Some v =>
      (Some v,
       match last m with
       | None => m
       | Some e =>
           let init := take (length m - 1) m in
           if decide (e.1 = k) then init else im_swap_over k e init
       end)
  end.

Definition im_ok (m : IndexMap K V) : Prop := NoDup (im_keys m).
End Ops.

Section Facts.
Context {K V : Type} `{EqDecision K}.
Implicit Types (m : IndexMap K V) (k : K) (v : V).

Lemma im_get_insert k k' v m :
  im_get k' (im_insert k v m) = if decide (k' = k) then Some v else im_get k' m.
Proof.
  induction m as [|[k0 v0] m IH]; simpl; [done|].
  destruct (decide (k = k0)) as [->|]; simpl.
  - by destruct (decide (k' = k0)).
  - destruct (decide (k' = k0)) as [->|]; [|done]. by destruct (decide (k0 = k)).
Qed.

Lemma im_get_insert_eq k v m : im_get k (im_insert k v m) = Some v.
Proof. rewrite im_get_insert. by destruct (decide (k = k)). Qed.

Lemma im_get_insert_ne k k' v m : k' <> k -> im_get k' (im_insert k v m) = im_get k' m.
Proof. intros. rewrite im_get_insert. by destruct (decide (k' = k)). Qed.

Lemma im_get_elem k v m : im_get k m = Some v -> (k, v) ∈ m.
Proof.
  induction m as [|[k0 v0] m IH]; simpl; [done|].
  destruct (decide (k = k0)) as [->|]; intros; simplify_eq; [left | right; auto].
Qed.

Lemma im_get_None k m : im_get k m = None <-> k ∉ im_keys m.
Proof.
  unfold im_keys. induction m as [|[k0 v0] m IH]; simpl; [set_solver|].
  rewrite not_elem_of_cons, <- IH. destruct (decide (k = k0)); split; try done; tauto.
Qed.

Lemma im_elem_get k v m : im_ok m -> (k, v) ∈ m -> im_get k m = Some v.
Proof.
  unfold im_ok, im_keys. induction m as [|[k0 v0] m IH]; simpl; [set_solver|].
  intros [Hn Hnd]%NoDup_cons Hin. apply elem_of_cons in Hin as [[= -> ->]|Hin].
  - by destruct (decide (k0 = k0)).
  - destruct (decide (k = k0)) as [->|]; [|by apply IH].
    exfalso. apply Hn. apply list_elem_of_fmap. by exists (k0, v).
Qed.

Lemma im_keys_insert k v m :
  im_keys (im_insert k v m) =
    match im_get k m with Some _ => im_keys m | None => im_keys m ++ [k] end.
Proof.
  unfold im_keys. induction m as [|[k0 v0] m IH]; [done|]. cbn [im_insert im_get].
  destruct (decide (k = k0)) as [->|]; [done|]. rewrite fmap_cons, IH. by destruct (im_get k m).
Qed.

Lemma im_ok_insert k v m : im_ok m -> im_ok (im_insert k v m).
Proof.
  unfold im_ok. rewrite im_keys_insert. destruct (im_get k m) eqn:E; [done|].
  apply im_get_None in E. intros. apply NoDup_app.
  repeat split; [done| |apply NoDup_singleton]. set_solver.
Qed.

Lemma im_insert_fresh k v m : im_get k m = None -> im_insert k v m = m ++ [(k, v)].
Proof.
  induction m as [|[k' v'] m IH]; [done|]. cbn. destruct (decide (k = k')); [done|].
  intros ?. by rewrite IH.
Qed.

Lemma im_insert_perm_None k v m : im_get k m = None -> im_insert k v m ≡ₚ (k, v) :: m.
Proof.
  induction m as [|[k0 v0] m IH]; simpl; [done|].
  destruct (decide (k = k0)) as [->|]; [done|]. intros H. rewrite IH by done. apply perm_swap.
Qed.

Lemma im_filter_fresh k m : k ∉ im_keys m -> filter (fun e => e.1 <> k) m = m.
Proof.
  unfold im_keys. induction m as [|[k0 v0] m IH]; [done|]. rewrite fmap_cons.
  intros [? ?]%not_elem_of_cons. rewrite filter_cons_True by (simpl in *; congruence).
  f_equal. auto.
Qed.

(** Taking [k] out: the other entries, up to order. *)
Lemma im_get_split k v m :
  im_ok m -> im_get k m = Some v ->
  exists m', m ≡ₚ (k, v) :: m' /\ k ∉ im_keys m' /\ m' = filter (fun e => e.1 <> k) m.
Proof.
  unfold im_ok, im_keys. induction m as [|[k0 v0] m IH]; simpl; [done|].
  intros [Hn Hnd]%NoDup_cons Hg. destruct (decide (k = k0)) as [->|].
  - simplify_eq. exists m. split; [done|]. split; [done|].
    rewrite filter_cons_False by naive_solver. symmetry. by apply im_filter_fresh.
  - destruct (IH Hnd Hg) as (m' & Hp & Hk & ->).
    exists ((k0, v0) :: filter (fun e => e.1 <> k) m). split; [|split].
    + rewrite Hp at 1. apply perm_swap.
    + simpl. set_solver.
    + by rewrite filter_cons_True by (simpl; congruence).
Qed.

Lemma im_swap_over_fresh k e m : k ∉ im_keys m -> im_swap_over k e m = m.
Proof.
  unfold im_keys, im_swap_over. induction m as [|[k0 v0] m IH]; simpl; [done|].
  intros [? ?]%not_elem_of_cons. rewrite decide_False by done. f_equal. auto.
Qed.

Lemma im_swap_over_perm k v e m :
  im_ok m -> im_get k m = Some v ->
  im_swap_over k e m ≡ₚ e :: filter (fun x => x.1 <> k) m.
Proof.
  unfold im_ok, im_keys. induction m as [|[k0 v0] m IH]; [done|].
  rewrite fmap_cons. intros [Hn Hnd]%NoDup_cons Hg. cbn [im_get] in Hg.
  assert (Hstep : forall x, im_swap_over k e (x :: m) =
    (if decide (x.1 = k) then e else x) :: im_swap_over k e m) by done.
  rewrite Hstep. cbn [fst] in *. destruct (decide (k = k0)) as [->|Hne].
  - rewrite decide_True by done. rewrite filter_cons_False by naive_solver.
    rewrite im_swap_over_fresh by done.
    by rewrite im_filter_fresh.
  - rewrite decide_False by congruence. rewrite filter_cons_True by (simpl; congruence).
    rewrite (IH Hnd Hg). apply perm_swap.
Qed.

Lemma last_take_init (A : Type) (l : list A) x :
  last l = Some x -> l = take (length l - 1) l ++ [x].
Proof.
  intros [l' ->]%last_Some. rewrite length_app. simpl.
  replace (length l' + 1 - 1)%nat with (length l') by lia. by rewrite take_app_length.
Qed.

(** [swap_remove] removes exactly the entry of [k], up to order. *)
Lemma im_swap_remove_perm k v m m' :
  im_ok m -> im_swap_remove k m = (Some v, m') ->
  im_get k m = Some v /\ m' ≡ₚ filter (fun e => e.1 <> k) m.
Proof.
  intros Hok. unfold im_swap_remove. destruct (im_get k m) as [v'|] eqn:Hg; [|done].
  intros [= -> <-]. split; [done|].
  destruct (last m) as [[ke ve]|] eqn:Hl; [|apply last_None in Hl; by subst].
  apply last_take_init in Hl as Hm. set (init := take _ _) in *. simpl.
  assert (Hoki : im_ok init /\ ke ∉ im_keys init).
  { unfold im_ok, im_keys in *. rewrite Hm, fmap_app, NoDup_app in Hok. set_solver. }
  destruct Hoki as [Hoki Hke]. rewrite Hm at 1. rewrite filter_app.
  destruct (decide (ke = k)) as [->|Hne].
  - rewrite (filter_cons_False _ (k, ve)) by naive_solver. rewrite filter_nil, app_nil_r.
    by rewrite im_filter_fresh.
  - rewrite (filter_cons_True _ (ke, ve)) by (simpl; congruence). rewrite filter_nil.
    assert (Hgi : im_get k init = Some v).
    { apply im_elem_get; [done|]. apply im_get_elem in Hg. rewrite Hm in Hg.
      apply elem_of_app in Hg as [|Hg]; [done|].
      apply list_elem_of_singleton in Hg. congruence. }
    rewrite (im_swap_over_perm _ _ _ _ Hoki Hgi). by rewrite Permutation_app_comm.
Qed.

Lemma im_ok_perm m m' : m ≡ₚ m' -> im_ok m -> im_ok m'.
Proof. unfold im_ok, im_keys. by intros ->. Qed.

Lemma im_ok_filter m k : im_ok m -> im_ok (filter (fun e => e.1 <> k) m).
Proof.
  unfold im_ok, im_keys. induction m as [|[k0 v0] m IH]; simpl; [done|].
  intros [Hn Hnd]%NoDup_cons. rewrite filter_cons. case_decide; [|auto].
  simpl. apply NoDup_cons. split; [|auto]. intros Hin. apply Hn.
  apply list_elem_of_fmap in Hin as ([k1 v1] & -> & Hin).
  apply list_elem_of_filter in Hin as [_ Hin]. apply list_elem_of_fmap. by exists (k1, v1).
Qed.

Lemma im_ok_swap_remove k m : im_ok m -> im_ok (im_swap_remove k m).2.
Proof.
  intros Hok. destruct (im_swap_remove k m) as [[v|] m'] eqn:E; simpl.
  - apply im_swap_remove_perm in E as [_ Hp]; [|done].
    eapply im_ok_perm; [by symmetry|]. by apply im_ok_filter.
  - unfold im_swap_remove in E. by destruct (im_get k m); simplify_eq.
Qed.

Lemma im_get_perm k m m' : im_ok m -> m ≡ₚ m' -> im_get k m = im_get k m'.
Proof.
  intros Hok Hp. assert (im_ok m') by (by eapply im_ok_perm).
  destruct (im_get k m') as [v|] eqn:E.
  - apply im_elem_get; [done|]. rewrite Hp. by apply im_get_elem.
  - apply im_get_None. apply im_get_None in E. unfold im_keys in *. by rewrite Hp.
Qed.

Lemma im_get_filter k k' m :
  im_get k' (filter (fun e => e.1 <> k) m) = if decide (k' = k) then None else im_get k' m.
Proof.
  induction m as [|[k0 v0] m IH]; simpl; [by case_decide|].
  rewrite filter_cons. simpl. destruct (decide (k0 <> k)) as [Hne|He]; simpl; rewrite IH.
  - destruct (decide (k' = k0)) as [->|]; [|done]. by destruct (decide (k0 = k)).
  - apply dec_stable in He as ->. by destruct (decide (k' = k)).
Qed.

Lemma im_get_swap_remove k k' m :
  im_ok m ->
  im_get k' (im_swap_remove k m).2 = if decide (k' = k) then None else im_get k' m.
Proof.
  intros Hok. destruct (im_swap_remove k m) as [[v|] m'] eqn:E; simpl.
  - apply im_swap_remove_perm in E as [_ Hp]; [|done]. rewrite <- im_get_filter.
    symmetry. apply im_get_perm; [by apply im_ok_filter|by symmetry].
  - unfold im_swap_remove in E. destruct (im_get k m) eqn:Hg; simplify_eq.
    destruct (decide (k' = k)) as [->|]; done.
Qed.

(** Sums over the entries. *)
Definition im_sum (f : K * V -> Z) (m : IndexMap K V) : Z := foldr (fun e acc => f e + acc) 0 m.

Lemma im_sum_perm f m m' : m ≡ₚ m' -> im_sum f m = im_sum f m'.
Proof. unfold im_sum. induction 1; simpl; lia. Qed.

Lemma im_sum_app f m m' : im_sum f (m ++ m') = im_sum f m + im_sum f m'.
Proof. unfold im_sum. induction m; simpl; lia. Qed.

Lemma im_sum_nonneg f m : (forall e, e ∈ m -> 0 <= f e) -> 0 <= im_sum f m.
Proof.
  unfold im_sum. induction m as [|e m IH]; simpl; [lia|]. intros H.
  assert (0 <= f e) by (apply H; left). assert (0 <= foldr (fun e acc => f e + acc) 0 m).
  { apply IH. intros. apply H. by right. } lia.
Qed.

Lemma im_sum_insert f k v m :
  im_ok m ->
  im_sum f (im_insert k v m) =
    im_sum f m + f (k, v) - match im_get k m with Some v0 => f (k, v0) | None => 0 end.
Proof.
  intros Hok. unfold im_sum. revert Hok. unfold im_ok, im_keys.
  induction m as [|[k0 v0] m IH]; simpl; [lia|].
  intros [Hn Hnd]%NoDup_cons. destruct (decide (k = k0)) as [->|]; simpl; [lia|].
  rewrite (IH Hnd). destruct (im_get k m); lia.
Qed.

Lemma im_sum_swap_remove f k v m m' :
  im_ok m -> im_swap_remove k m = (Some v, m') -> im_sum f m = im_sum f m' + f (k, v).
Proof.
  intros Hok E. apply im_swap_remove_perm in E as [Hg Hp]; [|done].
  destruct (im_get_split k v m Hok Hg) as (m0 & Hm & _ & ->).
  rewrite (im_sum_perm _ _ _ Hm), (im_sum_perm _ _ _ Hp). unfold im_sum. simpl. lia.
Qed.

End Facts.

(** Maps that differ only in what their values record. *)
Section Mapped.
Context {K V W : Type} `{EqDecision K} (f : V -> W).
Implicit Types (m : IndexMap K V) (k : K) (v : V).

Definition im_map m : IndexMap K W := prod_map id f <$> m.

Lemma im_get_map k m : im_get k (im_map m) = f <$> im_get k m.
Proof.
  unfold im_map. induction m as [|[k0 v0] m IH]; [done|]. cbn.
  by destruct (decide (k = k0)).
Qed.

Lemma im_insert_map k v m : im_insert k (f v) (im_map m) = im_map (im_insert k v m).
Proof.
  unfold im_map. induction m as [|[k0 v0] m IH]; [done|]. cbn.
  destruct (decide (k = k0)); [done|]. cbn. by f_equal.
Qed.

Lemma im_swap_over_map k e m :
  im_swap_over k (prod_map id f e) (im_map m) = im_map (im_swap_over k e m).
Proof.
  unfold im_swap_over, im_map. rewrite <- !list_fmap_compose. apply list_fmap_ext.
  intros _ [k0 v0] _. cbn. by destruct (decide (k0 = k)).
Qed.

Lemma im_swap_remove_map k m :
  im_swap_remove k (im_map m) = prod_map (fmap f) im_map (im_swap_remove k m).
Proof.
  unfold im_swap_remove. rewrite im_get_map. destruct (im_get k m) as [v|]; [|done]. cbn.
  f_equal. unfold im_map at 1. rewrite fmap_last.
  destruct (last m) as [e|]; [|done]. cbn. unfold im_map. rewrite length_fmap, <- fmap_take.
  destruct (decide _); [done|]. apply im_swap_over_map.
Qed.
End Mapped.

#[export] Hint Resolve im_ok_insert im_ok_swap_remove : radix.

Arguments im_sum {K V} f m : simpl never.

(** ** Index sets

    An [IndexSet] is the list of its elements in insertion order, without
    repetition; its equality ignores the order. *)

Abbreviation IndexSet A := (list A) (only parsing).

Section Sets.
Context {A : Type} `{EqDecision A}.
Implicit Types (s t : IndexSet A) (x : A).

Definition is_contains (x : A) (s : IndexSet A) : bool := bool_decide (x ∈ s).
(** [insert] returns whether the element is new. *)
Definition is_insert (x : A) (s : IndexSet A) : bool * IndexSet A :=
  if is_contains x s then (false, s) else (true, s ++ [x]).
Definition is_extend (s other : IndexSet A) : IndexSet A :=
  foldl (fun acc x => (is_insert x acc).2) s other.
Definition is_difference (s other : IndexSet A) : IndexSet A := filter (fun x => x ∉ other) s.
Definition is_intersection (s other : IndexSet A) : IndexSet A := filter (fun x => x ∈ other) s.
Definition is_subset (s other : IndexSet A) : bool := bool_decide (s ⊆ other).
Definition is_from_iter (l : list A) : IndexSet A := is_extend [] l.

Lemma elem_of_is_insert x y s : y ∈ (is_insert x s).2 <-> y = x \/ y ∈ s.
Proof.
  unfold is_insert, is_contains. case_bool_decide; cbn; [naive_solver|].
  rewrite elem_of_app, list_elem_of_singleton. naive_solver.
Qed.

Lemma NoDup_is_insert x s : NoDup s -> NoDup (is_insert x s).2.
Proof.
  unfold is_insert, is_contains. intros Hs. case_bool_decide as Hx; cbn; [done|].
  apply NoDup_app. split_and!; [done| |apply NoDup_singleton].
  intros y Hy ->%list_elem_of_singleton. done.
Qed.

Lemma elem_of_is_extend y other s : y ∈ is_extend s other <-> y ∈ s \/ y ∈ other.
Proof.
  unfold is_extend. revert s. induction other as [|x other IH]; intros s; cbn; [set_solver|].
  rewrite IH, elem_of_is_insert, elem_of_cons. naive_solver.
Qed.

Lemma NoDup_is_extend other s : NoDup s -> NoDup (is_extend s other).
Proof.
  unfold is_extend. revert s. induction other as [|x other IH]; intros s Hs; cbn; [done|].
  by apply IH, NoDup_is_insert.
Qed.

Lemma elem_of_is_from_iter y l : y ∈ is_from_iter l <-> y ∈ l.
Proof. unfold is_from_iter. rewrite elem_of_is_extend. set_solver. Qed.

Lemma NoDup_is_from_iter l : NoDup (is_from_iter l).
Proof. apply NoDup_is_extend, NoDup_nil_2. Qed.

Lemma is_extend_fresh s other :
  NoDup other -> (forall x, x ∈ other -> x ∉ s) -> is_extend s other = s ++ other.
Proof.
  unfold is_extend. revert s. induction other as [|x other IH]; intros s Hn Hd; cbn; [by rewrite app_nil_r|].
  apply NoDup_cons in Hn as [Hx Hn].
  unfold is_insert, is_contains. rewrite bool_decide_false by (apply Hd; set_solver). cbn.
  rewrite IH; [by rewrite <- app_assoc|done|]. intros y Hy. rewrite elem_of_app, list_elem_of_singleton.
  intros [?| ->]; [by apply (Hd y); [set_solver|]|done].
Qed.

Lemma is_from_iter_NoDup l : NoDup l -> is_from_iter l = l.
Proof. intros. unfold is_from_iter. rewrite is_extend_fresh; [done|done|set_solver]. Qed.

Lemma elem_of_is_difference y s other : y ∈ is_difference s other <-> y ∈ s /\ y ∉ other.
Proof. unfold is_difference. rewrite list_elem_of_filter. naive_solver. Qed.

Lemma elem_of_is_intersection y s other : y ∈ is_intersection s other <-> y ∈ s /\ y ∈ other.
Proof. unfold is_intersection. rewrite list_elem_of_filter. naive_solver. Qed.

Lemma NoDup_is_difference s other : NoDup s -> NoDup (is_difference s other).
Proof. apply NoDup_filter. Qed.

Lemma NoDup_is_intersection s other : NoDup s -> NoDup (is_intersection s other).
Proof. apply NoDup_filter. Qed.

Lemma is_subset_spec s other : is_subset s other = true <-> s ⊆ other.
Proof. apply bool_decide_eq_true. Qed.

(** Sizes of sets. *)
Lemma set_length_le s other : NoDup s -> s ⊆ other -> (length s <= length other)%nat.
Proof. intros Hs Hi. apply submseteq_length, NoDup_submseteq; done. Qed.

Lemma set_full s other :
  NoDup s -> NoDup other -> s ⊆ other -> (length other <= length s)%nat -> other ⊆ s.
Proof.
  intros Hs Ho Hi Hl. assert (s ≡ₚ other) as ->; [|done].
  apply submseteq_length_Permutation; [by apply NoDup_submseteq|done].
Qed.

Lemma set_difference_length s other :
  NoDup s -> NoDup other -> other ⊆ s -> (length (is_difference s other) + length other = length s)%nat.
Proof.
  intros Hs Ho Hi. assert (s ≡ₚ is_difference s other ++ other) as Hp.
  { apply NoDup_Permutation; [done| |].
    - apply NoDup_app. split_and!; [by apply NoDup_is_difference| |done].
      intros x [_ ?]%elem_of_is_difference. done.
    - intros x. rewrite elem_of_app, elem_of_is_difference. destruct (decide (x ∈ other)); set_solver. }
  apply Permutation_length in Hp. rewrite length_app in Hp. lia.
Qed.
End Sets.

#[export] Hint Resolve NoDup_is_insert NoDup_is_extend NoDup_is_from_iter NoDup_is_difference
  NoDup_is_intersection : radix.
