(* ===== verification/Resource.v ===== *)
(** * Liquid and locked resources

    The resource values held by vaults and buckets
    (radix-engine-interface/src/blueprints/resource/resource.rs and mod.rs).
    [LiquidFungibleResource] has one field, its amount, and is that amount; the
    index maps and sets are those of [IndexMap]. *)

From S2P Require Import Prelude Decimals IndexMap.
Import Int Rounding Dec DecSpec.

(** Errors of resource operations; [Id] is the type of non-fungible local ids. *)
Inductive ResourceError (Id : Type) : Type :=
| InsufficientBalance (requested actual : Decimal)
| InvalidTakeAmount
| MissingNonFungibleLocalId (id : Id)
| DecimalOverflow.
Arguments InsufficientBalance {Id} requested actual.
Arguments InvalidTakeAmount {Id}.
Arguments MissingNonFungibleLocalId {Id} id.
Arguments DecimalOverflow {Id}.

Inductive WithdrawStrategy : Type :=
| Exact
| Rounded (mode : RoundingMode).

(** [10i128.pow((18 - divisibility).into())]: [divisibility <= 18] is checked
    when the resource is created. *)
Definition check_fungible_amount (amount : Decimal) (divisibility : Z) : bool :=
  negb (is_negative amount) && (Z.rem amount (10 ^ (18 - divisibility)) =? 0).

Definition for_withdrawal (amount : Decimal) (divisibility : Z) (s : WithdrawStrategy) :
    Exec (option Decimal) :=
  match s with
  | Exact => Done (Some amount)
  | Rounded mode => checked_round amount divisibility mode
  end.

Module LiquidFungible.
Section Ops.
Context {Id : Type}.

Definition liquid_new (amount : Decimal) : Decimal := amount.
Definition liquid_is_empty (self : Decimal) : bool := is_zero self.

Definition liquid_put (self other : Decimal) : Exec Decimal := expect (checked_add self other).

(** Returns the remaining and the taken amount. *)
Definition liquid_take_by_amount (self amount_to_take : Decimal) :
    Result (ResourceError Id) (Decimal * Decimal) :=
  if self <? amount_to_take then Err (InsufficientBalance amount_to_take self) else
  rest ← ok_or (checked_sub self amount_to_take) DecimalOverflow;
  Ok (rest, amount_to_take).

Lemma liquid_take_spec self a :
  wf self -> 0 <= a ->
  liquid_take_by_amount self a =
    if self <? a then Err (InsufficientBalance a self) else Ok (self - a, a).
Proof.
  intros Hw Ha. unfold liquid_take_by_amount. destruct (self <? a) eqn:E; [done|]. zbool.
  by rewrite checked_sub_nonneg by (done || lia).
Qed.

(** Whatever is taken, the two parts add up to what there was. *)
Lemma liquid_take_conserves self a rest taken :
  liquid_take_by_amount self a = Ok (rest, taken) ->
  taken = a /\ rest + taken = self /\ a <= self /\ wf rest.
Proof.
  unfold liquid_take_by_amount. destruct (self <? a) eqn:E; [done|]. zbool.
  destruct (checked_sub self a) as [r|] eqn:Hs; [|done]. intros [= <- <-].
  apply checked_sub_Some in Hs as [-> Hwf]. repeat split; [lia|lia|apply Hwf|apply Hwf].
Qed.

Lemma liquid_put_conserves self other r :
  liquid_put self other = Done r -> r = self + other /\ wf r.
Proof.
  unfold liquid_put. destruct (checked_add self other) as [c|] eqn:E; [|done].
  intros [= <-]. apply checked_add_Some in E as [-> Hw]. done.
Qed.

Lemma liquid_put_Done self other :
  wf (self + other) -> liquid_put self other = Done (self + other).
Proof.
  intros Hw. unfold liquid_put.
  by rewrite (proj2 (checked_add_Some self other (self + other)) (conj eq_refl Hw)).
Qed.

End Ops.

Definition liquid_take_all (self : Decimal) : Exec (Decimal * Decimal) :=
  match liquid_take_by_amount (Id := Empty_set) self self with
  | Ok r => Done r
  | Err _ => Panicked
  end.

Lemma liquid_take_all_spec self :
  liquid_take_all self = Done (0, self).
Proof.
  unfold liquid_take_all, liquid_take_by_amount.
  rewrite Z.ltb_irrefl, (proj2 (checked_sub_Some self self 0)); [done|].
  rewrite Z.sub_diag. split; [done|]. apply wf_range. lia.
Qed.
End LiquidFungible.

Module LockedFungible.

(** [LockedFungibleResource]: the locked amounts with their lock counts. *)
Abbreviation Locked := (IndexMap Decimal Z) (only parsing).

Definition locked_default : Locked := [].
Definition locked_is_locked (l : Locked) : bool :=
  match l with [] => false | _ => true end.

(** The largest locked amount, at least zero. *)
Definition locked_amount (l : Locked) : Decimal :=
  foldl (fun max amount => if max <? amount then amount else max) ZERO (im_keys l).

(** [locked.amounts.entry(amount).or_default().add_assign(1)], counting in
    [usize]. *)
Definition locked_inc (amount : Decimal) (l : Locked) : Locked :=
  im_update 0 (fun c => wrap_u 64 (c + 1)) amount l.

Lemma foldl_max_spec (l : list Z) a :
  let m := foldl (fun max x => if max <? x then x else max) a l in
  a <= m /\ (forall x, x ∈ l -> x <= m) /\ (m = a \/ m ∈ l).
Proof.
  cbv zeta. revert a. induction l as [|x l IH]; intros a; simpl.
  - split; [lia|]. split; [set_solver|by left].
  - destruct (IH (if a <? x then x else a)) as (H1 & H2 & H3).
    destruct (a <? x) eqn:E; zbool.
    + split; [lia|]. split; [|right; destruct H3 as [->|]; [left|by right]].
      intros y [->|Hy]%elem_of_cons; [lia|auto].
    + split; [lia|]. split; [|destruct H3 as [->|]; [by left|right; by right]].
      intros y [->|Hy]%elem_of_cons; [lia|auto].
Qed.

Lemma locked_amount_nonneg l : 0 <= locked_amount l.
Proof. destruct (foldl_max_spec (im_keys l) ZERO) as (? & ? & ?). auto. Qed.

Lemma locked_amount_ge l a : a ∈ im_keys l -> a <= locked_amount l.
Proof. destruct (foldl_max_spec (im_keys l) ZERO) as (? & ? & ?). auto. Qed.

Lemma locked_amount_in l : locked_amount l = 0 \/ locked_amount l ∈ im_keys l.
Proof. destruct (foldl_max_spec (im_keys l) ZERO) as (? & ? & ?). auto. Qed.

(** [locked_amount] is determined by the set of keys. *)
Lemma locked_amount_eq l m :
  0 <= m -> (forall a, a ∈ im_keys l -> a <= m) -> (m = 0 \/ m ∈ im_keys l) ->
  locked_amount l = m.
Proof.
  intros H0 Hle Hin. apply Z.le_antisymm.
  - destruct (locked_amount_in l) as [->|Hi]; auto.
  - destruct Hin as [->|Hi]; [apply locked_amount_nonneg | by apply locked_amount_ge].
Qed.

Lemma locked_keys_inc a l b :
  b ∈ im_keys (locked_inc a l) <-> b = a \/ b ∈ im_keys l.
Proof.
  unfold locked_inc, im_update. rewrite im_keys_insert. destruct (im_get a l) eqn:E.
  - split; [auto|]. intros [->|]; [|done]. apply im_get_elem in E.
    apply list_elem_of_fmap. by exists (a, z).
  - rewrite elem_of_app, list_elem_of_singleton. tauto.
Qed.

Lemma locked_amount_inc a l :
  0 <= a -> locked_amount (locked_inc a l) = Z.max (locked_amount l) a.
Proof.
  intros Ha. apply locked_amount_eq.
  - lia.
  - intros b [->|Hb]%locked_keys_inc; [lia|]. apply locked_amount_ge in Hb. lia.
  - destruct (Z.max_spec (locked_amount l) a) as [[? ->]|[? ->]].
    + right. apply locked_keys_inc. by left.
    + destruct (locked_amount_in l) as [->|Hi]; [by left|right].
      apply locked_keys_inc. by right.
Qed.

End LockedFungible.

(** Non-fungible resources: index sets of local ids. *)
Module NonFungible.
Section Ops.
Context {Id : Type} `{EqDecision Id}.

Abbreviation Ids := (IndexMap Id unit) (only parsing).

(** [self.ids.extend(other.ids)] *)
Definition nf_put (self other : Ids) : Ids :=
  foldl (fun acc e => im_insert e.1 e.2 acc) self other.

(** The loop of [take_by_ids]; on an error the ids already removed stay
    removed, as in the code. *)
Fixpoint nf_remove_all (ids_to_take : list Id) (self : Ids) :
    Result (ResourceError Id) unit * Ids :=
  match ids_to_take with
  | [] => (Ok tt, self)
  | id :: rest =>
      match im_swap_remove id self with
      | (Some _, self') => nf_remove_all rest self'
      | (None, _) => (Err (MissingNonFungibleLocalId id), self)
      end
  end.

Definition nf_take_by_ids (self ids_to_take : Ids) : Result (ResourceError Id) Ids * Ids :=
  match nf_remove_all (im_keys ids_to_take) self with
  | (Ok _, self') => (Ok ids_to_take, self')
  | (Err e, self') => (Err e, self')
  end.

Definition nf_take_by_amount (self : Ids) (n : Z) : Result (ResourceError Id) Ids * Ids :=
  if Z.of_nat (length self) <? n
  then (Err (InsufficientBalance (n * ONE) (Z.of_nat (length self) * ONE)), self)
  else nf_take_by_ids self (take (Z.to_nat n) self).

Definition nf_take_all (self : Ids) : Ids * Ids := (self, []).

Lemma nf_remove_all_spec ids self :
  im_ok self -> NoDup ids ->
  match nf_remove_all ids self with
  | (Ok _, self') => im_ok self' /\ im_keys self ≡ₚ ids ++ im_keys self'
  | (Err (MissingNonFungibleLocalId id), self') =>
      im_ok self' /\ id ∈ ids /\ id ∉ im_keys self
  | (Err _, _) => False
  end.
Proof.
  revert self. induction ids as [|id ids IH]; intros self Hok Hnd; simpl; [done|].
  apply NoDup_cons in Hnd as [Hn Hnd].
  destruct (im_swap_remove id self) as [[u|] self'] eqn:E.
  - assert (Hok' : im_ok self')
      by (pose proof (im_ok_swap_remove id self Hok) as H; by rewrite E in H).
    pose proof (im_swap_remove_perm _ _ _ _ Hok E) as [Hg Hp].
    destruct (im_get_split _ _ _ Hok Hg) as (m0 & Hm & Hk & Em0). rewrite <- Em0 in Hp.
    assert (Hkeys : im_keys self ≡ₚ id :: im_keys self')
      by (unfold im_keys; rewrite Hp, Hm; done).
    specialize (IH self' Hok' Hnd). destruct (nf_remove_all ids self') as [[[]|e] self''].
    + destruct IH as [? IH]. split; [done|]. by rewrite Hkeys, IH.
    + destruct e; try done. destruct IH as (? & Hin & Hnin). split; [done|].
      split; [by right|]. rewrite Hkeys. apply not_elem_of_cons. split; [|done].
      intros ->. by apply Hn.
  - unfold im_swap_remove in E. destruct (im_get id self) eqn:Hg; simplify_eq.
    split; [done|]. split; [by left|]. by apply im_get_None.
Qed.

End Ops.
End NonFungible.

(** ** Properties *)
Module ResourceTheorems.
Import LiquidFungible LockedFungible NonFungible RoundSpec.

(** Taking non-fungibles either succeeds and splits the ids into
    the taken ones and the remaining ones, nothing lost and nothing duplicated,
    or fails naming a requested id that the container did not hold. *)
Theorem nf_take_by_ids_conserves {Id : Type} `{EqDecision Id} (self wanted : IndexMap Id unit) :
  im_ok self -> im_ok wanted ->
  match nf_take_by_ids self wanted with
  | (Ok taken, rest) =>
      taken = wanted /\ im_ok rest /\ im_keys self ≡ₚ im_keys taken ++ im_keys rest
  | (Err (MissingNonFungibleLocalId id), _) =>
      id ∈ im_keys wanted /\ id ∉ im_keys self
  | (Err _, _) => False
  end.
Proof.
  intros Hs Hw. unfold nf_take_by_ids.
  pose proof (nf_remove_all_spec (im_keys wanted) self Hs Hw) as H.
  destruct (nf_remove_all _ _) as [[[]|e] self'].
  - destruct H. done.
  - destruct e; try done. by destruct H as (? & ? & ?).
Qed.

Definition ids_123 : IndexMap Z unit := [(1, tt); (2, tt); (3, tt)].

Lemma nf_take_by_ids_conserves_witness :
  nf_take_by_ids ids_123 [(1, tt)] = (Ok [(1, tt)], [(3, tt); (2, tt)]) /\
  match nf_take_by_ids ids_123 [(1, tt)] with
  | (Ok taken, rest) =>
      taken = [(1, tt)] /\ im_ok rest /\ im_keys ids_123 ≡ₚ im_keys taken ++ im_keys rest
  | (Err (MissingNonFungibleLocalId id), _) => id ∈ im_keys [(1, tt)] /\ id ∉ im_keys ids_123
  | (Err _, _) => False
  end.
Proof.
  split; [reflexivity|].
  apply (nf_take_by_ids_conserves ids_123 [(1, tt)]); apply (bool_decide_unpack _); vm_compute; exact I.
Defined.

(** The amount a rounded withdrawal resolves to is accepted by
    the amount check of the vault whenever it is not negative: rounding to the
    divisibility of the resource always yields a whole number of its smallest
    units. *)
Theorem for_withdrawal_checks (amount : Decimal) (divisibility : Z) (mode : RoundingMode) (r : Decimal) :
  wf amount -> 0 <= divisibility <= 18 ->
  for_withdrawal amount divisibility (Rounded mode) = Done (Some r) ->
  check_fungible_amount r divisibility = negb (is_negative r) /\
  (0 <= amount -> check_fungible_amount r divisibility = true).
Proof.
  intros Hw Hd. cbn [for_withdrawal]. rewrite checked_round_value by done.
  intros [= E]. apply checked_i_Some in E as [-> _].
  pose proof (round_value_rounds mode amount (10 ^ (SCALE - divisibility))
                ltac:(apply pow10_pos; unfold SCALE; lia)) as (Hdvd & Hclose & _).
  set (r := round_value _ _ _) in *. unfold SCALE in *.
  assert (Hpos : 0 < 10 ^ (18 - divisibility)) by (apply Z.pow_pos_nonneg; lia).
  assert (Hrem : Z.rem r (10 ^ (18 - divisibility)) =? 0 = true)
    by (apply Z.eqb_eq, Z.rem_divide; [lia|done]).
  unfold check_fungible_amount. rewrite Hrem, andb_true_r. split; [done|].
  intros Ha. apply negb_true_iff, Z.ltb_ge. destruct Hdvd as [k Hk].
  destruct (Z.le_gt_cases 0 k); nia.
Qed.

Lemma for_withdrawal_checks_witness :
  check_fungible_amount (133 * ONE / 100) 2 = true.
Proof.
  apply (for_withdrawal_checks (4 * ONE / 3) 2 ToZero (133 * ONE / 100));
    vm_compute; first [reflexivity | split; congruence | congruence].
Defined.

End ResourceTheorems.
