(* ===== verification/FeeReserve.v ===== *)
(** * The fee reserve

    [SystemLoanFeeReserve] (radix-engine/.../costing/fee_reserve.rs) meters a
    transaction: it starts with a loan from the system, charges execution,
    finalization, storage and royalty costs against a balance of RORK, credits
    the fees locked from vaults, and repays the loan.  Its state is the record
    below; its methods are computations of the monad [M]. *)

From S2P Require Import Prelude Decimals IndexMap Resource.
Import Int Dec DecSpec LiquidFungible.

(** ** Data *)

Record CostingParameters : Type := {
  execution_cost_unit_price : Decimal;
  execution_cost_unit_limit : Z;
  execution_cost_unit_loan : Z;
  finalization_cost_unit_price : Decimal;
  finalization_cost_unit_limit : Z;
  usd_price : Decimal;
  state_storage_price : Decimal;
  archive_storage_price : Decimal
}.

Inductive TipSpecifier : Type :=
| TipNone
| Percentage (percentage : Z)
| BasisPoints (basis_points : Z).

Record TransactionCostingParameters : Type := {
  tip : TipSpecifier;
  free_credit_in_xrd : Decimal
}.

Inductive StorageType : Type := State | Archive.

#[export] Instance StorageType_eq_dec : EqDecision StorageType.
Proof. solve_decision. Defined.

Inductive RoyaltyAmount : Type :=
| Free
| Xrd (amount : Decimal)
| Usd (amount : Decimal).

Inductive RoyaltyRecipient : Type :=
| Package (address : NodeId) (vault : NodeId)
| Component (address : NodeId) (vault : NodeId).

#[export] Instance RoyaltyRecipient_eq_dec : EqDecision RoyaltyRecipient.
Proof. solve_decision. Defined.

Definition vault_id (r : RoyaltyRecipient) : NodeId :=
  match r with Package _ v | Component _ v => v end.

Inductive FeeReserveError : Type :=
| FeeInsufficientBalance (required remaining : Decimal)
| FeeOverflow
| LimitExceeded (limit committed new : Z)
| LoanRepaymentFailed (xrd_owed : Decimal)
| Abort.

Record SystemLoanFeeReserve : Type := {
  costing_parameters : CostingParameters;
  transaction_costing_parameters : TransactionCostingParameters;
  abort_when_loan_repaid : bool;
  effective_execution_cost_unit_price : Decimal;
  effective_finalization_cost_unit_price : Decimal;
  xrd_balance : Decimal;
  xrd_owed : Decimal;
  execution_cost_units_committed : Z;
  execution_cost_units_deferred : Z;
  finalization_cost_units_committed : Z;
  finalization_cost_units_deferred : Z;
  royalty_cost_committed : Decimal;
  royalty_cost_breakdown : IndexMap RoyaltyRecipient Decimal;
  storage_cost_committed : Decimal;
  storage_cost_deferred : IndexMap StorageType Z;
  locked_fees : list (NodeId * Decimal * bool)
}.

(** ** Field updates *)
Section Updates.
Context (r : SystemLoanFeeReserve).

Definition upd_money (balance owed : Decimal) : SystemLoanFeeReserve := {|
  costing_parameters := costing_parameters r;
  transaction_costing_parameters := transaction_costing_parameters r;
  abort_when_loan_repaid := abort_when_loan_repaid r;
  effective_execution_cost_unit_price := effective_execution_cost_unit_price r;
  effective_finalization_cost_unit_price := effective_finalization_cost_unit_price r;
  xrd_balance := balance;
  xrd_owed := owed;
  execution_cost_units_committed := execution_cost_units_committed r;
  execution_cost_units_deferred := execution_cost_units_deferred r;
  finalization_cost_units_committed := finalization_cost_units_committed r;
  finalization_cost_units_deferred := finalization_cost_units_deferred r;
  royalty_cost_committed := royalty_cost_committed r;
  royalty_cost_breakdown := royalty_cost_breakdown r;
  storage_cost_committed := storage_cost_committed r;
  storage_cost_deferred := storage_cost_deferred r;
  locked_fees := locked_fees r |}.

Definition upd_units (ec ed fc fd : Z) : SystemLoanFeeReserve := {|
  costing_parameters := costing_parameters r;
  transaction_costing_parameters := transaction_costing_parameters r;
  abort_when_loan_repaid := abort_when_loan_repaid r;
  effective_execution_cost_unit_price := effective_execution_cost_unit_price r;
  effective_finalization_cost_unit_price := effective_finalization_cost_unit_price r;
  xrd_balance := xrd_balance r;
  xrd_owed := xrd_owed r;
  execution_cost_units_committed := ec;
  execution_cost_units_deferred := ed;
  finalization_cost_units_committed := fc;
  finalization_cost_units_deferred := fd;
  royalty_cost_committed := royalty_cost_committed r;
  royalty_cost_breakdown := royalty_cost_breakdown r;
  storage_cost_committed := storage_cost_committed r;
  storage_cost_deferred := storage_cost_deferred r;
  locked_fees := locked_fees r |}.

Definition upd_costs (rc : Decimal) (rb : IndexMap RoyaltyRecipient Decimal)
    (sc : Decimal) (sd : IndexMap StorageType Z)
    (lf : list (NodeId * Decimal * bool)) : SystemLoanFeeReserve := {|
  costing_parameters := costing_parameters r;
  transaction_costing_parameters := transaction_costing_parameters r;
  abort_when_loan_repaid := abort_when_loan_repaid r;
  effective_execution_cost_unit_price := effective_execution_cost_unit_price r;
  effective_finalization_cost_unit_price := effective_finalization_cost_unit_price r;
  xrd_balance := xrd_balance r;
  xrd_owed := xrd_owed r;
  execution_cost_units_committed := execution_cost_units_committed r;
  execution_cost_units_deferred := execution_cost_units_deferred r;
  finalization_cost_units_committed := finalization_cost_units_committed r;
  finalization_cost_units_deferred := finalization_cost_units_deferred r;
  royalty_cost_committed := rc;
  royalty_cost_breakdown := rb;
  storage_cost_committed := sc;
  storage_cost_deferred := sd;
  locked_fees := lf |}.

Definition set_balance (b : Decimal) := upd_money b (xrd_owed r).
Definition set_owed (o : Decimal) := upd_money (xrd_balance r) o.
Definition set_exec_committed (c : Z) :=
  upd_units c (execution_cost_units_deferred r)
    (finalization_cost_units_committed r) (finalization_cost_units_deferred r).
Definition set_exec_deferred (d : Z) :=
  upd_units (execution_cost_units_committed r) d
    (finalization_cost_units_committed r) (finalization_cost_units_deferred r).
Definition set_fin_committed (c : Z) :=
  upd_units (execution_cost_units_committed r) (execution_cost_units_deferred r)
    c (finalization_cost_units_deferred r).
Definition set_fin_deferred (d : Z) :=
  upd_units (execution_cost_units_committed r) (execution_cost_units_deferred r)
    (finalization_cost_units_committed r) d.
Definition set_royalty (rc : Decimal) (rb : IndexMap RoyaltyRecipient Decimal) :=
  upd_costs rc rb (storage_cost_committed r) (storage_cost_deferred r) (locked_fees r).
Definition set_storage_committed (sc : Decimal) :=
  upd_costs (royalty_cost_committed r) (royalty_cost_breakdown r) sc
    (storage_cost_deferred r) (locked_fees r).
Definition set_storage_deferred (sd : IndexMap StorageType Z) :=
  upd_costs (royalty_cost_committed r) (royalty_cost_breakdown r)
    (storage_cost_committed r) sd (locked_fees r).
Definition set_locked_fees (lf : list (NodeId * Decimal * bool)) :=
  upd_costs (royalty_cost_committed r) (royalty_cost_breakdown r)
    (storage_cost_committed r) (storage_cost_deferred r) lf.
End Updates.

Lemma reserve_ext (r r' : SystemLoanFeeReserve) :
  costing_parameters r = costing_parameters r' ->
  transaction_costing_parameters r = transaction_costing_parameters r' ->
  abort_when_loan_repaid r = abort_when_loan_repaid r' ->
  effective_execution_cost_unit_price r = effective_execution_cost_unit_price r' ->
  effective_finalization_cost_unit_price r = effective_finalization_cost_unit_price r' ->
  xrd_balance r = xrd_balance r' -> xrd_owed r = xrd_owed r' ->
  execution_cost_units_committed r = execution_cost_units_committed r' ->
  execution_cost_units_deferred r = execution_cost_units_deferred r' ->
  finalization_cost_units_committed r = finalization_cost_units_committed r' ->
  finalization_cost_units_deferred r = finalization_cost_units_deferred r' ->
  royalty_cost_committed r = royalty_cost_committed r' ->
  royalty_cost_breakdown r = royalty_cost_breakdown r' ->
  storage_cost_committed r = storage_cost_committed r' ->
  storage_cost_deferred r = storage_cost_deferred r' ->
  locked_fees r = locked_fees r' -> r = r'.
Proof. destruct r, r'. cbn. intros. by subst. Qed.

(** ** Tips *)

(** [I192::from(percentage) * dec!(0.01).attos()] *)
Definition proportion (t : TipSpecifier) : Exec Decimal :=
  match t with
  | TipNone => Done ZERO
  | Percentage p => expect (checked_i 192 (p * 10 ^ 16))
  | BasisPoints bp => expect (checked_i 192 (bp * 10 ^ 14))
  end.

Definition fee_multiplier (t : TipSpecifier) : Exec Decimal :=
  p ← proportion t; add ONE p.

(** ** Construction *)

Definition fee_reserve_new (cp : CostingParameters) (tcp : TransactionCostingParameters)
    (abort : bool) : Exec SystemLoanFeeReserve :=
  if is_negative (execution_cost_unit_price cp) then Panicked else
  if is_negative (finalization_cost_unit_price cp) then Panicked else
  if is_negative (usd_price cp) then Panicked else
  if is_negative (state_storage_price cp) then Panicked else
  if is_negative (archive_storage_price cp) then Panicked else
  if is_negative (free_credit_in_xrd tcp) then Panicked else
  tip_multiplier ← fee_multiplier (tip tcp);
  eff_exec ← expect (checked_mul (execution_cost_unit_price cp) tip_multiplier);
  eff_fin ← expect (checked_mul (finalization_cost_unit_price cp) tip_multiplier);
  loan_opt ← checked_mul_int eff_exec (execution_cost_unit_loan cp);
  system_loan_in_xrd ← expect loan_opt;
  starting_xrd_balance ← expect (checked_add system_loan_in_xrd (free_credit_in_xrd tcp));
  Done {| costing_parameters := cp;
          transaction_costing_parameters := tcp;
          abort_when_loan_repaid := abort;
          effective_execution_cost_unit_price := eff_exec;
          effective_finalization_cost_unit_price := eff_fin;
          xrd_balance := starting_xrd_balance;
          xrd_owed := system_loan_in_xrd;
          execution_cost_units_committed := 0;
          execution_cost_units_deferred := 0;
          finalization_cost_units_committed := 0;
          finalization_cost_units_deferred := 0;
          royalty_cost_committed := ZERO;
          royalty_cost_breakdown := [];
          storage_cost_committed := ZERO;
          storage_cost_deferred := [];
          locked_fees := [] |}.

(** [CostingParameters::babylon_genesis]; the prices are decimal strings in the
    source, e.g. "0.00000005", given here in attos. *)
Definition babylon_genesis : CostingParameters := {|
  execution_cost_unit_price := 50000000000;
  execution_cost_unit_limit := 100000000;
  execution_cost_unit_loan := 4000000;
  finalization_cost_unit_price := 50000000000;
  finalization_cost_unit_limit := 50000000;
  usd_price := 16666666666666666666;
  state_storage_price := 95367430000000;
  archive_storage_price := 95367430000000 |}.

(** ** Methods *)

Abbreviation FM := (M SystemLoanFeeReserve FeeReserveError) (only parsing).

Definition checked_add_u32 (a b : Z) : Result FeeReserveError Z :=
  ok_or (checked_u 32 (a + b)) FeeOverflow.

(** [price.checked_mul(units).ok_or(FeeReserveError::Overflow)?] *)
Definition price_times (price units : Z) : FM Decimal :=
  o ← lift_exec (checked_mul_int price units); lift_result (ok_or o FeeOverflow).

Definition check_execution_cost_unit_limit (cost_units : Z) : FM unit :=
  r ← gets id;
  total ← lift_result (checked_add_u32 (execution_cost_units_committed r) cost_units);
  if execution_cost_unit_limit (costing_parameters r) <? total then
    throw (LimitExceeded (execution_cost_unit_limit (costing_parameters r))
             (execution_cost_units_committed r) cost_units)
  else mret tt.

Definition check_finalization_cost_unit_limit (cost_units : Z) : FM unit :=
  r ← gets id;
  total ← lift_result (checked_add_u32 (finalization_cost_units_committed r) cost_units);
  if finalization_cost_unit_limit (costing_parameters r) <? total then
    throw (LimitExceeded (finalization_cost_unit_limit (costing_parameters r))
             (finalization_cost_units_committed r) cost_units)
  else mret tt.

(** The common tail of the [consume_*] methods: charge [amount] or fail. *)
Definition charge (amount : Decimal) : FM unit :=
  r ← gets id;
  if xrd_balance r <? amount then throw (FeeInsufficientBalance amount (xrd_balance r)) else
  b ← lift_exec (sub (xrd_balance r) amount);
  modify (fun r => set_balance r b).

Definition consume_execution_internal (cost_units : Z) : FM unit :=
  check_execution_cost_unit_limit cost_units;;
  r ← gets id;
  amount ← price_times (effective_execution_cost_unit_price r) cost_units;
  charge amount;;
  modify (fun r => set_exec_committed r
    (wrap_u 32 (execution_cost_units_committed r + cost_units))).

Definition consume_finalization_internal (cost_units : Z) : FM unit :=
  check_finalization_cost_unit_limit cost_units;;
  r ← gets id;
  amount ← price_times (effective_finalization_cost_unit_price r) cost_units;
  charge amount;;
  modify (fun r => set_fin_committed r
    (wrap_u 32 (finalization_cost_units_committed r + cost_units))).

Definition royalty_in_xrd (a : RoyaltyAmount) (usd : Decimal) : Result FeeReserveError Decimal :=
  match a with
  | Xrd xrd_amount => Ok xrd_amount
  | Usd usd_amount => ok_or (checked_mul usd_amount usd) FeeOverflow
  | Free => Ok ZERO
  end.

Definition consume_royalty_internal (royalty_amount : RoyaltyAmount)
    (recipient : RoyaltyRecipient) : FM unit :=
  r ← gets id;
  amount ← lift_result (royalty_in_xrd royalty_amount (usd_price (costing_parameters r)));
  charge amount;;
  r ← gets id;
  e ← lift_exec (add (default ZERO (im_get recipient (royalty_cost_breakdown r))) amount);
  c ← lift_exec (add (royalty_cost_committed r) amount);
  modify (fun r => set_royalty r c (im_insert recipient e (royalty_cost_breakdown r))).

Definition consume_storage (storage_type : StorageType) (size_increase : Z) : FM unit :=
  r ← gets id;
  let price := match storage_type with
    | State => state_storage_price (costing_parameters r)
    | Archive => archive_storage_price (costing_parameters r)
    end in
  amount ← price_times price size_increase;
  charge amount;;
  r ← gets id;
  c ← lift_exec (add (storage_cost_committed r) amount);
  modify (fun r => set_storage_committed r c).

(** The deferred storage costs, by type, in the order of the map. *)
Fixpoint repay_storage (types : list StorageType) : FM unit :=
  match types with
  | [] => mret tt
  | t :: rest =>
      r ← gets id;
      size ← lift_exec (expect (im_get t (storage_cost_deferred r)));
      consume_storage t size;;
      modify (fun r => set_storage_deferred r (im_swap_remove t (storage_cost_deferred r)).2);;
      repay_storage rest
  end.

Definition repay_all : FM unit :=
  r ← gets id;
  consume_execution_internal (execution_cost_units_deferred r);;
  modify (fun r => set_exec_deferred r 0);;
  r ← gets id;
  consume_finalization_internal (finalization_cost_units_deferred r);;
  modify (fun r => set_fin_deferred r 0);;
  r ← gets id;
  repay_storage (im_keys (storage_cost_deferred r));;
  r ← gets id;
  let amount := Z.min (xrd_balance r) (xrd_owed r) in
  o ← lift_exec (sub (xrd_owed r) amount);
  modify (fun r => set_owed r o);;
  b ← lift_exec (sub (xrd_balance r) amount);
  modify (fun r => set_balance r b);;
  r ← gets id;
  guard_or (is_zero (xrd_owed r)) (LoanRepaymentFailed (xrd_owed r));;
  guard_or (negb (abort_when_loan_repaid r)) Abort.

Definition revert_royalty : FM unit :=
  r ← gets id;
  b ← lift_exec (add (xrd_balance r) (royalty_cost_committed r));
  modify (fun r => set_royalty (set_balance r b) ZERO []).

Definition fully_repaid (r : SystemLoanFeeReserve) : bool := xrd_owed r =? ZERO.

Definition consume_deferred_execution (cost_units : Z) : FM unit :=
  r ← gets id;
  d ← lift_result (checked_add_u32 (execution_cost_units_deferred r) cost_units);
  modify (fun r => set_exec_deferred r d).

Definition consume_deferred_finalization (cost_units : Z) : FM unit :=
  r ← gets id;
  d ← lift_result (checked_add_u32 (finalization_cost_units_deferred r) cost_units);
  modify (fun r => set_fin_deferred r d).

Definition consume_deferred_storage (storage_type : StorageType) (size_increase : Z) : FM unit :=
  modify (fun r => set_storage_deferred r
    (im_update 0 (fun s => wrap_u 64 (s + size_increase)) storage_type (storage_cost_deferred r))).

Definition consume_execution (cost_units : Z) : FM unit :=
  if cost_units =? 0 then mret tt else
  consume_execution_internal cost_units;;
  r ← gets id;
  if negb (fully_repaid r) &&
     (execution_cost_unit_loan (costing_parameters r) <=? execution_cost_units_committed r)
  then repay_all
  else mret tt.

Definition consume_finalization (cost_units : Z) : FM unit :=
  if cost_units =? 0 then mret tt else consume_finalization_internal cost_units.

Definition royalty_is_zero (a : RoyaltyAmount) : bool :=
  match a with Xrd x | Usd x => is_zero x | Free => true end.
Definition royalty_is_negative (a : RoyaltyAmount) : bool :=
  match a with Xrd x | Usd x => is_negative x | Free => false end.

Definition consume_royalty (royalty_amount : RoyaltyAmount) (recipient : RoyaltyRecipient) :
    FM unit :=
  if royalty_is_zero royalty_amount then mret tt else
  if royalty_is_negative royalty_amount then panic else
  consume_royalty_internal royalty_amount recipient.

Definition lock_fee (vault : NodeId) (fee : Decimal) (contingent : bool) : FM unit :=
  (if contingent then mret tt else
   r ← gets id;
   b ← lift_exec (expect (checked_add (xrd_balance r) fee));
   modify (fun r => set_balance r b));;
  taken ← lift_exec (liquid_take_all fee);
  modify (fun r => set_locked_fees r (locked_fees r ++ [(vault, taken.2, contingent)])).

(** ** The accounting invariant *)
Module FeeInvariant.

(** Fees locked unconditionally. *)
Definition locked_credit (r : SystemLoanFeeReserve) : Z :=
  foldr (fun (f : NodeId * Decimal * bool) acc => (if f.2 then 0 else f.1.2) + acc) 0 (locked_fees r).

(** Everything charged so far, at the effective prices. *)
Definition committed_cost (r : SystemLoanFeeReserve) : Z :=
  effective_execution_cost_unit_price r * execution_cost_units_committed r +
  effective_finalization_cost_unit_price r * finalization_cost_units_committed r +
  royalty_cost_committed r + storage_cost_committed r.

(** Everything the transaction could spend so far. *)
Definition funds (r : SystemLoanFeeReserve) : Z :=
  xrd_owed r + free_credit_in_xrd (transaction_costing_parameters r) + locked_credit r.

(** The percentage is a [u16], the basis points a [u32]. *)
Definition tip_ok (t : TipSpecifier) : Prop :=
  match t with
  | TipNone => True
  | Percentage p => 0 <= p < 2 ^ 16
  | BasisPoints b => 0 <= b <= U32_MAX
  end.

(** The cached prices are the unit prices with the tip applied. *)
Definition effective_prices (r : SystemLoanFeeReserve) : Prop :=
  exists p, proportion (tip (transaction_costing_parameters r)) = Done p /\ 0 <= p /\
    checked_mul (execution_cost_unit_price (costing_parameters r)) (ONE + p) =
      Some (effective_execution_cost_unit_price r) /\
    checked_mul (finalization_cost_unit_price (costing_parameters r)) (ONE + p) =
      Some (effective_finalization_cost_unit_price r).

Record Prices (r : SystemLoanFeeReserve) : Prop := {
  pr_effective : effective_prices r;
  pr_base_exec : 0 <= execution_cost_unit_price (costing_parameters r);
  pr_base_fin : 0 <= finalization_cost_unit_price (costing_parameters r);
  pr_exec : 0 <= effective_execution_cost_unit_price r;
  pr_fin : 0 <= effective_finalization_cost_unit_price r;
  pr_state : 0 <= state_storage_price (costing_parameters r);
  pr_archive : 0 <= archive_storage_price (costing_parameters r);
  pr_usd : 0 <= usd_price (costing_parameters r);
  pr_credit : 0 <= free_credit_in_xrd (transaction_costing_parameters r);
  pr_exec_limit : execution_cost_unit_limit (costing_parameters r) <= U32_MAX;
  pr_fin_limit : finalization_cost_unit_limit (costing_parameters r) <= U32_MAX
}.

Record Inv (r : SystemLoanFeeReserve) : Prop := {
  inv_prices : Prices r;
  inv_balance : 0 <= xrd_balance r;
  inv_owed : 0 <= xrd_owed r;
  inv_conservation : xrd_balance r + committed_cost r = funds r;
  inv_bounded : funds r <= MAX;
  inv_exec : 0 <= execution_cost_units_committed r <=
             Z.max 0 (execution_cost_unit_limit (costing_parameters r));
  inv_fin : 0 <= finalization_cost_units_committed r <=
            Z.max 0 (finalization_cost_unit_limit (costing_parameters r));
  inv_exec_deferred : 0 <= execution_cost_units_deferred r <= U32_MAX;
  inv_fin_deferred : 0 <= finalization_cost_units_deferred r <= U32_MAX;
  inv_storage : 0 <= storage_cost_committed r;
  inv_storage_ok : im_ok (storage_cost_deferred r);
  inv_storage_sizes : forall t s, im_get t (storage_cost_deferred r) = Some s -> 0 <= s < 2 ^ 64;
  inv_royalty_ok : im_ok (royalty_cost_breakdown r);
  inv_royalty_nonneg :
    forall p a, im_get p (royalty_cost_breakdown r) = Some a -> 0 <= a;
  inv_royalty_sum : im_sum snd (royalty_cost_breakdown r) = royalty_cost_committed r;
  inv_locked : forall f, f ∈ locked_fees r -> 0 <= f.1.2
}.

Lemma royalty_nonneg r : Inv r -> 0 <= royalty_cost_committed r.
Proof.
  intros [_ _ _ _ _ _ _ _ _ _ _ _ Hok Hnn Hs _]. rewrite <- Hs.
  apply im_sum_nonneg. intros [p a] Hin. simpl. eapply Hnn. by apply im_elem_get.
Qed.

Lemma locked_credit_app r r' f :
  locked_fees r' = locked_fees r ++ [f] ->
  locked_credit r' = locked_credit r + (if f.2 then 0 else f.1.2).
Proof.
  unfold locked_credit. intros ->. induction (locked_fees r) as [|g l IH]; simpl; [lia|].
  rewrite IH. lia.
Qed.

Lemma locked_credit_nonneg r : Inv r -> 0 <= locked_credit r.
Proof.
  intros Hi. pose proof (inv_locked _ Hi) as Hl. unfold locked_credit. revert Hl.
  generalize (locked_fees r). intros l Hl. induction l as [|f l IHl]; cbn; [lia|].
  assert (0 <= f.1.2) by (apply Hl; left).
  assert (forall g, g ∈ l -> 0 <= g.1.2) by (intros; apply Hl; by right).
  specialize (IHl ltac:(done)). destruct f.2; lia.
Qed.

Lemma committed_nonneg r :
  Inv r -> 0 <= effective_execution_cost_unit_price r * execution_cost_units_committed r /\
           0 <= effective_finalization_cost_unit_price r * finalization_cost_units_committed r.
Proof. intros [[] ]. split; apply Z.mul_nonneg_nonneg; lia. Qed.

(** The balance, and balance plus any committed part, stay below the funds. *)
Lemma inv_bounds r :
  Inv r ->
  0 <= xrd_balance r <= MAX /\
  xrd_balance r + royalty_cost_committed r <= MAX /\
  xrd_balance r + storage_cost_committed r <= MAX.
Proof.
  intros H. pose proof (royalty_nonneg r H). pose proof (committed_nonneg r H).
  destruct H as [_ Hb _ Hc Hf _ _ _ _ Hs]. unfold committed_cost in Hc. lia.
Qed.

Lemma wf_between z : 0 <= z <= MAX -> wf z.
Proof. intros. apply wf_range. rewrite MAX_val in *. lia. Qed.

Lemma sub_Done a b : 0 <= b <= a -> a <= MAX -> sub a b = Done (a - b).
Proof. intros. unfold sub. rewrite checked_sub_nonneg by (try apply wf_between; lia). done. Qed.

Lemma add_Done a b : 0 <= a -> 0 <= b -> a + b <= MAX -> add a b = Done (a + b).
Proof.
  intros. unfold add. assert (checked_add a b = Some (a + b)) as ->; [|done].
  apply checked_add_Some. split; [done|]. apply wf_between. lia.
Qed.

(** *** Rules for the methods: an error leaves the state alone, a success makes
    exactly the stated change. *)

(** The errors of a single charge. *)
Definition charge_error (e : FeeReserveError) : bool :=
  match e with
  | FeeInsufficientBalance _ _ | FeeOverflow | LimitExceeded _ _ _ => true
  | LoanRepaymentFailed _ | Abort => false
  end.
#[local] Hint Extern 1 (charge_error _ = true) => reflexivity : core.

Lemma wp_charge r amount (Q : unit -> SystemLoanFeeReserve -> Prop)
    (R : FeeReserveError -> SystemLoanFeeReserve -> Prop) :
  0 <= xrd_balance r <= MAX -> 0 <= amount ->
  (amount <= xrd_balance r -> Q tt (set_balance r (xrd_balance r - amount))) ->
  R (FeeInsufficientBalance amount (xrd_balance r)) r ->
  wp (charge amount) r Q R.
Proof.
  intros Hb Ha HQ HR. unfold charge. wp_steps. cbn [id].
  destruct (xrd_balance r <? amount) eqn:E; zbool; [by wp_step|].
  wp_steps. eapply wp_lift_exec; [by apply sub_Done; lia|]. wp_steps. auto.
Qed.

Lemma mul_amount price units o :
  0 <= price -> 0 <= units < 2 ^ 64 -> checked_mul_int price units = Done o ->
  o = None \/ (o = Some (price * units) /\ 0 <= price * units <= MAX).
Proof.
  intros Hp Hu. rewrite checked_mul_int_spec by lia.
  assert (0 <= price * units) by (apply Z.mul_nonneg_nonneg; lia).
  destruct (_ <=? MAX) eqn:E; intros [= <-]; [right|by left]. zbool. split; [done|lia].
Qed.

Lemma mul_amount_Done price units :
  0 <= units < 2 ^ 64 -> exists o, checked_mul_int price units = Done o.
Proof. intros. rewrite checked_mul_int_spec by lia. eauto. Qed.

Lemma wp_checked_add_u32 r a b (Q : Z -> SystemLoanFeeReserve -> Prop)
    (R : FeeReserveError -> SystemLoanFeeReserve -> Prop) :
  (0 <= a + b <= U32_MAX -> Q (a + b) r) -> R FeeOverflow r ->
  wp (lift_result (checked_add_u32 a b)) r Q R.
Proof.
  intros HQ HR. unfold checked_add_u32, ok_or.
  destruct (checked_u 32 (a + b)) eqn:E; [|done]. apply checked_u_Some in E as [-> ?].
  apply wp_lift_result; [|done]. intros ? [= <-]. auto.
Qed.

Lemma wp_price_times r price units (Q : Decimal -> SystemLoanFeeReserve -> Prop)
    (R : FeeReserveError -> SystemLoanFeeReserve -> Prop) :
  0 <= price -> 0 <= units < 2 ^ 64 ->
  (0 <= price * units <= MAX -> Q (price * units) r) -> R FeeOverflow r ->
  wp (price_times price units) r Q R.
Proof.
  intros Hp Hu HQ HR. unfold price_times. wp_step.
  destruct (mul_amount_Done price units Hu) as [o Ho].
  eapply wp_lift_exec; [done|]. destruct (mul_amount _ _ _ Hp Hu Ho) as [->|[-> ?]].
  - apply wp_lift_result; [done|]. by intros ? [= <-].
  - apply wp_lift_result; [|done]. intros ? [= <-]. auto.
Qed.

Definition charged_execution r u :=
  set_exec_committed (set_balance r (xrd_balance r - effective_execution_cost_unit_price r * u))
    (execution_cost_units_committed r + u).

Lemma wp_consume_execution_internal r u (Q : unit -> SystemLoanFeeReserve -> Prop)
    (R : FeeReserveError -> SystemLoanFeeReserve -> Prop) :
  Inv r -> 0 <= u <= U32_MAX ->
  (execution_cost_units_committed r + u <= execution_cost_unit_limit (costing_parameters r) ->
   effective_execution_cost_unit_price r * u <= xrd_balance r ->
   Q tt (charged_execution r u)) ->
  (forall e, charge_error e = true -> R e r) ->
  wp (consume_execution_internal u) r Q R.
Proof.
  intros Hi Hu HQ HR. pose proof (inv_bounds r Hi) as (Hb & _).
  destruct Hi as [[] _ _ _ _ He].
  unfold consume_execution_internal, check_execution_cost_unit_limit. wp_steps. cbn [id].
  apply wp_checked_add_u32; [intros Hs|auto].
  destruct (_ <? _) eqn:E; [wp_step; auto|]. zbool. wp_steps. cbn [id].
  apply wp_price_times; [done|lia| |auto]. intros Ha. wp_steps.
  apply wp_charge; [done|lia| |auto]. intros Hle. wp_steps. cbn.
  rewrite wrap_u_small by (change (u_max 32) with U32_MAX; lia). auto.
Qed.

Definition charged_finalization r u :=
  set_fin_committed (set_balance r (xrd_balance r - effective_finalization_cost_unit_price r * u))
    (finalization_cost_units_committed r + u).

Lemma wp_consume_finalization_internal r u (Q : unit -> SystemLoanFeeReserve -> Prop)
    (R : FeeReserveError -> SystemLoanFeeReserve -> Prop) :
  Inv r -> 0 <= u <= U32_MAX ->
  (finalization_cost_units_committed r + u <= finalization_cost_unit_limit (costing_parameters r) ->
   effective_finalization_cost_unit_price r * u <= xrd_balance r ->
   Q tt (charged_finalization r u)) ->
  (forall e, charge_error e = true -> R e r) ->
  wp (consume_finalization_internal u) r Q R.
Proof.
  intros Hi Hu HQ HR. pose proof (inv_bounds r Hi) as (Hb & _).
  destruct Hi as [[] _ _ _ _ _ He].
  unfold consume_finalization_internal, check_finalization_cost_unit_limit. wp_steps. cbn [id].
  apply wp_checked_add_u32; [intros Hs|auto].
  destruct (_ <? _) eqn:E; [wp_step; auto|]. zbool. wp_steps. cbn [id].
  apply wp_price_times; [done|lia| |auto]. intros Ha. wp_steps.
  apply wp_charge; [done|lia| |auto]. intros Hle. wp_steps. cbn.
  rewrite wrap_u_small by (change (u_max 32) with U32_MAX; lia). auto.
Qed.

Definition storage_price r t :=
  match t with
  | State => state_storage_price (costing_parameters r)
  | Archive => archive_storage_price (costing_parameters r)
  end.

Definition charged_storage r t n :=
  set_storage_committed (set_balance r (xrd_balance r - storage_price r t * n))
    (storage_cost_committed r + storage_price r t * n).

Lemma wp_consume_storage r t n (Q : unit -> SystemLoanFeeReserve -> Prop)
    (R : FeeReserveError -> SystemLoanFeeReserve -> Prop) :
  Inv r -> 0 <= n < 2 ^ 64 ->
  (0 <= storage_price r t * n <= xrd_balance r -> Q tt (charged_storage r t n)) ->
  (forall e, charge_error e = true -> R e r) ->
  wp (consume_storage t n) r Q R.
Proof.
  intros Hi Hu HQ HR. pose proof (inv_bounds r Hi) as (Hb & _ & Hs).
  destruct Hi as [[] _ _ _ _ _ _ _ _ Hst].
  unfold consume_storage. wp_steps. cbn [id]. fold (storage_price r t).
  assert (0 <= storage_price r t) by (by destruct t).
  apply wp_price_times; [done|lia| |auto]. intros Ha. wp_steps.
  apply wp_charge; [done|lia| |auto]. intros Hle. wp_steps. cbn [id].
  eapply wp_lift_exec; [apply add_Done; cbn; lia|]. wp_steps. cbn. apply HQ. lia.
Qed.

Definition charged_royalty r amount p :=
  set_royalty (set_balance r (xrd_balance r - amount)) (royalty_cost_committed r + amount)
    (im_insert p (default ZERO (im_get p (royalty_cost_breakdown r)) + amount)
       (royalty_cost_breakdown r)).

Lemma entry_le_royalty r p :
  Inv r -> 0 <= default ZERO (im_get p (royalty_cost_breakdown r)) <= royalty_cost_committed r.
Proof.
  intros Hi. pose proof (royalty_nonneg r Hi).
  destruct Hi as [_ _ _ _ _ _ _ _ _ _ _ _ Hok Hnn Hs _].
  destruct (im_get p (royalty_cost_breakdown r)) as [a|] eqn:E; [|done]. simpl.
  pose proof (Hnn _ _ E). destruct (im_get_split _ _ _ Hok E) as (m & Hp & _ & Hm).
  rewrite <- Hs, (im_sum_perm _ _ _ Hp). unfold im_sum. simpl. fold (im_sum snd m).
  assert (0 <= im_sum snd m); [|lia]. apply im_sum_nonneg. intros [q b] Hin. simpl.
  apply (Hnn q). apply im_elem_get; [done|]. subst m.
  apply list_elem_of_filter in Hin as [_ Hin]. done.
Qed.

Lemma wp_consume_royalty r a p (Q : unit -> SystemLoanFeeReserve -> Prop)
    (R : FeeReserveError -> SystemLoanFeeReserve -> Prop) :
  Inv r -> royalty_is_negative a = false ->
  Q tt r ->
  (forall amount, 0 <= amount <= xrd_balance r -> Q tt (charged_royalty r amount p)) ->
  (forall e, charge_error e = true -> R e r) ->
  wp (consume_royalty a p) r Q R.
Proof.
  intros Hi Hneg HQ0 HQ HR. unfold consume_royalty.
  destruct (royalty_is_zero a); [by wp_step|]. rewrite Hneg.
  pose proof (inv_bounds r Hi) as (Hb & Hroy & _).
  pose proof (entry_le_royalty r p Hi) as He. pose proof (pr_usd _ (inv_prices _ Hi)) as Hu.
  unfold consume_royalty_internal. wp_steps. cbn [id]. apply wp_lift_result; cycle 1.
  { intros e He'. apply HR. destruct a as [| |x]; try done. cbn in He'.
    destruct (checked_mul x _); cbn in He'; by simplify_eq. }
  intros amount Ham. assert (Ha : 0 <= amount).
  { destruct a as [|x|x]; cbn in Ham, Hneg; [by simplify_eq| |].
    - unfold is_negative in Hneg. zbool. by simplify_eq.
    - unfold is_negative in Hneg. zbool.
      destruct (checked_mul x _) eqn:E; cbn in Ham; simplify_eq.
      by apply checked_mul_nonneg in E as [? _]. }
  wp_steps. apply wp_charge; [done|done| |auto]. intros Hle. wp_steps. cbn [id].
  eapply wp_lift_exec; [apply add_Done; cbn; lia|]. wp_steps.
  eapply wp_lift_exec; [apply add_Done; cbn; lia|]. wp_steps. cbn. apply HQ. lia.
Qed.

(** *** Every change preserves the invariant *)

Ltac fee_inv :=
  lazymatch goal with Hi : Inv ?r |- Inv _ =>
    let Hpr := fresh "Hpr" in
    destruct Hi as [Hpr Hbal Howed Hcons Hbnd Hex Hfi Hexd Hfid Hsto Hsok Hss Hrok Hrnn Hrsum Hlk];
    unfold funds, committed_cost, locked_credit in *;
    constructor; unfold funds, committed_cost, locked_credit, ZERO;
    cbn -[im_sum im_insert im_get foldr] in *;
    [destruct Hpr; by constructor | ..]; try done; try lia
  end.

Lemma inv_charged_execution r u :
  Inv r -> 0 <= u ->
  execution_cost_units_committed r + u <= execution_cost_unit_limit (costing_parameters r) ->
  effective_execution_cost_unit_price r * u <= xrd_balance r ->
  Inv (charged_execution r u).
Proof. intros Hi Hu Hl Hle. fee_inv. Qed.

Lemma inv_charged_finalization r u :
  Inv r -> 0 <= u ->
  finalization_cost_units_committed r + u <= finalization_cost_unit_limit (costing_parameters r) ->
  effective_finalization_cost_unit_price r * u <= xrd_balance r ->
  Inv (charged_finalization r u).
Proof. intros Hi Hu Hl Hle. fee_inv. Qed.

Lemma inv_charged_storage r t n :
  Inv r -> 0 <= storage_price r t * n <= xrd_balance r -> Inv (charged_storage r t n).
Proof. intros Hi Hle. fee_inv. Qed.

Lemma inv_charged_royalty r amount p :
  Inv r -> 0 <= amount <= xrd_balance r -> Inv (charged_royalty r amount p).
Proof.
  intros Hi Hle. pose proof (entry_le_royalty r p Hi) as He. fee_inv.
  - by apply im_ok_insert.
  - intros q a. rewrite im_get_insert. destruct (decide (q = p)); [|apply Hrnn].
    intros [= <-]. lia.
  - rewrite im_sum_insert by done. rewrite Hrsum. unfold ZERO in *. destruct (im_get p (royalty_cost_breakdown r)); cbn in *; lia.
Qed.

Lemma inv_exec_deferred_set r d :
  Inv r -> 0 <= d <= U32_MAX -> Inv (set_exec_deferred r d).
Proof. intros Hi Hd. fee_inv. Qed.

Lemma inv_fin_deferred_set r d :
  Inv r -> 0 <= d <= U32_MAX -> Inv (set_fin_deferred r d).
Proof. intros Hi Hd. fee_inv. Qed.

Lemma inv_storage_deferred_set r m :
  Inv r -> im_ok m -> (forall t s, im_get t m = Some s -> 0 <= s < 2 ^ 64) ->
  Inv (set_storage_deferred r m).
Proof. intros Hi Hok Hs. fee_inv. Qed.

Lemma inv_repaid r :
  Inv r -> Inv (upd_money r (xrd_balance r - Z.min (xrd_balance r) (xrd_owed r))
                  (xrd_owed r - Z.min (xrd_balance r) (xrd_owed r))).
Proof. intros Hi. fee_inv. Qed.

Lemma inv_royalty_reverted r :
  Inv r -> Inv (set_royalty (set_balance r (xrd_balance r + royalty_cost_committed r)) ZERO []).
Proof.
  intros Hi. pose proof (royalty_nonneg r Hi). fee_inv. apply NoDup_nil_2.
Qed.

Lemma inv_fee_locked r v fee contingent :
  Inv r -> 0 <= fee -> (contingent = false -> funds r + fee <= MAX) ->
  Inv (set_locked_fees
         (if contingent then r else set_balance r (xrd_balance r + fee))
         (locked_fees r ++ [(v, fee, contingent)])).
Proof.
  intros Hi Hf Hb. set (r' := set_locked_fees _ _).
  assert (Hlc : locked_credit r' = locked_credit r + (if contingent then 0 else fee)).
  { apply (locked_credit_app r r' (v, fee, contingent)). by destruct contingent. }
  assert (Hmem : forall f, f ∈ locked_fees r' -> 0 <= f.1.2).
  { intros f Hin. unfold r' in Hin. cbn in Hin.
    apply elem_of_app in Hin as [Hin|Hin]; [destruct contingent; by apply Hi|].
    by apply list_elem_of_singleton in Hin as ->. }
  revert Hlc Hmem. unfold r', locked_credit, funds in *. clear r'.
  destruct contingent; cbn -[foldr im_get]; intros; [clear Hb|specialize (Hb eq_refl)]; fee_inv.
Qed.

Create HintDb fee.
#[local] Hint Resolve inv_charged_execution inv_charged_finalization inv_charged_storage
  inv_charged_royalty inv_exec_deferred_set inv_fin_deferred_set inv_repaid
  inv_royalty_reverted : fee.

(** *** Loan repayment *)

(** What the deferred storage costs amount to. *)
Definition storage_due (r : SystemLoanFeeReserve) : Z :=
  im_sum (fun e => storage_price r e.1 * e.2) (storage_cost_deferred r).

Definition storage_paid (r : SystemLoanFeeReserve) : SystemLoanFeeReserve :=
  set_storage_deferred
    (set_storage_committed (set_balance r (xrd_balance r - storage_due r))
       (storage_cost_committed r + storage_due r)) [].

Definition storage_step (r : SystemLoanFeeReserve) (t : StorageType) (n : Z) :=
  set_storage_deferred (charged_storage r t n) (im_swap_remove t (storage_cost_deferred r)).2.

Lemma storage_paid_step r t n :
  im_ok (storage_cost_deferred r) -> im_get t (storage_cost_deferred r) = Some n ->
  storage_paid (storage_step r t n) = storage_paid r.
Proof.
  intros Hok Hg. set (m' := (im_swap_remove t (storage_cost_deferred r)).2).
  assert (Hd : storage_due r = storage_due (storage_step r t n) + storage_price r t * n).
  { assert (im_swap_remove t (storage_cost_deferred r) = (Some n, m')) as E.
    { unfold m', im_swap_remove. by rewrite Hg. }
    unfold storage_due.
    rewrite (im_sum_swap_remove (fun e => storage_price r e.1 * e.2) _ _ _ _ Hok E).
    cbn [fst snd]. f_equal. }
  unfold storage_paid. rewrite Hd.
  apply reserve_ext; try reflexivity; cbn -[storage_due storage_price]; lia.
Qed.

Lemma inv_storage_step r t n :
  Inv r -> im_get t (storage_cost_deferred r) = Some n ->
  0 <= storage_price r t * n <= xrd_balance r -> Inv (storage_step r t n).
Proof.
  intros Hi Hg Hle. apply inv_storage_deferred_set; [by apply inv_charged_storage|..].
  - apply im_ok_swap_remove. apply Hi.
  - intros t' s'. rewrite im_get_swap_remove by apply Hi.
    destruct (decide (t' = t)); [done|]. apply Hi.
Qed.

Lemma wp_repay_storage types r :
  Inv r -> types ≡ₚ im_keys (storage_cost_deferred r) ->
  wp (repay_storage types) r
    (fun _ r' => r' = storage_paid r /\ Inv r')
    (fun e r' => charge_error e = true /\ Inv r' /\ xrd_owed r' = xrd_owed r).
Proof.
  revert r. induction types as [|t types IH]; intros r Hi Hp; cbn [repay_storage].
  - wp_step. assert (storage_cost_deferred r = []) as E.
    { symmetry in Hp. apply Permutation_nil_r in Hp. by apply fmap_nil_inv in Hp. }
    split; [|done]. unfold storage_paid, storage_due. rewrite E.
    apply reserve_ext; try reflexivity; unfold im_sum; cbn; [lia|lia|done].
  - assert (Hok := inv_storage_ok _ Hi).
    assert (exists n, im_get t (storage_cost_deferred r) = Some n) as [n Hn].
    { destruct (im_get t _) eqn:E; [eauto|]. apply im_get_None in E. exfalso. apply E.
      rewrite <- Hp. left. }
    wp_steps. cbn [id]. rewrite Hn. eapply wp_lift_exec; [done|]. wp_steps.
    apply wp_consume_storage; [done|by eapply inv_storage_sizes| |done].
    intros Hle. wp_steps. change (set_storage_deferred _ _) with (storage_step r t n).
    rewrite <- (storage_paid_step r t n) by done.
    apply (IH (storage_step r t n)); [by apply inv_storage_step|].
    unfold storage_step. cbn. apply (Permutation_cons_inv (a:=t)).
    rewrite Hp. unfold im_keys.
    destruct (im_swap_remove t _) as [o m'] eqn:E. assert (o = Some n) as ->.
    { unfold im_swap_remove in E. rewrite Hn in E. by simplify_eq. }
    apply im_swap_remove_perm in E as [_ Hm]; [|done]. cbn. rewrite Hm.
    destruct (im_get_split _ _ _ Hok Hn) as (m0 & Hm0 & _ & <-). by rewrite Hm0.
Qed.

(** The state once every deferred cost has been charged. *)
Definition settled (r : SystemLoanFeeReserve) : SystemLoanFeeReserve :=
  let r1 := set_exec_deferred (charged_execution r (execution_cost_units_deferred r)) 0 in
  storage_paid
    (set_fin_deferred (charged_finalization r1 (finalization_cost_units_deferred r1)) 0).

Definition loan_repaid (r : SystemLoanFeeReserve) : SystemLoanFeeReserve :=
  upd_money r (xrd_balance r - xrd_owed r) 0.

Definition repaid (r : SystemLoanFeeReserve) : SystemLoanFeeReserve := loan_repaid (settled r).

(** How [repay_all] can fail, and what it leaves. *)
Definition repay_failure (r : SystemLoanFeeReserve) (e : FeeReserveError)
    (r' : SystemLoanFeeReserve) : Prop :=
  match e with
  | LoanRepaymentFailed o => xrd_owed r' = o /\ 0 < o /\ xrd_balance r' = 0
  | Abort => abort_when_loan_repaid r = true /\ r' = repaid r
  | _ => xrd_owed r' = xrd_owed r
  end.

Lemma charge_error_failure r e r' :
  charge_error e = true -> xrd_owed r' = xrd_owed r -> repay_failure r e r'.
Proof. by destruct e. Qed.

Lemma wp_repay_loan s :
  Inv s ->
  wp (r ← gets id;
      let amount := Z.min (xrd_balance r) (xrd_owed r) in
      o ← lift_exec (sub (xrd_owed r) amount);
      modify (fun r => set_owed r o);;
      b ← lift_exec (sub (xrd_balance r) amount);
      modify (fun r => set_balance r b);;
      r ← gets id;
      guard_or (is_zero (xrd_owed r)) (LoanRepaymentFailed (xrd_owed r));;
      guard_or (negb (abort_when_loan_repaid r)) Abort) s
    (fun _ r' => r' = loan_repaid s /\ Inv r' /\ xrd_owed s <= xrd_balance s /\
       abort_when_loan_repaid s = false)
    (fun e r' => Inv r' /\
       match e with
       | LoanRepaymentFailed o => xrd_owed r' = o /\ 0 < o /\ xrd_balance r' = 0
       | Abort => abort_when_loan_repaid s = true /\ r' = loan_repaid s
       | _ => False
       end).
Proof.
  intros Hi. pose proof (inv_repaid s Hi) as Hrep. pose proof (inv_bounds s Hi) as (Hb & _).
  pose proof (inv_owed s Hi) as Hs. assert (xrd_owed s <= MAX).
  { pose proof (locked_credit_nonneg s Hi). destruct Hi as [[] _ _ _ Hf]. unfold funds in Hf. lia. }
  wp_steps. cbn [id]. cbn zeta. wp_steps. eapply wp_lift_exec; [apply sub_Done; lia|]. wp_steps.
  eapply wp_lift_exec; [apply sub_Done; lia|]. wp_steps. cbn [id].
  set (s' := set_balance _ _).
  assert (s' = upd_money s (xrd_balance s - Z.min (xrd_balance s) (xrd_owed s))
                 (xrd_owed s - Z.min (xrd_balance s) (xrd_owed s))) as E by reflexivity.
  clearbody s'. subst s'. cbn -[Z.min].
  apply wp_guard_or; unfold is_zero; intros Hz; zbool.
  - assert (upd_money s (xrd_balance s - Z.min (xrd_balance s) (xrd_owed s))
              (xrd_owed s - Z.min (xrd_balance s) (xrd_owed s)) = loan_repaid s) as E.
    { unfold loan_repaid. f_equal; lia. }
    rewrite E in *. apply wp_guard_or; intros Hg; zbool.
    + (do 2 (split; [done|])). split; [lia|done].
    + done.
  - split; [done|]. cbn. lia.
Qed.

Lemma wp_repay_all r :
  Inv r ->
  wp repay_all r
    (fun _ r' => r' = repaid r /\ Inv r' /\ xrd_owed r <= xrd_balance (settled r) /\
       abort_when_loan_repaid r = false)
    (fun e r' => Inv r' /\ repay_failure r e r').
Proof.
  intros Hi. unfold repay_all. wp_steps. cbn [id].
  apply wp_consume_execution_internal; [done|apply Hi| |].
  2: { intros e He. split; [done|]. by apply charge_error_failure. }
  intros Hl Hle. wp_steps. cbn [id].
  set (r1 := set_exec_deferred (charged_execution r _) 0).
  assert (Inv r1) as Hi1.
  { apply inv_exec_deferred_set; [|lia]. apply inv_charged_execution; try done. apply Hi. }
  apply wp_consume_finalization_internal; [done|apply Hi1| |].
  2: { intros e He. split; [done|]. by apply charge_error_failure. }
  intros Hl1 Hle1. wp_steps. cbn [id].
  set (r2 := set_fin_deferred (charged_finalization r1 _) 0).
  assert (Inv r2) as Hi2.
  { apply inv_fin_deferred_set; [|lia]. apply inv_charged_finalization; try done. apply Hi1. }
  eapply wp_mono; [by apply wp_repay_storage| |].
  - intros [] r3 [-> Hi3]. change (storage_paid r2) with (settled r) in *.
    eapply wp_mono; [by apply wp_repay_loan| |].
    + by intros [] r' Hr'.
    + intros e r' [Hr' Hf]. split; [done|]. by destruct e.
  - cbn beta. intros e r' (He & Hi' & Ho). split; [done|]. apply charge_error_failure; done.
Qed.

Lemma wp_consume_execution r u :
  Inv r -> 0 <= u <= U32_MAX ->
  wp (consume_execution u) r (fun _ r' => Inv r') (fun _ r' => Inv r').
Proof.
  intros Hi Hu. unfold consume_execution. destruct (u =? 0); [by wp_step|]. wp_steps.
  apply wp_consume_execution_internal; [done|done| |done]. intros Hl Hle. wp_steps. cbn [id].
  assert (Inv (charged_execution r u)) as Hi' by (apply inv_charged_execution; [done|lia|done..]).
  destruct (_ && _); [|by wp_step].
  eapply wp_mono; [by apply wp_repay_all|..]; cbn beta; tauto.
Qed.

Lemma wp_lock_fee r v fee contingent :
  Inv r -> 0 <= fee -> (contingent = false -> funds r + fee <= MAX) ->
  wp (lock_fee v fee contingent) r
    (fun _ r' => r' = set_locked_fees
         (if contingent then r else set_balance r (xrd_balance r + fee))
         (locked_fees r ++ [(v, fee, contingent)]) /\ Inv r')
    (fun _ _ => False).
Proof.
  intros Hi Hf Hb. pose proof (inv_fee_locked r v fee contingent Hi Hf Hb) as Hi'.
  unfold lock_fee. destruct contingent.
  - wp_steps. rewrite liquid_take_all_spec. eapply wp_lift_exec; [done|]. by wp_steps.
  - specialize (Hb eq_refl). pose proof (inv_bounds r Hi) as (Hbal & _).
    assert (xrd_balance r <= funds r).
    { pose proof (royalty_nonneg r Hi). pose proof (committed_nonneg r Hi).
      destruct Hi as [_ _ _ <- _ _ _ _ _ Hs]. unfold committed_cost. lia. }
    wp_steps. cbn [id]. eapply wp_lift_exec; [apply (add_Done (xrd_balance r) fee); lia|].
    wp_steps. rewrite liquid_take_all_spec. eapply wp_lift_exec; [done|]. by wp_steps.
Qed.

Lemma wp_revert_royalty r :
  Inv r ->
  wp revert_royalty r
    (fun _ r' => r' = set_royalty (set_balance r (xrd_balance r + royalty_cost_committed r))
                        ZERO [] /\ Inv r')
    (fun _ _ => False).
Proof.
  intros Hi. pose proof (inv_bounds r Hi) as (Hb & Hroy & _). pose proof (royalty_nonneg r Hi).
  unfold revert_royalty. wp_steps. cbn [id]. eapply wp_lift_exec; [apply add_Done; lia|].
  wp_steps. split; [done|]. by apply inv_royalty_reverted.
Qed.

(** *** The reserve as a transition system *)

Inductive FeeOp : Type :=
| OpDeferredExecution (cost_units : Z)
| OpDeferredFinalization (cost_units : Z)
| OpDeferredStorage (t : StorageType) (size : Z)
| OpExecution (cost_units : Z)
| OpFinalization (cost_units : Z)
| OpStorage (t : StorageType) (size : Z)
| OpRoyalty (amount : RoyaltyAmount) (recipient : RoyaltyRecipient)
| OpLockFee (vault : NodeId) (fee : Decimal) (contingent : bool)
| OpRevertRoyalty
| OpRepayAll.

Definition run_op (op : FeeOp) : FM unit :=
  match op with
  | OpDeferredExecution u => consume_deferred_execution u
  | OpDeferredFinalization u => consume_deferred_finalization u
  | OpDeferredStorage t n => consume_deferred_storage t n
  | OpExecution u => consume_execution u
  | OpFinalization u => consume_finalization u
  | OpStorage t n => consume_storage t n
  | OpRoyalty a p => consume_royalty a p
  | OpLockFee v fee c => lock_fee v fee c
  | OpRevertRoyalty => revert_royalty
  | OpRepayAll => repay_all
  end.

(** The argument types ([u32], [usize]), the sign the callers guarantee, and
    the limited supply of RORK that [lock_fee] relies on. *)
Definition op_pre (r : SystemLoanFeeReserve) (op : FeeOp) : Prop :=
  match op with
  | OpDeferredExecution u | OpDeferredFinalization u | OpExecution u | OpFinalization u =>
      0 <= u <= U32_MAX
  | OpDeferredStorage _ n | OpStorage _ n => 0 <= n < 2 ^ 64
  | OpRoyalty a _ => royalty_is_negative a = false
  | OpLockFee _ fee c => 0 <= fee /\ (c = false -> funds r + fee <= MAX)
  | OpRevertRoyalty | OpRepayAll => True
  end.

Lemma wp_run_op r op :
  Inv r -> op_pre r op -> wp (run_op op) r (fun _ r' => Inv r') (fun _ r' => Inv r').
Proof.
  intros Hi Hpre. destruct op as [u|u|t n|u|u|t n|a p|v fee c| |]; cbn [run_op op_pre] in *.
  - unfold consume_deferred_execution. wp_steps. cbn [id].
    apply wp_checked_add_u32; [intros ?; wp_steps; auto with fee|done].
  - unfold consume_deferred_finalization. wp_steps. cbn [id].
    apply wp_checked_add_u32; [intros ?; wp_steps; auto with fee|done].
  - unfold consume_deferred_storage. wp_steps. unfold im_update.
    apply inv_storage_deferred_set; [done|by apply im_ok_insert, Hi|].
    intros t' s. rewrite im_get_insert. destruct (decide (t' = t)); [|apply Hi].
    intros [= <-]. unfold wrap_u. apply Z.mod_pos_bound. lia.
  - by apply wp_consume_execution.
  - unfold consume_finalization. destruct (u =? 0); [by wp_step|].
    apply wp_consume_finalization_internal; [done|done| |done].
    intros. apply inv_charged_finalization; [done|lia|done..].
  - apply wp_consume_storage; [done|done| |done]. auto with fee.
  - apply wp_consume_royalty; try done. intros. by apply inv_charged_royalty.
  - destruct Hpre. eapply wp_mono; [by apply wp_lock_fee|..]; cbn beta; tauto.
  - eapply wp_mono; [by apply wp_revert_royalty|..]; cbn beta; tauto.
  - eapply wp_mono; [by apply wp_repay_all|..]; cbn beta; tauto.
Qed.

(** The states a transaction can bring its reserve to: calls are made in any
    order and go on after an error, which the caller may swallow. *)
Inductive reachable (r0 : SystemLoanFeeReserve) : SystemLoanFeeReserve -> Prop :=
| reach_init : reachable r0 r0
| reach_step r op res r' :
    reachable r0 r -> op_pre r op -> run_op op r = Done (res, r') -> reachable r0 r'.

Lemma run_op_Inv r op res r' :
  Inv r -> op_pre r op -> run_op op r = Done (res, r') -> Inv r'.
Proof.
  intros Hi Hpre Hrun. pose proof (wp_run_op r op Hi Hpre) as H. unfold wp in H.
  rewrite Hrun in H. by destruct res.
Qed.

Lemma reachable_Inv r0 r : Inv r0 -> reachable r0 r -> Inv r.
Proof. intros Hi. induction 1; [done|]. eauto using run_op_Inv. Qed.

(** Parameters a fee reserve can be created with. *)
Record params_ok (cp : CostingParameters) (tcp : TransactionCostingParameters) : Prop := {
  po_exec_limit : 0 <= execution_cost_unit_limit cp <= U32_MAX;
  po_fin_limit : 0 <= finalization_cost_unit_limit cp <= U32_MAX;
  po_loan : 0 <= execution_cost_unit_loan cp <= U32_MAX;
  po_tip : tip_ok (tip tcp)
}.

Lemma proportion_nonneg t p : tip_ok t -> proportion t = Done p -> 0 <= p.
Proof.
  destruct t as [|x|x]; unfold proportion, expect, tip_ok; intros Ht Hp; [by simplify_eq|..].
  - destruct (checked_i 192 (x * 10 ^ 16)) as [z|] eqn:E; [|discriminate].
    apply checked_i_Some in E as [-> _]. injection Hp as <-. lia.
  - destruct (checked_i 192 (x * 10 ^ 14)) as [z|] eqn:E; [|discriminate].
    apply checked_i_Some in E as [-> _]. injection Hp as <-. lia.
Qed.

Lemma fee_multiplier_Done t m :
  tip_ok t -> fee_multiplier t = Done m ->
  exists p, proportion t = Done p /\ 0 <= p /\ m = ONE + p.
Proof.
  unfold fee_multiplier, mbind, Exec_bind. intros Ht Hm.
  destruct (proportion t) as [p|] eqn:E; [|discriminate].
  pose proof (proportion_nonneg _ _ Ht E). exists p. do 2 (split; [done|]).
  unfold add, expect in Hm. destruct (checked_add ONE p) eqn:Ea; [|discriminate].
  apply checked_add_Some in Ea as [-> _]. by injection Hm as <-.
Qed.

Lemma fee_reserve_new_Inv cp tcp abort r :
  params_ok cp tcp -> fee_reserve_new cp tcp abort = Done r -> Inv r.
Proof.
  intros [Hel Hfl Hlo Ht] H. unfold fee_reserve_new in H. unfold is_negative in H.
  repeat match type of H with (if ?b then _ else _) = _ =>
    let E := fresh "E" in destruct b eqn:E; [done|]; zbool end.
  unfold mbind, Exec_bind in H.
  destruct (fee_multiplier (tip tcp)) as [m|] eqn:Em; [|done].
  apply fee_multiplier_Done in Em as (p & Hpr & Hp & ->); [|done].
  assert (0 < ONE) by done.
  destruct (checked_mul (execution_cost_unit_price cp) (ONE + p)) eqn:Ee; [|done].
  pose proof Ee as (He & _)%checked_mul_nonneg; [|lia|lia].
  destruct (checked_mul (finalization_cost_unit_price cp) (ONE + p)) eqn:Ef; [|done].
  pose proof Ef as (Hf & _)%checked_mul_nonneg; [|lia|lia]. cbn [expect] in H.
  destruct (checked_mul_int _ _) as [o|] eqn:El; [|done].
  apply mul_amount in El as [->|[-> Hb]]; [done| |done|lia]. cbn [expect] in H.
  destruct (checked_add _ _) as [b|] eqn:Ea; [|done].
  apply checked_add_Some in Ea as [-> Hw]. cbn in H. simplify_eq.
  rewrite wf_range in Hw.
  constructor; try (cbn -[Z.mul]; unfold funds, locked_credit, committed_cost, ZERO in *;
    cbn -[Z.mul MAX]; rewrite ?MAX_val; try done; lia).
  - constructor; cbn; try lia. exists p. cbn. auto.
  - cbn. apply NoDup_nil_2.
  - cbn. apply NoDup_nil_2.
  - cbn. intros f Hin. by apply not_elem_of_nil in Hin.
Qed.

End FeeInvariant.


(** ** Theorems *)
Module FeeTheorems.
Import FeeInvariant.

Definition run_ops (r : SystemLoanFeeReserve) (ops : list FeeOp) : Exec SystemLoanFeeReserve :=
  foldl (fun x op => match x with
                     | Done r => match run_op op r with Done (_, r') => Done r' | Panicked => Panicked end
                     | Panicked => Panicked
                     end) (Done r) ops.

(** The parameters of the unit tests of the source. *)
Definition test_params (price usd : Decimal) (limit loan : Z) : CostingParameters := {|
  execution_cost_unit_price := price; execution_cost_unit_limit := limit;
  execution_cost_unit_loan := loan; finalization_cost_unit_price := 0;
  finalization_cost_unit_limit := U32_MAX; usd_price := usd;
  state_storage_price := 0; archive_storage_price := 0 |}.

Definition no_tip : TransactionCostingParameters :=
  {| tip := TipNone; free_credit_in_xrd := 0 |}.

Definition test_reserve (price usd : Decimal) (percentage limit loan : Z) :=
  fee_reserve_new (test_params price usd limit loan)
    {| tip := Percentage percentage; free_credit_in_xrd := 0 |} false.

(** [test_out_of_cost_unit]: 6 units at 1.02 do not fit a loan of 5 units. *)
Example test_out_of_cost_unit :
  (r ← test_reserve ONE ONE 2 100 5; consume_execution 6 r) =
  (r ← test_reserve ONE ONE 2 100 5;
   Done (Err (FeeInsufficientBalance 6120000000000000000 5100000000000000000), r)).
Proof. vm_compute. reflexivity. Qed.

(** [test_bad_debt] *)
Example test_bad_debt :
  (r ← test_reserve (5 * ONE) ONE 1 100 50;
   r ← run_ops r [OpExecution 2];
   match repay_all r with
   | Done (Err e, r') => Done (e, fully_repaid r', execution_cost_units_committed r')
   | _ => Panicked end) =
  Done (LoanRepaymentFailed 10100000000000000000, false, 2).
Proof. vm_compute. reflexivity. Qed.

(** [test_royalty_execution_mix] *)
Example test_royalty_execution_mix :
  (r ← test_reserve (5 * ONE) (2 * ONE) 1 100 50;
   r ← run_ops r [OpExecution 2; OpRoyalty (Xrd (2 * ONE)) (Package 1 2);
                  OpRoyalty (Usd (7 * ONE)) (Package 1 2); OpLockFee 2 (100 * ONE) false;
                  OpRepayAll];
   Done (fully_repaid r, royalty_cost_breakdown r, xrd_balance r)) =
  Done (true, [(Package 1 2, 16 * ONE)], 73900000000000000000).
Proof. vm_compute. reflexivity. Qed.

(** The reserve of a transaction without tip at genesis parameters, and the
    same after locking one RORK and repaying the loan. *)
Definition genesis_reserve : SystemLoanFeeReserve.
Proof.
  let x := eval vm_compute in (fee_reserve_new babylon_genesis no_tip false) in
  match x with Done ?r => exact r end.
Defined.

Definition genesis_paid : SystemLoanFeeReserve.
Proof.
  let x := eval vm_compute in (run_ops genesis_reserve [OpLockFee 7 ONE false; OpRepayAll]) in
  match x with Done ?r => exact r end.
Defined.

Lemma genesis_reserve_new : fee_reserve_new babylon_genesis no_tip false = Done genesis_reserve.
Proof. vm_compute. reflexivity. Qed.

Lemma genesis_params_ok : params_ok babylon_genesis no_tip.
Proof. by constructor. Qed.

Lemma genesis_Inv : Inv genesis_reserve.
Proof. eapply fee_reserve_new_Inv; [apply genesis_params_ok|apply genesis_reserve_new]. Qed.

(** The calls of a concrete run satisfy their preconditions. *)
Fixpoint ops_pre (r : SystemLoanFeeReserve) (ops : list FeeOp) : Prop :=
  match ops with
  | [] => True
  | op :: ops' =>
      op_pre r op /\ match run_op op r with Done (_, r') => ops_pre r' ops' | Panicked => False end
  end.

Lemma run_ops_reachable r0 r ops r' :
  reachable r0 r -> ops_pre r ops -> run_ops r ops = Done r' -> reachable r0 r'.
Proof.
  revert r. induction ops as [|op ops IH]; intros r Hr Hpre Hrun.
  - unfold run_ops in Hrun. cbn in Hrun. by simplify_eq.
  - unfold run_ops in Hrun. cbn [foldl] in Hrun. destruct Hpre as [Hop Hpre].
    destruct (run_op op r) as [[res r1]|] eqn:E; [|done].
    apply (IH r1); [by eapply reach_step|done|exact Hrun].
Qed.

Ltac ops_pre := vm_compute; repeat split; try discriminate.

Lemma genesis_paid_reachable : reachable genesis_reserve genesis_paid.
Proof.
  apply (run_ops_reachable _ genesis_reserve [OpLockFee 7 ONE false; OpRepayAll]);
    [constructor|ops_pre|vm_compute; reflexivity].
Qed.

(** C23. Conservation: whatever sequence of calls a transaction makes on its fee
    reserve, failing calls included, the balance stays non-negative, balance
    plus everything charged equals loan outstanding plus free credit plus the
    unconditionally locked fees, the cost unit limits are respected, the
    royalty breakdown adds up to the royalty total, and the next call does not
    panic. *)
Theorem fee_reserve_conserves cp tcp abort r0 r op :
  params_ok cp tcp -> fee_reserve_new cp tcp abort = Done r0 ->
  reachable r0 r -> op_pre r op ->
  (0 <= xrd_balance r /\ 0 <= xrd_owed r /\
   xrd_balance r + committed_cost r =
     xrd_owed r + free_credit_in_xrd (transaction_costing_parameters r) + locked_credit r) /\
  0 <= execution_cost_units_committed r <=
    Z.max 0 (execution_cost_unit_limit (costing_parameters r)) /\
  0 <= finalization_cost_units_committed r <=
    Z.max 0 (finalization_cost_unit_limit (costing_parameters r)) /\
  im_sum snd (royalty_cost_breakdown r) = royalty_cost_committed r /\
  exists res r', run_op op r = Done (res, r').
Proof.
  intros Hp Hnew Hr Hop. apply fee_reserve_new_Inv in Hnew; [|done].
  pose proof (reachable_Inv _ _ Hnew Hr) as Hi. pose proof (wp_run_op r op Hi Hop) as Hrun.
  destruct Hi. do 4 (split; [done|]). unfold wp in Hrun.
  destruct (run_op op r) as [[res r']|]; [eauto|done].
Qed.

Lemma fee_reserve_conserves_witness :
  xrd_balance genesis_paid + committed_cost genesis_paid = 0 + 0 + ONE /\
  exists res r', run_op (OpExecution 5) genesis_paid = Done (res, r').
Proof.
  destruct (fee_reserve_conserves babylon_genesis no_tip false genesis_reserve genesis_paid
    (OpExecution 5) genesis_params_ok genesis_reserve_new genesis_paid_reachable)
    as ((_ & _ & H) & _ & _ & _ & H'); [cbn; lia|]. split; [exact H|exact H'].
Defined.

(** Loan repayment: on a reserve satisfying its invariant, [repay_all]
    succeeds only if everything deferred was charged in full and the loan is
    then repaid in full, the outcome being exactly [repaid]; it fails with
    [LoanRepaymentFailed] only with an empty balance and the reported positive
    debt left; and with [Abort] only in the configuration that asks for it,
    after the repayment. *)
Theorem repay_all_correct r :
  Inv r ->
  match repay_all r with
  | Done (Ok _, r') =>
      xrd_owed r' = 0 /\ execution_cost_units_deferred r' = 0 /\
      finalization_cost_units_deferred r' = 0 /\ storage_cost_deferred r' = [] /\
      execution_cost_units_committed r' =
        execution_cost_units_committed r + execution_cost_units_deferred r /\
      finalization_cost_units_committed r' =
        finalization_cost_units_committed r + finalization_cost_units_deferred r /\
      storage_cost_committed r' = storage_cost_committed r + storage_due r /\
      xrd_balance r' = xrd_balance r
        - effective_execution_cost_unit_price r * execution_cost_units_deferred r
        - effective_finalization_cost_unit_price r * finalization_cost_units_deferred r
        - storage_due r - xrd_owed r /\
      0 <= xrd_balance r' /\ abort_when_loan_repaid r = false
  | Done (Err (LoanRepaymentFailed o), r') =>
      xrd_owed r' = o /\ 0 < o /\ xrd_balance r' = 0
  | Done (Err Abort, r') => abort_when_loan_repaid r = true /\ xrd_owed r' = 0
  | Done (Err _, r') => xrd_owed r' = xrd_owed r
  | Panicked => False
  end.
Proof.
  intros Hi. pose proof (wp_repay_all r Hi) as H. unfold wp in H.
  destruct (repay_all r) as [[[u|e] r']|]; [| |done].
  - destruct H as (-> & Hi' & _ & Ha). pose proof (inv_balance _ Hi').
    do 7 (split; [reflexivity|]). split; [reflexivity|]. done.
  - destruct H as [_ H]. destruct e; try done. destruct H as [Ha ->]. done.
Qed.

Lemma repay_all_correct_witness :
  exists r', repay_all genesis_reserve = Done (Ok tt, r') /\ xrd_owed r' = 0 /\
    storage_cost_deferred r' = [].
Proof.
  pose proof (repay_all_correct genesis_reserve genesis_Inv) as H.
  eexists. split; [vm_compute; reflexivity|].
  revert H. vm_compute. intros (H & _ & _ & H' & _). split; [exact H|exact H'].
Defined.

(** The loan is enforced while the transaction runs: a successful
    execution charge leaves either a fully repaid loan or fewer committed
    units than the loan granted, so no transaction runs past its loan on
    credit. *)
Theorem loan_enforced r u r' :
  Inv r -> 0 < u <= U32_MAX -> consume_execution u r = Done (Ok tt, r') ->
  execution_cost_units_committed r + u <= execution_cost_unit_limit (costing_parameters r) /\
  (fully_repaid r' = true \/
   execution_cost_units_committed r' < execution_cost_unit_loan (costing_parameters r')).
Proof.
  intros Hi Hu. enough (wp (consume_execution u) r (fun _ r' =>
    execution_cost_units_committed r + u <= execution_cost_unit_limit (costing_parameters r) /\
    (fully_repaid r' = true \/
     execution_cost_units_committed r' < execution_cost_unit_loan (costing_parameters r')))
    (fun _ _ => True)) as H by exact (wp_ok _ _ _ _ _ _ H).
  unfold consume_execution. destruct (u =? 0) eqn:E0; zbool; [lia|]. wp_steps.
  apply wp_consume_execution_internal; [done|lia| |done]. intros Hl Hle. wp_steps. cbn [id].
  assert (Inv (charged_execution r u)) as Hi' by (apply inv_charged_execution; [done|lia|done..]).
  destruct (_ && _) eqn:E.
  - eapply wp_mono; [by apply wp_repay_all| |done]. cbn beta.
    intros _ r1 (-> & _). split; [done|]. left. reflexivity.
  - wp_steps. split; [done|]. apply andb_false_iff in E as [E|E]; zbool; [by left|by right].
Qed.

Lemma loan_enforced_witness :
  exists r', consume_execution 100 genesis_reserve = Done (Ok tt, r') /\
    (fully_repaid r' = true \/
     execution_cost_units_committed r' < execution_cost_unit_loan (costing_parameters r')).
Proof.
  eexists. split; [vm_compute; reflexivity|].
  refine (proj2 (loan_enforced genesis_reserve 100 _ genesis_Inv _ _));
    [lia|vm_compute; reflexivity].
Defined.

End FeeTheorems.
