(* ===== verification/FeeFinalization.v ===== *)
(** * Fee finalization

    What happens to the fee reserve when a transaction ends: the summary of
    [SystemLoanFeeReserve::finalize] and its distribution amounts
    (fee_summary.rs), the verdict on the transaction
    ([System::determine_result_type]) and the settlement of the fees of a
    committed transaction ([System::finalize_fees_for_commit] of
    system_callback.rs): royalties, fee payments, refunds, validator rewards
    and burning.  The settlement runs against the part of the track it reads
    and writes: fungible vault balances and the consensus manager's reward
    fields. *)

From S2P Require Import Prelude Decimals IndexMap Resource FeeReserve.
Import Int Dec DecSpec LiquidFungible FeeInvariant.

(** ** The finalization summary *)

Record FeeReserveFinalizationSummary : Type := {
  total_execution_cost_units_consumed : Z;
  total_finalization_cost_units_consumed : Z;
  total_execution_cost_in_xrd : Decimal;
  total_finalization_cost_in_xrd : Decimal;
  total_tipping_cost_in_xrd : Decimal;
  total_storage_cost_in_xrd : Decimal;
  total_royalty_cost_in_xrd : Decimal;
  total_bad_debt_in_xrd : Decimal;
  fs_locked_fees : list (NodeId * Decimal * bool);
  fs_royalty_cost_breakdown : IndexMap RoyaltyRecipient Decimal
}.

(** [price.checked_mul(units).unwrap()] *)
Definition mul_int (d : Decimal) (v : Z) : Exec Decimal := o ← checked_mul_int d v; expect o.

Definition finalize (r : SystemLoanFeeReserve) :
    Exec (FeeReserveFinalizationSummary * CostingParameters * TransactionCostingParameters) :=
  execution ← mul_int (execution_cost_unit_price (costing_parameters r))
                (execution_cost_units_committed r);
  finalization ← mul_int (finalization_cost_unit_price (costing_parameters r))
                   (finalization_cost_units_committed r);
  tip_proportion ← proportion (tip (transaction_costing_parameters r));
  t1 ← mul execution tip_proportion;
  t2 ← mul finalization tip_proportion;
  tipping ← add t1 t2;
  Done ({| total_execution_cost_units_consumed := execution_cost_units_committed r;
           total_finalization_cost_units_consumed := finalization_cost_units_committed r;
           total_execution_cost_in_xrd := execution;
           total_finalization_cost_in_xrd := finalization;
           total_tipping_cost_in_xrd := tipping;
           total_storage_cost_in_xrd := storage_cost_committed r;
           total_royalty_cost_in_xrd := royalty_cost_committed r;
           total_bad_debt_in_xrd := xrd_owed r;
           fs_locked_fees := locked_fees r;
           fs_royalty_cost_breakdown := royalty_cost_breakdown r |},
        costing_parameters r, transaction_costing_parameters r).

Definition TIPS_PROPOSER_SHARE_PERCENTAGE : Z := 100.
Definition TIPS_VALIDATOR_SET_SHARE_PERCENTAGE : Z := 0.
Definition NETWORK_FEES_PROPOSER_SHARE_PERCENTAGE : Z := 25.
Definition NETWORK_FEES_VALIDATOR_SET_SHARE_PERCENTAGE : Z := 25.

Section Summary.
Context (s : FeeReserveFinalizationSummary).

Definition loan_fully_repaid : bool := total_bad_debt_in_xrd s =? 0.

Definition total_cost : Exec Decimal :=
  a ← add (total_execution_cost_in_xrd s) (total_finalization_cost_in_xrd s);
  b ← add a (total_tipping_cost_in_xrd s);
  c ← add b (total_storage_cost_in_xrd s);
  add c (total_royalty_cost_in_xrd s).

Definition network_fees : Exec Decimal :=
  a ← add (total_execution_cost_in_xrd s) (total_finalization_cost_in_xrd s);
  add a (total_storage_cost_in_xrd s).

(** [tips * 0.01 * tips_share + network_fees * 0.01 * fees_share] *)
Definition share_of (tips_share fees_share : Z) : Exec Decimal :=
  p ← mul_int ONE_HUNDREDTH tips_share;
  a ← mul (total_tipping_cost_in_xrd s) p;
  fees ← network_fees;
  q ← mul_int ONE_HUNDREDTH fees_share;
  b ← mul fees q;
  add a b.

Definition to_proposer_amount : Exec Decimal :=
  share_of TIPS_PROPOSER_SHARE_PERCENTAGE NETWORK_FEES_PROPOSER_SHARE_PERCENTAGE.

Definition to_validator_set_amount : Exec Decimal :=
  share_of TIPS_VALIDATOR_SET_SHARE_PERCENTAGE NETWORK_FEES_VALIDATOR_SET_SHARE_PERCENTAGE.

Definition to_burn_amount : Exec Decimal :=
  fees ← network_fees;
  a ← add (total_tipping_cost_in_xrd s) fees;
  p ← to_proposer_amount;
  b ← sub a p;
  v ← to_validator_set_amount;
  sub b v.
End Summary.

(** ** The verdict *)

Section Verdict.
(** The outputs of a run, the errors of the layers below and what the code
    reads of them. *)
Context {Output BootloadingErr RuntimeErr AbortReason : Type}.
Context (runtime_abortion : RuntimeErr -> option AbortReason).
(** The one reason of an abort issued by the fee reserve,
    [AbortReason::ConfiguredAbortTriggeredOnFeeLoanRepayment]. *)
Context (configured_abort : AbortReason).

Inductive TransactionExecutionError : Type :=
| BootloadingError (e : BootloadingErr)
| RuntimeError (e : RuntimeErr).

Inductive RejectionReason : Type :=
| SuccessButFeeLoanNotRepaid
| RejectBootloadingError (e : BootloadingErr)
| ErrorBeforeLoanAndDeferredCostsRepaid (e : RuntimeErr).

Inductive TransactionResultType : Type :=
| Commit (outcome : Result RuntimeErr Output)
| Reject (reason : RejectionReason)
| AbortTransaction (reason : AbortReason).

(** [FeeReserveError::abortion] *)
Definition fee_abortion (e : FeeReserveError) : option AbortReason :=
  match e with Abort => Some configured_abort | _ => None end.

Definition determine_result_type
    (interpretation_result : Result TransactionExecutionError Output)
    (fee_reserve : SystemLoanFeeReserve) : Exec (TransactionResultType * SystemLoanFeeReserve) :=
  match repay_all fee_reserve with
  | Panicked => Panicked
  | Done (final_repay_result, fee_reserve) =>
      Done (match interpretation_result with
            | Ok output =>
                match final_repay_result with
                | Ok _ => Commit (Ok output)
                | Err e =>
                    match fee_abortion e with
                    | Some abort_reason => AbortTransaction abort_reason
                    | None => Reject SuccessButFeeLoanNotRepaid
                    end
                end
            | Err (BootloadingError e) => Reject (RejectBootloadingError e)
            | Err (RuntimeError e) =>
                match runtime_abortion e with
                | Some abort_reason => AbortTransaction abort_reason
                | None =>
                    if fully_repaid fee_reserve then Commit (Err e)
                    else Reject (ErrorBeforeLoanAndDeferredCostsRepaid e)
                end
            end, fee_reserve)
  end.

End Verdict.

Arguments TransactionExecutionError : clear implicits.
Arguments TransactionResultType : clear implicits.

(** ** Settlement *)

Inductive FeeEvent : Type :=
| DepositEvent (vault : NodeId) (amount : Decimal)
| PayFeeEvent (vault : NodeId) (amount : Decimal)
| BurnFungibleResourceEvent (amount : Decimal).

(** The substates the settlement touches. *)
Record FeeTrack : Type := {
  ft_vaults : gmap NodeId Decimal;
  current_leader : option Z;
  proposer_rewards : IndexMap Z Decimal;
  rewards_vault : NodeId
}.

Definition set_vault (t : FeeTrack) (v : NodeId) (balance : Decimal) : FeeTrack := {|
  ft_vaults := <[v := balance]> (ft_vaults t);
  current_leader := current_leader t;
  proposer_rewards := proposer_rewards t;
  rewards_vault := rewards_vault t |}.

Definition set_rewards (t : FeeTrack) (rewards : IndexMap Z Decimal) : FeeTrack := {|
  ft_vaults := ft_vaults t;
  current_leader := current_leader t;
  proposer_rewards := rewards;
  rewards_vault := rewards_vault t |}.

(** Read the balance of a vault, put [amount] in, write it back. *)
Definition put_in_vault (t : FeeTrack) (v : NodeId) (amount : Decimal) : Exec FeeTrack :=
  vault_balance ← expect (ft_vaults t !! v);
  b ← liquid_put vault_balance amount;
  Done (set_vault t v b).

Fixpoint distribute_royalty (l : list (RoyaltyRecipient * Decimal)) (t : FeeTrack)
    (events : list FeeEvent) : Exec (FeeTrack * list FeeEvent) :=
  match l with
  | [] => Done (t, events)
  | (recipient, amount) :: l' =>
      t' ← put_in_vault t (vault_id recipient) amount;
      distribute_royalty l' t' (events ++ [DepositEvent (vault_id recipient) amount])
  end.

(** The loop state of fee collection. *)
Record Collection : Type := {
  c_track : FeeTrack;
  required : Decimal;
  collected_fees : Decimal;
  fee_payments : IndexMap NodeId Decimal;
  c_events : list FeeEvent
}.

Definition take_fee (is_success : bool) (f : NodeId * Decimal * bool) (c : Collection) :
    Exec Collection :=
  let '(vault, locked, contingent) := f in
  let amount :=
    if contingent then
      if is_success then Z.min locked (required c) else ZERO
    else Z.min locked (required c) in
  match liquid_take_by_amount (Id := Empty_set) locked amount with
  | Err _ => Panicked
  | Ok (rest, taken) =>
      collected ← liquid_put (collected_fees c) taken;
      req ← sub (required c) amount;
      t ← put_in_vault (c_track c) vault rest;
      e ← add (default ZERO (im_get vault (fee_payments c))) amount;
      Done {| c_track := t; required := req; collected_fees := collected;
              fee_payments := im_insert vault e (fee_payments c);
              c_events := c_events c ++ [PayFeeEvent vault amount] |}
  end.

Fixpoint take_fees (is_success : bool) (l : list (NodeId * Decimal * bool)) (c : Collection) :
    Exec Collection :=
  match l with
  | [] => Done c
  | f :: l' => c' ← take_fee is_success f c; take_fees is_success l' c'
  end.

(** "Free credit is locked first and thus used last." *)
Definition take_free_credit (free_credit : Decimal) (req collected : Decimal) :
    Exec (Decimal * Decimal) :=
  if is_positive free_credit then
    let amount := Z.min free_credit req in
    collected' ← liquid_put collected amount;
    req' ← sub req amount;
    Done (req', collected')
  else Done (req, collected).

(** Reward the leader and put the rewards into the vault of the validators. *)
Definition pay_rewards (to_proposer to_validator_set collected : Decimal) (t : FeeTrack)
    (events : list FeeEvent) : Exec (FeeTrack * list FeeEvent) :=
  if negb (is_zero to_proposer) || negb (is_zero to_validator_set) then
    rewards ←
      match current_leader t with
      | Some leader =>
          e ← add (default ZERO (im_get leader (proposer_rewards t))) to_proposer;
          Done (im_insert leader e (proposer_rewards t))
      | None => Done (proposer_rewards t)
      end;
    total_amount ← add to_proposer to_validator_set;
    match liquid_take_by_amount (Id := Empty_set) collected total_amount with
    | Err _ => Panicked
    | Ok (_, taken) =>
        t' ← put_in_vault (set_rewards t rewards) (rewards_vault t) taken;
        Done (t', events ++ [DepositEvent (rewards_vault t) total_amount])
    end
  else Done (t, events).

Definition check (b : bool) : Exec unit := if b then Done tt else Panicked.

Definition finalize_fees_for_commit (track : FeeTrack) (fee_reserve : SystemLoanFeeReserve)
    (is_success : bool) :
    Exec (FeeReserveFinalizationSummary * IndexMap NodeId Decimal * list FeeEvent * FeeTrack) :=
  te ← distribute_royalty (royalty_cost_breakdown fee_reserve) track [];
  fin ← finalize fee_reserve;
  let '(summary, _, tcp) := fin in
  req ← total_cost summary;
  c ← take_fees is_success (rev (fs_locked_fees summary))
        {| c_track := te.1; required := req; collected_fees := ZERO;
           fee_payments := []; c_events := te.2 |};
  rc ← take_free_credit (free_credit_in_xrd tcp) (required c) (collected_fees c);
  to_proposer ← to_proposer_amount summary;
  to_validator_set ← to_validator_set_amount summary;
  to_burn ← to_burn_amount summary;
  check (total_bad_debt_in_xrd summary =? ZERO);;
  check (rc.1 =? ZERO);;
  remaining_collected_fees ← sub rc.2 (total_royalty_cost_in_xrd summary);
  d1 ← add to_proposer to_validator_set;
  to_distribute ← add d1 to_burn;
  check (remaining_collected_fees =? to_distribute);;
  te' ← pay_rewards to_proposer to_validator_set rc.2 (c_track c) (c_events c);
  Done (summary, fee_payments c,
        (if is_positive to_burn then te'.2 ++ [BurnFungibleResourceEvent to_burn] else te'.2),
        te'.1).

(** The end of a committed transaction: a failed one pays no royalties, and its
    [track] is the one left after its other changes were reverted. *)
Definition commit_fees (track : FeeTrack) (fee_reserve : SystemLoanFeeReserve)
    (is_success : bool) :
    Exec (FeeReserveFinalizationSummary * IndexMap NodeId Decimal * list FeeEvent * FeeTrack) :=
  if is_success then finalize_fees_for_commit track fee_reserve is_success else
  match revert_royalty fee_reserve with
  | Done (Ok _, r) => finalize_fees_for_commit track r is_success
  | _ => Panicked
  end.

(** ** Lemmas *)
Module FeeSettlement.

Lemma ewp_add a b (Q : Decimal -> Prop) :
  0 <= a -> 0 <= b -> a + b <= MAX -> Q (a + b) -> ewp (add a b) Q.
Proof. intros. eapply ewp_Done; [by apply add_Done|done]. Qed.

Lemma ewp_sub a b (Q : Decimal -> Prop) :
  0 <= b <= a -> a <= MAX -> Q (a - b) -> ewp (sub a b) Q.
Proof. intros. eapply ewp_Done; [by apply sub_Done|done]. Qed.

Lemma ewp_put a b (Q : Decimal -> Prop) :
  0 <= a -> 0 <= b -> a + b <= MAX -> Q (a + b) -> ewp (liquid_put a b) Q.
Proof. intros. eapply ewp_Done; [apply liquid_put_Done, wf_between; lia|done]. Qed.

Lemma ewp_mul_int d v (Q : Decimal -> Prop) :
  0 <= v < 2 ^ 64 -> 0 <= d * v <= MAX -> Q (d * v) -> ewp (mul_int d v) Q.
Proof.
  intros Hv Hb HQ. unfold mul_int. rewrite checked_mul_int_spec by lia.
  rewrite (proj2 (Z.leb_le _ _)) by lia. done.
Qed.

(** A product that is a whole number of attos is exact. *)
Lemma ewp_mul_exact a b c (Q : Decimal -> Prop) :
  a * b = c * ONE -> 0 <= c <= MAX -> Q c -> ewp (mul a b) Q.
Proof.
  intros He Hc HQ. unfold mul. rewrite checked_mul_spec. cbv zeta. rewrite He.
  rewrite Z.quot_mul by done. rewrite (proj2 (Z.leb_le _ _)) by lia. done.
Qed.

(** The cached price multiplication loses nothing: unit price times tip is a
    whole number of attos. *)
Definition tip_exact (r : SystemLoanFeeReserve) : Prop :=
  forall p, proportion (tip (transaction_costing_parameters r)) = Done p ->
    (ONE | execution_cost_unit_price (costing_parameters r) * p) /\
    (ONE | finalization_cost_unit_price (costing_parameters r) * p).

(** At genesis prices every tip is exact. *)
Lemma genesis_tip_exact r :
  execution_cost_unit_price (costing_parameters r) =
    execution_cost_unit_price babylon_genesis ->
  finalization_cost_unit_price (costing_parameters r) =
    finalization_cost_unit_price babylon_genesis ->
  tip_exact r.
Proof.
  intros He Hf p. rewrite He, Hf. unfold proportion, expect.
  assert (forall k e, e = 14 \/ e = 16 -> (ONE | 50000000000 * (k * 10 ^ e))) as Hd.
  { intros k e [-> | ->]; rewrite ONE_val; [exists (k * 5000000)|exists (k * 500000000)]; lia. }
  destruct (tip _) as [|k|k].
  - intros [= <-]. split; by exists 0.
  - destruct (checked_i 192 (k * 10 ^ 16)) eqn:E; [|discriminate].
    apply checked_i_Some in E as [-> _]. intros [= <-]. split; apply Hd; auto.
  - destruct (checked_i 192 (k * 10 ^ 14)) eqn:E; [|discriminate].
    apply checked_i_Some in E as [-> _]. intros [= <-]. split; apply Hd; auto.
Qed.

Lemma effective_exact price p eff t :
  0 <= price -> 0 <= p -> checked_mul price (ONE + p) = Some eff -> price * p = t * ONE ->
  eff = price + t.
Proof.
  intros Hp Hp' Hm Ht. assert (0 < ONE) by done.
  apply checked_mul_nonneg in Hm as (_ & Hb & _); [|lia|lia]. rewrite ONE_val in *. lia.
Qed.

Lemma committed_parts r :
  Inv r ->
  0 <= effective_execution_cost_unit_price r * execution_cost_units_committed r /\
  0 <= effective_finalization_cost_unit_price r * finalization_cost_units_committed r /\
  0 <= royalty_cost_committed r /\ 0 <= storage_cost_committed r /\
  committed_cost r <= funds r /\ funds r <= MAX.
Proof.
  intros Hi. pose proof (royalty_nonneg r Hi). pose proof (committed_nonneg r Hi) as [? ?].
  destruct Hi as [_ ? _ ? ? _ _ _ _ ?]. repeat split; try done. lia.
Qed.

(** What [finalize] reports of a reserve. *)
Definition summary_of (r : SystemLoanFeeReserve) (s : FeeReserveFinalizationSummary) : Prop :=
  total_execution_cost_in_xrd s =
    execution_cost_unit_price (costing_parameters r) * execution_cost_units_committed r /\
  total_finalization_cost_in_xrd s =
    finalization_cost_unit_price (costing_parameters r) * finalization_cost_units_committed r /\
  total_storage_cost_in_xrd s = storage_cost_committed r /\
  total_royalty_cost_in_xrd s = royalty_cost_committed r /\
  total_bad_debt_in_xrd s = xrd_owed r /\
  fs_locked_fees s = locked_fees r /\
  total_execution_cost_in_xrd s + total_finalization_cost_in_xrd s +
    total_tipping_cost_in_xrd s + total_storage_cost_in_xrd s + total_royalty_cost_in_xrd s =
    committed_cost r /\
  0 <= total_execution_cost_in_xrd s /\ 0 <= total_finalization_cost_in_xrd s /\
  0 <= total_tipping_cost_in_xrd s /\ 0 <= total_storage_cost_in_xrd s /\
  0 <= total_royalty_cost_in_xrd s.

Lemma ewp_finalize r :
  Inv r -> tip_exact r ->
  ewp (finalize r) (fun x => x.2 = transaction_costing_parameters r /\ summary_of r x.1.1).
Proof.
  intros Hi Ht. pose proof (committed_parts r Hi) as (He & Hf & Hro & Hst & Hc & Hm).
  destruct (inv_prices _ Hi) as [(p & Hp & Hp0 & Hme & Hmf) Hbe Hbf _ _ _ _ _ _ Hle Hlf].
  destruct (Ht p Hp) as [[te Hte] [tf Htf]].
  pose proof (effective_exact _ _ _ _ Hbe Hp0 Hme Hte) as Ee.
  pose proof (effective_exact _ _ _ _ Hbf Hp0 Hmf Htf) as Ef.
  pose proof (inv_exec _ Hi). pose proof (inv_fin _ Hi).
  set (u := execution_cost_units_committed r) in *.
  set (w := finalization_cost_units_committed r) in *.
  set (pe := execution_cost_unit_price (costing_parameters r)) in *.
  set (pf := finalization_cost_unit_price (costing_parameters r)) in *.
  unfold committed_cost in Hc. rewrite Ee, Ef in *. rewrite !Z.mul_add_distr_r in *.
  assert (0 < ONE) by done. assert (0 <= te) by nia. assert (0 <= tf) by nia.
  fold u w in Hc. rewrite ?Z.mul_add_distr_r in Hc.
  assert (0 <= pe * u) by nia. assert (0 <= pf * w) by nia.
  assert (0 <= te * u) by nia. assert (0 <= tf * w) by nia.
  unfold finalize. fold u w pe pf.
  apply ewp_bind, ewp_mul_int; [lia|lia|]. apply ewp_bind, ewp_mul_int; [lia|lia|].
  rewrite Hp. apply ewp_bind. cbn [ewp].
  apply ewp_bind, (ewp_mul_exact _ _ (te * u)); [nia|lia|].
  apply ewp_bind, (ewp_mul_exact _ _ (tf * w)); [nia|lia|].
  apply ewp_bind, ewp_add; [lia|lia|lia|]. cbn [ewp snd fst].
  split; [done|]. unfold summary_of, committed_cost. cbn -[Z.mul].
  fold u w pe pf. rewrite Ee, Ef. repeat split; try done; try lia.
Qed.

Lemma ewp_total_cost r s :
  Inv r -> summary_of r s -> ewp (total_cost s) (fun c => c = committed_cost r).
Proof.
  intros Hi (_ & _ & _ & _ & _ & _ & Hs & ? & ? & ? & ? & ?).
  pose proof (committed_parts r Hi) as (_ & _ & _ & _ & Hc & Hm).
  unfold total_cost. repeat (apply ewp_bind, ewp_add; [lia..|]). apply ewp_add; lia.
Qed.

(** *** Distribution amounts *)

Definition fees_of (s : FeeReserveFinalizationSummary) : Z :=
  total_execution_cost_in_xrd s + total_finalization_cost_in_xrd s + total_storage_cost_in_xrd s.

Lemma ewp_mul_trunc a b (Q : Decimal -> Prop) :
  0 <= a <= MAX -> 0 <= b <= ONE -> Q (a * b / ONE) -> ewp (mul a b) Q.
Proof.
  intros Ha Hb HQ. assert (0 < ONE) by done. unfold mul. rewrite checked_mul_spec. cbv zeta.
  rewrite Z.quot_div_nonneg by nia.
  assert (0 <= a * b / ONE <= a).
  { split; [apply Z.div_pos; nia|]. apply Z.div_le_upper_bound; nia. }
  rewrite (proj2 (Z.leb_le _ _)) by lia. done.
Qed.

Lemma ewp_network_fees s (Q : Decimal -> Prop) :
  0 <= total_execution_cost_in_xrd s -> 0 <= total_finalization_cost_in_xrd s ->
  0 <= total_storage_cost_in_xrd s -> fees_of s <= MAX -> Q (fees_of s) ->
  ewp (network_fees s) Q.
Proof.
  unfold fees_of. intros. unfold network_fees.
  apply ewp_bind, ewp_add; [lia..|]. by apply ewp_add; [lia..|].
Qed.

Lemma ewp_share_of s x y (Q : Decimal -> Prop) :
  0 <= total_execution_cost_in_xrd s -> 0 <= total_finalization_cost_in_xrd s ->
  0 <= total_storage_cost_in_xrd s -> 0 <= total_tipping_cost_in_xrd s ->
  total_tipping_cost_in_xrd s + fees_of s <= MAX -> 0 <= x <= 100 -> 0 <= y <= 100 ->
  Q (total_tipping_cost_in_xrd s * x / 100 + fees_of s * y / 100) -> ewp (share_of s x y) Q.
Proof.
  intros He Hf Hs Ht Hb Hx Hy HQ. assert (0 <= fees_of s) by (unfold fees_of; lia).
  assert (Hle : forall a k, 0 <= a -> 0 <= k <= 100 -> 0 <= a * k / 100 <= a).
  { intros a k Ha Hk. split; [apply Z.div_pos; nia|]. apply Z.div_le_upper_bound; nia. }
  pose proof (Hle _ _ Ht Hx). pose proof (Hle (fees_of s) y ltac:(done) Hy).
  assert (Hd : forall a k, a * (ONE_HUNDREDTH * k) / ONE = a * k / 100).
  { intros a k. replace (a * (ONE_HUNDREDTH * k)) with (a * k * ONE_HUNDREDTH) by ring.
    replace ONE with (100 * ONE_HUNDREDTH) by done. by rewrite Z.div_mul_cancel_r. }
  assert (ONE_HUNDREDTH = 10000000000000000) as HH by done.
  unfold share_of. rewrite MAX_val in *.
  apply ewp_bind, ewp_mul_int; [lia|rewrite MAX_val, HH; lia|].
  apply ewp_bind, ewp_mul_trunc; [rewrite MAX_val; lia|rewrite HH, ONE_val; lia|].
  apply ewp_bind, ewp_network_fees; [assumption..|rewrite MAX_val; lia|].
  apply ewp_bind, ewp_mul_int; [lia|rewrite MAX_val, HH; lia|].
  apply ewp_bind, ewp_mul_trunc; [rewrite MAX_val; lia|rewrite HH, ONE_val; lia|].
  rewrite !Hd. apply ewp_add; [lia..|rewrite MAX_val; lia|done].
Qed.

(** *** Vault balances *)

(** Total RORK in the vaults. *)
Definition vault_total (t : FeeTrack) : Z := msum id (ft_vaults t).

Definition vaults_ok (t : FeeTrack) : Prop :=
  forall v b, ft_vaults t !! v = Some b -> 0 <= b.

(** Only balances changed. *)
Definition same_vaults (t t' : FeeTrack) : Prop :=
  (forall v, is_Some (ft_vaults t' !! v) <-> is_Some (ft_vaults t !! v)) /\
  current_leader t' = current_leader t /\ rewards_vault t' = rewards_vault t.

Lemma same_vaults_refl t : same_vaults t t.
Proof. done. Qed.

Lemma same_vaults_trans t1 t2 t3 : same_vaults t1 t2 -> same_vaults t2 t3 -> same_vaults t1 t3.
Proof.
  intros (H1 & ? & ?) (H2 & ? & ?). split; [|split; congruence].
  intros v. by rewrite H2, H1.
Qed.

Lemma vault_total_nonneg t : vaults_ok t -> 0 <= vault_total t.
Proof. intros Hok. apply msum_nonneg. exact Hok. Qed.

Lemma ewp_put_in_vault t v a (Q : FeeTrack -> Prop) :
  vaults_ok t -> is_Some (ft_vaults t !! v) -> 0 <= a -> vault_total t + a <= MAX ->
  (forall t', vaults_ok t' -> same_vaults t t' -> vault_total t' = vault_total t + a ->
     proposer_rewards t' = proposer_rewards t -> Q t') ->
  ewp (put_in_vault t v a) Q.
Proof.
  intros Hok [b Hb] Ha Hm HQ. pose proof (msum_lookup_le id _ _ _ Hok Hb) as Hle.
  pose proof (Hok _ _ Hb). unfold vault_total in *. cbn in Hle. unfold put_in_vault.
  rewrite Hb. apply ewp_bind. cbn [ewp expect]. apply ewp_bind, ewp_put; [lia..|]. cbn [ewp].
  apply HQ.
  - intros v' b'. cbn. destruct (decide (v = v')) as [->|].
    + rewrite lookup_insert_eq. intros [= <-]. lia.
    + rewrite lookup_insert_ne by done. apply Hok.
  - split; [|done]. intros v'. cbn. destruct (decide (v = v')) as [->|].
    + rewrite lookup_insert_eq, Hb. by split.
    + by rewrite lookup_insert_ne.
  - cbn. rewrite (msum_insert id _ _ _ _ Hb). cbn. lia.
  - done.
Qed.

(** *** Royalties *)
Lemma ewp_distribute_royalty l t events :
  vaults_ok t -> (forall p a, (p, a) ∈ l -> 0 <= a /\ is_Some (ft_vaults t !! vault_id p)) ->
  vault_total t + im_sum snd l <= MAX ->
  ewp (distribute_royalty l t events) (fun te =>
    vaults_ok te.1 /\ same_vaults t te.1 /\ proposer_rewards te.1 = proposer_rewards t /\
    vault_total te.1 = vault_total t + im_sum snd l /\
    te.2 = events ++ ((fun e => DepositEvent (vault_id e.1) e.2) <$> l)).
Proof.
  revert t events. induction l as [|[p a] l IH]; intros t events Hok Hl Hm; cbn [distribute_royalty].
  - cbn. rewrite app_nil_r. repeat split; try done. unfold im_sum. cbn. lia.
  - destruct (Hl p a) as [Ha Hv]; [left|]. unfold im_sum in Hm |- *. cbn [foldr snd] in Hm |- *.
    fold (im_sum (K := RoyaltyRecipient) snd l) in Hm |- *.
    assert (0 <= im_sum snd l).
    { apply im_sum_nonneg. intros [q b] Hin. apply (Hl q b). by right. }
    apply ewp_bind, ewp_put_in_vault; [done|done|done|lia|].
    intros t' Hok' Hsame Htot Hrew. eapply ewp_mono.
    + apply IH; [done| |lia]. intros q b Hin. destruct (Hl q b) as [Hb Hq]; [by right|].
      split; [done|]. by apply Hsame.
    + intros te (Hok2 & Hs2 & Hr2 & Ht2 & He2). split; [done|].
      split; [by eapply same_vaults_trans|]. split; [congruence|]. split; [lia|].
      rewrite He2. cbn. by rewrite <- app_assoc.
Qed.

(** *** Collection *)

(** What a locked fee can contribute. *)
Definition usable (is_success : bool) (f : NodeId * Decimal * bool) : Z :=
  if f.2 && negb is_success then 0 else f.1.2.

Definition lsum {A} (g : A -> Z) (l : list A) : Z := foldr (fun x acc => g x + acc) 0 l.

Lemma lsum_app {A} (g : A -> Z) l l' : lsum g (l ++ l') = lsum g l + lsum g l'.
Proof. unfold lsum. induction l; cbn; lia. Qed.

Lemma lsum_rev {A} (g : A -> Z) l : lsum g (rev l) = lsum g l.
Proof. induction l as [|x l IH]; [done|]. cbn [rev]. rewrite lsum_app, IH. unfold lsum. cbn. lia. Qed.

Lemma lsum_nonneg {A} (g : A -> Z) l : (forall x, x ∈ l -> 0 <= g x) -> 0 <= lsum g l.
Proof.
  unfold lsum. induction l as [|x l IH]; cbn; [lia|]. intros H.
  assert (0 <= g x) by (apply H; left).
  assert (0 <= foldr (fun x acc => g x + acc) 0 l) by (apply IH; intros; apply H; by right). lia.
Qed.

Definition collection_ok (c : Collection) : Prop :=
  vaults_ok (c_track c) /\ 0 <= required c /\ 0 <= collected_fees c /\
  required c + collected_fees c <= MAX /\
  im_ok (fee_payments c) /\
  (forall v a, im_get v (fee_payments c) = Some a -> 0 <= a) /\
  im_sum snd (fee_payments c) = collected_fees c.

(** One payment: the usable part of the fee, up to what is still required,
    moves to the collected fees, the rest back to the vault. *)
Lemma ewp_take_fee is_success f c (Q : Collection -> Prop) :
  collection_ok c -> 0 <= f.1.2 -> is_Some (ft_vaults (c_track c) !! f.1.1) ->
  vault_total (c_track c) + f.1.2 <= MAX ->
  (forall c', collection_ok c' -> same_vaults (c_track c) (c_track c') ->
     proposer_rewards (c_track c') = proposer_rewards (c_track c) ->
     required c' = required c - Z.min (usable is_success f) (required c) ->
     collected_fees c' + required c' = collected_fees c + required c ->
     vault_total (c_track c') + collected_fees c' =
       vault_total (c_track c) + collected_fees c + f.1.2 -> Q c') ->
  ewp (take_fee is_success f c) Q.
Proof.
  destruct f as [[v locked] contingent]. cbn [fst snd].
  intros (Hok & Hr & Hc & Hm & Hio & Hnn & Hsum) Hl Hv Hb HQ. unfold take_fee. cbv zeta.
  pose proof (vault_total_nonneg _ Hok).
  set (amount := if contingent then _ else _).
  assert (Ha : amount = Z.min (usable is_success (v, locked, contingent)) (required c)).
  { unfold amount, usable. cbn. destruct contingent, is_success; cbn; unfold ZERO; lia. }
  assert (0 <= usable is_success (v, locked, contingent) <= locked).
  { unfold usable. cbn. destruct (_ && _); lia. }
  clearbody amount. rewrite liquid_take_spec by (try apply wf_between; lia).
  rewrite (proj2 (Z.ltb_ge _ _)) by lia.
  assert (He : 0 <= default ZERO (im_get v (fee_payments c)) <= collected_fees c).
  { destruct (im_get v (fee_payments c)) as [a|] eqn:E; cbn; [|unfold ZERO; lia].
    pose proof (Hnn _ _ E). destruct (im_get_split _ _ _ Hio E) as (m & Hp & _ & Hfm).
    rewrite <- Hsum, (im_sum_perm _ _ _ Hp). unfold im_sum. cbn [foldr snd].
    fold (im_sum (K := NodeId) snd m). assert (0 <= im_sum snd m); [|lia].
    apply im_sum_nonneg. intros [q b] Hin. apply (Hnn q). apply im_elem_get; [done|]. subst m.
    by apply list_elem_of_filter in Hin as [_ Hin]. }
  apply ewp_bind, ewp_put; [lia..|]. apply ewp_bind, ewp_sub; [lia..|].
  apply ewp_bind, ewp_put_in_vault; [done|done|lia|lia|]. intros t' Hok' Hsame Htot Hrew.
  apply ewp_bind, ewp_add; [lia..|]. cbn [ewp]. apply HQ; cbn; try done; try lia.
  split; [done|]. cbn. do 3 (split; [lia|]). split; [by apply im_ok_insert|]. split.
  - intros q b. rewrite im_get_insert. destruct (decide (q = v)); [intros [= <-]; lia|apply Hnn].
  - rewrite im_sum_insert by done. cbn [snd].
    destruct (im_get v (fee_payments c)); cbn in *; unfold ZERO in *; lia.
Qed.

Lemma ewp_take_fees is_success l c :
  collection_ok c ->
  (forall f, f ∈ l -> 0 <= f.1.2 /\ is_Some (ft_vaults (c_track c) !! f.1.1)) ->
  vault_total (c_track c) + lsum (fun f => f.1.2) l <= MAX ->
  ewp (take_fees is_success l c) (fun c' =>
    collection_ok c' /\ same_vaults (c_track c) (c_track c') /\
    proposer_rewards (c_track c') = proposer_rewards (c_track c) /\
    required c' = Z.max 0 (required c - lsum (usable is_success) l) /\
    collected_fees c' + required c' = collected_fees c + required c /\
    vault_total (c_track c') + collected_fees c' =
      vault_total (c_track c) + collected_fees c + lsum (fun f => f.1.2) l).
Proof.
  revert c. induction l as [|f l IH]; intros c Hok Hl Hm; cbn [take_fees].
  - cbn. pose proof (proj1 (proj2 Hok)). unfold lsum. cbn. repeat split; try done; try apply Hok; lia.
  - destruct (Hl f) as [Hf Hv]; [left|]. unfold lsum in Hm |- *. cbn [foldr] in Hm |- *.
    fold (lsum (fun f : NodeId * Decimal * bool => f.1.2) l) in Hm |- *.
    fold (lsum (usable is_success) l).
    assert (0 <= lsum (fun f => f.1.2) l) by (apply lsum_nonneg; intros; apply Hl; by right).
    assert (0 <= lsum (usable is_success) l).
    { apply lsum_nonneg. intros x Hx. unfold usable. destruct (_ && _); [lia|].
      apply Hl. by right. }
    assert (0 <= usable is_success f) by (unfold usable; destruct (_ && _); lia).
    pose proof (proj1 (proj2 Hok)) as Hreq.
    apply ewp_bind, ewp_take_fee; [done|done|done|lia|].
    intros c1 Hok1 Hs1 Hp1 Hr1 Hc1 Ht1.
    assert (collected_fees c <= collected_fees c1) by lia.
    eapply ewp_mono; [apply IH|].
    + done.
    + intros g Hg. destruct (Hl g) as [? ?]; [by right|]. split; [done|]. by apply Hs1.
    + lia.
    + intros c' (Hok' & Hs' & Hp' & Hr' & Hc' & Ht'). split; [done|].
      split; [by eapply same_vaults_trans|]. split; [congruence|]. repeat split; lia.
Qed.

(** *** Settlement *)

Definition locked_total (r : SystemLoanFeeReserve) : Z := lsum (fun f => f.1.2) (locked_fees r).

(** The world the settlement runs in: the vaults it credits exist, and the
    amounts fit the limited supply of RORK. *)
Record settle_ok (t : FeeTrack) (r : SystemLoanFeeReserve) : Prop := {
  so_vaults : vaults_ok t;
  so_royalty : forall p a, (p, a) ∈ royalty_cost_breakdown r ->
    is_Some (ft_vaults t !! vault_id p);
  so_locked : forall f, f ∈ locked_fees r -> is_Some (ft_vaults t !! f.1.1);
  so_rewards_vault : is_Some (ft_vaults t !! rewards_vault t);
  so_supply : vault_total t + locked_total r + funds r <= MAX;
  so_rewards : forall i a, im_get i (proposer_rewards t) = Some a ->
    0 <= a /\ a + funds r <= MAX
}.

Lemma ewp_pay_rewards tp tv collected t events :
  vaults_ok t -> 0 <= tp -> 0 <= tv -> tp + tv <= collected -> collected <= MAX ->
  is_Some (ft_vaults t !! rewards_vault t) -> vault_total t + tp + tv <= MAX ->
  (forall i a, im_get i (proposer_rewards t) = Some a -> 0 <= a /\ a + tp <= MAX) ->
  ewp (pay_rewards tp tv collected t events) (fun te =>
    vault_total te.1 = vault_total t + tp + tv /\
    (forall i, default ZERO (im_get i (proposer_rewards te.1)) =
       default ZERO (im_get i (proposer_rewards t)) +
       (if decide (current_leader t = Some i) then tp else 0))).
Proof.
  intros Hok Hp Hv Hle Hm Hex Ht Hrew. unfold pay_rewards, is_zero.
  destruct (negb _ || negb _) eqn:E.
  - assert (forall i, 0 <= default ZERO (im_get i (proposer_rewards t)) /\
      default ZERO (im_get i (proposer_rewards t)) + tp <= MAX) as Hd.
    { intros i. destruct (im_get i _) eqn:Ei; cbn; [by eapply Hrew|unfold ZERO; lia]. }
    apply ewp_bind, (ewp_mono _ (fun rewards => forall i,
      default ZERO (im_get i rewards) = default ZERO (im_get i (proposer_rewards t)) +
        (if decide (current_leader t = Some i) then tp else 0))).
    { destruct (current_leader t) as [leader|].
      - destruct (Hd leader) as [? ?]. apply ewp_bind, ewp_add; [lia..|]. cbn [ewp]. intros i.
        rewrite im_get_insert. destruct (decide (i = leader)) as [->|Hne].
        + rewrite decide_True by done. done.
        + rewrite decide_False by congruence. lia.
      - cbn [ewp]. intros i. rewrite decide_False by done. lia. }
    intros rewards Hrw. apply ewp_bind, ewp_add; [lia..|].
    rewrite liquid_take_spec by (try apply wf_between; lia).
    rewrite (proj2 (Z.ltb_ge _ _)) by lia. apply ewp_bind, ewp_put_in_vault; try done; try lia.
    { cbn. unfold vault_total in *. cbn. lia. }
    intros t' _ _ Htot Hpr. cbn [ewp fst]. split.
    + unfold vault_total in *. cbn in Htot. lia.
    + intros i. rewrite Hpr. cbn. apply Hrw.
  - apply orb_false_iff in E as [E1 E2]. zbool. subst. cbn [ewp fst]. split; [lia|].
    intros i. destruct (decide _); lia.
Qed.

Lemma ewp_take_free_credit credit req collected :
  0 <= credit -> 0 <= req -> 0 <= collected -> req + collected <= MAX ->
  ewp (take_free_credit credit req collected) (fun rc =>
    rc.1 = req - Z.min credit req /\ rc.2 = collected + Z.min credit req).
Proof.
  intros Hc Hr Hl Hm. unfold take_free_credit, is_positive.
  destruct (0 <? credit) eqn:E; zbool.
  - cbv zeta. apply ewp_bind, ewp_put; [lia..|]. apply ewp_bind, ewp_sub; [lia..|]. done.
  - cbn. lia.
Qed.

Lemma ewp_eq {A} (x : Exec A) a : ewp x (fun y => y = a) -> x = Done a.
Proof. by destruct x; cbn; [intros ->|]. Qed.

Section Shares.
Context (s : FeeReserveFinalizationSummary).
Hypothesis (He : 0 <= total_execution_cost_in_xrd s) (Hf : 0 <= total_finalization_cost_in_xrd s)
  (Hs : 0 <= total_storage_cost_in_xrd s) (Ht : 0 <= total_tipping_cost_in_xrd s)
  (Hm : total_tipping_cost_in_xrd s + fees_of s <= MAX).

Lemma quarter a : a * 25 / 100 = a / 4.
Proof. replace 100 with (4 * 25) by done. by rewrite Z.div_mul_cancel_r. Qed.

Lemma to_proposer_Done : to_proposer_amount s = Done (total_tipping_cost_in_xrd s + fees_of s / 4).
Proof.
  apply ewp_eq. unfold to_proposer_amount.
  unfold TIPS_PROPOSER_SHARE_PERCENTAGE, NETWORK_FEES_PROPOSER_SHARE_PERCENTAGE.
  apply ewp_share_of; [assumption..|lia|lia|]. by rewrite quarter, Z.div_mul.
Qed.

Lemma to_validator_set_Done : to_validator_set_amount s = Done (fees_of s / 4).
Proof.
  apply ewp_eq. unfold to_validator_set_amount.
  unfold TIPS_VALIDATOR_SET_SHARE_PERCENTAGE, NETWORK_FEES_VALIDATOR_SET_SHARE_PERCENTAGE.
  apply ewp_share_of; [assumption..|lia|lia|]. by rewrite quarter, Z.mul_0_r, Z.div_0_l.
Qed.

Lemma quarter_bounds : 0 <= fees_of s / 4 /\ 4 * (fees_of s / 4) <= fees_of s.
Proof.
  split; [|apply Z.mul_div_le; lia]. apply Z.div_pos; [|lia]. unfold fees_of. lia.
Qed.

Lemma to_burn_Done : to_burn_amount s = Done (fees_of s - 2 * (fees_of s / 4)).
Proof.
  pose proof quarter_bounds. apply ewp_eq. unfold to_burn_amount.
  apply ewp_bind, ewp_network_fees; [assumption..|lia|].
  apply ewp_bind, ewp_add; [lia..|]. rewrite to_proposer_Done. apply ewp_bind. cbn [ewp].
  apply ewp_bind, ewp_sub; [lia..|]. rewrite to_validator_set_Done. apply ewp_bind. cbn [ewp].
  apply ewp_sub; lia.
Qed.
End Shares.

(** What the settlement achieves. *)
Definition settled_fees (t : FeeTrack) (r : SystemLoanFeeReserve)
    (x : FeeReserveFinalizationSummary * IndexMap NodeId Decimal * list FeeEvent * FeeTrack) :
    Prop :=
  let '(s, payments, _, t') := x in
  summary_of r s /\
  exists to_proposer to_validator_set to_burn credit_used,
    to_proposer_amount s = Done to_proposer /\
    to_validator_set_amount s = Done to_validator_set /\
    to_burn_amount s = Done to_burn /\ 0 <= to_burn /\
    0 <= credit_used <= free_credit_in_xrd (transaction_costing_parameters r) /\
    im_sum snd payments + credit_used = committed_cost r /\
    vault_total t' + to_burn = vault_total t + locked_total r + credit_used /\
    forall i, default ZERO (im_get i (proposer_rewards t')) =
      default ZERO (im_get i (proposer_rewards t)) +
      (if decide (current_leader t = Some i) then to_proposer else 0).

(** The locked fees and the free credit cover the cost. *)
Lemma usable_covers r is_success :
  Inv r -> xrd_owed r = 0 ->
  committed_cost r <= lsum (usable is_success) (locked_fees r) +
    free_credit_in_xrd (transaction_costing_parameters r).
Proof.
  intros Hi Ho. pose proof (committed_parts r Hi) as (_ & _ & _ & _ & Hc & _).
  unfold funds in Hc. rewrite Ho in Hc.
  enough (locked_credit r <= lsum (usable is_success) (locked_fees r)) by lia.
  unfold locked_credit, lsum. pose proof (inv_locked _ Hi) as Hl. revert Hl.
  generalize (locked_fees r). intros l Hl.
  induction l as [|f l IH]; cbn [foldr]; [lia|].
  assert (0 <= f.1.2) by (apply Hl; left).
  assert (forall g, g ∈ l -> 0 <= g.1.2) as Hl' by (intros; apply Hl; by right).
  specialize (IH Hl'). unfold usable at 1. destruct f.2, is_success; cbn [andb negb]; lia.
Qed.

Lemma ewp_finalize_fees t r is_success :
  Inv r -> xrd_owed r = 0 -> tip_exact r -> settle_ok t r ->
  ewp (finalize_fees_for_commit t r is_success) (settled_fees t r).
Proof.
  intros Hi Ho Ht [Hv Hroy Hlk Hrv Hsup Hrew].
  pose proof (committed_parts r Hi) as (_ & _ & Hro & _ & Hc & Hm).
  pose proof (vault_total_nonneg t Hv) as Hvt. pose proof (pr_credit _ (inv_prices _ Hi)) as Hcr.
  assert (Hlt : 0 <= locked_total r) by (apply lsum_nonneg; apply Hi).
  pose proof (usable_covers r is_success Hi Ho) as Hcov.
  pose proof (inv_royalty_sum _ Hi) as Hrs.
  unfold finalize_fees_for_commit. apply ewp_bind.
  assert (royalty_cost_committed r <= committed_cost r).
  { pose proof (committed_parts r Hi). unfold committed_cost. lia. }
  eapply ewp_mono; [apply ewp_distribute_royalty; [done| |lia]|].
  { intros p a Hin. split; [|by eapply Hroy]. eapply (inv_royalty_nonneg _ Hi p).
    apply im_elem_get; [apply Hi|done]. }
  intros te (Hv1 & Hs1 & Hr1 & Ht1 & _). apply ewp_bind.
  eapply ewp_mono; [by apply ewp_finalize|].
  intros [[s cp] tcp] [Htcp Hsum]. cbn [fst snd] in Htcp, Hsum. subst tcp.
  apply ewp_bind. eapply ewp_mono; [by apply ewp_total_cost|]. intros req ->.
  pose proof Hsum as (_ & _ & _ & Ero & Ebd & Elk & Etot & P1 & P2 & P3 & P4 & P5).
  assert (0 <= committed_cost r) by lia. rewrite Elk.
  apply ewp_bind. eapply ewp_mono; [apply ewp_take_fees|].
  { repeat split; cbn; try done; try (unfold ZERO; lia); [apply NoDup_nil_2]. }
  { intros f Hf. apply list_elem_of_In, in_rev, list_elem_of_In in Hf. cbn. split; [by apply Hi|]. apply Hs1. by apply Hlk. }
  { cbn. rewrite lsum_rev. fold (locked_total r). lia. }
  cbn [c_track required collected_fees]. rewrite !lsum_rev. fold (locked_total r).
  intros c ((Hvc & Hrq & Hco & Hcm & _ & _ & Hps) & Hsc & Hpc & Hreq & Hcc & Htc).
  apply ewp_bind. eapply ewp_mono; [apply ewp_take_free_credit; try done; lia|].
  intros [req' coll'] [Hreq' Hcoll']. cbn [fst snd] in *.
  assert (req' = 0) as -> by lia.
  assert (Hfm : total_tipping_cost_in_xrd s + fees_of s <= MAX) by (unfold fees_of; lia).
  pose proof (quarter_bounds s P1 P2 P4) as [Hq1 Hq2].
  apply ewp_bind. rewrite (to_proposer_Done s P1 P2 P4 P3 Hfm). cbn [ewp].
  apply ewp_bind. rewrite (to_validator_set_Done s P1 P2 P4 P3 Hfm). cbn [ewp].
  apply ewp_bind. rewrite (to_burn_Done s P1 P2 P4 P3 Hfm). cbn [ewp].
  rewrite Ebd, Ho. apply ewp_bind. cbn [ewp check]. apply ewp_bind. cbn [ewp check].
  unfold ZERO in *. assert (coll' = committed_cost r) as -> by lia.
  assert (fees_of s = committed_cost r - royalty_cost_committed r - total_tipping_cost_in_xrd s)
    as Efs by (unfold fees_of; lia).
  apply ewp_bind, ewp_sub; [lia..|]. apply ewp_bind, ewp_add; [lia..|].
  apply ewp_bind, ewp_add; [lia..|]. rewrite (proj2 (Z.eqb_eq _ _)) by lia.
  apply ewp_bind. cbn [ewp check].
  apply ewp_bind. eapply ewp_mono; [apply ewp_pay_rewards; try done; try lia|].
  { apply Hsc, Hs1. by rewrite (proj2 (proj2 Hsc)), (proj2 (proj2 Hs1)). }
  { intros i a. rewrite Hpc, Hr1. intros Hg. destruct (Hrew _ _ Hg). lia. }
  intros te' [Htt Hrr]. cbn [ewp]. unfold settled_fees. split; [done|].
  exists (total_tipping_cost_in_xrd s + fees_of s / 4), (fees_of s / 4),
    (fees_of s - 2 * (fees_of s / 4)),
    (Z.min (free_credit_in_xrd (transaction_costing_parameters r)) (required c)).
  split; [by apply to_proposer_Done|]. split; [by apply to_validator_set_Done|].
  split; [by apply to_burn_Done|]. do 4 (split; [lia|]).
  intros i. rewrite Hrr, Hpc, Hr1.
  by rewrite (proj1 (proj2 Hsc)), (proj1 (proj2 Hs1)).
Qed.

End FeeSettlement.

(** ** Theorems *)
Module FinalizationTheorems.
Import FeeSettlement FeeTheorems.

(** A concrete end of a transaction: one RORK locked from vault 7, one RORK
    charged as royalty to vault 8, rewards to vault 9. *)
Definition example_reserve : SystemLoanFeeReserve.
Proof.
  let x := eval vm_compute in (run_ops genesis_reserve
    [OpLockFee 7 (3 * ONE) false; OpExecution 5000000; OpRoyalty (Xrd ONE) (Component 1 8);
     OpStorage State 10; OpRepayAll]) in
  match x with Done ?r => exact r end.
Defined.

Definition example_track : FeeTrack := {|
  ft_vaults := <[7%N := 0]> (<[8%N := 0]> (<[9%N := 0]> ∅));
  current_leader := Some 2; proposer_rewards := []; rewards_vault := 9 |}.

Lemma example_reachable : reachable genesis_reserve example_reserve.
Proof.
  apply (run_ops_reachable _ genesis_reserve
    [OpLockFee 7 (3 * ONE) false; OpExecution 5000000; OpRoyalty (Xrd ONE) (Component 1 8);
     OpStorage State 10; OpRepayAll]); [constructor|ops_pre|vm_compute; reflexivity].
Qed.

Lemma example_Inv : Inv example_reserve.
Proof. eapply reachable_Inv; [apply genesis_Inv|apply example_reachable]. Qed.

Lemma example_tip_exact : tip_exact example_reserve.
Proof. apply genesis_tip_exact; reflexivity. Qed.

Lemma example_settle_ok : settle_ok example_track example_reserve.
Proof.
  constructor.
  - unfold vaults_ok. cbn. intros v b. rewrite !lookup_insert_Some, lookup_empty.
    naive_solver.
  - cbn. intros p a [= -> ->]%list_elem_of_singleton. cbn. eexists; vm_compute; reflexivity.
  - cbn. intros f ->%list_elem_of_singleton. cbn. eexists; vm_compute; reflexivity.
  - eexists; vm_compute; reflexivity.
  - vm_compute. discriminate.
  - cbn. done.
Qed.

(** Settlement: for every committed transaction (loan repaid, unit prices
    on which the tip is exact) the settlement of its fees runs through, none of
    its sanity assertions or unwraps failing, and conserves RORK: what ends up
    in vaults plus what is burnt is what was in vaults plus the locked fees plus
    the free credit spent; the payments recorded and the free credit spent add
    up to everything the reserve charged; and exactly the current leader's
    reward grows, by the proposer's share. *)
Theorem settlement_conserves t r is_success :
  Inv r -> xrd_owed r = 0 -> tip_exact r -> settle_ok t r ->
  exists s payments events t',
    finalize_fees_for_commit t r is_success = Done (s, payments, events, t') /\
    exists to_proposer to_validator_set to_burn credit_used,
      to_proposer_amount s = Done to_proposer /\
      to_validator_set_amount s = Done to_validator_set /\
      to_burn_amount s = Done to_burn /\ 0 <= to_burn /\
      0 <= credit_used <= free_credit_in_xrd (transaction_costing_parameters r) /\
      im_sum snd payments + credit_used = committed_cost r /\
      vault_total t' + to_burn = vault_total t + locked_total r + credit_used /\
      forall i, default ZERO (im_get i (proposer_rewards t')) =
        default ZERO (im_get i (proposer_rewards t)) +
        (if decide (current_leader t = Some i) then to_proposer else 0).
Proof.
  intros Hi Ho Ht Hs. pose proof (ewp_finalize_fees t r is_success Hi Ho Ht Hs) as H.
  destruct (finalize_fees_for_commit t r is_success) as [[[[s p] e] t']|]; [|done].
  exists s, p, e, t'. split; [done|]. apply H.
Qed.

Lemma settlement_conserves_witness :
  exists s payments events t' to_burn,
    finalize_fees_for_commit example_track example_reserve true =
      Done (s, payments, events, t') /\
    to_burn_amount s = Done to_burn /\ 0 < to_burn /\
    vault_total t' + to_burn = 0 + 3 * ONE + 0.
Proof.
  destruct (settlement_conserves example_track example_reserve true example_Inv eq_refl
    example_tip_exact example_settle_ok) as (s & p & e & t' & Hrun & H).
  destruct H as (tp & tv & tb & cu & _ & _ & Hb & _ & Hc & _ & Ht & _).
  assert (cu = 0) as -> by (change (free_credit_in_xrd _) with 0 in Hc; lia).
  exists s, p, e, t', tb. split; [exact Hrun|]. split; [exact Hb|]. split; [|exact Ht].
  vm_compute in Hrun. injection Hrun as <- _ _ _. vm_compute in Hb. injection Hb as <-. lia.
Defined.

(** Verdict: a transaction is committed only when its loan and all its
    deferred costs have been paid: after [determine_result_type] answered
    [Commit], successful or not, nothing is owed and the reserve satisfies its
    invariant; a successful run is committed exactly when the final repayment
    succeeds, and a failed run never aborts or rejects a repaid transaction for
    fee reasons. *)
Theorem commit_only_if_repaid {Output B R A} (ab : R -> option A) (ca : A)
    (res : Result (TransactionExecutionError B R) Output) r :
  Inv r ->
  exists verdict r', determine_result_type ab ca res r = Done (verdict, r') /\ Inv r' /\
    match verdict with
    | Commit outcome =>
        xrd_owed r' = 0 /\
        match outcome with
        | Ok o => res = Ok o /\ execution_cost_units_deferred r' = 0 /\
                  finalization_cost_units_deferred r' = 0 /\ storage_cost_deferred r' = [] /\
                  abort_when_loan_repaid r = false
        | Err e => res = Err (RuntimeError e) /\ ab e = None
        end
    | Reject SuccessButFeeLoanNotRepaid => exists o, res = Ok o
    | Reject (RejectBootloadingError e) => res = Err (BootloadingError e)
    | Reject (ErrorBeforeLoanAndDeferredCostsRepaid e) =>
        res = Err (RuntimeError e) /\ xrd_owed r' <> 0
    | AbortTransaction a =>
        (exists o, res = Ok o /\ a = ca /\ abort_when_loan_repaid r = true) \/
        (exists e, res = Err (RuntimeError e) /\ ab e = Some a)
    end.
Proof.
  intros Hi. pose proof (wp_repay_all r Hi) as H. unfold wp in H. unfold determine_result_type.
  destruct (repay_all r) as [[[u|e] r']|]; [| |done].
  - destruct H as (-> & Hi' & _ & Ha). eexists _, _. split; [done|]. split; [done|].
    destruct res as [o|[e|e]]; cbn; [done|done|]. destruct (ab e) eqn:E; [by eauto|]. done.
  - destruct H as [Hi' Hf]. eexists _, _. split; [done|]. split; [done|].
    destruct res as [o|[e'|e']]; cbn; [|done|].
    + destruct e; cbn in *; try (by eauto). left. exists o. by destruct Hf.
    + destruct (ab e') eqn:E; [by eauto|]. unfold fully_repaid, ZERO.
      destruct (xrd_owed r' =? 0) eqn:Eo; zbool; done.
Qed.

Lemma commit_only_if_repaid_witness :
  exists r', determine_result_type (RuntimeErr := unit) (BootloadingErr := unit)
      (fun _ => None) tt (Ok 5) genesis_reserve = Done (Commit (Ok 5), r') /\ xrd_owed r' = 0.
Proof.
  destruct (commit_only_if_repaid (B := unit) (R := unit) (fun _ => None) tt (Ok 5)
    genesis_reserve genesis_Inv) as (v & r' & Hrun & _ & Hv).
  assert (v = Commit (Ok 5)) as -> by (vm_compute in Hrun; by injection Hrun as <- _).
  exists r'. split; [exact Hrun|exact (proj1 Hv)].
Defined.

(** C2. End to end: if the verdict on a transaction is to commit it, then
    whatever it did to its fee reserve, its fees settle without a panic, the
    royalties being reverted first when it failed.  The conditions: the unit
    prices times the tip are whole numbers of attos, as they are at genesis
    prices for every tip; and the settlement finds the vaults it credits, their
    balances and the leader's rewards together with the fees and the locked
    amounts staying below the largest decimal.  Where the tip is not exact the
    settlement may panic (inexact_tip_panics). *)
Theorem committed_transaction_settles {Output B R A} (ab : R -> option A) (ca : A)
    (res : Result (TransactionExecutionError B R) Output) cp tcp abort r0 r outcome r' t
    (is_success : bool) :
  params_ok cp tcp -> fee_reserve_new cp tcp abort = Done r0 -> reachable r0 r ->
  determine_result_type ab ca res r = Done (Commit outcome, r') ->
  is_success = (match outcome with Ok _ => true | Err _ => false end) ->
  tip_exact r' -> settle_ok t r' ->
  exists x, commit_fees t r' is_success = Done x.
Proof.
  intros Hp Hnew Hr Hv Hsucc Ht Hs. apply fee_reserve_new_Inv in Hnew; [|done].
  pose proof (reachable_Inv _ _ Hnew Hr) as Hi.
  assert (Inv r' /\ xrd_owed r' = 0) as [Hi' Ho].
  { pose proof (wp_repay_all r Hi) as H. unfold wp in H. unfold determine_result_type in Hv.
    destruct (repay_all r) as [[[u|e] r1]|]; [| |done].
    - destruct H as (-> & Hi' & _). injection Hv as Hv <-. done.
    - destruct H as [Hi' Hf]. injection Hv as Hv <-. split; [done|].
      destruct res as [o|[e'|e']]; [by destruct (fee_abortion _ _)|done|].
      destruct (ab e'); [done|]. unfold fully_repaid, ZERO in Hv.
      destruct (xrd_owed r1 =? 0) eqn:E; zbool; done. }
  unfold commit_fees. destruct is_success.
  - pose proof (ewp_finalize_fees t r' true Hi' Ho Ht Hs) as H.
    destruct (finalize_fees_for_commit t r' true); [eauto|done].
  - pose proof (wp_revert_royalty r' Hi') as H. unfold wp in H.
    destruct (revert_royalty r') as [[[u|e] r2]|]; [|done|done]. destruct H as [-> Hi2].
    match goal with |- context [finalize_fees_for_commit t ?r2 false] =>
      pose proof (ewp_finalize_fees t r2 false Hi2 Ho Ht) as H;
      destruct (finalize_fees_for_commit t r2 false); [eauto|exfalso; apply H] end.
    destruct Hs as [Hs1 _ Hs3 Hs4 Hs5 Hs6].
    constructor; cbn; [done|by intros p a ?%not_elem_of_nil|done..].
Qed.

Lemma committed_transaction_settles_witness :
  exists r', determine_result_type (RuntimeErr := unit) (BootloadingErr := unit)
      (fun _ => None) tt (Err (RuntimeError tt)) example_reserve =
      Done (Commit (Output := unit) (Err tt), r') /\
    exists x, commit_fees example_track r' false = Done x.
Proof.
  exists example_reserve. split; [vm_compute; reflexivity|].
  apply (committed_transaction_settles (Output := unit) (B := unit) (fun _ => None) tt
    (Err (RuntimeError tt)) babylon_genesis no_tip false genesis_reserve example_reserve (Err tt)
    example_reserve example_track false genesis_params_ok genesis_reserve_new example_reachable);
    [vm_compute; reflexivity|reflexivity|exact example_tip_exact|exact example_settle_ok].
Defined.

(** A unit price of one atto with a tip of half of it: the effective price is
    truncated to one atto, so ten units are charged ten attos, which is all that
    was locked; the finalization computes a tip of five attos on top. *)
Definition inexact_tcp : TransactionCostingParameters :=
  {| tip := Percentage 50; free_credit_in_xrd := 0 |}.

Definition inexact_ops : list FeeOp := [OpLockFee 7 10 false; OpExecution 10].

Definition inexact_start : SystemLoanFeeReserve.
Proof.
  let x := eval vm_compute in (fee_reserve_new (test_params 1 ONE 100 0) inexact_tcp false) in
  match x with Done ?r => exact r end.
Defined.

Definition inexact_end : SystemLoanFeeReserve.
Proof.
  let x := eval vm_compute in (run_ops inexact_start inexact_ops) in
  match x with Done ?r => exact r end.
Defined.

(** The settlement of a committed transaction with such a tip fails the
    assertion that the locked fees cover the cost. *)
Theorem inexact_tip_panics :
  fee_reserve_new (test_params 1 ONE 100 0) inexact_tcp false = Done inexact_start /\
  reachable inexact_start inexact_end /\ ~ tip_exact inexact_end /\ settle_ok example_track inexact_end /\
  determine_result_type (RuntimeErr := unit) (BootloadingErr := unit) (fun _ => None) tt (Ok tt) inexact_end =
    Done (Commit (Ok tt), inexact_end) /\
  commit_fees example_track inexact_end true = Panicked.
Proof.
  split_and!; try (vm_compute; reflexivity).
  - apply (run_ops_reachable _ inexact_start inexact_ops); [constructor|ops_pre|vm_compute; reflexivity].
  - intros H. destruct (H (50 * 10 ^ 16) eq_refl) as [[k Hk] _]. rewrite ONE_val in Hk. cbn in Hk. lia.
  - constructor.
    + apply example_settle_ok.
    + cbn. by intros p a ?%not_elem_of_nil.
    + cbn. intros f ->%list_elem_of_singleton. cbn. eexists; vm_compute; reflexivity.
    + eexists; vm_compute; reflexivity.
    + vm_compute. discriminate.
    + cbn. done.
Qed.

End FinalizationTheorems.
