(* ===== verification/SubstateLocks.v ===== *)
(** * Substate locks

    The lock table of the kernel's substate IO (radix-engine/src/kernel/
    substate_locks.rs): any number of read locks or one write lock per
    substate, handed out as numbered handles, with a count of locks per node.
    The table itself does not record which handles are read and which are
    write locks; the specification does, and the table is shown to implement
    it. *)

From S2P Require Import Prelude IndexMap.
Import Int.

Inductive SubstateKey : Type :=
| FieldKey (n : Z)
| MapKey (key : list Z)
| SortedKey (sort : Z) (key : list Z).

#[export] Instance SubstateKey_eq_dec : EqDecision SubstateKey.
Proof. solve_decision. Defined.
#[export] Instance SubstateKey_countable : Countable SubstateKey.
Proof.
  refine (inj_countable'
    (fun k => match k with
       | FieldKey n => inl (inl n) | MapKey k => inl (inr k) | SortedKey s k => inr (s, k) end)
    (fun x => match x with
       | inl (inl n) => FieldKey n | inl (inr k) => MapKey k | inr (s, k) => SortedKey s k end) _).
  by intros [].
Defined.

(** Node, partition number and key. *)
Abbreviation FullKey := (NodeId * Z * SubstateKey)%type (only parsing).

Inductive SubstateLockState : Type := ReadLock (n : Z) | WriteLock.

Definition no_lock : SubstateLockState := ReadLock 0.

Definition state_is_locked (s : SubstateLockState) : bool :=
  match s with ReadLock 0 => false | _ => true end.

Definition try_lock (s : SubstateLockState) (read_only : bool) : Result unit SubstateLockState :=
  match s with
  | ReadLock n =>
      if read_only then Ok (ReadLock (wrap_u 64 (n + 1)))
      else if negb (n =? 0) then Err tt else Ok WriteLock
  | WriteLock => Err tt
  end.

Definition state_unlock (s : SubstateLockState) : SubstateLockState :=
  match s with
  | ReadLock n => ReadLock (wrap_u 64 (n - 1))
  | WriteLock => no_lock
  end.

Section Locks.
Context {D : Type}.

Record SubstateLocks : Type := {
  locks : IndexMap Z (FullKey * D);
  substate_lock_states : gmap FullKey SubstateLockState;
  node_num_locked : gmap NodeId Z;
  next_lock_id : Z
}.

Definition locks_new : SubstateLocks :=
  {| locks := []; substate_lock_states := ∅; node_num_locked := ∅; next_lock_id := 0 |}.

Definition new_lock_handle (s : SubstateLocks) (key : FullKey) (data : D) : Z * SubstateLocks :=
  let new_lock := next_lock_id s in
  (new_lock,
   {| locks := im_insert new_lock (key, data) (locks s);
      substate_lock_states := substate_lock_states s;
      node_num_locked := node_num_locked s;
      next_lock_id := wrap_u 32 (next_lock_id s + 1) |}).

Definition node_is_locked (s : SubstateLocks) (node : NodeId) : bool :=
  match node_num_locked s !! node with Some e => 0 <? e | None => false end.

Definition is_locked (s : SubstateLocks) (key : FullKey) : bool :=
  match substate_lock_states s !! key with
  | Some state => state_is_locked state
  | None => false
  end.

(** A refused lock leaves the default entry it created behind. *)
Definition lock (s : SubstateLocks) (key : FullKey) (read_only : bool) (data : D) :
    option Z * SubstateLocks :=
  let lock_state := default no_lock (substate_lock_states s !! key) in
  match try_lock lock_state read_only with
  | Err _ =>
      (None, {| locks := locks s;
                substate_lock_states := <[key := lock_state]> (substate_lock_states s);
                node_num_locked := node_num_locked s;
                next_lock_id := next_lock_id s |})
  | Ok lock_state' =>
      let count := default 0 (node_num_locked s !! key.1.1) in
      let s' := {| locks := locks s;
                   substate_lock_states := <[key := lock_state']> (substate_lock_states s);
                   node_num_locked := <[key.1.1 := wrap_u 64 (count + 1)]> (node_num_locked s);
                   next_lock_id := next_lock_id s |} in
      let '(handle, s'') := new_lock_handle s' key data in
      (Some handle, s'')
  end.

Definition get (s : SubstateLocks) (handle : Z) : Exec (FullKey * D) :=
  expect (im_get handle (locks s)).

Definition unlock (s : SubstateLocks) (handle : Z) : Exec ((FullKey * D) * SubstateLocks) :=
  match im_swap_remove handle (locks s) with
  | (None, _) => Panicked
  | (Some (full_key, data), locks') =>
      match substate_lock_states s !! full_key with
      | None => Panicked
      | Some lock_state =>
          let count := default 0 (node_num_locked s !! full_key.1.1) in
          Done ((full_key, data),
                {| locks := locks';
                   substate_lock_states :=
                     <[full_key := state_unlock lock_state]> (substate_lock_states s);
                   node_num_locked :=
                     <[full_key.1.1 := wrap_u 64 (count - 1)]> (node_num_locked s);
                   next_lock_id := next_lock_id s |})
      end
  end.

(** ** Specification

    The outstanding handles, each with its key, data and mode. *)
Record Held : Type := { h_key : FullKey; h_data : D; h_write : bool }.
Abbreviation Spec := (IndexMap Z Held) (only parsing).

Definition h_entry (h : Held) : FullKey * D := (h_key h, h_data h).

(** Readers and writers of a key, locks of a node. *)
Definition holders (p : Held -> bool) (a : Spec) : Z :=
  im_sum (fun e => if p e.2 then 1 else 0) a.
Definition on_key (key : FullKey) (write : bool) (h : Held) : bool :=
  bool_decide (h_key h = key) && eqb (h_write h) write.
Definition on_node (node : NodeId) (h : Held) : bool := bool_decide ((h_key h).1.1 = node).

Definition readers (a : Spec) (key : FullKey) : Z := holders (on_key key false) a.
Definition writers (a : Spec) (key : FullKey) : Z := holders (on_key key true) a.

(** A read lock is compatible with readers, a write lock with nobody. *)
Definition grantable (a : Spec) (key : FullKey) (read_only : bool) : bool :=
  (writers a key =? 0) && (read_only || (readers a key =? 0)).

Definition spec_lock (a : Spec) (key : FullKey) (read_only : bool) (data : D) (handle : Z) :
    option Spec :=
  if grantable a key read_only
  then Some (im_insert handle {| h_key := key; h_data := data; h_write := negb read_only |} a)
  else None.

Definition spec_unlock (a : Spec) (handle : Z) : option (Held * Spec) :=
  match im_swap_remove handle a with
  | (Some h, a') => Some (h, a')
  | (None, _) => None
  end.

(** The table implements the specification. *)
Record Implements (s : SubstateLocks) (a : Spec) : Prop := {
  im_locks : locks s = im_map h_entry a;
  im_wf : im_ok a;
  im_next : 0 <= next_lock_id s < 2 ^ 32;
  im_fresh : forall i, i ∈ im_keys a -> 0 <= i < next_lock_id s;
  im_exclusive : forall k, writers a k = 0 \/ (writers a k = 1 /\ readers a k = 0);
  im_states : forall k, default no_lock (substate_lock_states s !! k) =
    if writers a k =? 0 then ReadLock (readers a k) else WriteLock;
  im_present : forall k, 0 < writers a k + readers a k -> is_Some (substate_lock_states s !! k);
  im_nodes : forall n, default 0 (node_num_locked s !! n) = holders (on_node n) a
}.
End Locks.
Arguments SubstateLocks D : clear implicits.
Arguments Held D : clear implicits.

(** ** Refinement *)
Module LockRefinement.
Section Proofs.
Context {D : Type}.
Implicit Types (s : SubstateLocks D) (a : IndexMap Z (Held D)) (k : FullKey).

Lemma holders_nonneg p a : 0 <= holders p a.
Proof. apply im_sum_nonneg. intros e _. destruct (p e.2); lia. Qed.

Lemma holders_le p a : holders p a <= Z.of_nat (length a).
Proof.
  unfold holders, im_sum. induction a as [|e a IH]; cbn -[Z.of_nat]; [done|].
  destruct (p e.2); lia.
Qed.

Lemma holders_insert p a i h :
  im_ok a -> i ∉ im_keys a -> holders p (im_insert i h a) = holders p a + (if p h then 1 else 0).
Proof.
  intros Hok Hi. unfold holders. rewrite im_sum_insert by done.
  apply im_get_None in Hi. rewrite Hi. cbn. lia.
Qed.

Lemma holders_remove p a a' i h :
  im_ok a -> im_swap_remove i a = (Some h, a') ->
  holders p a = holders p a' + (if p h then 1 else 0).
Proof. intros Hok E. unfold holders. by rewrite (im_sum_swap_remove _ i h a a') by done. Qed.

Lemma length_bounded (l : list Z) n :
  NoDup l -> (forall i, i ∈ l -> 0 <= i < n) -> Z.of_nat (length l) <= Z.max 0 n.
Proof.
  intros Hnd Hin. assert (l ⊆+ seqZ 0 n) as Hsub.
  { apply NoDup_submseteq; [done|]. intros i Hi. apply elem_of_seqZ. specialize (Hin i Hi). lia. }
  apply submseteq_length in Hsub. rewrite length_seqZ in Hsub. lia.
Qed.

Lemma holders_small s a p : Implements s a -> 0 <= holders p a < 2 ^ 32.
Proof.
  intros [_ Hok Hn Hf _ _ _ _]. pose proof (holders_nonneg p a). pose proof (holders_le p a).
  assert (Z.of_nat (length a) <= Z.max 0 (next_lock_id s)); [|lia].
  rewrite <- (length_fmap fst). by apply length_bounded.
Qed.

Lemma new_implements : Implements (D := D) locks_new [].
Proof.
  constructor; cbn; try done.
  - apply NoDup_nil_2.
  - intros i Hi. by apply not_elem_of_nil in Hi.
  - by left.
Qed.

Lemma wrap_u64_small z : 0 <= z < 2 ^ 40 -> wrap_u 64 z = z.
Proof. intros. apply wrap_u_small. unfold u_max. lia. Qed.

(** Granting: the new handle is fresh and recorded with its mode. *)
Lemma grant_implements s a k ro d st' :
  Implements s a -> next_lock_id s + 1 < 2 ^ 32 ->
  try_lock (default no_lock (substate_lock_states s !! k)) ro = Ok st' ->
  grantable a k ro = true /\
  Implements
    {| locks := im_insert (next_lock_id s) (k, d) (locks s);
       substate_lock_states := <[k := st']> (substate_lock_states s);
       node_num_locked := <[k.1.1 := wrap_u 64 (default 0 (node_num_locked s !! k.1.1) + 1)]>
                            (node_num_locked s);
       next_lock_id := wrap_u 32 (next_lock_id s + 1) |}
    (im_insert (next_lock_id s) {| h_key := k; h_data := d; h_write := negb ro |} a).
Proof.
  intros Hi Hnext Htry. pose proof (fun p => holders_small s a p Hi) as Hsm.
  destruct Hi as [Hl Hok Hn Hf Hex Hst Hpr Hnd].
  assert (Hfresh : next_lock_id s ∉ im_keys a) by (intros Hin; specialize (Hf _ Hin); lia).
  assert (Hw32 : wrap_u 32 (next_lock_id s + 1) = next_lock_id s + 1)
    by (apply wrap_u_small; unfold u_max; lia).
  set (h := {| h_key := k; h_data := d; h_write := negb ro |}).
  rewrite Hst in Htry. pose proof (Hsm (on_key k false)) as Hrd. fold (readers a k) in Hrd.
  assert (Hgr : grantable a k ro = true /\
    st' = if negb ro then WriteLock else ReadLock (readers a k + 1)).
  { unfold grantable. destruct (writers a k =? 0); [|done]. cbn in Htry |- *.
    destruct ro; cbn.
    - rewrite wrap_u64_small in Htry by lia. by simplify_eq.
    - destruct (readers a k =? 0); cbn in Htry; by simplify_eq. }
  destruct Hgr as [Hgr ->]. split; [done|].
  unfold grantable in Hgr. apply andb_true_iff in Hgr as [Hw0 Hr0]. zbool.
  assert (HR : forall k', readers (im_insert (next_lock_id s) h a) k' =
    readers a k' + (if bool_decide (k = k') && ro then 1 else 0)).
  { intros k'. unfold readers. rewrite holders_insert by done. unfold on_key. cbn.
    by destruct ro. }
  assert (HW : forall k', writers (im_insert (next_lock_id s) h a) k' =
    writers a k' + (if bool_decide (k = k') && negb ro then 1 else 0)).
  { intros k'. unfold writers. rewrite holders_insert by done. unfold on_key. cbn.
    by destruct ro. }
  constructor; cbn [locks substate_lock_states node_num_locked next_lock_id].
  - rewrite Hl. change (k, d) with (h_entry h). apply im_insert_map.
  - by apply im_ok_insert.
  - lia.
  - intros i. rewrite im_keys_insert. rewrite (proj2 (im_get_None _ _)) by done.
    intros [Hin|Hin]%elem_of_app; [specialize (Hf _ Hin); lia|].
    apply list_elem_of_singleton in Hin. lia.
  - intros k'. rewrite HR, HW. case_bool_decide; subst; cbn; [|rewrite !Z.add_0_r; apply Hex].
    destruct ro; cbn in *; zbool; lia.
  - intros k'. rewrite HR, HW. case_bool_decide; subst.
    + rewrite lookup_insert_eq. cbn. rewrite Hw0. by destruct ro.
    + rewrite lookup_insert_ne by done. cbn. rewrite !Z.add_0_r. apply Hst.
  - intros k'. rewrite HR, HW. case_bool_decide; subst.
    + rewrite lookup_insert_eq. done.
    + rewrite lookup_insert_ne by done. cbn. rewrite !Z.add_0_r. apply Hpr.
  - intros n. rewrite holders_insert by done. unfold on_node at 2. cbn. case_bool_decide; subst.
    + rewrite lookup_insert_eq. cbn. rewrite Hnd. apply wrap_u64_small. specialize (Hsm (on_node k.1.1)). lia.
    + rewrite lookup_insert_ne by done. rewrite Z.add_0_r. apply Hnd.
Qed.

Lemma lock_implements s a k ro d :
  Implements s a -> next_lock_id s + 1 < 2 ^ 32 ->
  match lock s k ro d with
  | (Some i, s') => i = next_lock_id s /\
      exists a', spec_lock a k ro d i = Some a' /\ Implements s' a'
  | (None, s') => grantable a k ro = false /\ Implements s' a
  end.
Proof.
  intros Hi Hnext. unfold lock, new_lock_handle. cbn.
  destruct (try_lock _ ro) as [st'|] eqn:Htry.
  - destruct (grant_implements s a k ro d st' Hi Hnext Htry) as [Hgr Hi'].
    split; [done|]. unfold spec_lock. rewrite Hgr. eauto.
  - destruct Hi as [Hl Hok Hn Hf Hex Hst Hpr Hnd]. split.
    + rewrite Hst in Htry. unfold grantable. destruct (writers a k =? 0); [|done]. cbn in *.
      destruct ro; [done|]. cbn in *. by destruct (readers a k =? 0).
    + constructor; cbn; try done.
      * intros k'. destruct (decide (k = k')) as [<-|]; [|by rewrite lookup_insert_ne].
        rewrite lookup_insert_eq. apply Hst.
      * intros k'. destruct (decide (k = k')) as [<-|]; [|rewrite lookup_insert_ne by done; apply Hpr].
        by rewrite lookup_insert_eq.
Qed.

Lemma unlock_implements s a i :
  Implements s a ->
  match unlock s i with
  | Done (e, s') => exists h a', spec_unlock a i = Some (h, a') /\ e = h_entry h /\ Implements s' a'
  | Panicked => spec_unlock a i = None
  end.
Proof.
  intros Hi. pose proof (fun p => holders_small s a p Hi) as Hsm.
  destruct Hi as [Hl Hok Hn Hf Hex Hst Hpr Hnd].
  unfold unlock, spec_unlock. rewrite Hl, im_swap_remove_map.
  destruct (im_swap_remove i a) as [[h|] a'] eqn:E; cbn; [|done].
  assert (HN : forall n, holders (on_node n) a =
    holders (on_node n) a' + (if bool_decide ((h_key h).1.1 = n) then 1 else 0)).
  { intros n. by rewrite (holders_remove _ _ _ _ _ Hok E). }
  assert (HR : forall k, readers a k =
    readers a' k + (if bool_decide (h_key h = k) && negb (h_write h) then 1 else 0)).
  { intros k. unfold readers. rewrite (holders_remove _ _ _ _ _ Hok E). unfold on_key.
    by destruct (h_write h). }
  assert (HW : forall k, writers a k =
    writers a' k + (if bool_decide (h_key h = k) && h_write h then 1 else 0)).
  { intros k. unfold writers. rewrite (holders_remove _ _ _ _ _ Hok E). unfold on_key.
    by destruct (h_write h). }
  assert (HR0 : forall k, 0 <= readers a' k) by (intros; apply holders_nonneg).
  assert (HW0 : forall k, 0 <= writers a' k) by (intros; apply holders_nonneg).
  destruct (Hpr (h_key h)) as [st Hs].
  { rewrite HR, HW, bool_decide_true by done. specialize (HR0 (h_key h)).
    specialize (HW0 (h_key h)). destruct (h_write h); cbn; lia. }
  rewrite Hs. exists h, a'. split; [done|]. split; [done|].
  pose proof (Hst (h_key h)) as Hsth. rewrite Hs in Hsth. cbn in Hsth.
  constructor; cbn [locks substate_lock_states node_num_locked next_lock_id].
  - done.
  - replace a' with (im_swap_remove i a).2 by (by rewrite E). by apply im_ok_swap_remove.
  - done.
  - intros j Hj. apply Hf. apply im_swap_remove_perm in E as [_ Hp]; [|done].
    unfold im_keys in *. rewrite Hp in Hj. apply list_elem_of_fmap in Hj as (e & -> & He).
    apply list_elem_of_filter in He as [_ He]. by apply list_elem_of_fmap_2.
  - intros k. specialize (Hex k). rewrite HR, HW in Hex. specialize (HR0 k). specialize (HW0 k).
    destruct (bool_decide _), (h_write h); cbn in Hex; lia.
  - intros k. specialize (Hex k). rewrite HR, HW in Hex. specialize (HR0 k). specialize (HW0 k).
    destruct (decide (h_key h = k)) as [<-|Hne].
    + rewrite lookup_insert_eq. cbn [default id]. rewrite HR, HW in Hsth. rewrite bool_decide_true in * by done.
      specialize (Hsm (on_key (h_key h) false)). fold (readers a (h_key h)) in Hsm.
      rewrite HR, bool_decide_true in Hsm by done.
      destruct (h_write h); cbn in Hsth, Hex, Hsm; subst st.
      * rewrite (proj2 (Z.eqb_neq _ _)) by lia. assert (writers a' (h_key h) = 0) as -> by lia.
        assert (readers a' (h_key h) = 0) as -> by lia. done.
      * assert (writers a' (h_key h) = 0) as -> by lia. 
        change (ReadLock (wrap_u 64 (readers a' (h_key h) + 1 - 1)) =
                ReadLock (readers a' (h_key h))).
        rewrite wrap_u64_small by lia. f_equal. lia.
    + rewrite lookup_insert_ne by done. rewrite Hst, HR, HW.
      rewrite bool_decide_false by done. cbn. by rewrite !Z.add_0_r.
  - intros k Hk. destruct (decide (h_key h = k)) as [<-|Hne].
    + by rewrite lookup_insert_eq.
    + rewrite lookup_insert_ne by done. apply Hpr. rewrite HR, HW, bool_decide_false by done.
      cbn. lia.
  - intros n. pose proof (holders_nonneg (on_node n) a').
    destruct (decide ((h_key h).1.1 = n)) as [<-|Hne].
    + rewrite lookup_insert_eq. cbn [default id]. specialize (Hsm (on_node (h_key h).1.1)).
      rewrite Hnd. rewrite HN, bool_decide_true in Hsm |- * by done.
      rewrite wrap_u64_small by lia. lia.
    + rewrite lookup_insert_ne, Hnd, HN by done. rewrite bool_decide_false by done. lia.
Qed.

End Proofs.
End LockRefinement.

(** ** Runs and theorems *)
Module LockTheorems.
Import LockRefinement.
Section Runs.
Context {D : Type}.

Inductive LockOp : Type :=
| DoLock (key : FullKey) (read_only : bool) (data : D)
| DoUnlock (handle : Z).

(** What the caller sees of a call. *)
Inductive LockOutput : Type :=
| Locked (handle : option Z)
| Unlocked (entry : FullKey * D).

Fixpoint run_locks (s : SubstateLocks D) (ops : list LockOp) :
    Exec (list LockOutput * SubstateLocks D) :=
  match ops with
  | [] => Done ([], s)
  | DoLock k ro d :: ops' =>
      let '(o, s') := lock s k ro d in
      x ← run_locks s' ops'; Done (Locked o :: x.1, x.2)
  | DoUnlock i :: ops' =>
      y ← unlock s i; x ← run_locks y.2 ops'; Done (Unlocked y.1 :: x.1, x.2)
  end.

(** The specification numbers the locks it grants. *)
Fixpoint run_spec (a : IndexMap Z (Held D)) (next : Z) (ops : list LockOp) :
    Exec (list LockOutput * IndexMap Z (Held D)) :=
  match ops with
  | [] => Done ([], a)
  | DoLock k ro d :: ops' =>
      match spec_lock a k ro d next with
      | Some a' => x ← run_spec a' (next + 1) ops'; Done (Locked (Some next) :: x.1, x.2)
      | None => x ← run_spec a next ops'; Done (Locked None :: x.1, x.2)
      end
  | DoUnlock i :: ops' =>
      match spec_unlock a i with
      | Some (h, a') => x ← run_spec a' next ops'; Done (Unlocked (h_entry h) :: x.1, x.2)
      | None => Panicked
      end
  end.

Lemma run_refines s a ops :
  Implements s a -> next_lock_id s + Z.of_nat (length ops) < 2 ^ 32 ->
  match run_locks s ops, run_spec a (next_lock_id s) ops with
  | Done (out, s'), Done (out', a') => out = out' /\ Implements s' a'
  | Panicked, Panicked => True
  | _, _ => False
  end.
Proof.
  revert s a. induction ops as [|[k ro d|i] ops IH]; intros s a Hi Hn; [done|..];
    cbn [run_locks run_spec length] in *.
  - pose proof (lock_implements s a k ro d Hi ltac:(lia)) as H.
    assert (Hnext : next_lock_id (lock s k ro d).2 =
      if (lock s k ro d).1 is Some _ then next_lock_id s + 1 else next_lock_id s).
    { unfold lock, new_lock_handle. destruct (try_lock _ _); cbn; [|done].
      apply wrap_u_small. pose proof (im_next _ _ Hi). unfold u_max. lia. }
    destruct (lock s k ro d) as [[i|] s'] eqn:E; cbn in Hnext.
    + destruct H as (-> & a' & Hs & Hi'). rewrite Hs, <- Hnext.
      specialize (IH s' a' Hi' ltac:(lia)).
      destruct (run_locks s' ops) as [[o1 s1]|], (run_spec a' _ ops) as [[o2 a2]|]; try done.
      by destruct IH as [-> ?].
    + destruct H as [Hs Hi']. unfold spec_lock. rewrite Hs, <- Hnext.
      specialize (IH s' a Hi' ltac:(lia)).
      destruct (run_locks s' ops) as [[o1 s1]|], (run_spec a _ ops) as [[o2 a2]|]; try done.
      by destruct IH as [-> ?].
  - pose proof (unlock_implements s a i Hi) as H.
    assert (Hnext : forall e s', unlock s i = Done (e, s') -> next_lock_id s' = next_lock_id s).
    { unfold unlock. intros e s'. destruct (im_swap_remove _ _) as [[[? ?]|] ?]; [|done].
      destruct (_ !! _); [|done]. by intros [= _ <-]. }
    destruct (unlock s i) as [[e s']|]; [|by rewrite H].
    destruct H as (h & a' & -> & -> & Hi'). specialize (Hnext _ _ eq_refl). cbn.
    rewrite <- Hnext. specialize (IH s' a' Hi' ltac:(lia)).
    destruct (run_locks s' ops) as [[o1 s1]|], (run_spec a' _ ops) as [[o2 a2]|]; try done.
    by destruct IH as [-> ?].
Qed.

Lemma is_locked_spec (s : SubstateLocks D) a k :
  Implements s a -> is_locked s k = (0 <? readers a k + writers a k).
Proof.
  intros Hi. pose proof (im_exclusive _ _ Hi k) as Hex. pose proof (im_states _ _ Hi k) as Hst.
  pose proof (holders_nonneg (on_key k false) a) as Hr. fold (readers a k) in Hr.
  unfold is_locked. destruct (substate_lock_states s !! k) as [st|] eqn:E; cbn in Hst.
  - subst st. destruct Hex as [Hw|[Hw Hr0]].
    + rewrite Hw. cbn. rewrite Z.add_0_r. by destruct (readers a k).
    + by rewrite Hw, Hr0.
  - pose proof (im_present _ _ Hi k) as Hp. rewrite E in Hp. symmetry. apply Z.ltb_ge.
    destruct (decide (0 < writers a k + readers a k)) as [Hlt|]; [|lia].
    by destruct (Hp Hlt).
Qed.

End Runs.
Arguments LockOp D : clear implicits.

(** C19. The lock table refines the reader/writer specification: over every
    sequence of lock and unlock calls shorter than the range of handles, the
    table grants, refuses, answers and panics exactly as the specification
    does, and what it then reports locked is exactly what some outstanding
    handle holds, at most one writer and no reader beside it. *)
Theorem locks_refine_spec {D} (ops : list (LockOp D)) :
  Z.of_nat (length ops) < 2 ^ 32 ->
  match run_locks locks_new ops, run_spec [] 0 ops with
  | Done (out, s), Done (out', a) =>
      out = out' /\
      forall k, is_locked s k = (0 <? readers a k + writers a k) /\
        (writers a k = 0 \/ (writers a k = 1 /\ readers a k = 0)) /\
        node_is_locked s k.1.1 = (0 <? holders (on_node k.1.1) a)
  | Panicked, Panicked => True
  | _, _ => False
  end.
Proof.
  intros Hn. pose proof (run_refines locks_new [] ops new_implements ltac:(cbn; lia)) as H.
  cbn [next_lock_id locks_new] in H.
  destruct (run_locks locks_new ops) as [[o s]|], (run_spec [] 0 ops) as [[o' a]|]; try done.
  destruct H as [-> Hi]. split; [done|]. intros k. split; [by apply is_locked_spec|].
  split; [apply Hi|]. rewrite <- (im_nodes _ _ Hi). unfold node_is_locked.
  by destruct (node_num_locked s !! k.1.1).
Qed.

Lemma locks_refine_spec_witness :
  let k := (7%N, 64, FieldKey 0) in
  exists s, run_locks locks_new
      [DoLock k true 1; DoLock k true 2; DoLock k false 3; DoUnlock 0; DoUnlock 1; DoLock k false 4]
    = Done ([Locked (Some 0); Locked (Some 1); Locked None; Unlocked (k, 1); Unlocked (k, 2);
             Locked (Some 2)], s) /\ is_locked s k = true.
Proof.
  intros k. pose proof (locks_refine_spec
    [DoLock k true 1; DoLock k true 2; DoLock k false 3; DoUnlock 0; DoUnlock 1; DoLock k false 4])
    as H. specialize (H ltac:(cbn; lia)).
  eexists. split; [vm_compute; reflexivity|].
  revert H. vm_compute. intros [_ H]. exact (proj1 (H (7%N, 64, FieldKey 0))).
Defined.

End LockTheorems.
