(* ===== verification/FungibleResource.v ===== *)
(** * Fungible resources

    The native blueprints of one fungible resource: its resource manager, its
    vaults, buckets and proofs (radix-engine/src/blueprints/resource/fungible/
    and the *_common.rs files beside it).  The state is the set of objects of
    the resource: containers (vaults and buckets), proofs, and the manager's
    total supply.  Object ids come from the kernel's id allocator, which never
    hands out the same id twice: a counter.  A method that returns [Err] fails
    the transaction and its writes are reverted, so the histories of interest
    are those of successful calls.  Authorization of the calls is not part of
    this model. *)

From S2P Require Import Prelude Decimals IndexMap Resource.
Import Int Rounding Dec DecSpec LiquidFungible LockedFungible.

(** ** Data *)

Inductive LocalRef : Type :=
| LBucket (id : NodeId)
| LVault (id : NodeId).

#[export] Instance LocalRef_eq_dec : EqDecision LocalRef.
Proof. solve_decision. Defined.
#[export] Instance LocalRef_countable : Countable LocalRef.
Proof.
  refine (inj_countable'
    (fun r => match r with LBucket i => inl i | LVault i => inr i end)
    (fun x => match x with inl i => LBucket i | inr i => LVault i end) _).
  by intros [].
Defined.

(** A vault or a bucket; only vaults have a freeze status. *)
Record Container : Type := {
  c_liquid : Decimal;
  c_locked : IndexMap Decimal Z;
  c_frozen : Z
}.

Record FungibleProof : Type := {
  restricted : bool;
  total_locked : Decimal;
  evidence : IndexMap LocalRef Decimal
}.

Record FungibleResourceManagerFeatureSet : Type := {
  f_track_total_supply : bool;
  f_vault_freeze : bool;
  f_vault_recall : bool;
  f_mint : bool;
  f_burn : bool
}.

Inductive ResourceEvent : Type :=
| WithdrawEvent (vault : NodeId) (amount : Decimal)
| DepositEvent (vault : NodeId) (amount : Decimal)
| RecallEvent (vault : NodeId) (amount : Decimal)
| MintFungibleResourceEvent (amount : Decimal)
| BurnFungibleResourceEvent (amount : Decimal)
| VaultCreationEvent (vault : NodeId).

Record World : Type := {
  divisibility : Z;
  features : FungibleResourceManagerFeatureSet;
  is_rork : bool;
  total_supply : Decimal;
  containers : gmap LocalRef Container;
  proofs : gmap NodeId FungibleProof;
  fees_locked : list (NodeId * Decimal * bool);
  next_node : NodeId;
  events : list ResourceEvent
}.

Inductive ProofError : Type := EmptyProofNotAllowed.

Inductive VaultError : Type :=
| VResourceError (e : ResourceError Empty_set)
| VProofError (e : ProofError)
| VInvalidAmount (amount : Decimal)
| NotFreezable
| NotRecallable
| VaultIsFrozen
| LockFeeNotRadixToken
| LockFeeInsufficientBalance (requested actual : Decimal)
| VDecimalOverflow.

Inductive BucketError : Type :=
| BResourceError (e : ResourceError Empty_set)
| BProofError (e : ProofError)
| BLocked (bucket : NodeId)
| BInvalidAmount (amount : Decimal)
| BDecimalOverflow.

Inductive FungibleResourceManagerError : Type :=
| MInvalidAmount (amount : Decimal) (divisibility : Z)
| MaxMintAmountExceeded
| InvalidDivisibility (divisibility : Z)
| DropNonEmptyBucket
| NotMintable
| NotBurnable
| UnexpectedDecimalComputationError.

Inductive ResError : Type :=
| VaultErr (e : VaultError)
| BucketErr (e : BucketError)
| ManagerErr (e : FungibleResourceManagerError)
| MovingRestrictedProof
| NodeNotFound.

(** The two containers report the same failures with their own error types. *)
Definition resource_err (r : LocalRef) (e : ResourceError Empty_set) : ResError :=
  match r with LBucket _ => BucketErr (BResourceError e) | LVault _ => VaultErr (VResourceError e) end.
Definition overflow_err (r : LocalRef) : ResError :=
  match r with LBucket _ => BucketErr BDecimalOverflow | LVault _ => VaultErr VDecimalOverflow end.
Definition invalid_amount_err (r : LocalRef) (a : Decimal) : ResError :=
  match r with LBucket _ => BucketErr (BInvalidAmount a) | LVault _ => VaultErr (VInvalidAmount a) end.
Definition proof_err (r : LocalRef) (e : ProofError) : ResError :=
  match r with LBucket _ => BucketErr (BProofError e) | LVault _ => VaultErr (VProofError e) end.

(** ** State updates *)
Section Updates.
Context (w : World).

Definition with_objects (cs : gmap LocalRef Container) (ps : gmap NodeId FungibleProof)
    (next : NodeId) : World := {|
  divisibility := divisibility w; features := features w; is_rork := is_rork w;
  total_supply := total_supply w; containers := cs; proofs := ps;
  fees_locked := fees_locked w; next_node := next; events := events w |}.

Definition set_container (r : LocalRef) (c : Container) : World :=
  with_objects (<[r := c]> (containers w)) (proofs w) (next_node w).
Definition del_container (r : LocalRef) : World :=
  with_objects (delete r (containers w)) (proofs w) (next_node w).
Definition new_container (r : NodeId -> LocalRef) (c : Container) : World :=
  with_objects (<[r (next_node w) := c]> (containers w)) (proofs w) (N.succ (next_node w)).
Definition new_proof (p : FungibleProof) : World :=
  with_objects (containers w) (<[next_node w := p]> (proofs w)) (N.succ (next_node w)).
Definition set_proof (id : NodeId) (p : FungibleProof) : World :=
  with_objects (containers w) (<[id := p]> (proofs w)) (next_node w).
Definition del_proof (id : NodeId) : World :=
  with_objects (containers w) (delete id (proofs w)) (next_node w).

Definition set_supply (s : Decimal) : World := {|
  divisibility := divisibility w; features := features w; is_rork := is_rork w;
  total_supply := s; containers := containers w; proofs := proofs w;
  fees_locked := fees_locked w; next_node := next_node w; events := events w |}.
Definition add_fee (f : NodeId * Decimal * bool) : World := {|
  divisibility := divisibility w; features := features w; is_rork := is_rork w;
  total_supply := total_supply w; containers := containers w; proofs := proofs w;
  fees_locked := fees_locked w ++ [f]; next_node := next_node w; events := events w |}.
Definition add_event (e : ResourceEvent) : World := {|
  divisibility := divisibility w; features := features w; is_rork := is_rork w;
  total_supply := total_supply w; containers := containers w; proofs := proofs w;
  fees_locked := fees_locked w; next_node := next_node w; events := events w ++ [e] |}.
End Updates.

Definition with_liquid (c : Container) (a : Decimal) : Container :=
  {| c_liquid := a; c_locked := c_locked c; c_frozen := c_frozen c |}.
Definition with_locked (c : Container) (l : IndexMap Decimal Z) : Container :=
  {| c_liquid := c_liquid c; c_locked := l; c_frozen := c_frozen c |}.
Definition with_frozen (c : Container) (f : Z) : Container :=
  {| c_liquid := c_liquid c; c_locked := c_locked c; c_frozen := f |}.

Abbreviation RM := (M World ResError) (only parsing).

Definition emit (e : ResourceEvent) : RM unit := modify (fun w => add_event w e).

(** Reading the fields of an object: the object must exist. *)
Definition read_container (r : LocalRef) : RM Container :=
  o ← gets (fun w => containers w !! r);
  match o with Some c => mret c | None => throw NodeNotFound end.

Definition write_container (r : LocalRef) (c : Container) : RM unit :=
  modify (fun w => set_container w r c).

(** ** Containers *)

Definition internal_take (r : LocalRef) (amount : Decimal) : RM Decimal :=
  c ← read_container r;
  match liquid_take_by_amount (c_liquid c) amount with
  | Err e => throw (resource_err r e)
  | Ok (rest, taken) => write_container r (with_liquid c rest);; mret taken
  end.

Definition internal_put (r : LocalRef) (resource : Decimal) : RM unit :=
  if liquid_is_empty resource then mret tt else
  c ← read_container r;
  b ← lift_exec (liquid_put (c_liquid c) resource);
  write_container r (with_liquid c b).

Definition get_amount (r : LocalRef) : RM Decimal :=
  c ← read_container r;
  lift_result (ok_or (checked_add (c_liquid c) (locked_amount (c_locked c))) (overflow_err r)).

Definition lock_amount (r : LocalRef) (amount : Decimal) : RM unit :=
  c ← read_container r;
  let locked := c_locked c in
  let max_locked := locked_amount locked in
  (if max_locked <? amount then
     delta ← lift_result (ok_or (checked_sub amount max_locked) (overflow_err r));
     internal_take r delta;; mret tt
   else mret tt);;
  c ← read_container r;
  write_container r (with_locked c (locked_inc amount locked)).

(** [swap_remove] the count, reinsert it decreased when other locks remain. *)
Definition locked_dec (amount : Decimal) (l : IndexMap Decimal Z) :
    option (IndexMap Decimal Z) :=
  match im_swap_remove amount l with
  | (None, _) => None
  | (Some cnt, l') => Some (if 1 <? cnt then im_insert amount (cnt - 1) l' else l')
  end.

Definition unlock_amount (r : LocalRef) (amount : Decimal) : RM unit :=
  c ← read_container r;
  let max_locked := locked_amount (c_locked c) in
  locked ← lift_exec (expect (locked_dec amount (c_locked c)));
  write_container r (with_locked c locked);;
  delta ← lift_result (ok_or (checked_sub max_locked (locked_amount locked)) (overflow_err r));
  internal_put r delta.

Definition create_bucket (amount : Decimal) : RM NodeId :=
  id ← gets next_node;
  modify (fun w => new_container w LBucket
    {| c_liquid := liquid_new amount; c_locked := locked_default; c_frozen := 0 |});;
  mret id.

(** [drop_object] removes the node before the lock is checked. *)
Definition drop_fungible_bucket (bucket : NodeId) : RM Container :=
  c ← read_container (LBucket bucket);
  modify (fun w => del_container w (LBucket bucket));;
  if locked_is_locked (c_locked c) then throw (BucketErr (BLocked bucket)) else mret c.

Definition proof_new (total : Decimal) (ev : IndexMap LocalRef Decimal) :
    Result ProofError FungibleProof :=
  if is_zero total then Err EmptyProofNotAllowed
  else Ok {| restricted := false; total_locked := total; evidence := ev |}.

Definition create_proof_of_amount (r : LocalRef) (amount : Decimal) : RM NodeId :=
  d ← gets divisibility;
  guard_or (check_fungible_amount amount d) (invalid_amount_err r amount);;
  lock_amount r amount;;
  p ← lift_result (match proof_new amount [(r, amount)] with
                   | Ok p => Ok p | Err e => Err (proof_err r e) end);
  id ← gets next_node;
  modify (fun w => new_proof w p);;
  mret id.

Definition bucket_create_proof_of_all (bucket : NodeId) : RM NodeId :=
  a ← get_amount (LBucket bucket); create_proof_of_amount (LBucket bucket) a.

(** ** Vaults *)

Definition WITHDRAW : Z := 1.
Definition DEPOSIT : Z := 2.
Definition BURN : Z := 4.

Definition assert_not_frozen (vault : NodeId) (flags : Z) : RM unit :=
  f ← gets features;
  if negb (f_vault_freeze f) then mret tt else
  c ← read_container (LVault vault);
  guard_or (Z.land (c_frozen c) flags =? 0) (VaultErr VaultIsFrozen).

Definition assert_freezable : RM unit :=
  f ← gets features; guard_or (f_vault_freeze f) (VaultErr NotFreezable).

Definition assert_recallable : RM unit :=
  f ← gets features; guard_or (f_vault_recall f) (VaultErr NotRecallable).

Definition vault_take_advanced (vault : NodeId) (amount : Decimal) (s : WithdrawStrategy) :
    RM NodeId :=
  assert_not_frozen vault WITHDRAW;;
  d ← gets divisibility;
  o ← lift_exec (for_withdrawal amount d s);
  amount ← lift_result (ok_or o (VaultErr VDecimalOverflow));
  guard_or (check_fungible_amount amount d) (VaultErr (VInvalidAmount amount));;
  taken ← internal_take (LVault vault) amount;
  bucket ← create_bucket taken;
  emit (WithdrawEvent vault taken);;
  mret bucket.

Definition vault_take (vault : NodeId) (amount : Decimal) : RM NodeId :=
  vault_take_advanced vault amount Exact.

Definition vault_put (vault : NodeId) (bucket : NodeId) : RM unit :=
  assert_not_frozen vault DEPOSIT;;
  other_bucket ← drop_fungible_bucket bucket;
  internal_put (LVault vault) (c_liquid other_bucket);;
  emit (DepositEvent vault (c_liquid other_bucket)).

(** [start] is the answer of [start_lock_fee]: whether fees are metered. *)
Definition vault_lock_fee (start : bool) (vault : NodeId) (amount : Decimal) (contingent : bool) :
    RM unit :=
  assert_not_frozen vault WITHDRAW;;
  rork ← gets is_rork;
  guard_or rork (VaultErr LockFeeNotRadixToken);;
  d ← gets divisibility;
  guard_or (check_fungible_amount amount d) (VaultErr (VInvalidAmount amount));;
  if negb start then mret tt else
  c ← read_container (LVault vault);
  match liquid_take_by_amount (Id := Empty_set) (c_liquid c) amount with
  | Err (InsufficientBalance requested actual) =>
      throw (VaultErr (LockFeeInsufficientBalance requested actual))
  | Err e => throw (VaultErr (VResourceError e))
  | Ok (rest, fee) =>
      write_container (LVault vault) (with_liquid c rest);;
      modify (fun w => add_fee w (vault, fee, contingent))
  end.

Definition vault_recall (vault : NodeId) (amount : Decimal) : RM NodeId :=
  assert_recallable;;
  d ← gets divisibility;
  guard_or (check_fungible_amount amount d) (VaultErr (VInvalidAmount amount));;
  taken ← internal_take (LVault vault) amount;
  bucket ← create_bucket taken;
  emit (RecallEvent vault amount);;
  mret bucket.

Definition vault_freeze (vault : NodeId) (to_freeze : Z) : RM unit :=
  assert_freezable;;
  c ← read_container (LVault vault);
  write_container (LVault vault) (with_frozen c (Z.lor (c_frozen c) to_freeze)).

Definition vault_unfreeze (vault : NodeId) (to_unfreeze : Z) : RM unit :=
  assert_freezable;;
  c ← read_container (LVault vault);
  write_container (LVault vault) (with_frozen c (Z.land (c_frozen c) (Z.lnot to_unfreeze))).

(** ** Buckets *)

Definition bucket_take_advanced (bucket : NodeId) (amount : Decimal) (s : WithdrawStrategy) :
    RM NodeId :=
  d ← gets divisibility;
  o ← lift_exec (for_withdrawal amount d s);
  amount ← lift_result (ok_or o (BucketErr BDecimalOverflow));
  guard_or (check_fungible_amount amount d) (BucketErr (BInvalidAmount amount));;
  taken ← internal_take (LBucket bucket) amount;
  create_bucket taken.

Definition bucket_take (bucket : NodeId) (amount : Decimal) : RM NodeId :=
  bucket_take_advanced bucket amount Exact.

Definition bucket_put (bucket other : NodeId) : RM unit :=
  other_bucket ← drop_fungible_bucket other;
  c ← read_container (LBucket bucket);
  b ← lift_exec (liquid_put (c_liquid c) (c_liquid other_bucket));
  write_container (LBucket bucket) (with_liquid c b).

(** ** Proofs *)

Definition read_proof (id : NodeId) : RM FungibleProof :=
  o ← gets (fun w => proofs w !! id);
  match o with Some p => mret p | None => throw NodeNotFound end.

Fixpoint lock_evidence (l : list (LocalRef * Decimal)) : RM unit :=
  match l with
  | [] => mret tt
  | (container, locked) :: l' => lock_amount container locked;; lock_evidence l'
  end.

Fixpoint teardown (l : list (LocalRef * Decimal)) : RM unit :=
  match l with
  | [] => mret tt
  | (container, locked) :: l' => unlock_amount container locked;; teardown l'
  end.

Definition clone_proof (id : NodeId) : RM NodeId :=
  p ← read_proof id;
  lock_evidence (evidence p);;
  new_id ← gets next_node;
  modify (fun w => new_proof w
    {| restricted := restricted p; total_locked := total_locked p; evidence := evidence p |});;
  mret new_id.

(** [drop] drops the object, which runs [on_drop]. *)
Definition drop_proof (id : NodeId) : RM unit :=
  p ← read_proof id;
  teardown (evidence p);;
  modify (fun w => del_proof w id).

Inductive Destination : Type := ToProofBlueprint | ToAuthZone | ToOther.

Definition proof_on_move (is_moving_down is_to_barrier : bool) (dest : Destination) (id : NodeId) :
    RM unit :=
  if is_moving_down then
    let is_to_self := match dest with ToProofBlueprint => true | _ => false end in
    let is_to_auth_zone := match dest with ToAuthZone => true | _ => false end in
    if negb is_to_self && (is_to_barrier || is_to_auth_zone) then
      p ← read_proof id;
      guard_or (negb (restricted p)) MovingRestrictedProof;;
      modify (fun w => set_proof w id
        {| restricted := if is_to_barrier then true else restricted p;
           total_locked := total_locked p; evidence := evidence p |})
    else mret tt
  else mret tt.

(** ** The resource manager *)

Definition MAX_MINT_AMOUNT : Decimal := 2 ^ 152.

Definition verify_divisibility (d : Z) : Result ResError unit :=
  if 18 <? d then Err (ManagerErr (InvalidDivisibility d)) else Ok tt.

Definition check_mint_amount (d : Z) (amount : Decimal) : Result ResError unit :=
  if negb (check_fungible_amount amount d) then Err (ManagerErr (MInvalidAmount amount d)) else
  if MAX_MINT_AMOUNT <? amount then Err (ManagerErr MaxMintAmountExceeded) else Ok tt.

(** A new resource, without and with an initial bucket. *)
Definition create (d : Z) (f : FungibleResourceManagerFeatureSet) (rork : bool) :
    Result ResError World :=
  _ ← verify_divisibility d;
  Ok {| divisibility := d; features := f; is_rork := rork; total_supply := ZERO;
        containers := ∅; proofs := ∅; fees_locked := []; next_node := 0; events := [] |}.

Definition create_with_initial_supply (d : Z) (f : FungibleResourceManagerFeatureSet)
    (rork : bool) (initial_supply : Decimal) : Result ResError (NodeId * World) :=
  _ ← verify_divisibility d;
  _ ← check_mint_amount d initial_supply;
  Ok (0%N,
      {| divisibility := d; features := f; is_rork := rork; total_supply := initial_supply;
         containers := {[ LBucket 0 :=
           {| c_liquid := liquid_new initial_supply; c_locked := locked_default; c_frozen := 0 |} ]};
         proofs := ∅; fees_locked := []; next_node := 1;
         events := [MintFungibleResourceEvent initial_supply] |}).

Definition mint (amount : Decimal) : RM NodeId :=
  f ← gets features;
  guard_or (f_mint f) (ManagerErr NotMintable);;
  d ← gets divisibility;
  lift_result (check_mint_amount d amount);;
  bucket ← create_bucket amount;
  emit (MintFungibleResourceEvent amount);;
  (if f_track_total_supply f then
     supply ← gets total_supply;
     supply' ← lift_result (ok_or (checked_add supply amount)
                              (ManagerErr UnexpectedDecimalComputationError));
     modify (fun w => set_supply w supply')
   else mret tt);;
  mret bucket.

Definition burn_internal (bucket : NodeId) : RM unit :=
  f ← gets features;
  guard_or (f_burn f) (ManagerErr NotBurnable);;
  other_bucket ← drop_fungible_bucket bucket;
  emit (BurnFungibleResourceEvent (c_liquid other_bucket));;
  if f_track_total_supply f then
    supply ← gets total_supply;
    supply' ← lift_result (ok_or (checked_sub supply (c_liquid other_bucket))
                             (ManagerErr UnexpectedDecimalComputationError));
    modify (fun w => set_supply w supply')
  else mret tt.

Definition vault_burn (vault : NodeId) (amount : Decimal) : RM unit :=
  assert_not_frozen vault BURN;;
  bucket ← vault_take vault amount;
  burn_internal bucket.

Definition drop_empty_bucket (bucket : NodeId) : RM unit :=
  other_bucket ← drop_fungible_bucket bucket;
  guard_or (is_zero (c_liquid other_bucket)) (ManagerErr DropNonEmptyBucket).

Definition create_empty_bucket : RM NodeId := create_bucket 0.

Definition create_empty_vault : RM NodeId :=
  id ← gets next_node;
  modify (fun w => new_container w LVault
    {| c_liquid := liquid_new 0; c_locked := locked_default; c_frozen := 0 |});;
  emit (VaultCreationEvent id);;
  mret id.

Definition get_total_supply (w : World) : option Decimal :=
  if f_track_total_supply (features w) then Some (total_supply w) else None.

(** ** Invariant *)
Module FungibleInvariant.

(** The smallest unit of the resource, in attos. *)
Definition granule (w : World) : Z := 10 ^ (18 - divisibility w).

Definition value (c : Container) : Z := c_liquid c + locked_amount (c_locked c).

Definition fees_total (w : World) : Z := foldr (fun f acc => f.1.2 + acc) 0 (fees_locked w).

(** All there is of the resource: in containers, or handed over as fees. *)
Definition circulating (w : World) : Z := msum value (containers w) + fees_total w.

Definition cont_ok (G : Z) (c : Container) : Prop :=
  0 <= c_liquid c /\ (G | c_liquid c) /\ im_ok (c_locked c) /\
  forall a n, im_get a (c_locked c) = Some n -> 0 < a /\ (G | a) /\ 0 < n.

Definition lock_count (c : Container) (a : Decimal) : Z := default 0 (im_get a (c_locked c)).

(** How many proofs rest on amount [a] of container [r]. *)
Definition proof_count (ps : gmap NodeId FungibleProof) (r : LocalRef) (a : Decimal) : Z :=
  msum (fun p => if decide (im_get r (evidence p) = Some a) then 1 else 0) ps.

(** Locks taken and not yet attached to a proof, or still to be released. *)
Definition occ (L : list (LocalRef * Decimal)) (r : LocalRef) (a : Decimal) : Z :=
  foldr (fun e acc => (if decide (e = (r, a)) then 1 else 0) + acc) 0 L.

Definition proof_ok (G : Z) (p : FungibleProof) : Prop :=
  0 < total_locked p /\ im_ok (evidence p) /\
  forall r a, im_get r (evidence p) = Some a -> 0 < a /\ (G | a).

Definition ref_id (r : LocalRef) : NodeId := match r with LBucket i | LVault i => i end.

(** The lock counts of the containers are those of the proofs [ps] and of the
    pending locks [L]. *)
Record InvL (ps : gmap NodeId FungibleProof) (L : list (LocalRef * Decimal)) (w : World) :
    Prop := {
  il_div : 0 <= divisibility w <= 18;
  il_cont : forall r c, containers w !! r = Some c -> cont_ok (granule w) c;
  il_count : forall r c a, containers w !! r = Some c ->
    lock_count c a = proof_count ps r a + occ L r a;
  il_refs : forall r a, 0 < proof_count ps r a + occ L r a -> is_Some (containers w !! r);
  il_proofs : forall id p, ps !! id = Some p -> proof_ok (granule w) p;
  il_fresh_c : forall r, is_Some (containers w !! r) -> (ref_id r < next_node w)%N;
  il_fresh_p : forall id, is_Some (ps !! id) -> (id < next_node w)%N;
  il_fees : forall f, f ∈ fees_locked w -> 0 <= f.1.2
}.

Record Inv (w : World) : Prop := {
  inv_l : InvL (proofs w) [] w;
  inv_supply : f_track_total_supply (features w) = true -> total_supply w = circulating w;
  inv_bounded : circulating w <= MAX
}.

(** *** Counting *)

Lemma occ_nonneg L r a : 0 <= occ L r a.
Proof. unfold occ. induction L as [|e L IH]; cbn; [lia|]. destruct (decide _); lia. Qed.

Lemma occ_le L r a : occ L r a <= Z.of_nat (length L).
Proof. unfold occ. induction L as [|e L IH]; cbn -[Z.of_nat]; [done|]. destruct (decide _); lia. Qed.

Lemma occ_app L L' r a : occ (L ++ L') r a = occ L r a + occ L' r a.
Proof. unfold occ. induction L as [|e L IH]; cbn; [done|]. rewrite IH. lia. Qed.

Lemma occ_cons e L r a : occ (e :: L) r a = (if decide (e = (r, a)) then 1 else 0) + occ L r a.
Proof. done. Qed.

Lemma occ_notin (l : IndexMap LocalRef Decimal) r a : r ∉ im_keys l -> occ l r a = 0.
Proof.
  unfold im_keys, occ. induction l as [|[r' a'] l IH]; [done|]. rewrite fmap_cons.
  intros [Hne Hin]%not_elem_of_cons. cbn in *. rewrite decide_False by congruence.
  by rewrite IH.
Qed.

Lemma occ_evidence (l : IndexMap LocalRef Decimal) r a :
  im_ok l -> occ l r a = if decide (im_get r l = Some a) then 1 else 0.
Proof.
  unfold im_ok, im_keys. induction l as [|[r' a'] l IH]; [done|]. rewrite fmap_cons.
  intros [Hn Hnd]%NoDup_cons. rewrite occ_cons. cbn [im_get].
  destruct (decide (r = r')) as [->|Hne].
  - rewrite occ_notin by done. destruct (decide (a' = a)) as [->|].
    + rewrite !decide_True by done. lia.
    + rewrite !decide_False by congruence. lia.
  - rewrite decide_False by congruence. by rewrite IH.
Qed.

Lemma proof_count_bounds ps r a : 0 <= proof_count ps r a <= Z.of_nat (size ps).
Proof.
  unfold proof_count, msum. apply (map_fold_weak_ind
    (fun x (m : gmap NodeId FungibleProof) => 0 <= x <= Z.of_nat (size m))).
  - rewrite map_size_empty. lia.
  - intros id p m x Hid Hx. rewrite map_size_insert_None by done. destruct (decide _); lia.
Qed.

Lemma fees_total_nonneg w : (forall f, f ∈ fees_locked w -> 0 <= f.1.2) -> 0 <= fees_total w.
Proof.
  unfold fees_total. generalize (fees_locked w) as l.
  induction l as [|f l IH]; cbn; [lia|]. intros H.
  assert (0 <= f.1.2) by (apply H; left).
  assert (forall g, g ∈ l -> 0 <= g.1.2) as H' by (intros; apply H; by right).
  specialize (IH H'). lia.
Qed.

Lemma cont_value_nonneg G c : cont_ok G c -> 0 <= value c.
Proof. intros (? & _). unfold value. pose proof (locked_amount_nonneg (c_locked c)). lia. Qed.

Lemma value_bound ps L w r c :
  InvL ps L w -> containers w !! r = Some c ->
  0 <= c_liquid c /\ 0 <= locked_amount (c_locked c) /\
  c_liquid c + locked_amount (c_locked c) <= circulating w.
Proof.
  intros Hi Hc. destruct (il_cont _ _ _ Hi _ _ Hc) as (H0 & _).
  pose proof (locked_amount_nonneg (c_locked c)). split; [done|]. split; [done|].
  pose proof (fees_total_nonneg w (il_fees _ _ _ Hi)). unfold circulating.
  assert (value c <= msum value (containers w)) as Hle; [|unfold value in Hle at 1; lia].
  eapply msum_lookup_le; [|done]. intros r' c' Hc'.
  eapply cont_value_nonneg, (il_cont _ _ _ Hi); done.
Qed.

Lemma circulating_set w r c c' :
  containers w !! r = Some c ->
  circulating (set_container w r c') = circulating w - value c + value c'.
Proof.
  intros Hc. unfold circulating, fees_total. cbn. rewrite (msum_insert value _ _ _ _ Hc). lia.
Qed.

(** *** Changing one container *)

Lemma inv_set_container ps L L' w r c c' :
  InvL ps L w -> containers w !! r = Some c -> cont_ok (granule w) c' ->
  (forall a, lock_count c' a = lock_count c a + occ L' r a - occ L r a) ->
  (forall r' a, r' <> r -> occ L' r' a = occ L r' a) ->
  InvL ps L' (set_container w r c').
Proof.
  intros [Hd Hc Hcnt Hrf Hp Hfc Hfp Hfe] Hr Hok Hl Ho. constructor; try done; cbn.
  - intros r' c1. destruct (decide (r = r')) as [<-|].
    + rewrite lookup_insert_eq. by intros [= <-].
    + rewrite lookup_insert_ne by done. apply Hc.
  - intros r' c1 a. destruct (decide (r = r')) as [<-|].
    + rewrite lookup_insert_eq. intros [= <-]. rewrite Hl, (Hcnt _ _ a Hr). lia.
    + rewrite lookup_insert_ne by done. rewrite Ho by done. apply Hcnt.
  - intros r' a. destruct (decide (r = r')) as [<-|].
    + by rewrite lookup_insert_eq.
    + rewrite lookup_insert_ne by done. rewrite Ho by done. apply Hrf.
  - intros r'. destruct (decide (r = r')) as [<-|].
    + intros _. apply Hfc. by rewrite Hr.
    + rewrite lookup_insert_ne by done. apply Hfc.
Qed.

(** Same locks, other balance. *)
Lemma inv_set_liquid ps L w r c a :
  InvL ps L w -> containers w !! r = Some c -> 0 <= a -> (granule w | a) ->
  InvL ps L (set_container w r (with_liquid c a)).
Proof.
  intros Hi Hr Ha Hg. eapply inv_set_container; [done|done| |intros; cbn; unfold lock_count; cbn; lia|done].
  destruct (il_cont _ _ _ Hi _ _ Hr) as (_ & _ & ? & ?). done.
Qed.

Lemma granule_pos w : 0 <= divisibility w <= 18 -> 0 < granule w.
Proof. intros. unfold granule. apply Z.pow_pos_nonneg; lia. Qed.

Lemma check_amount_spec a d :
  0 <= d <= 18 -> check_fungible_amount a d = true -> 0 <= a /\ (10 ^ (18 - d) | a).
Proof.
  intros Hd. unfold check_fungible_amount, is_negative. intros H. zbool. split; [done|].
  apply Z.rem_divide; [|done]. pose proof (Z.pow_pos_nonneg 10 (18 - d)). lia.
Qed.

Definition lock_result (c : Container) (a : Decimal) : Container :=
  {| c_liquid := c_liquid c - Z.max 0 (a - locked_amount (c_locked c));
     c_locked := locked_inc a (c_locked c); c_frozen := c_frozen c |}.

Lemma locked_granular G c : cont_ok G c -> (G | locked_amount (c_locked c)).
Proof.
  intros (_ & _ & Hok & Hl). destruct (locked_amount_in (c_locked c)) as [->|Hin].
  - apply Z.divide_0_r.
  - apply list_elem_of_fmap in Hin as ([a n] & -> & Hin). cbn.
    apply (Hl a n). by apply im_elem_get.
Qed.

Lemma lock_result_ok G c a :
  cont_ok G c -> 0 < a -> (G | a) -> lock_count c a + 1 < 2 ^ 64 ->
  a - locked_amount (c_locked c) <= c_liquid c ->
  cont_ok G (lock_result c a) /\ value (lock_result c a) = value c /\
  forall b, lock_count (lock_result c a) b =
    lock_count c b + (if decide (a = b) then 1 else 0).
Proof.
  intros Hc Ha Hg Hcnt Hle. pose proof (locked_granular _ _ Hc) as Hgl.
  pose proof Hc as (H0 & Hgq & Hok & Hl).
  assert (0 <= lock_count c a) as Hc0.
  { unfold lock_count. destruct (im_get a _) eqn:E; cbn; [|lia]. apply Hl in E. lia. }
  assert (Hget : forall b, im_get b (locked_inc a (c_locked c)) =
    if decide (b = a) then Some (lock_count c a + 1) else im_get b (c_locked c)).
  { intros b. unfold locked_inc, im_update. rewrite im_get_insert. fold (lock_count c a).
    rewrite wrap_u_small; [done|]. unfold u_max. lia. }
  split; [|split].
  - split; [cbn; lia|]. split; [|split].
    + cbn. apply Z.divide_sub_r; [done|]. destruct (Z.max_spec 0 (a - locked_amount (c_locked c)))
        as [[_ ->]|[_ ->]]; [by apply Z.divide_sub_r|apply Z.divide_0_r].
    + cbn. by apply im_ok_insert.
    + cbn. intros b n. rewrite Hget. destruct (decide (b = a)) as [->|]; [|apply Hl].
      intros [= <-]. repeat split; [done|done|lia].
  - unfold value, lock_result. cbn [c_liquid c_locked]. rewrite locked_amount_inc by lia. lia.
  - intros b. unfold lock_count at 1. cbn. rewrite Hget.
    destruct (decide (b = a)) as [->|Hne].
    + rewrite decide_True by done. done.
    + rewrite decide_False by congruence. unfold lock_count. lia.
Qed.

Definition unlock_result (c : Container) (l : IndexMap Decimal Z) : Container :=
  {| c_liquid := c_liquid c + (locked_amount (c_locked c) - locked_amount l);
     c_locked := l; c_frozen := c_frozen c |}.

Lemma locked_dec_spec a l :
  im_ok l -> (forall b n, im_get b l = Some n -> 0 < n) -> 0 < default 0 (im_get a l) ->
  exists l', locked_dec a l = Some l' /\ im_ok l' /\
    forall b, im_get b l' =
      if decide (b = a) then
        if 1 <? default 0 (im_get a l) then Some (default 0 (im_get a l) - 1) else None
      else im_get b l.
Proof.
  intros Hok Hpos Hcnt. unfold locked_dec.
  pose proof (im_ok_swap_remove a l Hok) as Hok'.
  pose proof (fun b => im_get_swap_remove a b l Hok) as Hget.
  destruct (im_swap_remove a l) as [o l'] eqn:E. cbn in Hok', Hget.
  assert (o = im_get a l) as ->.
  { unfold im_swap_remove in E. destruct (im_get a l); by simplify_eq. }
  destruct (im_get a l) as [n|] eqn:En; cbn in Hcnt |- *; [|lia].
  destruct (1 <? n) eqn:E1; eexists; (split; [done|]).
  - split; [by apply im_ok_insert|]. intros b. rewrite im_get_insert, Hget.
    by destruct (decide (b = a)).
  - split; [done|]. done.
Qed.

Lemma locked_amount_mono l l' :
  im_ok l' -> (forall b, is_Some (im_get b l') -> is_Some (im_get b l)) ->
  locked_amount l' <= locked_amount l.
Proof.
  intros Hok Hsub. destruct (locked_amount_in l') as [->|Hin]; [apply locked_amount_nonneg|].
  apply locked_amount_ge. destruct (im_get (locked_amount l') l) as [n|] eqn:E.
  - apply im_get_elem in E. apply list_elem_of_fmap. by exists (locked_amount l', n).
  - destruct (im_get (locked_amount l') l') as [n|] eqn:E'.
    + destruct (Hsub (locked_amount l')) as [? ?]; [by rewrite E'|congruence].
    + by apply im_get_None in E'.
Qed.

Lemma unlock_result_ok G c a :
  cont_ok G c -> 0 < lock_count c a ->
  exists l, locked_dec a (c_locked c) = Some l /\
    locked_amount l <= locked_amount (c_locked c) /\
    cont_ok G (unlock_result c l) /\ value (unlock_result c l) = value c /\
    forall b, lock_count (unlock_result c l) b =
      lock_count c b - (if decide (a = b) then 1 else 0).
Proof.
  intros Hc Hcnt. pose proof Hc as (H0 & Hgq & Hok & Hl).
  destruct (locked_dec_spec a (c_locked c) Hok) as (l & Hd & Hok' & Hget).
  { intros b n Hb. by apply Hl in Hb as (_ & _ & ?). }
  { done. }
  fold (lock_count c a) in Hget. exists l. split; [done|].
  assert (Hle : locked_amount l <= locked_amount (c_locked c)).
  { apply locked_amount_mono; [done|]. intros b. rewrite Hget.
    destruct (decide (b = a)) as [->|]; [|done]. intros _. unfold lock_count in Hcnt.
    destruct (im_get a (c_locked c)); [done|cbn in Hcnt; lia]. }
  assert (Hlk : forall b n, im_get b l = Some n -> 0 < b /\ (G | b) /\ 0 < n).
  { intros b n. rewrite Hget. destruct (decide (b = a)) as [->|]; [|apply Hl].
    destruct (1 <? lock_count c a) eqn:E; [|done]. intros [= <-]. zbool.
    unfold lock_count in *. destruct (im_get a (c_locked c)) as [m|] eqn:Em; cbn in *; [|lia].
    apply Hl in Em as (? & ? & ?). repeat split; [done|done|lia]. }
  split; [done|]. split; [|split].
  - split; [cbn; lia|]. split; [|done]. cbn. apply Z.divide_add_r; [done|].
    apply Z.divide_sub_r; [by apply locked_granular|].
    apply (locked_granular G {| c_liquid := 0; c_locked := l; c_frozen := 0 |}).
    split; [cbn; lia|]. split; [apply Z.divide_0_r|done].
  - unfold value, unlock_result. cbn [c_liquid c_locked]. lia.
  - intros b. unfold lock_count at 1. cbn. rewrite Hget. destruct (decide (b = a)) as [->|Hne].
    + rewrite decide_True by done. destruct (1 <? lock_count c a) eqn:E; cbn; [done|zbool; lia].
    + rewrite decide_False by congruence. unfold lock_count. lia.
Qed.

(** *** Rules of the container operations

    Every rule gives the successful outcome; on an error nothing is promised
    (the transaction fails), and there is no panic. *)

(** What container operations leave alone. *)
Definition same (w w' : World) : Prop :=
  divisibility w' = divisibility w /\ features w' = features w /\ is_rork w' = is_rork w /\
  total_supply w' = total_supply w /\ proofs w' = proofs w /\
  fees_locked w' = fees_locked w /\ next_node w' = next_node w.

Lemma same_refl w : same w w.
Proof. done. Qed.

Lemma same_trans w1 w2 w3 : same w1 w2 -> same w2 w3 -> same w1 w3.
Proof. unfold same. intuition congruence. Qed.

Abbreviation safe m w Q := (wp m w Q (fun _ _ => True)) (only parsing).

Lemma safe_read_container r w (Q : Container -> World -> Prop) :
  (forall c, containers w !! r = Some c -> Q c w) -> safe (read_container r) w Q.
Proof.
  intros HQ. unfold read_container. wp_steps.
  destruct (containers w !! r) eqn:E; [apply wp_ret; auto|by apply wp_throw].
Qed.

Lemma safe_ok_or {A} (o : option A) (e : ResError) w (Q : A -> World -> Prop) :
  (forall a, o = Some a -> Q a w) -> safe (lift_result (ok_or o e)) w Q.
Proof. intros HQ. apply wp_lift_result; [|done]. destruct o; intros ? [= <-]. auto. Qed.

Lemma safe_guard b (e : ResError) w (Q : unit -> World -> Prop) :
  (b = true -> Q tt w) -> safe (guard_or b e) w Q.
Proof. intros. apply wp_guard_or; auto. Qed.

Lemma safe_internal_take ps L r a w (Q : Decimal -> World -> Prop) :
  InvL ps L w -> circulating w <= MAX -> 0 <= a -> (granule w | a) ->
  (forall c, containers w !! r = Some c -> a <= c_liquid c ->
     let w' := set_container w r (with_liquid c (c_liquid c - a)) in
     InvL ps L w' -> circulating w' = circulating w - a -> Q a w') ->
  safe (internal_take r a) w Q.
Proof.
  intros Hi Hb Ha Hg HQ. unfold internal_take. wp_step. apply safe_read_container. intros c Hc.
  pose proof (value_bound _ _ _ _ _ Hi Hc) as (? & ? & ?).
  rewrite liquid_take_spec by (try apply wf_range; rewrite ?MAX_val in *; lia).
  destruct (_ <? _) eqn:E; zbool; [by apply wp_throw|]. unfold write_container. wp_steps.
  apply HQ; [done|lia| |].
  - apply inv_set_liquid; [done|done|lia|]. apply Z.divide_sub_r; [|done].
    by destruct (il_cont _ _ _ Hi _ _ Hc) as (_ & ? & _).
  - rewrite (circulating_set _ _ _ _ Hc). unfold value, with_liquid. cbn [c_liquid c_locked]. lia.
Qed.

Lemma safe_internal_put ps L r a w (Q : unit -> World -> Prop) :
  InvL ps L w -> circulating w + a <= MAX -> 0 <= a -> (granule w | a) ->
  (forall w', InvL ps L w' -> circulating w' = circulating w + a -> same w w' ->
     (forall r', is_Some (containers w !! r') -> is_Some (containers w' !! r')) -> Q tt w') ->
  safe (internal_put r a) w Q.
Proof.
  intros Hi Hb Ha Hg HQ. unfold internal_put, liquid_is_empty, is_zero.
  destruct (a =? 0) eqn:E; zbool.
  { apply wp_ret. apply HQ; [done|lia|done|done]. }
  wp_step. apply safe_read_container. intros c Hc.
  pose proof (value_bound _ _ _ _ _ Hi Hc) as (? & ? & ?). wp_steps.
  eapply wp_lift_exec; [apply liquid_put_Done, wf_range; rewrite ?MAX_val in *; lia|].
  unfold write_container. wp_steps. apply HQ.
  - apply inv_set_liquid; [done|done|lia|]. apply Z.divide_add_r; [|done].
    by destruct (il_cont _ _ _ Hi _ _ Hc) as (_ & ? & _).
  - rewrite (circulating_set _ _ _ _ Hc). unfold value, with_liquid. cbn [c_liquid c_locked]. lia.
  - done.
  - intros r' Hr'. cbn. destruct (decide (r = r')) as [<-|]; [by rewrite lookup_insert_eq|].
    by rewrite lookup_insert_ne.
Qed.

Lemma with_locked_twice w r c a l :
  with_objects (set_container w r (with_liquid c a))
    (<[r := with_locked (with_liquid c a) l]> (<[r := with_liquid c a]> (containers w)))
    (proofs w) (next_node w) =
  set_container w r {| c_liquid := a; c_locked := l; c_frozen := c_frozen c |}.
Proof. unfold set_container, with_objects. cbn. by rewrite insert_insert_eq. Qed.

Lemma safe_lock_amount ps L r a w (Q : unit -> World -> Prop) :
  InvL ps L w -> circulating w <= MAX -> 0 < a -> (granule w | a) ->
  Z.of_nat (size ps) + Z.of_nat (length L) + 1 < 2 ^ 64 ->
  (forall w', InvL ps ((r, a) :: L) w' -> circulating w' = circulating w -> same w w' -> Q tt w') ->
  safe (lock_amount r a) w Q.
Proof.
  intros Hi Hb Ha Hg Hn HQ. unfold lock_amount. wp_step. apply safe_read_container. intros c Hc.
  pose proof (value_bound _ _ _ _ _ Hi Hc) as (Hl0 & Hm0 & Hvb). cbv zeta.
  assert (Hcnt : lock_count c a + 1 < 2 ^ 64).
  { rewrite (il_count _ _ _ Hi _ _ a Hc). pose proof (proof_count_bounds ps r a).
    pose proof (occ_le L r a). lia. }
  assert (Hfin : a - locked_amount (c_locked c) <= c_liquid c ->
    Q tt (set_container w r (lock_result c a))).
  { intros Hle. destruct (lock_result_ok (granule w) c a) as (Hok & Hv & Hlc); try done.
    { by apply (il_cont _ _ _ Hi r). }
    apply HQ; [|rewrite (circulating_set _ _ _ _ Hc); lia|done].
    eapply inv_set_container; [done|done|done| |].
    - intros b. rewrite Hlc, occ_cons. destruct (decide (a = b)) as [->|].
      + rewrite decide_True by done. lia.
      + rewrite decide_False by congruence. lia.
    - intros r' b Hr'. rewrite occ_cons, decide_False by congruence. lia. }
  wp_step. destruct (_ <? a) eqn:E; zbool.
  - wp_step. apply safe_ok_or. intros delta [-> _]%checked_sub_Some. wp_step.
    eapply safe_internal_take; [done|done|lia| |].
    { apply Z.divide_sub_r; [done|]. apply locked_granular. by apply (il_cont _ _ _ Hi r). }
    intros c' Hc' Hle w' _ _. simplify_eq. wp_steps. apply safe_read_container.
    unfold w'. cbn. rewrite lookup_insert_eq. intros c1 [= <-]. unfold write_container. wp_steps.
    unfold set_container at 1. cbn [containers proofs next_node set_container with_objects].
    fold (set_container w r (with_liquid c (c_liquid c - (a - locked_amount (c_locked c))))).
    rewrite with_locked_twice. replace (c_liquid c - (a - locked_amount (c_locked c)))
      with (c_liquid c - Z.max 0 (a - locked_amount (c_locked c))) by lia. apply Hfin. lia.
  - wp_steps. apply safe_read_container. intros c1 Hc1. simplify_eq. unfold write_container. wp_steps.
    replace (with_locked c (locked_inc a (c_locked c))) with (lock_result c a); [apply Hfin; lia|].
    unfold lock_result, with_locked. f_equal. lia.
Qed.

Lemma safe_unlock_amount ps L r a w (Q : unit -> World -> Prop) :
  InvL ps ((r, a) :: L) w -> circulating w <= MAX ->
  (forall w', InvL ps L w' -> circulating w' = circulating w -> same w w' -> Q tt w') ->
  safe (unlock_amount r a) w Q.
Proof.
  intros Hi Hb HQ. unfold unlock_amount. wp_step. apply safe_read_container. intros c Hc.
  pose proof (value_bound _ _ _ _ _ Hi Hc) as (Hl0 & Hm0 & Hvb).
  assert (Hcnt : 0 < lock_count c a).
  { rewrite (il_count _ _ _ Hi _ _ a Hc), occ_cons, decide_True by done.
    pose proof (proof_count_bounds ps r a). pose proof (occ_nonneg L r a). lia. }
  destruct (unlock_result_ok (granule w) c a) as (l & Hd & Hle & Hok & Hv & Hlc).
  { by apply (il_cont _ _ _ Hi r). }
  { done. }
  assert (Hfin : Q tt (set_container w r (unlock_result c l))).
  { apply HQ; [|rewrite (circulating_set _ _ _ _ Hc); lia|done].
    eapply inv_set_container; [done|done|done| |].
    - intros b. rewrite Hlc, occ_cons. destruct (decide (a = b)) as [->|].
      + rewrite decide_True by done. lia.
      + rewrite decide_False by congruence. lia.
    - intros r' b Hr'. rewrite occ_cons, decide_False by congruence. lia. }
  pose proof (locked_amount_nonneg l).
  cbv zeta. rewrite Hd. wp_step. eapply wp_lift_exec; [done|]. unfold write_container. wp_steps.
  apply safe_ok_or. intros delta [-> _]%checked_sub_Some.
  unfold internal_put, liquid_is_empty, is_zero. destruct (_ =? 0) eqn:E; zbool.
  - apply wp_ret. replace (with_locked c l) with (unlock_result c l); [done|].
    unfold unlock_result, with_locked. f_equal. lia.
  - wp_step. apply safe_read_container. cbn. rewrite lookup_insert_eq. intros c1 [= <-]. wp_steps.
    eapply wp_lift_exec; [apply liquid_put_Done, wf_range; cbn; rewrite ?MAX_val in *; lia|].
    unfold write_container. wp_steps.
    unfold set_container. cbn [containers proofs next_node with_objects].
    unfold with_objects. cbn. rewrite insert_insert_eq. apply Hfin.
Qed.

(** *** Creating and dropping objects *)

Lemma inv_new_container ps L w k c :
  InvL ps L w -> (forall i, ref_id (k i) = i) -> 0 <= c_liquid c -> (granule w | c_liquid c) ->
  c_locked c = [] ->
  InvL ps L (new_container w k c) /\
  circulating (new_container w k c) = circulating w + c_liquid c.
Proof.
  intros Hi Hk H0 Hg Hl. set (r := k (next_node w)).
  assert (Hfresh : containers w !! r = None).
  { destruct (containers w !! r) eqn:E; [|done]. exfalso.
    assert (ref_id r < next_node w)%N as Hlt by (apply (il_fresh_c _ _ _ Hi); by rewrite E).
    unfold r in Hlt. rewrite Hk in Hlt. lia. }
  assert (Hz : forall a, proof_count ps r a + occ L r a = 0).
  { intros a. pose proof (proof_count_bounds ps r a). pose proof (occ_nonneg L r a).
    destruct (decide (0 < proof_count ps r a + occ L r a)) as [Hlt|]; [|lia].
    apply (il_refs _ _ _ Hi) in Hlt as [? ?]. congruence. }
  split.
  - destruct Hi as [Hd Hc Hcnt Hrf Hp Hfc Hfp Hfe]. constructor; try done; cbn; fold r.
    + intros r' c'. destruct (decide (r = r')) as [<-|].
      * rewrite lookup_insert_eq. intros [= <-]. split; [done|]. split; [done|].
        rewrite Hl. split; [apply NoDup_nil_2|done].
      * rewrite lookup_insert_ne by done. apply Hc.
    + intros r' c' a. destruct (decide (r = r')) as [<-|].
      * rewrite lookup_insert_eq. intros [= <-]. unfold lock_count. rewrite Hl, Hz. done.
      * rewrite lookup_insert_ne by done. apply Hcnt.
    + intros r' a. destruct (decide (r = r')) as [<-|]; [by rewrite lookup_insert_eq|].
      rewrite lookup_insert_ne by done. apply Hrf.
    + intros r'. destruct (decide (r = r')) as [<-|].
      * intros _. unfold r. rewrite Hk. lia.
      * rewrite lookup_insert_ne by done. intros H. apply Hfc in H. lia.
    + intros id H. apply Hfp in H. lia.
  - unfold circulating, fees_total. cbn. fold r. rewrite (msum_insert_fresh value _ _ _ Hfresh).
    unfold value at 1. rewrite Hl. change (locked_amount []) with 0. lia.
Qed.

Lemma inv_del_container ps L w r c :
  InvL ps L w -> containers w !! r = Some c -> c_locked c = [] ->
  InvL ps L (del_container w r) /\
  circulating (del_container w r) = circulating w - c_liquid c.
Proof.
  intros Hi Hr Hl. split.
  - assert (Hz : forall a, proof_count ps r a + occ L r a = 0).
    { intros a. rewrite <- (il_count _ _ _ Hi _ _ a Hr). unfold lock_count. by rewrite Hl. }
    destruct Hi as [Hd Hc Hcnt Hrf Hp Hfc Hfp Hfe]. constructor; try done; cbn.
    + intros r' c' [_ H]%lookup_delete_Some. by apply (Hc r').
    + intros r' c' a [_ H]%lookup_delete_Some. by apply Hcnt.
    + intros r' a H. destruct (decide (r = r')) as [<-|]; [rewrite Hz in H; lia|].
      rewrite lookup_delete_ne by done. by apply (Hrf r' a).
    + intros r' [c' [_ H]%lookup_delete_Some]. apply Hfc. by rewrite H.
  - unfold circulating, fees_total. cbn. rewrite (msum_delete value _ _ _ Hr).
    unfold value at 2. rewrite Hl. change (locked_amount []) with 0. lia.
Qed.

Lemma inv_new_proof ps L w p :
  InvL ps (evidence p ++ L) w -> proof_ok (granule w) p ->
  InvL (<[next_node w := p]> ps) L (new_proof w p).
Proof.
  intros [Hd Hc Hcnt Hrf Hp Hfc Hfp Hfe] Hpok.
  assert (Hfresh : ps !! next_node w = None).
  { destruct (ps !! next_node w) eqn:E; [|done]. exfalso.
    assert (next_node w < next_node w)%N by (apply Hfp; by rewrite E). lia. }
  assert (Hpc : forall r a, proof_count (<[next_node w := p]> ps) r a + occ L r a =
    proof_count ps r a + occ (evidence p ++ L) r a).
  { intros r a. unfold proof_count. rewrite msum_insert_fresh by done.
    rewrite occ_app, (occ_evidence (evidence p)) by apply Hpok. lia. }
  constructor; try done; cbn.
  - intros r c a Hr. rewrite Hpc. by apply Hcnt.
  - intros r a. rewrite Hpc. apply Hrf.
  - intros id q. destruct (decide (next_node w = id)) as [<-|].
    + rewrite lookup_insert_eq. by intros [= <-].
    + rewrite lookup_insert_ne by done. apply Hp.
  - intros r H. apply Hfc in H. lia.
  - intros id. destruct (decide (next_node w = id)) as [<-|]; [lia|].
    rewrite lookup_insert_ne by done. intros H. apply Hfp in H. lia.
Qed.

(** A proof about to be dropped: its locks become pending releases. *)
Lemma inv_release_proof ps L w id p :
  InvL ps L w -> ps !! id = Some p -> InvL (delete id ps) (evidence p ++ L) w.
Proof.
  intros [Hd Hc Hcnt Hrf Hp Hfc Hfp Hfe] Hid.
  assert (Hpc : forall r a, proof_count (delete id ps) r a + occ (evidence p ++ L) r a =
    proof_count ps r a + occ L r a).
  { intros r a. unfold proof_count. rewrite (msum_delete _ ps id p) by done.
    rewrite occ_app, (occ_evidence (evidence p)) by (by apply (Hp id p)). lia. }
  constructor; try done.
  - intros r c a Hr. rewrite Hpc. by apply Hcnt.
  - intros r a. rewrite Hpc. apply Hrf.
  - intros i q [_ H]%lookup_delete_Some. by apply (Hp i).
  - intros i [q [_ H]%lookup_delete_Some]. apply Hfp. by rewrite H.
Qed.

Lemma same_granule w w' : same w w' -> granule w' = granule w.
Proof. unfold granule. by intros (-> & _). Qed.

Lemma safe_lock_evidence ps L l w (Q : unit -> World -> Prop) :
  InvL ps L w -> circulating w <= MAX ->
  (forall r a, (r, a) ∈ l -> 0 < a /\ (granule w | a)) ->
  Z.of_nat (size ps) + Z.of_nat (length L) + Z.of_nat (length l) < 2 ^ 64 ->
  (forall w' L', InvL ps L' w' -> (forall r a, occ L' r a = occ (l ++ L) r a) ->
     circulating w' = circulating w -> same w w' -> Q tt w') ->
  safe (lock_evidence l) w Q.
Proof.
  revert w L. induction l as [|[r a] l IH]; intros w L Hi Hb Hl Hn HQ; cbn [lock_evidence].
  - wp_step. by apply (HQ w L).
  - destruct (Hl r a) as [Ha Hg]; [left|]. cbn [length] in Hn. wp_step.
    eapply safe_lock_amount; [done|done|done|done|lia|]. intros w1 Hi1 Hc1 Hs1.
    apply (IH w1 ((r, a) :: L)); [done|lia| |cbn [length]; lia|].
    + intros r' a' Hin. rewrite (same_granule _ _ Hs1). apply (Hl r' a'). by right.
    + intros w' L' Hi' Ho Hc' Hs'. apply (HQ w' L'); [done| |lia|by eapply same_trans].
      intros r' a'. rewrite Ho, !occ_app, !occ_cons. lia.
Qed.

Lemma safe_teardown ps L l w (Q : unit -> World -> Prop) :
  InvL ps (l ++ L) w -> circulating w <= MAX ->
  (forall w', InvL ps L w' -> circulating w' = circulating w -> same w w' -> Q tt w') ->
  safe (teardown l) w Q.
Proof.
  revert w. induction l as [|[r a] l IH]; intros w Hi Hb HQ; cbn [teardown].
  - wp_step. by apply HQ.
  - wp_step. eapply safe_unlock_amount; [exact Hi|done|]. intros w1 Hi1 Hc1 Hs1.
    apply IH; [done|lia|]. intros w' Hi' Hc' Hs'.
    apply HQ; [done|lia|by eapply same_trans].
Qed.

(** Pending locks matter only through their counts. *)
Lemma inv_occ ps L L' w :
  InvL ps L w -> (forall r a, occ L r a = occ L' r a) -> InvL ps L' w.
Proof.
  intros [Hd Hc Hcnt Hrf Hp Hfc Hfp Hfe] Ho. constructor; try done.
  - intros. rewrite <- Ho. by apply Hcnt.
  - intros r a. rewrite <- Ho. apply Hrf.
Qed.

(** *** The methods *)

(** The outcome of a method: the invariant again, and [d] more of the resource. *)
Definition outcome (w : World) (d : Z) (w' : World) : Prop :=
  Inv w' /\ circulating w' = circulating w + d.

(** From the structural invariant back to the full one, supply unchanged. *)
Lemma inv_same_supply w w' :
  Inv w -> InvL (proofs w') [] w' -> circulating w' = circulating w ->
  features w' = features w -> total_supply w' = total_supply w -> outcome w 0 w'.
Proof.
  intros [Hl Hs Hb] Hi Hc Hf Ht. split; [|lia]. constructor; [done| |lia].
  rewrite Hf, Ht, Hc. done.
Qed.

Lemma inv_add_event ps L w e : InvL ps L w -> InvL ps L (add_event w e).
Proof. intros []. by constructor. Qed.

Lemma outcome_event w d w' e : outcome w d w' -> outcome w d (add_event w' e).
Proof.
  intros [[Hl Hs Hb] Hc]. split; [|done]. constructor; [by apply inv_add_event|done|done].
Qed.

(** A proof whose movability changes keeps its locks. *)
Lemma inv_set_proof L w id p p' :
  InvL (proofs w) L w -> proofs w !! id = Some p ->
  total_locked p' = total_locked p -> evidence p' = evidence p ->
  InvL (proofs (set_proof w id p')) L (set_proof w id p').
Proof.
  intros [Hd Hc Hcnt Hrf Hp Hfc Hfp Hfe] Hid Ht He.
  assert (Hpc : forall r a, proof_count (<[id := p']> (proofs w)) r a = proof_count (proofs w) r a).
  { intros r a. unfold proof_count. rewrite (msum_insert _ _ _ _ _ Hid), He. lia. }
  constructor; try done; cbn.
  - intros r c a Hr. rewrite Hpc. by apply Hcnt.
  - intros r a. rewrite Hpc. apply Hrf.
  - intros i q. destruct (decide (id = i)) as [<-|].
    + rewrite lookup_insert_eq. intros [= <-]. specialize (Hp _ _ Hid). unfold proof_ok in *.
      by rewrite Ht, He.
    + rewrite lookup_insert_ne by done. apply Hp.
  - intros i. destruct (decide (id = i)) as [<-|].
    + intros _. apply Hfp. by rewrite Hid.
    + rewrite lookup_insert_ne by done. apply Hfp.
Qed.

(** Locking a zero amount (of a proof that is then refused) does not panic. *)
Lemma safe_lock_zero ps L r w (Q : unit -> World -> Prop) :
  InvL ps L w -> circulating w <= MAX -> (forall w', Q tt w') -> safe (lock_amount r 0) w Q.
Proof.
  intros Hi Hb HQ. unfold lock_amount. wp_step. apply safe_read_container. intros c Hc. cbv zeta.
  pose proof (value_bound _ _ _ _ _ Hi Hc) as (_ & Hm0 & _).
  rewrite (proj2 (Z.ltb_ge _ _)) by lia. wp_steps. apply safe_read_container. intros c' Hc'.
  unfold write_container. wp_steps. apply HQ.
Qed.

(** Rounding an amount for withdrawal does not panic. *)
Lemma for_withdrawal_Done a d s :
  wf a -> 0 <= d <= 18 -> exists o, for_withdrawal a d s = Done o.
Proof.
  intros Ha Hd. destruct s; [by eexists|]. cbn. rewrite RoundSpec.checked_round_value; [eauto|done|].
  unfold SCALE. lia.
Qed.

Lemma safe_create_bucket ps L a w (Q : NodeId -> World -> Prop) :
  InvL ps L w -> 0 <= a -> (granule w | a) ->
  (let w' := new_container w LBucket
     {| c_liquid := a; c_locked := locked_default; c_frozen := 0 |} in
   InvL ps L w' -> circulating w' = circulating w + a -> Q (next_node w) w') ->
  safe (create_bucket a) w Q.
Proof.
  intros Hi Ha Hg HQ. unfold create_bucket. wp_steps.
  destruct (inv_new_container ps L w LBucket
    {| c_liquid := a; c_locked := locked_default; c_frozen := 0 |}) as [Hi' Hc']; try done.
  by apply HQ.
Qed.

Lemma safe_drop_bucket ps L b w (Q : Container -> World -> Prop) :
  InvL ps L w ->
  (forall c, containers w !! LBucket b = Some c -> 0 <= c_liquid c -> (granule w | c_liquid c) ->
     let w' := del_container w (LBucket b) in
     InvL ps L w' -> circulating w' = circulating w - c_liquid c -> Q c w') ->
  safe (drop_fungible_bucket b) w Q.
Proof.
  intros Hi HQ. unfold drop_fungible_bucket. wp_step. apply safe_read_container. intros c Hc.
  wp_steps. destruct (locked_is_locked (c_locked c)) eqn:E; [by apply wp_throw|]. apply wp_ret.
  assert (c_locked c = []) as Hl by (by destruct (c_locked c)).
  destruct (il_cont _ _ _ Hi _ _ Hc) as (H0 & Hg & _).
  destruct (inv_del_container ps L w _ c Hi Hc Hl) as [Hi' Hc']. by apply HQ.
Qed.

Lemma safe_assert_not_frozen v f w (Q : unit -> World -> Prop) :
  ((f_vault_freeze (features w) = true ->
    forall c, containers w !! LVault v = Some c -> Z.land (c_frozen c) f = 0) -> Q tt w) ->
  safe (assert_not_frozen v f) w Q.
Proof.
  intros HQ. unfold assert_not_frozen. wp_steps. destruct (f_vault_freeze _) eqn:E; cbn [negb].
  - wp_step. apply safe_read_container. intros c Hc. apply safe_guard. intros Hz. zbool.
    apply HQ. intros _ c' Hc'. by simplify_eq.
  - apply wp_ret. apply HQ. done.
Qed.

Section Ops.
Context (w : World) (Hinv : Inv w).

Let Hl := inv_l w Hinv.
Let Hs := inv_supply w Hinv.
Let Hb := inv_bounded w Hinv.
Let Hd := il_div _ _ _ Hl.

(** Take [a] out of a container into a new bucket, then go on. *)
Lemma safe_take_to_bucket {B} r a (k : Decimal -> NodeId -> RM B) (Q : B -> World -> Prop) :
  check_fungible_amount a (divisibility w) = true ->
  (forall id w', outcome w 0 w' -> features w' = features w ->
     containers w' !! LBucket id = Some {| c_liquid := a; c_locked := []; c_frozen := 0 |} ->
     safe (k a id) w' Q) ->
  safe (taken ← internal_take r a; bucket ← create_bucket taken; k taken bucket) w Q.
Proof.
  intros [Ha Hg]%check_amount_spec HQ; [|done]. wp_step.
  eapply safe_internal_take; [exact Hl|exact Hb|done|done|]. intros c Hc Hle w1 Hi1 Hc1. wp_step.
  eapply safe_create_bucket; [done|done|done|]. intros w2 Hi2 Hc2.
  apply HQ; [|done|unfold w2; cbn; by rewrite lookup_insert_eq].
  apply inv_same_supply; [done|exact Hi2|lia|done|done].
Qed.

Lemma safe_vault_take_advanced v a s (Q : NodeId -> World -> Prop) :
  wf a ->
  (forall id w' a', outcome w 0 w' -> features w' = features w ->
     containers w' !! LBucket id = Some {| c_liquid := a'; c_locked := []; c_frozen := 0 |} ->
     for_withdrawal a (divisibility w) s = Done (Some a') -> Q id w') ->
  safe (vault_take_advanced v a s) w Q.
Proof.
  intros Hwa HQ. unfold vault_take_advanced. wp_step. apply safe_assert_not_frozen. intros _.
  wp_steps. destruct (for_withdrawal_Done a (divisibility w) s Hwa Hd) as [o Ho].
  eapply wp_lift_exec; [exact Ho|]. wp_step. apply safe_ok_or. intros a' ->. wp_step.
  apply safe_guard. intros Hchk. apply safe_take_to_bucket; [done|]. intros id w' Hw' Hf Hid.
  unfold emit. wp_steps. apply (HQ id _ a'); [by apply outcome_event|done|done|done].
Qed.

Lemma safe_bucket_take_advanced b a s :
  wf a -> safe (bucket_take_advanced b a s) w (fun _ w' => outcome w 0 w').
Proof.
  intros Hwa. unfold bucket_take_advanced. wp_steps.
  destruct (for_withdrawal_Done a (divisibility w) s Hwa Hd) as [o Ho].
  eapply wp_lift_exec; [exact Ho|]. wp_step. apply safe_ok_or. intros a' ->. wp_step.
  apply safe_guard. intros [Ha Hg]%check_amount_spec; [|done]. wp_step.
  eapply safe_internal_take; [exact Hl|exact Hb|done|done|]. intros c Hc Hle w1 Hi1 Hc1.
  eapply safe_create_bucket; [done|done|done|]. intros w2 Hi2 Hc2.
  apply inv_same_supply; [done|exact Hi2|lia|done|done].
Qed.

Lemma safe_vault_put v b : safe (vault_put v b) w (fun _ w' => outcome w 0 w').
Proof.
  unfold vault_put. wp_step. apply safe_assert_not_frozen. intros _. wp_step.
  eapply safe_drop_bucket; [exact Hl|]. intros c Hc H0 Hg w1 Hi1 Hc1. wp_step.
  eapply safe_internal_put; [exact Hi1|lia|done|done|].
  intros w2 Hi2 Hc2 Hsame _. unfold emit. wp_steps. apply outcome_event.
  destruct Hsame as (E1 & E2 & _ & E4 & E5 & _).
  apply inv_same_supply; [done| |lia|done|done]. rewrite E5. exact Hi2.
Qed.

Lemma safe_bucket_put b o : safe (bucket_put b o) w (fun _ w' => outcome w 0 w').
Proof.
  unfold bucket_put. wp_step. eapply safe_drop_bucket; [exact Hl|].
  intros c Hc H0 Hg w1 Hi1 Hc1. wp_step. apply safe_read_container. intros c' Hc'.
  pose proof (value_bound _ _ _ _ _ Hi1 Hc') as (? & ? & ?). wp_step.
  eapply wp_lift_exec; [apply liquid_put_Done, wf_range; rewrite ?MAX_val in *; lia|].
  unfold write_container. wp_steps. apply inv_same_supply; [done| | |done|done].
  - apply inv_set_liquid; [exact Hi1|done|lia|]. apply Z.divide_add_r; [|done].
    by destruct (il_cont _ _ _ Hi1 _ _ Hc') as (_ & ? & _).
  - rewrite (circulating_set _ _ _ _ Hc'). unfold value, with_liquid. cbn [c_liquid c_locked]. lia.
Qed.

Lemma safe_vault_recall v a : safe (vault_recall v a) w (fun _ w' => outcome w 0 w').
Proof.
  unfold vault_recall, assert_recallable. wp_steps. apply safe_guard. intros _. wp_steps.
  apply safe_guard. intros Hchk. apply safe_take_to_bucket; [done|]. intros id w' Hw' _ _.
  unfold emit. wp_steps. by apply outcome_event.
Qed.

Lemma safe_vault_lock_fee start v a c :
  safe (vault_lock_fee start v a c) w (fun _ w' => outcome w 0 w').
Proof.
  unfold vault_lock_fee. wp_step. apply safe_assert_not_frozen. intros _. wp_steps.
  apply safe_guard. intros _. wp_steps. apply safe_guard.
  intros [Ha Hg]%check_amount_spec; [|done].
  assert (outcome w 0 w) as Hrefl by (split; [done|lia]).
  destruct (negb start); [by apply wp_ret|]. wp_step. apply safe_read_container. intros k Hk.
  pose proof (value_bound _ _ _ _ _ Hl Hk) as (? & ? & ?).
  rewrite liquid_take_spec by (try apply wf_range; rewrite ?MAX_val in *; lia).
  destruct (_ <? _) eqn:E; [by apply wp_throw|]. zbool. unfold write_container. wp_steps.
  assert (InvL (proofs w) [] (set_container w (LVault v) (with_liquid k (c_liquid k - a)))) as Hi1.
  { apply inv_set_liquid; [done|done|lia|]. apply Z.divide_sub_r; [|done].
    by destruct (il_cont _ _ _ Hl _ _ Hk) as (_ & ? & _). }
  assert (circulating (set_container w (LVault v) (with_liquid k (c_liquid k - a))) =
    circulating w - a) as Hc1.
  { rewrite (circulating_set _ _ _ _ Hk). unfold value, with_liquid. cbn [c_liquid c_locked]. lia. }
  apply inv_same_supply; [done| | |done|done].
  - destruct Hi1 as [? ? ? ? ? ? ? Hfe]. constructor; try done. cbn.
    intros f [Hf| ->%list_elem_of_singleton]%elem_of_app; [by apply Hfe|done].
  - unfold circulating, fees_total in *. cbn in *. rewrite foldr_app. cbn.
    assert (forall (l : list (NodeId * Decimal * bool)) x,
      foldr (fun f acc => f.1.2 + acc) x l = foldr (fun f acc => f.1.2 + acc) 0 l + x) as Hfold.
    { intros l x. induction l as [|f l IH]; cbn; [lia|]. rewrite IH. lia. }
    rewrite Hfold. lia.
Qed.

Lemma safe_set_frozen v c f :
  containers w !! LVault v = Some c ->
  outcome w 0 (set_container w (LVault v) (with_frozen c f)).
Proof.
  intros Hc. apply inv_same_supply; [done| | |done|done].
  - eapply inv_set_container; [exact Hl|exact Hc| |intros; unfold lock_count; cbn; lia|done].
    apply (il_cont _ _ _ Hl _ _ Hc).
  - rewrite (circulating_set _ _ _ _ Hc). unfold value. cbn [c_liquid c_locked with_frozen]. lia.
Qed.

Lemma safe_create_proof r a :
  Z.of_nat (size (proofs w)) + 1 < 2 ^ 64 ->
  safe (create_proof_of_amount r a) w (fun _ w' => outcome w 0 w').
Proof.
  intros Hn. unfold create_proof_of_amount. wp_steps. apply safe_guard.
  intros [Ha Hg]%check_amount_spec; [|done]. wp_step.
  destruct (decide (a = 0)) as [->|Hne].
  { (* a zero amount locks nothing and is refused afterwards *)
    apply (wp_mono _ _ (fun _ _ => True) _ (fun _ _ => True)); [|intros [] w1 _|done].
    - eapply safe_lock_zero; [exact Hl|exact Hb|done].
    - wp_step. apply wp_lift_result; done. }
  eapply safe_lock_amount; [exact Hl|exact Hb|lia|done|cbn [length]; lia|].
  intros w1 Hi1 Hc1 Hs1. wp_step. unfold proof_new, is_zero.
  rewrite (proj2 (Z.eqb_neq a 0)) by done. apply wp_lift_result; [|done]. intros p [= <-].
  wp_steps. pose proof Hs1 as (E1 & E2 & E3 & E4 & E5 & E6 & E7).
  apply inv_same_supply; [done| |done|done|done]. cbn [proofs new_proof with_objects].
  rewrite E5. apply inv_new_proof; [exact Hi1|]. rewrite (same_granule _ _ Hs1).
  split; [cbn; lia|]. split; [apply NoDup_singleton|].
  cbn. intros r' a'. destruct (decide (r' = r)); [|done]. intros [= <-]. split; [lia|done].
Qed.

Lemma safe_clone_proof id :
  (forall p, proofs w !! id = Some p ->
     Z.of_nat (size (proofs w)) + Z.of_nat (length (evidence p)) < 2 ^ 64) ->
  safe (clone_proof id) w (fun _ w' => outcome w 0 w').
Proof.
  intros Hn. unfold clone_proof, read_proof. wp_steps.
  destruct (proofs w !! id) as [p|] eqn:Hp; [|by apply wp_throw]. wp_steps.
  destruct (il_proofs _ _ _ Hl _ _ Hp) as (Ht & Hok & Hev).
  eapply (safe_lock_evidence _ []); [exact Hl|exact Hb| |cbn [length]; specialize (Hn _ eq_refl); lia|].
  { intros r a Hin. apply Hev with r. by apply im_elem_get. }
  intros w1 L Hi1 Hocc Hc1 Hs1. wp_steps. pose proof Hs1 as (E1 & E2 & E3 & E4 & E5 & E6 & E7).
  apply inv_same_supply; [done| |done|done|done]. cbn [proofs new_proof with_objects].
  rewrite E5. apply inv_new_proof; [eapply inv_occ; [exact Hi1|exact Hocc]|].
  rewrite (same_granule _ _ Hs1). done.
Qed.

(** Dropping a proof never fails on its locks: whatever it holds is locked. *)
Lemma safe_drop_proof id : safe (drop_proof id) w (fun _ w' => outcome w 0 w').
Proof.
  unfold drop_proof, read_proof. wp_steps.
  destruct (proofs w !! id) as [p|] eqn:Hp; [|by apply wp_throw]. wp_steps.
  eapply (safe_teardown (delete id (proofs w)) []).
  { apply inv_release_proof; [exact Hl|done]. }
  { exact Hb. }
  intros w1 Hi1 Hc1 Hs1. wp_steps. pose proof Hs1 as (E1 & E2 & E3 & E4 & E5 & E6 & E7).
  apply inv_same_supply; [done| |done|done|done]. cbn [proofs del_proof with_objects].
  rewrite E5. destruct Hi1. by constructor.
Qed.

Lemma safe_mint a :
  (f_track_total_supply (features w) = false -> circulating w + a <= MAX) ->
  safe (mint a) w (fun _ w' => outcome w a w').
Proof.
  intros Hbound. unfold mint. wp_steps. apply safe_guard. intros _. wp_steps.
  apply wp_lift_result; [|done]. unfold check_mint_amount. intros [].
  destruct (check_fungible_amount a (divisibility w)) eqn:Hchk; cbn [negb]; [|done].
  apply check_amount_spec in Hchk as [Ha Hg]; [|done].
  destruct (_ <? a); [done|]. intros _. wp_step.
  eapply safe_create_bucket; [exact Hl|done|done|]. intros w1 Hi1 Hc1. unfold emit. wp_steps.
  clearbody Hs. destruct (f_track_total_supply (features w)) eqn:Et.
  - wp_steps. apply safe_ok_or. intros s' [-> Hw]%checked_add_Some. wp_steps.
    cbn in Hw. rewrite wf_range in Hw. change (total_supply (add_event w1 _)) with (total_supply w).
    rewrite (Hs eq_refl) in Hw |- *. split; [|exact Hc1].
    constructor; [destruct Hi1; by constructor|intros _; symmetry; exact Hc1|].
    rewrite MAX_val. change (circulating w1 <= 2 ^ 191 - 1). lia.
  - wp_steps. split; [|exact Hc1]. constructor; [destruct Hi1; by constructor| |].
    + cbn. rewrite Et. done.
    + change (circulating w1 <= MAX). specialize (Hbound eq_refl). lia.
Qed.

Lemma safe_burn_internal b :
  safe (burn_internal b) w (fun _ w' =>
    exists c, containers w !! LBucket b = Some c /\ outcome w (- c_liquid c) w').
Proof.
  unfold burn_internal. wp_steps. apply safe_guard. intros _. wp_step.
  eapply safe_drop_bucket; [exact Hl|]. intros c Hc H0 Hg w1 Hi1 Hc1. unfold emit. wp_steps.
  clearbody Hs. destruct (f_track_total_supply (features w)) eqn:Et.
  - wp_steps. apply safe_ok_or. intros s' [-> _]%checked_sub_Some. wp_steps. exists c.
    split; [done|]. change (total_supply (add_event w1 _)) with (total_supply w).
    rewrite (Hs eq_refl). split; [|exact Hc1].
    constructor; [destruct Hi1; by constructor|intros _; symmetry; exact Hc1|].
    change (circulating w1 <= MAX). lia.
  - wp_steps. exists c. split; [done|]. split; [|exact Hc1].
    constructor; [destruct Hi1; by constructor| |].
    + cbn. rewrite Et. done.
    + change (circulating w1 <= MAX). lia.
Qed.

Lemma safe_drop_empty_bucket b : safe (drop_empty_bucket b) w (fun _ w' => outcome w 0 w').
Proof.
  unfold drop_empty_bucket. wp_step. eapply safe_drop_bucket; [exact Hl|].
  intros c Hc H0 Hg w1 Hi1 Hc1. apply safe_guard. unfold is_zero. intros Hz. zbool.
  apply inv_same_supply; [done|exact Hi1|lia|done|done].
Qed.

Lemma safe_create_empty_vault : safe create_empty_vault w (fun _ w' => outcome w 0 w').
Proof.
  unfold create_empty_vault, emit, liquid_new. wp_steps. apply outcome_event.
  destruct (inv_new_container (proofs w) [] w LVault
    {| c_liquid := 0; c_locked := locked_default; c_frozen := 0 |}) as [Hi' Hc']; try done.
  { apply Z.divide_0_r. }
  apply inv_same_supply; [done|exact Hi'|cbn [c_liquid] in Hc'; lia|done|done].
Qed.

Lemma safe_create_empty_bucket : safe create_empty_bucket w (fun _ w' => outcome w 0 w').
Proof.
  unfold create_empty_bucket. eapply safe_create_bucket; [exact Hl|done|apply Z.divide_0_r|].
  intros w1 Hi1 Hc1. apply inv_same_supply; [done|exact Hi1|lia|done|done].
Qed.

Lemma safe_proof_on_move d b dest id :
  safe (proof_on_move d b dest id) w (fun _ w' => outcome w 0 w').
Proof.
  assert (outcome w 0 w) as Hrefl by (split; [done|lia]). unfold proof_on_move.
  destruct d; [|by apply wp_ret]. cbv zeta. destruct (_ && _); [|by apply wp_ret].
  unfold read_proof. wp_steps. destruct (proofs w !! id) as [p|] eqn:Hp; [|by apply wp_throw].
  wp_steps. apply safe_guard. intros _. wp_steps.
  apply inv_same_supply; [done| |done|done|done]. by eapply inv_set_proof.
Qed.

End Ops.

(** *** The resource as a transition system *)

Inductive ResOp : Type :=
| OpMint (amount : Decimal)
| OpBurn (bucket : NodeId)
| OpVaultTake (vault : NodeId) (amount : Decimal) (s : WithdrawStrategy)
| OpVaultPut (vault bucket : NodeId)
| OpVaultLockFee (start : bool) (vault : NodeId) (amount : Decimal) (contingent : bool)
| OpVaultRecall (vault : NodeId) (amount : Decimal)
| OpVaultFreeze (vault : NodeId) (flags : Z)
| OpVaultUnfreeze (vault : NodeId) (flags : Z)
| OpVaultBurn (vault : NodeId) (amount : Decimal)
| OpBucketTake (bucket : NodeId) (amount : Decimal) (s : WithdrawStrategy)
| OpBucketPut (bucket other : NodeId)
| OpProofOfAmount (container : LocalRef) (amount : Decimal)
| OpBucketProofOfAll (bucket : NodeId)
| OpCloneProof (proof : NodeId)
| OpDropProof (proof : NodeId)
| OpMoveProof (down barrier : bool) (dest : Destination) (proof : NodeId)
| OpNewBucket
| OpNewVault
| OpDropEmptyBucket (bucket : NodeId).

Definition ignore {A} (m : RM A) : RM unit := m ≫= fun _ => mret tt.

Definition run_op (op : ResOp) : RM unit :=
  match op with
  | OpMint a => ignore (mint a)
  | OpBurn b => burn_internal b
  | OpVaultTake v a s => ignore (vault_take_advanced v a s)
  | OpVaultPut v b => vault_put v b
  | OpVaultLockFee st v a c => vault_lock_fee st v a c
  | OpVaultRecall v a => ignore (vault_recall v a)
  | OpVaultFreeze v f => vault_freeze v f
  | OpVaultUnfreeze v f => vault_unfreeze v f
  | OpVaultBurn v a => vault_burn v a
  | OpBucketTake b a s => ignore (bucket_take_advanced b a s)
  | OpBucketPut b o => bucket_put b o
  | OpProofOfAmount r a => ignore (create_proof_of_amount r a)
  | OpBucketProofOfAll b => ignore (bucket_create_proof_of_all b)
  | OpCloneProof p => ignore (clone_proof p)
  | OpDropProof p => drop_proof p
  | OpMoveProof d b dest p => proof_on_move d b dest p
  | OpNewBucket => ignore create_empty_bucket
  | OpNewVault => ignore create_empty_vault
  | OpDropEmptyBucket b => drop_empty_bucket b
  end.

(** How much of the resource an operation creates or destroys. *)
Definition op_delta (w : World) (op : ResOp) : Z :=
  match op with
  | OpMint a => a
  | OpBurn b => match containers w !! LBucket b with Some c => - c_liquid c | None => 0 end
  | OpVaultBurn _ a => - a
  | _ => 0
  end.

(** Amounts are decimals; a resource that does not track its supply relies on
    the mint limit to stay in range; lock counts are machine words. *)
Definition op_pre (w : World) (op : ResOp) : Prop :=
  match op with
  | OpMint a => f_track_total_supply (features w) = false -> circulating w + a <= MAX
  | OpVaultTake _ a _ | OpVaultBurn _ a | OpBucketTake _ a _ => wf a
  | OpProofOfAmount _ _ | OpBucketProofOfAll _ => Z.of_nat (size (proofs w)) + 1 < 2 ^ 64
  | OpCloneProof id => forall p, proofs w !! id = Some p ->
      Z.of_nat (size (proofs w)) + Z.of_nat (length (evidence p)) < 2 ^ 64
  | _ => True
  end.

Lemma safe_ignore {A} (m : RM A) w (Q : World -> Prop) :
  safe m w (fun _ w' => Q w') -> safe (ignore m) w (fun _ w' => Q w').
Proof. intros H. unfold ignore. wp_step. eapply wp_mono; [exact H| |done]. intros. by apply wp_ret. Qed.

Lemma safe_vault_burn w v a :
  Inv w -> wf a -> safe (vault_burn v a) w (fun _ w' => outcome w (- a) w').
Proof.
  intros Hi Ha. unfold vault_burn. wp_step. apply safe_assert_not_frozen. intros _. wp_step.
  unfold vault_take. apply safe_vault_take_advanced; [done|done|].
  intros id w1 a' [Hi1 Hc1] _ Hid [= <-].
  eapply wp_mono; [by apply safe_burn_internal| |done].
  intros [] w2 (c & Hc & Hi2 & Hc2). simplify_eq. cbn in Hc2. split; [done|lia].
Qed.

Lemma safe_run_op w op :
  Inv w -> op_pre w op -> safe (run_op op) w (fun _ w' => outcome w (op_delta w op) w').
Proof.
  intros Hi Hpre. destruct op; cbn [run_op op_pre op_delta] in *.
  - by apply safe_ignore, safe_mint.
  - eapply wp_mono; [by apply safe_burn_internal| |done]. by intros [] w' (c & -> & ?).
  - apply safe_ignore. apply safe_vault_take_advanced; [done|done|]. by intros.
  - by apply safe_vault_put.
  - by apply safe_vault_lock_fee.
  - by apply safe_ignore, safe_vault_recall.
  - unfold vault_freeze, assert_freezable. wp_steps. apply safe_guard. intros _. wp_step.
    apply safe_read_container. intros c Hc. unfold write_container. wp_steps. by apply safe_set_frozen.
  - unfold vault_unfreeze, assert_freezable. wp_steps. apply safe_guard. intros _. wp_step.
    apply safe_read_container. intros c Hc. unfold write_container. wp_steps. by apply safe_set_frozen.
  - by apply safe_vault_burn.
  - by apply safe_ignore, safe_bucket_take_advanced.
  - by apply safe_bucket_put.
  - by apply safe_ignore, safe_create_proof.
  - apply safe_ignore. unfold bucket_create_proof_of_all, get_amount. wp_steps.
    apply safe_read_container. intros c Hc. apply safe_ok_or. intros a _. by apply safe_create_proof.
  - by apply safe_ignore, safe_clone_proof.
  - by apply safe_drop_proof.
  - by apply safe_proof_on_move.
  - by apply safe_ignore, safe_create_empty_bucket.
  - by apply safe_ignore, safe_create_empty_vault.
  - by apply safe_drop_empty_bucket.
Qed.

(** Histories of successful calls; [d] is the net amount created. *)
Inductive history (w0 : World) : Z -> World -> Prop :=
| hist_init : history w0 0 w0
| hist_step d w op w' :
    history w0 d w -> op_pre w op -> run_op op w = Done (Ok tt, w') ->
    history w0 (d + op_delta w op) w'.

Lemma history_Inv w0 d w :
  Inv w0 -> history w0 d w -> Inv w /\ circulating w = circulating w0 + d.
Proof.
  intros Hi. induction 1 as [|d w op w' _ [IH Hc] Hpre Hrun]; [split; [done|lia]|].
  destruct (wp_ok _ _ _ _ _ _ (safe_run_op w op IH Hpre) Hrun) as [Hi' Hc'].
  split; [done|lia].
Qed.

Lemma create_Inv d f rork w : 0 <= d -> create d f rork = Ok w -> Inv w.
Proof.
  intros Hd. unfold create, verify_divisibility. destruct (18 <? d) eqn:E; [done|]. zbool.
  intros [= <-]. constructor.
  - constructor; cbn [divisibility containers next_node fees_locked proofs].
    + lia.
    + intros r c. by rewrite lookup_empty.
    + intros r c a. by rewrite lookup_empty.
    + intros r a. unfold proof_count. rewrite msum_empty. cbn. lia.
    + intros id p. by rewrite lookup_empty.
    + intros r. rewrite lookup_empty. by intros [? ?].
    + intros id. rewrite lookup_empty. by intros [? ?].
    + by intros fee ?%not_elem_of_nil.
  - intros _. unfold circulating, fees_total. cbn. by rewrite msum_empty.
  - unfold circulating, fees_total. cbn. rewrite msum_empty, MAX_val. lia.
Qed.

Lemma create_with_supply_Inv d f rork a b w :
  0 <= d -> create_with_initial_supply d f rork a = Ok (b, w) -> Inv w /\ circulating w = a.
Proof.
  intros Hd. unfold create_with_initial_supply, verify_divisibility, check_mint_amount.
  destruct (18 <? d) eqn:E; [done|]. zbool. cbn.
  destruct (check_fungible_amount a d) eqn:Hchk; cbn [negb]; [|done].
  apply check_amount_spec in Hchk as [Ha Hg]; [|lia].
  destruct (MAX_MINT_AMOUNT <? a) eqn:Em; [done|]. zbool. intros [= <- <-].
  assert (forall r x, proof_count ∅ r x = 0) as Hpc by (intros; apply msum_empty).
  set (w := {| divisibility := d |}).
  assert (circulating w = a) as Hc.
  { unfold circulating, fees_total, w. cbn. rewrite <- insert_empty.
    rewrite msum_insert_fresh, msum_empty by done.
    cbv [value liquid_new c_liquid c_locked locked_default]. change (locked_amount []) with 0. lia. }
  split; [|done]. constructor; [|done|rewrite Hc, MAX_val; unfold MAX_MINT_AMOUNT in Em; lia].
  constructor; unfold w; cbn [divisibility containers next_node fees_locked proofs].
  - lia.
  - intros r c [<- <-]%lookup_singleton_Some. split; [done|]. split; [done|].
    split; [apply NoDup_nil_2|done].
  - intros r c x [<- <-]%lookup_singleton_Some. rewrite Hpc. done.
  - intros r x. rewrite Hpc. cbn. lia.
  - intros id p. by rewrite lookup_empty.
  - intros r [c [<- _]%lookup_singleton_Some]. done.
  - intros id. rewrite lookup_empty. by intros [? ?].
  - by intros fee ?%not_elem_of_nil.
Qed.

End FungibleInvariant.

(** ** Theorems *)
Module FungibleTheorems.
Import FungibleInvariant.

Definition all_features : FungibleResourceManagerFeatureSet := {|
  f_track_total_supply := true; f_vault_freeze := true; f_vault_recall := true;
  f_mint := true; f_burn := true |}.

Definition run_ops (w : World) (ops : list ResOp) : Exec (Result ResError World) :=
  foldl (fun x op => match x with
    | Done (Ok w) => match run_op op w with
                     | Done (Ok _, w') => Done (Ok w') | Done (Err e, _) => Done (Err e)
                     | Panicked => Panicked end
    | x => x end) (Done (Ok w)) ops.

(** A resource of divisibility 2 with a supply of 100: a vault (node 1) takes
    the supply in; a bucket of 30 (node 2) carries a proof of 20 (node 3),
    which is cloned (node 4); the original is dropped. *)
Definition example_new : World.
Proof.
  let x := eval vm_compute in (create_with_initial_supply 2 all_features true (100 * ONE)) in
  match x with Ok (_, ?w) => exact w end.
Defined.

Definition example_ops : list ResOp :=
  [OpNewVault; OpVaultPut 1 0; OpVaultTake 1 (30 * ONE) Exact; OpProofOfAmount (LBucket 2) (20 * ONE);
   OpCloneProof 3; OpDropProof 3; OpVaultBurn 1 (5 * ONE)].

Definition example_world : World.
Proof.
  let x := eval vm_compute in (run_ops example_new example_ops) in
  match x with Done (Ok ?w) => exact w end.
Defined.

(** [op_pre] is decidable. *)
Definition op_preb (w : World) (op : ResOp) : bool :=
  match op with
  | OpMint a => f_track_total_supply (features w) || (circulating w + a <=? MAX)
  | OpVaultTake _ a _ | OpVaultBurn _ a | OpBucketTake _ a _ => (MIN <=? a) && (a <=? MAX)
  | OpProofOfAmount _ _ | OpBucketProofOfAll _ => Z.of_nat (size (proofs w)) + 1 <? 2 ^ 64
  | OpCloneProof id =>
      match proofs w !! id with
      | Some p => Z.of_nat (size (proofs w)) + Z.of_nat (length (evidence p)) <? 2 ^ 64
      | None => true
      end
  | _ => true
  end.

Lemma op_preb_sound w op : op_preb w op = true -> op_pre w op.
Proof.
  destruct op; cbn [op_preb op_pre]; intros H; try done; zbool; try done.
  - intros Ht. rewrite Ht in H. cbn in H. by zbool.
  - intros p Hp. rewrite Hp in H. by zbool.
Qed.

Fixpoint ops_pre (w : World) (ops : list ResOp) : bool :=
  match ops with
  | [] => true
  | op :: ops' => op_preb w op &&
      match run_op op w with Done (Ok _, w') => ops_pre w' ops' | _ => false end
  end.

Fixpoint ops_delta (w : World) (ops : list ResOp) : Z :=
  match ops with
  | [] => 0
  | op :: ops' => op_delta w op +
      match run_op op w with Done (Ok _, w') => ops_delta w' ops' | _ => 0 end
  end.

Lemma run_ops_history w0 d w ops w' :
  history w0 d w -> ops_pre w ops = true -> run_ops w ops = Done (Ok w') ->
  history w0 (d + ops_delta w ops) w'.
Proof.
  revert d w. induction ops as [|op ops IH]; intros d w Hh Hpre Hrun.
  - unfold run_ops in Hrun. cbn in *. simplify_eq. by rewrite Z.add_0_r.
  - unfold run_ops in Hrun. cbn [foldl ops_pre ops_delta] in *. apply andb_true_iff in Hpre as [Hop Hpre].
    apply op_preb_sound in Hop. destruct (run_op op w) as [[[[]|e] w1]|] eqn:E; [|done|done].
    rewrite Z.add_assoc. apply (IH _ w1); [by apply (hist_step w0 d w op)|done|exact Hrun].
Qed.

Lemma example_new_created :
  create_with_initial_supply 2 all_features true (100 * ONE) = Ok (0%N, example_new).
Proof. vm_compute. reflexivity. Qed.

Lemma example_history : history example_new (- (5 * ONE)) example_world.
Proof.
  assert (ops_pre example_new example_ops = true) as Hpre by (vm_compute; reflexivity).
  pose proof (run_ops_history example_new 0 example_new example_ops example_world
    (hist_init _) Hpre) as H.
  replace (- (5 * ONE)) with (0 + ops_delta example_new example_ops) by (vm_compute; reflexivity).
  apply H. vm_compute. reflexivity.
Qed.

(** C1. Conservation of a fungible resource: over every history of successful
    calls on its manager, vaults, buckets and proofs, what is in its containers
    and has been handed over as fees changes by exactly what was minted minus
    what was burned, and a resource that tracks its supply reports exactly that
    amount. *)
Theorem resource_conserved d f rork supply b w0 net w :
  0 <= d -> create_with_initial_supply d f rork supply = Ok (b, w0) -> history w0 net w ->
  circulating w = supply + net /\
  (f_track_total_supply (features w) = true -> get_total_supply w = Some (supply + net)).
Proof.
  intros Hd Hnew Hh. destruct (create_with_supply_Inv _ _ _ _ _ _ Hd Hnew) as [Hi Hc].
  destruct (history_Inv _ _ _ Hi Hh) as [Hi' Hc']. split; [lia|]. intros Ht.
  unfold get_total_supply. rewrite Ht. f_equal. rewrite (inv_supply _ Hi' Ht). lia.
Qed.

Lemma resource_conserved_witness :
  get_total_supply example_world = Some (100 * ONE + - (5 * ONE)).
Proof.
  exact (proj2 (resource_conserved 2 all_features true (100 * ONE) 0%N example_new
    (- (5 * ONE)) example_world ltac:(lia) example_new_created example_history) eq_refl).
Defined.

(** C33. Locks and proofs agree: in every state of such a history, the lock
    count of every amount in every vault and bucket is the number of proofs
    resting on it, every proof rests on existing containers holding at least
    its amount, all balances are non-negative multiples of the resource's
    granule; and therefore no call panics. *)
Theorem locks_match_proofs d f rork supply b w0 net w op :
  0 <= d -> create_with_initial_supply d f rork supply = Ok (b, w0) -> history w0 net w ->
  op_pre w op ->
  (forall r c, containers w !! r = Some c ->
     0 <= c_liquid c /\ (granule w | c_liquid c) /\
     forall a, lock_count c a = proof_count (proofs w) r a) /\
  (forall id p r a, proofs w !! id = Some p -> im_get r (evidence p) = Some a ->
     exists c, containers w !! r = Some c /\ 0 < a <= value c) /\
  exists res, run_op op w = Done res.
Proof.
  intros Hd Hnew Hh Hop. destruct (create_with_supply_Inv _ _ _ _ _ _ Hd Hnew) as [Hi _].
  destruct (history_Inv _ _ _ Hi Hh) as [Hi' _]. pose proof (inv_l _ Hi') as Hl.
  assert (Hcount : forall r c a, containers w !! r = Some c ->
    lock_count c a = proof_count (proofs w) r a).
  { intros r c a Hc. rewrite (il_count _ _ _ Hl _ _ a Hc). cbn. lia. }
  split; [|split].
  - intros r c Hc. destruct (il_cont _ _ _ Hl _ _ Hc) as (? & ? & _). auto.
  - intros id p r a Hp Ha. destruct (il_proofs _ _ _ Hl _ _ Hp) as (_ & _ & Hev).
    assert (1 <= proof_count (proofs w) r a) as Hpos.
    { unfold proof_count.
      pose proof (msum_lookup_le (fun p => if decide (im_get r (evidence p) = Some a) then 1 else 0)
        (proofs w) id p) as H. cbn beta in H. rewrite decide_True in H by done.
      apply H; [|done]. intros _ q _. destruct (decide _); lia. }
    destruct (il_refs _ _ _ Hl r a) as [c Hc]; [cbn; lia|]. exists c. split; [done|].
    destruct (Hev _ _ Ha). split; [done|]. rewrite <- (Hcount _ _ _ Hc) in Hpos.
    unfold lock_count in Hpos. destruct (im_get a (c_locked c)) as [n|] eqn:E; cbn in Hpos; [|lia].
    assert (a ∈ im_keys (c_locked c)) as Hin.
    { apply im_get_elem in E. apply list_elem_of_fmap. by exists (a, n). }
    apply locked_amount_ge in Hin. destruct (il_cont _ _ _ Hl _ _ Hc) as (? & _).
    unfold value. lia.
  - pose proof (safe_run_op w op Hi' Hop) as H. unfold wp in H.
    destruct (run_op op w); [eauto|done].
Qed.

Lemma locks_match_proofs_witness :
  (exists c, containers example_world !! LBucket 2 = Some c /\ 0 < 20 * ONE <= value c) /\
  exists res, run_op (OpDropProof 4) example_world = Done res.
Proof.
  destruct (locks_match_proofs 2 all_features true (100 * ONE) 0%N example_new (- (5 * ONE))
    example_world (OpDropProof 4) ltac:(lia) example_new_created example_history I)
    as (_ & Hp & Hr).
  split; [|exact Hr].
  apply (Hp 4%N {| restricted := false; total_locked := 20 * ONE;
                   evidence := [(LBucket 2, 20 * ONE)] |}); vm_compute; reflexivity.
Defined.

(** A frozen operation stops at its first check. *)
Lemma not_frozen_bind {B} w v c f (k : unit -> RM B) :
  f_vault_freeze (features w) = true -> containers w !! LVault v = Some c ->
  (assert_not_frozen v f ≫= k) w =
    if Z.land (c_frozen c) f =? 0 then k tt w else Done (Err (VaultErr VaultIsFrozen), w).
Proof.
  intros Hf Hc. unfold assert_not_frozen, read_container, mbind, M_bind, gets. rewrite Hf.
  cbn. rewrite Hc. cbn. unfold guard_or. by destruct (_ =? 0).
Qed.

(** A frozen vault: while the freeze bit of withdrawals is set, every
    withdrawal, fee payment and burn out of the vault is refused with
    [VaultIsFrozen] and changes nothing; with the bit of deposits set, every
    deposit; with the bit of burns set, every burn. *)
Theorem frozen_vault_refuses w v c :
  f_vault_freeze (features w) = true -> containers w !! LVault v = Some c ->
  (Z.land (c_frozen c) WITHDRAW <> 0 ->
     (forall a s, vault_take_advanced v a s w = Done (Err (VaultErr VaultIsFrozen), w)) /\
     (forall st a k, vault_lock_fee st v a k w = Done (Err (VaultErr VaultIsFrozen), w)) /\
     (forall a, vault_burn v a w = Done (Err (VaultErr VaultIsFrozen), w))) /\
  (Z.land (c_frozen c) DEPOSIT <> 0 ->
     forall b, vault_put v b w = Done (Err (VaultErr VaultIsFrozen), w)) /\
  (Z.land (c_frozen c) BURN <> 0 ->
     forall a, vault_burn v a w = Done (Err (VaultErr VaultIsFrozen), w)).
Proof.
  intros Hf Hc. unfold vault_burn, vault_take, vault_put, vault_lock_fee, vault_take_advanced.
  split; [|split]; intros Hz; rewrite <- Z.eqb_neq in Hz.
  - repeat split; intros; rewrite !(not_frozen_bind w v c) by done; rewrite ?Hz; try done.
    destruct (Z.land (c_frozen c) BURN =? 0); [|done].
    unfold mbind at 1, M_bind at 1. rewrite (not_frozen_bind w v c) by done. by rewrite Hz.
  - intros. rewrite (not_frozen_bind w v c) by done. by rewrite Hz.
  - intros. rewrite (not_frozen_bind w v c) by done. by rewrite Hz.
Qed.

Definition example_frozen : World.
Proof.
  let x := eval vm_compute in (run_ops example_world [OpVaultFreeze 1 3]) in
  match x with Done (Ok ?w) => exact w end.
Defined.

Lemma frozen_vault_refuses_witness :
  vault_take_advanced 1 ONE Exact example_frozen =
    Done (Err (VaultErr VaultIsFrozen), example_frozen) /\
  vault_put 1 2 example_frozen = Done (Err (VaultErr VaultIsFrozen), example_frozen).
Proof.
  destruct (frozen_vault_refuses example_frozen 1
    {| c_liquid := 65 * ONE; c_locked := []; c_frozen := 3 |} eq_refl
    ltac:(vm_compute; reflexivity)) as (Hw & Hd & _).
  split; [apply (proj1 (Hw ltac:(vm_compute; discriminate)))|].
  apply (Hd ltac:(vm_compute; discriminate)).
Defined.

End FungibleTheorems.
