(* ===== verification/Pools.v ===== *)
(** * Resource pools

    The three pool blueprints (radix-engine/src/blueprints/pool/v1/v1_1): pools
    of one, two and many fungible resources, whose contributors hold pool units.
    They are clients of the resource package: the state is a ledger of
    resources, each with the objects of FungibleResource.v, and a pool acts on it
    through the calls of the native SDK (radix-native-sdk/src/resource).  The
    address of the pool unit resource is what the id allocator hands out, an
    argument of [instantiate]; roles, metadata and royalties of the pool, which
    no operation below reads, are left out, as is the opening and closing of the
    pool's own field, which is never written. *)

From S2P Require Import Prelude Decimals PreciseDecimals IndexMap Resource FungibleResource.
Import Int Rounding.

Abbreviation ResourceAddress := N (only parsing).

(** ** The ledger *)

(** Of a non-fungible resource a pool only reads the amounts of the buckets it
    is about to refuse. *)
Inductive ResourceState : Type :=
| Fungible (w : World)
| NonFungible (amounts : gmap NodeId Decimal).

Record Vault : Type := { vault_resource : ResourceAddress; vault_id : NodeId }.
Record Bucket : Type := { bucket_resource : ResourceAddress; bucket_id : NodeId }.

#[export] Instance Bucket_eq_dec : EqDecision Bucket.
Proof. solve_decision. Defined.

Module OneError.
Inductive Error : Type :=
| NonFungibleResourcesAreNotAccepted (resource_address : ResourceAddress)
| NonZeroPoolUnitSupplyButZeroReserves
| InvalidPoolUnitResource (expected actual : ResourceAddress)
| ContributionOfEmptyBucketError
| DecimalOverflowError
| InvalidGetRedemptionAmount
| ZeroPoolUnitsMinted
| RedeemedZeroTokens
| ResourceDoesNotBelongToPool (resource_address : ResourceAddress).
End OneError.

Module TwoError.
Inductive Error : Type :=
| NonFungibleResourcesAreNotAccepted (resource_address : ResourceAddress)
| NonZeroPoolUnitSupplyButZeroReserves
| InvalidPoolUnitResource (expected actual : ResourceAddress)
| ResourceDoesNotBelongToPool (resource_address : ResourceAddress)
| PoolCreationWithSameResource
| ContributionOfEmptyBucketError
| DecimalOverflowError
| InvalidGetRedemptionAmount
| ZeroPoolUnitsMinted
| LargerContributionRequiredToMeetRatio.
End TwoError.

Module MultiError.
Inductive Error : Type :=
| NonFungibleResourcesAreNotAccepted (resource_address : ResourceAddress)
| NonZeroPoolUnitSupplyButZeroReserves
| InvalidPoolUnitResource (expected actual : ResourceAddress)
| ResourceDoesNotBelongToPool (resource_address : ResourceAddress)
| MissingOrEmptyBuckets (resource_addresses : IndexSet ResourceAddress)
| PoolCreationWithSameResource
| ContributionOfEmptyBucketError
| CantCreatePoolWithLessThanOneResource
| DecimalOverflowError
| InvalidGetRedemptionAmount
| NoMinimumRatio
| ZeroPoolUnitsMinted
| LargerContributionRequiredToMeetRatio.
End MultiError.

Inductive RuntimeError : Type :=
| ResourceFailure (resource : ResourceAddress) (e : ResError)
| ObjectNotFound
| InvalidDropAccess (bucket : NodeId)
| OneResourcePoolError (e : OneError.Error)
| TwoResourcePoolError (e : TwoError.Error)
| MultiResourcePoolError (e : MultiError.Error).

Inductive OnePoolEvent : Type :=
| OneContributionEvent (amount_of_resources_contributed pool_units_minted : Decimal)
| OneRedemptionEvent (pool_unit_tokens_redeemed redeemed_amount : Decimal)
| OneWithdrawEvent (amount : Decimal)
| OneDepositEvent (amount : Decimal).

(** The two- and the multi-resource pool declare the same events. *)
Inductive PoolEvent : Type :=
| ContributionEvent (contributed_resources : IndexMap ResourceAddress Decimal)
    (pool_units_minted : Decimal)
| RedemptionEvent (pool_unit_tokens_redeemed : Decimal)
    (redeemed_resources : IndexMap ResourceAddress Decimal)
| PoolWithdrawEvent (resource_address : ResourceAddress) (amount : Decimal)
| PoolDepositEvent (resource_address : ResourceAddress) (amount : Decimal).

Record Ledger : Type := {
  resources : gmap ResourceAddress ResourceState;
  pool_events : list (OnePoolEvent + PoolEvent)
}.

Definition with_resource (r : ResourceAddress) (s : ResourceState) (l : Ledger) : Ledger :=
  {| resources := <[r := s]> (resources l); pool_events := pool_events l |}.
Definition with_event (e : OnePoolEvent + PoolEvent) (l : Ledger) : Ledger :=
  {| resources := resources l; pool_events := pool_events l ++ [e] |}.

Abbreviation PM := (M Ledger RuntimeError) (only parsing).

(** [iter().try_fold(..)] and loops that thread an accumulator. *)
Fixpoint foldM {A B} (f : B -> A -> PM B) (acc : B) (l : list A) : PM B :=
  match l with [] => mret acc | x :: l' => acc ← f acc x; foldM f acc l' end.

(** [.ok_or(e)?] *)
Definition or_fail {A} (x : Exec (option A)) (e : RuntimeError) : PM A :=
  o ← lift_exec x; lift_result (ok_or o e).

(** ** The native SDK *)

(** A call of a method of an object of fungible resource [r]. *)
Definition on {A} (r : ResourceAddress) (m : M World ResError A) : PM A := fun l =>
  match resources l !! r with
  | Some (Fungible w) =>
      match m w with
      | Done (Ok a, w') => Done (Ok a, with_resource r (Fungible w') l)
      | Done (Err e, w') => Done (Err (ResourceFailure r e), with_resource r (Fungible w') l)
      | Panicked => Panicked
      end
  | _ => Done (Err ObjectNotFound, l)
  end.

Definition emit_event (e : OnePoolEvent + PoolEvent) : PM unit := modify (with_event e).

Definition resource_state (r : ResourceAddress) : PM ResourceState :=
  o ← gets (fun l => resources l !! r);
  match o with Some s => mret s | None => throw ObjectNotFound end.

(** [ResourceManager::resource_type]: the divisibility of a fungible resource. *)
Definition resource_type (r : ResourceAddress) : PM (option Z) :=
  s ← resource_state r;
  mret match s with Fungible w => Some (divisibility w) | NonFungible _ => None end.

Definition total_supply_of (r : ResourceAddress) : PM (option Decimal) := on r (gets get_total_supply).

(** [Bucket::amount], [is_empty], [resource_address]. *)
Definition bucket_amount (b : Bucket) : PM Decimal :=
  s ← resource_state (bucket_resource b);
  match s with
  | Fungible _ => on (bucket_resource b) (get_amount (LBucket (bucket_id b)))
  | NonFungible amounts =>
      match amounts !! bucket_id b with Some a => mret a | None => throw ObjectNotFound end
  end.

Definition bucket_is_empty (b : Bucket) : PM bool := a ← bucket_amount b; mret (Dec.is_zero a).

Definition object_exists (s : ResourceState) (r : LocalRef) : bool :=
  match s, r with
  | Fungible w, _ => bool_decide (is_Some (containers w !! r))
  | NonFungible amounts, LBucket id => bool_decide (is_Some (amounts !! id))
  | NonFungible _, LVault _ => false
  end.

(** [get_outer_object] of a bucket or a vault. *)
Definition outer_object (r : ResourceAddress) (o : LocalRef) : PM ResourceAddress :=
  s ← resource_state r; guard_or (object_exists s o) ObjectNotFound;; mret r.

Definition bucket_resource_address (b : Bucket) : PM ResourceAddress :=
  outer_object (bucket_resource b) (LBucket (bucket_id b)).
Definition vault_resource_address (v : Vault) : PM ResourceAddress :=
  outer_object (vault_resource v) (LVault (vault_id v)).

Definition bucket_create (r : ResourceAddress) : PM Bucket :=
  id ← on r create_empty_bucket; mret {| bucket_resource := r; bucket_id := id |}.

Definition bucket_take_advanced (b : Bucket) (amount : Decimal) (s : WithdrawStrategy) : PM Bucket :=
  id ← on (bucket_resource b) (FungibleResource.bucket_take_advanced (bucket_id b) amount s);
  mret {| bucket_resource := bucket_resource b; bucket_id := id |}.

Definition bucket_drop_empty (b : Bucket) : PM unit :=
  on (bucket_resource b) (drop_empty_bucket (bucket_id b)).

Definition bucket_burn (b : Bucket) : PM unit :=
  on (bucket_resource b) (burn_internal (bucket_id b)).

(** A bucket is consumed by [drop_object], which only an object of the same
    resource may do (system.rs). *)
Definition vault_put (v : Vault) (b : Bucket) : PM unit :=
  if (bucket_resource b =? vault_resource v)%N then
    on (vault_resource v) (FungibleResource.vault_put (vault_id v) (bucket_id b))
  else
    on (vault_resource v) (assert_not_frozen (vault_id v) DEPOSIT);;
    bucket_resource_address b;;
    throw (InvalidDropAccess (bucket_id b)).

Definition bucket_put (b other : Bucket) : PM unit :=
  if (bucket_resource other =? bucket_resource b)%N then
    on (bucket_resource b) (FungibleResource.bucket_put (bucket_id b) (bucket_id other))
  else bucket_resource_address other;; throw (InvalidDropAccess (bucket_id other)).

Definition vault_amount (v : Vault) : PM Decimal :=
  on (vault_resource v) (get_amount (LVault (vault_id v))).

Definition vault_take_advanced (v : Vault) (amount : Decimal) (s : WithdrawStrategy) : PM Bucket :=
  id ← on (vault_resource v) (FungibleResource.vault_take_advanced (vault_id v) amount s);
  mret {| bucket_resource := vault_resource v; bucket_id := id |}.

Definition vault_take (v : Vault) (amount : Decimal) : PM Bucket :=
  vault_take_advanced v amount Exact.

Definition vault_create (r : ResourceAddress) : PM Vault :=
  id ← on r create_empty_vault; mret {| vault_resource := r; vault_id := id |}.

Definition mint_fungible (r : ResourceAddress) (amount : Decimal) : PM Bucket :=
  id ← on r (mint amount); mret {| bucket_resource := r; bucket_id := id |}.

(** The pool unit resource of every pool: its supply is tracked, it has 18
    decimal places, and it has roles for minting and burning only. *)
Definition pool_unit_features : FungibleResourceManagerFeatureSet := {|
  f_track_total_supply := true; f_vault_freeze := false; f_vault_recall := false;
  f_mint := true; f_burn := true |}.

Definition new_pool_unit (address : ResourceAddress) : PM ResourceAddress :=
  match create 18 pool_unit_features false with
  | Ok w => modify (with_resource address (Fungible w));; mret address
  | Err e => throw (ResourceFailure address e)
  end.

Definition supply_of_units (unit_resource : ResourceAddress) : PM Decimal :=
  supply ← total_supply_of unit_resource; lift_exec (expect supply).

(** The common core of the three [calculate_amount_owed]. *)
Definition share_owed (pool_units_to_redeem pool_units_total_supply reserves_amount : Decimal)
    (reserves_divisibility : Z) : Exec (option Decimal) :=
  pool_units_to_redeem ← PDec.from_decimal pool_units_to_redeem;
  pool_units_total_supply ← PDec.from_decimal pool_units_total_supply;
  reserves_amount ← PDec.from_decimal reserves_amount;
  match (d ← PDec.checked_div pool_units_to_redeem pool_units_total_supply;
         PDec.checked_mul d reserves_amount) with
  | None => Done None
  | Some amount_owed =>
      value ← PDec.to_decimal amount_owed;
      match value with
      | None => Done None
      | Some value => Dec.checked_round value reserves_divisibility ToNegativeInfinity
      end
  end.

(** [Impossible case, we check for this in the constructor]. *)
Definition divisibility_of (r : ResourceAddress) : PM Z :=
  t ← resource_type r; match t with Some d => mret d | None => panic end.

(** ** The one-resource pool *)
Module OneResourcePool.
Import OneError.

Record Substate : Type := { vault : Vault; pool_unit_resource_manager : ResourceAddress }.

Definition fail (e : Error) : RuntimeError := OneResourcePoolError e.

Definition instantiate (unit_address resource_address : ResourceAddress) : PM Substate :=
  t ← resource_type resource_address;
  guard_or (match t with None => false | Some _ => true end)
    (fail (NonFungibleResourcesAreNotAccepted resource_address));;
  pool_unit_resource_manager ← new_pool_unit unit_address;
  vault ← vault_create resource_address;
  mret {| vault := vault; pool_unit_resource_manager := pool_unit_resource_manager |}.

(** The pool units to mint, by the supply of pool units and the reserves. *)
Definition units_to_mint (amount_of_contributed_resources initial_reserves
    initial_pool_unit_total_supply : PreciseDecimal) : Result Error PreciseDecimal :=
  match PDec.ZERO <? initial_pool_unit_total_supply, PDec.ZERO <? initial_reserves with
  | false, false => Ok amount_of_contributed_resources
  | false, true =>
      ok_or (PDec.checked_add amount_of_contributed_resources initial_reserves)
        DecimalOverflowError
  | true, false => Err NonZeroPoolUnitSupplyButZeroReserves
  | true, true =>
      ok_or (d ← PDec.checked_div amount_of_contributed_resources initial_reserves;
             PDec.checked_mul d initial_pool_unit_total_supply) DecimalOverflowError
  end.

Definition or_error {A} (r : Result Error A) : PM A :=
  match r with Ok a => mret a | Err e => throw (fail e) end.

Definition contribute (substate : Substate) (bucket : Bucket) : PM Bucket :=
  is_empty ← bucket_is_empty bucket;
  guard_or (negb is_empty) (fail ContributionOfEmptyBucketError);;
  input_resource_address ← bucket_resource_address bucket;
  pool_reserves_resource_address ← vault_resource_address (vault substate);
  guard_or (input_resource_address =? pool_reserves_resource_address)%N
    (fail (ResourceDoesNotBelongToPool input_resource_address));;
  initial_reserves_decimal ← vault_amount (vault substate);
  initial_pool_unit_total_supply_decimal ← supply_of_units (pool_unit_resource_manager substate);
  amount_of_contributed_resources_decimal ← bucket_amount bucket;
  initial_reserves ← lift_exec (PDec.from_decimal initial_reserves_decimal);
  initial_pool_unit_total_supply ←
    lift_exec (PDec.from_decimal initial_pool_unit_total_supply_decimal);
  amount_of_contributed_resources ←
    lift_exec (PDec.from_decimal amount_of_contributed_resources_decimal);
  pool_units_to_mint ← or_error (units_to_mint amount_of_contributed_resources
    initial_reserves initial_pool_unit_total_supply);
  pool_units_to_mint ← or_fail (PDec.to_decimal pool_units_to_mint) (fail DecimalOverflowError);
  guard_or (negb (pool_units_to_mint =? Dec.ZERO)) (fail ZeroPoolUnitsMinted);;
  emit_event (inl (OneContributionEvent amount_of_contributed_resources_decimal
                     pool_units_to_mint));;
  vault_put (vault substate) bucket;;
  mint_fungible (pool_unit_resource_manager substate) pool_units_to_mint.

Definition calculate_amount_owed (pool_units_to_redeem pool_units_total_supply
    reserves_amount : Decimal) (reserves_divisibility : Z) : PM Decimal :=
  or_fail (share_owed pool_units_to_redeem pool_units_total_supply reserves_amount
             reserves_divisibility) (fail DecimalOverflowError).

Definition redeem (substate : Substate) (bucket : Bucket) : PM Bucket :=
  bucket_resource_address ← bucket_resource_address bucket;
  guard_or (bucket_resource_address =? pool_unit_resource_manager substate)%N
    (fail (InvalidPoolUnitResource (pool_unit_resource_manager substate)
             bucket_resource_address));;
  pool_units_to_redeem ← bucket_amount bucket;
  initial_pool_units_total_supply ← supply_of_units (pool_unit_resource_manager substate);
  initial_pool_resource_reserves ← vault_amount (vault substate);
  reserves_address ← vault_resource_address (vault substate);
  reserves_divisibility ← divisibility_of reserves_address;
  amount_owed ← calculate_amount_owed pool_units_to_redeem initial_pool_units_total_supply
    initial_pool_resource_reserves reserves_divisibility;
  guard_or (negb (amount_owed =? Dec.ZERO)) (fail RedeemedZeroTokens);;
  emit_event (inl (OneRedemptionEvent pool_units_to_redeem amount_owed));;
  bucket_burn bucket;;
  vault_take (vault substate) amount_owed.

Definition protected_deposit (substate : Substate) (bucket : Bucket) : PM unit :=
  bucket_amount ← bucket_amount bucket;
  vault_put (vault substate) bucket;;
  emit_event (inl (OneDepositEvent bucket_amount)).

Definition protected_withdraw (substate : Substate) (amount : Decimal) (s : WithdrawStrategy) :
    PM Bucket :=
  bucket ← vault_take_advanced (vault substate) amount s;
  withdrawn_amount ← bucket_amount bucket;
  emit_event (inl (OneWithdrawEvent withdrawn_amount));;
  mret bucket.

Definition get_redemption_value (substate : Substate) (amount_of_pool_units : Decimal) :
    PM Decimal :=
  pool_units_total_supply ← supply_of_units (pool_unit_resource_manager substate);
  guard_or (negb (Dec.is_negative amount_of_pool_units || Dec.is_zero amount_of_pool_units ||
                  (pool_units_total_supply <? amount_of_pool_units)))
    (fail InvalidGetRedemptionAmount);;
  pool_resource_reserves ← vault_amount (vault substate);
  reserves_address ← vault_resource_address (vault substate);
  pool_resource_divisibility ← divisibility_of reserves_address;
  calculate_amount_owed amount_of_pool_units pool_units_total_supply pool_resource_reserves
    pool_resource_divisibility.

Definition get_vault_amount (substate : Substate) : PM Decimal := vault_amount (vault substate).

End OneResourcePool.

(** ** Reserves of several resources *)

(** [ReserveResourceInformation], declared alike in the two blueprints. *)
Record ReserveResourceInformation : Type := { reserves : Decimal; divisibility_ : Z }.

Fixpoint calculate_amounts_owed (overflow : RuntimeError)
    (pool_units_to_redeem pool_units_total_supply : Decimal)
    (l : IndexMap ResourceAddress ReserveResourceInformation) :
    PM (IndexMap ResourceAddress Decimal) :=
  match l with
  | [] => mret []
  | (resource_address, info) :: l' =>
      amount_owed ← or_fail (share_owed pool_units_to_redeem pool_units_total_supply
                               (reserves info) (divisibility_ info)) overflow;
      rest ← calculate_amounts_owed overflow pool_units_to_redeem pool_units_total_supply l';
      mret ((resource_address, amount_owed) :: rest)
  end.

(** The loop over the vaults in [redeem] and [get_redemption_value]. *)
Definition read_reserves (vaults : IndexMap ResourceAddress Vault) :
    PM (IndexMap ResourceAddress ReserveResourceInformation) :=
  foldM (fun acc '(resource_address, vault) =>
    amount ← vault_amount vault;
    divisibility ← divisibility_of resource_address;
    mret (im_insert resource_address
            {| reserves := amount; divisibility_ := divisibility |} acc)) [] vaults.

(** ** The two-resource pool *)
Module TwoResourcePool.
Import TwoError.

(** [vaults : [(ResourceAddress, Vault); 2]] *)
Record Substate : Type := {
  vaults : (ResourceAddress * Vault) * (ResourceAddress * Vault);
  pool_unit_resource_manager : ResourceAddress
}.

Definition fail (e : Error) : RuntimeError := TwoResourcePoolError e.

Definition vault_list (s : Substate) : list (ResourceAddress * Vault) :=
  [(vaults s).1; (vaults s).2].

Definition vault (s : Substate) (resource_address : ResourceAddress) : option Vault :=
  snd <$> find (fun e => (resource_address =? e.1)%N) (vault_list s).

Definition check_fungible (resource_address : ResourceAddress) : PM unit :=
  t ← resource_type resource_address;
  guard_or (match t with None => false | Some _ => true end)
    (fail (NonFungibleResourcesAreNotAccepted resource_address)).

Definition instantiate (unit_address resource_address1 resource_address2 : ResourceAddress) :
    PM Substate :=
  guard_or (negb (resource_address1 =? resource_address2)%N) (fail PoolCreationWithSameResource);;
  check_fungible resource_address1;;
  check_fungible resource_address2;;
  pool_unit_resource_manager ← new_pool_unit unit_address;
  vault1 ← vault_create resource_address1;
  vault2 ← vault_create resource_address2;
  mret {| vaults := ((resource_address1, vault1), (resource_address2, vault2));
          pool_unit_resource_manager := pool_unit_resource_manager |}.

(** Two handles in the deterministic order of the code: larger address first. *)
Definition sort_by_address {A} (x y : A * ResourceAddress) :
    (A * ResourceAddress) * (A * ResourceAddress) :=
  if (y.2 <? x.2)%N then (x, y) else (y, x).

(** [Iterator::max_by]: the last of the maximal elements. *)
Fixpoint max_by {A} (key : A -> Z) (l : list A) : option A :=
  match l with
  | [] => None
  | x :: l' =>
      match max_by key l' with
      | None => Some x
      | Some y => if key y <? key x then Some x else Some y
      end
  end.

Section Contribute.
(** [I384::sqrt] of the crate [bnum]. *)
Context (sqrt_384 : Z -> Z).

(** The first contribution, when no pool units are in circulation. *)
Definition first_units (contribution1 contribution2 : PreciseDecimal) :
    Exec (option PreciseDecimal) :=
  if (contribution1 =? PDec.ZERO) || (contribution2 =? PDec.ZERO)
  then Done (Some (Z.max contribution1 contribution2))
  else
    match (c1 ← PDec.checked_sqrt sqrt_384 contribution1;
           c2 ← PDec.checked_sqrt sqrt_384 contribution2;
           PDec.checked_mul c1 c2) with
    | None => Done None
    | Some value => PDec.checked_round value 18 ToPositiveInfinity
    end.

Definition ratio_times (contribution reserves other : PreciseDecimal) : option PreciseDecimal :=
  d ← PDec.checked_div contribution reserves; PDec.checked_mul d other.

(** The candidate pairs of amounts that the contributions can satisfy, each
    with the pool units it is worth. *)
Definition candidates (contribution1 contribution2 reserves1 reserves2
    pool_unit_total_supply : PreciseDecimal) :
    list (PreciseDecimal * PreciseDecimal * PreciseDecimal) :=
  let items :=
    [ (fun contribution2_required => (contribution1, contribution2_required)) <$>
        ratio_times contribution1 reserves1 reserves2;
      (fun contribution1_required => (contribution1_required, contribution2)) <$>
        ratio_times contribution2 reserves2 reserves1 ] in
  omap (fun item =>
    '(c1, c2) ← item;
    if (c1 <=? contribution1) && (c2 <=? contribution2) then
      pool_units_to_mint ← ratio_times c1 reserves1 pool_unit_total_supply;
      Some (c1, c2, pool_units_to_mint)
    else None) items.

(** The amounts to take from the two contributions and the units to mint. *)
Definition amounts_to_contribute (contribution1 contribution2 reserves1 reserves2
    pool_unit_total_supply : PreciseDecimal) :
    Exec (Result Error (PreciseDecimal * PreciseDecimal * PreciseDecimal)) :=
  let is_reserves1_not_empty := PDec.ZERO <? reserves1 in
  let is_reserves2_not_empty := PDec.ZERO <? reserves2 in
  let is_pool_units_in_circulation := PDec.ZERO <? pool_unit_total_supply in
  match is_reserves1_not_empty, is_reserves2_not_empty, is_pool_units_in_circulation with
  | _, _, false =>
      units ← first_units contribution1 contribution2;
      Done (pool_units_to_mint ← ok_or units DecimalOverflowError;
            Ok (contribution1, contribution2, pool_units_to_mint))
  | false, true, true =>
      Done (pool_units_to_mint ← ok_or (ratio_times contribution2 reserves2 pool_unit_total_supply)
              DecimalOverflowError;
            Ok (PDec.ZERO, contribution2, pool_units_to_mint))
  | true, false, true =>
      Done (pool_units_to_mint ← ok_or (ratio_times contribution1 reserves1 pool_unit_total_supply)
              DecimalOverflowError;
            Ok (contribution1, PDec.ZERO, pool_units_to_mint))
  | true, true, true =>
      Done (ok_or (max_by snd (candidates contribution1 contribution2 reserves1 reserves2
                                 pool_unit_total_supply)) DecimalOverflowError)
  | false, false, true => Done (Err NonZeroPoolUnitSupplyButZeroReserves)
  end.

(** Sort the buckets and vaults, and match them. *)
Definition match_buckets (substate : Substate) (bucket1 bucket2 : Bucket) :
    PM (Vault * Vault * Bucket * Bucket) :=
  let '((vault1, vault1_resource_address), (vault2, vault2_resource_address)) :=
    sort_by_address ((vaults substate).1.2, (vaults substate).1.1)
      ((vaults substate).2.2, (vaults substate).2.1) in
  resource_address1 ← bucket_resource_address bucket1;
  resource_address2 ← bucket_resource_address bucket2;
  let '((bucket1, bucket1_resource_address), (bucket2, bucket2_resource_address)) :=
    sort_by_address (bucket1, resource_address1) (bucket2, resource_address2) in
  guard_or (bucket1_resource_address =? vault1_resource_address)%N
    (fail (ResourceDoesNotBelongToPool bucket1_resource_address));;
  guard_or (bucket2_resource_address =? vault2_resource_address)%N
    (fail (ResourceDoesNotBelongToPool bucket2_resource_address));;
  mret (vault1, vault2, bucket1, bucket2).

(** The amounts before the rounding to the divisibilities. *)
Definition amounts_for (contribution1 contribution2 reserves1 reserves2
    pool_unit_total_supply : Decimal) : PM (Decimal * Decimal * Decimal) :=
  pool_unit_total_supply ← lift_exec (PDec.from_decimal pool_unit_total_supply);
  reserves1 ← lift_exec (PDec.from_decimal reserves1);
  reserves2 ← lift_exec (PDec.from_decimal reserves2);
  contribution1 ← lift_exec (PDec.from_decimal contribution1);
  contribution2 ← lift_exec (PDec.from_decimal contribution2);
  r ← lift_exec (amounts_to_contribute contribution1 contribution2 reserves1 reserves2
                   pool_unit_total_supply);
  match r with
  | Err e => throw (fail e)
  | Ok (amount1, amount2, pool_units_to_mint) =>
      amount1 ← or_fail (PDec.to_decimal amount1) (fail DecimalOverflowError);
      amount2 ← or_fail (PDec.to_decimal amount2) (fail DecimalOverflowError);
      pool_units_to_mint ← or_fail (PDec.to_decimal pool_units_to_mint) (fail DecimalOverflowError);
      mret (amount1, amount2, pool_units_to_mint)
  end.

(** What is left of the two buckets. *)
Definition change_bucket (bucket1 bucket2 : Bucket) : PM (option Bucket) :=
  is_empty1 ← bucket_is_empty bucket1;
  if negb is_empty1 then bucket_drop_empty bucket2;; mret (Some bucket1) else
  is_empty2 ← bucket_is_empty bucket2;
  if negb is_empty2 then bucket_drop_empty bucket1;; mret (Some bucket2) else
  bucket_drop_empty bucket1;;
  bucket_drop_empty bucket2;;
  mret None.

Definition contribute (substate : Substate) (bucket1 bucket2 : Bucket) :
    PM (Bucket * option Bucket) :=
  '(vault1, vault2, bucket1, bucket2) ← match_buckets substate bucket1 bucket2;
  reserves1 ← vault_amount vault1;
  reserves2 ← vault_amount vault2;
  pool_unit_total_supply ← supply_of_units (pool_unit_resource_manager substate);
  contribution1 ← bucket_amount bucket1;
  contribution2 ← bucket_amount bucket2;
  '(amount1, amount2, pool_units_to_mint) ←
    amounts_for contribution1 contribution2 reserves1 reserves2 pool_unit_total_supply;
  contribution_bucket1 ← bucket_take_advanced bucket1 amount1 (Rounded ToNegativeInfinity);
  contribution_bucket2 ← bucket_take_advanced bucket2 amount2 (Rounded ToNegativeInfinity);
  amount1 ← bucket_amount contribution_bucket1;
  amount2 ← bucket_amount contribution_bucket2;
  guard_or (negb ((amount1 =? Dec.ZERO) && negb (reserves1 =? Dec.ZERO) ||
                  (amount2 =? Dec.ZERO) && negb (reserves2 =? Dec.ZERO)))
    (fail LargerContributionRequiredToMeetRatio);;
  guard_or (negb (pool_units_to_mint =? Dec.ZERO)) (fail ZeroPoolUnitsMinted);;
  pool_units ← mint_fungible (pool_unit_resource_manager substate) pool_units_to_mint;
  contribution_address1 ← bucket_resource_address contribution_bucket1;
  contribution_address2 ← bucket_resource_address contribution_bucket2;
  vault_put vault1 contribution_bucket1;;
  vault_put vault2 contribution_bucket2;;
  change ← change_bucket bucket1 bucket2;
  emit_event (inr (ContributionEvent
    (im_insert contribution_address2 amount2 [(contribution_address1, amount1)])
    pool_units_to_mint));;
  mret (pool_units, change).
End Contribute.

(** The vaults of the owed amounts, in order, with [unwrap]. *)
Definition take_owed (substate : Substate) (amounts_owed : IndexMap ResourceAddress Decimal) :
    PM (list Bucket) :=
  foldM (fun acc '(resource_address, amount) =>
    v ← lift_exec (expect (vault substate resource_address));
    b ← vault_take v amount;
    mret (acc ++ [b])) [] amounts_owed.

Definition redeem (substate : Substate) (bucket : Bucket) : PM (Bucket * Bucket) :=
  bucket_resource_address ← bucket_resource_address bucket;
  guard_or (bucket_resource_address =? pool_unit_resource_manager substate)%N
    (fail (InvalidPoolUnitResource (pool_unit_resource_manager substate)
             bucket_resource_address));;
  pool_units_to_redeem ← bucket_amount bucket;
  pool_units_total_supply ← supply_of_units (pool_unit_resource_manager substate);
  reserves ← read_reserves (vault_list substate);
  amounts_owed ← calculate_amounts_owed (fail DecimalOverflowError) pool_units_to_redeem
    pool_units_total_supply reserves;
  bucket_burn bucket;;
  emit_event (inr (RedemptionEvent pool_units_to_redeem amounts_owed));;
  buckets ← take_owed substate amounts_owed;
  bucket0 ← lift_exec (expect (buckets !! 0%nat));
  bucket1 ← lift_exec (expect (buckets !! 1%nat));
  mret (bucket0, bucket1).

Definition protected_deposit (substate : Substate) (bucket : Bucket) : PM unit :=
  resource_address ← bucket_resource_address bucket;
  match vault substate resource_address with
  | Some vault =>
      amount ← bucket_amount bucket;
      vault_put vault bucket;;
      emit_event (inr (PoolDepositEvent resource_address amount))
  | None => throw (fail (ResourceDoesNotBelongToPool resource_address))
  end.

Definition protected_withdraw (substate : Substate) (resource_address : ResourceAddress)
    (amount : Decimal) (withdraw_strategy : WithdrawStrategy) : PM Bucket :=
  match vault substate resource_address with
  | Some vault =>
      bucket ← vault_take_advanced vault amount withdraw_strategy;
      withdrawn_amount ← bucket_amount bucket;
      emit_event (inr (PoolWithdrawEvent resource_address withdrawn_amount));;
      mret bucket
  | None => throw (fail (ResourceDoesNotBelongToPool resource_address))
  end.

Definition get_redemption_value (substate : Substate) (amount_of_pool_units : Decimal) :
    PM (IndexMap ResourceAddress Decimal) :=
  pool_units_total_supply ← supply_of_units (pool_unit_resource_manager substate);
  guard_or (negb (Dec.is_negative amount_of_pool_units || Dec.is_zero amount_of_pool_units ||
                  (pool_units_total_supply <? amount_of_pool_units)))
    (fail InvalidGetRedemptionAmount);;
  reserves ← read_reserves (vault_list substate);
  calculate_amounts_owed (fail DecimalOverflowError) amount_of_pool_units pool_units_total_supply
    reserves.

Definition get_vault_amounts (substate : Substate) : PM (IndexMap ResourceAddress Decimal) :=
  foldM (fun acc '(resource_address, vault) =>
    amount ← vault_amount vault; mret (im_insert resource_address amount acc))
    [] (vault_list substate).

End TwoResourcePool.

(** ** The multi-resource pool *)
Module MultiResourcePool.
Import MultiError.

Record Substate : Type := {
  vaults : IndexMap ResourceAddress Vault;
  pool_unit_resource_manager : ResourceAddress
}.

Definition fail (e : Error) : RuntimeError := MultiResourcePoolError e.

Definition check_fungible (_ : unit) (resource_address : ResourceAddress) : PM unit :=
  t ← resource_type resource_address;
  guard_or (match t with None => false | Some _ => true end)
    (fail (NonFungibleResourcesAreNotAccepted resource_address)).

Definition new_vault (acc : IndexMap ResourceAddress Vault) (resource_address : ResourceAddress) :
    PM (IndexMap ResourceAddress Vault) :=
  vault ← vault_create resource_address; mret (im_insert resource_address vault acc).

Definition instantiate (unit_address : ResourceAddress)
    (resource_addresses : IndexSet ResourceAddress) : PM Substate :=
  foldM check_fungible tt resource_addresses;;
  guard_or (match resource_addresses with [] => false | _ => true end)
    (fail CantCreatePoolWithLessThanOneResource);;
  pool_unit_resource_manager ← new_pool_unit unit_address;
  vaults ← foldM new_vault [] resource_addresses;
  mret {| vaults := vaults; pool_unit_resource_manager := pool_unit_resource_manager |}.

(** The [resource_address] of the information is its key. *)
Record ContributionInformation : Type := {
  i_vault : Vault;
  i_bucket : Bucket;
  i_reserves : PreciseDecimal;
  i_contribution : PreciseDecimal
}.

Abbreviation Information := (IndexMap ResourceAddress ContributionInformation) (only parsing).

Definition new_entry (acc : Information) (e : ResourceAddress * Vault) : PM Information :=
  let '(resource_address, vault) := e in
  bucket ← bucket_create resource_address;
  amount ← vault_amount vault;
  reserves ← lift_exec (PDec.from_decimal amount);
  mret (im_insert resource_address
          {| i_vault := vault; i_bucket := bucket; i_reserves := reserves;
             i_contribution := PDec.ZERO |} acc).

Definition new_information (vaults : IndexMap ResourceAddress Vault) : PM Information :=
  foldM new_entry [] vaults.

Definition add_bucket (information : Information) (bucket : Bucket) : PM Information :=
  resource_address ← bucket_resource_address bucket;
  match im_get resource_address information with
  | Some i =>
      amount ← bucket_amount bucket;
      amount ← lift_exec (PDec.from_decimal amount);
      contribution ← lift_result (ok_or (PDec.checked_add (i_contribution i) amount)
                                    (fail DecimalOverflowError));
      bucket_put (i_bucket i) bucket;;
      mret (im_insert resource_address
              {| i_vault := i_vault i; i_bucket := i_bucket i; i_reserves := i_reserves i;
                 i_contribution := contribution |} information)
  | None => throw (fail (ResourceDoesNotBelongToPool resource_address))
  end.

(** [*contributed_resources.entry(..).or_default() += amount] *)
Definition add_contributed (contributed : IndexMap ResourceAddress Decimal)
    (resource_address : ResourceAddress) (amount : Decimal) :
    PM (IndexMap ResourceAddress Decimal) :=
  sum ← lift_result (ok_or (Dec.checked_add (default 0 (im_get resource_address contributed)) amount)
                       (fail DecimalOverflowError));
  mret (im_insert resource_address sum contributed).

Section Contribute.
(** [BigInt::nth_root] of the crate [num-bigint]. *)
Context (nth_root_big : Z -> Z -> Z).

(** [try_fold]: the product of the roots. *)
Fixpoint product_of_roots (root_order : Z) (accumulator : PreciseDecimal)
    (contributions : list PreciseDecimal) : Exec (option PreciseDecimal) :=
  match contributions with
  | [] => Done (Some accumulator)
  | value :: rest =>
      root ← PDec.checked_nth_root nth_root_big value root_order;
      match (root ← root; PDec.checked_mul root accumulator) with
      | None => Done None
      | Some accumulator => product_of_roots root_order accumulator rest
      end
  end.

(** The geometric mean of the non-zero contributions. *)
Definition geometric_mean (contributions : list PreciseDecimal) : Exec (option PreciseDecimal) :=
  let contributions := filter (fun c => PDec.is_zero c = false) contributions in
  let root_order := Z.of_nat (length contributions) in
  product ← product_of_roots (wrap_u 32 root_order) PDec.ONE contributions;
  match product with
  | None => Done None
  | Some value => PDec.checked_round value 18 ToPositiveInfinity
  end.

Definition deposit_all (contributed : IndexMap ResourceAddress Decimal)
    (e : ResourceAddress * ContributionInformation) : PM (IndexMap ResourceAddress Decimal) :=
  let '(resource_address, i) := e in
  amount ← bucket_amount (i_bucket i);
  contributed ← (if negb (Dec.is_zero amount)
                 then add_contributed contributed resource_address amount else mret contributed);
  vault_put (i_vault i) (i_bucket i);;
  mret contributed.

(** [Iterator::min] *)
Fixpoint min_of (l : list Z) : option Z :=
  match l with
  | [] => None
  | x :: l' => Some match min_of l' with None => x | Some y => Z.min x y end
  end.

Definition minimum_ratio (information : Information) : option PreciseDecimal :=
  min_of (omap (fun i =>
    if negb (PDec.is_zero (i_reserves i))
    then PDec.checked_div (i_contribution i) (i_reserves i) else None) (im_values information)).

Definition deposit_ratio (ratio : PreciseDecimal)
    (acc : IndexMap ResourceAddress Decimal * list Bucket)
    (e : ResourceAddress * ContributionInformation) :
    PM (IndexMap ResourceAddress Decimal * list Bucket) :=
  let '(contributed, change_buckets) := acc in
  let '(resource_address, i) := e in
  amount_to_contribute ← or_fail
    (match PDec.checked_mul (i_reserves i) ratio with
     | None => Done None
     | Some value => PDec.to_decimal value
     end) (fail DecimalOverflowError);
  bucket_to_contribute ← bucket_take_advanced (i_bucket i) amount_to_contribute
    (Rounded ToNegativeInfinity);
  amount_to_contribute ← bucket_amount bucket_to_contribute;
  guard_or (negb ((amount_to_contribute =? Dec.ZERO) && negb (i_reserves i =? PDec.ZERO)))
    (fail LargerContributionRequiredToMeetRatio);;
  vault_put (i_vault i) bucket_to_contribute;;
  contributed ← add_contributed contributed resource_address amount_to_contribute;
  is_empty ← bucket_is_empty (i_bucket i);
  (if is_empty : bool then bucket_drop_empty (i_bucket i) else mret tt);;
  mret (contributed, if is_empty : bool then change_buckets else change_buckets ++ [i_bucket i]).

(** The pool units to mint, what is accepted of every resource, and the change. *)
Definition accept_contributions (pool_unit_total_supply : PreciseDecimal)
    (contribution_information : Information) :
    PM (PreciseDecimal * IndexMap ResourceAddress Decimal * list Bucket) :=
  if PDec.is_zero pool_unit_total_supply then
    pool_units_to_mint ← or_fail
      (geometric_mean (i_contribution <$> im_values contribution_information))
      (fail DecimalOverflowError);
    contributed ← foldM deposit_all [] contribution_information;
    mret (pool_units_to_mint, contributed, [])
  else
    minimum_ratio ← lift_result (ok_or (minimum_ratio contribution_information)
                                   (fail NoMinimumRatio));
    '(contributed, change_buckets) ←
      foldM (deposit_ratio minimum_ratio) ([], []) contribution_information;
    pool_units_to_mint ← lift_result
      (ok_or (PDec.checked_mul pool_unit_total_supply minimum_ratio)
         (fail DecimalOverflowError));
    mret (pool_units_to_mint, contributed, change_buckets).

Definition contribute (substate : Substate) (buckets : list Bucket) :
    PM (Bucket * list Bucket) :=
  pool_unit_total_supply ← supply_of_units (pool_unit_resource_manager substate);
  pool_unit_total_supply ← lift_exec (PDec.from_decimal pool_unit_total_supply);
  information ← new_information (vaults substate);
  contribution_information ← foldM add_bucket information buckets;
  '(pool_units_to_mint, contributed_resources, change_buckets) ←
    accept_contributions pool_unit_total_supply contribution_information;
  pool_units_to_mint ← or_fail (PDec.to_decimal pool_units_to_mint) (fail DecimalOverflowError);
  guard_or (negb (Dec.is_zero pool_units_to_mint)) (fail ZeroPoolUnitsMinted);;
  pool_units ← mint_fungible (pool_unit_resource_manager substate) pool_units_to_mint;
  emit_event (inr (ContributionEvent contributed_resources pool_units_to_mint));;
  mret (pool_units, change_buckets).
End Contribute.

Definition redeem (substate : Substate) (bucket : Bucket) : PM (list Bucket) :=
  bucket_resource_address ← bucket_resource_address bucket;
  guard_or (bucket_resource_address =? pool_unit_resource_manager substate)%N
    (fail (InvalidPoolUnitResource (pool_unit_resource_manager substate)
             bucket_resource_address));;
  pool_units_to_redeem ← bucket_amount bucket;
  pool_units_total_supply ← supply_of_units (pool_unit_resource_manager substate);
  reserves ← read_reserves (vaults substate);
  amounts_owed ← calculate_amounts_owed (fail DecimalOverflowError) pool_units_to_redeem
    pool_units_total_supply reserves;
  bucket_burn bucket;;
  emit_event (inr (RedemptionEvent pool_units_to_redeem amounts_owed));;
  buckets ← foldM (fun acc '(resource_address, amount) =>
    v ← lift_exec (expect (im_get resource_address (vaults substate)));
    b ← vault_take v amount;
    mret (acc ++ [b])) [] amounts_owed;
  mret buckets.

Definition protected_deposit (substate : Substate) (bucket : Bucket) : PM unit :=
  resource_address ← bucket_resource_address bucket;
  match im_get resource_address (vaults substate) with
  | Some vault =>
      amount ← bucket_amount bucket;
      vault_put vault bucket;;
      emit_event (inr (PoolDepositEvent resource_address amount))
  | None => throw (fail (ResourceDoesNotBelongToPool resource_address))
  end.

Definition protected_withdraw (substate : Substate) (resource_address : ResourceAddress)
    (amount : Decimal) (withdraw_strategy : WithdrawStrategy) : PM Bucket :=
  match im_get resource_address (vaults substate) with
  | Some vault =>
      bucket ← vault_take_advanced vault amount withdraw_strategy;
      withdrawn_amount ← bucket_amount bucket;
      emit_event (inr (PoolWithdrawEvent resource_address withdrawn_amount));;
      mret bucket
  | None => throw (fail (ResourceDoesNotBelongToPool resource_address))
  end.

Definition get_redemption_value (substate : Substate) (amount_of_pool_units : Decimal) :
    PM (IndexMap ResourceAddress Decimal) :=
  pool_units_total_supply ← supply_of_units (pool_unit_resource_manager substate);
  guard_or (negb (Dec.is_negative amount_of_pool_units || Dec.is_zero amount_of_pool_units ||
                  (pool_units_total_supply <? amount_of_pool_units)))
    (fail InvalidGetRedemptionAmount);;
  reserves ← read_reserves (vaults substate);
  calculate_amounts_owed (fail DecimalOverflowError) amount_of_pool_units pool_units_total_supply
    reserves.

Definition get_vault_amounts (substate : Substate) : PM (IndexMap ResourceAddress Decimal) :=
  foldM (fun acc '(resource_address, vault) =>
    amount ← vault_amount vault; mret (im_insert resource_address amount acc))
    [] (vaults substate).

End MultiResourcePool.
