(* ===== verification/PoolLedger.v ===== *)
(** * What the calls of a pool do to the ledger

    Every call of the native SDK moves amounts between the vaults and buckets of
    one resource, or changes its supply.  This file states these effects, first
    on the objects of one resource (FungibleResource.v), then on the ledger, as
    rules for the [wp] of the pool operations in Pools.v: a call keeps the
    invariant of every resource, does not panic, and changes what objects hold by
    a stated difference. *)

From S2P Require Import Prelude Decimals PreciseDecimals IndexMap Resource FungibleResource Pools.
Import Int Rounding FungibleInvariant LiquidFungible LockedFungible.

(** ** One resource *)
Module Holdings.

Definition held (w : World) (r : LocalRef) : Z := from_option value 0 (containers w !! r).

(** [a] in object [r], and [a] from [r1] to [r2]. *)
Definition at_ (r : LocalRef) (a : Z) (r' : LocalRef) : Z := if decide (r' = r) then a else 0.
Definition move (r1 r2 : LocalRef) (a : Z) (r' : LocalRef) : Z := at_ r2 a r' - at_ r1 a r'.

(** [w'] is [w] with [ds] more supply and [d r] more in every object [r]. *)
Record effect (ds : Z) (d : LocalRef -> Z) (w w' : World) : Prop := {
  ef_div : divisibility w' = divisibility w;
  ef_features : features w' = features w;
  ef_supply : total_supply w' = total_supply w + ds;
  ef_held : forall r, held w' r = held w r + d r
}.

Lemma held_set w r c r' :
  held (set_container w r c) r' = if decide (r' = r) then value c else held w r'.
Proof.
  unfold held. cbn. case_decide as E.
  - by rewrite E, lookup_insert_eq.
  - by rewrite lookup_insert_ne by congruence.
Qed.

Lemma held_new w k c r' :
  held (new_container w k c) r' = if decide (r' = k (next_node w)) then value c else held w r'.
Proof. apply (held_set w). Qed.

Lemma held_del w r r' : held (del_container w r) r' = if decide (r' = r) then 0 else held w r'.
Proof.
  unfold held. cbn. case_decide as E.
  - by rewrite E, lookup_delete_eq.
  - by rewrite lookup_delete_ne by congruence.
Qed.

Lemma held_Some w r c : containers w !! r = Some c -> held w r = value c.
Proof. unfold held. by intros ->. Qed.

Lemma value_liquid c a : value (with_liquid c a) = value c - c_liquid c + a.
Proof. unfold value. cbn [c_liquid c_locked with_liquid]. lia. Qed.

Lemma value_unlocked a f : value {| c_liquid := a; c_locked := []; c_frozen := f |} = a.
Proof. change (a + 0 = a). lia. Qed.

Lemma value_no_lock c : c_locked c = [] -> value c = c_liquid c.
Proof. intros Hl. unfold value. rewrite Hl. change (c_liquid c + 0 = c_liquid c). lia. Qed.

Lemma held_bounds w r : Inv w -> 0 <= held w r <= Dec.MAX.
Proof.
  intros [Hl _ Hb]. unfold held. destruct (containers w !! r) as [c|] eqn:Hc; cbn.
  - pose proof (value_bound _ _ _ _ _ Hl Hc). unfold value. lia.
  - by vm_compute.
Qed.

Lemma held_fresh w k : Inv w -> (forall i, ref_id (k i) = i) -> held w (k (next_node w)) = 0.
Proof.
  intros [Hl _ _] Hk. unfold held. destruct (containers w !! _) as [c|] eqn:Hc; [|done].
  pose proof (il_fresh_c _ _ _ Hl (k (next_node w)) (ex_intro _ c Hc)) as Hn.
  rewrite Hk in Hn. lia.
Qed.

(** *** Successful runs of the primitives *)

Lemma read_container_Ok r w c w' :
  read_container r w = Done (Ok c, w') -> w' = w /\ containers w !! r = Some c.
Proof.
  unfold read_container. intros H. minv H.
  destruct (containers _ !! r) eqn:E; minv H; naive_solver.
Qed.

Lemma assert_not_frozen_Ok v f w u w' : assert_not_frozen v f w = Done (Ok u, w') -> w' = w.
Proof.
  unfold assert_not_frozen. intros H. minv H. destruct (negb _); minv H; [done|].
  by apply read_container_Ok in H0 as [-> _].
Qed.

Lemma drop_Ok b w c w' :
  drop_fungible_bucket b w = Done (Ok c, w') ->
  containers w !! LBucket b = Some c /\ c_locked c = [] /\ w' = del_container w (LBucket b).
Proof.
  unfold drop_fungible_bucket. intros H. minv H. apply read_container_Ok in H0 as [-> Hc].
  destruct (locked_is_locked (c_locked a)) eqn:E; minv H. by destruct (c_locked c).
Qed.

Lemma internal_put_Ok r a w u w' :
  internal_put r a w = Done (Ok u, w') ->
  a = 0 /\ w' = w \/
  exists c, containers w !! r = Some c /\ w' = set_container w r (with_liquid c (c_liquid c + a)).
Proof.
  unfold internal_put, liquid_is_empty, Dec.is_zero. destruct (a =? 0) eqn:E; zbool; intros H.
  - minv H. by left.
  - right. minv H. apply read_container_Ok in H0 as [-> Hc].
    apply liquid_put_conserves in H1 as [-> _]. unfold write_container in H. minv H. eauto.
Qed.

Lemma internal_take_Ok r a w t w' :
  internal_take r a w = Done (Ok t, w') ->
  t = a /\ exists c, containers w !! r = Some c /\ a <= c_liquid c /\
    w' = set_container w r (with_liquid c (c_liquid c - a)).
Proof.
  unfold internal_take. intros H. minv H. apply read_container_Ok in H0 as [-> Hc].
  destruct (liquid_take_by_amount _ _) as [[rest taken]|e] eqn:E; unfold write_container in H;
    minv H.
  apply liquid_take_conserves in E as (-> & Hr & Hle & _). split; [done|]. eexists.
  split; [done|]. split; [done|]. do 2 f_equal. lia.
Qed.

Lemma get_amount_Ok r w a w' :
  get_amount r w = Done (Ok a, w') -> w' = w /\ a = held w r.
Proof.
  unfold get_amount. intros H. minv H. apply read_container_Ok in H0 as [-> Hc].
  rewrite (held_Some _ _ _ Hc). unfold value.
  destruct (Dec.checked_add _ _) as [v|] eqn:E; [|done].
  apply DecSpec.checked_add_Some in E as [-> _]. naive_solver.
Qed.

(** *** The effects of the methods *)

Ltac held_cases :=
  intros ?; repeat first [rewrite held_set | rewrite held_new | rewrite held_del]; unfold move, at_;
  repeat case_decide; subst; try done; try lia.

Lemma vault_put_effect v b w u w' :
  FungibleResource.vault_put v b w = Done (Ok u, w') ->
  effect 0 (move (LBucket b) (LVault v) (held w (LBucket b))) w w'.
Proof.
  unfold FungibleResource.vault_put, emit. intros H. minv H.
  apply assert_not_frozen_Ok in H0 as ->. apply drop_Ok in H1 as (Hb & Hl & ->).
  assert (held w (LBucket b) = c_liquid a0) as Hh
    by (by rewrite (held_Some _ _ _ Hb), value_no_lock).
  apply internal_put_Ok in H2 as [[H0 ->]|(c & Hc & ->)]; constructor; try done; cbn; try lia;
    change (held (add_event ?w _)) with (held w).
  - held_cases.
  - cbn in Hc. rewrite lookup_delete_ne in Hc by done. apply held_Some in Hc as Hv.
    held_cases. rewrite value_liquid. lia.
Qed.

Lemma create_bucket_Ok a w id w' :
  create_bucket a w = Done (Ok id, w') ->
  id = next_node w /\ w' = new_container w LBucket
    {| c_liquid := a; c_locked := []; c_frozen := 0 |}.
Proof. unfold create_bucket. intros H. by minv H. Qed.

Lemma take_effect r a w t id w1 w2 w' :
  Inv w -> internal_take r a w = Done (Ok t, w1) -> create_bucket t w1 = Done (Ok id, w2) ->
  containers w' = containers w2 -> divisibility w' = divisibility w2 ->
  features w' = features w2 -> total_supply w' = total_supply w2 ->
  held w (LBucket id) = 0 /\ t = a /\ a <= held w r /\ effect 0 (move r (LBucket id) a) w w'.
Proof.
  intros Hi (-> & c & Hc & Hle & ->)%internal_take_Ok [-> ->]%create_bucket_Ok Ec Ed Ef Es.
  cbn [next_node set_container with_objects].
  assert (r <> LBucket (next_node w)) as Hne.
  { intros ->. pose proof (il_fresh_c _ _ _ (inv_l _ Hi) _ (ex_intro _ c Hc)). cbn in *. lia. }
  pose proof (held_fresh w LBucket Hi (fun i => eq_refl)) as H0.
  apply held_Some in Hc as Hv.
  pose proof (value_bound _ _ _ _ _ (inv_l _ Hi) Hc).
  split_and!; [done|done|unfold value in Hv; lia|]. constructor; [done|done|rewrite Es; cbn; lia|].
  intros r'. unfold held at 1. rewrite Ec. fold (held (new_container (set_container w r
    (with_liquid c (c_liquid c - a))) LBucket {| c_liquid := a; c_locked := []; c_frozen := 0 |}) r').
  revert r'. held_cases; rewrite ?value_unlocked, ?value_liquid; cbn in *; lia.
Qed.

Lemma vault_take_effect v a s w id w' :
  Inv w -> FungibleResource.vault_take_advanced v a s w = Done (Ok id, w') ->
  exists a', for_withdrawal a (divisibility w) s = Done (Some a') /\
    check_fungible_amount a' (divisibility w) = true /\
    held w (LBucket id) = 0 /\ a' <= held w (LVault v) /\
    effect 0 (move (LVault v) (LBucket id) a') w w'.
Proof.
  unfold FungibleResource.vault_take_advanced, emit. intros Hi H. minv H.
  apply assert_not_frozen_Ok in H0 as ->. apply ok_or_Ok in H2 as ->.
  match type of H4 with internal_take _ ?a' _ = _ => exists a' end.
  split; [done|]. split; [done|].
  match goal with |- context [effect _ _ _ ?w'] =>
    destruct (take_effect _ _ _ _ _ _ _ w' Hi H4 H5) as (? & _ & ? & ?); done end.
Qed.

Lemma bucket_take_effect b a s w id w' :
  Inv w -> FungibleResource.bucket_take_advanced b a s w = Done (Ok id, w') ->
  exists a', for_withdrawal a (divisibility w) s = Done (Some a') /\
    check_fungible_amount a' (divisibility w) = true /\
    held w (LBucket id) = 0 /\ a' <= held w (LBucket b) /\
    effect 0 (move (LBucket b) (LBucket id) a') w w'.
Proof.
  unfold FungibleResource.bucket_take_advanced. intros Hi H. minv H. apply ok_or_Ok in H1 as ->.
  match type of H3 with internal_take _ ?a' _ = _ => exists a' end.
  split; [done|]. split; [done|].
  destruct (take_effect _ _ _ _ _ _ _ w' Hi H3 H) as (? & _ & ? & ?); done.
Qed.

Lemma bucket_put_effect b o w u w' :
  FungibleResource.bucket_put b o w = Done (Ok u, w') ->
  b <> o /\ effect 0 (move (LBucket o) (LBucket b) (held w (LBucket o))) w w'.
Proof.
  unfold FungibleResource.bucket_put, write_container. intros H. minv H.
  apply drop_Ok in H0 as (Hb & Hl & ->). apply read_container_Ok in H1 as [-> Hc].
  apply liquid_put_conserves in H2 as [-> _].
  assert (held w (LBucket o) = c_liquid a) as Hh
    by (by rewrite (held_Some _ _ _ Hb), value_no_lock).
  cbn in Hc. assert (o <> b) as Hne by (intros ->; by rewrite lookup_delete_eq in Hc).
  rewrite lookup_delete_ne in Hc by congruence. apply held_Some in Hc as Hv.
  split; [done|]. constructor; [done|done|cbn; lia|].
  held_cases; rewrite ?value_liquid; congruence || lia.
Qed.

Lemma check_mint_Ok d a u :
  check_mint_amount d a = Ok u -> check_fungible_amount a d = true /\ a <= MAX_MINT_AMOUNT.
Proof.
  unfold check_mint_amount. destruct (check_fungible_amount a d); cbn [negb]; [|done].
  destruct (_ <? a) eqn:E; [done|]. zbool. done.
Qed.

Lemma mint_effect a w id w' :
  Inv w -> f_track_total_supply (features w) = true -> mint a w = Done (Ok id, w') ->
  0 <= a /\ held w (LBucket id) = 0 /\ effect a (at_ (LBucket id) a) w w'.
Proof.
  unfold mint, emit. intros Hi Ht H. minv H. rewrite Ht in *. minv H3.
  match goal with E : check_mint_amount _ _ = _ |- _ => apply check_mint_Ok in E as [Hc _] end.
  match goal with E : create_bucket _ _ = _ |- _ => apply create_bucket_Ok in E as [-> ->] end.
  match goal with E : ok_or _ _ = _ |- _ =>
    apply ok_or_Ok, DecSpec.checked_add_Some in E as [-> _] end.
  apply check_amount_spec in Hc as [Ha _]; [|apply (inv_l _ Hi)].
  pose proof (held_fresh _ LBucket Hi (fun i => eq_refl)) as H0'.
  split_and!; [done|done|]. constructor; [done|done|done|].
  intros r. change (held (new_container s0 LBucket {| c_liquid := a; c_locked := []; c_frozen := 0 |}) r
    = held s0 r + at_ (LBucket (next_node s0)) a r).
  revert r. held_cases. rewrite value_unlocked. lia.
Qed.

Lemma burn_effect b w u w' :
  f_track_total_supply (features w) = true -> burn_internal b w = Done (Ok u, w') ->
  effect (- held w (LBucket b)) (at_ (LBucket b) (- held w (LBucket b))) w w'.
Proof.
  unfold burn_internal, emit. intros Ht H. minv H. rewrite Ht in *. minv H.
  apply drop_Ok in H1 as (Hb & Hl & ->).
  assert (held s (LBucket b) = c_liquid a0) as Hh
    by (by rewrite (held_Some _ _ _ Hb), value_no_lock).
  match goal with E : ok_or _ _ = _ |- _ =>
    apply ok_or_Ok, DecSpec.checked_sub_Some in E as [-> _] end.
  constructor; [done|done|cbn; lia|].
  intros r. change (held (del_container s (LBucket b)) r =
    held s r + at_ (LBucket b) (- held s (LBucket b)) r).
  revert r. held_cases.
Qed.

Lemma drop_empty_effect b w u w' :
  drop_empty_bucket b w = Done (Ok u, w') ->
  held w (LBucket b) = 0 /\ effect 0 (fun _ => 0) w w'.
Proof.
  unfold drop_empty_bucket, Dec.is_zero. intros H. minv H.
  apply drop_Ok in H0 as (Hb & Hl & ->). zbool.
  assert (held w (LBucket b) = 0) as Hh by (by rewrite (held_Some _ _ _ Hb), value_no_lock).
  split; [done|]. constructor; [done|done|cbn; lia|]. held_cases.
Qed.

Lemma create_empty_effect (k : NodeId -> LocalRef) w :
  Inv w -> (forall i, ref_id (k i) = i) ->
  effect 0 (fun _ => 0) w
    (new_container w k {| c_liquid := 0; c_locked := []; c_frozen := 0 |}).
Proof.
  intros Hi Hk. pose proof (held_fresh w k Hi Hk). constructor; [done|done|cbn; lia|].
  held_cases. rewrite value_unlocked. lia.
Qed.

End Holdings.

(** ** The ledger *)
Module Effects.
Export Holdings.

Definition world_of (l : Ledger) (r : ResourceAddress) : option World :=
  match resources l !! r with Some (Fungible w) => Some w | _ => None end.

(** What object [o] of resource [r] holds, the supply of [r], and its fixed
    parameters (of a fungible resource). *)
Definition lheld (l : Ledger) (r : ResourceAddress) (o : LocalRef) : Z :=
  from_option (fun w => held w o) 0 (world_of l r).
Definition lsupply (l : Ledger) (r : ResourceAddress) : Z :=
  from_option total_supply 0 (world_of l r).
Definition shape (l : Ledger) (r : ResourceAddress) :
    option (Z * FungibleResourceManagerFeatureSet) :=
  (fun w => (divisibility w, features w)) <$> world_of l r.

Definition bucket_held (l : Ledger) (b : Bucket) : Z :=
  lheld l (bucket_resource b) (LBucket (bucket_id b)).
Definition vault_held (l : Ledger) (v : Vault) : Z :=
  lheld l (vault_resource v) (LVault (vault_id v)).

(** Every fungible resource satisfies the invariant of FungibleResource.v. *)
Definition ledger_ok (l : Ledger) : Prop := forall r w, world_of l r = Some w -> Inv w.

(** [a] in resource [r] alone. *)
Definition only (r : ResourceAddress) (a : Z) (r' : ResourceAddress) : Z :=
  if decide (r' = r) then a else 0.
Definition inside (r : ResourceAddress) (d : LocalRef -> Z) (r' : ResourceAddress)
    (o : LocalRef) : Z := if decide (r' = r) then d o else 0.

Lemma only_eq r a : only r a r = a.
Proof. unfold only. by rewrite decide_True. Qed.
Lemma only_ne r a r' : r' <> r -> only r a r' = 0.
Proof. intros. unfold only. by rewrite decide_False. Qed.
Lemma inside_eq r d o : inside r d r o = d o.
Proof. unfold inside. by rewrite decide_True. Qed.
Lemma inside_ne r d r' o : r' <> r -> inside r d r' o = 0.
Proof. intros. unfold inside. by rewrite decide_False. Qed.

Record change (ds : ResourceAddress -> Z) (d : ResourceAddress -> LocalRef -> Z) (l l' : Ledger) :
    Prop := {
  ch_ok : ledger_ok l';
  ch_shape : forall r, shape l' r = shape l r;
  ch_supply : forall r, lsupply l' r = lsupply l r + ds r;
  ch_held : forall r o, lheld l' r o = lheld l r o + d r o
}.

Lemma world_of_with r w l r' :
  world_of (with_resource r (Fungible w) l) r' =
    if decide (r' = r) then Some w else world_of l r'.
Proof.
  unfold world_of. cbn. case_decide as E.
  - by rewrite E, lookup_insert_eq.
  - by rewrite lookup_insert_ne by congruence.
Qed.

Lemma change_with r w w' l ds d :
  ledger_ok l -> world_of l r = Some w -> Inv w' -> effect ds d w w' ->
  change (only r ds) (inside r d) l (with_resource r (Fungible w') l).
Proof.
  intros Hok Hw Hi [Hd Hf Hs Hh]. constructor; intros r' *;
    unfold only, inside, lheld, lsupply, shape; rewrite world_of_with; case_decide; subst; rewrite ?Hw; cbn; try lia;
    try congruence; try done.
  apply Hok.
Qed.

Lemma change_event e l : ledger_ok l -> change (fun _ => 0) (fun _ _ => 0) l (with_event e l).
Proof. intros Hok. constructor; intros; [exact Hok|done|change (lsupply l r = lsupply l r + 0)|
  change (lheld l r o = lheld l r o + 0)]; lia. Qed.

Definition same_amounts (l l' : Ledger) : Prop := change (fun _ => 0) (fun _ _ => 0) l l'.

Lemma same_amounts_intro ds d l l' :
  change ds d l l' -> (forall r, ds r = 0) -> (forall r o, d r o = 0) -> same_amounts l l'.
Proof.
  intros [H1 H2 H3 H4] Hs Hd. constructor; [done|done|intros; by rewrite H3, Hs|].
  intros. by rewrite H4, Hd.
Qed.

Lemma same_amounts_trans l1 l2 l3 : same_amounts l1 l2 -> same_amounts l2 l3 -> same_amounts l1 l3.
Proof.
  intros [_ H2 H3 H4] [H1' H2' H3' H4']. constructor; [done|..]; intros.
  - by rewrite H2', H2.
  - rewrite H3', H3. lia.
  - rewrite H4', H4. lia.
Qed.

Lemma lheld_bounds l r o : ledger_ok l -> 0 <= lheld l r o <= Dec.MAX.
Proof.
  intros Hok. unfold lheld. destruct (world_of l r) as [w|] eqn:E; cbn; [|by vm_compute].
  apply held_bounds. eauto.
Qed.

Lemma lheld_wf l r o : ledger_ok l -> Dec.wf (lheld l r o).
Proof.
  intros Hok. pose proof (lheld_bounds l r o Hok). split; [|lia].
  rewrite DecSpec.MIN_val. lia.
Qed.

Lemma held_le_circulating w r : Inv w -> 0 <= held w r <= circulating w.
Proof.
  intros [Hl _ _]. unfold held. destruct (containers w !! r) as [c|] eqn:Hc; cbn.
  - pose proof (value_bound _ _ _ _ _ Hl Hc). unfold value. lia.
  - split; [done|]. unfold circulating.
    pose proof (fees_total_nonneg w (il_fees _ _ _ Hl)).
    pose proof (msum_nonneg value (containers w)). enough (0 <= msum value (containers w)) by lia.
    apply msum_nonneg. intros k c' Hk. eapply cont_value_nonneg, (il_cont _ _ _ Hl); done.
Qed.

(** All amounts are multiples of the smallest unit of the resource. *)
Lemma lheld_granular l r d f o :
  ledger_ok l -> shape l r = Some (d, f) -> (10 ^ (18 - d) | lheld l r o).
Proof.
  unfold lheld, shape. intros Hok. destruct (world_of l r) as [w|] eqn:Hw; [|done].
  intros [= <- <-]. cbn. unfold held. destruct (containers w !! o) as [c|] eqn:Hc; cbn.
  - pose proof (il_cont _ _ _ (inv_l _ (Hok _ _ Hw)) _ _ Hc) as Hco.
    unfold value. apply Z.divide_add_r; [apply Hco|by apply locked_granular].
  - apply Z.divide_0_r.
Qed.

(** The supply of a resource is tracked. *)
Definition tracked (l : Ledger) (r : ResourceAddress) : Prop :=
  forall d f, shape l r = Some (d, f) -> f_track_total_supply f = true.

Lemma lheld_supply l r o :
  ledger_ok l -> tracked l r -> 0 <= lheld l r o <= lsupply l r /\ lsupply l r <= Dec.MAX.
Proof.
  unfold lheld, lsupply, tracked, shape. intros Hok Ht.
  destruct (world_of l r) as [w|] eqn:Hw; cbn; [|by vm_compute].
  pose proof (Hok _ _ Hw) as Hi. specialize (Ht (divisibility w) (features w) eq_refl).
  rewrite (inv_supply _ Hi Ht). pose proof (held_le_circulating w o Hi).
  pose proof (inv_bounded _ Hi). lia.
Qed.

Lemma lsupply_wf l r : ledger_ok l -> tracked l r -> 0 <= lsupply l r /\ Dec.wf (lsupply l r).
Proof.
  intros Hok Ht. destruct (lheld_supply l r (LBucket 0) Hok Ht). split; [lia|].
  apply DecSpec.wf_range. rewrite DecSpec.MAX_val in *. lia.
Qed.

(** *** Rules for the calls *)

Abbreviation lsafe m l Q := (wp m l Q (fun _ _ => True)) (only parsing).

Lemma lsafe_and {S E A} (m : M S E A) s (Q : A -> S -> Prop) (P : A -> S -> Prop) :
  wp m s Q (fun _ _ => True) -> (forall a s', m s = Done (Ok a, s') -> P a s') ->
  wp m s (fun a s' => Q a s' /\ P a s') (fun _ _ => True).
Proof. unfold wp. destruct (m s) as [[[a|e] s']|]; naive_solver. Qed.

Lemma lsafe_on {A} r (m : M World ResError A) l (Q : A -> Ledger -> Prop) :
  (forall w, world_of l r = Some w -> safe m w (fun a w' => Q a (with_resource r (Fungible w') l))) ->
  lsafe (on r m) l Q.
Proof.
  unfold wp, on, world_of. destruct (resources l !! r) as [[w|amounts]|]; try done.
  intros H. specialize (H w eq_refl). by destruct (m w) as [[[a|e] w']|].
Qed.

(** A call whose effect on the objects of its resource is known. *)
Lemma lsafe_call {A} r (m : M World ResError A) l (Q : A -> Ledger -> Prop) :
  ledger_ok l ->
  (forall w, world_of l r = Some w -> Inv w ->
     safe m w (fun a w' => Inv w' /\ exists ds d, effect ds d w w' /\
       forall l', change (only r ds) (inside r d) l l' -> Q a l')) ->
  lsafe (on r m) l Q.
Proof.
  intros Hok H. apply lsafe_on. intros w Hw. eapply wp_mono; [exact (H w Hw (Hok r w Hw))| |done].
  cbn. intros a w' (Hi & ds & d & He & HQ). eapply HQ, change_with; done.
Qed.

Section Rules.
Context (l : Ledger) (Hok : ledger_ok l).

Lemma lsafe_state r (Q : ResourceState -> Ledger -> Prop) :
  (forall s, resources l !! r = Some s -> Q s l) -> lsafe (resource_state r) l Q.
Proof.
  intros H. unfold resource_state. wp_steps.
  destruct (resources l !! r) eqn:E; [apply wp_ret; auto|by apply wp_throw].
Qed.

Lemma lsafe_guard b (e : RuntimeError) (Q : unit -> Ledger -> Prop) :
  (b = true -> Q tt l) -> lsafe (guard_or b e) l Q.
Proof. intros. apply wp_guard_or; auto. Qed.

Lemma lsafe_ok_or {A} (o : option A) (e : RuntimeError) (Q : A -> Ledger -> Prop) :
  (forall a, o = Some a -> Q a l) -> lsafe (lift_result (ok_or o e)) l Q.
Proof. intros HQ. apply wp_lift_result; [|done]. destruct o; intros ? [= <-]. auto. Qed.

Lemma lsafe_or_fail {A} (x : Exec (option A)) o (e : RuntimeError) (Q : A -> Ledger -> Prop) :
  x = Done o -> (forall a, o = Some a -> Q a l) -> lsafe (or_fail x e) l Q.
Proof.
  intros -> HQ. unfold or_fail. wp_step. eapply wp_lift_exec; [done|]. by apply lsafe_ok_or.
Qed.

Lemma lsafe_outer r o (Q : ResourceAddress -> Ledger -> Prop) :
  Q r l -> lsafe (outer_object r o) l Q.
Proof.
  intros H. unfold outer_object. wp_step. apply lsafe_state. intros s _. wp_step.
  apply lsafe_guard. intros _. by apply wp_ret.
Qed.

(** Reading changes nothing. *)
Lemma lsafe_read {A} r (m : M World ResError A) (Q : A -> Ledger -> Prop) :
  (forall w, world_of l r = Some w -> Inv w ->
     safe m w (fun a w' => w' = w /\ Q a l)) -> lsafe (on r m) l Q.
Proof.
  intros HQ. apply lsafe_on. intros w Hw. eapply wp_mono; [exact (HQ w Hw (Hok r w Hw))| |done].
  cbn. intros a w' [-> HQa]. replace (with_resource r (Fungible w) l) with l; [done|].
  destruct l as [rs es]. unfold with_resource, world_of in *. cbn in *. f_equal. symmetry.
  apply insert_id. destruct (rs !! r) as [[w1|]|]; by simplify_eq.
Qed.

Lemma lsafe_get_amount r o (Q : Decimal -> Ledger -> Prop) :
  Q (lheld l r o) l -> lsafe (on r (get_amount o)) l Q.
Proof.
  intros HQ. apply lsafe_read. intros w Hw Hi.
  assert (safe (get_amount o) w (fun _ _ => True)) as Hs.
  { unfold get_amount. wp_step. apply safe_read_container. intros c Hc. by apply safe_ok_or. }
  unfold wp in *. destruct (get_amount o w) as [[[a|e] w']|] eqn:E; [|done|done].
  apply get_amount_Ok in E as [-> ->]. split; [done|]. revert HQ. unfold lheld. by rewrite Hw.
Qed.

Lemma lsafe_bucket_amount b (Q : Decimal -> Ledger -> Prop) :
  (forall a, (is_Some (world_of l (bucket_resource b)) -> a = bucket_held l b) -> Q a l) ->
  lsafe (bucket_amount b) l Q.
Proof.
  intros HQ. unfold bucket_amount. wp_step. apply lsafe_state. intros [w|amounts] Hs.
  - by apply lsafe_get_amount, HQ.
  - destruct (amounts !! bucket_id b); [|by apply wp_throw]. apply wp_ret, HQ.
    unfold world_of. rewrite Hs. by intros [].
Qed.

Lemma lsafe_bucket_is_empty b (Q : bool -> Ledger -> Prop) :
  (forall a, (is_Some (world_of l (bucket_resource b)) -> a = bucket_held l b) ->
     Q (Dec.is_zero a) l) -> lsafe (bucket_is_empty b) l Q.
Proof.
  intros HQ. unfold bucket_is_empty. wp_step. apply lsafe_bucket_amount. intros a Ha.
  apply wp_ret. auto.
Qed.

Lemma lsafe_vault_amount v (Q : Decimal -> Ledger -> Prop) :
  Q (vault_held l v) l -> lsafe (vault_amount v) l Q.
Proof. apply lsafe_get_amount. Qed.

Lemma lsafe_supply r (Q : Decimal -> Ledger -> Prop) :
  tracked l r -> (is_Some (world_of l r) -> Q (lsupply l r) l) -> lsafe (supply_of_units r) l Q.
Proof.
  intros Ht HQ. unfold supply_of_units, total_supply_of. wp_step. apply lsafe_read.
  intros w Hw Hi. apply wp_gets. split; [done|]. eapply wp_lift_exec.
  - unfold get_total_supply. rewrite (Ht (divisibility w) (features w)); [done|].
    unfold shape. by rewrite Hw.
  - revert HQ. unfold lsupply. rewrite Hw. eauto.
Qed.

(** The divisibility of a fungible resource. *)
Lemma lsafe_divisibility r (Q : Z -> Ledger -> Prop) :
  is_Some (world_of l r) ->
  (forall d f, shape l r = Some (d, f) -> 0 <= d <= 18 -> Q d l) -> lsafe (divisibility_of r) l Q.
Proof.
  intros [w Hw] HQ. unfold divisibility_of, resource_type. wp_step. wp_step.
  apply lsafe_state. intros s Hs. apply wp_ret. revert Hw. unfold world_of. rewrite Hs.
  destruct s as [w1|]; intros [= ->]. apply wp_ret, (HQ _ (features w)).
  - unfold shape, world_of. by rewrite Hs.
  - apply (inv_l w). apply (Hok r). unfold world_of. by rewrite Hs.
Qed.

(** *** Calls that move amounts *)

Lemma lsafe_vault_put v b (Q : unit -> Ledger -> Prop) :
  (bucket_resource b = vault_resource v -> forall l',
     change (only (vault_resource v) 0)
       (inside (vault_resource v) (move (LBucket (bucket_id b)) (LVault (vault_id v)) (bucket_held l b)))
       l l' -> Q tt l') ->
  lsafe (vault_put v b) l Q.
Proof.
  intros HQ. unfold vault_put. destruct (_ =? _)%N eqn:E.
  - apply N.eqb_eq in E. apply lsafe_call; [done|]. intros w Hw Hi.
    eapply wp_mono; [apply lsafe_and; [by apply safe_vault_put|]| |done].
    + intros u w' H. exact (vault_put_effect _ _ _ _ _ H).
    + cbn. intros [] w' [Ho He]. split; [apply Ho|]. do 2 eexists. split; [exact He|].
      specialize (HQ E). unfold bucket_held, lheld in HQ. rewrite E, Hw in HQ. exact HQ.
  - wp_step. apply lsafe_read. intros w Hw Hi.
    apply safe_assert_not_frozen. intros _. split; [done|]. wp_step. apply lsafe_outer.
    by apply wp_throw.
Qed.

(** What a withdrawal of [a] takes out of [o] into the new bucket [b]. *)
Record taken (r : ResourceAddress) (o : LocalRef) (a : Decimal) (s : WithdrawStrategy) (b : Bucket)
    (a' : Decimal) (l' : Ledger) : Prop := {
  tk_amount : exists d f, shape l r = Some (d, f) /\ 0 <= d <= 18 /\
    for_withdrawal a d s = Done (Some a') /\ 0 <= a' /\ (10 ^ (18 - d) | a');
  tk_le : a' <= lheld l r o;
  tk_resource : bucket_resource b = r;
  tk_fresh : bucket_held l b = 0;
  tk_change : change (only r 0) (inside r (move o (LBucket (bucket_id b)) a')) l l'
}.

Lemma lsafe_take r o a s (m : M World ResError NodeId) (Q : Bucket -> Ledger -> Prop) :
  (forall w, Inv w -> safe m w (fun _ w' => outcome w 0 w')) ->
  (forall w id w', Inv w -> m w = Done (Ok id, w') ->
     exists a', for_withdrawal a (divisibility w) s = Done (Some a') /\
       check_fungible_amount a' (divisibility w) = true /\
       held w (LBucket id) = 0 /\ a' <= held w o /\
       effect 0 (move o (LBucket id) a') w w') ->
  (forall b a' l', taken r o a s b a' l' -> Q b l') ->
  lsafe (id ← on r m; mret {| bucket_resource := r; bucket_id := id |}) l Q.
Proof.
  intros Hm He HQ. wp_step. apply lsafe_call; [done|]. intros w Hw Hi.
  eapply wp_mono; [apply lsafe_and; [by apply Hm|]| |done].
  - intros id w' H. exact (He w id w' Hi H).
  - cbn. intros id w' [Ho (a' & Hf & Hc & H0 & Hle & Hef)]. split; [apply Ho|].
    pose proof (il_div _ _ _ (inv_l _ Hi)) as Hd. destruct (check_amount_spec _ _ Hd Hc).
    do 2 eexists. split; [exact Hef|]. intros l' Hch. apply (HQ _ a').
    constructor; unfold bucket_held, lheld; cbn; rewrite ?Hw; try done.
    exists (divisibility w), (features w). unfold shape. by rewrite Hw.
Qed.

Lemma lsafe_vault_take_advanced v a s (Q : Bucket -> Ledger -> Prop) :
  Dec.wf a ->
  (forall b a' l', taken (vault_resource v) (LVault (vault_id v)) a s b a' l' -> Q b l') ->
  lsafe (vault_take_advanced v a s) l Q.
Proof.
  intros Ha HQ. eapply lsafe_take; [| |exact HQ].
  - intros w Hi. by apply safe_vault_take_advanced.
  - intros w id w' Hi H. by eapply vault_take_effect.
Qed.

Lemma lsafe_bucket_take_advanced b0 a s (Q : Bucket -> Ledger -> Prop) :
  Dec.wf a ->
  (forall b a' l', taken (bucket_resource b0) (LBucket (bucket_id b0)) a s b a' l' -> Q b l') ->
  lsafe (bucket_take_advanced b0 a s) l Q.
Proof.
  intros Ha HQ. eapply lsafe_take; [| |exact HQ].
  - intros w Hi. by apply safe_bucket_take_advanced.
  - intros w id w' Hi H. by eapply bucket_take_effect.
Qed.

(** A call with a fixed effect. *)
Lemma lsafe_effect {A} r (m : M World ResError A) ds (d : A -> LocalRef -> Z)
    (P : A -> Prop) (Q : A -> Ledger -> Prop) :
  (forall w, world_of l r = Some w -> Inv w -> safe m w (fun _ w' => Inv w')) ->
  (forall w a w', world_of l r = Some w -> Inv w -> m w = Done (Ok a, w') ->
     P a /\ effect ds (d a) w w') ->
  (forall a l', P a -> change (only r ds) (inside r (d a)) l l' -> Q a l') ->
  lsafe (on r m) l Q.
Proof.
  intros Hm He HQ. apply lsafe_call; [done|]. intros w Hw Hi.
  eapply wp_mono; [apply lsafe_and; [by apply Hm|]| |done].
  - intros a w' H. exact (He w a w' Hw Hi H).
  - cbn. intros a w' [Hi' [HP Hef]]. split; [done|]. do 2 eexists. split; [exact Hef|]. auto.
Qed.

Lemma lsafe_mint r a (Q : Bucket -> Ledger -> Prop) :
  tracked l r ->
  (forall b l', 0 <= a -> bucket_resource b = r -> bucket_held l b = 0 ->
     change (only r a) (inside r (at_ (LBucket (bucket_id b)) a)) l l' -> Q b l') ->
  lsafe (mint_fungible r a) l Q.
Proof.
  intros Ht HQ. assert (Htw : forall w, world_of l r = Some w ->
    f_track_total_supply (features w) = true).
  { intros w Hw. apply (Ht (divisibility w)). unfold shape. by rewrite Hw. }
  unfold mint_fungible. wp_step.
  apply lsafe_effect with a (fun id => at_ (LBucket id) a)
    (fun id => 0 <= a /\ lheld l r (LBucket id) = 0).
  - intros w Hw Hi. eapply wp_mono; [apply safe_mint; [done|]| |done].
    + intros E. by rewrite (Htw w Hw) in E.
    + cbn. intros _ w' []. done.
  - intros w id w' Hw Hi H. destruct (mint_effect _ _ _ _ Hi (Htw w Hw) H) as (? & ? & ?).
    unfold lheld. by rewrite Hw.
  - intros id l' [Ha H0] Hch. cbn beta. wp_step. by apply HQ.
Qed.

Lemma lsafe_burn b (Q : unit -> Ledger -> Prop) :
  tracked l (bucket_resource b) ->
  (forall l', change (only (bucket_resource b) (- bucket_held l b))
     (inside (bucket_resource b) (at_ (LBucket (bucket_id b)) (- bucket_held l b))) l l' -> Q tt l') ->
  lsafe (bucket_burn b) l Q.
Proof.
  intros Ht HQ.
  apply lsafe_effect with (- bucket_held l b)
    (fun _ => at_ (LBucket (bucket_id b)) (- bucket_held l b)) (fun _ => True).
  - intros w Hw Hi. eapply wp_mono; [by apply safe_burn_internal| |done].
    cbn. intros _ w' (c & _ & []). done.
  - intros w u w' Hw Hi H. split; [done|]. unfold bucket_held, lheld. rewrite Hw.
    eapply burn_effect; [|exact H]. apply (Ht (divisibility w)). unfold shape. by rewrite Hw.
  - intros [] l' _. apply HQ.
Qed.

Lemma lsafe_drop_empty b (Q : unit -> Ledger -> Prop) :
  (forall l', bucket_held l b = 0 -> change (only (bucket_resource b) 0)
     (inside (bucket_resource b) (fun _ => 0)) l l' -> Q tt l') ->
  lsafe (bucket_drop_empty b) l Q.
Proof.
  intros HQ. apply lsafe_effect with 0 (fun _ _ => 0) (fun _ => bucket_held l b = 0).
  - intros w Hw Hi. eapply wp_mono; [by apply safe_drop_empty_bucket| |done].
    cbn. by intros _ w' [].
  - intros w u w' Hw Hi H. unfold bucket_held, lheld. rewrite Hw.
    exact (drop_empty_effect _ _ _ _ H).
  - intros [] l' H0. by apply HQ.
Qed.

Lemma lsafe_bucket_put b o (Q : unit -> Ledger -> Prop) :
  (bucket_resource o = bucket_resource b -> bucket_id b <> bucket_id o -> forall l',
     change (only (bucket_resource b) 0)
       (inside (bucket_resource b)
          (move (LBucket (bucket_id o)) (LBucket (bucket_id b)) (bucket_held l o))) l l' -> Q tt l') ->
  lsafe (bucket_put b o) l Q.
Proof.
  intros HQ. unfold bucket_put. destruct (_ =? _)%N eqn:E.
  - apply N.eqb_eq in E. apply lsafe_effect with 0
      (fun _ => move (LBucket (bucket_id o)) (LBucket (bucket_id b)) (bucket_held l o))
      (fun _ => bucket_id b <> bucket_id o).
    + intros w Hw Hi. eapply wp_mono; [by apply safe_bucket_put| |done]. cbn. by intros _ w' [].
    + intros w u w' Hw Hi H. unfold bucket_held, lheld. rewrite E, Hw.
      exact (bucket_put_effect _ _ _ _ _ H).
    + intros [] l' Hne. by apply HQ.
  - wp_step. apply lsafe_outer. by apply wp_throw.
Qed.

Lemma lsafe_create_empty {A} r (k : NodeId -> LocalRef) (m : M World ResError NodeId)
    (f : NodeId -> A) (Q : A -> Ledger -> Prop) :
  (forall w, Inv w -> safe m w (fun _ w' => outcome w 0 w')) ->
  (forall w id w', m w = Done (Ok id, w') -> divisibility w' = divisibility w /\
     features w' = features w /\ total_supply w' = total_supply w /\ id = next_node w /\
     containers w' = <[k id := {| c_liquid := 0; c_locked := []; c_frozen := 0 |}]> (containers w)) ->
  (forall i, ref_id (k i) = i) ->
  (forall id l', lheld l r (k id) = 0 ->
     change (only r 0) (inside r (fun _ => 0)) l l' -> Q (f id) l') ->
  lsafe (id ← on r m; mret (f id)) l Q.
Proof.
  intros Hm He Hk HQ. wp_step. apply lsafe_effect with 0 (fun _ _ => 0) (fun id => lheld l r (k id) = 0).
  - intros w Hw Hi. eapply wp_mono; [by apply Hm| |done]. cbn. by intros _ w' [].
  - intros w id w' Hw Hi H. destruct (He _ _ _ H) as (Hd & Hf & Hs & -> & Hc).
    pose proof (create_empty_effect k w Hi Hk) as [_ _ _ Hh].
    split; [unfold lheld; rewrite Hw; by apply held_fresh|].
    constructor; [done|done|lia|]. intros o. specialize (Hh o). unfold held in *. by rewrite Hc.
  - intros id l' H0 Hch. wp_step. by apply HQ.
Qed.

Lemma lsafe_vault_create r (Q : Vault -> Ledger -> Prop) :
  (forall v l', vault_resource v = r -> vault_held l v = 0 ->
     change (only r 0) (inside r (fun _ => 0)) l l' -> Q v l') -> lsafe (vault_create r) l Q.
Proof.
  intros HQ. apply lsafe_create_empty with LVault; [by apply safe_create_empty_vault| |done|].
  - unfold create_empty_vault, emit. intros w id w' H. minv H. done.
  - intros id l' H0. by apply HQ.
Qed.

Lemma lsafe_bucket_create r (Q : Bucket -> Ledger -> Prop) :
  (forall b l', bucket_resource b = r -> bucket_held l b = 0 ->
     change (only r 0) (inside r (fun _ => 0)) l l' -> Q b l') -> lsafe (bucket_create r) l Q.
Proof.
  intros HQ. apply lsafe_create_empty with LBucket; [by apply safe_create_empty_bucket| |done|].
  - unfold create_empty_bucket. intros w id w' [-> ->]%create_bucket_Ok. done.
  - intros id l' H0. by apply HQ.
Qed.

(** A new resource for the pool units, at a fresh address. *)
Lemma lsafe_new_pool_unit address (Q : ResourceAddress -> Ledger -> Prop) :
  (forall l', ledger_ok l' -> shape l' address = Some (18, pool_unit_features) ->
     lsupply l' address = 0 -> (forall r, r <> address -> world_of l' r = world_of l r) ->
     Q address l') ->
  lsafe (new_pool_unit address) l Q.
Proof.
  intros HQ. unfold new_pool_unit. pose proof (create_Inv 18 pool_unit_features false) as Hc.
  cbn in Hc |- *. wp_steps. specialize (Hc _ ltac:(lia) eq_refl).
  apply HQ; unfold shape, lsupply; rewrite ?world_of_with, ?decide_True by done; try done.
  - intros r w. rewrite world_of_with. case_decide; [|apply Hok]. by intros [= <-].
  - intros r Hr. by rewrite world_of_with, decide_False.
Qed.

Lemma lsafe_resource_type r (Q : option Z -> Ledger -> Prop) :
  Q (fst <$> shape l r) l -> lsafe (resource_type r) l Q.
Proof.
  intros HQ. unfold resource_type. wp_step. apply lsafe_state. intros st Hs. apply wp_ret.
  revert HQ. unfold shape, world_of. rewrite Hs. by destruct st.
Qed.

Lemma lsafe_emit e (Q : unit -> Ledger -> Prop) :
  (forall l', change (fun _ => 0) (fun _ _ => 0) l l' -> Q tt l') -> lsafe (emit_event e) l Q.
Proof. intros HQ. unfold emit_event. wp_step. by apply HQ, change_event. Qed.

Lemma lsafe_exec {A} (x : Exec A) a (Q : A -> Ledger -> Prop) :
  x = Done a -> Q a l -> lsafe (lift_exec x : PM A) l Q.
Proof. intros. by eapply wp_lift_exec. Qed.

Lemma lsafe_vault_address v (Q : ResourceAddress -> Ledger -> Prop) :
  Q (vault_resource v) l -> lsafe (vault_resource_address v) l Q.
Proof. apply lsafe_outer. Qed.

Lemma lsafe_bucket_address b (Q : ResourceAddress -> Ledger -> Prop) :
  Q (bucket_resource b) l -> lsafe (bucket_resource_address b) l Q.
Proof. apply lsafe_outer. Qed.

End Rules.

(** Rewrite with the changes that led to a ledger, last first, and compare the
    objects they speak of. *)
Ltac ledger_rewrite :=
  unfold same_amounts in *;
  repeat match goal with
  | H : change _ _ _ ?l' |- context [lheld ?l' _ _] => rewrite !(ch_held _ _ _ _ H)
  | H : change _ _ _ ?l' |- context [lsupply ?l' _] => rewrite !(ch_supply _ _ _ _ H)
  | H : change _ _ _ ?l' |- context [shape ?l' _] => rewrite !(ch_shape _ _ _ _ H)
  end.
(** The rule for the next call of a pool operation. *)
Tactic Notation "call" uconstr(rule) :=
  try wp_step; cbn beta; eapply rule;
  lazymatch goal with
  | |- ledger_ok _ => first [assumption | eapply ch_ok; eassumption]
  | _ => cbn beta
  end.

Ltac ledger_cases :=
  repeat first
    [ rewrite inside_eq | rewrite inside_ne by congruence
    | rewrite only_eq | rewrite only_ne by congruence ];
  unfold only, inside, move, at_; repeat (case_decide; try congruence); try congruence; try lia;
  try (intros; repeat match goal with E : @eq LocalRef _ _ |- _ => rewrite E in *; clear E end; lia).

End Effects.
