(* ===== verification/PoolSpec.v ===== *)
(** * What the pools promise

    Shares: the amounts that the pools compute in [PreciseDecimal] are shares
    rounded down, so they never favour the caller; redeeming a part of the supply
    never overflows.  The pool of one resource: every operation moves exactly the
    stated amounts between the vault, the caller's buckets and the supply of pool
    units, never panics, and never lowers what a pool unit is worth; a redemption
    of a share that is not zero succeeds.  The pool of two resources:
    contributions, fair up to the smallest unit of each resource.  The rest of the
    pools of several resources is in SeveralPools.v. *)

From S2P Require Import Prelude Decimals PreciseDecimals IndexMap Resource FungibleResource Pools PoolLedger.
Import Int Rounding FungibleInvariant LiquidFungible LockedFungible PDecSpec Effects.

(** ** Shares *)
Module Shares.

(** [u] of [S] pool units, in reserves of [R], rounded down to a multiple of [G]. *)
Definition owed (u S R G : Z) : Z := u * PDec.ONE / S * R / PDec.ONE / G * G.

(** [c / R] of [S], the pool units for a contribution of [c]. *)
Definition minted (c R S : Z) : Z := c * PDec.ONE / R * S / PDec.ONE.

Lemma precise_one_pos : 0 < PDec.ONE. Proof. done. Qed.
Lemma A_pos : 0 < A. Proof. done. Qed.

Lemma div_mul_le a b c : 0 < b -> 0 <= c -> a / b * c * b <= a * c.
Proof. intros Hb Hc. pose proof (Z.mul_div_le a b Hb). nia. Qed.

(** Two roundings down of [a / b * c / d] with [a = x * d]. *)
Lemma share_le x b c d : 0 < b -> 0 < d -> 0 <= c -> x * d / b * c / d * b <= x * c.
Proof.
  intros Hb Hd Hc. pose proof (Z.mul_div_le (x * d / b * c) d Hd).
  pose proof (div_mul_le (x * d) b c Hb Hc).
  apply Z.mul_le_mono_pos_r with d; [done|]. nia.
Qed.

Lemma share_gt x b c d :
  0 < b -> 0 < d -> 0 <= c <= d -> 0 <= x -> x * c < (x * d / b * c / d + 2) * b.
Proof.
  intros Hb Hd Hc Hx. pose proof (Z.mul_succ_div_gt (x * d / b * c) d Hd).
  pose proof (Z.mul_succ_div_gt (x * d) b Hb). apply Z.mul_lt_mono_pos_r with d; [done|]. nia.
Qed.

Lemma owed_le u S R G : 0 < S -> 0 <= u -> 0 <= R -> 0 < G -> owed u S R G * S <= u * R.
Proof.
  intros HS Hu HR HG. unfold owed. pose proof (share_le u S R PDec.ONE HS precise_one_pos HR).
  pose proof (Z.mul_div_le (u * PDec.ONE / S * R / PDec.ONE) G HG). nia.
Qed.

Lemma owed_gt u S R G :
  0 < S -> 0 <= u -> 0 <= R <= PDec.ONE -> 0 < G -> u * R < (owed u S R G + G + 1) * S.
Proof.
  intros HS Hu HR HG. unfold owed. pose proof (share_gt u S R PDec.ONE HS precise_one_pos HR Hu).
  pose proof (Z.mul_succ_div_gt (u * PDec.ONE / S * R / PDec.ONE) G HG). nia.
Qed.

Lemma owed_all S R G : 0 < S -> 0 < G -> (G | R) -> owed S S R G = R.
Proof.
  intros HS HG [q ->]. unfold owed. rewrite (Z.mul_comm S), Z.div_mul by lia.
  rewrite (Z.mul_comm PDec.ONE), Z.div_mul by done. by rewrite Z.div_mul by lia.
Qed.

Lemma owed_nonneg u S R G : 0 < S -> 0 <= u -> 0 <= R -> 0 < G -> 0 <= owed u S R G.
Proof.
  intros. unfold owed. apply Z.mul_nonneg_nonneg; [|lia].
  repeat (apply Z.div_pos; [|done]). apply Z.mul_nonneg_nonneg; [|done].
  apply Z.div_pos; [|done]. apply Z.mul_nonneg_nonneg; done.
Qed.

Lemma owed_max u S R G : 0 < S -> 0 <= u <= S -> 0 <= R -> 0 < G -> owed u S R G <= R.
Proof. intros. pose proof (owed_le u S R G). nia. Qed.

Lemma minted_le c R S : 0 < R -> 0 <= S -> minted c R S * R <= c * S.
Proof. intros. by apply share_le. Qed.

Lemma round_down x D : 0 < D -> RoundSpec.round_value ToNegativeInfinity x D = x / D * D.
Proof.
  intros HD. unfold RoundSpec.round_value. destruct (x mod D =? 0) eqn:E; [|done].
  zbool. pose proof (Z.div_mod x D). lia.
Qed.

Lemma wf_nonneg x : 0 <= x -> x <= 2 ^ 255 - 1 -> PDec.wf x.
Proof. intros. apply pwf_range. lia. Qed.

(** Redeeming at most the whole supply never overflows: the result is the share
    rounded down to the divisibility. *)
Lemma share_owed_spec u S R d :
  0 < S -> 0 <= u <= S -> 0 <= R -> Dec.wf S -> Dec.wf R -> 0 <= d <= 18 ->
  share_owed u S R d = Done (Some (owed u S R (10 ^ (18 - d)))).
Proof.
  intros HS Hu HR HwS HwR Hd. unfold share_owed, owed.
  assert (Hwu : Dec.wf u) by (rewrite DecSpec.wf_range in *; lia).
  rewrite !from_decimal_Done by done. cbn [mbind Exec_bind].
  pose proof (proj1 (DecSpec.wf_range R) HwR) as HR'.
  assert (Hk0 : 0 <= u * PDec.ONE / S)
    by (apply Z.div_pos; [apply Z.mul_nonneg_nonneg; [lia|done]|done]).
  assert (Hk1 : u * PDec.ONE / S <= PDec.ONE)
    by (apply Z.div_le_upper_bound; [done|]; apply Z.mul_le_mono_nonneg_r; [done|lia]).
  rewrite ratio_spec by (done || lia). rewrite (proj2 (Z.leb_le _ _)).
  2: { etransitivity; [exact Hk1|]. by vm_compute. }
  cbn [mbind option_bind]. set (k := u * PDec.ONE / S) in *.
  assert (Hv0 : 0 <= k * R / A) by (apply Z.div_pos; [nia|done]).
  assert (Hv1 : k * R / A <= A * R).
  { apply Z.div_le_upper_bound; [done|]. rewrite ONE_A in Hk1. nia. }
  rewrite share_spec by done. rewrite (proj2 (Z.leb_le _ _)) by (rewrite PMAX_val, A_val in *; lia).
  rewrite to_decimal_nonneg by (done || apply wf_nonneg; rewrite ?A_val in *; lia).
  cbn [mbind Exec_bind]. rewrite Z.div_div, <- ONE_A by done.
  assert (Hx0 : 0 <= k * R / PDec.ONE) by (apply Z.div_pos; [nia|done]).
  assert (Hx1 : k * R / PDec.ONE <= R).
  { apply Z.div_le_upper_bound; [done|]. rewrite Z.mul_comm. nia. }
  rewrite (proj2 (Z.leb_le _ _)) by (rewrite DecSpec.MAX_val; lia).
  set (x := k * R / PDec.ONE) in *.
  rewrite RoundSpec.checked_round_value by (try apply DecSpec.wf_range; unfold Dec.SCALE; lia).
  assert (HG : 0 < 10 ^ (18 - d)) by (apply RoundSpec.pow10_pos; lia).
  unfold Dec.SCALE. rewrite round_down by done.
  set (y := x / 10 ^ (18 - d) * 10 ^ (18 - d)).
  rewrite (proj2 (checked_i_Some 192 y y)); [done|]. split; [done|]. unfold y.
  pose proof (Z.mul_div_le x (10 ^ (18 - d)) HG). pose proof (Z.div_pos x (10 ^ (18 - d)) Hx0 HG).
  change (i_min 192) with (- 2 ^ 191). change (i_max 192) with (2 ^ 191 - 1). nia.
Qed.

End Shares.

(** ** The pool of one resource *)
Module OneSpec.
Import OneResourcePool Shares.

Definition pool_reserves (s : Substate) (l : Ledger) : Z := vault_held l (vault s).
Definition pool_supply (s : Substate) (l : Ledger) : Z := lsupply l (pool_unit_resource_manager s).

(** A pool in the ledger, as [instantiate] makes it. *)
Record pool_ok (s : Substate) (l : Ledger) : Prop := {
  po_ledger : ledger_ok l;
  po_unit : shape l (pool_unit_resource_manager s) = Some (18, pool_unit_features);
  po_resource : is_Some (shape l (vault_resource (vault s)));
  po_distinct : pool_unit_resource_manager s <> vault_resource (vault s)
}.

Lemma pool_ok_change s l l' ds d : pool_ok s l -> change ds d l l' -> pool_ok s l'.
Proof.
  intros [Hl Hu Hr Hd] H. constructor; [apply H| |by rewrite (ch_shape _ _ _ _ H)|done].
  by rewrite (ch_shape _ _ _ _ H).
Qed.

Lemma shape_tracked l r d : shape l r = Some (d, pool_unit_features) -> tracked l r.
Proof. intros H d' f'. rewrite H. by intros [= <- <-]. Qed.

Lemma shape_world l r : is_Some (shape l r) -> is_Some (world_of l r).
Proof. unfold shape. rewrite fmap_is_Some. done. Qed.

(** The units for a contribution: everything when none are in circulation, a
    share of the supply otherwise. *)
Lemma units_to_mint_spec c R S v :
  0 < c -> 0 <= R -> 0 <= S -> Dec.wf c -> Dec.wf R -> Dec.wf S ->
  units_to_mint (c * A) (R * A) (S * A) = Ok v ->
  0 <= v /\ PDec.wf v /\ (S = 0 \/ 0 < S /\ 0 < R) /\
  v / A = if S =? 0 then c + R else minted c R S.
Proof.
  intros Hc HR HS Hwc HwR HwS. unfold units_to_mint.
  pose proof (proj1 (DecSpec.wf_range c) Hwc). pose proof (proj1 (DecSpec.wf_range R) HwR).
  assert (Hpos : forall x, 0 <= x -> (PDec.ZERO <? x * A) = negb (x =? 0)).
  { intros x Hx. unfold PDec.ZERO. destruct (x =? 0) eqn:E; zbool; cbn; [by subst|].
    apply Z.ltb_lt. rewrite A_val. lia. }
  rewrite !Hpos by done.
  destruct (S =? 0) eqn:ES, (R =? 0) eqn:ER; zbool; cbn [negb]; try subst; try done.
  - intros [= <-]. rewrite Z.div_mul, Z.add_0_r by done.
    split_and!; [apply Z.mul_nonneg_nonneg; [lia|done]| |by left|done].
    apply wf_nonneg; rewrite A_val; lia.
  - destruct (PDec.checked_add _ _) eqn:E; [|done]. intros [= <-].
    apply pchecked_add_Some in E as [-> Hv]. rewrite <- Z.mul_add_distr_r, Z.div_mul in * by done.
    split_and!; [apply Z.mul_nonneg_nonneg; [lia|done]|done|by left|done].
  - unfold minted. assert (Hk0 : 0 <= c * PDec.ONE / R)
      by (apply Z.div_pos; [apply Z.mul_nonneg_nonneg; [lia|done]|lia]).
    rewrite ratio_spec by (done || lia).
    destruct (_ <=? _) eqn:E1; cbn [mbind option_bind ok_or]; [|done].
    set (k := c * PDec.ONE / R) in *. rewrite share_spec by done.
    destruct (k * S / A <=? PDec.MAX) eqn:E2; [|done]. intros [= <-]. zbool.
    assert (0 <= k * S / A) by (apply Z.div_pos; [nia|done]).
    split_and!; [done|apply wf_nonneg; [done|exact E2]|right; lia|].
    by rewrite Z.div_div, <- ONE_A.
Qed.

(** A contribution of [c] for [m] pool units [ub]. *)
Record contributed (s : Substate) (b ub : Bucket) (c m : Z) (l l' : Ledger) : Prop := {
  ct_pool : pool_ok s l';
  ct_given : bucket_resource b = vault_resource (vault s) /\ bucket_held l b = c /\ 0 < c;
  ct_consumed : bucket_held l' b = 0;
  ct_units : bucket_resource ub = pool_unit_resource_manager s /\ bucket_held l' ub = m /\ 0 < m;
  ct_reserves : pool_reserves s l' = pool_reserves s l + c;
  ct_supply : pool_supply s l' = pool_supply s l + m;
  ct_amount : m = if pool_supply s l =? 0 then c + pool_reserves s l
                  else minted c (pool_reserves s l) (pool_supply s l);
  ct_backed : pool_supply s l = 0 \/ 0 < pool_supply s l /\ 0 < pool_reserves s l
}.

Lemma lsafe_contribute s b l :
  pool_ok s l ->
  lsafe (contribute s b) l (fun ub l' => exists c m, contributed s b ub c m l l').
Proof.
  intros Hp. pose proof Hp as [Hl Hu Hr Hd]. unfold contribute.
  call lsafe_bucket_is_empty. intros c Hc. call lsafe_guard. intros Hnz.
  call lsafe_bucket_address. call lsafe_vault_address. call lsafe_guard. intros Hres%N.eqb_eq.
  assert (Hf : is_Some (world_of l (bucket_resource b))) by (rewrite Hres; by apply shape_world).
  rewrite (Hc Hf) in Hnz. clear c Hc.
  call lsafe_vault_amount. call lsafe_supply; [by eapply shape_tracked|]. intros _.
  call lsafe_bucket_amount. intros c Hc. rewrite (Hc Hf). clear c Hc.
  assert (Ht : tracked l (pool_unit_resource_manager s)) by (by eapply shape_tracked).
  pose proof (lheld_wf l (vault_resource (vault s)) (LVault (vault_id (vault s))) Hl) as HwR.
  pose proof (lheld_bounds l (vault_resource (vault s)) (LVault (vault_id (vault s))) Hl) as HR.
  pose proof (lheld_wf l (bucket_resource b) (LBucket (bucket_id b)) Hl) as Hwc.
  pose proof (lheld_bounds l (bucket_resource b) (LBucket (bucket_id b)) Hl) as Hc.
  destruct (lsupply_wf l _ Hl Ht) as [HS HwS].
  call lsafe_exec; [by apply from_decimal_Done|]. call lsafe_exec; [by apply from_decimal_Done|].
  call lsafe_exec; [by apply from_decimal_Done|].
  fold (bucket_held l b) in *. fold (vault_held l (vault s)) in *.
  assert (Hc0 : 0 < bucket_held l b) by (unfold Dec.is_zero in Hnz; zbool; lia).
  wp_step. destruct (units_to_mint _ _ _) as [v|e] eqn:Hm; cbn [or_error]; [|by apply wp_throw].
  apply units_to_mint_spec in Hm as (Hv & Hwv & Hback & Hval); [|done || lia..].
  wp_step. call lsafe_or_fail; [by apply to_decimal_nonneg|]. intros m Hm.
  destruct (v / A <=? Dec.MAX); [|done]. injection Hm as <-.
  call lsafe_guard. intros Hnm. call lsafe_emit. intros l1 H1. call lsafe_vault_put.
  intros _ l2 H2. call lsafe_mint.
  { intros d f. ledger_rewrite. apply Ht. }
  intros ub l3 H0 Hub Hfresh H3. exists (bucket_held l b), (v / A).
  assert (Hp3 : pool_ok s l3) by (do 3 (eapply pool_ok_change; [|eassumption]); exact Hp).
  unfold bucket_held, vault_held in *. rewrite Hres in *.
  constructor; try done; unfold pool_reserves, pool_supply, bucket_held, vault_held;
    rewrite ?Hres, ?Hub in *.
  all: revert Hfresh; ledger_rewrite; ledger_cases.
  unfold Dec.ZERO in Hnm. zbool. intros. split_and!; [done|lia|lia].
Qed.

(** A redemption of [u] pool units for [o] of the resource, in [t]. *)
Record redeemed (s : Substate) (b t : Bucket) (u o : Z) (l l' : Ledger) : Prop := {
  rd_pool : pool_ok s l';
  rd_given : bucket_resource b = pool_unit_resource_manager s /\ bucket_held l b = u /\ 0 < u;
  rd_consumed : bucket_held l' b = 0;
  rd_paid : bucket_resource t = vault_resource (vault s) /\ bucket_held l' t = o /\ 0 < o;
  rd_reserves : pool_reserves s l' = pool_reserves s l - o;
  rd_supply : pool_supply s l' = pool_supply s l - u;
  rd_amount : exists d f, shape l (vault_resource (vault s)) = Some (d, f) /\ 0 <= d <= 18 /\
    o = owed u (pool_supply s l) (pool_reserves s l) (10 ^ (18 - d));
  rd_backed : u <= pool_supply s l
}.

(** Redeeming nothing is an error even when nothing is in circulation. *)
Lemma share_owed_zero S R d :
  0 <= S -> 0 <= R -> Dec.wf S -> Dec.wf R -> 0 <= d <= 18 ->
  exists o, share_owed 0 S R d = Done o /\ forall v, o = Some v -> v = 0.
Proof.
  intros HS HR HwS HwR Hd. destruct (decide (S = 0)) as [->|].
  - exists None. unfold share_owed. rewrite !from_decimal_Done by done. done.
  - exists (Some (owed 0 S R (10 ^ (18 - d)))). rewrite share_owed_spec by (done || lia).
    split; [done|]. intros v [= <-]. unfold owed.
    by repeat rewrite ?Z.mul_0_l, ?Zdiv_0_l.
Qed.

Lemma lsafe_redeem s b l :
  pool_ok s l -> lsafe (redeem s b) l (fun t l' => exists u o, redeemed s b t u o l l').
Proof.
  intros Hp. pose proof Hp as [Hl Hu Hr Hd]. unfold redeem.
  call lsafe_bucket_address. call lsafe_guard. intros Hres%N.eqb_eq.
  call lsafe_bucket_amount. intros u Hb. rewrite Hb by (rewrite Hres; by apply shape_world). clear u Hb.
  call lsafe_supply; [by eapply shape_tracked|]. intros _. call lsafe_vault_amount.
  call lsafe_vault_address. call lsafe_divisibility; [by apply shape_world|]. intros d f Hdf Hdr.
  assert (Ht : tracked l (pool_unit_resource_manager s)) by (by eapply shape_tracked).
  pose proof (lheld_wf l (vault_resource (vault s)) (LVault (vault_id (vault s))) Hl) as HwR.
  pose proof (lheld_bounds l (vault_resource (vault s)) (LVault (vault_id (vault s))) Hl) as HR.
  destruct (lheld_supply l (pool_unit_resource_manager s) (LBucket (bucket_id b)) Hl Ht) as [Hus HSM].
  destruct (lsupply_wf l _ Hl Ht) as [HS HwS].
  fold (vault_held l (vault s)) in *.
  rewrite <- Hres in Hus. fold (bucket_held l b) in Hus. rewrite Hres in Hus.
  set (u := bucket_held l b) in *. set (R := vault_held l (vault s)) in *.
  set (S := lsupply l (pool_unit_resource_manager s)) in *.
  assert (exists o, share_owed u S R d = Done o /\ forall v, o = Some v ->
    v = 0 \/ 0 < u /\ v = owed u S R (10 ^ (18 - d))) as (o & Ho & Hv).
  { destruct (decide (u = 0)) as [E|].
    - rewrite E. destruct (share_owed_zero S R d) as (o & ? & ?); try done; try lia. exists o. auto.
    - eexists. split; [apply share_owed_spec; done || lia|]. intros v [= <-]. right. lia. }
  unfold calculate_amount_owed. call lsafe_or_fail; [exact Ho|]. intros v Hov.
  call lsafe_guard. unfold Dec.ZERO. intros Hnz. zbool.
  destruct (Hv v Hov) as [|[Hu0 ->]]; [done|]. clear Hv Hov Ho o.
  assert (HG : 0 < 10 ^ (18 - d)) by (apply RoundSpec.pow10_pos; lia).
  pose proof (owed_nonneg u S R (10 ^ (18 - d)) ltac:(lia) ltac:(lia) ltac:(lia) HG) as Ho0.
  pose proof (owed_max u S R (10 ^ (18 - d)) ltac:(lia) ltac:(lia) ltac:(lia) HG) as HoR.
  set (o := owed u S R (10 ^ (18 - d))) in *.
  call lsafe_emit. intros l1 H1. call lsafe_burn.
  { intros d' f'. ledger_rewrite. rewrite Hres. apply Ht. }
  intros l2 H2. call lsafe_vault_take_advanced.
  { rewrite DecSpec.wf_range in *. lia. }
  intros t o' l3 [(d' & f' & _ & _ & Hfor & _) _ Htr Htf Htc]. injection Hfor as <-.
  assert (Hp3 : pool_ok s l3) by (do 3 (eapply pool_ok_change; [|eassumption]); exact Hp).
  exists u, o. unfold bucket_held, vault_held in *.
  constructor; try done; unfold pool_reserves, pool_supply, bucket_held, vault_held; rewrite ?Hres, ?Htr in *.
  all: revert Htf; ledger_rewrite; ledger_cases.
  - intros _. unfold u. rewrite ?Hres. lia.
  - intros _. by exists d, f.
Qed.

(** A new pool holds nothing and has no units. *)
Lemma lsafe_instantiate unit_address r l :
  ledger_ok l -> unit_address <> r ->
  lsafe (instantiate unit_address r) l (fun s l' =>
    pool_ok s l' /\ pool_reserves s l' = 0 /\ pool_supply s l' = 0 /\
    pool_unit_resource_manager s = unit_address /\ vault_resource (vault s) = r).
Proof.
  intros Hl Hne. unfold instantiate. call lsafe_resource_type. call lsafe_guard. intros Hf.
  call lsafe_new_pool_unit. intros l1 Hl1 Hu Hs Hother. call lsafe_vault_create.
  intros v l2 Hv H0 H2. wp_steps. cbn.
  assert (Hr : shape l1 r = shape l r) by (unfold shape; by rewrite Hother).
  split_and!; try done.
  - constructor; cbn; rewrite ?Hv; ledger_rewrite; try done; [apply H2|]. rewrite Hr.
    destruct (shape l r); done.
  - revert H0. unfold pool_reserves, vault_held. cbn. rewrite Hv. ledger_rewrite. ledger_cases.
  - unfold pool_supply. cbn. ledger_rewrite. ledger_cases.
Qed.

Lemma lsafe_protected_deposit s b l :
  pool_ok s l ->
  lsafe (protected_deposit s b) l (fun _ l' =>
    pool_ok s l' /\ bucket_resource b = vault_resource (vault s) /\ bucket_held l' b = 0 /\
    pool_reserves s l' = pool_reserves s l + bucket_held l b /\
    pool_supply s l' = pool_supply s l).
Proof.
  intros Hp. pose proof Hp as [Hl Hu Hr Hd]. unfold protected_deposit.
  call lsafe_bucket_amount. intros a _. call lsafe_vault_put. intros Hres l1 H1.
  call lsafe_emit. intros l2 H2.
  assert (Hp2 : pool_ok s l2) by (do 2 (eapply pool_ok_change; [|eassumption]); exact Hp).
  unfold pool_reserves, pool_supply, bucket_held, vault_held in *. rewrite Hres in *.
  split_and!; try done; ledger_rewrite; ledger_cases.
Qed.

Lemma lsafe_protected_withdraw s a st l :
  pool_ok s l -> Dec.wf a ->
  lsafe (protected_withdraw s a st) l (fun t l' => exists a',
    pool_ok s l' /\ bucket_resource t = vault_resource (vault s) /\ bucket_held l' t = a' /\
    0 <= a' /\ (exists d, for_withdrawal a d st = Done (Some a')) /\
    pool_reserves s l' = pool_reserves s l - a' /\ pool_supply s l' = pool_supply s l).
Proof.
  intros Hp Ha. pose proof Hp as [Hl Hu Hr Hd]. unfold protected_withdraw.
  call lsafe_vault_take_advanced; [done|].
  intros t a' l1 [(d & f & _ & _ & Hfor & H0 & _) _ Htr Htf H1].
  call lsafe_bucket_amount. intros x _. call lsafe_emit. intros l2 H2. wp_step. exists a'.
  assert (Hp2 : pool_ok s l2) by (do 2 (eapply pool_ok_change; [|eassumption]); exact Hp).
  unfold pool_reserves, pool_supply, bucket_held, vault_held in *. rewrite Htr in *.
  split_and!; try done; [|by exists d| |]; revert Htf; ledger_rewrite; ledger_cases.
Qed.

(** *** Redemption succeeds *)

(** Object [o] of resource [r] holds liquid amounts only, in a container nobody
    has frozen. *)
Record free (l : Ledger) (r : ResourceAddress) (o : LocalRef) (w : World) (c : Container) : Prop := {
  fr_world : resources l !! r = Some (Fungible w);
  fr_inv : Inv w;
  fr_container : containers w !! o = Some c;
  fr_unlocked : c_locked c = [];
  fr_unfrozen : f_vault_freeze (features w) = true -> Z.land (c_frozen c) WITHDRAW = 0
}.

Abbreviation runs m l Q := (wp m l Q (fun _ _ => False)) (only parsing).

Lemma runs_on {A} (m : M World ResError A) l r w a w' (Q : A -> Ledger -> Prop) :
  resources l !! r = Some (Fungible w) -> m w = Done (Ok a, w') ->
  Q a (with_resource r (Fungible w') l) -> runs (on r m) l Q.
Proof. intros Hw Hm HQ. unfold wp, on. by rewrite Hw, Hm. Qed.

Lemma read_container_run w o c : containers w !! o = Some c -> read_container o w = Done (Ok c, w).
Proof. intros Hc. unfold read_container, mbind, M_bind, gets. by rewrite Hc. Qed.

Lemma get_amount_run l r o w c : free l r o w c -> get_amount o w = Done (Ok (c_liquid c), w).
Proof.
  intros [_ Hi Hc Hl _]. unfold get_amount. unfold mbind at 1, M_bind.
  rewrite (read_container_run _ _ _ Hc), Hl. change (locked_amount []) with 0.
  pose proof (value_bound _ _ _ _ _ (inv_l _ Hi) Hc). pose proof (inv_bounded _ Hi).
  pose proof (locked_amount_nonneg (c_locked c)).
  rewrite (proj2 (DecSpec.checked_add_Some (c_liquid c) 0 (c_liquid c))); [done|].
  rewrite Z.add_0_r. split; [done|]. apply DecSpec.wf_range. rewrite DecSpec.MAX_val in *. lia.
Qed.

Lemma free_held l r o w c : free l r o w c -> lheld l r o = c_liquid c.
Proof.
  intros [Hw _ Hc Hl _]. unfold lheld, world_of. rewrite Hw. cbn.
  by rewrite (held_Some _ _ _ Hc), value_no_lock.
Qed.

Lemma with_resource_same r w l : resources l !! r = Some (Fungible w) -> with_resource r (Fungible w) l = l.
Proof. intros Hw. destruct l as [rs es]. unfold with_resource. cbn in *. f_equal. by apply insert_id. Qed.

Lemma runs_amount l r o w c (Q : Decimal -> Ledger -> Prop) :
  free l r o w c -> Q (lheld l r o) l -> runs (on r (get_amount o)) l Q.
Proof.
  intros Hf HQ. eapply runs_on; [apply Hf|by eapply get_amount_run|].
  rewrite with_resource_same by apply Hf. by rewrite <- (free_held _ _ _ _ _ Hf).
Qed.

Lemma runs_outer l r o w c (Q : ResourceAddress -> Ledger -> Prop) :
  free l r o w c -> Q r l -> runs (outer_object r o) l Q.
Proof.
  intros [Hw _ Hc _ _] HQ. unfold outer_object, resource_state. do 2 wp_step. apply wp_gets.
  rewrite Hw. do 2 wp_step. unfold object_exists. rewrite Hc.
  apply wp_guard_or; [|done]. intros _. by apply wp_ret.
Qed.

Lemma runs_supply l r w (Q : Decimal -> Ledger -> Prop) :
  resources l !! r = Some (Fungible w) -> f_track_total_supply (features w) = true ->
  Q (total_supply w) l -> runs (supply_of_units r) l Q.
Proof.
  intros Hw Ht HQ. unfold supply_of_units, total_supply_of. wp_step.
  eapply runs_on; [done|unfold get_total_supply, gets; by rewrite Ht|].
  rewrite with_resource_same by done. by eapply wp_lift_exec.
Qed.

Lemma drop_run l r b w c :
  free l r (LBucket b) w c -> drop_fungible_bucket b w = Done (Ok c, del_container w (LBucket b)).
Proof.
  intros [_ _ Hc Hl _]. unfold drop_fungible_bucket. unfold mbind at 1, M_bind.
  rewrite (read_container_run _ _ _ Hc). cbn. by rewrite Hl.
Qed.

Lemma runs_burn l b w c (Q : unit -> Ledger -> Prop) :
  free l (bucket_resource b) (LBucket (bucket_id b)) w c -> features w = pool_unit_features ->
  c_liquid c <= total_supply w -> Dec.wf (total_supply w) ->
  (forall w', Q tt (with_resource (bucket_resource b) (Fungible w') l)) -> runs (bucket_burn b) l Q.
Proof.
  intros Hf Hw Hle Hwf HQ.
  assert (H0 : 0 <= c_liquid c) by (apply (value_bound _ _ _ _ _ (inv_l _ (fr_inv _ _ _ _ _ Hf))
    (fr_container _ _ _ _ _ Hf))).
  assert (exists w', burn_internal (bucket_id b) w = Done (Ok tt, w')) as [w' Hb].
  { unfold burn_internal, mbind, M_bind, gets. rewrite Hw. cbn [f_burn pool_unit_features guard_or].
    unfold mret, M_ret. rewrite (drop_run _ _ _ _ _ Hf). unfold emit, modify.
    cbn [f_track_total_supply pool_unit_features total_supply add_event with_objects del_container set_supply].
    cbn. rewrite DecSpec.checked_sub_nonneg by (done || lia). by eexists. }
  eapply runs_on; [apply Hf|exact Hb|]. apply HQ.
Qed.

Lemma runs_vault_take l v a w c (Q : Bucket -> Ledger -> Prop) :
  free l (vault_resource v) (LVault (vault_id v)) w c -> 0 <= a <= c_liquid c ->
  (10 ^ (18 - divisibility w) | a) -> (forall b l', Q b l') -> runs (vault_take v a) l Q.
Proof.
  intros Hf Ha Hg HQ. pose proof Hf as [Hw Hi Hc Hl Hz].
  assert (Hwf : Dec.wf (c_liquid c)).
  { pose proof (lheld_bounds l (vault_resource v)). pose proof (value_bound _ _ _ _ _ (inv_l _ Hi) Hc).
    pose proof (inv_bounded _ Hi). pose proof (locked_amount_nonneg (c_locked c)).
    apply DecSpec.wf_range. rewrite DecSpec.MAX_val in *. lia. }
  assert (exists id w', FungibleResource.vault_take_advanced (vault_id v) a Exact w = Done (Ok id, w'))
    as (id & w' & Ht).
  { unfold FungibleResource.vault_take_advanced, mbind, M_bind.
    assert (assert_not_frozen (vault_id v) WITHDRAW w = Done (Ok tt, w)) as ->.
    { unfold assert_not_frozen, mbind, M_bind, gets. destruct (f_vault_freeze (features w)); [|done].
      cbn [negb]. rewrite (read_container_run _ _ _ Hc), Hz by done. done. }
    unfold gets. cbn [for_withdrawal lift_exec ok_or lift_result].
    assert (check_fungible_amount a (divisibility w) = true) as ->.
    { unfold check_fungible_amount, Dec.is_negative. rewrite (proj2 (Z.ltb_ge a 0)) by lia.
      apply Z.eqb_eq, Z.rem_divide; [|done].
      pose proof (il_div _ _ _ (inv_l _ Hi)). pose proof (Z.pow_pos_nonneg 10 (18 - divisibility w)). lia. }
    cbn [guard_or]. unfold mret, M_ret, internal_take, mbind, M_bind.
    rewrite (read_container_run _ _ _ Hc), liquid_take_spec by (done || lia).
    rewrite (proj2 (Z.ltb_ge (c_liquid c) a)) by lia. by do 2 eexists. }
  unfold vault_take, vault_take_advanced. wp_step. eapply runs_on; [exact Hw|exact Ht|]. wp_step. apply HQ.
Qed.

(** A holder of pool units whose share is not zero gets it. *)
Lemma runs_redeem s b l wu cu wv cv :
  pool_ok s l -> bucket_resource b = pool_unit_resource_manager s ->
  free l (bucket_resource b) (LBucket (bucket_id b)) wu cu ->
  free l (vault_resource (vault s)) (LVault (vault_id (vault s))) wv cv ->
  owed (bucket_held l b) (pool_supply s l) (pool_reserves s l) (10 ^ (18 - divisibility wv)) <> 0 ->
  runs (redeem s b) l (fun _ _ => True).
Proof.
  intros Hp Hres Hfb Hfv Ho. pose proof Hp as [Hl Hu Hr Hd].
  assert (Hus : features wu = pool_unit_features /\ total_supply wu = pool_supply s l).
  { pose proof (fr_world _ _ _ _ _ Hfb) as Hw. rewrite Hres in Hw. revert Hu.
    unfold pool_supply, lsupply, shape, world_of. rewrite Hw. cbn. by intros [= _ ->]. }
  destruct Hus as [Huf Hus].
  assert (Ht : tracked l (pool_unit_resource_manager s)) by (by eapply shape_tracked).
  pose proof (lheld_wf l (vault_resource (vault s)) (LVault (vault_id (vault s))) Hl) as HwR.
  pose proof (lheld_bounds l (vault_resource (vault s)) (LVault (vault_id (vault s))) Hl) as HR.
  destruct (lheld_supply l (pool_unit_resource_manager s) (LBucket (bucket_id b)) Hl Ht) as [Hub HSM].
  destruct (lsupply_wf l _ Hl Ht) as [HS HwS].
  pose proof (free_held _ _ _ _ _ Hfb) as Hhb. pose proof (free_held _ _ _ _ _ Hfv) as Hhv.
  fold (bucket_held l b) in Hhb. fold (vault_held l (vault s)) in *. fold (pool_reserves s l) in *.
  rewrite <- Hres in Hub at 1 2. fold (bucket_held l b) in Hub. fold (pool_supply s l) in *.
  set (u := bucket_held l b) in *. set (R := pool_reserves s l) in *. set (S := pool_supply s l) in *.
  set (d := divisibility wv) in *. pose proof (il_div _ _ _ (inv_l _ (fr_inv _ _ _ _ _ Hfv))) as Hdr. fold d in Hdr.
  assert (HG : 0 < 10 ^ (18 - d)) by (apply RoundSpec.pow10_pos; lia).
  assert (Hu0 : 0 < u).
  { destruct (decide (u = 0)) as [E|]; [|lia]. destruct Ho. rewrite E. unfold owed.
    by repeat rewrite ?Z.mul_0_l, ?Zdiv_0_l. }
  pose proof (owed_nonneg u S R (10 ^ (18 - d)) ltac:(lia) ltac:(lia) ltac:(lia) HG) as Ho0.
  pose proof (owed_max u S R (10 ^ (18 - d)) ltac:(lia) ltac:(lia) ltac:(lia) HG) as HoR.
  unfold redeem. wp_step. eapply runs_outer; [exact Hfb|]. wp_step.
  apply wp_guard_or; [intros _|rewrite Hres, N.eqb_refl; done].
  wp_step. unfold bucket_amount, resource_state. do 2 wp_step. apply wp_gets.
  rewrite (fr_world _ _ _ _ _ Hfb). wp_step. eapply runs_amount; [exact Hfb|].
  wp_step. eapply runs_supply; [rewrite <- Hres; apply Hfb|by rewrite Huf|]. rewrite Hus.
  wp_step. eapply runs_amount; [exact Hfv|]. wp_step. eapply runs_outer; [exact Hfv|].
  wp_step. unfold divisibility_of, resource_type, resource_state. do 3 wp_step. apply wp_gets.
  rewrite (fr_world _ _ _ _ _ Hfv). do 2 wp_step. wp_step.
  unfold calculate_amount_owed, or_fail. do 2 wp_step.
  change (lheld l (bucket_resource b) (LBucket (bucket_id b))) with u.
  change (lheld l (vault_resource (vault s)) (LVault (vault_id (vault s)))) with R. fold d.
  eapply wp_lift_exec; [apply share_owed_spec; done || lia|].
  apply wp_lift_result; [|done]. intros v [= <-].
  wp_step. apply wp_guard_or; [intros _|unfold Dec.ZERO; intros E; zbool; done].
  wp_step. unfold emit_event. wp_step. wp_step.
  eapply (runs_burn (with_event _ l)); [by destruct Hfb; constructor|done|lia|by rewrite Hus|].
  intros w'. eapply runs_vault_take.
  - destruct Hfv as [Hw ? ? ? ?]. constructor; try done. cbn. rewrite lookup_insert_ne; [exact Hw|congruence].
  - lia.
  - fold d. unfold owed. apply Z.divide_factor_r.
  - done.
Qed.

(** *** What a pool unit is worth *)

Lemma supply_nonneg s l : pool_ok s l -> 0 <= pool_supply s l.
Proof.
  intros [Hl Hu _ _]. apply (lsupply_wf l); [done|]. by eapply shape_tracked.
Qed.

Lemma reserves_nonneg s l : pool_ok s l -> 0 <= pool_reserves s l.
Proof. intros [Hl _ _ _]. apply (lheld_bounds l _ _ Hl). Qed.

Lemma contributed_price s b ub c m l l' :
  contributed s b ub c m l l' -> 0 < pool_supply s l ->
  m * pool_reserves s l <= c * pool_supply s l.
Proof.
  intros [_ (_ & _ & Hc) _ _ _ _ -> Hb] HS. rewrite (proj2 (Z.eqb_neq _ _)) by lia.
  apply minted_le; lia.
Qed.

Lemma redeemed_price s b t u o l l' :
  pool_ok s l -> redeemed s b t u o l l' -> o * pool_supply s l <= u * pool_reserves s l.
Proof.
  intros Hp [_ (_ & _ & Hu) _ _ _ _ (d & f & _ & Hd & ->) Hle].
  pose proof (reserves_nonneg s l Hp). pose proof (RoundSpec.pow10_pos (18 - d)).
  apply owed_le; lia.
Qed.

(** [l'] after [l]: contributions, redemptions and deposits in any order, among
    transactions of others that leave the pool's vault and the supply of its
    units alone, while pool units are in circulation. *)
Inductive pool_step (s : Substate) : Ledger -> Ledger -> Prop :=
| step_contribute b ub l l' : contribute s b l = Done (Ok ub, l') -> pool_step s l l'
| step_redeem b t l l' : redeem s b l = Done (Ok t, l') -> pool_step s l l'
| step_deposit b l l' : protected_deposit s b l = Done (Ok tt, l') -> pool_step s l l'
| step_other l l' : pool_ok s l' -> pool_reserves s l' = pool_reserves s l ->
    pool_supply s l' = pool_supply s l -> pool_step s l l'.

Inductive pool_history (s : Substate) (l : Ledger) : Ledger -> Prop :=
| history_refl : pool_history s l l
| history_step l1 l2 : pool_history s l l1 -> 0 < pool_supply s l1 -> pool_step s l1 l2 ->
    pool_history s l l2.

(** The worth [R / S] of a pool unit is at least as high in [l'] as in [l]. *)
Definition worth_le (s : Substate) (l l' : Ledger) : Prop :=
  pool_reserves s l * pool_supply s l' <= pool_reserves s l' * pool_supply s l.

Lemma pool_step_worth s l l' :
  pool_ok s l -> 0 < pool_supply s l -> pool_step s l l' -> pool_ok s l' /\ worth_le s l l'.
Proof.
  intros Hp HS H. pose proof (reserves_nonneg s l Hp). unfold worth_le.
  destruct H as [b ub l l' H|b t l l' H|b l l' H|l l' Hp' -> ->].
  - pose proof (lsafe_contribute s b l Hp) as Hc. unfold wp in Hc. rewrite H in Hc.
    destruct Hc as (c & m & Hc). pose proof (contributed_price _ _ _ _ _ _ _ Hc HS).
    destruct Hc as [Hp' _ _ _ HR' HS' _ _]. split; [done|]. rewrite HR', HS'. nia.
  - pose proof (lsafe_redeem s b l Hp) as Hr. unfold wp in Hr. rewrite H in Hr.
    destruct Hr as (u & o & Hr). pose proof (redeemed_price _ _ _ _ _ _ _ Hp Hr).
    destruct Hr as [Hp' _ _ _ HR' HS' _ _]. split; [done|]. rewrite HR', HS'. nia.
  - pose proof (lsafe_protected_deposit s b l Hp) as Hd. unfold wp in Hd. rewrite H in Hd.
    destruct Hd as (Hp' & Hres & _ & HR' & HS'). split; [done|]. rewrite HR', HS'.
    pose proof (lheld_bounds l (bucket_resource b) (LBucket (bucket_id b)) (po_ledger _ _ Hp)).
    unfold bucket_held. nia.
  - split; [done|]. lia.
Qed.

Lemma pool_history_worth s l l' :
  pool_ok s l -> pool_history s l l' -> pool_ok s l' /\ worth_le s l l'.
Proof.
  intros Hp. induction 1 as [|l1 l2 _ [Hp1 IH] HS Hstep]; [split; [done|unfold worth_le; lia]|].
  destruct (pool_step_worth s l1 l2 Hp1 HS Hstep) as [Hp2 H12]. split; [done|].
  pose proof (supply_nonneg s l Hp). pose proof (supply_nonneg s l2 Hp2).
  unfold worth_le in *. apply Z.mul_le_mono_pos_r with (pool_supply s l1); [done|]. nia.
Qed.

End OneSpec.

(** ** Contributions to a pool of two resources *)
Module TwoShares.
Import TwoResourcePool Shares.

(** A precise ratio of an amount [x] to reserves [R], applied to [z]. *)
Lemma ratio_times_spec x R z :
  0 <= x -> PDec.wf x -> 0 < R -> 0 <= z ->
  ratio_times x (R * A) (z * A) =
    if x * A / R <=? PDec.MAX then
      if x * A / R * z / A <=? PDec.MAX then Some (x * A / R * z / A) else None
    else None.
Proof.
  intros Hx Hwx HR Hz. unfold ratio_times. rewrite pchecked_div_spec by done.
  rewrite (proj2 (Z.eqb_neq (R * A) 0)) by (rewrite A_val; lia). cbv zeta.
  rewrite ONE_A, Z.mul_assoc, Z.quot_mul_cancel_r by (done || lia).
  assert (0 <= x * A / R) by (apply Z.div_pos; [apply Z.mul_nonneg_nonneg; done|done]).
  rewrite Z.quot_div_nonneg by (done || (apply Z.mul_nonneg_nonneg; done)).
  rewrite Z.abs_eq by done. destruct (_ <=? _); [|done]. cbn [mbind option_bind].
  by apply share_spec.
Qed.

Lemma ratio_times_Some x R z v :
  0 <= x -> PDec.wf x -> 0 < R -> 0 <= z -> ratio_times x (R * A) (z * A) = Some v ->
  v = x * A / R * z / A /\ 0 <= v /\ PDec.wf v.
Proof.
  intros Hx Hwx HR Hz. rewrite ratio_times_spec by done.
  destruct (_ <=? PDec.MAX); [|done]. destruct (_ <=? PDec.MAX) eqn:E; [|done]. intros [= <-]. zbool.
  assert (0 <= x * A / R * z / A).
  { apply Z.div_pos; [|done]. apply Z.mul_nonneg_nonneg; [|done].
    apply Z.div_pos; [|done]. by apply Z.mul_nonneg_nonneg. }
  split_and!; [done|done|]. by apply wf_nonneg.
Qed.

(** What the candidates promise: [v] units for [x1] and [x2]. *)
Definition fair (x R S v : Z) : Prop := v * R < (x + 1) * S.

Lemma fair_back x d R S v :
  0 <= R -> 0 < S -> d * R <= x * A -> v * A <= d * S -> fair x R S v.
Proof.
  intros HR HS Hd Hv. unfold fair. enough (v * R <= x * S) by lia.
  apply Z.mul_le_mono_pos_r with A; [done|]. nia.
Qed.

Lemma fair_other x d R S v : 0 <= R -> 0 < S -> v * A <= d * S -> x = d * R / A -> fair x R S v.
Proof.
  intros HR HS Hv ->. unfold fair. pose proof (Z.mul_succ_div_gt (d * R) A A_pos).
  apply Z.mul_lt_mono_pos_r with A; [done|]. nia.
Qed.

Lemma max_by_In {T} (key : T -> Z) l x : max_by key l = Some x -> x ∈ l.
Proof.
  revert x. induction l as [|y l IH]; intros x; [done|]. cbn.
  destruct (max_by key l) as [z|].
  - destruct (_ <? _); intros [= <-]; [left|right; auto].
  - intros [= <-]. left.
Qed.

Lemma candidates_spec c1 c2 R1 R2 S x1 x2 v :
  0 <= c1 -> 0 <= c2 -> PDec.wf (c1 * A) -> PDec.wf (c2 * A) -> 0 < R1 -> 0 < R2 -> 0 < S ->
  (x1, x2, v) ∈ candidates (c1 * A) (c2 * A) (R1 * A) (R2 * A) (S * A) ->
  0 <= x1 <= c1 * A /\ 0 <= x2 <= c2 * A /\ 0 <= v /\ PDec.wf v /\
  fair x1 R1 S v /\ fair x2 R2 S v.
Proof.
  intros Hc1 Hc2 Hw1 Hw2 HR1 HR2 HS. unfold candidates. cbv zeta.
  assert (Hca : forall c, 0 <= c -> 0 <= c * A) by (intros; by apply Z.mul_nonneg_nonneg).
  assert (Hcand : forall x y,
    0 <= x <= c1 * A ->
    (pool_units_to_mint ← ratio_times x (R1 * A) (S * A); Some (x, y, pool_units_to_mint))
      = Some (x1, x2, v) ->
    x1 = x /\ x2 = y /\ v = x * A / R1 * S / A /\ 0 <= v /\ PDec.wf v).
  { intros x y Hx H. destruct (ratio_times _ _ _) as [v'|] eqn:E; [|done].
    injection H as <- <- <-. pose proof (proj1 (pwf_range _) Hw1).
    apply ratio_times_Some in E as (-> & ? & ?); try lia; [done|]. apply wf_nonneg; lia. }
  intros ([item|] & Hin & Hitem)%list_elem_of_omap; [|done].
  cbn [mbind option_bind] in Hitem. destruct item as [y1 y2].
  destruct ((y1 <=? c1 * A) && (y2 <=? c2 * A)) eqn:Hle; [|done].
  apply andb_true_iff in Hle as [Hy1%Z.leb_le Hy2%Z.leb_le].
  apply elem_of_cons in Hin as [Hin|Hin]; [|apply list_elem_of_singleton in Hin];
    symmetry in Hin; apply fmap_Some in Hin as (z & Hz & [= -> ->]);
    apply ratio_times_Some in Hz as (Ez & Hz & _); try (auto || lia);
    apply Hcand in Hitem as (-> & -> & Ev & Hv & Hwv); try (auto || lia); split_and!; auto; try lia.
  - apply fair_back with (c1 * A * A / R1); try lia.
    + rewrite Z.mul_comm. by apply Z.mul_div_le.
    + rewrite Ev, Z.mul_comm. by apply Z.mul_div_le.
  - apply fair_other with (c1 * A * A / R1); try lia.
    rewrite Ev, Z.mul_comm. by apply Z.mul_div_le.
  - apply fair_back with (z * A / R1); try lia.
    + rewrite Z.mul_comm. by apply Z.mul_div_le.
    + rewrite Ev, Z.mul_comm. by apply Z.mul_div_le.
  - apply fair_back with (c2 * A * A / R2); try lia.
    + rewrite Z.mul_comm. by apply Z.mul_div_le.
    + assert (z * A / R1 <= c2 * A * A / R2).
      { apply Z.div_le_upper_bound; [done|]. rewrite (Z.mul_comm z), Ez.
        etransitivity; [by apply Z.mul_div_le|]. lia. }
      pose proof (Z.mul_div_le (z * A / R1 * S) A A_pos). rewrite Ev. nia.
Qed.

Lemma scaled_wf c : 0 <= c -> Dec.wf c -> 0 <= c * A /\ PDec.wf (c * A).
Proof.
  intros H0 Hc. pose proof (proj1 (DecSpec.wf_range c) Hc).
  assert (0 <= c * A) by (by apply Z.mul_nonneg_nonneg). split; [done|].
  apply wf_nonneg; [done|]. rewrite A_val. lia.
Qed.

Lemma positive_scaled x : 0 <= x -> (PDec.ZERO <? x * A) = negb (x =? 0).
Proof.
  intros Hx. unfold PDec.ZERO. destruct (x =? 0) eqn:E; zbool; cbn; [by subst|].
  apply Z.ltb_lt. rewrite A_val. lia.
Qed.

Lemma checked_round_wf d dp mode :
  PDec.wf d -> 0 <= dp <= PDec.SCALE ->
  exists o, PDec.checked_round d dp mode = Done o /\ forall v, o = Some v -> PDec.wf v.
Proof.
  intros Hd Hdp. rewrite pchecked_round_value by done. eexists. split; [done|].
  by intros v [-> ?]%checked_i_Some.
Qed.

Lemma pchecked_mul_wf a b c : PDec.checked_mul a b = Some c -> PDec.wf c.
Proof.
  rewrite pchecked_mul_spec. cbv zeta. destruct (_ <=? _) eqn:E; [|done]. intros [= <-]. zbool.
  rewrite PMAX_val in E. apply pwf_range. lia.
Qed.

Section FirstUnits.
Context (sqrt_384 : Z -> Z).

Lemma first_units_wf x y :
  PDec.wf x -> PDec.wf y ->
  exists o, first_units sqrt_384 x y = Done o /\ forall v, o = Some v -> PDec.wf v.
Proof.
  intros Hx Hy. unfold first_units. destruct (_ || _).
  - eexists. split; [done|]. intros v [= <-]. by destruct (Z.max_spec x y) as [[_ ->]|[_ ->]].
  - destruct (PDec.checked_sqrt _ x) as [c1|]; [|by exists None].
    destruct (PDec.checked_sqrt _ y) as [c2|]; [|by exists None]. cbn [mbind option_bind].
    destruct (PDec.checked_mul c1 c2) as [v|] eqn:E; [|by exists None].
    apply checked_round_wf; [by eapply pchecked_mul_wf|by vm_compute].
Qed.

(** What a contribution of [c1] and [c2] gives: [x1] and [x2] are accepted for
    [v] units, before the rounding to decimals. *)
Definition accepted (c1 c2 R1 R2 S x1 x2 v : Z) : Prop :=
  0 <= x1 <= c1 * A /\ 0 <= x2 <= c2 * A /\ PDec.wf v /\
  (S = 0 -> x1 = c1 * A /\ x2 = c2 * A) /\
  (0 < S -> 0 <= v /\ (0 < R1 \/ 0 < R2) /\ fair x1 R1 S v /\ fair x2 R2 S v).

Lemma amounts_to_contribute_spec c1 c2 R1 R2 S :
  0 <= c1 -> 0 <= c2 -> 0 <= R1 -> 0 <= R2 -> 0 <= S -> Dec.wf c1 -> Dec.wf c2 ->
  exists r, amounts_to_contribute sqrt_384 (c1 * A) (c2 * A) (R1 * A) (R2 * A) (S * A) = Done r /\
    forall x1 x2 v, r = Ok (x1, x2, v) -> accepted c1 c2 R1 R2 S x1 x2 v.
Proof.
  intros Hc1 Hc2 HR1 HR2 HS Hw1 Hw2. unfold amounts_to_contribute, accepted.
  destruct (scaled_wf c1 Hc1 Hw1) as [Hp1 Hq1], (scaled_wf c2 Hc2 Hw2) as [Hp2 Hq2].
  rewrite !positive_scaled by done.
  destruct (S =? 0) eqn:ES; zbool; cbn [negb].
  { destruct (first_units_wf (c1 * A) (c2 * A) Hq1 Hq2) as (o & Ho & Hwo).
    exists (match o with Some v => Ok (c1 * A, c2 * A, v) | None => Err TwoError.DecimalOverflowError end).
    split.
    - destruct (R1 =? 0), (R2 =? 0); cbn [negb]; rewrite Ho; by destruct o.
    - destruct o as [u|]; intros x1 x2 v H; [|done]. injection H as <- <- <-.
      split_and!; auto; lia. }
  assert (Hdirect : forall c R v, 0 <= c -> 0 <= c * A -> PDec.wf (c * A) -> 0 < R ->
    ratio_times (c * A) (R * A) (S * A) = Some v -> 0 <= v /\ PDec.wf v /\ fair (c * A) R S v).
  { intros c R v Hc Hp Hq HR Hv. apply ratio_times_Some in Hv as (Ev & Hv & Hwv); try done.
    split_and!; [done|done|]. apply fair_back with (c * A * A / R); try lia.
    - rewrite Z.mul_comm. by apply Z.mul_div_le.
    - rewrite Ev, Z.mul_comm. by apply Z.mul_div_le. }
  assert (Hnone : forall v, fair 0 0 S v) by (intros; unfold fair; lia).
  destruct (R1 =? 0) eqn:E1, (R2 =? 0) eqn:E2; zbool; subst; cbn [negb]; eexists; (split; [done|]);
    intros x1 x2 v H.
  - done.
  - destruct (ratio_times _ _ _) as [u|] eqn:Eu; [|done]. injection H as <- <- <-.
    apply Hdirect in Eu as (? & ? & ?); try done; try lia.
    unfold PDec.ZERO. split_and!; try done; try lia. intros _. split_and!; auto; lia.
  - destruct (ratio_times _ _ _) as [u|] eqn:Eu; [|done]. injection H as <- <- <-.
    apply Hdirect in Eu as (? & ? & ?); try done; try lia.
    unfold PDec.ZERO. split_and!; try done; try lia. intros _. split_and!; auto; lia.
  - destruct (max_by _ _) as [y|] eqn:Em; [|done]. cbn in H. injection H as ->.
    apply max_by_In in Em. apply candidates_spec in Em; try lia; try done.
    destruct Em as (? & ? & ? & ? & ? & ?). split_and!; try done; try lia.
    intros _. split_and!; auto; lia.
Qed.
End FirstUnits.

End TwoShares.

(** ** The pool of two resources *)
Module TwoSpec.
Import TwoResourcePool Shares TwoShares.
Export OneSpec.

Definition pool_units (s : Substate) (l : Ledger) : Z := lsupply l (pool_unit_resource_manager s).

Record pool2_ok (s : Substate) (l : Ledger) : Prop := {
  p2_ledger : ledger_ok l;
  p2_unit : shape l (pool_unit_resource_manager s) = Some (18, pool_unit_features);
  p2_vaults : forall e, e ∈ vault_list s -> vault_resource e.2 = e.1 /\
    is_Some (shape l e.1) /\ e.1 <> pool_unit_resource_manager s;
  p2_distinct : (vaults s).1.1 <> (vaults s).2.1
}.

Lemma pool2_ok_change s l l' ds d : pool2_ok s l -> change ds d l l' -> pool2_ok s l'.
Proof.
  intros [Hl Hu Hv Hd] H. constructor; [apply H| | |done].
  - by rewrite (ch_shape _ _ _ _ H).
  - intros e He. rewrite (ch_shape _ _ _ _ H). by apply Hv.
Qed.

(** One vault [v] of a pool and the caller's bucket [x]: [a] is accepted for [m]
    pool units, of [S] in circulation. *)
Record side (m S : Z) (v : Vault) (x : Bucket) (a : Z) (l l' : Ledger) : Prop := {
  sd_resource : bucket_resource x = vault_resource v;
  sd_range : 0 <= a <= bucket_held l x;
  sd_vault : vault_held l' v = vault_held l v + a;
  sd_bucket : bucket_held l' x = bucket_held l x - a;
  sd_new : S = 0 -> a = bucket_held l x;
  sd_price : exists d f, shape l (vault_resource v) = Some (d, f) /\ 0 <= d <= 18 /\
    (0 < S -> m * vault_held l v < (a + 10 ^ (18 - d)) * S)
}.

Definition either {T} (x y a b : T) : Prop := x = a /\ y = b \/ x = b /\ y = a.

Record contributed2 (s : Substate) (b1 b2 ub : Bucket) (change : option Bucket) (m : Z)
    (l l' : Ledger) : Prop := {
  c2_pool : pool2_ok s l';
  c2_sides : exists v1 v2 x1 x2 a1 a2,
    either v1 v2 (vaults s).1.2 (vaults s).2.2 /\ either x1 x2 b1 b2 /\
    side m (pool_units s l) v1 x1 a1 l l' /\ side m (pool_units s l) v2 x2 a2 l l';
  c2_units : bucket_resource ub = pool_unit_resource_manager s /\ bucket_held l' ub = m /\ 0 < m;
  c2_supply : pool_units s l' = pool_units s l + m;
  c2_change : match change with
              | Some x => (x = b1 \/ x = b2) /\
                  forall y, y = b1 \/ y = b2 -> y <> x -> bucket_held l' y = 0
              | None => bucket_held l' b1 = 0 /\ bucket_held l' b2 = 0
              end
}.

(** *** The steps of a contribution *)

Lemma lsafe_match_buckets s b1 b2 l (Q : Vault * Vault * Bucket * Bucket -> Ledger -> Prop) :
  pool2_ok s l ->
  (forall v1 v2 x1 x2, either v1 v2 (vaults s).1.2 (vaults s).2.2 -> either x1 x2 b1 b2 ->
     bucket_resource x1 = vault_resource v1 -> bucket_resource x2 = vault_resource v2 ->
     Q (v1, v2, x1, x2) l) ->
  lsafe (match_buckets s b1 b2) l Q.
Proof.
  intros Hp HQ. unfold match_buckets, sort_by_address. cbn [fst snd].
  pose proof (p2_vaults _ _ Hp (vaults s).1 ltac:(left)) as (Hv1 & _).
  pose proof (p2_vaults _ _ Hp (vaults s).2 ltac:(right; left)) as (Hv2 & _).
  destruct ((vaults s).2.1 <? (vaults s).1.1)%N;
    call lsafe_bucket_address; call lsafe_bucket_address;
    destruct (bucket_resource b2 <? bucket_resource b1)%N;
    call lsafe_guard; intros H1%N.eqb_eq; call lsafe_guard; intros H2%N.eqb_eq; wp_step;
    apply HQ; unfold either; auto; congruence.
Qed.

(** The amounts agreed on, as decimals. *)
Record agreed (c1 c2 R1 R2 S a1 a2 m : Z) : Prop := {
  ag_1 : 0 <= a1 <= c1;
  ag_2 : 0 <= a2 <= c2;
  ag_new : S = 0 -> a1 = c1 /\ a2 = c2;
  ag_price : 0 < S -> (0 < R1 \/ 0 < R2) /\ m * R1 < (a1 + 1) * S /\ m * R2 < (a2 + 1) * S
}.

Lemma fair_decimal x R S v : 0 <= R -> 0 < S -> 0 <= v -> fair x R S v -> v / A * R < (x / A + 1) * S.
Proof.
  unfold fair. intros HR HS Hv Hf. pose proof (Z.mul_div_le v A A_pos).
  pose proof (Z.mul_succ_div_gt x A A_pos). apply Z.mul_lt_mono_pos_r with A; [done|]. nia.
Qed.

Lemma lsafe_to_decimal l v e (Q : Decimal -> Ledger -> Prop) :
  PDec.wf v -> Q (Z.quot v A) l -> lsafe (or_fail (PDec.to_decimal v) e) l Q.
Proof.
  intros Hv HQ. call lsafe_or_fail; [by apply to_decimal_spec|].
  intros a. destruct (_ <=? _); by intros [= <-].
Qed.

Section Sqrt.
Context (sqrt_384 : Z -> Z).

Lemma lsafe_amounts_for l c1 c2 R1 R2 S (Q : Decimal * Decimal * Decimal -> Ledger -> Prop) :
  0 <= c1 -> 0 <= c2 -> 0 <= R1 -> 0 <= R2 -> 0 <= S ->
  Dec.wf c1 -> Dec.wf c2 -> Dec.wf R1 -> Dec.wf R2 -> Dec.wf S ->
  (forall a1 a2 m, agreed c1 c2 R1 R2 S a1 a2 m -> Q (a1, a2, m) l) ->
  lsafe (amounts_for sqrt_384 c1 c2 R1 R2 S) l Q.
Proof.
  intros Hc1 Hc2 HR1 HR2 HS Hw1 Hw2 HwR1 HwR2 HwS HQ. unfold amounts_for.
  do 5 (call lsafe_exec; [by apply from_decimal_Done|]).
  destruct (amounts_to_contribute_spec sqrt_384 c1 c2 R1 R2 S) as (r & Hr & Hacc); try done.
  call lsafe_exec; [exact Hr|]. destruct r as [[[x1 x2] v]|e]; [|by apply wp_throw].
  destruct (Hacc x1 x2 v eq_refl) as (Hx1 & Hx2 & Hv & Hnew & Hprice).
  destruct (scaled_wf c1 Hc1 Hw1) as [_ Hq1], (scaled_wf c2 Hc2 Hw2) as [_ Hq2].
  rewrite pwf_range in Hq1, Hq2.
  call lsafe_to_decimal; [apply pwf_range; lia|]. call lsafe_to_decimal; [apply pwf_range; lia|].
  call lsafe_to_decimal; [done|]. wp_step. apply HQ.
  rewrite !(Z.quot_div_nonneg _ A) by (done || lia). constructor.
  - split; [apply Z.div_pos; [lia|done]|]. apply Z.div_le_upper_bound; [done|]. lia.
  - split; [apply Z.div_pos; [lia|done]|]. apply Z.div_le_upper_bound; [done|]. lia.
  - intros HS0. destruct (Hnew HS0) as [-> ->]. by rewrite !Z.div_mul.
  - intros HS0. destruct (Hprice HS0) as (Hv0 & Hany & Hf1 & Hf2).
    rewrite Z.quot_div_nonneg by done. split_and!; [done|by apply fair_decimal|by apply fair_decimal].
Qed.
Lemma lsafe_change_bucket b1 b2 l (Q : option Bucket -> Ledger -> Prop) :
  ledger_ok l -> is_Some (world_of l (bucket_resource b1)) ->
  is_Some (world_of l (bucket_resource b2)) ->
  (forall ch l', same_amounts l l' ->
     match ch with
     | Some x => x = b1 /\ bucket_held l b2 = 0 \/ x = b2 /\ bucket_held l b1 = 0
     | None => bucket_held l b1 = 0 /\ bucket_held l b2 = 0
     end -> Q ch l') ->
  lsafe (change_bucket b1 b2) l Q.
Proof.
  intros Hl Hw1 Hw2 HQ. unfold change_bucket.
  call lsafe_bucket_is_empty. intros a1 Ha1. rewrite (Ha1 Hw1). clear a1 Ha1.
  unfold Dec.is_zero. destruct (bucket_held l b1 =? 0) eqn:E1; zbool; cbn [negb].
  - call lsafe_bucket_is_empty. intros a2 Ha2. rewrite (Ha2 Hw2). clear a2 Ha2.
    unfold Dec.is_zero. destruct (bucket_held l b2 =? 0) eqn:E2; zbool; cbn [negb].
    + call lsafe_drop_empty. intros l1 H0 H1. call lsafe_drop_empty. intros l2 H0' H2. wp_step.
      apply HQ; [|done]. eapply same_amounts_trans; eapply same_amounts_intro; try eassumption;
        intros; unfold only, inside; by case_decide.
    + call lsafe_drop_empty. intros l1 H0 H1. wp_step. apply HQ; [|auto].
      eapply same_amounts_intro; [eassumption|..]; intros; unfold only, inside; by case_decide.
  - call lsafe_drop_empty. intros l1 H0 H1. wp_step. apply HQ; [|auto].
    eapply same_amounts_intro; [eassumption|..]; intros; unfold only, inside; by case_decide.
Qed.

End Sqrt.

Lemma round_down_withdrawal a d a' :
  0 <= a -> Dec.wf a -> 0 <= d <= 18 ->
  for_withdrawal a d (Rounded ToNegativeInfinity) = Done (Some a') ->
  a' <= a < a' + 10 ^ (18 - d) /\ ((10 ^ (18 - d) | a) -> a' = a).
Proof.
  intros Ha Hw Hd. cbn [for_withdrawal].
  rewrite RoundSpec.checked_round_value by (done || unfold Dec.SCALE; lia).
  assert (HG : 0 < 10 ^ (18 - d)) by (apply RoundSpec.pow10_pos; lia).
  unfold Dec.SCALE. rewrite round_down by done. intros [= H].
  apply checked_i_Some in H as [-> _]. pose proof (Z.mul_div_le a _ HG).
  pose proof (Z.mul_succ_div_gt a _ HG). split; [lia|]. intros [q ->]. by rewrite Z.div_mul by lia.
Qed.

(** The amount taken from a bucket, and its price. *)
Record priced (m S : Z) (v : Vault) (x : Bucket) (a : Z) (l : Ledger) : Prop := {
  pr_range : 0 <= a <= bucket_held l x;
  pr_new : S = 0 -> a = bucket_held l x;
  pr_price : exists d f, shape l (vault_resource v) = Some (d, f) /\ 0 <= d <= 18 /\
    (0 < S -> m * vault_held l v < (a + 10 ^ (18 - d)) * S)
}.

Lemma taken_priced l0 l v x y a a' m S l' :
  ledger_ok l -> bucket_resource x = vault_resource v -> 0 <= a <= bucket_held l x ->
  (S = 0 -> a = bucket_held l x) -> (0 < S -> m * vault_held l v < (a + 1) * S) ->
  shape l0 (vault_resource v) = shape l (vault_resource v) ->
  taken l0 (bucket_resource x) (LBucket (bucket_id x)) a (Rounded ToNegativeInfinity) y a' l' ->
  priced m S v x a' l.
Proof.
  intros Hl Hr Ha Hnew Hprice Hsh [(d & f & Hs & Hd & Hfor & H0 & _) _ _ _ _].
  rewrite Hr, Hsh in Hs. rewrite <- Hr in Hs.
  pose proof (lheld_wf l (bucket_resource x) (LBucket (bucket_id x)) Hl) as Hw.
  pose proof (lheld_granular l _ d f (LBucket (bucket_id x)) Hl Hs) as Hg.
  unfold bucket_held in *.
  assert (Hwa : Dec.wf a) by (rewrite DecSpec.wf_range in *; lia).
  destruct (round_down_withdrawal a d a') as [Hle Hex]; try done; [lia|].
  constructor; [unfold bucket_held; lia| |].
  - intros HS. specialize (Hnew HS). subst a. rewrite Hex by done. done.
  - exists d, f. rewrite <- Hr. split; [done|]. split; [done|]. intros HS. specialize (Hprice HS). nia.
Qed.

Lemma side_intro m S v x a l l' :
  bucket_resource x = vault_resource v -> priced m S v x a l ->
  vault_held l' v = vault_held l v + a -> bucket_held l' x = bucket_held l x - a ->
  side m S v x a l l'.
Proof. intros Hr [] Hv Hx. by constructor. Qed.

Lemma lsafe_contribute2 sqrt_384 s b1 b2 l :
  pool2_ok s l ->
  lsafe (contribute sqrt_384 s b1 b2) l (fun r l' =>
    exists m, contributed2 s b1 b2 r.1 r.2 m l l').
Proof.
  intros Hp. pose proof (p2_ledger _ _ Hp) as Hl. unfold contribute.
  call lsafe_match_buckets; [exact Hp|]. intros v1 v2 x1 x2 Hev Hex Hr1 Hr2.
  pose proof (p2_vaults _ _ Hp (vaults s).1 ltac:(left)) as (Hv1 & Hs1 & Hn1).
  pose proof (p2_vaults _ _ Hp (vaults s).2 ltac:(right; left)) as (Hv2 & Hs2 & Hn2).
  assert (Hd : vault_resource v1 <> vault_resource v2 /\
    is_Some (shape l (vault_resource v1)) /\ is_Some (shape l (vault_resource v2)) /\
    vault_resource v1 <> pool_unit_resource_manager s /\
    vault_resource v2 <> pool_unit_resource_manager s).
  { pose proof (p2_distinct _ _ Hp). rewrite <- Hv1, <- Hv2 in *.
    destruct Hev as [[-> ->]|[-> ->]]; split_and!; done. }
  clear Hv1 Hs1 Hn1 Hv2 Hs2 Hn2. destruct Hd as (Hd & Hf1 & Hf2 & Hn1 & Hn2).
  call lsafe_vault_amount. call lsafe_vault_amount.
  call lsafe_supply; [eapply shape_tracked, (p2_unit _ _ Hp)|]. intros _.
  call lsafe_bucket_amount. intros c Hc. rewrite (Hc ltac:(rewrite Hr1; by apply shape_world)). clear c Hc.
  call lsafe_bucket_amount. intros c Hc. rewrite (Hc ltac:(rewrite Hr2; by apply shape_world)). clear c Hc.
  assert (Ht : tracked l (pool_unit_resource_manager s))
    by (eapply shape_tracked, (p2_unit _ _ Hp)).
  destruct (lsupply_wf l _ Hl Ht) as [HS HwS].
  pose proof (fun r o => proj1 (lheld_bounds l r o Hl)) as H0.
  pose proof (fun r o => lheld_wf l r o Hl) as Hw.
  call lsafe_amounts_for; try (apply H0 || apply Hw || done). intros a1 a2 m Hag.
  call lsafe_bucket_take_advanced; [rewrite DecSpec.wf_range; destruct Hag;
    pose proof (Hw (bucket_resource x1) (LBucket (bucket_id x1)));
    rewrite DecSpec.wf_range in *; unfold bucket_held in *; lia|].
  intros y1 a1' l1 Ht1. pose proof (tk_change _ _ _ _ _ _ _ _ Ht1) as H1.
  call lsafe_bucket_take_advanced.
  { rewrite DecSpec.wf_range; destruct Hag;
    pose proof (Hw (bucket_resource x2) (LBucket (bucket_id x2)));
    rewrite DecSpec.wf_range in *; unfold bucket_held in *; lia. }
  intros y2 a2' l2 Ht2. pose proof (tk_change _ _ _ _ _ _ _ _ Ht2) as H2.
  call lsafe_bucket_amount. intros ? _. call lsafe_bucket_amount. intros ? _.
  call lsafe_guard. intros _. call lsafe_guard. intros Hm0.
  call lsafe_mint.
  { intros d f. ledger_rewrite. apply Ht. }
  intros ub l3 Hm Hub Hubf H3. call lsafe_bucket_address. call lsafe_bucket_address.
  call lsafe_vault_put. intros Hy1 l4 H4. call lsafe_vault_put. intros Hy2 l5 H5.
  call lsafe_change_bucket.
  { apply shape_world. ledger_rewrite. by rewrite Hr1. }
  { apply shape_world. ledger_rewrite. by rewrite Hr2. }
  intros ch l6 H6 Hch. call lsafe_emit. intros l7 H7. wp_step. exists m. cbn [fst snd].
  assert (Hsh : forall r, shape l1 r = shape l r) by (intros; by ledger_rewrite).
  destruct Hag as [Ha1 Ha2 Hnew Hprice].
  assert (P1 : priced m (pool_units s l) v1 x1 a1' l).
  { eapply (taken_priced l); try eassumption; [apply Hnew|intros; by apply Hprice|done]. }
  assert (P2 : priced m (pool_units s l) v2 x2 a2' l).
  { eapply (taken_priced l1); try eassumption; [apply Hnew|intros; by apply Hprice|apply Hsh]. }
  pose proof (tk_fresh _ _ _ _ _ _ _ _ Ht1) as Hy1f. pose proof (tk_fresh _ _ _ _ _ _ _ _ Ht2) as Hy2f.
  clear Ht1 Ht2 Hsh Hnew Hprice Ha1 Ha2.
  unfold bucket_held, vault_held in *. rewrite Hr1, Hr2, Hy1, Hy2, Hub in *.
  pose proof (pr_range _ _ _ _ _ _ P1) as R1. pose proof (pr_range _ _ _ _ _ _ P2) as R2.
  unfold bucket_held in R1, R2. rewrite Hr1, Hr2 in *.
  pose proof (H0 (vault_resource v1) (LBucket (bucket_id x1))) as N1.
  pose proof (H0 (vault_resource v2) (LBucket (bucket_id x2))) as N2. clear H0 Hw HwS.
  assert (E57 : forall r o, lheld l7 r o = lheld l5 r o) by (intros; ledger_rewrite; lia).
  assert (Ey1 : lheld l3 (vault_resource v1) (LBucket (bucket_id y1)) = a1')
    by (revert Hy1f; ledger_rewrite; ledger_cases).
  assert (Ey2 : lheld l4 (vault_resource v2) (LBucket (bucket_id y2)) = a2')
    by (revert Hy2f; ledger_rewrite; ledger_cases).
  rewrite Ey1 in H4. rewrite Ey2 in H5. clear Ey1 Ey2.
  constructor.
  - do 7 (eapply pool2_ok_change; [|eassumption]). exact Hp.
  - exists v1, v2, x1, x2, a1', a2'. split; [done|]. split; [done|].
    split; apply side_intro; try done; unfold bucket_held, vault_held; rewrite ?Hr1, ?Hr2, E57;
      revert Hy1f Hy2f; ledger_rewrite; ledger_cases.
  - unfold bucket_held. rewrite Hub. zbool. unfold Dec.ZERO in *. split; [done|]. split; [|lia].
    revert Hubf. rewrite E57. ledger_rewrite. ledger_cases.
  - unfold pool_units. ledger_rewrite. ledger_cases.
  - clear -Hch Hex E57 Hr1 Hr2. unfold bucket_held.
    destruct ch as [x|].
    + destruct Hex as [[-> ->]|[-> ->]], Hch as [[-> Hz]|[-> Hz]]; (split; [auto|]);
        intros y [-> | ->] Hne; try done; rewrite E57; congruence.
    + destruct Hex as [[-> ->]|[-> ->]], Hch; rewrite !E57; split; congruence.
Qed.

Lemma lsafe_instantiate2 unit_address r1 r2 l :
  ledger_ok l -> unit_address <> r1 -> unit_address <> r2 ->
  lsafe (instantiate unit_address r1 r2) l (fun s l' =>
    pool2_ok s l' /\ pool_units s l' = 0 /\
    (forall e, e ∈ vault_list s -> vault_held l' e.2 = 0) /\
    pool_unit_resource_manager s = unit_address /\ (vault_list s).*1 = [r1; r2]).
Proof.
  intros Hl Hn1 Hn2. unfold instantiate, check_fungible. call lsafe_guard. intros Hd.
  wp_step. call lsafe_resource_type. call lsafe_guard. intros Hf1.
  wp_step. call lsafe_resource_type. call lsafe_guard. intros Hf2.
  call lsafe_new_pool_unit. intros l1 Hl1 Hu Hs Hother. call lsafe_vault_create.
  intros v1 l2 Hv1 H01 H2. call lsafe_vault_create. intros v2 l3 Hv2 H02 H3. wp_steps. cbn.
  apply negb_true_iff, N.eqb_neq in Hd.
  assert (Hsh : forall r, r <> unit_address -> shape l3 r = shape l r).
  { intros r Hr. ledger_rewrite. unfold shape. by rewrite Hother. }
  assert (H12 : forall r o, lheld l3 r o = lheld l1 r o) by (intros; ledger_rewrite; ledger_cases).
  assert (H22 : forall r o, lheld l2 r o = lheld l1 r o) by (intros; ledger_rewrite; ledger_cases).
  unfold vault_held in *. rewrite H22 in H02.
  split_and!; try done.
  - constructor; cbn; [apply H3|by ledger_rewrite| |done].
    intros e [->|He%list_elem_of_singleton]%elem_of_cons; [|subst e]; cbn;
      rewrite Hsh by done; (split; [done|split; [|done]]).
    + by destruct (shape l r1).
    + by destruct (shape l r2).
  - unfold pool_units. cbn. ledger_rewrite. ledger_cases.
  - intros e [->|He%list_elem_of_singleton]%elem_of_cons; [|subst e]; cbn; by rewrite H12.
Qed.

End TwoSpec.

(** ** Theorems *)
Module PoolTheorems.
Import OneResourcePool Shares OneSpec.

(** *** A concrete pool *)

Definition example_resource : ResourceAddress := 1%N.
Definition example_units : ResourceAddress := 2%N.

Definition example_features : FungibleResourceManagerFeatureSet := {|
  f_track_total_supply := true; f_vault_freeze := false; f_vault_recall := false;
  f_mint := false; f_burn := false |}.

(** A ledger with 1000 of one resource, of two decimal places, in bucket 0. *)
Definition with_supply (r : ResourceAddress) (l : Ledger) : Ledger :=
  match create_with_initial_supply 2 example_features false (1000 * Dec.ONE) with
  | Ok (_, w) => with_resource r (Fungible w) l
  | Err _ => l
  end.
Definition example_empty : Ledger := {| resources := ∅; pool_events := [] |}.
Definition example_ledger : Ledger := with_supply example_resource example_empty.

Lemma with_supply_ok r l : ledger_ok l -> ledger_ok (with_supply r l).
Proof.
  intros Hl. unfold with_supply.
  destruct (create_with_initial_supply _ _ _ _) as [[b w]|] eqn:E; [|done].
  apply create_with_supply_Inv in E as [Hi _]; [|done].
  intros r' w'. rewrite world_of_with. case_decide; [by intros [= <-]|apply Hl].
Qed.

Lemma example_empty_ok : ledger_ok example_empty.
Proof. intros r w. unfold world_of. cbn. by rewrite lookup_empty. Qed.

Definition initial_bucket (r : ResourceAddress) : Bucket := {| bucket_resource := r; bucket_id := 0%N |}.

(** A pool with 300.01 in its vault and 300.01 units in circulation, where
    another 7.77 were deposited later. *)
Definition example_setup : PM (Substate * Bucket * Bucket) :=
  s ← instantiate example_units example_resource;
  b ← bucket_take_advanced (initial_bucket example_resource) (300 * Dec.ONE + Dec.ONE / 100) Exact;
  units ← contribute s b;
  d ← bucket_take_advanced (initial_bucket example_resource) (7 * Dec.ONE + 77 * (Dec.ONE / 100)) Exact;
  protected_deposit s d;;
  b ← bucket_take_advanced (initial_bucket example_resource) (50 * Dec.ONE) Exact;
  mret (s, units, b).

Lemma lsafe_take_any b a st l {T} (k : Bucket -> PM T) Q :
  ledger_ok l -> Dec.wf a -> (forall y ds d l', change ds d l l' -> lsafe (k y) l' Q) ->
  lsafe (y ← bucket_take_advanced b a st; k y) l Q.
Proof.
  intros Hl Ha HQ. call lsafe_bucket_take_advanced; [done|]. intros y a' l' Ht. eapply HQ, Ht.
Qed.

Lemma lsafe_example : lsafe example_setup example_ledger (fun r l' => pool_ok r.1.1 l').
Proof.
  pose proof (with_supply_ok example_resource _ example_empty_ok) as Hl. fold example_ledger in Hl.
  assert (Htake : forall s l a (k : Bucket -> PM (Substate * Bucket * Bucket)) Q, pool_ok s l -> Dec.wf a ->
    (forall b l', pool_ok s l' -> lsafe (k b) l' Q) ->
    lsafe (b ← bucket_take_advanced (initial_bucket example_resource) a Exact; k b) l Q).
  { intros s l a k Q Hp Ha HQ. apply lsafe_take_any; [apply Hp|done|].
    intros y ds d l' Hch. apply HQ. by eapply pool_ok_change. }
  unfold example_setup. wp_step. eapply wp_mono; [apply lsafe_instantiate; done| |done].
  intros s l1 (Hp & _). eapply Htake; [done|by vm_compute|]. intros b l2 Hp2.
  wp_step. eapply wp_mono; [by apply lsafe_contribute| |done]. intros ub l3 (c & m & H3).
  eapply Htake; [apply H3|by vm_compute|]. intros d l4 Hp4.
  wp_step. eapply wp_mono; [by apply lsafe_protected_deposit| |done]. intros [] l5 (Hp5 & _).
  eapply Htake; [done|by vm_compute|]. intros b' l6 Hp6. by apply wp_ret.
Qed.

Definition example_s : Substate := {|
  vault := {| vault_resource := example_resource; vault_id := 1%N |};
  pool_unit_resource_manager := example_units |}.

Definition example_b : Bucket := {| bucket_resource := example_resource; bucket_id := 4%N |}.

Definition ledger_after {A} (m : PM A) (l : Ledger) : Ledger :=
  match m l with Done (_, l') => l' | Panicked => l end.
Definition value_after {A} (m : PM A) (l : Ledger) : option A :=
  match m l with Done (Ok a, _) => Some a | _ => None end.

Definition example_l : Ledger := ledger_after example_setup example_ledger.
Definition example_ub : Bucket := {| bucket_resource := example_units; bucket_id := 0%N |}.

Lemma example_run : example_setup example_ledger = Done (Ok (example_s, example_ub, example_b), example_l).
Proof. by vm_compute. Qed.

Lemma example_ok : pool_ok example_s example_l.
Proof. pose proof lsafe_example as H. unfold wp in H. by rewrite example_run in H. Qed.

(** *** The theorems *)

(** C6 (invariant): while pool units are in circulation no history of contributions,
    redemptions and deposits, interleaved with calls that leave the pool alone,
    lowers what a pool unit is worth, and the pool stays well formed. *)
Theorem pool_unit_worth_never_falls (s : Substate) (l l' : Ledger) :
  pool_ok s l -> pool_history s l l' -> pool_ok s l' /\ worth_le s l l'.
Proof. intros Hp. by apply pool_history_worth. Qed.

Definition example_contribution : PM Bucket := contribute example_s example_b.
Definition example_redemption : PM Bucket :=
  redeem example_s {| bucket_resource := example_units; bucket_id := 1%N |}.
Definition example_l1 : Ledger := ledger_after example_contribution example_l.
Definition example_l2 : Ledger := ledger_after example_redemption example_l1.
Definition example_new_units : Bucket := {| bucket_resource := example_units; bucket_id := 1%N |}.
Definition example_paid : Bucket := {| bucket_resource := example_resource; bucket_id := 5%N |}.

Lemma example_contributes : example_contribution example_l = Done (Ok example_new_units, example_l1).
Proof. by vm_compute. Qed.

Lemma example_redeems : example_redemption example_l1 = Done (Ok example_paid, example_l2).
Proof. by vm_compute. Qed.

Lemma pool_unit_worth_never_falls_witness : pool_ok example_s example_l2 /\ worth_le example_s example_l example_l2.
Proof.
  apply (pool_unit_worth_never_falls example_s example_l example_l2 example_ok).
  apply (history_step _ _ example_l1); [apply (history_step _ _ example_l)|by vm_compute|].
  - apply history_refl.
  - by vm_compute.
  - exact (step_contribute _ _ _ _ _ example_contributes).
  - exact (step_redeem _ _ _ _ _ example_redeems).
Defined.

(** C22 (safety): contributing to a pool with units in circulation and redeeming the
    new units gives back at most what was contributed. *)
Theorem contribute_redeem_no_gain (s : Substate) (b ub t : Bucket) (l l1 l2 : Ledger) :
  pool_ok s l -> 0 < pool_supply s l ->
  contribute s b l = Done (Ok ub, l1) -> redeem s ub l1 = Done (Ok t, l2) ->
  bucket_resource t = bucket_resource b /\ 0 < bucket_held l2 t <= bucket_held l b.
Proof.
  intros Hp HS Hc Hr. pose proof (lsafe_contribute s b l Hp) as H1. unfold wp in H1. rewrite Hc in H1.
  destruct H1 as (c & m & H1). pose proof (contributed_price _ _ _ _ _ _ _ H1 HS) as Hm.
  destruct H1 as [Hp1 (Hb & Hbc & Hc0) _ (Hub & Hubm & Hm0) HR1 HS1 _ _].
  pose proof (lsafe_redeem s ub l1 Hp1) as H2. unfold wp in H2. rewrite Hr in H2.
  destruct H2 as (u & o & H2). pose proof (redeemed_price _ _ _ _ _ _ _ Hp1 H2) as Ho.
  destruct H2 as [_ (_ & Hu & _) _ (Ht & Hto & Ho0) _ _ _ _].
  split; [congruence|]. rewrite Hto, Hbc. split; [done|].
  rewrite Hubm in Hu. subst u. rewrite HR1, HS1 in Ho.
  pose proof (reserves_nonneg s l Hp). nia.
Qed.

Lemma contribute_redeem_no_gain_witness :
  bucket_resource example_paid = bucket_resource example_b /\
  0 < bucket_held example_l2 example_paid <= bucket_held example_l example_b.
Proof.
  apply (contribute_redeem_no_gain example_s example_b example_new_units example_paid example_l example_l1).
  - exact example_ok.
  - by vm_compute.
  - exact example_contributes.
  - exact example_redeems.
Defined.

(** C14 (liveness): a holder of pool units whose bucket and the pool's vault are
    neither locked nor frozen can always redeem them when the share is not zero:
    the call succeeds and pays [owed], the share of the reserves rounded down to
    the resource's smallest unit, and all of the reserves for the whole supply. *)
Theorem redemption_succeeds (s : Substate) (b : Bucket) (l : Ledger) wu cu wv cv :
  pool_ok s l -> bucket_resource b = pool_unit_resource_manager s ->
  free l (bucket_resource b) (LBucket (bucket_id b)) wu cu ->
  free l (vault_resource (vault s)) (LVault (vault_id (vault s))) wv cv ->
  let o := owed (bucket_held l b) (pool_supply s l) (pool_reserves s l) (10 ^ (18 - divisibility wv)) in
  o <> 0 ->
  exists t l', redeem s b l = Done (Ok t, l') /\ redeemed s b t (bucket_held l b) o l l' /\
    (bucket_held l b = pool_supply s l -> o = pool_reserves s l).
Proof.
  intros Hp Hres Hfb Hfv o Ho. pose proof (runs_redeem s b l wu cu wv cv Hp Hres Hfb Hfv Ho) as Hr.
  pose proof (lsafe_redeem s b l Hp) as Hs. unfold wp in Hr, Hs.
  destruct (redeem s b l) as [[[t|e] l']|]; try done. exists t, l'. split; [done|].
  destruct Hs as (u & o' & H). pose proof H as [_ (_ & <- & Hu) _ _ _ _ (d & f & Hdf & Hd & ->) Hle].
  assert (shape l (vault_resource (vault s)) = Some (divisibility wv, features wv)) as Hsh
    by (unfold shape, world_of; by rewrite (fr_world _ _ _ _ _ Hfv)).
  rewrite Hsh in Hdf. injection Hdf as <- <-. split; [exact H|].
  intros E. unfold o. rewrite E. apply owed_all; [lia|apply RoundSpec.pow10_pos; lia|].
  unfold pool_reserves, vault_held. eapply lheld_granular; [apply Hp|exact Hsh].
Qed.

Lemma redemption_succeeds_witness : exists t l',
  redeem example_s example_ub example_l = Done (Ok t, l') /\
  redeemed example_s example_ub t (30001 * Dec.ONE / 100) (30778 * Dec.ONE / 100) example_l l'.
Proof.
  destruct (world_of example_l example_units) as [wu|] eqn:Eu; [|by vm_compute in Eu].
  destruct (world_of example_l example_resource) as [wv|] eqn:Ev; [|by vm_compute in Ev].
  pose proof (po_ledger _ _ example_ok _ _ Eu) as Hiu. pose proof (po_ledger _ _ example_ok _ _ Ev) as Hiv.
  assert (Hd : divisibility wv = 2) by (vm_compute in Ev; by injection Ev as <-).
  destruct (redemption_succeeds example_s example_ub example_l wu
    {| c_liquid := 30001 * Dec.ONE / 100; c_locked := []; c_frozen := 0 |} wv
    {| c_liquid := 30778 * Dec.ONE / 100; c_locked := []; c_frozen := 0 |}) as (t & l' & Hr & H & _).
  - exact example_ok.
  - done.
  - constructor; [|done|..]; vm_compute in Eu; by injection Eu as <-.
  - constructor; [|done|..]; vm_compute in Ev; by injection Ev as <-.
  - rewrite Hd. by vm_compute.
  - exists t, l'. split; [done|]. rewrite Hd in H. exact H.
Defined.

End PoolTheorems.

(** *** The pool of two resources *)
Module TwoPoolTheorems.
Import TwoResourcePool TwoSpec.
Export PoolTheorems.

Definition other_resource : ResourceAddress := 4%N.
Definition two_units : ResourceAddress := 3%N.
Definition two_ledger : Ledger := with_supply other_resource example_ledger.

Lemma two_ledger_ok : ledger_ok two_ledger.
Proof. apply with_supply_ok, with_supply_ok, example_empty_ok. Qed.

(** A pool with 40 and 90 in its vaults, and two more buckets, of 10 and 90. *)
Definition two_setup : PM (Substate * Bucket * Bucket * Bucket) :=
  s ← instantiate two_units example_resource other_resource;
  b1 ← bucket_take_advanced (initial_bucket example_resource) (40 * Dec.ONE) Exact;
  b2 ← bucket_take_advanced (initial_bucket other_resource) (90 * Dec.ONE) Exact;
  '(ub, _) ← contribute Z.sqrt s b1 b2;
  b1 ← bucket_take_advanced (initial_bucket example_resource) (10 * Dec.ONE) Exact;
  b2 ← bucket_take_advanced (initial_bucket other_resource) (90 * Dec.ONE) Exact;
  mret (s, ub, b1, b2).

Lemma lsafe_two : lsafe two_setup two_ledger (fun r l' => pool2_ok r.1.1.1 l').
Proof.
  unfold two_setup. wp_step. eapply wp_mono; [apply lsafe_instantiate2; [exact two_ledger_ok|done|done]| |done].
  intros s l1 (Hp & _). apply lsafe_take_any; [apply Hp|by vm_compute|]. intros b1 ds d l2 H2.
  apply lsafe_take_any; [apply H2|by vm_compute|]. intros b2 ds' d' l3 H3.
  assert (Hp3 : pool2_ok s l3) by (do 2 (eapply pool2_ok_change; [|eassumption]); exact Hp).
  wp_step. eapply wp_mono; [by apply lsafe_contribute2| |done]. intros [ub ch] l4 (m & H4). cbn beta iota.
  pose proof (c2_pool _ _ _ _ _ _ _ _ H4) as Hp4.
  apply lsafe_take_any; [apply Hp4|by vm_compute|]. intros b1' ds1 d1 l5 H5.
  apply lsafe_take_any; [apply H5|by vm_compute|]. intros b2' ds2 d2 l6 H6. wp_step. cbn.
  do 2 (eapply pool2_ok_change; [|eassumption]). exact Hp4.
Qed.

(** C29 (safety): contributing to a pool of two resources never panics. When it
    succeeds it moves an amount of each bucket into its vault and mints units for
    them: everything when no units are in circulation; otherwise amounts that, up
    to one smallest unit of the resource, are worth at least the minted units at the
    ratio of reserves to supply. What is not accepted stays in the buckets, and the
    returned change is the only bucket that may not be empty. *)
Theorem two_pool_contribution_fair (sqrt_384 : Z -> Z) (s : Substate) (b1 b2 : Bucket) (l : Ledger) :
  pool2_ok s l ->
  match contribute sqrt_384 s b1 b2 l with
  | Done (Ok (ub, change), l') => exists m, contributed2 s b1 b2 ub change m l l'
  | Done (Err _, _) => True
  | Panicked => False
  end.
Proof.
  intros Hp. pose proof (lsafe_contribute2 sqrt_384 s b1 b2 l Hp) as H. unfold wp in H.
  by destruct (contribute _ _ _ _ _) as [[[[ub ch]|e] l']|].
Qed.

Definition two_value : option (Substate * Bucket * Bucket * Bucket) := value_after two_setup two_ledger.
Definition two_l : Ledger := ledger_after two_setup two_ledger.
Definition two_s : Substate := {|
  vaults := ((example_resource, {| vault_resource := example_resource; vault_id := 1%N |}),
             (other_resource, {| vault_resource := other_resource; vault_id := 1%N |}));
  pool_unit_resource_manager := two_units |}.
Definition two_b1 : Bucket := {| bucket_resource := example_resource; bucket_id := 4%N |}.
Definition two_b2 : Bucket := {| bucket_resource := other_resource; bucket_id := 4%N |}.
Definition two_ub : Bucket := {| bucket_resource := two_units; bucket_id := 0%N |}.
Definition two_l1 : Ledger := ledger_after (contribute Z.sqrt two_s two_b1 two_b2) two_l.

Lemma two_ok : pool2_ok two_s two_l.
Proof.
  pose proof lsafe_two as H. unfold wp in H.
  assert (two_setup two_ledger = Done (Ok (two_s, two_ub, two_b1, two_b2), two_l)) as E by (by vm_compute).
  by rewrite E in H.
Qed.

(** Of 10 and 90, 10 and 22.5 are accepted. *)
Lemma two_pool_contribution_fair_witness : exists m,
  contributed2 two_s two_b1 two_b2 {| bucket_resource := two_units; bucket_id := 1%N |}
    (Some two_b2) m two_l two_l1 /\ bucket_held two_l1 two_b2 = 675 * Dec.ONE / 10.
Proof.
  pose proof (two_pool_contribution_fair Z.sqrt two_s two_b1 two_b2 two_l two_ok) as H.
  assert (contribute Z.sqrt two_s two_b1 two_b2 two_l =
    Done (Ok ({| bucket_resource := two_units; bucket_id := 1%N |}, Some two_b2), two_l1)) as E by (by vm_compute).
  rewrite E in H. destruct H as [m H]. exists m. split; [exact H|by vm_compute].
Defined.

End TwoPoolTheorems.
