(* ===== verification/SeveralPools.v ===== *)
(** * Redemptions from and contributions to several reserves

    The redemption of the pools of two and of many resources, which pays a share
    of every reserve, and the contribution to a pool of many resources: the pool
    accepts of every resource the same multiple of its reserves, rounded down, and
    returns the rest as change. *)

From S2P Require Import Prelude Decimals PreciseDecimals IndexMap Resource FungibleResource Pools PoolLedger PoolSpec.
Import Int Rounding FungibleInvariant PDecSpec Effects.

(** ** Redemption from several reserves *)
Module ManySpec.
Import Shares.
Export TwoSpec.

Definition divisibility_in (l : Ledger) (r : ResourceAddress) : Z := from_option fst 0 (shape l r).

(** The smallest unit of a resource. *)
Definition granule_in (l : Ledger) (r : ResourceAddress) : Z := 10 ^ (18 - divisibility_in l r).

(** The vaults of a pool with pool unit resource [units]. *)
Record pool_many_ok (units : ResourceAddress) (vs : list (ResourceAddress * Vault)) (l : Ledger) :
    Prop := {
  pm_ledger : ledger_ok l;
  pm_unit : shape l units = Some (18, pool_unit_features);
  pm_vaults : forall e, e ∈ vs -> vault_resource e.2 = e.1 /\ is_Some (shape l e.1) /\ e.1 <> units;
  pm_distinct : NoDup vs.*1
}.

Definition reserve_of (l : Ledger) (e : ResourceAddress * Vault) :
    ResourceAddress * ReserveResourceInformation :=
  (e.1, {| reserves := vault_held l e.2; divisibility_ := divisibility_in l e.1 |}).

Definition owed_of (l : Ledger) (u S : Z) (e : ResourceAddress * Vault) : ResourceAddress * Decimal :=
  (e.1, owed u S (vault_held l e.2) (granule_in l e.1)).

Lemma divisibility_in_bounds l r : ledger_ok l -> is_Some (shape l r) -> 0 <= divisibility_in l r <= 18.
Proof.
  intros Hok [[d f] Hs]. unfold divisibility_in. rewrite Hs. cbn. revert Hs. unfold shape.
  destruct (world_of l r) as [w|] eqn:Hw; [|done]. intros [= <- <-].
  apply (inv_l w). by apply (Hok r).
Qed.

Lemma lsafe_read_reserves l vs (Q : IndexMap ResourceAddress ReserveResourceInformation -> Ledger -> Prop) :
  ledger_ok l -> NoDup vs.*1 ->
  (forall e, e ∈ vs -> is_Some (shape l e.1)) ->
  Q (reserve_of l <$> vs) l -> lsafe (read_reserves vs) l Q.
Proof.
  intros Hl Hnd Hs. unfold read_reserves.
  enough (Hgen : forall acc, NoDup (acc.*1 ++ vs.*1) -> Q (acc ++ (reserve_of l <$> vs)) l ->
    lsafe (foldM (fun acc '(resource_address, vault) =>
      amount ← vault_amount vault;
      divisibility ← divisibility_of resource_address;
      mret (im_insert resource_address
        {| reserves := amount; divisibility_ := divisibility |} acc)) acc vs) l Q) by (intros HQ; by apply (Hgen [])).
  clear Hnd. induction vs as [|[r v] vs IH]; intros acc Hnd HQ; cbn [foldM].
  { rewrite app_nil_r in HQ. by apply wp_ret. }
  wp_step. call lsafe_vault_amount.
  destruct (Hs (r, v) ltac:(left)) as [[d f] Hdf].
  call lsafe_divisibility; [by apply shape_world; eexists|]. intros d' f' Hd' _.
  cbn [fst] in Hdf. rewrite Hdf in Hd'. injection Hd' as <- <-. wp_step.
  cbn in Hnd. apply NoDup_app in Hnd as Hnd'. destruct Hnd' as (_ & Hfresh & _).
  rewrite im_insert_fresh.
  2: { apply im_get_None. intros Hin. apply (Hfresh r Hin). left. }
  apply IH.
  - intros e He. apply Hs. by right.
  - rewrite fmap_app. cbn. rewrite <- app_assoc. done.
  - rewrite <- app_assoc. cbn in HQ |- *. unfold reserve_of in HQ at 1. cbn in HQ.
    unfold divisibility_in in HQ at 1. rewrite Hdf in HQ. exact HQ.
Qed.

Lemma lsafe_amounts_owed l e u S vs (Q : IndexMap ResourceAddress Decimal -> Ledger -> Prop) :
  ledger_ok l -> 0 <= u <= S -> Dec.wf S ->
  (forall x, x ∈ vs -> is_Some (shape l x.1)) ->
  (vs = [] \/ 0 < S -> Q (owed_of l u S <$> vs) l) ->
  lsafe (calculate_amounts_owed e u S (reserve_of l <$> vs)) l Q.
Proof.
  intros Hl Hu HwS Hs. revert Q. induction vs as [|[r v] vs IH]; intros Q HQ.
  { apply wp_ret. apply HQ. by left. }
  cbn [fmap list_fmap calculate_amounts_owed reserve_of reserves divisibility_ fst snd].
  pose proof (lheld_bounds l (vault_resource v) (LVault (vault_id v)) Hl) as HR.
  pose proof (lheld_wf l (vault_resource v) (LVault (vault_id v)) Hl) as HwR.
  pose proof (divisibility_in_bounds l r Hl (Hs (r, v) ltac:(left))) as Hd.
  fold (vault_held l v) in *.
  destruct (decide (S = 0)) as [->|HS].
  - call lsafe_or_fail; [|].
    + assert (u = 0) as -> by lia. unfold share_owed. rewrite !from_decimal_Done by done.
      cbn [mbind Exec_bind]. reflexivity.
    + done.
  - call lsafe_or_fail; [apply share_owed_spec; try done; lia|]. intros o [= <-].
    wp_step. apply IH.
    + intros x Hx. apply Hs. by right.
    + intros _. wp_step. apply HQ. right. lia.
Qed.

(** *** Paying out *)

(** [bs] received the amounts of the list [l] of vaults and amounts. *)
Record paid (amounts : list (ResourceAddress * Decimal)) (look : ResourceAddress -> option Vault)
    (bs : list Bucket) (l l' : Ledger) : Prop := {
  pd_ok : ledger_ok l';
  pd_shape : forall r, shape l' r = shape l r;
  pd_supply : forall r, lsupply l' r = lsupply l r;
  pd_buckets : Forall2 (fun e b => bucket_resource b = e.1 /\ bucket_held l' b = e.2) amounts bs;
  pd_vaults : forall e v, e ∈ amounts -> look e.1 = Some v -> vault_held l' v = vault_held l v - e.2;
  pd_other : forall r o, r ∉ amounts.*1 -> lheld l' r o = lheld l r o
}.

Lemma paid_cons r a amounts look v b bs l l1 l' :
  look r = Some v -> vault_resource v = r -> (forall e v, e ∈ amounts -> look e.1 = Some v ->
    vault_resource v = e.1) -> r ∉ amounts.*1 ->
  taken l r (LVault (vault_id v)) a Exact b a l1 -> paid amounts look bs l1 l' ->
  paid ((r, a) :: amounts) look (b :: bs) l l'.
Proof.
  intros Hlook Hv Hvs Hr [_ _ Hb H0 Hc] [Hok Hsh Hsu Hbs Hva Hot].
  constructor; [done|intros; by rewrite Hsh, (ch_shape _ _ _ _ Hc)| | | |].
  - intros r'. rewrite Hsu. ledger_rewrite. ledger_cases.
  - constructor; [|done]. split; [done|]. unfold bucket_held in *. rewrite Hb in *. cbn [fst snd].
    rewrite Hot by done. ledger_rewrite. ledger_cases.
  - intros e v' He Hl. unfold vault_held. apply elem_of_cons in He as [->|He]; cbn [fst snd] in *.
    + assert (v' = v) as -> by congruence. rewrite Hv, Hot by done. ledger_rewrite. ledger_cases.
    + pose proof (Hva e v' He Hl) as E. pose proof (Hvs e v' He Hl) as Hr'.
      assert (e.1 <> r) as Hne by (intros <-; apply Hr; by apply list_elem_of_fmap_2).
      unfold vault_held in E. rewrite E, Hr'. ledger_rewrite. ledger_cases.
  - intros r' o Hr'. cbn in Hr'. apply not_elem_of_cons in Hr' as [Hne Hr'].
    rewrite Hot by done. ledger_rewrite. ledger_cases.
Qed.

Lemma lsafe_pay look amounts l (Q : list Bucket -> Ledger -> Prop) :
  ledger_ok l -> NoDup amounts.*1 ->
  (forall e, e ∈ amounts -> exists v, look e.1 = Some v /\ vault_resource v = e.1 /\ Dec.wf e.2) ->
  (forall bs l', paid amounts look bs l l' -> Q bs l') ->
  lsafe (foldM (fun acc '(resource_address, amount) =>
    v ← lift_exec (expect (look resource_address));
    b ← vault_take v amount;
    mret (acc ++ [b])) [] amounts) l Q.
Proof.
  intros Hl Hnd Hv HQ.
  enough (Hgen : forall acc, (forall bs l', paid amounts look bs l l' -> Q (acc ++ bs) l') ->
    lsafe (foldM (fun acc '(resource_address, amount) =>
      v ← lift_exec (expect (look resource_address));
      b ← vault_take v amount;
      mret (acc ++ [b])) acc amounts) l Q) by (by apply Hgen).
  clear HQ. revert l Hl. induction amounts as [|[r a] amounts IH]; intros l Hl acc HQ; cbn [foldM].
  { apply wp_ret. rewrite <- (app_nil_r acc). apply HQ. constructor; try done. by intros ?? ?%not_elem_of_nil. }
  destruct (Hv (r, a) ltac:(left)) as (v & Hlook & Hres & Hwf). cbn [fst snd] in *.
  apply NoDup_cons in Hnd as [Hr Hnd].
  wp_step. call lsafe_exec; [by rewrite Hlook|]. unfold vault_take. call lsafe_vault_take_advanced; [done|].
  intros b a' l1 Ht. assert (a' = a) as ->.
  { destruct (tk_amount _ _ _ _ _ _ _ _ Ht) as (? & ? & _ & _ & Hfor & _). by injection Hfor. }
  wp_step. rewrite Hres in Ht. apply (IH Hnd).
  - intros e He. apply Hv. by right.
  - apply (tk_change _ _ _ _ _ _ _ _ Ht).
  - intros bs l' Hp. rewrite <- app_assoc. apply HQ. eapply paid_cons; try done.
    intros e v' He Hlk. destruct (Hv e ltac:(by right)) as (v2 & Hlk2 & Hr2 & _). congruence.
Qed.

(** *** Redemptions *)

Lemma Forall2_impl_elem {T U} (P Q : T -> U -> Prop) l k :
  Forall2 P l k -> (forall x y, x ∈ l -> P x y -> Q x y) -> Forall2 Q l k.
Proof.
  induction 1; constructor; [apply H1; [left|done]|]. apply IHForall2. intros. apply H1; [by right|done].
Qed.

(** [u] pool units of [b] against the buckets [bs], one from every vault: each
    pays its share of the reserves, rounded down to the resource's smallest
    unit. *)
Record redeemed_many (units : ResourceAddress) (vs : list (ResourceAddress * Vault)) (b : Bucket)
    (bs : list Bucket) (u : Z) (l l' : Ledger) : Prop := {
  rm_pool : pool_many_ok units vs l';
  rm_given : bucket_resource b = units /\ bucket_held l b = u /\ bucket_held l' b = 0;
  rm_range : 0 <= u <= lsupply l units;
  rm_supply : lsupply l' units = lsupply l units - u;
  rm_paid : Forall2 (fun e t => exists o,
    o = owed u (lsupply l units) (vault_held l e.2) (granule_in l e.1) /\
    o * lsupply l units <= u * vault_held l e.2 /\
    bucket_resource t = e.1 /\ bucket_held l' t = o /\
    vault_held l' e.2 = vault_held l e.2 - o) vs bs
}.

Lemma pool_many_ok_shape units vs l l' :
  pool_many_ok units vs l -> ledger_ok l' -> (forall r, shape l' r = shape l r) ->
  pool_many_ok units vs l'.
Proof.
  intros [Hl Hu Hv Hn] Hl' Hs. constructor; [done|by rewrite Hs| |done].
  intros e He. rewrite Hs. by apply Hv.
Qed.

Lemma owed_of_fst l u S vs : (owed_of l u S <$> vs).*1 = vs.*1.
Proof. rewrite <- list_fmap_compose. done. Qed.

Lemma granule_in_pos l r : ledger_ok l -> is_Some (shape l r) -> 0 < granule_in l r.
Proof.
  intros Hok Hs. apply RoundSpec.pow10_pos. pose proof (divisibility_in_bounds l r Hok Hs). lia.
Qed.

Lemma owed_of_look units vs look l u S :
  pool_many_ok units vs l -> (forall e, e ∈ vs -> look e.1 = Some e.2) -> 0 <= u <= S -> 0 < S \/ vs = [] ->
  forall e, e ∈ owed_of l u S <$> vs ->
    exists v, look e.1 = Some v /\ vault_resource v = e.1 /\ Dec.wf e.2.
Proof.
  intros [Hl _ Hv _] Hlook Hu HS e (x & -> & Hx)%list_elem_of_fmap.
  destruct HS as [HS| ->]; [|by apply not_elem_of_nil in Hx].
  destruct (Hv x Hx) as (Hr & Hsh & _). exists x.2. cbn [owed_of fst snd].
  split_and!; [by apply Hlook|done|].
  pose proof (lheld_bounds l (vault_resource x.2) (LVault (vault_id x.2)) Hl) as HR.
  fold (vault_held l x.2) in HR. pose proof (granule_in_pos l x.1 Hl Hsh) as HG.
  pose proof (owed_nonneg u S (vault_held l x.2) _ HS ltac:(lia) ltac:(lia) HG).
  pose proof (owed_max u S (vault_held l x.2) _ HS Hu ltac:(lia) HG).
  rewrite DecSpec.wf_range, DecSpec.MAX_val in *. lia.
Qed.

Lemma redeemed_many_intro units vs look b bs l l1 l2 l3 :
  pool_many_ok units vs l -> (forall e, e ∈ vs -> look e.1 = Some e.2) ->
  bucket_resource b = units -> 0 < lsupply l units \/ vs = [] ->
  change (only units (- bucket_held l b))
    (inside units (at_ (LBucket (bucket_id b)) (- bucket_held l b))) l l1 ->
  same_amounts l1 l2 ->
  paid (owed_of l (bucket_held l b) (lsupply l units) <$> vs) look bs l2 l3 ->
  redeemed_many units vs b bs (bucket_held l b) l l3.
Proof.
  intros Hp Hlook Hres HS H1 H2 [Hok Hsh Hsu Hbs Hva Hot].
  pose proof Hp as [Hl Hu Hv Hn].
  assert (Ht : tracked l units) by (by eapply shape_tracked).
  destruct (lheld_supply l units (LBucket (bucket_id b)) Hl Ht) as [Hrange _].
  assert (Hother : forall r o, r ∉ vs.*1 -> lheld l3 r o = lheld l2 r o)
    by (intros; apply Hot; by rewrite owed_of_fst).
  assert (Hun : units ∉ vs.*1)
    by (intros (e & He & Hin)%list_elem_of_fmap; by destruct (Hv e Hin) as (_ & _ & ?)).
  constructor.
  - eapply pool_many_ok_shape; [exact Hp|done|]. intros r. rewrite Hsh. by ledger_rewrite.
  - split; [done|]. split; [done|]. unfold bucket_held. rewrite Hres, Hother by done.
    ledger_rewrite. unfold bucket_held. rewrite Hres. ledger_cases.
  - unfold bucket_held. by rewrite Hres.
  - rewrite Hsu. ledger_rewrite. ledger_cases.
  - apply Forall2_fmap_l in Hbs. eapply Forall2_impl_elem; [exact Hbs|]. cbn.
    intros e t He [Htr Hth].
    exists (owed (bucket_held l b) (lsupply l units) (vault_held l e.2) (granule_in l e.1)).
    split; [done|].
    destruct (Hv e He) as (Hr & Hsh' & Hne).
    assert (Hvl : forall r o, r <> units -> lheld l2 r o = lheld l r o)
      by (intros; ledger_rewrite; ledger_cases).
    assert (HS' : 0 < lsupply l units) by (destruct HS as [| ->]; [done|by apply not_elem_of_nil in He]).
    split; [|split; [done|split; [done|]]].
    + apply owed_le; [done|unfold bucket_held; rewrite Hres; lia| |by apply granule_in_pos].
      apply (lheld_bounds l _ _ Hl).
    + assert (Hin : owed_of l (bucket_held l b) (lsupply l units) e ∈
        owed_of l (bucket_held l b) (lsupply l units) <$> vs) by (by apply list_elem_of_fmap_2).
      rewrite (Hva _ e.2 Hin) by (by apply Hlook). cbn. unfold vault_held at 1.
      by rewrite Hvl by (by rewrite Hr).
Qed.

(** The common steps of the two [redeem] operations, up to the payment. *)
Lemma lsafe_redeem_many units vs look b e ev l {T} (k : list Bucket -> PM T)
    (Q : T -> Ledger -> Prop) :
  pool_many_ok units vs l -> (forall e, e ∈ vs -> look e.1 = Some e.2) ->
  bucket_resource b = units ->
  (forall bs l', redeemed_many units vs b bs (bucket_held l b) l l' -> lsafe (k bs) l' Q) ->
  lsafe (reserves ← read_reserves vs;
         amounts_owed ← calculate_amounts_owed e (bucket_held l b) (lsupply l units) reserves;
         bucket_burn b;;
         emit_event (ev amounts_owed);;
         buckets ← foldM (fun acc '(resource_address, amount) =>
           v ← lift_exec (expect (look resource_address));
           b ← vault_take v amount;
           mret (acc ++ [b])) [] amounts_owed;
         k buckets) l Q.
Proof.
  intros Hp Hlook Hres HQ. pose proof Hp as [Hl Hu Hv Hn].
  assert (Ht : tracked l units) by (by eapply shape_tracked).
  destruct (lheld_supply l units (LBucket (bucket_id b)) Hl Ht) as [Hrange _].
  destruct (lsupply_wf l units Hl Ht) as [_ HwS].
  call lsafe_read_reserves; [done|intros x Hx; by apply Hv|].
  call lsafe_amounts_owed; [unfold bucket_held; rewrite Hres; lia|done|intros x Hx; by apply Hv|].
  intros HS. call lsafe_burn; [by rewrite Hres|]. intros l1 H1. call lsafe_emit. intros l2 H2.
  rewrite Hres in H1. call lsafe_pay; [by rewrite owed_of_fst| |].
  - eapply owed_of_look; try done; [unfold bucket_held; rewrite Hres; lia|tauto].
  - intros bs l3 H3. apply HQ. eapply redeemed_many_intro; try done. tauto.
Qed.

Lemma pool2_many s l :
  pool2_ok s l -> pool_many_ok (TwoResourcePool.pool_unit_resource_manager s) (TwoResourcePool.vault_list s) l.
Proof.
  intros [Hl Hu Hv Hd]. constructor; try done. cbn. apply NoDup_cons. split.
  - intros Hin%list_elem_of_singleton. done.
  - apply NoDup_singleton.
Qed.

Lemma pool2_look s l e :
  pool2_ok s l -> e ∈ TwoResourcePool.vault_list s -> TwoResourcePool.vault s e.1 = Some e.2.
Proof.
  intros Hp He. pose proof (p2_distinct _ _ Hp) as Hd. unfold TwoResourcePool.vault.
  cbn [TwoResourcePool.vault_list find] in *.
  apply elem_of_cons in He as [->|He%list_elem_of_singleton].
  - by rewrite N.eqb_refl.
  - subst e. rewrite (proj2 (N.eqb_neq _ _)), N.eqb_refl by done. done.
Qed.

Lemma lsafe_redeem2 s b l :
  pool2_ok s l ->
  lsafe (TwoResourcePool.redeem s b) l (fun r l' =>
    redeemed_many (TwoResourcePool.pool_unit_resource_manager s) (TwoResourcePool.vault_list s) b [r.1; r.2]
      (bucket_held l b) l l').
Proof.
  intros Hp. pose proof (pool2_many s l Hp) as Hm. pose proof (p2_ledger _ _ Hp) as Hl.
  unfold TwoResourcePool.redeem, TwoResourcePool.take_owed.
  call lsafe_bucket_address. call lsafe_guard. intros Hres%N.eqb_eq.
  call lsafe_bucket_amount. intros u Hu. rewrite Hu.
  2: { rewrite Hres. apply shape_world. rewrite (p2_unit _ _ Hp). eauto. }
  call lsafe_supply; [eapply shape_tracked, (p2_unit _ _ Hp)|]. intros _. clear u Hu.
  apply lsafe_redeem_many with (ev := fun a => inr (RedemptionEvent (bucket_held l b) a))
    (k := fun buckets => bucket0 ← lift_exec (expect (buckets !! 0%nat));
      bucket1 ← lift_exec (expect (buckets !! 1%nat)); mret (bucket0, bucket1)); try done.
  - intros e He. by eapply pool2_look.
  - intros bs l' Hr. pose proof (rm_paid _ _ _ _ _ _ _ Hr) as Hbs. apply Forall2_length in Hbs.
    destruct bs as [|t1 [|t2 [|]]]; done.
Qed.

Lemma lsafe_redeem_multi s b l :
  pool_many_ok (MultiResourcePool.pool_unit_resource_manager s) (MultiResourcePool.vaults s) l ->
  lsafe (MultiResourcePool.redeem s b) l (fun bs l' =>
    redeemed_many (MultiResourcePool.pool_unit_resource_manager s) (MultiResourcePool.vaults s) b bs
      (bucket_held l b) l l').
Proof.
  intros Hp. pose proof (pm_ledger _ _ _ Hp) as Hl.
  unfold MultiResourcePool.redeem.
  call lsafe_bucket_address. call lsafe_guard. intros Hres%N.eqb_eq.
  call lsafe_bucket_amount. intros u Hu. rewrite Hu.
  2: { rewrite Hres. apply shape_world. rewrite (pm_unit _ _ _ Hp). eauto. }
  call lsafe_supply; [eapply shape_tracked, (pm_unit _ _ _ Hp)|]. intros _. clear u Hu.
  apply lsafe_redeem_many with (ev := fun a => inr (RedemptionEvent (bucket_held l b) a))
    (look := fun r => im_get r (MultiResourcePool.vaults s)) (k := fun buckets => mret buckets); try done.
  intros [r v] He. apply im_elem_get; [apply Hp|done].
Qed.

End ManySpec.

(** ** Contributions to a pool of many resources *)
Module MultiSpec.
Import MultiResourcePool Shares TwoShares.
Export ManySpec.

(** The amount of resource [r] in the buckets [bs]. *)
Fixpoint given (l : Ledger) (bs : list Bucket) (r : ResourceAddress) : Z :=
  match bs with
  | [] => 0
  | b :: bs => (if decide (bucket_resource b = r) then bucket_held l b else 0) + given l bs r
  end.

Lemma given_app l bs bs' r : given l (bs ++ bs') r = given l bs r + given l bs' r.
Proof. induction bs as [|b bs IH]; cbn; [done|]. rewrite IH. lia. Qed.

Lemma given_ext l l' bs r :
  (forall b, b ∈ bs -> bucket_resource b = r -> bucket_held l' b = bucket_held l b) ->
  given l' bs r = given l bs r.
Proof.
  induction bs as [|b bs IH]; cbn; [done|]. intros H. rewrite IH by (intros; apply H; [by right|done]).
  case_decide; [|done]. rewrite H by (left || done). done.
Qed.

Lemma given_nonneg l bs r : ledger_ok l -> 0 <= given l bs r.
Proof.
  intros Hl. induction bs as [|b bs IH]; cbn; [lia|]. case_decide; [|lia].
  pose proof (lheld_bounds l (bucket_resource b) (LBucket (bucket_id b)) Hl). unfold bucket_held. lia.
Qed.

(** The information of a contribution agrees with the ledger. *)
Record entry_ok (l : Ledger) (e : ResourceAddress * ContributionInformation) : Prop := {
  en_vault : vault_resource (i_vault e.2) = e.1;
  en_bucket : bucket_resource (i_bucket e.2) = e.1;
  en_reserves : i_reserves e.2 = vault_held l (i_vault e.2) * A;
  en_contribution : i_contribution e.2 = bucket_held l (i_bucket e.2) * A;
  en_shape : is_Some (shape l e.1)
}.

Lemma entry_ok_frame l l' e :
  entry_ok l e -> shape l' e.1 = shape l e.1 -> (forall o, lheld l' e.1 o = lheld l e.1 o) -> entry_ok l' e.
Proof.
  intros [Hv Hb Hr Hc Hs] Hsh Hh. constructor; [done|done| | |by rewrite Hsh].
  - rewrite Hr. unfold vault_held. by rewrite Hv, Hh.
  - rewrite Hc. unfold bucket_held. by rewrite Hb, Hh.
Qed.

(** One entry paid [a] from its bucket into its vault; other resources are left
    alone. *)
Record entry_paid (a : Z) (e : ResourceAddress * ContributionInformation) (l l' : Ledger) : Prop := {
  ep_ok : ledger_ok l';
  ep_shape : forall r, shape l' r = shape l r;
  ep_supply : forall r, lsupply l' r = lsupply l r;
  ep_vault : vault_held l' (i_vault e.2) = vault_held l (i_vault e.2) + a;
  ep_bucket : bucket_held l' (i_bucket e.2) = bucket_held l (i_bucket e.2) - a;
  ep_other : forall r o, r <> e.1 -> lheld l' r o = lheld l r o
}.

Lemma entry_paid_same a e l l1 l2 : entry_paid a e l l1 -> same_amounts l1 l2 -> entry_paid a e l l2.
Proof.
  intros [Hok Hsh Hsu Hv Hb Ho] H. constructor; unfold vault_held, bucket_held in *; [apply H|..]; intros;
    ledger_rewrite; rewrite ?Hsh, ?Hsu, ?Hv, ?Hb, ?Ho by done; lia || done.
Qed.

(** The amount accepted at the ratio [k]: [R * k], rounded down. *)
Definition at_ratio (k : Z) (l : Ledger) (a : Z) (e : ResourceAddress * ContributionInformation) : Prop :=
  exists x, x = vault_held l (i_vault e.2) * k / PDec.ONE /\ a <= x < a + granule_in l e.1 /\
    0 <= a <= bucket_held l (i_bucket e.2).

Lemma lsafe_add_contributed l m r a (Q : IndexMap ResourceAddress Decimal -> Ledger -> Prop) :
  (forall m', Q m' l) -> lsafe (add_contributed m r a) l Q.
Proof. intros HQ. unfold add_contributed. call lsafe_ok_or. intros s _. by apply wp_ret. Qed.

Lemma lsafe_deposit_ratio k contributed change_buckets e l
    (Q : IndexMap ResourceAddress Decimal * list Bucket -> Ledger -> Prop) :
  ledger_ok l -> entry_ok l e -> 0 <= k ->
  (forall a c' ch' l', at_ratio k l a e -> entry_paid a e l l' ->
     (ch' = change_buckets /\ bucket_held l' (i_bucket e.2) = 0 \/
      ch' = change_buckets ++ [i_bucket e.2]) -> Q (c', ch') l') ->
  lsafe (deposit_ratio k (contributed, change_buckets) e) l Q.
Proof.
  intros Hl [Hv Hb Hr Hc Hs] Hk HQ. destruct e as [r i]. cbn [fst snd] in *. unfold deposit_ratio.
  pose proof (lheld_bounds l (vault_resource (i_vault i)) (LVault (vault_id (i_vault i))) Hl) as HR.
  fold (vault_held l (i_vault i)) in HR. set (R := vault_held l (i_vault i)) in *.
  assert (HRk : 0 <= R * k / A) by (apply Z.div_pos; [nia|done]).
  assert (Hmul : PDec.checked_mul (R * A) k =
    if R * k / A <=? PDec.MAX then Some (R * k / A) else None).
  { rewrite pchecked_mul_spec. cbv zeta. replace (R * A * k) with (R * k * A) by ring.
    rewrite ONE_A, Z.quot_mul_cancel_r, Z.quot_div_nonneg by (done || nia). by rewrite Z.abs_eq. }
  rewrite Hr, Hmul. clear Hmul.
  call (lsafe_or_fail _ _ (if R * k / A <=? PDec.MAX then
    if R * k / PDec.ONE <=? Dec.MAX then Some (R * k / PDec.ONE) else None else None)).
  { destruct (_ <=? PDec.MAX) eqn:E; [|done]. zbool.
    rewrite to_decimal_nonneg by (done || by apply wf_nonneg). by rewrite Z.div_div, <- ONE_A. }
  intros x Hx. destruct (_ <=? PDec.MAX); [|done]. destruct (_ <=? Dec.MAX) eqn:HxM; [|done].
  injection Hx as Hx. rewrite Hx in HxM. zbool.
  assert (Hx0 : 0 <= x) by (rewrite <- Hx; apply Z.div_pos; [nia|done]).
  assert (Hwx : Dec.wf x) by (apply DecSpec.wf_range; rewrite DecSpec.MAX_val in *; lia).
  call lsafe_bucket_take_advanced; [done|]. intros y a l1 Ht.
  pose proof (tk_change _ _ _ _ _ _ _ _ Ht) as H1.
  destruct Ht as [(d & f & Hdf & Hd & Hfor & Ha0 & _) Hle Hyr Hyf _].
  destruct (round_down_withdrawal x d a Hx0 Hwx Hd Hfor) as [Hax _].
  assert (Hat : at_ratio k l a (r, i)).
  { exists x. cbn [fst snd]. split; [by rewrite <- Hx|]. unfold granule_in, divisibility_in.
    rewrite <- Hb, Hdf. cbn. unfold bucket_held. lia. }
  call lsafe_bucket_amount. intros a0 _. call lsafe_guard. intros _.
  call lsafe_vault_put. intros Hyv l2 H2. call lsafe_add_contributed. intros c'.
  assert (Hy1 : bucket_held l1 y = a).
  { revert Hyf. unfold bucket_held. rewrite Hyr. ledger_rewrite. unfold bucket_held in Hle. ledger_cases. }
  rewrite Hy1 in H2. unfold bucket_held in Hyf, Hle.
  assert (Hw : is_Some (world_of l2 (bucket_resource (i_bucket i)))).
  { apply shape_world. ledger_rewrite. by rewrite Hb. }
  call lsafe_bucket_is_empty. intros a1 Ha1. rewrite (Ha1 Hw). clear a1 Ha1.
  assert (Hep : entry_paid a (r, i) l l2).
  { constructor; [apply H2|intros; by ledger_rewrite|intros; ledger_rewrite; ledger_cases| | |].
    - unfold vault_held. cbn [fst snd]. revert Hyf. rewrite Hyr, Hv, Hb. ledger_rewrite. 
      rewrite ?Hyr, ?Hb, ?Hv. ledger_cases.
    - unfold bucket_held. cbn [fst snd]. revert Hyf. rewrite Hyr, Hb. ledger_rewrite.
      rewrite ?Hyr, ?Hb, ?Hv. ledger_cases.
    - intros r' o Hne. cbn [fst] in Hne. ledger_rewrite. rewrite ?Hyr, ?Hb, ?Hv. ledger_cases. }
  unfold Dec.is_zero. destruct (bucket_held l2 (i_bucket i) =? 0) eqn:E; zbool.
  - call lsafe_drop_empty. intros l3 _ H3. wp_step. apply HQ with a; [done| |].
    + eapply entry_paid_same; [exact Hep|]. eapply same_amounts_intro; [exact H3|..];
        intros; unfold only, inside; by case_decide.
    + left. split; [done|]. revert E. unfold bucket_held. ledger_rewrite. ledger_cases.
  - wp_steps. apply HQ with a; [done|done|by right].
Qed.

(** All entries, one after another. *)
Record entries_paid (P : Z -> ResourceAddress * ContributionInformation -> Prop)
    (information : list (ResourceAddress * ContributionInformation)) (change : list Bucket)
    (l l' : Ledger) : Prop := {
  es_ok : ledger_ok l';
  es_shape : forall r, shape l' r = shape l r;
  es_supply : forall r, lsupply l' r = lsupply l r;
  es_entries : forall e, e ∈ information -> exists a, P a e /\
    vault_held l' (i_vault e.2) = vault_held l (i_vault e.2) + a /\
    bucket_held l' (i_bucket e.2) = bucket_held l (i_bucket e.2) - a /\
    given l' change e.1 = bucket_held l' (i_bucket e.2);
  es_change : forall b, b ∈ change -> bucket_resource b ∈ information.*1;
  es_other : forall r o, r ∉ information.*1 -> lheld l' r o = lheld l r o
}.

Lemma given_ne l bs r : (forall b, b ∈ bs -> bucket_resource b <> r) -> given l bs r = 0.
Proof.
  induction bs as [|b bs IH]; cbn; [done|]. intros H. rewrite IH by (intros; apply H; by right).
  rewrite decide_False by (apply H; left). done.
Qed.

(** Resource [r] has not been touched. *)
Definition untouched (l l' : Ledger) (r : ResourceAddress) : Prop :=
  shape l' r = shape l r /\ forall o, lheld l' r o = lheld l r o.

Lemma entry_ok_untouched l l' e : entry_ok l e -> untouched l l' e.1 -> entry_ok l' e.
Proof. intros He [Hs Hh]. by eapply entry_ok_frame. Qed.

Lemma entry_paid_untouched a e l l' r : entry_paid a e l l' -> r <> e.1 -> untouched l l' r.
Proof. intros H Hne. split; [apply H|]. intros o. by apply (ep_other _ _ _ _ H). Qed.

Lemma untouched_trans l1 l2 l3 r : untouched l1 l2 r -> untouched l2 l3 r -> untouched l1 l3 r.
Proof. intros [H1 H2] [H3 H4]. split; [congruence|]. intros o. by rewrite H4, H2. Qed.

Lemma entries_nil P l : ledger_ok l -> entries_paid P [] [] l l.
Proof. intros Hl. constructor; try done; by intros ? ?%not_elem_of_nil. Qed.

Lemma entries_cons P a e information part ch l l1 l' :
  entry_ok l e -> (forall e', e' ∈ information -> entry_ok l e') -> e.1 ∉ information.*1 ->
  P a e -> entry_paid a e l l1 ->
  part = [] /\ bucket_held l1 (i_bucket e.2) = 0 \/ part = [i_bucket e.2] ->
  entries_paid P information ch l1 l' -> entries_paid P (e :: information) (part ++ ch) l l'.
Proof.
  intros He Hes Hfresh HP Hep Hpart [Hok Hsh Hsu Hen Hch Hot].
  assert (Hl' : forall o, lheld l' e.1 o = lheld l1 e.1 o) by (intros; by apply Hot).
  assert (Hb' : bucket_held l' (i_bucket e.2) = bucket_held l1 (i_bucket e.2))
    by (unfold bucket_held; by rewrite (en_bucket _ _ He), Hl').
  constructor; [done|intros; by rewrite Hsh, (ep_shape _ _ _ _ Hep)|
    intros; by rewrite Hsu, (ep_supply _ _ _ _ Hep)| | |].
  - intros e' [->|He']%elem_of_cons.
    + exists a. split; [done|]. rewrite Hb'. split; [|split; [apply Hep|]].
      * unfold vault_held at 1. rewrite (en_vault _ _ He), Hl', <- (en_vault _ _ He). apply Hep.
      * rewrite given_app, (given_ne l' ch).
        2: { intros b Hb Hr. apply Hfresh. rewrite <- Hr. by apply Hch. }
        destruct Hpart as [[-> Hz] | ->]; cbn.
        -- lia.
        -- rewrite decide_True by apply He. lia.
    + destruct (Hen e' He') as (a' & HP' & Hv & Hb & Hg). exists a'. split; [done|].
      assert (Hne : e'.1 <> e.1) by (intros E; apply Hfresh; rewrite <- E; by apply list_elem_of_fmap_2).
      pose proof (Hes e' He') as Hok'. pose proof (ep_other _ _ _ _ Hep e'.1) as Ho.
      split; [|split].
      * rewrite Hv. f_equal. unfold vault_held. by rewrite (en_vault _ _ Hok'), Ho.
      * rewrite Hb. f_equal. unfold bucket_held. by rewrite (en_bucket _ _ Hok'), Ho.
      * rewrite given_app, Hg. enough (given l' part e'.1 = 0) by lia. apply given_ne.
        intros b Hb'' Hr. destruct Hpart as [[-> _] | ->]; [by apply not_elem_of_nil in Hb''|].
        apply list_elem_of_singleton in Hb'' as ->. apply Hne. rewrite <- Hr. apply He.
  - intros b [Hb|Hb]%elem_of_app; cbn; [|right; by apply Hch].
    destruct Hpart as [[-> _] | ->]; [by apply not_elem_of_nil in Hb|].
    apply list_elem_of_singleton in Hb as ->. rewrite (en_bucket _ _ He). left.
  - intros r o Hr. cbn in Hr. apply not_elem_of_cons in Hr as [Hne Hr].
    rewrite Hot by done. by apply (ep_other _ _ _ _ Hep).
Qed.

Lemma at_ratio_untouched k l0 l a e :
  entry_ok l e -> untouched l0 l e.1 -> at_ratio k l a e -> at_ratio k l0 a e.
Proof.
  intros He [Hs Hh]. unfold at_ratio, granule_in, divisibility_in, vault_held, bucket_held.
  by rewrite Hs, (en_vault _ _ He), (en_bucket _ _ He), !Hh.
Qed.

(** A fold that pays from every entry, one after another. *)
Lemma lsafe_entries {B} (f : B -> ResourceAddress * ContributionInformation -> PM B)
    (changed : B -> list Bucket) P l0 information :
  (forall acc e l (Q : B -> Ledger -> Prop),
     ledger_ok l -> entry_ok l e -> untouched l0 l e.1 ->
     (forall a part acc' l', P a e -> entry_paid a e l l' ->
        part = [] /\ bucket_held l' (i_bucket e.2) = 0 \/ part = [i_bucket e.2] ->
        changed acc' = changed acc ++ part -> Q acc' l') -> lsafe (f acc e) l Q) ->
  NoDup information.*1 ->
  forall l acc (Q : B -> Ledger -> Prop),
  ledger_ok l -> (forall e, e ∈ information -> entry_ok l e /\ untouched l0 l e.1) ->
  (forall acc' ch l', entries_paid P information ch l l' -> changed acc' = changed acc ++ ch ->
     Q acc' l') ->
  lsafe (foldM f acc information) l Q.
Proof.
  intros Hf. induction information as [|e information IH]; intros Hnd l acc Q Hl Hes HQ.
  { apply wp_ret, (HQ _ []); [by apply entries_nil|by rewrite app_nil_r]. }
  cbn [foldM]. apply NoDup_cons in Hnd as [Hfresh Hnd].
  destruct (Hes e ltac:(left)) as [He Hu0].
  call Hf; [done..|]. intros a part acc' l1 Ha Hep Hpart Hch.
  apply (IH Hnd); [apply Hep| |].
  - intros e' He'. destruct (Hes e' ltac:(by right)) as [Hok' Hu'].
    assert (Hne : e'.1 <> e.1) by (intros E; apply Hfresh; rewrite <- E; by apply list_elem_of_fmap_2).
    pose proof (entry_paid_untouched _ _ _ _ _ Hep Hne) as Hu1.
    split; [by eapply entry_ok_untouched|by eapply untouched_trans].
  - intros acc2 ch2 l2 H2 Hch2. apply (HQ _ (part ++ ch2)); [|by rewrite app_assoc, <- Hch].
    eapply entries_cons; [exact He|intros; by apply Hes; right|done|exact Ha|exact Hep|exact Hpart|exact H2].
Qed.

Lemma lsafe_deposit_ratios k l information c (Q : IndexMap ResourceAddress Decimal * list Bucket -> Ledger -> Prop) :
  0 <= k -> NoDup information.*1 -> ledger_ok l -> (forall e, e ∈ information -> entry_ok l e) ->
  (forall c' ch l', entries_paid (at_ratio k l) information ch l l' -> Q (c', ch) l') ->
  lsafe (foldM (deposit_ratio k) (c, []) information) l Q.
Proof.
  intros Hk Hnd Hl Hes HQ. apply lsafe_entries with (changed := snd) (P := at_ratio k l) (l0 := l); try done.
  - intros [c0 ch0] e l1 Q1 Hl1 He Hu HQ1. call lsafe_deposit_ratio; [done|done|].
    intros a c' ch' l2 Ha Hep Hch. apply (at_ratio_untouched k l) in Ha; [|done|done].
    destruct Hch as [[-> Hz] | ->].
    + apply (HQ1 a []); try done; [by left|by rewrite app_nil_r].
    + apply (HQ1 a [i_bucket e.2]); try done. by right.
  - intros e He. split; [by apply Hes|done].
  - intros [c' ch] ch' l' H. cbn. intros ->. by apply HQ.
Qed.

(** A pool without units in circulation takes everything. *)
Lemma lsafe_deposit_all contributed e l (Q : IndexMap ResourceAddress Decimal -> Ledger -> Prop) :
  ledger_ok l -> entry_ok l e ->
  (forall c' l', entry_paid (bucket_held l (i_bucket e.2)) e l l' -> Q c' l') ->
  lsafe (deposit_all contributed e) l Q.
Proof.
  intros Hl [Hv Hb _ _ Hs] HQ. destruct e as [r i]. cbn [fst snd] in *. unfold deposit_all.
  call lsafe_bucket_amount. intros x _. wp_step.
  assert (Hadd : forall Q', (forall c', Q' c' l) -> lsafe (if negb (Dec.is_zero x)
    then add_contributed contributed r x else mret contributed) l Q').
  { intros Q' H. destruct (negb _); [call lsafe_add_contributed; apply H|apply wp_ret, H]. }
  apply Hadd. intros c'. call lsafe_vault_put. intros _ l1 H1. wp_step. apply HQ.
  constructor; [apply H1|intros; by ledger_rewrite|intros; ledger_rewrite; ledger_cases| | |].
  - unfold vault_held. cbn [fst snd]. rewrite Hv. rewrite Hv in H1. ledger_rewrite. ledger_cases.
  - unfold bucket_held. cbn [fst snd]. rewrite Hb. unfold bucket_held in H1. rewrite Hv, Hb in H1.
    ledger_rewrite. ledger_cases.
  - intros r' o Hne. cbn [fst] in Hne. rewrite Hv in H1. ledger_rewrite. ledger_cases.
Qed.

Lemma lsafe_deposits_all l information c (Q : IndexMap ResourceAddress Decimal -> Ledger -> Prop) :
  NoDup information.*1 -> ledger_ok l -> (forall e, e ∈ information -> entry_ok l e) ->
  (forall c' l', entries_paid (fun a e => a = bucket_held l (i_bucket e.2)) information [] l l' -> Q c' l') ->
  lsafe (foldM deposit_all c information) l Q.
Proof.
  intros Hnd Hl Hes HQ. apply lsafe_entries with (changed := fun _ => [])
    (P := fun a e => a = bucket_held l (i_bucket e.2)) (l0 := l); try done.
  - intros c0 e l1 Q1 Hl1 He [Hs Hh] HQ1. call lsafe_deposit_all; [done|]. intros c' l2 Hep.
    apply (HQ1 (bucket_held l1 (i_bucket e.2)) []); try done.
    + unfold bucket_held. by rewrite (en_bucket _ _ He), Hh.
    + left. split; [done|]. rewrite (ep_bucket _ _ _ _ Hep). lia.
  - intros e He. split; [by apply Hes|done].
  - intros c' ch l' H. cbn. intros <-. by apply (HQ c').
Qed.

(** *** What is given *)

(** Every vault of the pool has an entry, which agrees with the ledger. *)
Record informed (vs : IndexMap ResourceAddress Vault)
    (information : IndexMap ResourceAddress ContributionInformation) (l : Ledger) : Prop := {
  if_ok : ledger_ok l;
  if_keys : information.*1 = vs.*1;
  if_entries : forall e, e ∈ information -> entry_ok l e /\ im_get e.1 vs = Some (i_vault e.2)
}.

(** The vaults, the supplies and the resources are those of [l]. *)
Record same_pool (l l' : Ledger) : Prop := {
  sp_vaults : forall v, vault_held l' v = vault_held l v;
  sp_shape : forall r, shape l' r = shape l r;
  sp_supply : forall r, lsupply l' r = lsupply l r
}.

Lemma same_pool_refl l : same_pool l l.
Proof. by constructor. Qed.

Lemma same_pool_trans l1 l2 l3 : same_pool l1 l2 -> same_pool l2 l3 -> same_pool l1 l3.
Proof. intros [] []. constructor; intros; etransitivity; eauto. Qed.

Lemma change_untouched ds d l l' r :
  change ds d l l' -> (forall o, d r o = 0) -> untouched l l' r.
Proof. intros H Hd. split; [apply H|]. intros o. rewrite (ch_held _ _ _ _ H), Hd. lia. Qed.

Lemma same_amounts_same_pool l l' : same_amounts l l' -> same_pool l l'.
Proof. intros H. constructor; intros; unfold vault_held; ledger_rewrite; lia || done. Qed.

Lemma new_empty r l l' : change (only r 0) (inside r (fun _ => 0)) l l' -> same_amounts l l'.
Proof. intros H. eapply same_amounts_intro; [exact H|..]; intros; unfold only, inside; by case_decide. Qed.

(** The new buckets are empty. *)
Lemma lsafe_new_information vs l (Q : IndexMap ResourceAddress ContributionInformation -> Ledger -> Prop) :
  ledger_ok l -> NoDup vs.*1 ->
  (forall e, e ∈ vs -> vault_resource e.2 = e.1 /\ is_Some (shape l e.1)) ->
  (forall information l', informed vs information l' -> same_amounts l l' ->
     (forall e, e ∈ information -> bucket_held l' (i_bucket e.2) = 0) -> Q information l') ->
  lsafe (new_information vs) l Q.
Proof.
  intros Hl Hnd Hvs HQ. unfold new_information.
  enough (Hgen : forall todo done acc l1, vs = done ++ todo -> informed done acc l1 ->
    same_amounts l l1 -> (forall e, e ∈ acc -> bucket_held l1 (i_bucket e.2) = 0) ->
    lsafe (foldM new_entry acc todo) l1 Q).
  { apply (Hgen vs [] [] l); [done| | |by intros ? ?%not_elem_of_nil].
    - constructor; try done. by intros ? ?%not_elem_of_nil.
    - constructor; intros; done || lia. }
  induction todo as [|[r v] todo IH]; intros dn acc l1 E [Hok Hk He] Hsame Hz; cbn [foldM].
  { rewrite app_nil_r in E. subst dn. apply wp_ret, HQ; try done. }
  subst vs. destruct (Hvs (r, v)) as [Hv Hs]; [apply elem_of_app; right; left|]. cbn [fst snd] in *.
  rewrite fmap_app in Hnd. apply NoDup_app in Hnd as Hnd'. destruct Hnd' as (_ & Hfresh & _).
  assert (Hr : r ∉ dn.*1) by (intros Hr; apply (Hfresh r Hr); cbn; left).
  wp_step. unfold new_entry at 1. call lsafe_bucket_create. intros b l2 Hb Hb0 H2.
  call lsafe_vault_amount. call lsafe_exec; [apply from_decimal_Done; by apply lheld_wf, H2|].
  wp_step. apply new_empty in H2. rewrite im_insert_fresh by (apply im_get_None; unfold im_keys; by rewrite Hk).
  assert (Hsame2 : same_amounts l l2) by (by eapply same_amounts_trans).
  assert (Hdone : forall e, e ∈ acc -> entry_ok l2 e /\ im_get e.1 (dn ++ [(r, v)]) = Some (i_vault e.2) /\
    bucket_held l2 (i_bucket e.2) = 0).
  { intros e Hin. destruct (He e Hin) as [Hoe Hg]. split_and!.
    - eapply entry_ok_untouched; [exact Hoe|]. by eapply change_untouched.
    - apply im_get_elem in Hg as Hg'. apply im_elem_get.
      + unfold im_ok, im_keys. rewrite fmap_app. cbn. apply NoDup_app in Hnd as (Hd & _ & _).
        apply NoDup_app. split; [done|]. split; [|apply NoDup_singleton].
        intros x Hx ->%list_elem_of_singleton. done.
      + apply elem_of_app. by left.
    - pose proof (Hz e Hin) as Hze. unfold bucket_held in *. rewrite (ch_held _ _ _ _ H2). lia. }
  apply (IH (dn ++ [(r, v)])); [by rewrite <- app_assoc| |done|].
  - constructor; [apply H2|by rewrite !fmap_app, Hk|]. intros e [Hin| ->%list_elem_of_singleton]%elem_of_app.
    + by destruct (Hdone e Hin) as (? & ? & _).
    + cbn. split; [|]. 2: { apply im_elem_get; [|apply elem_of_app; right; left].
        unfold im_ok, im_keys. rewrite fmap_app. apply NoDup_app in Hnd as (Hd & _ & _).
        apply NoDup_app. split; [done|]. split; [|apply NoDup_singleton].
        intros x Hx ->%list_elem_of_singleton. done. }
      constructor; cbn; try done; [|by rewrite (ch_shape _ _ _ _ Hsame2)].
      unfold bucket_held in *. rewrite (ch_held _ _ _ _ H2). unfold PDec.ZERO. lia.
  - intros e [Hin| ->%list_elem_of_singleton]%elem_of_app; [by apply Hdone|]. cbn.
    unfold bucket_held in *. rewrite (ch_held _ _ _ _ H2). lia.
Qed.

(** The buckets [bs] went into the buckets of the entries. *)
Record gathered (vs : IndexMap ResourceAddress Vault) (bs : list Bucket)
    (information information' : IndexMap ResourceAddress ContributionInformation) (l l' : Ledger) :
    Prop := {
  ga_informed : informed vs information' l';
  ga_same : same_pool l l';
  ga_foreign : forall b i, b ∈ bs -> im_get (bucket_resource b) information = Some i ->
    i_bucket i <> b;
  ga_buckets : forall r i, im_get r information = Some i ->
    exists i', im_get r information' = Some i' /\ i_bucket i' = i_bucket i;
  ga_given : forall r i', im_get r information' = Some i' -> exists i,
    im_get r information = Some i /\ i_bucket i' = i_bucket i /\
    bucket_held l' (i_bucket i') = bucket_held l (i_bucket i) + given l bs r;
  ga_other : forall b, b ∉ bs ->
    (forall i, im_get (bucket_resource b) information = Some i -> i_bucket i <> b) ->
    bucket_held l' b = bucket_held l b;
  ga_consumed : forall b, b ∈ bs -> bucket_held l' b = 0
}.

Lemma gathered_nil vs information l : informed vs information l -> gathered vs [] information information l l.
Proof.
  intros Hi. constructor; try done; try (by intros ? ?%not_elem_of_nil).
  - intros b i Hb. by apply not_elem_of_nil in Hb.
  - eauto.
  - intros r i' H. exists i'. split_and!; [done|done|]. cbn. lia.
Qed.

Lemma gathered_cons vs b bs info info1 info2 l l1 l2 :
  b ∉ bs -> gathered vs [b] info info1 l l1 -> gathered vs bs info1 info2 l1 l2 ->
  gathered vs (b :: bs) info info2 l l2.
Proof.
  intros Hb H1 H2.
  assert (Hforeign : forall b' i, b' ∈ bs -> im_get (bucket_resource b') info = Some i -> i_bucket i <> b').
  { intros b' i Hb' Hg. destruct (ga_buckets _ _ _ _ _ _ H1 _ _ Hg) as (i' & Hg' & <-).
    by apply (ga_foreign _ _ _ _ _ _ H2). }
  assert (Hheld : forall b', b' ∈ bs -> bucket_held l1 b' = bucket_held l b').
  { intros b' Hb'. apply (ga_other _ _ _ _ _ _ H1).
    - intros ->%list_elem_of_singleton. done.
    - intros i. by apply Hforeign. }
  assert (Hb1 : forall i, im_get (bucket_resource b) info = Some i -> i_bucket i <> b)
    by (intros i; apply (ga_foreign _ _ _ _ _ _ H1); left).
  assert (Hback : forall b' i, im_get (bucket_resource b') info1 = Some i ->
    exists i0, im_get (bucket_resource b') info = Some i0 /\ i_bucket i = i_bucket i0).
  { intros b' i Hg. destruct (ga_given _ _ _ _ _ _ H1 _ _ Hg) as (i0 & ? & ? & _). eauto. }
  constructor.
  - apply H2.
  - eapply same_pool_trans; [apply H1|apply H2].
  - intros b' i [->|Hb']%elem_of_cons; [apply Hb1|by apply Hforeign].
  - intros r i Hg. destruct (ga_buckets _ _ _ _ _ _ H1 _ _ Hg) as (i' & Hg' & <-).
    by apply (ga_buckets _ _ _ _ _ _ H2).
  - intros r i2 Hg. destruct (ga_given _ _ _ _ _ _ H2 _ _ Hg) as (i1 & Hg1 & E1 & ->).
    destruct (ga_given _ _ _ _ _ _ H1 _ _ Hg1) as (i & Hg0 & E0 & ->).
    exists i. split; [done|]. split; [congruence|]. cbn.
    rewrite (given_ext l l1 bs r) by (intros; by apply Hheld). lia.
  - intros b' [Hne Hb']%not_elem_of_cons Hf. rewrite (ga_other _ _ _ _ _ _ H2); [|done|].
    + apply (ga_other _ _ _ _ _ _ H1); [|done]. by intros ->%list_elem_of_singleton.
    + intros i Hg. destruct (Hback _ _ Hg) as (i0 & Hg0 & ->). by apply Hf.
  - intros b' [->|Hb']%elem_of_cons; [|by apply (ga_consumed _ _ _ _ _ _ H2)].
    rewrite (ga_other _ _ _ _ _ _ H2); [|done|].
    + apply (ga_consumed _ _ _ _ _ _ H1). left.
    + intros i Hg. destruct (Hback _ _ Hg) as (i0 & Hg0 & ->). by apply Hb1.
Qed.

Lemma informed_get vs information l r i :
  informed vs information l -> im_get r information = Some i ->
  entry_ok l (r, i) /\ im_get r vs = Some (i_vault i).
Proof. intros H Hg%im_get_elem. by apply (if_entries _ _ _ H). Qed.

Lemma lsafe_add_bucket vs information b l
    (Q : IndexMap ResourceAddress ContributionInformation -> Ledger -> Prop) :
  NoDup vs.*1 -> informed vs information l ->
  (forall information' l', gathered vs [b] information information' l l' -> Q information' l') ->
  lsafe (add_bucket information b) l Q.
Proof.
  intros Hnd Hi HQ. pose proof (if_ok _ _ _ Hi) as Hl. unfold add_bucket.
  call lsafe_bucket_address. destruct (im_get (bucket_resource b) information) as [i|] eqn:Hg;
    [|by apply wp_throw].
  destruct (informed_get _ _ _ _ _ Hi Hg) as [[Hv Hb Hr Hc Hs] Hvs]. cbn [fst snd] in *.
  call lsafe_bucket_amount. intros a Ha. rewrite (Ha (shape_world _ _ Hs)). clear a Ha.
  call lsafe_exec; [apply from_decimal_Done; by apply lheld_wf|].
  call lsafe_ok_or. intros c Hadd. apply pchecked_add_Some in Hadd as [-> _].
  call lsafe_bucket_put. intros _ Hne l1 H1. wp_step. apply HQ.
  set (r := bucket_resource b) in *. rewrite Hb in H1. set (u := bucket_held l b) in *.
  assert (Hib : bucket_held l1 (i_bucket i) = bucket_held l (i_bucket i) + u).
  { unfold bucket_held. rewrite Hb. ledger_rewrite. ledger_cases. }
  assert (Hoth : forall b', b' <> b -> b' <> i_bucket i -> bucket_held l1 b' = bucket_held l b').
  { intros [r' id'] Hn1 Hn2. unfold bucket_held. cbn. ledger_rewrite.
    destruct (decide (r' = r)) as [->|]; [|by ledger_cases]. rewrite inside_eq. unfold move, at_.
    rewrite !decide_False; [lia| |].
    - intros [= ->]. apply Hn1. unfold r. by destruct b.
    - intros [= ->]. apply Hn2. rewrite <- Hb. by destruct (i_bucket i). }
  assert (Hkeys : (im_insert r {| i_vault := i_vault i; i_bucket := i_bucket i;
    i_reserves := i_reserves i; i_contribution := i_contribution i + u * A |} information).*1 = vs.*1).
  { rewrite <- (if_keys _ _ _ Hi). pose proof (im_keys_insert r {| i_vault := i_vault i;
      i_bucket := i_bucket i; i_reserves := i_reserves i; i_contribution := i_contribution i + u * A |}
      information) as Hk. rewrite Hg in Hk. exact Hk. }
  assert (Hsp : same_pool l l1).
  { constructor; [|intros; by ledger_rewrite|intros; ledger_rewrite; ledger_cases].
    intros v. unfold vault_held. ledger_rewrite. ledger_cases. }
  constructor; [|done|..].
  - constructor; [apply H1|done|]. intros [r' i'] He. apply im_elem_get in He.
    2: { unfold im_ok, im_keys. by rewrite Hkeys. }
    rewrite im_get_insert in He. cbn [fst snd]. case_decide as E.
    + subst r'. injection He as <-. split; [|done].
      constructor; cbn; try done; [by rewrite (sp_vaults _ _ Hsp)|rewrite Hib, Hc; lia|].
      by rewrite (sp_shape _ _ Hsp).
    + destruct (informed_get _ _ _ _ _ Hi He) as [Hok Hg']. split; [|done].
      eapply entry_ok_untouched; [exact Hok|]. eapply change_untouched; [exact H1|].
      intros o. by apply inside_ne.
  - intros b' i' ->%list_elem_of_singleton Hg' Hc'. fold r in Hg'. rewrite Hg in Hg'.
    injection Hg' as <-. apply Hne. by rewrite Hc'.
  - intros r' i' Hg'. rewrite im_get_insert. case_decide as E; [|by eauto].
    subst r'. rewrite Hg in Hg'. injection Hg' as <-. by eexists.
  - intros r' i' Hg'. rewrite im_get_insert in Hg'. cbn [given]. case_decide as E.
    + subst r'. injection Hg' as <-. exists i. split_and!; [done|done|]. cbn [i_bucket].
      rewrite decide_True by done. fold u. lia.
    + exists i'. split_and!; [done|done|]. rewrite decide_False by (intros <-; by apply E).
      destruct (informed_get _ _ _ _ _ Hi Hg') as [[_ Hb' _ _ _] _]. cbn [fst snd] in Hb'.
      unfold bucket_held. rewrite Hb'. ledger_rewrite. ledger_cases.
  - intros b' Hb' Hf. apply Hoth; [intros ->; apply Hb'; left|].
    intros ->. rewrite Hb in Hf. by apply (Hf i).
  - intros b' ->%list_elem_of_singleton. unfold bucket_held. fold r. ledger_rewrite.
    rewrite inside_eq. unfold move, at_. rewrite decide_False, decide_True by congruence.
    unfold u, bucket_held. fold r. lia.
Qed.

Lemma lsafe_add_buckets vs bs : NoDup vs.*1 -> NoDup bs ->
  forall information l (Q : IndexMap ResourceAddress ContributionInformation -> Ledger -> Prop),
  informed vs information l ->
  (forall information' l', gathered vs bs information information' l l' -> Q information' l') ->
  lsafe (foldM add_bucket information bs) l Q.
Proof.
  intros Hnd. induction bs as [|b bs IH]; intros Hbs information l Q Hi HQ; cbn [foldM].
  { apply wp_ret, HQ. by apply gathered_nil. }
  apply NoDup_cons in Hbs as [Hb Hbs]. wp_step. eapply lsafe_add_bucket; [done|done|].
  intros info1 l1 H1. apply IH; [done|apply H1|]. intros info2 l2 H2.
  apply HQ. by eapply gathered_cons.
Qed.

(** *** The pool units *)

Section Roots.
Context (nth_root_big : Z -> Z -> Z).
Context (Hroot : DecTheorems.nth_root_truncates nth_root_big).

Lemma checked_nth_root_wf d n :
  0 <= d -> PDec.wf d -> 0 <= n ->
  exists o, PDec.checked_nth_root nth_root_big d n = Done o /\ forall v, o = Some v -> PDec.wf v.
Proof.
  intros H0 Hd Hn. unfold PDec.checked_nth_root, PDec.is_negative, PDec.is_zero.
  rewrite (proj2 (Z.ltb_ge d 0)) by done. cbn [andb orb].
  destruct (n =? 0) eqn:E0; [by eexists|]. destruct (n =? 1) eqn:E1; [eexists; split; [done|]; by intros v [= <-]|].
  destruct (d =? 0) eqn:Ed; [eexists; split; [done|]; by intros v [= <-]|]. zbool.
  assert (HO : 0 < PDec.ONE ^ (n - 1)) by (apply Z.pow_pos_nonneg; [done|lia]).
  destruct (Hroot (d * PDec.ONE ^ (n - 1)) n ltac:(lia)) as [Hpos Hb]; [left; nia|].
  rewrite Z.sgn_pos, Z.mul_1_l in Hpos by nia.
  set (r := nth_root_big _ _) in *. rewrite !Z.abs_eq in Hb by nia.
  assert (Hr : r <= PDec.MAX).
  { apply Z.nlt_ge. intros Hgt. apply (DecTheorems.root_bound d PDec.ONE r n);
      [lia| |unfold PDec.wf in Hd; lia|apply Hb].
    split; [done|]. by apply Z.lt_trans with PDec.MAX. }
  assert (Hwr : PDec.wf r) by (apply pwf_range; rewrite PMAX_val in Hr; lia).
  exists (Some r). rewrite (proj2 (checked_i_Some 256 r r)) by done. split; [done|]. by intros v [= <-].
Qed.

Lemma product_of_roots_wf n cs : 0 <= n -> Forall (fun c => 0 <= c /\ PDec.wf c) cs ->
  forall acc, PDec.wf acc ->
  exists o, product_of_roots nth_root_big n acc cs = Done o /\ forall v, o = Some v -> PDec.wf v.
Proof.
  intros Hn. induction 1 as [|c cs [H0 Hc] _ IH]; intros acc Hacc; cbn [product_of_roots].
  { eexists. split; [done|]. by intros v [= <-]. }
  destruct (checked_nth_root_wf c n H0 Hc Hn) as (o & -> & Ho). cbn [mbind Exec_bind].
  destruct o as [root|]; cbn [mbind option_bind]; [|by exists None].
  destruct (PDec.checked_mul root acc) as [x|] eqn:E; [|by exists None].
  apply IH. by eapply pchecked_mul_wf.
Qed.

(** The geometric mean never panics. *)
Lemma geometric_mean_wf cs : Forall (fun c => 0 <= c /\ PDec.wf c) cs ->
  exists o, geometric_mean nth_root_big cs = Done o /\ forall v, o = Some v -> PDec.wf v.
Proof.
  intros Hcs. unfold geometric_mean. set (n := wrap_u 32 _).
  assert (Hn : 0 <= n) by (apply Z.mod_pos_bound; done).
  destruct (product_of_roots_wf n (filter (fun c => PDec.is_zero c = false) cs) Hn) with PDec.ONE
    as (o & -> & Ho); [|done|].
  { rewrite Forall_forall in *. intros c [_ Hc]%list_elem_of_filter. auto. }
  cbn [mbind Exec_bind].
  destruct o as [v|]; [|by exists None]. apply checked_round_wf; [by apply Ho|by vm_compute].
Qed.
End Roots.

Lemma min_of_In l k : min_of l = Some k -> k ∈ l.
Proof.
  revert k. induction l as [|x l IH]; cbn; [done|]. intros k. destruct (min_of l) as [y|]; intros [= <-].
  - destruct (Z.min_spec x y) as [[_ ->]|[_ ->]]; [left|right; by apply IH].
  - left.
Qed.

(** The contributions are not negative, so neither is the ratio. *)
Lemma minimum_ratio_nonneg vs information l k :
  informed vs information l -> minimum_ratio information = Some k -> 0 <= k.
Proof.
  intros Hi Hk. apply min_of_In in Hk. apply list_elem_of_omap in Hk as (i & Hin & Hk).
  unfold im_values in Hin. apply list_elem_of_fmap in Hin as ([r i'] & -> & Hin). cbn [snd] in Hk.
  destruct (if_entries _ _ _ Hi _ Hin) as [[Hv Hb Hr Hc Hs] _]. cbn [fst snd] in *.
  rewrite Hr, Hc in Hk. unfold PDec.is_zero in Hk. unfold bucket_held, vault_held in Hk.
  pose proof (lheld_bounds l (bucket_resource (i_bucket i')) (LBucket (bucket_id (i_bucket i'))) (if_ok _ _ _ Hi)).
  pose proof (lheld_wf l (bucket_resource (i_bucket i')) (LBucket (bucket_id (i_bucket i'))) (if_ok _ _ _ Hi)).
  pose proof (lheld_bounds l (vault_resource (i_vault i')) (LVault (vault_id (i_vault i'))) (if_ok _ _ _ Hi)).
  destruct (_ =? 0) eqn:E; [done|]. zbool. cbn [negb] in Hk. rewrite A_val in E. rewrite ratio_spec in Hk by (done || lia).
  destruct (_ <=? _); [|done]. injection Hk as <-. apply Z.div_pos; [|lia].
  apply Z.mul_nonneg_nonneg; [lia|done].
Qed.

(** At the ratio [k] the units are no more than the accepted amount is worth, but
    for its rounding. *)
Lemma ratio_price k S R a G :
  0 <= k -> 0 <= S -> 0 < S -> 0 <= R -> R * k / PDec.ONE < a + G ->
  S * k / PDec.ONE * R < (a + G) * S.
Proof.
  intros Hk _ HS HR Ha. pose proof precise_one_pos as HO.
  pose proof (Z.mul_succ_div_gt (R * k) PDec.ONE HO). pose proof (Z.mul_div_le (S * k) PDec.ONE HO).
  set (m := S * k / PDec.ONE) in *. set (x := R * k / PDec.ONE) in *.
  assert (R * k < PDec.ONE * (a + G)) by nia.
  apply Z.mul_lt_mono_pos_r with PDec.ONE; [done|].
  apply Z.le_lt_trans with (R * k * S); nia.
Qed.

(** *** The contribution *)

Record contributed_many (s : Substate) (bs : list Bucket) (ub : Bucket) (change : list Bucket)
    (m : Z) (l l' : Ledger) : Prop := {
  cm_pool : pool_many_ok (pool_unit_resource_manager s) (vaults s) l';
  cm_sides : forall r v, im_get r (vaults s) = Some v -> exists a,
    0 <= a <= given l bs r /\ vault_held l' v = vault_held l v + a /\
    given l' change r = given l bs r - a /\
    (lsupply l (pool_unit_resource_manager s) = 0 -> a = given l bs r) /\
    (0 < lsupply l (pool_unit_resource_manager s) ->
     m * vault_held l v < (a + granule_in l r) * lsupply l (pool_unit_resource_manager s));
  cm_change : forall b, b ∈ change -> bucket_resource b ∈ (vaults s).*1;
  cm_units : bucket_resource ub = pool_unit_resource_manager s /\ bucket_held l' ub = m /\ 0 < m;
  cm_supply : lsupply l' (pool_unit_resource_manager s) = lsupply l (pool_unit_resource_manager s) + m
}.

(** What an entry accepts of the whole bucket it has: [S] units are in
    circulation, [v] (a precise decimal) are minted. *)
Definition accepts (S v : Z) (l : Ledger) (a : Z) (e : ResourceAddress * ContributionInformation) :
    Prop :=
  0 <= a <= bucket_held l (i_bucket e.2) /\ (S = 0 -> a = bucket_held l (i_bucket e.2)) /\
  (0 < S -> Z.quot v A * vault_held l (i_vault e.2) < (a + granule_in l e.1) * S).

Lemma entries_paid_mono (P P' : Z -> ResourceAddress * ContributionInformation -> Prop)
    information change l l' :
  entries_paid P information change l l' -> (forall a e, e ∈ information -> P a e -> P' a e) ->
  entries_paid P' information change l l'.
Proof.
  intros [H1 H2 H3 H4 H5 H6] HP. constructor; try done. intros e He.
  destruct (H4 e He) as (a & Ha & ?). exists a. split; [by apply HP|done].
Qed.

Lemma lsafe_accept nth_root_big vs information S l
    (Q : PreciseDecimal * IndexMap ResourceAddress Decimal * list Bucket -> Ledger -> Prop) :
  DecTheorems.nth_root_truncates nth_root_big -> NoDup vs.*1 -> informed vs information l -> 0 <= S ->
  (forall v c change l', PDec.wf v -> entries_paid (accepts S v l) information change l l' ->
     Q (v, c, change) l') ->
  lsafe (accept_contributions nth_root_big (S * A) information) l Q.
Proof.
  intros Hroot Hnd Hi HS HQ. pose proof (if_ok _ _ _ Hi) as Hl.
  assert (Hndi : NoDup information.*1) by (by rewrite (if_keys _ _ _ Hi)).
  assert (Hes : forall e, e ∈ information -> entry_ok l e) by (intros e He; by apply (if_entries _ _ _ Hi)).
  pose proof (fun r o => lheld_bounds l r o Hl) as Hb.
  unfold accept_contributions, PDec.is_zero. destruct (S * A =? 0) eqn:ES; zbool.
  - destruct (geometric_mean_wf nth_root_big Hroot (i_contribution <$> im_values information)) as (o & Ho & Hwo).
    { rewrite Forall_forall. intros c Hc. unfold im_values in Hc. rewrite <- list_fmap_compose in Hc.
      apply list_elem_of_fmap in Hc as (e & -> & He). cbn. rewrite (en_contribution _ _ (Hes e He)).
      apply scaled_wf; [apply Hb|by apply lheld_wf]. }
    call lsafe_or_fail; [exact Ho|]. intros v ->. call lsafe_deposits_all; [done|done|].
    intros c l' H. wp_step. apply HQ; [by apply Hwo|]. eapply entries_paid_mono; [exact H|].
    intros a e He ->. unfold accepts. split; [split; [apply Hb|lia]|]. split; [done|].
    rewrite A_val in ES. lia.
  - call lsafe_ok_or. intros k Hk. pose proof (minimum_ratio_nonneg _ _ _ _ Hi Hk) as Hk0.
    call lsafe_deposit_ratios; [done|done|done|]. intros c change l' H. cbn beta iota.
    wp_step. apply lsafe_ok_or. intros v Hv. wp_step. apply HQ; [by eapply pchecked_mul_wf|].
    eapply entries_paid_mono; [exact H|]. intros a e He (x & Hx & Hax & Ha). split; [done|].
    split; [rewrite A_val in ES; lia|]. intros HS0.
    assert (0 <= S * k / A) by (apply Z.div_pos; [nia|done]).
    rewrite pchecked_mul_spec in Hv. cbv zeta in Hv. revert Hv.
    replace (S * A * k) with (S * k * A) by ring.
    rewrite ONE_A, Z.quot_mul_cancel_r, Z.quot_div_nonneg by (done || nia).
    destruct (_ <=? _); [|done]. intros [= <-].
    rewrite Z.quot_div_nonneg, Z.div_div, <- ONE_A by done.
    apply ratio_price; try done; [apply Hb|]. lia.
Qed.

Lemma lsafe_contribute_many nth_root_big s bs l :
  DecTheorems.nth_root_truncates nth_root_big -> NoDup bs ->
  pool_many_ok (pool_unit_resource_manager s) (vaults s) l ->
  lsafe (contribute nth_root_big s bs) l (fun r l' =>
    exists m, contributed_many s bs r.1 r.2 m l l').
Proof.
  intros Hroot Hbs Hp. pose proof Hp as [Hl Hu Hv Hnd]. unfold contribute.
  assert (Ht : tracked l (pool_unit_resource_manager s)) by (by eapply shape_tracked).
  destruct (lsupply_wf l _ Hl Ht) as [HS HwS].
  call lsafe_supply; [done|]. intros _. call lsafe_exec; [by apply from_decimal_Done|].
  call lsafe_new_information; [done|intros e He; by destruct (Hv e He) as (? & ? & _)|].
  intros info0 l1 Hi0 H1 Hz. wp_step. eapply lsafe_add_buckets; [exact Hnd|exact Hbs|exact Hi0|].
  intros info l2 Hg. pose proof (ga_informed _ _ _ _ _ _ Hg) as Hi.
  wp_step. apply lsafe_accept with (vs := vaults s); try done.
  intros v c change l3 Hwv H3. cbn beta iota.
  pose proof (es_ok _ _ _ _ _ H3) as Hl3.
  call lsafe_to_decimal; [done|]. call lsafe_guard. intros Hm0.
  assert (Hsp : same_pool l l2) by (eapply same_pool_trans; [by apply same_amounts_same_pool|apply Hg]).
  assert (Hsh : forall r, shape l3 r = shape l r)
    by (intros; by rewrite (es_shape _ _ _ _ _ H3), (sp_shape _ _ Hsp)).
  call lsafe_mint.
  { intros d f. rewrite Hsh. apply Ht. }
  intros ub l4 Hm Hub Hubf H4. call lsafe_emit. intros l5 H5. wp_step. exists (Z.quot v A). cbn [fst snd].
  set (m := Z.quot v A) in *. set (units := pool_unit_resource_manager s) in *.
  assert (Hother : forall r o, r <> units -> lheld l5 r o = lheld l3 r o)
    by (intros; ledger_rewrite; ledger_cases).
  assert (Hne : forall r w, im_get r (vaults s) = Some w -> vault_resource w = r /\ r <> units).
  { intros r w Hr%im_get_elem. by destruct (Hv _ Hr) as (? & ? & ?). }
  constructor.
  - eapply pool_many_ok_shape; [exact Hp|apply H5|]. intros r. by rewrite (ch_shape _ _ _ _ H5), (ch_shape _ _ _ _ H4).
  - intros r w Hr. destruct (Hne r w Hr) as [Hwr Hru].
    assert (exists i, (r, i) ∈ info) as [i He].
    { apply im_get_elem in Hr. apply (list_elem_of_fmap_2 fst) in Hr. rewrite <- (if_keys _ _ _ Hi) in Hr.
      apply list_elem_of_fmap in Hr as ([r' i] & Hr & He). cbn [fst] in Hr. subst r'. by exists i. }
    pose proof (if_entries _ _ _ Hi _ He) as [Hok Hvi]. cbn [fst snd] in Hvi. fold units in Hp.
    rewrite Hr in Hvi. injection Hvi as ->.
    destruct (es_entries _ _ _ _ _ H3 _ He) as (a & (Ha & Hnew & Hprice) & Hvh & Hbh & Hgv). cbn [fst snd] in *.
    assert (Hin : im_get r info = Some i).
    { apply im_elem_get; [|done]. unfold im_ok, im_keys. by rewrite (if_keys _ _ _ Hi). }
    destruct (ga_given _ _ _ _ _ _ Hg _ _ Hin) as (i0 & Hi0' & _ & Hgiven).
    pose proof (Hz _ (im_get_elem _ _ _ Hi0')) as Hz0. cbn [snd] in Hz0. rewrite Hz0 in Hgiven.
    assert (Hgl : given l1 bs r = given l bs r).
    { apply given_ext. intros b _ _. unfold bucket_held. ledger_rewrite. lia. }
    rewrite Hgl, Z.add_0_l in Hgiven. rewrite Hgiven in *.
    assert (Hgr : granule_in l2 r = granule_in l r)
      by (unfold granule_in, divisibility_in; by rewrite (sp_shape _ _ Hsp)).
    rewrite (sp_vaults _ _ Hsp) in Hvh, Hprice. rewrite Hgr in Hprice.
    exists a. split_and!; [lia|lia| | |done|done].
    + unfold vault_held. rewrite Hwr, Hother by done. rewrite <- Hwr. exact Hvh.
    + rewrite (given_ext l3 l5), Hgv, Hbh; [done|]. intros b _ Hbr. unfold bucket_held. by rewrite Hbr, Hother.
  - intros b Hb. rewrite <- (if_keys _ _ _ Hi). by apply (es_change _ _ _ _ _ H3).
  - unfold bucket_held in *. rewrite Hub in *. split; [done|]. unfold Dec.is_zero in Hm0. zbool. split; [|lia].
    revert Hubf. ledger_rewrite. ledger_cases.
  - ledger_rewrite. rewrite (es_supply _ _ _ _ _ H3), (sp_supply _ _ Hsp). fold units. ledger_cases.
Qed.

(** *** A new pool *)

Lemma lsafe_check_all rs l (Q : unit -> Ledger -> Prop) :
  ledger_ok l -> ((forall r, r ∈ rs -> is_Some (shape l r)) -> Q tt l) ->
  lsafe (foldM check_fungible tt rs) l Q.
Proof.
  intros Hl. revert Q. induction rs as [|r rs IH]; intros Q HQ; cbn [foldM].
  { apply wp_ret, HQ. by intros ? ?%not_elem_of_nil. }
  wp_step. unfold check_fungible at 1. call lsafe_resource_type. call lsafe_guard. intros Hr. apply IH.
  intros Hrs. apply HQ. intros r' [->|Hin]%elem_of_cons; [|by apply Hrs]. by destruct (shape l r).
Qed.

Lemma lsafe_new_vaults rs : forall acc l (Q : IndexMap ResourceAddress Vault -> Ledger -> Prop),
  ledger_ok l -> NoDup (acc.*1 ++ rs) ->
  (forall e, e ∈ acc -> vault_resource e.2 = e.1 /\ vault_held l e.2 = 0) ->
  (forall vs l', vs.*1 = acc.*1 ++ rs -> same_amounts l l' ->
     (forall e, e ∈ vs -> vault_resource e.2 = e.1 /\ vault_held l' e.2 = 0) -> Q vs l') ->
  lsafe (foldM new_vault acc rs) l Q.
Proof.
  induction rs as [|r rs IH]; intros acc l Q Hl Hnd Hacc HQ; cbn [foldM].
  { apply wp_ret, HQ; [by rewrite app_nil_r| |done]. constructor; intros; done || lia. }
  wp_step. unfold new_vault at 1. call lsafe_vault_create. intros v l1 Hv H0 H1%new_empty. wp_step.
  rewrite im_insert_fresh.
  2: { apply im_get_None. intros Hr. apply NoDup_app in Hnd as (_ & Hnd & _). apply (Hnd r Hr). left. }
  assert (Hheld : forall v', vault_held l1 v' = vault_held l v')
    by (intros v'; unfold vault_held; ledger_rewrite; lia).
  apply IH; [apply H1|by rewrite fmap_app, <- app_assoc| |].
  - intros e [He| ->%list_elem_of_singleton]%elem_of_app; cbn; rewrite Hheld; [by apply Hacc|done].
  - intros vs l2 Hvs H2 Hes. apply HQ; [by rewrite Hvs, fmap_app, <- app_assoc| |done].
    by eapply same_amounts_trans.
Qed.

Lemma lsafe_instantiate_many unit_address rs l :
  ledger_ok l -> NoDup rs -> unit_address ∉ rs ->
  lsafe (instantiate unit_address rs) l (fun s l' =>
    pool_many_ok (pool_unit_resource_manager s) (vaults s) l' /\
    pool_unit_resource_manager s = unit_address /\ (vaults s).*1 = rs /\
    lsupply l' unit_address = 0 /\ (forall e, e ∈ vaults s -> vault_held l' e.2 = 0)).
Proof.
  intros Hl Hnd Hn. unfold instantiate. call lsafe_check_all. intros Hf.
  call lsafe_guard. intros _. call lsafe_new_pool_unit. intros l1 Hl1 Hu Hs Hother.
  wp_step. apply lsafe_new_vaults; [done|done|by intros ? ?%not_elem_of_nil|].
  intros vs l2 Hvs H2 Hes. wp_step. cbn. cbn in Hvs. rewrite Hvs.
  split_and!; try done; [|by ledger_rewrite; rewrite Hs|intros e He; by apply Hes].
  constructor; [apply H2|by ledger_rewrite| |by rewrite Hvs].
  intros e He. assert (Hin : e.1 ∈ rs) by (rewrite <- Hvs; by apply list_elem_of_fmap_2).
  assert (e.1 <> unit_address) as Hne by (intros <-; done).
  split; [by apply Hes|]. split; [|done]. ledger_rewrite. unfold shape. rewrite Hother by done. by apply Hf.
Qed.

End MultiSpec.

(** ** Theorems *)
Module SeveralPoolsTheorems.
Import MultiResourcePool Shares MultiSpec PoolTheorems TwoPoolTheorems.

Definition many_units : ResourceAddress := 5%N.

(** A pool with 40 and 90 in its vaults; the caller holds all of its units in
    [ub], and three more buckets: 10 of the one, 50 and 40 of the other resource. *)
Definition many_setup : PM (Substate * Bucket * list Bucket) :=
  s ← instantiate many_units [example_resource; other_resource];
  b1 ← bucket_take_advanced (initial_bucket example_resource) (40 * Dec.ONE) Exact;
  b2 ← bucket_take_advanced (initial_bucket other_resource) (90 * Dec.ONE) Exact;
  '(ub, _) ← contribute DecTheorems.int_root s [b1; b2];
  b1 ← bucket_take_advanced (initial_bucket example_resource) (10 * Dec.ONE) Exact;
  b2 ← bucket_take_advanced (initial_bucket other_resource) (50 * Dec.ONE) Exact;
  b3 ← bucket_take_advanced (initial_bucket other_resource) (40 * Dec.ONE) Exact;
  mret (s, ub, [b1; b2; b3]).

Lemma lsafe_many : lsafe many_setup two_ledger (fun r l' =>
  pool_many_ok (pool_unit_resource_manager r.1.1) (vaults r.1.1) l').
Proof.
  unfold many_setup. wp_step. eapply wp_mono; [apply lsafe_instantiate_many; [exact two_ledger_ok| |]| |done].
  { by apply (bool_decide_unpack _). }
  { by apply (bool_decide_unpack _). }
  intros s l1 (Hp & _). pose proof (pm_ledger _ _ _ Hp) as Hl1.
  call lsafe_bucket_take_advanced; [by vm_compute|]. intros b1 a1 l2 [_ _ Hb1 _ H2].
  call lsafe_bucket_take_advanced; [by vm_compute|]. intros b2 a2 l3 [_ _ Hb2 _ H3].
  assert (Hp3 : pool_many_ok (pool_unit_resource_manager s) (vaults s) l3).
  { eapply pool_many_ok_shape; [exact Hp|apply H3|]. intros r. by ledger_rewrite. }
  wp_step. eapply wp_mono; [apply lsafe_contribute_many; [exact DecTheorems.int_root_truncates| |exact Hp3]| |done].
  { apply NoDup_cons. split; [|apply NoDup_singleton]. intros Hb%list_elem_of_singleton. by rewrite Hb, Hb2 in Hb1. }
  intros [ub ch] l4 (m & H4). cbn beta iota. pose proof (cm_pool _ _ _ _ _ _ _ H4) as Hp4.
  apply lsafe_take_any; [apply Hp4|by vm_compute|]. intros x1 ds1 d1 l5 H5.
  apply lsafe_take_any; [apply H5|by vm_compute|]. intros x2 ds2 d2 l6 H6.
  apply lsafe_take_any; [apply H6|by vm_compute|]. intros x3 ds3 d3 l7 H7. wp_step. cbn.
  eapply pool_many_ok_shape; [exact Hp4|apply H7|]. intros r. by ledger_rewrite.
Qed.

Definition many_s : Substate := {|
  vaults := [(example_resource, {| vault_resource := example_resource; vault_id := 1%N |});
             (other_resource, {| vault_resource := other_resource; vault_id := 1%N |})];
  pool_unit_resource_manager := many_units |}.
Definition many_ub : Bucket := {| bucket_resource := many_units; bucket_id := 0%N |}.
Definition many_bs : list Bucket := [
  {| bucket_resource := example_resource; bucket_id := 4%N |};
  {| bucket_resource := other_resource; bucket_id := 4%N |};
  {| bucket_resource := other_resource; bucket_id := 5%N |}].
Definition many_l : Ledger := ledger_after many_setup two_ledger.

Lemma many_ok : pool_many_ok (pool_unit_resource_manager many_s) (vaults many_s) many_l.
Proof.
  pose proof lsafe_many as H. unfold wp in H.
  assert (many_setup two_ledger = Done (Ok (many_s, many_ub, many_bs), many_l)) as E by (by vm_compute).
  by rewrite E in H.
Qed.

(** C15 (safety): contributing any buckets to a pool of many resources never panics.
    When it succeeds every vault receives an amount between nothing and what the
    buckets of its resource hold, everything when no units are in circulation;
    otherwise each amount, up to one smallest unit of the resource, is worth at
    least the minted units at the ratio of reserves to supply. The change holds the
    rest, and the supply grows by the minted units. *)
Theorem multi_pool_contribution_fair (nth_root_big : Z -> Z -> Z) (s : Substate)
    (bs : list Bucket) (l : Ledger) :
  DecTheorems.nth_root_truncates nth_root_big -> NoDup bs ->
  pool_many_ok (pool_unit_resource_manager s) (vaults s) l ->
  match contribute nth_root_big s bs l with
  | Done (Ok (ub, change), l') => exists m, contributed_many s bs ub change m l l'
  | Done (Err _, _) => True
  | Panicked => False
  end.
Proof.
  intros Hroot Hbs Hp. pose proof (lsafe_contribute_many nth_root_big s bs l Hroot Hbs Hp) as H.
  unfold wp in H. by destruct (contribute _ _ _ _) as [[[[ub ch]|e] l']|].
Qed.

Definition many_l1 : Ledger := ledger_after (contribute DecTheorems.int_root many_s many_bs) many_l.
Definition many_new_units : Bucket := {| bucket_resource := many_units; bucket_id := 1%N |}.
Definition many_change : Bucket := {| bucket_resource := other_resource; bucket_id := 6%N |}.

(** Of 10 and 90, 10 and 22.5 are accepted. *)
Lemma multi_pool_contribution_fair_witness : exists m,
  contributed_many many_s many_bs many_new_units [many_change] m many_l many_l1 /\
  bucket_held many_l1 many_change = 675 * Dec.ONE / 10.
Proof.
  pose proof (multi_pool_contribution_fair DecTheorems.int_root many_s many_bs many_l
    DecTheorems.int_root_truncates ltac:(by apply (bool_decide_unpack _)) many_ok) as H.
  assert (contribute DecTheorems.int_root many_s many_bs many_l =
    Done (Ok (many_new_units, [many_change]), many_l1)) as E by (by vm_compute).
  rewrite E in H. destruct H as [m H]. exists m. split; [exact H|by vm_compute].
Defined.

(** C30 (functional): redeeming pool units of a pool of many resources never panics.
    When it succeeds, the units are burnt and one bucket comes back from every
    vault, in order, with its share of the reserves rounded down to the smallest
    unit of the resource, never more than the units are worth; the units of the
    whole supply empty the vaults. *)
Theorem multi_pool_redemption_pays_shares (s : Substate) (b : Bucket) (l : Ledger) :
  pool_many_ok (pool_unit_resource_manager s) (vaults s) l ->
  match redeem s b l with
  | Done (Ok bs, l') =>
      redeemed_many (pool_unit_resource_manager s) (vaults s) b bs (bucket_held l b) l l' /\
      (0 < bucket_held l b -> bucket_held l b = lsupply l (pool_unit_resource_manager s) ->
       forall e, e ∈ vaults s -> vault_held l' e.2 = 0)
  | Done (Err _, _) => True
  | Panicked => False
  end.
Proof.
  intros Hp. pose proof (lsafe_redeem_multi s b l Hp) as H. unfold wp in H.
  destruct (redeem s b l) as [[[bs|e] l']|]; try done. split; [exact H|].
  intros H0 Hall e He. destruct (list_elem_of_lookup_1 _ _ He) as [i Hi].
  destruct (Forall2_lookup_l _ _ _ _ _ (rm_paid _ _ _ _ _ _ _ H) Hi) as (t & _ & o & -> & _ & _ & _ & ->).
  destruct (pm_vaults _ _ _ Hp e He) as (Hv & [[d f] Hs] & _).
  rewrite Hall, owed_all; [lia|lia|apply granule_in_pos; [apply Hp|by eexists]|].
  unfold granule_in, divisibility_in, vault_held. rewrite Hs, Hv. cbn. eapply lheld_granular; [apply Hp|exact Hs].
Qed.

Definition many_l2 : Ledger := ledger_after (redeem many_s many_new_units) many_l1.

Definition many_paid : list Bucket := [
  {| bucket_resource := example_resource; bucket_id := 7%N |};
  {| bucket_resource := other_resource; bucket_id := 8%N |}].

(** The new units pay back what was accepted. *)
Lemma multi_pool_redemption_pays_shares_witness :
  redeemed_many many_units (vaults many_s) many_new_units many_paid (bucket_held many_l1 many_new_units)
    many_l1 many_l2 /\
  bucket_held many_l2 <$> many_paid = [10 * Dec.ONE; 225 * Dec.ONE / 10].
Proof.
  assert (Hp : pool_many_ok (pool_unit_resource_manager many_s) (vaults many_s) many_l1).
  { pose proof (lsafe_contribute_many DecTheorems.int_root many_s many_bs many_l
      DecTheorems.int_root_truncates ltac:(by apply (bool_decide_unpack _)) many_ok) as H.
    unfold wp in H.
    assert (contribute DecTheorems.int_root many_s many_bs many_l =
      Done (Ok (many_new_units, [many_change]), many_l1)) as E by (by vm_compute).
    rewrite E in H. destruct H as [m H]. apply H. }
  pose proof (multi_pool_redemption_pays_shares many_s many_new_units many_l1 Hp) as H.
  assert (redeem many_s many_new_units many_l1 = Done (Ok many_paid, many_l2)) as E by (by vm_compute).
  rewrite E in H. split; [exact (proj1 H)|by vm_compute].
Defined.

(** The same of a pool of two resources. *)
Theorem two_pool_redemption_pays_shares (s : TwoResourcePool.Substate) (b : Bucket) (l : Ledger) :
  pool2_ok s l ->
  match TwoResourcePool.redeem s b l with
  | Done (Ok (t1, t2), l') =>
      redeemed_many (TwoResourcePool.pool_unit_resource_manager s) (TwoResourcePool.vault_list s) b
        [t1; t2] (bucket_held l b) l l'
  | Done (Err _, _) => True
  | Panicked => False
  end.
Proof.
  intros Hp. pose proof (lsafe_redeem2 s b l Hp) as H. unfold wp in H.
  by destruct (TwoResourcePool.redeem s b l) as [[[[t1 t2]|e] l']|].
Qed.

(** *** An empty first contribution *)

Definition empty_setup : PM (Substate * Bucket * list Bucket) :=
  s ← instantiate many_units [example_resource; other_resource];
  '(ub, change) ← contribute DecTheorems.int_root s [];
  mret (s, ub, change).

(** The geometric mean of no contributions is one, so contributing nothing to a
    new pool mints a whole pool unit, and from then on, whatever is contributed is
    refused. *)
Theorem empty_contribution_blocks_pool :
  let l := ledger_after empty_setup two_ledger in
  value_after empty_setup two_ledger = Some (many_s, many_ub, []) /\
  bucket_held l many_ub = Dec.ONE /\
  (exists l', contribute DecTheorems.int_root many_s [initial_bucket example_resource; initial_bucket other_resource] l =
    Done (Err (fail MultiError.NoMinimumRatio), l')).
Proof. split_and!; [by vm_compute..|]. eexists. by vm_compute. Qed.

End SeveralPoolsTheorems.
