(* ===== verification/Time.v ===== *)
(** * Time

    Instants and their arithmetic (radix-common/src/time/instant.rs), the
    minute clock of the consensus manager (consensus_manager.rs) and calendar
    dates with their conversion to and from instants
    (radix-common/src/time/utc_date_time.rs).  Integer arithmetic is that of
    [i64], [u32] and [u8]; where the operands of a conversion are within the
    supported range no intermediate [i64] comes near its bounds (the largest
    timestamp is below 2^57). *)

From S2P Require Import Prelude.
Import Int.

(** ** Instants *)
Module Time.

(** [Instant]: seconds since the Unix epoch, an [i64]. *)
Abbreviation Instant := Z (only parsing).

Definition SECONDS_IN_A_MINUTE : Z := 60.
Definition SECONDS_IN_AN_HOUR : Z := 3600.
Definition SECONDS_IN_A_DAY : Z := 86400.
Definition MILLIS_IN_SECOND : Z := 1000.
Definition MILLIS_IN_MINUTE : Z := 60000.

Inductive TimeComparisonOperator : Type := TEq | TLt | TLte | TGt | TGte.

Definition compare (self other : Instant) (op : TimeComparisonOperator) : bool :=
  match op with
  | TEq => self =? other
  | TLt => self <? other
  | TLte => self <=? other
  | TGt => other <? self
  | TGte => other <=? self
  end.

Definition add_units (self count unit : Z) : option Instant :=
  to_add ← checked_i 64 (count * unit);
  checked_i 64 (self + to_add).

Definition add_days (self days : Z) : option Instant := add_units self days SECONDS_IN_A_DAY.
Definition add_hours (self hours : Z) : option Instant := add_units self hours SECONDS_IN_AN_HOUR.
Definition add_minutes (self minutes : Z) : option Instant :=
  add_units self minutes SECONDS_IN_A_MINUTE.
Definition add_seconds (self seconds : Z) : option Instant := checked_i 64 (self + seconds).

(** The consensus manager keeps the proposer's time as an [i32] of minutes. *)
Definition epoch_minute_to_instant (epoch_minute : Z) : Instant :=
  epoch_minute * SECONDS_IN_A_MINUTE.

Definition milli_to_minute (epoch_milli : Z) : option Z :=
  checked_i 32 (Z.quot epoch_milli MILLIS_IN_MINUTE).

Definition get_current_time (epoch_minute : Z) : Instant := epoch_minute_to_instant epoch_minute.

Definition compare_current_time (epoch_minute : Z) (other : Instant)
    (op : TimeComparisonOperator) : bool :=
  let other_epoch_minute :=
    match (m ← checked_i 64 (other * MILLIS_IN_SECOND); milli_to_minute m) with
    | Some minute => minute
    | None => if other <? 0 then i_min 32 else i_max 32
    end in
  compare (epoch_minute_to_instant epoch_minute) (epoch_minute_to_instant other_epoch_minute) op.

(** With the clock in range, "now is at or after [other]" is comparison of
    minutes: for a whole number of minutes it is exact. *)
Lemma compare_current_time_gte now m :
  in_i 32 now = true -> in_i 32 m = true ->
  compare_current_time now (m * 60) TGte = (m <=? now).
Proof.
  intros Hn Hm. apply in_i_spec in Hn, Hm. unfold i_min, i_max in *.
  unfold compare_current_time, milli_to_minute, MILLIS_IN_SECOND, MILLIS_IN_MINUTE.
  replace (checked_i 64 (m * 60 * 1000)) with (Some (m * 60 * 1000)).
  2: { symmetry. apply checked_i_Some. unfold i_min, i_max. lia. }
  cbn [mbind option_bind]. replace (m * 60 * 1000) with (m * 60000) by lia.
  rewrite Z.quot_mul by done.
  replace (checked_i 32 m) with (Some m).
  2: { symmetry. apply checked_i_Some. unfold i_min, i_max. lia. }
  cbn. unfold epoch_minute_to_instant, SECONDS_IN_A_MINUTE.
  destruct (m <=? now) eqn:E; zbool; [apply Z.leb_le|apply Z.leb_gt]; lia.
Qed.

(** However far away [other] is, the clock never accepts it too early as long
    as it has not reached its last minute. *)
Lemma compare_current_time_sound now m :
  in_i 32 now = true -> now < i_max 32 -> 0 <= m -> in_i 64 (m * 60) = true ->
  compare_current_time now (m * 60) TGte = true -> m <= now.
Proof.
  intros Hn Hlt Hm0 H64 Hc. destruct (decide (m <= i_max 32)) as [Hle|Hgt].
  - rewrite compare_current_time_gte in Hc; [by zbool|done|].
    apply in_i_spec. unfold i_min in *. lia.
  - exfalso. apply in_i_spec in Hn, H64. unfold i_min, i_max in *.
    unfold compare_current_time in Hc.
    assert (match (x ← checked_i 64 (m * 60 * MILLIS_IN_SECOND); milli_to_minute x) with
            | Some minute => minute
            | None => if m * 60 <? 0 then i_min 32 else i_max 32 end = 2 ^ 31 - 1) as E.
    { destruct (checked_i 64 _) as [x|] eqn:Ex;
        cbn [mbind option_bind].
      - apply checked_i_Some in Ex as [-> _]. unfold milli_to_minute, MILLIS_IN_MINUTE.
        replace (m * 60 * MILLIS_IN_SECOND) with (m * 60000) by (unfold MILLIS_IN_SECOND; lia).
        rewrite Z.quot_mul by done.
        rewrite (proj2 (checked_i_None 32 m)) by (unfold i_min, i_max; lia).
        rewrite (proj2 (Z.ltb_ge _ _)) by lia. done.
      - rewrite (proj2 (Z.ltb_ge _ _)) by lia. done. }
    rewrite E in Hc. cbn in Hc. unfold epoch_minute_to_instant, SECONDS_IN_A_MINUTE in Hc.
    zbool. lia.
Qed.

End Time.

(** ** Calendar dates *)
Module Calendar.
Import Time.

Definition UNIX_EPOCH_YEAR : Z := 1970.
Definition SECONDS_IN_A_NON_LEAP_YEAR : Z := 365 * 24 * 60 * 60.
Definition SECONDS_IN_A_LEAP_YEAR : Z := 366 * 24 * 60 * 60.
Definition DAYS_PER_4Y : Z := 365 * 4 + 1.
Definition DAYS_PER_100Y : Z := 365 * 100 + 24.
Definition DAYS_PER_400Y : Z := 365 * 400 + 97.
Definition LEAP_YEAR_DAYS_IN_MONTHS : list Z := [31; 29; 31; 30; 31; 30; 31; 31; 30; 31; 30; 31].
Definition SHIFT_FROM_UNIX_TIME_TO_MARCH_Y2K : Z := 946684800 + 86400 * (31 + 29).
Definition MIN_SUPPORTED_TIMESTAMP : Z := -62135596800.
Definition MAX_SUPPORTED_TIMESTAMP : Z := 135536014634284799.

Inductive DateTimeError : Type :=
| InvalidYear
| InvalidMonth
| InvalidDayOfMonth
| InvalidHour
| InvalidMinute
| InvalidSecond
| InstantIsOutOfRange.

Record UtcDateTime : Type := {
  year : Z;
  month : Z;
  day_of_month : Z;
  hour : Z;
  minute : Z;
  second : Z
}.

Definition is_leap_year (y : Z) : bool :=
  (y mod 4 =? 0) && (negb (y mod 100 =? 0) || (y mod 400 =? 0)).

Definition num_leap_years_up_to_exclusive (y : Z) : Z :=
  let prev := wrap_u 32 (y - 1) in
  wrap_u 32 (prev / 4 - prev / 100 + prev / 400).

Definition days_in_leap_month (m : Z) : Z := default 0 (LEAP_YEAR_DAYS_IN_MONTHS !! Z.to_nat m).

Definition new (y m d h mi s : Z) : Result DateTimeError UtcDateTime :=
  if y =? 0 then Err InvalidYear else
  if (m <? 1) || (12 <? m) then Err InvalidMonth else
  if (d <? 1) || (days_in_leap_month (m - 1) <? d)
     || (negb (is_leap_year y) && (m =? 2) && (28 <? d)) then Err InvalidDayOfMonth else
  if 23 <? h then Err InvalidHour else
  if 59 <? mi then Err InvalidMinute else
  if 59 <? s then Err InvalidSecond else
  Ok {| year := y; month := m; day_of_month := d; hour := h; minute := mi; second := s |}.

(** The loop that peels months off the remaining days; running off the array
    panics. *)
Fixpoint find_month (days_in_months : list Z) (m remaining_days : Z) : Exec (Z * Z) :=
  match days_in_months with
  | [] => Panicked
  | d :: l =>
      if d <=? remaining_days then find_month l (m + 1) (remaining_days - d)
      else Done (m, remaining_days)
  end.

(** Floor division by a positive divisor, as the code corrects the truncating
    one. *)
Definition split_floor (a b : Z) : Z * Z :=
  let q := Z.quot a b in
  let r := Z.rem a b in
  if r <? 0 then (q - 1, r + b) else (q, r).

(** One level of leap cycles: [n] cycles fit in the one above. *)
Definition split_cycle (days per n : Z) : Z * Z :=
  let q := Z.quot days per in
  let q' := if q =? n then q - 1 else q in
  (q', days - q' * per).

Definition from_instant (t : Z) : Exec (Result DateTimeError UtcDateTime) :=
  if (t <? MIN_SUPPORTED_TIMESTAMP) || (MAX_SUPPORTED_TIMESTAMP <? t)
  then Done (Err InstantIsOutOfRange) else
  let secs_since_march_y2k := t - SHIFT_FROM_UNIX_TIME_TO_MARCH_Y2K in
  let '(days_since_march_y2k, remaining_secs) :=
    split_floor secs_since_march_y2k SECONDS_IN_A_DAY in
  let '(num_400_year_cycles, remaining_days) := split_floor days_since_march_y2k DAYS_PER_400Y in
  let '(num_100_year_cycles, remaining_days) := split_cycle remaining_days DAYS_PER_100Y 4 in
  let '(num_4_year_cycles, remaining_days) := split_cycle remaining_days DAYS_PER_4Y 25 in
  let '(remaining_years, remaining_days) := split_cycle remaining_days 365 4 in
  let y := remaining_years + 4 * num_4_year_cycles + 100 * num_100_year_cycles
           + 400 * num_400_year_cycles + 2000 in
  let days_in_months_starting_on_march :=
    drop 2 LEAP_YEAR_DAYS_IN_MONTHS ++ take 2 LEAP_YEAR_DAYS_IN_MONTHS in
  mr ← find_month days_in_months_starting_on_march 0 remaining_days;
  let '(m, remaining_days) := mr in
  let m := m + 2 in
  let '(m, y) := if 12 <=? m then (m - 12, y + 1) else (m, y) in
  let m := m + 1 in
  let d := remaining_days + 1 in
  let h := Z.quot remaining_secs SECONDS_IN_AN_HOUR in
  let mi := Z.rem (Z.quot remaining_secs SECONDS_IN_A_MINUTE) SECONDS_IN_A_MINUTE in
  let s := Z.rem remaining_secs SECONDS_IN_A_MINUTE in
  y ← expect (checked_u 32 y);
  m ← expect (checked_u 8 m);
  d ← expect (checked_u 8 d);
  h ← expect (checked_u 8 h);
  mi ← expect (checked_u 8 mi);
  s ← expect (checked_u 8 s);
  Done (Ok {| year := y; month := m; day_of_month := d; hour := h; minute := mi; second := s |}).

(** Seconds of the month at index [n] of a year. *)
Definition month_seconds (leap : bool) (n : nat) : Exec Z :=
  d ← expect (LEAP_YEAR_DAYS_IN_MONTHS !! n);
  Done (d * SECONDS_IN_A_DAY - (if negb leap && (Z.of_nat n =? 1) then SECONDS_IN_A_DAY else 0)).

Fixpoint sum_months (leap : bool) (ns : list nat) (acc : Z) : Exec Z :=
  match ns with
  | [] => Done acc
  | n :: ns' => s ← month_seconds leap n; sum_months leap ns' (acc + s)
  end.

(** [while curr_month > m0]: the months after index [m0], backwards. *)
Fixpoint count_down (leap : bool) (curr_month : nat) (m0 acc : Z) : Exec (Z * Z) :=
  if m0 <? Z.of_nat curr_month then
    s ← month_seconds leap curr_month;
    match curr_month with
    | O => Done (255, acc + s)
    | S c => count_down leap c m0 (acc + s)
    end
  else Done (Z.of_nat curr_month, acc).

Definition to_instant (dt : UtcDateTime) : Exec Z :=
  let leap := is_leap_year (year dt) in
  if UNIX_EPOCH_YEAR <=? year dt then
    let leap_years := wrap_u 32 (num_leap_years_up_to_exclusive (year dt)
                                 - num_leap_years_up_to_exclusive (UNIX_EPOCH_YEAR + 1)) in
    let non_leap_years := (year dt - UNIX_EPOCH_YEAR) - leap_years in
    let seconds_up_to_the_beginning_of_the_year :=
      non_leap_years * SECONDS_IN_A_NON_LEAP_YEAR + leap_years * SECONDS_IN_A_LEAP_YEAR in
    seconds_in_ended_months ← sum_months leap (seq 0 (Z.to_nat (wrap_u 8 (month dt - 1)))) 0;
    Done (seconds_up_to_the_beginning_of_the_year + seconds_in_ended_months
          + wrap_u 8 (day_of_month dt - 1) * SECONDS_IN_A_DAY + hour dt * SECONDS_IN_AN_HOUR
          + minute dt * SECONDS_IN_A_MINUTE + second dt)
  else
    let leap_years := wrap_u 32 (num_leap_years_up_to_exclusive UNIX_EPOCH_YEAR
                                 - num_leap_years_up_to_exclusive (year dt + 1)) in
    let non_leap_years := wrap_u 32 (UNIX_EPOCH_YEAR - year dt - 1) - leap_years in
    let seconds_up_to_the_end_of_the_year :=
      non_leap_years * SECONDS_IN_A_NON_LEAP_YEAR + leap_years * SECONDS_IN_A_LEAP_YEAR in
    cs ← count_down leap 11 (wrap_u 8 (month dt - 1)) 0;
    let '(curr_month, seconds_in_non_started_months) := cs in
    days ← expect (if month dt =? 0 then None
                   else LEAP_YEAR_DAYS_IN_MONTHS !! Z.to_nat (month dt - 1));
    let days_in_month := days - (if negb leap && (curr_month =? 1) then 1 else 0) in
    let remaining_days_in_month := days_in_month - day_of_month dt in
    Done (- (seconds_up_to_the_end_of_the_year + seconds_in_non_started_months
             + remaining_days_in_month * SECONDS_IN_A_DAY
             + wrap_u 8 (23 - hour dt) * SECONDS_IN_AN_HOUR
             + wrap_u 8 (59 - minute dt) * SECONDS_IN_A_MINUTE
             + wrap_u 8 (59 - second dt)) - 1).

(** [f(..).and_then(|i| Self::from_instant(&i).ok())] *)
Definition add_then (add : Z -> Z -> option Z) (dt : UtcDateTime) (n : Z) :
    Exec (option UtcDateTime) :=
  t ← to_instant dt;
  match add t n with
  | None => Done None
  | Some i => r ← from_instant i; Done (match r with Ok d => Some d | Err _ => None end)
  end.

Definition dt_add_days := add_then add_days.
Definition dt_add_hours := add_then add_hours.
Definition dt_add_minutes := add_then add_minutes.
Definition dt_add_seconds := add_then add_seconds.

Example epoch_to_date :
  from_instant 0 = Done (Ok {| year := 1970; month := 1; day_of_month := 1; hour := 0;
                               minute := 0; second := 0 |}).
Proof. reflexivity. Qed.
Example leap_day_2000 :
  from_instant 951865200 = Done (Ok {| year := 2000; month := 2; day_of_month := 29; hour := 23;
                                       minute := 0; second := 0 |}).
Proof. reflexivity. Qed.
Example last_date :
  from_instant MAX_SUPPORTED_TIMESTAMP
  = Done (Ok {| year := U32_MAX; month := 12; day_of_month := 31; hour := 23;
                minute := 59; second := 59 |}).
Proof. reflexivity. Qed.
Example before_epoch :
  to_instant {| year := 1968; month := 2; day_of_month := 29; hour := 0; minute := 0;
                second := 0 |} = Done (-58060800).
Proof. reflexivity. Qed.

End Calendar.

(** ** The calendar as a specification *)
Module CalendarSpec.
Import Time Calendar.

(** Days before a year, and before a month in it, of the proleptic Gregorian
    calendar, from 1 January of year 1. *)
Definition days_before_year (y : Z) : Z :=
  365 * (y - 1) + (y - 1) / 4 - (y - 1) / 100 + (y - 1) / 400.

Definition month_table : list Z := [0; 31; 59; 90; 120; 151; 181; 212; 243; 273; 304; 334].
Definition days_before_month (leap : bool) (m : Z) : Z :=
  default 0 (month_table !! Z.to_nat (m - 1)) + (if leap && (2 <? m) then 1 else 0).

Definition day_number (y m d : Z) : Z :=
  days_before_year y + days_before_month (is_leap_year y) m + (d - 1).

Definition seconds_of (dt : UtcDateTime) : Z :=
  (day_number (year dt) (month dt) (day_of_month dt) - day_number 1970 1 1) * SECONDS_IN_A_DAY
  + hour dt * SECONDS_IN_AN_HOUR + minute dt * SECONDS_IN_A_MINUTE + second dt.

(** What [new] accepts, for arguments of its types. *)
Definition valid (dt : UtcDateTime) : Prop :=
  1 <= year dt <= U32_MAX /\ 1 <= month dt <= 12 /\
  1 <= day_of_month dt <= days_in_leap_month (month dt - 1) /\
  (is_leap_year (year dt) = false -> month dt = 2 -> day_of_month dt <= 28) /\
  0 <= hour dt <= 23 /\ 0 <= minute dt <= 59 /\ 0 <= second dt <= 59.

Lemma new_valid y m d h mi s dt :
  in_u 32 y = true -> 0 <= h -> 0 <= mi -> 0 <= s ->
  new y m d h mi s = Ok dt -> valid dt.
Proof.
  intros Hy%in_u_spec Hh Hmi Hs. unfold new, u_max in *.
  repeat (case_match; try discriminate). intros [= <-]. zbool.
  unfold valid. cbn. split_and!; try lia.
  intros Hl ->. rewrite Hl in *. cbn in *. zbool. lia.
Qed.

Lemma valid_new dt :
  valid dt ->
  new (year dt) (month dt) (day_of_month dt) (hour dt) (minute dt) (second dt) = Ok dt.
Proof.
  intros (Hy & Hm & Hd & Hf & Hh & Hmi & Hs). unfold new.
  rewrite (proj2 (Z.eqb_neq _ _)) by lia.
  rewrite (proj2 (Z.ltb_ge (month dt) 1)), (proj2 (Z.ltb_ge 12 (month dt))) by lia.
  rewrite (proj2 (Z.ltb_ge (day_of_month dt) 1)), (proj2 (Z.ltb_ge _ (day_of_month dt))) by lia.
  rewrite (proj2 (Z.ltb_ge 23 (hour dt))), (proj2 (Z.ltb_ge 59 (minute dt))),
    (proj2 (Z.ltb_ge 59 (second dt))) by lia.
  destruct (is_leap_year (year dt)); cbn; [by destruct dt|].
  destruct (month dt =? 2) eqn:E; cbn; [|by destruct dt].
  zbool. rewrite (proj2 (Z.ltb_ge 28 _)) by auto. by destruct dt.
Qed.

(** The twelve months, one by one. *)
Lemma month_cases m : 1 <= m <= 12 ->
  m = 1 \/ m = 2 \/ m = 3 \/ m = 4 \/ m = 5 \/ m = 6 \/ m = 7 \/ m = 8 \/ m = 9 \/ m = 10 \/
  m = 11 \/ m = 12.
Proof. lia. Qed.

(** Evaluates look-ups at closed indices. *)
Ltac tables :=
  repeat match goal with
  | |- context [days_before_month ?b ?m] =>
      let v := eval vm_compute in (days_before_month b m) in
      change (days_before_month b m) with v
  | |- context [default 0 (?l !! Z.to_nat ?i)] =>
      let v := eval vm_compute in (default 0 (l !! Z.to_nat i)) in
      change (default 0 (l !! Z.to_nat i)) with v
  | H : context [default 0 (?l !! Z.to_nat ?i)] |- _ =>
      let v := eval vm_compute in (default 0 (l !! Z.to_nat i)) in
      change (default 0 (l !! Z.to_nat i)) with v in H
  end.

Ltac each_month H :=
  apply month_cases in H;
  repeat match type of H with _ \/ _ => destruct H as [H|H] end.

Lemma is_leap_spec y : 0 <= y ->
  (if is_leap_year y then 1 else 0) =
  (y / 4 - (y - 1) / 4) - (y / 100 - (y - 1) / 100) + (y / 400 - (y - 1) / 400).
Proof.
  intros Hy. unfold is_leap_year.
  destruct (y mod 4 =? 0) eqn:E4; destruct (y mod 100 =? 0) eqn:E100;
    destruct (y mod 400 =? 0) eqn:E400; zbool; cbn;
    Z.to_euclidean_division_equations; lia.
Qed.

Lemma days_before_next y : 0 <= y ->
  days_before_year (y + 1) = days_before_year y + (if is_leap_year y then 366 else 365).
Proof.
  intros Hy. pose proof (is_leap_spec y Hy) as H. unfold days_before_year.
  replace (y + 1 - 1) with y by lia. destruct (is_leap_year y); lia.
Qed.

Lemma num_leap_years_spec y : 1 <= y <= U32_MAX ->
  num_leap_years_up_to_exclusive y = (y - 1) / 4 - (y - 1) / 100 + (y - 1) / 400.
Proof.
  intros Hy. unfold num_leap_years_up_to_exclusive.
  rewrite (wrap_u_small 32 (y - 1)) by (unfold u_max; lia).
  apply wrap_u_small. unfold u_max. Z.to_euclidean_division_equations. lia.
Qed.

(** ** Dates to instants *)

(** Days of the months before and after month [m], as the loops count them. *)
Lemma sum_months_spec leap m : 1 <= m <= 12 ->
  sum_months leap (seq 0 (Z.to_nat (wrap_u 8 (m - 1)))) 0
  = Done (days_before_month leap m * SECONDS_IN_A_DAY).
Proof. intros H. each_month H; subst; by destruct leap. Qed.

Lemma count_down_spec leap m : 1 <= m <= 12 ->
  count_down leap 11 (wrap_u 8 (m - 1)) 0
  = Done (m - 1, ((if leap then 366 else 365) - days_before_month leap m
       - (days_in_leap_month (m - 1) - (if negb leap && (m =? 2) then 1 else 0)))
      * SECONDS_IN_A_DAY).
Proof. intros H. each_month H; subst; by destruct leap. Qed.

Lemma lookup_leap_month m : 1 <= m <= 12 ->
  (if m =? 0 then None else LEAP_YEAR_DAYS_IN_MONTHS !! Z.to_nat (m - 1))
  = Some (days_in_leap_month (m - 1)).
Proof. intros H. each_month H; by subst. Qed.

Lemma epoch_day : day_number 1970 1 1 = 719162.
Proof. reflexivity. Qed.

Lemma to_instant_after dt : valid dt -> 1970 <= year dt -> to_instant dt = Done (seconds_of dt).
Proof.
  intros (Hy & Hm & Hd & _ & Hh & Hmi & Hs) He. unfold to_instant.
  unfold UNIX_EPOCH_YEAR. rewrite (proj2 (Z.leb_le _ _)) by lia.
  rewrite (num_leap_years_spec (1970 + 1)), (num_leap_years_spec (year dt)) by lia.
  rewrite (wrap_u_small 32) by (unfold u_max; Z.to_euclidean_division_equations; lia).
  rewrite sum_months_spec by done. cbn [mbind Exec_bind].
  assert (days_in_leap_month (month dt - 1) <= 31) by (each_month Hm; rewrite Hm; done).
  rewrite wrap_u_small by (unfold u_max; lia). f_equal.
  unfold seconds_of. rewrite epoch_day. unfold day_number, days_before_year,
    SECONDS_IN_A_NON_LEAP_YEAR, SECONDS_IN_A_LEAP_YEAR, SECONDS_IN_A_DAY.
  change ((1970 + 1 - 1) / 4) with 492. change ((1970 + 1 - 1) / 100) with 19.
  change ((1970 + 1 - 1) / 400) with 4. lia.
Qed.

Lemma to_instant_before dt : valid dt -> year dt < 1970 -> to_instant dt = Done (seconds_of dt).
Proof.
  intros (Hy & Hm & Hd & _ & Hh & Hmi & Hs) He. unfold to_instant.
  unfold UNIX_EPOCH_YEAR. rewrite (proj2 (Z.leb_gt _ _)) by lia.
  rewrite (num_leap_years_spec 1970), (num_leap_years_spec (year dt + 1)) by lia.
  rewrite !(wrap_u_small 32) by (unfold u_max; Z.to_euclidean_division_equations; lia).
  rewrite count_down_spec by done. cbn [mbind Exec_bind].
  rewrite lookup_leap_month by done. cbn [expect mbind Exec_bind].
  rewrite !(wrap_u_small 8) by (unfold u_max; lia). f_equal.
  unfold seconds_of. rewrite epoch_day. unfold day_number, days_before_year,
    SECONDS_IN_A_NON_LEAP_YEAR, SECONDS_IN_A_LEAP_YEAR, SECONDS_IN_A_DAY,
    SECONDS_IN_AN_HOUR, SECONDS_IN_A_MINUTE.
  pose proof (is_leap_spec (year dt) ltac:(lia)) as Hl.
  replace (year dt + 1 - 1) with (year dt) by lia.
  replace (month dt - 1 =? 1) with (month dt =? 2)
    by (destruct (month dt =? 2) eqn:E, (month dt - 1 =? 1) eqn:E'; zbool; lia).
  change ((1970 - 1) / 4) with 492. change ((1970 - 1) / 100) with 19.
  change ((1970 - 1) / 400) with 4.
  destruct (is_leap_year (year dt)), (month dt =? 2); cbn [negb andb] in *; lia.
Qed.

Lemma to_instant_spec dt : valid dt -> to_instant dt = Done (seconds_of dt).
Proof.
  intros Hv. destruct (decide (1970 <= year dt));
    [by apply to_instant_after|apply to_instant_before; [done|lia]].
Qed.

(** ** Instants to dates *)

Lemma split_floor_spec a b : 0 < b -> split_floor a b = (a / b, a mod b).
Proof.
  intros Hb. unfold split_floor.
  pose proof (Z.quot_rem' a b) as He. pose proof (Z.rem_bound_abs a b ltac:(lia)) as Hr.
  destruct (Z.rem a b <? 0) eqn:E; zbool.
  - f_equal; [apply Z.div_unique with (Z.rem a b + b)|apply Z.mod_unique with (Z.quot a b - 1)]; lia.
  - f_equal; [apply Z.div_unique with (Z.rem a b)|apply Z.mod_unique with (Z.quot a b)]; lia.
Qed.

(** A level of [n] cycles of [per] days, the last one possibly a day longer. *)
Lemma split_cycle_spec days per n :
  1 < per -> 0 < n -> 0 <= days <= n * per ->
  exists q r, split_cycle days per n = (q, r) /\ days = q * per + r /\ 0 <= q < n /\
    0 <= r <= per /\ (r = per -> q = n - 1 /\ days = n * per).
Proof.
  intros Hp Hn Hd. unfold split_cycle. rewrite Z.quot_div_nonneg by lia.
  pose proof (Z.div_mod days per ltac:(lia)) as Hdm.
  pose proof (Z.mod_pos_bound days per ltac:(lia)) as Hm.
  assert (0 <= days / per <= n) as Hq by nia.
  destruct (days / per =? n) eqn:E; zbool; eexists _, _; (split; [reflexivity|]); nia.
Qed.

(** Years that start in March: the day number of 1 March of year [y]. *)
Definition march_first (y : Z) : Z := 365 * y + y / 4 - y / 100 + y / 400 - 306.

Lemma march_first_spec y : 0 <= y -> march_first y = day_number y 3 1.
Proof.
  intros Hy. pose proof (is_leap_spec y Hy) as H. unfold march_first, day_number, days_before_year.
  destruct (is_leap_year y);
    [change (days_before_month true 3) with 60|change (days_before_month false 3) with 59]; lia.
Qed.

(** The peeled cycles are the digits of the day count. *)
Lemma march_first_cycles a b c d :
  0 <= b < 4 -> 0 <= c < 25 -> 0 <= d < 4 ->
  march_first (d + 4 * c + 100 * b + 400 * a + 2000) =
  730179 + (146097 * a + 36524 * b + 1461 * c + 365 * d).
Proof.
  intros Hb Hc Hd. unfold march_first.
  replace ((d + 4 * c + 100 * b + 400 * a + 2000) / 4) with (c + 25 * b + 100 * a + 500)
    by (apply Z.div_unique with d; lia).
  replace ((d + 4 * c + 100 * b + 400 * a + 2000) / 100) with (b + 4 * a + 20)
    by (apply Z.div_unique with (d + 4 * c); lia).
  replace ((d + 4 * c + 100 * b + 400 * a + 2000) / 400) with (a + 5)
    by (apply Z.div_unique with (d + 4 * c + 100 * b); lia).
  lia.
Qed.

Definition march_months : list Z := [31; 30; 31; 30; 31; 31; 30; 31; 30; 31; 31; 29].
Definition march_table : list Z := [0; 31; 61; 92; 122; 153; 184; 214; 245; 275; 306; 337].

Lemma find_month_spec doy : 0 <= doy <= 365 ->
  exists mm rd, find_month march_months 0 doy = Done (mm, rd) /\ 0 <= mm <= 11 /\
    0 <= rd < default 0 (march_months !! Z.to_nat mm) /\
    doy = default 0 (march_table !! Z.to_nat mm) + rd.
Proof.
  intros Hd. cbn [find_month march_months].
  repeat match goal with |- context [if ?a <=? ?b then _ else _] =>
    let E := fresh "E" in destruct (a <=? b) eqn:E; zbool end;
  try (eexists _, _; split; [reflexivity|]; tables; lia). lia.
Qed.

(** The month and year a position in the March year falls in. *)
Definition shifted (y mm : Z) : Z * Z := if 10 <=? mm then (y + 1, mm - 9) else (y, mm + 3).

Lemma shifted_day y mm rd : 0 <= y -> 0 <= mm <= 11 ->
  day_number (shifted y mm).1 (shifted y mm).2 (rd + 1)
  = march_first y + default 0 (march_table !! Z.to_nat mm) + rd.
Proof.
  intros Hy Hm. rewrite march_first_spec by done. unfold shifted, day_number.
  assert (mm = 0 \/ mm = 1 \/ mm = 2 \/ mm = 3 \/ mm = 4 \/ mm = 5 \/ mm = 6 \/ mm = 7 \/
          mm = 8 \/ mm = 9 \/ mm = 10 \/ mm = 11) as Hc by lia.
  pose proof (days_before_next y Hy) as Hn.
  repeat destruct Hc as [Hc|Hc]; subst; cbn [Z.leb Z.compare Pos.compare Pos.compare_cont fst snd];
    destruct (is_leap_year y); try destruct (is_leap_year (y + 1));
    tables; lia.
Qed.

Lemma shifted_month y mm rd : 0 <= mm <= 11 ->
  rd < default 0 (march_months !! Z.to_nat mm) ->
  1 <= (shifted y mm).2 <= 12 /\ rd + 1 <= days_in_leap_month ((shifted y mm).2 - 1) /\
  ((shifted y mm).2 = 2 -> mm = 11).
Proof.
  intros Hm Hr. unfold shifted.
  assert (mm = 0 \/ mm = 1 \/ mm = 2 \/ mm = 3 \/ mm = 4 \/ mm = 5 \/ mm = 6 \/ mm = 7 \/
          mm = 8 \/ mm = 9 \/ mm = 10 \/ mm = 11) as Hc by lia.
  unfold days_in_leap_month.
  repeat destruct Hc as [Hc|Hc]; subst; cbn [Z.leb Z.compare Pos.compare Pos.compare_cont fst snd];
    tables; lia.
Qed.

(** The position of an instant in the March calendar. *)
Lemma march_position D :
  exists a b c d doy,
    split_floor D DAYS_PER_400Y = (a, D mod 146097) /\
    (let '(b', r1) := split_cycle (D mod 146097) DAYS_PER_100Y 4 in
     let '(c', r2) := split_cycle r1 DAYS_PER_4Y 25 in
     let '(d', r3) := split_cycle r2 365 4 in (b', c', d', r3)) = (b, c, d, doy) /\
    0 <= b < 4 /\ 0 <= c < 25 /\ 0 <= d < 4 /\ 0 <= doy <= 365 /\
    D = 146097 * a + 36524 * b + 1461 * c + 365 * d + doy /\
    (doy = 365 -> is_leap_year (d + 4 * c + 100 * b + 400 * a + 2000 + 1) = true).
Proof.
  rewrite split_floor_spec by done. change DAYS_PER_400Y with 146097.
  pose proof (Z.div_mod D 146097 ltac:(lia)) as HD.
  pose proof (Z.mod_pos_bound D 146097 ltac:(lia)) as Hr.
  destruct (split_cycle_spec (D mod 146097) DAYS_PER_100Y 4) as (b & r1 & -> & E1 & Hb & Hr1 & L1);
    unfold DAYS_PER_100Y in *; [lia..|].
  destruct (split_cycle_spec r1 DAYS_PER_4Y 25) as (c & r2 & -> & E2 & Hc & Hr2 & L2);
    unfold DAYS_PER_4Y in *; [lia..|].
  destruct (split_cycle_spec r2 365 4) as (d & r3 & -> & E3 & Hd & Hr3 & L3); [lia..|].
  exists (D / 146097), b, c, d, r3. split; [done|]. split; [done|]. split_and!; try lia.
  intros ->. destruct L3 as [-> ->]; [done|]. unfold is_leap_year.
  replace (_ mod 4) with 0 by (symmetry; apply Z.mod_divide; [lia|];
    exists (c + 25 * b + 100 * (D / 146097) + 501); lia). cbn [Z.eqb andb].
  destruct (decide (c = 24)) as [->|Hne].
  - assert (b = 3) as -> by lia. apply orb_true_iff. right. apply Z.eqb_eq, Z.mod_divide; [lia|].
    exists (D / 146097 + 6). lia.
  - apply orb_true_iff. left. apply negb_true_iff, Z.eqb_neq.
    replace (_ mod 100) with (4 * (c + 1)); [lia|].
    apply Z.mod_unique with (b + 4 * (D / 146097) + 20); lia.
Qed.

(** The supported range of instants is that of the years. *)
Lemma shifted_year y mm rd :
  0 <= mm <= 11 -> 0 <= rd < default 0 (march_months !! Z.to_nat mm) ->
  0 <= march_first y + default 0 (march_table !! Z.to_nat mm) + rd <= 1568704592243 ->
  0 <= y /\ 1 <= (shifted y mm).1 <= U32_MAX.
Proof.
  intros Hm Hr. unfold march_first, shifted.
  assert (mm = 0 \/ mm = 1 \/ mm = 2 \/ mm = 3 \/ mm = 4 \/ mm = 5 \/ mm = 6 \/ mm = 7 \/
          mm = 8 \/ mm = 9 \/ mm = 10 \/ mm = 11) as Hc by lia.
  repeat destruct Hc as [Hc|Hc]; subst; cbn [Z.leb Z.compare Pos.compare Pos.compare_cont fst snd];
    tables; intros; Z.to_euclidean_division_equations; lia.
Qed.

Lemma time_of_day S : 0 <= S < 86400 ->
  0 <= Z.quot S SECONDS_IN_AN_HOUR <= 23 /\
  0 <= Z.rem (Z.quot S SECONDS_IN_A_MINUTE) SECONDS_IN_A_MINUTE <= 59 /\
  0 <= Z.rem S SECONDS_IN_A_MINUTE <= 59 /\
  Z.quot S SECONDS_IN_AN_HOUR * SECONDS_IN_AN_HOUR
  + Z.rem (Z.quot S SECONDS_IN_A_MINUTE) SECONDS_IN_A_MINUTE * SECONDS_IN_A_MINUTE
  + Z.rem S SECONDS_IN_A_MINUTE = S.
Proof.
  unfold SECONDS_IN_AN_HOUR, SECONDS_IN_A_MINUTE. intros HS.
  Z.to_euclidean_division_equations. lia.
Qed.

Lemma from_instant_spec t :
  MIN_SUPPORTED_TIMESTAMP <= t <= MAX_SUPPORTED_TIMESTAMP ->
  exists dt, from_instant t = Done (Ok dt) /\ valid dt /\ seconds_of dt = t.
Proof.
  unfold MIN_SUPPORTED_TIMESTAMP, MAX_SUPPORTED_TIMESTAMP. intros Ht. unfold from_instant.
  rewrite (proj2 (Z.ltb_ge t _)), (proj2 (Z.ltb_ge _ t))
    by (unfold MIN_SUPPORTED_TIMESTAMP, MAX_SUPPORTED_TIMESTAMP; lia). cbn [orb].
  rewrite (split_floor_spec _ SECONDS_IN_A_DAY) by done.
  set (T := t - SHIFT_FROM_UNIX_TIME_TO_MARCH_Y2K).
  assert (HT : T = t - 951868800) by done.
  change SECONDS_IN_A_DAY with 86400.
  pose proof (Z.div_mod T 86400 ltac:(lia)) as HD.
  pose proof (Z.mod_pos_bound T 86400 ltac:(lia)) as Hs.
  set (D := T / 86400) in *. set (S := T mod 86400) in *.
  destruct (march_position D) as (a & b & c & d & doy & -> & Hpos & Hb & Hc & Hd & Hdoy & HDe & Hleap).
  destruct (split_cycle (D mod 146097) _ _) as [b' r1]. destruct (split_cycle r1 _ _) as [c' r2].
  destruct (split_cycle r2 _ _) as [d' r3]. injection Hpos as -> -> -> ->.
  pose proof (march_first_cycles a b c d Hb Hc Hd) as Hmf.
  set (Y := d + 4 * c + 100 * b + 400 * a + 2000) in *.
  destruct (find_month_spec doy Hdoy) as (mm & rd & Hf & Hmm & Hrd & Hdoy').
  change (drop 2 LEAP_YEAR_DAYS_IN_MONTHS ++ take 2 LEAP_YEAR_DAYS_IN_MONTHS) with march_months.
  rewrite Hf. cbn [mbind Exec_bind].
  replace (if 12 <=? mm + 2 then (mm + 2 - 12, Y + 1) else (mm + 2, Y))
    with ((shifted Y mm).2 - 1, (shifted Y mm).1).
  2: { unfold shifted. destruct (10 <=? mm) eqn:E1, (12 <=? mm + 2) eqn:E2; zbool; cbn; try lia;
       f_equal; lia. }
  replace ((shifted Y mm).2 - 1 + 1) with (shifted Y mm).2 by lia.
  assert (HN : march_first Y + default 0 (march_table !! Z.to_nat mm) + rd = D + 730179) by lia.
  destruct (shifted_year Y mm rd Hmm Hrd ltac:(lia)) as [HY Hyear].
  pose proof (shifted_day Y mm rd HY Hmm) as Hday. rewrite HN in Hday.
  pose proof (shifted_month Y mm rd Hmm ltac:(lia)) as (Hm & Hdm & Hfeb).
  assert (days_in_leap_month ((shifted Y mm).2 - 1) <= 31) by (each_month Hm; rewrite Hm; done).
  pose proof (time_of_day S Hs) as (Hh & Hmi & Hsec & Hsod).
  rewrite !checked_u_small by (unfold u_max; lia). cbn [expect mbind Exec_bind].
  eexists. split; [reflexivity|]. unfold valid, seconds_of. cbn [year month day_of_month hour minute second].
  rewrite Hday, epoch_day. split; [|unfold SECONDS_IN_A_DAY; lia].
  split_and!; try lia. intros Hl H2. specialize (Hfeb H2) as ->.
  destruct (decide (rd + 1 <= 28)) as [|Hn]; [done|]. exfalso.
  unfold shifted in Hl. cbn in Hl. rewrite Hleap in Hl; [done|]. revert Hdoy' Hrd. tables. lia.
Qed.

Lemma from_instant_cases t :
  (exists dt, from_instant t = Done (Ok dt) /\ valid dt /\ seconds_of dt = t) \/
  (from_instant t = Done (Err InstantIsOutOfRange) /\
   (t < MIN_SUPPORTED_TIMESTAMP \/ MAX_SUPPORTED_TIMESTAMP < t)).
Proof.
  destruct (decide (MIN_SUPPORTED_TIMESTAMP <= t <= MAX_SUPPORTED_TIMESTAMP)) as [Hr|Hr].
  - left. by apply from_instant_spec.
  - right. unfold from_instant. replace ((t <? _) || (_ <? t)) with true; [split; [done|lia]|].
    symmetry. apply orb_true_iff. rewrite !Z.ltb_lt. lia.
Qed.

(** ** Dates are determined by their instants *)

Lemma days_before_mono y1 y2 : 0 <= y1 -> y1 <= y2 -> days_before_year y1 <= days_before_year y2.
Proof.
  intros H1 H2. replace y2 with (y1 + (y2 - y1)) by lia.
  assert (0 <= y2 - y1) as Hk by lia. revert Hk. generalize (y2 - y1).
  apply natlike_ind; [by rewrite Z.add_0_r|].
  intros k Hk IH. replace (y1 + Z.succ k) with (y1 + k + 1) by lia.
  rewrite days_before_next by lia. destruct (is_leap_year _); lia.
Qed.

(** The day within the year. *)
Definition day_of_year (dt : UtcDateTime) : Z :=
  days_before_month (is_leap_year (year dt)) (month dt) + (day_of_month dt - 1).

Lemma day_of_year_bound dt : valid dt ->
  0 <= day_of_year dt < (if is_leap_year (year dt) then 366 else 365).
Proof.
  intros (_ & Hm & Hd & Hf & _). unfold day_of_year, days_in_leap_month in *.
  each_month Hm; rewrite Hm in *; destruct (is_leap_year (year dt)); revert Hd; tables; lia.
Qed.

Lemma day_of_year_inj dt dt' : valid dt -> valid dt' -> year dt = year dt' ->
  day_of_year dt = day_of_year dt' -> month dt = month dt' /\ day_of_month dt = day_of_month dt'.
Proof.
  intros (_ & Hm & Hd & Hf & _) (_ & Hm' & Hd' & Hf' & _) Hy. unfold day_of_year, days_in_leap_month in *.
  rewrite <- Hy in *. clear Hy.
  each_month Hm; rewrite Hm in *; each_month Hm'; rewrite Hm' in *;
    destruct (is_leap_year (year dt)); revert Hd Hd' Hf Hf'; tables; lia.
Qed.

Lemma year_determined dt dt' : valid dt -> valid dt' ->
  days_before_year (year dt) + day_of_year dt = days_before_year (year dt') + day_of_year dt' ->
  year dt <= year dt'.
Proof.
  intros Hv Hv' He. pose proof (day_of_year_bound _ Hv). pose proof (day_of_year_bound _ Hv').
  destruct Hv as [Hy _], Hv' as [Hy' _].
  destruct (decide (year dt <= year dt')) as [|Hn]; [done|exfalso].
  pose proof (days_before_mono (year dt' + 1) (year dt) ltac:(lia) ltac:(lia)) as Hmono.
  rewrite days_before_next in Hmono by lia. lia.
Qed.

Lemma seconds_of_inj dt dt' : valid dt -> valid dt' -> seconds_of dt = seconds_of dt' -> dt = dt'.
Proof.
  intros Hv Hv' He.
  assert (days_before_year (year dt) + day_of_year dt =
          days_before_year (year dt') + day_of_year dt' /\
          hour dt * 3600 + minute dt * 60 + second dt =
          hour dt' * 3600 + minute dt' * 60 + second dt') as [Hd Ht].
  { unfold seconds_of, day_number, day_of_year, SECONDS_IN_A_DAY, SECONDS_IN_AN_HOUR,
      SECONDS_IN_A_MINUTE in *.
    destruct Hv as (_ & _ & _ & _ & ? & ? & ?), Hv' as (_ & _ & _ & _ & ? & ? & ?). lia. }
  assert (year dt = year dt') as Hy.
  { apply Z.le_antisymm; [by apply year_determined|symmetry in Hd; by apply year_determined]. }
  destruct (day_of_year_inj dt dt' Hv Hv' Hy) as [Hm Hdm]; [rewrite Hy in Hd; lia|].
  destruct Hv as (_ & _ & _ & _ & ? & ? & ?), Hv' as (_ & _ & _ & _ & ? & ? & ?).
  destruct dt, dt'; cbn in *. f_equal; lia.
Qed.

Lemma seconds_of_range dt : valid dt ->
  MIN_SUPPORTED_TIMESTAMP <= seconds_of dt <= MAX_SUPPORTED_TIMESTAMP.
Proof.
  intros Hv. pose proof (day_of_year_bound _ Hv) as Hb.
  destruct Hv as (Hy & _ & _ & _ & Hh & Hmi & Hs).
  pose proof (days_before_mono 1 (year dt) ltac:(lia) ltac:(lia)) as Hlo.
  pose proof (days_before_mono (year dt + 1) (U32_MAX + 1) ltac:(lia) ltac:(lia)) as Hhi.
  rewrite days_before_next in Hhi by lia.
  change (days_before_year 1) with 0 in Hlo.
  change (days_before_year (U32_MAX + 1)) with 1568704592244 in Hhi.
  unfold seconds_of, MIN_SUPPORTED_TIMESTAMP, MAX_SUPPORTED_TIMESTAMP, SECONDS_IN_A_DAY,
    SECONDS_IN_AN_HOUR, SECONDS_IN_A_MINUTE. rewrite epoch_day. unfold day_number.
  fold (day_of_year dt). unfold day_of_year in *. lia.
Qed.

End CalendarSpec.

(** ** Theorems *)
Module TimeTheorems.
Import Time Calendar CalendarSpec.

(** Every supported instant has a date: the conversion does not panic, the
    date is one [new] accepts, and converting it back gives the instant; an
    unsupported instant is refused. *)
Theorem instant_date_roundtrip t :
  if (MIN_SUPPORTED_TIMESTAMP <=? t) && (t <=? MAX_SUPPORTED_TIMESTAMP)
  then exists dt, from_instant t = Done (Ok dt) /\ to_instant dt = Done t /\
    new (year dt) (month dt) (day_of_month dt) (hour dt) (minute dt) (second dt) = Ok dt
  else from_instant t = Done (Err InstantIsOutOfRange).
Proof.
  destruct (from_instant_cases t) as [(dt & Hf & Hv & <-)|[Hf Hr]].
  - pose proof (seconds_of_range dt Hv). rewrite !(proj2 (Z.leb_le _ _)) by lia. cbn [andb].
    exists dt. split; [done|]. split; [by apply to_instant_spec|by apply valid_new].
  - destruct (_ && _) eqn:E; [|done]. zbool. lia.
Qed.

(** Every date [new] accepts converts to an instant and back to itself,
    on both sides of 1970, and that instant is the one of the Gregorian
    calendar: elapsed days since the epoch times 86400 plus the time of day. *)
Theorem date_instant_roundtrip y m d h mi s dt :
  in_u 32 y = true -> 0 <= h -> 0 <= mi -> 0 <= s -> new y m d h mi s = Ok dt ->
  to_instant dt = Done (seconds_of dt) /\ from_instant (seconds_of dt) = Done (Ok dt).
Proof.
  intros Hy Hh Hmi Hs Hv%new_valid; [|done..]. split; [by apply to_instant_spec|].
  destruct (from_instant_spec (seconds_of dt)) as (dt' & Hf & Hv' & He);
    [by apply seconds_of_range|].
  rewrite Hf. by rewrite (seconds_of_inj dt' dt).
Qed.

Definition leap_day : UtcDateTime :=
  {| year := 1600; month := 2; day_of_month := 29; hour := 12; minute := 30; second := 59 |}.

Lemma date_instant_roundtrip_witness :
  to_instant leap_day = Done (seconds_of leap_day) /\
  from_instant (seconds_of leap_day) = Done (Ok leap_day).
Proof.
  apply (date_instant_roundtrip 1600 2 29 12 30 59); try lia; reflexivity.
Defined.

(** Date arithmetic is exact: adding days, hours or minutes to a date
    gives the date whose instant is that many seconds later when it exists, and
    [None] exactly when the sum leaves the supported range or 64 bits. *)
Theorem date_add_exact dt n :
  valid dt ->
  forall add_to unit, (add_to, unit) ∈ [(dt_add_days, 86400); (dt_add_hours, 3600); (dt_add_minutes, 60)] ->
  exists r, add_to dt n = Done r /\
    match r with
    | Some dt' => valid dt' /\ seconds_of dt' = seconds_of dt + n * unit
    | None => in_i 64 (n * unit) = false \/ in_i 64 (seconds_of dt + n * unit) = false \/
              seconds_of dt + n * unit < MIN_SUPPORTED_TIMESTAMP \/
              MAX_SUPPORTED_TIMESTAMP < seconds_of dt + n * unit
    end.
Proof.
  intros Hv add_to unit Hin.
  assert (add_to = add_then (fun t k => add_units t k unit)) as ->.
  { set_unfold. destruct Hin as [[= -> ->]|[[= -> ->]|[[= -> ->]|[]]]]; reflexivity. }
  unfold add_then. rewrite to_instant_spec by done. cbn [mbind Exec_bind].
  unfold add_units, checked_i. destruct (in_i 64 (n * unit)) eqn:E1;
    [|exists None; split; [done|by left]].
  cbn [mbind option_bind]. destruct (in_i 64 (seconds_of dt + n * unit)) eqn:E2;
    [|exists None; split; [done|by right; left]].
  pose proof (from_instant_cases (seconds_of dt + n * unit)) as [(dt' & -> & Hv' & He)|[-> He]];
    cbn [mbind Exec_bind]; [by exists (Some dt')|].
  exists None. split; [done|]. by right; right.
Qed.

Lemma date_add_exact_witness : exists r, dt_add_days leap_day 1 = Done (Some r) /\
  seconds_of r = seconds_of leap_day + 1 * 86400.
Proof.
  destruct (date_add_exact leap_day 1 ltac:(apply (new_valid 1600 2 29 12 30 59); try lia; reflexivity)
    dt_add_days 86400 ltac:(set_solver)) as (r & Hr & Hm).
  destruct r as [dt'|]; [exists dt'; split; [exact Hr|exact (proj2 Hm)]|].
  exfalso. vm_compute in Hr. discriminate Hr.
Defined.

End TimeTheorems.
