(* ===== verification/AccessController.v ===== *)
(** * The access controller

    The native component that guards an asset with three roles
    (radix-engine/src/blueprints/access_controller/): its state machine
    (v2/state_machine.rs), the blueprint methods around it (v2/blueprint.rs)
    and the roles each method is open to (v2/package.rs), on the clock of
    Time.v.  Access rules are opaque values of a type [Rule]; what the
    role assignment module accepts as a rule is a parameter.  A call that
    returns [Err] fails its transaction. *)

From S2P Require Import Prelude Decimals IndexMap Resource Time.
Import Int Rounding Dec DecSpec LiquidFungible.

Import Time.

(** ** Data *)

Inductive Role : Type := RolePrimary | RoleRecovery | RoleConfirmation.
Inductive Proposer : Type := ProposerPrimary | ProposerRecovery.

#[export] Instance Role_eq_dec : EqDecision Role.
Proof. solve_decision. Defined.

Section Controller.
(** Access rules: what they are does not matter here, only whether two are the
    same, the rule that denies everyone, and which the role assignment module
    accepts. *)
Context {Rule : Type} `{EqDecision Rule} (deny_all : Rule) (rule_accepted : Rule -> bool).

Record RuleSet : Type := {
  primary_role : Rule;
  recovery_role : Rule;
  confirmation_role : Rule
}.

Record RecoveryProposal : Type := {
  rule_set : RuleSet;
  proposed_delay : option Z
}.

#[export] Instance RuleSet_eq_dec : EqDecision RuleSet.
Proof. solve_decision. Defined.
#[export] Instance RecoveryProposal_eq_dec : EqDecision RecoveryProposal.
Proof. solve_decision. Defined.

Inductive PrimaryRoleLockingState : Type := Unlocked | Locked.

Inductive PrimaryRoleRecoveryAttemptState : Type :=
| PNoRecoveryAttempt
| PRecoveryAttempt (proposal : RecoveryProposal).

Inductive BadgeWithdrawAttemptState : Type :=
| NoBadgeWithdrawAttempt
| BadgeWithdrawAttempt.

Inductive RecoveryRoleRecoveryState : Type :=
| UntimedRecovery (proposal : RecoveryProposal)
| TimedRecovery (proposal : RecoveryProposal) (timed_recovery_allowed_after : Instant).

Inductive RecoveryRoleRecoveryAttemptState : Type :=
| RNoRecoveryAttempt
| RRecoveryAttempt (s : RecoveryRoleRecoveryState).

(** The five-component state of the machine. *)
Record MachineState : Type := {
  locking : PrimaryRoleLockingState;
  p_recovery : PrimaryRoleRecoveryAttemptState;
  p_withdraw : BadgeWithdrawAttemptState;
  r_recovery : RecoveryRoleRecoveryAttemptState;
  r_withdraw : BadgeWithdrawAttemptState
}.

Definition default_state : MachineState := {|
  locking := Unlocked; p_recovery := PNoRecoveryAttempt; p_withdraw := NoBadgeWithdrawAttempt;
  r_recovery := RNoRecoveryAttempt; r_withdraw := NoBadgeWithdrawAttempt |}.

(** What the controlled vault holds. *)
Inductive Asset : Type :=
| FungibleAsset (amount : Decimal)
| NonFungibleAsset (ids : list N).

Inductive AssetProof : Type :=
| ProofOfAmount (amount : Decimal)
| ProofOfNonFungibles (ids : list N).

Inductive AccessControllerEvent : Type :=
| InitiateRecoveryEvent (proposer : Proposer) (proposal : RecoveryProposal)
| InitiateBadgeWithdrawAttemptEvent (proposer : Proposer)
| RuleSetUpdateEvent (proposer : Proposer) (proposal : RecoveryProposal)
| BadgeWithdrawEvent (proposer : Proposer)
| CancelRecoveryProposalEvent (proposer : Proposer)
| CancelBadgeWithdrawAttemptEvent (proposer : Proposer)
| LockPrimaryRoleEvent
| UnlockPrimaryRoleEvent
| StopTimedRecoveryEvent
| DepositRecoveryXrdEvent (amount : Decimal)
| WithdrawRecoveryXrdEvent (amount : Decimal).

(** The substate, with the vaults and the role assignment it owns. *)
Record AccessControllerV2 : Type := {
  controlled_asset : Asset;
  xrd_fee_vault : option Decimal;
  timed_recovery_delay_in_minutes : option Z;
  recovery_badges : list N;
  machine : MachineState;
  roles : RuleSet;
  ac_events : list AccessControllerEvent
}.

Inductive AccessControllerError : Type :=
| OperationRequiresUnlockedPrimaryRole
| TimeOverflow
| RecoveryAlreadyExistsForProposer (proposer : Proposer)
| NoRecoveryExistsForProposer (proposer : Proposer)
| BadgeWithdrawAttemptAlreadyExistsForProposer (proposer : Proposer)
| NoBadgeWithdrawAttemptExistsForProposer (proposer : Proposer)
| NoTimedRecoveriesFound
| TimedRecoveryDelayHasNotElapsed
| RecoveryProposalMismatch (expected found : RecoveryProposal)
| NoXrdFeeVault
(* errors of the components it calls *)
| AssetVaultError
| RecoveryBadgeAlreadyExists
| RoleAssignmentError.

Abbreviation AM := (M AccessControllerV2 AccessControllerError) (only parsing).

Definition set_machine (m : MachineState) : AM unit := modify (fun s =>
  {| controlled_asset := controlled_asset s; xrd_fee_vault := xrd_fee_vault s;
     timed_recovery_delay_in_minutes := timed_recovery_delay_in_minutes s;
     recovery_badges := recovery_badges s; machine := m; roles := roles s;
     ac_events := ac_events s |}).
Definition set_asset (a : Asset) : AM unit := modify (fun s =>
  {| controlled_asset := a; xrd_fee_vault := xrd_fee_vault s;
     timed_recovery_delay_in_minutes := timed_recovery_delay_in_minutes s;
     recovery_badges := recovery_badges s; machine := machine s; roles := roles s;
     ac_events := ac_events s |}).
Definition set_roles (r : RuleSet) : AM unit := modify (fun s =>
  {| controlled_asset := controlled_asset s; xrd_fee_vault := xrd_fee_vault s;
     timed_recovery_delay_in_minutes := timed_recovery_delay_in_minutes s;
     recovery_badges := recovery_badges s; machine := machine s; roles := r;
     ac_events := ac_events s |}).
Definition set_fee_vault (v : option Decimal) : AM unit := modify (fun s =>
  {| controlled_asset := controlled_asset s; xrd_fee_vault := v;
     timed_recovery_delay_in_minutes := timed_recovery_delay_in_minutes s;
     recovery_badges := recovery_badges s; machine := machine s; roles := roles s;
     ac_events := ac_events s |}).
Definition add_badges (ids : list N) : AM unit := modify (fun s =>
  {| controlled_asset := controlled_asset s; xrd_fee_vault := xrd_fee_vault s;
     timed_recovery_delay_in_minutes := timed_recovery_delay_in_minutes s;
     recovery_badges := recovery_badges s ++ ids; machine := machine s; roles := roles s;
     ac_events := ac_events s |}).
Definition emit_event (e : AccessControllerEvent) : AM unit := modify (fun s =>
  {| controlled_asset := controlled_asset s; xrd_fee_vault := xrd_fee_vault s;
     timed_recovery_delay_in_minutes := timed_recovery_delay_in_minutes s;
     recovery_badges := recovery_badges s; machine := machine s; roles := roles s;
     ac_events := ac_events s ++ [e] |}).

Definition with_p_recovery (m : MachineState) (x : PrimaryRoleRecoveryAttemptState) :=
  {| locking := locking m; p_recovery := x; p_withdraw := p_withdraw m;
     r_recovery := r_recovery m; r_withdraw := r_withdraw m |}.
Definition with_p_withdraw (m : MachineState) (x : BadgeWithdrawAttemptState) :=
  {| locking := locking m; p_recovery := p_recovery m; p_withdraw := x;
     r_recovery := r_recovery m; r_withdraw := r_withdraw m |}.
Definition with_r_recovery (m : MachineState) (x : RecoveryRoleRecoveryAttemptState) :=
  {| locking := locking m; p_recovery := p_recovery m; p_withdraw := p_withdraw m;
     r_recovery := x; r_withdraw := r_withdraw m |}.
Definition with_r_withdraw (m : MachineState) (x : BadgeWithdrawAttemptState) :=
  {| locking := locking m; p_recovery := p_recovery m; p_withdraw := p_withdraw m;
     r_recovery := r_recovery m; r_withdraw := x |}.
Definition with_locking (m : MachineState) (x : PrimaryRoleLockingState) :=
  {| locking := x; p_recovery := p_recovery m; p_withdraw := p_withdraw m;
     r_recovery := r_recovery m; r_withdraw := r_withdraw m |}.

(** ** The state machine *)

Definition validate_recovery_proposal (expected actual : RecoveryProposal) :
    Result AccessControllerError unit :=
  if decide (expected = actual) then Ok tt else Err (RecoveryProposalMismatch expected actual).

(** A proof of everything in the vault; there is no proof of nothing. *)
Definition transition_create_proof : AM AssetProof :=
  s ← gets id;
  match locking (machine s) with
  | Unlocked =>
      match controlled_asset s with
      | FungibleAsset a => if is_zero a then throw AssetVaultError else mret (ProofOfAmount a)
      | NonFungibleAsset [] => throw AssetVaultError
      | NonFungibleAsset ids => mret (ProofOfNonFungibles ids)
      end
  | Locked => throw OperationRequiresUnlockedPrimaryRole
  end.

Definition transition_initiate_recovery_as_primary (proposal : RecoveryProposal) : AM unit :=
  s ← gets id;
  match p_recovery (machine s) with
  | PNoRecoveryAttempt => set_machine (with_p_recovery (machine s) (PRecoveryAttempt proposal))
  | _ => throw (RecoveryAlreadyExistsForProposer ProposerPrimary)
  end.

Definition transition_initiate_recovery_as_recovery (epoch_minute : Z)
    (proposal : RecoveryProposal) : AM unit :=
  s ← gets id;
  match r_recovery (machine s) with
  | RNoRecoveryAttempt =>
      match timed_recovery_delay_in_minutes s with
      | Some delay_in_minutes =>
          let current_time := get_current_time epoch_minute in
          timed_recovery_allowed_after ←
            lift_result (ok_or (add_minutes current_time delay_in_minutes) TimeOverflow);
          set_machine (with_r_recovery (machine s)
            (RRecoveryAttempt (TimedRecovery proposal timed_recovery_allowed_after)))
      | None =>
          set_machine (with_r_recovery (machine s) (RRecoveryAttempt (UntimedRecovery proposal)))
      end
  | _ => throw (RecoveryAlreadyExistsForProposer ProposerRecovery)
  end.

Definition transition_initiate_badge_withdraw_attempt_as_primary : AM unit :=
  s ← gets id;
  match p_withdraw (machine s) with
  | NoBadgeWithdrawAttempt => set_machine (with_p_withdraw (machine s) BadgeWithdrawAttempt)
  | _ => throw (BadgeWithdrawAttemptAlreadyExistsForProposer ProposerPrimary)
  end.

(** The error is the one of recoveries, as in the source. *)
Definition transition_initiate_badge_withdraw_attempt_as_recovery : AM unit :=
  s ← gets id;
  match r_withdraw (machine s) with
  | NoBadgeWithdrawAttempt => set_machine (with_r_withdraw (machine s) BadgeWithdrawAttempt)
  | _ => throw (RecoveryAlreadyExistsForProposer ProposerRecovery)
  end.

Definition transition_quick_confirm_primary_role_recovery_proposal
    (proposal_to_confirm : RecoveryProposal) : AM RecoveryProposal :=
  s ← gets id;
  match p_recovery (machine s) with
  | PRecoveryAttempt proposal =>
      lift_result (validate_recovery_proposal proposal proposal_to_confirm);;
      set_machine default_state;;
      mret proposal
  | _ => throw (NoRecoveryExistsForProposer ProposerPrimary)
  end.

Definition transition_quick_confirm_recovery_role_recovery_proposal
    (proposal_to_confirm : RecoveryProposal) : AM RecoveryProposal :=
  s ← gets id;
  match r_recovery (machine s) with
  | RRecoveryAttempt (UntimedRecovery proposal)
  | RRecoveryAttempt (TimedRecovery proposal _) =>
      lift_result (validate_recovery_proposal proposal proposal_to_confirm);;
      set_machine default_state;;
      mret proposal
  | _ => throw (NoRecoveryExistsForProposer ProposerRecovery)
  end.

(** [Vault::take_all]: the vault is left empty. *)
Definition take_all : AM Asset :=
  a ← gets controlled_asset;
  set_asset (match a with FungibleAsset _ => FungibleAsset ZERO
             | NonFungibleAsset _ => NonFungibleAsset [] end);;
  mret a.

Definition transition_quick_confirm_primary_role_badge_withdraw_attempt : AM Asset :=
  s ← gets id;
  match p_withdraw (machine s) with
  | BadgeWithdrawAttempt => set_machine default_state;; take_all
  | _ => throw (NoBadgeWithdrawAttemptExistsForProposer ProposerPrimary)
  end.

Definition transition_quick_confirm_recovery_role_badge_withdraw_attempt : AM Asset :=
  s ← gets id;
  match r_withdraw (machine s) with
  | BadgeWithdrawAttempt => set_machine default_state;; take_all
  | _ => throw (NoBadgeWithdrawAttemptExistsForProposer ProposerRecovery)
  end.

Definition transition_timed_confirm_recovery (epoch_minute : Z)
    (proposal_to_confirm : RecoveryProposal) : AM RecoveryProposal :=
  s ← gets id;
  match r_recovery (machine s) with
  | RRecoveryAttempt (TimedRecovery proposal timed_recovery_allowed_after) =>
      lift_result (validate_recovery_proposal proposal proposal_to_confirm);;
      let recovery_time_has_elapsed :=
        compare_current_time epoch_minute timed_recovery_allowed_after TGte in
      if negb recovery_time_has_elapsed then throw TimedRecoveryDelayHasNotElapsed
      else set_machine default_state;; mret proposal
  | _ => throw NoTimedRecoveriesFound
  end.

Definition transition_cancel_primary_role_recovery_proposal : AM unit :=
  s ← gets id;
  match p_recovery (machine s) with
  | PRecoveryAttempt _ => set_machine (with_p_recovery (machine s) PNoRecoveryAttempt)
  | _ => throw (NoRecoveryExistsForProposer ProposerPrimary)
  end.

Definition transition_cancel_recovery_role_recovery_proposal : AM unit :=
  s ← gets id;
  match r_recovery (machine s) with
  | RRecoveryAttempt _ => set_machine (with_r_recovery (machine s) RNoRecoveryAttempt)
  | _ => throw (NoRecoveryExistsForProposer ProposerRecovery)
  end.

Definition transition_cancel_primary_role_badge_withdraw_attempt : AM unit :=
  s ← gets id;
  match p_withdraw (machine s) with
  | BadgeWithdrawAttempt => set_machine (with_p_withdraw (machine s) NoBadgeWithdrawAttempt)
  | _ => throw (NoBadgeWithdrawAttemptExistsForProposer ProposerPrimary)
  end.

Definition transition_cancel_recovery_role_badge_withdraw_attempt : AM unit :=
  s ← gets id;
  match r_withdraw (machine s) with
  | BadgeWithdrawAttempt => set_machine (with_r_withdraw (machine s) NoBadgeWithdrawAttempt)
  | _ => throw (NoBadgeWithdrawAttemptExistsForProposer ProposerRecovery)
  end.

Definition transition_lock_primary_role : AM unit :=
  s ← gets id;
  match locking (machine s) with
  | Unlocked => set_machine (with_locking (machine s) Locked)
  | Locked => mret tt
  end.

Definition transition_unlock_primary_role : AM unit :=
  s ← gets id;
  match locking (machine s) with
  | Locked => set_machine (with_locking (machine s) Unlocked)
  | Unlocked => mret tt
  end.

Definition transition_stop_timed_recovery (stop : RecoveryProposal) : AM unit :=
  s ← gets id;
  match r_recovery (machine s) with
  | RRecoveryAttempt (TimedRecovery proposal _) =>
      lift_result (validate_recovery_proposal proposal stop);;
      set_machine (with_r_recovery (machine s) (RRecoveryAttempt (UntimedRecovery proposal)))
  | _ => throw NoTimedRecoveriesFound
  end.

(** ** The blueprint *)

Definition locked_role_assignment : RuleSet :=
  {| primary_role := deny_all; recovery_role := deny_all; confirmation_role := deny_all |}.

(** Three [set_role] calls, each refusing a rule that is not accepted. *)
Definition update_role_assignment (r : RuleSet) : AM unit :=
  guard_or (rule_accepted (primary_role r)) RoleAssignmentError;;
  guard_or (rule_accepted (recovery_role r)) RoleAssignmentError;;
  guard_or (rule_accepted (confirmation_role r)) RoleAssignmentError;;
  set_roles r.

(** [AccessControllerV2Substate::new] in [create]. *)
Definition create (asset : Asset) (delay : option Z) (r : RuleSet) : AccessControllerV2 := {|
  controlled_asset := asset; xrd_fee_vault := None; timed_recovery_delay_in_minutes := delay;
  recovery_badges := []; machine := default_state; roles := r; ac_events := [] |}.

Definition create_proof : AM AssetProof := transition_create_proof.

Definition initiate_recovery_as_primary (p : RecoveryProposal) : AM unit :=
  transition_initiate_recovery_as_primary p;;
  emit_event (InitiateRecoveryEvent ProposerPrimary p).

Definition initiate_recovery_as_recovery (now : Z) (p : RecoveryProposal) : AM unit :=
  transition_initiate_recovery_as_recovery now p;;
  emit_event (InitiateRecoveryEvent ProposerRecovery p).

Definition initiate_badge_withdraw_attempt_as_primary : AM unit :=
  transition_initiate_badge_withdraw_attempt_as_primary;;
  emit_event (InitiateBadgeWithdrawAttemptEvent ProposerPrimary).

Definition initiate_badge_withdraw_attempt_as_recovery : AM unit :=
  transition_initiate_badge_withdraw_attempt_as_recovery;;
  emit_event (InitiateBadgeWithdrawAttemptEvent ProposerRecovery).

Definition quick_confirm_primary_role_recovery_proposal (p : RecoveryProposal) : AM unit :=
  q ← transition_quick_confirm_primary_role_recovery_proposal p;
  update_role_assignment (rule_set q);;
  emit_event (RuleSetUpdateEvent ProposerPrimary p).

Definition quick_confirm_recovery_role_recovery_proposal (p : RecoveryProposal) : AM unit :=
  q ← transition_quick_confirm_recovery_role_recovery_proposal p;
  update_role_assignment (rule_set q);;
  emit_event (RuleSetUpdateEvent ProposerRecovery p).

Definition quick_confirm_primary_role_badge_withdraw_attempt : AM Asset :=
  bucket ← transition_quick_confirm_primary_role_badge_withdraw_attempt;
  update_role_assignment locked_role_assignment;;
  emit_event (BadgeWithdrawEvent ProposerPrimary);;
  mret bucket.

Definition quick_confirm_recovery_role_badge_withdraw_attempt : AM Asset :=
  bucket ← transition_quick_confirm_recovery_role_badge_withdraw_attempt;
  update_role_assignment locked_role_assignment;;
  emit_event (BadgeWithdrawEvent ProposerRecovery);;
  mret bucket.

Definition timed_confirm_recovery (now : Z) (p : RecoveryProposal) : AM unit :=
  q ← transition_timed_confirm_recovery now p;
  update_role_assignment (rule_set q);;
  emit_event (RuleSetUpdateEvent ProposerRecovery p).

Definition cancel_primary_role_recovery_proposal : AM unit :=
  transition_cancel_primary_role_recovery_proposal;;
  emit_event (CancelRecoveryProposalEvent ProposerPrimary).

Definition cancel_recovery_role_recovery_proposal : AM unit :=
  transition_cancel_recovery_role_recovery_proposal;;
  emit_event (CancelRecoveryProposalEvent ProposerRecovery).

Definition cancel_primary_role_badge_withdraw_attempt : AM unit :=
  transition_cancel_primary_role_badge_withdraw_attempt;;
  emit_event (CancelBadgeWithdrawAttemptEvent ProposerPrimary).

Definition cancel_recovery_role_badge_withdraw_attempt : AM unit :=
  transition_cancel_recovery_role_badge_withdraw_attempt;;
  emit_event (CancelBadgeWithdrawAttemptEvent ProposerRecovery).

Definition lock_primary_role : AM unit :=
  transition_lock_primary_role;; emit_event LockPrimaryRoleEvent.

Definition unlock_primary_role : AM unit :=
  transition_unlock_primary_role;; emit_event UnlockPrimaryRoleEvent.

Definition stop_timed_recovery (p : RecoveryProposal) : AM unit :=
  transition_stop_timed_recovery p;; emit_event StopTimedRecoveryEvent.

(** The badges are integer ids, and the resource manager refuses to mint one
    that exists. *)
Definition mint_recovery_badges (ids : list N) : AM unit :=
  s ← gets id;
  guard_or (forallb (fun i => negb (bool_decide (i ∈ recovery_badges s))) ids)
    RecoveryBadgeAlreadyExists;;
  add_badges ids.

(** RORK has divisibility 18: an amount is refused only when negative. *)
Definition take_xrd (v amount : Decimal) : AM Decimal :=
  guard_or (check_fungible_amount amount 18) AssetVaultError;;
  match liquid_take_by_amount (Id := Empty_set) v amount with
  | Ok (rest, _) => mret rest
  | Err _ => throw AssetVaultError
  end.

(** [start] is whether the system starts locking a fee, that is, whether the
    transaction pays for its costs. *)
Definition lock_recovery_fee (start : bool) (amount : Decimal) : AM unit :=
  s ← gets id;
  match xrd_fee_vault s with
  | None => throw NoXrdFeeVault
  | Some v =>
      guard_or (check_fungible_amount amount 18) AssetVaultError;;
      if start then rest ← take_xrd v amount; set_fee_vault (Some rest) else mret tt
  end.

Definition withdraw_recovery_fee (amount : Decimal) : AM Decimal :=
  emit_event (WithdrawRecoveryXrdEvent amount);;
  s ← gets id;
  match xrd_fee_vault s with
  | None => throw NoXrdFeeVault
  | Some v => rest ← take_xrd v amount; set_fee_vault (Some rest);; mret amount
  end.

Definition contribute_recovery_fee (amount : Decimal) : AM unit :=
  emit_event (DepositRecoveryXrdEvent amount);;
  s ← gets id;
  b ← lift_exec (liquid_put (default ZERO (xrd_fee_vault s)) amount);
  set_fee_vault (Some b).

(** ** Calls and the roles they are open to *)

Inductive Call : Type :=
| CreateProof
| InitiateRecoveryAsPrimary (p : RecoveryProposal)
| InitiateRecoveryAsRecovery (p : RecoveryProposal)
| InitiateBadgeWithdrawAsPrimary
| InitiateBadgeWithdrawAsRecovery
| QuickConfirmPrimaryRecovery (p : RecoveryProposal)
| QuickConfirmRecoveryRecovery (p : RecoveryProposal)
| QuickConfirmPrimaryBadgeWithdraw
| QuickConfirmRecoveryBadgeWithdraw
| TimedConfirmRecovery (p : RecoveryProposal)
| CancelPrimaryRecovery
| CancelRecoveryRecovery
| CancelPrimaryBadgeWithdraw
| CancelRecoveryBadgeWithdraw
| LockPrimaryRole
| UnlockPrimaryRole
| StopTimedRecovery (p : RecoveryProposal)
| MintRecoveryBadges (ids : list N)
| LockRecoveryFee (start : bool) (amount : Decimal)
| WithdrawRecoveryFee (amount : Decimal)
| ContributeRecoveryFee (amount : Decimal).

(** The [method_auth] table of the package: [None] is public. *)
Definition accessible (c : Call) : option (list Role) :=
  match c with
  | TimedConfirmRecovery _ | ContributeRecoveryFee _ => None
  | CreateProof | InitiateRecoveryAsPrimary _ | CancelPrimaryRecovery
  | InitiateBadgeWithdrawAsPrimary | CancelPrimaryBadgeWithdraw
  | WithdrawRecoveryFee _ => Some [RolePrimary]
  | InitiateRecoveryAsRecovery _ | CancelRecoveryRecovery
  | InitiateBadgeWithdrawAsRecovery | CancelRecoveryBadgeWithdraw
  | LockPrimaryRole | UnlockPrimaryRole => Some [RoleRecovery]
  | QuickConfirmPrimaryRecovery _ | QuickConfirmPrimaryBadgeWithdraw =>
      Some [RoleRecovery; RoleConfirmation]
  | QuickConfirmRecoveryRecovery _ | QuickConfirmRecoveryBadgeWithdraw =>
      Some [RolePrimary; RoleConfirmation]
  | MintRecoveryBadges _ => Some [RolePrimary; RoleRecovery]
  | StopTimedRecovery _ | LockRecoveryFee _ _ =>
      Some [RolePrimary; RoleConfirmation; RoleRecovery]
  end.

Definition may_call (r : Role) (c : Call) : bool :=
  match accessible c with
  | None => true
  | Some l => bool_decide (r ∈ l)
  end.

Definition ignore {A} (m : AM A) : AM unit := m ≫= fun _ => mret tt.

Definition run_call (now : Z) (c : Call) : AM unit :=
  match c with
  | CreateProof => ignore create_proof
  | InitiateRecoveryAsPrimary p => initiate_recovery_as_primary p
  | InitiateRecoveryAsRecovery p => initiate_recovery_as_recovery now p
  | InitiateBadgeWithdrawAsPrimary => initiate_badge_withdraw_attempt_as_primary
  | InitiateBadgeWithdrawAsRecovery => initiate_badge_withdraw_attempt_as_recovery
  | QuickConfirmPrimaryRecovery p => quick_confirm_primary_role_recovery_proposal p
  | QuickConfirmRecoveryRecovery p => quick_confirm_recovery_role_recovery_proposal p
  | QuickConfirmPrimaryBadgeWithdraw => ignore quick_confirm_primary_role_badge_withdraw_attempt
  | QuickConfirmRecoveryBadgeWithdraw => ignore quick_confirm_recovery_role_badge_withdraw_attempt
  | TimedConfirmRecovery p => timed_confirm_recovery now p
  | CancelPrimaryRecovery => cancel_primary_role_recovery_proposal
  | CancelRecoveryRecovery => cancel_recovery_role_recovery_proposal
  | CancelPrimaryBadgeWithdraw => cancel_primary_role_badge_withdraw_attempt
  | CancelRecoveryBadgeWithdraw => cancel_recovery_role_badge_withdraw_attempt
  | LockPrimaryRole => lock_primary_role
  | UnlockPrimaryRole => unlock_primary_role
  | StopTimedRecovery p => stop_timed_recovery p
  | MintRecoveryBadges ids => mint_recovery_badges ids
  | LockRecoveryFee start a => lock_recovery_fee start a
  | WithdrawRecoveryFee a => ignore (withdraw_recovery_fee a)
  | ContributeRecoveryFee a => contribute_recovery_fee a
  end.

(** Histories of successful calls, each at its time (in epoch minutes). *)
Inductive history (s0 : AccessControllerV2) :
    list (Z * Role * Call) -> AccessControllerV2 -> Prop :=
| hist_nil : history s0 [] s0
| hist_snoc tr s now r c s' :
    history s0 tr s -> may_call r c = true -> run_call now c s = Done (Ok tt, s') ->
    history s0 (tr ++ [(now, r, c)]) s'.

End Controller.

(** ** What a successful call did *)
Module ControllerSteps.
Section Steps.
Context {Rule : Type} `{EqDecision Rule} (deny_all : Rule) (rule_accepted : Rule -> bool).
Implicit Types (s : AccessControllerV2 (Rule := Rule)) (c : Call (Rule := Rule)).

Local Abbreviation run := (run_call deny_all rule_accepted).

(** The proposal of a pending recovery of the recovery role. *)
Definition pending_proposal (x : RecoveryRoleRecoveryAttemptState (Rule := Rule)) :=
  match x with
  | RNoRecoveryAttempt => None
  | RRecoveryAttempt (UntimedRecovery p) | RRecoveryAttempt (TimedRecovery p _) => Some p
  end.

Definition emptied (a : Asset) : Asset :=
  match a with FungibleAsset _ => FungibleAsset 0 | NonFungibleAsset _ => NonFungibleAsset [] end.

(** Guard and effect of each call on the machine, the roles and the asset. *)
Definition effect (now : Z) c s s' : Prop :=
  let m := machine s in
  match c with
  | InitiateRecoveryAsPrimary p =>
      p_recovery m = PNoRecoveryAttempt /\
      machine s' = with_p_recovery m (PRecoveryAttempt p) /\ roles s' = roles s /\
      controlled_asset s' = controlled_asset s
  | InitiateRecoveryAsRecovery p =>
      r_recovery m = RNoRecoveryAttempt /\
      machine s' = with_r_recovery m (RRecoveryAttempt
        match timed_recovery_delay_in_minutes s with
        | None => UntimedRecovery p
        | Some d => TimedRecovery p ((now + d) * 60)
        end) /\
      (forall d, timed_recovery_delay_in_minutes s = Some d -> in_i 64 ((now + d) * 60) = true) /\
      roles s' = roles s /\ controlled_asset s' = controlled_asset s
  | InitiateBadgeWithdrawAsPrimary =>
      p_withdraw m = NoBadgeWithdrawAttempt /\
      machine s' = with_p_withdraw m BadgeWithdrawAttempt /\ roles s' = roles s /\
      controlled_asset s' = controlled_asset s
  | InitiateBadgeWithdrawAsRecovery =>
      r_withdraw m = NoBadgeWithdrawAttempt /\
      machine s' = with_r_withdraw m BadgeWithdrawAttempt /\ roles s' = roles s /\
      controlled_asset s' = controlled_asset s
  | QuickConfirmPrimaryRecovery p =>
      p_recovery m = PRecoveryAttempt p /\ machine s' = default_state /\
      roles s' = rule_set p /\ controlled_asset s' = controlled_asset s
  | QuickConfirmRecoveryRecovery p =>
      pending_proposal (r_recovery m) = Some p /\ machine s' = default_state /\
      roles s' = rule_set p /\ controlled_asset s' = controlled_asset s
  | TimedConfirmRecovery p =>
      (exists after, r_recovery m = RRecoveryAttempt (TimedRecovery p after) /\
         compare_current_time now after TGte = true) /\
      machine s' = default_state /\ roles s' = rule_set p /\
      controlled_asset s' = controlled_asset s
  | QuickConfirmPrimaryBadgeWithdraw =>
      p_withdraw m = BadgeWithdrawAttempt /\ machine s' = default_state /\
      roles s' = locked_role_assignment deny_all /\
      controlled_asset s' = emptied (controlled_asset s)
  | QuickConfirmRecoveryBadgeWithdraw =>
      r_withdraw m = BadgeWithdrawAttempt /\ machine s' = default_state /\
      roles s' = locked_role_assignment deny_all /\
      controlled_asset s' = emptied (controlled_asset s)
  | CancelPrimaryRecovery =>
      (exists p, p_recovery m = PRecoveryAttempt p) /\
      machine s' = with_p_recovery m PNoRecoveryAttempt /\ roles s' = roles s /\
      controlled_asset s' = controlled_asset s
  | CancelRecoveryRecovery =>
      (exists x, r_recovery m = RRecoveryAttempt x) /\
      machine s' = with_r_recovery m RNoRecoveryAttempt /\ roles s' = roles s /\
      controlled_asset s' = controlled_asset s
  | CancelPrimaryBadgeWithdraw =>
      p_withdraw m = BadgeWithdrawAttempt /\
      machine s' = with_p_withdraw m NoBadgeWithdrawAttempt /\ roles s' = roles s /\
      controlled_asset s' = controlled_asset s
  | CancelRecoveryBadgeWithdraw =>
      r_withdraw m = BadgeWithdrawAttempt /\
      machine s' = with_r_withdraw m NoBadgeWithdrawAttempt /\ roles s' = roles s /\
      controlled_asset s' = controlled_asset s
  | LockPrimaryRole =>
      machine s' = with_locking m Locked /\ roles s' = roles s /\
      controlled_asset s' = controlled_asset s
  | UnlockPrimaryRole =>
      machine s' = with_locking m Unlocked /\ roles s' = roles s /\
      controlled_asset s' = controlled_asset s
  | StopTimedRecovery p =>
      (exists after, r_recovery m = RRecoveryAttempt (TimedRecovery p after)) /\
      machine s' = with_r_recovery m (RRecoveryAttempt (UntimedRecovery p)) /\
      roles s' = roles s /\ controlled_asset s' = controlled_asset s
  | CreateProof => locking m = Unlocked /\ s' = s
  | MintRecoveryBadges _ | LockRecoveryFee _ _ | WithdrawRecoveryFee _ | ContributeRecoveryFee _ =>
      machine s' = m /\ roles s' = roles s /\ controlled_asset s' = controlled_asset s
  end.

Lemma validate_Ok (p q : RecoveryProposal (Rule := Rule)) :
  validate_recovery_proposal p q = Ok tt -> p = q.
Proof. unfold validate_recovery_proposal. by destruct (decide (p = q)). Qed.

Lemma add_minutes_Some now d t :
  add_minutes (get_current_time now) d = Some t ->
  t = (now + d) * 60 /\ in_i 64 ((now + d) * 60) = true.
Proof.
  unfold add_minutes, add_units, get_current_time, epoch_minute_to_instant, SECONDS_IN_A_MINUTE.
  destruct (checked_i 64 (d * 60)) as [x|] eqn:E; [|done]. cbn [mbind option_bind].
  apply checked_i_Some in E as [-> _]. intros [-> Hr]%checked_i_Some.
  replace ((now + d) * 60) with (now * 60 + d * 60) by lia. split; [done|]. by apply in_i_spec.
Qed.

Lemma run_call_effect now c s s' :
  run now c s = Done (Ok tt, s') ->
  timed_recovery_delay_in_minutes s' = timed_recovery_delay_in_minutes s /\ effect now c s s'.
Proof.
  enough (wlp (run now c) s (fun _ s' =>
    timed_recovery_delay_in_minutes s' = timed_recovery_delay_in_minutes s /\
    effect now c s s')) as H by exact (wlp_run _ _ _ _ _ H).
  destruct c; cbn [run_call effect];
    unfold ignore, create_proof, transition_create_proof, initiate_recovery_as_primary,
      transition_initiate_recovery_as_primary, initiate_recovery_as_recovery,
      transition_initiate_recovery_as_recovery, initiate_badge_withdraw_attempt_as_primary,
      transition_initiate_badge_withdraw_attempt_as_primary,
      initiate_badge_withdraw_attempt_as_recovery,
      transition_initiate_badge_withdraw_attempt_as_recovery,
      quick_confirm_primary_role_recovery_proposal,
      transition_quick_confirm_primary_role_recovery_proposal,
      quick_confirm_recovery_role_recovery_proposal,
      transition_quick_confirm_recovery_role_recovery_proposal,
      quick_confirm_primary_role_badge_withdraw_attempt,
      transition_quick_confirm_primary_role_badge_withdraw_attempt,
      quick_confirm_recovery_role_badge_withdraw_attempt,
      transition_quick_confirm_recovery_role_badge_withdraw_attempt,
      timed_confirm_recovery, transition_timed_confirm_recovery,
      cancel_primary_role_recovery_proposal, transition_cancel_primary_role_recovery_proposal,
      cancel_recovery_role_recovery_proposal, transition_cancel_recovery_role_recovery_proposal,
      cancel_primary_role_badge_withdraw_attempt,
      transition_cancel_primary_role_badge_withdraw_attempt,
      cancel_recovery_role_badge_withdraw_attempt,
      transition_cancel_recovery_role_badge_withdraw_attempt,
      lock_primary_role, transition_lock_primary_role, unlock_primary_role,
      transition_unlock_primary_role, stop_timed_recovery, transition_stop_timed_recovery,
      mint_recovery_badges, lock_recovery_fee, withdraw_recovery_fee, contribute_recovery_fee,
      take_xrd, take_all, update_role_assignment, set_machine, set_asset, set_roles,
      set_fee_vault, add_badges, emit_event;
    wlp_steps; cbn -[compare_current_time add_minutes] in *.
  all: repeat match goal with
    | H : validate_recovery_proposal _ _ = Ok ?u |- _ =>
        destruct u; apply validate_Ok in H; subst
    | H : ok_or (add_minutes _ _) _ = Ok _ |- _ => apply ok_or_Ok, add_minutes_Some in H as [-> ?]
    | H : timed_recovery_delay_in_minutes _ = _ |- _ => rewrite H; clear H
    | H : r_recovery (machine _) = _ |- _ => rewrite H; clear H
    end.
  all: (split; [reflexivity|]).
  all: repeat match goal with |- _ /\ _ => split end.
  all: try reflexivity.
  all: try assumption.
  all: try (eexists; reflexivity).
  all: try (eexists; eassumption).
  all: try (intros ? [= <-]; assumption).
  all: try (match goal with |- machine ?x = _ => by destruct (machine x); cbn in *; subst end).
  eexists; split; [reflexivity|]. by apply negb_false_iff.
Qed.

(** ** Provenance of pending attempts *)

Abbreviation Trace := (list (Z * Role * Call (Rule := Rule))) (only parsing).

(** Times the clock can be at: nonnegative and below the last minute. *)
Definition clock_ok (now : Z) : Prop := 0 <= now < i_max 32.
Definition times_ok (tr : Trace) : Prop := Forall (fun e => clock_ok e.1.1) tr.

(** Whatever is pending was initiated by an earlier call of its proposer, and a
    timed recovery allows confirmation the configured delay after that. *)
Record pending_ok (delay : option Z) (tr : Trace) s : Prop := {
  ok_delay : timed_recovery_delay_in_minutes s = delay;
  ok_p_recovery : forall p, p_recovery (machine s) = PRecoveryAttempt p ->
    exists t, (t, RolePrimary, InitiateRecoveryAsPrimary p) ∈ tr;
  ok_p_withdraw : p_withdraw (machine s) = BadgeWithdrawAttempt ->
    exists t, (t, RolePrimary, InitiateBadgeWithdrawAsPrimary) ∈ tr;
  ok_r_recovery : forall p, pending_proposal (r_recovery (machine s)) = Some p ->
    exists t, (t, RoleRecovery, InitiateRecoveryAsRecovery p) ∈ tr;
  ok_r_withdraw : r_withdraw (machine s) = BadgeWithdrawAttempt ->
    exists t, (t, RoleRecovery, InitiateBadgeWithdrawAsRecovery) ∈ tr;
  ok_timed : forall p after, r_recovery (machine s) = RRecoveryAttempt (TimedRecovery p after) ->
    exists t d, (t, RoleRecovery, InitiateRecoveryAsRecovery p) ∈ tr /\
      delay = Some d /\ after = (t + d) * 60 /\ in_i 64 ((t + d) * 60) = true
}.

Lemma elem_snoc_l {A} (x y : A) l : x ∈ l -> x ∈ l ++ [y].
Proof. rewrite elem_of_app. by left. Qed.
Lemma elem_snoc_r {A} (x : A) l : x ∈ l ++ [x].
Proof. rewrite elem_of_app, list_elem_of_singleton. by right. Qed.
Hint Resolve elem_snoc_l elem_snoc_r : core.

Lemma may_call_primary r c : accessible c = Some [RolePrimary] -> may_call r c = true -> r = RolePrimary.
Proof. unfold may_call. intros ->. rewrite bool_decide_eq_true, list_elem_of_singleton. done. Qed.
Lemma may_call_recovery r c : accessible c = Some [RoleRecovery] -> may_call r c = true -> r = RoleRecovery.
Proof. unfold may_call. intros ->. rewrite bool_decide_eq_true, list_elem_of_singleton. done. Qed.

(** A later call only adds to the trace. *)
Lemma pending_ok_mono delay tr e s : pending_ok delay tr s -> pending_ok delay (tr ++ [e]) s.
Proof.
  intros [Hd H1 H2 H3 H4 H5]. split; [done|..].
  - intros p [t ?]%H1. eauto.
  - intros [t ?]%H2. eauto.
  - intros p [t ?]%H3. eauto.
  - intros [t ?]%H4. eauto.
  - intros p a (t & d & ? & ?)%H5. eauto.
Qed.

(** [pending_ok] only reads the machine and the delay. *)
Lemma pending_ok_ext delay tr s s' :
  machine s' = machine s -> timed_recovery_delay_in_minutes s' = timed_recovery_delay_in_minutes s ->
  pending_ok delay tr s -> pending_ok delay tr s'.
Proof. intros Hm Hd []. split; rewrite ?Hm, ?Hd; assumption. Qed.

Lemma pending_ok_default delay tr s :
  machine s = default_state -> timed_recovery_delay_in_minutes s = delay -> pending_ok delay tr s.
Proof. intros Hm Hd. split; rewrite ?Hm; cbn; done. Qed.

Lemma pending_ok_step delay tr s now r c s' :
  pending_ok delay tr s -> may_call r c = true -> run now c s = Done (Ok tt, s') ->
  pending_ok delay (tr ++ [(now, r, c)]) s'.
Proof.
  intros Hok%(pending_ok_mono _ _ (now, r, c)) Hmay [Hdelay He]%run_call_effect.
  destruct c; cbn [effect] in He; destruct_and?;
    try (by eapply pending_ok_ext);
    try (apply pending_ok_default; [done|by rewrite Hdelay, (ok_delay _ _ _ Hok)]);
    subst; try done;
    destruct Hok as [Hd Hpr Hpw Hrr Hrw Ht];
    try (apply may_call_primary in Hmay as ->; [|reflexivity]);
    try (apply may_call_recovery in Hmay as ->; [|reflexivity]).
  all: match goal with Hm : machine _ = _ |- _ =>
    split; rewrite ?Hdelay, ?Hm; cbn; [done|..]; try done; try assumption end.
  all: try (intros ? [= ->]; by eauto).
  all: eauto.
  - intros q. destruct (timed_recovery_delay_in_minutes s); intros [= ->]; eauto.
  - intros q a. destruct (timed_recovery_delay_in_minutes s) as [d|] eqn:E; intros [= <- <-].
    exists now, d. split_and!; eauto.
  - intros q [= <-]. match goal with Hx : exists _, r_recovery _ = _ |- _ => destruct Hx as [a Hra] end.
    apply Hrr. by rewrite Hra.
Qed.

Lemma history_pending_ok asset delay rules tr s :
  history deny_all rule_accepted (create asset delay rules) tr s -> pending_ok delay tr s.
Proof.
  induction 1 as [|tr s now r c s' _ IH Hmay Hrun]; [by apply pending_ok_default|].
  by eapply pending_ok_step.
Qed.

Lemma history_snoc_inv s0 tr now r c s' :
  history deny_all rule_accepted s0 (tr ++ [(now, r, c)]) s' ->
  exists s, history deny_all rule_accepted s0 tr s /\ may_call r c = true /\
    run now c s = Done (Ok tt, s').
Proof.
  intros Hh. inversion Hh as [Hnil|tr' s n' r' c' s'' Hh' Hm Hr Heq]; subst.
  - by destruct tr.
  - apply app_inj_tail in Heq as [-> [= -> -> ->]]. eauto.
Qed.

(** ** Who can change what *)

(** What a call did to the rules and the asset. *)
Inductive control_change (tr : Trace) (delay : option Z) (now : Z) (r : Role) s s' : Prop :=
| change_none :
    roles s' = roles s -> controlled_asset s' = controlled_asset s ->
    control_change tr delay now r s s'
| change_two_roles t1 r1 c1 p :
    (t1, r1, c1) ∈ tr -> c1 = InitiateRecoveryAsPrimary p \/ c1 = InitiateRecoveryAsRecovery p ->
    r1 <> r -> roles s' = rule_set p -> controlled_asset s' = controlled_asset s ->
    control_change tr delay now r s s'
| change_after_delay t1 d p :
    (t1, RoleRecovery, InitiateRecoveryAsRecovery p) ∈ tr -> delay = Some d -> t1 + d <= now ->
    roles s' = rule_set p -> controlled_asset s' = controlled_asset s ->
    control_change tr delay now r s s'
| change_withdraw t1 r1 c1 :
    (t1, r1, c1) ∈ tr ->
    c1 = InitiateBadgeWithdrawAsPrimary \/ c1 = InitiateBadgeWithdrawAsRecovery ->
    r1 <> r -> roles s' = locked_role_assignment deny_all ->
    controlled_asset s' = emptied (controlled_asset s) ->
    control_change tr delay now r s s'.

Lemma may_call_not r c l : accessible c = Some l -> may_call r c = true -> r ∈ l.
Proof. unfold may_call. intros ->. by rewrite bool_decide_eq_true. Qed.

Lemma control_change_step delay tr s now r c s' :
  (forall d, delay = Some d -> 0 <= d) -> times_ok tr -> clock_ok now ->
  pending_ok delay tr s -> may_call r c = true -> run now c s = Done (Ok tt, s') ->
  control_change tr delay now r s s'.
Proof.
  intros Hd Htr Hnow [_ Hpr Hpw Hrr Hrw Ht] Hmay [_ He]%run_call_effect.
  destruct c; cbn [effect] in He; destruct_and?; subst; try (by apply change_none).
  - destruct (Hpr p) as [t Hin]; [done|]. eapply change_two_roles; eauto.
    apply may_call_not with (l := [RoleRecovery; RoleConfirmation]) in Hmay; [|done]. set_solver.
  - destruct (Hrr p) as [t Hin]; [done|]. eapply change_two_roles; eauto.
    apply may_call_not with (l := [RolePrimary; RoleConfirmation]) in Hmay; [|done]. set_solver.
  - destruct Hpw as [t Hin]; [done|]. eapply change_withdraw; eauto.
    apply may_call_not with (l := [RoleRecovery; RoleConfirmation]) in Hmay; [|done]. set_solver.
  - destruct Hrw as [t Hin]; [done|]. eapply change_withdraw; eauto.
    apply may_call_not with (l := [RolePrimary; RoleConfirmation]) in Hmay; [|done]. set_solver.
  - match goal with Hx : exists _, _ /\ _ |- _ => destruct Hx as (a & Hr & Hc) end.
    destruct (Ht _ _ Hr) as (t & d & Hin & -> & -> & H64).
    pose proof (proj1 (Forall_forall _ _) Htr _ Hin) as Ht1. cbn in Ht1.
    eapply change_after_delay; eauto. specialize (Hd d eq_refl).
    unfold clock_ok in *.
    apply compare_current_time_sound; [..|exact Hc]; try done; try lia.
    apply in_i_spec. unfold i_min, i_max in *. lia.
Qed.

Lemma no_self_change tr delay now r s s' :
  Forall (fun e => e.1.2 = r) tr -> r <> RoleRecovery ->
  control_change tr delay now r s s' ->
  roles s' = roles s /\ controlled_asset s' = controlled_asset s.
Proof.
  intros Hall Hr Hc. rewrite Forall_forall in Hall.
  destruct Hc as [|? ? ? ? Hin|? ? ? Hin|? ? ? Hin]; try done; apply Hall in Hin; cbn in *; congruence.
Qed.

(** The delay is fixed at creation. *)
Lemma history_delay s0 tr s :
  history deny_all rule_accepted s0 tr s ->
  timed_recovery_delay_in_minutes s = timed_recovery_delay_in_minutes s0.
Proof.
  induction 1 as [|tr s now r c s' _ IH _ [Hd _]%run_call_effect]; [done|]. congruence.
Qed.

(** Calls that end a lock of the primary role: unlocking, and any confirmation. *)
Definition ends_lock c : bool :=
  match c with
  | UnlockPrimaryRole | QuickConfirmPrimaryRecovery _ | QuickConfirmRecoveryRecovery _
  | QuickConfirmPrimaryBadgeWithdraw | QuickConfirmRecoveryBadgeWithdraw
  | TimedConfirmRecovery _ => true
  | _ => false
  end.

Lemma locked_step now c s s' :
  run now c s = Done (Ok tt, s') -> locking (machine s) = Locked -> ends_lock c = false ->
  locking (machine s') = Locked.
Proof.
  intros [_ He]%run_call_effect Hl Hc.
  destruct c; try discriminate Hc; cbn [effect] in He; destruct_and?; subst;
    try match goal with Hm : machine _ = _ |- _ => rewrite Hm end; by cbn.
Qed.

Lemma locked_history s0 tr1 t r tr2 s :
  history deny_all rule_accepted s0 (tr1 ++ [(t, r, LockPrimaryRole)] ++ tr2) s ->
  Forall (fun e => ends_lock e.2 = false) tr2 -> locking (machine s) = Locked.
Proof.
  revert s. induction tr2 as [|[[t2 r2] c2] tr2 IH] using rev_ind; intros s Hh Hall.
  - rewrite app_nil_r in Hh. apply history_snoc_inv in Hh as (s1 & _ & _ & [_ He]%run_call_effect).
    cbn [effect] in He. destruct He as [-> _]. done.
  - apply Forall_app in Hall as [Hall Hlast]. inversion_clear Hlast.
    rewrite !app_assoc in Hh. apply history_snoc_inv in Hh as (s1 & Hh & _ & Hr).
    eapply locked_step; [exact Hr| |done]. apply IH; [|done]. by rewrite !app_assoc.
Qed.

End Steps.
End ControllerSteps.

(** ** Theorems *)
Module ControllerTheorems.
Import ControllerSteps.
Section Theorems.
Context {Rule : Type} `{EqDecision Rule} (deny_all : Rule) (rule_accepted : Rule -> bool).
Implicit Types (s : AccessControllerV2 (Rule := Rule)) (c : Call (Rule := Rule)).

(** Runs the operations of the monad. *)
Ltac mrun :=
  cbv [mbind M_bind mret M_ret gets modify throw lift_result guard_or set_machine set_roles
       emit_event id];
  cbn [machine with_p_recovery with_p_withdraw with_r_recovery with_r_withdraw
       p_recovery p_withdraw r_recovery r_withdraw controlled_asset roles].

(** C5. From the creation of a controller on, a call changes its rules or its
    asset only in three ways: the rules become those of a proposal that a
    different role initiated in an earlier call; they become those of a
    proposal the recovery role initiated at least the configured delay ago; or
    the asset is withdrawn after a different role asked for it in an earlier
    call, and then every role denies everyone. *)
Theorem control_needs_two_roles asset delay rules tr s now r c s' :
  (forall d, delay = Some d -> 0 <= d) -> times_ok tr -> clock_ok now ->
  history deny_all rule_accepted (create asset delay rules) tr s ->
  may_call r c = true -> run_call deny_all rule_accepted now c s = Done (Ok tt, s') ->
  control_change deny_all tr delay now r s s'.
Proof.
  intros Hd Htr Hnow Hh Hmay Hrun. eapply control_change_step; eauto.
  by eapply history_pending_ok.
Qed.

(** A party that holds a single role never gets at the asset.  With the
    primary or the confirmation role it never changes the rules either; with
    the recovery role it changes them only through a recovery it initiated and
    a call at least the configured delay later. *)
Theorem single_role_contained asset delay rules tr r s :
  (forall d, delay = Some d -> 0 <= d) -> times_ok tr -> Forall (fun e => e.1.2 = r) tr ->
  history deny_all rule_accepted (create asset delay rules) tr s ->
  controlled_asset s = asset /\
  (roles s = rules \/
   r = RoleRecovery /\ exists t1 t2 d p c2,
     (t1, RoleRecovery, InitiateRecoveryAsRecovery p) ∈ tr /\ (t2, RoleRecovery, c2) ∈ tr /\
     delay = Some d /\ t1 + d <= t2).
Proof.
  intros Hd Htr Hall Hh. remember (create asset delay rules) as s0 eqn:E0.
  induction Hh as [|tr s now r' c s' Hh IH Hmay Hrun]; [subst; by split; [|left]|].
  apply Forall_app in Htr as [Htr [Hnow _]%Forall_cons], Hall as [Hall [Hr' _]%Forall_cons].
  cbn in Hr', Hnow. subst r'. destruct (IH Htr Hall) as [IHa IHr]. subst s0.
  assert (control_change deny_all tr delay now r s s') as Hc.
  { eapply control_change_step; eauto. by eapply history_pending_ok. }
  rewrite Forall_forall in Hall.
  destruct Hc as [Hr Ha|? ? ? ? Hin _ Hne|t1 d p Hin -> Hle Hr Ha|? ? ? Hin _ Hne];
    [|by apply Hall in Hin| |by apply Hall in Hin].
  - rewrite Hr, Ha. split; [done|].
    destruct IHr as [?|(-> & t1 & t2 & d & p & c2 & ? & ? & ? & ?)]; [by left|right].
    split; [done|]. exists t1, t2, d, p, c2.
    split_and!; [by apply elem_snoc_l|by apply elem_snoc_l|done|done].
  - split; [congruence|right]. assert (r = RoleRecovery) as -> by (by apply Hall in Hin).
    split; [done|]. exists t1, now, d, p, c.
    split_and!; [by apply elem_snoc_l|by apply elem_snoc_r|done|done].
Qed.

(** Once the primary role is locked, no proof of the asset can be created
    until a call unlocks it or confirms a recovery or a withdrawal. *)
Theorem locked_primary_cannot_prove s0 tr1 t r tr2 s :
  history deny_all rule_accepted s0 (tr1 ++ [(t, r, LockPrimaryRole)] ++ tr2) s ->
  Forall (fun e => ends_lock e.2 = false) tr2 ->
  create_proof s = Done (Err OperationRequiresUnlockedPrimaryRole, s).
Proof.
  intros Hl Hall. apply locked_history in Hl; [|done].
  unfold create_proof, transition_create_proof. mrun. by rewrite Hl.
Qed.

(** A timed recovery is decided by the clock: confirming the pending
    proposal fails with [TimedRecoveryDelayHasNotElapsed] and changes nothing
    before its time, and succeeds from that minute on, installing its rules and
    clearing every other attempt and the lock. *)
Theorem timed_confirm_exact s p m now :
  in_i 32 now = true -> in_i 32 m = true ->
  r_recovery (machine s) = RRecoveryAttempt (TimedRecovery p (m * 60)) ->
  Forall (fun x => rule_accepted x = true)
    [primary_role (rule_set p); recovery_role (rule_set p); confirmation_role (rule_set p)] ->
  timed_confirm_recovery rule_accepted now p s =
  Done (if m <=? now
        then (Ok tt, {| controlled_asset := controlled_asset s; xrd_fee_vault := xrd_fee_vault s;
                timed_recovery_delay_in_minutes := timed_recovery_delay_in_minutes s;
                recovery_badges := recovery_badges s; machine := default_state;
                roles := rule_set p;
                ac_events := ac_events s ++ [RuleSetUpdateEvent ProposerRecovery p] |})
        else (Err TimedRecoveryDelayHasNotElapsed, s)).
Proof.
  intros Hn Hm Hr Hacc.
  inversion Hacc as [|? ? H1 Hacc2]; subst. inversion Hacc2 as [|? ? H2 Hacc3]; subst.
  inversion Hacc3 as [|? ? H3 _]; subst.
  unfold timed_confirm_recovery, transition_timed_confirm_recovery, validate_recovery_proposal.
  unfold update_role_assignment. mrun. rewrite Hr, decide_True by done.
  rewrite compare_current_time_gte by done.
  destruct (m <=? now); cbn [negb]; [|done]. mrun. by rewrite H1, H2, H3.
Qed.

(** The cancellation of each initiation. *)
Definition cancels c : option (Call (Rule := Rule)) :=
  match c with
  | InitiateRecoveryAsPrimary _ => Some CancelPrimaryRecovery
  | InitiateRecoveryAsRecovery _ => Some CancelRecoveryRecovery
  | InitiateBadgeWithdrawAsPrimary => Some CancelPrimaryBadgeWithdraw
  | InitiateBadgeWithdrawAsRecovery => Some CancelRecoveryBadgeWithdraw
  | _ => None
  end.

(** After a successful initiation the matching cancellation succeeds at
    any time, and takes the machine, the rules and the asset back to what they
    were. *)
Theorem initiate_cancel_roundtrip now now' c c' s s1 :
  cancels c = Some c' -> run_call deny_all rule_accepted now c s = Done (Ok tt, s1) ->
  exists s2, run_call deny_all rule_accepted now' c' s1 = Done (Ok tt, s2) /\
    machine s2 = machine s /\ roles s2 = roles s /\ controlled_asset s2 = controlled_asset s.
Proof.
  intros Hc [_ He]%run_call_effect.
  destruct c; try discriminate Hc; injection Hc as <-; cbn [effect] in He; destruct_and?;
    eexists; (split; [cbn [run_call];
      unfold cancel_primary_role_recovery_proposal, cancel_recovery_role_recovery_proposal,
        cancel_primary_role_badge_withdraw_attempt, cancel_recovery_role_badge_withdraw_attempt,
        transition_cancel_primary_role_recovery_proposal,
        transition_cancel_recovery_role_recovery_proposal,
        transition_cancel_primary_role_badge_withdraw_attempt,
        transition_cancel_recovery_role_badge_withdraw_attempt; mrun;
      match goal with Hm : machine s1 = _ |- _ => rewrite Hm end; mrun; reflexivity|]);
    cbn; split_and!; try assumption; destruct (machine s); cbn in *; by subst.
Qed.

(** The delay of timed recoveries is the one given at creation, whatever
    is called: confirming a proposal that carries another delay does not
    install it. *)
Theorem recovery_delay_fixed asset delay rules tr s :
  history deny_all rule_accepted (create asset delay rules) tr s ->
  timed_recovery_delay_in_minutes s = delay.
Proof. intros Hh. by rewrite (history_delay _ _ _ _ _ Hh). Qed.

End Theorems.

(** *** A concrete controller *)

Definition demo_rules (k : N) : RuleSet (Rule := N) :=
  {| primary_role := k; recovery_role := k + 1; confirmation_role := k + 2 |}%N.
Definition demo_proposal : RecoveryProposal (Rule := N) :=
  {| rule_set := demo_rules 20; proposed_delay := Some 99 |}.
Definition demo_controller : AccessControllerV2 (Rule := N) :=
  create (FungibleAsset (5 * 10 ^ 18)) (Some 10) (demo_rules 10).
Definition demo_run (now : Z) (c : Call (Rule := N)) (s : AccessControllerV2 (Rule := N)) :
    AccessControllerV2 (Rule := N) :=
  match run_call 0%N (fun _ => true) now c s with Done (_, s') => s' | Panicked => s end.

(** The recovery role locks the primary role and initiates a recovery. *)
Definition demo_trace : list (Z * Role * Call (Rule := N)) :=
  [(5, RoleRecovery, LockPrimaryRole); (6, RoleRecovery, InitiateRecoveryAsRecovery demo_proposal)].
Definition demo_state : AccessControllerV2 (Rule := N) :=
  demo_run 6 (InitiateRecoveryAsRecovery demo_proposal)
    (demo_run 5 LockPrimaryRole demo_controller).

Lemma demo_history : history 0%N (fun _ => true) demo_controller demo_trace demo_state.
Proof.
  apply (hist_snoc _ _ _ [_] (demo_run 5 LockPrimaryRole demo_controller));
    [|reflexivity|vm_compute; reflexivity].
  apply (hist_snoc _ _ _ [] demo_controller); [apply hist_nil|reflexivity|vm_compute; reflexivity].
Qed.

Lemma demo_times : times_ok demo_trace.
Proof. repeat constructor; cbn; unfold i_max; lia. Qed.

Lemma control_needs_two_roles_witness :
  control_change 0%N demo_trace (Some 10) 16 RoleConfirmation demo_state
    (demo_run 16 (TimedConfirmRecovery demo_proposal) demo_state) /\
  roles (demo_run 16 (TimedConfirmRecovery demo_proposal) demo_state) = demo_rules 20.
Proof.
  split; [|reflexivity].
  apply (control_needs_two_roles 0%N (fun _ => true) (FungibleAsset (5 * 10 ^ 18)) (Some 10)
    (demo_rules 10) demo_trace demo_state 16 RoleConfirmation (TimedConfirmRecovery demo_proposal)).
  - intros d [= <-]. lia.
  - exact demo_times.
  - unfold clock_ok, i_max. lia.
  - exact demo_history.
  - reflexivity.
  - reflexivity.
Defined.

Lemma single_role_contained_witness : controlled_asset demo_state = FungibleAsset (5 * 10 ^ 18).
Proof.
  apply (single_role_contained 0%N (fun _ => true) (FungibleAsset (5 * 10 ^ 18)) (Some 10)
    (demo_rules 10) demo_trace RoleRecovery demo_state).
  - intros d [= <-]. lia.
  - exact demo_times.
  - repeat constructor.
  - exact demo_history.
Defined.

Lemma locked_primary_cannot_prove_witness :
  create_proof demo_state = Done (Err OperationRequiresUnlockedPrimaryRole, demo_state).
Proof.
  apply (locked_primary_cannot_prove 0%N (fun _ => true) demo_controller [] 5 RoleRecovery
    [(6, RoleRecovery, InitiateRecoveryAsRecovery demo_proposal)] demo_state).
  - exact demo_history.
  - repeat constructor.
Defined.

Lemma timed_confirm_exact_witness :
  timed_confirm_recovery (fun _ => true) 15 demo_proposal demo_state =
    Done (Err TimedRecoveryDelayHasNotElapsed, demo_state).
Proof.
  rewrite (timed_confirm_exact (fun _ => true) demo_state demo_proposal 16 15).
  - reflexivity.
  - reflexivity.
  - reflexivity.
  - reflexivity.
  - repeat constructor.
Defined.

Lemma initiate_cancel_roundtrip_witness :
  exists s2, run_call 0%N (fun _ => true) 7 CancelRecoveryRecovery demo_state = Done (Ok tt, s2) /\
    machine s2 = machine (demo_run 5 LockPrimaryRole demo_controller) /\
    roles s2 = demo_rules 10 /\ controlled_asset s2 = FungibleAsset (5 * 10 ^ 18).
Proof.
  apply (initiate_cancel_roundtrip 0%N (fun _ => true) 6 7
    (InitiateRecoveryAsRecovery demo_proposal) CancelRecoveryRecovery
    (demo_run 5 LockPrimaryRole demo_controller) demo_state); reflexivity.
Defined.

(** After the confirmation of a proposal with a delay of 99 minutes. *)
Lemma recovery_delay_fixed_witness :
  proposed_delay demo_proposal = Some 99 /\
  timed_recovery_delay_in_minutes
    (demo_run 16 (TimedConfirmRecovery demo_proposal) demo_state) = Some 10.
Proof.
  split; [reflexivity|].
  apply (recovery_delay_fixed 0%N (fun _ => true) (FungibleAsset (5 * 10 ^ 18)) (Some 10)
    (demo_rules 10) (demo_trace ++ [(16, RoleConfirmation, TimedConfirmRecovery demo_proposal)])).
  eapply hist_snoc; [exact demo_history|reflexivity|reflexivity].
Defined.

End ControllerTheorems.
