(* ===== verification/Text.v ===== *)
(** * Text

    Strings, the printing and parsing of integers, and on top of them the text
    forms of decimals ([FromStr] and [Display] of radix-common/src/math/decimal.rs)
    and of dates ([FromStr] and [Display] of
    radix-common/src/time/utc_date_time.rs).

    A [&str] is the list of its characters (Unicode scalar values); byte
    lengths and byte slices go through the width of each character in UTF-8,
    and slicing inside a character panics.  The integer types behind decimals
    come from the bnum crate: how it prints and parses them is a parameter,
    with its documented behaviour as hypotheses. *)

From S2P Require Import Prelude Decimals Time.
Import Int Dec DecSpec.

(** ** Strings *)
Module Str.

Abbreviation Str := (list Z) (only parsing).

(** An ASCII literal. *)
Definition lit (s : string) : Str := (fun c => Z.of_N (Ascii.N_of_ascii c)) <$> String.list_ascii_of_string s.

(** [char::len_utf8] *)
Definition utf8_len (c : Z) : Z :=
  if c <? 128 then 1 else if c <? 2048 then 2 else if c <? 65536 then 3 else 4.

(** [str::len] *)
Definition byte_len (s : Str) : Z := foldr (fun c acc => utf8_len c + acc) 0 s.

(** [&s[a..]]: panics past the end and inside a character. *)
Fixpoint slice_from (s : Str) (a : Z) : Exec Str :=
  if a =? 0 then Done s else
  match s with
  | [] => Panicked
  | c :: s' => if a <? 0 then Panicked else slice_from s' (a - utf8_len c)
  end.

(** [&s[..n]] *)
Fixpoint slice_to (s : Str) (n : Z) : Exec Str :=
  if n =? 0 then Done [] else
  match s with
  | [] => Panicked
  | c :: s' => if n <? 0 then Panicked else r ← slice_to s' (n - utf8_len c); Done (c :: r)
  end.

(** [&s[a..b]] *)
Definition slice (s : Str) (a b : Z) : Exec Str := r ← slice_from s a; slice_to r (b - a).

(** [s.split(sep).collect()] *)
Fixpoint split (sep : Z) (s : Str) : list Str :=
  match s with
  | [] => [[]]
  | c :: s' =>
      if c =? sep then [] :: split sep s'
      else match split sep s' with
           | [] => [[c]]
           | p :: ps => (c :: p) :: ps
           end
  end.

(** [s.trim_end_matches(c)] *)
Fixpoint trim_end (c : Z) (s : Str) : Str :=
  match s with
  | [] => []
  | x :: s' => match trim_end c s' with
               | [] => if x =? c then [] else [x]
               | t => x :: t
               end
  end.

Definition is_digit (c : Z) : bool := (48 <=? c) && (c <=? 57).
Definition value (s : Str) : Z := fold_left (fun acc c => 10 * acc + (c - 48)) s 0.

(** The decimal digits of a natural number; [Z.log2 n] bounds their number. *)
Fixpoint digits_fuel (fuel : nat) (n : Z) : Str :=
  if n <? 10 then [48 + n] else
  match fuel with
  | O => []
  | S f => digits_fuel f (n / 10) ++ [48 + n mod 10]
  end.
Definition digits (n : Z) : Str := digits_fuel (Z.to_nat (Z.log2 n)) n.

(** [format!("{}", z)] and [format!("{:0w}", n)] of an integer. *)
Definition print_int (z : Z) : Str := if z <? 0 then 45 :: digits (- z) else digits z.
Definition pad (w : nat) (s : Str) : Str := replicate (w - length s) 48 ++ s.
Definition print_padded (w : nat) (n : Z) : Str := pad w (digits n).

(** [str::parse] of an unsigned integer of [w] bits; which error it is does not
    matter to its callers. *)
Definition parse_u (w : Z) (s : Str) : option Z :=
  let body := match s with 43 :: ((_ :: _) as s') => s' | _ => s end in
  match body with
  | [] => None
  | _ => if forallb is_digit body then checked_u w (value body) else None
  end.

Example parse_u_tests :
  parse_u 8 (lit "+17") = Some 17 /\ parse_u 8 (lit "256") = None /\ parse_u 8 (lit "+") = None /\
  parse_u 8 (lit "-1") = None /\ parse_u 8 (lit "") = None.
Proof. repeat split. Qed.

(** *** Facts *)

Lemma value_snoc s c : value (s ++ [c]) = 10 * value s + (c - 48).
Proof. unfold value. by rewrite fold_left_app. Qed.

Lemma value_app s t : value (s ++ t) = value s * 10 ^ Z.of_nat (length t) + value t.
Proof.
  induction t as [|c t IH] using rev_ind.
  - rewrite app_nil_r. cbn. lia.
  - rewrite app_assoc, !value_snoc, IH, length_app, Nat2Z.inj_add, Z.pow_add_r by lia.
    change (10 ^ Z.of_nat (length [c])) with 10. lia.
Qed.

Lemma value_zeros k : value (replicate k 48) = 0.
Proof. induction k as [|k IH]; [done|]. rewrite replicate_S_end, value_snoc, IH. lia. Qed.

Lemma digits_value_bound s : forallb is_digit s = true -> 0 <= value s < 10 ^ Z.of_nat (length s).
Proof.
  induction s as [|c s IH] using rev_ind; [cbn; lia|].
  rewrite forallb_app, andb_true_iff. intros [Hs Hc]. specialize (IH Hs).
  cbn in Hc. rewrite andb_true_r in Hc. unfold is_digit in Hc. zbool.
  rewrite value_snoc, length_app, Nat2Z.inj_add, Z.pow_add_r by lia.
  change (10 ^ Z.of_nat (length [c])) with 10. lia.
Qed.

Lemma digits_fuel_spec f n : 0 <= n -> n < 10 * 2 ^ Z.of_nat f ->
  value (digits_fuel f n) = n /\ forallb is_digit (digits_fuel f n) = true /\
  digits_fuel f n <> [].
Proof.
  revert n. induction f as [|f IH]; intros n H0 Hn; cbn [digits_fuel]; destruct (n <? 10) eqn:E; zbool.
  1, 3: split_and!; [cbv [value fold_left]; lia| |done]; cbn; unfold is_digit;
        rewrite !(proj2 (Z.leb_le _ _)) by lia; done.
  - change (10 * 2 ^ Z.of_nat 0) with 10 in Hn. lia.
  - destruct (IH (n / 10)) as (Hv & Hd & Hne); [by apply Z.div_pos|..].
    { apply Z.div_lt_upper_bound; [done|]. rewrite Nat2Z.inj_succ, Z.pow_succ_r in Hn by lia. lia. }
    pose proof (Z.mod_pos_bound n 10 ltac:(lia)). pose proof (Z.div_mod n 10 ltac:(lia)).
    split_and!.
    + rewrite value_snoc, Hv. lia.
    + rewrite forallb_app, Hd. cbn. unfold is_digit. rewrite !(proj2 (Z.leb_le _ _)) by lia. done.
    + by destruct (digits_fuel f (n / 10)).
Qed.

Lemma digits_spec n : 0 <= n ->
  value (digits n) = n /\ forallb is_digit (digits n) = true /\ digits n <> [].
Proof.
  intros Hn. apply digits_fuel_spec; [done|]. rewrite Z2Nat.id by apply Z.log2_nonneg.
  destruct (decide (n = 0)) as [->|Hne]; [done|].
  pose proof (Z.log2_spec n ltac:(lia)) as [_ H]. rewrite Z.pow_succ_r in H by apply Z.log2_nonneg.
  lia.
Qed.

(** Numbers below [10^k] have at most [k] digits. *)
Lemma digits_fuel_length f n k : (0 < k)%nat -> n < 10 ^ Z.of_nat k ->
  (length (digits_fuel f n) <= k)%nat.
Proof.
  revert n k. induction f as [|f IH]; intros n k Hk Hn; cbn [digits_fuel];
    destruct (n <? 10) eqn:E; cbn; try lia.
  zbool. destruct k as [|[|k]]; [lia|cbn in Hn; lia|].
  rewrite length_app. cbn. enough (length (digits_fuel f (n / 10)) <= S k)%nat by lia.
  apply IH; [lia|]. apply Z.div_lt_upper_bound; [done|].
  rewrite (Nat2Z.inj_succ (S k)), Z.pow_succ_r in Hn by lia. lia.
Qed.

Lemma digits_length n k : (0 < k)%nat -> n < 10 ^ Z.of_nat k -> (length (digits n) <= k)%nat.
Proof. apply digits_fuel_length. Qed.

Lemma print_padded_spec w n : 0 <= n -> (0 < w)%nat -> n < 10 ^ Z.of_nat w ->
  length (print_padded w n) = w /\ value (print_padded w n) = n /\
  forallb is_digit (print_padded w n) = true.
Proof.
  intros H0 Hw Hn. destruct (digits_spec n H0) as (Hv & Hd & Hne).
  pose proof (digits_length n w Hw Hn). unfold print_padded, pad. split_and!.
  - rewrite length_app, length_replicate. lia.
  - rewrite value_app, value_zeros, Hv. lia.
  - rewrite forallb_app, Hd, andb_true_r. apply forallb_forall. intros x Hx%list_elem_of_In.
    by apply elem_of_replicate in Hx as [-> _].
Qed.

End Str.

(** ** Decimals *)
Module DecText.
Import Str.

Inductive ParseI192Error : Type :=
| I192NegativeToUnsigned
| I192Overflow
| I192InvalidLength
| I192InvalidDigit
| I192Empty.

Inductive ParseDecimalError : Type :=
| InvalidDigit
| Overflow
| EmptyIntegralPart
| EmptyFractionalPart
| MoreThanEighteenDecimalPlaces
| MoreThanOneDecimalPoint
| InvalidLength (len : Z).

Section Text.
(** [I192::from_str], ["{}"] and ["{:018}"] of an [I192]. *)
Context (parse_i192 : Str -> Result ParseI192Error Z).
Context (print_i192 print_i192_018 : Z -> Str).

(** The errors of parsing one part; [empty] is the error of an empty one. *)
Definition part_error (empty : ParseDecimalError) (e : ParseI192Error) :
    Exec ParseDecimalError :=
  match e with
  | I192NegativeToUnsigned => Panicked
  | I192Overflow => Done Overflow
  | I192InvalidLength => Panicked
  | I192InvalidDigit => Done InvalidDigit
  | I192Empty => Done empty
  end.

Definition parse_fraction (v0 v1 : Str) (integer_part subunits : Z) :
    Exec (Result ParseDecimalError Z) :=
  match checked_u 32 (SCALE - wrap_u 32 (byte_len v1)) with
  | None => Done (Err MoreThanEighteenDecimalPlaces)
  | Some scale =>
      match parse_i192 v1 with
      | Err e => e' ← part_error EmptyFractionalPart e; Done (Err e')
      | Ok fractional_part =>
          fractional_subunits ← expect (checked_i 192 (fractional_part * 10 ^ scale));
          let negative := (integer_part <? 0) || (match v0 with c :: _ => c =? 45 | [] => false end) in
          Done (ok_or (checked_i 192 (if negative then subunits - fractional_subunits
                                      else subunits + fractional_subunits)) Overflow)
      end
  end.

Definition dec_from_str (s : Str) : Exec (Result ParseDecimalError Decimal) :=
  let v := split 46 s in
  if 2 <? Z.of_nat (length v) then Done (Err MoreThanOneDecimalPoint) else
  v0 ← expect (v !! 0%nat);
  match parse_i192 v0 with
  | Err e => e' ← part_error EmptyIntegralPart e; Done (Err e')
  | Ok integer_part =>
      match checked_i 192 (integer_part * ONE) with
      | None => Done (Err Overflow)
      | Some subunits =>
          match v !! 1%nat with
          | Some v1 => parse_fraction v0 v1 integer_part subunits
          | None => Done (Ok subunits)
          end
      end
  end.

Definition dec_to_string (d : Decimal) : Str :=
  let quotient := Z.quot d ONE in
  let remainder := Z.rem d ONE in
  if negb (remainder =? 0) then
    let sign := if (remainder <? 0) && (quotient =? 0) then [45] else [] in
    let rem_str := print_i192_018 (Z.abs remainder) in
    sign ++ print_i192 quotient ++ [46] ++ trim_end 48 rem_str
  else print_i192 quotient.

(** What bnum documents: it prints the digits after a minus sign if the number
    is negative, pads with zeros on request, and parses an optional sign
    followed by digits when the number fits. *)
Record bnum_text : Prop := {
  print_ok : forall z, print_i192 z = print_int z;
  print_018_ok : forall n, 0 <= n -> print_i192_018 n = print_padded 18 n;
  parse_digits_ok : forall s, s <> [] -> forallb is_digit s = true -> in_i 192 (value s) = true ->
    parse_i192 s = Ok (value s);
  parse_neg_ok : forall s, s <> [] -> forallb is_digit s = true -> in_i 192 (- value s) = true ->
    parse_i192 (45 :: s) = Ok (- value s)
}.

(** *** Facts *)

Lemma split_none sep s : sep ∉ s -> split sep s = [s].
Proof.
  induction s as [|c s IH]; [done|]. rewrite not_elem_of_cons. intros [Hc Hs]. cbn.
  rewrite (proj2 (Z.eqb_neq _ _)), IH by congruence. done.
Qed.

Lemma split_one sep a b : sep ∉ a -> sep ∉ b -> split sep (a ++ sep :: b) = [a; b].
Proof.
  intros Ha Hb. induction a as [|c a IH]; cbn.
  - by rewrite Z.eqb_refl, split_none.
  - apply not_elem_of_cons in Ha as [Hc Ha].
    rewrite (proj2 (Z.eqb_neq _ _)), IH by congruence. done.
Qed.

Lemma digits_no_char c s : is_digit c = false -> forallb is_digit s = true -> c ∉ s.
Proof.
  intros Hc Hs Hin. rewrite forallb_forall in Hs. apply list_elem_of_In, Hs in Hin. congruence.
Qed.

Lemma byte_len_digits s : forallb is_digit s = true -> byte_len s = Z.of_nat (length s).
Proof.
  induction s as [|c s IH]; [done|]. cbn [forallb]. rewrite andb_true_iff. intros [Hc Hs].
  cbn [byte_len foldr]. fold (byte_len s). rewrite IH by done. unfold is_digit in Hc. zbool.
  unfold utf8_len. rewrite (proj2 (Z.ltb_lt _ _)) by lia. cbn [length]. lia.
Qed.

(** Trailing zeros do not change the digits before them. *)
Lemma trim_end_spec s : exists k, s = trim_end 48 s ++ replicate k 48.
Proof.
  induction s as [|c s [k IH]]; [by exists 0%nat|]. cbn.
  destruct (trim_end 48 s) as [|t ts] eqn:E.
  - destruct (c =? 48) eqn:Ec; zbool.
    + exists (S k). rewrite IH. by subst.
    + exists k. rewrite IH. done.
  - exists k. rewrite IH at 1. done.
Qed.

Lemma trim_end_value s : value s <> 0 -> forallb is_digit s = true ->
  let t := trim_end 48 s in
  t <> [] /\ forallb is_digit t = true /\ (length t <= length s)%nat /\
  value s = value t * 10 ^ (Z.of_nat (length s) - Z.of_nat (length t)).
Proof.
  intros Hv Hd t. destruct (trim_end_spec s) as [k Hk]. fold t in Hk.
  pose proof Hd as Hd'. rewrite Hk, forallb_app, andb_true_iff in Hd'. destruct Hd' as [Ht _].
  assert (Hval : value s = value t * 10 ^ Z.of_nat k).
  { rewrite Hk, value_app, value_zeros, length_replicate. lia. }
  assert (Hlen : length s = (length t + k)%nat)
    by (rewrite Hk at 1; by rewrite length_app, length_replicate).
  split_and!; [|done|lia|].
  - intros Hnil. rewrite Hnil in Hval. cbn in Hval. lia.
  - rewrite Hval. f_equal. f_equal. lia.
Qed.

Context (Hbnum : bnum_text).

(** The integral part as it is printed, with the sign of a fraction whose
    integral part is zero. *)
Definition printed_part (q : Z) (negative : bool) : Str :=
  if negative then 45 :: digits (- q) else digits q.

Lemma printed_part_spec q (negative : bool) :
  (if negative then q <= 0 else 0 <= q) -> in_i 192 q = true ->
  parse_i192 (printed_part q negative) = Ok q /\ 46 ∉ printed_part q negative /\
  (match printed_part q negative with c :: _ => c =? 45 | [] => false end) = negative.
Proof.
  intros Hq Hr. unfold printed_part. destruct negative.
  - destruct (digits_spec (- q)) as (Hv & Hd & Hne); [lia|]. split_and!.
    + rewrite (parse_neg_ok Hbnum) by (try done; by rewrite Hv, Z.opp_involutive).
      by rewrite Hv, Z.opp_involutive.
    + rewrite not_elem_of_cons. split; [done|]. by apply digits_no_char.
    + done.
  - destruct (digits_spec q) as (Hv & Hd & Hne); [lia|]. split_and!.
    + rewrite (parse_digits_ok Hbnum) by (try done; by rewrite Hv). by rewrite Hv.
    + by apply digits_no_char.
    + destruct (digits q) as [|c l]; [done|]. cbn in Hd. unfold is_digit in Hd. zbool.
      apply Z.eqb_neq. lia.
Qed.

Lemma dec_to_string_parts d :
  let q := Z.quot d ONE in let r := Z.rem d ONE in
  dec_to_string d =
    printed_part q (d <? 0 - (if r =? 0 then ONE - 1 else 0)) ++
    (if r =? 0 then [] else [46] ++ trim_end 48 (print_padded 18 (Z.abs r))).
Proof.
  intros q r. unfold dec_to_string. fold q r.
  pose proof (Z.quot_rem' d ONE) as He. fold q r in He.
  pose proof (Z.rem_bound_abs d ONE ltac:(done)) as Hb. fold r in Hb.
  pose proof (Z.rem_sign_nz d ONE ltac:(done)) as Hs. fold r in Hs.
  rewrite !(print_ok Hbnum), (print_018_ok Hbnum) by lia. rewrite ONE_val in *.
  destruct (r =? 0) eqn:Er; zbool; cbn [negb].
  - rewrite app_nil_r. unfold print_int, printed_part.
    destruct (q <? 0) eqn:E1, (d <? _) eqn:E2; zbool; try done; lia.
  - rewrite app_assoc. f_equal. unfold print_int, printed_part.
    assert (Z.sgn r = Z.sgn d) as Hsg by (apply Hs; done).
    destruct (r <? 0) eqn:E1, (q =? 0) eqn:E2, (q <? 0) eqn:E3, (d <? _) eqn:E4; zbool; cbn;
      try done; try lia; try (replace q with 0 by lia; done).
Qed.

(** Reading back a printed fraction. *)
Lemma parse_fraction_printed v0 q r sub (negative : bool) :
  r <> 0 -> Z.abs r < ONE -> (match v0 with c :: _ => c =? 45 | [] => false end) = negative ->
  (q < 0 -> negative = true) ->
  in_i 192 (if negative then sub - Z.abs r else sub + Z.abs r) = true ->
  parse_fraction v0 (trim_end 48 (print_padded 18 (Z.abs r))) q sub
  = Done (Ok (if negative then sub - Z.abs r else sub + Z.abs r)).
Proof.
  intros Hr Hb Hneg Hq Hin. rewrite ONE_val in Hb.
  destruct (print_padded_spec 18 (Z.abs r)) as (Hl & Hv & Hd); [lia..|].
  destruct (trim_end_value (print_padded 18 (Z.abs r))) as (Hne & Hdt & Hlt & Hval);
    [rewrite Hv; lia|done|].
  set (t := trim_end 48 (print_padded 18 (Z.abs r))) in *.
  rewrite Hl in *. rewrite Hv in Hval.
  pose proof (digits_value_bound t Hdt) as Hvb.
  assert (0 < length t)%nat by (destruct t; [done|cbn; lia]).
  unfold parse_fraction. rewrite byte_len_digits by done.
  rewrite (wrap_u_small 32) by (unfold u_max; lia).
  rewrite checked_u_small by (unfold u_max, SCALE; lia).
  assert (value t < 10 ^ 18).
  { eapply Z.lt_le_trans; [apply Hvb|]. apply Z.pow_le_mono_r; lia. }
  rewrite (parse_digits_ok Hbnum) by (try done; apply in_i_spec; unfold i_min, i_max; lia).
  change SCALE with (Z.of_nat 18). rewrite <- Hval.
  rewrite (proj2 (checked_i_Some 192 (Z.abs r) (Z.abs r))) by (unfold i_min, i_max; lia).
  cbn [expect mbind Exec_bind]. rewrite Hneg.
  replace ((q <? 0) || negative) with negative.
  2: { destruct (q <? 0) eqn:E; zbool; [by rewrite Hq|done]. }
  unfold checked_i. by rewrite Hin.
Qed.

Lemma dec_roundtrip d : wf d -> dec_from_str (dec_to_string d) = Done (Ok d).
Proof.
  intros Hw. rewrite dec_to_string_parts.
  pose proof (Z.quot_rem' d ONE) as He. pose proof (Z.rem_bound_abs d ONE ltac:(done)) as Hb.
  pose proof (Z.rem_sign_nz d ONE ltac:(done)) as Hs.
  set (q := Z.quot d ONE) in *. set (r := Z.rem d ONE) in *.
  set (negative := d <? _).
  assert (Hwf : in_i 192 d = true) by (apply in_i_spec; exact Hw).
  pose proof (proj1 (in_i_spec _ _) Hwf) as Hr. unfold i_min, i_max in Hr. rewrite ONE_val in *.
  assert (Hq : if negative then q <= 0 else 0 <= q).
  { subst negative. rewrite ONE_val.
    destruct (r =? 0) eqn:E, (d <? _) eqn:E'; zbool; try lia; specialize (Hs E); lia. }
  assert (Hqr : in_i 192 q = true) by (apply in_i_spec; unfold i_min, i_max; lia).
  destruct (printed_part_spec q negative Hq Hqr) as (Hp & Hdot & Hhead).
  assert (Hsub : checked_i 192 (q * ONE) = Some (q * ONE)).
  { apply checked_i_Some. rewrite ONE_val. unfold i_min, i_max. destruct (r =? 0) eqn:E; zbool; lia. }
  unfold dec_from_str. destruct (r =? 0) eqn:Er; zbool.
  - rewrite app_nil_r, split_none by done. cbn. rewrite Hp, Hsub. do 2 f_equal. rewrite ONE_val. lia.
  - destruct (print_padded_spec 18 (Z.abs r)) as (_ & Hv & Hpd); [lia..|].
    assert (46 ∉ trim_end 48 (print_padded 18 (Z.abs r))) as Hdot2.
    { apply digits_no_char; [done|]. apply trim_end_value; [rewrite Hv; lia|done]. }
    cbn [app]. rewrite split_one by done.
    cbn -[trim_end print_padded]. rewrite Hp, Hsub.
    assert (Hd : d = if negative then q * ONE - Z.abs r else q * ONE + Z.abs r).
    { rewrite ONE_val. subst negative. specialize (Hs Er). rewrite Z.sub_0_r.
      destruct (d <? 0) eqn:E; zbool; lia. }
    rewrite (parse_fraction_printed _ q r _ negative); [by rewrite <- Hd|done| |done| |by rewrite <- Hd].
    + rewrite ONE_val. lia.
    + intros Hlt. destruct negative; [done|lia].
Qed.

End Text.
End DecText.

(** ** Dates *)
Module DateText.
Import Str Calendar CalendarSpec.

Inductive ParseUtcDateTimeError : Type :=
| InvalidFormat
| DateError (e : DateTimeError).

(** The [?] operator on results of steps that may panic. *)
Definition try_bind {E A B} (x : Exec (Result E A)) (f : A -> Exec (Result E B)) :
    Exec (Result E B) :=
  r ← x; match r with Ok a => f a | Err e => Done (Err e) end.

Definition parse_field (w : Z) (s : Str) (a b : Z) : Exec (Result ParseUtcDateTimeError Z) :=
  t ← slice s a b; Done (ok_or (parse_u w t) InvalidFormat).

Definition has_char (s : Str) (i : nat) (c : Z) : bool :=
  match s !! i with Some x => x =? c | None => false end.

Definition date_from_str (s : Str) : Exec (Result ParseUtcDateTimeError UtcDateTime) :=
  if (Z.of_nat (length s) =? 20) && has_char s 4 45 && has_char s 7 45 && has_char s 10 84
     && has_char s 13 58 && has_char s 16 58 && has_char s 19 90
  then
    try_bind (parse_field 32 s 0 4) (fun y =>
    try_bind (parse_field 8 s 5 7) (fun m =>
    try_bind (parse_field 8 s 8 10) (fun d =>
    try_bind (parse_field 8 s 11 13) (fun h =>
    try_bind (parse_field 8 s 14 16) (fun mi =>
    try_bind (parse_field 8 s 17 19) (fun sec =>
    Done (match new y m d h mi sec with
          | Ok dt => Ok dt
          | Err e => Err (DateError e)
          end)))))))
  else Done (Err InvalidFormat).

Definition date_to_string (dt : UtcDateTime) : Str :=
  print_padded 4 (year dt) ++ [45] ++ print_padded 2 (month dt) ++ [45]
  ++ print_padded 2 (day_of_month dt) ++ [84] ++ print_padded 2 (hour dt) ++ [58]
  ++ print_padded 2 (minute dt) ++ [58] ++ print_padded 2 (second dt) ++ [90].

Example test_to_string :
  date_from_str (lit "2023-01-27T12:17:25Z")
  = Done (Ok {| year := 2023; month := 1; day_of_month := 27; hour := 12; minute := 17;
                second := 25 |}).
Proof. reflexivity. Qed.

(** *** Facts *)

Definition ascii_str (s : Str) : bool := forallb (fun c => c <? 128) s.

Lemma digits_ascii s : forallb is_digit s = true -> ascii_str s = true.
Proof.
  unfold ascii_str. rewrite !forallb_forall. intros H x Hx. apply H in Hx. unfold is_digit in Hx.
  zbool. apply Z.ltb_lt. lia.
Qed.

Lemma slice_from_ascii a b : ascii_str a = true ->
  slice_from (a ++ b) (Z.of_nat (length a)) = Done b.
Proof.
  induction a as [|c a IH]; intros Ha; [by destruct b|].
  cbn [ascii_str forallb] in Ha. apply andb_true_iff in Ha as [Hc Ha].
  cbn [app slice_from length]. unfold utf8_len. rewrite Hc.
  rewrite (proj2 (Z.eqb_neq _ _)), (proj2 (Z.ltb_ge _ _)) by lia.
  rewrite <- IH by done. f_equal. lia.
Qed.

Lemma slice_to_ascii a b : ascii_str a = true ->
  slice_to (a ++ b) (Z.of_nat (length a)) = Done a.
Proof.
  induction a as [|c a IH]; intros Ha; [by destruct b|].
  cbn [ascii_str forallb] in Ha. apply andb_true_iff in Ha as [Hc Ha].
  cbn [app slice_to length]. unfold utf8_len. rewrite Hc.
  rewrite (proj2 (Z.eqb_neq _ _)), (proj2 (Z.ltb_ge _ _)) by lia.
  replace (Z.of_nat (S (length a)) - 1) with (Z.of_nat (length a)) by lia. by rewrite IH.
Qed.

Lemma parse_u_digits w s : s <> [] -> forallb is_digit s = true -> parse_u w s = checked_u w (value s).
Proof.
  intros Hne Hd. unfold parse_u.
  assert (match s with 43 :: ((_ :: _) as s') => s' | _ => s end = s) as ->.
  { destruct s as [|c s]; [done|]. cbn in Hd. unfold is_digit in Hd. zbool.
    destruct (decide (c = 43)) as [->|]; [lia|]. repeat (case_match; try done); congruence. }
  destruct s; [done|]. by rewrite Hd.
Qed.

(** A field printed in the middle of an ASCII string is read back. *)
Lemma parse_field_printed bits w n pre post :
  ascii_str pre = true -> (0 < w)%nat -> 0 <= n -> n < 10 ^ Z.of_nat w -> n <= u_max bits ->
  parse_field bits (pre ++ print_padded w n ++ post) (Z.of_nat (length pre))
    (Z.of_nat (length pre) + Z.of_nat w) = Done (Ok n).
Proof.
  intros Hpre Hw H0 Hn Hb. destruct (print_padded_spec w n H0 Hw Hn) as (Hl & Hv & Hd).
  unfold parse_field, slice. rewrite slice_from_ascii by done. cbn [mbind Exec_bind].
  replace (Z.of_nat (length pre) + Z.of_nat w - Z.of_nat (length pre))
    with (Z.of_nat (length (print_padded w n))) by lia.
  rewrite slice_to_ascii by (by apply digits_ascii). cbn [mbind Exec_bind].
  rewrite parse_u_digits by (try done; by destruct (print_padded w n); [cbn in Hl; lia|]).
  rewrite Hv, checked_u_small by lia. done.
Qed.

Lemma field_at bits s pre w n post a b :
  s = pre ++ print_padded w n ++ post -> a = Z.of_nat (length pre) -> b = a + Z.of_nat w ->
  ascii_str pre = true -> (0 < w)%nat -> 0 <= n -> n < 10 ^ Z.of_nat w -> n <= u_max bits ->
  parse_field bits s a b = Done (Ok n).
Proof. intros -> -> ->. apply parse_field_printed. Qed.

Lemma ascii_app a b : ascii_str a = true -> ascii_str b = true -> ascii_str (a ++ b) = true.
Proof. unfold ascii_str. rewrite forallb_app. by intros -> ->. Qed.

(** The printed date has 20 characters exactly when its year has four digits. *)
Lemma date_to_string_length dt : valid dt ->
  length (date_to_string dt) = (Nat.max 4 (length (digits (year dt))) + 16)%nat.
Proof.
  intros (Hy & Hm & Hd & _ & Hh & Hmi & Hs). unfold date_to_string.
  assert (days_in_leap_month (month dt - 1) <= 31) by (each_month Hm; rewrite Hm; done).
  rewrite !length_app. cbn [length].
  rewrite (proj1 (print_padded_spec 2 (month dt) ltac:(lia) ltac:(lia) ltac:(lia))).
  rewrite (proj1 (print_padded_spec 2 (day_of_month dt) ltac:(lia) ltac:(lia) ltac:(lia))).
  rewrite (proj1 (print_padded_spec 2 (hour dt) ltac:(lia) ltac:(lia) ltac:(lia))).
  rewrite (proj1 (print_padded_spec 2 (minute dt) ltac:(lia) ltac:(lia) ltac:(lia))).
  rewrite (proj1 (print_padded_spec 2 (second dt) ltac:(lia) ltac:(lia) ltac:(lia))).
  unfold print_padded, pad. rewrite length_app, length_replicate. lia.
Qed.

Lemma digits_long n k : 0 <= n -> 10 ^ Z.of_nat k <= n -> (k < length (digits n))%nat.
Proof.
  intros H0 Hn. destruct (digits_spec n H0) as (Hv & Hd & _).
  pose proof (digits_value_bound _ Hd) as Hb. rewrite Hv in Hb.
  destruct (decide (length (digits n) <= k)%nat) as [Hle|]; [|lia].
  pose proof (Z.pow_le_mono_r 10 (Z.of_nat (length (digits n))) (Z.of_nat k)). lia.
Qed.

(** The separators are where the parser looks for them. *)
Lemma layout_ok (Y M D H I S : Str) :
  length Y = 4%nat -> length M = 2%nat -> length D = 2%nat -> length H = 2%nat ->
  length I = 2%nat -> length S = 2%nat ->
  let s := Y ++ [45] ++ M ++ [45] ++ D ++ [84] ++ H ++ [58] ++ I ++ [58] ++ S ++ [90] in
  (Z.of_nat (length s) =? 20) && has_char s 4 45 && has_char s 7 45 && has_char s 10 84
  && has_char s 13 58 && has_char s 16 58 && has_char s 19 90 = true.
Proof.
  intros. destruct Y as [|y0 [|y1 [|y2 [|y3 [|]]]]]; try discriminate.
  repeat match goal with
  | L : length ?l = 2%nat |- _ => destruct l as [|? [|? [|]]]; try discriminate L; clear L
  end.
  reflexivity.
Qed.

(** Reads the next field of a printed date, given what surrounds it. *)
Ltac read_field bits pre w n post :=
  rewrite (field_at bits _ pre w n post) by
    (rewrite <- ?app_assoc; rewrite ?length_app; cbn [length]; unfold u_max;
     auto 12 using ascii_app; lia);
  cbn [try_bind mbind Exec_bind].

Lemma date_roundtrip dt : valid dt -> year dt <= 9999 ->
  date_from_str (date_to_string dt) = Done (Ok dt).
Proof.
  intros Hv Hy9. pose proof (valid_new dt Hv) as Hnew. destruct Hv as (Hy & Hm & Hd & _ & Hh & Hmi & Hs).
  assert (days_in_leap_month (month dt - 1) <= 31) by (each_month Hm; rewrite Hm; done).
  pose proof (print_padded_spec 4 (year dt) ltac:(lia) ltac:(lia) ltac:(lia)) as (L0 & _ & A0).
  pose proof (print_padded_spec 2 (month dt) ltac:(lia) ltac:(lia) ltac:(lia)) as (L1 & _ & A1).
  pose proof (print_padded_spec 2 (day_of_month dt) ltac:(lia) ltac:(lia) ltac:(lia)) as (L2 & _ & A2).
  pose proof (print_padded_spec 2 (hour dt) ltac:(lia) ltac:(lia) ltac:(lia)) as (L3 & _ & A3).
  pose proof (print_padded_spec 2 (minute dt) ltac:(lia) ltac:(lia) ltac:(lia)) as (L4 & _ & A4).
  pose proof (print_padded_spec 2 (second dt) ltac:(lia) ltac:(lia) ltac:(lia)) as (L5 & _ & _).
  apply digits_ascii in A0, A1, A2, A3, A4.
  unfold date_from_str, date_to_string. rewrite layout_ok by done. cbv zeta.
  set (Y := print_padded 4 (year dt)) in *. set (M := print_padded 2 (month dt)) in *.
  set (D := print_padded 2 (day_of_month dt)) in *. set (H' := print_padded 2 (hour dt)) in *.
  set (I := print_padded 2 (minute dt)) in *. set (S' := print_padded 2 (second dt)) in *.
  read_field 32 ([] : Str) 4%nat (year dt)
    ([45] ++ M ++ [45] ++ D ++ [84] ++ H' ++ [58] ++ I ++ [58] ++ S' ++ [90]).
  read_field 8 (Y ++ [45]) 2%nat (month dt)
    ([45] ++ D ++ [84] ++ H' ++ [58] ++ I ++ [58] ++ S' ++ [90]).
  read_field 8 (Y ++ [45] ++ M ++ [45]) 2%nat (day_of_month dt)
    ([84] ++ H' ++ [58] ++ I ++ [58] ++ S' ++ [90]).
  read_field 8 (Y ++ [45] ++ M ++ [45] ++ D ++ [84]) 2%nat (hour dt)
    ([58] ++ I ++ [58] ++ S' ++ [90]).
  read_field 8 (Y ++ [45] ++ M ++ [45] ++ D ++ [84] ++ H' ++ [58]) 2%nat (minute dt)
    ([58] ++ S' ++ [90]).
  read_field 8 (Y ++ [45] ++ M ++ [45] ++ D ++ [84] ++ H' ++ [58] ++ I ++ [58]) 2%nat (second dt)
    ([90] : Str).
  by rewrite Hnew.
Qed.

End DateText.

(** ** Theorems *)
Module TextTheorems.
Import Str DecText DateText Calendar CalendarSpec.

(** Decimals survive printing and parsing: every decimal, of either sign,
    with an integral part of zero or not, down to the minimum, prints to a
    string that parses without a panic to the same decimal. *)
Theorem decimal_text_roundtrip parse_i192 print_i192 print_i192_018 d :
  bnum_text parse_i192 print_i192 print_i192_018 -> wf d ->
  dec_from_str parse_i192 (dec_to_string print_i192 print_i192_018 d) = Done (Ok d).
Proof. intros Hb Hw. by apply dec_roundtrip. Qed.

(** Integers parsed and printed as bnum documents. *)
Definition parse_ref (s : Str) : Result ParseI192Error Z :=
  let '(sign, body) :=
    match s with
    | 45 :: ((_ :: _) as s') => (-1, s')
    | 43 :: ((_ :: _) as s') => (1, s')
    | _ => (1, s)
    end in
  match body with
  | [] => Err I192Empty
  | _ => if forallb is_digit body then ok_or (checked_i 192 (sign * value body)) I192Overflow
         else Err I192InvalidDigit
  end.

Lemma parse_ref_ok : bnum_text parse_ref print_int (print_padded 18).
Proof.
  split; [done|done|..]; intros s Hne Hd Hr.
  - assert (match s with
            | 45 :: ((_ :: _) as s') => (-1, s')
            | 43 :: ((_ :: _) as s') => (1, s')
            | _ => (1, s) end = (1, s)) as E.
    { destruct s as [|c s]; [done|]. cbn in Hd. unfold is_digit in Hd. zbool.
      destruct (decide (c = 43)), (decide (c = 45)); try lia.
      repeat (case_match; try done); congruence. }
    unfold parse_ref. rewrite E. destruct s as [|c s]; [done|].
    rewrite Hd, Z.mul_1_l. unfold checked_i. by rewrite Hr.
  - destruct s as [|c s]; [done|]. 
    change (parse_ref (45 :: c :: s)) with
      (if forallb is_digit (c :: s)
       then ok_or (checked_i 192 (-1 * value (c :: s))) I192Overflow else Err I192InvalidDigit).
    rewrite Hd.
    replace (-1 * value (c :: s)) with (- value (c :: s)) by lia. unfold checked_i. by rewrite Hr.
Qed.

Lemma decimal_text_roundtrip_witness :
  dec_to_string print_int (print_padded 18) (- (ONE / 10)) = lit "-0.1" /\
  dec_from_str parse_ref (dec_to_string print_int (print_padded 18) (- (ONE / 10)))
  = Done (Ok (- (ONE / 10))).
Proof.
  split; [reflexivity|].
  apply (decimal_text_roundtrip parse_ref print_int (print_padded 18));
    [exact parse_ref_ok|vm_compute; split; congruence].
Defined.

(** The tests of the source, and a sign in the fractional part. *)
Example parse_decimal_tests :
  dec_from_str parse_ref (lit "0.000000000000000001") = Done (Ok 1) /\
  dec_from_str parse_ref (lit "-123456.789") = Done (Ok (-123456789 * 10 ^ 15)) /\
  dec_from_str parse_ref (lit "1.23.4") = Done (Err MoreThanOneDecimalPoint) /\
  dec_from_str parse_ref (lit ".1") = Done (Err EmptyIntegralPart) /\
  dec_from_str parse_ref (lit "1.") = Done (Err EmptyFractionalPart) /\
  dec_from_str parse_ref (lit "0.0000000000000000001") = Done (Err MoreThanEighteenDecimalPlaces).
Proof. vm_compute. repeat split. Qed.

Example signed_fraction_accepted :
  dec_from_str parse_ref (lit "1.-5") = Done (Ok (95 * ONE / 100)).
Proof. vm_compute. reflexivity. Qed.

(** Dates survive printing and parsing exactly up to the year 9999; a later
    date prints to a string its own parser refuses. *)
Theorem date_text_roundtrip y m d h mi s dt :
  in_u 32 y = true -> 0 <= h -> 0 <= mi -> 0 <= s -> new y m d h mi s = Ok dt ->
  date_from_str (date_to_string dt)
  = Done (if year dt <=? 9999 then Ok dt else Err InvalidFormat).
Proof.
  intros Hy Hh Hmi Hs Hv%new_valid; [|done..]. destruct (year dt <=? 9999) eqn:E; zbool.
  - by apply date_roundtrip.
  - unfold date_from_str. rewrite date_to_string_length by done.
    pose proof (digits_long (year dt) 4 ltac:(lia) ltac:(lia)).
    by rewrite (proj2 (Z.eqb_neq _ _)) by lia.
Qed.

Lemma date_text_roundtrip_witness :
  date_from_str (date_to_string {| year := 10000; month := 2; day_of_month := 29; hour := 0;
    minute := 0; second := 0 |}) = Done (Err InvalidFormat).
Proof. apply (date_text_roundtrip 10000 2 29 0 0 0); try lia; reflexivity. Defined.

(** The parser checks characters but slices bytes: a string of 20 characters
    with the separators in place, whose fourth character takes two bytes. *)
Example date_parser_panics :
  date_from_str (lit "202" ++ [233] ++ lit "-01-27T12:17:25Z") = Panicked.
Proof. reflexivity. Qed.

End TextTheorems.
