(* ===== verification/Authorization.v ===== *)
(** * Authorization

    How a call is authorized (radix-engine/src/system/system_modules/auth/):
    the auth zones of the call stack and the creation of a new one
    (auth_module.rs), the resolution of a method to the permission it needs,
    and the evaluation of access rules against the auth zones a call can use
    (authorization.rs).  Auth zones live in a store by node id; a proof is
    represented by what its methods return.  Badges of packages and callers
    are hashes, so the functions that make them are parameters. *)

From S2P Require Import Prelude Decimals.
Import Int Dec.

(** ** Data *)

Abbreviation ResourceAddress := N (only parsing).
Abbreviation PackageAddress := N (only parsing).
Abbreviation GlobalAddress := N (only parsing).
Abbreviation LocalId := N (only parsing).
(** [NonFungibleGlobalId]: a resource and a local id. *)
Abbreviation GlobalId := (N * N)%type (only parsing).
Abbreviation BlueprintId := (N * string)%type (only parsing).

Inductive GlobalCaller : Type :=
| GlobalObject (a : GlobalAddress)
| PackageBlueprint (b : BlueprintId).

(** A proof as its methods see it; only proofs of non-fungibles have ids. *)
Record Proof : Type := {
  p_resource : ResourceAddress;
  p_amount : Decimal;
  p_ids : option (list LocalId)
}.

Record AuthZone : Type := {
  az_proofs : list Proof;
  simulate_all_proofs_under_resources : gset ResourceAddress;
  implicit_non_fungible_proofs : gset GlobalId;
  direct_caller_package_address : option PackageAddress;
  global_caller : option (GlobalCaller * NodeId);
  parent : option NodeId
}.

Inductive ResourceOrNonFungible : Type :=
| NonFungible (id : GlobalId)
| Resource (r : ResourceAddress).

Inductive BasicRequirement : Type :=
| Require (r : ResourceOrNonFungible)
| AmountOf (amount : Decimal) (r : ResourceAddress)
| CountOf (count : Z) (rs : list ResourceOrNonFungible)
| BasicAllOf (rs : list ResourceOrNonFungible)
| BasicAnyOf (rs : list ResourceOrNonFungible).

Inductive CompositeRequirement : Type :=
| Basic (b : BasicRequirement)
| AnyOf (cs : list CompositeRequirement)
| AllOf (cs : list CompositeRequirement).

Inductive AccessRule : Type :=
| AllowAll
| DenyAll
| Protected (c : CompositeRequirement).

Inductive AuthorizationCheckResult : Type :=
| Authorized
| Failed (stack : list AccessRule).


(** Errors of the layers below: an auth zone that is not there, the ids of a
    proof that has none, a role assignment that is not there; and, in the
    model, a chain of parents that does not end. *)
Inductive AuthRuntimeError : Type :=
| SubstateNotFound
| NoSuchProofMethod
| EndlessAuthZones.

Abbreviation AR := (Result AuthRuntimeError) (only parsing).
Abbreviation Zones := (gmap NodeId AuthZone) (only parsing).

Section Auth.
(** [NonFungibleGlobalId::global_caller_badge], [package_of_direct_caller_badge]
    and the marker of frame-owned callers. *)
Context (global_caller_badge : GlobalCaller -> GlobalId).
Context (package_of_direct_caller_badge : PackageAddress -> GlobalId).
Context (FRAME_OWNED_GLOBAL_MARKER : GlobalAddress).

Definition is_actually_frame_owned (c : GlobalCaller) : bool :=
  match c with
  | GlobalObject x => bool_decide (x = FRAME_OWNED_GLOBAL_MARKER)
  | PackageBlueprint _ => false
  end.

Definition local_implicit_non_fungible_proofs (z : AuthZone) : gset GlobalId :=
  (match direct_caller_package_address z with
   | Some p => {[ package_of_direct_caller_badge p ]}
   | None => ∅
   end) ∪
  (match global_caller z with
   | Some (c, _) => if negb (is_actually_frame_owned c) then {[ global_caller_badge c ]} else ∅
   | None => ∅
   end).

(** ** Matching proofs *)

Definition proof_matches (rule : ResourceOrNonFungible) (p : Proof) : AR bool :=
  match rule with
  | NonFungible id =>
      if bool_decide (p_resource p = id.1) then
        match p_ids p with
        | Some ids => Ok (bool_decide (id.2 ∈ ids))
        | None => Err NoSuchProofMethod
        end
      else Ok false
  | Resource r => Ok (bool_decide (p_resource p = r))
  end.

(** [for x in l { if f(x)? { return Ok(true) } } Ok(false)] *)
Fixpoint any_of {A} (f : A -> AR bool) (l : list A) : AR bool :=
  match l with
  | [] => Ok false
  | x :: l' => b ← f x; if (b : bool) then Ok true else any_of f l'
  end.

Fixpoint all_of {A} (f : A -> AR bool) (l : list A) : AR bool :=
  match l with
  | [] => Ok true
  | x :: l' => b ← f x; if (b : bool) then all_of f l' else Ok false
  end.

(** What a check sees of an auth zone. *)
Abbreviation Check := (list Proof -> gset ResourceAddress -> gset GlobalId -> AR bool) (only parsing).

Definition check_zone (check : Check) (z : AuthZone) : AR bool :=
  check (az_proofs z) (simulate_all_proofs_under_resources z) (implicit_non_fungible_proofs z).

(** The loop up the parents; the fuel bounds its length. *)
Fixpoint global_auth_zone_matches (fuel : nat) (zones : Zones) (check : Check) (id : NodeId) :
    AR bool :=
  match fuel with
  | O => Err EndlessAuthZones
  | S fuel' =>
      match zones !! id with
      | None => Err SubstateNotFound
      | Some z =>
          pass ← check_zone check z;
          if (pass : bool) then Ok true else
          match parent z with
          | Some p => global_auth_zone_matches fuel' zones check p
          | None => Ok false
          end
      end
  end.

Definition auth_zone_stack_matches (zones : Zones) (id : NodeId) (check : Check) : AR bool :=
  match zones !! id with
  | None => Err SubstateNotFound
  | Some z =>
      let local := local_implicit_non_fungible_proofs z in
      b ← (if bool_decide (local = ∅) then Ok false else check [] ∅ local);
      if (b : bool) then Ok true else
      b ← (match global_caller z with
           | Some (_, leaf) => global_auth_zone_matches (size zones) zones check leaf
           | None => Ok false
           end);
      if (b : bool) then Ok true else
      b ← (match parent z with
           | Some p => global_auth_zone_matches (size zones) zones check p
           | None => Ok false
           end);
      if (b : bool) then Ok true else Ok false
  end.

Definition auth_zone_stack_has_amount (zones : Zones) (id : NodeId) (resource : ResourceAddress)
    (amount : Decimal) : AR bool :=
  auth_zone_stack_matches zones id (fun proofs _ _ =>
    any_of (fun p => b ← proof_matches (Resource resource) p;
                     Ok ((b : bool) && (amount <=? p_amount p))) proofs).

Definition auth_zone_stack_matches_rule (zones : Zones) (id : NodeId)
    (rule : ResourceOrNonFungible) : AR bool :=
  auth_zone_stack_matches zones id (fun proofs virtual_resources virtual_non_fungibles =>
    let virtual :=
      match rule with
      | NonFungible gid =>
          bool_decide (gid ∈ virtual_non_fungibles) || bool_decide (gid.1 ∈ virtual_resources)
      | Resource _ => false
      end in
    if virtual then Ok true else any_of (proof_matches rule) proofs).

(** ** Rules *)

(** The loop of [CountOf]. *)
Fixpoint count_loop (f : ResourceOrNonFungible -> AR bool) (left : Z)
    (rs : list ResourceOrNonFungible) : AR bool :=
  match rs with
  | [] => Ok false
  | r :: rs' =>
      b ← f r;
      if (b : bool) then
        let left := left - 1 in
        if left =? 0 then Ok true else count_loop f left rs'
      else count_loop f left rs'
  end.

Definition verify_proof_rule (zones : Zones) (id : NodeId) (rule : BasicRequirement) : AR bool :=
  match rule with
  | Require r => auth_zone_stack_matches_rule zones id r
  | AmountOf amount r => auth_zone_stack_has_amount zones id r amount
  | BasicAllOf rs => all_of (auth_zone_stack_matches_rule zones id) rs
  | BasicAnyOf rs => any_of (auth_zone_stack_matches_rule zones id) rs
  | CountOf count rs =>
      if count =? 0 then Ok true
      else count_loop (auth_zone_stack_matches_rule zones id) count rs
  end.

Fixpoint verify_auth_rule (zones : Zones) (id : NodeId) (rule : CompositeRequirement) :
    AR AuthorizationCheckResult :=
  match rule with
  | Basic b =>
      ok ← verify_proof_rule zones id b;
      Ok (if (ok : bool) then Authorized else Failed [])
  | AnyOf rules =>
      (fix loop rs :=
         match rs with
         | [] => Ok (Failed [])
         | r :: rs' =>
             rtn ← verify_auth_rule zones id r;
             match rtn with Authorized => Ok rtn | Failed _ => loop rs' end
         end) rules
  | AllOf rules =>
      (fix loop rs :=
         match rs with
         | [] => Ok Authorized
         | r :: rs' =>
             rtn ← verify_auth_rule zones id r;
             match rtn with Failed _ => Ok rtn | Authorized => loop rs' end
         end) rules
  end.

Definition check_authorization_against_access_rule (zones : Zones) (id : NodeId)
    (rule : AccessRule) : AR AuthorizationCheckResult :=
  match rule with
  | Protected rule_node =>
      rtn ← verify_auth_rule zones id rule_node;
      Ok (match rtn with
          | Authorized => Authorized
          | Failed stack => Failed (stack ++ [rule])
          end)
  | AllowAll => Ok Authorized
  | DenyAll => Ok (Failed [rule])
  end.

(** ** Roles *)

Inductive ModuleId : Type := MainModule | MetadataModule | RoyaltyModule | RoleAssignmentModule.

#[export] Instance ModuleId_eq_dec : EqDecision ModuleId.
Proof. solve_decision. Defined.









(** ** Permissions of methods *)









(** ** New auth zones *)










End Auth.

(** ** Specification: the evidence a call can use *)
Module AuthSpec.
Section Spec.
Context (global_caller_badge : GlobalCaller -> GlobalId).
Context (package_of_direct_caller_badge : PackageAddress -> GlobalId).
Context (FRAME_OWNED_GLOBAL_MARKER : GlobalAddress).
(** Which resources are non-fungible. *)
Context (is_nf : ResourceAddress -> bool).

Local Abbreviation local_implicit :=
  (local_implicit_non_fungible_proofs global_caller_badge package_of_direct_caller_badge
     FRAME_OWNED_GLOBAL_MARKER).
Local Abbreviation stack_matches :=
  (auth_zone_stack_matches global_caller_badge package_of_direct_caller_badge
     FRAME_OWNED_GLOBAL_MARKER).
Local Abbreviation matches_rule :=
  (auth_zone_stack_matches_rule global_caller_badge package_of_direct_caller_badge
     FRAME_OWNED_GLOBAL_MARKER).
Local Abbreviation has_amount :=
  (auth_zone_stack_has_amount global_caller_badge package_of_direct_caller_badge
     FRAME_OWNED_GLOBAL_MARKER).
Local Abbreviation verify_basic :=
  (verify_proof_rule global_caller_badge package_of_direct_caller_badge FRAME_OWNED_GLOBAL_MARKER).
Local Abbreviation verify :=
  (verify_auth_rule global_caller_badge package_of_direct_caller_badge FRAME_OWNED_GLOBAL_MARKER).

(** Proofs, simulated resources and implicit badges of one origin. *)
Definition Source : Type := (list Proof * gset ResourceAddress * gset GlobalId)%type.
Definition zone_source (z : AuthZone) : Source :=
  (az_proofs z, simulate_all_proofs_under_resources z, implicit_non_fungible_proofs z).

(** The auth zones from a node up its parents. *)
Inductive Chain (zones : gmap NodeId AuthZone) : NodeId -> list (NodeId * AuthZone) -> Prop :=
| chain_top id z : zones !! id = Some z -> parent z = None -> Chain zones id [(id, z)]
| chain_up id z p l :
    zones !! id = Some z -> parent z = Some p -> Chain zones p l -> Chain zones id ((id, z) :: l).

Definition opt_chain (zones : gmap NodeId AuthZone) (o : option NodeId) (l : list (NodeId * AuthZone)) :=
  match o with None => l = [] | Some id => Chain zones id l end.

Definition local_source (z : AuthZone) : list Source :=
  if bool_decide (local_implicit z = ∅) then [] else [([], ∅, local_implicit z)].

(** The evidence of the zone at [id]: the badges of the caller, the zones of the
    global caller and those of the parents, its own proofs left out. *)
Definition evidence (zones : gmap NodeId AuthZone) (id : NodeId) (S : list Source) : Prop :=
  exists z gcs ps, zones !! id = Some z /\ opt_chain zones (snd <$> global_caller z) gcs /\
    opt_chain zones (parent z) ps /\
    S = local_source z ++ (zone_source <$> gcs.*2) ++ (zone_source <$> ps.*2).

(** When a rule holds of the evidence. *)
Definition proof_satisfies (r : ResourceOrNonFungible) (p : Proof) : bool :=
  match r with
  | NonFungible id => bool_decide (p_resource p = id.1) &&
                      bool_decide (id.2 ∈ default [] (p_ids p))
  | Resource a => bool_decide (p_resource p = a)
  end.

Definition source_matches (r : ResourceOrNonFungible) (s : Source) : bool :=
  (match r with
   | NonFungible id => bool_decide (id ∈ s.2) || bool_decide (id.1 ∈ s.1.2)
   | Resource _ => false
   end) || existsb (proof_satisfies r) s.1.1.

Definition holds_ref (S : list Source) (r : ResourceOrNonFungible) : bool :=
  existsb (source_matches r) S.

Definition holds_basic (S : list Source) (b : BasicRequirement) : bool :=
  match b with
  | Require r => holds_ref S r
  | AmountOf amount a =>
      existsb (fun s => existsb (fun p => bool_decide (p_resource p = a) &&
                                          (amount <=? p_amount p)) s.1.1) S
  | CountOf count rs => count <=? Z.of_nat (length (List.filter (holds_ref S) rs))
  | BasicAllOf rs => forallb (holds_ref S) rs
  | BasicAnyOf rs => existsb (holds_ref S) rs
  end.

Fixpoint holds (S : list Source) (c : CompositeRequirement) : bool :=
  match c with
  | Basic b => holds_basic S b
  | AnyOf cs => existsb (holds S) cs
  | AllOf cs => forallb (holds S) cs
  end.

Definition holds_rule (S : list Source) (r : AccessRule) : bool :=
  match r with AllowAll => true | DenyAll => false | Protected c => holds S c end.

(** Proofs of non-fungible resources, and only they, have ids; rules name ids
    only of non-fungible resources; counts are unsigned. *)
Definition proof_typed (p : Proof) : Prop := is_nf (p_resource p) = true -> p_ids p <> None.
Definition zones_typed (zones : gmap NodeId AuthZone) : Prop :=
  map_Forall (fun _ z => Forall proof_typed (az_proofs z)) zones.
Definition ref_typed (r : ResourceOrNonFungible) : bool :=
  match r with NonFungible id => is_nf id.1 | Resource _ => true end.
Definition basic_typed (b : BasicRequirement) : bool :=
  match b with
  | Require r => ref_typed r
  | AmountOf _ _ => true
  | CountOf count rs => (0 <=? count) && forallb ref_typed rs
  | BasicAllOf rs | BasicAnyOf rs => forallb ref_typed rs
  end.
Fixpoint comp_typed (c : CompositeRequirement) : bool :=
  match c with
  | Basic b => basic_typed b
  | AnyOf cs | AllOf cs => forallb comp_typed cs
  end.
Definition rule_typed (r : AccessRule) : bool :=
  match r with Protected c => comp_typed c | _ => true end.

(** *** Loops *)

Lemma any_of_spec {A} (f : A -> Result AuthRuntimeError bool) (g : A -> bool) l :
  (forall x, x ∈ l -> f x = Ok (g x)) -> any_of f l = Ok (existsb g l).
Proof.
  induction l as [|x l IH]; intros H; [done|]. cbn. rewrite H by set_solver. cbn.
  destruct (g x); [done|]. apply IH. set_solver.
Qed.

Lemma all_of_spec {A} (f : A -> Result AuthRuntimeError bool) (g : A -> bool) l :
  (forall x, x ∈ l -> f x = Ok (g x)) -> all_of f l = Ok (forallb g l).
Proof.
  induction l as [|x l IH]; intros H; [done|]. cbn. rewrite H by set_solver. cbn.
  destruct (g x); [|done]. apply IH. set_solver.
Qed.

Lemma any_of_app {A} (f : A -> Result AuthRuntimeError bool) l1 l2 :
  any_of f (l1 ++ l2) = (b ← any_of f l1; if (b : bool) then Ok true else any_of f l2).
Proof.
  induction l1 as [|x l1 IH]; cbn; [done|]. destruct (f x) as [[]|]; cbn; [done|apply IH|done].
Qed.

Lemma count_loop_spec (f : ResourceOrNonFungible -> Result AuthRuntimeError bool) g left rs :
  (forall x, x ∈ rs -> f x = Ok (g x)) -> 0 < left ->
  count_loop f left rs = Ok (left <=? Z.of_nat (length (List.filter g rs))).
Proof.
  revert left. induction rs as [|r rs IH]; intros left H Hl; cbn [count_loop List.filter].
  - cbn. by rewrite (proj2 (Z.leb_gt _ _)) by lia.
  - rewrite H by set_solver. cbn [mbind Result_bind].
    assert (Hr : forall x, x ∈ rs -> f x = Ok (g x)) by (intros; apply H; set_solver).
    destruct (g r); [|by apply IH].
    destruct (left - 1 =? 0) eqn:E; zbool; cbn [length].
    + by rewrite (proj2 (Z.leb_le _ _)) by lia.
    + rewrite IH by (try done; lia). f_equal.
      destruct (left - 1 <=? _) eqn:E1, (left <=? _) eqn:E2; zbool; try done; lia.
Qed.

(** *** Chains *)

Lemma chain_det zones id l l' : Chain zones id l -> Chain zones id l' -> l = l'.
Proof.
  intros H. revert l'. induction H as [id z Hz Hp|id z p l Hz Hp Hc IH]; intros l' H'.
  - inversion H'; simplify_eq; congruence.
  - inversion H'; simplify_eq. f_equal. auto.
Qed.

Lemma chain_suffix zones id l a z : Chain zones id l -> (a, z) ∈ l ->
  exists l', Chain zones a l' /\ (length l' <= length l)%nat.
Proof.
  induction 1 as [id z' Hz Hp|id z' p l Hz Hp Hc IH]; intros Hin.
  - apply list_elem_of_singleton in Hin as [= -> ->]. eexists. split; [by apply chain_top|done].
  - apply elem_of_cons in Hin as [[= -> ->]|Hin].
    + eexists. split; [by eapply chain_up|done].
    + destruct (IH Hin) as (l' & ? & ?). exists l'. split; [done|cbn; lia].
Qed.

Lemma chain_nodup zones id l : Chain zones id l -> NoDup (l.*1).
Proof.
  induction 1 as [id z Hz Hp|id z p l Hz Hp Hc IH]; cbn; [apply NoDup_singleton|].
  apply NoDup_cons. split; [|done]. intros ([a z'] & -> & Hin)%list_elem_of_fmap.
  destruct (chain_suffix _ _ _ _ _ Hc Hin) as (l' & Hl' & Hlen). cbn in *.
  pose proof (chain_up _ _ _ _ _ Hz Hp Hc) as Hc'.
  rewrite (chain_det _ _ _ _ Hl' Hc') in Hlen. cbn in Hlen. lia.
Qed.

Lemma chain_lookup zones id l a z : Chain zones id l -> (a, z) ∈ l -> zones !! a = Some z.
Proof.
  induction 1 as [id z' Hz Hp|id z' p l Hz Hp Hc IH]; intros Hin.
  - by apply list_elem_of_singleton in Hin as [= -> ->].
  - apply elem_of_cons in Hin as [[= -> ->]|Hin]; auto.
Qed.

(** A chain is no longer than the store: the fuel is enough. *)
Lemma chain_length zones id l : Chain zones id l -> (length l <= size zones)%nat.
Proof.
  intros Hc. rewrite <- (length_fmap fst l), <- size_dom.
  rewrite <- (size_list_to_set (C := gset NodeId) (l.*1)) by (by eapply chain_nodup).
  apply subseteq_size. intros a ([a' z] & -> & Hin)%elem_of_list_to_set%list_elem_of_fmap.
  apply elem_of_dom. exists z. by eapply chain_lookup.
Qed.

(** *** The loops compute over the evidence *)

Definition check_source (check : list Proof -> gset ResourceAddress -> gset GlobalId ->
    Result AuthRuntimeError bool) (s : Source) : Result AuthRuntimeError bool :=
  check s.1.1 s.1.2 s.2.

Lemma global_scan zones check fuel id l : Chain zones id l -> (length l <= fuel)%nat ->
  global_auth_zone_matches fuel zones check id = any_of (check_source check) (zone_source <$> l.*2).
Proof.
  intros Hc. revert fuel. induction Hc as [id z Hz Hp|id z p l Hz Hp Hc IH];
    intros [|fuel] Hl; cbn in Hl; try lia; cbn; rewrite Hz.
  - unfold check_zone, check_source. cbn. destruct (check _ _ _) as [[]|]; cbn; by rewrite ?Hp.
  - unfold check_zone, check_source. cbn. destruct (check _ _ _) as [[]|]; cbn; try done.
    rewrite Hp. apply IH. lia.
Qed.

Lemma stack_scan zones id S check : evidence zones id S ->
  stack_matches zones id check = any_of (check_source check) S.
Proof.
  intros (z & gcs & ps & Hz & Hg & Hp & ->). unfold auth_zone_stack_matches. rewrite Hz.
  rewrite !any_of_app. unfold local_source.
  assert (forall o l, opt_chain zones o l ->
    (match o with Some i => global_auth_zone_matches (size zones) zones check i | None => Ok false end)
    = any_of (check_source check) (zone_source <$> l.*2)) as Hscan.
  { intros [i|] l Hl; cbn in Hl; [|by subst]. apply global_scan; [done|].
    by eapply chain_length. }
  rewrite <- (Hscan _ _ Hg), <- (Hscan _ _ Hp).
  destruct (global_caller z) as [[gc leaf]|]; cbn [fmap option_fmap option_map snd];
    destruct (bool_decide (local_implicit z = ∅)); cbn; unfold check_source; cbn;
    repeat match goal with
    | |- context [mbind _ (global_auth_zone_matches ?n ?zs ?c ?i)] =>
        destruct (global_auth_zone_matches n zs c i) as [[]|]; cbn; try done
    | |- context [mbind _ (check ?a ?b ?c)] => destruct (check a b c) as [[]|]; cbn; try done
    | |- context [match parent z with _ => _ end] => destruct (parent z); cbn; try done
    | |- context [match check ?a ?b ?c with _ => _ end] => destruct (check a b c) as [[]|]; cbn; try done
    | |- context [match global_auth_zone_matches ?n ?zs ?c ?i with _ => _ end] =>
        destruct (global_auth_zone_matches n zs c i) as [[]|]; cbn; try done
    end.
Qed.

(** The proofs of the evidence are proofs of the zones. *)
Lemma evidence_typed zones id S : zones_typed zones -> evidence zones id S ->
  Forall (fun s : Source => Forall proof_typed s.1.1) S.
Proof.
  intros Ht (z & gcs & ps & Hz & Hg & Hp & ->).
  assert (forall o l, opt_chain zones o l ->
    Forall (fun s : Source => Forall proof_typed s.1.1) (zone_source <$> l.*2)) as Hchain.
  { intros o l Hl. apply Forall_fmap, Forall_fmap, Forall_forall. intros [a x] Hin. cbn.
    destruct o as [i|]; cbn in Hl; [|subst; by apply elem_of_nil in Hin].
    eapply (map_Forall_lookup_1 _ zones a x Ht). by eapply chain_lookup. }
  repeat apply Forall_app_2; eauto. unfold local_source.
  destruct (bool_decide _); by repeat constructor.
Qed.

Section Rules.
Context (zones : gmap NodeId AuthZone) (id : NodeId) (S : list Source).
Context (Hev : evidence zones id S) (Hty : zones_typed zones).

Lemma proof_matches_spec r p : ref_typed r = true -> proof_typed p ->
  proof_matches r p = Ok (proof_satisfies r p).
Proof using.
  intros Hr Hp. destruct r as [gid|a]; cbn in *; [|done].
  destruct (bool_decide (p_resource p = gid.1)) eqn:E; [|done].
  apply bool_decide_eq_true in E. unfold proof_typed in Hp. rewrite E in Hp.
  destruct (p_ids p); cbn; [done|by destruct Hp].
Qed.

Lemma matches_rule_spec r : ref_typed r = true -> matches_rule zones id r = Ok (holds_ref S r).
Proof using Hev Hty.
  intros Hr. unfold auth_zone_stack_matches_rule. rewrite (stack_scan _ _ _ _ Hev).
  apply any_of_spec. intros s Hs. unfold check_source, source_matches.
  pose proof (proj1 (Forall_forall _ _) (evidence_typed _ _ _ Hty Hev) _ Hs) as Hps.
  rewrite Forall_forall in Hps.
  rewrite (any_of_spec _ (proof_satisfies r)) by (intros; by apply proof_matches_spec; auto).
  by destruct r as [gid|a]; cbn; [destruct (_ || _)|].
Qed.

Lemma has_amount_spec a amount :
  has_amount zones id a amount = Ok (holds_basic S (AmountOf amount a)).
Proof using Hev Hty.
  unfold auth_zone_stack_has_amount. rewrite (stack_scan _ _ _ _ Hev).
  apply any_of_spec. intros s Hs. unfold check_source. by apply any_of_spec.
Qed.

Lemma verify_basic_spec b : basic_typed b = true ->
  verify_basic zones id b = Ok (holds_basic S b).
Proof using Hev Hty.
  intros Hb. destruct b as [r|amount a|count rs|rs|rs]; cbn [basic_typed] in Hb;
    cbn [verify_proof_rule].
  - by apply matches_rule_spec.
  - apply has_amount_spec.
  - zbool. rewrite forallb_forall in *. destruct (count =? 0) eqn:E; zbool.
    + subst. cbn. by rewrite (proj2 (Z.leb_le _ _)) by lia.
    + cbn. apply count_loop_spec; [|lia]. intros x Hx. apply matches_rule_spec.
      match goal with H : forall x, In x rs -> _ |- _ => apply H end. by apply list_elem_of_In.
  - apply all_of_spec. intros x Hx. apply matches_rule_spec. rewrite forallb_forall in Hb.
    apply Hb. by apply list_elem_of_In.
  - apply any_of_spec. intros x Hx. apply matches_rule_spec. rewrite forallb_forall in Hb.
    apply Hb. by apply list_elem_of_In.
Qed.

Fixpoint verify_spec (c : CompositeRequirement) {struct c} : comp_typed c = true ->
  verify zones id c = Ok (if holds S c then Authorized else Failed []).
Proof using Hev Hty.
  intros Hc. destruct c as [b|cs|cs]; cbn [comp_typed] in Hc; cbn [verify_auth_rule holds].
  - rewrite verify_basic_spec by done. done.
  - induction cs as [|c cs IH]; [done|]. cbn in Hc. apply andb_true_iff in Hc as [H1 H2].
    rewrite (verify_spec c H1). cbn. destruct (holds S c); [done|]. by apply IH.
  - induction cs as [|c cs IH]; [done|]. cbn in Hc. apply andb_true_iff in Hc as [H1 H2].
    rewrite (verify_spec c H1). cbn. destruct (holds S c); [|done]. by apply IH.
Qed.

Lemma check_rule_spec rule : rule_typed rule = true ->
  check_authorization_against_access_rule global_caller_badge package_of_direct_caller_badge
    FRAME_OWNED_GLOBAL_MARKER zones id rule
  = Ok (if holds_rule S rule then Authorized else Failed [rule]).
Proof using Hev Hty.
  intros Hr. destruct rule as [| |c]; [done|done|]. cbn in *. rewrite verify_spec by done. cbn.
  by destruct (holds S c).
Qed.

End Rules.

(** *** More evidence *)

Definition source_le (s s' : Source) : Prop :=
  s.1.1 ⊆ s'.1.1 /\ s.1.2 ⊆ s'.1.2 /\ s.2 ⊆ s'.2.
Definition sources_le (S S' : list Source) : Prop :=
  forall s, s ∈ S -> exists s', s' ∈ S' /\ source_le s s'.

Lemma existsb_mono {A} (f : A -> bool) l l' : l ⊆ l' -> existsb f l = true -> existsb f l' = true.
Proof using.
  rewrite !existsb_exists. intros Hl (x & Hx & Hf). exists x. split; [|done].
  apply list_elem_of_In, Hl, list_elem_of_In, Hx.
Qed.

Lemma existsb_sources S S' (f : Source -> bool) :
  sources_le S S' -> (forall s s', source_le s s' -> f s = true -> f s' = true) ->
  existsb f S = true -> existsb f S' = true.
Proof using.
  rewrite !existsb_exists. intros Hle Hf (s & Hs%list_elem_of_In & Hfs).
  destruct (Hle s Hs) as (s' & Hs' & Hss). exists s'. split; [by apply list_elem_of_In|eauto].
Qed.

Lemma holds_ref_mono S S' r : sources_le S S' -> holds_ref S r = true -> holds_ref S' r = true.
Proof using.
  intros Hle. apply existsb_sources; [done|]. intros s s' (Hp & Hr & Hn). unfold source_matches.
  rewrite !orb_true_iff. intros [H|H]; [left|right; by eapply existsb_mono].
  destruct r as [gid|a]; [|done]. rewrite orb_true_iff, !bool_decide_eq_true in *.
  destruct H as [H|H]; [left; by apply Hn|right; by apply Hr].
Qed.

Lemma holds_basic_mono S S' b : sources_le S S' -> holds_basic S b = true -> holds_basic S' b = true.
Proof using.
  intros Hle. destruct b as [r|amount a|count rs|rs|rs]; cbn.
  - by apply holds_ref_mono.
  - apply existsb_sources; [done|]. intros s s' (Hp & _ & _). by apply existsb_mono.
  - rewrite !Z.leb_le. intros H.
    enough (length (List.filter (holds_ref S) rs) <= length (List.filter (holds_ref S') rs))%nat by lia.
    clear H. induction rs as [|r rs IH]; [done|]. cbn.
    destruct (holds_ref S r) eqn:E; [rewrite (holds_ref_mono _ _ _ Hle E)|destruct (holds_ref S' r)];
      cbn; lia.
  - rewrite !forallb_forall. intros H x Hx. by eapply holds_ref_mono; auto.
  - rewrite !existsb_exists. intros (x & Hx & H). exists x. split; [done|]. by eapply holds_ref_mono.
Qed.

Fixpoint holds_mono S S' (Hle : sources_le S S') (c : CompositeRequirement) {struct c} :
  holds S c = true -> holds S' c = true.
Proof using.
  destruct c as [b|cs|cs]; cbn [holds].
  - by apply holds_basic_mono.
  - induction cs as [|c cs IH]; [done|]. cbn. rewrite !orb_true_iff.
    intros [H|H]; [left; by apply (holds_mono S S' Hle c)|right; auto].
  - induction cs as [|c cs IH]; [done|]. cbn. rewrite !andb_true_iff.
    intros [H1 H2]. split; [by apply (holds_mono S S' Hle c)|auto].
Qed.

Lemma holds_rule_mono S S' r : sources_le S S' -> holds_rule S r = true -> holds_rule S' r = true.
Proof using. intros Hle. destruct r; cbn; [done|done|by apply holds_mono]. Qed.

(** *** Changing or adding a zone *)

Lemma chain_insert zones id l a z : Chain zones id l -> a ∉ l.*1 -> Chain (<[a := z]> zones) id l.
Proof.
  induction 1 as [id z' Hz Hp|id z' p l Hz Hp Hc IH]; cbn; rewrite not_elem_of_cons; intros [Hne Hn].
  - apply chain_top; [by rewrite lookup_insert_ne by congruence|done].
  - eapply chain_up; [by rewrite lookup_insert_ne by congruence|done|auto].
Qed.

Lemma opt_chain_insert zones o l a z :
  opt_chain zones o l -> a ∉ l.*1 -> opt_chain (<[a := z]> zones) o l.
Proof. destruct o; cbn; [by apply chain_insert|done]. Qed.


(** *** The evidence of a call *)










Lemma evidence_own zones id z z' S :
  zones !! id = Some z -> direct_caller_package_address z' = direct_caller_package_address z ->
  global_caller z' = global_caller z -> parent z' = parent z ->
  (forall l, opt_chain zones (snd <$> global_caller z) l \/ opt_chain zones (parent z) l ->
             id ∉ l.*1) ->
  evidence zones id S -> evidence (<[id := z']> zones) id S.
Proof.
  intros Hz Hd Hg Hp Hfresh (z0 & gcs & ps & Hz0 & Hgc & Hps & ->). simplify_eq.
  exists z', gcs, ps. rewrite Hg, Hp. split_and!.
  - by rewrite lookup_insert_eq.
  - apply opt_chain_insert; auto.
  - apply opt_chain_insert; auto.
  - unfold local_source, local_implicit_non_fungible_proofs. by rewrite Hd, Hg.
Qed.

Lemma zones_typed_insert zones id z :
  zones_typed zones -> Forall proof_typed (az_proofs z) -> zones_typed (<[id := z]> zones).
Proof. intros. by apply map_Forall_insert_2. Qed.

(** *** Calls to role protected methods *)




End Spec.
End AuthSpec.

(** ** Theorems *)
Module AuthTheorems.
Import AuthSpec.
Section Theorems.
Context (caller_badge : GlobalCaller -> GlobalId) (package_badge : PackageAddress -> GlobalId).
Context (marker : GlobalAddress) (is_nf : ResourceAddress -> bool).


(** A frame cannot authorize itself: whatever proofs are put into the auth
    zone of the running frame, the authorization of that frame is unchanged. *)
Theorem own_zone_ignored zones id z z' S rule :
  zones_typed is_nf zones -> Forall (proof_typed is_nf) (az_proofs z') ->
  rule_typed is_nf rule = true -> evidence caller_badge package_badge marker zones id S ->
  zones !! id = Some z ->
  direct_caller_package_address z' = direct_caller_package_address z ->
  global_caller z' = global_caller z -> parent z' = parent z ->
  (forall l, opt_chain zones (snd <$> global_caller z) l \/ opt_chain zones (parent z) l ->
             id ∉ l.*1) ->
  check_authorization_against_access_rule caller_badge package_badge marker
    (<[id := z']> zones) id rule
  = check_authorization_against_access_rule caller_badge package_badge marker zones id rule.
Proof.
  intros Hty Hz' Hr Hev Hz Hd Hg Hp Hfresh.
  rewrite (check_rule_spec caller_badge package_badge marker is_nf zones id S) by done.
  apply check_rule_spec with is_nf; [|by apply zones_typed_insert|done].
  by eapply evidence_own.
Qed.

(** More evidence never revokes an authorization: a rule that holds still
    holds when proofs, simulated resources, badges or further zones are added. *)
Theorem more_evidence_authorizes zones id S zones' id' S' rule :
  zones_typed is_nf zones -> zones_typed is_nf zones' -> rule_typed is_nf rule = true ->
  evidence caller_badge package_badge marker zones id S ->
  evidence caller_badge package_badge marker zones' id' S' -> sources_le S S' ->
  check_authorization_against_access_rule caller_badge package_badge marker zones id rule
    = Ok Authorized ->
  check_authorization_against_access_rule caller_badge package_badge marker zones' id' rule
    = Ok Authorized.
Proof.
  intros Ht Ht' Hr He He' Hle.
  rewrite (check_rule_spec caller_badge package_badge marker is_nf zones id S) by done.
  rewrite (check_rule_spec caller_badge package_badge marker is_nf zones' id' S') by done.
  destruct (holds_rule S rule) eqn:E; [|done].
  by rewrite (holds_rule_mono S S').
Qed.


End Theorems.

(** *** A concrete call stack: the transaction processor and a component it
    called. *)

Definition demo_caller_badge (c : GlobalCaller) : GlobalId :=
  match c with GlobalObject a => (1000, a)%N | PackageBlueprint b => (1000, 500000 + b.1)%N end.
Definition demo_package_badge (p : PackageAddress) : GlobalId := (1001, p)%N.
Definition demo_nf (r : ResourceAddress) : bool := (1000 <=? r)%N.

Definition demo_root : AuthZone := {|
  az_proofs := [{| p_resource := 5; p_amount := 3 * ONE; p_ids := None |};
                {| p_resource := 1005; p_amount := ONE; p_ids := Some [7%N] |}];
  simulate_all_proofs_under_resources := ∅; implicit_non_fungible_proofs := ∅;
  direct_caller_package_address := None; global_caller := None; parent := None |}.
Definition demo_callee (proofs : list Proof) : AuthZone := {|
  az_proofs := proofs; simulate_all_proofs_under_resources := ∅;
  implicit_non_fungible_proofs := ∅; direct_caller_package_address := Some 50%N;
  global_caller := Some (PackageBlueprint (50%N, "TransactionProcessor"%string), 1%N);
  parent := None |}.
Definition demo_zones : gmap NodeId AuthZone :=
  <[2%N := demo_callee []]> (<[1%N := demo_root]> ∅).
Definition demo_rule : AccessRule :=
  Protected (AllOf [Basic (Require (NonFungible (1005, 7)%N)); Basic (AmountOf (2 * ONE) 5)]).
Definition demo_evidence : list Source :=
  local_source demo_caller_badge demo_package_badge 999 (demo_callee []) ++ [zone_source demo_root].

Lemma demo_has_evidence :
  evidence demo_caller_badge demo_package_badge 999 demo_zones 2 demo_evidence.
Proof.
  exists (demo_callee []), [(1%N, demo_root)], []. split; [done|]. split; [|done].
  apply chain_top; done.
Qed.

Lemma demo_typed : zones_typed demo_nf demo_zones.
Proof.
  apply zones_typed_insert; [apply zones_typed_insert; [apply map_Forall_empty|]|];
    repeat constructor; done.
Qed.


(** A proof of resource 6 in the running frame's own zone does not count. *)
Lemma own_zone_ignored_witness :
  let z' := demo_callee [{| p_resource := 6; p_amount := ONE; p_ids := None |}] in
  let rule := Protected (Basic (Require (Resource 6))) in
  check_authorization_against_access_rule demo_caller_badge demo_package_badge 999
    (<[2%N := z']> demo_zones) 2 rule = Ok (Failed [rule]).
Proof.
  intros z' rule.
  rewrite (own_zone_ignored demo_caller_badge demo_package_badge 999 demo_nf demo_zones 2
    (demo_callee []) z' demo_evidence rule).
  - vm_compute. reflexivity.
  - exact demo_typed.
  - repeat constructor. cbn. discriminate.
  - reflexivity.
  - exact demo_has_evidence.
  - reflexivity.
  - reflexivity.
  - reflexivity.
  - reflexivity.
  - intros l [Hl|Hl]; cbn in Hl.
    + rewrite (chain_det _ _ _ _ Hl (chain_top demo_zones 1%N demo_root eq_refl eq_refl)). cbn.
      intros H. apply list_elem_of_singleton in H. discriminate H.
    + rewrite Hl. intros H. by apply elem_of_nil in H.
Defined.

Lemma more_evidence_authorizes_witness :
  check_authorization_against_access_rule demo_caller_badge demo_package_badge 999 demo_zones 2
    demo_rule = Ok Authorized.
Proof.
  apply (more_evidence_authorizes demo_caller_badge demo_package_badge 999 demo_nf demo_zones 2
    demo_evidence demo_zones 2 demo_evidence demo_rule demo_typed demo_typed eq_refl
    demo_has_evidence demo_has_evidence).
  - intros s Hs. exists s. repeat split; done.
  - vm_compute. reflexivity.
Defined.



End AuthTheorems.
