(* ===== verification/IdValidator.v ===== *)
(** * Manifest id validation

    The static check that a transaction manifest uses its buckets, proofs,
    address reservations and named addresses consistently
    (radix-transactions/src/validation/id_validator.rs, with the counters of
    id_allocator.rs).  Of a manifest value the check only reads the ids in it,
    in the order of the traversal of data/transformer.rs, so a value is the
    tree of its parts; what the traversal builds is thrown away. *)

From stdpp Require Import sorting.
From S2P Require Import Prelude.
Import Int.

(** ** State *)

Inductive ProofKind : Type :=
| BucketProof (bucket : Z)
| AuthZoneProof.

#[export] Instance ProofKind_eq_dec : EqDecision ProofKind.
Proof. solve_decision. Defined.

Record ManifestIdAllocator : Type := {
  next_bucket_id : Z;
  next_proof_id : Z;
  next_address_reservation_id : Z;
  next_address_id : Z;
  next_intent_id : Z
}.

Record BasicManifestValidator : Type := {
  id_allocator : ManifestIdAllocator;
  bucket_ids : gmap Z Z;
  proof_ids : gmap Z ProofKind;
  address_reservation_ids : gset Z;
  address_ids : gset Z;
  intent_ids : gset Z
}.

Inductive ManifestIdValidationError : Type :=
| BucketNotFound (b : Z)
| ProofNotFound (p : Z)
| BucketLocked (b : Z)
| AddressReservationNotFound (r : Z)
| AddressNotFound (a : Z)
| IntentNotFound (i : Z).

Definition validator_new : BasicManifestValidator := {|
  id_allocator := {| next_bucket_id := 0; next_proof_id := 0; next_address_reservation_id := 0;
                     next_address_id := 0; next_intent_id := 0 |};
  bucket_ids := ∅; proof_ids := ∅; address_reservation_ids := ∅; address_ids := ∅;
  intent_ids := ∅ |}.

Abbreviation VM := (M BasicManifestValidator ManifestIdValidationError) (only parsing).

Section Updates.
Context (v : BasicManifestValidator).
Definition with_alloc (a : ManifestIdAllocator) : BasicManifestValidator := {|
  id_allocator := a; bucket_ids := bucket_ids v; proof_ids := proof_ids v;
  address_reservation_ids := address_reservation_ids v; address_ids := address_ids v;
  intent_ids := intent_ids v |}.
Definition with_buckets (b : gmap Z Z) : BasicManifestValidator := {|
  id_allocator := id_allocator v; bucket_ids := b; proof_ids := proof_ids v;
  address_reservation_ids := address_reservation_ids v; address_ids := address_ids v;
  intent_ids := intent_ids v |}.
Definition with_proofs (p : gmap Z ProofKind) : BasicManifestValidator := {|
  id_allocator := id_allocator v; bucket_ids := bucket_ids v; proof_ids := p;
  address_reservation_ids := address_reservation_ids v; address_ids := address_ids v;
  intent_ids := intent_ids v |}.
Definition with_addresses (r a i : gset Z) : BasicManifestValidator := {|
  id_allocator := id_allocator v; bucket_ids := bucket_ids v; proof_ids := proof_ids v;
  address_reservation_ids := r; address_ids := a; intent_ids := i |}.
End Updates.

(** ** The id allocator *)

Definition new_bucket_id : VM Z :=
  a ← gets id_allocator;
  modify (fun v => with_alloc v {|
    next_bucket_id := wrap_u 32 (next_bucket_id a + 1); next_proof_id := next_proof_id a;
    next_address_reservation_id := next_address_reservation_id a;
    next_address_id := next_address_id a; next_intent_id := next_intent_id a |});;
  mret (next_bucket_id a).

Definition new_proof_id : VM Z :=
  a ← gets id_allocator;
  modify (fun v => with_alloc v {|
    next_bucket_id := next_bucket_id a; next_proof_id := wrap_u 32 (next_proof_id a + 1);
    next_address_reservation_id := next_address_reservation_id a;
    next_address_id := next_address_id a; next_intent_id := next_intent_id a |});;
  mret (next_proof_id a).

Definition new_address_reservation_id : VM Z :=
  a ← gets id_allocator;
  modify (fun v => with_alloc v {|
    next_bucket_id := next_bucket_id a; next_proof_id := next_proof_id a;
    next_address_reservation_id := wrap_u 32 (next_address_reservation_id a + 1);
    next_address_id := next_address_id a; next_intent_id := next_intent_id a |});;
  mret (next_address_reservation_id a).

Definition new_address_id : VM Z :=
  a ← gets id_allocator;
  modify (fun v => with_alloc v {|
    next_bucket_id := next_bucket_id a; next_proof_id := next_proof_id a;
    next_address_reservation_id := next_address_reservation_id a;
    next_address_id := wrap_u 32 (next_address_id a + 1); next_intent_id := next_intent_id a |});;
  mret (next_address_id a).

Definition new_named_intent_id : VM Z :=
  a ← gets id_allocator;
  modify (fun v => with_alloc v {|
    next_bucket_id := next_bucket_id a; next_proof_id := next_proof_id a;
    next_address_reservation_id := next_address_reservation_id a;
    next_address_id := next_address_id a; next_intent_id := wrap_u 32 (next_intent_id a + 1) |});;
  mret (next_intent_id a).

(** ** The validator *)

Definition new_bucket : VM Z :=
  bucket_id ← new_bucket_id;
  modify (fun v => with_buckets v (<[bucket_id := 0]> (bucket_ids v)));;
  mret bucket_id.

Definition drop_bucket (bucket_id : Z) : VM unit :=
  v ← gets id;
  match bucket_ids v !! bucket_id with
  | Some cnt =>
      if cnt =? 0 then modify (fun v => with_buckets v (delete bucket_id (bucket_ids v)))
      else throw (BucketLocked bucket_id)
  | None => throw (BucketNotFound bucket_id)
  end.

(** [if let Some(cnt) = self.bucket_ids.get_mut(b) { *cnt += d } else { otherwise }] *)
Definition bump (bucket_id d : Z) (otherwise : VM unit) : VM unit :=
  v ← gets id;
  match bucket_ids v !! bucket_id with
  | Some cnt =>
      modify (fun v => with_buckets v (<[bucket_id := wrap_u 64 (cnt + d)]> (bucket_ids v)))
  | None => otherwise
  end.

Definition add_proof (kind : ProofKind) : VM Z :=
  proof_id ← new_proof_id;
  modify (fun v => with_proofs v (<[proof_id := kind]> (proof_ids v)));;
  mret proof_id.

Definition new_proof (kind : ProofKind) : VM Z :=
  match kind with
  | BucketProof bucket_id => bump bucket_id 1 (throw (BucketNotFound bucket_id))
  | AuthZoneProof => mret tt
  end;;
  add_proof kind.

Definition clone_proof (proof_id : Z) : VM Z :=
  v ← gets id;
  match proof_ids v !! proof_id with
  | Some kind =>
      match kind with
      | BucketProof bucket_id => bump bucket_id 1 panic
      | AuthZoneProof => mret tt
      end;;
      add_proof kind
  | None => throw (ProofNotFound proof_id)
  end.

Definition drop_proof (proof_id : Z) : VM unit :=
  v ← gets id;
  match proof_ids v !! proof_id with
  | Some kind =>
      modify (fun v => with_proofs v (delete proof_id (proof_ids v)));;
      match kind with
      | BucketProof bucket_id => bump bucket_id (-1) panic
      | AuthZoneProof => mret tt
      end
  | None => throw (ProofNotFound proof_id)
  end.

Fixpoint drop_proofs (ids : list Z) : VM unit :=
  match ids with
  | [] => mret tt
  | i :: ids' => drop_proof i;; drop_proofs ids'
  end.

(** The keys of the map in ascending order. *)
Definition proof_keys (v : BasicManifestValidator) : list Z :=
  merge_sort Z.le (map_to_list (proof_ids v)).*1.

Definition drop_all_named_proofs : VM unit :=
  v ← gets id; drop_proofs (proof_keys v).

Definition new_address_reservation : VM Z :=
  r ← new_address_reservation_id;
  modify (fun v => with_addresses v ({[r]} ∪ address_reservation_ids v) (address_ids v) (intent_ids v));;
  mret r.

Definition drop_address_reservation (r : Z) : VM unit :=
  v ← gets id;
  if bool_decide (r ∈ address_reservation_ids v) then
    modify (fun v => with_addresses v (address_reservation_ids v ∖ {[r]}) (address_ids v) (intent_ids v))
  else throw (AddressReservationNotFound r).

Definition new_named_address : VM Z :=
  a ← new_address_id;
  modify (fun v => with_addresses v (address_reservation_ids v) ({[a]} ∪ address_ids v) (intent_ids v));;
  mret a.

Definition check_bucket (bucket_id : Z) : VM unit :=
  v ← gets id;
  if bool_decide (is_Some (bucket_ids v !! bucket_id)) then mret tt
  else throw (BucketNotFound bucket_id).

Definition check_named_address (a : Z) : VM unit :=
  v ← gets id;
  if bool_decide (a ∈ address_ids v) then mret tt else throw (AddressNotFound a).

Definition new_intent : VM Z :=
  i ← new_named_intent_id;
  modify (fun v => with_addresses v (address_reservation_ids v) (address_ids v) ({[i]} ∪ intent_ids v));;
  mret i.

(** ** Call data

    The value of a call, with the constructors of [sbor::Value] and
    [ManifestCustomValue]; the payloads of the leaves the traversal copies
    without calling its handler are left out.  (The conversions of these
    leaves do not fail on decoded values: a decoded local id has passed the
    checks its conversion repeats.) *)

Inductive ManifestValue : Type :=
| Primitive                        (** [Bool], the integers, [String] *)
| Enum (fields : list ManifestValue)
| Array (elements : list ManifestValue)
| Tuple (fields : list ManifestValue)
| Map (entries : list (ManifestValue * ManifestValue))
| StaticAddress
| NamedAddress (a : Z)
| Bucket (b : Z)
| ProofValue (p : Z)
| AddressReservation (r : Z)
| Expression
| Blob
| PlainCustom.                     (** [Decimal], [PreciseDecimal], [NonFungibleLocalId] *)

Fixpoint process_call_data (args : ManifestValue) : VM unit :=
  let fix items (vs : list ManifestValue) : VM unit :=
    match vs with
    | [] => mret tt
    | v :: vs' => process_call_data v;; items vs'
    end in
  let fix pairs (es : list (ManifestValue * ManifestValue)) : VM unit :=
    match es with
    | [] => mret tt
    | (k, v) :: es' => process_call_data k;; process_call_data v;; pairs es'
    end in
  match args with
  | Primitive | StaticAddress | Expression | Blob | PlainCustom => mret tt
  | Enum vs | Array vs | Tuple vs => items vs
  | Map es => pairs es
  | NamedAddress a => check_named_address a
  | Bucket b => drop_bucket b
  | ProofValue p => drop_proof p
  | AddressReservation r => drop_address_reservation r
  end.

(** ** Instructions

    An instruction by its effect; the fields the validator does not read are
    left out. *)

Inductive ProofSourceAmount : Type :=
| AuthZonePopLastAddedProof
| AuthZoneAllOf (resource_address : Z)
| AuthZoneAmount (resource_address amount : Z)
| AuthZoneNonFungibles (resource_address : Z) (ids : list Z)
| BucketAllOf (bucket : Z)
| BucketAmount (bucket amount : Z)
| BucketNonFungibles (bucket : Z) (ids : list Z).

Definition proof_kind (s : ProofSourceAmount) : ProofKind :=
  match s with
  | AuthZonePopLastAddedProof | AuthZoneAllOf _ | AuthZoneAmount _ _ | AuthZoneNonFungibles _ _ =>
      AuthZoneProof
  | BucketAllOf bucket | BucketAmount bucket _ | BucketNonFungibles bucket _ => BucketProof bucket
  end.

Inductive ManifestInstructionEffect : Type :=
| CreateBucket
| CreateProof (source_amount : ProofSourceAmount)
| ConsumeBucket (consumed_bucket : Z)
| ConsumeProof (consumed_proof : Z)
| CloneProof (cloned_proof : Z)
| DropManyProofs (drop_all_named_proofs drop_all_authzone_signature_proofs
                  drop_all_authzone_non_signature_proofs : bool)
| Invocation (args : ManifestValue)
| CreateAddressAndReservation
| ResourceAssertion
| Verification.

Definition validate_instruction (effect : ManifestInstructionEffect) : VM unit :=
  match effect with
  | CreateBucket => new_bucket;; mret tt
  | CreateProof source_amount => new_proof (proof_kind source_amount);; mret tt
  | ConsumeBucket bucket => drop_bucket bucket
  | ConsumeProof proof => drop_proof proof
  | CloneProof cloned_proof => clone_proof cloned_proof;; mret tt
  | DropManyProofs all_named _ _ => if all_named then drop_all_named_proofs else mret tt
  | Invocation args => process_call_data args
  | CreateAddressAndReservation => new_address_reservation;; new_named_address;; mret tt
  | ResourceAssertion => mret tt
  | Verification => panic
  end.

Fixpoint validate_loop (instructions : list ManifestInstructionEffect) : VM unit :=
  match instructions with
  | [] => mret tt
  | i :: rest => validate_instruction i;; validate_loop rest
  end.

Definition validate_instructions_basic_v1 (instructions : list ManifestInstructionEffect)
    : Exec (Result ManifestIdValidationError unit) :=
  r ← validate_loop instructions validator_new; mret (fst r).

(** ** Specification

    What a well-formed manifest is, without lock counts and counters of a
    fixed width: every id is used after the instruction that created it and,
    for buckets, reservations and proofs, before the one that consumed it; a
    bucket is not consumed while a proof of it is alive. *)

Module ManifestSpec.

Inductive IdRef : Type :=
| UseBucket (b : Z)
| UseProof (p : Z)
| UseReservation (r : Z)
| UseAddress (a : Z).

Record Usage : Type := mk_usage {
  u_next_bucket : Z;
  u_next_proof : Z;
  u_next_address : Z;
  u_buckets : gset Z;
  u_proofs : gmap Z ProofKind;
  u_reservations : gset Z
}.

Definition usage_init : Usage := mk_usage 0 0 0 ∅ ∅ ∅.

(** The ids in a call's arguments, from left to right. *)
Fixpoint refs (v : ManifestValue) : list IdRef :=
  match v with
  | Primitive | StaticAddress | Expression | Blob | PlainCustom => []
  | Enum vs | Array vs | Tuple vs => concat (map refs vs)
  | Map es => concat (map (fun e => refs e.1 ++ refs e.2) es)
  | NamedAddress a => [UseAddress a]
  | Bucket b => [UseBucket b]
  | ProofValue p => [UseProof p]
  | AddressReservation r => [UseReservation r]
  end.

Definition no_proof_of (b : Z) (u : Usage) : Prop :=
  forall p, u_proofs u !! p <> Some (BucketProof b).

Inductive use : Usage -> IdRef -> Usage -> Prop :=
| use_bucket nb np na bs ps rs b :
    b ∈ bs -> no_proof_of b (mk_usage nb np na bs ps rs) ->
    use (mk_usage nb np na bs ps rs) (UseBucket b) (mk_usage nb np na (bs ∖ {[b]}) ps rs)
| use_proof nb np na bs ps rs p k :
    ps !! p = Some k ->
    use (mk_usage nb np na bs ps rs) (UseProof p) (mk_usage nb np na bs (delete p ps) rs)
| use_reservation nb np na bs ps rs r :
    r ∈ rs ->
    use (mk_usage nb np na bs ps rs) (UseReservation r) (mk_usage nb np na bs ps (rs ∖ {[r]}))
| use_address u a :
    0 <= a < u_next_address u -> use u (UseAddress a) u.

Inductive uses : Usage -> list IdRef -> Usage -> Prop :=
| uses_nil u : uses u [] u
| uses_cons u r u1 rs u2 : use u r u1 -> uses u1 rs u2 -> uses u (r :: rs) u2.

Definition add_proof_spec (k : ProofKind) (u : Usage) : Usage :=
  mk_usage (u_next_bucket u) (u_next_proof u + 1) (u_next_address u) (u_buckets u)
    (<[u_next_proof u := k]> (u_proofs u)) (u_reservations u).

Definition kind_ok (k : ProofKind) (u : Usage) : Prop :=
  match k with BucketProof b => b ∈ u_buckets u | AuthZoneProof => True end.

Inductive step : Usage -> ManifestInstructionEffect -> Usage -> Prop :=
| step_create_bucket nb np na bs ps rs :
    step (mk_usage nb np na bs ps rs) CreateBucket (mk_usage (nb + 1) np na ({[nb]} ∪ bs) ps rs)
| step_create_proof u s :
    kind_ok (proof_kind s) u -> step u (CreateProof s) (add_proof_spec (proof_kind s) u)
| step_consume_bucket u b u' : use u (UseBucket b) u' -> step u (ConsumeBucket b) u'
| step_consume_proof u p u' : use u (UseProof p) u' -> step u (ConsumeProof p) u'
| step_clone_proof u p k : u_proofs u !! p = Some k -> step u (CloneProof p) (add_proof_spec k u)
| step_drop_proofs nb np na bs ps rs all s n :
    step (mk_usage nb np na bs ps rs) (DropManyProofs all s n)
      (mk_usage nb np na bs (if all then ∅ else ps) rs)
| step_invocation u args u' : uses u (refs args) u' -> step u (Invocation args) u'
| step_create_address nb np na bs ps rs :
    step (mk_usage nb np na bs ps rs) CreateAddressAndReservation
      (mk_usage nb np (na + 1) bs ps ({[na]} ∪ rs))
| step_assertion u : step u ResourceAssertion u.

Inductive steps : Usage -> list ManifestInstructionEffect -> Usage -> Prop :=
| steps_nil u : steps u [] u
| steps_cons u e u1 es u2 : step u e u1 -> steps u1 es u2 -> steps u (e :: es) u2.

Definition well_formed (es : list ManifestInstructionEffect) : Prop :=
  exists u, steps usage_init es u.

Definition ref_bucket (r : IdRef) : option Z :=
  match r with UseBucket b => Some b | _ => None end.
Definition ref_reservation (r : IdRef) : option Z :=
  match r with UseReservation r => Some r | _ => None end.

(** The ids an instruction consumes. *)
Definition consumed (e : ManifestInstructionEffect) : list IdRef :=
  match e with
  | ConsumeBucket b => [UseBucket b]
  | ConsumeProof p => [UseProof p]
  | Invocation args => refs args
  | _ => []
  end.

Definition creates_bucket (e : ManifestInstructionEffect) : bool :=
  match e with CreateBucket => true | _ => false end.
Definition creates_reservation (e : ManifestInstructionEffect) : bool :=
  match e with CreateAddressAndReservation => true | _ => false end.

(** How many instructions of a manifest create an id of a kind. *)
Definition created (creates : ManifestInstructionEffect -> bool)
    (es : list ManifestInstructionEffect) : Z :=
  foldr (fun e n => n + (if creates e then 1 else 0)) 0 es.

(** The ids of a kind an instruction consumes. *)
Definition taken (sel : IdRef -> option Z) (e : ManifestInstructionEffect) : list Z :=
  omap sel (consumed e).

End ManifestSpec.

(** ** Lemmas on the specification *)

Module SpecLemmas.
Import ManifestSpec.

(** The number of live proofs of a bucket. *)
Definition live (b : Z) (ps : gmap Z ProofKind) : Z :=
  msum (fun k => if decide (k = BucketProof b) then 1 else 0) ps.

Record usage_ok (n : Z) (u : Usage) : Prop := {
  ok_next_bucket : 0 <= u_next_bucket u <= n;
  ok_next_proof : 0 <= u_next_proof u <= n;
  ok_next_address : 0 <= u_next_address u <= n;
  ok_buckets : forall b, b ∈ u_buckets u -> 0 <= b < u_next_bucket u;
  ok_proofs : forall p k, u_proofs u !! p = Some k -> 0 <= p < u_next_proof u;
  ok_reservations : forall r, r ∈ u_reservations u -> 0 <= r < u_next_address u;
  ok_live : forall b, live b (u_proofs u) <= u_next_proof u;
  ok_owned : forall p b, u_proofs u !! p = Some (BucketProof b) -> b ∈ u_buckets u
}.

Lemma live_nonneg b ps : 0 <= live b ps.
Proof. apply msum_nonneg. intros. by case_decide. Qed.

Lemma live_insert b k p ps :
  ps !! p = None ->
  live b (<[p := k]> ps) = (if decide (k = BucketProof b) then 1 else 0) + live b ps.
Proof. apply msum_insert_fresh. Qed.

Lemma live_delete b k p ps :
  ps !! p = Some k ->
  live b (delete p ps) = live b ps - (if decide (k = BucketProof b) then 1 else 0).
Proof. intros Hp. unfold live. rewrite (msum_delete _ ps p k Hp). lia. Qed.

Lemma live_zero b u : live b (u_proofs u) = 0 <-> no_proof_of b u.
Proof.
  unfold no_proof_of. split.
  - intros Hz p Hp. pose proof (live_nonneg b (delete p (u_proofs u))) as Hn.
    rewrite (live_delete _ _ _ _ Hp), Hz, decide_True in Hn by done. lia.
  - generalize (u_proofs u) as ps. unfold live, msum. intros ps. apply (map_fold_weak_ind
      (fun r m => (forall p, m !! p <> Some (BucketProof b)) -> r = 0)); [done|].
    intros p k m r Hp IH Hno. rewrite decide_False.
    + rewrite IH; [done|]. intros p' Hp'. apply (Hno p').
      rewrite lookup_insert_ne by congruence. done.
    + intros ->. apply (Hno p). by rewrite lookup_insert_eq.
Qed.

Lemma usage_init_ok : usage_ok 0 usage_init.
Proof. split; cbn; [lia..| | | | |]; try set_solver. Qed.

Lemma usage_ok_mono n n' u : usage_ok n u -> n <= n' -> usage_ok n' u.
Proof. intros [] ?. split; eauto; lia. Qed.

Lemma use_ok n u r u' : usage_ok n u -> use u r u' -> usage_ok n u'.
Proof.
  intros [H1 H2 H3 H4 H5 H6 H7 H8] Hu. destruct Hu as [nb np na bs ps rs b Hb Hno|nb np na bs ps rs p k Hp| |]; split; cbn in *; auto.
  - intros b'. rewrite elem_of_difference. naive_solver.
  - intros p b' Hp. apply elem_of_difference. split; [by eapply H8|].
    intros ->%elem_of_singleton. by apply (Hno p).
  - intros p' k' [_ ?]%lookup_delete_Some. eauto.
  - intros b. rewrite (live_delete _ _ _ _ Hp). specialize (H7 b). case_decide; lia.
  - intros p' b [_ ?]%lookup_delete_Some. eauto.
  - intros r'. rewrite elem_of_difference. naive_solver.
Qed.

Lemma uses_ok n u rs u' : usage_ok n u -> uses u rs u' -> usage_ok n u'.
Proof. intros Hok Hu. induction Hu; [done|]. eauto using use_ok. Qed.

Lemma add_proof_ok n u k : usage_ok n u -> kind_ok k u -> usage_ok (n + 1) (add_proof_spec k u).
Proof.
  intros [H1 H2 H3 H4 H5 H6 H7 H8] Hk. split; cbn; auto; try lia.
  - intros p k' [[<- <-]|[_ Hp]]%lookup_insert_Some; [lia|]. specialize (H5 _ _ Hp). lia.
  - intros b. rewrite live_insert; [specialize (H7 b); case_decide; lia|].
    destruct (u_proofs u !! _) eqn:E; [|done]. apply H5 in E. lia.
  - intros p b [[<- ->]|[_ Hp]]%lookup_insert_Some; [done|eauto].
Qed.

Lemma kind_ok_lookup n u p k : usage_ok n u -> u_proofs u !! p = Some k -> kind_ok k u.
Proof. intros Hok Hp. destruct k; [|done]. by eapply ok_owned. Qed.

Lemma step_ok n u e u' : usage_ok n u -> step u e u' -> usage_ok (n + 1) u'.
Proof.
  intros Hok Hs. destruct Hs as [| | | | |nb np na bs ps rs [] sg ns| | |];
    try (eapply (usage_ok_mono n); [by eauto using use_ok, uses_ok|lia]).
  - destruct Hok as [H1 H2 H3 H4 H5 H6 H7 H8]. split; cbn in *; auto; try lia.
    + intros b [->%elem_of_singleton|Hb]%elem_of_union; [lia|]. apply H4 in Hb. lia.
    + intros p b Hp. apply elem_of_union. right. eauto.
  - by apply add_proof_ok.
  - apply add_proof_ok; [done|]. by eapply kind_ok_lookup.
  - destruct Hok as [H1 H2 H3 H4 H5 H6 H7 H8]. split; cbn in *; auto; try lia; try done.
    intros b. unfold live. rewrite msum_empty. lia.
  - destruct Hok as [H1 H2 H3 H4 H5 H6 H7 H8]. split; cbn in *; auto; try lia.
    intros r [->%elem_of_singleton|Hr]%elem_of_union; [lia|]. apply H6 in Hr. lia.
Qed.

Lemma use_det u r u1 u2 : use u r u1 -> use u r u2 -> u1 = u2.
Proof. intros H1 H2. destruct H1; inversion H2; by simplify_eq. Qed.

Lemma uses_det u rs u1 u2 : uses u rs u1 -> uses u rs u2 -> u1 = u2.
Proof.
  intros H1. revert u2. induction H1 as [|u r u1 rs u3 Hr Hrs IH]; intros u2 H2;
    inversion H2 as [|? ? u1' ? ? Hr' ?]; subst; [done|].
  rewrite (use_det _ _ _ _ Hr' Hr) in *. auto.
Qed.

Lemma step_det u e u1 u2 : step u e u1 -> step u e u2 -> u1 = u2.
Proof. intros H1 H2. destruct H1; inversion H2; simplify_eq; eauto using use_det, uses_det. Qed.

End SpecLemmas.

(** ** The validator against the specification *)

Module ValidatorLemmas.
Import ManifestSpec SpecLemmas.

(** The state of the validator that stands for a usage: the lock count of a
    bucket is the number of its live proofs. *)
Record represents (v : BasicManifestValidator) (u : Usage) : Prop := {
  rep_next_bucket : next_bucket_id (id_allocator v) = u_next_bucket u;
  rep_next_proof : next_proof_id (id_allocator v) = u_next_proof u;
  rep_next_reservation : next_address_reservation_id (id_allocator v) = u_next_address u;
  rep_next_address : next_address_id (id_allocator v) = u_next_address u;
  rep_buckets : forall b, bucket_ids v !! b =
    if decide (b ∈ u_buckets u) then Some (live b (u_proofs u)) else None;
  rep_proofs : proof_ids v = u_proofs u;
  rep_reservations : address_reservation_ids v = u_reservations u;
  rep_addresses : forall a, a ∈ address_ids v <-> 0 <= a < u_next_address u
}.

(** A computation implements a transition of the specification: it succeeds
    exactly when there is one, and never panics. *)
Definition implements {A} (m : VM A) (T : Usage -> Usage -> Prop) : Prop :=
  forall n v u, represents v u -> usage_ok n u -> n < 2 ^ 32 - 1 ->
    wp m v (fun _ v' => exists u', T u u' /\ represents v' u') (fun _ _ => forall u', ~ T u u').

Lemma drop_bucket_implements b :
  implements (drop_bucket b) (fun u u' => use u (UseBucket b) u').
Proof.
  intros n v u Hr Hok Hn. unfold drop_bucket. wp_steps.
  rewrite (rep_buckets _ _ Hr). case_decide as Hb.
  2: { wp_steps. intros u' Hu. by inversion Hu; subst. }
  destruct (live b (u_proofs u) =? 0) eqn:Hz; zbool; wp_steps.
  2: { intros u' Hu. inversion Hu; subst. by apply Hz, live_zero. }
  destruct u as [nb np na bs ps rs]. apply live_zero in Hz.
  eexists. split; [by constructor|]. destruct Hr as [? ? ? ? Hbs ? ? ?]. split; cbn in *; auto.
  intros b'. destruct (decide (b' = b)) as [->|].
  - rewrite lookup_delete_eq, decide_False; set_solver.
  - rewrite lookup_delete_ne, Hbs by done. repeat case_decide; set_solver.
Qed.

(** The map of the lock counts after the count of one bucket has moved with
    the number of its proofs. *)
Lemma bump_counts (m : gmap Z Z) (bs : gset Z) ps ps' k d b :
  (forall b, m !! b = if decide (b ∈ bs) then Some (live b ps) else None) ->
  (forall b', live b' ps' = live b' ps + (if decide (k = BucketProof b') then d else 0)) ->
  k = BucketProof b -> b ∈ bs -> 0 <= live b ps + d < 2 ^ 64 ->
  forall b', <[b := wrap_u 64 (live b ps + d)]> m !! b' =
    if decide (b' ∈ bs) then Some (live b' ps') else None.
Proof.
  intros Hm Hl -> Hb Hd b'. destruct (decide (b' = b)) as [->|].
  - rewrite lookup_insert_eq, decide_True, Hl, decide_True by done. f_equal.
    apply wrap_u_small. unfold u_max. lia.
  - rewrite lookup_insert_ne, Hm by done. case_decide; [|done].
    rewrite Hl, decide_False by congruence. f_equal. lia.
Qed.

Lemma drop_proof_implements p :
  implements (drop_proof p) (fun u u' => use u (UseProof p) u').
Proof.
  intros n v u Hr Hok Hn. unfold drop_proof. wp_steps. unfold id. rewrite (rep_proofs _ _ Hr).
  destruct (u_proofs u !! p) as [k|] eqn:Hp.
  2: { wp_steps. intros u' Hu. inversion Hu; subst. cbn in Hp. congruence. }
  wp_steps. destruct u as [nb np na bs ps rs]. cbn in Hp.
  assert (forall b, live b (delete p ps) = live b ps + (if decide (k = BucketProof b) then -1 else 0))
    as Hl by (intros b; rewrite (live_delete _ _ _ _ Hp); case_decide; lia).
  pose proof (use_proof nb np na bs ps rs p k Hp) as Hu.
  destruct k as [b|].
  - assert (b ∈ bs) as Hb by (by eapply (ok_owned _ _ Hok)).
    unfold bump. wp_steps. unfold id. cbn [bucket_ids with_proofs]. rewrite (rep_buckets _ _ Hr), decide_True by done. wp_steps.
    eexists. split; [exact Hu|]. destruct Hr as [? ? ? ? Hbs Hps ? ?].
    split; cbn in *; auto; [|by rewrite Hps].
    apply (bump_counts _ _ _ _ (BucketProof b)); auto.
    pose proof (live_nonneg b (delete p ps)) as Hnn. rewrite Hl, decide_True in Hnn by done.
    pose proof (ok_live _ _ Hok b). pose proof (ok_next_proof _ _ Hok). cbn in *. lia.
  - wp_steps. eexists. split; [exact Hu|]. destruct Hr as [? ? ? ? Hbs Hps ? ?].
    split; cbn in *; auto; [|by rewrite Hps].
    intros b. rewrite Hbs. case_decide; [|done]. f_equal. rewrite Hl, decide_False by done. lia.
Qed.

Lemma drop_reservation_implements r :
  implements (drop_address_reservation r) (fun u u' => use u (UseReservation r) u').
Proof.
  intros n v u Hr Hok Hn. unfold drop_address_reservation. wp_steps. unfold id.
  rewrite (rep_reservations _ _ Hr). case_bool_decide as Hb; wp_steps.
  2: { intros u' Hu. by inversion Hu; subst. }
  destruct u as [nb np na bs ps rs]. eexists. split; [by constructor|].
  destruct Hr. split; cbn in *; auto. by f_equal.
Qed.

Lemma check_address_implements a :
  implements (check_named_address a) (fun u u' => use u (UseAddress a) u').
Proof.
  intros n v u Hr Hok Hn. unfold check_named_address. wp_steps. unfold id.
  case_bool_decide as Hb; wp_steps; rewrite (rep_addresses _ _ Hr) in Hb.
  - exists u. split; [by constructor|done].
  - intros u' Hu. by inversion Hu; subst.
Qed.

(** Both ways to make a proof: the bucket is locked once more, the proof gets
    a fresh id. *)
Lemma lock_and_add n v u k (otherwise : Z -> VM unit) R :
  represents v u -> usage_ok n u -> n < 2 ^ 32 - 1 -> kind_ok k u ->
  wp (match k with
      | BucketProof b => bump b 1 (otherwise b)
      | AuthZoneProof => mret tt
      end;; add_proof k) v (fun _ v' => represents v' (add_proof_spec k u)) R.
Proof.
  intros Hr Hok Hn Hk. pose proof (ok_next_proof _ _ Hok) as Hnp.
  assert (u_proofs u !! u_next_proof u = None) as Hfresh.
  { destruct (u_proofs u !! _) eqn:E; [|done]. apply (ok_proofs _ _ Hok) in E. lia. }
  assert (forall b, live b (<[u_next_proof u := k]> (u_proofs u)) =
            live b (u_proofs u) + (if decide (k = BucketProof b) then 1 else 0)) as Hl
    by (intros b; rewrite live_insert by done; case_decide; lia).
  assert (wrap_u 32 (u_next_proof u + 1) = u_next_proof u + 1) as Hw
    by (apply wrap_u_small; unfold u_max; lia).
  destruct k as [b|].
  - unfold bump, add_proof, new_proof_id. wp_steps. unfold id. cbn [kind_ok] in Hk.
    rewrite (rep_buckets _ _ Hr), decide_True by done. wp_steps.
    destruct Hr as [? Hp ? ? Hbs Hps ? ?]. split; cbn in *; auto; rewrite ?Hp, ?Hps; auto.
    apply (bump_counts _ _ _ _ (BucketProof b)); auto.
    pose proof (live_nonneg b (u_proofs u)). pose proof (ok_live _ _ Hok b). lia.
  - unfold add_proof, new_proof_id. wp_steps.
    destruct Hr as [? Hp ? ? Hbs Hps ? ?]. split; cbn in *; auto; rewrite ?Hp, ?Hps; auto.
    intros b. rewrite Hbs. case_decide; [|done]. rewrite Hl, decide_False by done. f_equal. lia.
Qed.

Lemma implements_iff {A} (m : VM A) (T T' : Usage -> Usage -> Prop) :
  implements m T -> (forall u u', T u u' <-> T' u u') -> implements m T'.
Proof.
  intros Hm Hiff n v u Hr Hok Hn. eapply wp_mono; [by apply (Hm n)| |].
  - cbn. intros _ v' (u' & ? & ?). exists u'. by rewrite <- Hiff.
  - cbn. intros _ _ Hno u' Hu. apply (Hno u'). by rewrite Hiff.
Qed.

Lemma new_bucket_implements : implements (new_bucket;; mret tt) (fun u u' => step u CreateBucket u').
Proof.
  intros n v u Hr Hok Hn. unfold new_bucket, new_bucket_id. wp_steps.
  destruct u as [nb np na bs ps rs]. eexists. split; [by constructor|].
  pose proof (ok_next_bucket _ _ Hok) as Hnb. pose proof (ok_buckets _ _ Hok) as Hlt.
  pose proof (ok_owned _ _ Hok) as Hown.
  destruct Hr as [Hb ? ? ? Hbs ? ? ?]. split; cbn in *; auto.
  - rewrite Hb. apply wrap_u_small. unfold u_max. lia.
  - intros b. rewrite Hb. destruct (decide (b = nb)) as [->|].
    + rewrite lookup_insert_eq, decide_True by set_solver. f_equal. symmetry.
      apply (live_zero nb (mk_usage nb np na bs ps rs)). intros p Hp.
      apply Hown, Hlt in Hp. lia.
    + rewrite lookup_insert_ne, Hbs by done. repeat case_decide; set_solver.
Qed.

Lemma new_proof_implements s :
  implements (new_proof (proof_kind s);; mret tt) (fun u u' => step u (CreateProof s) u').
Proof.
  intros n v u Hr Hok Hn. wp_step.
  assert (kind_ok (proof_kind s) u \/
          exists b, proof_kind s = BucketProof b /\ b ∉ u_buckets u) as [Hk|(b & Hs & Hb)].
  { destruct (proof_kind s) as [b|]; cbn; [|by left]. destruct (decide (b ∈ u_buckets u)); eauto. }
  - eapply wp_mono; [by eapply (lock_and_add n v u _ (fun b => throw (BucketNotFound b)))| |].
    + intros p v' Hv. wp_steps. exists (add_proof_spec (proof_kind s) u). by split; [constructor|].
    + intros e v' H. exact H.
  - unfold new_proof, bump. rewrite Hs. wp_steps. unfold id.
    rewrite (rep_buckets _ _ Hr), decide_False by done. wp_steps.
    intros u' Hu. inversion Hu as [|? ? Hk | | | | | | |]; subst. by rewrite Hs in Hk.
Qed.

Lemma clone_proof_implements p :
  implements (clone_proof p;; mret tt) (fun u u' => step u (CloneProof p) u').
Proof.
  intros n v u Hr Hok Hn. unfold clone_proof. wp_steps. unfold id. rewrite (rep_proofs _ _ Hr).
  destruct (u_proofs u !! p) as [k|] eqn:Hp.
  2: { wp_steps. intros u' Hu. inversion Hu; congruence. }
  eapply wp_mono; [eapply (lock_and_add n v u k (fun _ => panic)); eauto using kind_ok_lookup| |].
  - intros q v' Hv. wp_steps. exists (add_proof_spec k u). by split; [constructor|].
  - intros e v' H. exact H.
Qed.

Lemma create_address_implements :
  implements (new_address_reservation;; new_named_address;; mret tt)
    (fun u u' => step u CreateAddressAndReservation u').
Proof.
  intros n v u Hr Hok Hn. unfold new_address_reservation, new_address_reservation_id,
    new_named_address, new_address_id. wp_steps.
  destruct u as [nb np na bs ps rs]. eexists. split; [by constructor|].
  pose proof (ok_next_address _ _ Hok) as Hna.
  assert (wrap_u 32 (na + 1) = na + 1) as Hw
    by (apply wrap_u_small; cbn in Hna; unfold u_max; lia).
  destruct Hr as [? ? Hres Ha Hbs ? Hrs Has]. split; cbn in *; auto; rewrite ?Hres, ?Ha, ?Hrs; auto.
  intros a. rewrite elem_of_union, elem_of_singleton, Has. lia.
Qed.

(** Dropping live proofs one after the other succeeds and leaves the others. *)
Lemma drop_proofs_all n ids v u :
  represents v u -> usage_ok n u -> n < 2 ^ 32 - 1 -> NoDup ids ->
  (forall p, p ∈ ids <-> is_Some (u_proofs u !! p)) ->
  wp (drop_proofs ids) v
    (fun _ v' => represents v' (mk_usage (u_next_bucket u) (u_next_proof u) (u_next_address u)
                                  (u_buckets u) ∅ (u_reservations u)))
    (fun _ _ => False).
Proof.
  revert v u. induction ids as [|p ids IH]; intros v u Hr Hok Hn Hnd Hin; cbn [drop_proofs].
  - wp_steps. destruct u as [nb np na bs ps rs]. cbn in *.
    replace (∅ : gmap Z ProofKind) with ps; [done|]. apply map_empty. intros p.
    destruct (ps !! p) eqn:E; [|done]. exfalso. apply (not_elem_of_nil p), Hin. by rewrite E.
  - apply NoDup_cons in Hnd as [Hp Hnd]. wp_step.
    assert (is_Some (u_proofs u !! p)) as [k Hk] by (apply Hin; set_solver).
    assert (use u (UseProof p) (mk_usage (u_next_bucket u) (u_next_proof u) (u_next_address u)
      (u_buckets u) (delete p (u_proofs u)) (u_reservations u))) as Hu
      by (destruct u; by econstructor).
    eapply wp_mono; [by apply (drop_proof_implements p n v u)| |]; cbn beta.
    + intros _ v' (u' & Hu' & Hr'). rewrite (use_det _ _ _ _ Hu' Hu) in Hr'.
      apply (IH v' _ Hr'); auto; [by eapply use_ok|]. intros q. cbn.
      rewrite lookup_delete_is_Some, <- Hin. set_solver.
    + intros e v' Hno. by apply (Hno _ Hu).
Qed.

Lemma drop_many_implements all s ns :
  implements (if all : bool then drop_all_named_proofs else mret tt)
    (fun u u' => step u (DropManyProofs all s ns) u').
Proof.
  intros n v u Hr Hok Hn. destruct all.
  - unfold drop_all_named_proofs. wp_steps. eapply wp_mono; [eapply drop_proofs_all; eauto| |].
    + unfold proof_keys, id. rewrite (rep_proofs _ _ Hr), merge_sort_Permutation.
      apply NoDup_fst_map_to_list.
    + intros p. unfold proof_keys, id. rewrite (rep_proofs _ _ Hr), merge_sort_Permutation.
      rewrite list_elem_of_fmap. split.
      * intros ([q k] & -> & Hq%elem_of_map_to_list). eauto.
      * intros [k Hk]. exists (p, k). split; [done|]. by apply elem_of_map_to_list.
    + intros a v' Hr'. eexists. split; [|exact Hr']. destruct u. constructor.
    + done.
  - wp_steps. exists u. split; [|done]. destruct u. constructor.
Qed.

(** *** Call data *)

Lemma uses_app u a b u' : uses u (a ++ b) u' <-> exists u1, uses u a u1 /\ uses u1 b u'.
Proof.
  revert u. induction a as [|r a IH]; intros u; cbn.
  - split; [intros H; exists u; split; [constructor|done]|].
    intros (u1 & H1 & H2). inversion H1; by subst.
  - split.
    + intros H. inversion H as [|? ? u0 ? ? Hr Hrs]; subst. apply IH in Hrs as (u1 & ? & ?).
      exists u1. split; [by econstructor|done].
    + intros (u1 & H1 & H2). inversion H1 as [|? ? u0 ? ? Hr Hrs]; subst.
      econstructor; [done|]. apply IH. eauto.
Qed.

Lemma uses_single u r u' : use u r u' <-> uses u [r] u'.
Proof.
  split.
  - intros H. econstructor; [done|constructor].
  - intros H. inversion H as [|? ? u0 ? ? Hr Hrs]; subst. inversion Hrs; by subst.
Qed.

Definition performs (m : VM unit) (rs : list IdRef) : Prop :=
  implements m (fun u u' => uses u rs u').

Lemma performs_nil : performs (mret tt) [].
Proof. intros n v u Hr Hok Hn. wp_steps. exists u. split; [constructor|done]. Qed.

Lemma performs_app m m' a b : performs m a -> performs m' b -> performs (m;; m') (a ++ b).
Proof.
  intros Hm Hm' n v u Hr Hok Hn. wp_step. eapply wp_mono; [by apply (Hm n)| |]; cbn beta.
  - intros _ v1 (u1 & Hu1 & Hr1).
    eapply wp_mono; [by apply (Hm' n v1 u1); eauto using uses_ok| |]; cbn beta.
    + intros _ v2 (u2 & Hu2 & Hr2). exists u2. split; [|done]. apply uses_app. eauto.
    + intros e v2 Hno u2 (u1' & H1 & H2)%uses_app.
      rewrite (uses_det _ _ _ _ H1 Hu1) in H2. by apply (Hno u2).
  - intros e v1 Hno u2 (u1' & H1 & H2)%uses_app. by apply (Hno u1').
Qed.

Lemma performs_one m r : implements m (fun u u' => use u r u') -> performs m [r].
Proof. intros Hm. eapply implements_iff; [done|]. cbn. intros u u'. apply uses_single. Qed.

Lemma process_call_data_performs : forall args, performs (process_call_data args) (refs args).
Proof.
  fix IH 1. intros [|vs|vs|vs|es| |a|b|p|r| | |]; try apply performs_nil.
  1-3: cbn [process_call_data refs]; induction vs as [|w vs IHvs]; cbn [map concat];
    [apply performs_nil|apply performs_app; [apply IH|exact IHvs]].
  - cbn [process_call_data refs]. induction es as [|[k w] es IHes]; cbn [map concat];
      [apply performs_nil|]. rewrite <- app_assoc. cbn [fst snd].
    apply performs_app; [apply IH|]. apply performs_app; [apply IH|exact IHes].
  - apply performs_one, check_address_implements.
  - apply performs_one, drop_bucket_implements.
  - apply performs_one, drop_proof_implements.
  - apply performs_one, drop_reservation_implements.
Qed.

(** *** Instructions *)

Lemma validate_instruction_implements e :
  e <> Verification -> implements (validate_instruction e) (fun u u' => step u e u').
Proof.
  intros Hv. destruct e; cbn [validate_instruction].
  - apply new_bucket_implements.
  - apply new_proof_implements.
  - eapply implements_iff; [apply drop_bucket_implements|].
    intros u u'. split; [by constructor|by inversion 1].
  - eapply implements_iff; [apply drop_proof_implements|].
    intros u u'. split; [by constructor|by inversion 1].
  - apply clone_proof_implements.
  - apply drop_many_implements.
  - eapply implements_iff; [apply process_call_data_performs|].
    intros u u'. split; [by constructor|by inversion 1].
  - apply create_address_implements.
  - intros n v u Hr Hok Hn. wp_steps. exists u. split; [constructor|done].
  - done.
Qed.

Lemma validate_loop_correct es n v u :
  represents v u -> usage_ok n u -> n + Z.of_nat (length es) < 2 ^ 32 -> Verification ∉ es ->
  wp (validate_loop es) v (fun _ v' => exists u', steps u es u' /\ represents v' u')
    (fun _ _ => forall u', ~ steps u es u').
Proof.
  revert n v u. induction es as [|e es IH]; intros n v u Hr Hok Hn Hv; cbn [validate_loop].
  - wp_steps. exists u. split; [constructor|done].
  - cbn [length] in Hn. apply not_elem_of_cons in Hv as [Hv Hvs]. wp_step.
    eapply wp_mono; [apply (validate_instruction_implements e ltac:(congruence) n v u); auto; lia| |]; cbn beta.
    + intros _ v1 (u1 & H1 & Hr1).
      eapply wp_mono; [by eapply (IH (n + 1) v1 u1); eauto using step_ok; lia| |]; cbn beta.
      * intros _ v2 (u2 & H2 & Hr2). exists u2. split; [by econstructor|done].
      * intros err v2 Hno u2 H2. inversion H2 as [|? ? u1' ? ? H1' Hes]; subst.
        rewrite (step_det _ _ _ _ H1' H1) in Hes. by apply (Hno u2).
    + intros err v1 Hno u2 H2. inversion H2 as [|? ? u1' ? ? H1' Hes]; subst. by apply (Hno u1').
Qed.

Lemma validator_new_represents : represents validator_new usage_init.
Proof. split; cbn; auto; set_solver by lia. Qed.

End ValidatorLemmas.

(** ** Linear use of ids *)

Module LinearUse.
Import ManifestSpec SpecLemmas.

Lemma uses_sel u rs u' (sel : IdRef -> option Z) (S : Usage -> gset Z) :
  (forall u r u', use u r u' ->
     match sel r with Some x => x ∈ S u /\ S u' = S u ∖ {[x]} | None => S u' = S u end) ->
  uses u rs u' ->
  NoDup (omap sel rs) /\ (forall x, x ∈ omap sel rs -> x ∈ S u) /\
  (forall x, x ∈ S u' <-> x ∈ S u /\ x ∉ omap sel rs).
Proof.
  intros Huse Hu. induction Hu as [u|u r u1 rs u2 Hr Hrs (IH1 & IH2 & IH3)].
  { split_and!; [constructor|set_solver..]. }
  apply Huse in Hr. cbn. destruct (sel r) as [x|]; cbn; [|by rewrite <- Hr].
  destruct Hr as [Hx HS]. rewrite HS in IH2, IH3. split_and!.
  - apply NoDup_cons. split; [|done]. intros Hin. apply IH2 in Hin. set_solver.
  - set_solver.
  - intros y. rewrite IH3, not_elem_of_cons. set_solver.
Qed.

(** A kind of id: its uses, the set of those alive, the counter the fresh
    ones come from, and what the specification's transitions do with them. *)
Class IdKind (sel : IdRef -> option Z) (alive : Usage -> gset Z) (fresh_id : Usage -> Z)
    (creates : ManifestInstructionEffect -> bool) : Prop := {
  use_sel : forall u r u', use u r u' ->
    match sel r with Some x => x ∈ alive u /\ alive u' = alive u ∖ {[x]} | None => alive u' = alive u end;
  use_N : forall u r u', use u r u' -> fresh_id u' = fresh_id u;
  create_step : forall u e u', step u e u' -> consumed e = [] ->
    fresh_id u' = fresh_id u + (if creates e then 1 else 0) /\
    (forall x, x ∈ alive u' -> x ∈ alive u \/ x = fresh_id u /\ creates e);
  creates_consumed : forall e, consumed e <> [] -> creates e = false;
  S_bound : forall n u, usage_ok n u -> forall x, x ∈ alive u -> 0 <= x < fresh_id u
}.

Section Linear.
Context {sel alive fresh_id creates} `{Kind : IdKind sel alive fresh_id creates}.

Lemma uses_N u rs u' : uses u rs u' -> fresh_id u' = fresh_id u.
Proof. induction 1 as [|u r u1 rs u2 Hr Hrs IH]; [done|]. rewrite IH. by eapply use_N. Qed.

Lemma step_uses u e u' : step u e u' -> consumed e <> [] -> uses u (consumed e) u'.
Proof. destruct 1; cbn; try done; intros _; by econstructor; [|constructor]. Qed.

Lemma step_taken u e u' n :
  usage_ok n u -> step u e u' ->
  NoDup (taken sel e) /\ (forall x, x ∈ taken sel e -> x ∈ alive u) /\
  fresh_id u' = fresh_id u + (if creates e then 1 else 0) /\
  (forall x, x ∈ alive u' -> x ∉ taken sel e /\ (x ∈ alive u \/ fresh_id u <= x)).
Proof.
  intros Hok Hs. unfold taken. destruct (decide (consumed e = [])) as [He|He].
  - destruct (create_step _ _ _ Hs He) as [HN HS]. rewrite He. cbn.
    split_and!; [constructor|set_solver|done|]. intros x Hx. split; [set_solver|].
    destruct (HS x Hx) as [?|[-> _]]; [by left|right; lia].
  - pose proof (step_uses _ _ _ Hs He) as Hu.
    destruct (uses_sel _ _ _ sel alive use_sel Hu) as (H1 & H2 & H3).
    rewrite (uses_N _ _ _ Hu), (creates_consumed e He).
    split_and!; [done..|lia|]. intros x Hx%H3. naive_solver.
Qed.

Lemma steps_taken n u es u' :
  usage_ok n u -> steps u es u' ->
  NoDup (concat (map (taken sel) es)) /\
  (forall x, x ∈ concat (map (taken sel) es) -> x ∈ alive u \/ fresh_id u <= x).
Proof.
  intros Hok Hs. revert n Hok. induction Hs as [u|u e u1 es u2 He Hes IH]; intros n Hok; cbn.
  { split; [constructor|set_solver]. }
  destruct (step_taken _ _ _ _ Hok He) as (H1 & H2 & H3 & H4).
  destruct (IH _ (step_ok _ _ _ _ Hok He)) as [IH1 IH2]. split.
  - apply NoDup_app. split_and!; [done| |done]. intros x Hx Hin.
    pose proof (S_bound _ _ Hok x (H2 x Hx)) as Hb.
    apply IH2 in Hin as [Hin|Hin]; [by apply H4 in Hin as [? _]|]. destruct (creates e); lia.
  - intros x [Hx|Hx]%elem_of_app; [left; auto|]. apply IH2 in Hx as [Hx|Hx].
    + by apply H4 in Hx as [_ ?].
    + right. destruct (creates e); lia.
Qed.

Lemma steps_before n u pre e post u' x :
  usage_ok n u -> steps u (pre ++ e :: post) u' -> x ∈ taken sel e ->
  0 <= x < fresh_id u + created creates pre.
Proof.
  revert n u. induction pre as [|e0 pre IH]; intros n u Hok Hs Hx; cbn;
    inversion Hs as [|? ? u1 ? ? He Hes]; subst;
    destruct (step_taken _ _ _ _ Hok He) as (H1 & H2 & H3 & H4).
  - pose proof (S_bound _ _ Hok x (H2 x Hx)). lia.
  - pose proof (IH _ _ (step_ok _ _ _ _ Hok He) Hes Hx). fold (created creates pre). lia.
Qed.

End Linear.

Lemma invocation_refs u args u' (P : Usage -> Usage -> Prop) :
  uses u (refs args) u' -> refs args = [] -> (forall u, P u u) -> P u u'.
Proof. intros Hu He HP. rewrite He in Hu. inversion Hu; subst. apply HP. Qed.

#[export] Instance bucket_kind : IdKind ref_bucket u_buckets u_next_bucket creates_bucket.
Proof.
  split.
  - intros u r u' []; cbn; auto.
  - intros u r u' []; auto.
  - intros u e u' [] He; cbn in *; simplify_eq; try (split; [lia|set_solver]).
    eapply (invocation_refs _ _ _ (fun u u' => u_next_bucket u' = u_next_bucket u + 0 /\ _)); eauto.
    intros w. split; [lia|auto].
  - by intros [].
  - intros n u Hok. apply (ok_buckets _ _ Hok).
Qed.

#[export] Instance reservation_kind :
  IdKind ref_reservation u_reservations u_next_address creates_reservation.
Proof.
  split.
  - intros u r u' []; cbn; auto.
  - intros u r u' []; auto.
  - intros u e u' [] He; cbn in *; simplify_eq; try (split; [lia|set_solver]).
    eapply (invocation_refs _ _ _ (fun u u' => u_next_address u' = u_next_address u + 0 /\ _)); eauto.
    intros w. split; [lia|auto].
  - by intros [].
  - intros n u Hok. apply (ok_reservations _ _ Hok).
Qed.

End LinearUse.

(** ** Theorems *)

Module ManifestTheorems.
Import ManifestSpec SpecLemmas ValidatorLemmas LinearUse.

(** The verdict on a manifest, by the specification. *)
Lemma validate_cases es :
  Z.of_nat (length es) < 2 ^ 32 -> Verification ∉ es ->
  (validate_instructions_basic_v1 es = Done (Ok tt) /\ well_formed es) \/
  (exists e, validate_instructions_basic_v1 es = Done (Err e) /\ ~ well_formed es).
Proof.
  intros Hn Hv. unfold validate_instructions_basic_v1, well_formed.
  pose proof (validate_loop_correct es 0 validator_new usage_init validator_new_represents
    usage_init_ok Hn Hv) as Hwp.
  unfold wp in Hwp. destruct (validate_loop es validator_new) as [[[[]|e] v']|]; [| |done].
  - left. destruct Hwp as (u & Hu & _). split; [done|eauto].
  - right. exists e. split; [done|]. intros [u Hu]. by apply (Hwp u).
Qed.

(** C32. The basic validation of the instructions of a transaction decides
    exactly whether the manifest is well formed: on any manifest of fewer
    than 2^32 instructions of version 1 it returns without panicking, and it
    accepts exactly the manifests in which every bucket, proof, reservation
    and address is created before it is used, nothing is used after it was
    consumed and no bucket is consumed while a proof of it is alive (a
    specification without lock counts, in terms of the sets of live ids). *)
Theorem validation_exact es :
  Z.of_nat (length es) < 2 ^ 32 -> Verification ∉ es ->
  (exists r, validate_instructions_basic_v1 es = Done r) /\
  (validate_instructions_basic_v1 es = Done (Ok tt) <-> well_formed es).
Proof.
  intros Hn Hv. destruct (validate_cases es Hn Hv) as [[-> Hwf]|(e & -> & Hno)].
  - split; [by eexists|done].
  - split; [by eexists|]. split; [done|]. by intros Hwf.
Qed.

(** In a manifest the validation accepts, no bucket and no address
    reservation is consumed twice, over all the instructions and inside the
    arguments of each call, and whatever is consumed was created by an
    earlier instruction. *)
Theorem accepted_manifest_linear es :
  Z.of_nat (length es) < 2 ^ 32 -> Verification ∉ es ->
  validate_instructions_basic_v1 es = Done (Ok tt) ->
  NoDup (concat (map (taken ref_bucket) es)) /\
  NoDup (concat (map (taken ref_reservation) es)) /\
  (forall pre e post x, es = pre ++ e :: post ->
     (x ∈ taken ref_bucket e -> 0 <= x < created creates_bucket pre) /\
     (x ∈ taken ref_reservation e -> 0 <= x < created creates_reservation pre)).
Proof.
  intros Hn Hv Hval. destruct (validate_cases es Hn Hv) as [[_ [u Hu]]|(e & He & _)]; [|congruence].
  split_and!.
  - apply (steps_taken _ _ _ _ usage_init_ok Hu).
  - apply (steps_taken _ _ _ _ usage_init_ok Hu).
  - intros pre e post x ->. split; intros Hx; exact (steps_before _ _ _ _ _ _ _ usage_init_ok Hu Hx).
Qed.

(** A bucket is taken, proven twice and passed to a call with a reservation
    after its proofs are dropped. *)
Definition sample_manifest : list ManifestInstructionEffect :=
  [CreateBucket; CreateProof (BucketAllOf 0); CloneProof 0; CreateAddressAndReservation;
   ConsumeProof 0; DropManyProofs true false false;
   Invocation (Tuple [Map [(Primitive, Bucket 0)]; AddressReservation 0; NamedAddress 0])].

Lemma validation_exact_witness :
  (exists r, validate_instructions_basic_v1 sample_manifest = Done r) /\
  (validate_instructions_basic_v1 sample_manifest = Done (Ok tt) <-> well_formed sample_manifest).
Proof.
  apply validation_exact; [by vm_compute|]. unfold sample_manifest. set_solver.
Defined.

Lemma accepted_manifest_linear_witness :
  NoDup (concat (map (taken ref_bucket) sample_manifest)).
Proof.
  apply (accepted_manifest_linear sample_manifest); [by vm_compute| |by vm_compute].
  unfold sample_manifest. set_solver.
Defined.

(** A bucket cannot be passed on while it is locked by a proof. *)
Example locked_bucket_refused :
  validate_instructions_basic_v1 [CreateBucket; CreateProof (BucketAmount 0 5); ConsumeBucket 0] =
  Done (Err (BucketLocked 0)).
Proof. by vm_compute. Qed.

End ManifestTheorems.
