(* ===== verification/IntentHeaders.v ===== *)
(** * Intent headers

    The checks on the headers of a transaction's intents and the range of
    epochs and proposer timestamps in which all of them are valid
    (radix-transactions/src/validation/: transaction_validator_v1.rs,
    transaction_validator_v2.rs and the aggregation of
    transaction_structure_validator.rs).  An epoch is its number, an instant
    its seconds; the fields of headers and of the configuration that these
    checks do not read are left out. *)

From S2P Require Import Prelude.
Import Int.

Abbreviation Epoch := Z (only parsing).
Abbreviation Instant := Z (only parsing).

Definition epoch_next (e : Epoch) : option Epoch := checked_u 64 (e + 1).
Definition epoch_after (e : Epoch) (epoch_count : Z) : option Epoch := checked_u 64 (e + epoch_count).
Definition epoch_previous (e : Epoch) : option Epoch := checked_u 64 (e - 1).

(** ** Configuration *)

Record TransactionValidationConfig : Type := {
  max_references_per_intent : Z;
  min_tip_percentage : Z;
  max_tip_percentage : Z;
  max_epoch_range : Z;
  max_instructions : Z;
  v2_transactions_allowed : bool;
  min_tip_basis_points : Z;
  max_tip_basis_points : Z;
  max_subintent_depth : Z;
  max_total_references : Z
}.

Definition config_babylon : TransactionValidationConfig := {|
  max_references_per_intent := u_max 64; min_tip_percentage := 0; max_tip_percentage := u_max 16;
  max_epoch_range := 12 * 24 * 30; max_instructions := u_max 64; v2_transactions_allowed := true;
  min_tip_basis_points := 0; max_tip_basis_points := 0; max_subintent_depth := 0;
  max_total_references := u_max 64 |}.

Definition config_cuttlefish : TransactionValidationConfig := {|
  max_references_per_intent := 512; min_tip_percentage := 0; max_tip_percentage := u_max 16;
  max_epoch_range := 12 * 24 * 30; max_instructions := 1000; v2_transactions_allowed := true;
  min_tip_basis_points := 0; max_tip_basis_points := 100 * 10000; max_subintent_depth := 3;
  max_total_references := 512 |}.

(** ** Headers *)

Record TransactionHeaderV1 : Type := {
  h1_network_id : Z;
  h1_start_epoch_inclusive : Epoch;
  h1_end_epoch_exclusive : Epoch;
  h1_tip_percentage : Z
}.

Record IntentHeaderV2 : Type := {
  h2_network_id : Z;
  h2_start_epoch_inclusive : Epoch;
  h2_end_epoch_exclusive : Epoch;
  h2_min_proposer_timestamp_inclusive : option Instant;
  h2_max_proposer_timestamp_exclusive : option Instant
}.

Inductive HeaderValidationError : Type :=
| InvalidEpochRange
| InvalidTimestampRange
| InvalidNetwork
| InvalidTip
| NoValidEpochRangeAcrossAllIntents
| NoValidTimestampRangeAcrossAllIntents.

Abbreviation HR := (Result HeaderValidationError) (only parsing).

(** [if b { return Err(e) }] *)
Definition reject_if (b : bool) (e : HeaderValidationError) : HR unit := if b then Err e else Ok tt.

(** ** The range of all intents *)

Record AcrossIntentAggregation : Type := mk_aggregation {
  total_reference_count : Z;
  overall_start_epoch_inclusive : Epoch;
  overall_end_epoch_exclusive : Epoch;
  overall_start_timestamp_inclusive : option Instant;
  overall_end_timestamp_exclusive : option Instant
}.

Definition aggregation_start : AcrossIntentAggregation := mk_aggregation 0 0 (u_max 64) None None.

Record OverallValidityRangeV2 : Type := {
  start_epoch_inclusive : Epoch;
  end_epoch_exclusive : Epoch;
  start_timestamp_inclusive : option Instant;
  end_timestamp_exclusive : option Instant
}.

Inductive ReferenceError : Type := TooManyReferences (total limit : Z).

Definition aggregation_finalize (config : TransactionValidationConfig)
    (a : AcrossIntentAggregation) : Result ReferenceError OverallValidityRangeV2 :=
  if max_total_references config <? total_reference_count a
  then Err (TooManyReferences (total_reference_count a) (max_total_references config))
  else Ok {| start_epoch_inclusive := overall_start_epoch_inclusive a;
             end_epoch_exclusive := overall_end_epoch_exclusive a;
             start_timestamp_inclusive := overall_start_timestamp_inclusive a;
             end_timestamp_exclusive := overall_end_timestamp_exclusive a |}.

Definition record_reference_count (config : TransactionValidationConfig) (count : Z)
    (a : AcrossIntentAggregation) : Result ReferenceError AcrossIntentAggregation :=
  if max_references_per_intent config <? count
  then Err (TooManyReferences count (max_references_per_intent config))
  else Ok (mk_aggregation (Z.min (u_max 64) (total_reference_count a + count))
             (overall_start_epoch_inclusive a) (overall_end_epoch_exclusive a)
             (overall_start_timestamp_inclusive a) (overall_end_timestamp_exclusive a)).

(** The start of the timestamp range after that of one more header, and its end. *)
Definition raise_start (start_ts overall : option Instant) : option Instant :=
  match start_ts with
  | Some t =>
      match overall with
      | None => Some t
      | Some t0 => if t0 <? t then Some t else Some t0
      end
  | None => overall
  end.

Definition lower_end (end_ts overall : option Instant) : option Instant :=
  match end_ts with
  | Some t =>
      match overall with
      | None => Some t
      | Some t0 => if t <? t0 then Some t else Some t0
      end
  | None => overall
  end.

Definition update_headers (start_epoch end_epoch : Epoch) (start_ts end_ts : option Instant)
    (a : AcrossIntentAggregation) : HR AcrossIntentAggregation :=
  let s := if overall_start_epoch_inclusive a <? start_epoch then start_epoch
           else overall_start_epoch_inclusive a in
  let e := if end_epoch <? overall_end_epoch_exclusive a then end_epoch
           else overall_end_epoch_exclusive a in
  reject_if (e <=? s) NoValidEpochRangeAcrossAllIntents;;
  let st := raise_start start_ts (overall_start_timestamp_inclusive a) in
  let et := lower_end end_ts (overall_end_timestamp_exclusive a) in
  reject_if (match st, et with Some x, Some y => y <=? x | _, _ => false end)
    NoValidTimestampRangeAcrossAllIntents;;
  Ok (mk_aggregation (total_reference_count a) s e st et).

(** ** The checks of a header *)

Section Checks.
Context (config : TransactionValidationConfig) (required_network_id : option Z).

Definition check_network (network_id : Z) : HR unit :=
  match required_network_id with
  | Some required => reject_if (negb (network_id =? required)) InvalidNetwork
  | None => Ok tt
  end.

Definition check_epochs (start_epoch end_epoch : Epoch) : HR unit :=
  reject_if (end_epoch <=? start_epoch) InvalidEpochRange;;
  max_end_epoch ← ok_or (epoch_after start_epoch (max_epoch_range config)) InvalidEpochRange;
  reject_if (max_end_epoch <? end_epoch) InvalidEpochRange.

Definition validate_header_v1 (header : TransactionHeaderV1) : HR unit :=
  check_network (h1_network_id header);;
  check_epochs (h1_start_epoch_inclusive header) (h1_end_epoch_exclusive header);;
  reject_if ((h1_tip_percentage header <? min_tip_percentage config)
             || (max_tip_percentage config <? h1_tip_percentage header)) InvalidTip.

Definition validate_transaction_header_v2 (tip_basis_points : Z) : HR unit :=
  reject_if ((tip_basis_points <? min_tip_basis_points config)
             || (max_tip_basis_points config <? tip_basis_points)) InvalidTip.

Definition validate_intent_header_v2 (header : IntentHeaderV2) (a : AcrossIntentAggregation) :
    HR AcrossIntentAggregation :=
  check_network (h2_network_id header);;
  check_epochs (h2_start_epoch_inclusive header) (h2_end_epoch_exclusive header);;
  reject_if (match h2_min_proposer_timestamp_inclusive header,
                   h2_max_proposer_timestamp_exclusive header with
             | Some lo, Some hi => hi <=? lo
             | _, _ => false
             end) InvalidTimestampRange;;
  update_headers (h2_start_epoch_inclusive header) (h2_end_epoch_exclusive header)
    (h2_min_proposer_timestamp_inclusive header) (h2_max_proposer_timestamp_exclusive header) a.

(** The headers of the intents of a transaction, root first. *)
Fixpoint validate_headers (headers : list IntentHeaderV2) (a : AcrossIntentAggregation) :
    HR AcrossIntentAggregation :=
  match headers with
  | [] => Ok a
  | h :: rest => a' ← validate_intent_header_v2 h a; validate_headers rest a'
  end.

End Checks.

(** ** Specification *)

Module HeaderSpec.

(** An epoch and a proposer timestamp at which a header is valid. *)
Definition at_least (lo : option Instant) (t : Instant) : Prop :=
  match lo with Some x => x <= t | None => True end.
Definition before (hi : option Instant) (t : Instant) : Prop :=
  match hi with Some y => t < y | None => True end.

Definition header_covers (e : Epoch) (t : Instant) (h : IntentHeaderV2) : Prop :=
  h2_start_epoch_inclusive h <= e < h2_end_epoch_exclusive h /\
  at_least (h2_min_proposer_timestamp_inclusive h) t /\
  before (h2_max_proposer_timestamp_exclusive h) t.

Definition range_covers (e : Epoch) (t : Instant) (a : AcrossIntentAggregation) : Prop :=
  overall_start_epoch_inclusive a <= e < overall_end_epoch_exclusive a /\
  at_least (overall_start_timestamp_inclusive a) t /\
  before (overall_end_timestamp_exclusive a) t.

(** A header valid by itself. *)
Record header_ok (config : TransactionValidationConfig) (network : option Z) (h : IntentHeaderV2) :
    Prop := {
  ok_network : forall n, network = Some n -> h2_network_id h = n;
  ok_epochs : h2_start_epoch_inclusive h < h2_end_epoch_exclusive h;
  ok_length : h2_end_epoch_exclusive h <= h2_start_epoch_inclusive h + max_epoch_range config;
  ok_fits : h2_start_epoch_inclusive h + max_epoch_range config <= u_max 64;
  ok_timestamps : exists t, at_least (h2_min_proposer_timestamp_inclusive h) t /\
                            before (h2_max_proposer_timestamp_exclusive h) t
}.

Definition header_wf (h : IntentHeaderV2) : Prop :=
  0 <= h2_start_epoch_inclusive h /\ 0 <= h2_end_epoch_exclusive h <= u_max 64.

(** The aggregation with the range of a header, whether or not anything is left. *)
Definition latest (a b : option Instant) : option Instant :=
  match a, b with Some x, Some y => Some (Z.max x y) | Some x, None => Some x | None, _ => b end.
Definition earliest (a b : option Instant) : option Instant :=
  match a, b with Some x, Some y => Some (Z.min x y) | Some x, None => Some x | None, _ => b end.

Definition narrow (a : AcrossIntentAggregation) (h : IntentHeaderV2) : AcrossIntentAggregation :=
  mk_aggregation (total_reference_count a)
    (Z.max (overall_start_epoch_inclusive a) (h2_start_epoch_inclusive h))
    (Z.min (overall_end_epoch_exclusive a) (h2_end_epoch_exclusive h))
    (latest (overall_start_timestamp_inclusive a) (h2_min_proposer_timestamp_inclusive h))
    (earliest (overall_end_timestamp_exclusive a) (h2_max_proposer_timestamp_exclusive h)).

Lemma latest_covers a b t : at_least (latest a b) t <-> at_least a t /\ at_least b t.
Proof. destruct a, b; cbn; lia. Qed.

Lemma earliest_covers a b t : before (earliest a b) t <-> before a t /\ before b t.
Proof. destruct a, b; cbn; lia. Qed.

Lemma narrow_covers e t a h :
  range_covers e t (narrow a h) <-> range_covers e t a /\ header_covers e t h.
Proof.
  unfold range_covers, header_covers. cbn. rewrite latest_covers, earliest_covers. naive_solver lia.
Qed.

Lemma timestamps_decided lo hi :
  (match lo, hi with Some x, Some y => y <=? x | _, _ => false end) = false <->
  exists t, at_least lo t /\ before hi t.
Proof.
  destruct lo as [x|], hi as [y|]; cbn; rewrite ?Z.leb_gt.
  - split; [intros; exists x; lia|]. intros (t & ? & ?). lia.
  - split; [intros; exists x; lia|done].
  - split; [intros; exists (y - 1); lia|done].
  - split; [intros; by exists 0|done].
Qed.

Lemma reject_if_Ok {A} b e (k : HR A) r :
  (reject_if b e;; k) = Ok r <-> b = false /\ k = Ok r.
Proof. destruct b; cbn; naive_solver. Qed.

Definition occupied (a : AcrossIntentAggregation) : Prop := exists e t, range_covers e t a.

Lemma occupied_cases a :
  occupied a <-> overall_start_epoch_inclusive a < overall_end_epoch_exclusive a /\
    exists t, at_least (overall_start_timestamp_inclusive a) t /\
              before (overall_end_timestamp_exclusive a) t.
Proof.
  unfold occupied, range_covers. split.
  - intros (e & t & ? & ? & ?). split; [lia|eauto].
  - intros (? & t & ? & ?). exists (overall_start_epoch_inclusive a), t. split_and!; [lia..|done|done].
Qed.

Lemma update_headers_Ok h a a' :
  update_headers (h2_start_epoch_inclusive h) (h2_end_epoch_exclusive h)
    (h2_min_proposer_timestamp_inclusive h) (h2_max_proposer_timestamp_exclusive h) a = Ok a' <->
  a' = narrow a h /\ occupied (narrow a h).
Proof.
  assert (forall x y, (if x <? y then y else x) = Z.max x y) as Hmax
    by (intros x y; destruct (x <? y) eqn:E; zbool; lia).
  assert (forall x y, (if y <? x then y else x) = Z.min x y) as Hmin
    by (intros x y; destruct (y <? x) eqn:E; zbool; lia).
  assert (forall x y, raise_start x y = latest y x) as Hst.
  { intros [x|] [y|]; cbn; try done. rewrite <- Hmax. by destruct (_ <? _). }
  assert (forall x y, lower_end x y = earliest y x) as Het.
  { intros [x|] [y|]; cbn; try done. rewrite <- Hmin. by destruct (_ <? _). }
  unfold update_headers. cbv zeta.
  rewrite Hmax, Hmin, Hst, Het, !reject_if_Ok, timestamps_decided, Z.leb_gt, occupied_cases.
  unfold narrow. cbn. naive_solver.
Qed.

Section Facts.
Context (config : TransactionValidationConfig) (network : option Z).

Lemma check_network_Ok {A} n (k : HR A) r :
  (check_network network n;; k) = Ok r <-> (forall m, network = Some m -> n = m) /\ k = Ok r.
Proof.
  unfold check_network. destruct network as [m|].
  - rewrite reject_if_Ok, negb_false_iff, Z.eqb_eq. naive_solver.
  - cbn. naive_solver.
Qed.

Lemma check_epochs_Ok {A} s e (k : HR A) r :
  0 <= s -> 0 <= max_epoch_range config ->
  (check_epochs config s e;; k) = Ok r <->
  (s < e /\ e <= s + max_epoch_range config /\ s + max_epoch_range config <= u_max 64) /\ k = Ok r.
Proof.
  intros Hs Hm. unfold check_epochs, epoch_after, checked_u.
  destruct (e <=? s) eqn:E1; zbool; cbn; [naive_solver lia|].
  destruct (in_u 64 (s + max_epoch_range config)) eqn:E2; cbn.
  - apply in_u_spec in E2. destruct (_ <? e) eqn:E3; zbool; cbn; [naive_solver lia|].
    split; [intros; split; [lia|done]|naive_solver].
  - assert (~ 0 <= s + max_epoch_range config <= u_max 64) as Hn
      by (rewrite <- in_u_spec; congruence). naive_solver lia.
Qed.

Lemma header_v2_Ok h a a' :
  header_wf h -> 0 <= max_epoch_range config ->
  validate_intent_header_v2 config network h a = Ok a' <->
  header_ok config network h /\ a' = narrow a h /\ occupied (narrow a h).
Proof.
  intros [Hs He] Hm. unfold validate_intent_header_v2.
  rewrite check_network_Ok, check_epochs_Ok, reject_if_Ok, timestamps_decided, update_headers_Ok by done.
  split.
  - intros (? & (? & ? & ?) & ? & ? & ?). done.
  - intros ([] & ? & ?). done.
Qed.

Lemma occupied_narrow a h : occupied (narrow a h) -> occupied a.
Proof. intros (e & t & [? ?]%narrow_covers). by exists e, t. Qed.

Lemma occupied_foldl hs a : occupied (foldl narrow a hs) -> occupied a.
Proof.
  revert a. induction hs as [|h hs IH]; intros a; cbn; [done|].
  intros Ho. eapply occupied_narrow, IH, Ho.
Qed.

Lemma foldl_covers hs a e t :
  range_covers e t (foldl narrow a hs) <-> range_covers e t a /\ Forall (header_covers e t) hs.
Proof.
  revert a. induction hs as [|h hs IH]; intros a; cbn; [naive_solver|].
  rewrite IH, narrow_covers, Forall_cons. naive_solver.
Qed.

Lemma headers_Ok hs a a' :
  Forall header_wf hs -> 0 <= max_epoch_range config -> occupied a ->
  validate_headers config network hs a = Ok a' <->
  Forall (header_ok config network) hs /\ a' = foldl narrow a hs /\ occupied a'.
Proof.
  intros Hwf Hm. revert a. induction Hwf as [|h hs Hh Hwf IH]; intros a Ha; cbn.
  { split; [intros [= <-]; done|by intros (_ & -> & _)]. }
  rewrite Forall_cons. split.
  - destruct (validate_intent_header_v2 config network h a) as [a1|] eqn:E; cbn; [|done].
    apply header_v2_Ok in E as (? & -> & ?); [|done..]. intros Hr%IH; [|done]. naive_solver.
  - intros ([Hok Hoks] & -> & Ho).
    assert (validate_intent_header_v2 config network h a = Ok (narrow a h)) as ->.
    { apply header_v2_Ok; [done..|]. split_and!; [done..|]. by eapply occupied_foldl. }
    cbn. apply IH; [by eapply occupied_foldl|]. done.
Qed.

End Facts.
End HeaderSpec.

(** ** Theorems *)

Module HeaderTheorems.
Import HeaderSpec.

(** The validity range of a transaction is the intersection of those of
    its intents: the checks of the headers, taken one after the other, succeed
    exactly when every header is valid by itself (network, non-empty epoch
    range no longer than the limit, non-empty timestamp range) and there is an
    epoch and a proposer timestamp at which all are valid; and the range they
    end with covers exactly these. *)
Theorem header_range_exact config network hs :
  Forall header_wf hs -> 0 <= max_epoch_range config ->
  ((exists a, validate_headers config network hs aggregation_start = Ok a) <->
   Forall (header_ok config network) hs /\
   exists e t, 0 <= e < u_max 64 /\ Forall (header_covers e t) hs) /\
  (forall a, validate_headers config network hs aggregation_start = Ok a ->
   forall e t, range_covers e t a <-> 0 <= e < u_max 64 /\ Forall (header_covers e t) hs).
Proof.
  intros Hwf Hm.
  assert (forall e t, range_covers e t aggregation_start <-> 0 <= e < u_max 64) as Hstart
    by (intros; unfold range_covers; cbn; tauto).
  assert (occupied aggregation_start) as Ho by (exists 0, 0; by rewrite Hstart).
  split.
  - split.
    + intros [a Ha]. apply headers_Ok in Ha as (Hok & -> & e & t & Hc); [|done..].
      split; [done|]. exists e, t. by rewrite <- (Hstart e t), <- foldl_covers.
    + intros (Hok & e & t & He & Hc). exists (foldl narrow aggregation_start hs).
      apply headers_Ok; [done..|]. split_and!; [done..|]. exists e, t.
      by rewrite foldl_covers, Hstart.
  - intros a Ha e t. apply headers_Ok in Ha as (_ & -> & _); [|done..].
    by rewrite foldl_covers, Hstart.
Qed.

Definition sample_header (s e : Epoch) (lo hi : option Instant) : IntentHeaderV2 := {|
  h2_network_id := 1; h2_start_epoch_inclusive := s; h2_end_epoch_exclusive := e;
  h2_min_proposer_timestamp_inclusive := lo; h2_max_proposer_timestamp_exclusive := hi |}.

Definition sample_headers : list IntentHeaderV2 :=
  [sample_header 100 200 None (Some 5000); sample_header 150 8000 (Some 4000) None].

Lemma header_range_exact_witness :
  exists a, validate_headers config_cuttlefish (Some 1) sample_headers aggregation_start = Ok a /\
    range_covers 160 4500 a.
Proof.
  pose proof (header_range_exact config_cuttlefish (Some 1) sample_headers) as H.
  destruct H as [_ H2].
  { repeat constructor; cbn; unfold u_max; lia. }
  { by vm_compute. }
  eexists. split; [reflexivity|]. apply (H2 _ eq_refl). split; [unfold u_max; lia|].
  repeat constructor; cbn; try lia.
Defined.

End HeaderTheorems.
