(* ===== verification/IntentTree.v ===== *)
(** * The tree of a transaction's intents

    A transaction consists of a root intent and of subintents, each of which
    names its children by hash.  This file holds the check that they form a
    tree of bounded depth and that parents and children yield to each other
    equally often (radix-transactions/src/validation/
    transaction_structure_validator.rs).  What the check needs of an intent
    is the trait [IntentStructure] of the source, here a class. *)

From S2P Require Import Prelude IndexMap IntentHeaders.
Import Int.

(** A 32-byte hash, read as a big-endian integer. *)
Abbreviation Hash := Z (only parsing).

Inductive IntentHash : Type :=
| Transaction (h : Hash)
| Subintent (h : Hash).

#[export] Instance IntentHash_eq_dec : EqDecision IntentHash.
Proof. solve_decision. Defined.

Definition is_for_subintent (h : IntentHash) : bool :=
  match h with Transaction _ => false | Subintent _ => true end.

Inductive SubintentStructureError : Type :=
| DuplicateSubintent
| SubintentHasMultipleParents
| ChildSubintentNotIncludedInTransaction (child : Hash)
| SubintentExceedsMaxDepth
| SubintentIsNotReachableFromTheTransactionIntent
| MismatchingYieldChildAndYieldParentCountsForSubintent.

Inductive ErrorLocation : Type :=
| Unlocatable
| RootIntent (h : IntentHash)
| NonRootSubintent (index : Z) (h : Hash)
| AcrossTransaction.

Record SubintentRelationshipDetails : Type := mk_details {
  d_index : Z;
  d_parent : IntentHash;
  d_depth : Z;
  d_children : list Z
}.

Definition PLACEHOLDER_PARENT : IntentHash := Transaction 0.

Definition default_for (index : Z) : SubintentRelationshipDetails :=
  mk_details index PLACEHOLDER_PARENT 0 [].

Record ManifestYieldSummary : Type := {
  parent_yields : Z;
  child_yields : IndexMap Hash Z
}.

Class IntentStructure (IE I : Type) : Type := {
  intent_hash : I -> IntentHash;
  children : I -> list Hash;
  validate_intent : I -> AcrossIntentAggregation ->
    Result IE (ManifestYieldSummary * AcrossIntentAggregation)
}.
Arguments intent_hash {IE I _}.
Arguments children {IE I _}.
Arguments validate_intent {IE I _}.

Class HasSubintentHash (S : Type) : Type := subintent_hash : S -> Hash.

Inductive TransactionValidationError (IE : Type) : Type :=
| IntentValidationError (loc : ErrorLocation) (e : IE)
| ReferencesError (loc : ErrorLocation) (e : ReferenceError)
| StructureError (loc : ErrorLocation) (e : SubintentStructureError).
Arguments IntentValidationError {IE} loc e.
Arguments ReferencesError {IE} loc e.
Arguments StructureError {IE} loc e.

Section Tree.
Context {IE R S : Type} `{IntentStructure IE R} `{IntentStructure IE S} `{HasSubintentHash S}.
Context (config : TransactionValidationConfig).

Abbreviation Details := (IndexMap Hash SubintentRelationshipDetails) (only parsing).
Abbreviation TR := (Result (TransactionValidationError IE)) (only parsing).

Definition for_subintent {A} (e : SubintentStructureError) (index : Z) (h : Hash) : TR A :=
  Err (StructureError (NonRootSubintent index h) e).
Definition for_unindexed {A} (e : SubintentStructureError) : TR A :=
  Err (StructureError Unlocatable e).

(** ** Step 1: the subintents are unique *)

Fixpoint index_subintents (i : Z) (subs : list S) (m : Details) : TR Details :=
  match subs with
  | [] => Ok m
  | s :: rest =>
      let h := subintent_hash s in
      match im_get h m with
      | Some _ => for_subintent DuplicateSubintent i h
      | None => index_subintents (i + 1) rest (im_insert h (default_for i) m)
      end
  end.

(** ** Step 2: each subintent has at most one parent *)

Definition set_parent (p : IntentHash) (d : SubintentRelationshipDetails) :=
  mk_details (d_index d) p (d_depth d) (d_children d).
Definition set_children (cs : list Z) (d : SubintentRelationshipDetails) :=
  mk_details (d_index d) (d_parent d) (d_depth d) cs.
Definition set_depth (depth : Z) (d : SubintentRelationshipDetails) :=
  mk_details (d_index d) (d_parent d) depth (d_children d).

(** The loop over the children of an intent: the indices of the children, in
    order, and the details with their parent. *)
Fixpoint add_children (parent_hash : IntentHash) (cs : list Hash) (m : Details) :
    TR (list Z * Details) :=
  match cs with
  | [] => Ok ([], m)
  | c :: rest =>
      match im_get c m with
      | None => for_unindexed (ChildSubintentNotIncludedInTransaction c)
      | Some d =>
          if decide (d_parent d = PLACEHOLDER_PARENT) then
            r ← add_children parent_hash rest (im_insert c (set_parent parent_hash d) m);
            Ok (d_index d :: r.1, r.2)
          else for_subintent SubintentHasMultipleParents (d_index d) c
      end
  end.

Fixpoint link_subintents (subs : list S) (m : Details) : Exec (TR Details) :=
  match subs with
  | [] => Done (Ok m)
  | s :: rest =>
      let h := subintent_hash s in
      match add_children (Subintent h) (children s) m with
      | Err e => Done (Err e)
      | Ok (cs, m') =>
          match im_get h m' with
          | None => Panicked
          | Some d => link_subintents rest (im_insert h (set_children cs d) m')
          end
      end
  end.

(** ** Step 3: the depth of what is reachable from the root

    The work list is a stack; its head is the end of the source's vector. *)

Definition push_children (cs : list Z) (depth : Z) (work_list : list (Z * Z)) : list (Z * Z) :=
  foldl (fun st i => (i, depth) :: st) work_list cs.

Fixpoint mark_depths (fuel : nat) (max_depth : Z) (work_list : list (Z * Z)) (m : Details) :
    Exec (TR Details) :=
  match work_list with
  | [] => Done (Ok m)
  | (index, depth) :: rest =>
      match fuel with
      | O => Panicked
      | Datatypes.S fuel' =>
          match m !! Z.to_nat index with
          | None => Panicked
          | Some (h, d) =>
              if max_depth <? depth
              then Done (for_subintent SubintentExceedsMaxDepth index h)
              else mark_depths fuel' max_depth
                     (push_children (d_children d) (wrap_u 64 (depth + 1)) rest)
                     (<[Z.to_nat index := (h, set_depth depth d)]> m)
          end
      end
  end.

(** ** Step 4: every subintent was reached *)

Fixpoint check_reached (m : Details) : TR unit :=
  match m with
  | [] => Ok tt
  | (h, d) :: rest =>
      if d_depth d =? 0
      then for_subintent SubintentIsNotReachableFromTheTransactionIntent (d_index d) h
      else check_reached rest
  end.

Definition max_depth (root : R) : Z :=
  if is_for_subintent (intent_hash root) then wrap_u 64 (max_subintent_depth config - 1)
  else max_subintent_depth config.

Record IntentRelationships : Type := {
  root_children : list Z;
  non_root_details : Details
}.

Definition validate_intent_relationships (root : R) (subs : list S) :
    Exec (TR IntentRelationships) :=
  match index_subintents 0 subs [] with
  | Err e => Done (Err e)
  | Ok m1 =>
      match add_children (intent_hash root) (children root) m1 with
      | Err e => Done (Err e)
      | Ok (root_cs, m2) =>
          linked ← link_subintents subs m2;
          match linked with
          | Err e => Done (Err e)
          | Ok m3 =>
              marked ← mark_depths (length m3) (max_depth root) (push_children root_cs 1 []) m3;
              Done (m4 ← marked;
                    check_reached m4;;
                    Ok {| root_children := root_cs; non_root_details := m4 |})
          end
      end
  end.

(** ** The whole check *)

Abbreviation Yields := (IndexMap IntentHash ManifestYieldSummary) (only parsing).

Fixpoint validate_subintents (index : Z) (subs : list S) (a : AcrossIntentAggregation)
    (ys : Yields) : TR (AcrossIntentAggregation * Yields) :=
  match subs with
  | [] => Ok (a, ys)
  | s :: rest =>
      match validate_intent s a with
      | Err e => Err (IntentValidationError (NonRootSubintent index (subintent_hash s)) e)
      | Ok (y, a') =>
          validate_subintents (index + 1) rest a' (im_insert (Subintent (subintent_hash s)) y ys)
      end
  end.

Fixpoint check_yields (ys : Yields) (m : Details) : Exec (TR unit) :=
  match m with
  | [] => Done (Ok tt)
  | (child_hash, d) :: rest =>
      parent_yield_summary ← expect (im_get (d_parent d) ys);
      parent_yield_child_calls ← expect (im_get child_hash (child_yields parent_yield_summary));
      child_yield_summary ← expect (im_get (Subintent child_hash) ys);
      if parent_yield_child_calls =? parent_yields child_yield_summary
      then check_yields ys rest
      else Done (for_subintent MismatchingYieldChildAndYieldParentCountsForSubintent
                   (d_index d) child_hash)
  end.

Record ValidatedIntentTreeInformation : Type := {
  intent_relationships : IntentRelationships;
  overall_validity_range : OverallValidityRangeV2;
  root_yield_summary : ManifestYieldSummary
}.

Definition validate_intents_and_structure (root : R) (subs : list S) :
    Exec (TR ValidatedIntentTreeInformation) :=
  rel ← validate_intent_relationships root subs;
  match rel with
  | Err e => Done (Err e)
  | Ok rel =>
      match validate_intent root aggregation_start with
      | Err e => Done (Err (IntentValidationError (RootIntent (intent_hash root)) e))
      | Ok (root_y, a) =>
          match validate_subintents 0 subs a [(intent_hash root, root_y)] with
          | Err e => Done (Err e)
          | Ok (a', ys) =>
              match aggregation_finalize config a' with
              | Err e => Done (Err (ReferencesError AcrossTransaction e))
              | Ok range =>
                  y ← check_yields ys (non_root_details rel);
                  Done (y;; Ok {| intent_relationships := rel; overall_validity_range := range;
                                  root_yield_summary := root_y |})
              end
          end
      end
  end.

End Tree.

(** ** Specification *)

Module TreeSpec.
Section Spec.
Context {IE R S : Type} `{IntentStructure IE R} `{IntentStructure IE S} `{HasSubintentHash S}.

(** [h] is [d] steps below the root. *)
Inductive Reach (root : R) (subs : list S) : Hash -> Z -> Prop :=
| reach_root h : h ∈ children root -> Reach root subs h 1
| reach_child s h d :
    s ∈ subs -> Reach root subs (subintent_hash s) d -> h ∈ children s ->
    Reach root subs h (d + 1).

Definition all_children (root : R) (subs : list S) : list Hash :=
  children root ++ concat (map children subs).

Record is_tree (bound : Z) (root : R) (subs : list S) : Prop := {
  tree_unique : NoDup (map subintent_hash subs);
  tree_one_parent : NoDup (all_children root subs);
  tree_included : all_children root subs ⊆ map subintent_hash subs;
  tree_reached : forall s, s ∈ subs ->
    exists d, Reach root subs (subintent_hash s) d /\ d <= bound
}.

End Spec.
End TreeSpec.

(** ** Lemmas *)

Module TreeLemmas.
Import TreeSpec.

(** *** Details as a function of the hash *)

Lemma lookup_key {V} (m : IndexMap Z V) i k v :
  im_ok m -> im_keys m !! i = Some k -> im_get k m = Some v -> m !! i = Some (k, v).
Proof.
  unfold im_ok, im_keys. intros Hok Hi Hg. apply im_get_elem in Hg as Hin.
  apply list_elem_of_lookup in Hin as [j Hj].
  assert (m.*1 !! j = Some k) as Hj' by (rewrite list_lookup_fmap, Hj; done).
  by rewrite (NoDup_lookup _ _ _ _ Hok Hi Hj').
Qed.

Lemma insert_at_key {V} (m : IndexMap Z V) i k v w :
  im_ok m -> m !! i = Some (k, v) -> <[i := (k, w)]> m = im_insert k w m.
Proof.
  revert i. induction m as [|[k' v'] m IH]; intros i Hok Hi; [done|].
  apply NoDup_cons in Hok as [Hk Hok]. destruct i as [|i]; cbn in Hi.
  - simplify_eq. cbn. by rewrite decide_True.
  - cbn. case_decide as Hkk.
    + subst k'. exfalso. apply Hk. apply list_elem_of_fmap. exists (k, v).
      split; [done|]. by eapply list_elem_of_lookup_2.
    + f_equal. by apply IH.
Qed.

(** The positions of hashes. *)
Definition positions (hs : list Hash) (idxs : list Z) (cs : list Hash) : Prop :=
  Forall2 (fun i c => 0 <= i /\ hs !! Z.to_nat i = Some c) idxs cs.

Section Facts.
Context {IE R S : Type} `{IntentStructure IE R} `{IntentStructure IE S} `{HasSubintentHash S}.
Context (root : R) (subs : list S).
Abbreviation hashes := (map subintent_hash subs).

(** The details while parents are assigned: [ps] are the child and parent
    pairs so far, [kids] the children recorded for a subintent. *)
Record Linking (ps : list (Hash * IntentHash)) (kids : Hash -> list Z)
    (m : IndexMap Hash SubintentRelationshipDetails) : Prop := {
  lk_keys : im_keys m = hashes;
  lk_index : forall h d, im_get h m = Some d ->
    0 <= d_index d /\ hashes !! Z.to_nat (d_index d) = Some h;
  lk_parent : forall h d, im_get h m = Some d -> d_parent d = default PLACEHOLDER_PARENT (im_get h ps);
  lk_depth : forall h d, im_get h m = Some d -> d_depth d = 0;
  lk_children : forall h d, im_get h m = Some d -> d_children d = kids h
}.

Lemma index_subintents_spec pre rest m :
  subs = pre ++ rest -> NoDup (map subintent_hash pre) ->
  im_keys m = map subintent_hash pre ->
  (forall h d, im_get h m = Some d -> exists i, d = default_for (Z.of_nat i) /\
     map subintent_hash pre !! i = Some h) ->
  match index_subintents (IE := IE) (Z.of_nat (length pre)) rest m with
  | Ok m' => NoDup hashes /\ Linking [] (fun _ => []) m'
  | Err _ => ~ NoDup hashes
  end.
Proof.
  revert pre m. induction rest as [|s rest IH]; intros pre m Hs Hnd Hk Hd; cbn.
  - rewrite app_nil_r in Hs. subst pre. split; [done|]. split; [done|..];
      intros h d (i & -> & Hi)%Hd; cbn; try done.
    split; [lia|]. by rewrite Nat2Z.id.
  - destruct (im_get (subintent_hash s) m) as [d|] eqn:Hg.
    + apply im_get_elem in Hg. rewrite Hs, map_app. intros (_ & Hdis & _)%NoDup_app.
      apply (Hdis (subintent_hash s)); [|cbn; set_solver].
      rewrite <- Hk. apply list_elem_of_fmap. by exists (subintent_hash s, d).
    + pose proof Hg as Hnin. apply im_get_None in Hnin. rewrite Hk in Hnin.
      specialize (IH (pre ++ [s]) (im_insert (subintent_hash s) (default_for (Z.of_nat (length pre))) m)).
      rewrite length_app in IH. cbn in IH. rewrite Nat2Z.inj_add in IH. apply IH.
      * by rewrite <- app_assoc.
      * rewrite map_app. apply NoDup_app. cbn. split_and!; [done| |repeat constructor; set_solver].
        intros x Hx ->%list_elem_of_singleton. done.
      * rewrite im_keys_insert, Hk, map_app, Hg. done.
      * intros h d. rewrite im_get_insert, map_app. case_decide as Hh.
        -- intros [= <-]. exists (length pre). split; [done|]. subst h.
           rewrite lookup_app_r; rewrite length_map; [|lia]. by rewrite Nat.sub_diag.
        -- intros (i & -> & Hi)%Hd. exists i. split; [done|]. by apply lookup_app_l_Some.
Qed.

Definition link_to (p : IntentHash) (cs : list Hash) : list (Hash * IntentHash) :=
  map (fun c => (c, p)) cs.

Lemma link_to_fst p cs : (link_to p cs).*1 = cs.
Proof. unfold link_to. induction cs; cbn; [done|by f_equal]. Qed.

(** Pairs of a child and its parent; no parent looks like the placeholder. *)
Definition parents_ok (ps : list (Hash * IntentHash)) : Prop :=
  NoDup ps.*1 /\ Forall (fun e => e.2 <> PLACEHOLDER_PARENT) ps.

Lemma im_get_app {V} (k : Z) (a b : IndexMap Z V) :
  im_get k (a ++ b) = match im_get k a with Some v => Some v | None => im_get k b end.
Proof. induction a as [|[k' v] a IH]; cbn; [done|]. by case_decide. Qed.

Lemma unclaimed ps c :
  parents_ok ps -> default PLACEHOLDER_PARENT (im_get c ps) = PLACEHOLDER_PARENT ->
  im_get c ps = None.
Proof.
  intros [_ Hp] Hd. destruct (im_get c ps) as [p|] eqn:E; [|done]. cbn in Hd. subst p.
  apply im_get_elem in E. rewrite Forall_forall in Hp. by apply Hp in E.
Qed.

Lemma linking_claim ps kids m c d p :
  Linking ps kids m -> im_get c m = Some d -> im_get c ps = None ->
  Linking (ps ++ [(c, p)]) kids (im_insert c (set_parent p d) m).
Proof.
  intros [Hk Hi Hp Hd Hc] Hg Hn. split.
  - by rewrite im_keys_insert, Hg.
  - intros h d'. rewrite im_get_insert. case_decide as Hh; [intros [= <-]; subst h; cbn; auto|auto].
  - intros h d'. rewrite im_get_insert, im_get_app. case_decide as Hh.
    + intros [= <-]. subst h. rewrite Hn. cbn. by rewrite decide_True.
    + intros ->%Hp. cbn. rewrite decide_False by done. by destruct (im_get h ps).
  - intros h d'. rewrite im_get_insert. case_decide as Hh; [intros [= <-]; subst h; cbn; eauto|eauto].
  - intros h d'. rewrite im_get_insert. case_decide as Hh; [intros [= <-]; subst h; cbn; eauto|eauto].
Qed.

Lemma linked_key ps kids m c : Linking ps kids m -> is_Some (im_get c m) <-> c ∈ hashes.
Proof.
  intros Hl. rewrite <- (lk_keys _ _ _ Hl). destruct (im_get c m) eqn:E.
  - split; [|by eauto]. intros _. apply im_get_elem in E. apply list_elem_of_fmap. by exists (c, s).
  - apply im_get_None in E. split; [by intros []|done].
Qed.

Lemma add_children_spec p cs ps kids m :
  p <> PLACEHOLDER_PARENT -> Linking ps kids m -> parents_ok ps ->
  match add_children (IE := IE) p cs m with
  | Ok (idx, m') =>
      parents_ok (ps ++ link_to p cs) /\ cs ⊆ hashes /\ positions hashes idx cs /\
      Linking (ps ++ link_to p cs) kids m'
  | Err _ => ~ (NoDup (ps.*1 ++ cs) /\ cs ⊆ hashes)
  end.
Proof.
  intros Hpl. revert ps m. induction cs as [|c cs IH]; intros ps m Hl Hps; cbn.
  { rewrite app_nil_r. split_and!; [done|set_solver|constructor|done]. }
  pose proof (linked_key _ _ _ c Hl) as Hkey. destruct (im_get c m) as [d|] eqn:Hg.
  2: { intros [_ Hin]. destruct Hkey as [_ Hkey]. apply is_Some_None in Hkey; [done|]. set_solver. }
  case_decide as Hd.
  - rewrite (lk_parent _ _ _ Hl c d Hg) in Hd. apply unclaimed in Hd as Hn; [|done].
    assert (parents_ok (ps ++ [(c, p)])) as Hps'.
    { destruct Hps as [Hnd Hall]. split.
      - rewrite fmap_app. apply NoDup_app. cbn. split_and!; [done| |repeat constructor; set_solver].
        intros x Hx ->%list_elem_of_singleton. by apply im_get_None in Hn.
      - apply Forall_app. by repeat constructor. }
    specialize (IH _ _ (linking_claim _ _ _ _ _ p Hl Hg Hn) Hps').
    destruct (add_children p cs _) as [[idx m']|e]; cbn.
    + rewrite <- app_assoc in IH. destruct IH as (? & ? & ? & ?). split_and!; [done| |constructor|done].
      * assert (c ∈ hashes) by (apply Hkey; eauto). set_solver.
      * by apply (lk_index _ _ _ Hl).
      * done.
    + intros [Hnd Hin]. apply IH. split; [|set_solver]. rewrite fmap_app. cbn.
      by rewrite <- app_assoc.
  - intros [Hnd _]. apply Hd. rewrite (lk_parent _ _ _ Hl c d Hg).
    assert (im_get c ps = None) as ->; [|done]. apply im_get_None. intros Hin.
    apply NoDup_app in Hnd as (_ & Hnd & _). apply (Hnd c); [done|set_solver].
Qed.

Definition links (l : list S) : list (Hash * IntentHash) :=
  concat (map (fun s => link_to (Subintent (subintent_hash s)) (children s)) l).

Lemma links_fst l : (links l).*1 = concat (map children l).
Proof.
  unfold links. induction l as [|s l IH]; cbn; [done|]. by rewrite fmap_app, link_to_fst, IH.
Qed.

Lemma linking_children ps kids m h d cs :
  Linking ps kids m -> im_get h m = Some d ->
  Linking ps (fun h' => if decide (h' = h) then cs else kids h') (im_insert h (set_children cs d) m).
Proof.
  intros [Hk Hi Hp Hd Hc] Hg. split.
  - by rewrite im_keys_insert, Hg.
  - intros h' d'. rewrite im_get_insert. case_decide as Hh; [intros [= <-]; subst h'; cbn; auto|auto].
  - intros h' d'. rewrite im_get_insert. case_decide as Hh; [intros [= <-]; subst h'; cbn; auto|auto].
  - intros h' d'. rewrite im_get_insert. case_decide as Hh; [intros [= <-]; subst h'; cbn; eauto|eauto].
  - intros h' d'. rewrite im_get_insert. case_decide as Hh; [by intros [= <-]|eauto].
Qed.

Lemma link_subintents_spec rest ps kids m :
  NoDup (map subintent_hash rest) -> map subintent_hash rest ⊆ hashes ->
  Linking ps kids m -> parents_ok ps ->
  match link_subintents (IE := IE) rest m with
  | Done (Ok m') => exists kids',
      parents_ok (ps ++ links rest) /\ concat (map children rest) ⊆ hashes /\
      Linking (ps ++ links rest) kids' m' /\
      (forall s, s ∈ rest -> positions hashes (kids' (subintent_hash s)) (children s)) /\
      (forall h, h ∉ map subintent_hash rest -> kids' h = kids h)
  | Done (Err _) => ~ (NoDup (ps.*1 ++ concat (map children rest)) /\
                       concat (map children rest) ⊆ hashes)
  | Panicked => False
  end.
Proof.
  revert ps kids m. induction rest as [|s rest IH]; intros ps kids m Hnd Hin Hl Hps; cbn.
  { exists kids. rewrite app_nil_r. split_and!; [done|set_solver|done|set_solver|done]. }
  cbn in Hnd, Hin. apply NoDup_cons in Hnd as [Hs Hnd].
  pose proof (add_children_spec (Subintent (subintent_hash s)) (children s) ps kids m
    ltac:(done) Hl Hps) as Ha.
  destruct (add_children _ _ m) as [[idx m']|e].
  2: { intros [Hn1 Hn2]. apply Ha. split; [|set_solver]. rewrite app_assoc in Hn1.
       by apply NoDup_app in Hn1 as (? & _ & _). }
  destruct Ha as (Hps' & Hc & Hpos & Hl').
  destruct (linked_key _ _ _ (subintent_hash s) Hl') as [_ Hk].
  destruct Hk as [d Hd]; [set_solver|]. rewrite Hd.
  specialize (IH _ _ _ Hnd ltac:(set_solver) (linking_children _ _ _ _ _ idx Hl' Hd) Hps').
  destruct (link_subintents rest _) as [[m''|e]|]; [| |done].
  - destruct IH as (kids' & H1' & H2' & H3' & H4' & H5'). exists kids'.
    unfold links in *. cbn. rewrite app_assoc. split_and!; [done|set_solver|done| |].
    + intros s' [->|Hs']%elem_of_cons; [|auto]. rewrite H5' by done. by rewrite decide_True.
    + intros h Hh. rewrite H5' by set_solver. rewrite decide_False; [done|]. set_solver.
  - intros [Hn1 Hn2]. apply IH. rewrite fmap_app, link_to_fst, <- app_assoc. split; [done|set_solver].
Qed.

(** *** The traversal *)

Lemma concat_unique {A} (f : A -> list Hash) l a b x :
  NoDup (concat (map f l)) -> a ∈ l -> b ∈ l -> x ∈ f a -> x ∈ f b -> a = b.
Proof.
  induction l as [|c l IH]; cbn; [intros _ ?%not_elem_of_nil; done|].
  intros (_ & Hdis & Hnd)%NoDup_app Ha Hb Hxa Hxb.
  assert (forall d, d ∈ l -> x ∈ f d -> x ∈ concat (map f l)) as Hin.
  { intros d Hd Hx. apply list_elem_of_In, in_concat. exists (f d).
    rewrite <- !list_elem_of_In. split; [|done]. by apply list_elem_of_fmap_2. }
  apply elem_of_cons in Ha as [->|Ha], Hb as [->|Hb]; try done.
  - exfalso. eapply Hdis, Hin; eauto.
  - exfalso. eapply Hdis, Hin; eauto.
  - by apply IH.
Qed.

Lemma concat_map_bind {A} (f : A -> list Hash) l : concat (map f l) = l ≫= f.
Proof. induction l as [|a l IH]; cbn; [done|]. by rewrite IH. Qed.

Context (Hunique : NoDup hashes) (Hone : NoDup (all_children root subs))
        (Hinc : all_children root subs ⊆ hashes).

(** The children of the subintent with a hash. *)
Definition kids_of (h : Hash) : list Hash :=
  concat (map (fun s => if decide (subintent_hash s = h) then children s else []) subs).

Lemma kids_of_hash s : s ∈ subs -> kids_of (subintent_hash s) = children s.
Proof.
  unfold kids_of. clear Hone Hinc. revert Hunique. induction subs as [|t l IH]; cbn.
  { intros _ ?%not_elem_of_nil. done. }
  intros [Ht Hnd]%NoDup_cons Hs. apply elem_of_cons in Hs as [->|Hs].
  - rewrite decide_True by done.
    enough (forall l', subintent_hash t ∉ map subintent_hash l' ->
      concat (map (fun s => if decide (subintent_hash s = subintent_hash t) then children s else []) l')
        = []) as Hz by (by rewrite Hz, app_nil_r).
    induction l' as [|u l' IHl]; cbn; [done|]. intros [? ?]%not_elem_of_cons.
    rewrite decide_False by done. auto.
  - rewrite decide_False; [cbn; auto|]. intros Heq. apply Ht. rewrite Heq.
    by apply list_elem_of_fmap_2.
Qed.

Lemma hash_inj s t : s ∈ subs -> t ∈ subs -> subintent_hash s = subintent_hash t -> s = t.
Proof.
  intros [i Hi]%list_elem_of_lookup [j Hj]%list_elem_of_lookup Heq.
  assert (i = j) as ->; [|congruence]. eapply (NoDup_lookup hashes); [done|..];
    rewrite list_lookup_fmap; [by rewrite Hi|by rewrite Hj, Heq].
Qed.

Lemma reach_det h d1 d2 : Reach root subs h d1 -> Reach root subs h d2 -> d1 = d2.
Proof.
  intros Hr1. revert d2. unfold all_children in Hone. apply NoDup_app in Hone as (_ & Hdis & Hnd).
  assert (forall s x, s ∈ subs -> x ∈ children s -> x ∈ concat (map children subs)) as Hin.
  { intros s x Hs Hx. rewrite concat_map_bind. apply list_elem_of_bind. eauto. }
  induction Hr1 as [h Hh|s h d Hs Hr IH Hh]; intros d2 Hr2; inversion Hr2 as [?|s' ? d' Hs' Hr' Hh'];
    subst; try done.
  - exfalso. by eapply Hdis, Hin.
  - exfalso. by eapply Hdis, Hin.
  - rewrite (concat_unique children subs s' s h) in Hr' by done. by rewrite (IH _ Hr').
Qed.

Lemma reach_is_child h d : Reach root subs h d -> h ∈ all_children root subs.
Proof.
  clear Hunique Hone Hinc. unfold all_children. intros Hr. apply elem_of_app.
  destruct Hr as [h Hh|s h d Hs _ Hh]; [by left|right].
  rewrite concat_map_bind. apply list_elem_of_bind. eauto.
Qed.

Lemma kids_nodup V :
  NoDup V -> V ⊆ hashes -> NoDup (children root ++ concat (map kids_of V)).
Proof.
  intros HV Hsub.
  assert (exists T, map subintent_hash T = V /\ T ⊆ subs) as (T & HT & HTs).
  { clear HV. induction V as [|h V IH]; [exists []; by split; [|set_solver]|].
    destruct IH as (T & <- & HTs); [set_solver|].
    assert (h ∈ hashes) as (s & -> & Hs)%list_elem_of_fmap by set_solver.
    exists (s :: T). split; [done|]. set_solver. }
  assert (concat (map kids_of V) = T ≫= children) as ->.
  { subst V. rewrite <- concat_map_bind. clear HV Hsub. induction T as [|t T IH]; cbn; [done|].
    rewrite kids_of_hash by set_solver. f_equal. apply IH. set_solver. }
  assert (NoDup T) as HTn by (subst V; by eapply NoDup_fmap_1).
  assert (T ⊆+ subs) as (k & Hk)%submseteq_Permutation by (by apply NoDup_submseteq).
  unfold all_children in Hone. rewrite concat_map_bind, Hk, bind_app, app_assoc in Hone.
  by apply NoDup_app in Hone as (? & _ & _).
Qed.

Lemma push_children_depths cs dp b (W : list (Z * Z)) :
  dp <= b -> Forall (fun e => e.2 <= b) W -> Forall (fun e => e.2 <= b) (push_children cs dp W).
Proof.
  intros Hb. unfold push_children. revert W.
  induction cs as [|c cs IH]; intros W HW; cbn; [done|]. apply IH. by constructor.
Qed.

(** The work list and the hashes it stands for. *)
Definition pending (W : list (Z * Z)) (hw : list Hash) : Prop :=
  Forall2 (fun e h => 0 <= e.1 /\ hashes !! Z.to_nat e.1 = Some h /\
                      Reach root subs h e.2 /\ 0 < e.2) W hw.

Lemma pending_push idx cs dp W hw :
  positions hashes idx cs -> (forall c, c ∈ cs -> Reach root subs c dp) -> 0 < dp ->
  pending W hw -> pending (push_children idx dp W) (rev cs ++ hw).
Proof.
  clear Hunique Hone Hinc. intros Hpos. revert W hw.
  induction Hpos as [|i c idx cs [Hi Hc] Hpos IH]; intros W hw Hr Hdp HW; cbn; [done|].
  rewrite <- app_assoc. apply IH; [set_solver|done|]. constructor; [|done].
  cbn. split_and!; [done..| |done]. apply Hr. set_solver.
Qed.

(** The details while depths are marked: [V] has been visited. *)
Record Marked (ps : list (Hash * IntentHash)) (kids : Hash -> list Z) (V : list Hash)
    (m : IndexMap Hash SubintentRelationshipDetails) : Prop := {
  mk_keys : im_keys m = hashes;
  mk_entry : forall h d, im_get h m = Some d ->
    0 <= d_index d /\ hashes !! Z.to_nat (d_index d) = Some h /\
    d_parent d = default PLACEHOLDER_PARENT (im_get h ps) /\ d_children d = kids h /\
    (h ∈ V -> Reach root subs h (d_depth d) /\ 0 < d_depth d) /\
    (h ∉ V -> d_depth d = 0)
}.

(** What the traversal keeps: the visited and the pending hashes are the
    children of the root and of the visited ones. *)
Record Traversal (V : list Hash) (W : list (Z * Z)) (hw : list Hash) : Prop := {
  tv_nodup : NoDup V;
  tv_sub : V ⊆ hashes;
  tv_pending : pending W hw;
  tv_depth : Forall (fun e => e.2 <= Z.of_nat (length V) + 1) W;
  tv_perm : V ++ hw ≡ₚ children root ++ concat (map kids_of V)
}.

Lemma traversal_fresh V i dp W hw :
  Traversal V ((i, dp) :: W) hw ->
  exists h hw', hw = h :: hw' /\ h ∉ V /\ h ∈ hashes /\ 0 <= i /\ hashes !! Z.to_nat i = Some h /\
    Reach root subs h dp /\ 0 < dp /\ (length V < length subs)%nat.
Proof.
  intros [Hnd Hsub Hp _ Hperm]. inversion Hp as [|? h ? hw' (Hi & Hh & Hr & Hd) Hp']; subst.
  cbn in *. exists h, hw'.
  assert (NoDup (V ++ h :: hw')) as Hall by (rewrite Hperm; by apply kids_nodup).
  apply NoDup_app in Hall as (_ & Hdis & _).
  assert (h ∉ V) as Hnin by (intros Hin; apply (Hdis h); [done|set_solver]).
  assert (h ∈ hashes) as Hin by (by eapply list_elem_of_lookup_2).
  split_and!; try done.
  assert (length (h :: V) <= length hashes)%nat as Hlen.
  { apply submseteq_length, NoDup_submseteq; [by apply NoDup_cons|set_solver]. }
  rewrite length_map in Hlen. cbn in Hlen. lia.
Qed.

Lemma marked_step ps kids V m h d dp :
  Marked ps kids V m -> im_get h m = Some d -> h ∉ V -> Reach root subs h dp -> 0 < dp ->
  Marked ps kids (h :: V) (im_insert h (set_depth dp d) m).
Proof.
  intros [Hk He] Hg Hv Hr Hd. split; [by rewrite im_keys_insert, Hg|].
  intros h' d'. rewrite im_get_insert. case_decide as Hh.
  - intros [= <-]. subst h'. destruct (He h d Hg) as (? & ? & ? & ? & _). cbn.
    split_and!; try done. set_solver.
  - intros (? & ? & ? & ? & Hin & Hout)%He. split_and!; try done.
    + intros Hx. apply Hin. set_solver.
    + intros Hx. apply Hout. set_solver.
Qed.

Lemma traversal_step V i dp W h hw' s kids :
  Traversal V ((i, dp) :: W) (h :: hw') -> h ∉ V -> Reach root subs h dp -> 0 < dp ->
  s ∈ subs -> h = subintent_hash s -> positions hashes (kids h) (children s) ->
  Traversal (h :: V) (push_children (kids h) (dp + 1) W) (rev (children s) ++ hw').
Proof.
  intros [Hnd Hsub Hp Hdep Hperm] Hv Hr Hd Hs -> Hpos. inversion Hp as [|? ? ? ? _ Hp']; subst.
  apply Forall_cons in Hdep as [Hdp Hdep]. cbn in Hdp. split.
  - by apply NoDup_cons.
  - assert (subintent_hash s ∈ hashes) by (by apply list_elem_of_fmap_2). set_solver.
  - apply pending_push; [done| |lia|done]. intros c Hc. by eapply reach_child.
  - cbn [length]. apply push_children_depths; [lia|].
    eapply Forall_impl; [exact Hdep|cbn; intros; lia].
  - cbn. rewrite kids_of_hash by done. rewrite <- Permutation_rev.
    transitivity (children s ++ V ++ subintent_hash s :: hw').
    + transitivity (subintent_hash s :: children s ++ V ++ hw').
      * constructor. rewrite !app_assoc. apply Permutation_app_tail, Permutation_app_comm.
      * rewrite (app_assoc _ V (_ :: _)), <- Permutation_middle, <- app_assoc. done.
    + rewrite Hperm, !app_assoc. by rewrite (Permutation_app_comm (children s)).
Qed.

Lemma initial_traversal root_cs :
  positions hashes root_cs (children root) ->
  Traversal [] (push_children root_cs 1 []) (rev (children root) ++ []).
Proof.
  clear Hunique Hone Hinc. intros Hpos. split; [constructor|set_solver| | |].
  - apply pending_push; [done|by constructor|lia|constructor].
  - apply push_children_depths; [done|constructor].
  - cbn. rewrite !app_nil_r. symmetry. apply Permutation_rev.
Qed.

Lemma initial_marked ps kids m : Linking ps kids m -> Marked ps kids [] m.
Proof.
  clear Hunique Hone Hinc. intros [Hk Hi Hpa Hde Hch]. split; [done|]. intros h d Hg.
  destruct (Hi h d Hg). split_and!; eauto; set_solver.
Qed.

Lemma mark_depths_spec fuel bound ps kids V W hw m :
  Marked ps kids V m -> Traversal V W hw -> (length V + fuel = length subs)%nat ->
  Z.of_nat (length subs) < 2 ^ 64 - 1 ->
  (forall s, s ∈ subs -> positions hashes (kids (subintent_hash s)) (children s)) ->
  (forall h, h ∈ V -> exists d, Reach root subs h d /\ d <= bound) ->
  match mark_depths (IE := IE) fuel bound W m with
  | Done (Ok m') => exists V', Marked ps kids V' m' /\
      (forall h d, Reach root subs h d -> h ∈ V') /\
      (forall h, h ∈ V' -> exists d, Reach root subs h d /\ d <= bound)
  | Done (Err _) => exists s d, s ∈ subs /\ Reach root subs (subintent_hash s) d /\ bound < d
  | Panicked => False
  end.
Proof.
  revert V W hw m. induction fuel as [|fuel IH]; intros V [|[i dp] W] hw m Hm Ht Hf Hn Hkids Hb; cbn [mark_depths].
  1, 3: exists V; split_and!; [done| |done]; intros h d Hr; destruct Ht as [_ _ Hp _ Hperm];
    inversion Hp; subst; rewrite app_nil_r in Hperm;
    induction Hr as [h Hh|s h d Hs Hr IHr Hh]; rewrite Hperm; apply elem_of_app; [by left|right];
    rewrite concat_map_bind; apply list_elem_of_bind; exists (subintent_hash s);
    split; [by rewrite kids_of_hash|done].
  - destruct (traversal_fresh _ _ _ _ _ Ht) as (h & hw' & _ & _ & _ & _ & _ & _ & _ & Hl). lia.
  - destruct (traversal_fresh _ _ _ _ _ Ht) as (h & hw' & -> & Hv & Hin & Hi & Hlk & Hr & Hd & Hl).
    assert (im_ok m) as Hok by (unfold im_ok; by rewrite (mk_keys _ _ _ _ Hm)).
    pose proof Hin as (s & -> & Hs)%list_elem_of_fmap.
    destruct (im_get (subintent_hash s) m) as [d|] eqn:Hg.
    2: { apply im_get_None in Hg. by rewrite (mk_keys _ _ _ _ Hm) in Hg. }
    assert (m !! Z.to_nat i = Some (subintent_hash s, d)) as Hlm
      by (apply lookup_key; [done|by rewrite (mk_keys _ _ _ _ Hm)|done]).
    rewrite Hlm. destruct (bound <? dp) eqn:Hbd; zbool; [by exists s, dp|].
    destruct (mk_entry _ _ _ _ Hm _ _ Hg) as (_ & _ & _ & -> & _).
    pose proof (tv_depth _ _ _ Ht) as Hdep. apply Forall_cons in Hdep as [Hdep _]. cbn in Hdep.
    rewrite (wrap_u_small 64 (dp + 1)) by (unfold u_max; lia).
    rewrite (insert_at_key _ _ _ _ _ Hok Hlm).
    apply (IH (subintent_hash s :: V) _ (rev (children s) ++ hw')); auto.
    + by apply marked_step.
    + eapply traversal_step; eauto.
    + cbn. lia.
    + intros h [->|Hh]%elem_of_cons; eauto.
Qed.
End Facts.

Lemma check_reached_spec {IE} m :
  match check_reached (IE := IE) m with
  | Ok _ => forall h d, (h, d) ∈ m -> d_depth d <> 0
  | Err _ => exists h d, (h, d) ∈ m /\ d_depth d = 0
  end.
Proof.
  induction m as [|[h d] m IH]; cbn; [set_solver|].
  destruct (d_depth d =? 0) eqn:E; zbool; cbn; [exists h, d; split; [set_solver|done]|].
  destruct (check_reached m).
  - intros h' d' [[= -> ->]|Hin]%elem_of_cons; eauto.
  - destruct IH as (h' & d' & ? & ?). exists h', d'. split; [set_solver|done].
Qed.

Section Result.
Context {IE R S : Type} `{IntentStructure IE R} `{IntentStructure IE S} `{HasSubintentHash S}.
Context (config : TransactionValidationConfig) (root : R) (subs : list S).
Abbreviation hashes := (map subintent_hash subs).

(** What the relationships returned say. *)
Record Related (rel : IntentRelationships) : Prop := {
  rel_root : positions hashes (root_children rel) (children root);
  rel_keys : im_keys (non_root_details rel) = hashes;
  rel_entry : forall s, s ∈ subs -> exists d,
    im_get (subintent_hash s) (non_root_details rel) = Some d /\
    Reach root subs (subintent_hash s) (d_depth d) /\
    positions hashes (d_children d) (children s) /\
    (subintent_hash s, d_parent d) ∈
      link_to (intent_hash root) (children root) ++ links subs
}.

(** After the traversal, the last step decides. *)
Lemma reached_spec kids V m4 root_cs :
  let ps := link_to (intent_hash root) (children root) ++ links subs in
  NoDup hashes -> NoDup (all_children root subs) -> all_children root subs ⊆ hashes ->
  positions hashes root_cs (children root) ->
  (forall s, s ∈ subs -> positions hashes (kids (subintent_hash s)) (children s)) ->
  Marked root subs ps kids V m4 ->
  (forall h d, Reach root subs h d -> h ∈ V) ->
  (forall h, h ∈ V -> exists d, Reach root subs h d /\ d <= max_depth config root) ->
  match check_reached (IE := IE) m4 with
  | Ok _ => is_tree (max_depth config root) root subs /\
            Related {| root_children := root_cs; non_root_details := m4 |}
  | Err _ => ~ is_tree (max_depth config root) root subs
  end.
Proof.
  intros ps Hu Hone Hinc Hpos Hk3 Hm4 Hreach Hbound.
  pose proof (check_reached_spec (IE := IE) m4) as Hs5.
  assert (forall s, s ∈ subs -> exists d, im_get (subintent_hash s) m4 = Some d) as Hget.
  { intros s Hs. destruct (im_get (subintent_hash s) m4) as [d|] eqn:E; [eauto|].
    apply im_get_None in E. rewrite (mk_keys _ _ _ _ _ _ Hm4) in E. exfalso. apply E.
    by apply list_elem_of_fmap_2. }
  destruct (check_reached m4).
  - assert (forall s, s ∈ subs -> subintent_hash s ∈ V) as HV.
    { intros s Hs. destruct (Hget s Hs) as [d Hd].
      destruct (mk_entry _ _ _ _ _ _ Hm4 _ _ Hd) as (_ & _ & _ & _ & _ & Hout).
      destruct (decide (subintent_hash s ∈ V)); [done|]. exfalso.
      apply (Hs5 _ _ (im_get_elem _ _ _ Hd)). auto. }
    split; [split; auto|]. split; cbn; [done|by apply (mk_keys _ _ _ _ _ _ Hm4)|].
    intros s Hs. destruct (Hget s Hs) as [d Hd]. exists d.
    destruct (mk_entry _ _ _ _ _ _ Hm4 _ _ Hd) as (_ & _ & Hpar & Hch & Hin & _).
    destruct (Hin (HV s Hs)) as [Hr _]. rewrite Hch. split_and!; auto.
    rewrite Hpar.
    destruct (im_get (subintent_hash s) ps) as [p|] eqn:Hp; [by apply im_get_elem|].
    apply im_get_None in Hp. exfalso. apply Hp. unfold ps, im_keys.
    rewrite fmap_app, link_to_fst, links_fst. by eapply reach_is_child.
  - destruct Hs5 as (h & d & Hin & Hd). intros [_ _ _ Hre].
    assert (im_get h m4 = Some d) as Hg
      by (apply im_elem_get; [unfold im_ok; by rewrite (mk_keys _ _ _ _ _ _ Hm4)|done]).
    assert (h ∈ hashes) as (s & -> & Hs)%list_elem_of_fmap
      by (rewrite <- (mk_keys _ _ _ _ _ _ Hm4); apply list_elem_of_fmap; by exists (h, d)).
    destruct (Hre s Hs) as (d' & Hr' & _). apply Hreach in Hr'.
    destruct (mk_entry _ _ _ _ _ _ Hm4 _ _ Hg) as (_ & _ & _ & _ & Hin' & _).
    destruct (Hin' Hr') as [_ ?]. lia.
Qed.
Lemma relationships_spec :
  intent_hash root <> PLACEHOLDER_PARENT -> Z.of_nat (length subs) < 2 ^ 64 - 1 ->
  match validate_intent_relationships config root subs with
  | Done (Ok rel) => is_tree (max_depth config root) root subs /\ Related rel
  | Done (Err _) => ~ is_tree (max_depth config root) root subs
  | Panicked => False
  end.
Proof.
  intros Hroot Hlen. unfold validate_intent_relationships.
  pose proof (index_subintents_spec (IE := IE) subs [] subs [] eq_refl ltac:(constructor) eq_refl
    ltac:(by intros)) as Hs1. cbn in Hs1. change (Z.of_nat 0) with 0 in Hs1.
  destruct (index_subintents 0 subs []) as [m1|e1]; [|intros [Hx _ _ _]; by apply Hs1].
  destruct Hs1 as [Hu Hl1].
  pose proof (add_children_spec (IE := IE) subs _ (children root) _ _ m1 Hroot Hl1
    ltac:(split; constructor)) as Hs2.
  destruct (add_children (intent_hash root) (children root) m1) as [[root_cs m2]|e2].
  2: { intros [_ Hone Hinc _]. apply Hs2. unfold all_children in *. cbn.
       apply NoDup_app in Hone as (? & _ & _). split; [done|set_solver]. }
  destruct Hs2 as (Hp2 & Hc2 & Hpos & Hl2). cbn [app] in Hp2, Hl2.
  pose proof (link_subintents_spec (IE := IE) subs subs _ _ m2 Hu ltac:(done) Hl2 Hp2) as Hs3.
  destruct (link_subintents subs m2) as [[m3|e3]|]; cbn [mbind Exec_bind]; [| |done].
  2: { intros [_ Hone Hinc _]. apply Hs3. rewrite link_to_fst. split; [done|].
       unfold all_children in Hinc. set_solver. }
  destruct Hs3 as (kids & Hp3 & Hc3 & Hl3 & Hk3 & _).
  assert (NoDup (all_children root subs)) as Hone.
  { destruct Hp3 as [Hp3 _]. rewrite fmap_app, link_to_fst, links_fst in Hp3. done. }
  assert (all_children root subs ⊆ hashes) as Hinc by (unfold all_children; set_solver).
  assert (length m3 = length subs) as Hlm.
  { transitivity (length (im_keys m3)); [by unfold im_keys; rewrite length_map|].
    by rewrite (lk_keys _ _ _ _ Hl3), length_map. }
  pose proof (mark_depths_spec (IE := IE) root subs Hu Hone Hinc (length m3) (max_depth config root)
    _ _ _ _ _ _ (initial_marked root subs _ _ _ Hl3) (initial_traversal root subs _ Hpos)
    ltac:(cbn; lia) Hlen Hk3 ltac:(set_solver)) as Hs4.
  destruct (mark_depths _ _ _ m3) as [[m4|e4]|]; cbn [mbind Exec_bind Result_bind]; [| |done].
  2: { destruct Hs4 as (s & d & Hs & Hr & Hd). intros [_ _ _ Hre].
       destruct (Hre s Hs) as (d' & Hr' & Hd').
       pose proof (reach_det root subs Hone _ _ _ Hr Hr'). lia. }
  destruct Hs4 as (V & Hm4 & Hreach & Hbound).
  pose proof (reached_spec _ _ _ _ Hu Hone Hinc Hpos Hk3 Hm4 Hreach Hbound) as Hs5.
  by destruct (check_reached m4).
Qed.

(** *** Yields *)

(** What an intent's own validation promises: its summary counts the yields
    to each of its children. *)
Definition lawful {I} `{IntentStructure IE I} : Prop :=
  forall (i : I) a y a', validate_intent i a = Ok (y, a') ->
    forall c, c ∈ children i -> is_Some (im_get c (child_yields y)).

Lemma validate_subintents_spec i l a ys a' ys' :
  NoDup (map subintent_hash l) ->
  validate_subintents (IE := IE) i l a ys = Ok (a', ys') ->
  (forall s, s ∈ l -> exists y a1 a2,
     im_get (Subintent (subintent_hash s)) ys' = Some y /\ validate_intent s a1 = Ok (y, a2)) /\
  (forall h, (forall s, s ∈ l -> h <> Subintent (subintent_hash s)) -> im_get h ys' = im_get h ys).
Proof.
  revert i a ys. induction l as [|s l IH]; intros i a ys Hnd Hv; cbn in Hv.
  { simplify_eq. split; [set_solver|done]. }
  cbn in Hnd. apply NoDup_cons in Hnd as [Hs Hnd].
  destruct (validate_intent s a) as [[y a1]|e] eqn:E; [|done].
  destruct (IH _ _ _ Hnd Hv) as [IH1 IH2]. split.
  - intros s' [->|Hs']%elem_of_cons; [|auto]. exists y, a, a1. split; [|done].
    rewrite IH2, im_get_insert, decide_True; [done..|].
    intros s' Hs' [= Heq]. apply Hs. rewrite Heq. by apply list_elem_of_fmap_2.
  - intros h Hh. rewrite IH2, im_get_insert, decide_False; [done| |].
    + apply Hh. set_solver.
    + intros s' Hs'. apply Hh. set_solver.
Qed.

Lemma check_yields_spec ys m :
  Forall (fun e => exists yp n yc, im_get (d_parent e.2) ys = Some yp /\
            im_get e.1 (child_yields yp) = Some n /\ im_get (Subintent e.1) ys = Some yc) m ->
  exists r, check_yields (IE := IE) ys m = Done r /\
    (r = Ok tt -> Forall (fun e => exists yp yc, im_get (d_parent e.2) ys = Some yp /\
       im_get (Subintent e.1) ys = Some yc /\
       im_get e.1 (child_yields yp) = Some (parent_yields yc)) m).
Proof.
  induction 1 as [|[c d] m (yp & n & yc & Hp & Hn & Hc) _ (r & Hr & Hok)]; cbn.
  { by exists (Ok tt). }
  cbn in Hp, Hn, Hc. rewrite Hp. cbn. rewrite Hn. cbn. rewrite Hc. cbn.
  destruct (n =? parent_yields yc) eqn:E; zbool.
  - exists r. split; [done|]. intros Hr'. constructor; [|auto]. exists yp, yc. split_and!; [done..|]. cbn. by rewrite Hn, E.
  - eexists. split; [done|]. done.
Qed.

(** The pairs of a child and its parent. *)
Lemma parent_link_cases h p :
  (h, p) ∈ link_to (intent_hash root) (children root) ++ links subs ->
  (p = intent_hash root /\ h ∈ children root) \/
  (exists s, s ∈ subs /\ p = Subintent (subintent_hash s) /\ h ∈ children s).
Proof.
  unfold links, link_to. intros [Hin|Hin]%elem_of_app.
  - apply list_elem_of_fmap in Hin as (c & [= -> ->] & Hc). by left.
  - right. apply list_elem_of_In, in_concat in Hin as (l & Hl & Hin).
    apply list_elem_of_In in Hl, Hin. apply list_elem_of_fmap in Hl as (s & -> & Hs).
    apply list_elem_of_fmap in Hin as (c & [= -> ->] & Hc). eauto.
Qed.

Lemma yields_available rel root_y a ys a0 a' :
  lawful (I := R) -> lawful (I := S) -> Related rel -> NoDup hashes ->
  (forall s, s ∈ subs -> intent_hash root <> Subintent (subintent_hash s)) ->
  validate_intent root a0 = Ok (root_y, a) ->
  validate_subintents (IE := IE) 0 subs a [(intent_hash root, root_y)] = Ok (a', ys) ->
  Forall (fun e => exists yp n yc, im_get (d_parent e.2) ys = Some yp /\
     im_get e.1 (child_yields yp) = Some n /\ im_get (Subintent e.1) ys = Some yc)
    (non_root_details rel).
Proof.
  intros HlR HlS [_ Hkeys Hent] Hu Hroot Hvr Hvs.
  destruct (validate_subintents_spec _ _ _ _ _ _ Hu Hvs) as [Hys Hysr].
  assert (im_get (intent_hash root) ys = Some root_y) as Hyr
    by (rewrite Hysr by done; cbn; by rewrite decide_True).
  apply Forall_forall. intros [h d] Hin.
  assert (im_get h (non_root_details rel) = Some d) as Hg
    by (apply im_elem_get; [unfold im_ok; by rewrite Hkeys|done]).
  assert (h ∈ hashes) as (s & -> & Hs)%list_elem_of_fmap
    by (rewrite <- Hkeys; apply list_elem_of_fmap; by exists (h, d)).
  destruct (Hent s Hs) as (d' & Hg' & _ & _ & Hpar). rewrite Hg in Hg'. simplify_eq. cbn.
  destruct (Hys s Hs) as (yc & _ & _ & Hyc & _).
  apply parent_link_cases in Hpar as [[-> Hc]|(t & Ht & -> & Hc)].
  - destruct (HlR _ _ _ _ Hvr _ Hc) as [n Hn]. by exists root_y, n, yc.
  - destruct (Hys t Ht) as (yp & a1 & a2 & Hyp & Hv). destruct (HlS _ _ _ _ Hv _ Hc) as [n Hn].
    by exists yp, n, yc.
Qed.

End Result.
End TreeLemmas.

(** ** Theorems *)

Module TreeTheorems.
Import TreeSpec TreeLemmas.

Section Theorems.
Context {IE R S : Type} `{IntentStructure IE R} `{IntentStructure IE S} `{HasSubintentHash S}.
Context (config : TransactionValidationConfig) (root : R) (subs : list S).

(** C10. The check of the intent relationships decides whether the subintents
    form a tree below the root: it ends after visiting each subintent at most
    once (no panic, fuel the number of subintents), and it succeeds exactly
    when the subintents are distinct, every named child is among them and
    named once, and every subintent is reachable from the root within the
    maximal depth; the depths it returns are the distances from the root, and
    the parents those that name the subintent. *)
Theorem subintents_form_tree :
  intent_hash root <> PLACEHOLDER_PARENT -> Z.of_nat (length subs) < 2 ^ 64 - 1 ->
  (exists r, validate_intent_relationships config root subs = Done r) /\
  ((exists rel, validate_intent_relationships config root subs = Done (Ok rel)) <->
   is_tree (max_depth config root) root subs) /\
  (forall rel, validate_intent_relationships config root subs = Done (Ok rel) ->
   forall s, s ∈ subs -> exists d,
     im_get (subintent_hash s) (non_root_details rel) = Some d /\
     Reach root subs (subintent_hash s) (d_depth d) /\
     ((d_parent d = intent_hash root /\ subintent_hash s ∈ children root) \/
      (exists t, t ∈ subs /\ d_parent d = Subintent (subintent_hash t) /\
                 subintent_hash s ∈ children t))).
Proof.
  intros Hroot Hlen. pose proof (relationships_spec config root subs Hroot Hlen) as Hs.
  destruct (validate_intent_relationships config root subs) as [[rel|e]|]; [| |done].
  - destruct Hs as [Ht [_ _ Hent]]. split_and!; [by eexists|by split; [|by eexists]|].
    intros ? [= <-] s Hs. destruct (Hent s Hs) as (d & ? & ? & _ & Hp). exists d.
    by split_and!; [..|apply parent_link_cases].
  - split_and!; [by eexists|split; [by intros [? ?]|done]|done].
Qed.

(** The whole check of a transaction's intents does not panic on intents
    that keep the contract of their trait, and in what it accepts every
    subintent yields to its parent exactly as often as the parent, as the
    manifests of both are summarized, yields to it. *)
Theorem accepted_yields_match :
  lawful (IE := IE) (I := R) -> lawful (IE := IE) (I := S) ->
  intent_hash root <> PLACEHOLDER_PARENT -> Z.of_nat (length subs) < 2 ^ 64 - 1 ->
  (forall s, s ∈ subs -> intent_hash root <> Subintent (subintent_hash s)) ->
  exists r, validate_intents_and_structure config root subs = Done r /\
  (forall info, r = Ok info -> is_tree (max_depth config root) root subs /\
   exists ys, im_get (intent_hash root) ys = Some (root_yield_summary info) /\
   (forall s, s ∈ subs -> exists y a a',
      im_get (Subintent (subintent_hash s)) ys = Some y /\ validate_intent s a = Ok (y, a')) /\
   forall s, s ∈ subs -> exists p yp y,
     (p = intent_hash root /\ subintent_hash s ∈ children root \/
      exists t, t ∈ subs /\ p = Subintent (subintent_hash t) /\ subintent_hash s ∈ children t) /\
     im_get p ys = Some yp /\ im_get (Subintent (subintent_hash s)) ys = Some y /\
     im_get (subintent_hash s) (child_yields yp) = Some (parent_yields y)).
Proof.
  intros HlR HlS Hroot Hlen Hdis. unfold validate_intents_and_structure.
  pose proof (relationships_spec config root subs Hroot Hlen) as Hs.
  destruct (validate_intent_relationships config root subs) as [[rel|e]|]; cbn; [|by eexists|done].
  destruct Hs as [Ht Hrel].
  destruct (validate_intent root aggregation_start) as [[root_y a]|e] eqn:Hvr; [|by eexists].
  destruct (validate_subintents 0 subs a _) as [[a' ys]|e] eqn:Hvs; [|by eexists].
  destruct (aggregation_finalize config a') as [range|e]; [|by eexists].
  pose proof (yields_available root subs rel root_y a ys _ a' HlR HlS Hrel
    (tree_unique _ _ _ Ht) Hdis Hvr Hvs) as Hav.
  destruct (check_yields_spec (IE := IE) ys _ Hav) as (r & -> & Hr). cbn.
  eexists. split; [done|]. intros info Hinfo. destruct r as [[]|e]; [|done]. cbn in Hinfo. simplify_eq.
  split; [done|]. exists ys. cbn.
  destruct (validate_subintents_spec _ _ _ _ _ _ (tree_unique _ _ _ Ht) Hvs) as [Hys Hysr].
  split_and!; [rewrite Hysr by done; cbn; by rewrite decide_True|done|].
  intros s Hs. destruct Hrel as [_ _ Hent]. destruct (Hent s Hs) as (d & Hg & _ & _ & Hp).
  specialize (Hr eq_refl). rewrite Forall_forall in Hr.
  destruct (Hr _ (im_get_elem _ _ _ Hg)) as (yp & y & H1' & H2' & H3').
  exists (d_parent d), yp, y. by split_and!; [apply parent_link_cases|..].
Qed.

End Theorems.
(** A small implementation of the trait, for the examples: the header is
    checked, the yields of the manifest are given. *)
Record SampleIntent : Type := {
  si_hash : IntentHash;
  si_children : list (Hash * Z);
  si_parent_yields : Z;
  si_header : IntentHeaderV2
}.

#[export] Instance sample_structure : IntentStructure HeaderValidationError SampleIntent := {
  intent_hash := si_hash;
  children i := (si_children i).*1;
  validate_intent i a :=
    a' ← validate_intent_header_v2 config_cuttlefish (Some 1) (si_header i) a;
    Ok ({| parent_yields := si_parent_yields i; child_yields := si_children i |}, a')
}.

#[export] Instance sample_hash : HasSubintentHash SampleIntent :=
  fun i => match si_hash i with Transaction h | Subintent h => h end.

Lemma sample_lawful : lawful (IE := HeaderValidationError) (I := SampleIntent).
Proof.
  intros i a y a' Hv c Hc. cbn [validate_intent sample_structure] in Hv.
  destruct (validate_intent_header_v2 _ _ _ _); [|done]. cbn in Hv. simplify_eq. cbn.
  destruct (im_get c (si_children i)) eqn:E; [eauto|]. by apply im_get_None in E.
Qed.

Definition sample (h : IntentHash) (cs : list (Hash * Z)) (n : Z) : SampleIntent := {|
  si_hash := h; si_children := cs; si_parent_yields := n;
  si_header := HeaderTheorems.sample_header 100 200 None None |}.

Definition sample_root : SampleIntent := sample (Transaction 7) [(11, 2); (12, 1)] 0.
Definition sample_subs : list SampleIntent :=
  [sample (Subintent 13) [] 4; sample (Subintent 11) [(13, 4)] 2; sample (Subintent 12) [] 1].

Lemma subintents_form_tree_witness :
  is_tree 3 sample_root sample_subs.
Proof.
  destruct (subintents_form_tree config_cuttlefish sample_root sample_subs) as (_ & [Ht _] & _).
  { done. }
  { by vm_compute. }
  apply Ht. eexists. vm_compute. reflexivity.
Defined.

Lemma accepted_yields_match_witness :
  exists info, validate_intents_and_structure config_cuttlefish sample_root sample_subs =
    Done (Ok info) /\ is_tree 3 sample_root sample_subs.
Proof.
  destruct (accepted_yields_match config_cuttlefish sample_root sample_subs sample_lawful
    sample_lawful) as (r & Hr & Hinfo).
  { done. }
  { by vm_compute. }
  { unfold sample_subs. set_solver. }
  assert (exists info, r = Ok info) as [info ->]
    by (vm_compute in Hr; injection Hr as <-; by eexists).
  exists info. split; [exact Hr|]. exact (proj1 (Hinfo info eq_refl)).
Defined.

(** A cycle of subintents that nothing reaches. *)
Example cycle_refused :
  validate_intent_relationships (S := SampleIntent) config_cuttlefish (sample (Transaction 7) [] 0)
    [sample (Subintent 11) [(12, 1)] 1; sample (Subintent 12) [(11, 1)] 1] =
  Done (Err (StructureError (NonRootSubintent 0 11)
    SubintentIsNotReachableFromTheTransactionIntent)).
Proof. by vm_compute. Qed.

(** Below a root subintent the maximal depth is one less; with the depth of
    zero of the first configuration the subtraction wraps around, so that any
    depth is accepted (in a build with overflow checks it would panic). *)
Example zero_depth_wraps :
  max_depth config_babylon (sample (Subintent 7) [] 0) = 2 ^ 64 - 1.
Proof. by vm_compute. Qed.

End TreeTheorems.
