(* ===== verification/TransactionTracker.v ===== *)
(** * The transaction tracker

    The record of committed intents that keeps an intent from being committed
    twice: a ring of partitions, each covering a range of expiry epochs
    (radix-engine/src/blueprints/transaction_tracker/package.rs), the checks
    before a transaction runs and the update after it is committed
    ([System::init] and [System::update_transaction_tracker] of
    radix-engine/src/system/system_callback.rs), and how a validated
    transaction becomes an executable one.  The store holds the tracker's
    field and its partitions; a partition deleted in a transaction is emptied
    before the writes of that transaction, as in [TrackedSubstates::
    to_state_updates].  The fault injection of the costing module, for tests
    only, is off. *)

From S2P Require Import Prelude FeeReserve IntentHeaders IntentTree.
Import Int.

(** ** The tracker *)

Definition MAIN_BASE_PARTITION : Z := 64.
Definition PARTITION_RANGE_START : Z := MAIN_BASE_PARTITION + 1.
Definition PARTITION_RANGE_END : Z := u_max 8.
Definition EPOCHS_PER_PARTITION : Z := 100.

Record TransactionTrackerSubstateV1 : Type := mk_tracker {
  start_epoch : Z;
  start_partition : Z;
  partition_range_start_inclusive : Z;
  partition_range_end_inclusive : Z;
  epochs_per_partition : Z
}.

Definition tracker_create (current_epoch : Epoch) : TransactionTrackerSubstateV1 :=
  mk_tracker current_epoch PARTITION_RANGE_START PARTITION_RANGE_START PARTITION_RANGE_END
    EPOCHS_PER_PARTITION.

Definition partition_for_expiry_epoch (t : TransactionTrackerSubstateV1) (epoch : Epoch) :
    Exec (option Z) :=
  let num_partitions :=
    wrap_u 8 (wrap_u 8 (partition_range_end_inclusive t - partition_range_start_inclusive t) + 1) in
  let max_epoch_exclusive :=
    wrap_u 64 (start_epoch t + wrap_u 64 (num_partitions * epochs_per_partition t)) in
  if (epoch <? start_epoch t) || (max_epoch_exclusive <=? epoch) then Done None else
  if epochs_per_partition t =? 0 then Panicked else
  let n0 := wrap_u 64 (start_partition t + (epoch - start_epoch t) / epochs_per_partition t) in
  let partition_number :=
    if partition_range_end_inclusive t <? n0 then wrap_u 64 (n0 - num_partitions) else n0 in
  if (partition_number <? partition_range_start_inclusive t)
     || (partition_range_end_inclusive t <? partition_number) then Panicked
  else Done (Some (wrap_u 8 partition_number)).

Definition advance (t : TransactionTrackerSubstateV1) : Z * TransactionTrackerSubstateV1 :=
  (start_partition t,
   mk_tracker (wrap_u 64 (start_epoch t + epochs_per_partition t))
     (if start_partition t =? partition_range_end_inclusive t
      then partition_range_start_inclusive t else wrap_u 8 (start_partition t + 1))
     (partition_range_start_inclusive t) (partition_range_end_inclusive t)
     (epochs_per_partition t)).

Inductive TransactionStatusV1 : Type :=
| CommittedSuccess
| CommittedFailure
| Cancelled.

(** The tracker's field and the entries of its partitions, by partition and
    hash. *)
Record TrackerStore : Type := {
  tracker : TransactionTrackerSubstateV1;
  statuses : gmap (Z * Hash) (option TransactionStatusV1)
}.

(** ** Nullifications *)

Inductive IntentHashNullification : Type :=
| TransactionIntent (intent_hash : Hash) (expiry_epoch : Epoch)
| SimulatedTransactionIntent
| SubintentNullification (intent_hash : Hash) (expiry_epoch : Epoch)
| SimulatedSubintent (index : Z).

Definition to_nullification (h : IntentHash) (expiry_epoch : Epoch) : IntentHashNullification :=
  match h with
  | Transaction h => TransactionIntent h expiry_epoch
  | Subintent h => SubintentNullification h expiry_epoch
  end.

Definition into_hash (h : IntentHash) : Hash := match h with Transaction h | Subintent h => h end.

Definition simulated_transaction_hash : Hash := 0.
(** A one, the index in eight bytes, zeros. *)
Definition simulated_subintent_hash (index : Z) : Hash := 2 ^ (8 * 31) + index * 2 ^ (8 * 23).
Definition simulated_expiry_epoch (current_epoch : Epoch) : Epoch :=
  default (u_max 64) (epoch_next current_epoch).

Record Nullification : Type := { n_expiry_epoch : Epoch; n_intent_hash : IntentHash }.

Definition of_intent (n : IntentHashNullification) (current_epoch : Epoch) (is_success : bool) :
    option Nullification :=
  match n with
  | TransactionIntent h x => Some {| n_expiry_epoch := x; n_intent_hash := Transaction h |}
  | SimulatedTransactionIntent =>
      Some {| n_expiry_epoch := simulated_expiry_epoch current_epoch;
              n_intent_hash := Transaction simulated_transaction_hash |}
  | SubintentNullification h x =>
      if negb is_success then None
      else Some {| n_expiry_epoch := x; n_intent_hash := Subintent h |}
  | SimulatedSubintent i =>
      if negb is_success then None
      else Some {| n_expiry_epoch := simulated_expiry_epoch current_epoch;
                   n_intent_hash := Subintent (simulated_subintent_hash i) |}
  end.

Definition transaction_tracker_keys (n : Nullification) : Epoch * Hash :=
  (n_expiry_epoch n, into_hash (n_intent_hash n)).

(** ** Executable transactions *)

Record EpochRange : Type := { r_start_epoch_inclusive : Epoch; r_end_epoch_exclusive : Epoch }.
Record ProposerTimestampRange : Type := {
  r_start_timestamp_inclusive : option Instant;
  r_end_timestamp_exclusive : option Instant
}.

Record Executable : Type := {
  intent_hash_nullifications : list IntentHashNullification;
  epoch_range : option EpochRange;
  proposer_timestamp_range : option ProposerTimestampRange
}.

Definition create_executable_v1 (h : Hash) (header : TransactionHeaderV1) : Executable := {|
  intent_hash_nullifications := [TransactionIntent h (h1_end_epoch_exclusive header)];
  epoch_range := Some {| r_start_epoch_inclusive := h1_start_epoch_inclusive header;
                         r_end_epoch_exclusive := h1_end_epoch_exclusive header |};
  proposer_timestamp_range := None |}.

(** The hash and header of the root intent and those of the subintents, with
    the range the validation of the headers ended with. *)
Definition create_executable_v2 (root_hash : Hash) (root : IntentHeaderV2)
    (subs : list (Hash * IntentHeaderV2)) (range : OverallValidityRangeV2) : Executable := {|
  intent_hash_nullifications :=
    to_nullification (Transaction root_hash) (h2_end_epoch_exclusive root) ::
    map (fun s => to_nullification (Subintent s.1) (h2_end_epoch_exclusive s.2)) subs;
  epoch_range := Some {| r_start_epoch_inclusive := start_epoch_inclusive range;
                         r_end_epoch_exclusive := end_epoch_exclusive range |};
  proposer_timestamp_range := Some {|
    r_start_timestamp_inclusive := start_timestamp_inclusive range;
    r_end_timestamp_exclusive := end_timestamp_exclusive range |} |}.

(** ** Before a transaction runs *)

Inductive BootRejection : Type :=
| TransactionEpochNotYetValid (valid_from current_epoch : Epoch)
| TransactionEpochNoLongerValid (valid_until current_epoch : Epoch)
| TransactionProposerTimestampNotYetValid (valid_from_inclusive current_time : Instant)
| TransactionProposerTimestampNoLongerValid (valid_to_exclusive current_time : Instant)
| IntentHashPreviouslyCommitted (h : IntentHash)
| IntentHashPreviouslyCancelled (h : IntentHash)
| FailedToApplyDeferredCosts (e : FeeReserveError).

Definition validate_epoch_range (current_epoch start_epoch_inclusive end_epoch_exclusive : Epoch) :
    Result BootRejection unit :=
  if current_epoch <? start_epoch_inclusive
  then Err (TransactionEpochNotYetValid start_epoch_inclusive current_epoch)
  else if end_epoch_exclusive <=? current_epoch
  then Err (TransactionEpochNoLongerValid (default 0 (epoch_previous end_epoch_exclusive)) current_epoch)
  else Ok tt.

Definition validate_intent_hash_uncosted (store : TrackerStore) (h : IntentHash)
    (expiry_epoch : Epoch) : Exec (Result BootRejection unit) :=
  p ← partition_for_expiry_epoch (tracker store) expiry_epoch;
  partition_number ← expect p;
  Done (match statuses store !! (partition_number, into_hash h) with
        | Some (Some CommittedSuccess) | Some (Some CommittedFailure) =>
            Err (IntentHashPreviouslyCommitted h)
        | Some (Some Cancelled) => Err (IntentHashPreviouslyCancelled h)
        | Some None | None => Ok tt
        end).

(** The costing module, when it is on. *)
Abbreviation BM := (M (option SystemLoanFeeReserve) BootRejection) (only parsing).

Definition check_intent_validity_cost : Z := 160000.
Definition check_timestamp_cost : Z := 40000.

Definition apply_deferred_execution_cost (cost_units : Z) : BM unit := fun costing =>
  match costing with
  | None => Done (Ok tt, None)
  | Some fee_reserve =>
      match consume_deferred_execution cost_units fee_reserve with
      | Done (Ok _, r) => Done (Ok tt, Some r)
      | Done (Err e, r) => Done (Err (FailedToApplyDeferredCosts e), Some r)
      | Panicked => Panicked
      end
  end.

Section Boot.
Context (charge_for_transaction_intent : bool) (store : TrackerStore).

Definition validate_nullification (n : IntentHashNullification) : BM unit :=
  (match n with
   | TransactionIntent h x =>
       r ← lift_exec (validate_intent_hash_uncosted store (Transaction h) x); lift_result r
   | SubintentNullification h x =>
       r ← lift_exec (validate_intent_hash_uncosted store (Subintent h) x); lift_result r
   | SimulatedTransactionIntent | SimulatedSubintent _ => mret tt
   end : BM unit);;
  if match n with
     | TransactionIntent _ _ | SimulatedTransactionIntent => charge_for_transaction_intent
     | SubintentNullification _ _ | SimulatedSubintent _ => true
     end
  then apply_deferred_execution_cost check_intent_validity_cost
  else mret tt.

Fixpoint validate_nullifications (ns : list IntentHashNullification) : BM unit :=
  match ns with
  | [] => mret tt
  | n :: rest => validate_nullification n;; validate_nullifications rest
  end.

Definition validate_timestamps (epoch_milli : Z) (range : ProposerTimestampRange) : BM unit :=
  match r_start_timestamp_inclusive range, r_end_timestamp_exclusive range with
  | None, None => mret tt
  | lo, hi =>
      let current_time := Z.quot epoch_milli 1000 in
      match lo with
      | Some t => guard_or (negb (current_time <? t))
                    (TransactionProposerTimestampNotYetValid t current_time)
      | None => mret tt
      end;;
      match hi with
      | Some t => guard_or (negb (t <=? current_time))
                    (TransactionProposerTimestampNoLongerValid t current_time)
      | None => mret tt
      end;;
      apply_deferred_execution_cost check_timestamp_cost
  end.

(** The checks of [System::init]; [current_epoch] is [None] before genesis. *)
Definition runtime_validation (current_epoch : option Epoch) (epoch_milli : Z) (ex : Executable) :
    BM unit :=
  match current_epoch, epoch_range ex with
  | Some e, Some range =>
      lift_result (validate_epoch_range e (r_start_epoch_inclusive range) (r_end_epoch_exclusive range))
  | _, _ => mret tt
  end;;
  validate_nullifications (intent_hash_nullifications ex);;
  match proposer_timestamp_range ex with
  | Some range => validate_timestamps epoch_milli range
  | None => mret tt
  end.

End Boot.

(** ** After a transaction is committed *)

(** The loop over the nullifications: what was performed, and the writes (all
    of the same status, so that their order does not matter). *)
Fixpoint write_nullifications (t : TransactionTrackerSubstateV1) (is_success : bool)
    (ns : list IntentHashNullification) :
    Exec (list Nullification * gmap (Z * Hash) (option TransactionStatusV1)) :=
  match ns with
  | [] => Done ([], ∅)
  | n :: rest =>
      match of_intent n (start_epoch t) is_success with
      | None => write_nullifications t is_success rest
      | Some nullification =>
          let '(expiry_epoch, h) := transaction_tracker_keys nullification in
          p ← partition_for_expiry_epoch t expiry_epoch;
          partition_number ← expect p;
          r ← write_nullifications t is_success rest;
          let status := if is_success then CommittedSuccess else CommittedFailure in
          Done (nullification :: r.1, <[(partition_number, h) := Some status]> r.2)
      end
  end.

Definition update_transaction_tracker (store : TrackerStore) (next_epoch : Epoch)
    (ns : list IntentHashNullification) (is_success : bool) :
    Exec (list Nullification * TrackerStore) :=
  let t := tracker store in
  r ← write_nullifications t is_success ns;
  if wrap_u 64 (start_epoch t + epochs_per_partition t) <=? next_epoch then
    let '(discarded_partition, t') := advance t in
    Done (r.1, {| tracker := t';
                  statuses := r.2 ∪ filter (fun e => e.1.1 <> discarded_partition) (statuses store) |})
  else Done (r.1, {| tracker := t; statuses := r.2 ∪ statuses store |}).

(** ** The ledger over time *)

Module TrackerHistory.

Record Ledger : Type := { l_epoch : Epoch; l_store : TrackerStore }.

Definition genesis (e : Epoch) : Ledger :=
  {| l_epoch := e; l_store := {| tracker := tracker_create e; statuses := ∅ |} |}.

Section History.
Context (config : TransactionValidationConfig) (network : option Z).

(** What reaches execution: user transactions whose headers were validated,
    and system transactions, which have neither a range nor intents. *)
Inductive valid_executable : Executable -> Prop :=
| valid_v1 h header :
    0 <= h1_start_epoch_inclusive header ->
    validate_header_v1 config network header = Ok tt ->
    valid_executable (create_executable_v1 h header)
| valid_v2 h root subs a range :
    Forall HeaderSpec.header_wf (root :: subs.*2) ->
    validate_headers config network (root :: subs.*2) aggregation_start = Ok a ->
    aggregation_finalize config a = Ok range ->
    valid_executable (create_executable_v2 h root subs range)
| valid_system :
    valid_executable {| intent_hash_nullifications := []; epoch_range := None;
                        proposer_timestamp_range := None |}.

(** A committed transaction: it passed the checks, ran and was committed as a
    success or a failure; the epoch it left is at most one partition later.
    The log has the hashes and expiry epochs of all intents nullified so far. *)
Inductive commit (l : Ledger) (log : list (Epoch * Hash)) :
    Executable -> bool -> Ledger -> list (Epoch * Hash) -> Prop :=
| commit_step charge costing costing' epoch_milli ex is_success next_epoch performed store' :
    valid_executable ex ->
    runtime_validation charge (l_store l) (Some (l_epoch l)) epoch_milli ex costing =
      Done (Ok tt, costing') ->
    l_epoch l <= next_epoch <= l_epoch l + EPOCHS_PER_PARTITION -> next_epoch < 2 ^ 63 ->
    update_transaction_tracker (l_store l) next_epoch (intent_hash_nullifications ex) is_success =
      Done (performed, store') ->
    commit l log ex is_success {| l_epoch := next_epoch; l_store := store' |}
      (map transaction_tracker_keys performed ++ log).

Inductive history (e0 : Epoch) : Ledger -> list (Epoch * Hash) -> Prop :=
| history_genesis : history e0 (genesis e0) []
| history_commit l log ex is_success l' log' :
    history e0 l log -> commit l log ex is_success l' log' -> history e0 l' log'.

End History.
End TrackerHistory.

(** ** Lemmas *)

Module TrackerLemmas.
Import TrackerHistory HeaderSpec.

Definition NUM : Z := PARTITION_RANGE_END - PARTITION_RANGE_START + 1.

Record tracker_ok (t : TransactionTrackerSubstateV1) : Prop := {
  tk_params : partition_range_start_inclusive t = PARTITION_RANGE_START /\
              partition_range_end_inclusive t = PARTITION_RANGE_END /\
              epochs_per_partition t = EPOCHS_PER_PARTITION;
  tk_partition : PARTITION_RANGE_START <= start_partition t <= PARTITION_RANGE_END;
  tk_epoch : 0 <= start_epoch t < 2 ^ 63 + 200
}.

(** The partition of an expiry epoch in the ring. *)
Definition slot (t : TransactionTrackerSubstateV1) (x : Epoch) : Z :=
  PARTITION_RANGE_START +
  (start_partition t - PARTITION_RANGE_START + (x - start_epoch t) / EPOCHS_PER_PARTITION) mod NUM.

Definition covered (t : TransactionTrackerSubstateV1) (x : Epoch) : Prop :=
  start_epoch t <= x < start_epoch t + NUM * EPOCHS_PER_PARTITION.

Ltac constants := unfold covered, slot, NUM, PARTITION_RANGE_START, PARTITION_RANGE_END,
  MAIN_BASE_PARTITION, EPOCHS_PER_PARTITION, u_max in *.

Lemma partition_spec t x :
  tracker_ok t -> covered t x -> partition_for_expiry_epoch t x = Done (Some (slot t x)).
Proof.
  intros [(Hs & He & Hp) Hpart Hep] Hc. unfold partition_for_expiry_epoch. rewrite Hs, He, Hp.
  change (wrap_u 8 (wrap_u 8 (PARTITION_RANGE_END - PARTITION_RANGE_START) + 1)) with NUM.
  change (wrap_u 64 (NUM * EPOCHS_PER_PARTITION)) with 19100.
  constants. rewrite wrap_u_small by (unfold u_max; lia).
  change (2 ^ 8 - 1) with 255 in *. change (64 + 1) with 65 in *. change (255 - 65 + 1) with 191 in *.
  rewrite (proj2 (Z.ltb_ge _ _)), (proj2 (Z.leb_gt _ _)) by lia. cbn [orb Z.eqb].
  pose proof (Z.div_pos (x - start_epoch t) 100 ltac:(lia) ltac:(lia)) as Hq0.
  assert ((x - start_epoch t) / 100 < 191) as Hq by (apply Z.div_lt_upper_bound; lia).
  set (q := (x - start_epoch t) / 100) in *. change (100 =? 0) with false. cbn iota.
  rewrite (wrap_u_small 64 (start_partition t + q)) by (unfold u_max; lia).
  destruct (255 <? start_partition t + q) eqn:E; zbool.
  - rewrite wrap_u_small by (unfold u_max; lia).
    rewrite (proj2 (Z.ltb_ge _ _)), (proj2 (Z.ltb_ge _ _)) by lia. cbn [orb].
    rewrite wrap_u_small by (unfold u_max; lia). do 2 f_equal.
    rewrite <- (Z.mod_unique (start_partition t - 65 + q) 191 1 (start_partition t - 65 + q - 191)); lia.
  - rewrite (proj2 (Z.ltb_ge _ _)), (proj2 (Z.ltb_ge _ _)) by lia. cbn [orb].
    rewrite wrap_u_small by (unfold u_max; lia). do 2 f_equal. rewrite Z.mod_small; lia.
Qed.

Lemma advance_ok t :
  tracker_ok t -> start_epoch t + EPOCHS_PER_PARTITION < 2 ^ 63 + 200 ->
  tracker_ok (advance t).2 /\ start_epoch (advance t).2 = start_epoch t + EPOCHS_PER_PARTITION.
Proof.
  intros [(Hs & He & Hp) Hpart Hep] Hlt. unfold advance. cbn. rewrite Hs, He, Hp.
  rewrite (wrap_u_small 64) by (constants; lia). split; [|done]. split; cbn; [done| |constants; lia].
  destruct (_ =? _) eqn:E; zbool; [constants; lia|]. rewrite wrap_u_small by (constants; lia).
  constants; lia.
Qed.

Lemma advance_slot t x :
  tracker_ok t -> start_epoch t + EPOCHS_PER_PARTITION < 2 ^ 63 + 200 ->
  slot (advance t).2 x = slot t x.
Proof.
  intros Hok Hlt. destruct (advance_ok t Hok Hlt) as [_ Hse]. destruct Hok as [(Hs & He & Hp) Hpart Hep].
  unfold slot. rewrite Hse.
  replace (x - (start_epoch t + EPOCHS_PER_PARTITION)) with
    ((x - start_epoch t) + (-1) * EPOCHS_PER_PARTITION) by lia.
  rewrite Z.div_add by done. set (q := (x - start_epoch t) / EPOCHS_PER_PARTITION). f_equal.
  unfold advance. cbn. rewrite Hs, He. destruct (_ =? _) eqn:E; zbool.
  - rewrite E. replace (PARTITION_RANGE_END - PARTITION_RANGE_START + q) with
      ((PARTITION_RANGE_START - PARTITION_RANGE_START + (q + -1)) + 1 * NUM) by (unfold NUM; lia).
    by rewrite Z.mod_add.
  - rewrite wrap_u_small by (constants; lia). f_equal. lia.
Qed.

(** Beyond the first partition's epochs another partition is used. *)
Lemma slot_not_first t x :
  tracker_ok t -> covered t x -> start_epoch t + EPOCHS_PER_PARTITION <= x ->
  slot t x <> start_partition t.
Proof.
  intros [_ Hpart _] Hc Hx. unfold slot.
  assert (1 <= (x - start_epoch t) / EPOCHS_PER_PARTITION < NUM) as Hq.
  { split; [apply Z.div_le_lower_bound; constants; lia|apply Z.div_lt_upper_bound; constants; lia]. }
  set (q := _ / _) in *. set (a := start_partition t - PARTITION_RANGE_START).
  assert (0 <= a < NUM) as Ha by (unfold a, NUM; lia). intros Heq.
  assert ((a + q) mod NUM = a) as Hm by (unfold a at 2; lia).
  destruct (Z.lt_ge_cases (a + q) NUM).
  - rewrite Z.mod_small in Hm by lia. lia.
  - rewrite <- (Z.mod_unique (a + q) NUM 1 (a + q - NUM)) in Hm by lia. lia.
Qed.

(** *** Intents and their expiry *)

(** The hash and expiry epoch of a real intent. *)
Definition real_intent (n : IntentHashNullification) (x : Epoch) (h : Hash) : Prop :=
  n = TransactionIntent h x \/ n = SubintentNullification h x.

Section Valid.
Context (config : TransactionValidationConfig) (network : option Z).
Context (Hrange : 0 <= max_epoch_range config <= (NUM - 1) * EPOCHS_PER_PARTITION).

Lemma valid_expiry ex e range :
  valid_executable config network ex -> epoch_range ex = Some range ->
  validate_epoch_range e (r_start_epoch_inclusive range) (r_end_epoch_exclusive range) = Ok tt ->
  forall n, n ∈ intent_hash_nullifications ex ->
  exists x h, real_intent n x h /\ e < x <= e + max_epoch_range config.
Proof.
  intros Hv Hr He n Hn. unfold validate_epoch_range in He.
  destruct (e <? _) eqn:E1; [done|]. destruct (_ <=? e) eqn:E2; [done|]. zbool.
  destruct Hv as [h header Hs Hok|h root subs a rg Hwf Hok Hfin|]; cbn in Hr; [| |done]; simplify_eq.
  - cbn in *. apply list_elem_of_singleton in Hn as ->. exists (h1_end_epoch_exclusive header), h.
    unfold validate_header_v1 in Hok. rewrite check_network_Ok, check_epochs_Ok in Hok by lia.
    split; [by left|lia].
  - apply headers_Ok in Hok as (Hall & -> & Ho); [|done|lia|by exists 0, 0].
    unfold aggregation_finalize in Hfin. destruct (_ <? _); [done|]. injection Hfin as <-.
    cbn [r_start_epoch_inclusive r_end_epoch_exclusive start_epoch_inclusive end_epoch_exclusive] in *.
    apply occupied_cases in Ho as (_ & t & Ht1 & Ht2).
    assert (range_covers e t (foldl narrow aggregation_start (root :: subs.*2))) as Hc
      by (by split_and!).
    apply foldl_covers in Hc as [_ Hc]. rewrite Forall_forall in Hc, Hall.
    assert (forall hd, hd ∈ root :: subs.*2 -> e < h2_end_epoch_exclusive hd <= e + max_epoch_range config)
      as Hhd.
    { intros hd Hin. destruct (Hc hd Hin) as [? _]. destruct (Hall hd Hin). lia. }
    cbn in Hn. apply elem_of_cons in Hn as [->|Hn].
    + eexists _, h. split; [by left|]. apply Hhd. set_solver.
    + apply list_elem_of_fmap in Hn as ([sh hd] & -> & Hin). exists (h2_end_epoch_exclusive hd), sh.
      split; [by right|]. apply Hhd, elem_of_cons. right. apply list_elem_of_fmap. by exists (sh, hd).
Qed.

Lemma system_has_no_intents ex :
  valid_executable config network ex -> epoch_range ex = None -> intent_hash_nullifications ex = [].
Proof. by intros []. Qed.

End Valid.

(** *** The store *)

Definition committed (m : gmap (Z * Hash) (option TransactionStatusV1)) (k : Z * Hash) : Prop :=
  m !! k = Some (Some CommittedSuccess) \/ m !! k = Some (Some CommittedFailure).

Lemma committed_union_l w m k : committed w k -> committed (w ∪ m) k.
Proof. intros [Hk|Hk]; [left|right]; by apply lookup_union_Some_l. Qed.

Lemma committed_union_r (w m : gmap (Z * Hash) (option TransactionStatusV1)) k :
  (is_Some (w !! k) -> committed w k) -> committed m k -> committed (w ∪ m) k.
Proof.
  intros Hw Hm. destruct (w !! k) as [st|] eqn:E; [apply committed_union_l, Hw; eauto|].
  destruct Hm as [Hk|Hk]; [left|right]; by rewrite lookup_union_r.
Qed.

Lemma committed_insert w k k' st :
  committed w k' -> (st = CommittedSuccess \/ st = CommittedFailure) ->
  committed (<[k := Some st]> w) k'.
Proof.
  intros Hc Hst. unfold committed. destruct (decide (k = k')) as [->|].
  - rewrite lookup_insert_eq. destruct Hst as [->| ->]; auto.
  - by rewrite lookup_insert_ne.
Qed.

Record Inv (l : Ledger) (log : list (Epoch * Hash)) : Prop := {
  inv_tracker : tracker_ok (tracker (l_store l));
  inv_epoch : start_epoch (tracker (l_store l)) <= l_epoch l
              < start_epoch (tracker (l_store l)) + EPOCHS_PER_PARTITION;
  inv_small : l_epoch l < 2 ^ 63;
  inv_log : forall x h, (x, h) ∈ log -> start_epoch (tracker (l_store l)) <= x ->
    covered (tracker (l_store l)) x /\
    committed (statuses (l_store l)) (slot (tracker (l_store l)) x, h);
  inv_recorded : forall p h st, statuses (l_store l) !! (p, h) = Some st -> exists x, (x, h) ∈ log
}.

Lemma tracker_genesis_Inv e : 0 <= e < 2 ^ 63 -> Inv (genesis e) [].
Proof.
  intros He. split; cbn; try (intros ?; set_solver); [|constants; lia|lia].
  split; cbn; [done|by constants|lia].
Qed.

(** All intents of the list are real and covered by the tracker. *)
Definition coverable (t : TransactionTrackerSubstateV1) (ns : list IntentHashNullification) : Prop :=
  forall n, n ∈ ns -> exists x h, real_intent n x h /\ covered t x.

Lemma write_nullifications_spec t is_success ns :
  tracker_ok t -> coverable t ns ->
  exists performed w, write_nullifications t is_success ns = Done (performed, w) /\
    (forall x h, (x, h) ∈ map transaction_tracker_keys performed ->
       covered t x /\ committed w (slot t x, h)) /\
    (forall p h, is_Some (w !! (p, h)) -> committed w (p, h) /\
       exists x, (x, h) ∈ map transaction_tracker_keys performed) /\
    (forall n x h, n ∈ ns -> real_intent n x h -> (is_success = true \/ n = TransactionIntent h x) ->
       (x, h) ∈ map transaction_tracker_keys performed).
Proof.
  intros Hok. induction ns as [|n ns IH]; intros Hc; cbn [write_nullifications].
  { exists [], ∅. split_and!; [done|set_solver|intros p h [? ?]; by rewrite lookup_empty in *|set_solver]. }
  destruct IH as (perf & w & -> & IH1 & IH2 & IH3); [intros n' Hn'; apply Hc; set_solver|].
  destruct (Hc n) as (x & h & Hreal & Hcov); [set_solver|].
  assert (of_intent n (start_epoch t) is_success = None \/
          exists nl, of_intent n (start_epoch t) is_success = Some nl /\
                     transaction_tracker_keys nl = (x, h)) as [Hnone|(nl & Hnl & Hkeys)].
  { destruct Hreal as [->| ->]; cbn; [right; by eexists|]. destruct is_success; cbn; [right; by eexists|by left]. }
  - rewrite Hnone. exists perf, w. split_and!; [done..|].
    intros n' x' h' [->|Hn']%elem_of_cons Hr' Hs; [|by eapply IH3]. exfalso.
    destruct Hr' as [->| ->]; cbn in Hnone; [done|]. destruct Hs as [->|?]; [|done]. done.
  - rewrite Hnl, Hkeys, partition_spec by done. cbn.
    set (st := if is_success then CommittedSuccess else CommittedFailure).
    assert (st = CommittedSuccess \/ st = CommittedFailure) as Hst by (destruct is_success; auto).
    assert (committed (<[(slot t x, h):=Some st]> w) (slot t x, h)) as Hhere.
    { unfold committed. rewrite lookup_insert_eq. destruct Hst as [->| ->]; auto. }
    eexists _, _. split; [done|]. cbn. rewrite Hkeys. split_and!.
    + intros x' h' [[= -> ->]|Hin]%elem_of_cons; [done|].
      destruct (IH1 x' h' Hin) as [? Hw]. split; [done|]. by apply committed_insert.
    + intros p h'. rewrite lookup_insert_is_Some. intros [[= <- <-]|[_ Hw]].
      * split; [done|]. exists x. set_solver.
      * destruct (IH2 _ _ Hw) as [? [x' ?]]. split; [by apply committed_insert|]. exists x'. set_solver.
    + intros n' x' h' [->|Hn']%elem_of_cons Hr' Hs.
      * assert ((x', h') = (x, h)) as -> by (destruct Hreal as [->| ->], Hr' as [?|?]; simplify_eq; done).
        set_solver.
      * apply elem_of_cons. right. by eapply IH3.
Qed.

(** Recording intents keeps the invariant, whether or not the tracker advances. *)
Lemma update_Inv l log next_epoch ns is_success :
  Inv l log -> coverable (tracker (l_store l)) ns ->
  l_epoch l <= next_epoch <= l_epoch l + EPOCHS_PER_PARTITION -> next_epoch < 2 ^ 63 ->
  exists performed store',
    update_transaction_tracker (l_store l) next_epoch ns is_success = Done (performed, store') /\
    Inv {| l_epoch := next_epoch; l_store := store' |} (map transaction_tracker_keys performed ++ log) /\
    (forall n x h, n ∈ ns -> real_intent n x h -> (is_success = true \/ n = TransactionIntent h x) ->
       (x, h) ∈ map transaction_tracker_keys performed).
Proof.
  intros [Hok Hep Hsm Hlog Hrec] Hc Hnext Hlt. set (t := tracker (l_store l)) in *.
  destruct (write_nullifications_spec t is_success ns Hok Hc) as (perf & w & Hw & Hw1 & Hw2 & Hw3).
  unfold update_transaction_tracker. fold t. rewrite Hw. cbn [mbind Exec_bind].
  destruct (tk_params t Hok) as (_ & _ & ->). pose proof (tk_epoch t Hok) as Hse.
  rewrite wrap_u_small by (constants; lia).
  assert (forall x h m, (x, h) ∈ map transaction_tracker_keys perf ++ log -> covered t x ->
    ((x, h) ∈ log -> committed m (slot t x, h)) -> committed (w ∪ m) (slot t x, h)) as Hcom.
  { intros x h m [Hin|Hin]%elem_of_app Hcov Hm.
    - apply committed_union_l. by apply Hw1.
    - apply committed_union_r; [|by apply Hm]. intros Hs. by apply Hw2. }
  assert (forall p h (m : gmap (Z * Hash) (option TransactionStatusV1)) st,
    (forall st', m !! (p, h) = Some st' -> statuses (l_store l) !! (p, h) = Some st') ->
    (w ∪ m) !! (p, h) = Some st ->
    exists x, (x, h) ∈ map transaction_tracker_keys perf ++ log) as Hback.
  { intros p h m st Hm [Hl|[_ Hl]]%lookup_union_Some_raw.
    - destruct (Hw2 p h) as [_ [x Hx]]; [by rewrite Hl|]. exists x. set_solver.
    - destruct (Hrec _ _ _ (Hm _ Hl)) as [x Hx]. exists x. set_solver. }
  assert (forall x h, (x, h) ∈ map transaction_tracker_keys perf ++ log -> start_epoch t <= x ->
    covered t x) as Hcov.
  { intros x h [Hin|Hin]%elem_of_app Hx; [by apply (Hw1 x h)|by apply (Hlog x h)]. }
  destruct (_ <=? next_epoch) eqn:E; zbool.
  - destruct (advance t) as [p t'] eqn:Hadv.
    assert (p = start_partition t) as -> by (unfold advance in Hadv; congruence).
    assert (t' = (advance t).2) as Ht' by (by rewrite Hadv).
    destruct (advance_ok t Hok) as [Hok' Hse']; [constants; lia|]. rewrite <- Ht' in *.
    eexists _, _. split; [done|]. split; [|done]. split; cbn; [done|constants; lia|done| |].
    + intros x h Hin Hx. assert (covered t x) as Hcx by (apply (Hcov x h Hin); constants; lia).
      split; [constants; lia|]. subst t'. rewrite advance_slot; [|done|constants; lia].
      apply Hcom; [done..|]. intros Hl. destruct (Hlog x h Hl) as [_ Hst]; [constants; lia|].
      pose proof (slot_not_first t x Hok Hcx ltac:(lia)) as Hne.
      unfold committed in *. rewrite !map_lookup_filter_Some. cbn. naive_solver.
    + intros p h st. apply Hback. intros st' [? _]%map_lookup_filter_Some. done.
  - eexists _, _. split; [done|]. split; [|done]. split; cbn; [done|fold t; lia|done| |].
    + intros x h Hin Hx. fold t in Hx |- *. assert (covered t x) as Hcx by (by apply (Hcov x h)).
      split; [done|]. apply Hcom; [done..|]. intros Hl. by apply Hlog.
    + intros p h st. by apply Hback.
Qed.

(** *** The checks before execution *)

(** Room for [k] more deferred cost units. *)
Definition deferrable (k : Z) (costing : option SystemLoanFeeReserve) : Prop :=
  match costing with
  | None => True
  | Some r => 0 <= execution_cost_units_deferred r /\ execution_cost_units_deferred r + k <= u_max 32
  end.

Lemma apply_deferred_total c costing : exists r s, apply_deferred_execution_cost c costing = Done (r, s).
Proof.
  destruct costing as [r|]; cbn; [|by eexists _, _].
  unfold consume_deferred_execution, checked_add_u32, ok_or, mbind, M_bind, gets, lift_result.
  cbn [id]. destruct (checked_u 32 _); by eexists _, _.
Qed.

Lemma apply_deferred_Ok c k costing :
  0 <= c -> 0 <= k -> deferrable (c + k) costing ->
  exists costing', apply_deferred_execution_cost c costing = Done (Ok tt, costing') /\
                   deferrable k costing'.
Proof.
  destruct costing as [r|]; cbn; intros Hc Hk Hd; [|by exists None].
  unfold consume_deferred_execution, checked_add_u32, ok_or, mbind, M_bind, gets, lift_result.
  cbn [id]. rewrite checked_u_small by lia. eexists. split; [done|]. cbn. lia.
Qed.

Section Checks.
Context (charge : bool) (store : TrackerStore) (Hok : tracker_ok (tracker store)).

Lemma validate_hash_spec h x :
  covered (tracker store) x ->
  exists r, validate_intent_hash_uncosted store h x = Done r /\
    (committed (statuses store) (slot (tracker store) x, into_hash h) -> r <> Ok tt) /\
    (statuses store !! (slot (tracker store) x, into_hash h) = None -> r = Ok tt).
Proof.
  intros Hc. unfold validate_intent_hash_uncosted. rewrite partition_spec by done. cbn.
  eexists. split; [done|]. split; [intros [->| ->]; done|by intros ->].
Qed.

Lemma validate_nullification_spec n x h costing :
  real_intent n x h -> covered (tracker store) x ->
  (exists r s, validate_nullification charge store n costing = Done (r, s)) /\
  (committed (statuses store) (slot (tracker store) x, h) ->
   forall s, validate_nullification charge store n costing <> Done (Ok tt, s)) /\
  (forall k, statuses store !! (slot (tracker store) x, h) = None -> 0 <= k ->
   deferrable (check_intent_validity_cost + k) costing ->
   exists s, validate_nullification charge store n costing = Done (Ok tt, s) /\ deferrable k s).
Proof.
  intros Hreal Hc.
  assert (exists ih b, into_hash ih = h /\ forall costing, validate_nullification charge store n costing =
    match validate_intent_hash_uncosted store ih x with
    | Done (Ok _) => if b : bool then apply_deferred_execution_cost check_intent_validity_cost costing
                     else Done (Ok tt, costing)
    | Done (Err e) => Done (Err e, costing)
    | Panicked => Panicked
    end) as (ih & b & <- & Heq).
  { destruct Hreal as [->| ->]; [exists (Transaction h), charge|exists (Subintent h), true];
      (split; [done|]); intros c; unfold validate_nullification, mbind, M_bind, lift_exec, lift_result; cbn;
      destruct (validate_intent_hash_uncosted _ _ _) as [[]|]; try done; by destruct charge. }
  rewrite Heq. destruct (validate_hash_spec ih x Hc) as (r & -> & Hcom & Hfree).
  destruct r as [[]|e].
  - split_and!.
    + destruct b; [apply apply_deferred_total|by eexists _, _].
    + intros Hx. by destruct (Hcom Hx).
    + intros k _ Hk Hd. destruct b; [by apply apply_deferred_Ok|]. exists costing. split; [done|].
      destruct costing; cbn in *; [|done]. unfold check_intent_validity_cost in Hd. lia.
  - split_and!; [by eexists _, _|done|]. intros k Hn. by specialize (Hfree Hn).
Qed.

Lemma validate_nullifications_spec ns costing :
  coverable (tracker store) ns ->
  (exists r s, validate_nullifications charge store ns costing = Done (r, s)) /\
  (forall n x h, n ∈ ns -> real_intent n x h ->
   committed (statuses store) (slot (tracker store) x, h) ->
   forall s, validate_nullifications charge store ns costing <> Done (Ok tt, s)) /\
  (forall k, (forall n x h, n ∈ ns -> real_intent n x h ->
                statuses store !! (slot (tracker store) x, h) = None) -> 0 <= k ->
   deferrable (check_intent_validity_cost * Z.of_nat (length ns) + k) costing ->
   exists s, validate_nullifications charge store ns costing = Done (Ok tt, s) /\ deferrable k s).
Proof.
  revert costing. induction ns as [|n ns IH]; intros costing Hc; cbn [validate_nullifications].
  { split_and!; [by eexists _, _|set_solver|]. intros k _ _ Hd. by exists costing. }
  destruct (Hc n) as (x & h & Hreal & Hcov); [set_solver|].
  assert (coverable (tracker store) ns) as Hc' by (intros n' ?; apply Hc; set_solver).
  destruct (validate_nullification_spec n x h costing Hreal Hcov) as ((r & s & Hr) & Hcom & Hfree).
  unfold mbind, M_bind. split_and!.
  - rewrite Hr. destruct r as [u|e]; [|by eexists _, _]. by apply IH.
  - intros n' x' h' [->|Hin]%elem_of_cons Hr' Hx s'.
    + assert ((x', h') = (x, h)) as [= -> ->]
        by (destruct Hreal as [->| ->], Hr' as [?|?]; simplify_eq; done).
      rewrite Hr. destruct r as [[]|e]; [|done]. by destruct (Hcom Hx s).
    + rewrite Hr. destruct r as [u|e]; [|done]. destruct (IH s Hc') as (_ & IHc & _).
      by apply (IHc n' x' h').
  - intros k Hall Hk Hd. destruct (Hfree (check_intent_validity_cost * Z.of_nat (length ns) + k))
      as (s1 & -> & Hd1).
    + apply (Hall n); [set_solver|done].
    + unfold check_intent_validity_cost. lia.
    + unfold deferrable in *. destruct costing; [|done]. cbn [length] in Hd. lia.
    + destruct (IH s1 Hc') as (_ & _ & IHf). apply IHf; [|done..].
      intros n' x' h' Hin. apply Hall. set_solver.
Qed.

End Checks.

(** *** Histories *)

Definition epoch_ok (e : Epoch) (ex : Executable) : Prop :=
  match epoch_range ex with
  | Some r => r_start_epoch_inclusive r <= e < r_end_epoch_exclusive r
  | None => True
  end.

Lemma validate_epoch_range_cases e s x :
  (s <= e < x /\ validate_epoch_range e s x = Ok tt) \/
  (~ s <= e < x /\ exists r, validate_epoch_range e s x = Err r).
Proof.
  unfold validate_epoch_range. destruct (e <? s) eqn:E1; zbool; [right; split; [lia|by eexists]|].
  destruct (x <=? e) eqn:E2; zbool; [right; split; [lia|by eexists]|left; split; [lia|done]].
Qed.

Lemma runtime_epoch charge store e ms ex costing :
  (epoch_ok e ex /\ runtime_validation charge store (Some e) ms ex costing =
     (validate_nullifications charge store (intent_hash_nullifications ex);;
      match proposer_timestamp_range ex with
      | Some range => validate_timestamps ms range
      | None => mret tt
      end) costing) \/
  (~ epoch_ok e ex /\ exists r, runtime_validation charge store (Some e) ms ex costing = Done (Err r, costing)).
Proof.
  unfold epoch_ok, runtime_validation. destruct (epoch_range ex) as [r|]; [|by left].
  destruct (validate_epoch_range_cases e (r_start_epoch_inclusive r) (r_end_epoch_exclusive r))
    as [[? ->]|[? [rj ->]]]; [by left|right]. split; [done|by eexists].
Qed.

Section Histories.
Context (config : TransactionValidationConfig) (network : option Z).
Context (Hrange : 0 <= max_epoch_range config <= (NUM - 1) * EPOCHS_PER_PARTITION).

Lemma coverable_executable l log ex :
  Inv l log -> valid_executable config network ex -> epoch_ok (l_epoch l) ex ->
  coverable (tracker (l_store l)) (intent_hash_nullifications ex).
Proof.
  intros HI Hv He n Hn. unfold epoch_ok in He. destruct (epoch_range ex) as [r|] eqn:Hr.
  - destruct (validate_epoch_range_cases (l_epoch l) (r_start_epoch_inclusive r)
      (r_end_epoch_exclusive r)) as [[_ Hok]|[? _]]; [|done].
    destruct (valid_expiry config network Hrange _ _ _ Hv Hr Hok n Hn) as (x & h & Hreal & Hx).
    exists x, h. split; [done|]. pose proof (inv_epoch _ _ HI). constants. lia.
  - rewrite (system_has_no_intents config network ex Hv Hr) in Hn. set_solver.
Qed.

Lemma tracker_history_Inv e0 l log : 0 <= e0 < 2 ^ 63 -> history config network e0 l log -> Inv l log.
Proof.
  intros He. induction 1 as [|l log ex b l' log' _ IH Hc]; [by apply tracker_genesis_Inv|].
  destruct Hc as [charge costing costing' ms ex b next perf store' Hv Hrun Hn1 Hn2 Hup].
  destruct (runtime_epoch charge (l_store l) (l_epoch l) ms ex costing) as [[Hep _]|[_ [r Hr]]];
    [|rewrite Hr in Hrun; done].
  destruct (update_Inv l log next (intent_hash_nullifications ex) b) as (perf' & store'' & Hup' & HI & _);
    [done|by eapply coverable_executable|done..|].
  rewrite Hup in Hup'. by simplify_eq.
Qed.

End Histories.

Lemma validate_timestamps_Ok ms range costing :
  at_least (r_start_timestamp_inclusive range) (Z.quot ms 1000) ->
  before (r_end_timestamp_exclusive range) (Z.quot ms 1000) ->
  deferrable check_timestamp_cost costing ->
  exists s, validate_timestamps ms range costing = Done (Ok tt, s).
Proof.
  intros Hlo Hhi Hd. destruct (apply_deferred_Ok check_timestamp_cost 0 costing) as (s & Hs & _);
    [done|done|by rewrite Z.add_0_r|]. unfold validate_timestamps.
  destruct (r_start_timestamp_inclusive range) as [lo|], (r_end_timestamp_exclusive range) as [hi|];
    cbn in Hlo, Hhi; unfold mbind, M_bind, guard_or, mret, M_ret; cbv zeta;
    rewrite ?(proj2 (Z.ltb_ge _ _) Hlo), ?(proj2 (Z.leb_gt _ _) Hhi); cbn [negb];
    first [by exists s | by eexists].
Qed.

End TrackerLemmas.

(** ** Theorems *)

Module TrackerTheorems.
Import TrackerHistory TrackerLemmas HeaderSpec.

Section Theorems.
Context (config : TransactionValidationConfig) (network : option Z).

(** C3. No intent is committed twice: after any sequence of committed
    transactions (none of which moves the epoch by more than a partition's
    worth), a transaction with an intent that was already nullified, as a
    transaction intent of a success or a failure or as a subintent of a
    success, is rejected before it runs, and the check does not panic.  The
    tracker may have advanced and recycled partitions any number of times in
    between. *)
Theorem replay_rejected e0 l log ex n x h charge costing epoch_milli :
  0 <= max_epoch_range config <= (NUM - 1) * EPOCHS_PER_PARTITION -> 0 <= e0 < 2 ^ 63 ->
  history config network e0 l log -> valid_executable config network ex ->
  n ∈ intent_hash_nullifications ex -> real_intent n x h -> (x, h) ∈ log ->
  exists r s, runtime_validation charge (l_store l) (Some (l_epoch l)) epoch_milli ex costing =
    Done (Err r, s).
Proof.
  intros Hrange He Hh Hv Hn Hreal Hlog. pose proof (tracker_history_Inv _ _ Hrange _ _ _ He Hh) as HI.
  destruct (runtime_epoch charge (l_store l) (l_epoch l) epoch_milli ex costing)
    as [[Hep ->]|[_ [r ->]]]; [|by eexists _, _].
  pose proof (coverable_executable _ _ Hrange _ _ _ HI Hv Hep) as Hc.
  destruct (validate_nullifications_spec charge (l_store l) (inv_tracker _ _ HI) _ costing Hc)
    as ((r & s & Hr) & Hcom & _).
  assert (committed (statuses (l_store l)) (slot (tracker (l_store l)) x, h)) as Hx.
  { apply (inv_log _ _ HI); [done|]. destruct (Hc n Hn) as (x' & h' & Hreal' & Hcov).
    assert (x' = x) as -> by (destruct Hreal as [->| ->], Hreal' as [?|?]; simplify_eq; done).
    apply Hcov. }
  unfold mbind, M_bind. rewrite Hr. destruct r as [[]|e]; [|by eexists _, _].
  by destruct (Hcom n x h Hn Hreal Hx s).
Qed.

(** C36. What is not a replay goes through: a validated transaction in its
    epoch and timestamp range, none of whose intents was nullified before,
    passes the checks (given room for the deferred costs of the checks), and
    when it is committed its intents are recorded without a panic: the
    transaction intent always, its subintents when it succeeded. *)
Theorem fresh_intent_accepted e0 l log ex charge costing epoch_milli :
  0 <= max_epoch_range config <= (NUM - 1) * EPOCHS_PER_PARTITION -> 0 <= e0 < 2 ^ 63 ->
  history config network e0 l log -> valid_executable config network ex ->
  epoch_ok (l_epoch l) ex ->
  (forall range, proposer_timestamp_range ex = Some range ->
     at_least (r_start_timestamp_inclusive range) (Z.quot epoch_milli 1000) /\
     before (r_end_timestamp_exclusive range) (Z.quot epoch_milli 1000)) ->
  (forall n x h x', n ∈ intent_hash_nullifications ex -> real_intent n x h -> (x', h) ∉ log) ->
  deferrable (check_intent_validity_cost * Z.of_nat (length (intent_hash_nullifications ex))
              + check_timestamp_cost) costing ->
  (exists s, runtime_validation charge (l_store l) (Some (l_epoch l)) epoch_milli ex costing =
     Done (Ok tt, s)) /\
  forall is_success next_epoch,
    l_epoch l <= next_epoch <= l_epoch l + EPOCHS_PER_PARTITION -> next_epoch < 2 ^ 63 ->
    exists l' log', commit config network l log ex is_success l' log' /\
      (forall n x h, n ∈ intent_hash_nullifications ex -> real_intent n x h ->
         (is_success = true \/ n = TransactionIntent h x) -> (x, h) ∈ log').
Proof.
  intros Hrange He Hh Hv Hep Hts Hnew Hd. pose proof (tracker_history_Inv _ _ Hrange _ _ _ He Hh) as HI.
  pose proof (coverable_executable _ _ Hrange _ _ _ HI Hv Hep) as Hc.
  assert (exists s, runtime_validation charge (l_store l) (Some (l_epoch l)) epoch_milli ex costing =
     Done (Ok tt, s)) as [s Hrun].
  { destruct (runtime_epoch charge (l_store l) (l_epoch l) epoch_milli ex costing)
      as [[_ ->]|[? _]]; [|done].
    destruct (validate_nullifications_spec charge (l_store l) (inv_tracker _ _ HI) _ costing Hc)
      as (_ & _ & Hfree).
    destruct (Hfree check_timestamp_cost) as (s & Hs & Hds); [|done|done|].
    - intros n x h Hn Hreal. destruct (statuses (l_store l) !! _) as [st|] eqn:E; [|done].
      destruct (inv_recorded _ _ HI _ _ _ E) as [x' Hx']. by destruct (Hnew n x h x' Hn Hreal).
    - unfold mbind, M_bind. rewrite Hs. destruct (proposer_timestamp_range ex) as [range|]; [|by eexists].
      destruct (Hts range eq_refl). by apply validate_timestamps_Ok. }
  split; [by eexists|]. intros b next Hn1 Hn2.
  destruct (update_Inv l log next _ b HI Hc Hn1 Hn2) as (perf & store' & Hup & _ & Hrec).
  eexists _, _. split; [by econstructor|]. intros n x h Hn Hreal Hs. apply elem_of_app. left.
  by eapply Hrec.
Qed.

End Theorems.

(** A failed transaction in epoch 100, recorded until epoch 200. *)
Definition demo_header : TransactionHeaderV1 := {|
  h1_network_id := 1; h1_start_epoch_inclusive := 100; h1_end_epoch_exclusive := 200;
  h1_tip_percentage := 0 |}.
Definition demo_tx (h : Hash) : Executable := create_executable_v1 h demo_header.

Definition demo_ledger : Ledger := {|
  l_epoch := 100;
  l_store := {| tracker := tracker_create 100;
                statuses := {[ (66, 5) := Some CommittedFailure ]} ∪ ∅ |} |}.

Lemma demo_valid h : valid_executable config_cuttlefish (Some 1) (demo_tx h).
Proof. constructor; [done|by vm_compute]. Qed.

Lemma tracker_demo_history : history config_cuttlefish (Some 1) 100 demo_ledger [(200, 5)].
Proof.
  apply (history_commit _ _ _ (genesis 100) [] (demo_tx 5) false); [constructor|].
  apply (commit_step _ _ (genesis 100) [] true None None 0 (demo_tx 5) false 100
    [{| n_expiry_epoch := 200; n_intent_hash := Transaction 5 |}]); [apply demo_valid|..];
    try done; by vm_compute.
Qed.

Lemma replay_rejected_witness :
  exists r s, runtime_validation true (l_store demo_ledger) (Some (l_epoch demo_ledger)) 0 (demo_tx 5)
    None = Done (Err r, s).
Proof.
  apply (replay_rejected config_cuttlefish (Some 1) 100 demo_ledger [(200, 5)] (demo_tx 5)
    (TransactionIntent 5 200) 200 5); [by vm_compute|done|apply tracker_demo_history|apply demo_valid| | |].
  - apply list_elem_of_singleton. done.
  - by left.
  - apply list_elem_of_singleton. done.
Defined.

Lemma fresh_intent_accepted_witness :
  exists s, runtime_validation true (l_store demo_ledger) (Some (l_epoch demo_ledger)) 0 (demo_tx 6)
    None = Done (Ok tt, s).
Proof.
  apply (fresh_intent_accepted config_cuttlefish (Some 1) 100 demo_ledger [(200, 5)] (demo_tx 6));
    [by vm_compute|done|apply tracker_demo_history|apply demo_valid|done|done| |done].
  intros n x h x' ->%list_elem_of_singleton [[= <- <-]|?]; [|done].
  intros [= ]%list_elem_of_singleton.
Defined.

(** The examples of the blueprint's own test. *)
Example test_partition_calculation :
  let t := mk_tracker 256 70 PARTITION_RANGE_START PARTITION_RANGE_END EPOCHS_PER_PARTITION in
  (partition_for_expiry_epoch t 0, partition_for_expiry_epoch t 256,
   partition_for_expiry_epoch t 355, partition_for_expiry_epoch t 356,
   partition_for_expiry_epoch t (256 + 100 * 191 - 1), partition_for_expiry_epoch t (256 + 100 * 191)) =
  (Done None, Done (Some 70), Done (Some 70), Done (Some 71), Done (Some 69), Done None) /\
  ((advance t).1, start_epoch (advance t).2, start_partition (advance t).2) = (70, 356, 71).
Proof. by vm_compute. Qed.

End TrackerTheorems.
