(* ===== verification/Bytes.v ===== *)
(** * Bytes

    A byte string of the source ([Vec<u8>], [&[u8]]) is a [list Z] of values of
    [u8]; the library functions on bytes the codecs use: [to_le_bytes] and
    [from_le_bytes] of the integer types, their big-endian versions, and
    [String::from_utf8] (a [String] is its bytes, which are well-formed
    UTF-8). *)

From S2P Require Import Prelude.
Import Int.

Definition is_byte (b : Z) : bool := in_u 8 b.
Definition bytes_ok (bs : list Z) : bool := forallb is_byte bs.

(** The [n] bytes of an integer of [8 * n] bits, signed or not, least
    significant first: [z / 256] rounds down, so a negative value gives the
    bytes of its two's complement. *)
Fixpoint to_le_bytes (n : nat) (z : Z) : list Z :=
  match n with
  | O => []
  | S n' => z mod 256 :: to_le_bytes n' (z / 256)
  end.

Fixpoint u_from_le_bytes (bs : list Z) : Z :=
  match bs with [] => 0 | b :: bs' => b + 256 * u_from_le_bytes bs' end.

Definition i_from_le_bytes (bs : list Z) : Z :=
  wrap_i (8 * Z.of_nat (length bs)) (u_from_le_bytes bs).

Definition to_be_bytes (n : nat) (z : Z) : list Z := rev (to_le_bytes n z).
Definition u_from_be_bytes (bs : list Z) : Z := u_from_le_bytes (rev bs).

(** Well-formed UTF-8 (the Unicode standard, table 3-7). *)
Definition in_range (lo hi b : Z) : bool := (lo <=? b) && (b <=? hi).
Definition continuation (b : Z) : bool := in_range 0x80 0xBF b.

Fixpoint is_utf8 (bs : list Z) : bool :=
  match bs with
  | [] => true
  | b :: bs1 =>
      if in_range 0 0x7F b then is_utf8 bs1 else
      match bs1 with
      | [] => false
      | c1 :: bs2 =>
          if in_range 0xC2 0xDF b then continuation c1 && is_utf8 bs2 else
          match bs2 with
          | [] => false
          | c2 :: bs3 =>
              if in_range 0xE0 0xEF b then
                (if b =? 0xE0 then in_range 0xA0 0xBF c1
                 else if b =? 0xED then in_range 0x80 0x9F c1
                 else continuation c1) && continuation c2 && is_utf8 bs3
              else
              match bs3 with
              | [] => false
              | c3 :: bs4 =>
                  if in_range 0xF0 0xF4 b then
                    (if b =? 0xF0 then in_range 0x90 0xBF c1
                     else if b =? 0xF4 then in_range 0x80 0x8F c1
                     else continuation c1) && continuation c2 && continuation c3 && is_utf8 bs4
                  else false
              end
          end
      end
  end.

(** [String::from_utf8] and [str::from_utf8] *)
Definition from_utf8 (bs : list Z) : option (list Z) := if is_utf8 bs then Some bs else None.

(** ** Lemmas *)

Lemma is_byte_spec b : is_byte b = true <-> 0 <= b < 256.
Proof. unfold is_byte. rewrite in_u_spec. change (u_max 8) with 255. lia. Qed.

Lemma bytes_ok_app l1 l2 : bytes_ok (l1 ++ l2) = bytes_ok l1 && bytes_ok l2.
Proof. apply forallb_app. Qed.

Lemma bytes_ok_rev l : bytes_ok (rev l) = bytes_ok l.
Proof.
  induction l as [|b l IH]; cbn; [done|].
  rewrite bytes_ok_app, IH. cbn. by rewrite andb_true_r, andb_comm.
Qed.

Lemma length_to_le_bytes n z : length (to_le_bytes n z) = n.
Proof. revert z. induction n; cbn; auto. Qed.

Lemma length_to_be_bytes n z : length (to_be_bytes n z) = n.
Proof. unfold to_be_bytes. by rewrite length_rev, length_to_le_bytes. Qed.

Lemma to_le_bytes_ok n z : bytes_ok (to_le_bytes n z) = true.
Proof.
  revert z. induction n as [|n IH]; intros z; cbn; [done|].
  rewrite IH, andb_true_r. apply is_byte_spec, Z.mod_pos_bound. lia.
Qed.

Lemma pow_succ_256 n : 2 ^ (8 * Z.of_nat (S n)) = 256 * 2 ^ (8 * Z.of_nat n).
Proof. change 256 with (2 ^ 8). rewrite <- Z.pow_add_r by lia. f_equal. lia. Qed.

Lemma u_from_to_le_bytes n z : u_from_le_bytes (to_le_bytes n z) = z mod 2 ^ (8 * Z.of_nat n).
Proof.
  revert z. induction n as [|n IH]; intros z; cbn [to_le_bytes u_from_le_bytes].
  - by rewrite Z.mod_1_r.
  - rewrite IH, pow_succ_256, Z.rem_mul_r by lia. lia.
Qed.

Lemma u_from_le_bytes_bound bs : bytes_ok bs = true ->
  0 <= u_from_le_bytes bs < 2 ^ (8 * Z.of_nat (length bs)).
Proof.
  induction bs as [|b bs IH]; cbn [bytes_ok forallb u_from_le_bytes length]; [cbn; lia|].
  rewrite andb_true_iff, is_byte_spec, pow_succ_256. intros [Hb H]. specialize (IH H). lia.
Qed.

Lemma to_from_le_bytes_mod bs z : bytes_ok bs = true ->
  z mod 2 ^ (8 * Z.of_nat (length bs)) = u_from_le_bytes bs ->
  to_le_bytes (length bs) z = bs.
Proof.
  revert z. induction bs as [|b bs IH]; intros z; [done|].
  cbn [bytes_ok forallb u_from_le_bytes length to_le_bytes].
  rewrite andb_true_iff, is_byte_spec, pow_succ_256. intros [Hb H] Hz.
  rewrite Z.rem_mul_r in Hz by lia.
  pose proof (Z.mod_pos_bound z 256 ltac:(lia)).
  f_equal; [|apply IH; [done|]]; lia.
Qed.

Lemma u_to_from_le_bytes bs : bytes_ok bs = true ->
  to_le_bytes (length bs) (u_from_le_bytes bs) = bs.
Proof.
  intros H. apply to_from_le_bytes_mod; [done|]. apply Z.mod_small.
  by apply u_from_le_bytes_bound.
Qed.

Lemma u_from_to_small n z : 0 <= z <= u_max (8 * Z.of_nat n) ->
  u_from_le_bytes (to_le_bytes n z) = z.
Proof. unfold u_max. intros H. rewrite u_from_to_le_bytes. apply Z.mod_small. lia. Qed.

Lemma wrap_i_mod w z : 0 < w -> wrap_i w (z mod 2 ^ w) = wrap_i w z.
Proof. intros Hw. unfold wrap_i. by rewrite Zplus_mod_idemp_l. Qed.

Lemma i_from_to_small n z : (0 < n)%nat ->
  i_min (8 * Z.of_nat n) <= z <= i_max (8 * Z.of_nat n) ->
  i_from_le_bytes (to_le_bytes n z) = z.
Proof.
  intros Hn Hz. unfold i_from_le_bytes.
  rewrite length_to_le_bytes, u_from_to_le_bytes, wrap_i_mod by lia.
  apply wrap_i_small; lia.
Qed.

Lemma wrap_i_range w z : 0 < w -> i_min w <= wrap_i w z <= i_max w.
Proof.
  intros Hw. unfold wrap_i, i_min, i_max.
  assert (2 ^ w = 2 * 2 ^ (w - 1)) as ->
    by (rewrite <- Z.pow_succ_r by lia; f_equal; lia).
  pose proof (Z.pow_pos_nonneg 2 (w - 1) ltac:(lia) ltac:(lia)).
  pose proof (Z.mod_pos_bound (z + 2 ^ (w - 1)) (2 * 2 ^ (w - 1)) ltac:(lia)). lia.
Qed.

Lemma i_to_from_le_bytes bs : bytes_ok bs = true -> (0 < length bs)%nat ->
  to_le_bytes (length bs) (i_from_le_bytes bs) = bs.
Proof.
  intros H Hn. apply to_from_le_bytes_mod; [done|]. unfold i_from_le_bytes, wrap_i.
  rewrite Zminus_mod_idemp_l, Z.add_simpl_r. apply Z.mod_small.
  by apply u_from_le_bytes_bound.
Qed.

Lemma u_from_to_be_small n z : 0 <= z <= u_max (8 * Z.of_nat n) ->
  u_from_be_bytes (to_be_bytes n z) = z.
Proof. unfold u_from_be_bytes, to_be_bytes. rewrite rev_involutive. apply u_from_to_small. Qed.

Lemma u_to_from_be_bytes bs : bytes_ok bs = true ->
  to_be_bytes (length bs) (u_from_be_bytes bs) = bs.
Proof.
  intros H. unfold u_from_be_bytes, to_be_bytes.
  rewrite <- (length_rev bs), u_to_from_le_bytes by (by rewrite bytes_ok_rev).
  apply rev_involutive.
Qed.

Lemma u_from_be_bytes_bound bs : bytes_ok bs = true ->
  0 <= u_from_be_bytes bs <= u_max (8 * Z.of_nat (length bs)).
Proof.
  intros H. unfold u_from_be_bytes, u_max.
  pose proof (u_from_le_bytes_bound (rev bs) ltac:(by rewrite bytes_ok_rev)) as Hb.
  rewrite length_rev in Hb. lia.
Qed.
