(* ===== verification/Sbor.v ===== *)
(** * The SBOR codec

    The binary format of every value the ledger stores and every payload it
    receives (sbor/src): value kinds (value_kind.rs), the [Value] model with
    its encoder and decoder (value.rs, encoder.rs, decoder.rs) and the codecs
    of the primitive types (codec/).  Custom kinds and values, a type
    parameter of the source ([CustomValueKind], [CustomValue]), are type
    classes; [SborCustom] gives the instances of the ledger.

    The encoder recurses on the value.  The decoder recurses on nothing but its
    depth counter: its fuel is the depth limit, and [decode_total] shows it is
    never exhausted. *)

From S2P Require Import Prelude Bytes.
Import Int.

#[global] Instance M_fmap {S E} : FMap (M S E) := fun A B f m => a ← m; mret (f a).

(** ** Value kinds *)

Definition CUSTOM_VALUE_KIND_START : Z := 0x80.

Class CustomValueKind (X : Type) : Type := {
  custom_as_u8 : X -> Z;
  custom_from_u8 : Z -> option X;
  #[global] custom_kind_eq_dec :: EqDecision X
}.

Inductive ValueKind (X : Type) : Type :=
| KBool | KI8 | KI16 | KI32 | KI64 | KI128 | KU8 | KU16 | KU32 | KU64 | KU128
| KString | KEnum | KArray | KTuple | KMap
| KCustom (x : X).
Arguments KBool {X}. Arguments KI8 {X}. Arguments KI16 {X}. Arguments KI32 {X}.
Arguments KI64 {X}. Arguments KI128 {X}. Arguments KU8 {X}. Arguments KU16 {X}.
Arguments KU32 {X}. Arguments KU64 {X}. Arguments KU128 {X}. Arguments KString {X}.
Arguments KEnum {X}. Arguments KArray {X}. Arguments KTuple {X}. Arguments KMap {X}.
Arguments KCustom {X} x.

#[global] Instance ValueKind_eq_dec {X} `{EqDecision X} : EqDecision (ValueKind X).
Proof. solve_decision. Defined.

Section Kinds.
Context {X : Type} `{CustomValueKind X}.

Definition as_u8 (k : ValueKind X) : Z :=
  match k with
  | KBool => 0x01 | KI8 => 0x02 | KI16 => 0x03 | KI32 => 0x04 | KI64 => 0x05 | KI128 => 0x06
  | KU8 => 0x07 | KU16 => 0x08 | KU32 => 0x09 | KU64 => 0x0a | KU128 => 0x0b
  | KString => 0x0c
  | KTuple => 0x21 | KEnum => 0x22 | KArray => 0x20 | KMap => 0x23
  | KCustom x => custom_as_u8 x
  end.

Definition from_u8 (id : Z) : option (ValueKind X) :=
  match id with
  | 0x01 => Some KBool | 0x02 => Some KI8 | 0x03 => Some KI16 | 0x04 => Some KI32
  | 0x05 => Some KI64 | 0x06 => Some KI128
  | 0x07 => Some KU8 | 0x08 => Some KU16 | 0x09 => Some KU32 | 0x0a => Some KU64
  | 0x0b => Some KU128
  | 0x0c => Some KString
  | 0x21 => Some KTuple | 0x22 => Some KEnum | 0x20 => Some KArray | 0x23 => Some KMap
  | _ => if CUSTOM_VALUE_KIND_START <=? id then KCustom <$> custom_from_u8 id else None
  end.

(** What a set of custom kinds promises: distinct bytes above the start of the
    custom range. *)
Class CustomKindLaws : Prop := {
  custom_from_as : forall x, custom_from_u8 (custom_as_u8 x) = Some x;
  custom_as_from : forall b x, custom_from_u8 b = Some x -> custom_as_u8 x = b;
  custom_range : forall x, CUSTOM_VALUE_KIND_START <= custom_as_u8 x < 256
}.
End Kinds.
Arguments CustomKindLaws X {_}.

(** ** The encoder *)

Inductive EncodeError : Type :=
| EncodeMaxDepthExceeded (max : nat)
| SizeTooLarge (actual max_allowed : Z)
| MismatchingArrayElementValueKind (element_value_kind actual_value_kind : Z)
| MismatchingMapKeyValueKind (key_value_kind actual_value_kind : Z)
| MismatchingMapValueValueKind (value_value_kind actual_value_kind : Z).

Record VecEncoder : Type := mk_encoder {
  buf : list Z;
  enc_max_depth : nat;
  enc_stack_depth : nat
}.

Abbreviation Enc := (M VecEncoder EncodeError).

Definition VecEncoder_new (b : list Z) (max_depth : nat) : VecEncoder := mk_encoder b max_depth 0.

Definition set_enc_depth (d : nat) (e : VecEncoder) : VecEncoder :=
  mk_encoder (buf e) (enc_max_depth e) d.

Definition enc_track_stack_depth_increase : Enc unit :=
  modify (fun e => set_enc_depth (S (enc_stack_depth e)) e);;
  e ← gets id;
  if (enc_max_depth e <? enc_stack_depth e)%nat
  then throw (EncodeMaxDepthExceeded (enc_max_depth e)) else mret tt.

Definition enc_track_stack_depth_decrease : Enc unit :=
  modify (fun e => set_enc_depth (enc_stack_depth e - 1) e).

Definition write_slice (bs : list Z) : Enc unit :=
  modify (fun e => mk_encoder (buf e ++ bs) (enc_max_depth e) (enc_stack_depth e)).

Definition write_byte (n : Z) : Enc unit := write_slice [n].

(** The body of the value is passed as the computation that writes it. *)
Definition encode_deeper_body (encode_body : Enc unit) : Enc unit :=
  enc_track_stack_depth_increase;; encode_body;; enc_track_stack_depth_decrease.

Definition encode_with (encode_value_kind encode_body : Enc unit) : Enc unit :=
  encode_value_kind;; encode_deeper_body encode_body.

Definition write_value_kind {X} `{CustomValueKind X} (k : ValueKind X) : Enc unit :=
  write_byte (as_u8 k).

Definition write_discriminator (discriminator : Z) : Enc unit := write_byte discriminator.

Definition MAX_SIZE : Z := 0x0FFFFFFF.

(** A [usize] has 64 bits, so ten groups of seven bits. *)
Fixpoint write_size_loop (fuel : nat) (size : Z) : Enc unit :=
  match fuel with
  | O => panic
  | S f =>
      let seven_bits := Z.land size 0x7F in
      let size := Z.shiftr size 7 in
      if size =? 0 then write_byte seven_bits
      else write_byte (Z.lor seven_bits 0x80);; write_size_loop f size
  end.

Definition write_size (size : Z) : Enc unit :=
  if MAX_SIZE <? size then throw (SizeTooLarge size MAX_SIZE) else write_size_loop 10 size.

Definition for_each {A S E} (f : A -> M S E unit) : list A -> M S E unit :=
  fix go l := match l with [] => mret tt | a :: l' => f a;; go l' end.

(** ** The decoder *)

Inductive DecodeError : Type :=
| ExtraTrailingBytes (n : nat)
| BufferUnderflow (required remaining : Z)
| UnexpectedPayloadPrefix (expected actual : Z)
| UnexpectedValueKind (expected actual : Z)
| UnexpectedCustomValueKind (actual : Z)
| UnexpectedSize (expected actual : Z)
| UnexpectedDiscriminator (expected actual : Z)
| UnknownValueKind (id : Z)
| UnknownDiscriminator (id : Z)
| InvalidBool (b : Z)
| InvalidUtf8
| InvalidSize
| DecodeMaxDepthExceeded (max : nat)
| DuplicateKey
| InvalidCustomValue.

Record VecDecoder : Type := mk_decoder {
  input : list Z;
  offset : nat;
  dec_stack_depth : nat;
  dec_max_depth : nat
}.

Abbreviation Dec := (M VecDecoder DecodeError).

Definition VecDecoder_new (bs : list Z) (max_depth : nat) : VecDecoder :=
  mk_decoder bs 0 0 max_depth.

Definition set_dec_depth (n : nat) (d : VecDecoder) : VecDecoder :=
  mk_decoder (input d) (offset d) n (dec_max_depth d).

Definition advance_offset (n : nat) (d : VecDecoder) : VecDecoder :=
  mk_decoder (input d) (offset d + n) (dec_stack_depth d) (dec_max_depth d).

Definition remaining_bytes (d : VecDecoder) : nat := length (input d) - offset d.

Definition require_remaining (n : Z) : Dec unit :=
  r ← gets (fun d => Z.of_nat (remaining_bytes d));
  if r <? n then throw (BufferUnderflow n r) else mret tt.

Definition dec_track_stack_depth_increase : Dec unit :=
  modify (fun d => set_dec_depth (S (dec_stack_depth d)) d);;
  d ← gets id;
  if (dec_max_depth d <? dec_stack_depth d)%nat
  then throw (DecodeMaxDepthExceeded (dec_max_depth d)) else mret tt.

Definition dec_track_stack_depth_decrease : Dec unit :=
  modify (fun d => set_dec_depth (dec_stack_depth d - 1) d).

Definition read_byte : Dec Z :=
  require_remaining 1;;
  b ← gets (fun d => input d !! offset d);
  b ← lift_exec (expect b);
  modify (advance_offset 1);;
  mret b.

Definition read_slice (n : Z) : Dec (list Z) :=
  require_remaining n;;
  slice ← gets (fun d => take (Z.to_nat n) (drop (offset d) (input d)));
  modify (advance_offset (Z.to_nat n));;
  mret slice.

Definition check_end : Dec unit :=
  n ← gets remaining_bytes;
  if (n =? 0)%nat then mret tt else throw (ExtraTrailingBytes n).

Definition read_value_kind {X} `{CustomValueKind X} : Dec (ValueKind X) :=
  id ← read_byte;
  lift_result (ok_or (from_u8 id) (UnknownValueKind id)).

Definition read_discriminator : Dec Z := read_byte.

(** The loop of [read_size]: the size, the last byte and the last shift; it
    ends after four bytes. *)
Fixpoint read_size_loop (fuel : nat) (size shift : Z) : Dec (Z * Z * Z) :=
  match fuel with
  | O => panic
  | S f =>
      byte ← read_byte;
      let size := Z.lor size (Z.shiftl (Z.land byte 0x7F) shift) in
      if byte <? 0x80 then mret (size, byte, shift) else
      let shift := shift + 7 in
      if 28 <=? shift then throw InvalidSize else read_size_loop f size shift
  end.

Definition read_size : Dec Z :=
  r ← read_size_loop 4 0 0;
  let '(size, byte, shift) := r in
  if (byte =? 0) && negb (shift =? 0) then throw InvalidSize else mret size.

Definition check_preloaded_value_kind {X} `{CustomValueKind X} (value_kind expected : ValueKind X) :
    Dec (ValueKind X) :=
  if decide (value_kind = expected) then mret value_kind
  else throw (UnexpectedValueKind (as_u8 expected) (as_u8 value_kind)).

Definition read_and_check_payload_prefix (expected_prefix : Z) : Dec unit :=
  actual ← read_byte;
  if actual =? expected_prefix then mret tt
  else throw (UnexpectedPayloadPrefix expected_prefix actual).

Definition decode_deeper_body_with_value_kind {X A} (body : ValueKind X -> Dec A)
    (value_kind : ValueKind X) : Dec A :=
  dec_track_stack_depth_increase;;
  decoded ← body value_kind;
  dec_track_stack_depth_decrease;;
  mret decoded.

Definition decode_with {X} `{CustomValueKind X} {A} (body : ValueKind X -> Dec A) : Dec A :=
  value_kind ← read_value_kind;
  decode_deeper_body_with_value_kind body value_kind.

(** [for _ in 0..length { v.push(f()?) }] *)
Fixpoint repeat_push {A S E} (f : M S E A) (n : nat) : M S E (list A) :=
  match n with
  | O => mret []
  | S n' => a ← f; l ← repeat_push f n'; mret (a :: l)
  end.

(** ** Primitive codecs *)

Section Primitives.
Context {X : Type} `{CustomValueKind X}.

Definition encode_body_bool (value : bool) : Enc unit := write_byte (if value then 1 else 0).

Definition decode_body_bool (k : ValueKind X) : Dec bool :=
  check_preloaded_value_kind k KBool;;
  value ← read_byte;
  match value with 0 => mret false | 1 => mret true | _ => throw (InvalidBool value) end.

Definition encode_body_i8 (value : Z) : Enc unit := write_byte (wrap_u 8 value).
Definition decode_body_i8 (k : ValueKind X) : Dec Z :=
  check_preloaded_value_kind k KI8;; value ← read_byte; mret (wrap_i 8 value).

Definition encode_body_u8 (value : Z) : Enc unit := write_byte value.
Definition decode_body_u8 (k : ValueKind X) : Dec Z :=
  check_preloaded_value_kind k KU8;; value ← read_byte; mret value.

(** [encode_int!] and [decode_int!], at [n] bytes; [from] is the type's
    [from_le_bytes]. *)
Definition encode_body_int (n : nat) (value : Z) : Enc unit := write_slice (to_le_bytes n value).
Definition decode_body_int (own : ValueKind X) (n : nat) (from : list Z -> Z) (k : ValueKind X) :
    Dec Z :=
  check_preloaded_value_kind k own;;
  slice ← read_slice (Z.of_nat n);
  mret (from slice).

Definition encode_body_string (value : list Z) : Enc unit :=
  write_size (Z.of_nat (length value));; write_slice value.

Definition decode_body_string (k : ValueKind X) : Dec (list Z) :=
  check_preloaded_value_kind k KString;;
  len ← read_size;
  slice ← read_slice len;
  lift_result (ok_or (from_utf8 slice) InvalidUtf8).
End Primitives.

(** ** Values *)

Inductive Value (Y X : Type) : Type :=
| VBool (value : bool)
| VI8 (value : Z) | VI16 (value : Z) | VI32 (value : Z) | VI64 (value : Z) | VI128 (value : Z)
| VU8 (value : Z) | VU16 (value : Z) | VU32 (value : Z) | VU64 (value : Z) | VU128 (value : Z)
| VString (value : list Z)
| VEnum (discriminator : Z) (fields : list (Value Y X))
| VArray (element_value_kind : ValueKind X) (elements : list (Value Y X))
| VTuple (fields : list (Value Y X))
| VMap (key_value_kind value_value_kind : ValueKind X) (entries : list (Value Y X * Value Y X))
| VCustom (value : Y).
Arguments VBool {Y X}. Arguments VI8 {Y X}. Arguments VI16 {Y X}. Arguments VI32 {Y X}.
Arguments VI64 {Y X}. Arguments VI128 {Y X}. Arguments VU8 {Y X}. Arguments VU16 {Y X}.
Arguments VU32 {Y X}. Arguments VU64 {Y X}. Arguments VU128 {Y X}. Arguments VString {Y X}.
Arguments VEnum {Y X}. Arguments VArray {Y X}. Arguments VTuple {Y X}. Arguments VMap {Y X}.
Arguments VCustom {Y X}.

(** A type of custom values: the traits [CustomValue], [Encode] and [Decode]. *)
Class CustomValue (X Y : Type) `{CustomValueKind X} : Type := {
  get_custom_value_kind : Y -> X;
  custom_encode_value_kind : Y -> Enc unit;
  custom_encode_body : Y -> Enc unit;
  custom_decode_body : ValueKind X -> Dec Y
}.

Section ValueCodec.
Context {X Y : Type} `{CustomValue X Y}.
Implicit Types (v : Value Y X) (k : ValueKind X).

Definition get_value_kind v : ValueKind X :=
  match v with
  | VBool _ => KBool
  | VI8 _ => KI8 | VI16 _ => KI16 | VI32 _ => KI32 | VI64 _ => KI64 | VI128 _ => KI128
  | VU8 _ => KU8 | VU16 _ => KU16 | VU32 _ => KU32 | VU64 _ => KU64 | VU128 _ => KU128
  | VString _ => KString
  | VEnum _ _ => KEnum
  | VArray _ _ => KArray
  | VTuple _ => KTuple
  | VMap _ _ _ => KMap
  | VCustom value => KCustom (get_custom_value_kind value)
  end.

Definition encode_value_kind v : Enc unit :=
  match v with
  | VBool _ => write_value_kind (X := X) KBool
  | VI8 _ => write_value_kind (X := X) KI8
  | VI16 _ => write_value_kind (X := X) KI16
  | VI32 _ => write_value_kind (X := X) KI32
  | VI64 _ => write_value_kind (X := X) KI64
  | VI128 _ => write_value_kind (X := X) KI128
  | VU8 _ => write_value_kind (X := X) KU8
  | VU16 _ => write_value_kind (X := X) KU16
  | VU32 _ => write_value_kind (X := X) KU32
  | VU64 _ => write_value_kind (X := X) KU64
  | VU128 _ => write_value_kind (X := X) KU128
  | VString _ => write_value_kind (X := X) KString
  | VEnum _ _ => write_value_kind (X := X) KEnum
  | VArray _ _ => write_value_kind (X := X) KArray
  | VTuple _ => write_value_kind (X := X) KTuple
  | VMap _ _ _ => write_value_kind (X := X) KMap
  | VCustom value => custom_encode_value_kind value
  end.

Fixpoint encode_body v : Enc unit :=
  match v with
  | VBool value => encode_body_bool value
  | VI8 value => encode_body_i8 value
  | VI16 value => encode_body_int 2 value
  | VI32 value => encode_body_int 4 value
  | VI64 value => encode_body_int 8 value
  | VI128 value => encode_body_int 16 value
  | VU8 value => encode_body_u8 value
  | VU16 value => encode_body_int 2 value
  | VU32 value => encode_body_int 4 value
  | VU64 value => encode_body_int 8 value
  | VU128 value => encode_body_int 16 value
  | VString value => encode_body_string value
  | VEnum discriminator fields =>
      write_discriminator discriminator;;
      write_size (Z.of_nat (length fields));;
      for_each (fun field => encode_with (encode_value_kind field) (encode_body field)) fields
  | VArray element_value_kind elements =>
      write_value_kind element_value_kind;;
      write_size (Z.of_nat (length elements));;
      for_each (fun item =>
        (if decide (get_value_kind item = element_value_kind) then mret tt
         else throw (MismatchingArrayElementValueKind (as_u8 element_value_kind)
                       (as_u8 (get_value_kind item))));;
        encode_deeper_body (encode_body item)) elements
  | VTuple fields =>
      write_size (Z.of_nat (length fields));;
      for_each (fun field => encode_with (encode_value_kind field) (encode_body field)) fields
  | VMap key_value_kind value_value_kind entries =>
      write_value_kind key_value_kind;;
      write_value_kind value_value_kind;;
      write_size (Z.of_nat (length entries));;
      for_each (fun '(key, value) =>
        (if decide (get_value_kind key = key_value_kind) then mret tt
         else throw (MismatchingMapKeyValueKind (as_u8 key_value_kind)
                       (as_u8 (get_value_kind key))));;
        encode_deeper_body (encode_body key);;
        (if decide (get_value_kind value = value_value_kind) then mret tt
         else throw (MismatchingMapValueValueKind (as_u8 value_value_kind)
                       (as_u8 (get_value_kind value))));;
        encode_deeper_body (encode_body value)) entries
  | VCustom value => custom_encode_body value
  end.

Definition encode v : Enc unit := encode_with (encode_value_kind v) (encode_body v).

Definition encode_payload (payload_prefix : Z) v : Enc unit :=
  write_byte payload_prefix;; encode v.

Fixpoint decode_body_with_value_kind (fuel : nat) k : Dec (Value Y X) :=
  match fuel with
  | O => panic
  | S f =>
      let deeper := decode_deeper_body_with_value_kind (decode_body_with_value_kind f) in
      let decode := decode_with (decode_body_with_value_kind f) in
      match k with
      | KBool => VBool <$> decode_body_bool k
      | KI8 => VI8 <$> decode_body_i8 k
      | KI16 => VI16 <$> decode_body_int KI16 2 i_from_le_bytes k
      | KI32 => VI32 <$> decode_body_int KI32 4 i_from_le_bytes k
      | KI64 => VI64 <$> decode_body_int KI64 8 i_from_le_bytes k
      | KI128 => VI128 <$> decode_body_int KI128 16 i_from_le_bytes k
      | KU8 => VU8 <$> decode_body_u8 k
      | KU16 => VU16 <$> decode_body_int KU16 2 u_from_le_bytes k
      | KU32 => VU32 <$> decode_body_int KU32 4 u_from_le_bytes k
      | KU64 => VU64 <$> decode_body_int KU64 8 u_from_le_bytes k
      | KU128 => VU128 <$> decode_body_int KU128 16 u_from_le_bytes k
      | KString => VString <$> decode_body_string k
      | KTuple =>
          length ← read_size;
          fields ← repeat_push decode (Z.to_nat length);
          mret (VTuple fields)
      | KEnum =>
          discriminator ← read_discriminator;
          length ← read_size;
          fields ← repeat_push decode (Z.to_nat length);
          mret (VEnum discriminator fields)
      | KArray =>
          element_value_kind ← read_value_kind;
          length ← read_size;
          elements ← repeat_push (deeper element_value_kind) (Z.to_nat length);
          mret (VArray element_value_kind elements)
      | KMap =>
          key_value_kind ← read_value_kind;
          value_value_kind ← read_value_kind;
          length ← read_size;
          entries ← repeat_push
            (key ← deeper key_value_kind; value ← deeper value_value_kind; mret (key, value))
            (Z.to_nat length);
          mret (VMap key_value_kind value_value_kind entries)
      | KCustom _ => VCustom <$> custom_decode_body k
      end
  end.

Definition decode (fuel : nat) : Dec (Value Y X) :=
  decode_with (decode_body_with_value_kind fuel).

Definition decode_payload (fuel : nat) (expected_prefix : Z) : Dec (Value Y X) :=
  read_and_check_payload_prefix expected_prefix;;
  value ← decode fuel;
  check_end;;
  mret value.

(** [basic_encode_with_depth_limit], [scrypto_encode_with_depth_limit] and
    [manifest_encode_with_depth_limit], which differ in the prefix. *)
Definition encode_with_depth_limit (prefix : Z) (depth_limit : nat) v :
    Exec (Result EncodeError (list Z)) :=
  r ← encode_payload prefix v (VecEncoder_new [] depth_limit);
  match r with
  | (Ok _, e) => Done (Ok (buf e))
  | (Err err, _) => Done (Err err)
  end.

Definition decode_with_depth_limit (prefix : Z) (depth_limit : nat) (bs : list Z) :
    Exec (Result DecodeError (Value Y X)) :=
  r ← decode_payload depth_limit prefix (VecDecoder_new bs depth_limit);
  Done r.1.

End ValueCodec.

(** ** Reasoning about the encoder and the decoder

    [emits m dp mx bs]: at depth [dp] of limit [mx], [m] succeeds and appends
    [bs]; [rejects m dp mx]: it returns an error.  [reads m dp mx bs a]: on any
    input that continues with [bs], [m] returns [a] and has consumed exactly
    [bs].  [parses m dp mx P]: [m] never panics, and when it returns [a] it has
    consumed some [bs] with [P a bs]. *)

Module CodecTheory.

Definition emits (m : Enc unit) (dp mx : nat) (bs : list Z) : Prop :=
  forall e, enc_stack_depth e = dp -> enc_max_depth e = mx ->
  m e = Done (Ok tt, mk_encoder (buf e ++ bs) mx dp).

Definition rejects (m : Enc unit) (dp mx : nat) : Prop :=
  forall e, enc_stack_depth e = dp -> enc_max_depth e = mx ->
  exists err e', m e = Done (Err err, e').

Definition remaining (d : VecDecoder) : list Z := drop (offset d) (input d).

Definition reads {A} (m : Dec A) (dp mx : nat) (bs : list Z) (a : A) : Prop :=
  forall d rest, dec_stack_depth d = dp -> dec_max_depth d = mx ->
  remaining d = bs ++ rest -> m d = Done (Ok a, advance_offset (length bs) d).

Definition parses {A} (m : Dec A) (dp mx : nat) (P : A -> list Z -> Prop) : Prop :=
  forall d, dec_stack_depth d = dp -> dec_max_depth d = mx -> bytes_ok (remaining d) = true ->
  match m d with
  | Done (Ok a, d') =>
      exists bs rest, remaining d = bs ++ rest /\ d' = advance_offset (length bs) d /\ P a bs
  | Done (Err _, _) => True
  | Panicked => False
  end.

Lemma remaining_advance n d : remaining (advance_offset n d) = drop n (remaining d).
Proof. unfold remaining. cbn. by rewrite drop_drop. Qed.

Lemma advance_advance n1 n2 d :
  advance_offset n2 (advance_offset n1 d) = advance_offset (n1 + n2) d.
Proof. unfold advance_offset. cbn. by rewrite Nat.add_assoc. Qed.

Lemma advance_0 d : advance_offset 0 d = d.
Proof. destruct d. unfold advance_offset. cbn. by rewrite Nat.add_0_r. Qed.

Lemma remaining_after d bs rest :
  remaining d = bs ++ rest -> remaining (advance_offset (length bs) d) = rest.
Proof. intros H. by rewrite remaining_advance, H, drop_app_length. Qed.

Lemma remaining_bytes_length d : remaining_bytes d = length (remaining d).
Proof. unfold remaining_bytes, remaining. by rewrite length_drop. Qed.

(** *** Encoder rules *)
Section EncRules.
Context (dp mx : nat).

Lemma emits_ret : emits (mret tt) dp mx [].
Proof. intros [b m d] <- <-. cbn. by rewrite app_nil_r. Qed.

Lemma emits_write bs : emits (write_slice bs) dp mx bs.
Proof. by intros e <- <-. Qed.

Lemma emits_bind m1 m2 bs1 bs2 :
  emits m1 dp mx bs1 -> emits m2 dp mx bs2 -> emits (m1;; m2) dp mx (bs1 ++ bs2).
Proof.
  intros H1 H2 e Hd Hm. unfold mbind, M_bind. rewrite H1, H2 by done. cbn.
  by rewrite app_assoc.
Qed.

Lemma emits_deeper m bs :
  (S dp <= mx)%nat -> emits m (S dp) mx bs -> emits (encode_deeper_body m) dp mx bs.
Proof.
  intros Hle Hm e Hd Hx. unfold encode_deeper_body, enc_track_stack_depth_increase, mbind, M_bind.
  unfold modify, gets, set_enc_depth, id. cbn. rewrite Hd, Hx.
  destruct (Nat.leb_spec mx dp) as [|_]; [lia|]. unfold mret, M_ret.
  rewrite Hm by done. unfold enc_track_stack_depth_decrease, modify, set_enc_depth. cbn.
  by rewrite Nat.sub_0_r.
Qed.

Lemma rejects_throw err : rejects (throw err) dp mx.
Proof. intros e _ _. by exists err, e. Qed.

Lemma rejects_bind_l m1 m2 : rejects m1 dp mx -> rejects (m1;; m2) dp mx.
Proof.
  intros H1 e Hd Hm. unfold mbind, M_bind. destruct (H1 e Hd Hm) as (err & e' & ->). eauto.
Qed.

Lemma rejects_bind_r m1 m2 bs :
  emits m1 dp mx bs -> rejects m2 dp mx -> rejects (m1;; m2) dp mx.
Proof. intros H1 H2 e Hd Hm. unfold mbind, M_bind. rewrite H1 by done. by apply H2. Qed.

Lemma rejects_deep m : (mx < S dp)%nat -> rejects (encode_deeper_body m) dp mx.
Proof.
  intros Hlt e Hd Hx. unfold encode_deeper_body, enc_track_stack_depth_increase, mbind, M_bind.
  unfold modify, gets, set_enc_depth, id. cbn. rewrite Hd, Hx.
  destruct (Nat.leb_spec mx dp); [|lia]. unfold throw. eauto.
Qed.

Lemma rejects_deeper m :
  (S dp <= mx)%nat -> rejects m (S dp) mx -> rejects (encode_deeper_body m) dp mx.
Proof.
  intros Hle Hm e Hd Hx. unfold encode_deeper_body, enc_track_stack_depth_increase, mbind, M_bind.
  unfold modify, gets, set_enc_depth, id. cbn. rewrite Hd, Hx.
  destruct (Nat.leb_spec mx dp) as [|_]; [lia|]. unfold mret, M_ret.
  edestruct Hm as (err & e' & ->); eauto.
Qed.

Lemma emits_for_each {A} (f : A -> Enc unit) (g : A -> list Z) l :
  Forall (fun a => emits (f a) dp mx (g a)) l -> emits (for_each f l) dp mx (l ≫= g).
Proof. induction 1; cbn; [apply emits_ret | by apply emits_bind]. Qed.

Lemma rejects_for_each {A} (f : A -> Enc unit) (g : A -> list Z) l :
  Forall (fun a => emits (f a) dp mx (g a) \/ rejects (f a) dp mx) l ->
  Exists (fun a => rejects (f a) dp mx) l -> rejects (for_each f l) dp mx.
Proof.
  induction 1 as [|a l [He|Hr] _ IH]; cbn; intros Hex; [by apply Exists_nil in Hex| |].
  - apply Exists_cons in Hex as [Hr|Hex]; [by apply rejects_bind_l|].
    eapply rejects_bind_r; eauto.
  - by apply rejects_bind_l.
Qed.
End EncRules.

(** *** Decoder rules *)
Section DecRules.
Context (dp mx : nat).

Lemma reads_ret {A} (a : A) : reads (mret a) dp mx [] a.
Proof. intros d rest _ _ _. by rewrite advance_0. Qed.

Lemma reads_bind {A B} (m : Dec A) (f : A -> Dec B) bs1 bs2 a b :
  reads m dp mx bs1 a -> reads (f a) dp mx bs2 b -> reads (m ≫= f) dp mx (bs1 ++ bs2) b.
Proof.
  intros H1 H2 d rest Hd Hm Hr. rewrite <- app_assoc in Hr. unfold mbind, M_bind.
  rewrite (H1 d (bs2 ++ rest)) by done.
  rewrite (H2 _ rest) by (done || by apply remaining_after).
  by rewrite advance_advance, length_app.
Qed.

Lemma reads_bind_nil {A B} (m : Dec A) (f : A -> Dec B) bs a b :
  reads m dp mx [] a -> reads (f a) dp mx bs b -> reads (m ≫= f) dp mx bs b.
Proof. apply (reads_bind m f [] bs). Qed.

Lemma reads_bind_last {A B} (m : Dec A) (f : A -> Dec B) bs a b :
  reads m dp mx bs a -> reads (f a) dp mx [] b -> reads (m ≫= f) dp mx bs b.
Proof. intros H1 H2. rewrite <- (app_nil_r bs). by eapply reads_bind. Qed.

Lemma reads_fmap {A B} (g : A -> B) (m : Dec A) bs a :
  reads m dp mx bs a -> reads (g <$> m) dp mx bs (g a).
Proof. intros H. rewrite <- (app_nil_r bs). eapply reads_bind; [done|apply reads_ret]. Qed.

Lemma reads_slice bs n : n = Z.of_nat (length bs) -> reads (read_slice n) dp mx bs bs.
Proof.
  intros -> d rest _ _ Hr. unfold read_slice, require_remaining, mbind, M_bind, gets.
  rewrite remaining_bytes_length, Hr, length_app.
  destruct (Z.ltb_spec (Z.of_nat (length bs + length rest)) (Z.of_nat (length bs))); [lia|].
  cbn. rewrite Nat2Z.id. fold (remaining d). by rewrite Hr, take_app_length.
Qed.

Lemma reads_byte b : reads read_byte dp mx [b] b.
Proof.
  intros d rest _ _ Hr. unfold read_byte, require_remaining, mbind, M_bind, gets.
  rewrite remaining_bytes_length, Hr.
  destruct (Z.ltb_spec (Z.of_nat (length ([b] ++ rest))) 1) as [Hlt|_]; [cbn in Hlt; lia|].
  unfold mret, M_ret. assert (input d !! offset d = Some b) as ->; [|done].
  pose proof (lookup_drop (input d) (offset d) 0) as Hl. fold (remaining d) in Hl.
  rewrite Hr, Nat.add_0_r in Hl. by rewrite <- Hl.
Qed.

Lemma reads_kind {X} `{CustomKindLaws X} (k : ValueKind X) :
  reads read_value_kind dp mx [as_u8 k] k.
Proof.
  rewrite <- (app_nil_r [as_u8 k]). eapply reads_bind; [apply reads_byte|]. cbn.
  assert (from_u8 (as_u8 k) = Some k) as ->; [|apply reads_ret].
  destruct k; try done. cbn. unfold from_u8.
  pose proof (custom_range x) as Hr. pose proof (custom_from_as x) as Hx.
  unfold CUSTOM_VALUE_KIND_START in *.
  destruct (Z.leb_spec 0x80 (custom_as_u8 x)); [|lia]. rewrite Hx.
  destruct (custom_as_u8 x) as [|p|p]; try done.
  by repeat (destruct p as [p|p|]; try done; try lia).
Qed.

Lemma reads_preloaded {X} `{CustomValueKind X} (k : ValueKind X) :
  reads (check_preloaded_value_kind k k) dp mx [] k.
Proof. unfold check_preloaded_value_kind. rewrite decide_True by done. apply reads_ret. Qed.

Lemma reads_deeper {X A} (body : ValueKind X -> Dec A) k bs a :
  (S dp <= mx)%nat -> reads (body k) (S dp) mx bs a ->
  reads (decode_deeper_body_with_value_kind body k) dp mx bs a.
Proof.
  intros Hle Hb d rest Hd Hm Hr.
  unfold decode_deeper_body_with_value_kind, dec_track_stack_depth_increase, mbind, M_bind.
  unfold modify, gets, set_dec_depth, id. cbn. rewrite Hd, Hm.
  destruct (Nat.leb_spec mx dp) as [|_]; [lia|]. unfold mret, M_ret.
  rewrite (Hb _ rest) by done. unfold dec_track_stack_depth_decrease, modify, set_dec_depth.
  cbn. rewrite Nat.sub_0_r. destruct d; cbn in *. by subst.
Qed.

Lemma reads_repeat {A} (m : Dec A) (g : A -> list Z) l :
  Forall (fun a => reads m dp mx (g a) a) l -> reads (repeat_push m (length l)) dp mx (l ≫= g) l.
Proof.
  induction 1 as [|a l Ha _ IH]; cbn [repeat_push length mbind list_bind]; [apply reads_ret|].
  eapply reads_bind; [done|]. rewrite <- (app_nil_r (list_bind _ _ _ _)).
  eapply reads_bind; [done|]. apply reads_ret.
Qed.

Lemma parses_ret {A} (a : A) (P : A -> list Z -> Prop) : P a [] -> parses (mret a) dp mx P.
Proof. intros H d _ _ _. exists [], (remaining d). by rewrite advance_0. Qed.

Lemma parses_throw {A} err (P : A -> list Z -> Prop) : parses (throw err) dp mx P.
Proof. by intros d _ _ _. Qed.

Lemma parses_mono {A} (m : Dec A) (P Q : A -> list Z -> Prop) :
  parses m dp mx P -> (forall a bs, bytes_ok bs = true -> P a bs -> Q a bs) -> parses m dp mx Q.
Proof.
  intros H HPQ d Hd Hm Hb. specialize (H d Hd Hm Hb).
  destruct (m d) as [[[a|e] d']|]; [|done|done].
  destruct H as (bs & rest & Hr & -> & HP). exists bs, rest. split_and!; auto.
  rewrite Hr, bytes_ok_app in Hb. zbool. auto.
Qed.

Lemma parses_bind {A B} (m : Dec A) (f : A -> Dec B) P (Q : B -> list Z -> Prop) :
  parses m dp mx P ->
  (forall a bs1, bytes_ok bs1 = true -> P a bs1 ->
     parses (f a) dp mx (fun b bs2 => Q b (bs1 ++ bs2))) ->
  parses (m ≫= f) dp mx Q.
Proof.
  intros H1 H2 d Hd Hm Hb. unfold mbind, M_bind. specialize (H1 d Hd Hm Hb).
  destruct (m d) as [[[a|e] d']|]; [|done|done].
  destruct H1 as (bs1 & rest & Hr & -> & HP). rewrite Hr, bytes_ok_app in Hb. zbool.
  pose proof (remaining_after _ _ _ Hr) as Hr'.
  specialize (H2 a bs1 H HP (advance_offset (length bs1) d) Hd Hm ltac:(by rewrite Hr')).
  destruct (f a _) as [[[b|e] d'']|]; [|done|done].
  destruct H2 as (bs2 & rest2 & Hr2 & -> & HQ). rewrite Hr' in Hr2. subst rest.
  exists (bs1 ++ bs2), rest2. split_and!; [by rewrite <- app_assoc| |done].
  by rewrite advance_advance, length_app.
Qed.

Lemma parses_fmap {A B} (g : A -> B) (m : Dec A) (Q : B -> list Z -> Prop) :
  parses m dp mx (fun a bs => Q (g a) bs) -> parses (g <$> m) dp mx Q.
Proof.
  intros H. eapply parses_bind; [done|]. intros a bs _ HQ. apply parses_ret. by rewrite app_nil_r.
Qed.

Lemma parses_slice n : 0 <= n ->
  parses (read_slice n) dp mx (fun a bs => a = bs /\ Z.of_nat (length bs) = n).
Proof.
  intros Hn d _ _ _. unfold read_slice, require_remaining, mbind, M_bind, gets.
  rewrite remaining_bytes_length.
  destruct (Z.ltb_spec (Z.of_nat (length (remaining d))) n); [done|]. cbn.
  fold (remaining d). exists (take (Z.to_nat n) (remaining d)), (drop (Z.to_nat n) (remaining d)).
  rewrite take_drop. split_and!; [done| |done|]; rewrite length_take; [f_equal; lia|lia].
Qed.

Lemma parses_byte : parses read_byte dp mx (fun b bs => bs = [b] /\ is_byte b = true).
Proof.
  intros d _ _ Hb. unfold read_byte, require_remaining, mbind, M_bind, gets.
  rewrite remaining_bytes_length.
  destruct (Z.ltb_spec (Z.of_nat (length (remaining d))) 1) as [|Hl]; [done|].
  pose proof (lookup_drop (input d) (offset d) 0) as H0. fold (remaining d) in H0.
  rewrite Nat.add_0_r in H0. unfold mret, M_ret. rewrite <- H0.
  destruct (remaining d) as [|b rest] eqn:E; [cbn in Hl; lia|].
  cbn in Hb |- *. zbool. by exists [b], rest.
Qed.

Lemma parses_kind {X} `{CustomKindLaws X} :
  parses read_value_kind dp mx (fun (k : ValueKind X) bs => bs = [as_u8 k]).
Proof.
  eapply parses_bind; [apply parses_byte|]. intros b bs _ [-> Hb].
  destruct (from_u8 b) as [k|] eqn:E; cbn; [|apply parses_throw].
  apply parses_ret. cbn. f_equal. unfold from_u8 in E.
  repeat first [ case_match; simplify_eq; try done | done ].
  all: by apply fmap_Some in E as (x & ?%custom_as_from & ->).
Qed.

Lemma parses_preloaded {X} `{CustomValueKind X} (k own : ValueKind X) :
  parses (check_preloaded_value_kind k own) dp mx (fun k' bs => bs = [] /\ k = own).
Proof.
  unfold check_preloaded_value_kind. case_decide; [by apply parses_ret | apply parses_throw].
Qed.

Lemma parses_deeper {X A} (body : ValueKind X -> Dec A) k (P : A -> list Z -> Prop) :
  ((S dp <= mx)%nat -> parses (body k) (S dp) mx P) ->
  parses (decode_deeper_body_with_value_kind body k) dp mx (fun a bs => (S dp <= mx)%nat /\ P a bs).
Proof.
  intros Hb d Hd Hm Hok.
  unfold decode_deeper_body_with_value_kind, dec_track_stack_depth_increase, mbind, M_bind.
  unfold modify, gets, set_dec_depth, id. cbn. rewrite Hd, Hm.
  destruct (Nat.leb_spec mx dp) as [|Hle]; [done|]. unfold mret, M_ret.
  specialize (Hb Hle (mk_decoder (input d) (offset d) (S dp) mx) eq_refl eq_refl Hok).
  destruct (body k _) as [[[a|e] d']|]; [|done|done].
  destruct Hb as (bs & rest & Hr & -> & HP). cbn. exists bs, rest. split_and!; [done| |done|done].
  unfold set_dec_depth, advance_offset. cbn. rewrite Nat.sub_0_r. by subst.
Qed.

Lemma parses_repeat {A} (m : Dec A) (P : A -> list Z -> Prop) n :
  parses m dp mx P ->
  parses (repeat_push m n) dp mx
    (fun l bs => length l = n /\ exists bss, bs = concat bss /\ Forall2 P l bss).
Proof.
  intros Hm. induction n as [|n IH]; cbn [repeat_push].
  - apply parses_ret. split; [done|]. by exists [].
  - eapply parses_bind; [done|]. intros a bs1 _ Ha.
    eapply parses_bind; [done|]. intros l bs2 _ (Hl & bss & -> & Hbss).
    apply parses_ret. split; [by rewrite <- Hl|]. exists (bs1 :: bss). rewrite app_nil_r.
    split; [done|]. by constructor.
Qed.
End DecRules.

(** *** Sizes *)

Fixpoint leb128 (fuel : nat) (n : Z) : list Z :=
  match fuel with
  | O => []
  | S f => if n / 128 =? 0 then [n mod 128] else (n mod 128 + 128) :: leb128 f (n / 128)
  end.

Definition size_bytes (n : Z) : list Z := leb128 10 n.

Lemma lor_shiftl_add a b k : 0 <= k -> 0 <= a < 2 ^ k -> 0 <= b ->
  Z.lor a (Z.shiftl b k) = a + b * 2 ^ k.
Proof.
  intros Hk Ha Hb. rewrite <- Z.shiftl_mul_pow2 by lia.
  assert (Z.land a (Z.shiftl b k) = 0) as E; [|by rewrite Z.add_nocarry_lxor, Z.lxor_lor].
  apply Z.bits_inj'. intros n Hn. rewrite Z.land_spec, Z.shiftl_spec, Z.bits_0 by lia.
  destruct (Z.lt_ge_cases n k).
  - by rewrite (Z.testbit_neg_r b) by lia; apply andb_false_r.
  - rewrite <- (Z.mod_small a (2 ^ k)) by lia. by rewrite Z.mod_pow2_bits_high by lia.
Qed.

Lemma land_7f n : Z.land n 0x7F = n mod 128.
Proof. exact (Z.land_ones n 7 ltac:(lia)). Qed.

Lemma shiftr_7 n : Z.shiftr n 7 = n / 128.
Proof. by rewrite Z.shiftr_div_pow2 by lia. Qed.

Lemma lor_80 n : 0 <= n < 128 -> Z.lor n 0x80 = n + 128.
Proof. intros Hn. apply (lor_shiftl_add n 1 7); lia. Qed.

Lemma pow_7_succ f : 2 ^ (7 * Z.of_nat (S f)) = 128 * 2 ^ (7 * Z.of_nat f).
Proof. change 128 with (2 ^ 7). rewrite <- Z.pow_add_r by lia. f_equal. lia. Qed.

Lemma emits_size_loop dp mx f n : 0 <= n < 2 ^ (7 * Z.of_nat f) -> (0 < f)%nat ->
  emits (write_size_loop f n) dp mx (leb128 f n).
Proof.
  revert n. induction f as [|f IH]; intros n Hn Hf; [lia|].
  cbn [write_size_loop leb128]. rewrite land_7f, shiftr_7.
  pose proof (Z.mod_pos_bound n 128 ltac:(lia)). rewrite lor_80 by done.
  destruct (Z.eqb_spec (n / 128) 0) as [|Hne]; [apply emits_write|].
  apply (emits_bind _ _ _ _ [_]); [apply emits_write|]. rewrite pow_7_succ in Hn.
  destruct f; [cbn in Hn; rewrite Z.div_small in Hne; lia|]. apply IH; [|lia].
  split; [apply Z.div_pos; lia | apply Z.div_lt_upper_bound; lia].
Qed.

Lemma emits_size dp mx n : 0 <= n <= MAX_SIZE -> emits (write_size n) dp mx (size_bytes n).
Proof.
  intros Hn. unfold write_size. destruct (Z.ltb_spec MAX_SIZE n); [lia|].
  apply emits_size_loop; [|lia]. unfold MAX_SIZE in *. cbn. lia.
Qed.

Lemma rejects_size dp mx n : MAX_SIZE < n -> rejects (write_size n) dp mx.
Proof.
  intros Hn. unfold write_size. destruct (Z.ltb_spec MAX_SIZE n); [|lia]. apply rejects_throw.
Qed.

Lemma reads_size_loop dp mx f f' acc k n :
  0 <= acc < 2 ^ k -> k = 28 - 7 * Z.of_nat f -> (f <= 4)%nat -> (f <= f')%nat -> (0 < f)%nat ->
  0 <= n < 2 ^ (7 * Z.of_nat f) ->
  exists byte shift,
    reads (read_size_loop f acc k) dp mx (leb128 f' n) (acc + n * 2 ^ k, byte, shift) /\
    (byte = 0 -> n = 0 /\ shift = k).
Proof.
  revert f' acc k n. induction f as [|f IH]; intros f' acc k n Hacc Hk Hf4 Hff Hf Hn; [lia|].
  destruct f' as [|f']; [lia|]. cbn [leb128 read_size_loop].
  pose proof (Z.mod_pos_bound n 128 ltac:(lia)) as Hm. pose proof (Z.div_mod n 128 ltac:(lia)) as Hdm.
  rewrite pow_7_succ in Hn.
  destruct (Z.eqb_spec (n / 128) 0) as [E|Hne].
  - exists (n mod 128), k. split; [|intros; split; [lia|done]].
    rewrite <- (app_nil_r [_]). eapply reads_bind; [apply reads_byte|]. cbv zeta.
    destruct (Z.ltb_spec (n mod 128) 0x80); [|lia].
    rewrite land_7f, Z.mod_mod, lor_shiftl_add by lia.
    replace (n mod 128) with n by lia. apply reads_ret.
  - assert (0 < f)%nat by (destruct f; [cbn in Hn; rewrite Z.div_small in Hne; lia|lia]).
    assert (0 < n / 128) by (pose proof (Z.div_pos n 128); lia).
    destruct (IH f' (acc + (n mod 128) * 2 ^ k) (k + 7) (n / 128)) as (byte & shift & Hr & Hz);
      [|lia|lia|lia|lia| |].
    { rewrite Z.pow_add_r by lia. change (2 ^ 7) with 128. nia. }
    { split; [lia | apply Z.div_lt_upper_bound; lia]. }
    exists byte, shift. split; [|intros Hb; specialize (Hz Hb); lia].
    apply (reads_bind _ _ _ _ [_] _ (n mod 128 + 128)); [apply reads_byte|]. cbv zeta.
    destruct (Z.ltb_spec (n mod 128 + 128) 0x80); [lia|].
    destruct (Z.leb_spec 28 (k + 7)); [lia|].
    rewrite land_7f, <- Z.add_mod_idemp_r, Z.mod_same, Z.add_0_r, Z.mod_mod, lor_shiftl_add by lia.
    rewrite Z.pow_add_r in Hr by lia. change (2 ^ 7) with 128 in Hr.
    replace (acc + n * 2 ^ k) with (acc + n mod 128 * 2 ^ k + n / 128 * (2 ^ k * 128)) by nia.
    done.
Qed.

Lemma reads_size dp mx n : 0 <= n <= MAX_SIZE -> reads read_size dp mx (size_bytes n) n.
Proof.
  intros Hn. unfold MAX_SIZE in Hn.
  destruct (reads_size_loop dp mx 4 10 0 0 n) as (byte & shift & Hr & Hz); try (cbn; lia).
  rewrite <- (app_nil_r (size_bytes n)). eapply reads_bind; [exact Hr|]. cbn.
  destruct (Z.eqb_spec byte 0) as [Hb|]; cbn.
  - destruct (Hz Hb) as [-> ->]. apply reads_ret.
  - rewrite Z.mul_1_r. apply reads_ret.
Qed.

Lemma parses_size_loop dp mx f f' acc k :
  0 <= acc < 2 ^ k -> k = 28 - 7 * Z.of_nat f -> (0 < f <= 4)%nat -> (f <= f')%nat ->
  parses (read_size_loop f acc k) dp mx (fun r bs =>
    let '(size, byte, shift) := r in exists n, size = acc + n * 2 ^ k /\
      0 <= n < 2 ^ (7 * Z.of_nat f) /\ k <= shift /\
      (byte <> 0 -> n <> 0) /\
      (byte <> 0 \/ shift = k -> bs = leb128 f' n)).
Proof.
  revert f' acc k. induction f as [|f IH]; intros f' acc k Hacc Hk Hf Hff; [lia|].
  destruct f' as [|f']; [lia|]. cbn [leb128 read_size_loop].
  eapply parses_bind; [apply parses_byte|]. intros b bs _ [-> Hb%is_byte_spec]. cbv zeta.
  pose proof (Z.mod_pos_bound b 128 ltac:(lia)) as Hm.
  rewrite pow_7_succ, land_7f, lor_shiftl_add by lia.
  pose proof (Z.pow_pos_nonneg 2 (7 * Z.of_nat f) ltac:(lia) ltac:(lia)).
  destruct (Z.ltb_spec b 0x80).
  - apply parses_ret. rewrite (Z.mod_small b 128) by lia. exists b.
    split_and!; try lia. intros _. rewrite Z.div_small by lia. cbn. by rewrite Z.mod_small by lia.
  - destruct (Z.leb_spec 28 (k + 7)); [apply parses_throw|].
    eapply parses_mono; [apply (IH f')|]; [| lia | lia | lia |].
    { rewrite Z.pow_add_r by lia. change (2 ^ 7) with 128. nia. }
    intros [[size byte] shift] bs' _ (n & -> & Hn & Hs & Hnz & Hbs).
    assert (b mod 128 = b - 128) as Eb by
      (symmetry; apply (Z.mod_unique_pos b 128 1); lia).
    assert ((b mod 128 + 128 * n) / 128 = n) as Ed by
      (symmetry; apply (Z.div_unique_pos _ 128 n (b mod 128)); lia).
    assert ((b mod 128 + 128 * n) mod 128 = b mod 128) as Em by
      (symmetry; apply (Z.mod_unique_pos _ 128 n (b mod 128)); lia).
    exists (b mod 128 + 128 * n). rewrite Ed, Em, Z.pow_add_r by lia. change (2 ^ 7) with 128.
    split_and!; [nia|lia|nia|lia|intros; specialize (Hnz ltac:(done)); lia|].
    intros [Hbz|]; [|lia]. specialize (Hnz Hbz). rewrite (Hbs (or_introl Hbz)).
    destruct (Z.eqb_spec n 0); [lia|]. cbn. f_equal. lia.
Qed.

Lemma parses_size dp mx :
  parses read_size dp mx (fun n bs => 0 <= n <= MAX_SIZE /\ bs = size_bytes n).
Proof.
  eapply parses_bind; [apply (parses_size_loop dp mx 4 10 0 0); cbn; lia|].
  intros [[size byte] shift] bs _ (n & -> & Hn & Hs & _ & Hbs).
  destruct (Z.eqb_spec byte 0), (Z.eqb_spec shift 0); cbn;
    try (apply parses_throw); apply parses_ret; rewrite app_nil_r, Z.mul_1_r;
    (split; [unfold MAX_SIZE; cbn in Hn; lia|]); apply Hbs; auto.
Qed.
End CodecTheory.

Import CodecTheory.

(** ** The format

    What the codec promises, without buffers and depth counters: the bytes of a
    body, the depth of a value, the values the encoder accepts. *)

(** What a type of custom values promises to the codec of [Value]. *)
Class CustomValueLaws (X Y : Type) `{CustomValue X Y} : Type := {
  #[global] custom_kind_laws :: CustomKindLaws X;
  custom_ok : Y -> bool;
  custom_bytes : Y -> list Z;
  custom_kind_written : forall y,
    custom_encode_value_kind y = write_value_kind (KCustom (get_custom_value_kind y));
  custom_emits : forall y dp mx, custom_ok y = true ->
    emits (custom_encode_body y) dp mx (custom_bytes y);
  custom_reads : forall y dp mx, custom_ok y = true ->
    reads (custom_decode_body (KCustom (get_custom_value_kind y))) dp mx (custom_bytes y) y;
  custom_parses : forall x dp mx,
    parses (custom_decode_body (KCustom x)) dp mx
      (fun y bs => custom_ok y = true /\ get_custom_value_kind y = x /\ bs = custom_bytes y)
}.

Section Format.
Context {X Y : Type} `{CustomValueLaws X Y}.
Implicit Types (v : Value Y X) (k : ValueKind X).

(** Induction over the nested lists of a value. *)
Lemma value_ind_nested (P : Value Y X -> Prop) :
  (forall b, P (VBool b)) ->
  (forall z, P (VI8 z)) -> (forall z, P (VI16 z)) -> (forall z, P (VI32 z)) ->
  (forall z, P (VI64 z)) -> (forall z, P (VI128 z)) ->
  (forall z, P (VU8 z)) -> (forall z, P (VU16 z)) -> (forall z, P (VU32 z)) ->
  (forall z, P (VU64 z)) -> (forall z, P (VU128 z)) ->
  (forall s, P (VString s)) ->
  (forall d l, Forall P l -> P (VEnum d l)) ->
  (forall k l, Forall P l -> P (VArray k l)) ->
  (forall l, Forall P l -> P (VTuple l)) ->
  (forall k1 k2 l, Forall (fun kv => P kv.1 /\ P kv.2) l -> P (VMap k1 k2 l)) ->
  (forall y, P (VCustom y)) ->
  forall v, P v.
Proof.
  intros HB I1 I2 I3 I4 I5 I6 I7 I8 I9 I10 HS HE HA HT HM HC.
  fix IH 1. intros [ | | | | | | | | | | | |d l|k l|l|k1 k2 l|]; try solve [clear IH; auto].
  - apply HE. induction l; constructor; auto.
  - apply HA. induction l; constructor; auto.
  - apply HT. induction l; constructor; auto.
  - apply HM. induction l as [|[a b] l IHl]; constructor; auto.
Qed.

Fixpoint body_bytes v : list Z :=
  match v with
  | VBool b => [if b then 1 else 0]
  | VI8 z => to_le_bytes 1 z
  | VU8 z => [z]
  | VI16 z | VU16 z => to_le_bytes 2 z
  | VI32 z | VU32 z => to_le_bytes 4 z
  | VI64 z | VU64 z => to_le_bytes 8 z
  | VI128 z | VU128 z => to_le_bytes 16 z
  | VString s => size_bytes (Z.of_nat (length s)) ++ s
  | VEnum d fields =>
      [d] ++ size_bytes (Z.of_nat (length fields)) ++
      (fields ≫= (fun f => as_u8 (get_value_kind f) :: body_bytes f))
  | VArray k elements =>
      [as_u8 k] ++ size_bytes (Z.of_nat (length elements)) ++ (elements ≫= body_bytes)
  | VTuple fields =>
      size_bytes (Z.of_nat (length fields)) ++
      (fields ≫= (fun f => as_u8 (get_value_kind f) :: body_bytes f))
  | VMap k1 k2 entries =>
      [as_u8 k1] ++ [as_u8 k2] ++ size_bytes (Z.of_nat (length entries)) ++
      (entries ≫= (fun '(key, value) => body_bytes key ++ body_bytes value))
  | VCustom y => custom_bytes y
  end.

Definition max_of {A} (f : A -> nat) : list A -> nat :=
  fix go l := match l with [] => O | a :: l' => Nat.max (f a) (go l') end.

(** Levels below a value. *)
Fixpoint height v : nat :=
  match v with
  | VEnum _ l | VArray _ l | VTuple l => max_of (fun f => S (height f)) l
  | VMap _ _ l => max_of (fun '(a, b) => S (Nat.max (height a) (height b))) l
  | _ => O
  end.

(** The depth of a value: one per layer. *)
Definition value_depth v : nat := S (height v).

Definition size_ok {A} (l : list A) : bool := Z.of_nat (length l) <=? MAX_SIZE.

(** Sizes fit the format and the elements of arrays and maps have the declared
    kinds. *)
Fixpoint encodable v : bool :=
  match v with
  | VString s => size_ok s
  | VEnum _ l | VTuple l => size_ok l && forallb encodable l
  | VArray k l =>
      size_ok l && forallb (fun f => bool_decide (get_value_kind f = k) && encodable f) l
  | VMap k1 k2 l =>
      size_ok l && forallb (fun '(a, b) =>
        bool_decide (get_value_kind a = k1) && encodable a &&
        (bool_decide (get_value_kind b = k2) && encodable b)) l
  | _ => true
  end.

(** The ranges of the integer types, and strings are UTF-8: what the types of
    the source ensure. *)
Fixpoint value_ok v : bool :=
  match v with
  | VBool _ => true
  | VI8 z => in_i 8 z | VI16 z => in_i 16 z | VI32 z => in_i 32 z | VI64 z => in_i 64 z
  | VI128 z => in_i 128 z
  | VU8 z => in_u 8 z | VU16 z => in_u 16 z | VU32 z => in_u 32 z | VU64 z => in_u 64 z
  | VU128 z => in_u 128 z
  | VString s => is_utf8 s
  | VEnum d l => in_u 8 d && forallb value_ok l
  | VArray _ l | VTuple l => forallb value_ok l
  | VMap _ _ l => forallb (fun '(a, b) => value_ok a && value_ok b) l
  | VCustom y => custom_ok y
  end.

End Format.

Module SborTheory.
Section Writes.
Context (dp mx : nat).

(** [emits] or [rejects], by a boolean. *)
Definition writes (m : Enc unit) (ok : bool) (bs : list Z) : Prop :=
  if ok then emits m dp mx bs else rejects m dp mx.

Lemma writes_emits m bs : emits m dp mx bs -> writes m true bs.
Proof. done. Qed.

Lemma writes_bind m1 m2 b1 b2 bs1 bs2 :
  writes m1 b1 bs1 -> writes m2 b2 bs2 -> writes (m1;; m2) (b1 && b2) (bs1 ++ bs2).
Proof.
  destruct b1, b2; cbn; intros H1 H2;
    [by apply emits_bind | by eapply rejects_bind_r | by apply rejects_bind_l | by apply rejects_bind_l].
Qed.

Lemma writes_guard (P : Prop) `{Decision P} err :
  writes (if decide P then mret tt else throw err) (bool_decide P) [].
Proof.
  unfold writes. case_decide; [rewrite bool_decide_true by done; apply emits_ret|].
  rewrite bool_decide_false by done. apply rejects_throw.
Qed.

Lemma writes_size {A} (l : list A) :
  writes (write_size (Z.of_nat (length l))) (size_ok l) (size_bytes (Z.of_nat (length l))).
Proof.
  unfold writes, size_ok. destruct (Z.leb_spec (Z.of_nat (length l)) MAX_SIZE);
    [apply emits_size; lia | by apply rejects_size].
Qed.

Lemma writes_for_each {A} (f : A -> Enc unit) (c : A -> bool) (g : A -> list Z) l :
  Forall (fun a => writes (f a) (c a) (g a)) l -> writes (for_each f l) (forallb c l) (l ≫= g).
Proof. induction 1; cbn [for_each forallb mbind list_bind]; [apply emits_ret | by apply writes_bind]. Qed.
End Writes.

Lemma writes_deeper dp mx m ok bs :
  ((S dp <= mx)%nat -> writes (S dp) mx m ok bs) ->
  writes dp mx (encode_deeper_body m) ((S dp <=? mx)%nat && ok) bs.
Proof.
  intros Hm. destruct (Nat.leb_spec (S dp) mx) as [Hle|]; [|by apply rejects_deep].
  specialize (Hm Hle). destruct ok; [by apply emits_deeper | by apply rejects_deeper].
Qed.

Lemma forallb_within {A} dp mx (c : A -> bool) (h : A -> nat) l : (dp <= mx)%nat ->
  forallb (fun a => c a && (dp + h a <=? mx)%nat) l =
  forallb c l && (dp + max_of h l <=? mx)%nat.
Proof.
  intros Hle. induction l as [|a l IH]; cbn.
  - symmetry. apply Nat.leb_le. lia.
  - rewrite IH. apply Bool.eq_iff_eq_true. rewrite !andb_true_iff, !Nat.leb_le. intuition lia.
Qed.

Lemma forallb_elem {A} (f : A -> bool) l a : forallb f l = true -> a ∈ l -> f a = true.
Proof. rewrite forallb_forall. intros Hl Ha. apply Hl. by apply list_elem_of_In. Qed.

Section Values.
Context {X Y : Type} `{CustomValueLaws X Y}.
Implicit Types (v : Value Y X) (k : ValueKind X).

#[local] Instance section_kind_laws : CustomKindLaws X := custom_kind_laws.

Definition field_bytes v : list Z := as_u8 (get_value_kind v) :: body_bytes v.

Lemma emits_kind dp mx v : emits (encode_value_kind v) dp mx [as_u8 (get_value_kind v)].
Proof. destruct v; try apply emits_write. cbn. rewrite custom_kind_written. apply emits_write. Qed.

Lemma emits_write_kind dp mx k : emits (write_value_kind k) dp mx [as_u8 k].
Proof. apply emits_write. Qed.

(** Writing one child, given that its body is right. *)
Lemma writes_child dp mx v :
  ((S dp <= mx)%nat ->
   writes (S dp) mx (encode_body v) (encodable v && (S dp + height v <=? mx)%nat) (body_bytes v)) ->
  writes dp mx (encode_deeper_body (encode_body v))
    (encodable v && (dp + S (height v) <=? mx)%nat) (body_bytes v).
Proof.
  intros Hv. apply writes_deeper in Hv.
  replace (encodable v && (dp + S (height v) <=? mx)%nat) with
    ((S dp <=? mx)%nat && (encodable v && (S dp + height v <=? mx)%nat)); [done|].
  apply Bool.eq_iff_eq_true. rewrite !andb_true_iff, !Nat.leb_le. intuition lia.
Qed.

Definition body_writes v : Prop := value_ok v = true -> forall dp mx, (dp <= mx)%nat ->
  writes dp mx (encode_body v) (encodable v && (dp + height v <=? mx)%nat) (body_bytes v).

Lemma leaf_writes dp mx m c bs v : (dp <= mx)%nat -> height v = O ->
  writes dp mx m c bs -> writes dp mx m (c && (dp + height v <=? mx)%nat) bs.
Proof.
  intros Hle -> Hm. destruct (Nat.leb_spec (dp + 0) mx); [|lia]. by rewrite andb_true_r.
Qed.

Lemma fields_write dp mx l : (dp <= mx)%nat -> Forall body_writes l -> forallb value_ok l = true ->
  writes dp mx
    (write_size (Z.of_nat (length l));;
     for_each (fun field => encode_with (encode_value_kind field) (encode_body field)) l)
    (size_ok l && forallb encodable l && (dp + max_of (fun f => S (height f)) l <=? mx)%nat)
    (size_bytes (Z.of_nat (length l)) ++ (l ≫= field_bytes)).
Proof.
  intros Hle Hl Hok. rewrite <- andb_assoc, <- forallb_within by done.
  apply writes_bind; [apply writes_size|]. apply writes_for_each.
  rewrite Forall_forall in *. intros f Hf.
  unfold encode_with. apply (writes_bind _ _ _ _ true _ [_]); [apply emits_kind|].
  apply writes_child. intros Hd. apply Hl; [done| |done]. by eapply forallb_elem.
Qed.

Lemma elements_write dp mx k l : (dp <= mx)%nat -> Forall body_writes l ->
  forallb value_ok l = true ->
  writes dp mx (encode_body (VArray k l)) (encodable (VArray k l) && (dp + height (VArray k l) <=? mx)%nat)
    (body_bytes (VArray k l)).
Proof.
  intros Hle Hl Hok. cbn [encode_body encodable height body_bytes].
  rewrite <- andb_assoc, <- forallb_within by done.
  apply (writes_bind _ _ _ _ true); [apply emits_write_kind|].
  apply writes_bind; [apply writes_size|]. apply writes_for_each.
  rewrite Forall_forall in *. intros f Hf. rewrite <- andb_assoc.
  apply (writes_bind _ _ _ _ _ _ []); [apply writes_guard|].
  apply writes_child. intros Hd. apply Hl; [done| |done]. by eapply forallb_elem.
Qed.

Lemma entries_write dp mx k1 k2 l : (dp <= mx)%nat ->
  Forall (fun kv => body_writes kv.1 /\ body_writes kv.2) l -> value_ok (VMap k1 k2 l) = true ->
  writes dp mx (encode_body (VMap k1 k2 l))
    (encodable (VMap k1 k2 l) && (dp + height (VMap k1 k2 l) <=? mx)%nat) (body_bytes (VMap k1 k2 l)).
Proof.
  intros Hle Hl Hok. cbn [encode_body encodable height body_bytes value_ok] in *.
  rewrite <- andb_assoc, <- forallb_within by done.
  do 2 (apply (writes_bind _ _ _ _ true); [apply emits_write_kind|]).
  apply writes_bind; [apply writes_size|]. apply writes_for_each.
  rewrite Forall_forall in *. intros [a b] Hab.
  destruct (Hl _ Hab) as [Ha Hb]. 
  pose proof (forallb_elem _ _ (a, b) Hok Hab) as [Hoka Hokb]%andb_true_iff.
  match goal with |- writes _ _ _ ?c _ => replace c with
    (bool_decide (get_value_kind a = k1) && ((encodable a && (dp + S (height a) <=? mx)%nat) &&
     (bool_decide (get_value_kind b = k2) && (encodable b && (dp + S (height b) <=? mx)%nat)))) end.
  2: { apply Bool.eq_iff_eq_true. rewrite !andb_true_iff, !Nat.leb_le. intuition lia. }
  apply (writes_bind _ _ _ _ _ _ []); [apply writes_guard|].
  apply writes_bind; [apply writes_child; intros; by apply Ha|].
  apply (writes_bind _ _ _ _ _ _ []); [apply writes_guard|].
  apply writes_child; intros; by apply Hb.
Qed.

(** The encoder writes exactly the format's bytes, or refuses the value. *)
Lemma encode_body_writes v : body_writes v.
Proof.
  induction v using value_ind_nested; intros Hok dp mx Hle.
  13: { rewrite <- (andb_true_l (encodable _)), <- andb_assoc. cbn [value_ok] in Hok. zbool.
        apply writes_bind; [apply emits_write|]. by apply fields_write. }
  13: { by apply elements_write. }
  13: { by apply fields_write. }
  13: { by apply entries_write. }
  all: apply leaf_writes; [done|done|]; try apply emits_write.
  - cbn [value_ok encode_body body_bytes encodable] in *.
    rewrite <- (andb_true_r (size_ok s)).
    apply writes_bind; [apply writes_size | apply emits_write].
  - by apply custom_emits.
Qed.

(** *** Decoding the format *)

Definition body_reads v : Prop := value_ok v = true -> encodable v = true ->
  forall dp mx fuel, (dp + height v <= mx)%nat -> (mx - dp < fuel)%nat ->
  reads (decode_body_with_value_kind fuel (get_value_kind v)) dp mx (body_bytes v) v.

Lemma reads_int dp mx k n from (z : Z) : from (to_le_bytes n z) = z ->
  reads (decode_body_int (X := X) k n from k) dp mx (to_le_bytes n z) z.
Proof.
  intros Hz. eapply reads_bind_nil; [apply reads_preloaded|].
  eapply reads_bind_last;
    [apply reads_slice; by rewrite length_to_le_bytes|]. rewrite Hz. apply reads_ret.
Qed.

Lemma reads_child dp mx f v : body_reads v -> value_ok v = true -> encodable v = true ->
  (dp + S (height v) <= mx)%nat -> (mx - dp < S f)%nat ->
  reads (decode_deeper_body_with_value_kind (decode_body_with_value_kind f) (get_value_kind v))
    dp mx (body_bytes v) v.
Proof. intros Hv Hok Henc Hd Hf. apply reads_deeper; [lia|]. apply Hv; [done|done|lia|lia]. Qed.

Lemma max_of_elem {A} (h : A -> nat) l a : a ∈ l -> (h a <= max_of h l)%nat.
Proof. induction 1; cbn; lia. Qed.

Lemma reads_fields dp mx f l : Forall body_reads l -> forallb value_ok l = true ->
  forallb encodable l = true -> (dp + max_of (fun v => S (height v)) l <= mx)%nat ->
  (mx - dp < S f)%nat ->
  reads (repeat_push (decode_with (decode_body_with_value_kind f)) (length l)) dp mx
    (l ≫= field_bytes) l.
Proof.
  intros Hl Hok Henc Hd Hf. apply reads_repeat. rewrite Forall_forall in *. intros v Hv.
  change (field_bytes v) with ([as_u8 (get_value_kind v)] ++ body_bytes v).
  eapply reads_bind; [apply (reads_kind _ _ (X := X))|].
  pose proof (max_of_elem (fun v => S (height v)) l v Hv). cbn beta in *.
  apply reads_child; [by apply Hl|by eapply forallb_elem|by eapply forallb_elem|lia|done].
Qed.

Lemma reads_len dp mx {A} (l : list A) : size_ok l = true ->
  reads read_size dp mx (size_bytes (Z.of_nat (length l))) (Z.of_nat (length l)).
Proof. unfold size_ok. intros Hl. zbool. apply reads_size. lia. Qed.

Lemma tuple_reads l : Forall body_reads l -> body_reads (VTuple l).
Proof.
  intros Hl Hok Henc dp mx [|f] Hd Hf; [lia|]. cbn in Hok, Henc. zbool.
  cbn [decode_body_with_value_kind get_value_kind body_bytes height] in *.
  eapply reads_bind; [by apply reads_len|]. rewrite Nat2Z.id.
  eapply reads_bind_last; [by apply reads_fields|]. apply reads_ret.
Qed.

Lemma enum_reads d l : Forall body_reads l -> body_reads (VEnum d l).
Proof.
  intros Hl Hok Henc dp mx [|f] Hd Hf; [lia|]. cbn in Hok, Henc. zbool.
  cbn [decode_body_with_value_kind get_value_kind body_bytes height] in *.
  eapply reads_bind; [apply reads_byte|].
  eapply reads_bind; [by apply reads_len|]. rewrite Nat2Z.id.
  eapply reads_bind_last; [by apply reads_fields|]. apply reads_ret.
Qed.

Lemma array_reads k l : Forall body_reads l -> body_reads (VArray k l).
Proof.
  intros Hl Hok Henc dp mx [|f] Hd Hf; [lia|]. cbn in Hok, Henc. zbool.
  cbn [decode_body_with_value_kind get_value_kind body_bytes height] in *.
  eapply reads_bind; [apply (reads_kind _ _ (X := X))|].
  eapply reads_bind; [by apply reads_len|]. rewrite Nat2Z.id.
  eapply reads_bind_last; [|apply reads_ret]. apply reads_repeat. rewrite Forall_forall in *.
  intros v Hv. pose proof (max_of_elem (fun v => S (height v)) l v Hv). cbn beta in *.
  pose proof (forallb_elem _ _ v H3 Hv) as [Hk%bool_decide_eq_true Hev]%andb_true_iff.
  rewrite <- Hk. apply reads_child; [by apply Hl|by eapply forallb_elem|done|lia|done].
Qed.

Lemma map_reads k1 k2 l :
  Forall (fun kv => body_reads kv.1 /\ body_reads kv.2) l -> body_reads (VMap k1 k2 l).
Proof.
  intros Hl Hok Henc dp mx [|f] Hd Hf; [lia|]. cbn in Hok, Henc. zbool.
  cbn [decode_body_with_value_kind get_value_kind body_bytes height] in *.
  do 2 (eapply reads_bind; [apply (reads_kind _ _ (X := X))|]).
  eapply reads_bind; [by apply reads_len|]. rewrite Nat2Z.id.
  eapply reads_bind_last; [|apply reads_ret]. apply reads_repeat. rewrite Forall_forall in *.
  intros [a b] Hab.
  pose proof (max_of_elem (fun '(a, b) => S (Nat.max (height a) (height b))) l _ Hab) as Hmax.
  cbn beta iota in Hmax.
  pose proof (forallb_elem _ _ (a, b) H3 Hab) as Hk. cbn in Hk. zbool.
  pose proof (forallb_elem _ _ (a, b) Hok Hab) as [Hoka Hokb]%andb_true_iff.
  rewrite !bool_decide_eq_true in *. subst. destruct (Hl _ Hab) as [Ha Hb].
  eapply reads_bind; [apply reads_child; [done|done|done|lia|done]|].
  eapply reads_bind_last; [apply reads_child; [done|done|done|lia|done]|]. apply reads_ret.
Qed.

Lemma string_reads s : body_reads (VString s).
Proof.
  intros Hok Henc dp mx [|f] Hd Hf; [lia|]. cbn in Hok, Henc. zbool.
  apply reads_fmap. eapply reads_bind_nil; [apply reads_preloaded|].
  eapply reads_bind; [by apply reads_len|]. eapply reads_bind_last; [by apply reads_slice|]. unfold from_utf8. rewrite Hok. apply reads_ret.
Qed.

Lemma decode_body_reads v : body_reads v.
Proof.
  induction v using value_ind_nested; auto using enum_reads, array_reads, tuple_reads, map_reads,
    string_reads; intros Hok Henc dp mx [|f] Hd Hf; try lia; clear Hf;
    cbn [value_ok] in Hok; try apply in_i_spec in Hok; try apply in_u_spec in Hok; apply reads_fmap.
  1: { eapply reads_bind_nil; [apply reads_preloaded|].
       eapply reads_bind_last; [apply reads_byte|].
       destruct b; apply reads_ret. }
  all: try (apply reads_int; first [apply i_from_to_small; [lia|exact Hok]
                                   |apply u_from_to_small; exact Hok]).
  3: by apply custom_reads.
  all: eapply reads_bind_nil; [apply reads_preloaded|];
    eapply reads_bind_last; [apply reads_byte|].
  - pose proof (i_from_to_small 1 z ltac:(lia) Hok) as Hz. cbn in Hz.
    unfold i_from_le_bytes in Hz. cbn in Hz. rewrite Z.add_0_r in Hz.
    change (wrap_i 8 (z mod 256) = z) in Hz. rewrite Hz. apply reads_ret.
  - apply reads_ret.
Qed.

(** *** Only the format is decoded *)

(** A child value: what decoding it one level deeper establishes. *)
Definition child_ok (dp mx : nat) v : Prop :=
  value_ok v = true /\ encodable v = true /\ (dp + S (height v) <= mx)%nat.

Definition body_parsed (dp mx : nat) k v (bs : list Z) : Prop :=
  value_ok v = true /\ encodable v = true /\ (dp + height v <= mx)%nat /\
  get_value_kind v = k /\ bs = body_bytes v.

Lemma Forall2_concat {A} (Q : A -> Prop) (g : A -> list Z) l bss :
  Forall2 (fun a bs => Q a /\ bs = g a) l bss -> Forall Q l /\ concat bss = l ≫= g.
Proof.
  induction 1 as [|a bs l bss [HQ ->] _ [IH1 IH2]]; [done|]. split; [by constructor|].
  cbn. by rewrite IH2.
Qed.

Lemma Forall_forallb {A} (Q : A -> Prop) (c : A -> bool) l :
  Forall Q l -> (forall a, Q a -> c a = true) -> forallb c l = true.
Proof. intros Hl Hc. induction Hl; cbn; [done|]. rewrite Hc by done. done. Qed.

Lemma Forall_max_of {A} (Q : A -> Prop) (h : A -> nat) l n :
  Forall Q l -> (forall a, Q a -> (h a <= n)%nat) -> (max_of h l <= n)%nat.
Proof.
  intros Hl Hh. induction Hl as [|a l Ha _ IH]; cbn; [lia|]. specialize (Hh a Ha). lia.
Qed.

Lemma parses_len dp mx :
  parses read_size dp mx (fun n bs => bs = size_bytes n /\ 0 <= n <= MAX_SIZE).
Proof. eapply parses_mono; [apply parses_size|]. cbn. tauto. Qed.

Lemma size_ok_len {A} (l : list A) n : 0 <= n <= MAX_SIZE -> length l = Z.to_nat n ->
  size_ok l = true /\ Z.of_nat (length l) = n.
Proof. unfold size_ok. intros Hn ->. rewrite Z.leb_le. lia. Qed.

Section Step.
Context (f dp mx : nat) (Hle : (dp <= mx)%nat) (Hf : (mx - dp < S f)%nat).
Context (IH : forall k dp mx, (dp <= mx)%nat -> (mx - dp < f)%nat ->
  parses (decode_body_with_value_kind f k) dp mx (body_parsed dp mx k)).

Lemma parses_child k :
  parses (decode_deeper_body_with_value_kind (decode_body_with_value_kind f) k) dp mx
    (fun v bs => (child_ok dp mx v /\ get_value_kind v = k) /\ bs = body_bytes v).
Proof.
  eapply parses_mono; [apply parses_deeper; intros Hd; apply IH; lia|].
  unfold body_parsed, child_ok. cbn. intros v bs _ (Hd & ? & ? & ? & ? & ?). split_and!; auto; lia.
Qed.

Lemma parses_fields n : 0 <= n <= MAX_SIZE ->
  parses (repeat_push (decode_with (decode_body_with_value_kind f)) (Z.to_nat n)) dp mx
    (fun l bs => forallb value_ok l = true /\ size_ok l && forallb encodable l = true /\
       (dp + max_of (fun v => S (height v)) l <= mx)%nat /\
       Z.of_nat (length l) = n /\ bs = l ≫= field_bytes).
Proof.
  intros Hn. eapply parses_mono; [apply parses_repeat with
    (P := fun v bs => child_ok dp mx v /\ bs = field_bytes v)|].
  - eapply parses_bind; [apply (parses_kind _ _ (X := X))|]. cbn beta. intros k bs1 _ ->.
    eapply parses_mono; [apply parses_child|]. cbn. intros v bs _ [[Hc <-] ->]. done.
  - cbn. intros l bs _ (Hl & bss & -> & [Hc Hbs]%Forall2_concat).
    apply size_ok_len in Hl as [-> Hlen]; [|done]. cbn. unfold child_ok in Hc. split_and!; auto.
    + eapply Forall_forallb; [done|]. by intros v (? & ? & ?).
    + eapply Forall_forallb; [done|]. by intros v (? & ? & ?).
    + assert (max_of (fun v => S (height v)) l <= mx - dp)%nat; [|lia].
      eapply Forall_max_of; [done|]. intros v (? & ? & ?). lia.
Qed.

Lemma parses_elements k n : 0 <= n <= MAX_SIZE ->
  parses (repeat_push (decode_deeper_body_with_value_kind (decode_body_with_value_kind f) k)
            (Z.to_nat n)) dp mx
    (fun l bs => Z.of_nat (length l) = n /\ body_parsed dp mx KArray (VArray k l)
       ([as_u8 k] ++ size_bytes n ++ bs)).
Proof.
  intros Hn. eapply parses_mono; [apply parses_repeat, parses_child|].
  cbn. intros l bs _ (Hl & bss & -> & [Hc ->]%Forall2_concat).
  apply size_ok_len in Hl as [Hs Hlen]; [|done]. unfold body_parsed. cbn. rewrite Hs, Hlen.
  unfold child_ok in Hc. split_and!; auto.
  + eapply Forall_forallb; [done|]. by intros v ((? & ? & ?) & ?).
  + eapply Forall_forallb; [done|]. intros v ((? & -> & ?) & ?). by rewrite bool_decide_true.
  + assert (max_of (fun v => S (height v)) l <= mx - dp)%nat; [|lia].
    eapply Forall_max_of; [done|]. intros v ((? & ? & ?) & ?). lia.
Qed.

Lemma parses_entries k1 k2 n : 0 <= n <= MAX_SIZE ->
  parses (repeat_push
      (key ← decode_deeper_body_with_value_kind (decode_body_with_value_kind f) k1;
       value ← decode_deeper_body_with_value_kind (decode_body_with_value_kind f) k2;
       mret (key, value)) (Z.to_nat n)) dp mx
    (fun l bs => Z.of_nat (length l) = n /\ body_parsed dp mx KMap (VMap k1 k2 l)
       ([as_u8 k1] ++ [as_u8 k2] ++ size_bytes n ++ bs)).
Proof.
  intros Hn. eapply parses_mono; [apply parses_repeat with
    (P := fun '(a, b) bs => ((child_ok dp mx a /\ get_value_kind a = k1) /\
                             (child_ok dp mx b /\ get_value_kind b = k2)) /\
                            bs = body_bytes a ++ body_bytes b)|].
  - eapply parses_bind; [apply parses_child|]. cbn beta. intros a bs1 _ [Ha ->].
    eapply parses_bind; [apply parses_child|]. cbn beta. intros b bs2 _ [Hb ->].
    apply parses_ret. by rewrite app_nil_r.
  - cbn. intros l bs _ (Hl & bss & -> & HF).
    assert (Forall2 (fun ab bs => (let '(a, b) := ab in
      (child_ok dp mx a /\ get_value_kind a = k1) /\ (child_ok dp mx b /\ get_value_kind b = k2)) /\
      bs = (fun '(a, b) => body_bytes a ++ body_bytes b) ab) l bss) as [Hc ->]%Forall2_concat
      by (eapply Forall2_impl; [exact HF|]; by intros [a b] bs).
    apply size_ok_len in Hl as [Hs Hlen]; [|done]. unfold body_parsed. cbn. rewrite Hs, Hlen.
    unfold child_ok in Hc. split_and!; auto.
    + eapply Forall_forallb; [done|]. intros [a b] [((-> & ? & ?) & ?) ((-> & ? & ?) & ?)]. done.
    + eapply Forall_forallb; [done|]. intros [a b] [((? & -> & ?) & ?) ((? & -> & ?) & ?)].
      by rewrite !bool_decide_true.
    + assert (max_of (fun '(a, b) => S (Nat.max (height a) (height b))) l <= mx - dp)%nat; [|lia].
      eapply Forall_max_of; [done|]. intros [a b] [((? & ? & ?) & ?) ((? & ? & ?) & ?)]. lia.
Qed.
End Step.

Lemma parses_int dp mx k own n from (C : Z -> Value Y X) : (dp <= mx)%nat ->
  (forall bs, bytes_ok bs = true -> length bs = n ->
     body_parsed dp mx k (C (from bs)) bs) ->
  parses (C <$> decode_body_int own n from k) dp mx (body_parsed dp mx k).
Proof.
  intros Hle HC. apply parses_fmap. eapply parses_bind; [apply parses_preloaded|].
  cbn beta. intros _ bs0 _ [-> _].
  eapply parses_bind; [apply parses_slice; lia|]. cbn beta. intros slice bs Hb [-> Hl].
  apply parses_ret. rewrite app_nil_r. cbn. apply HC; [done|lia].
Qed.

Lemma i_parsed dp mx n k (C : Z -> Value Y X) w : (dp <= mx)%nat -> (0 < n)%nat -> w = 8 * Z.of_nat n ->
  (forall z, value_ok (C z) = in_i w z) -> (forall z, encodable (C z) = true) ->
  (forall z, height (C z) = O) -> (forall z, get_value_kind (C z) = k) ->
  (forall z, body_bytes (C z) = to_le_bytes n z) ->
  forall bs, bytes_ok bs = true -> length bs = n -> body_parsed dp mx k (C (i_from_le_bytes bs)) bs.
Proof.
  intros Hle Hn -> Hv He Hh Hk Hb bs Hbs <-. unfold body_parsed. rewrite Hv, He, Hh, Hb.
  split_and!; [|done|lia|apply Hk|by rewrite i_to_from_le_bytes by (done || lia)]. apply in_i_spec.
  apply wrap_i_range. lia.
Qed.

Lemma u_parsed dp mx n k (C : Z -> Value Y X) w : (dp <= mx)%nat -> w = 8 * Z.of_nat n ->
  (forall z, value_ok (C z) = in_u w z) -> (forall z, encodable (C z) = true) ->
  (forall z, height (C z) = O) -> (forall z, get_value_kind (C z) = k) ->
  (forall z, body_bytes (C z) = to_le_bytes n z) ->
  forall bs, bytes_ok bs = true -> length bs = n -> body_parsed dp mx k (C (u_from_le_bytes bs)) bs.
Proof.
  intros Hle -> Hv He Hh Hk Hb bs Hbs <-. unfold body_parsed. rewrite Hv, He, Hh, Hb.
  split_and!; [|done|lia|apply Hk|by rewrite u_to_from_le_bytes]. apply in_u_spec.
  pose proof (u_from_le_bytes_bound bs Hbs). unfold u_max. lia.
Qed.

Lemma string_parses dp mx : (dp <= mx)%nat ->
  parses (VString <$> decode_body_string (X := X) KString) dp mx (body_parsed dp mx KString).
Proof.
  intros Hle. apply parses_fmap. eapply parses_bind; [apply parses_preloaded|].
  cbn beta. intros _ bs0 _ [-> _].
  eapply parses_bind; [apply parses_len|]. cbn beta. intros n bs1 _ [-> Hn].
  eapply parses_bind; [apply parses_slice; lia|]. cbn beta. intros slice bs _ [-> Hl].
  unfold from_utf8. destruct (is_utf8 bs) eqn:E; cbn; [|apply parses_throw].
  apply parses_ret. unfold body_parsed, size_ok. cbn. rewrite Hl, app_nil_r.
  split_and!; auto; [|lia]. apply Z.leb_le. lia.
Qed.

Lemma bool_parses dp mx : (dp <= mx)%nat ->
  parses (VBool <$> decode_body_bool (X := X) KBool) dp mx (body_parsed dp mx KBool).
Proof.
  intros Hle. apply parses_fmap. eapply parses_bind; [apply parses_preloaded|].
  cbn beta. intros _ bs0 _ [-> _]. eapply parses_bind; [apply parses_byte|].
  cbn beta. intros b bs _ [-> _].
  destruct b as [|[]|]; try apply parses_throw; apply parses_ret; unfold body_parsed; cbn;
    split_and!; auto; lia.
Qed.

Lemma byte_parsed dp mx b : (dp <= mx)%nat -> is_byte b = true ->
  body_parsed dp mx KI8 (VI8 (wrap_i 8 b)) [b] /\ body_parsed dp mx KU8 (VU8 b) [b].
Proof.
  intros Hle Hb. split; [|unfold body_parsed; cbn; split_and!; auto; lia].
  pose proof (i_parsed dp mx 1 KI8 VI8 8 Hle ltac:(lia) eq_refl ltac:(done) ltac:(done) ltac:(done)
    ltac:(done) ltac:(done) [b] ltac:(cbn; by rewrite Hb) eq_refl) as Hi.
  unfold i_from_le_bytes in Hi. cbn [u_from_le_bytes] in Hi. by rewrite Z.mul_0_r, Z.add_0_r in Hi.
Qed.

Lemma decode_body_parses fuel k dp mx : (dp <= mx)%nat -> (mx - dp < fuel)%nat ->
  parses (decode_body_with_value_kind fuel k) dp mx (body_parsed dp mx k).
Proof.
  revert k dp mx. induction fuel as [|f IH]; intros k dp mx Hle Hf; [lia|].
  cbn [decode_body_with_value_kind]. destruct k as [ | | | | | | | | | | | | | | | |x]; cbv zeta.
  1: by apply bool_parses.
  all: try (apply parses_int; [done|]; first [eapply i_parsed; done || lia | eapply u_parsed; done || lia]).
  - apply parses_fmap. eapply parses_bind; [apply parses_preloaded|]. cbn beta. intros _ ? _ [-> _].
    eapply parses_bind; [apply parses_byte|]. cbn beta. intros b ? _ [-> Hb].
    apply parses_ret. by apply byte_parsed.
  - apply parses_fmap. eapply parses_bind; [apply parses_preloaded|]. cbn beta. intros _ ? _ [-> _].
    eapply parses_bind; [apply parses_byte|]. cbn beta. intros b ? _ [-> Hb].
    apply parses_ret. by apply byte_parsed.
  - by apply string_parses.
  - eapply parses_bind; [apply parses_byte|]. cbn beta. intros d ? _ [-> Hd].
    eapply parses_bind; [apply parses_len|]. cbn beta. intros n ? _ [-> Hn].
    eapply parses_bind; [by apply parses_fields|]. cbn beta. intros l ? _ (? & ? & ? & <- & ->).
    apply parses_ret. unfold body_parsed. cbn [value_ok]. rewrite app_nil_r. unfold is_byte in Hd.
    rewrite Hd. done.
  - eapply parses_bind; [apply (parses_kind _ _ (X := X))|]. cbn beta. intros k ? _ ->.
    eapply parses_bind; [apply parses_len|]. cbn beta. intros n ? _ [-> Hn].
    eapply parses_bind; [by apply parses_elements|]. cbn beta. intros l ? _ [<- ?].
    apply parses_ret. by rewrite app_nil_r.
  - eapply parses_bind; [apply parses_len|]. cbn beta. intros n ? _ [-> Hn].
    eapply parses_bind; [by apply parses_fields|]. cbn beta. intros l ? _ (? & ? & ? & <- & ->).
    apply parses_ret. unfold body_parsed. by rewrite app_nil_r.
  - do 2 (eapply parses_bind; [apply (parses_kind _ _ (X := X))|]; cbn beta; intros ? ? _ ->).
    eapply parses_bind; [apply parses_len|]. cbn beta. intros n ? _ [-> Hn].
    eapply parses_bind; [by apply parses_entries|]. cbn beta. intros l ? _ [<- ?].
    apply parses_ret. by rewrite app_nil_r.
  - apply parses_fmap. eapply parses_mono; [apply custom_parses|]. cbn.
    intros y bs _ (? & <- & ->). unfold body_parsed. cbn. split_and!; auto; lia.
Qed.

(** *** Payloads *)

Lemma encode_payload_writes p mx v : value_ok v = true ->
  writes 0 mx (encode_payload p v) (encodable v && (value_depth v <=? mx)%nat)
    (p :: field_bytes v).
Proof.
  intros Hok. change (p :: field_bytes v) with ([p] ++ [as_u8 (get_value_kind v)] ++ body_bytes v).
  apply (writes_bind _ _ _ _ true); [apply emits_write|].
  apply (writes_bind _ _ _ _ true); [apply emits_kind|].
  apply (writes_child 0). intros Hd. by apply encode_body_writes.
Qed.

Lemma encode_limit_spec p mx v : value_ok v = true ->
  if encodable v && (value_depth v <=? mx)%nat
  then encode_with_depth_limit p mx v = Done (Ok (p :: field_bytes v))
  else exists err, encode_with_depth_limit p mx v = Done (Err err).
Proof.
  intros Hok. pose proof (encode_payload_writes p mx v Hok) as Hw. unfold encode_with_depth_limit.
  destruct (encodable v && _); unfold writes in Hw.
  - by rewrite Hw.
  - destruct (Hw (VecEncoder_new [] mx)) as (err & e' & ->); [done|done|]. by exists err.
Qed.

Lemma reads_prefix dp mx p : reads (read_and_check_payload_prefix p) dp mx [p] tt.
Proof.
  eapply reads_bind_last; [apply reads_byte|]. cbn beta. rewrite Z.eqb_refl. apply reads_ret.
Qed.

Lemma parses_prefix dp mx p :
  parses (read_and_check_payload_prefix p) dp mx (fun _ bs => bs = [p]).
Proof.
  eapply parses_bind; [apply parses_byte|]. cbn beta. intros b bs _ [-> _].
  destruct (Z.eqb_spec b p) as [->|]; [by apply parses_ret | apply parses_throw].
Qed.

Lemma decode_reads p mx v : value_ok v = true -> encodable v = true -> (value_depth v <= mx)%nat ->
  reads (read_and_check_payload_prefix p;; decode mx) 0 mx (p :: field_bytes v) v.
Proof.
  unfold value_depth. intros Hok Henc Hd.
  change (p :: field_bytes v) with ([p] ++ [as_u8 (get_value_kind v)] ++ body_bytes v).
  eapply reads_bind; [apply reads_prefix|].
  eapply reads_bind; [apply (reads_kind _ _ (X := X))|].
  apply reads_child; [apply decode_body_reads|done|done|lia|lia].
Qed.

Lemma decode_parses p mx :
  parses (read_and_check_payload_prefix p;; decode mx) 0 mx
    (fun v bs => child_ok 0 mx v /\ bs = p :: field_bytes v).
Proof.
  eapply parses_bind; [apply parses_prefix|]. cbn beta. intros _ bs _ ->.
  eapply parses_bind; [apply (parses_kind _ _ (X := X))|]. cbn beta. intros k bs1 _ ->.
  eapply parses_mono; [apply parses_child; try lia; intros; by apply decode_body_parses|].
  cbn. intros v bs _ [[Hc <-] ->]. done.
Qed.

Lemma decode_payload_assoc f p d :
  decode_payload (X := X) (Y := Y) f p d =
  (value ← (read_and_check_payload_prefix p;; decode f); check_end;; mret value) d.
Proof.
  unfold decode_payload, mbind, M_bind.
  by destruct (read_and_check_payload_prefix p d) as [[[[]|e] d']|].
Qed.

Lemma check_end_run v d :
  (check_end;; mret v) d =
  match remaining d with
  | [] => Done (Ok v, d)
  | rest => Done (Err (ExtraTrailingBytes (length rest)), d)
  end.
Proof.
  unfold check_end, gets, mbind, M_bind. rewrite remaining_bytes_length. by destruct (remaining d).
Qed.

Lemma decode_limit_complete p mx v : value_ok v = true -> encodable v = true ->
  (value_depth v <= mx)%nat ->
  decode_with_depth_limit p mx (p :: field_bytes v) = Done (Ok v).
Proof.
  intros Hok Henc Hd. unfold decode_with_depth_limit. rewrite decode_payload_assoc.
  pose proof (decode_reads p mx v Hok Henc Hd (VecDecoder_new (p :: field_bytes v) mx) [] eq_refl
    eq_refl ltac:(by rewrite app_nil_r)) as Hr.
  unfold mbind at 2, M_bind at 1. rewrite Hr, check_end_run.
  by rewrite (remaining_after _ _ []) by (by rewrite app_nil_r).
Qed.

Lemma decode_limit_sound p mx bs : bytes_ok bs = true ->
  exists r, decode_with_depth_limit p mx bs = Done r /\
  forall v, r = Ok v ->
    value_ok v = true /\ encodable v = true /\ (value_depth v <= mx)%nat /\ bs = p :: field_bytes v.
Proof.
  intros Hbs. unfold decode_with_depth_limit. rewrite decode_payload_assoc.
  pose proof (decode_parses p mx (VecDecoder_new bs mx) eq_refl eq_refl Hbs) as Hp.
  unfold mbind at 2, M_bind at 1.
  destruct ((read_and_check_payload_prefix p;; decode mx) (VecDecoder_new bs mx)) as [[[v|e] d]|];
    [|by exists (Err e)|done].
  destruct Hp as (bs1 & rest & Hr & -> & (Hok & Henc & Hd) & ->).
  change (bs = (p :: field_bytes v) ++ rest) in Hr. subst bs.
  rewrite check_end_run, (remaining_after _ _ rest) by done. destruct rest as [|b rest].
  - exists (Ok v). split; [done|]. intros v' [= <-]. by rewrite app_nil_r.
  - eexists. split; [reflexivity|]. done.
Qed.
Lemma decode_limit_iff p mx bs v : bytes_ok bs = true ->
  decode_with_depth_limit p mx bs = Done (Ok v) <->
  value_ok v = true /\ encode_with_depth_limit p mx v = Done (Ok bs).
Proof.
  intros Hbs.
  split.
  - intros Hd. destruct (decode_limit_sound p mx bs Hbs) as (r & Hr & Hv).
    rewrite Hd in Hr. injection Hr as <-. destruct (Hv v eq_refl) as (Hok & Henc & Hdp & ->).
    split; [done|]. pose proof (encode_limit_spec p mx v Hok) as He.
    by rewrite Henc, (proj2 (Nat.leb_le _ _) Hdp) in He.
  - intros [Hok He]. pose proof (encode_limit_spec p mx v Hok) as Hs.
    destruct (encodable v && (value_depth v <=? mx)%nat) eqn:E.
    + rewrite He in Hs. injection Hs as ->. apply andb_true_iff in E as [? ?%Nat.leb_le].
      by apply decode_limit_complete.
    + destruct Hs as [err Hs]. congruence.
Qed.
End Values.
End SborTheory.

(** ** The basic schema: no custom values *)

Abbreviation NoCustomValueKind := Empty_set.
Abbreviation NoCustomValue := Empty_set.

#[global] Instance no_custom_value_kind : CustomValueKind NoCustomValueKind := {
  custom_as_u8 x := match x with end;
  custom_from_u8 _ := None
}.

#[global] Instance no_custom_value : CustomValue NoCustomValueKind NoCustomValue := {
  get_custom_value_kind y := match y with end;
  custom_encode_value_kind y := match y with end;
  custom_encode_body y := match y with end;
  custom_decode_body k := panic
}.

#[global, refine] Instance no_custom_value_laws : CustomValueLaws NoCustomValueKind NoCustomValue := {
  custom_ok y := match y with end;
  custom_bytes y := match y with end
}.
Proof.
  - by split; intros [].
  - by intros [].
  - by intros [].
  - by intros [].
  - by intros [].
Defined.

Definition BASIC_SBOR_V1_PAYLOAD_PREFIX : Z := 0x5b.
Definition BASIC_SBOR_V1_MAX_DEPTH : nat := 64.
Definition BasicValue : Type := Value NoCustomValue NoCustomValueKind.

Definition basic_encode (v : BasicValue) : Exec (Result EncodeError (list Z)) :=
  encode_with_depth_limit BASIC_SBOR_V1_PAYLOAD_PREFIX BASIC_SBOR_V1_MAX_DEPTH v.
Definition basic_decode (bs : list Z) : Exec (Result DecodeError BasicValue) :=
  decode_with_depth_limit BASIC_SBOR_V1_PAYLOAD_PREFIX BASIC_SBOR_V1_MAX_DEPTH bs.

(** ** Theorems *)

Module SborTheorems.
Import SborTheory.
Section Codec.
Context {X Y : Type} `{CustomValueLaws X Y}.

(** The encoder writes the format: for every value of the source's types,
    [encode_payload] succeeds exactly when every size is at most 0x0FFFFFFF, the
    elements of every array and map have the kinds declared for them and the
    value has no more layers than the depth limit; the payload is then the
    prefix, the kind and the body in the format.  Otherwise an error is
    returned. *)
Theorem encode_exact (p : Z) (mx : nat) (v : Value Y X) (Hok : value_ok v = true) :
  match encode_with_depth_limit p mx v with
  | Done (Ok bs) =>
      encodable v = true /\ (value_depth v <= mx)%nat /\
      bs = p :: as_u8 (get_value_kind v) :: body_bytes v
  | Done (Err _) => ~ (encodable v = true /\ (value_depth v <= mx)%nat)
  | Panicked => False
  end.
Proof.
  pose proof (encode_limit_spec p mx v Hok) as He.
  destruct (encodable v && (value_depth v <=? mx)%nat) eqn:E.
  - rewrite He. apply andb_true_iff in E as [? ?%Nat.leb_le]. done.
  - destruct He as [err ->]. rewrite <- Nat.leb_le, <- andb_true_iff. congruence.
Qed.

(** C7. Decoding inverts encoding and accepts nothing else: a payload decodes
    to a value exactly when that value encodes to that payload, byte for byte,
    under the same prefix and depth limit.  Every value therefore has one
    encoding and every payload one reading. *)
Theorem decode_inverts_encode (p : Z) (mx : nat) (bs : list Z) (v : Value Y X)
    (Hbs : bytes_ok bs = true) :
  decode_with_depth_limit p mx bs = Done (Ok v) <->
  value_ok v = true /\ encode_with_depth_limit p mx v = Done (Ok bs).
Proof.
  by apply decode_limit_iff.
Qed.

(** C38. Decoding terminates on every byte string, hostile ones included: within
    the fuel of the depth limit it returns a value or an error, and a value it
    returns has no more layers than the limit. *)
Theorem decode_total (p : Z) (mx : nat) (bs : list Z) (Hbs : bytes_ok bs = true) :
  exists r : Result DecodeError (Value Y X),
    decode_with_depth_limit p mx bs = Done r /\
    forall v, r = Ok v -> value_ok v = true /\ (value_depth v <= mx)%nat.
Proof.
  destruct (decode_limit_sound (X := X) (Y := Y) p mx bs Hbs) as (r & Hr & Hv).
  exists r. split; [done|]. intros v Hrv. by destruct (Hv v Hrv) as (? & ? & ? & ?).
Qed.
End Codec.

(** A map from numbers to strings inside an enum. *)
Definition sample : BasicValue :=
  VTuple [VEnum 1 [VMap KU8 KString [(VU8 7, VString [104; 105]); (VU8 9, VString [])]];
          VArray KI16 [VI16 (-2); VI16 300]; VBool true].

Definition sample_bytes : list Z :=
  [0x5b; 0x21; 3; 0x22; 1; 1; 0x23; 7; 12; 2; 7; 2; 104; 105; 9; 0;
   0x20; 3; 2; 254; 255; 44; 1; 1; 1].

Lemma encode_exact_witness : value_ok sample = true /\ basic_encode sample = Done (Ok sample_bytes).
Proof.
  split; [reflexivity|].
  pose proof (encode_exact BASIC_SBOR_V1_PAYLOAD_PREFIX BASIC_SBOR_V1_MAX_DEPTH sample eq_refl) as He.
  unfold basic_encode. destruct (encode_with_depth_limit _ _ _) as [[bs|]|].
  - destruct He as (_ & _ & ->). reflexivity.
  - exfalso. apply He. split; [reflexivity|]. apply Nat.leb_le. reflexivity.
  - destruct He.
Defined.

Lemma decode_inverts_encode_witness :
  bytes_ok sample_bytes = true /\ basic_decode sample_bytes = Done (Ok sample).
Proof.
  split; [reflexivity|]. apply decode_inverts_encode; [reflexivity|]. split; reflexivity.
Defined.

Lemma decode_total_witness :
  exists r, basic_decode [0x5b; 0x20; 0x20; 255; 255; 255; 127; 1] = Done r.
Proof.
  destruct (decode_total (X := NoCustomValueKind) (Y := NoCustomValue) BASIC_SBOR_V1_PAYLOAD_PREFIX
    BASIC_SBOR_V1_MAX_DEPTH [0x5b; 0x20; 0x20; 255; 255; 255; 127; 1] eq_refl) as (r & Hr & _).
  exists r. exact Hr.
Defined.

(** The padded and the five-byte sizes are refused. *)
Example noncanonical_size_refused :
  basic_decode [0x5b; 0x21; 128; 0] = Done (Err InvalidSize) /\
  basic_decode [0x5b; 0x21; 255; 255; 255; 255; 0] = Done (Err InvalidSize).
Proof. split; reflexivity. Qed.

End SborTheorems.
