(* ===== verification/SborCustom.v ===== *)
(** * The custom values of the ledger's SBOR schemas

    Two instances of the codec's interface [CustomValueLaws]: the values of
    state and events (radix-common/src/data/scrypto: references, owned nodes,
    decimals, non-fungible ids) and of transaction manifests
    (radix-common/src/data/manifest: addresses, buckets, proofs, expressions,
    blobs, decimals, ids, address reservations), with the codec of each type and
    the entity types of node ids (radix-common/src/types/entity_type.rs).

    A node id is its 30 bytes; a decimal is its integer of 192 or 256 bits. *)

From S2P Require Import Prelude Bytes Sbor.
Import Int CodecTheory.

(** ** Entity types and node ids *)

Inductive EntityType : Type :=
| GlobalPackage | GlobalConsensusManager | GlobalValidator | GlobalTransactionTracker
| GlobalGenericComponent | GlobalAccount | GlobalIdentity | GlobalAccessController
| GlobalOneResourcePool | GlobalTwoResourcePool | GlobalMultiResourcePool
| GlobalAccountLocker
| GlobalPreallocatedSecp256k1Account | GlobalPreallocatedSecp256k1Identity
| GlobalPreallocatedEd25519Account | GlobalPreallocatedEd25519Identity
| GlobalFungibleResourceManager | InternalFungibleVault
| GlobalNonFungibleResourceManager | InternalNonFungibleVault
| InternalGenericComponent | InternalKeyValueStore.

#[global] Instance EntityType_eq_dec : EqDecision EntityType.
Proof. solve_decision. Defined.

Definition entity_repr (t : EntityType) : Z :=
  match t with
  | GlobalPackage => 13
  | GlobalConsensusManager => 134 | GlobalValidator => 131 | GlobalTransactionTracker => 130
  | GlobalGenericComponent => 192 | GlobalAccount => 193 | GlobalIdentity => 194
  | GlobalAccessController => 195
  | GlobalOneResourcePool => 196 | GlobalTwoResourcePool => 197 | GlobalMultiResourcePool => 198
  | GlobalAccountLocker => 104
  | GlobalPreallocatedSecp256k1Account => 209 | GlobalPreallocatedSecp256k1Identity => 210
  | GlobalPreallocatedEd25519Account => 81 | GlobalPreallocatedEd25519Identity => 82
  | GlobalFungibleResourceManager => 93 | InternalFungibleVault => 88
  | GlobalNonFungibleResourceManager => 154 | InternalNonFungibleVault => 152
  | InternalGenericComponent => 248
  | InternalKeyValueStore => 176
  end.

Definition entity_types : list EntityType :=
  [GlobalPackage; GlobalConsensusManager; GlobalValidator; GlobalTransactionTracker;
   GlobalGenericComponent; GlobalAccount; GlobalIdentity; GlobalAccessController;
   GlobalOneResourcePool; GlobalTwoResourcePool; GlobalMultiResourcePool; GlobalAccountLocker;
   GlobalPreallocatedSecp256k1Account; GlobalPreallocatedSecp256k1Identity;
   GlobalPreallocatedEd25519Account; GlobalPreallocatedEd25519Identity;
   GlobalFungibleResourceManager; InternalFungibleVault; GlobalNonFungibleResourceManager;
   InternalNonFungibleVault; InternalGenericComponent; InternalKeyValueStore].

(** [EntityType::from_repr] *)
Definition from_repr (b : Z) : option EntityType :=
  find (fun t => entity_repr t =? b) entity_types.

Definition NODE_ID_LENGTH : nat := 30.

(** [copy_u8_array], and [try_into().unwrap()] to an array *)
Definition copy_u8_array (n : nat) (slice : list Z) : Exec (list Z) :=
  if (length slice =? n)%nat then Done slice else Panicked.

(** ** Types of a fixed size

    [well_known_scrypto_custom_type!] and [manifest_type!]: a type with a
    [to_vec] and a [TryFrom<&[u8]>] of [size] bytes. *)
Section FixedSize.
Context {X A : Type} `{CustomValueKind X} (to_vec : A -> list Z) (try_from : list Z -> option A).

Definition encode_body_fixed (a : A) : Enc unit := write_slice (to_vec a).

Definition decode_body_fixed (own : ValueKind X) (size : nat) (k : ValueKind X) : Dec A :=
  check_preloaded_value_kind k own;;
  slice ← read_slice (Z.of_nat size);
  lift_result (ok_or (try_from slice) InvalidCustomValue).

Lemma reads_fixed dp mx k size a : length (to_vec a) = size -> try_from (to_vec a) = Some a ->
  reads (decode_body_fixed k size k) dp mx (to_vec a) a.
Proof.
  intros Hl Ht. eapply reads_bind_nil; [apply reads_preloaded|].
  eapply reads_bind_last; [apply reads_slice; by rewrite Hl|]. rewrite Ht. apply reads_ret.
Qed.

Lemma parses_fixed dp mx own size k (P : A -> Prop) :
  (forall bs a, bytes_ok bs = true -> length bs = size -> try_from bs = Some a ->
     P a /\ bs = to_vec a) ->
  parses (decode_body_fixed own size k) dp mx (fun a bs => k = own /\ P a /\ bs = to_vec a).
Proof.
  intros HP. eapply parses_bind; [apply parses_preloaded|]. cbn beta. intros _ ? _ [-> ->].
  eapply parses_bind; [apply parses_slice; lia|]. cbn beta. intros slice bs Hb [-> Hl].
  destruct (try_from bs) as [a|] eqn:E; [|apply parses_throw].
  apply parses_ret. rewrite app_nil_r. cbn. split; [done|]. apply HP; [done|lia|done].
Qed.
End FixedSize.

(** Arrays of bytes: [Reference], [Own] and the byte arrays of manifests. *)
Definition array_try_from (n : nat) (slice : list Z) : option (list Z) :=
  if (length slice =? n)%nat then Some slice else None.

Definition array_ok (n : nat) (bs : list Z) : bool := (length bs =? n)%nat && bytes_ok bs.

Lemma array_try_from_ok n bs : array_ok n bs = true -> array_try_from n bs = Some bs.
Proof. unfold array_ok, array_try_from. by destruct (length bs =? n)%nat. Qed.

Lemma array_ok_length n bs : array_ok n bs = true -> length bs = n.
Proof. unfold array_ok. rewrite andb_true_iff, Nat.eqb_eq. tauto. Qed.

Lemma array_try_from_inv n bs a : bytes_ok bs = true -> length bs = n ->
  array_try_from n bs = Some a -> array_ok n a = true /\ bs = a.
Proof.
  unfold array_try_from, array_ok. intros Hb <-. rewrite Nat.eqb_refl. intros [= <-].
  by rewrite Nat.eqb_refl, Hb.
Qed.

(** [to_le_bytes] of [I192] and [I256]: words of 64 bits, least significant
    first. *)
Definition wide_to_le_bytes (words : nat) (z : Z) : list Z :=
  concat (map (fun i => to_le_bytes 8 (Z.land (Z.shiftr z (64 * Z.of_nat i)) 0xffffffffffffffff))
    (seq 0 words)).

Definition wide_try_from (n : nat) (slice : list Z) : option Z :=
  if (length slice =? n)%nat then Some (i_from_le_bytes slice) else None.

Lemma to_le_bytes_app n m z :
  to_le_bytes (n + m) z = to_le_bytes n z ++ to_le_bytes m (z / 2 ^ (8 * Z.of_nat n)).
Proof.
  revert z. induction n as [|n IH]; intros z; cbn [to_le_bytes plus app].
  - by rewrite Z.div_1_r.
  - rewrite IH, pow_succ_256, Z.div_div by lia. done.
Qed.

Lemma to_le_bytes_mod n z : to_le_bytes n (z mod 2 ^ (8 * Z.of_nat n)) = to_le_bytes n z.
Proof.
  assert (length (to_le_bytes n z) = n) as Hl by apply length_to_le_bytes.
  rewrite <- Hl at 1. apply to_from_le_bytes_mod; [apply to_le_bytes_ok|].
  by rewrite Hl, Z.mod_mod, u_from_to_le_bytes by lia.
Qed.

Lemma wide_to_le_bytes_eq words z : wide_to_le_bytes words z = to_le_bytes (8 * words) z.
Proof.
  induction words as [|w IH]; [done|]. unfold wide_to_le_bytes in *.
  rewrite seq_S, map_app, concat_app, IH. cbn [map concat plus]. rewrite app_nil_r.
  replace (8 * S w)%nat with (8 * w + 8)%nat by lia. rewrite to_le_bytes_app. f_equal.
  rewrite (Z.land_ones _ 64 ltac:(lia) : Z.land _ 0xffffffffffffffff = _).
  rewrite (to_le_bytes_mod 8 _ : to_le_bytes 8 (_ mod 2 ^ 64) = _).
  rewrite Z.shiftr_div_pow2 by lia. do 3 f_equal. lia.
Qed.

Lemma wide_roundtrip words z : (0 < words)%nat -> in_i (64 * Z.of_nat words) z = true ->
  length (wide_to_le_bytes words z) = (8 * words)%nat /\
  wide_try_from (8 * words) (wide_to_le_bytes words z) = Some z.
Proof.
  intros Hw Hz%in_i_spec. unfold wide_try_from.
  rewrite wide_to_le_bytes_eq, length_to_le_bytes, Nat.eqb_refl. split; [done|]. f_equal.
  apply i_from_to_small; [lia|]. replace (8 * Z.of_nat (8 * words)) with (64 * Z.of_nat words) by lia.
  done.
Qed.

Lemma wide_inv words bs z : (0 < words)%nat -> bytes_ok bs = true -> length bs = (8 * words)%nat ->
  wide_try_from (8 * words) bs = Some z ->
  in_i (64 * Z.of_nat words) z = true /\ bs = wide_to_le_bytes words z.
Proof.
  intros Hw Hb Hl. unfold wide_try_from. rewrite Hl, Nat.eqb_refl. intros [= <-].
  rewrite wide_to_le_bytes_eq, <- Hl, i_to_from_le_bytes by (done || lia). split; [|done].
  apply in_i_spec. replace (64 * Z.of_nat words) with (8 * Z.of_nat (length bs)) by lia.
  apply wrap_i_range. lia.
Qed.

(** ** Non-fungible ids *)

Definition NON_FUNGIBLE_LOCAL_ID_MAX_LENGTH : nat := 64.

Inductive NonFungibleLocalId : Type :=
| IdString (s : list Z)
| IdInteger (v : Z)
| IdBytes (b : list Z)
| IdRUID (b : list Z).

Inductive ContentValidationError : Type := TooLong | Empty | ContainsBadCharacter.

Definition id_byte_ok (byte : Z) : bool :=
  (in_range 97 122 byte) || (in_range 65 90 byte) || (in_range 48 57 byte) || (byte =? 95).

(** [StringNonFungibleLocalId::validate_slice] *)
Definition validate_slice (slice : list Z) : Result ContentValidationError unit :=
  match slice with
  | [] => Err Empty
  | _ =>
      if (NON_FUNGIBLE_LOCAL_ID_MAX_LENGTH <? length slice)%nat then Err TooLong
      else if forallb id_byte_ok slice then Ok tt else Err ContainsBadCharacter
  end.

(** [BytesNonFungibleLocalId::validate] *)
Definition validate_bytes (slice : list Z) : Result ContentValidationError unit :=
  match slice with
  | [] => Err Empty
  | _ => if (NON_FUNGIBLE_LOCAL_ID_MAX_LENGTH <? length slice)%nat then Err TooLong else Ok tt
  end.

Definition id_string (value : list Z) : Result ContentValidationError NonFungibleLocalId :=
  validate_slice value;; Ok (IdString value).
Definition id_integer (value : Z) : NonFungibleLocalId := IdInteger value.
Definition id_bytes (value : list Z) : Result ContentValidationError NonFungibleLocalId :=
  validate_bytes value;; Ok (IdBytes value).
Definition id_ruid (value : list Z) : NonFungibleLocalId := IdRUID value.

Definition encode_body_common (id : NonFungibleLocalId) : Enc unit :=
  match id with
  | IdString v => write_discriminator 0;; write_size (Z.of_nat (length v));; write_slice v
  | IdInteger v => write_discriminator 1;; write_slice (to_be_bytes 8 v)
  | IdBytes v => write_discriminator 2;; write_size (Z.of_nat (length v));; write_slice v
  | IdRUID v => write_discriminator 3;; write_slice v
  end.

(** [map_err(|_| DecodeError::InvalidCustomValue)] *)
Definition or_invalid {E A} (r : Result E A) : Dec A :=
  match r with Ok a => mret a | Err _ => throw InvalidCustomValue end.

Definition decode_body_common : Dec NonFungibleLocalId :=
  discriminator ← read_discriminator;
  match discriminator with
  | 0 =>
      size ← read_size;
      slice ← read_slice size;
      str ← lift_result (ok_or (from_utf8 slice) InvalidCustomValue);
      or_invalid (id_string str)
  | 1 =>
      slice ← read_slice 8;
      bytes ← lift_exec (copy_u8_array 8 slice);
      mret (id_integer (u_from_be_bytes bytes))
  | 2 =>
      size ← read_size;
      slice ← read_slice size;
      or_invalid (id_bytes slice)
  | 3 =>
      slice ← read_slice 32;
      bytes ← lift_exec (copy_u8_array 32 slice);
      mret (id_ruid bytes)
  | _ => throw InvalidCustomValue
  end.

(** What the constructors ensure. *)
Definition id_ok (id : NonFungibleLocalId) : bool :=
  match id with
  | IdString s => match validate_slice s with Ok _ => true | Err _ => false end
  | IdInteger v => in_u 64 v
  | IdBytes b => bytes_ok b && match validate_bytes b with Ok _ => true | Err _ => false end
  | IdRUID b => array_ok 32 b
  end.

Definition id_body_bytes (id : NonFungibleLocalId) : list Z :=
  match id with
  | IdString v => [0] ++ size_bytes (Z.of_nat (length v)) ++ v
  | IdInteger v => [1] ++ to_be_bytes 8 v
  | IdBytes v => [2] ++ size_bytes (Z.of_nat (length v)) ++ v
  | IdRUID v => [3] ++ v
  end.

Lemma validate_bytes_Ok s u : validate_bytes s = Ok u -> (0 < length s <= 64)%nat.
Proof.
  unfold validate_bytes. destruct s as [|b s]; [done|].
  destruct (Nat.ltb_spec NON_FUNGIBLE_LOCAL_ID_MAX_LENGTH (length (b :: s))) as [|Hl]; [done|].
  intros _. unfold NON_FUNGIBLE_LOCAL_ID_MAX_LENGTH in Hl. cbn [length] in *. lia.
Qed.

Lemma validate_slice_Ok s u : validate_slice s = Ok u ->
  (0 < length s <= 64)%nat /\ forallb id_byte_ok s = true.
Proof.
  unfold validate_slice. destruct s as [|b s]; [done|].
  destruct (Nat.ltb_spec NON_FUNGIBLE_LOCAL_ID_MAX_LENGTH (length (b :: s))) as [|Hl]; [done|].
  destruct (forallb id_byte_ok (b :: s)); [|done].
  intros _. unfold NON_FUNGIBLE_LOCAL_ID_MAX_LENGTH in Hl. cbn [length] in *. split; [lia|done].
Qed.

Lemma id_byte_ascii b : id_byte_ok b = true -> in_range 0 0x7F b = true.
Proof.
  unfold id_byte_ok, in_range. rewrite !orb_true_iff, !andb_true_iff, !Z.leb_le, Z.eqb_eq. lia.
Qed.

Lemma id_bytes_utf8 s : forallb id_byte_ok s = true -> is_utf8 s = true.
Proof.
  induction s as [|b s IH]; [done|]. cbn [forallb is_utf8]. rewrite andb_true_iff.
  intros [->%id_byte_ascii Hs]. auto.
Qed.

Lemma emits_id dp mx id : id_ok id = true ->
  emits (encode_body_common id) dp mx (id_body_bytes id).
Proof.
  intros Hok. destruct id as [s|v|b|b]; cbn [id_ok encode_body_common id_body_bytes] in *;
    (apply emits_bind; [apply emits_write|]); try apply emits_write.
  - destruct (validate_slice s) eqn:E; [|done]. apply validate_slice_Ok in E as [Hl _].
    apply emits_bind; [apply emits_size|apply emits_write]. unfold MAX_SIZE. lia.
  - apply andb_true_iff in Hok as [_ Hok].
    destruct (validate_bytes b) eqn:E; [|done]. apply validate_bytes_Ok in E.
    apply emits_bind; [apply emits_size|apply emits_write]. unfold MAX_SIZE. lia.
Qed.

Lemma reads_array dp mx n bs : length bs = n ->
  reads (slice ← read_slice (Z.of_nat n); lift_exec (copy_u8_array n slice)) dp mx bs bs.
Proof.
  intros Hl. eapply reads_bind_last; [apply reads_slice; by rewrite Hl|].
  unfold copy_u8_array. rewrite Hl, Nat.eqb_refl. apply reads_ret.
Qed.

Lemma reads_id dp mx id : id_ok id = true -> reads decode_body_common dp mx (id_body_bytes id) id.
Proof.
  intros Hok. destruct id as [s|v|b|b]; cbn [id_ok id_body_bytes] in *;
    (eapply reads_bind; [apply reads_byte|]); cbv beta iota.
  - destruct (validate_slice s) eqn:E; [|done].
    pose proof (validate_slice_Ok _ _ E) as [Hl Hu%id_bytes_utf8].
    eapply reads_bind; [apply reads_size; unfold MAX_SIZE; lia|].
    eapply reads_bind_last; [by apply reads_slice|].
    eapply reads_bind_nil; [unfold from_utf8; rewrite Hu; apply reads_ret|].
    unfold id_string. rewrite E. apply reads_ret.
  - eapply reads_bind_last; [apply reads_slice; by rewrite length_to_be_bytes|].
    eapply reads_bind_nil;
      [unfold copy_u8_array; rewrite length_to_be_bytes; apply reads_ret|].
    rewrite in_u_spec in Hok. rewrite u_from_to_be_small by exact Hok. apply reads_ret.
  - apply andb_true_iff in Hok as [_ Hok]. destruct (validate_bytes b) eqn:E; [|done].
    pose proof (validate_bytes_Ok _ _ E) as Hl.
    eapply reads_bind; [apply reads_size; unfold MAX_SIZE; lia|].
    eapply reads_bind_last; [by apply reads_slice|].
    unfold id_bytes. rewrite E. apply reads_ret.
  - pose proof (array_ok_length _ _ Hok) as Hl.
    eapply reads_bind_last; [apply reads_slice; by rewrite Hl|].
    unfold copy_u8_array. rewrite Hl. apply reads_ret.
Qed.

Lemma parses_id dp mx :
  parses decode_body_common dp mx (fun id bs => id_ok id = true /\ bs = id_body_bytes id).
Proof.
  eapply parses_bind; [apply parses_byte|]. cbn beta. intros b ? _ [-> _].
  destruct b as [|[[|[]|]|[|[]|]|]|]; try apply parses_throw.
  - eapply parses_bind; [apply parses_size|]. cbn beta. intros n ? _ [Hn ->].
    eapply parses_bind; [apply parses_slice; lia|]. cbn beta. intros s bs Hb [-> Hl].
    unfold from_utf8. destruct (is_utf8 bs); [|apply parses_throw].
    eapply parses_bind; [by apply (parses_ret _ _ _ (fun a bs' => a = bs /\ bs' = []))|].
    cbn beta. intros a ? _ [-> ->]. unfold id_string. destruct (validate_slice bs) as [[]|] eqn:E; [|apply parses_throw].
    apply parses_ret. cbn. rewrite E, app_nil_r, Hl. done.
  - eapply parses_bind; [apply parses_slice; lia|]. cbn beta. intros s bs Hb [-> Hl].
    assert (length bs = 32%nat) as Hl' by lia. unfold copy_u8_array. rewrite Hl'. cbn.
    apply parses_ret. cbn. unfold array_ok. rewrite Hl', Hb, app_nil_r. done.
  - eapply parses_bind; [apply parses_size|]. cbn beta. intros n ? _ [Hn ->].
    eapply parses_bind; [apply parses_slice; lia|]. cbn beta. intros s bs Hb [-> Hl].
    unfold id_bytes. destruct (validate_bytes bs) as [[]|] eqn:E; [|apply parses_throw].
    apply parses_ret. cbn. rewrite E, Hb, app_nil_r, Hl. done.
  - eapply parses_bind; [apply parses_slice; lia|]. cbn beta. intros s bs Hb [-> Hl].
    assert (length bs = 8%nat) as Hl' by lia. unfold copy_u8_array. rewrite Hl'. cbn.
    apply parses_ret. cbn [id_ok id_integer id_body_bytes]. rewrite app_nil_r.
    pose proof (u_from_be_bytes_bound bs Hb) as Hbd. rewrite Hl' in Hbd.
    rewrite <- Hl', u_to_from_be_bytes by done. split; [by apply in_u_spec|done].
Qed.

(** ** The Scrypto schema *)

Module Scrypto.

Inductive ScryptoCustomValueKind : Type :=
| Reference | Own | Decimal | PreciseDecimal | NonFungibleLocalId.

#[global] Instance ScryptoCustomValueKind_eq_dec : EqDecision ScryptoCustomValueKind.
Proof. solve_decision. Defined.

#[global] Instance scrypto_custom_value_kind : CustomValueKind ScryptoCustomValueKind := {
  custom_as_u8 k := match k with
    | Reference => 0x80 | Own => 0x90 | Decimal => 0xa0 | PreciseDecimal => 0xb0
    | NonFungibleLocalId => 0xc0 end;
  custom_from_u8 id := match id with
    | 0x80 => Some Reference | 0x90 => Some Own | 0xa0 => Some Decimal
    | 0xb0 => Some PreciseDecimal | 0xc0 => Some NonFungibleLocalId | _ => None end
}.

Inductive ScryptoCustomValue : Type :=
| SReference (node_id : list Z)
| SOwn (node_id : list Z)
| SDecimal (d : Z)
| SPreciseDecimal (d : Z)
| SNonFungibleLocalId (id : SborCustom.NonFungibleLocalId).

Definition scrypto_kind (v : ScryptoCustomValue) : ScryptoCustomValueKind :=
  match v with
  | SReference _ => Reference
  | SOwn _ => Own
  | SDecimal _ => Decimal
  | SPreciseDecimal _ => PreciseDecimal
  | SNonFungibleLocalId _ => NonFungibleLocalId
  end.

Definition scrypto_encode_body (v : ScryptoCustomValue) : Enc unit :=
  match v with
  | SReference n => encode_body_fixed id n
  | SOwn n => encode_body_fixed id n
  | SDecimal d => encode_body_fixed (wide_to_le_bytes 3) d
  | SPreciseDecimal d => encode_body_fixed (wide_to_le_bytes 4) d
  | SNonFungibleLocalId i => encode_body_common i
  end.

Definition scrypto_decode_body (k : ValueKind ScryptoCustomValueKind) : Dec ScryptoCustomValue :=
  match k with
  | KCustom Reference =>
      SReference <$> decode_body_fixed (array_try_from NODE_ID_LENGTH) (KCustom Reference) NODE_ID_LENGTH k
  | KCustom Own =>
      SOwn <$> decode_body_fixed (array_try_from NODE_ID_LENGTH) (KCustom Own) NODE_ID_LENGTH k
  | KCustom Decimal => SDecimal <$> decode_body_fixed (wide_try_from 24) (KCustom Decimal) 24 k
  | KCustom PreciseDecimal =>
      SPreciseDecimal <$> decode_body_fixed (wide_try_from 32) (KCustom PreciseDecimal) 32 k
  | KCustom NonFungibleLocalId =>
      SNonFungibleLocalId <$>
        (check_preloaded_value_kind k (KCustom NonFungibleLocalId);; decode_body_common)
  | _ => throw (UnexpectedCustomValueKind (as_u8 k))
  end.

#[global] Instance scrypto_custom_value : CustomValue ScryptoCustomValueKind ScryptoCustomValue := {
  get_custom_value_kind := scrypto_kind;
  custom_encode_value_kind v := write_value_kind (KCustom (scrypto_kind v));
  custom_encode_body := scrypto_encode_body;
  custom_decode_body := scrypto_decode_body
}.

Definition scrypto_ok (v : ScryptoCustomValue) : bool :=
  match v with
  | SReference n | SOwn n => array_ok NODE_ID_LENGTH n
  | SDecimal d => in_i 192 d
  | SPreciseDecimal d => in_i 256 d
  | SNonFungibleLocalId i => id_ok i
  end.

Definition scrypto_bytes (v : ScryptoCustomValue) : list Z :=
  match v with
  | SReference n | SOwn n => n
  | SDecimal d => wide_to_le_bytes 3 d
  | SPreciseDecimal d => wide_to_le_bytes 4 d
  | SNonFungibleLocalId i => id_body_bytes i
  end.

#[global, refine] Instance scrypto_laws : CustomValueLaws ScryptoCustomValueKind ScryptoCustomValue := {
  custom_ok := scrypto_ok;
  custom_bytes := scrypto_bytes
}.
Proof.
  - split; [by intros []| |by intros []].
    intros b x Hx. cbn in Hx. repeat (case_match; try discriminate Hx); by injection Hx as <-.
  - done.
  - intros [n|n|d|d|i] dp mx Hok; try apply emits_write. by apply emits_id.
  - intros [n|n|d|d|i] dp mx Hok; cbn in Hok |- *; apply reads_fmap.
    + apply (reads_fixed id); [by apply array_ok_length|by apply array_try_from_ok].
    + apply (reads_fixed id); [by apply array_ok_length|by apply array_try_from_ok].
    + apply (reads_fixed (wide_to_le_bytes 3)); by apply (wide_roundtrip 3); [lia|].
    + apply (reads_fixed (wide_to_le_bytes 4)); by apply (wide_roundtrip 4); [lia|].
    + eapply reads_bind_nil; [apply reads_preloaded|]. by apply reads_id.
  - intros [] dp mx; cbn -[NODE_ID_LENGTH]; apply parses_fmap.
    + eapply parses_mono; [apply (parses_fixed id) with (P := fun n => array_ok NODE_ID_LENGTH n = true);
        apply array_try_from_inv|]. by intros a bs _ (_ & ? & ->).
    + eapply parses_mono; [apply (parses_fixed id) with (P := fun n => array_ok NODE_ID_LENGTH n = true);
        apply array_try_from_inv|]. by intros a bs _ (_ & ? & ->).
    + eapply parses_mono; [apply (parses_fixed (wide_to_le_bytes 3)) with (P := fun d => in_i 192 d = true);
        intros; apply (wide_inv 3); done || lia|]. by intros a bs _ (_ & ? & ->).
    + eapply parses_mono; [apply (parses_fixed (wide_to_le_bytes 4)) with (P := fun d => in_i 256 d = true);
        intros; apply (wide_inv 4); done || lia|]. by intros a bs _ (_ & ? & ->).
    + eapply parses_bind; [apply parses_preloaded|]. cbn beta. intros _ ? _ [-> _].
      eapply parses_mono; [apply parses_id|]. by intros a bs _ [? ->].
Defined.

Definition SCRYPTO_SBOR_V1_PAYLOAD_PREFIX : Z := 0x5c.
Definition SCRYPTO_SBOR_V1_MAX_DEPTH : nat := 64.
Definition ScryptoValue : Type := Value ScryptoCustomValue ScryptoCustomValueKind.

Definition scrypto_encode (v : ScryptoValue) : Exec (Result EncodeError (list Z)) :=
  encode_with_depth_limit SCRYPTO_SBOR_V1_PAYLOAD_PREFIX SCRYPTO_SBOR_V1_MAX_DEPTH v.
Definition scrypto_decode (bs : list Z) : Exec (Result DecodeError ScryptoValue) :=
  decode_with_depth_limit SCRYPTO_SBOR_V1_PAYLOAD_PREFIX SCRYPTO_SBOR_V1_MAX_DEPTH bs.

(** The bytes of custom_value.rs's test of this name. *)
Example test_custom_types_group4 :
  scrypto_encode (VTuple [VCustom (SDecimal (10 ^ 18)); VCustom (SPreciseDecimal (10 ^ 36));
    VCustom (SNonFungibleLocalId (IdInteger 1)); VCustom (SNonFungibleLocalId (IdBytes [2; 3]))]) =
  Done (Ok ([92; 33; 4;
    160; 0; 0; 100; 167; 179; 182; 224; 13; 0; 0; 0; 0; 0; 0; 0; 0; 0; 0; 0; 0; 0; 0; 0; 0;
    176; 0; 0; 0; 0; 16; 159; 75; 179; 21; 7; 201; 123; 206; 151; 192; 0; 0; 0; 0; 0;
    0; 0; 0; 0; 0; 0; 0; 0; 0; 0; 0; 0;
    192; 1; 0; 0; 0; 0; 0; 0; 0; 1;
    192; 2; 2; 2; 3])).
Proof. vm_compute. reflexivity. Qed.

End Scrypto.

(** ** The manifest schema *)

Module Manifest.

Inductive ManifestCustomValueKind : Type :=
| Address | Bucket | Proof | Expression | Blob | Decimal | PreciseDecimal | NonFungibleLocalId
| AddressReservation.

#[global] Instance ManifestCustomValueKind_eq_dec : EqDecision ManifestCustomValueKind.
Proof. solve_decision. Defined.

#[global] Instance manifest_custom_value_kind : CustomValueKind ManifestCustomValueKind := {
  custom_as_u8 k := match k with
    | Address => 0x80 | Bucket => 0x81 | Proof => 0x82 | Expression => 0x83 | Blob => 0x84
    | Decimal => 0x85 | PreciseDecimal => 0x86 | NonFungibleLocalId => 0x87
    | AddressReservation => 0x88 end;
  custom_from_u8 id := match id with
    | 0x80 => Some Address | 0x81 => Some Bucket | 0x82 => Some Proof | 0x83 => Some Expression
    | 0x84 => Some Blob | 0x85 => Some Decimal | 0x86 => Some PreciseDecimal
    | 0x87 => Some NonFungibleLocalId | 0x88 => Some AddressReservation | _ => None end
}.

Inductive ManifestAddress : Type :=
| Static (node_id : list Z)
| Named (id : Z).

Definition encode_body_address (a : ManifestAddress) : Enc unit :=
  match a with
  | Static node_id => write_discriminator 0;; write_slice node_id
  | Named id => write_discriminator 1;; write_slice (to_le_bytes 4 id)
  end.

Definition decode_body_address (k : ValueKind ManifestCustomValueKind) : Dec ManifestAddress :=
  check_preloaded_value_kind k (KCustom Address);;
  discriminator ← read_discriminator;
  match discriminator with
  | 0 =>
      slice ← read_slice (Z.of_nat NODE_ID_LENGTH);
      first ← lift_exec (expect (slice !! 0%nat));
      match from_repr first with
      | None => throw InvalidCustomValue
      | Some _ => n ← lift_exec (copy_u8_array NODE_ID_LENGTH slice); mret (Static n)
      end
  | 1 =>
      slice ← read_slice 4;
      bytes ← lift_exec (copy_u8_array 4 slice);
      mret (Named (u_from_le_bytes bytes))
  | _ => throw InvalidCustomValue
  end.

(** [ManifestBucket], [ManifestProof], [ManifestAddressReservation]: a [u32]. *)
Definition u32_try_from (slice : list Z) : option Z :=
  if (length slice =? 4)%nat then Some (u_from_le_bytes slice) else None.

Inductive ManifestExpression : Type := EntireWorktop | EntireAuthZone.

Definition expression_to_vec (e : ManifestExpression) : list Z :=
  match e with EntireWorktop => [0] | EntireAuthZone => [1] end.

Definition expression_try_from (slice : list Z) : option ManifestExpression :=
  match slice with
  | [0] => Some EntireWorktop
  | [1] => Some EntireAuthZone
  | _ => None
  end.

Inductive ManifestNonFungibleLocalId : Type :=
| MString (s : list Z)
| MInteger (v : Z)
| MBytes (b : list Z)
| MRUID (b : list Z).

(** [ManifestNonFungibleLocalId::string]: the test of each [char] is of each
    byte, since a [char] outside ASCII has only bytes above 0x7F and fails both. *)
Definition mid_string (s : list Z) : option ManifestNonFungibleLocalId :=
  if (length s =? 0)%nat then None
  else if (64 <? length s)%nat then None
  else if forallb id_byte_ok s then Some (MString s) else None.
Definition mid_bytes (s : list Z) : option ManifestNonFungibleLocalId :=
  if (length s =? 0)%nat then None else if (64 <? length s)%nat then None else Some (MBytes s).

Definition encode_body_mid (i : ManifestNonFungibleLocalId) : Enc unit :=
  match i with
  | MString v => write_discriminator 0;; write_size (Z.of_nat (length v));; write_slice v
  | MInteger v => write_discriminator 1;; write_slice (to_be_bytes 8 v)
  | MBytes v => write_discriminator 2;; write_size (Z.of_nat (length v));; write_slice v
  | MRUID v => write_discriminator 3;; write_slice v
  end.

Definition decode_body_mid (k : ValueKind ManifestCustomValueKind) : Dec ManifestNonFungibleLocalId :=
  check_preloaded_value_kind k (KCustom NonFungibleLocalId);;
  discriminator ← read_discriminator;
  match discriminator with
  | 0 =>
      size ← read_size;
      slice ← read_slice size;
      s ← lift_result (ok_or (from_utf8 slice) InvalidCustomValue);
      lift_result (ok_or (mid_string s) InvalidCustomValue)
  | 1 =>
      slice ← read_slice 8;
      bytes ← lift_exec (copy_u8_array 8 slice);
      mret (MInteger (u_from_be_bytes bytes))
  | 2 =>
      size ← read_size;
      slice ← read_slice size;
      lift_result (ok_or (mid_bytes slice) InvalidCustomValue)
  | 3 =>
      slice ← read_slice 32;
      bytes ← lift_exec (copy_u8_array 32 slice);
      mret (MRUID bytes)
  | _ => throw InvalidCustomValue
  end.

Inductive ManifestCustomValue : Type :=
| MAddress (a : ManifestAddress)
| MBucket (id : Z)
| MProof (id : Z)
| MExpression (e : ManifestExpression)
| MBlob (hash : list Z)
| MDecimal (bytes : list Z)
| MPreciseDecimal (bytes : list Z)
| MNonFungibleLocalId (i : ManifestNonFungibleLocalId)
| MAddressReservation (id : Z).

Definition manifest_kind (v : ManifestCustomValue) : ManifestCustomValueKind :=
  match v with
  | MAddress _ => Address | MBucket _ => Bucket | MProof _ => Proof | MExpression _ => Expression
  | MBlob _ => Blob | MDecimal _ => Decimal | MPreciseDecimal _ => PreciseDecimal
  | MNonFungibleLocalId _ => NonFungibleLocalId | MAddressReservation _ => AddressReservation
  end.

Definition manifest_encode_body (v : ManifestCustomValue) : Enc unit :=
  match v with
  | MAddress a => encode_body_address a
  | MBucket i | MProof i | MAddressReservation i => encode_body_fixed (to_le_bytes 4) i
  | MExpression e => encode_body_fixed expression_to_vec e
  | MBlob b | MDecimal b | MPreciseDecimal b => encode_body_fixed id b
  | MNonFungibleLocalId i => encode_body_mid i
  end.

Definition manifest_decode_body (k : ValueKind ManifestCustomValueKind) : Dec ManifestCustomValue :=
  match k with
  | KCustom Address => MAddress <$> decode_body_address k
  | KCustom Blob => MBlob <$> decode_body_fixed (array_try_from 32) (KCustom Blob) 32 k
  | KCustom Bucket => MBucket <$> decode_body_fixed u32_try_from (KCustom Bucket) 4 k
  | KCustom Proof => MProof <$> decode_body_fixed u32_try_from (KCustom Proof) 4 k
  | KCustom Expression => MExpression <$> decode_body_fixed expression_try_from (KCustom Expression) 1 k
  | KCustom Decimal => MDecimal <$> decode_body_fixed (array_try_from 24) (KCustom Decimal) 24 k
  | KCustom PreciseDecimal =>
      MPreciseDecimal <$> decode_body_fixed (array_try_from 32) (KCustom PreciseDecimal) 32 k
  | KCustom NonFungibleLocalId => MNonFungibleLocalId <$> decode_body_mid k
  | KCustom AddressReservation =>
      MAddressReservation <$> decode_body_fixed u32_try_from (KCustom AddressReservation) 4 k
  | _ => throw (UnexpectedCustomValueKind (as_u8 k))
  end.

#[global] Instance manifest_custom_value : CustomValue ManifestCustomValueKind ManifestCustomValue := {
  get_custom_value_kind := manifest_kind;
  custom_encode_value_kind v := write_value_kind (KCustom (manifest_kind v));
  custom_encode_body := manifest_encode_body;
  custom_decode_body := manifest_decode_body
}.

Definition address_ok (a : ManifestAddress) : bool :=
  match a with
  | Static n => array_ok NODE_ID_LENGTH n &&
      match n with b :: _ => bool_decide (is_Some (from_repr b)) | [] => false end
  | Named id => in_u 32 id
  end.

Definition mid_ok (i : ManifestNonFungibleLocalId) : bool :=
  match i with
  | MString s => bool_decide (is_Some (mid_string s))
  | MInteger v => in_u 64 v
  | MBytes b => bytes_ok b && bool_decide (is_Some (mid_bytes b))
  | MRUID b => array_ok 32 b
  end.

Definition manifest_ok (v : ManifestCustomValue) : bool :=
  match v with
  | MAddress a => address_ok a
  | MBucket i | MProof i | MAddressReservation i => in_u 32 i
  | MExpression _ => true
  | MBlob b | MPreciseDecimal b => array_ok 32 b
  | MDecimal b => array_ok 24 b
  | MNonFungibleLocalId i => mid_ok i
  end.

Definition address_bytes (a : ManifestAddress) : list Z :=
  match a with Static n => [0] ++ n | Named id => [1] ++ to_le_bytes 4 id end.

Definition mid_body_bytes (i : ManifestNonFungibleLocalId) : list Z :=
  match i with
  | MString v => [0] ++ size_bytes (Z.of_nat (length v)) ++ v
  | MInteger v => [1] ++ to_be_bytes 8 v
  | MBytes v => [2] ++ size_bytes (Z.of_nat (length v)) ++ v
  | MRUID v => [3] ++ v
  end.

Definition manifest_bytes (v : ManifestCustomValue) : list Z :=
  match v with
  | MAddress a => address_bytes a
  | MBucket i | MProof i | MAddressReservation i => to_le_bytes 4 i
  | MExpression e => expression_to_vec e
  | MBlob b | MDecimal b | MPreciseDecimal b => b
  | MNonFungibleLocalId i => mid_body_bytes i
  end.

Lemma u32_roundtrip z : in_u 32 z = true ->
  length (to_le_bytes 4 z) = 4%nat /\ u32_try_from (to_le_bytes 4 z) = Some z.
Proof.
  intros Hz%in_u_spec. split; [apply length_to_le_bytes|]. unfold u32_try_from.
  rewrite length_to_le_bytes, u_from_to_small by exact Hz. done.
Qed.

Lemma u32_inv bs z : bytes_ok bs = true -> length bs = 4%nat -> u32_try_from bs = Some z ->
  in_u 32 z = true /\ bs = to_le_bytes 4 z.
Proof.
  intros Hb Hl. unfold u32_try_from. rewrite Hl. intros [= <-].
  pose proof (u_from_le_bytes_bound bs Hb) as Hbd. rewrite Hl in Hbd.
  rewrite <- Hl, u_to_from_le_bytes by done. split; [|done].
  apply in_u_spec. change (u_max 32) with (2 ^ (8 * Z.of_nat 4) - 1). lia.
Qed.

Lemma mid_string_Some s i : mid_string s = Some i ->
  i = MString s /\ (0 < length s <= 64)%nat /\ is_utf8 s = true.
Proof.
  unfold mid_string. destruct (Nat.eqb_spec (length s) 0) as [|Hne]; [done|].
  destruct (Nat.ltb_spec 64 (length s)) as [|Hl]; [done|].
  destruct (forallb id_byte_ok s) eqn:E; [|done]. intros [= <-].
  split_and!; [done|lia|lia|by apply id_bytes_utf8].
Qed.

Lemma mid_bytes_Some s i : mid_bytes s = Some i -> i = MBytes s /\ (0 < length s <= 64)%nat.
Proof.
  unfold mid_bytes. destruct (Nat.eqb_spec (length s) 0) as [|Hne]; [done|].
  destruct (Nat.ltb_spec 64 (length s)) as [|Hl]; [done|]. intros [= <-].
  split_and!; [done|lia|lia].
Qed.

Lemma emits_mid dp mx i : mid_ok i = true -> emits (encode_body_mid i) dp mx (mid_body_bytes i).
Proof.
  intros Hok. destruct i as [s|v|b|b]; cbn [mid_ok encode_body_mid mid_body_bytes] in *;
    (apply emits_bind; [apply emits_write|]); try apply emits_write;
    (apply emits_bind; [apply emits_size|apply emits_write]); unfold MAX_SIZE.
  - apply bool_decide_eq_true in Hok as [i Hi]. apply mid_string_Some in Hi. lia.
  - zbool. rewrite bool_decide_eq_true in *. destruct H0 as [i Hi]. apply mid_bytes_Some in Hi. lia.
Qed.

Lemma reads_mid dp mx i : mid_ok i = true ->
  reads (decode_body_mid (KCustom NonFungibleLocalId)) dp mx (mid_body_bytes i) i.
Proof.
  intros Hok. eapply reads_bind_nil; [apply reads_preloaded|].
  destruct i as [s|v|b|b]; cbn [mid_ok mid_body_bytes] in *;
    (eapply reads_bind; [apply reads_byte|]); cbv beta iota.
  - apply bool_decide_eq_true in Hok as [i Hi]. pose proof (mid_string_Some _ _ Hi) as (-> & Hl & Hu).
    eapply reads_bind; [apply reads_size; unfold MAX_SIZE; lia|].
    eapply reads_bind_last; [by apply reads_slice|].
    eapply reads_bind_nil; [unfold from_utf8; rewrite Hu; apply reads_ret|].
    rewrite Hi. apply reads_ret.
  - eapply reads_bind_last; [apply reads_slice; by rewrite length_to_be_bytes|].
    eapply reads_bind_nil;
      [unfold copy_u8_array; rewrite length_to_be_bytes; apply reads_ret|].
    rewrite in_u_spec in Hok. rewrite u_from_to_be_small by exact Hok. apply reads_ret.
  - apply andb_true_iff in Hok as [_ [i Hi]%bool_decide_eq_true].
    pose proof (mid_bytes_Some _ _ Hi) as (-> & Hl).
    eapply reads_bind; [apply reads_size; unfold MAX_SIZE; lia|].
    eapply reads_bind_last; [by apply reads_slice|]. rewrite Hi. apply reads_ret.
  - pose proof (array_ok_length _ _ Hok) as Hl.
    eapply reads_bind_last; [apply reads_slice; by rewrite Hl|].
    unfold copy_u8_array. rewrite Hl. apply reads_ret.
Qed.

Lemma parses_copy dp mx n bs : length bs = n ->
  parses (lift_exec (copy_u8_array n bs)) dp mx (fun a bs' => a = bs /\ bs' = []).
Proof.
  intros <-. unfold copy_u8_array. rewrite Nat.eqb_refl. by apply parses_ret.
Qed.

Lemma parses_utf8 dp mx bs :
  parses (lift_result (ok_or (from_utf8 bs) InvalidCustomValue)) dp mx (fun a bs' => a = bs /\ bs' = []).
Proof. unfold from_utf8. destruct (is_utf8 bs); [by apply parses_ret | apply parses_throw]. Qed.

Lemma parses_mid dp mx :
  parses (decode_body_mid (KCustom NonFungibleLocalId)) dp mx
    (fun i bs => mid_ok i = true /\ bs = mid_body_bytes i).
Proof.
  eapply parses_bind; [apply parses_preloaded|]. cbn beta. intros _ ? _ [-> _].
  eapply parses_bind; [apply parses_byte|]. cbn beta. intros b ? _ [-> _].
  destruct b as [|[[|[]|]|[|[]|]|]|]; try apply parses_throw.
  - eapply parses_bind; [apply parses_size|]. cbn beta. intros n ? _ [Hn ->].
    eapply parses_bind; [apply parses_slice; lia|]. cbn beta. intros s bs Hb [-> Hl].
    eapply parses_bind; [apply parses_utf8|]. cbn beta. intros a ? _ [-> ->].
    destruct (mid_string bs) as [i|] eqn:E; [|apply parses_throw].
    apply parses_ret. pose proof (mid_string_Some _ _ E) as (-> & _ & _). cbn.
    rewrite E, app_nil_r, Hl. done.
  - eapply parses_bind; [apply parses_slice; lia|]. cbn beta. intros s bs Hb [-> Hl].
    eapply parses_bind; [apply parses_copy; lia|]. cbn beta. intros a ? _ [-> ->].
    apply parses_ret. cbn. unfold array_ok. rewrite Hb, !app_nil_r.
    replace (length bs) with 32%nat by lia. done.
  - eapply parses_bind; [apply parses_size|]. cbn beta. intros n ? _ [Hn ->].
    eapply parses_bind; [apply parses_slice; lia|]. cbn beta. intros s bs Hb [-> Hl].
    destruct (mid_bytes bs) as [i|] eqn:E; [|apply parses_throw].
    apply parses_ret. pose proof (mid_bytes_Some _ _ E) as (-> & _). cbn.
    rewrite E, Hb, app_nil_r, Hl. done.
  - eapply parses_bind; [apply parses_slice; lia|]. cbn beta. intros s bs Hb [-> Hl].
    eapply parses_bind; [apply parses_copy; lia|]. cbn beta. intros a ? _ [-> ->].
    assert (length bs = 8%nat) as Hl' by lia.
    apply parses_ret. cbn [mid_ok mid_body_bytes]. rewrite !app_nil_r.
    pose proof (u_from_be_bytes_bound bs Hb) as Hbd. rewrite Hl' in Hbd.
    rewrite <- Hl', u_to_from_be_bytes by done. split; [by apply in_u_spec|done].
Qed.

Lemma reads_address dp mx a : address_ok a = true ->
  reads (decode_body_address (KCustom Address)) dp mx (address_bytes a) a.
Proof.
  intros Hok. eapply reads_bind_nil; [apply reads_preloaded|].
  destruct a as [n|z]; cbn [address_ok address_bytes] in *;
    (eapply reads_bind; [apply reads_byte|]); cbv beta iota.
  - apply andb_true_iff in Hok as [Hn Hr]. pose proof (array_ok_length _ _ Hn) as Hl.
    eapply reads_bind_last; [apply reads_slice; by rewrite Hl|].
    destruct n as [|b n]; [done|]. apply bool_decide_eq_true in Hr as [t Ht].
    eapply reads_bind_nil; [apply reads_ret|]. rewrite Ht.
    eapply reads_bind_nil; [|apply reads_ret]. unfold copy_u8_array. rewrite Hl. apply reads_ret.
  - pose proof (length_to_le_bytes 4 z) as Hl. apply in_u_spec in Hok.
    pose proof (u_from_to_small 4 z Hok) as Hz.
    eapply reads_bind_last; [apply reads_slice; by rewrite Hl|].
    eapply reads_bind_nil; [unfold copy_u8_array; rewrite Hl; apply reads_ret|].
    rewrite Hz. apply reads_ret.
Qed.

Lemma parses_address dp mx :
  parses (decode_body_address (KCustom Address)) dp mx
    (fun a bs => address_ok a = true /\ bs = address_bytes a).
Proof.
  eapply parses_bind; [apply parses_preloaded|]. cbn beta. intros _ ? _ [-> _].
  eapply parses_bind; [apply parses_byte|]. cbn beta. intros b ? _ [-> _].
  destruct b as [|[]|]; try apply parses_throw.
  - eapply parses_bind; [apply parses_slice; lia|]. cbn beta. intros s bs Hb [-> Hl%Nat2Z.inj].
    destruct bs as [|b bs]; [done|].
    eapply parses_bind; [by apply (parses_ret _ _ _ (fun a bs' => a = b /\ bs' = []))|].
    cbn beta. intros a ? _ [-> ->]. destruct (from_repr b) as [t|] eqn:E; [|apply parses_throw].
    eapply parses_bind; [by apply parses_copy|]. cbn beta. intros a ? _ [-> ->].
    apply parses_ret. cbn [address_ok address_bytes]. unfold array_ok.
    rewrite E, Hl, Hb, !app_nil_r. done.
  - eapply parses_bind; [apply parses_slice; lia|]. cbn beta. intros s bs Hb [-> Hl].
    assert (length bs = 4%nat) as Hl' by lia.
    eapply parses_bind; [by apply parses_copy|]. cbn beta. intros a ? _ [-> ->].
    apply parses_ret. cbn [address_ok address_bytes]. rewrite !app_nil_r.
    destruct (u32_inv bs (u_from_le_bytes bs) Hb Hl') as [Hz Hbs];
      [by unfold u32_try_from; rewrite Hl'|]. by rewrite <- Hbs.
Qed.

Lemma parses_as {A} dp mx (m : Dec A) (C : A -> ManifestCustomValue) k
    (P : A -> Prop) (g : A -> list Z) own :
  parses m dp mx (fun a bs => KCustom k = own /\ P a /\ bs = g a) ->
  (forall a, P a -> manifest_ok (C a) = true) -> (forall a, manifest_kind (C a) = k) ->
  (forall a, manifest_bytes (C a) = g a) ->
  parses (C <$> m) dp mx
    (fun y bs => manifest_ok y = true /\ manifest_kind y = k /\ bs = manifest_bytes y).
Proof.
  intros Hm Hok Hk Hb. apply parses_fmap. eapply parses_mono; [exact Hm|].
  cbn beta. intros a bs _ (_ & HP & ->). rewrite Hk, Hb. auto.
Qed.

#[global, refine] Instance manifest_laws :
    CustomValueLaws ManifestCustomValueKind ManifestCustomValue := {
  custom_ok := manifest_ok;
  custom_bytes := manifest_bytes
}.
Proof.
  - split; [by intros []| |by intros []].
    intros b x Hx. cbn in Hx. repeat (case_match; try discriminate Hx); by injection Hx as <-.
  - done.
  - intros [[]| | | | | | | | ] dp mx Hok; try apply emits_write; try by apply emits_mid.
    all: apply emits_bind; apply emits_write.
  - intros [a|z|z|e|b|b|b|i|z] dp mx Hok; cbn in Hok |- *; apply reads_fmap.
    1: by apply reads_address.
    1,2,8: by apply (reads_fixed (to_le_bytes 4)); apply u32_roundtrip.
    2,3,4: apply (reads_fixed id); [by apply array_ok_length|by apply array_try_from_ok].
    2: by apply reads_mid.
    by apply (reads_fixed expression_to_vec); destruct e.
  - intros [] dp mx; cbn [custom_decode_body manifest_custom_value manifest_decode_body].
    2,3,9: eapply (parses_as _ _ _ _ _ (fun z => in_u 32 z = true) (to_le_bytes 4)); try done;
      apply parses_fixed; apply u32_inv.
    3,5: eapply (parses_as _ _ _ _ _ (fun b => array_ok 32 b = true) id); try done;
      apply parses_fixed; apply array_try_from_inv.
    3: eapply (parses_as _ _ _ _ _ (fun b => array_ok 24 b = true) id); try done;
      apply parses_fixed; apply array_try_from_inv.
    + apply parses_fmap. eapply parses_mono; [apply parses_address|]. by intros a bs _ [? ->].
    + eapply (parses_as _ _ _ _ _ (fun _ => True) expression_to_vec); try done.
      apply parses_fixed. intros bs e _ Hl. destruct bs as [|b [|]]; try done.
      cbn. by destruct b as [|[]|]; intros; simplify_eq.
    + apply parses_fmap. eapply parses_mono; [apply parses_mid|]. by intros a bs _ [? ->].
Defined.

Definition MANIFEST_SBOR_V1_PAYLOAD_PREFIX : Z := 0x4d.
Definition MANIFEST_SBOR_V1_MAX_DEPTH : nat := 24.
Definition ManifestValue : Type := Value ManifestCustomValue ManifestCustomValueKind.

Definition manifest_encode (v : ManifestValue) : Exec (Result EncodeError (list Z)) :=
  encode_with_depth_limit MANIFEST_SBOR_V1_PAYLOAD_PREFIX MANIFEST_SBOR_V1_MAX_DEPTH v.
Definition manifest_decode (bs : list Z) : Exec (Result DecodeError ManifestValue) :=
  decode_with_depth_limit MANIFEST_SBOR_V1_PAYLOAD_PREFIX MANIFEST_SBOR_V1_MAX_DEPTH bs.

End Manifest.

(** ** Theorems *)

Module SborCustomTheorems.
Import SborTheory Scrypto Manifest.

(** C37. The payloads of the ledger round-trip and are canonical: a byte string
    decodes to a Scrypto value exactly when that value, with ranges and ids as
    the source's types have them, encodes to that byte string; the same holds
    for manifest values, whose static addresses must start with the byte of a
    known entity type. *)
Theorem ledger_payloads_roundtrip (bs : list Z) (Hbs : bytes_ok bs = true) :
  (forall v, scrypto_decode bs = Done (Ok v) <->
     value_ok v = true /\ scrypto_encode v = Done (Ok bs)) /\
  (forall v, manifest_decode bs = Done (Ok v) <->
     value_ok v = true /\ manifest_encode v = Done (Ok bs)).
Proof. split; intros v; by apply decode_limit_iff. Qed.

Definition scrypto_sample : ScryptoValue :=
  VTuple [VCustom (SOwn (152 :: replicate 29 7)); VCustom (SDecimal (-1));
          VArray (KCustom Scrypto.NonFungibleLocalId)
            [VCustom (SNonFungibleLocalId (IdString [97; 95; 49]));
             VCustom (SNonFungibleLocalId (IdInteger 258))]].

Definition scrypto_sample_bytes : list Z :=
  [0x5c; 0x21; 3; 0x90; 152] ++ replicate 29 7 ++ 0xa0 :: replicate 24 255 ++
  [0x20; 0xc0; 2; 0; 3; 97; 95; 49; 1; 0; 0; 0; 0; 0; 0; 1; 2].

Lemma ledger_payloads_roundtrip_witness :
  bytes_ok scrypto_sample_bytes = true /\
  scrypto_decode scrypto_sample_bytes = Done (Ok scrypto_sample) /\
  manifest_decode [0x4d; 0x80; 1; 2; 0; 0; 0] = Done (Ok (VCustom (MAddress (Named 2)))).
Proof.
  split; [reflexivity|]. split.
  - apply (proj1 (ledger_payloads_roundtrip scrypto_sample_bytes eq_refl)).
    split; vm_compute; reflexivity.
  - apply (proj2 (ledger_payloads_roundtrip [0x4d; 0x80; 1; 2; 0; 0; 0] eq_refl)).
    split; vm_compute; reflexivity.
Defined.

(** A static address of no known entity type can be encoded and not decoded. *)
Example unknown_entity_type_refused :
  manifest_decode ([0x4d; 0x80; 0; 1] ++ replicate 29 7) = Done (Err InvalidCustomValue) /\
  manifest_encode (VCustom (MAddress (Static (1 :: replicate 29 7)))) =
    Done (Ok ([0x4d; 0x80; 0; 1] ++ replicate 29 7)).
Proof. split; vm_compute; reflexivity. Qed.

End SborCustomTheorems.
