(* ===== verification/NonFungibleIds.v ===== *)
(** * The text of non-fungible ids

    [FromStr] and [Display] of [NonFungibleLocalId]
    (radix-common/src/data/scrypto/model/non_fungible_local_id.rs).  The hex
    crate is a parameter: [hex_encode] and [hex_decode] with what its
    documentation says of them as hypotheses. *)

From S2P Require Import Prelude Bytes Decimals Time Text Sbor SborCustom.
Import Int Str DateText.

(** [str::as_bytes] *)
Definition utf8_bytes (c : Z) : list Z :=
  if c <? 0x80 then [c]
  else if c <? 0x800 then [0xC0 + c / 64; 0x80 + c mod 64]
  else if c <? 0x10000 then [0xE0 + c / 4096; 0x80 + c / 64 mod 64; 0x80 + c mod 64]
  else [0xF0 + c / 262144; 0x80 + c / 4096 mod 64; 0x80 + c / 64 mod 64; 0x80 + c mod 64].
Definition as_bytes (s : Str) : list Z := s ≫= utf8_bytes.

Definition starts_with (c : Z) (s : Str) : bool :=
  match s with x :: _ => x =? c | [] => false end.
Definition ends_with (c : Z) (s : Str) : bool :=
  match last s with Some x => x =? c | None => false end.

Definition is_canonically_formatted_integer (ds : Str) : bool :=
  if decide (ds = lit "0") then true
  else match ds with
       | [] => false
       | first_char :: chars => in_range 49 57 first_char && forallb (in_range 48 57) chars
       end.

Inductive ParseNonFungibleLocalIdError : Type :=
| UnknownType | InvalidInteger | InvalidBytes | InvalidRUID
| InvalidContent (e : ContentValidationError).

(** [map_err(f)?] *)
Definition content {A} (r : Result ContentValidationError A) :
    Result ParseNonFungibleLocalIdError A :=
  match r with Ok a => Ok a | Err e => Err (InvalidContent e) end.

Section Text.
Context (hex_encode : list Z -> Str) (hex_decode : Str -> option (list Z)).

(** [&s[1..s.len() - 1]] *)
Definition inner (s : Str) : Exec Str := slice s 1 (byte_len s - 1).

Definition char_at (s : Str) (i : nat) (c : Z) : bool := bool_decide (s !! i = Some c).

Definition ruid_from_str (chars : Str) : Exec (Result ParseNonFungibleLocalIdError NonFungibleLocalId) :=
  if (length chars =? 67)%nat && char_at chars 16 45 && char_at chars 33 45 && char_at chars 50 45
  then
    let hyphen_stripped := List.filter (fun c => negb (c =? 45)) chars in
    if byte_len hyphen_stripped =? 64 then
      match hex_decode hyphen_stripped with
      | None => Done (Err InvalidRUID)
      | Some b => b ← copy_u8_array 32 b; Done (Ok (IdRUID b))
      end
    else Done (Err InvalidRUID)
  else Done (Err InvalidRUID).

Definition id_from_str (s : Str) : Exec (Result ParseNonFungibleLocalIdError NonFungibleLocalId) :=
  if starts_with 60 s && ends_with 62 s then
    t ← inner s; Done (content (id_string (as_bytes t)))
  else if (1 <? byte_len s) && starts_with 35 s && ends_with 35 s then
    ds ← inner s;
    if is_canonically_formatted_integer ds then
      t ← inner s;
      Done (v ← ok_or (parse_u 64 t) InvalidInteger; Ok (id_integer v))
    else Done (Err InvalidInteger)
  else if starts_with 91 s && ends_with 93 s then
    t ← inner s; Done (b ← ok_or (hex_decode t) InvalidBytes; content (id_bytes b))
  else if starts_with 123 s && ends_with 125 s then
    t ← inner s; ruid_from_str t
  else Done (Err UnknownType).

(** The content of a string id is ASCII, so its bytes are its characters. *)
Definition id_to_string (i : NonFungibleLocalId) : Exec Str :=
  match i with
  | IdString v => Done ([60] ++ v ++ [62])
  | IdInteger v => Done ([35] ++ print_int v ++ [35])
  | IdBytes v => Done ([91] ++ hex_encode v ++ [93])
  | IdRUID v =>
      let hex := hex_encode v in
      a ← slice hex 0 16; b ← slice hex 16 32; c ← slice hex 32 48; d ← slice hex 48 64;
      Done ([123] ++ a ++ [45] ++ b ++ [45] ++ c ++ [45] ++ d ++ [125])
  end.

(** Documented behaviour of the hex crate: two lower-case digits per byte;
    decoding reads back what is encoded and halves the length. *)
Definition is_hex (c : Z) : bool := in_range 48 57 c || in_range 97 102 c.

Record hex_crate : Prop := {
  hex_digits : forall b, bytes_ok b = true ->
    forallb is_hex (hex_encode b) = true /\ length (hex_encode b) = (2 * length b)%nat;
  hex_roundtrip : forall b, bytes_ok b = true -> hex_decode (hex_encode b) = Some b;
  hex_decoded : forall s b, hex_decode s = Some b ->
    bytes_ok b = true /\ byte_len s = 2 * Z.of_nat (length b)
}.

(** ** Lemmas *)

Lemma byte_len_app s t : byte_len (s ++ t) = byte_len s + byte_len t.
Proof. unfold byte_len. rewrite foldr_app. induction s as [|c s IH]; cbn; lia. Qed.

Lemma utf8_len_pos c : 1 <= utf8_len c.
Proof. unfold utf8_len. repeat case_match; lia. Qed.

Lemma byte_len_nonneg s : 0 <= byte_len s.
Proof. induction s as [|c s IH]; cbn; [lia|]. pose proof (utf8_len_pos c). fold (byte_len s). lia. Qed.

Lemma slice_to_prefix s t : slice_to (s ++ t) (byte_len s) = Done s.
Proof.
  induction s as [|c s IH]; [by destruct t|]. cbn [app slice_to byte_len foldr]. fold (byte_len s).
  pose proof (utf8_len_pos c). pose proof (byte_len_nonneg s).
  rewrite (proj2 (Z.eqb_neq _ _)), (proj2 (Z.ltb_ge _ _)) by lia.
  replace (utf8_len c + byte_len s - utf8_len c) with (byte_len s) by lia. by rewrite IH.
Qed.

(** A string between two ASCII characters. *)
Lemma inner_between a s b : a < 128 -> b < 128 -> inner ([a] ++ s ++ [b]) = Done s.
Proof.
  intros Ha Hb. unfold inner, slice. rewrite !byte_len_app. cbn [byte_len foldr].
  unfold utf8_len at 1 2. rewrite !(proj2 (Z.ltb_lt _ _)) by done.
  cbn [app slice_from]. rewrite (proj2 (Z.eqb_neq 1 0)), (proj2 (Z.ltb_ge 1 0)) by lia.
  unfold utf8_len at 1. rewrite (proj2 (Z.ltb_lt a 128)) by done.
  assert (slice_from (s ++ [b]) (1 - 1) = Done (s ++ [b])) as -> by (by destruct s).
  cbn [mbind Exec_bind]. replace (_ - 1 - 1) with (byte_len s) by lia. apply slice_to_prefix.
Qed.

Lemma ends_with_snoc s b c : ends_with c (s ++ [b]) = (b =? c).
Proof. unfold ends_with. by rewrite last_snoc. Qed.

(** A string that starts and ends with different characters, or is longer than
    one byte, has a middle. *)
Lemma between_split a b s : a <> b \/ 1 < byte_len s -> 0 <= a < 128 ->
  starts_with a s && ends_with b s = true -> exists t, s = [a] ++ t ++ [b].
Proof.
  intros Hne Ha [Hs He]%andb_true_iff. destruct s as [|x s]; [done|]. cbn in Hs. zbool. subst x.
  destruct (decide (s = [])) as [->|Hnil].
  - cbn in He. zbool. destruct Hne as [|Hl]; [done|]. cbn in Hl. unfold utf8_len in Hl.
    rewrite (proj2 (Z.ltb_lt _ _)) in Hl by lia. lia.
  - destruct (exists_last Hnil) as (t & x & ->). exists t. unfold ends_with in He.
    rewrite (app_assoc [a] t [x] : a :: t ++ [x] = _), last_snoc in He. zbool. by subst x.
Qed.

Lemma ends_with_mid a s b c : ends_with c ([a] ++ s ++ [b]) = (b =? c).
Proof. rewrite app_assoc. apply ends_with_snoc. Qed.

Lemma is_hex_facts c : is_hex c = true -> 0 <= c < 128 /\ c <> 45.
Proof.
  unfold is_hex, in_range. rewrite orb_true_iff, !andb_true_iff, !Z.leb_le. lia.
Qed.

Lemma hex_ascii s : forallb is_hex s = true -> ascii_str s = true.
Proof.
  unfold ascii_str. rewrite !forallb_forall. intros Hs x Hx. apply Z.ltb_lt.
  apply is_hex_facts, Hs, Hx.
Qed.

Lemma byte_len_ascii s : ascii_str s = true -> byte_len s = Z.of_nat (length s).
Proof.
  induction s as [|c s IH]; [done|]. cbn [ascii_str forallb]. rewrite andb_true_iff. intros [Hc Hs].
  cbn [byte_len foldr length]. fold (byte_len s). rewrite IH by done.
  unfold utf8_len. rewrite Hc. lia.
Qed.

Lemma as_bytes_ascii s : ascii_str s = true -> as_bytes s = s.
Proof.
  induction s as [|c s IH]; [done|]. cbn [ascii_str forallb]. rewrite andb_true_iff. intros [Hc Hs].
  unfold as_bytes. rewrite bind_cons. fold (as_bytes s). rewrite IH by done.
  unfold utf8_bytes. by rewrite Hc.
Qed.

Lemma id_bytes_ascii s : forallb id_byte_ok s = true -> ascii_str s = true.
Proof.
  unfold ascii_str. rewrite !forallb_forall. intros Hs x Hx%Hs%id_byte_ascii.
  unfold in_range in Hx. zbool. apply Z.ltb_lt. lia.
Qed.

(** *** Printed integers are canonical *)

Lemma digits_fuel_head f n : 0 < n -> n < 10 * 2 ^ Z.of_nat f ->
  exists c s, digits_fuel f n = c :: s /\ 49 <= c <= 57 /\ forallb is_digit s = true.
Proof.
  revert n. induction f as [|f IH]; intros n H0 Hn; cbn [digits_fuel]; destruct (n <? 10) eqn:E; zbool.
  - exists (48 + n), []. split_and!; [done|lia|lia|done].
  - cbn in Hn. lia.
  - exists (48 + n), []. split_and!; [done|lia|lia|done].
  - rewrite Nat2Z.inj_succ, Z.pow_succ_r in Hn by lia.
    destruct (IH (n / 10)) as (c & s & -> & Hc & Hs);
      [apply Z.div_str_pos; lia|apply Z.div_lt_upper_bound; lia|].
    exists c, (s ++ [48 + n mod 10]). split_and!; [done|lia|lia|].
    rewrite forallb_app, Hs. cbn. pose proof (Z.mod_pos_bound n 10 ltac:(lia)).
    unfold is_digit. rewrite !(proj2 (Z.leb_le _ _)) by lia. done.
Qed.

Lemma printed_canonical n : 0 <= n -> is_canonically_formatted_integer (print_int n) = true.
Proof.
  intros Hn. unfold print_int. rewrite (proj2 (Z.ltb_ge n 0)) by done.
  destruct (decide (n = 0)) as [->|Hne]; [done|].
  destruct (digits_fuel_head (Z.to_nat (Z.log2 n)) n) as (c & s & Hd & Hc & Hs); [lia| |].
  { rewrite Z2Nat.id by apply Z.log2_nonneg. pose proof (Z.log2_spec n ltac:(lia)) as Hl.
    rewrite Z.pow_succ_r in Hl by apply Z.log2_nonneg. lia. }
  unfold is_canonically_formatted_integer, digits. rewrite Hd. case_decide; [done|].
  unfold in_range. rewrite !(proj2 (Z.leb_le _ _)) by lia. exact Hs.
Qed.

Section Laws.
Context (HX : hex_crate).

Lemma ruid_layout v : array_ok 32 v = true ->
  exists a b c d, hex_encode v = a ++ b ++ c ++ d /\
    length a = 16%nat /\ length b = 16%nat /\ length c = 16%nat /\ length d = 16%nat /\
    id_to_string (IdRUID v) = Done ([123] ++ (a ++ [45] ++ b ++ [45] ++ c ++ [45] ++ d) ++ [125]).
Proof.
  intros Hv. pose proof (array_ok_length _ _ Hv) as Hl. apply andb_true_iff in Hv as [_ Hb].
  destruct (hex_digits HX v Hb) as [Hh Hhl]. rewrite Hl in Hhl.
  set (h := hex_encode v) in *. cbn in Hhl.
  exists (take 16 h), (take 16 (drop 16 h)), (take 16 (drop 32 h)), (drop 48 h).
  assert (h = take 16 h ++ take 16 (drop 16 h) ++ take 16 (drop 32 h) ++ drop 48 h) as Hcat.
  { change (drop 48 h) with (drop (32 + 16) h). rewrite <- (drop_drop h 16 32), take_drop.
    change (drop 32 h) with (drop (16 + 16) h). by rewrite <- (drop_drop h 16 16), !take_drop. }
  split; [done|]. rewrite !length_take, !length_drop, Hhl. split_and!; try done.
  assert (forall p q, p ++ q = h -> ascii_str p = true) as Hasc.
  { intros p q Hpq. apply hex_ascii. rewrite <- Hpq, forallb_app in Hh. by zbool. }
  assert (forall i n, (i + n <= 64)%nat ->
    slice h (Z.of_nat i) (Z.of_nat (i + n)) = Done (take n (drop i h))) as Hsl.
  { intros i n Hin. unfold slice. rewrite <- (take_drop i h) at 1.
    replace (Z.of_nat i) with (Z.of_nat (length (take i h))) at 1 by (rewrite length_take; lia).
    rewrite slice_from_ascii by (eapply Hasc, take_drop). cbn [mbind Exec_bind].
    rewrite <- (take_drop n (drop i h)) at 1.
    replace (Z.of_nat (i + n) - Z.of_nat i) with (Z.of_nat (length (take n (drop i h))))
      by (rewrite length_take, length_drop; lia).
    apply slice_to_ascii. apply hex_ascii. rewrite <- (take_drop i h), forallb_app in Hh.
    apply andb_true_iff in Hh as [_ Hh]. rewrite <- (take_drop n (drop i h)), forallb_app in Hh.
    by zbool. }
  cbn [id_to_string]. fold h.
  rewrite (Hsl 0%nat 16%nat ltac:(lia) : slice h 0 16 = _),
    (Hsl 16%nat 16%nat ltac:(lia) : slice h 16 32 = _),
    (Hsl 32%nat 16%nat ltac:(lia) : slice h 32 48 = _),
    (Hsl 48%nat 16%nat ltac:(lia) : slice h 48 64 = _).
  cbn [mbind Exec_bind]. rewrite drop_0, (take_ge (drop 48 h)) by (rewrite length_drop; lia).
  by rewrite <- !app_assoc.
Qed.

Lemma filter_hex s : forallb is_hex s = true -> List.filter (fun c => negb (c =? 45)) s = s.
Proof.
  induction s as [|c s IH]; [done|]. cbn [forallb List.filter]. rewrite andb_true_iff.
  intros [Hc Hs]. apply is_hex_facts in Hc as [_ Hc]. rewrite (proj2 (Z.eqb_neq c 45) Hc).
  cbn [negb]. by rewrite IH.
Qed.

Lemma ruid_parses v a b c d : array_ok 32 v = true -> hex_encode v = a ++ b ++ c ++ d ->
  length a = 16%nat -> length b = 16%nat -> length c = 16%nat -> length d = 16%nat ->
  ruid_from_str (a ++ [45] ++ b ++ [45] ++ c ++ [45] ++ d) = Done (Ok (IdRUID v)).
Proof.
  intros Hv Hcat La Lb Lc Ld. unfold ruid_from_str, char_at.
  pose proof (array_ok_length _ _ Hv) as Hl. apply andb_true_iff in Hv as [_ Hb].
  destruct (hex_digits HX v Hb) as [Hh Hhl].
  assert (length (a ++ [45] ++ b ++ [45] ++ c ++ [45] ++ d) = 67%nat) as ->
    by (rewrite !length_app, La, Lb, Lc, Ld; done).
  set (L := a ++ [45] ++ b ++ [45] ++ c ++ [45] ++ d).
  assert (L !! 16%nat = Some 45) as H16 by (by apply list_lookup_middle).
  assert (L !! 33%nat = Some 45) as H33.
  { replace L with ((a ++ [45] ++ b) ++ 45 :: (c ++ [45] ++ d)) by (unfold L; by rewrite <- !app_assoc).
    apply list_lookup_middle. by rewrite !length_app, La, Lb. }
  assert (L !! 50%nat = Some 45) as H50.
  { replace L with ((a ++ [45] ++ b ++ [45] ++ c) ++ 45 :: d) by (unfold L; by rewrite <- !app_assoc).
    apply list_lookup_middle. by rewrite !length_app, La, Lb, Lc. }
  rewrite !bool_decide_true by done.
  cbn [andb Nat.eqb].
  assert (List.filter (fun x => negb (x =? 45)) L = hex_encode v) as ->.
  { unfold L. cbn [app]. rewrite Hcat in *. rewrite !forallb_app in Hh. zbool.
    rewrite List.filter_app. cbn [List.filter Z.eqb negb Pos.eqb].
    rewrite List.filter_app. cbn [List.filter Z.eqb negb Pos.eqb].
    rewrite List.filter_app. cbn [List.filter Z.eqb negb Pos.eqb].
    by rewrite !filter_hex. }
  rewrite (byte_len_ascii _ (hex_ascii _ Hh)), Hhl, Hl. cbn [Z.eqb]. rewrite hex_roundtrip by done.
  unfold copy_u8_array. by rewrite Hl.
Qed.

Lemma id_roundtrip_string v : id_ok (IdString v) = true ->
  id_from_str ([60] ++ v ++ [62]) = Done (Ok (IdString v)).
Proof.
  cbn [id_ok]. destruct (validate_slice v) as [[]|] eqn:E; [|done]. intros _.
  unfold id_from_str. rewrite ends_with_mid. cbn [starts_with app Z.eqb Pos.eqb andb].
  rewrite (inner_between 60 v 62 ltac:(done) ltac:(done) : inner (60 :: v ++ [62]) = _).
  cbn [mbind Exec_bind]. rewrite as_bytes_ascii by (apply id_bytes_ascii; by eapply validate_slice_Ok).
  unfold id_string. by rewrite E.
Qed.

Lemma id_roundtrip_integer v : id_ok (IdInteger v) = true ->
  id_from_str ([35] ++ print_int v ++ [35]) = Done (Ok (IdInteger v)).
Proof.
  cbn [id_ok]. intros Hv%in_u_spec. unfold id_from_str. rewrite !ends_with_mid.
  cbn [starts_with app Z.eqb Pos.eqb andb].
  assert (print_int v = digits v) as Hp by (unfold print_int; by rewrite (proj2 (Z.ltb_ge v 0)) by lia).
  destruct (digits_spec v ltac:(lia)) as (Hval & Hd & Hne).
  assert (1 <? byte_len (35 :: print_int v ++ [35]) = true) as ->.
  { apply Z.ltb_lt. change (35 :: print_int v ++ [35]) with ([35] ++ print_int v ++ [35]).
    rewrite !byte_len_app. pose proof (byte_len_nonneg (print_int v)). cbn. lia. }
  cbn [andb]. rewrite (inner_between 35 (print_int v) 35 ltac:(done) ltac:(done) :
    inner (35 :: print_int v ++ [35]) = _).
  cbn [mbind Exec_bind]. rewrite printed_canonical by lia. rewrite Hp.
  rewrite parse_u_digits, Hval, checked_u_small by (done || lia). done.
Qed.

Lemma id_roundtrip_bytes v : id_ok (IdBytes v) = true ->
  id_from_str ([91] ++ hex_encode v ++ [93]) = Done (Ok (IdBytes v)).
Proof.
  cbn [id_ok]. intros [Hb Hv]%andb_true_iff. destruct (validate_bytes v) as [[]|] eqn:E; [|done].
  unfold id_from_str. rewrite !ends_with_mid. cbn [starts_with app Z.eqb Pos.eqb andb].
  rewrite andb_false_r. cbn [andb].
  rewrite (inner_between 91 (hex_encode v) 93 ltac:(done) ltac:(done) :
    inner (91 :: hex_encode v ++ [93]) = _).
  cbn [mbind Exec_bind]. rewrite hex_roundtrip by done. unfold id_bytes. cbn. by rewrite E.
Qed.

Lemma id_roundtrip_ruid v a b c d : array_ok 32 v = true -> hex_encode v = a ++ b ++ c ++ d ->
  length a = 16%nat -> length b = 16%nat -> length c = 16%nat -> length d = 16%nat ->
  id_from_str ([123] ++ (a ++ [45] ++ b ++ [45] ++ c ++ [45] ++ d) ++ [125]) =
  Done (Ok (IdRUID v)).
Proof.
  intros Hv Hcat La Lb Lc Ld. unfold id_from_str. set (t := a ++ [45] ++ b ++ [45] ++ c ++ [45] ++ d).
  rewrite !ends_with_mid. cbn [starts_with app Z.eqb Pos.eqb andb].
  rewrite andb_false_r. cbn [andb].
  rewrite (inner_between 123 t 125 ltac:(done) ltac:(done) : inner (123 :: t ++ [125]) = _).
  cbn [mbind Exec_bind]. by apply ruid_parses.
Qed.

Lemma id_to_from_str i : id_ok i = true ->
  exists s, id_to_string i = Done s /\ id_from_str s = Done (Ok i).
Proof.
  destruct i as [v|v|v|v]; intros Hok.
  - eexists. split; [reflexivity|]. by apply id_roundtrip_string.
  - eexists. split; [reflexivity|]. by apply id_roundtrip_integer.
  - eexists. split; [reflexivity|]. by apply id_roundtrip_bytes.
  - destruct (ruid_layout v Hok) as (a & b & c & d & Hcat & La & Lb & Lc & Ld & Hs).
    eexists. split; [exact Hs|]. by apply id_roundtrip_ruid.
Qed.

(** *** Whatever is parsed is a valid id *)

Definition parsed_ok (r : Exec (Result ParseNonFungibleLocalIdError NonFungibleLocalId)) : Prop :=
  match r with Done (Ok i) => id_ok i = true | Done (Err _) => True | Panicked => False end.

Lemma parse_u_range w t v : parse_u w t = Some v -> in_u w v = true.
Proof.
  unfold parse_u. intros H. repeat (case_match; try done);
    apply checked_u_Some in H as [-> H]; by apply in_u_spec.
Qed.

Lemma ruid_from_str_ok t : parsed_ok (ruid_from_str t).
Proof.
  unfold ruid_from_str. case_match; [|done]. destruct (byte_len _ =? 64) eqn:Hl; [|done].
  destruct (hex_decode _) as [b|] eqn:E; [|done]. apply (hex_decoded HX) in E as [Hb Hlen]. zbool.
  assert (length b = 32%nat) as Hb32 by lia. unfold copy_u8_array. rewrite Hb32. cbn.
  unfold array_ok. by rewrite Hb32, Hb.
Qed.

Lemma id_from_str_ok s : parsed_ok (id_from_str s).
Proof.
  unfold id_from_str.
  destruct (starts_with 60 s && ends_with 62 s) eqn:E1.
  { apply between_split in E1 as (t & ->); [|lia|lia]. rewrite inner_between by done. cbn.
    unfold id_string. destruct (validate_slice (as_bytes t)) as [[]|] eqn:E; [|done].
    cbn. by rewrite E. }
  destruct ((1 <? byte_len s) && starts_with 35 s && ends_with 35 s) eqn:E2.
  { rewrite <- andb_assoc in E2. apply andb_true_iff in E2 as [Hl%Z.ltb_lt E2].
    apply between_split in E2 as (t & ->); [|lia|lia]. rewrite inner_between by done.
    cbn [mbind Exec_bind]. case_match; [|done]. destruct (parse_u 64 t) as [v|] eqn:E; [|done].
    cbn. by apply parse_u_range in E. }
  destruct (starts_with 91 s && ends_with 93 s) eqn:E3.
  { apply between_split in E3 as (t & ->); [|lia|lia]. rewrite inner_between by done.
    cbn [mbind Exec_bind]. destruct (hex_decode t) as [b|] eqn:E; [|done].
    apply (hex_decoded HX) in E as [Hb _]. cbn. unfold id_bytes.
    destruct (validate_bytes b) as [[]|] eqn:Ev; [|done]. cbn. by rewrite Ev, Hb. }
  destruct (starts_with 123 s && ends_with 125 s) eqn:E4; [|done].
  apply between_split in E4 as (t & ->); [|lia|lia]. rewrite inner_between by done.
  apply ruid_from_str_ok.
Qed.
End Laws.
End Text.

(** ** Theorems *)

Module IdTextTheorems.

(** The text of a non-fungible id reads back: with a hex crate as
    documented, every valid id prints to a string that parses to the same id;
    and parsing any string at all ends without a panic, in an error or in a
    valid id (a string of 1 to 64 characters of [_0-9a-zA-Z], a [u64] without
    sign or leading zero, 1 to 64 bytes, or 32 bytes). *)
Theorem id_text_roundtrip (hex_encode : list Z -> list Z) (hex_decode : list Z -> option (list Z))
    (HX : hex_crate hex_encode hex_decode) :
  (forall i, id_ok i = true ->
     exists s, id_to_string hex_encode i = Done s /\ id_from_str hex_decode s = Done (Ok i)) /\
  (forall s, match id_from_str hex_decode s with
             | Done (Ok i) => id_ok i = true
             | Done (Err _) => True
             | Panicked => False
             end).
Proof.
  split; [intros i; by apply id_to_from_str | intros s; by apply (id_from_str_ok hex_encode hex_decode)].
Qed.

(** Reference hex functions. *)
Definition hex_digit (n : Z) : Z := if n <? 10 then 48 + n else 87 + n.
Definition hex_value (c : Z) : option Z :=
  if in_range 48 57 c then Some (c - 48)
  else if in_range 97 102 c then Some (c - 87)
  else if in_range 65 70 c then Some (c - 55) else None.
Definition hex_encode_ref (b : list Z) : list Z :=
  b ≫= (fun x => [hex_digit (x / 16); hex_digit (x mod 16)]).
Fixpoint hex_decode_ref (s : list Z) : option (list Z) :=
  match s with
  | [] => Some []
  | a :: b :: s' =>
      x ← hex_value a; y ← hex_value b; r ← hex_decode_ref s'; Some (16 * x + y :: r)
  | _ => None
  end.

Lemma hex_digit_ok n : 0 <= n < 16 -> is_hex (hex_digit n) = true /\ hex_value (hex_digit n) = Some n.
Proof.
  intros Hn. unfold hex_digit, is_hex, hex_value, in_range.
  destruct (Z.ltb_spec n 10); repeat (case_match; zbool; try lia); split; try done; f_equal; lia.
Qed.

Lemma hex_value_range c x : hex_value c = Some x -> 0 <= x < 16 /\ 0 <= c < 128.
Proof. unfold hex_value, in_range. intros H. repeat (case_match; zbool; simplify_eq); lia. Qed.

Lemma hex_ref_ok : hex_crate hex_encode_ref hex_decode_ref.
Proof.
  split.
  - induction b as [|x b IH]; [done|]. cbn [bytes_ok forallb]. rewrite andb_true_iff, is_byte_spec.
    intros [Hx Hb]. destruct (IH Hb) as [IH1 IH2]. unfold hex_encode_ref in *. rewrite bind_cons.
    rewrite forallb_app, length_app, IH1, IH2. cbn [forallb].
    rewrite (proj1 (hex_digit_ok (x / 16) ltac:(split; [apply Z.div_pos|apply Z.div_lt_upper_bound]; lia))).
    rewrite (proj1 (hex_digit_ok (x mod 16) ltac:(apply Z.mod_pos_bound; lia))). split; [done|cbn; lia].
  - induction b as [|x b IH]; [done|]. cbn [bytes_ok forallb]. rewrite andb_true_iff, is_byte_spec.
    intros [Hx Hb]. specialize (IH Hb). unfold hex_encode_ref in *. rewrite bind_cons.
    cbn [app hex_decode_ref].
    rewrite (proj2 (hex_digit_ok (x / 16) ltac:(split; [apply Z.div_pos|apply Z.div_lt_upper_bound]; lia))).
    rewrite (proj2 (hex_digit_ok (x mod 16) ltac:(apply Z.mod_pos_bound; lia))).
    cbn. rewrite IH. cbn. do 2 f_equal. pose proof (Z.div_mod x 16 ltac:(lia)). lia.
  - fix IH 1. intros [|a [|a' s]] b; cbn [hex_decode_ref]; intros Hd; [by simplify_eq|done|].
    apply bind_Some in Hd as (x & Hx & Hd). apply bind_Some in Hd as (y & Hy & Hd).
    apply bind_Some in Hd as (r & Hr & [= <-]). apply IH in Hr as [Hr1 Hr2].
    apply hex_value_range in Hx as [Hx Ha], Hy as [Hy Ha'].
    cbn [bytes_ok forallb byte_len foldr length]. fold (byte_len s). unfold utf8_len.
    rewrite !(proj2 (Z.ltb_lt _ 128)) by lia. split; [|lia].
    apply andb_true_iff. split; [apply is_byte_spec; lia|done].
Qed.

Lemma id_text_roundtrip_witness :
  id_from_str hex_decode_ref (lit "#258#") = Done (Ok (IdInteger 258)) /\
  exists s, id_to_string hex_encode_ref (IdRUID (replicate 32 0xab)) = Done s /\
            id_from_str hex_decode_ref s = Done (Ok (IdRUID (replicate 32 0xab))).
Proof.
  split; [reflexivity|].
  apply (proj1 (id_text_roundtrip hex_encode_ref hex_decode_ref hex_ref_ok)). reflexivity.
Defined.

End IdTextTheorems.
