(* ===== verification/BTreeMap.v ===== *)
(** * Sorted maps

    [BTreeMap] of the standard library: the list of its entries in ascending
    order of the keys, each key once.  Two maps with the same lookups are equal
    ([bt_ext]), so equality of maps is equality of contents and of iteration.
    [OverlayingIterator] (radix-rust/src/iterators/overlaying_iterator.rs)
    merges such an iteration with a sorted list of changes. *)

From S2P Require Import Prelude.

(** [Ord] *)
Class Ord (K : Type) : Type := { cmp : K -> K -> comparison }.

Class OrdLaws (K : Type) `{Ord K} : Prop := {
  cmp_eq : forall a b, cmp a b = Eq <-> a = b;
  cmp_antisym : forall a b, cmp b a = CompOpp (cmp a b);
  cmp_trans : forall a b c, cmp a b = Lt -> cmp b c = Lt -> cmp a c = Lt
}.

Abbreviation BTreeMap K V := (list (K * V)) (only parsing).

Section Ops.
Context {K V : Type} `{Ord K}.

Fixpoint bt_get (k : K) (m : BTreeMap K V) : option V :=
  match m with
  | [] => None
  | (k', v) :: m' =>
      match cmp k k' with Lt => None | Eq => Some v | Gt => bt_get k m' end
  end.

Fixpoint bt_insert (k : K) (v : V) (m : BTreeMap K V) : BTreeMap K V :=
  match m with
  | [] => [(k, v)]
  | (k', v') :: m' =>
      match cmp k k' with
      | Lt => (k, v) :: m
      | Eq => (k', v) :: m'
      | Gt => (k', v') :: bt_insert k v m'
      end
  end.

Fixpoint bt_remove (k : K) (m : BTreeMap K V) : BTreeMap K V :=
  match m with
  | [] => []
  | (k', v') :: m' =>
      match cmp k k' with Lt => m | Eq => m' | Gt => (k', v') :: bt_remove k m' end
  end.

(** [extend] and [BTreeMap::from_iter] *)
Definition bt_extend (m : BTreeMap K V) (l : list (K * V)) : BTreeMap K V :=
  foldl (fun m e => bt_insert e.1 e.2 m) m l.
Definition bt_from_iter (l : list (K * V)) : BTreeMap K V := bt_extend [] l.

(** [range(from..)] *)
Definition is_lt (a b : K) : bool := match cmp a b with Lt => true | _ => false end.
Fixpoint bt_range_from (from : K) (m : BTreeMap K V) : BTreeMap K V :=
  match m with
  | [] => []
  | (k, v) :: m' => if is_lt k from then bt_range_from from m' else m
  end.

(** Strictly ascending keys: [below k m] says [k] is below every key of [m]. *)
Fixpoint below (k : K) (m : BTreeMap K V) : Prop :=
  match m with [] => True | (k', _) :: m' => cmp k k' = Lt /\ below k m' end.
Fixpoint bt_ok (m : BTreeMap K V) : Prop :=
  match m with [] => True | (k, _) :: m' => below k m' /\ bt_ok m' end.
End Ops.

(** ** The overlaying iterator *)
Section Overlaying.
Context {K V : Type} `{Ord K}.

(** [OverlayingIterator::next]: the item and what is left of the two
    iterators; the loop consumes the overlaying one. *)
Fixpoint overlaying_next (u : list (K * V)) (o : list (K * option V)) :
    option (K * V) * (list (K * V) * list (K * option V)) :=
  match o with
  | [] => match u with [] => (None, ([], [])) | e :: u' => (Some e, (u', [])) end
  | (overlaying_key, overlaying_change) :: o' =>
      let step u' :=
        match overlaying_change with
        | Some value => (Some (overlaying_key, value), (u', o'))
        | None => overlaying_next u' o'
        end in
      match u with
      | [] => step []
      | (underlying_key, underlying_value) :: u' =>
          match cmp underlying_key overlaying_key with
          | Lt => (Some (underlying_key, underlying_value), (u', o))
          | Eq => step u'
          | Gt => step u
          end
      end
  end.

(** Collecting the iterator: an item consumes an entry of one of the lists. *)
Fixpoint overlaying_collect (fuel : nat) (u : list (K * V)) (o : list (K * option V)) :
    Exec (list (K * V)) :=
  match fuel with
  | O => Panicked
  | S f =>
      match overlaying_next u o with
      | (None, _) => Done []
      | (Some e, (u', o')) => l ← overlaying_collect f u' o'; Done (e :: l)
      end
  end.

Definition overlaying_list (u : list (K * V)) (o : list (K * option V)) : Exec (list (K * V)) :=
  overlaying_collect (S (length u + length o)) u o.
End Overlaying.

(** ** Facts *)
Section Facts.
Context {K V : Type} `{OrdLaws K}.
Implicit Types (m : BTreeMap K V) (k : K) (v : V).

Lemma cmp_refl k : cmp k k = Eq.
Proof. by apply cmp_eq. Qed.

Lemma cmp_Gt a b : cmp a b = Gt <-> cmp b a = Lt.
Proof. rewrite (cmp_antisym a b). by destruct (cmp a b). Qed.

#[local] Hint Resolve cmp_refl : core.

Lemma cmp_eq_dec : EqDecision K.
Proof.
  intros a b. destruct (cmp a b) eqn:E; [left; by apply cmp_eq| |];
    right; intros ->; rewrite cmp_refl in E; done.
Qed.

Lemma below_trans k k' m : cmp k k' = Lt -> below k' m -> below k m.
Proof.
  induction m as [|[k0 v0] m IH]; cbn; [done|]. intros Hk [H1 H2]. split; [|by apply IH].
  by eapply cmp_trans.
Qed.

Lemma bt_get_below k m : below k m -> bt_get k m = None.
Proof. destruct m as [|[k0 v0] m]; cbn; [done|]. by intros [-> _]. Qed.

Lemma below_insert k k' v m : cmp k k' = Lt -> below k m -> below k (bt_insert k' v m).
Proof.
  intros Hk. induction m as [|[k0 v0] m IH]; cbn; [done|]. intros [H1 H2].
  destruct (cmp k' k0); cbn; auto.
Qed.

Lemma bt_ok_insert k v m : bt_ok m -> bt_ok (bt_insert k v m).
Proof.
  induction m as [|[k0 v0] m IH]; cbn; [done|]. intros [H1 H2].
  destruct (cmp k k0) eqn:E; cbn; [done| |].
  - split; [|done]. split; [done|]. by eapply below_trans.
  - split; [|auto]. apply below_insert; [by apply cmp_Gt|done].
Qed.

Lemma bt_get_insert k k' v m : bt_ok m ->
  bt_get k' (bt_insert k v m) = match cmp k' k with Eq => Some v | _ => bt_get k' m end.
Proof.
  induction m as [|[k0 v0] m IH]; cbn; [by destruct (cmp k' k)|]. intros [H1 H2].
  destruct (cmp k k0) eqn:E; cbn.
  - apply cmp_eq in E as ->. by destruct (cmp k' k0).
  - destruct (cmp k' k) eqn:E'; [done| |done].
    by rewrite (cmp_trans k' k k0).
  - destruct (cmp k' k0) eqn:E0; [| |by apply IH].
    + apply cmp_eq in E0 as ->. apply cmp_Gt in E. by rewrite E.
    + apply cmp_Gt in E. rewrite (cmp_trans k' k0 k E0 E). done.
Qed.

Lemma below_remove k k' m : below k m -> below k (bt_remove k' m).
Proof.
  induction m as [|[k0 v0] m IH]; cbn; [done|]. intros [H1 H2]. destruct (cmp k' k0); cbn; auto.
Qed.

Lemma bt_ok_remove k m : bt_ok m -> bt_ok (bt_remove k m).
Proof.
  induction m as [|[k0 v0] m IH]; cbn; [done|]. intros [H1 H2].
  destruct (cmp k k0) eqn:E; cbn; [done|done|]. split; [by apply below_remove|auto].
Qed.

Lemma bt_get_remove k k' m : bt_ok m ->
  bt_get k' (bt_remove k m) = match cmp k' k with Eq => None | _ => bt_get k' m end.
Proof.
  induction m as [|[k0 v0] m IH]; cbn; [by destruct (cmp k' k)|]. intros [H1 H2].
  destruct (cmp k k0) eqn:E; cbn.
  - apply cmp_eq in E as ->. destruct (cmp k' k0) eqn:E0; [|by apply bt_get_below; eapply below_trans|done].
    apply cmp_eq in E0 as ->. by apply bt_get_below.
  - destruct (cmp k' k) eqn:E'; [|done|done]. apply cmp_eq in E' as ->. by rewrite E.
  - destruct (cmp k' k0) eqn:E0; [| |by apply IH].
    + apply cmp_eq in E0 as ->. apply cmp_Gt in E. by rewrite E.
    + apply cmp_Gt in E. by rewrite (cmp_trans k' k0 k E0 E).
Qed.

(** Maps with the same lookups are the same map. *)
Lemma bt_ext m1 m2 : bt_ok m1 -> bt_ok m2 -> (forall k, bt_get k m1 = bt_get k m2) -> m1 = m2.
Proof.
  revert m2. induction m1 as [|[k1 v1] m1 IH]; intros [|[k2 v2] m2]; cbn [bt_ok].
  - done.
  - intros _ _ Hg. specialize (Hg k2). cbn in Hg. by rewrite cmp_refl in Hg.
  - intros _ _ Hg. specialize (Hg k1). cbn in Hg. by rewrite cmp_refl in Hg.
  - intros [B1 O1] [B2 O2] Hg.
    assert (k1 = k2) as <-.
    { destruct (cmp k1 k2) eqn:E; [by apply cmp_eq| |].
      - specialize (Hg k1). cbn in Hg. by rewrite cmp_refl, E in Hg.
      - apply cmp_Gt in E. specialize (Hg k2). cbn in Hg. by rewrite cmp_refl, E in Hg. }
    assert (v1 = v2) as <- by (specialize (Hg k1); cbn in Hg; rewrite cmp_refl in Hg; congruence).
    f_equal. apply IH; [done|done|]. intros k. specialize (Hg k). cbn in Hg.
    destruct (cmp k k1) eqn:E; [|by rewrite !bt_get_below by (by eapply below_trans)|done].
    apply cmp_eq in E as ->. by rewrite !bt_get_below.
Qed.

Lemma bt_ok_extend m l : bt_ok m -> bt_ok (bt_extend m l).
Proof. unfold bt_extend. revert m. induction l as [|e l IH]; cbn; [done|]. intros. by apply IH, bt_ok_insert. Qed.

(** The last entry of a key wins. *)
Fixpoint last_get k (l : list (K * V)) : option V :=
  match l with
  | [] => None
  | (k', v) :: l' =>
      match last_get k l' with
      | Some w => Some w
      | None => match cmp k k' with Eq => Some v | _ => None end
      end
  end.

Lemma bt_get_extend k m l : bt_ok m ->
  bt_get k (bt_extend m l) = match last_get k l with Some v => Some v | None => bt_get k m end.
Proof.
  unfold bt_extend. revert m. induction l as [|[k' v'] l IH]; intros m Hm; cbn; [done|].
  rewrite IH by (by apply bt_ok_insert). destruct (last_get k l); [done|].
  rewrite bt_get_insert by done. by destruct (cmp k k').
Qed.

Lemma below_range k from m : below k m -> below k (bt_range_from from m).
Proof.
  induction m as [|[k0 v0] m IH]; cbn; [done|]. intros [H1 H2]. destruct (is_lt k0 from); cbn; auto.
Qed.

Lemma bt_ok_range from m : bt_ok m -> bt_ok (bt_range_from from m).
Proof.
  induction m as [|[k0 v0] m IH]; cbn; [done|]. intros [H1 H2]. destruct (is_lt k0 from); cbn; auto.
Qed.

Lemma bt_get_range k from m : bt_ok m ->
  bt_get k (bt_range_from from m) = if is_lt k from then None else bt_get k m.
Proof.
  induction m as [|[k0 v0] m IH]; cbn [bt_range_from bt_get bt_ok]; [by destruct (is_lt k from)|].
  intros [H1 H2]. destruct (is_lt k0 from) eqn:E0.
  - rewrite IH by done. destruct (is_lt k from) eqn:E; [done|].
    destruct (cmp k k0) eqn:Ek; [| |done].
    + apply cmp_eq in Ek as ->. congruence.
    + unfold is_lt in *. destruct (cmp k0 from) eqn:Ef; try done.
      by rewrite (cmp_trans _ _ _ Ek Ef) in E.
  - cbn. destruct (is_lt k from) eqn:E; [|done].
    unfold is_lt in E, E0. destruct (cmp k from) eqn:Ek; try done.
    assert (cmp k k0 = Lt) as ->; [|done].
    destruct (cmp k0 from) eqn:Ef; try done.
    + apply cmp_eq in Ef as ->. done.
    + apply cmp_Gt in Ef. by eapply cmp_trans.
Qed.

Lemma bt_get_None_nil m : bt_ok m -> (forall k, bt_get k m = None) -> m = [].
Proof. intros Hm Hg. by apply bt_ext. Qed.
End Facts.

Section OverlayingFacts.
Context {K V : Type} `{OrdLaws K}.
Implicit Types (u l : list (K * V)) (o : list (K * option V)).

Lemma overlaying_next_length u o e u' o' :
  overlaying_next u o = (Some e, (u', o')) -> (length u' + length o' < length u + length o)%nat.
Proof.
  revert u. induction o as [|[k c] o IH]; intros u; cbn.
  - destruct u as [|e0 u0]; intros; simplify_eq; cbn. lia.
  - destruct u as [|[ku vu] u]; [|destruct (cmp ku k)]; destruct c as [v|]; cbn;
      intros Hn; simplify_eq; cbn; try lia; apply IH in Hn; cbn in Hn; lia.
Qed.

(** The lookup an overlay promises. *)
Definition overlaid (k : K) u o : option V :=
  match bt_get k o with Some c => c | None => bt_get k u end.

Lemma overlaying_next_below k u o e u' o' : below k u -> below k o ->
  overlaying_next u o = (Some e, (u', o')) -> cmp k e.1 = Lt /\ below k u' /\ below k o'.
Proof.
  revert u. induction o as [|[ko c] o IH]; intros u Hu Ho; cbn [overlaying_next].
  - destruct u as [|e0 u0]; intros; simplify_eq. by destruct e, Hu.
  - destruct Ho as [Hko Ho]. destruct u as [|[ku vu] u]; [|destruct Hu as [Hku Hu]; destruct (cmp ku ko)];
      destruct c as [v|]; intros Hn; simplify_eq; cbn; try done; eapply IH in Hn; cbn; eauto.
Qed.

Lemma overlaying_next_ok u o : bt_ok u -> bt_ok o ->
  match overlaying_next u o with
  | (Some e, (u', o')) =>
      bt_ok u' /\ bt_ok o' /\ below e.1 u' /\ below e.1 o' /\
      forall k, overlaid k u o = match cmp k e.1 with
                                 | Lt => None | Eq => Some e.2 | Gt => overlaid k u' o' end
  | (None, _) => forall k, overlaid k u o = None
  end.
Proof.
  unfold overlaid. revert u. induction o as [|[ko c] o IH]; intros u Hu Ho; cbn [overlaying_next].
  - destruct u as [|[ku vu] u]; [done|]. destruct Hu as [Hb Hu]. cbn. split_and!; auto.
  - destruct Ho as [Hbo Ho].
    assert (forall u', bt_ok u' -> below ko u' ->
      (forall k, bt_get k u' = match cmp k ko with Eq => None | _ => bt_get k u end \/
                 (cmp k ko = Lt)) ->
      (forall k, cmp k ko = Lt -> bt_get k u = None) ->
      match (match c with Some value => (Some (ko, value), (u', o)) | None => overlaying_next u' o end) with
      | (Some e, (u'', o'')) =>
          bt_ok u'' /\ bt_ok o'' /\ below e.1 u'' /\ below e.1 o'' /\
          forall k, match bt_get k ((ko, c) :: o) with Some c => c | None => bt_get k u end =
            match cmp k e.1 with Lt => None | Eq => Some e.2
            | Gt => match bt_get k o'' with Some c => c | None => bt_get k u'' end end
      | (None, _) => forall k, match bt_get k ((ko, c) :: o) with Some c => c | None => bt_get k u end = None
      end) as Hstep.
    { intros u' Hu' Hbu' Hg Hlt. destruct c as [v|].
      - split_and!; auto. intros k. cbn. destruct (cmp k ko) eqn:E; [done|by apply Hlt|].
        destruct (Hg k) as [Hgk|]; [|congruence]. rewrite E in Hgk. by rewrite Hgk.
      - specialize (IH u' Hu' Ho). pose proof (overlaying_next_below ko u' o) as Hnb.
        destruct (overlaying_next u' o) as [[e|] [u'' o'']].
        + destruct IH as (? & ? & ? & ? & Hk). split_and!; auto. intros k. cbn.
          destruct (Hnb e u'' o'' Hbu' Hbo eq_refl) as [Hke _].
          destruct (cmp k ko) eqn:E.
          * apply cmp_eq in E as ->. by rewrite Hke.
          * rewrite (cmp_trans _ _ _ E Hke). by apply Hlt.
          * rewrite <- Hk. destruct (Hg k) as [Hgk|]; [|congruence]. rewrite E in Hgk. by rewrite Hgk.
        + intros k. cbn. destruct (cmp k ko) eqn:E; [done|by apply Hlt|].
          specialize (IH k). destruct (Hg k) as [Hgk|]; [|congruence]. rewrite E in Hgk.
          by rewrite Hgk in IH. }
    destruct u as [|[ku vu] u].
    + apply Hstep; try done. intros k. left. by destruct (cmp k ko).
    + destruct Hu as [Hbu Hu]. destruct (cmp ku ko) eqn:E.
      * apply cmp_eq in E as ->. apply Hstep; try done.
        -- intros k. cbn. destruct (cmp k ko) eqn:Ek; [left| by right | by left].
           apply cmp_eq in Ek as ->. by apply bt_get_below.
        -- intros k Hk. cbn. by rewrite Hk.
      * cbn. split_and!; auto; [by eapply below_trans|]. intros k.
        destruct (cmp k ku) eqn:Ek; [|by rewrite (cmp_trans _ _ _ Ek E)|done].
        apply cmp_eq in Ek as ->. by rewrite E.
      * apply cmp_Gt in E. apply Hstep; try done.
        -- split; [done|]. by eapply below_trans.
        -- intros k. cbn. destruct (cmp k ko) eqn:Ek; [left| by right | by left].
           apply cmp_eq in Ek as ->. by rewrite E.
        -- intros k Hk. cbn. by rewrite (cmp_trans _ _ _ Hk E).
Qed.

Lemma overlaying_collect_ok fuel u o : bt_ok u -> bt_ok o -> (length u + length o < fuel)%nat ->
  exists l, overlaying_collect fuel u o = Done l /\ bt_ok l /\
    (forall k, below k u -> below k o -> below k l) /\
    forall k, bt_get k l = overlaid k u o.
Proof.
  revert u o. induction fuel as [|f IH]; intros u o Hu Ho Hf; [lia|]. cbn [overlaying_collect].
  pose proof (overlaying_next_ok u o Hu Ho) as Hn.
  pose proof (overlaying_next_length u o) as Hlen.
  pose proof (fun k => overlaying_next_below k u o) as Hbel.
  destruct (overlaying_next u o) as [[[k0 v0]|] [u' o']].
  - destruct Hn as (Hu' & Ho' & Hbu & Hbo & Hk). specialize (Hlen _ _ _ eq_refl).
    destruct (IH u' o' Hu' Ho' ltac:(lia)) as (l & -> & Hl & Hb & Hg).
    exists ((k0, v0) :: l). cbn in *. split_and!; auto.
    + intros k Hku Hko. destruct (Hbel k _ _ _ Hku Hko eq_refl) as (? & ? & ?). auto.
    + intros k. rewrite Hk. destruct (cmp k k0); auto.
  - exists []. split_and!; [done|done|done|]. intros k. by rewrite Hn.
Qed.

(** The iterator ends, and yields the overlay in order. *)
Lemma overlaying_list_ok u o : bt_ok u -> bt_ok o ->
  exists l, overlaying_list u o = Done l /\ bt_ok l /\ forall k, bt_get k l = overlaid k u o.
Proof.
  intros Hu Ho. destruct (overlaying_collect_ok (S (length u + length o)) u o Hu Ho ltac:(lia))
    as (l & Hl & Hok & _ & Hg). by exists l.
Qed.
End OverlayingFacts.

(** ** Orders *)

#[global] Instance Z_Ord : Ord Z := { cmp := Z.compare }.

#[global] Instance Z_OrdLaws : OrdLaws Z.
Proof.
  split; cbn.
  - apply Z.compare_eq_iff.
  - intros. apply Z.compare_antisym.
  - intros a b c. rewrite !Z.compare_lt_iff. lia.
Qed.

(** Lexicographic order of [Vec<u8>]. *)
Fixpoint lex_cmp {K} `{Ord K} (a b : list K) : comparison :=
  match a, b with
  | [], [] => Eq
  | [], _ :: _ => Lt
  | _ :: _, [] => Gt
  | x :: a', y :: b' => match cmp x y with Eq => lex_cmp a' b' | c => c end
  end.

#[global] Instance list_Ord {K} `{Ord K} : Ord (list K) := { cmp := lex_cmp }.

#[global] Instance list_OrdLaws {K} `{OrdLaws K} : OrdLaws (list K).
Proof.
  split; cbn.
  - induction a as [|x a IH]; intros [|y b]; cbn; try done.
    destruct (cmp x y) eqn:E; [rewrite IH|split; [done|]|split; [done|]].
    + apply cmp_eq in E as ->. split; [by intros -> | by intros [= ->]].
    + intros [= -> ->]. by rewrite (proj2 (cmp_eq y y)) in E.
    + intros [= -> ->]. by rewrite (proj2 (cmp_eq y y)) in E.
  - induction a as [|x a IH]; intros [|y b]; cbn; try done.
    rewrite (cmp_antisym x y). destruct (cmp x y); cbn; auto.
  - induction a as [|x a IH]; intros [|y b] [|z c]; cbn; try done.
    destruct (cmp x y) eqn:E1, (cmp y z) eqn:E2; try done; intros.
    + apply cmp_eq in E1 as ->. rewrite E2. eauto.
    + apply cmp_eq in E1 as ->. by rewrite E2.
    + apply cmp_eq in E2 as ->. by rewrite E1.
    + by rewrite (cmp_trans _ _ _ E1 E2).
Qed.

(** Derived order of a pair. *)
#[global] Instance prod_Ord {A B} `{Ord A} `{Ord B} : Ord (A * B) := {
  cmp p q := match cmp p.1 q.1 with Eq => cmp p.2 q.2 | c => c end
}.

#[global] Instance prod_OrdLaws {A B} `{OrdLaws A} `{OrdLaws B} : OrdLaws (A * B).
Proof.
  split.
  - intros [a b] [a' b']. cbn. destruct (cmp a a') eqn:E.
    + apply cmp_eq in E as ->. rewrite cmp_eq. split; [by intros -> | by intros [= ->]].
    + split; [done|]. intros [= -> _]. by rewrite (proj2 (cmp_eq a' a')) in E.
    + split; [done|]. intros [= -> _]. by rewrite (proj2 (cmp_eq a' a')) in E.
  - intros [a b] [a' b']. cbn. rewrite (cmp_antisym a a'). destruct (cmp a a'); cbn; try done.
    apply cmp_antisym.
  - intros [a b] [a' b'] [a'' b'']. cbn.
    destruct (cmp a a') eqn:E1, (cmp a' a'') eqn:E2; try done; intros.
    + apply cmp_eq in E1 as ->. rewrite E2. by eapply cmp_trans.
    + apply cmp_eq in E1 as ->. by rewrite E2.
    + apply cmp_eq in E2 as ->. by rewrite E1.
    + by rewrite (cmp_trans _ _ _ E1 E2).
Qed.
