(* ===== verification/SubstateStore.v ===== *)
(** * The substate store

    The database of substates: updates
    (radix-substate-store-interface/src/interface.rs), the in-memory database
    and the overlay that stages updates over another database
    (radix-substate-store-impls/src), and the mapping of node ids and substate
    keys to database keys (radix-substate-store-interface/src/db_key_mapper.rs).
    A [DbPartitionKey] is the pair of its fields, ordered as derived. *)

From S2P Require Import Prelude Bytes IndexMap BTreeMap SborCustom.

Abbreviation DbNodeKey := (list Z) (only parsing).
Abbreviation DbPartitionNum := Z (only parsing).
Abbreviation DbPartitionKey := (list Z * Z)%type (only parsing).
Abbreviation DbSortKey := (list Z) (only parsing).
Abbreviation DbSubstateValue := (list Z) (only parsing).

(** ** Database updates *)

Inductive DatabaseUpdate : Type :=
| Set_ (value : DbSubstateValue)
| Delete.

Inductive PartitionDatabaseUpdates : Type :=
| Delta (substate_updates : IndexMap DbSortKey DatabaseUpdate)
| Reset_ (new_substate_values : IndexMap DbSortKey DbSubstateValue).

Abbreviation NodeDatabaseUpdates := (IndexMap DbPartitionNum PartitionDatabaseUpdates) (only parsing).
Abbreviation DatabaseUpdates := (list (list Z * list (Z * PartitionDatabaseUpdates))) (only parsing).

Definition get_substate_change (u : PartitionDatabaseUpdates) (sort_key : DbSortKey) :
    option DatabaseUpdate :=
  match u with
  | Delta substate_updates => im_get sort_key substate_updates
  | Reset_ new_substate_values =>
      match im_get sort_key new_substate_values with
      | Some value => Some (Set_ value)
      | None => Some Delete
      end
  end.

(** ** Databases *)

Class SubstateDatabase (D : Type) : Type := {
  get_raw_substate_by_db_key : D -> DbPartitionKey -> DbSortKey -> option DbSubstateValue;
  list_raw_values_from_db_key :
    D -> DbPartitionKey -> option DbSortKey -> Exec (list (DbSortKey * DbSubstateValue))
}.

(** [Some(key) < from] *)
Definition before (from : option DbSortKey) (k : DbSortKey) : bool :=
  match from with Some f => is_lt k f | None => false end.

(** What the trait promises: the listing is in ascending order of the keys,
    starts at the given key and has the substates that can be read. *)
Class SubstateDatabaseLaws (D : Type) `{SubstateDatabase D} (inv : D -> Prop) : Prop := {
  list_exact : forall d pk from, inv d ->
    exists l, list_raw_values_from_db_key d pk from = Done l /\ bt_ok l /\
    forall sk, bt_get sk l =
      if before from sk then None else get_raw_substate_by_db_key d pk sk
}.

(** ** The in-memory database *)

Abbreviation InMemorySubstateDatabase := (BTreeMap DbPartitionKey (BTreeMap DbSortKey DbSubstateValue)) (only parsing).

Section Memory.
Implicit Types (db : InMemorySubstateDatabase) (p : BTreeMap DbSortKey DbSubstateValue).

Definition mem_get db (pk : DbPartitionKey) (sk : DbSortKey) : option DbSubstateValue :=
  p ← bt_get pk db; bt_get sk p.

Fixpoint skip_while {A} (f : A -> bool) (l : list A) : list A :=
  match l with [] => [] | x :: l' => if f x then skip_while f l' else l end.

Definition mem_list db (pk : DbPartitionKey) (from : option DbSortKey) :
    list (DbSortKey * DbSubstateValue) :=
  skip_while (fun e => before from e.1) (default [] (bt_get pk db)).

Definition apply_update p (e : DbSortKey * DatabaseUpdate) : BTreeMap DbSortKey DbSubstateValue :=
  match e.2 with
  | Set_ substate_value => bt_insert e.1 substate_value p
  | Delete => bt_remove e.1 p
  end.

Definition commit_partition db (pk : DbPartitionKey) (u : PartitionDatabaseUpdates) :
    InMemorySubstateDatabase :=
  let partition := default [] (bt_get pk db) in
  let partition := match u with
    | Delta substate_updates => foldl apply_update partition substate_updates
    | Reset_ new_substate_values => bt_from_iter new_substate_values
    end in
  let db := bt_insert pk partition db in
  match partition with [] => bt_remove pk db | _ => db end.

Definition commit_node db (node_key : DbNodeKey) (u : NodeDatabaseUpdates) : InMemorySubstateDatabase :=
  foldl (fun db e => commit_partition db (node_key, e.1) e.2) db u.

Definition mem_commit db (u : DatabaseUpdates) : InMemorySubstateDatabase :=
  foldl (fun db e => commit_node db e.1 e.2) db u.

Definition mem_list_partition_keys db : list DbPartitionKey := db.*1.
End Memory.

#[global] Instance memory_database : SubstateDatabase InMemorySubstateDatabase := {
  get_raw_substate_by_db_key := mem_get;
  list_raw_values_from_db_key db pk from := Done (mem_list db pk from)
}.

(** ** The overlay *)

Inductive StagingPartitionDatabaseUpdates : Type :=
| StagingDelta (substate_updates : BTreeMap DbSortKey DatabaseUpdate)
| StagingReset (new_substate_values : BTreeMap DbSortKey DbSubstateValue).

Abbreviation StagingNodeDatabaseUpdates := (BTreeMap DbPartitionNum StagingPartitionDatabaseUpdates) (only parsing).
Abbreviation StagingDatabaseUpdates := (list (list Z * list (Z * StagingPartitionDatabaseUpdates))) (only parsing).

(** Collecting into an [IndexMap]. *)
Definition im_collect {K V} `{EqDecision K} (l : list (K * V)) : IndexMap K V :=
  foldl (fun m e => im_insert e.1 e.2 m) [] l.

Definition into_staging_partition (u : PartitionDatabaseUpdates) : StagingPartitionDatabaseUpdates :=
  match u with
  | Delta us => StagingDelta (bt_from_iter us)
  | Reset_ vs => StagingReset (bt_from_iter vs)
  end.
Definition into_staging_node (u : NodeDatabaseUpdates) : StagingNodeDatabaseUpdates :=
  bt_from_iter ((fun e => (e.1, into_staging_partition e.2)) <$> u).

Definition from_staging_partition (u : StagingPartitionDatabaseUpdates) : PartitionDatabaseUpdates :=
  match u with
  | StagingDelta us => Delta (im_collect us)
  | StagingReset vs => Reset_ (im_collect vs)
  end.
Definition from_staging_node (u : StagingNodeDatabaseUpdates) : NodeDatabaseUpdates :=
  im_collect ((fun e => (e.1, from_staging_partition e.2)) <$> u).
Definition from_staging (u : StagingDatabaseUpdates) : DatabaseUpdates :=
  im_collect ((fun e => (e.1, from_staging_node e.2)) <$> u).

Record SubstateDatabaseOverlay (D : Type) : Type := mk_overlay {
  overlay : StagingDatabaseUpdates;
  root : D
}.
Arguments mk_overlay {D}.
Arguments overlay {D}.
Arguments root {D}.

Definition overlay_new {D} (root_database : D) : SubstateDatabaseOverlay D := mk_overlay [] root_database.

Inductive OverlayLookupResult (T : Type) : Type := Found (t : T) | NotFound.
Arguments Found {T} t.
Arguments NotFound {T}.

Section Overlay.
Context {D : Type} `{SubstateDatabase D}.

Definition overlay_get (o : SubstateDatabaseOverlay D) (pk : DbPartitionKey) (sort_key : DbSortKey) :
    option DbSubstateValue :=
  let overlay_lookup_result :=
    match bt_get pk.1 (overlay o) with
    | Some partition_updates =>
        match bt_get pk.2 partition_updates with
        | Some (StagingDelta substate_updates) =>
            match bt_get sort_key substate_updates with
            | Some (Set_ substate_value) => Found (Some substate_value)
            | Some Delete => Found None
            | None => NotFound
            end
        | Some (StagingReset new_substate_values) =>
            match bt_get sort_key new_substate_values with
            | Some substate_value => Found (Some substate_value)
            | None => Found None
            end
        | None => NotFound
        end
    | None => NotFound
    end in
  match overlay_lookup_result with
  | Found substate_value => substate_value
  | NotFound => get_raw_substate_by_db_key (root o) pk sort_key
  end.

Definition range_from_opt {V} (from : option DbSortKey) (m : BTreeMap DbSortKey V) :
    BTreeMap DbSortKey V :=
  match from with Some f => bt_range_from f m | None => m end.

Definition update_to_option (e : DbSortKey * DatabaseUpdate) : DbSortKey * option DbSubstateValue :=
  (e.1, match e.2 with Set_ v => Some v | Delete => None end).

Definition overlay_list (o : SubstateDatabaseOverlay D) (pk : DbPartitionKey)
    (from_sort_key : option DbSortKey) : Exec (list (DbSortKey * DbSubstateValue)) :=
  match bt_get pk.1 (overlay o) with
  | Some partition_updates =>
      match bt_get pk.2 partition_updates with
      | Some (StagingReset new_substate_values) => Done (range_from_opt from_sort_key new_substate_values)
      | Some (StagingDelta substate_updates) =>
          underlying ← list_raw_values_from_db_key (root o) pk from_sort_key;
          overlaying_list underlying (update_to_option <$> range_from_opt from_sort_key substate_updates)
      | None => list_raw_values_from_db_key (root o) pk from_sort_key
      end
  | None => list_raw_values_from_db_key (root o) pk from_sort_key
  end.
End Overlay.

Definition apply_reset_update (vs : BTreeMap DbSortKey DbSubstateValue)
    (e : DbSortKey * DatabaseUpdate) : BTreeMap DbSortKey DbSubstateValue :=
  match e.2 with
  | Set_ other_substate_value => bt_insert e.1 other_substate_value vs
  | Delete => bt_remove e.1 vs
  end.

Definition merge_partition (this : StagingPartitionDatabaseUpdates) (other : PartitionDatabaseUpdates) :
    StagingPartitionDatabaseUpdates :=
  match this, other with
  | StagingDelta this_substate_updates, Delta other_substate_updates =>
      StagingDelta (bt_extend this_substate_updates other_substate_updates)
  | StagingReset this_new_substate_values, Delta other_substate_updates =>
      StagingReset (foldl apply_reset_update this_new_substate_values other_substate_updates)
  | _, Reset_ _ => into_staging_partition other
  end.

Definition merge_node (this : StagingNodeDatabaseUpdates) (other : NodeDatabaseUpdates) :
    StagingNodeDatabaseUpdates :=
  foldl (fun this e =>
    match bt_get e.1 this with
    | Some this_partition => bt_insert e.1 (merge_partition this_partition e.2) this
    | None => bt_insert e.1 (into_staging_partition e.2) this
    end) this other.

Definition merge_database_updates (this : StagingDatabaseUpdates) (other : DatabaseUpdates) :
    StagingDatabaseUpdates :=
  foldl (fun this e =>
    match bt_get e.1 this with
    | Some this_node => bt_insert e.1 (merge_node this_node e.2) this
    | None => bt_insert e.1 (into_staging_node e.2) this
    end) this other.

Definition overlay_commit {D} (o : SubstateDatabaseOverlay D) (u : DatabaseUpdates) :
    SubstateDatabaseOverlay D :=
  mk_overlay (merge_database_updates (overlay o) u) (root o).

Definition commit_overlay_into_root_store (o : SubstateDatabaseOverlay InMemorySubstateDatabase) :
    SubstateDatabaseOverlay InMemorySubstateDatabase :=
  mk_overlay [] (mem_commit (root o) (from_staging (overlay o))).

Definition overlay_list_partition_keys (o : SubstateDatabaseOverlay InMemorySubstateDatabase) :
    Exec (list DbPartitionKey) :=
  let overlying := overlay o ≫= (fun n => (fun e : Z * _ => ((n.1, e.1), Some tt)) <$> n.2) in
  let underlying := (fun pk => (pk, tt)) <$> mem_list_partition_keys (root o) in
  l ← overlaying_list underlying overlying;
  Done l.*1.

#[global] Instance overlay_database {D} `{SubstateDatabase D} :
    SubstateDatabase (SubstateDatabaseOverlay D) := {
  get_raw_substate_by_db_key := overlay_get;
  list_raw_values_from_db_key := overlay_list
}.

(** ** Theory *)

Module StoreTheory.

(** The keys of an [IndexMap] are distinct, at every level of an update. *)
Definition partition_ok (u : PartitionDatabaseUpdates) : Prop :=
  match u with Delta us => im_ok us | Reset_ vs => im_ok vs end.
Definition node_ok (u : NodeDatabaseUpdates) : Prop := im_ok u /\ Forall (fun e => partition_ok e.2) u.
Definition updates_ok (u : DatabaseUpdates) : Prop := im_ok u /\ Forall (fun e => node_ok e.2) u.

(** A database: sorted, and no partition is empty. *)
Definition db_ok (db : InMemorySubstateDatabase) : Prop :=
  bt_ok db /\ forall pk p, bt_get pk db = Some p -> bt_ok p /\ p <> [].

Definition apply_change (c : option DatabaseUpdate) (old : option DbSubstateValue) :
    option DbSubstateValue :=
  match c with None => old | Some (Set_ v) => Some v | Some Delete => None end.

(** The change an update makes to a substate. *)
Definition change_of (u : DatabaseUpdates) (pk : DbPartitionKey) (sk : DbSortKey) :
    option DatabaseUpdate :=
  match n ← im_get pk.1 u; im_get pk.2 n with
  | Some p => get_substate_change p sk
  | None => None
  end.

Section Generic.
Context {K V : Type} `{OrdLaws K} `{EqDecision K}.

Lemma cmp_decide (a b : K) {A} (x y z : A) :
  match cmp a b with Eq => x | Lt => y | Gt => z end =
  if decide (a = b) then x else match cmp a b with Lt => y | _ => z end.
Proof.
  case_decide as Hd; [subst; by rewrite cmp_refl|].
  destruct (cmp a b) eqn:E; try done. by apply cmp_eq in E.
Qed.

Lemma cmp_decide2 (a b : K) {A} (x y : A) :
  match cmp a b with Eq => x | _ => y end = if decide (a = b) then x else y.
Proof.
  case_decide as Hd; [subst; by rewrite cmp_refl|].
  destruct (cmp a b) eqn:E; try done. by apply cmp_eq in E.
Qed.

Lemma last_get_im k (l : IndexMap K V) : im_ok l -> last_get k l = im_get k l.
Proof.
  unfold im_ok, im_keys. induction l as [|[k' v] l IH]; cbn; [done|].
  intros [Hn Hl]%NoDup_cons. rewrite IH by done. rewrite cmp_decide2.
  case_decide; [subst|by destruct (im_get k l)]. by rewrite (proj2 (im_get_None k' l)).
Qed.

Lemma bt_get_from_iter k (l : IndexMap K V) : im_ok l -> bt_get k (bt_from_iter l) = im_get k l.
Proof.
  intros Hl. unfold bt_from_iter. rewrite bt_get_extend, last_get_im by done.
  by destruct (im_get k l).
Qed.

Lemma bt_ok_from_iter (l : list (K * V)) : bt_ok (bt_from_iter l).
Proof. by apply bt_ok_extend. Qed.

Lemma below_not_elem k (m : BTreeMap K V) : below k m -> k ∉ m.*1.
Proof.
  induction m as [|[k' v] m IH]; cbn; [intros _; apply not_elem_of_nil|].
  intros [Hlt Hb]. apply not_elem_of_cons. split; [|auto].
  intros ->. by rewrite cmp_refl in Hlt.
Qed.

Lemma bt_ok_nodup (m : BTreeMap K V) : bt_ok m -> im_ok m.
Proof.
  unfold im_ok, im_keys. induction m as [|[k v] m IH]; cbn; [constructor|].
  intros [Hb Hm]. constructor; [by apply below_not_elem|auto].
Qed.

Lemma im_get_bt k (m : BTreeMap K V) : bt_ok m -> im_get k m = bt_get k m.
Proof.
  induction m as [|[k' v] m IH]; cbn; [done|]. intros [Hb Hm]. rewrite cmp_decide.
  case_decide; [done|]. rewrite IH by done. destruct (cmp k k') eqn:E; [done| |done].
  apply bt_get_below. by eapply below_trans.
Qed.
End Generic.

Lemma im_collect_id {K V} `{EqDecision K} (l : IndexMap K V) : im_ok l -> im_collect l = l.
Proof.
  unfold im_collect.
  enough (forall m, im_ok (m ++ l) -> foldl (fun m e => im_insert e.1 e.2 m) m l = m ++ l) as Hg
    by (intros Hl; by apply (Hg [])).
  induction l as [|[k v] l IH]; intros m Hm; cbn; [by rewrite app_nil_r|].
  assert (im_insert k v m = m ++ [(k, v)]) as ->.
  { unfold im_ok, im_keys in Hm. rewrite fmap_app in Hm. cbn in Hm.
    apply NoDup_app in Hm as (_ & Hd & _). clear IH.
    assert (k ∉ m.*1) as Hk by (intros Hin; apply (Hd k Hin); left).
    clear Hd. induction m as [|[k' v'] m IHm]; cbn in *; [done|].
    apply not_elem_of_cons in Hk as [Hne Hk]. rewrite decide_False by done. by rewrite IHm. }
  rewrite IH; [by rewrite <- app_assoc | by rewrite <- app_assoc].
Qed.

Lemma im_ok_map {K V W} `{EqDecision K} (f : V -> W) (l : IndexMap K V) :
  im_ok l -> im_ok ((fun e => (e.1, f e.2)) <$> l).
Proof. unfold im_ok, im_keys. by rewrite <- list_fmap_compose. Qed.

Lemma im_get_fmap {K V W} `{EqDecision K} (f : V -> W) k (l : IndexMap K V) :
  im_get k ((fun e => (e.1, f e.2)) <$> l) = f <$> im_get k l.
Proof. induction l as [|[k' v] l IH]; cbn; [done|]. by case_decide. Qed.

Lemma below_map {K V W} `{Ord K} (f : V -> W) k (m : BTreeMap K V) :
  below k m -> below k ((fun e => (e.1, f e.2)) <$> m).
Proof. induction m as [|[k' v] m IH]; cbn; [done|]. intros [? ?]; auto. Qed.

Lemma bt_ok_map {K V W} `{Ord K} (f : V -> W) (m : BTreeMap K V) :
  bt_ok m -> bt_ok ((fun e => (e.1, f e.2)) <$> m).
Proof. induction m as [|[k v] m IH]; cbn; [done|]. intros [? ?]. split; [by apply below_map|auto]. Qed.

Lemma bt_get_map {K V W} `{Ord K} (f : V -> W) k (m : BTreeMap K V) :
  bt_get k ((fun e => (e.1, f e.2)) <$> m) = f <$> bt_get k m.
Proof. induction m as [|[k' v] m IH]; cbn; [done|]. by destruct (cmp k k'). Qed.

(** *** The in-memory database applies updates *)

Lemma foldl_apply_ok p us : bt_ok p -> bt_ok (foldl apply_update p us).
Proof.
  revert p. induction us as [|[k [v|]] us IH]; cbn; [done| |]; intros p Hp; apply IH;
    [by apply bt_ok_insert | by apply bt_ok_remove].
Qed.

Lemma foldl_apply_get p us sk : bt_ok p -> im_ok us ->
  bt_get sk (foldl apply_update p us) = apply_change (im_get sk us) (bt_get sk p).
Proof.
  revert p. induction us as [|[k c] us IH]; intros p Hp Hus; [done|].
  unfold im_ok, im_keys in Hus. cbn in Hus. apply NoDup_cons in Hus as [Hn Hus].
  cbn [foldl im_get]. unfold apply_update at 2. cbn [fst snd].
  rewrite IH; [|destruct c; [by apply bt_ok_insert | by apply bt_ok_remove]|done].
  destruct c as [v|]; rewrite ?bt_get_insert, ?bt_get_remove, ?cmp_decide2 by done.
  all: case_decide; [subst; by rewrite (proj2 (im_get_None k us))|done].
Qed.

Lemma partition_after_ok p u : bt_ok p -> bt_ok
  (match u with Delta us => foldl apply_update p us | Reset_ vs => bt_from_iter vs end).
Proof. destruct u; [apply foldl_apply_ok | intros _; apply bt_ok_from_iter]. Qed.

Lemma partition_after_get p u sk : bt_ok p -> partition_ok u ->
  bt_get sk (match u with Delta us => foldl apply_update p us | Reset_ vs => bt_from_iter vs end) =
  apply_change (get_substate_change u sk) (bt_get sk p).
Proof.
  intros Hp. destruct u as [us|vs]; cbn; intros Hu; [by apply foldl_apply_get|].
  rewrite bt_get_from_iter by done. by destruct (im_get sk vs).
Qed.

Lemma db_partition_ok db pk : db_ok db -> bt_ok (default [] (bt_get pk db)).
Proof. intros [_ Hdb]. destruct (bt_get pk db) eqn:E; cbn; [by apply (Hdb pk)|done]. Qed.

Lemma mem_get_default db pk sk : mem_get db pk sk = bt_get sk (default [] (bt_get pk db)).
Proof. unfold mem_get. by destruct (bt_get pk db). Qed.

Lemma commit_partition_ok db pk u : db_ok db -> db_ok (commit_partition db pk u).
Proof.
  intros Hdb. pose proof (partition_after_ok _ u (db_partition_ok db pk Hdb)) as Hp.
  unfold commit_partition. destruct Hdb as [Hok Hall].
  destruct (match u with Delta _ => _ | Reset_ _ => _ end) as [|e p].
  - split; [by apply bt_ok_remove, bt_ok_insert|]. intros pk' p'.
    rewrite bt_get_remove, bt_get_insert, !cmp_decide2 by (try done; by apply bt_ok_insert).
    case_decide; [done|apply Hall].
  - split; [by apply bt_ok_insert|]. intros pk' p'. rewrite bt_get_insert, cmp_decide2 by done.
    case_decide; [by intros [= <-]|apply Hall].
Qed.

Lemma commit_partition_get db pk u pk' sk : db_ok db -> partition_ok u ->
  mem_get (commit_partition db pk u) pk' sk =
  if decide (pk' = pk) then apply_change (get_substate_change u sk) (mem_get db pk sk)
  else mem_get db pk' sk.
Proof.
  intros Hdb Hu. pose proof (partition_after_get _ u sk (db_partition_ok db pk Hdb) Hu) as Hp.
  unfold commit_partition. destruct Hdb as [Hok _]. rewrite !mem_get_default.
  destruct (match u with Delta _ => _ | Reset_ _ => _ end) as [|e p].
  - rewrite bt_get_remove, bt_get_insert, !cmp_decide2 by (try done; by apply bt_ok_insert).
    by case_decide.
  - rewrite bt_get_insert, cmp_decide2 by done. by case_decide.
Qed.

Lemma commit_node_spec u db nk : db_ok db -> node_ok u ->
  db_ok (commit_node db nk u) /\ forall pk sk, mem_get (commit_node db nk u) pk sk =
    if decide (pk.1 = nk) then
      match im_get pk.2 u with
      | Some p => apply_change (get_substate_change p sk) (mem_get db pk sk)
      | None => mem_get db pk sk
      end
    else mem_get db pk sk.
Proof.
  unfold commit_node, node_ok, im_ok, im_keys. revert db. induction u as [|[n p] u IH]; intros db Hdb [Hnd Hall].
  - split; [done|]. intros pk sk. cbn. by case_decide.
  - cbn in Hnd. apply NoDup_cons in Hnd as [Hn Hnd]. apply Forall_cons in Hall as [Hp Hall].
    cbn [foldl fst snd] in *.
    destruct (IH (commit_partition db (nk, n) p)) as [Hok Hg]; [by apply commit_partition_ok|done|].
    split; [done|]. intros [k1 k2] sk. rewrite Hg, !commit_partition_get by done. cbn [fst snd im_get].
    destruct (decide (k1 = nk)) as [->|Hne].
    + destruct (decide (k2 = n)) as [->|Hne2].
      * rewrite (proj2 (im_get_None n u)) by done. by rewrite !decide_True.
      * rewrite !(decide_False (P := (nk, k2) = (nk, n))) by congruence. done.
    + by rewrite decide_False by congruence.
Qed.

Lemma mem_commit_spec u db : db_ok db -> updates_ok u ->
  db_ok (mem_commit db u) /\ forall pk sk,
    mem_get (mem_commit db u) pk sk = apply_change (change_of u pk sk) (mem_get db pk sk).
Proof.
  unfold mem_commit, updates_ok, im_ok, im_keys, change_of. revert db.
  induction u as [|[nk n] u IH]; intros db Hdb [Hnd Hall]; [done|].
  cbn in Hnd. apply NoDup_cons in Hnd as [Hn Hnd]. apply Forall_cons in Hall as [Hp Hall].
  cbn [foldl fst snd] in *. destruct (commit_node_spec n db nk Hdb Hp) as [Hdb' Hg].
  destruct (IH _ Hdb' (conj Hnd Hall)) as [Hok Hg']. split; [done|].
  intros pk sk. rewrite Hg', Hg. cbn [im_get]. destruct (decide (pk.1 = nk)) as [E|]; [|done].
  rewrite E, (proj2 (im_get_None nk u)) by done. cbn. by destruct (im_get pk.2 n).
Qed.

(** *** The listing of the in-memory database *)

Lemma skip_while_range from (p : BTreeMap DbSortKey DbSubstateValue) :
  skip_while (fun e => before from e.1) p = range_from_opt from p.
Proof.
  destruct from as [f|]; cbn; [|by destruct p].
  induction p as [|[k v] p IH]; cbn; [done|]. by rewrite IH.
Qed.

Lemma range_from_opt_ok {V} from (m : BTreeMap DbSortKey V) : bt_ok m -> bt_ok (range_from_opt from m).
Proof. destruct from; cbn; [apply bt_ok_range|done]. Qed.

Lemma range_from_opt_get {V} from (m : BTreeMap DbSortKey V) sk : bt_ok m ->
  bt_get sk (range_from_opt from m) = if before from sk then None else bt_get sk m.
Proof. destruct from; cbn; [apply bt_get_range|done]. Qed.

#[global] Instance memory_laws : SubstateDatabaseLaws InMemorySubstateDatabase db_ok.
Proof.
  split. intros db pk from Hdb. eexists. split; [reflexivity|].
  unfold mem_list. rewrite skip_while_range. split; [by apply range_from_opt_ok, db_partition_ok|].
  intros sk. rewrite range_from_opt_get by (by apply db_partition_ok).
  cbn. by rewrite mem_get_default.
Qed.

(** *** Staged updates *)

Definition staging_partition_ok (u : StagingPartitionDatabaseUpdates) : Prop :=
  match u with StagingDelta us => bt_ok us | StagingReset vs => bt_ok vs end.
Definition staging_node_ok (n : StagingNodeDatabaseUpdates) : Prop :=
  bt_ok n /\ forall k p, bt_get k n = Some p -> staging_partition_ok p.
Definition staging_ok (st : StagingDatabaseUpdates) : Prop :=
  bt_ok st /\ forall k n, bt_get k st = Some n -> staging_node_ok n.

Definition staged_change (u : StagingPartitionDatabaseUpdates) (sk : DbSortKey) : option DatabaseUpdate :=
  match u with
  | StagingDelta us => bt_get sk us
  | StagingReset vs =>
      match bt_get sk vs with Some v => Some (Set_ v) | None => Some Delete end
  end.

Definition staged (st : StagingDatabaseUpdates) (pk : DbPartitionKey) (sk : DbSortKey) :
    option DatabaseUpdate :=
  match n ← bt_get pk.1 st; bt_get pk.2 n with
  | Some p => staged_change p sk
  | None => None
  end.

(** A later change hides an earlier one. *)
Definition then_change (later earlier : option DatabaseUpdate) : option DatabaseUpdate :=
  match later with Some c => Some c | None => earlier end.

Lemma apply_then later earlier old :
  apply_change (then_change later earlier) old = apply_change later (apply_change earlier old).
Proof. by destruct later. Qed.

Lemma into_staging_partition_spec u : partition_ok u ->
  staging_partition_ok (into_staging_partition u) /\
  forall sk, staged_change (into_staging_partition u) sk = get_substate_change u sk.
Proof.
  destruct u as [us|vs]; cbn; intros Hu; (split; [apply bt_ok_from_iter|]); intros sk;
    by rewrite bt_get_from_iter.
Qed.

Lemma foldl_reset_eq vs us : foldl apply_reset_update vs us = foldl apply_update vs us.
Proof. done. Qed.

Lemma merge_partition_spec t u : staging_partition_ok t -> partition_ok u ->
  staging_partition_ok (merge_partition t u) /\
  forall sk, staged_change (merge_partition t u) sk =
    then_change (get_substate_change u sk) (staged_change t sk).
Proof.
  destruct t as [tu|tv], u as [us|vs]; cbn [staging_partition_ok partition_ok]; intros Ht Hu.
  - split; [by apply bt_ok_extend|]. intros sk. cbn. rewrite bt_get_extend, last_get_im by done.
    by destruct (im_get sk us).
  - destruct (into_staging_partition_spec (Reset_ vs) Hu) as [Hok Hg]. split; [done|].
    intros sk. cbn [merge_partition]. rewrite Hg. cbn. by destruct (im_get sk vs).
  - cbn [merge_partition]. rewrite foldl_reset_eq. split; [by apply foldl_apply_ok|].
    intros sk. cbn. rewrite foldl_apply_get by done. by destruct (im_get sk us) as [[]|].
  - destruct (into_staging_partition_spec (Reset_ vs) Hu) as [Hok Hg]. split; [done|].
    intros sk. cbn [merge_partition]. rewrite Hg. cbn. by destruct (im_get sk vs).
Qed.

(** The change staged for a substate of a node. *)
Definition node_change (u : NodeDatabaseUpdates) (pn : Z) (sk : DbSortKey) : option DatabaseUpdate :=
  match im_get pn u with Some p => get_substate_change p sk | None => None end.
Definition node_staged (n : StagingNodeDatabaseUpdates) (pn : Z) (sk : DbSortKey) : option DatabaseUpdate :=
  match bt_get pn n with Some p => staged_change p sk | None => None end.

Lemma merge_node_spec u n : staging_node_ok n -> node_ok u ->
  staging_node_ok (merge_node n u) /\
  forall pn sk, node_staged (merge_node n u) pn sk =
    then_change (node_change u pn sk) (node_staged n pn sk).
Proof.
  unfold merge_node, node_ok, im_ok, im_keys. revert n.
  induction u as [|[k p] u IH]; intros n Hn [Hnd Hall]; [done|].
  cbn in Hnd. apply NoDup_cons in Hnd as [Hk Hnd]. apply Forall_cons in Hall as [Hp Hall].
  cbn [foldl fst snd] in *.
  set (p' := match bt_get k n with Some t => merge_partition t p | None => into_staging_partition p end).
  assert (staging_partition_ok p' /\ forall sk, staged_change p' sk =
    then_change (get_substate_change p sk) (node_staged n k sk)) as [Hp' Hg'].
  { unfold p', node_staged. destruct Hn as [_ Hn]. destruct (bt_get k n) as [t|] eqn:E.
    - apply merge_partition_spec; [by apply (Hn k)|done].
    - destruct (into_staging_partition_spec p Hp) as [? Hsk]. split; [done|].
      intros sk. rewrite Hsk. by destruct (get_substate_change p sk). }
  replace (match bt_get k n with Some t => _ | None => _ end) with (bt_insert k p' n)
    by (unfold p'; by destruct (bt_get k n)).
  assert (staging_node_ok (bt_insert k p' n)) as Hn'.
  { destruct Hn as [Hok Hn]. split; [by apply bt_ok_insert|]. intros k' q.
    rewrite bt_get_insert, cmp_decide2 by done. case_decide; [by intros [= <-]|apply Hn]. }
  destruct (IH _ Hn' (conj Hnd Hall)) as [Hok Hg]. split; [done|].
  intros pn sk. rewrite Hg. unfold node_change, node_staged at 1. cbn [im_get].
  rewrite bt_get_insert, cmp_decide2 by apply Hn. destruct (decide (pn = k)) as [->|]; [|done].
  rewrite (proj2 (im_get_None k u)) by done. cbn [then_change]. apply Hg'.
Qed.

Lemma into_staging_node_spec u : node_ok u ->
  staging_node_ok (into_staging_node u) /\
  forall pn sk, node_staged (into_staging_node u) pn sk = node_change u pn sk.
Proof.
  intros [Hnd Hall]. unfold into_staging_node, node_staged, node_change.
  pose proof (im_ok_map into_staging_partition u Hnd) as Hm.
  assert (forall k p, im_get k u = Some p -> partition_ok p) as Hp.
  { intros k p Hkp%im_get_elem. rewrite Forall_forall in Hall. apply (Hall _ Hkp). }
  split.
  - split; [apply bt_ok_from_iter|]. intros k p. rewrite bt_get_from_iter, im_get_fmap by done.
    intros (q & Hq & ->)%fmap_Some. by apply into_staging_partition_spec, (Hp k).
  - intros pn sk. rewrite bt_get_from_iter, im_get_fmap by done.
    destruct (im_get pn u) as [p|] eqn:E; cbn; [|done].
    by apply into_staging_partition_spec, (Hp pn).
Qed.

Lemma staged_node st pk sk :
  staged st pk sk = match bt_get pk.1 st with Some n => node_staged n pk.2 sk | None => None end.
Proof. unfold staged, node_staged. by destruct (bt_get pk.1 st). Qed.

Lemma change_of_node u pk sk :
  change_of u pk sk = match im_get pk.1 u with Some n => node_change n pk.2 sk | None => None end.
Proof. unfold change_of, node_change. by destruct (im_get pk.1 u). Qed.

Lemma merge_spec u st : staging_ok st -> updates_ok u ->
  staging_ok (merge_database_updates st u) /\
  forall pk sk, staged (merge_database_updates st u) pk sk =
    then_change (change_of u pk sk) (staged st pk sk).
Proof.
  unfold merge_database_updates, updates_ok, im_ok, im_keys. revert st.
  induction u as [|[k n] u IH]; intros st Hst [Hnd Hall]; [done|].
  cbn in Hnd. apply NoDup_cons in Hnd as [Hk Hnd]. apply Forall_cons in Hall as [Hn Hall].
  cbn [foldl fst snd] in *.
  set (n' := match bt_get k st with Some t => merge_node t n | None => into_staging_node n end).
  assert (staging_node_ok n' /\ forall pn sk, node_staged n' pn sk =
    then_change (node_change n pn sk)
      (match bt_get k st with Some t => node_staged t pn sk | None => None end)) as [Hn' Hg'].
  { unfold n'. destruct Hst as [_ Hst]. destruct (bt_get k st) as [t|] eqn:E.
    - apply merge_node_spec; [by apply (Hst k)|done].
    - destruct (into_staging_node_spec n Hn) as [? Hsk]. split; [done|].
      intros pn sk. rewrite Hsk. by destruct (node_change n pn sk). }
  replace (match bt_get k st with Some t => _ | None => _ end) with (bt_insert k n' st)
    by (unfold n'; by destruct (bt_get k st)).
  assert (staging_ok (bt_insert k n' st)) as Hst'.
  { destruct Hst as [Hok Hst]. split; [by apply bt_ok_insert|]. intros k' q.
    rewrite bt_get_insert, cmp_decide2 by done. case_decide; [by intros [= <-]|apply Hst]. }
  destruct (IH _ Hst' (conj Hnd Hall)) as [Hok Hg]. split; [done|].
  intros pk sk. rewrite Hg, !change_of_node, !staged_node. cbn [im_get].
  rewrite bt_get_insert, cmp_decide2 by apply Hst. destruct (decide (pk.1 = k)) as [->|]; [|done].
  rewrite (proj2 (im_get_None k u)) by done. cbn [then_change]. apply Hg'.
Qed.

(** *** Reading through the overlay *)

Definition overlay_ok {D} (inv : D -> Prop) (o : SubstateDatabaseOverlay D) : Prop :=
  staging_ok (overlay o) /\ inv (root o).

Section Reading.
Context {D : Type} `{SubstateDatabase D} (inv : D -> Prop).
Context {HL : SubstateDatabaseLaws D inv}.

Lemma overlay_get_spec (o : SubstateDatabaseOverlay D) pk sk :
  overlay_get o pk sk =
  apply_change (staged (overlay o) pk sk) (get_raw_substate_by_db_key (root o) pk sk).
Proof.
  unfold overlay_get, staged. destruct (bt_get pk.1 (overlay o)) as [n|]; cbn; [|done].
  destruct (bt_get pk.2 n) as [[us|vs]|]; cbn; [| |done].
  - by destruct (bt_get sk us) as [[]|].
  - by destruct (bt_get sk vs).
Qed.

Lemma staged_partition_ok st pk n p : staging_ok st ->
  bt_get pk.1 st = Some n -> bt_get pk.2 n = Some p -> staging_partition_ok p.
Proof. intros [_ Hst] Hn Hp. apply (Hst _ _ Hn) in Hp. done. Qed.

(** Listing through the overlay is sorted and has the readable substates. *)
#[global] Instance overlay_laws : SubstateDatabaseLaws (SubstateDatabaseOverlay D) (overlay_ok inv).
Proof.
  split. intros o pk from [Hst Hinv]. cbn [list_raw_values_from_db_key overlay_database
    get_raw_substate_by_db_key]. destruct (list_exact (root o) pk from Hinv) as (lr & Hlr & Hok & Hg).
  assert (forall p, staging_partition_ok p -> exists l,
    match p with
    | StagingReset vs => Done (range_from_opt from vs)
    | StagingDelta us => underlying ← list_raw_values_from_db_key (root o) pk from;
        overlaying_list underlying (update_to_option <$> range_from_opt from us)
    end = Done l /\ bt_ok l /\ forall sk, bt_get sk l =
      if before from sk then None
      else apply_change (staged_change p sk) (get_raw_substate_by_db_key (root o) pk sk)) as Hp.
  { intros [us|vs] Hp; cbn in Hp.
    - rewrite Hlr. cbn [mbind Exec_bind].
      set (g := fun c : DatabaseUpdate => match c with Set_ v => Some v | Delete => None end).
      change (update_to_option <$> range_from_opt from us) with
        ((fun e => (e.1, g e.2)) <$> range_from_opt from us).
      destruct (overlaying_list_ok lr ((fun e => (e.1, g e.2)) <$> range_from_opt from us))
        as (l & Hl & Hlok & Hlg); [done|by apply bt_ok_map, range_from_opt_ok|].
      exists l. split_and!; [done|done|]. intros sk. rewrite Hlg. unfold overlaid.
      rewrite bt_get_map, range_from_opt_get, Hg by done. destruct (before from sk); [done|].
      cbn. by destruct (bt_get sk us) as [[]|].
    - eexists. split_and!; [reflexivity|by apply range_from_opt_ok|].
      intros sk. rewrite range_from_opt_get by done. cbn. by destruct (bt_get sk vs). }
  unfold overlay_list. setoid_rewrite overlay_get_spec. unfold staged.
  destruct (bt_get pk.1 (overlay o)) as [n|] eqn:En; cbn; [|eauto].
  destruct (bt_get pk.2 n) as [p|] eqn:Ep; cbn; [|eauto].
  destruct (Hp p (staged_partition_ok _ _ _ _ Hst En Ep)) as (l & Hl & ? & ?). exists l.
  by destruct p.
Qed.
End Reading.

(** *** Committing the overlay *)

Lemma from_staging_partition_spec u : staging_partition_ok u ->
  partition_ok (from_staging_partition u) /\
  forall sk, get_substate_change (from_staging_partition u) sk = staged_change u sk.
Proof.
  destruct u as [us|vs]; cbn; intros Hu; rewrite im_collect_id by (by apply bt_ok_nodup);
    (split; [by apply bt_ok_nodup|]); intros sk; by rewrite im_get_bt.
Qed.

Lemma from_staging_node_spec n : staging_node_ok n ->
  node_ok (from_staging_node n) /\
  forall pn sk, node_change (from_staging_node n) pn sk = node_staged n pn sk.
Proof.
  intros [Hok Hall]. unfold from_staging_node.
  pose proof (im_ok_map from_staging_partition n (bt_ok_nodup n Hok)) as Hm.
  rewrite im_collect_id by done. split.
  - split; [done|]. rewrite Forall_fmap, Forall_forall. intros [k p] Hkp. cbn.
    apply from_staging_partition_spec, (Hall k). rewrite <- im_get_bt by done.
    apply im_elem_get; [by apply bt_ok_nodup|done].
  - intros pn sk. unfold node_change, node_staged. rewrite im_get_fmap, im_get_bt by done.
    destruct (bt_get pn n) as [p|] eqn:E; cbn; [|done]. by apply from_staging_partition_spec, (Hall pn).
Qed.

Lemma from_staging_spec st : staging_ok st ->
  updates_ok (from_staging st) /\ forall pk sk, change_of (from_staging st) pk sk = staged st pk sk.
Proof.
  intros [Hok Hall]. unfold from_staging.
  pose proof (im_ok_map from_staging_node st (bt_ok_nodup st Hok)) as Hm.
  rewrite im_collect_id by done. split.
  - split; [done|]. rewrite Forall_fmap, Forall_forall. intros [k p] Hkp. cbn.
    apply from_staging_node_spec, (Hall k). rewrite <- im_get_bt by done.
    apply im_elem_get; [by apply bt_ok_nodup|done].
  - intros pk sk. rewrite change_of_node, staged_node, im_get_fmap, im_get_bt by done.
    destruct (bt_get pk.1 st) as [n|] eqn:E; cbn; [|done]. by apply from_staging_node_spec, (Hall pk.1).
Qed.

(** Databases with the same substates are the same database. *)
Lemma mem_ext db1 db2 : db_ok db1 -> db_ok db2 ->
  (forall pk sk, mem_get db1 pk sk = mem_get db2 pk sk) -> db1 = db2.
Proof.
  intros [Ok1 P1] [Ok2 P2] Hg. apply bt_ext; [done|done|]. intros pk.
  pose proof (fun sk => Hg pk sk) as Hpk. unfold mem_get in Hpk.
  destruct (bt_get pk db1) as [p1|] eqn:E1, (bt_get pk db2) as [p2|] eqn:E2; cbn in Hpk.
  - f_equal. apply bt_ext; [by eapply P1|by eapply P2|done].
  - exfalso. destruct (P1 _ _ E1) as [? Hne]. by apply Hne, bt_get_None_nil.
  - exfalso. destruct (P2 _ _ E2) as [? Hne]. by apply Hne, bt_get_None_nil.
  - done.
Qed.

Lemma commits_simulate (us : list DatabaseUpdates) (o : SubstateDatabaseOverlay InMemorySubstateDatabase) db :
  overlay_ok db_ok o -> db_ok db -> Forall updates_ok us ->
  (forall pk sk, overlay_get o pk sk = mem_get db pk sk) ->
  let o' := foldl overlay_commit o us in let db' := foldl mem_commit db us in
  overlay_ok db_ok o' /\ db_ok db' /\ forall pk sk, overlay_get o' pk sk = mem_get db' pk sk.
Proof.
  revert o db. induction us as [|u us IH]; intros o db Ho Hdb Hus Hg; [done|].
  apply Forall_cons in Hus as [Hu Hus]. cbn [foldl].
  destruct (mem_commit_spec u db Hdb Hu) as [Hdb' Hg'].
  destruct Ho as [Hst Hroot]. destruct (merge_spec u (overlay o) Hst Hu) as [Hst' Hs].
  apply IH; [done|done|done|]. intros pk sk.
  rewrite Hg', <- Hg, !overlay_get_spec. cbn [overlay overlay_commit root]. by rewrite Hs, apply_then.
Qed.

Lemma list_agree (o : SubstateDatabaseOverlay InMemorySubstateDatabase) db pk from :
  overlay_ok db_ok o -> db_ok db ->
  (forall pk sk, overlay_get o pk sk = mem_get db pk sk) ->
  overlay_list o pk from = Done (mem_list db pk from).
Proof.
  intros Ho Hdb Hg.
  destruct (list_exact (SubstateDatabaseLaws := overlay_laws db_ok) o pk from Ho) as (l1 & H1 & Ok1 & G1).
  destruct (list_exact (SubstateDatabaseLaws := memory_laws) db pk from Hdb) as (l2 & H2 & Ok2 & G2).
  cbn in H1, H2, G1, G2. rewrite H1. injection H2 as ->. f_equal. apply bt_ext; [done|done|].
  intros sk. by rewrite G1, G2, Hg.
Qed.
End StoreTheory.

(** ** Theorems *)

Module StoreTheorems.
Import StoreTheory.

(** C11. Reading through an overlay is reading the database with the staged
    updates committed: after any sequence of commits, the overlay over a
    database answers every lookup and every listing (in order, from any start
    key) as the database that committed the same updates directly; and
    committing the overlay into its root makes the root that database and
    leaves the overlay empty. *)
Theorem overlay_equals_commit (db : InMemorySubstateDatabase) (us : list DatabaseUpdates)
    (Hdb : db_ok db) (Hus : Forall updates_ok us) :
  let o := foldl overlay_commit (overlay_new db) us in
  let db' := foldl mem_commit db us in
  (forall pk sk, overlay_get o pk sk = mem_get db' pk sk) /\
  (forall pk from, overlay_list o pk from = Done (mem_list db' pk from)) /\
  commit_overlay_into_root_store o = overlay_new db'.
Proof.
  intros o db'. destruct (commits_simulate us (overlay_new db) db) as (Ho & Hdb' & Hg);
    [split; [by split|done]|done|done|done|]. fold o in Ho, Hg. fold db' in Hdb', Hg.
  split; [done|]. split; [intros; by apply list_agree|].
  unfold commit_overlay_into_root_store, overlay_new. f_equal. destruct Ho as [Hst Hr].
  destruct (from_staging_spec _ Hst) as [Hu Hc].
  destruct (mem_commit_spec _ _ Hr Hu) as [Hok Hgc].
  apply mem_ext; [done|done|]. intros pk sk. by rewrite Hgc, Hc, <- Hg, overlay_get_spec.
Qed.

(** A partition with two substates; a reset, a delta over it, a delete. *)
Definition sample_db : InMemorySubstateDatabase := [(([1], 0), [([5], [50]); ([7], [70])])].
Definition sample_updates : list DatabaseUpdates :=
  [ [([1], [(0, Delta [([6], Set_ [60]); ([5], Delete)])]); ([2], [(3, Reset_ [([9], [90])])])];
    [([2], [(3, Delta [([9], Delete); ([8], Set_ [80])])])] ].

Lemma overlay_equals_commit_witness :
  let o := foldl overlay_commit (overlay_new sample_db) sample_updates in
  overlay_list o ([1], 0) None = Done [([6], [60]); ([7], [70])] /\
  overlay_get o ([2], 3) [8] = Some [80] /\
  root (commit_overlay_into_root_store o) =
    [(([1], 0), [([6], [60]); ([7], [70])]); (([2], 3), [([8], [80])])].
Proof.
  destruct (overlay_equals_commit sample_db sample_updates) as (Hg & Hl & Hc).
  - split; [cbn; repeat split; reflexivity|]. intros pk p. cbn.
    destruct (_ : comparison); intros [= <-]. split; [cbn; repeat split; reflexivity|discriminate].
  - unfold updates_ok, node_ok, im_ok, im_keys, partition_ok. cbn.
    repeat (constructor; cbn; rewrite ?not_elem_of_cons; try done);
      intros Hin; repeat (apply elem_of_cons in Hin as [Hin|Hin]; [discriminate|]);
      by apply not_elem_of_nil in Hin.
  - cbv zeta. split; [rewrite Hl; reflexivity|]. split; [rewrite Hg; reflexivity|].
    rewrite Hc. reflexivity.
Defined.

(** A partition emptied in the overlay is still listed by it, and not by the
    database it is committed to. *)
Example emptied_partition_listed :
  let o := overlay_commit (overlay_new sample_db) [([1], [(0, Reset_ [])])] in
  overlay_list_partition_keys o = Done [([1], 0)] /\
  mem_list_partition_keys (root (commit_overlay_into_root_store o)) = [].
Proof. split; reflexivity. Qed.

End StoreTheorems.
