(* ===== verification/StateUpdates.v ===== *)
(** * State updates

    The updates of a transaction receipt (radix-common/src/state/state_updates.rs)
    and how they become database updates: [create_database_updates] of
    radix-substate-store-interface/src/interface.rs with the key mapper of
    db_key_mapper.rs.  [NodeStateUpdates] has one variant, so it is its map.
    The hash function is a parameter of 32 bytes of output. *)

From S2P Require Import Prelude Bytes IndexMap BTreeMap SborCustom SubstateStore.
Import StoreTheory.

(** ** Keys *)

Inductive SubstateKey : Type :=
| Field (k : Z)
| Map (k : list Z)
| Sorted (prefix : list Z) (k : list Z).

#[global] Instance SubstateKey_eq_dec : EqDecision SubstateKey.
Proof. solve_decision. Defined.

(** ** State updates *)

Inductive PartitionStateUpdates : Type :=
| PartitionDelta (by_substate : IndexMap SubstateKey DatabaseUpdate)
| Batch (new_substate_values : IndexMap SubstateKey DbSubstateValue).

Abbreviation NodeStateUpdates := (list (Z * PartitionStateUpdates)) (only parsing).
Abbreviation StateUpdates := (list (list Z * list (Z * PartitionStateUpdates))) (only parsing).

(** ** The key mapper and the operations *)
Section Mapper.
Context (hash : list Z -> list Z).

Definition HASHED_PREFIX_LENGTH : nat := 20.

Definition to_hash_prefixed (plain_bytes : list Z) : list Z :=
  take HASHED_PREFIX_LENGTH (hash plain_bytes) ++ plain_bytes.

(** [&bytes[n..]] *)
Definition bytes_from (n : nat) (bs : list Z) : Exec (list Z) :=
  if (length bs <? n)%nat then Panicked else Done (drop n bs).

Definition from_hash_prefixed (prefixed_bytes : list Z) : Exec (list Z) :=
  bytes_from HASHED_PREFIX_LENGTH prefixed_bytes.

Definition to_db_node_key (node_id : list Z) : DbNodeKey := to_hash_prefixed node_id.
Definition from_db_node_key (db_node_key : DbNodeKey) : Exec (list Z) :=
  plain ← from_hash_prefixed db_node_key; copy_u8_array NODE_ID_LENGTH plain.

Definition to_db_sort_key (key : SubstateKey) : DbSortKey :=
  match key with
  | Field fields_key => [fields_key]
  | Map map_key => to_hash_prefixed map_key
  | Sorted prefix sorted_key => prefix ++ to_hash_prefixed sorted_key
  end.

Definition field_from_db_sort_key (k : DbSortKey) : Exec SubstateKey :=
  b ← expect (k !! 0%nat); Done (Field b).
Definition map_from_db_sort_key (k : DbSortKey) : Exec SubstateKey :=
  m ← from_hash_prefixed k; Done (Map m).
Definition sorted_from_db_sort_key (k : DbSortKey) : Exec SubstateKey :=
  if (length k <? 2)%nat then Panicked else
  prefix ← copy_u8_array 2 (take 2 k);
  rest ← bytes_from 2 k;
  plain ← from_hash_prefixed rest;
  Done (Sorted prefix plain).

Definition is_no_op (u : PartitionStateUpdates) : bool :=
  match u with
  | PartitionDelta by_substate => match by_substate with [] => true | _ => false end
  | Batch _ => false
  end.

Definition partition_delete : PartitionStateUpdates := Batch [].

Definition contains_set_update_for (u : PartitionStateUpdates) (key : SubstateKey) : bool :=
  match u with
  | PartitionDelta by_substate => match im_get key by_substate with Some (Set_ _) => true | _ => false end
  | Batch vs => match im_get key vs with Some _ => true | None => false end
  end.

Definition batch_update_substate (vs : IndexMap SubstateKey DbSubstateValue)
    (e : SubstateKey * DatabaseUpdate) : IndexMap SubstateKey DbSubstateValue :=
  match e.2 with
  | Set_ new_value => im_insert e.1 new_value vs
  | Delete => (im_swap_remove e.1 vs).2
  end.

Definition mut_update_substate (u : PartitionStateUpdates) (key : SubstateKey) (c : DatabaseUpdate) :
    PartitionStateUpdates :=
  match u with
  | PartitionDelta by_substate => PartitionDelta (im_insert key c by_substate)
  | Batch vs => Batch (batch_update_substate vs (key, c))
  end.

Definition mut_update_substates (u : PartitionStateUpdates)
    (updates : list (SubstateKey * DatabaseUpdate)) : PartitionStateUpdates :=
  match u with
  | PartitionDelta by_substate =>
      PartitionDelta (foldl (fun m e => im_insert e.1 e.2 m) by_substate updates)
  | Batch vs => Batch (foldl batch_update_substate vs updates)
  end.

Definition partition_add (u other : PartitionStateUpdates) : PartitionStateUpdates :=
  match other with
  | PartitionDelta by_substate => mut_update_substates u by_substate
  | Batch _ => other
  end.

(** [or_default] *)
Definition partition_default : PartitionStateUpdates := PartitionDelta [].

Definition node_add (self other : NodeStateUpdates) : NodeStateUpdates :=
  foldl (fun self e =>
    if is_no_op e.2 then self
    else im_update partition_default (fun p => partition_add p e.2) e.1 self) self other.

Definition partition_rebuild (u : PartitionStateUpdates) : option PartitionStateUpdates :=
  match u with
  | PartitionDelta by_substate => match by_substate with [] => None | _ => Some u end
  | Batch _ => Some u
  end.

(** [filter_map(..).collect()] *)
Definition filter_values {K V W} `{EqDecision K} (f : V -> option W) (m : IndexMap K V) : IndexMap K W :=
  im_collect (omap (fun e => w ← f e.2; Some (e.1, w)) m).

Definition node_rebuild (u : NodeStateUpdates) : option NodeStateUpdates :=
  match filter_values partition_rebuild u with
  | [] => None
  | replaced => Some replaced
  end.

Definition rebuild_without_empty_entries (u : StateUpdates) : StateUpdates := filter_values node_rebuild u.

Definition mut_add_node_updates (u : StateUpdates) (node_id : list Z) (node_updates : NodeStateUpdates) :
    StateUpdates :=
  match node_rebuild node_updates with
  | None => u
  | Some node_updates => im_update [] (fun n => node_add n node_updates) node_id u
  end.

(** [create_database_updates] *)
Definition create_partition (u : PartitionStateUpdates) : PartitionDatabaseUpdates :=
  match u with
  | PartitionDelta by_substate => Delta (im_collect ((fun e => (to_db_sort_key e.1, e.2)) <$> by_substate))
  | Batch vs => Reset_ (im_collect ((fun e => (to_db_sort_key e.1, e.2)) <$> vs))
  end.

Definition create_node (u : NodeStateUpdates) : NodeDatabaseUpdates :=
  im_collect ((fun e => (e.1, create_partition e.2)) <$> u).

Definition create_database_updates (u : StateUpdates) : DatabaseUpdates :=
  im_collect ((fun e => (to_db_node_key e.1, create_node e.2)) <$> u).

(** ** Lemmas *)
Context (Hhash : forall bs, length (hash bs) = 32%nat).

Lemma from_to_hash_prefixed bs : from_hash_prefixed (to_hash_prefixed bs) = Done bs.
Proof.
  unfold from_hash_prefixed, to_hash_prefixed, bytes_from.
  assert (length (take HASHED_PREFIX_LENGTH (hash bs)) = HASHED_PREFIX_LENGTH) as Hl
    by (rewrite length_take, Hhash; done).
  rewrite length_app, Hl. destruct (Nat.ltb_spec (HASHED_PREFIX_LENGTH + length bs) HASHED_PREFIX_LENGTH);
    [lia|]. rewrite <- Hl at 1. by rewrite drop_app_length.
Qed.

Lemma to_hash_prefixed_inj bs bs' : to_hash_prefixed bs = to_hash_prefixed bs' -> bs = bs'.
Proof. intros H. pose proof (from_to_hash_prefixed bs) as Hb. rewrite H, from_to_hash_prefixed in Hb. congruence. Qed.

(** Keys of one kind, as in a partition; the prefix of a sorted key is a [u16]. *)
Definition same_kind (k k' : SubstateKey) : Prop :=
  match k, k' with
  | Field _, Field _ => True
  | Map _, Map _ => True
  | Sorted p _, Sorted p' _ => length p = 2%nat /\ length p' = 2%nat
  | _, _ => False
  end.

Lemma to_db_sort_key_inj k k' : same_kind k k' -> to_db_sort_key k = to_db_sort_key k' -> k = k'.
Proof.
  destruct k, k'; cbn; try done.
  - by intros _ [= ->].
  - by intros _ ->%to_hash_prefixed_inj.
  - intros [H1 H2] He. apply app_inj_1 in He as [-> He]; [|congruence].
    by apply to_hash_prefixed_inj in He as ->.
Qed.
End Mapper.

(** ** Maps with renamed keys *)
Section Renamed.
Context {K L V : Type} `{EqDecision K} `{EqDecision L} (f : K -> L) (P : K -> Prop).
Context (Hinj : forall k k', P k -> P k' -> f k = f k' -> k = k').
Implicit Types (m : IndexMap K V).

Definition renamed m : IndexMap L V := (fun e => (f e.1, e.2)) <$> m.
Definition keys_in m : Prop := Forall (fun e : K * V => P e.1) m.

Lemma renamed_get_cons sk k v m :
  im_get sk (renamed ((k, v) :: m)) = if decide (sk = f k) then Some v else im_get sk (renamed m).
Proof. done. Qed.

Lemma renamed_keys m : im_keys (renamed m) = f <$> im_keys m.
Proof. unfold renamed, im_keys. by rewrite <- !list_fmap_compose. Qed.

Lemma keys_in_elem m k : keys_in m -> k ∈ im_keys m -> P k.
Proof.
  intros Hm (e & -> & He)%list_elem_of_fmap. unfold keys_in in Hm.
  rewrite Forall_forall in Hm. by apply Hm.
Qed.

Lemma renamed_ok m : im_ok m -> keys_in m -> im_ok (renamed m).
Proof.
  unfold im_ok. rewrite renamed_keys. intros Hnd Hk.
  assert (forall k, k ∈ im_keys m -> P k) as HP by (intros; by eapply keys_in_elem).
  clear Hk. induction (im_keys m) as [|k ks IH]; [constructor|].
  apply NoDup_cons in Hnd as [Hn Hnd]. cbn. constructor.
  - intros (k' & He & Hin)%list_elem_of_fmap.
    assert (k = k') as <- by (apply Hinj; [apply HP; left|apply HP; by right|done]). done.
  - apply IH; [done|]. intros k' Hk'. apply HP. by right.
Qed.

Lemma renamed_collect m : im_ok m -> keys_in m -> im_collect (renamed m) = renamed m.
Proof. intros. by apply im_collect_id, renamed_ok. Qed.

Lemma keys_in_insert k v m : P k -> keys_in m -> keys_in (im_insert k v m).
Proof.
  unfold keys_in. intros Hk. induction m as [|[k' v'] m IH]; cbn; intros Hm; [by constructor|].
  apply Forall_cons in Hm as [Hk' Hm]. case_decide; constructor; auto.
Qed.

Lemma keys_in_swap_remove k m : im_ok m -> keys_in m -> keys_in (im_swap_remove k m).2.
Proof.
  intros Hok Hm. destruct (im_swap_remove k m) as [[v|] m'] eqn:E; cbn.
  - apply im_swap_remove_perm in E as [_ Hp]; [|done]. unfold keys_in in *. rewrite Hp.
    rewrite Forall_forall in *. intros e [_ He]%list_elem_of_filter. auto.
  - unfold im_swap_remove in E. destruct (im_get k m); by simplify_eq.
Qed.

Lemma renamed_get_fresh k m : P k -> keys_in m -> im_get k m = None -> im_get (f k) (renamed m) = None.
Proof.
  intros Hk Hm Hn%im_get_None. apply im_get_None. rewrite renamed_keys.
  intros (k' & He & Hin)%list_elem_of_fmap. apply Hn.
  assert (k = k') as -> by (apply Hinj; [done|by eapply keys_in_elem|done]). done.
Qed.

Lemma renamed_insert k v m sk : P k -> keys_in m ->
  im_get sk (renamed (im_insert k v m)) =
  if decide (sk = f k) then Some v else im_get sk (renamed m).
Proof.
  intros Hk. unfold renamed. induction m as [|[k' v'] m IH]; cbn; intros Hm; [done|].
  apply Forall_cons in Hm as [Hk' Hm]. cbn in Hk'. destruct (decide (k = k')) as [->|Hne]; cbn.
  - by destruct (decide (sk = f k')).
  - destruct (decide (sk = f k')) as [->|]; [|by apply IH].
    rewrite decide_False; [done|]. intros He. apply Hne. symmetry. by apply Hinj.
Qed.

Lemma renamed_filter k m sk : P k -> keys_in m ->
  im_get sk (renamed (filter (fun e => e.1 <> k) m)) =
  if decide (sk = f k) then None else im_get sk (renamed m).
Proof.
  intros Hk. unfold renamed. induction m as [|[k' v'] m IH]; intros Hm; [by case_decide|].
  apply Forall_cons in Hm as [Hk' Hm]. cbn in Hk'. rewrite filter_cons. cbn [fst].
  destruct (decide (k' <> k)) as [Hne|He]; cbn [fmap list_fmap im_get fst snd] in *; rewrite IH by done.
  - destruct (decide (sk = f k')) as [->|]; [|done].
    rewrite decide_False; [done|]. intros He. apply Hne. by apply Hinj.
  - apply dec_stable in He as ->. by destruct (decide (sk = f k)).
Qed.

Lemma renamed_swap_remove k m sk : P k -> im_ok m -> keys_in m ->
  im_get sk (renamed (im_swap_remove k m).2) =
  if decide (sk = f k) then None else im_get sk (renamed m).
Proof.
  intros Hk Hok Hm. destruct (im_swap_remove k m) as [[v|] m'] eqn:E; cbn.
  - apply im_swap_remove_perm in E as [_ Hp]; [|done]. rewrite <- renamed_filter by done.
    assert (renamed m' ≡ₚ renamed (filter (fun e => e.1 <> k) m)) as Hr by (unfold renamed; by rewrite Hp).
    symmetry. apply im_get_perm; [|by symmetry]. apply renamed_ok; [by apply im_ok_filter|].
    unfold keys_in in *. rewrite Forall_forall in *. intros e [_ He]%list_elem_of_filter. auto.
  - unfold im_swap_remove in E. destruct (im_get k m) eqn:Hg; simplify_eq.
    case_decide; [subst|done]. by apply renamed_get_fresh.
Qed.
End Renamed.

(** ** Composition

    [P] says which keys a partition has: of one kind, by node and partition. *)
Section Partition.
Context (hash : list Z -> list Z) (Hhash : forall bs, length (hash bs) = 32%nat).
Context (P : SubstateKey -> Prop).
Context (HP : forall k k', P k -> P k' -> same_kind k k').

Abbreviation f := (to_db_sort_key hash).

Lemma f_inj k k' : P k -> P k' -> f k = f k' -> k = k'.
Proof. intros Hk Hk'. apply to_db_sort_key_inj; auto. Qed.

Definition pstate_ok (u : PartitionStateUpdates) : Prop :=
  match u with
  | PartitionDelta us => im_ok us /\ keys_in P us
  | Batch vs => im_ok vs /\ keys_in P vs
  end.

Abbreviation pchange u sk := (get_substate_change (create_partition hash u) sk).

Lemma create_partition_renamed u : create_partition hash u =
  match u with
  | PartitionDelta us => Delta (im_collect (renamed f us))
  | Batch vs => Reset_ (im_collect (renamed f vs))
  end.
Proof. by destruct u. Qed.

Lemma create_partition_ok u : pstate_ok u -> partition_ok (create_partition hash u).
Proof.
  rewrite create_partition_renamed. destruct u as [us|vs]; cbn [pstate_ok]; intros [Hok Hk];
    rewrite (renamed_collect f P f_inj) by done; by apply (renamed_ok f P f_inj).
Qed.

Lemma pchange_delta us sk : im_ok us -> keys_in P us ->
  pchange (PartitionDelta us) sk = im_get sk (renamed f us).
Proof. intros. rewrite create_partition_renamed. by rewrite (renamed_collect f P f_inj) by done. Qed.

Lemma pchange_batch vs sk : im_ok vs -> keys_in P vs ->
  pchange (Batch vs) sk =
  Some (match im_get sk (renamed f vs) with Some v => Set_ v | None => Delete end).
Proof.
  intros. rewrite create_partition_renamed. rewrite (renamed_collect f P f_inj) by done.
  cbn. by destruct (im_get sk (renamed f vs)).
Qed.

Lemma extend_ok us m : im_ok m -> keys_in P m -> keys_in P us ->
  let m' := foldl (fun m e => im_insert e.1 e.2 m) m us in
  im_ok m' /\ keys_in (V := DatabaseUpdate) P m' /\ (im_ok us -> forall sk,
    im_get sk (renamed f m') = then_change (im_get sk (renamed f us)) (im_get sk (renamed f m))).
Proof.
  revert m. induction us as [|[k c] us IH]; intros m Hm Hk Hus; [done|].
  apply Forall_cons in Hus as [Hp Hus]. cbn in Hp. cbn [foldl fst snd].
  destruct (IH (im_insert k c m)) as (Hok & Hk' & Hg);
    [by apply im_ok_insert|by apply keys_in_insert|done|].
  cbv zeta in *. split_and!; [done|done|]. intros Hnd sk. unfold im_ok, im_keys in Hnd. cbn in Hnd.
  apply NoDup_cons in Hnd as [Hn Hnd]. rewrite Hg by done.
  rewrite (renamed_insert f P f_inj), renamed_get_cons by done.
  destruct (decide (sk = f k)) as [->|]; [|done].
  rewrite (renamed_get_fresh f P f_inj) by (try done; by apply im_get_None). done.
Qed.

Lemma batch_ok us vs : im_ok vs -> keys_in P vs -> keys_in P us ->
  let vs' := foldl batch_update_substate vs us in
  im_ok vs' /\ keys_in P vs' /\ (im_ok us -> forall sk,
    im_get sk (renamed f vs') = apply_change (im_get sk (renamed f us)) (im_get sk (renamed f vs))).
Proof.
  revert vs. induction us as [|[k c] us IH]; intros vs Hm Hk Hus; [done|].
  apply Forall_cons in Hus as [Hp Hus]. cbn in Hp. cbn [foldl fst snd].
  destruct (IH (batch_update_substate vs (k, c))) as (Hok & Hk' & Hg).
  { destruct c; cbn; [by apply im_ok_insert|by apply im_ok_swap_remove]. }
  { destruct c; cbn; [by apply keys_in_insert|by apply keys_in_swap_remove]. }
  { done. }
  cbv zeta in *. split_and!; [done|done|]. intros Hnd sk. unfold im_ok, im_keys in Hnd. cbn in Hnd.
  apply NoDup_cons in Hnd as [Hn Hnd]. rewrite Hg by done.
  rewrite renamed_get_cons.
  assert (im_get (f k) (renamed f us) = None) as Hfresh
    by (apply (renamed_get_fresh f P f_inj); try done; by apply im_get_None).
  destruct c as [v|]; unfold batch_update_substate; cbn [fst snd];
    rewrite ?(renamed_insert f P f_inj), ?(renamed_swap_remove f P f_inj) by done;
    (destruct (decide (sk = f k)) as [->|]; [by rewrite Hfresh|done]).
Qed.

Lemma partition_add_spec u o : pstate_ok u -> pstate_ok o ->
  pstate_ok (partition_add u o) /\
  forall sk, pchange (partition_add u o) sk = then_change (pchange o sk) (pchange u sk).
Proof.
  intros Hu Ho. destruct o as [os|ov].
  - destruct Ho as [Hos Hko]. destruct u as [us|vs]; destruct Hu as [Hok Hk]; cbn [partition_add mut_update_substates].
    + destruct (extend_ok os us Hok Hk Hko) as (H1 & H2 & H3). split; [done|].
      intros sk. by rewrite !pchange_delta, H3.
    + destruct (batch_ok os vs Hok Hk Hko) as (H1 & H2 & H3). split; [done|].
      intros sk. rewrite !pchange_batch, pchange_delta, H3 by done.
      by destruct (im_get sk (renamed f os)) as [[]|].
  - split; [done|]. intros sk. destruct Ho as [Hov Hkv]. cbn [partition_add].
    by rewrite pchange_batch.
Qed.

Lemma no_op_change u sk : is_no_op u = true -> pchange u sk = None.
Proof. by destruct u as [[]|]. Qed.

Lemma partition_rebuild_spec p sk :
  match partition_rebuild p with
  | Some q => q = p
  | None => pchange p sk = None
  end.
Proof. by destruct p as [[|]|]. Qed.

Lemma pstate_default : pstate_ok partition_default.
Proof. split; constructor. Qed.
End Partition.

Section Node.
Context (hash : list Z -> list Z) (Hhash : forall bs, length (hash bs) = 32%nat).
Context (P : Z -> SubstateKey -> Prop).
Context (HP : forall pn k k', P pn k -> P pn k' -> same_kind k k').

Abbreviation pchange u sk := (get_substate_change (create_partition hash u) sk).

Definition nstate_ok (n : NodeStateUpdates) : Prop := im_ok n /\ Forall (fun e => pstate_ok (P e.1) e.2) n.

Lemma nstate_get n k p : nstate_ok n -> im_get k n = Some p -> pstate_ok (P k) p.
Proof. intros [_ Hn] He%im_get_elem. rewrite Forall_forall in Hn. by apply (Hn (k, p)). Qed.

Lemma create_node_ok n : nstate_ok n -> node_ok (create_node hash n).
Proof.
  intros [Hok Hall]. unfold create_node.
  pose proof (im_ok_map (create_partition hash) n Hok) as Hm. rewrite im_collect_id by done.
  split; [done|]. rewrite Forall_fmap. eapply Forall_impl; [exact Hall|].
  intros e He. by apply (create_partition_ok hash Hhash (P e.1) (HP e.1)).
Qed.

Lemma node_change_create n pn sk : nstate_ok n ->
  node_change (create_node hash n) pn sk =
  match im_get pn n with Some p => pchange p sk | None => None end.
Proof.
  intros [Hok _]. unfold node_change, create_node.
  rewrite im_collect_id by (by apply im_ok_map). rewrite im_get_fmap. by destruct (im_get pn n).
Qed.

Lemma nstate_insert n k p : nstate_ok n -> pstate_ok (P k) p -> nstate_ok (im_insert k p n).
Proof.
  intros [Hok Hall] Hp. split; [by apply im_ok_insert|].
  rewrite Forall_forall. intros [k' q] Hin. cbn.
  apply im_elem_get in Hin; [|by apply im_ok_insert]. rewrite im_get_insert in Hin.
  case_decide; [by simplify_eq|]. exact (nstate_get _ _ _ (conj Hok Hall) Hin).
Qed.

Lemma node_add_spec o n : nstate_ok n -> nstate_ok o ->
  nstate_ok (node_add n o) /\ forall pn sk,
    node_change (create_node hash (node_add n o)) pn sk =
    then_change (node_change (create_node hash o) pn sk) (node_change (create_node hash n) pn sk).
Proof.
  unfold node_add. revert n. induction o as [|[k p] o IH]; intros n Hn Ho.
  { split; [done|]. intros. by rewrite (node_change_create [] pn sk Ho). }
  assert (nstate_ok o /\ pstate_ok (P k) p /\ im_get k o = None) as (Ho' & Hp & Hko).
  { destruct Ho as [Hok Hall]. unfold im_ok, im_keys in Hok. cbn in Hok.
    apply NoDup_cons in Hok as [Hk Hok]. apply Forall_cons in Hall as [Hp Hall].
    split; [done|]. split; [done|by apply im_get_None]. }
  set (n' := if is_no_op p then n else im_update partition_default (fun q => partition_add q p) k n).
  assert (nstate_ok n' /\ forall pn sk, node_change (create_node hash n') pn sk =
    if decide (pn = k) then then_change (pchange p sk) (node_change (create_node hash n) pn sk)
    else node_change (create_node hash n) pn sk) as [Hn' Hg'].
  { unfold n'. destruct (is_no_op p) eqn:Eno.
    - split; [done|]. intros pn sk. rewrite no_op_change by done. by case_decide.
    - unfold im_update. set (q := default partition_default (im_get k n)).
      assert (pstate_ok (P k) q) as Hq.
      { unfold q. destruct (im_get k n) eqn:E; cbn; [exact (nstate_get _ _ _ Hn E)|]. split; constructor. }
      destruct (partition_add_spec hash Hhash (P k) (HP k) q p Hq Hp) as [Hadd Hc].
      split; [by apply nstate_insert|]. intros pn sk.
      rewrite !node_change_create by (try done; by apply nstate_insert).
      rewrite im_get_insert. case_decide; [subst|done]. rewrite Hc. unfold q.
      by destruct (im_get k n). }
  destruct (IH n' Hn' Ho') as [Hok Hg]. cbn [foldl fst snd]. split; [exact Hok|].
  intros pn sk. fold n'. rewrite Hg, Hg', !node_change_create by done. cbn [im_get].
  destruct (decide (pn = k)) as [->|]; [|done]. by rewrite Hko.
Qed.

Lemma filter_values_spec {K V W} `{EqDecision K} (g : V -> option W) (m : IndexMap K V) : im_ok m ->
  filter_values g m = omap (fun e => w ← g e.2; Some (e.1, w)) m /\ im_ok (filter_values g m) /\
  forall k, im_get k (filter_values g m) = im_get k m ≫= g.
Proof.
  intros Hm. unfold filter_values.
  set (l := omap (fun e : K * V => w ← g e.2; Some (e.1, w)) m).
  assert (im_ok l /\ (forall k, k ∈ im_keys l -> k ∈ im_keys m) /\
    forall k, im_get k l = im_get k m ≫= g) as (Hl & _ & Hg).
  { unfold l. clear l. induction m as [|[k v] m IH]; [done|].
    unfold im_ok, im_keys in Hm. cbn in Hm. apply NoDup_cons in Hm as [Hn Hm].
    destruct (IH Hm) as (IH1 & IH2 & IH3).
    assert (im_get k m = None) as Hfresh by (by apply im_get_None).
    cbn [omap list_omap fst snd]. destruct (g v) as [w|] eqn:E; cbn.
    - split_and!.
      + unfold im_ok, im_keys. cbn. constructor; [|done]. intros Hin. by apply Hn, IH2.
      + unfold im_keys. cbn. intros k' [->|Hin]%elem_of_cons; [left|right; by apply IH2].
      + intros k'. case_decide; [cbn; by rewrite E|apply IH3].
    - split_and!; [done| |].
      + unfold im_keys. cbn. intros k' Hin. right. by apply IH2.
      + intros k'. case_decide as Hd; [|apply IH3]. cbn. rewrite E, Hd, IH3, Hfresh. done. }
  rewrite im_collect_id by done. done.
Qed.

Lemma node_rebuild_spec n : nstate_ok n ->
  match node_rebuild n with
  | Some n' => nstate_ok n' /\ forall pn sk,
      node_change (create_node hash n') pn sk = node_change (create_node hash n) pn sk
  | None => forall pn sk, node_change (create_node hash n) pn sk = None
  end.
Proof.
  intros Hn. destruct (filter_values_spec partition_rebuild n (proj1 Hn)) as (_ & Hok & Hg).
  unfold node_rebuild. set (n' := filter_values partition_rebuild n) in *.
  assert (nstate_ok n') as Hn'.
  { split; [done|]. rewrite Forall_forall. intros [k p] Hin%im_elem_get; [|done]. cbn.
    rewrite Hg in Hin. apply bind_Some in Hin as (q & Hq & Hr).
    pose proof (nstate_get _ _ _ Hn Hq) as Hqo. pose proof (partition_rebuild_spec hash q []) as Hs.
    rewrite Hr in Hs. by subst. }
  assert (forall pn sk, node_change (create_node hash n') pn sk = node_change (create_node hash n) pn sk)
    as Hc.
  { intros pn sk. rewrite !node_change_create, Hg by done.
    destruct (im_get pn n) as [q|] eqn:Hq; cbn; [|done].
    pose proof (partition_rebuild_spec hash q sk) as Hs.
    destruct (partition_rebuild q); [by subst|done]. }
  destruct n' as [|e n'']; [|done]. intros pn sk. by rewrite <- Hc.
Qed.

End Node.

Section State.
Context (hash : list Z -> list Z) (Hhash : forall bs, length (hash bs) = 32%nat).
Context (P : list Z -> Z -> SubstateKey -> Prop).
Context (HP : forall n pn k k', P n pn k -> P n pn k' -> same_kind k k').

Definition state_ok (u : StateUpdates) : Prop := im_ok u /\ Forall (fun e => nstate_ok (P e.1) e.2) u.

Lemma node_key_inj n n' : to_db_node_key hash n = to_db_node_key hash n' -> n = n'.
Proof. by apply to_hash_prefixed_inj. Qed.

Lemma create_eq u : im_ok u -> create_database_updates hash u =
  renamed (to_db_node_key hash) ((fun e => (e.1, create_node hash e.2)) <$> u).
Proof.
  intros Hu. unfold create_database_updates, renamed. rewrite <- list_fmap_compose.
  apply im_collect_id. rewrite list_fmap_compose.
  apply (renamed_ok (to_db_node_key hash) (fun _ => True) (fun k k' _ _ => node_key_inj k k')).
  - by apply im_ok_map.
  - unfold keys_in. by apply Forall_true.
Qed.

Lemma create_ok u : state_ok u -> updates_ok (create_database_updates hash u).
Proof.
  intros [Hok Hall]. rewrite create_eq by done. split.
  - apply (renamed_ok (to_db_node_key hash) (fun _ => True) (fun k k' _ _ => node_key_inj k k'));
      [by apply im_ok_map|]. by apply Forall_true.
  - unfold renamed. rewrite !Forall_fmap. eapply Forall_impl; [exact Hall|].
    intros e He. by apply (create_node_ok hash Hhash (P e.1) (HP e.1)).
Qed.

(** The change a set of state updates makes: by node. *)
Lemma change_of_create u pk sk : state_ok u ->
  change_of (create_database_updates hash u) pk sk =
  match im_get pk.1 (renamed (to_db_node_key hash) u) with
  | Some n => node_change (create_node hash n) pk.2 sk
  | None => None
  end.
Proof.
  intros [Hok _]. rewrite create_eq, change_of_node by done.
  assert (renamed (to_db_node_key hash) ((fun e => (e.1, create_node hash e.2)) <$> u) =
    (fun e => (e.1, create_node hash e.2)) <$> renamed (to_db_node_key hash) u) as ->
    by (unfold renamed; by rewrite <- !list_fmap_compose).
  rewrite im_get_fmap. by destruct (im_get pk.1 _).
Qed.

Lemma state_get u k n : state_ok u -> im_get k u = Some n -> nstate_ok (P k) n.
Proof. intros [_ Hu] He%im_get_elem. rewrite Forall_forall in Hu. by apply (Hu (k, n)). Qed.

Lemma mut_add_spec u nid nu : state_ok u -> nstate_ok (P nid) nu ->
  state_ok (mut_add_node_updates u nid nu) /\ forall pk sk,
    change_of (create_database_updates hash (mut_add_node_updates u nid nu)) pk sk =
    then_change (change_of (create_database_updates hash [(nid, nu)]) pk sk)
      (change_of (create_database_updates hash u) pk sk).
Proof.
  intros Hu Hnu.
  assert (state_ok [(nid, nu)]) as Hone.
  { split; [apply NoDup_singleton|by apply Forall_singleton]. }
  assert (forall pk sk, change_of (create_database_updates hash [(nid, nu)]) pk sk =
    if decide (pk.1 = to_db_node_key hash nid) then node_change (create_node hash nu) pk.2 sk else None)
    as Hc1.
  { intros pk sk. rewrite change_of_create by done. cbn. by case_decide. }
  pose proof (node_rebuild_spec hash (P nid) nu Hnu) as Hr. unfold mut_add_node_updates.
  destruct (node_rebuild nu) as [nu'|].
  - destruct Hr as [Hnu' Hrc]. unfold im_update. set (n0 := default [] (im_get nid u)).
    assert (nstate_ok (P nid) n0) as Hn0.
    { unfold n0. destruct (im_get nid u) eqn:E; cbn; [exact (state_get _ _ _ Hu E)|]. split; constructor. }
    destruct (node_add_spec hash Hhash (P nid) (HP nid) nu' n0 Hn0 Hnu') as [Hadd Hac].
    assert (state_ok (im_insert nid (node_add n0 nu') u)) as Hok.
    { split; [by apply im_ok_insert, Hu|]. rewrite Forall_forall. intros [k q] Hin. cbn.
      apply im_elem_get in Hin; [|by apply im_ok_insert, Hu]. rewrite im_get_insert in Hin.
      case_decide; [by simplify_eq|]. exact (state_get _ _ _ Hu Hin). }
    split; [done|]. intros pk sk. rewrite Hc1, !change_of_create by done.
    rewrite (renamed_insert (to_db_node_key hash) (fun _ => True) (fun k k' _ _ => node_key_inj k k'))
      by (try done; by apply Forall_true).
    case_decide as Hd; [|done]. rewrite Hac, Hrc, Hd. f_equal. unfold n0.
    destruct (im_get nid u) as [n|] eqn:E.
    + assert (im_get (to_db_node_key hash nid) (renamed (to_db_node_key hash) u) = Some n) as ->; [|done].
      apply im_elem_get.
      * apply (renamed_ok (to_db_node_key hash) (fun _ => True) (fun k k' _ _ => node_key_inj k k'));
          [apply Hu|by apply Forall_true].
      * apply im_get_elem in E. unfold renamed. apply list_elem_of_fmap. by exists (nid, n).
    + rewrite (renamed_get_fresh (to_db_node_key hash) (fun _ => True) (fun k k' _ _ => node_key_inj k k'))
        by (try done; by apply Forall_true). done.
  - split; [done|]. intros pk sk. rewrite Hc1, Hr. by case_decide.
Qed.

Lemma rebuild_spec u : state_ok u ->
  state_ok (rebuild_without_empty_entries u) /\ forall pk sk,
    change_of (create_database_updates hash (rebuild_without_empty_entries u)) pk sk =
    change_of (create_database_updates hash u) pk sk.
Proof.
  intros Hu. destruct (filter_values_spec node_rebuild u (proj1 Hu)) as (_ & Hok & Hg).
  unfold rebuild_without_empty_entries. set (u' := filter_values node_rebuild u) in *.
  assert (state_ok u') as Hu'.
  { split; [done|]. rewrite Forall_forall. intros [k n] Hin%im_elem_get; [|done]. cbn.
    rewrite Hg in Hin. apply bind_Some in Hin as (q & Hq & Hr).
    pose proof (node_rebuild_spec hash (P k) q (state_get _ _ _ Hu Hq)) as Hs. rewrite Hr in Hs. apply Hs. }
  split; [done|]. intros pk sk. rewrite !change_of_create by done.
  set (g := to_db_node_key hash).
  assert (forall w : StateUpdates, state_ok w -> forall k,
    im_get (g k) (renamed g w) = im_get k w) as Hren.
  { intros w Hw k. destruct (im_get k w) as [n|] eqn:E.
    - apply im_elem_get.
      + apply (renamed_ok g (fun _ => True) (fun k k' _ _ => node_key_inj k k'));
          [apply Hw|by apply Forall_true].
      + apply im_get_elem in E. unfold renamed. apply list_elem_of_fmap. by exists (k, n).
    - apply (renamed_get_fresh g (fun _ => True) (fun k k' _ _ => node_key_inj k k'));
        [done|by apply Forall_true|done]. }
  destruct (im_get pk.1 (renamed g u)) as [n|] eqn:E.
  - pose proof E as Hin. apply im_get_elem in Hin. unfold renamed in Hin.
    apply list_elem_of_fmap in Hin as ([k n0] & [= Hk <-] & Hin).
    apply im_elem_get in Hin; [|apply Hu]. rewrite Hk, Hren, Hg, Hin by done. cbn.
    pose proof (node_rebuild_spec hash (P k) n (state_get _ _ _ Hu Hin)) as Hs.
    destruct (node_rebuild n); [apply Hs|by rewrite Hs].
  - assert (im_get pk.1 (renamed g u') = None) as ->; [|done].
    apply im_get_None. rewrite renamed_keys. intros (k & Hk & Hin)%list_elem_of_fmap.
    rewrite Hk, Hren in E by done.
    assert (im_get k u' <> None) as Hne by (rewrite im_get_None; auto).
    rewrite Hg, E in Hne. done.
Qed.
End State.

(** ** Theorems *)

Module StateUpdateTheorems.

(** The keys of the store read back: for a hash of 32 bytes, mapping a node
    id or a substate key to its database key and back gives the key. *)
Theorem db_keys_roundtrip (hash : list Z -> list Z) (Hhash : forall bs, length (hash bs) = 32%nat) :
  (forall n, length n = NODE_ID_LENGTH -> from_db_node_key (to_db_node_key hash n) = Done n) /\
  (forall b, field_from_db_sort_key (to_db_sort_key hash (Field b)) = Done (Field b)) /\
  (forall m, map_from_db_sort_key (to_db_sort_key hash (Map m)) = Done (Map m)) /\
  (forall p m, length p = 2%nat ->
     sorted_from_db_sort_key (to_db_sort_key hash (Sorted p m)) = Done (Sorted p m)).
Proof.
  split_and!.
  - intros n Hn. unfold from_db_node_key, to_db_node_key. rewrite from_to_hash_prefixed by done.
    cbn. unfold copy_u8_array. by rewrite Hn, Nat.eqb_refl.
  - done.
  - intros m. unfold map_from_db_sort_key. cbn [to_db_sort_key]. by rewrite from_to_hash_prefixed.
  - intros p m Hp. unfold sorted_from_db_sort_key. cbn [to_db_sort_key].
    destruct p as [|a [|b [|]]]; try done. cbn [app length Nat.ltb Nat.leb].
    unfold copy_u8_array, bytes_from. cbn -[to_hash_prefixed from_hash_prefixed].
    by rewrite ?drop_0, from_to_hash_prefixed.
Qed.

Lemma db_keys_roundtrip_witness :
  let hash := fun bs : list Z => replicate 32 (Z.of_nat (length bs)) in
  map_from_db_sort_key (to_db_sort_key hash (Map [1; 2])) = Done (Map [1; 2]) /\
  sorted_from_db_sort_key (to_db_sort_key hash (Sorted [0; 9] [7])) = Done (Sorted [0; 9] [7]).
Proof.
  intros hash.
  destruct (db_keys_roundtrip hash) as (_ & _ & Hm & Hs); [intros bs; apply length_replicate|].
  split; [apply Hm|]. apply Hs. reflexivity.
Defined.

(** C20. State updates compose: adding the updates of a node to a set of state
    updates and committing the result is committing the set and then the
    addition, and dropping the entries that change nothing does not change what
    is committed; in a store where the substate keys of a partition are of one
    kind. *)
Theorem state_updates_compose (hash : list Z -> list Z) (P : list Z -> Z -> SubstateKey -> Prop)
    (db : InMemorySubstateDatabase) (u : StateUpdates) (nid : list Z) (nu : NodeStateUpdates)
    (Hhash : forall bs, length (hash bs) = 32%nat)
    (HP : forall n pn k k', P n pn k -> P n pn k' -> same_kind k k')
    (Hdb : db_ok db) (Hu : state_ok P u) (Hnu : nstate_ok (P nid) nu) :
  mem_commit db (create_database_updates hash (mut_add_node_updates u nid nu)) =
  mem_commit (mem_commit db (create_database_updates hash u)) (create_database_updates hash [(nid, nu)]) /\
  mem_commit db (create_database_updates hash (rebuild_without_empty_entries u)) =
  mem_commit db (create_database_updates hash u).
Proof.
  destruct (mut_add_spec hash Hhash P HP u nid nu Hu Hnu) as [Hadd Hc].
  destruct (rebuild_spec hash Hhash P u Hu) as [Hreb Hrc].
  assert (state_ok P [(nid, nu)]) as Hone
    by (split; [apply NoDup_singleton|by apply Forall_singleton]).
  destruct (mem_commit_spec _ db Hdb (create_ok hash Hhash P HP u Hu)) as [Hdb1 G1].
  destruct (mem_commit_spec _ db Hdb (create_ok hash Hhash P HP _ Hadd)) as [Hdb2 G2].
  destruct (mem_commit_spec _ db Hdb (create_ok hash Hhash P HP _ Hreb)) as [Hdb3 G3].
  destruct (mem_commit_spec _ _ Hdb1 (create_ok hash Hhash P HP _ Hone)) as [Hdb4 G4].
  split; apply mem_ext; try done; intros pk sk.
  - by rewrite G2, G4, G1, Hc, apply_then.
  - by rewrite G3, G1, Hrc.
Qed.

Lemma state_updates_compose_witness :
  let hash := fun bs : list Z => replicate 32 (Z.of_nat (length bs)) in
  let u := [([1], [(0, PartitionDelta [(Field 0, Set_ [5]); (Field 1, Delete)])])] in
  let nu := [(0, PartitionDelta [(Field 0, Delete); (Field 2, Set_ [9])]); (1, PartitionDelta [])] in
  mem_commit [] (create_database_updates hash (mut_add_node_updates u [1] nu)) =
    [((to_db_node_key hash [1], 0), [([2], [9])])].
Proof.
  intros hash u nu.
  destruct (state_updates_compose hash (fun _ _ k => match k with Field _ => True | _ => False end)
    [] u [1] nu) as [He _].
  - intros bs. apply length_replicate.
  - by intros ? ? [] [].
  - split; [done|]. by intros pk p.
  - split; [apply NoDup_singleton|]. apply Forall_singleton. split; [apply NoDup_singleton|].
    apply Forall_singleton. cbn. split; [|by repeat constructor].
    apply (bool_decide_unpack (NoDup _)). vm_compute. exact I.
  - split; [apply (bool_decide_unpack (NoDup _)); vm_compute; exact I|].
    constructor; [|constructor; [|constructor]]; cbn; (split; [|by repeat constructor]);
      apply (bool_decide_unpack (NoDup _)); vm_compute; exact I.
  - rewrite He. vm_compute. reflexivity.
Defined.

End StateUpdateTheorems.
