(* ===== verification/Track.v ===== *)
(** * The track

    The write-back cache through which a transaction reads and writes the
    substate database (radix-engine/src/track/track.rs and state_updates.rs).
    A node id is its list of bytes; the indexed value of a substate
    ([IndexedScryptoValue]) is behind the interface [IndexedValue], and the
    callback [on_io_access] is a function on a state of its own that may fail.
    The specification is a plain store: what a transaction reads is what the
    store holds, and committing the track's updates makes the database hold
    what the store holds. *)

From S2P Require Import Prelude Bytes IndexMap BTreeMap SborCustom SubstateStore StateUpdates.
Import Int StoreTheory.

#[local] Arguments to_db_node_key : simpl never.
#[local] Arguments to_db_sort_key : simpl never.

(** [IndexedScryptoValue]: its bytes and the nodes it owns. *)
Class IndexedValue (V : Type) : Type := {
  from_vec : list Z -> option V;
  as_vec : V -> list Z;
  owned_nodes : V -> list (list Z)
}.

Class IndexedValueLaws (V : Type) `{IndexedValue V} : Prop := {
  from_vec_bytes : forall bs v, from_vec bs = Some v -> as_vec v = bs
}.

(** ** Tracked substates *)

Inductive ReadOnlyState (V : Type) : Type :=
| NonExistent
| Existent (substate : V).
Arguments NonExistent {V}.
Arguments Existent {V} substate.

Inductive Write (V : Type) : Type :=
| Update (substate : V)
| WriteDelete.
Arguments Update {V} substate.
Arguments WriteDelete {V}.

Inductive TrackedSubstateValue (V : Type) : Type :=
| New (substate : V)
| ReadOnly (r : ReadOnlyState V)
| ReadExistAndWrite (old : V) (w : Write V)
| ReadNonExistAndWrite (substate : V)
| WriteOnly (w : Write V)
| Garbage.
Arguments New {V} substate.
Arguments ReadOnly {V} r.
Arguments ReadExistAndWrite {V} old w.
Arguments ReadNonExistAndWrite {V} substate.
Arguments WriteOnly {V} w.
Arguments Garbage {V}.

Record TrackedSubstate (V : Type) : Type := mk_substate {
  substate_key : SubstateKey;
  substate_value : TrackedSubstateValue V
}.
Arguments mk_substate {V} substate_key substate_value.
Arguments substate_key {V} _.
Arguments substate_value {V} _.

Section Values.
Context {V : Type} `{IndexedValue V}.

Definition value_len (v : V) : Z := Z.of_nat (length (as_vec v)).

Definition write_size_of (w : Write V) : Z :=
  match w with Update x => value_len x | WriteDelete => 0 end.

Definition tracked_size (t : TrackedSubstateValue V) : Z :=
  match t with
  | New x => value_len x
  | ReadOnly NonExistent => 0
  | ReadOnly (Existent x) => value_len x
  | ReadExistAndWrite e w => value_len e + write_size_of w
  | ReadNonExistAndWrite x => value_len x
  | WriteOnly w => write_size_of w
  | Garbage => 0
  end.

(** [get], [get_runtime_substate_mut] and [into_value] return the same value. *)
Definition tracked_get (t : TrackedSubstateValue V) : option V :=
  match t with
  | New substate | WriteOnly (Update substate) | ReadOnly (Existent substate)
  | ReadExistAndWrite _ (Update substate) | ReadNonExistAndWrite substate => Some substate
  | WriteOnly WriteDelete | ReadExistAndWrite _ WriteDelete | ReadOnly NonExistent | Garbage => None
  end.

Definition tracked_set (value : V) (t : TrackedSubstateValue V) : TrackedSubstateValue V :=
  match t with
  | Garbage => WriteOnly (Update value)
  | New _ => New value
  | WriteOnly (Update _) => WriteOnly (Update value)
  | ReadExistAndWrite old (Update _) => ReadExistAndWrite old (Update value)
  | ReadNonExistAndWrite _ => ReadNonExistAndWrite value
  | ReadOnly NonExistent => ReadNonExistAndWrite value
  | ReadOnly (Existent old) => ReadExistAndWrite old (Update value)
  | ReadExistAndWrite old WriteDelete => ReadExistAndWrite old (Update value)
  | WriteOnly WriteDelete => WriteOnly (Update value)
  end.

Definition write_into_value (w : Write V) : option V :=
  match w with Update substate => Some substate | WriteDelete => None end.

(** The value taken and what is left. *)
Definition tracked_take (t : TrackedSubstateValue V) : option V * TrackedSubstateValue V :=
  match t with
  | Garbage => (None, Garbage)
  | New _ => (tracked_get t, Garbage)
  | WriteOnly _ => (tracked_get t, WriteOnly WriteDelete)
  | ReadExistAndWrite old write => (write_into_value write, ReadExistAndWrite old WriteDelete)
  | ReadNonExistAndWrite _ => (tracked_get t, ReadOnly NonExistent)
  | ReadOnly (Existent v) => (tracked_get t, ReadExistAndWrite v WriteDelete)
  | ReadOnly NonExistent => (None, t)
  end.

Definition revert_value (t : TrackedSubstateValue V) : TrackedSubstateValue V :=
  match t with
  | ReadOnly _ | Garbage => t
  | New _ | WriteOnly _ => Garbage
  | ReadExistAndWrite read _ => ReadOnly (Existent read)
  | ReadNonExistAndWrite _ => ReadOnly NonExistent
  end.

(** The database update of a tracked substate, when it has one. *)
Definition value_update (t : TrackedSubstateValue V) : option DatabaseUpdate :=
  match t with
  | ReadOnly _ | Garbage => None
  | ReadNonExistAndWrite substate | New substate => Some (Set_ (as_vec substate))
  | ReadExistAndWrite _ write | WriteOnly write =>
      match write with
      | WriteDelete => Some Delete
      | Update substate => Some (Set_ (as_vec substate))
      end
  end.
End Values.

Record TrackedPartition (V : Type) : Type := mk_partition {
  substates : BTreeMap DbSortKey (TrackedSubstate V);
  range_read : Z
}.
Arguments mk_partition {V} substates range_read.
Arguments substates {V} _.
Arguments range_read {V} _.

Record TrackedNode (V : Type) : Type := mk_node {
  tracked_partitions : IndexMap Z (TrackedPartition V);
  is_new : bool
}.
Arguments mk_node {V} tracked_partitions is_new.
Arguments tracked_partitions {V} _.
Arguments is_new {V} _.

Definition TrackedPartition_new {V} : TrackedPartition V := mk_partition [] 0.
Definition TrackedNode_new {V} (new : bool) : TrackedNode V := mk_node [] new.

Definition revert_partition {V} (p : TrackedPartition V) : TrackedPartition V :=
  mk_partition ((fun e => (e.1, mk_substate (substate_key e.2) (revert_value (substate_value e.2))))
    <$> substates p) (range_read p).
Definition revert_node {V} (n : TrackedNode V) : TrackedNode V :=
  mk_node (im_map revert_partition (tracked_partitions n)) (is_new n).

(** ** The interface *)

Record CanonicalSubstateKey : Type := canonical {
  cs_node_id : list Z;
  cs_partition_number : Z;
  cs_substate_key : SubstateKey
}.

Inductive IOAccess : Type :=
| ReadFromDb (key : CanonicalSubstateKey) (size : Z)
| ReadFromDbNotFound (key : CanonicalSubstateKey)
| TrackSubstateUpdated (key : CanonicalSubstateKey) (old_size new_size : option Z)
| HeapSubstateUpdated (key : CanonicalSubstateKey) (old_size new_size : option Z).

Inductive TrackedSubstateInfo : Type := InfoNew | InfoUpdated | InfoUnmodified.

#[global] Instance TrackedSubstateInfo_eq_dec : EqDecision TrackedSubstateInfo.
Proof. solve_decision. Defined.

Inductive StoreCommit : Type :=
| CommitInsert (key : CanonicalSubstateKey) (size : Z)
| CommitUpdate (key : CanonicalSubstateKey) (size old_size : Z)
| CommitDelete (key : CanonicalSubstateKey) (old_size : Z).

(** [TransientSubstates] of call_frame.rs: the set of marked substates. *)
Abbreviation TransientSubstates := (list (list Z * Z * SubstateKey)) (only parsing).

(** [MappedTrack], without the database it borrows. *)
Record Track (V : Type) : Type := mk_track {
  tracked_nodes : IndexMap (list Z) (TrackedNode V);
  force_write_tracked_nodes : IndexMap (list Z) (TrackedNode V);
  deleted_partitions : list (list Z * Z);
  transient_substates : TransientSubstates
}.
Arguments mk_track {V} _ _ _ _.
Arguments tracked_nodes {V} _.
Arguments force_write_tracked_nodes {V} _.
Arguments deleted_partitions {V} _.
Arguments transient_substates {V} _.

Definition track_new {V} : Track V := mk_track [] [] [] [].

(** [BTreeSet] and [IndexSet] insertion *)
Definition set_insert {A} `{EqDecision A} (x : A) (l : list A) : list A :=
  if decide (x ∈ l) then l else l ++ [x].

Section Access.
Context {V : Type}.
Implicit Types (ns : IndexMap (list Z) (TrackedNode V)).

Definition get_partition ns (node_id : list Z) (p : Z) : option (TrackedPartition V) :=
  n ← im_get node_id ns; im_get p (tracked_partitions n).
Definition get_tracked ns (node_id : list Z) (p : Z) (sk : DbSortKey) : option (TrackedSubstate V) :=
  q ← get_partition ns node_id p; bt_get sk (substates q).

(** [entry(node).or_insert(new(false)).tracked_partitions.entry(p).or_insert(new())] *)
Definition update_partition (f : TrackedPartition V -> TrackedPartition V) (node_id : list Z) (p : Z) ns :
    IndexMap (list Z) (TrackedNode V) :=
  im_update (TrackedNode_new false) (fun n =>
    mk_node (im_update TrackedPartition_new f p (tracked_partitions n)) (is_new n)) node_id ns.

Definition insert_substate (sk : DbSortKey) (s : TrackedSubstate V) (p : TrackedPartition V) :
    TrackedPartition V := mk_partition (bt_insert sk s (substates p)) (range_read p).
Definition raise_range_read (n : Z) (p : TrackedPartition V) : TrackedPartition V :=
  mk_partition (substates p) (Z.max (range_read p) n).

Definition set_nodes (f : IndexMap (list Z) (TrackedNode V) -> IndexMap (list Z) (TrackedNode V))
    (t : Track V) : Track V :=
  mk_track (f (tracked_nodes t)) (force_write_tracked_nodes t) (deleted_partitions t)
    (transient_substates t).

Definition is_transient (t : Track V) (node_id : list Z) (p : Z) (k : SubstateKey) : bool :=
  bool_decide ((node_id, p, k) ∈ transient_substates t).
Definition mark_as_transient (node_id : list Z) (p : Z) (k : SubstateKey) (t : Track V) : Track V :=
  mk_track (tracked_nodes t) (force_write_tracked_nodes t) (deleted_partitions t)
    (set_insert (node_id, p, k) (transient_substates t)).

Definition delete_partition (node_id : list Z) (p : Z) (t : Track V) : Track V :=
  mk_track (tracked_nodes t) (force_write_tracked_nodes t)
    (set_insert (node_id, p) (deleted_partitions t)) (transient_substates t).
End Access.

(** The kind of the keys of a partition ([SubstateKeyContent]). *)
Inductive KeyKind : Type := FieldKind | MapKind | SortedKind.

Definition from_db_sort_key (kind : KeyKind) (k : DbSortKey) : Exec SubstateKey :=
  match kind with
  | FieldKind => field_from_db_sort_key k
  | MapKind => map_from_db_sort_key k
  | SortedKind => sorted_from_db_sort_key k
  end.

(** ** Operations with a callback *)
Section Operations.
Context {D V C E : Type} `{SubstateDatabase D} `{IndexedValue V}.
Context (hash : list Z -> list Z) (substate_db : D).
Context (on_io_access : IOAccess -> C -> Result E unit * C).

Abbreviation TM := (M (Track V * C) E) (only parsing).
Abbreviation sort_key k := (to_db_sort_key hash k).

Definition io (a : IOAccess) : TM unit :=
  fun s => let '(r, c) := on_io_access a s.2 in Done (r, (s.1, c)).
Definition with_nodes (f : IndexMap (list Z) (TrackedNode V) -> IndexMap (list Z) (TrackedNode V)) : TM unit :=
  modify (fun s => (set_nodes f s.1, s.2)).

Definition db_partition_key (node_id : list Z) (p : Z) : DbPartitionKey := (to_db_node_key hash node_id, p).

Definition get_substate_from_db (node_id : list Z) (p : Z) (k : SubstateKey) : TM (option V) :=
  match get_raw_substate_by_db_key substate_db (db_partition_key node_id p) (sort_key k) with
  | Some e =>
      x ← lift_exec (expect (from_vec e));
      io (ReadFromDb (canonical node_id p k) (value_len x));;
      mret (Some x)
  | None =>
      io (ReadFromDbNotFound (canonical node_id p k));;
      mret None
  end.

(** The insertion of a substate that was not tracked. *)
Definition track_fresh (node_id : list Z) (p : Z) (k : SubstateKey) (v : TrackedSubstateValue V) :
    TM (TrackedSubstateValue V) :=
  with_nodes (update_partition (insert_substate (sort_key k) (mk_substate k v)) node_id p);;
  io (TrackSubstateUpdated (canonical node_id p k) None (Some (tracked_size v)));;
  mret v.

Definition get_tracked_substate (node_id : list Z) (p : Z) (k : SubstateKey) :
    TM (TrackedSubstateValue V) :=
  with_nodes (update_partition id node_id p);;
  t ← gets fst;
  match get_tracked (tracked_nodes t) node_id p (sort_key k) with
  | Some s => mret (substate_value s)
  | None =>
      if is_transient t node_id p k then
        track_fresh node_id p k (ReadOnly NonExistent)
      else
        v ← get_substate_from_db node_id p k;
        track_fresh node_id p k
          (ReadOnly (match v with Some value => Existent value | None => NonExistent end))
  end.

(** Writing through the reference to a tracked substate. *)
Definition put_tracked (node_id : list Z) (p : Z) (k : SubstateKey) (key : SubstateKey)
    (v : TrackedSubstateValue V) : TM unit :=
  with_nodes (update_partition (insert_substate (sort_key k) (mk_substate key v)) node_id p).

Definition get_substate (node_id : list Z) (p : Z) (k : SubstateKey) : TM (option V) :=
  tracked ← get_tracked_substate node_id p k;
  mret (tracked_get tracked).

Definition set_substate (node_id : list Z) (p : Z) (k : SubstateKey) (value : V) : TM unit :=
  with_nodes (update_partition id node_id p);;
  t ← gets fst;
  match get_tracked (tracked_nodes t) node_id p (sort_key k) with
  | None =>
      track_fresh node_id p k (WriteOnly (Update value));; mret tt
  | Some tracked =>
      let v := tracked_set value (substate_value tracked) in
      put_tracked node_id p k (substate_key tracked) v;;
      io (TrackSubstateUpdated (canonical node_id p k)
            (Some (tracked_size (substate_value tracked))) (Some (tracked_size v)))
  end.

Definition remove_substate (node_id : list Z) (p : Z) (k : SubstateKey) : TM (option V) :=
  tracked ← get_tracked_substate node_id p k;
  let '(taken, rest) := tracked_take tracked in
  t ← gets fst;
  s ← lift_exec (expect (get_tracked (tracked_nodes t) node_id p (sort_key k)));
  put_tracked node_id p k (substate_key s) rest;;
  io (TrackSubstateUpdated (canonical node_id p k)
        (Some (tracked_size tracked)) (Some (tracked_size rest)));;
  mret taken.

(** The substates of one partition of a new node, and the partitions. *)
Fixpoint create_substates (node_id : list Z) (p : Z) (l : list (SubstateKey * V))
    (acc : BTreeMap DbSortKey (TrackedSubstate V)) : TM (BTreeMap DbSortKey (TrackedSubstate V)) :=
  match l with
  | [] => mret acc
  | (k, v) :: rest =>
      assert_ (match bt_get (sort_key k) acc with None => true | Some _ => false end);;
      io (TrackSubstateUpdated (canonical node_id p k) None (Some (value_len v)));;
      create_substates node_id p rest (bt_insert (sort_key k) (mk_substate k (New v)) acc)
  end.

Fixpoint create_partitions (node_id : list Z) (l : list (Z * list (SubstateKey * V)))
    (acc : IndexMap Z (TrackedPartition V)) : TM (IndexMap Z (TrackedPartition V)) :=
  match l with
  | [] => mret acc
  | (p, partition) :: rest =>
      ss ← create_substates node_id p partition [];
      create_partitions node_id rest (im_insert p (mk_partition ss 0) acc)
  end.

Definition create_tracked_node (node_id : list Z) (node_substates : list (Z * list (SubstateKey * V))) :
    TM unit :=
  ps ← create_partitions node_id node_substates [];
  with_nodes (im_insert node_id (mk_node ps true)).

(** ** Scans *)

(** One entry of the database, read through the traced iterator. *)
Definition read_entry (kind : KeyKind) (node_id : list Z) (p : Z) (e : DbSortKey * DbSubstateValue) :
    TM (DbSortKey * (SubstateKey * V)) :=
  k ← lift_exec (from_db_sort_key kind e.1);
  v ← lift_exec (expect (from_vec e.2));
  io (ReadFromDb (canonical node_id p k) (value_len v));;
  mret (e.1, (k, v)).

Definition is_tracked (q : option (TrackedPartition V)) (sk : DbSortKey) : bool :=
  match q with
  | Some q => match bt_get sk (substates q) with Some _ => true | None => false end
  | None => false
  end.

(** The keys of the tracked substates, up to the limit; [true] when the limit
    stopped the loop before its end. *)
Fixpoint scan_tracked (limit : Z) (l : list (DbSortKey * TrackedSubstate V)) (items : list SubstateKey) :
    list SubstateKey * bool :=
  match l with
  | [] => (items, false)
  | (_, s) :: rest =>
      if Z.of_nat (length items) =? limit then (items, true) else
      scan_tracked limit rest
        (match tracked_get (substate_value s) with
         | Some _ => items ++ [substate_key s]
         | None => items
         end)
  end.

(** The keys of the database, with the number of calls of the iterator. *)
Fixpoint scan_db (kind : KeyKind) (node_id : list Z) (p : Z) (limit : Z)
    (q : option (TrackedPartition V)) (l : list (DbSortKey * DbSubstateValue))
    (items : list SubstateKey) (n : Z) : TM (list SubstateKey * Z) :=
  let n := wrap_u 32 (n + 1) in
  match l with
  | [] => mret (items, n)
  | e :: rest =>
      r ← read_entry kind node_id p e;
      let '(sk, (k, _)) := r in
      if Z.of_nat (length items) =? limit then mret (items, n)
      else if is_tracked q sk then scan_db kind node_id p limit q rest items n
      else scan_db kind node_id p limit q rest (items ++ [k]) n
  end.

Definition node_is_new (t : Track V) (node_id : list Z) : bool :=
  match im_get node_id (tracked_nodes t) with Some n => is_new n | None => false end.

Definition list_entries (node_id : list Z) (p : Z) : TM (list (DbSortKey * DbSubstateValue)) :=
  lift_exec (list_raw_values_from_db_key substate_db (db_partition_key node_id p) None).

Definition tracked_entries (q : option (TrackedPartition V)) : list (DbSortKey * TrackedSubstate V) :=
  match q with Some q => substates q | None => [] end.

Definition scan_keys (kind : KeyKind) (node_id : list Z) (p limit : Z) : TM (list SubstateKey) :=
  t ← gets fst;
  let q := get_partition (tracked_nodes t) node_id p in
  let '(items, full) := scan_tracked limit (tracked_entries q) [] in
  if full then mret items
  else if (Z.of_nat (length items) =? limit) || node_is_new t node_id then mret items
  else
    l ← list_entries node_id p;
    r ← scan_db kind node_id p limit q l items 0;
    with_nodes (update_partition (raise_range_read r.2) node_id p);;
    mret r.1.

(** Taking the tracked substates, up to the limit. *)
Fixpoint drain_tracked (node_id : list Z) (p : Z) (limit : Z) (l : list (DbSortKey * TrackedSubstate V))
    (items : list (SubstateKey * V)) : TM (list (SubstateKey * V) * bool) :=
  match l with
  | [] => mret (items, false)
  | (sk, s) :: rest =>
      if Z.of_nat (length items) =? limit then mret (items, true) else
      let '(taken, v) := tracked_take (substate_value s) in
      with_nodes (update_partition (insert_substate sk (mk_substate (substate_key s) v)) node_id p);;
      io (TrackSubstateUpdated (canonical node_id p (substate_key s))
            (Some (tracked_size (substate_value s))) (Some (tracked_size v)));;
      drain_tracked node_id p limit rest
        (match taken with Some value => items ++ [(substate_key s, value)] | None => items end)
  end.

Fixpoint drain_db (kind : KeyKind) (node_id : list Z) (p : Z) (limit : Z)
    (q : option (TrackedPartition V)) (l : list (DbSortKey * DbSubstateValue))
    (items : list (SubstateKey * V)) (new_updates : list (DbSortKey * TrackedSubstate V)) (n : Z) :
    TM (list (SubstateKey * V) * list (DbSortKey * TrackedSubstate V) * Z) :=
  let n := wrap_u 32 (n + 1) in
  match l with
  | [] => mret (items, new_updates, n)
  | e :: rest =>
      r ← read_entry kind node_id p e;
      let '(sk, (k, v)) := r in
      if Z.of_nat (length items) =? limit then mret (items, new_updates, n)
      else if is_tracked q sk then drain_db kind node_id p limit q rest items new_updates n
      else drain_db kind node_id p limit q rest (items ++ [(k, v)])
             (new_updates ++ [(sk, mk_substate k (ReadExistAndWrite v WriteDelete))]) n
  end.

Fixpoint apply_drained (node_id : list Z) (p : Z) (l : list (DbSortKey * TrackedSubstate V)) : TM unit :=
  match l with
  | [] => mret tt
  | (sk, s) :: rest =>
      t ← gets fst;
      let old_size := (fun s => tracked_size (substate_value s)) <$>
        get_tracked (tracked_nodes t) node_id p sk in
      with_nodes (update_partition (insert_substate sk s) node_id p);;
      io (TrackSubstateUpdated (canonical node_id p (substate_key s)) old_size
            (Some (tracked_size (substate_value s))));;
      apply_drained node_id p rest
  end.

Definition drain_substates (kind : KeyKind) (node_id : list Z) (p limit : Z) : TM (list (SubstateKey * V)) :=
  t ← gets fst;
  r ← drain_tracked node_id p limit (tracked_entries (get_partition (tracked_nodes t) node_id p)) [];
  let '(items, full) := r : list (SubstateKey * V) * bool in
  if full then mret items
  else if (Z.of_nat (length items) =? limit) || node_is_new t node_id then mret items
  else
    l ← list_entries node_id p;
    t ← gets fst;
    r ← drain_db kind node_id p limit (get_partition (tracked_nodes t) node_id p) l items [] 0;
    let '(items, new_updates, n) := r in
    with_nodes (update_partition (raise_range_read n) node_id p);;
    apply_drained node_id p new_updates;;
    mret items.

(** [OverlayingResultIterator]: the entry of the database that has been peeked,
    the entries left and their count. *)
Definition Underlying : Type :=
  option (DbSortKey * (SubstateKey * V)) * list (DbSortKey * DbSubstateValue) * Z.

Definition peek_entry (node_id : list Z) (p : Z) (u : Underlying) :
    TM (option (DbSortKey * (SubstateKey * V)) * Underlying) :=
  let '(peeked, rest, n) := u in
  match peeked with
  | Some e => mret (Some e, u)
  | None =>
      match rest with
      | [] => mret (None, u)
      | raw :: rest' =>
          e ← read_entry SortedKind node_id p raw;
          mret (Some e, (Some e, rest', wrap_u 32 (n + 1)))
      end
  end.

Definition consume (u : Underlying) : Underlying := let '(_, rest, n) := u in (None, rest, n).

Fixpoint overlaying_result_next (node_id : list Z) (p : Z)
    (o : list (DbSortKey * option (SubstateKey * V))) (u : Underlying) :
    TM (option (DbSortKey * (SubstateKey * V)) * list (DbSortKey * option (SubstateKey * V)) * Underlying) :=
  r ← peek_entry node_id p u;
  let '(peeked, u) := r in
  match o with
  | [] => mret (peeked, [], consume u)
  | (overlaying_key, overlaying_change) :: o' =>
      let step u :=
        match overlaying_change with
        | Some value => mret (Some (overlaying_key, value), o', u)
        | None => overlaying_result_next node_id p o' u
        end in
      match peeked with
      | None => step u
      | Some e =>
          match cmp e.1 overlaying_key with
          | Lt => mret (Some e, o, consume u)
          | Eq => step (consume u)
          | Gt => step u
          end
      end
  end.

Fixpoint collect_sorted (node_id : list Z) (p : Z) (limit : nat)
    (o : list (DbSortKey * option (SubstateKey * V))) (u : Underlying)
    (items : list (SubstateKey * V)) : TM (list (SubstateKey * V) * Z) :=
  match limit with
  | O => mret (items, u.2)
  | S m =>
      r ← overlaying_result_next node_id p o u;
      let '(next, o', u') := r in
      match next with
      | None => mret (items, u'.2)
      | Some (_, (k, v)) =>
          assert_ (match k with Sorted _ _ => true | _ => false end);;
          collect_sorted node_id p m o' u' (items ++ [(k, v)])
      end
  end.

Definition scan_sorted_substates (node_id : list Z) (p limit : Z) : TM (list (SubstateKey * V)) :=
  with_nodes (update_partition id node_id p);;
  t ← gets fst;
  l ← (if node_is_new t node_id then mret [] : TM (list (DbSortKey * DbSubstateValue))
       else list_entries node_id p);
  let tracked_entry_changes := (fun e =>
    (e.1, v ← tracked_get (substate_value e.2); Some (substate_key e.2, v))) <$>
    tracked_entries (get_partition (tracked_nodes t) node_id p) in
  r ← collect_sorted node_id p (Z.to_nat limit) tracked_entry_changes (None, l, 0) [];
  with_nodes (update_partition (raise_range_read r.2) node_id p);;
  mret r.1.
End Operations.

(** ** Operations without a callback *)
Section Finalization.
Context {D V : Type} `{SubstateDatabase D} `{IndexedValue V}.
Context (hash : list Z -> list Z) (substate_db : D).

Abbreviation sort_key k := (to_db_sort_key hash k).

Definition get_tracked_substate_info (t : Track V) (node_id : list Z) (p : Z) (k : SubstateKey) :
    TrackedSubstateInfo :=
  match get_tracked (tracked_nodes t) node_id p (sort_key k) with
  | None => InfoUnmodified
  | Some s =>
      match substate_value s with
      | New _ | Garbage => InfoNew
      | WriteOnly _ | ReadExistAndWrite _ _ | ReadNonExistAndWrite _ => InfoUpdated
      | ReadOnly _ => InfoUnmodified
      end
  end.

(** The callback of [force_write] always fails: the substate must be tracked. *)
Definition force_write (node_id : list Z) (p : Z) (k : SubstateKey) (t : Track V) : Exec (Track V) :=
  match get_tracked_substate hash substate_db (fun _ c => (Err tt, c)) node_id p k (t, tt) with
  | Done (Ok cloned_track, (t, _)) =>
      Done (mk_track (tracked_nodes t)
        (update_partition (insert_substate (sort_key k) (mk_substate k cloned_track)) node_id p
           (force_write_tracked_nodes t))
        (deleted_partitions t) (transient_substates t))
  | Done (Err _, _) | Panicked => Panicked
  end.

Fixpoint restore_substates (node_id : list Z) (p : Z) (l : list (DbSortKey * TrackedSubstate V))
    (ns : IndexMap (list Z) (TrackedNode V)) : Exec (IndexMap (list Z) (TrackedNode V)) :=
  match l with
  | [] => Done ns
  | (sk, forced) :: rest =>
      s ← expect (get_tracked ns node_id p sk);
      restore_substates node_id p rest
        (update_partition (insert_substate sk (mk_substate (substate_key s) (substate_value forced)))
           node_id p ns)
  end.

Fixpoint restore_partitions (node_id : list Z) (l : list (Z * TrackedPartition V))
    (ns : IndexMap (list Z) (TrackedNode V)) : Exec (IndexMap (list Z) (TrackedNode V)) :=
  match l with
  | [] => Done ns
  | (p, q) :: rest => ns ← restore_substates node_id p (substates q) ns; restore_partitions node_id rest ns
  end.

Fixpoint restore_nodes (l : list (list Z * TrackedNode V)) (ns : IndexMap (list Z) (TrackedNode V)) :
    Exec (IndexMap (list Z) (TrackedNode V)) :=
  match l with
  | [] => Done ns
  | (n, node) :: rest => ns ← restore_partitions n (tracked_partitions node) ns; restore_nodes rest ns
  end.

Definition revert_non_force_write_changes (t : Track V) : Exec (Track V) :=
  let kept := filter (fun e => is_new e.2 = false) (tracked_nodes t) in
  ns ← restore_nodes (force_write_tracked_nodes t) (im_map revert_node kept);
  Done (mk_track ns [] (deleted_partitions t) (transient_substates t)).

Inductive TrackFinalizeError : Type := TransientSubstateOwnsNode.

Definition remove_tracked (sk : DbSortKey) (p : TrackedPartition V) : TrackedPartition V :=
  mk_partition (bt_remove sk (substates p)) (range_read p).

Fixpoint remove_transient (l : TransientSubstates) (ns : IndexMap (list Z) (TrackedNode V)) :
    Result TrackFinalizeError (IndexMap (list Z) (TrackedNode V)) :=
  match l with
  | [] => Ok ns
  | (n, p, k) :: rest =>
      match get_partition ns n p with
      | None => remove_transient rest ns
      | Some q =>
          let ns' := update_partition (remove_tracked (sort_key k)) n p ns in
          match s ← bt_get (sort_key k) (substates q); tracked_get (substate_value s) with
          | Some v => match owned_nodes v with [] => remove_transient rest ns' | _ => Err TransientSubstateOwnsNode end
          | None => remove_transient rest ns'
          end
      end
  end.

Record TrackedSubstates : Type := mk_tracked_substates {
  ts_nodes : IndexMap (list Z) (TrackedNode V);
  ts_deleted : list (list Z * Z)
}.

Definition finalize (t : Track V) : Result TrackFinalizeError TrackedSubstates :=
  ns ← remove_transient (transient_substates t) (tracked_nodes t);
  Ok (mk_tracked_substates ns (deleted_partitions t)).

Definition of_partition (f : PartitionStateUpdates -> PartitionStateUpdates) (node_id : list Z) (p : Z)
    (u : StateUpdates) : StateUpdates :=
  im_update [] (im_update partition_default f p) node_id u.

Definition partition_updates (q : TrackedPartition V) : IndexMap SubstateKey DatabaseUpdate :=
  im_collect (omap (fun s => u ← value_update (substate_value s); Some (substate_key s, u)) (substates q).*2).

Definition node_state_updates (u : StateUpdates) (e : list Z * TrackedNode V) : StateUpdates :=
  foldl (fun u pe =>
    match partition_updates pe.2 with
    | [] => u
    | us => of_partition (fun pu => mut_update_substates pu us) e.1 pe.1 u
    end) u (tracked_partitions e.2).

Definition to_state_updates (t : TrackedSubstates) : list (list Z) * StateUpdates :=
  let u := foldl (fun u d => of_partition (fun _ => partition_delete) d.1 d.2 u) [] (ts_deleted t) in
  ((filter (fun e => is_new e.2 = true) (ts_nodes t)).*1, foldl node_state_updates u (ts_nodes t)).

(** [get_commit_info] *)
Definition commit_of (t : Track V) (n : list Z) (p : Z) (sk : DbSortKey) (s : TrackedSubstate V) :
    list StoreCommit :=
  if is_transient t n p (substate_key s) then [] else
  let key := canonical n p (substate_key s) in
  match substate_value s with
  | New v => [CommitInsert key (value_len v)]
  | ReadOnly _ | Garbage => []
  | ReadExistAndWrite old_value (Update x) => [CommitUpdate key (value_len x) (value_len old_value)]
  | ReadExistAndWrite old_value WriteDelete => [CommitDelete key (value_len old_value)]
  | ReadNonExistAndWrite value => [CommitInsert key (value_len value)]
  | WriteOnly write =>
      match (fun x : list Z => Z.of_nat (length x)) <$>
              get_raw_substate_by_db_key substate_db (to_db_node_key hash n, p) sk, write with
      | Some old_size, Update x => [CommitUpdate key (value_len x) old_size]
      | Some old_size, WriteDelete => [CommitDelete key old_size]
      | None, Update x => [CommitInsert key (value_len x)]
      | None, WriteDelete => []
      end
  end.

Definition get_commit_info (t : Track V) : list StoreCommit :=
  ne ← tracked_nodes t;
  pe ← tracked_partitions ne.2;
  se ← substates pe.2;
  commit_of t ne.1 pe.1 se.1 se.2.
End Finalization.

(** ** Specification

    A partition holds keys of one kind.  The view of a track is the store a
    transaction sees through it. *)

Definition of_kind (kind : KeyKind) (k : SubstateKey) : Prop :=
  match kind, k with
  | FieldKind, Field _ => True
  | MapKind, Map _ => True
  | SortedKind, Sorted prefix _ => length prefix = 2%nat
  | _, _ => False
  end.

Module TrackSpec.
Section View.
Context {D V : Type} `{SubstateDatabase D} `{IndexedValue V}.
Context (hash : list Z -> list Z) (db : D).

Definition raw_read (n : list Z) (p : Z) (k : SubstateKey) : option DbSubstateValue :=
  get_raw_substate_by_db_key db (to_db_node_key hash n, p) (to_db_sort_key hash k).
Definition db_read (n : list Z) (p : Z) (k : SubstateKey) : option V := raw_read n p k ≫= from_vec.

Definition view (t : Track V) (n : list Z) (p : Z) (k : SubstateKey) : option V :=
  match get_tracked (tracked_nodes t) n p (to_db_sort_key hash k) with
  | Some s => tracked_get (substate_value s)
  | None => db_read n p k
  end.

(** The database holds substates of the kind of each partition. *)
Record db_wf (kinds : list Z -> Z -> KeyKind) (inv : D -> Prop) : Prop := {
  db_inv : inv db;
  db_decodes : forall pk sk raw, get_raw_substate_by_db_key db pk sk = Some raw -> is_Some (from_vec (V := V) raw);
  db_kinds : forall n p sk, is_Some (get_raw_substate_by_db_key db (to_db_node_key hash n, p) sk) ->
    exists k, of_kind (kinds n p) k /\ sk = to_db_sort_key hash k
}.

(** What a tracked substate says about the database. *)
Definition value_agrees (t : TrackedSubstateValue V) (d : option V) : Prop :=
  match t with
  | New _ | ReadOnly NonExistent | ReadNonExistAndWrite _ | Garbage => d = None
  | ReadOnly (Existent v) | ReadExistAndWrite v _ => d = Some v
  | WriteOnly _ => True
  end.
End View.

(** The store with one substate replaced. *)
Definition store_set {V} (s : list Z -> Z -> SubstateKey -> option V) (n : list Z) (p : Z) (k : SubstateKey)
    (v : option V) (n' : list Z) (p' : Z) (k' : SubstateKey) : option V :=
  if decide ((n', p', k') = (n, p, k)) then v else s n' p' k'.
End TrackSpec.

Module TrackLemmas.
Import TrackSpec.

Section Nodes.
Context {V : Type}.
Implicit Types (ns : IndexMap (list Z) (TrackedNode V)).

Definition nodes_ok ns : Prop :=
  im_ok ns /\ forall n node, im_get n ns = Some node ->
    im_ok (tracked_partitions node) /\
    forall p q, im_get p (tracked_partitions node) = Some q -> bt_ok (substates q).

Lemma nodes_ok_nil : nodes_ok [].
Proof. split; [constructor|]. done. Qed.

Lemma get_partition_ok ns n p q : nodes_ok ns -> get_partition ns n p = Some q -> bt_ok (substates q).
Proof.
  intros [_ Hok] Hq. apply bind_Some in Hq as (node & Hn & Hp).
  destruct (Hok _ _ Hn) as [_ Hall]. by apply (Hall p).
Qed.

Lemma get_partition_update f n p ns n' p' :
  get_partition (update_partition f n p ns) n' p' =
  if decide ((n', p') = (n, p)) then Some (f (default TrackedPartition_new (get_partition ns n p)))
  else get_partition ns n' p'.
Proof.
  unfold get_partition, update_partition, im_update. rewrite im_get_insert.
  destruct (decide (n' = n)) as [->|Hn].
  - cbn [mbind option_bind tracked_partitions]. rewrite im_get_insert.
    destruct (decide (p' = p)) as [->|Hp].
    + rewrite decide_True by done. by destruct (im_get n ns).
    + rewrite decide_False by congruence. by destruct (im_get n ns).
  - by rewrite decide_False by congruence.
Qed.

Lemma update_partition_ok f n p ns :
  nodes_ok ns -> (forall q, bt_ok (substates q) -> bt_ok (substates (f q))) ->
  nodes_ok (update_partition f n p ns).
Proof.
  intros [Hok Hall] Hf. unfold update_partition, im_update. split; [by apply im_ok_insert|].
  intros n' node. rewrite im_get_insert. case_decide; [|apply Hall]. intros [= <-]. cbn.
  assert (im_ok (tracked_partitions (default (TrackedNode_new false) (im_get n ns))) /\
    forall p q, im_get p (tracked_partitions (default (TrackedNode_new false) (im_get n ns))) = Some q ->
      bt_ok (substates q)) as [H1 H2].
  { destruct (im_get n ns) as [node|] eqn:E; cbn; [by apply (Hall n)|]. split; [constructor|done]. }
  split; [by apply im_ok_insert|]. intros p' q. rewrite im_get_insert. case_decide; [|apply H2].
  intros [= <-]. apply Hf. destruct (im_get p _) eqn:E; cbn; [by apply (H2 p)|done].
Qed.

Lemma get_tracked_update f n p ns n' p' sk :
  get_tracked (update_partition f n p ns) n' p' sk =
  if decide ((n', p') = (n, p))
  then bt_get sk (substates (f (default TrackedPartition_new (get_partition ns n p))))
  else get_tracked ns n' p' sk.
Proof. unfold get_tracked. rewrite get_partition_update. by case_decide. Qed.

(** Updates that keep the substates. *)
Lemma get_tracked_keep f n p ns n' p' sk :
  (forall q, substates (f q) = substates q) ->
  get_tracked (update_partition f n p ns) n' p' sk = get_tracked ns n' p' sk.
Proof.
  intros Hf. rewrite get_tracked_update. case_decide as Hd; [|done]. injection Hd as -> ->.
  rewrite Hf. unfold get_tracked. by destruct (get_partition ns n p).
Qed.

Lemma partition_default_ok ns n p :
  nodes_ok ns -> bt_ok (substates (default TrackedPartition_new (get_partition ns n p))).
Proof.
  intros Hok. destruct (get_partition ns n p) eqn:E; cbn; [by eapply get_partition_ok|done].
Qed.

Lemma get_tracked_insert sk s n p ns n' p' sk' : nodes_ok ns ->
  get_tracked (update_partition (insert_substate sk s) n p ns) n' p' sk' =
  if decide ((n', p', sk') = (n, p, sk)) then Some s else get_tracked ns n' p' sk'.
Proof.
  intros Hok. rewrite get_tracked_update. destruct (decide ((n', p') = (n, p))) as [Hd|Hd].
  - injection Hd as -> ->. cbn [insert_substate substates].
    rewrite bt_get_insert by (by apply partition_default_ok). rewrite cmp_decide2.
    destruct (decide (sk' = sk)) as [->|Hs]; [by rewrite decide_True|].
    rewrite decide_False by congruence. unfold get_tracked. by destruct (get_partition ns n p).
  - by rewrite decide_False by congruence.
Qed.

Lemma insert_substate_ok sk (s : TrackedSubstate V) q : bt_ok (substates q) -> bt_ok (substates (insert_substate sk s q)).
Proof. intros. by apply bt_ok_insert. Qed.

Definition nodes_new ns (n : list Z) : bool :=
  match im_get n ns with Some node => is_new node | None => false end.

Lemma nodes_new_update f n p ns n' : nodes_new (update_partition f n p ns) n' = nodes_new ns n'.
Proof.
  unfold nodes_new, update_partition, im_update. rewrite im_get_insert.
  case_decide; [subst|done]. cbn. by destruct (im_get n ns).
Qed.
End Nodes.
#[export] Hint Resolve update_partition_ok insert_substate_ok nodes_ok_nil : radix.

Lemma of_kind_same kind k k' : of_kind kind k -> of_kind kind k' -> same_kind k k'.
Proof. by destruct kind, k, k'. Qed.

Lemma of_kind_inj hash kind k k' : (forall bs, length (hash bs) = 32%nat) ->
  of_kind kind k -> of_kind kind k' -> to_db_sort_key hash k = to_db_sort_key hash k' -> k = k'.
Proof. intros. eapply to_db_sort_key_inj; eauto using of_kind_same. Qed.

Lemma wp_io {V C E : Type} (f : IOAccess -> C -> Result E unit * C) a (t : Track V) c Q R :
  (forall c', Q tt (t, c')) -> (forall e c', R e (t, c')) -> wp (io f a) (t, c) Q R.
Proof. intros HQ HR. unfold wp, io. cbn. destruct (f a c) as [[[]|e] c']; auto. Qed.

Section Invariant.
Context {D V : Type} `{SubstateDatabase D} `{IndexedValue V}.
Context (hash : list Z -> list Z) (db : D) (kinds : list Z -> Z -> KeyKind).

Abbreviation sort_key k := (to_db_sort_key hash k).

(** A tracked entry: its key is of the kind of the partition and sorts where it
    is, and its value agrees with the database. *)
Definition entry_ok (n : list Z) (p : Z) (sk : DbSortKey) (s : TrackedSubstate V) : Prop :=
  of_kind (kinds n p) (substate_key s) /\ sk = sort_key (substate_key s) /\
  value_agrees (substate_value s) (db_read hash db n p (substate_key s)).

Record Inv (t : Track V) : Prop := {
  inv_nodes : nodes_ok (tracked_nodes t);
  inv_entry : forall n p sk s, get_tracked (tracked_nodes t) n p sk = Some s -> entry_ok n p sk s;
  inv_transient : forall n p k, (n, p, k) ∈ transient_substates t ->
    of_kind (kinds n p) k /\ raw_read hash db n p k = None;
  inv_new : forall n, nodes_new (tracked_nodes t) n = true -> forall p sk,
    get_raw_substate_by_db_key db (to_db_node_key hash n, p) sk = None;
  inv_forced_nodes : nodes_ok (force_write_tracked_nodes t);
  inv_forced : forall n p sk s, get_tracked (force_write_tracked_nodes t) n p sk = Some s ->
    entry_ok n p sk s /\ is_Some (get_tracked (tracked_nodes t) n p sk) /\
    nodes_new (tracked_nodes t) n = false
}.

(** What a step leaves alone. *)
Record framed (t t' : Track V) : Prop := {
  frame_forced : force_write_tracked_nodes t' = force_write_tracked_nodes t;
  frame_deleted : deleted_partitions t' = deleted_partitions t;
  frame_transient : transient_substates t' = transient_substates t;
  frame_new : forall n, nodes_new (tracked_nodes t') n = nodes_new (tracked_nodes t) n
}.

Lemma framed_refl t : framed t t.
Proof. by split. Qed.
Lemma framed_trans t1 t2 t3 : framed t1 t2 -> framed t2 t3 -> framed t1 t3.
Proof. intros [] []. split; intros; congruence. Qed.

(** A step that makes the view [s]. *)
Definition steps_to (t : Track V) (s : list Z -> Z -> SubstateKey -> option V) (t' : Track V) : Prop :=
  Inv t' /\ framed t t' /\
  forall n p k, of_kind (kinds n p) k -> view hash db t' n p k = s n p k.

Abbreviation seen t := (view hash db t).

Lemma steps_refl t : Inv t -> steps_to t (seen t) t.
Proof. intros. split; [done|]. split; [apply framed_refl|done]. Qed.

(** Updating the nodes so that every entry stays and the added ones are right. *)
Lemma Inv_set_nodes t f : Inv t ->
  nodes_ok (f (tracked_nodes t)) ->
  (forall n, nodes_new (f (tracked_nodes t)) n = nodes_new (tracked_nodes t) n) ->
  (forall n p sk, is_Some (get_tracked (tracked_nodes t) n p sk) ->
     is_Some (get_tracked (f (tracked_nodes t)) n p sk)) ->
  (forall n p sk s, get_tracked (f (tracked_nodes t)) n p sk = Some s -> entry_ok n p sk s) ->
  Inv (set_nodes f t) /\ framed t (set_nodes f t).
Proof.
  intros HI Hok Hnew Hkeep Hent. split; [|by split]. destruct HI. split; cbn; try done.
  - intros n. rewrite Hnew. auto.
  - intros n p sk s Hs. destruct (inv_forced0 n p sk s Hs) as (? & ? & ?).
    rewrite Hnew. eauto.
Qed.

Lemma steps_keep t f n p : Inv t -> (forall q, substates (f q) = substates q) ->
  steps_to t (seen t) (set_nodes (update_partition f n p) t).
Proof.
  intros HI Hf.
  assert (forall n' p' sk, get_tracked (update_partition f n p (tracked_nodes t)) n' p' sk =
    get_tracked (tracked_nodes t) n' p' sk) as Hg by (intros; by apply get_tracked_keep).
  destruct (Inv_set_nodes t (update_partition f n p) HI) as [HI' HF].
  - apply update_partition_ok; [apply HI|]. intros q. by rewrite Hf.
  - intros. apply nodes_new_update.
  - intros n' p' sk. by rewrite Hg.
  - intros n' p' sk s. rewrite Hg. apply HI.
  - split; [done|]. split; [done|]. intros. unfold view. cbn [set_nodes tracked_nodes]. by rewrite Hg.
Qed.

Context (Hhash : forall bs, length (hash bs) = 32%nat).

Lemma steps_put t n p k v : Inv t -> of_kind (kinds n p) k ->
  value_agrees v (db_read hash db n p k) ->
  steps_to t (store_set (seen t) n p k (tracked_get v))
    (set_nodes (update_partition (insert_substate (sort_key k) (mk_substate k v)) n p) t).
Proof.
  intros HI Hk Hv. pose proof (inv_nodes _ HI) as Hok.
  destruct (Inv_set_nodes t (update_partition (insert_substate (sort_key k) (mk_substate k v)) n p) HI)
    as [HI' HF].
  - apply update_partition_ok; [done|]. intros. by apply insert_substate_ok.
  - intros. apply nodes_new_update.
  - intros n' p' sk Hs. rewrite get_tracked_insert by done. by case_decide.
  - intros n' p' sk s. rewrite get_tracked_insert by done. case_decide as Hd; [|apply HI].
    injection Hd as -> -> ->. intros [= <-]. by repeat split.
  - split; [done|]. split; [done|]. intros n' p' k' Hk'. unfold view, store_set. cbn [set_nodes tracked_nodes].
    rewrite get_tracked_insert by done. destruct (decide ((n', p', k') = (n, p, k))) as [Hd|Hd].
    + injection Hd as -> -> ->. by rewrite decide_True.
    + rewrite decide_False; [done|]. intros [= -> -> Hs]. apply Hd.
      by rewrite (of_kind_inj hash (kinds n p) k' k Hhash Hk' Hk Hs).
Qed.

Lemma tracked_key t n p k s : Inv t -> of_kind (kinds n p) k ->
  get_tracked (tracked_nodes t) n p (sort_key k) = Some s ->
  s = mk_substate k (substate_value s) /\ value_agrees (substate_value s) (db_read hash db n p k).
Proof.
  intros HI Hk Hs. destruct (inv_entry _ HI _ _ _ _ Hs) as (Hk' & He & Hv).
  assert (substate_key s = k) as Hkey by (by apply (of_kind_inj hash (kinds n p))).
  rewrite Hkey in Hv. split; [|done]. destruct s; cbn in *. by subst.
Qed.

Context (Hdec : forall pk sk raw, get_raw_substate_by_db_key db pk sk = Some raw -> is_Some (from_vec (V := V) raw)).

Lemma db_read_raw n p k raw v : raw_read hash db n p k = Some raw -> from_vec raw = Some v ->
  db_read hash db n p k = Some v.
Proof. unfold db_read. by intros ->. Qed.
End Invariant.

Section Steps.
Context {D V C E : Type} `{SubstateDatabase D} `{IndexedValue V}.
Context (hash : list Z -> list Z) (Hhash : forall bs, length (hash bs) = 32%nat).
Context (db : D) (kinds : list Z -> Z -> KeyKind).
Context (Hdec : forall pk sk raw, get_raw_substate_by_db_key db pk sk = Some raw -> is_Some (from_vec (V := V) raw)).
Context (f : IOAccess -> C -> Result E unit * C).

Abbreviation sort_key k := (to_db_sort_key hash k).
Abbreviation seen t := (view hash db t).
Abbreviation steps_to := (steps_to (V := V) hash db kinds).
Abbreviation Inv := (Inv (V := V) hash db kinds).

Lemma steps_then t1 t2 t3 s : steps_to t1 s t2 -> steps_to t2 (seen t2) t3 -> steps_to t1 s t3.
Proof.
  intros (HI & HF & HV) (HI' & HF' & HV'). split; [done|].
  split; [by eapply framed_trans|]. intros. rewrite HV' by done. auto.
Qed.

(** Tracking a substate with the value it has does not change the view. *)
Lemma track_fresh_spec t c n p k v : Inv t -> of_kind (kinds n p) k ->
  value_agrees v (db_read hash db n p k) ->
  let post t' := steps_to t (store_set (seen t) n p k (tracked_get v)) t' in
  wp (track_fresh hash f n p k v) (t, c)
    (fun r s' => r = v /\ post s'.1 /\
       get_tracked (tracked_nodes s'.1) n p (sort_key k) = Some (mk_substate k v))
    (fun _ s' => post s'.1).
Proof.
  intros HI Hk Hv post. unfold track_fresh, with_nodes. wp_steps.
  pose proof (steps_put hash db kinds Hhash t n p k v HI Hk Hv) as Hs.
  apply wp_io; [|done]. intros c'. apply wp_ret. split; [done|]. split; [exact Hs|].
  cbn [set_nodes tracked_nodes fst]. rewrite get_tracked_insert by apply HI. by rewrite decide_True.
Qed.

Lemma store_set_same (s : list Z -> Z -> SubstateKey -> option V) n p k v n' p' k' :
  s n p k = v -> store_set s n p k v n' p' k' = s n' p' k'.
Proof. intros <-. unfold store_set. by case_decide; simplify_eq. Qed.

Lemma track_read_spec t1 c n p k r : Inv t1 -> of_kind (kinds n p) k ->
  seen t1 n p k = db_read hash db n p k -> tracked_get (ReadOnly r) = db_read hash db n p k ->
  wp (track_fresh hash f n p k (ReadOnly r)) (t1, c)
    (fun v s' => steps_to t1 (seen t1) s'.1 /\
       get_tracked (tracked_nodes s'.1) n p (sort_key k) = Some (mk_substate k v))
    (fun _ s' => steps_to t1 (seen t1) s'.1).
Proof.
  intros HI Hk Hv Hr.
  assert (forall t', steps_to t1 (store_set (seen t1) n p k (tracked_get (ReadOnly r))) t' ->
    steps_to t1 (seen t1) t') as Hs.
  { intros t' (HI' & HF & HV). split; [done|]. split; [done|]. intros.
    rewrite HV by done. apply store_set_same. congruence. }
  eapply wp_mono; [apply track_fresh_spec; [done|done|]| |].
  - destruct r; cbn in *; congruence.
  - intros v s' (-> & H1 & H2). auto.
  - intros e s' H1. auto.
Qed.

Lemma get_substate_from_db_spec t c n p k :
  wp (get_substate_from_db hash db f n p k) (t, c)
    (fun v s' => s'.1 = t /\ v = db_read hash db n p k) (fun _ s' => s'.1 = t).
Proof.
  unfold get_substate_from_db, db_read, raw_read, db_partition_key.
  destruct (get_raw_substate_by_db_key db (to_db_node_key hash n, p) (sort_key k)) as [raw|] eqn:Hraw.
  - destruct (Hdec _ _ _ Hraw) as [x Hx]. cbn [mbind option_bind]. rewrite Hx. wp_step.
    apply (wp_lift_exec _ _ _ _ x); [done|]. wp_step. apply wp_io; [|done]. intros. by apply wp_ret.
  - wp_step. apply wp_io; [|done]. intros. by apply wp_ret.
Qed.

Lemma get_tracked_substate_spec t c n p k : Inv t -> of_kind (kinds n p) k ->
  wp (get_tracked_substate hash db f n p k) (t, c)
    (fun v s' => steps_to t (seen t) s'.1 /\
       get_tracked (tracked_nodes s'.1) n p (sort_key k) = Some (mk_substate k v))
    (fun _ s' => steps_to t (seen t) s'.1).
Proof.
  intros HI Hk. unfold get_tracked_substate, with_nodes. wp_steps. cbn [fst snd].
  pose proof (steps_keep hash db kinds t id n p HI ltac:(done)) as Hs1.
  set (t1 := set_nodes (update_partition id n p) t) in *. pose proof (proj1 Hs1) as HI1.
  destruct (get_tracked (tracked_nodes t1) n p (sort_key k)) as [s|] eqn:Hg.
  { apply wp_ret. split; [done|]. cbn [fst].
    by destruct (tracked_key hash db kinds Hhash _ _ _ _ _ HI1 Hk Hg) as [<- _]. }
  assert (seen t1 n p k = db_read hash db n p k) as Hv by (unfold view; by rewrite Hg).
  assert (forall c r, tracked_get (ReadOnly r) = db_read hash db n p k ->
    wp (track_fresh hash f n p k (ReadOnly r)) (t1, c)
      (fun v s' => steps_to t (seen t) s'.1 /\
         get_tracked (tracked_nodes s'.1) n p (sort_key k) = Some (mk_substate k v))
      (fun _ s' => steps_to t (seen t) s'.1)) as Hfresh.
  { intros c' r Hr. eapply wp_mono; [apply (track_read_spec t1 c' n p k r HI1 Hk Hv Hr)| |].
    - intros v s' [Hs ?]. split; [|done]. exact (steps_then _ _ _ _ Hs1 Hs).
    - intros e s' Hs. exact (steps_then _ _ _ _ Hs1 Hs). }
  destruct (is_transient t1 n p k) eqn:Htr.
  - apply Hfresh. apply bool_decide_eq_true in Htr.
    destruct (inv_transient _ _ _ _ HI1 _ _ _ Htr) as [_ Hn]. unfold db_read. by rewrite Hn.
  - wp_step. eapply wp_mono; [apply get_substate_from_db_spec| |].
    + intros v [t' c'] [Ht' ->]. cbn in Ht'. subst t'. apply Hfresh.
      by destruct (db_read hash db n p k).
    + by intros e [t' c'] Ht'; cbn in Ht'; subst t'.
Qed.

Lemma get_substate_spec t c n p k : Inv t -> of_kind (kinds n p) k ->
  wp (get_substate hash db f n p k) (t, c)
    (fun v s' => steps_to t (seen t) s'.1 /\ v = seen t n p k)
    (fun _ s' => steps_to t (seen t) s'.1).
Proof.
  intros HI Hk. unfold get_substate. wp_step.
  eapply wp_mono; [by apply get_tracked_substate_spec| |done].
  intros v s' [Hs Hg]. apply wp_ret. split; [done|]. destruct Hs as (_ & _ & HV).
  rewrite <- HV by done. unfold view. by rewrite Hg.
Qed.

Lemma set_substate_spec t c n p k v : Inv t -> of_kind (kinds n p) k ->
  let post t' := steps_to t (store_set (seen t) n p k (Some v)) t' in
  wp (set_substate hash f n p k v) (t, c) (fun _ s' => post s'.1) (fun _ s' => post s'.1).
Proof.
  intros HI Hk post. unfold set_substate, with_nodes. wp_steps. cbn [fst snd].
  pose proof (steps_keep hash db kinds t id n p HI ltac:(done)) as Hs1.
  set (t1 := set_nodes (update_partition id n p) t) in *. pose proof (proj1 Hs1) as HI1.
  assert (forall t' v', tracked_get v' = Some v -> steps_to t1 (store_set (seen t1) n p k (tracked_get v')) t' ->
    post t') as Hpost.
  { intros t' v' -> (HI' & HF & HV). destruct Hs1 as (_ & HF1 & HV1). split; [done|].
    split; [by eapply framed_trans|]. intros. rewrite HV by done. unfold store_set.
    by rewrite HV1 by done. }
  destruct (get_tracked (tracked_nodes t1) n p (sort_key k)) as [s|] eqn:Hg.
  - destruct (tracked_key hash db kinds Hhash _ _ _ _ _ HI1 Hk Hg) as [Hs Hv].
    assert (substate_key s = k) as -> by (by rewrite Hs).
    unfold put_tracked, with_nodes. wp_steps. cbn [fst snd].
    assert (tracked_get (tracked_set v (substate_value s)) = Some v) as Hget
      by (by destruct (substate_value s) as [|[]|? []| |[]|]).
    assert (value_agrees (tracked_set v (substate_value s)) (db_read hash db n p k)) as Hv'
      by (by destruct (substate_value s) as [|[]|? []| |[]|]).
    pose proof (steps_put hash db kinds Hhash t1 n p k _ HI1 Hk Hv') as Hput.
    apply wp_io; intros; by eapply Hpost.
  - wp_step. eapply wp_mono; [by apply (track_fresh_spec t1)| |].
    + intros r s' (_ & Hs & _). apply wp_ret. exact (Hpost _ (WriteOnly (Update v)) eq_refl Hs).
    + intros e s' Hs. exact (Hpost _ (WriteOnly (Update v)) eq_refl Hs).
Qed.

Lemma tracked_take_get (w : TrackedSubstateValue V) : (tracked_take w).1 = tracked_get w.
Proof. by destruct w as [|[]|? []| |[]|]. Qed.
Lemma tracked_take_rest (w : TrackedSubstateValue V) d : value_agrees w d ->
  tracked_get (tracked_take w).2 = None /\ value_agrees (tracked_take w).2 d.
Proof. by destruct w as [|[]|? []| |[]|]. Qed.

(** A removal that is charged for may fail after the substate is gone. *)
Lemma remove_substate_spec t c n p k : Inv t -> of_kind (kinds n p) k ->
  let post t' := steps_to t (store_set (seen t) n p k None) t' in
  wp (remove_substate hash db f n p k) (t, c)
    (fun v s' => post s'.1 /\ v = seen t n p k)
    (fun _ s' => post s'.1 \/ steps_to t (seen t) s'.1).
Proof.
  intros HI Hk post. unfold remove_substate. wp_step.
  eapply wp_mono; [by apply get_tracked_substate_spec| |by right].
  intros w [t1 c1] [Hs1 Hg]. cbn [fst] in Hs1, Hg. pose proof (proj1 Hs1) as HI1.
  assert (seen t n p k = tracked_get w) as Hw.
  { destruct Hs1 as (_ & _ & HV). rewrite <- HV by done. unfold view. by rewrite Hg. }
  destruct (tracked_key hash db kinds Hhash _ _ _ _ _ HI1 Hk Hg) as [_ Hv]. cbn in Hv.
  rewrite Hw, <- tracked_take_get. destruct (tracked_take_rest w _ Hv) as [Hr Hv'].
  destruct (tracked_take w) as [taken rest]. cbn [fst snd] in *.
  wp_steps. cbn [fst]. rewrite Hg. apply (wp_lift_exec _ _ _ _ (mk_substate k w)); [done|].
  unfold put_tracked, with_nodes. cbn [substate_key]. wp_steps. cbn [fst snd].
  pose proof (steps_put hash db kinds Hhash t1 n p k _ HI1 Hk Hv') as (HI2 & HF2 & HV2).
  rewrite Hr in HV2. destruct Hs1 as (_ & HF1 & HV1).
  assert (post (set_nodes (update_partition (insert_substate (sort_key k) (mk_substate k rest)) n p) t1)) as Hp.
  { split; [done|]. split; [by eapply framed_trans|]. intros. rewrite HV2 by done.
    unfold store_set. by rewrite HV1 by done. }
  apply wp_io; [|by left]. intros. apply wp_ret. done.
Qed.

(** ** Scans *)
Context (inv : D -> Prop) `{!SubstateDatabaseLaws D inv} (Hwf : db_wf (V := V) hash db kinds inv).

(** The entries of a partition in the view. *)
Definition lists (t : Track V) (n : list Z) (p : Z) (es : list (SubstateKey * V)) : Prop :=
  NoDup es.*1 /\ forall k v, (k, v) ∈ es <-> of_kind (kinds n p) k /\ seen t n p k = Some v.

(** The entries of the database, decoded. *)
Definition decodes (kind : KeyKind) (e : DbSortKey * DbSubstateValue) (e' : DbSortKey * (SubstateKey * V)) : Prop :=
  e'.1 = e.1 /\ e.1 = sort_key e'.2.1 /\ of_kind kind e'.2.1 /\
  from_db_sort_key kind e.1 = Done e'.2.1 /\ from_vec e.2 = Some e'.2.2.

Lemma from_db_sort_key_of kind k : of_kind kind k -> from_db_sort_key kind (sort_key k) = Done k.
Proof.
  unfold to_db_sort_key. destruct kind, k as [|m|pre m]; try done; cbn [of_kind from_db_sort_key].
  - intros _. unfold map_from_db_sort_key. by rewrite from_to_hash_prefixed.
  - intros Hl. destruct pre as [|a [|b [|]]]; try done. unfold sorted_from_db_sort_key.
    cbn [app length Nat.ltb Nat.leb]. unfold copy_u8_array, bytes_from.
    cbn -[to_hash_prefixed from_hash_prefixed]. by rewrite ?drop_0, from_to_hash_prefixed.
Qed.

Lemma decoded_entries n p : exists l L,
  list_raw_values_from_db_key db (to_db_node_key hash n, p) None = Done l /\
  Forall2 (decodes (kinds n p)) l L /\ bt_ok L /\
  forall k, of_kind (kinds n p) k -> bt_get (sort_key k) L = pair k <$> db_read hash db n p k.
Proof.
  destruct (list_exact db (to_db_node_key hash n, p) None (db_inv _ _ _ _ Hwf)) as (l & Hl & Hok & Hg).
  cbn in Hg.
  assert (exists L, Forall2 (decodes (kinds n p)) l L) as [L HL].
  { assert (Forall (fun e => exists e', decodes (kinds n p) e e') l) as Hall.
    { apply Forall_forall. intros [sk raw] Hin.
      apply im_elem_get in Hin; [|by apply bt_ok_nodup]. rewrite im_get_bt, Hg in Hin by done.
      destruct (db_kinds _ _ _ _ Hwf n p sk) as (k & Hk & ->); [by rewrite Hin|].
      destruct (Hdec _ _ _ Hin) as [v Hv].
      exists (sort_key k, (k, v)). repeat split; try done. by apply from_db_sort_key_of. }
    clear -Hall. induction Hall as [|e l [e' He] _ [L IH]]; [by exists []|].
    exists (e' :: L). by constructor. }
  exists l, L. split; [done|]. split; [done|].
  assert (bt_ok L) as HokL.
  { clear -Hok HL. induction HL as [|e e' l L He HL IH]; [done|]. destruct e as [sk raw], e' as [sk' [k v]].
    destruct Hok as [Hb Hok]. destruct He as (He & _). cbn in He. subst sk'. split; [|auto].
    clear -Hb HL. induction HL as [|e e' l L He HL IH]; [done|]. destruct e, e' as [? []].
    destruct Hb as [Hlt Hb]. destruct He as (He & _). cbn in He. subst. by split; [|auto]. }
  split; [done|]. intros k Hk. unfold db_read, raw_read. rewrite <- Hg. clear Hg Hl Hok HokL.
  induction HL as [|e e' l L He HL IH]; [done|]. destruct e as [sk raw], e' as [sk' [k' v]].
  destruct He as (He & Hs & Hk' & _ & Hv). cbn in He, Hs, Hk', Hv. subst sk' sk. cbn [bt_get].
  destruct (cmp (sort_key k) (sort_key k')) eqn:Ec; [|done|exact IH].
  apply cmp_eq in Ec. apply (of_kind_inj hash (kinds n p)) in Ec as ->; [|done..].
  cbn. by rewrite Hv.
Qed.

Lemma bt_elem {A} sk (a : A) (m : BTreeMap DbSortKey A) : bt_ok m -> (sk, a) ∈ m <-> bt_get sk m = Some a.
Proof.
  intros Hm. rewrite <- im_get_bt by done. split; [|apply im_get_elem].
  apply im_elem_get. by apply bt_ok_nodup.
Qed.

Lemma omap_keys {K A B} (g : K * A -> option (K * B)) (l : list (K * A)) :
  (forall e e', g e = Some e' -> e'.1 = e.1) -> NoDup l.*1 -> NoDup (omap g l).*1.
Proof.
  intros Hg. induction l as [|e l IH]; cbn; [by intros|]. intros [Hn Hl]%NoDup_cons.
  destruct (g e) as [e'|] eqn:Ee; cbn; [|auto]. constructor; [|auto].
  rewrite (Hg _ _ Ee). intros Hin. apply Hn. apply list_elem_of_fmap in Hin as (x & -> & Hx).
  apply list_elem_of_omap in Hx as (y & Hy & Hx). apply Hg in Hx. rewrite Hx.
  by apply list_elem_of_fmap_2.
Qed.

(** The tracked entries that exist and the entries of the database that are not
    tracked. *)
Definition live (l : list (DbSortKey * TrackedSubstate V)) : list (SubstateKey * V) :=
  omap (fun e => v ← tracked_get (substate_value e.2); Some (substate_key e.2, v)) l.
Definition untracked (q : option (TrackedPartition V)) (L : list (DbSortKey * (SubstateKey * V))) :
    list (SubstateKey * V) :=
  omap (fun e => if is_tracked q e.1 then None else Some e.2) L.

Lemma live_cons sk s l : live ((sk, s) :: l) =
  match tracked_get (substate_value s) with Some v => (substate_key s, v) :: live l | None => live l end.
Proof. unfold live. cbn. by destruct (tracked_get (substate_value s)). Qed.
Lemma untracked_cons q sk e L : untracked q ((sk, e) :: L) =
  if is_tracked q sk then untracked q L else e :: untracked q L.
Proof. unfold untracked. cbn. by destruct (is_tracked q sk). Qed.

Lemma untracked_ext q q' L : (forall sk, is_tracked q sk = is_tracked q' sk) -> untracked q L = untracked q' L.
Proof.
  intros Hq. induction L as [|[sk e] L IH]; [done|]. rewrite !untracked_cons, Hq, IH. done.
Qed.

Lemma tracked_in t n p sk s : Inv t ->
  (sk, s) ∈ tracked_entries (get_partition (tracked_nodes t) n p) <->
  get_tracked (tracked_nodes t) n p sk = Some s.
Proof.
  intros HI. unfold get_tracked. destruct (get_partition (tracked_nodes t) n p) as [q|] eqn:Hq; cbn.
  - apply bt_elem. eapply get_partition_ok; [apply HI|done].
  - split; [by intros ?%elem_of_nil|done].
Qed.

Lemma tracked_nodup t n p : Inv t -> NoDup (tracked_entries (get_partition (tracked_nodes t) n p)).*1.
Proof.
  intros HI. destruct (get_partition (tracked_nodes t) n p) as [q|] eqn:Hq; cbn; [|constructor].
  apply bt_ok_nodup. eapply get_partition_ok; [apply HI|done].
Qed.

Lemma is_tracked_spec (t : Track V) n p sk :
  is_tracked (get_partition (tracked_nodes t) n p) sk =
  match get_tracked (tracked_nodes t) n p sk with Some _ => true | None => false end.
Proof. unfold is_tracked, get_tracked. by destruct (get_partition (tracked_nodes t) n p). Qed.

Lemma elem_live l k v : (k, v) ∈ live l <-> exists sk s, (sk, s) ∈ l /\ substate_key s = k /\ tracked_get (substate_value s) = Some v.
Proof.
  unfold live. rewrite list_elem_of_omap. split.
  - intros ([sk s] & Hin & Hs). apply bind_Some in Hs as (v' & Hv & [= <- <-]). by exists sk, s.
  - intros (sk & s & Hin & <- & Hv). exists (sk, s). split; [done|]. cbn. by rewrite Hv.
Qed.

Lemma elem_untracked q L k v : (k, v) ∈ untracked q L <-> exists sk, (sk, (k, v)) ∈ L /\ is_tracked q sk = false.
Proof.
  unfold untracked. rewrite list_elem_of_omap. split.
  - intros ([sk [k' v']] & Hin & Hs). cbn in Hs. destruct (is_tracked q sk) eqn:Ht; simplify_eq. by exists sk.
  - intros (sk & Hin & Ht). exists (sk, (k, v)). split; [done|]. cbn. by rewrite Ht.
Qed.

Lemma live_keys t n p l : Inv t ->
  (forall sk s, (sk, s) ∈ l -> get_tracked (tracked_nodes t) n p sk = Some s) -> NoDup l.*1 ->
  NoDup (live l).*1.
Proof.
  intros HI Hl Hnd. apply (NoDup_fmap_1 (to_db_sort_key hash)).
  set (g := fun e : DbSortKey * TrackedSubstate V =>
    v ← tracked_get (substate_value e.2); Some (e.1, (substate_key e.2, v))).
  assert (to_db_sort_key hash <$> (live l).*1 = (omap g l).*1) as ->.
  { unfold live, g. clear Hnd. induction l as [|[sk s] l IH]; [done|]. cbn.
    destruct (tracked_get (substate_value s)); cbn; [|apply IH; intros; apply Hl; by right].
    f_equal; [|apply IH; intros; apply Hl; by right].
    destruct (inv_entry _ _ _ _ HI n p sk s) as (_ & Hs & _); [apply Hl; left|]. done. }
  apply omap_keys; [|done]. unfold g. intros [sk s] e He. apply bind_Some in He as (? & _ & [= <-]). done.
Qed.

Lemma untracked_keys q l L n p : Forall2 (decodes (kinds n p)) l L -> bt_ok L -> NoDup (untracked q L).*1.
Proof.
  intros HL Hok. apply (NoDup_fmap_1 (to_db_sort_key hash)).
  set (g := fun e : DbSortKey * (SubstateKey * V) => if is_tracked q e.1 then None else Some e).
  assert (to_db_sort_key hash <$> (untracked q L).*1 = (omap g L).*1) as ->.
  { clear Hok. unfold untracked, g. induction HL as [|e e' l L He HL IH]; [done|]. cbn.
    destruct (is_tracked q e'.1); cbn; [done|]. destruct He as (-> & -> & _). by f_equal. }
  apply omap_keys; [|by apply bt_ok_nodup]. unfold g. intros e e'. by case_match; intros; simplify_eq.
Qed.

Lemma decoded_in n p l L : Forall2 (decodes (kinds n p)) l L -> bt_ok L ->
  (forall k, of_kind (kinds n p) k -> bt_get (sort_key k) L = pair k <$> db_read hash db n p k) ->
  forall sk k v, (sk, (k, v)) ∈ L <-> sk = sort_key k /\ of_kind (kinds n p) k /\ db_read hash db n p k = Some v.
Proof.
  intros HL HokL HgL sk k v. rewrite bt_elem by done. split.
  - intros Hg. pose proof Hg as Hin. apply bt_elem in Hin; [|done].
    assert (sk = sort_key k /\ of_kind (kinds n p) k) as [-> Hk].
    { clear -HL Hin. induction HL as [|e e' l L He HL IH]; [by apply elem_of_nil in Hin|].
      apply elem_of_cons in Hin as [<-|Hin]; [|auto]. destruct He as (He & Hs & Hk & _).
      cbn in *. by subst. }
    split; [done|]. split; [done|]. rewrite HgL in Hg by done.
    destruct (db_read hash db n p k); cbn in Hg; by simplify_eq.
  - intros (-> & Hk & Hv). rewrite HgL by done. by rewrite Hv.
Qed.

Lemma lists_split t n p l L : Inv t -> Forall2 (decodes (kinds n p)) l L -> bt_ok L ->
  (forall k, of_kind (kinds n p) k -> bt_get (sort_key k) L = pair k <$> db_read hash db n p k) ->
  let q := get_partition (tracked_nodes t) n p in
  lists t n p (live (tracked_entries q) ++ untracked q L).
Proof.
  intros HI HL HokL HgL q.
  pose proof (decoded_in n p l L HL HokL HgL) as HinL.
  assert (forall k v, (k, v) ∈ live (tracked_entries q) <-> of_kind (kinds n p) k /\
    exists s, get_tracked (tracked_nodes t) n p (sort_key k) = Some s /\ tracked_get (substate_value s) = Some v)
    as HinT.
  { intros k v. rewrite elem_live. split.
    - intros (sk & s & Hin & <- & Hv). apply tracked_in in Hin; [|done].
      destruct (inv_entry _ _ _ _ HI _ _ _ _ Hin) as (Hk & -> & _). split; [done|]. by exists s.
    - intros (Hk & s & Hs & Hv). exists (sort_key k), s. split; [by apply tracked_in|].
      split; [|done]. destruct (tracked_key hash db kinds Hhash _ _ _ _ _ HI Hk Hs) as [-> _]. done. }
  split.
  - rewrite fmap_app. apply NoDup_app. split_and!.
    + apply (live_keys t n p); [done|by intros; apply tracked_in|by apply tracked_nodup].
    + intros k ([k1 v1] & -> & H1)%list_elem_of_fmap ([k2 v2] & He & H2)%list_elem_of_fmap. cbn in He. subst k2.
      apply HinT in H1 as (_ & s & Hs & _). apply elem_untracked in H2 as (sk & Hin & Ht).
      apply HinL in Hin as (-> & _). unfold q in Ht. by rewrite is_tracked_spec, Hs in Ht.
    + by eapply untracked_keys.
  - intros k v. rewrite elem_of_app, HinT, elem_untracked. unfold view. split.
    + intros [(Hk & s & -> & Hv)|(sk & (-> & Hk & Hv)%HinL & Ht)]; [done|]. split; [done|].
      unfold q in Ht. rewrite is_tracked_spec in Ht. by destruct (get_tracked _ _ _ _).
    + intros [Hk Hv]. destruct (get_tracked (tracked_nodes t) n p (sort_key k)) as [s|] eqn:Hs.
      * left. split; [done|]. by exists s.
      * right. exists (sort_key k). split; [by apply HinL|]. unfold q. by rewrite is_tracked_spec, Hs.
Qed.

Lemma read_entry_spec kind t c n p e e' : decodes kind e e' ->
  wp (read_entry f kind n p e) (t, c) (fun r s' => r = e' /\ s'.1 = t) (fun _ s' => s'.1 = t).
Proof.
  intros (He & _ & _ & Hk & Hv). unfold read_entry. wp_step. eapply wp_lift_exec; [exact Hk|].
  wp_step. eapply wp_lift_exec; [by rewrite Hv|]. wp_step. apply wp_io; [|done].
  intros. apply wp_ret. rewrite <- He. by destruct e' as [? []].
Qed.

Lemma take_full {A} m (l l' : list A) : length l = m -> take m (l ++ l') = l.
Proof. intros <-. apply take_app_length. Qed.

Lemma scan_tracked_spec limit l items : 0 <= limit -> (length items <= Z.to_nat limit)%nat ->
  let '(r, b) := scan_tracked limit l items in
  r = take (Z.to_nat limit) (items ++ (live l).*1) /\
  if b then length r = Z.to_nat limit else r = items ++ (live l).*1.
Proof.
  intros Hlim. revert items. induction l as [|[sk s] l IH]; intros items Hlen.
  - cbn. rewrite app_nil_r. split; [|done]. by rewrite take_ge.
  - cbn [scan_tracked]. destruct (Z.eqb_spec (Z.of_nat (length items)) limit) as [Hl|Hl].
    + split; [|lia]. by rewrite take_full by lia.
    + rewrite live_cons. destruct (tracked_get (substate_value s)) as [v|]; cbn [fmap list_fmap fst].
      * specialize (IH (items ++ [substate_key s])). rewrite length_app in IH. cbn in IH.
        specialize (IH ltac:(lia)). destruct (scan_tracked _ _ _) as [r b].
        by rewrite <- app_assoc in IH.
      * by apply IH.
Qed.

Lemma scan_db_spec kind t c n p limit q l L items m :
  0 <= limit -> (length items <= Z.to_nat limit)%nat -> Forall2 (decodes kind) l L ->
  wp (scan_db f kind n p limit q l items m) (t, c)
    (fun r s' => s'.1 = t /\ r.1 = take (Z.to_nat limit) (items ++ (untracked q L).*1))
    (fun _ s' => s'.1 = t).
Proof.
  intros Hlim Hlen HL. revert items m c Hlen. induction HL as [|e e' l L He HL IH]; intros items m c Hlen.
  - cbn [scan_db]. apply wp_ret. split; [done|]. cbn. by rewrite app_nil_r, take_ge.
  - cbn [scan_db]. wp_step. eapply wp_mono; [by apply read_entry_spec| |done].
    intros r [t' c'] [-> Ht]. cbn in Ht. subst t'. destruct e' as [sk [k v]].
    destruct (Z.eqb_spec (Z.of_nat (length items)) limit) as [Hl|Hl].
    + apply wp_ret. split; [done|]. cbn [fst]. by rewrite take_full by lia.
    + rewrite untracked_cons. destruct (is_tracked q sk); [by apply IH|]. cbn [fmap list_fmap fst].
      assert (items ++ k :: (untracked q L).*1 = (items ++ [k]) ++ (untracked q L).*1) as ->
        by (by rewrite <- app_assoc).
      apply IH. rewrite length_app. cbn. lia.
Qed.

(** A new node has nothing in the database. *)
Lemma new_untracked t n p L : Inv t -> node_is_new t n = true ->
  (forall k, of_kind (kinds n p) k -> bt_get (sort_key k) L = pair k <$> db_read hash db n p k) ->
  bt_ok L -> (exists l, Forall2 (decodes (kinds n p)) l L) -> L = [].
Proof.
  intros HI Hnew HgL Hok [l HL]. destruct HL as [|e [sk [k v]] l L He HL]; [done|]. exfalso.
  destruct He as (He & Hs & Hk & _). cbn in He, Hs, Hk. subst. specialize (HgL k Hk).
  cbn [bt_get] in HgL. rewrite <- Hs, cmp_refl in HgL. unfold db_read, raw_read in HgL.
  rewrite (inv_new _ _ _ _ HI n Hnew) in HgL. done.
Qed.

(** A prefix that is long enough, or the whole list. *)
Lemma take_prefix {A} m (l l' : list A) :
  length (take m l) = m \/ l' = [] -> take m l = take m (l ++ l').
Proof.
  intros [Hl| ->]; [|by rewrite app_nil_r]. rewrite length_take in Hl. rewrite take_app_le by lia. done.
Qed.

Lemma scan_keys_spec t c n p limit : Inv t -> 0 <= limit ->
  wp (scan_keys hash db f (kinds n p) n p limit) (t, c)
    (fun r s' => steps_to t (seen t) s'.1 /\
       exists es, lists t n p es /\ r = take (Z.to_nat limit) es.*1)
    (fun _ s' => steps_to t (seen t) s'.1).
Proof.
  intros HI Hlim. destruct (decoded_entries n p) as (l & L & Hl & HL & HokL & HgL).
  pose proof (lists_split t n p l L HI HL HokL HgL) as Hlists. cbv zeta in Hlists.
  unfold scan_keys. wp_steps. cbn [fst]. set (q := get_partition (tracked_nodes t) n p) in *.
  pose proof (scan_tracked_spec limit (tracked_entries q) [] Hlim ltac:(cbn; lia)) as Hscan.
  destruct (scan_tracked limit (tracked_entries q) []) as [items full]. cbn [app] in Hscan.
  destruct Hscan as [Hitems Hfull].
  assert (length items = Z.to_nat limit \/ untracked q L = [] ->
    steps_to t (seen t) t /\ exists es, lists t n p es /\ items = take (Z.to_nat limit) es.*1) as Hdone.
  { intros Hcase. split; [by apply steps_refl|]. exists (live (tracked_entries q) ++ untracked q L).
    split; [done|]. rewrite fmap_app, Hitems. apply take_prefix. rewrite <- Hitems.
    destruct Hcase as [?| ->]; [by left|by right]. }
  destruct full; [apply wp_ret, Hdone; by left|].
  destruct (Z.eqb_spec (Z.of_nat (length items)) limit); cbn [orb]; [apply wp_ret, Hdone; left; lia|].
  destruct (node_is_new t n) eqn:Hnew.
  { apply wp_ret, Hdone. right. rewrite (new_untracked t n p L); eauto. }
  wp_step. unfold list_entries. eapply wp_lift_exec; [exact Hl|]. wp_step.
  eapply wp_mono; [apply (scan_db_spec _ t c n p limit q l L items 0 Hlim)| |].
  - rewrite Hitems, length_take. lia.
  - done.
  - intros r [t' c'] [Ht Hr]. cbn in Ht. subst t'. unfold with_nodes. wp_steps. cbn [fst snd].
    split; [by apply steps_keep|]. eexists. split; [exact Hlists|]. by rewrite Hr, Hfull, fmap_app.
  - intros e [t' c'] Ht. cbn in Ht. subst t'. by apply steps_refl.
Qed.

(** ** Draining *)

Definition store_remove (s : list Z -> Z -> SubstateKey -> option V) (n : list Z) (p : Z)
    (ks : list SubstateKey) (n' : list Z) (p' : Z) (k' : SubstateKey) : option V :=
  if decide ((n', p') = (n, p) /\ k' ∈ ks) then None else s n' p' k'.

Lemma store_remove_nil s n p n' p' k' : store_remove s n p [] n' p' k' = s n' p' k'.
Proof. unfold store_remove. rewrite decide_False; [done|]. by intros [_ ?%elem_of_nil]. Qed.

Lemma store_remove_set (s : list Z -> Z -> SubstateKey -> option V) n p k ks n' p' k' :
  store_remove (store_set s n p k None) n p ks n' p' k' = store_remove s n p (k :: ks) n' p' k'.
Proof.
  unfold store_remove, store_set.
  destruct (decide ((n', p') = (n, p) /\ k' ∈ ks)) as [[H1 H2]|Hno].
  - rewrite decide_True; [done|]. split; [done|]. by right.
  - destruct (decide ((n', p', k') = (n, p, k))) as [He|He].
    + injection He as -> -> ->. rewrite decide_True; [done|]. split; [done|left].
    + rewrite decide_False; [done|]. intros [H1 [->|H2]%elem_of_cons]; [congruence|auto].
Qed.

Lemma store_remove_app s n p ks ks' n' p' k' :
  store_remove (store_remove s n p ks) n p ks' n' p' k' = store_remove s n p (ks ++ ks') n' p' k'.
Proof.
  unfold store_remove. destruct (decide ((n', p') = (n, p) /\ k' ∈ ks ++ ks')) as [[H1 H2]|Hno].
  - case_decide; [done|]. rewrite elem_of_app in H2. rewrite decide_True by tauto. done.
  - rewrite elem_of_app in Hno. rewrite !decide_False by tauto. done.
Qed.

Lemma store_remove_ext (s s' : list Z -> Z -> SubstateKey -> option V) n p ks n' p' k' :
  s n' p' k' = s' n' p' k' -> store_remove s n p ks n' p' k' = store_remove s' n p ks n' p' k'.
Proof. intros He. unfold store_remove. by rewrite He. Qed.

(** The entry taken first and the others. *)
Definition cons_taken {A} (o : option A) (l : list A) : list A := match o with Some a => a :: l | None => l end.

Lemma store_remove_cons (s : list Z -> Z -> SubstateKey -> option V) n p k ks n' p' k' :
  store_remove (store_set s n p k None) n p ks n' p' k' =
  store_remove s n p (cons_taken (const k <$> s n p k) ks) n' p' k'.
Proof.
  destruct (s n p k) as [v|] eqn:Hs; [apply store_remove_set|]. cbn.
  apply store_remove_ext. by apply store_set_same.
Qed.

Definition same_tracked (n : list Z) (p : Z) (t t' : Track V) : Prop :=
  forall sk, is_Some (get_tracked (tracked_nodes t') n p sk) <-> is_Some (get_tracked (tracked_nodes t) n p sk).

Definition drained (n : list Z) (p : Z) (t t' : Track V) (new : list (SubstateKey * V)) : Prop :=
  steps_to t (store_remove (seen t) n p new.*1) t' /\ same_tracked n p t t'.

Lemma drained_nil n p t : Inv t -> drained n p t t [].
Proof.
  intros HI. split; [|done]. split; [done|]. split; [apply framed_refl|]. intros. by rewrite store_remove_nil.
Qed.

(** Taking one tracked substate. *)
Lemma drained_one n p t s rest : Inv t ->
  get_tracked (tracked_nodes t) n p (sort_key (substate_key s)) = Some s ->
  of_kind (kinds n p) (substate_key s) -> rest = (tracked_take (substate_value s)).2 ->
  let t1 := set_nodes (update_partition (insert_substate (sort_key (substate_key s))
              (mk_substate (substate_key s) rest)) n p) t in
  Inv t1 /\ framed t t1 /\ same_tracked n p t t1 /\
  (forall sk', sk' <> sort_key (substate_key s) ->
     get_tracked (tracked_nodes t1) n p sk' = get_tracked (tracked_nodes t) n p sk') /\
  forall t2 new, drained n p t1 t2 new ->
    drained n p t t2 (cons_taken (pair (substate_key s) <$> tracked_get (substate_value s)) new).
Proof.
  intros HI Hs Hk -> t1. destruct (inv_entry _ _ _ _ HI _ _ _ _ Hs) as (_ & _ & Hv).
  destruct (tracked_take_rest _ _ Hv) as [Hr Hv'].
  pose proof (steps_put hash db kinds Hhash t n p (substate_key s) _ HI Hk Hv') as (HI1 & HF1 & HV1).
  fold t1 in HI1, HF1, HV1. rewrite Hr in HV1.
  assert (same_tracked n p t t1) as Hdom.
  { intros sk'. unfold t1. cbn [set_nodes tracked_nodes]. rewrite get_tracked_insert by apply HI.
    case_decide as Hd; [|done]. injection Hd as ->. rewrite Hs. by split. }
  split_and!; [done|done|done| |].
  - intros sk' Hne. unfold t1. cbn [set_nodes tracked_nodes]. rewrite get_tracked_insert by apply HI.
    rewrite decide_False; [done|congruence].
  - intros t2 new [(HI2 & HF2 & HV2) Hdom2]. split; [|intros sk; specialize (Hdom2 sk); specialize (Hdom sk); tauto].
    split; [done|]. split; [by eapply framed_trans|]. intros n' p' k' Hk'. rewrite HV2 by done.
    assert (seen t n p (substate_key s) = tracked_get (substate_value s)) as Hsv
      by (unfold view; by rewrite Hs).
    assert (store_remove (seen t1) n p new.*1 n' p' k' =
      store_remove (store_set (seen t) n p (substate_key s) None) n p new.*1 n' p' k') as ->
      by (unfold store_remove; by rewrite HV1).
    rewrite store_remove_cons, Hsv. by destruct (tracked_get (substate_value s)).
Qed.

Lemma drain_tracked_spec t c n p limit l items : Inv t -> 0 <= limit ->
  (length items <= Z.to_nat limit)%nat -> NoDup l.*1 ->
  (forall sk s, (sk, s) ∈ l -> get_tracked (tracked_nodes t) n p sk = Some s) ->
  wp (drain_tracked f n p limit l items) (t, c)
    (fun r s' => exists new, r.1 = items ++ new /\ new = take (Z.to_nat limit - length items) (live l) /\
       (if r.2 then length r.1 = Z.to_nat limit else new = live l) /\ drained n p t s'.1 new)
    (fun _ s' => Inv s'.1 /\ framed t s'.1).
Proof.
  intros HI Hlim. revert t c items HI. induction l as [|[sk s] l IH]; intros t c items HI Hlen Hnd Hl.
  { cbn [drain_tracked]. apply wp_ret. exists []. cbn. rewrite app_nil_r, take_nil.
    split_and!; try done; by apply drained_nil. }
  cbn [drain_tracked]. destruct (Z.eqb_spec (Z.of_nat (length items)) limit) as [Hlim'|Hlim'].
  { apply wp_ret. exists []. cbn [fst snd]. rewrite app_nil_r. split_and!; [done| |lia|by apply drained_nil].
    by replace (Z.to_nat limit - length items)%nat with 0%nat by lia. }
  pose proof (Hl sk s ltac:(left)) as Hs.
  destruct (inv_entry _ _ _ _ HI _ _ _ _ Hs) as (Hk & -> & _).
  pose proof (tracked_take_get (substate_value s)) as Ht.
  destruct (tracked_take (substate_value s)) as [taken rest] eqn:Htake. cbn [fst] in Ht. subst taken.
  unfold with_nodes. wp_steps. cbn [fst snd].
  destruct (drained_one n p t s rest HI Hs Hk ltac:(by rewrite Htake)) as (HI1 & HF1 & Hd1 & Hg1 & Hdr).
  set (t1 := set_nodes _ t) in *. apply wp_io; [|done]. intros c1. apply NoDup_cons in Hnd as [Hn Hnd].
  assert (forall sk' s', (sk', s') ∈ l -> get_tracked (tracked_nodes t1) n p sk' = Some s') as Hl1.
  { intros sk' s' Hin. rewrite Hg1; [apply Hl; by right|]. intros ->. apply Hn. by apply (list_elem_of_fmap_2 fst) in Hin. }
  rewrite live_cons. destruct (tracked_get (substate_value s)) as [v|]; cbn [fmap option_fmap option_map cons_taken] in Hdr.
  - eapply wp_mono; [apply (IH t1 c1 (items ++ [(substate_key s, v)])); try done| |].
    + rewrite length_app. cbn. lia.
    + intros r s' (new & Hr1 & Hnew & Hb & Hdrained). exists ((substate_key s, v) :: new).
      rewrite length_app in Hnew. cbn [length] in Hnew. split_and!; [by rewrite Hr1, <- app_assoc| | |auto].
      * replace (Z.to_nat limit - length items)%nat with (S (Z.to_nat limit - (length items + 1))) by lia.
        cbn [take]. by f_equal.
      * destruct r.2; [done|]. by f_equal.
    + intros e s' [HI2 HF2]. split; [done|]. by eapply framed_trans.
  - eapply wp_mono; [by apply (IH t1 c1 items)| |].
    + intros r s' (new & Hr1 & Hnew & Hb & Hdrained). exists new. split_and!; auto.
    + intros e s' [HI2 HF2]. split; [done|]. by eapply framed_trans.
Qed.

Definition drain_update (e : SubstateKey * V) : DbSortKey * TrackedSubstate V :=
  (sort_key e.1, mk_substate e.1 (ReadExistAndWrite e.2 WriteDelete)).

Lemma drain_db_spec kind t c n p limit q l L items ups m :
  0 <= limit -> (length items <= Z.to_nat limit)%nat -> Forall2 (decodes kind) l L ->
  wp (drain_db f kind n p limit q l items ups m) (t, c)
    (fun r s' => s'.1 = t /\ exists new, new = take (Z.to_nat limit - length items) (untracked q L) /\
       r.1.1 = items ++ new /\ r.1.2 = ups ++ (drain_update <$> new))
    (fun _ s' => s'.1 = t).
Proof.
  intros Hlim Hlen HL. revert items ups m c Hlen. induction HL as [|e e' l L He HL IH]; intros items ups m c Hlen.
  { cbn [drain_db]. apply wp_ret. split; [done|]. exists []. cbn. by rewrite take_nil, !app_nil_r. }
  cbn [drain_db]. wp_step. eapply wp_mono; [by apply read_entry_spec| |done].
  intros r [t' c'] [-> Ht]. cbn in Ht. subst t'. destruct e' as [sk [k v]].
  destruct (Z.eqb_spec (Z.of_nat (length items)) limit) as [Hl|Hl].
  { apply wp_ret. split; [done|]. exists []. cbn [fst snd]. rewrite !app_nil_r.
    by replace (Z.to_nat limit - length items)%nat with 0%nat by lia. }
  rewrite untracked_cons. destruct (is_tracked q sk); [by apply IH|].
  destruct He as (He & Hsk & _). cbn in He, Hsk. subst sk. rewrite Hsk.
  eapply wp_mono; [apply (IH (items ++ [(k, v)]))| |done]; [rewrite length_app; cbn; lia|].
  intros r [t' c''] (Ht & new & Hnew & H1 & H2). cbn in Ht. subst t'. split; [done|].
  exists ((k, v) :: new). rewrite length_app in Hnew. cbn [length] in Hnew. split_and!.
  - replace (Z.to_nat limit - length items)%nat with (S (Z.to_nat limit - (length items + 1))) by lia.
    cbn [take]. by f_equal.
  - by rewrite H1, <- app_assoc.
  - rewrite H2, <- app_assoc. done.
Qed.

Lemma apply_drained_spec t c n p new : Inv t ->
  (forall k v, (k, v) ∈ new -> of_kind (kinds n p) k /\ db_read hash db n p k = Some v) ->
  wp (apply_drained f n p (drain_update <$> new)) (t, c)
    (fun _ s' => steps_to t (store_remove (seen t) n p new.*1) s'.1)
    (fun _ s' => Inv s'.1 /\ framed t s'.1).
Proof.
  revert t c. induction new as [|[k v] new IH]; intros t c HI Hnew.
  { apply wp_ret. split; [done|]. split; [apply framed_refl|]. intros. by rewrite store_remove_nil. }
  destruct (Hnew k v ltac:(left)) as [Hk Hv]. cbn [fmap list_fmap drain_update apply_drained fst snd].
  unfold with_nodes. wp_steps. cbn [fst snd substate_key].
  pose proof (steps_put hash db kinds Hhash t n p k (ReadExistAndWrite v WriteDelete) HI Hk Hv) as (HI1 & HF1 & HV1).
  set (t1 := set_nodes _ t) in *. apply wp_io; [|done]. intros c1.
  eapply wp_mono; [apply (IH t1 c1 HI1)| |].
  - intros k' v' Hin. apply Hnew. by right.
  - intros [] s' (HI2 & HF2 & HV2). split; [done|]. split; [by eapply framed_trans|].
    intros n' p' k' Hk'. rewrite HV2 by done. rewrite <- store_remove_set.
    apply store_remove_ext. by rewrite HV1.
  - intros e s' [HI2 HF2]. split; [done|]. by eapply framed_trans.
Qed.

Lemma drain_substates_spec t c n p limit : Inv t -> 0 <= limit ->
  wp (drain_substates hash db f (kinds n p) n p limit) (t, c)
    (fun r s' => steps_to t (store_remove (seen t) n p r.*1) s'.1 /\
       exists es, lists t n p es /\ r = take (Z.to_nat limit) es)
    (fun _ s' => Inv s'.1 /\ framed t s'.1).
Proof.
  intros HI Hlim. destruct (decoded_entries n p) as (l & L & Hl & HL & HokL & HgL).
  pose proof (lists_split t n p l L HI HL HokL HgL) as Hlists. cbv zeta in Hlists.
  unfold drain_substates. wp_steps. cbn [fst]. set (q := get_partition (tracked_nodes t) n p) in *.
  eapply wp_mono; [apply (drain_tracked_spec t c n p limit (tracked_entries q) [] HI Hlim)| |done].
  { cbn. lia. } { by apply tracked_nodup. } { intros. by apply tracked_in. }
  intros [items full] [t1 c1] (new & Hi & Hnew & Hfull & Hdr). cbn [fst snd app] in *. subst items.
  cbn [length] in Hnew. rewrite Nat.sub_0_r in Hnew. pose proof Hdr as [(HI1 & HF1 & HV1) Hdom].
  assert (length new = Z.to_nat limit \/ untracked q L = [] ->
    steps_to t (store_remove (seen t) n p new.*1) t1 /\
    exists es, lists t n p es /\ new = take (Z.to_nat limit) es) as Hdone.
  { intros Hcase. split; [apply Hdr|]. exists (live (tracked_entries q) ++ untracked q L).
    split; [done|]. rewrite Hnew. apply take_prefix. rewrite <- Hnew. done. }
  destruct full; [apply wp_ret, Hdone; by left|].
  destruct (Z.eqb_spec (Z.of_nat (length new)) limit); cbn [orb]; [apply wp_ret, Hdone; left; lia|].
  destruct (node_is_new t n) eqn:Hisnew.
  { apply wp_ret, Hdone. right. rewrite (new_untracked t n p L); eauto. }
  wp_step. unfold list_entries. eapply wp_lift_exec; [exact Hl|]. wp_steps. cbn [fst].
  assert (length new <= Z.to_nat limit)%nat as Hlen by (rewrite Hnew, length_take; lia).
  eapply wp_mono; [apply (drain_db_spec _ t1 c1 n p limit _ l L new [] 0 Hlim Hlen HL)| |].
  - intros [[items ups] m] [t' c'] (Ht & new2 & Hnew2 & Hi & Hu). cbn [fst snd app] in *. subst t' items ups.
    unfold with_nodes. wp_steps. cbn [fst snd].
    destruct (steps_keep hash db kinds t1 (raise_range_read m) n p HI1 ltac:(done)) as (HI2 & HF2 & HV2).
    set (t2 := set_nodes _ t1) in *.
    assert (untracked (get_partition (tracked_nodes t1) n p) L = untracked q L) as Hun.
    { apply untracked_ext. intros sk. unfold q. rewrite !is_tracked_spec. specialize (Hdom sk).
      destruct (get_tracked (tracked_nodes t) n p sk), (get_tracked (tracked_nodes t1) n p sk); try done;
        destruct Hdom as [Ha Hb]; [by destruct (Hb ltac:(done))|by destruct (Ha ltac:(done))]. }
    rewrite Hun in Hnew2. eapply wp_mono; [apply (apply_drained_spec t2 c' n p new2 HI2)| |].
    + intros k v Hin. rewrite Hnew2 in Hin. apply elem_of_take in Hin as (i & Hin & _).
      apply list_elem_of_lookup_2, elem_untracked in Hin as (sk & Hin & _).
      by apply (decoded_in n p l L HL HokL HgL) in Hin as (_ & ? & ?).
    + intros [] s' (HI3 & HF3 & HV3). apply wp_ret. split.
      * split; [done|]. split; [eauto using framed_trans|]. intros n' p' k' Hk'.
        rewrite HV3, fmap_app, <- store_remove_app by done. apply store_remove_ext.
        rewrite HV2 by done. by apply HV1.
      * eexists. split; [exact Hlists|]. rewrite take_app, Hnew2, <- Hfull. f_equal.
        by rewrite take_ge by done.
    + intros e s' [HI3 HF3]. eauto using framed_trans.
  - intros e [t' c'] Ht. cbn in Ht. subst t'. done.
Qed.

(** ** Sorted scans *)

Lemma peek_entry_spec t c n p peeked rest Rest m : Forall2 (decodes SortedKind) rest Rest ->
  wp (peek_entry f n p (peeked, rest, m)) (t, c)
    (fun r s' => s'.1 = t /\ exists rest' Rest' m', r.2 = (r.1, rest', m') /\ Forall2 (decodes SortedKind) rest' Rest' /\
       cons_taken peeked Rest = cons_taken r.1 Rest' /\ (r.1 = None -> Rest' = []))
    (fun _ s' => s'.1 = t).
Proof.
  intros HL. unfold peek_entry. destruct peeked as [e|].
  { apply wp_ret. split; [done|]. exists rest, Rest, m. cbn. done. }
  destruct HL as [|e e' rest Rest He HL].
  { apply wp_ret. split; [done|]. exists [], [], m. cbn. done. }
  wp_step. eapply wp_mono; [by apply read_entry_spec| |done]. intros r s' [-> Ht]. apply wp_ret.
  split; [done|]. exists rest, Rest, (wrap_u 32 (m + 1)). cbn. done.
Qed.

Lemma overlaying_result_next_spec t c n p o peeked rest Rest m : Forall2 (decodes SortedKind) rest Rest ->
  wp (overlaying_result_next f n p o (peeked, rest, m)) (t, c)
    (fun r s' => s'.1 = t /\ exists peeked' rest' Rest' m', r.2 = (peeked', rest', m') /\
       Forall2 (decodes SortedKind) rest' Rest' /\
       overlaying_next (cons_taken peeked Rest) o = (r.1.1, (cons_taken peeked' Rest', r.1.2)))
    (fun _ s' => s'.1 = t).
Proof.
  revert c peeked rest Rest m. induction o as [|[ok change] o IH]; intros c peeked rest Rest m HL;
    cbn [overlaying_result_next]; wp_step; (eapply wp_mono; [by apply peek_entry_spec| |done]);
    intros [e u] [t' c'] (Ht & rest' & Rest' & m' & Hu & HL' & Hc & Hnone); cbn [fst snd] in *; subst t' u;
    rewrite Hc; destruct e as [[uk uv]|]; cbn [cons_taken].
  - apply wp_ret. split; [done|]. exists None, rest', Rest', m'. done.
  - apply wp_ret. split; [done|]. rewrite Hnone in * by done. exists None, rest', [], m'. done.
  - cbn [fst overlaying_next]. destruct (cmp uk ok).
    + destruct change as [v|]; [|by apply (IH _ None)]. apply wp_ret. split; [done|]. by exists None, rest', Rest', m'.
    + apply wp_ret. split; [done|]. by exists None, rest', Rest', m'.
    + destruct change as [v|]; [|by apply (IH _ (Some (uk, uv)))]. apply wp_ret. split; [done|].
      by exists (Some (uk, uv)), rest', Rest', m'.
  - rewrite Hnone in * by done. cbn [overlaying_next]. destruct change as [v|].
    + apply wp_ret. split; [done|]. by exists None, rest', [], m'.
    + by apply (IH _ None).
Qed.

Lemma collect_sorted_spec t c n p limit fuel o peeked rest Rest m items l : Forall2 (decodes SortedKind) rest Rest ->
  overlaying_collect fuel (cons_taken peeked Rest) o = Done l ->
  Forall (fun e => of_kind SortedKind e.2.1) l ->
  wp (collect_sorted f n p limit o (peeked, rest, m) items) (t, c)
    (fun r s' => s'.1 = t /\ r.1 = items ++ (take limit l).*2) (fun _ s' => s'.1 = t).
Proof.
  revert c fuel o peeked rest Rest m items l. induction limit as [|limit IH]; intros c fuel o peeked rest Rest m items l HL Hc Hl.
  { cbn [collect_sorted]. apply wp_ret. split; [done|]. cbn. by rewrite app_nil_r. }
  cbn [collect_sorted]. wp_step. eapply wp_mono; [by apply (overlaying_result_next_spec t c n p o peeked rest Rest m)| |done].
  intros [[next o'] u'] [t' c'] (Ht & peeked' & rest' & Rest' & m' & Hu & HL' & Hn). cbn [fst snd] in *. subst t' u'.
  destruct fuel as [|fuel]; [done|]. cbn [overlaying_collect] in Hc. rewrite Hn in Hc.
  destruct next as [[sk [k v]]|].
  - destruct (overlaying_collect fuel (cons_taken peeked' Rest') o') as [l'|] eqn:Hc'; [|done].
    injection Hc as <-. apply Forall_cons in Hl as [Hk Hl]. cbn in Hk. wp_step. apply wp_assert; [by destruct k|].
    eapply wp_mono; [by eapply (IH _ fuel)| |done]. intros r s' [Ht Hr]. split; [done|].
    rewrite Hr. cbn. by rewrite <- app_assoc.
  - injection Hc as <-. apply wp_ret. split; [done|]. cbn. by rewrite app_nil_r.
Qed.

Lemma bt_get_fmap {A B} (g : A -> B) sk (m : BTreeMap DbSortKey A) :
  bt_get sk ((fun e => (e.1, g e.2)) <$> m) = g <$> bt_get sk m.
Proof. induction m as [|[k a] m IH]; [done|]. cbn [fmap list_fmap bt_get fst snd]. by destruct (cmp sk k). Qed.

Lemma bt_ok_fmap {A B} (g : A -> B) (m : BTreeMap DbSortKey A) : bt_ok m -> bt_ok ((fun e => (e.1, g e.2)) <$> m).
Proof.
  induction m as [|[k a] m IH]; [done|]. cbn [fmap list_fmap bt_ok fst snd]. intros [Hb Hm]. split; [|auto].
  clear -Hb. induction m as [|[k' a'] m IH]; [done|]. destruct Hb as [H1 H2]. split; [done|auto].
Qed.

(** The overlay of the tracked changes lists the view, in the order of the keys. *)
Lemma overlay_lists t n p l L U : Inv t -> Forall2 (decodes (kinds n p)) l L -> bt_ok L ->
  (forall k, of_kind (kinds n p) k -> bt_get (sort_key k) L = pair k <$> db_read hash db n p k) ->
  bt_ok U -> (forall sk, bt_get sk U = overlaid sk L ((fun e =>
    (e.1, v ← tracked_get (substate_value e.2); Some (substate_key e.2, v))) <$>
    tracked_entries (get_partition (tracked_nodes t) n p))) ->
  lists t n p U.*2 /\ U = (fun e => (sort_key e.1, e)) <$> U.*2 /\ Forall (fun e => of_kind (kinds n p) e.2.1) U.
Proof.
  intros HI HL HokL HgL HokU HgU. pose proof (decoded_in n p l L HL HokL HgL) as HinL.
  assert (forall sk k v, (sk, (k, v)) ∈ U <-> sk = sort_key k /\ of_kind (kinds n p) k /\ seen t n p k = Some v) as Hin.
  { intros sk k v. rewrite bt_elem, HgU by done. unfold overlaid.
    rewrite (bt_get_fmap (fun s => v ← tracked_get (substate_value s); Some (substate_key s, v))).
    assert (bt_get sk (tracked_entries (get_partition (tracked_nodes t) n p)) =
      get_tracked (tracked_nodes t) n p sk) as ->
      by (unfold get_tracked; by destruct (get_partition (tracked_nodes t) n p)).
    destruct (get_tracked (tracked_nodes t) n p sk) as [s|] eqn:Hs; cbn [fmap option_fmap option_map].
    - destruct (inv_entry _ _ _ _ HI _ _ _ _ Hs) as (Hk & -> & _). split.
      + intros (v' & Hv & [= <- <-])%bind_Some. split; [done|]. split; [done|]. unfold view. by rewrite Hs.
      + intros (He & Hk' & Hv). apply (of_kind_inj hash (kinds n p)) in He; [|done..]. subst k.
        unfold view in Hv. rewrite Hs in Hv. by rewrite Hv.
    - rewrite <- bt_elem, HinL by done. split; intros (-> & Hk & Hv); (split; [done|]; split; [done|]);
        unfold view in *; by rewrite Hs in *. }
  assert (Forall (fun e => e.1 = sort_key e.2.1 /\ of_kind (kinds n p) e.2.1) U) as Hall.
  { apply Forall_forall. intros [sk [k v]] Hu. by apply Hin in Hu as (? & ? & _). }
  assert (U = (fun e => (sort_key e.1, e)) <$> U.*2) as HU.
  { clear -Hall. induction Hall as [|[sk [k v]] U [H1 _] _ IH]; [done|]. cbn in *. subst. by f_equal. }
  split_and!; [split| |].
  - apply (NoDup_fmap_1 (to_db_sort_key hash)). rewrite <- list_fmap_compose.
    assert (U.*1 = (to_db_sort_key hash ∘ fst) <$> U.*2) as <- by (rewrite HU at 1; by rewrite <- list_fmap_compose).
    by apply bt_ok_nodup.
  - intros k v. rewrite list_elem_of_fmap. split.
    + intros ([sk [k' v']] & [= <- <-] & Hu). by apply Hin in Hu as (_ & ?).
    + intros [Hk Hv]. exists (sort_key k, (k, v)). split; [done|]. by apply Hin.
  - done.
  - eapply Forall_impl; [exact Hall|]. by intros ? [].
Qed.

Lemma scan_sorted_spec t c n p limit : Inv t -> kinds n p = SortedKind ->
  wp (scan_sorted_substates hash db f n p limit) (t, c)
    (fun r s' => steps_to t (seen t) s'.1 /\
       exists es, lists t n p es /\ bt_ok ((fun e => (sort_key e.1, e)) <$> es) /\ r = take (Z.to_nat limit) es)
    (fun _ s' => steps_to t (seen t) s'.1).
Proof.
  intros HI Hkind. destruct (decoded_entries n p) as (l & L & Hl & HL & HokL & HgL).
  unfold scan_sorted_substates, with_nodes. wp_steps. cbn [fst snd].
  pose proof (steps_keep hash db kinds t id n p HI ltac:(done)) as Hs1.
  set (t1 := set_nodes (update_partition id n p) t) in *. pose proof (proj1 Hs1) as HI1.
  set (o := (fun e => _) <$> tracked_entries (get_partition (tracked_nodes t1) n p)).
  assert (bt_ok o) as Hoko.
  { unfold o. apply (bt_ok_fmap (fun s => v ← tracked_get (substate_value s); Some (substate_key s, v))).
    destruct (get_partition (tracked_nodes t1) n p) eqn:Hq; [|done]. eapply get_partition_ok; [apply HI1|done]. }
  destruct (overlaying_list_ok L o HokL Hoko) as (U & HU & HokU & HgU).
  destruct (overlay_lists t1 n p l L U HI1 HL HokL HgL HokU HgU) as (Hlists & HUeq & HUk).
  assert (forall l0, Forall2 (decodes SortedKind) l0 L -> forall c0,
    wp (r ← collect_sorted f n p (Z.to_nat limit) o (None, l0, 0) [];
        modify (fun s => (set_nodes (update_partition (raise_range_read r.2) n p) s.1, s.2));; mret r.1) (t1, c0)
      (fun r s' => steps_to t (seen t) s'.1 /\ exists es, lists t n p es /\
         bt_ok ((fun e => (sort_key e.1, e)) <$> es) /\ r = take (Z.to_nat limit) es)
      (fun _ s' => steps_to t (seen t) s'.1)) as Hrun.
  { intros l0 HL0 c0. wp_step. eapply wp_mono; [apply (collect_sorted_spec t1 c0 n p _ _ o None l0 L 0 [] U HL0 HU)| |].
    - by rewrite Hkind in HUk.
    - intros r [t' c'] [Ht Hr]. cbn in Ht. subst t'. wp_steps. cbn [fst snd]. split.
      + eapply steps_then; [exact Hs1|]. by apply steps_keep.
      + exists U.*2. rewrite <- HUeq. split; [|by rewrite Hr, fmap_take].
        destruct Hs1 as (_ & _ & HV1), Hlists as [Hnd Hin]. split; [done|]. intros k v. rewrite Hin.
        split; intros [Hk Hv]; (split; [done|]); by rewrite ?HV1 in * by done.
    - intros e [t' c'] Ht. cbn in Ht. by subst t'. }
  rewrite Hkind in HL. destruct (node_is_new t1 n) eqn:Hnew.
  - assert (L = []) as -> by (apply (new_untracked t1 n p); try done; exists l; by rewrite Hkind).
    apply wp_ret. by apply Hrun.
  - unfold list_entries. eapply wp_lift_exec; [exact Hl|]. by apply Hrun.
Qed.

(** ** Creating nodes *)

Definition partition_wf (n : list Z) (p : Z) (l : list (SubstateKey * V)) : Prop :=
  NoDup l.*1 /\ Forall (fun e => of_kind (kinds n p) e.1) l.
Definition node_wf (n : list Z) (subs : list (Z * list (SubstateKey * V))) : Prop :=
  NoDup subs.*1 /\ Forall (fun e => partition_wf n e.1 e.2) subs.
Definition node_value (subs : list (Z * list (SubstateKey * V))) (p : Z) (k : SubstateKey) : option V :=
  l ← im_get p subs; im_get k l.

Definition made (l : list (SubstateKey * V)) (m : BTreeMap DbSortKey (TrackedSubstate V)) : Prop :=
  bt_ok m /\ forall sk s, bt_get sk m = Some s <->
    exists k v, (k, v) ∈ l /\ sk = sort_key k /\ s = mk_substate k (New v).

Lemma create_substates_spec t c n p l acc todo : partition_wf n p (l ++ todo) -> made l acc ->
  wp (create_substates hash f n p todo acc) (t, c)
    (fun r s' => s'.1 = t /\ made (l ++ todo) r) (fun _ s' => s'.1 = t).
Proof.
  revert c l acc. induction todo as [|[k v] todo IH]; intros c l acc Hwf' Hacc.
  { apply wp_ret. rewrite app_nil_r. done. }
  cbn [create_substates]. pose proof Hwf' as [Hnd Hk].
  assert (of_kind (kinds n p) k /\ k ∉ l.*1 /\ Forall (fun e => of_kind (kinds n p) e.1) l) as (Hkk & Hfresh & Hlk).
  { rewrite fmap_app in Hnd. apply NoDup_app in Hnd as (_ & Hd & _). apply Forall_app in Hk as [Hkl Hk].
    apply Forall_cons in Hk as [Hkk _]. split; [done|]. split; [|done]. intros Hin. apply (Hd k Hin). left. }
  assert (bt_get (sort_key k) acc = None) as Hnone.
  { destruct (bt_get (sort_key k) acc) as [s|] eqn:Hs; [|done]. exfalso.
    apply Hacc in Hs as (k' & v' & Hin & He & _). rewrite Forall_forall in Hlk. pose proof (Hlk _ Hin) as Hk'.
    apply (of_kind_inj hash (kinds n p)) in He as <-; [|done..]. apply Hfresh. by apply (list_elem_of_fmap_2 fst) in Hin. }
  wp_step. apply wp_assert; [by rewrite Hnone|]. wp_step. apply wp_io; [|done]. intros c1.
  assert (l ++ (k, v) :: todo = (l ++ [(k, v)]) ++ todo) as -> by (by rewrite <- app_assoc).
  apply IH; [by rewrite <- app_assoc|]. destruct Hacc as [Hok Hacc]. split; [by apply bt_ok_insert|].
  intros sk s. rewrite bt_get_insert, cmp_decide2 by done. destruct (decide (sk = sort_key k)) as [->|Hne].
  - split; [intros [= <-]; exists k, v; split_and!; try done; apply elem_of_app; right; left|].
    intros (k' & v' & Hin & He & ->). apply elem_of_app in Hin as [Hin|Hin%list_elem_of_singleton].
    + exfalso. assert (bt_get (sort_key k) acc = Some (mk_substate k' (New v'))) as Hs by (apply Hacc; eauto). congruence.
    + by simplify_eq.
  - rewrite Hacc. split; intros (k' & v' & Hin & He & Hs); exists k', v'; split_and!; try done.
    + apply elem_of_app. by left.
    + apply elem_of_app in Hin as [Hin|Hin%list_elem_of_singleton]; [done|]. by simplify_eq.
Qed.

Lemma create_partitions_spec t c n l acc todo : node_wf n (l ++ todo) ->
  im_ok acc -> (forall p, p ∈ im_keys acc <-> p ∈ l.*1) ->
  (forall p q, im_get p acc = Some q -> exists ss, (p, ss) ∈ l /\ made ss (substates q)) ->
  wp (create_partitions hash f n todo acc) (t, c)
    (fun r s' => s'.1 = t /\ im_ok r /\ (forall p, p ∈ im_keys r <-> p ∈ (l ++ todo).*1) /\
       forall p q, im_get p r = Some q -> exists ss, (p, ss) ∈ l ++ todo /\ made ss (substates q))
    (fun _ s' => s'.1 = t).
Proof.
  revert c l acc. induction todo as [|[p ss] todo IH]; intros c l acc Hwf' Hok Hkeys Hacc.
  { apply wp_ret. by rewrite app_nil_r. }
  cbn [create_partitions]. pose proof Hwf' as [Hnd Hall].
  assert (partition_wf n p ss /\ p ∉ l.*1) as [Hss Hfresh].
  { rewrite fmap_app in Hnd. apply NoDup_app in Hnd as (_ & Hd & _). apply Forall_app in Hall as [_ Hall].
    apply Forall_cons in Hall as [Hss _]. split; [done|]. intros Hin. apply (Hd p Hin). left. }
  wp_step. eapply wp_mono; [apply (create_substates_spec t c n p [] [] ss); [done|]| |done].
  { split; [done|]. intros sk s. split; [done|]. by intros (? & ? & ?%elem_of_nil & _). }
  intros r [t' c'] [Ht Hr]. cbn [fst app] in *. subst t'.
  assert (l ++ (p, ss) :: todo = (l ++ [(p, ss)]) ++ todo) as He by (by rewrite <- app_assoc). rewrite He in *.
  assert (im_get p acc = None) as Hnone by (apply im_get_None; by rewrite Hkeys).
  apply IH; [done|by apply im_ok_insert| |].
  - intros p'. rewrite im_keys_insert, Hnone, fmap_app, !elem_of_app, Hkeys. done.
  - intros p' q. rewrite im_get_insert. case_decide; [intros [= <-]; subst; exists ss; split; [apply elem_of_app; right; left|done]|].
    intros Hq. destruct (Hacc p' q Hq) as (ss' & Hin & Hm). exists ss'. split; [apply elem_of_app; by left|done].
Qed.

Lemma create_node_spec t c n subs : Inv t -> node_wf n subs ->
  (forall p sk, get_raw_substate_by_db_key db (to_db_node_key hash n, p) sk = None) ->
  (forall p sk, get_tracked (force_write_tracked_nodes t) n p sk = None) ->
  wp (create_tracked_node hash f n subs) (t, c)
    (fun _ s' => Inv s'.1 /\ force_write_tracked_nodes s'.1 = force_write_tracked_nodes t /\
       deleted_partitions s'.1 = deleted_partitions t /\ transient_substates s'.1 = transient_substates t /\
       forall n' p k, of_kind (kinds n' p) k ->
         seen s'.1 n' p k = if decide (n' = n) then node_value subs p k else seen t n' p k)
    (fun _ s' => s'.1 = t).
Proof.
  intros HI Hnode Hdb Hforced. unfold create_tracked_node, with_nodes. wp_step.
  eapply wp_mono; [apply (create_partitions_spec t c n [] [] subs Hnode)| |done].
  { constructor. } { done. } { done. }
  intros ps [t' c'] (Ht & Hok & Hkeys & Hps). cbn [fst app] in *. subst t'. wp_steps. cbn [fst snd].
  set (t1 := set_nodes _ t).
  assert (forall n' p sk, get_tracked (tracked_nodes t1) n' p sk =
    if decide (n' = n) then q ← im_get p ps; bt_get sk (substates q) else get_tracked (tracked_nodes t) n' p sk) as Hg.
  { intros n' p sk. unfold t1, get_tracked, get_partition. cbn [set_nodes tracked_nodes]. rewrite im_get_insert.
    by case_decide. }
  assert (forall n', nodes_new (tracked_nodes t1) n' = if decide (n' = n) then true else nodes_new (tracked_nodes t) n') as Hnew.
  { intros n'. unfold t1, nodes_new. cbn [set_nodes tracked_nodes]. rewrite im_get_insert. by case_decide. }
  assert (forall p k, db_read (V := V) hash db n p k = None) as Hread
    by (intros; unfold db_read, raw_read; by rewrite Hdb).
  split_and!; try done.
  - split; try apply HI.
    + unfold t1. cbn [set_nodes tracked_nodes]. destruct (inv_nodes _ _ _ _ HI) as [H1 H2].
      split; [by apply im_ok_insert|]. intros n' node. rewrite im_get_insert. case_decide; [|apply H2].
      intros [= <-]. cbn. split; [done|]. intros p q Hq. destruct (Hps p q Hq) as (ss & _ & Hm). apply Hm.
    + intros n' p sk s. rewrite Hg. case_decide as Hd; [subst|apply HI]. intros (q & Hq & Hs)%bind_Some.
      destruct (Hps p q Hq) as (ss & Hin & [_ Hm]). destruct (proj1 (Hm _ _) Hs) as (k & v & Hkv & Hsk & Hsv). subst sk s.
      destruct Hnode as [_ Hall]. rewrite Forall_forall in Hall. destruct (Hall _ Hin) as [_ Hk].
      rewrite Forall_forall in Hk. split; [by apply (Hk (k, v))|]. split; [done|]. apply Hread.
    + intros n'. rewrite Hnew. case_decide; [by subst|apply HI].
    + intros n' p sk s Hs. rewrite Hg, Hnew. case_decide; [subst; by rewrite Hforced in Hs|].
      by apply (inv_forced _ _ _ _ HI) in Hs.
  - intros n' p k Hk. unfold view at 1. rewrite Hg. case_decide; [subst n'|done].
    unfold node_value. destruct Hnode as [Hnd Hall]. destruct (im_get p ps) as [q|] eqn:Hq.
    + destruct (Hps p q Hq) as (ss & Hin & [_ Hm]). rewrite (im_elem_get p ss subs) by done. cbn [mbind option_bind].
      rewrite Forall_forall in Hall. destruct (Hall _ Hin) as [Hndp Hkp]. cbn in Hndp, Hkp.
      destruct (bt_get (sort_key k) (substates q)) as [s|] eqn:Hs.
      * destruct (proj1 (Hm _ _) Hs) as (k' & v & Hkv & He & Hsv). subst s. rewrite Forall_forall in Hkp.
        apply (of_kind_inj hash (kinds n p)) in He as <-; [|done|done|by apply (Hkp _ Hkv)].
        cbn. by rewrite (im_elem_get k v ss).
      * rewrite Hread. destruct (im_get k ss) as [v|] eqn:Hv; [|done]. apply im_get_elem in Hv.
        assert (bt_get (sort_key k) (substates q) = Some (mk_substate k (New v))) by (apply Hm; eauto). congruence.
    + rewrite Hread. assert (im_get p subs = None) as ->; [|done]. apply im_get_None.
      rewrite <- Hkeys. by apply im_get_None.
Qed.

(** ** Force writes, transient substates, deleted partitions *)

Lemma get_tracked_substate_present t c n p k s :
  get_tracked (tracked_nodes t) n p (sort_key k) = Some s ->
  get_tracked_substate hash db f n p k (t, c) =
    Done (Ok (substate_value s), (set_nodes (update_partition id n p) t, c)).
Proof.
  intros Hs. unfold get_tracked_substate, with_nodes, mbind, M_bind, modify, gets. cbn [fst snd set_nodes tracked_nodes].
  by rewrite get_tracked_keep, Hs.
Qed.

Lemma Inv_mark_as_transient t n p k : Inv t -> of_kind (kinds n p) k -> raw_read hash db n p k = None ->
  Inv (mark_as_transient n p k t).
Proof.
  intros HI Hk Hn. split; cbn; try apply HI. intros n' p' k'. unfold set_insert.
  case_decide; [apply HI|]. rewrite elem_of_app, list_elem_of_singleton.
  intros [Hin|[= -> -> ->]]; [by apply (inv_transient _ _ _ _ HI)|done].
Qed.

Lemma Inv_delete_partition t n p : Inv t -> Inv (delete_partition n p t).
Proof. intros HI. split; apply HI. Qed.
End Steps.

Section Force.
Context {D V : Type} `{SubstateDatabase D} `{IndexedValue V}.
Context (hash : list Z -> list Z) (Hhash : forall bs, length (hash bs) = 32%nat).
Context (db : D) (kinds : list Z -> Z -> KeyKind).

Abbreviation sort_key k := (to_db_sort_key hash k).
Abbreviation Inv := (Inv (V := V) hash db kinds).

Lemma force_write_spec t n p k s : Inv t -> of_kind (kinds n p) k ->
  get_tracked (tracked_nodes t) n p (sort_key k) = Some s -> nodes_new (tracked_nodes t) n = false ->
  exists t', force_write hash db n p k t = Done t' /\ Inv t' /\
    (forall n' p' k', view hash db t' n' p' k' = view hash db t n' p' k') /\
    deleted_partitions t' = deleted_partitions t /\ transient_substates t' = transient_substates t /\
    (forall n' p' sk', get_tracked (force_write_tracked_nodes t') n' p' sk' =
       if decide ((n', p', sk') = (n, p, sort_key k)) then Some s
       else get_tracked (force_write_tracked_nodes t) n' p' sk').
Proof.
  intros HI Hk Hs Hnew. unfold force_write. rewrite (get_tracked_substate_present _ _ _ _ _ _ _ _ s) by done.
  destruct (tracked_key hash db kinds Hhash _ _ _ _ _ HI Hk Hs) as [Hsk Hv]. rewrite <- Hsk.
  destruct (steps_keep hash db kinds t id n p HI ltac:(done)) as (HI1 & HF1 & _).
  assert (forall n' p' sk, get_tracked (tracked_nodes (set_nodes (update_partition id n p) t)) n' p' sk =
    get_tracked (tracked_nodes t) n' p' sk) as Hg by (intros; by apply get_tracked_keep).
  set (t1 := set_nodes _ t) in *.
  assert (forall n' p' sk', get_tracked (update_partition (insert_substate (sort_key k) s) n p
    (force_write_tracked_nodes t)) n' p' sk' = if decide ((n', p', sk') = (n, p, sort_key k)) then Some s
       else get_tracked (force_write_tracked_nodes t) n' p' sk') as Hf
    by (intros; apply get_tracked_insert, HI).
  eexists. split; [done|]. split_and!; try done.
  - split; cbn [tracked_nodes force_write_tracked_nodes transient_substates]; try apply HI1.
    + apply update_partition_ok; [apply HI|]. intros. by apply insert_substate_ok.
    + intros n' p' sk s'. change (force_write_tracked_nodes t1) with (force_write_tracked_nodes t).
      rewrite Hf. case_decide as Hd; [|apply HI1]. injection Hd as -> -> ->. intros [= <-].
      split; [by apply HI|]. rewrite Hg, (frame_new _ _ HF1), Hs. done.
  - intros. unfold view. cbn [tracked_nodes]. by rewrite Hg.
Qed.
End Force.
End TrackLemmas.
