(* ===== verification/TrackCommit.v ===== *)
(** * Committing and reverting a track

    What [finalize] and [to_state_updates] of radix-engine/src/track/track.rs
    write to the database, and what [revert_non_force_write_changes] leaves of a
    failed transaction.  The theorems speak of every track reachable by the
    operations of its interface, whether their callbacks fail or not; the history
    of a track keeps beside it what the transaction saw of each substate when it
    forced it. *)

From S2P Require Import Prelude Bytes IndexMap BTreeMap Sbor SborCustom SubstateStore StateUpdates Track.
Import Int StoreTheory TrackSpec TrackLemmas.

#[local] Arguments to_db_node_key : simpl never.
#[local] Arguments to_db_sort_key : simpl never.

(** ** Histories *)

Module TrackHistory.
Section History.
Context {D V C E : Type} `{SubstateDatabase D} `{IndexedValue V}.
Context (hash : list Z -> list Z) (db : D) (kinds : list Z -> Z -> KeyKind).

(** One call of the interface by a client that keeps its side: keys are of the
    kind of their partition; a transient substate is not in the database; a node
    that is created is new; a substate is force-written only after it was
    tracked, and not in a node the transaction created.  The callback of each
    call is arbitrary, and so is the outcome.  The label of a call is the substate
    that it force-writes, if it is one that does. *)
Inductive call (t : Track V) : option (list Z * Z * SubstateKey) -> Track V -> Prop :=
| call_get f n p k c r t' c' : of_kind (kinds n p) k ->
    get_substate (C := C) (E := E) hash db f n p k (t, c) = Done (r, (t', c')) -> call t None t'
| call_set f n p k v c r t' c' : of_kind (kinds n p) k ->
    set_substate (C := C) (E := E) hash f n p k v (t, c) = Done (r, (t', c')) -> call t None t'
| call_remove f n p k c r t' c' : of_kind (kinds n p) k ->
    remove_substate (C := C) (E := E) hash db f n p k (t, c) = Done (r, (t', c')) -> call t None t'
| call_create f n subs c r t' c' : node_wf kinds n subs ->
    (forall p sk, get_raw_substate_by_db_key db (to_db_node_key hash n, p) sk = None) ->
    (forall p sk, get_tracked (force_write_tracked_nodes t) n p sk = None) ->
    create_tracked_node (C := C) (E := E) hash f n subs (t, c) = Done (r, (t', c')) -> call t None t'
| call_scan_keys f n p limit c r t' c' : 0 <= limit ->
    scan_keys (C := C) (E := E) hash db f (kinds n p) n p limit (t, c) = Done (r, (t', c')) -> call t None t'
| call_drain f n p limit c r t' c' : 0 <= limit ->
    drain_substates (C := C) (E := E) hash db f (kinds n p) n p limit (t, c) = Done (r, (t', c')) -> call t None t'
| call_scan_sorted f n p limit c r t' c' : kinds n p = SortedKind ->
    scan_sorted_substates (C := C) (E := E) hash db f n p limit (t, c) = Done (r, (t', c')) -> call t None t'
| call_transient n p k : of_kind (kinds n p) k -> raw_read hash db n p k = None ->
    call t None (mark_as_transient n p k t)
| call_force_write n p k t' : of_kind (kinds n p) k ->
    is_Some (get_tracked (tracked_nodes t) n p (to_db_sort_key hash k)) -> node_is_new t n = false ->
    force_write hash db n p k t = Done t' -> call t (Some (n, p, k)) t'
| call_delete n p : call t None (delete_partition n p t).

Inductive reachable : Track V -> Prop :=
| reach_new : reachable track_new
| reach_call t o t' : reachable t -> call t o t' -> reachable t'.

(** The history of the force writes beside the track: for every substate that
    was force-written, what the transaction saw of it when it was, the last time. *)
Definition forced_values : Type := list Z -> Z -> SubstateKey -> option (option V).

Definition note_forced (t : Track V) (o : option (list Z * Z * SubstateKey)) (F : forced_values) : forced_values :=
  match o with
  | Some (n, p, k) => store_set F n p k (Some (view hash db t n p k))
  | None => F
  end.

Inductive history : Track V -> forced_values -> Prop :=
| history_new : history track_new (fun _ _ _ => None)
| history_call t F o t' : history t F -> call t o t' -> history t' (note_forced t o F).

Lemma history_reachable t F : history t F -> reachable t.
Proof. induction 1; [apply reach_new|by eapply reach_call]. Qed.

Lemma reachable_history t : reachable t -> exists F, history t F.
Proof. induction 1 as [|t o t' _ [F HF] Hc]; eexists; [apply history_new|by eapply history_call]. Qed.
End History.
End TrackHistory.

Module CommitLemmas.
Import TrackHistory.

Section Reachable.
Context {D V C E : Type} `{SubstateDatabase D} `{IndexedValue V}.
Context (hash : list Z -> list Z) (Hhash : forall bs, length (hash bs) = 32%nat).
Context (db : D) (kinds : list Z -> Z -> KeyKind) (inv : D -> Prop) `{!SubstateDatabaseLaws D inv}.
Context (Hwf : db_wf (V := V) hash db kinds inv).

Abbreviation Inv := (Inv (V := V) hash db kinds).

Lemma Inv_new : Inv track_new.
Proof. split; cbn; try done; try apply nodes_ok_nil. by intros ? ? ? ?%elem_of_nil. Qed.

(** What both outcomes of a call establish. *)
Lemma wp_outcome {A} (m : M (Track V * C) E A) t c r t' c' (Q : A -> Track V * C -> Prop) (R : E -> Track V * C -> Prop)
    (P : Track V -> Prop) :
  wp m (t, c) Q R -> m (t, c) = Done (r, (t', c')) ->
  (forall a, Q a (t', c') -> P t') -> (forall e, R e (t', c') -> P t') -> P t'.
Proof. unfold wp. intros Hw Hm HQ HR. rewrite Hm in Hw. destruct r; eauto. Qed.

(** A call keeps the invariant, and unless it is a force write the forced substates. *)
Definition kept (t : Track V) (o : option (list Z * Z * SubstateKey)) (t' : Track V) : Prop :=
  Inv t' /\ (o = None -> force_write_tracked_nodes t' = force_write_tracked_nodes t).

Lemma steps_kept t s t' : steps_to hash db kinds t s t' -> kept t None t'.
Proof. intros (HI & HF & _). split; [done|]. intros _. apply HF. Qed.

Lemma call_kept t o t' : call (C := C) (E := E) hash db kinds t o t' -> Inv t -> kept t o t'.
Proof.
  pose proof (db_decodes _ _ _ _ Hwf) as Hdec. pose proof steps_kept as Hs0.
  intros Hc HI; destruct Hc as [f n p k c r t' c' Hk Hm|f n p k v c r t' c' Hk Hm|f n p k c r t' c' Hk Hm
    |f n subs c r t' c' Hn Hd Hf Hm|f n p limit c r t' c' Hl Hm|f n p limit c r t' c' Hl Hm
    |f n p limit c r t' c' Hkd Hm|n p k Hk Hr|n p k t' Hk [s Hs] Hnew Hm|n p].
  - eapply (wp_outcome _ _ _ _ _ _ _ _ (kept t None)); [by apply get_substate_spec|exact Hm|by intros a [Hx _]; eapply Hs0, Hx|by intros e Hx; eapply Hs0, Hx].
  - eapply (wp_outcome _ _ _ _ _ _ _ _ (kept t None)); [by apply (set_substate_spec hash Hhash db kinds)|exact Hm|by intros a Hx; eapply Hs0, Hx|by intros e Hx; eapply Hs0, Hx].
  - eapply (wp_outcome _ _ _ _ _ _ _ _ (kept t None)); [by apply remove_substate_spec|exact Hm|by intros a [Hx _]; eapply Hs0, Hx|by intros e [Hx|Hx]; eapply Hs0, Hx].
  - eapply (wp_outcome _ _ _ _ _ _ _ _ (kept t None)); [by apply (create_node_spec hash Hhash db kinds)|exact Hm|by intros a (? & ? & _)|intros e He; cbn in He; by subst].
  - eapply (wp_outcome _ _ _ _ _ _ _ _ (kept t None)); [by eapply scan_keys_spec|exact Hm|by intros a [Hx _]; eapply Hs0, Hx|by intros e Hx; eapply Hs0, Hx].
  - eapply (wp_outcome _ _ _ _ _ _ _ _ (kept t None)); [by eapply drain_substates_spec|exact Hm|by intros a [Hx _]; eapply Hs0, Hx|intros e [? HF]; split; [done|intros _; apply HF]].
  - eapply (wp_outcome _ _ _ _ _ _ _ _ (kept t None)); [by eapply scan_sorted_spec|exact Hm|by intros a [Hx _]; eapply Hs0, Hx|by intros e Hx; eapply Hs0, Hx].
  - split; [by apply Inv_mark_as_transient|done].
  - destruct (force_write_spec hash Hhash db kinds t n p k s HI Hk Hs Hnew) as (t1 & Hf & HI1 & _).
    split; [congruence|done].
  - split; [by apply Inv_delete_partition|done].
Qed.

Lemma reachable_track_Inv t : reachable (C := C) (E := E) hash db kinds t -> Inv t.
Proof. induction 1; [apply Inv_new|by eapply call_kept]. Qed.

(** The forced substates of the track are those of its history. *)
Lemma history_forced t F : history (C := C) (E := E) hash db kinds t F -> forall n p k, of_kind (kinds n p) k ->
  F n p k = tracked_get ∘ substate_value <$> get_tracked (force_write_tracked_nodes t) n p (to_db_sort_key hash k).
Proof.
  induction 1 as [|t F o t' Ht IH Hc]; intros n p k Hk; [done|].
  pose proof (reachable_track_Inv t (history_reachable _ _ _ _ _ Ht)) as HI.
  destruct (call_kept t o t' Hc HI) as [_ Hkeep].
  destruct o as [[[n0 p0] k0]|]; [|rewrite Hkeep by done; by apply IH].
  inversion Hc as [| | | | | | | |? ? ? ? Hk0 [s Hs] Hnew Hm|]; subst; clear Hc.
  destruct (force_write_spec hash Hhash db kinds t n0 p0 k0 s HI Hk0 Hs Hnew) as (t1 & Hf & _ & _ & _ & _ & Hg).
  assert (t1 = t') as -> by congruence. rewrite Hg. cbn [note_forced]. unfold store_set.
  destruct (decide ((n, p, k) = (n0, p0, k0))) as [[= -> -> ->]|Hne].
  { rewrite decide_True by done. unfold view. by rewrite Hs. }
  rewrite decide_False; [by apply IH|]. intros [= -> -> He]. apply Hne.
  by apply (of_kind_inj hash (kinds n0 p0)) in He as ->.
Qed.
End Reachable.

(** ** The partitions of the nodes, as one list *)
Section Flat.
Context {V : Type}.
Implicit Types (ns : IndexMap (list Z) (TrackedNode V)).

Definition node_flat (e : list Z * TrackedNode V) : list (list Z * Z * TrackedPartition V) :=
  (fun pe => (e.1, pe.1, pe.2)) <$> tracked_partitions e.2.
Definition flat ns : list (list Z * Z * TrackedPartition V) := ns ≫= node_flat.

Lemma flat_cons e ns : flat (e :: ns) = node_flat e ++ flat ns.
Proof. done. Qed.

Lemma elem_node_flat e n p q : (n, p, q) ∈ node_flat e <-> n = e.1 /\ (p, q) ∈ tracked_partitions e.2.
Proof.
  unfold node_flat. rewrite list_elem_of_fmap. split.
  - intros ([p' q'] & [= -> -> ->] & Hin). done.
  - intros [-> Hin]. by exists (p, q).
Qed.

Lemma elem_flat ns n p q : nodes_ok ns -> (n, p, q) ∈ flat ns <-> get_partition ns n p = Some q.
Proof.
  intros [Hok Hall]. unfold flat. rewrite list_elem_of_bind. unfold get_partition. split.
  - intros ([n' node] & Hin & He). apply elem_node_flat in Hin as [-> Hin]. cbn in *.
    apply im_elem_get in He; [|done]. rewrite He. cbn. apply im_elem_get; [by apply (Hall n')|done].
  - intros (node & Hn & Hp)%bind_Some. exists (n, node). split; [|by apply im_get_elem].
    apply elem_node_flat. split; [done|]. by apply im_get_elem.
Qed.

Lemma flat_nodup ns : nodes_ok ns -> NoDup (flat ns).*1.
Proof.
  intros [Hok Hall].
  assert (forall n node, (n, node) ∈ ns -> im_ok (tracked_partitions node)) as Hparts
    by (intros n node Hin%im_elem_get; [by apply (Hall n)|done]).
  clear Hall. induction ns as [|[n node] ns IH]; [constructor|]. rewrite flat_cons, fmap_app.
  unfold im_ok, im_keys in Hok. cbn in Hok. apply NoDup_cons in Hok as [Hn Hok]. apply NoDup_app. split_and!.
  - specialize (Hparts n node ltac:(left)). unfold node_flat. cbn. rewrite <- list_fmap_compose.
    unfold im_ok, im_keys in Hparts. revert Hparts.
    induction (tracked_partitions node) as [|[p q] l IHl]; cbn; [by constructor|].
    intros [Hp Hl]%NoDup_cons. constructor; [|auto]. intros ([p' q'] & [= <-] & Hin)%list_elem_of_fmap.
    apply Hp. by apply (list_elem_of_fmap_2 fst) in Hin.
  - intros x ([[n1 p1] q1] & -> & H1)%list_elem_of_fmap ([[n2 p2] q2] & He & H2)%list_elem_of_fmap.
    cbn in He. injection He as <- <-. apply elem_node_flat in H1 as [-> _]. cbn in H2.
    unfold flat in H2. apply list_elem_of_bind in H2 as ([n' node'] & H2 & Hin).
    apply elem_node_flat in H2 as [He _]. cbn in He. subst. apply Hn. by apply (list_elem_of_fmap_2 fst) in Hin.
  - apply IH; [done|]. intros n' node' Hin. apply (Hparts n'). by right.
Qed.
End Flat.

(** ** Reverting *)
Section Revert.
Context {V : Type}.
Implicit Types (ns : IndexMap (list Z) (TrackedNode V)).

Fixpoint restore_flat (l : list (list Z * Z * TrackedPartition V)) ns : Exec (IndexMap (list Z) (TrackedNode V)) :=
  match l with
  | [] => Done ns
  | (n, p, q) :: rest => ns ← restore_substates n p (substates q) ns; restore_flat rest ns
  end.

Lemma restore_flat_app l l' ns :
  restore_flat (l ++ l') ns = (ns ← restore_flat l ns; restore_flat l' ns).
Proof.
  revert ns. induction l as [|[[n p] q] l IH]; intros ns; [done|]. cbn.
  destruct (restore_substates n p (substates q) ns); cbn; [apply IH|done].
Qed.

Lemma restore_nodes_flat l ns : restore_nodes l ns = restore_flat (flat l) ns.
Proof.
  revert ns. induction l as [|[n node] l IH]; intros ns; [done|]. rewrite flat_cons, restore_flat_app. cbn [restore_nodes].
  assert (restore_partitions n (tracked_partitions node) ns = restore_flat (node_flat (n, node)) ns) as ->.
  { unfold node_flat. cbn. revert ns. induction (tracked_partitions node) as [|[p q] ps IHp]; intros ns; [done|].
    cbn. destruct (restore_substates n p (substates q) ns); cbn; [apply IHp|done]. }
  destruct (restore_flat (node_flat (n, node)) ns); cbn; [apply IH|done].
Qed.

Definition with_value (s forced : TrackedSubstate V) : TrackedSubstate V :=
  mk_substate (substate_key s) (substate_value forced).

Lemma restore_substates_spec n p l ns : nodes_ok ns -> NoDup l.*1 ->
  (forall sk s, (sk, s) ∈ l -> is_Some (get_tracked ns n p sk)) ->
  exists ns', restore_substates n p l ns = Done ns' /\ nodes_ok ns' /\ forall n' p' sk',
    get_tracked ns' n' p' sk' =
      if decide ((n', p') = (n, p)) then
        match im_get sk' l with
        | Some forced => (fun s => with_value s forced) <$> get_tracked ns n' p' sk'
        | None => get_tracked ns n' p' sk'
        end
      else get_tracked ns n' p' sk'.
Proof.
  revert ns. induction l as [|[sk forced] l IH]; intros ns Hok Hnd Hl.
  { exists ns. split; [done|]. split; [done|]. intros. by case_decide. }
  apply NoDup_cons in Hnd as [Hn Hnd]. destruct (Hl sk forced ltac:(left)) as [s Hs].
  cbn [restore_substates]. rewrite Hs. cbn [expect mbind Exec_bind].
  set (ns1 := update_partition (insert_substate sk (with_value s forced)) n p ns).
  assert (forall n' p' sk', get_tracked ns1 n' p' sk' =
    if decide ((n', p', sk') = (n, p, sk)) then Some (with_value s forced) else get_tracked ns n' p' sk') as Hg1
    by (intros; by apply get_tracked_insert).
  destruct (IH ns1) as (ns' & Hr & Hok' & Hg).
  - apply update_partition_ok; [done|]. intros. by apply insert_substate_ok.
  - done.
  - intros sk' s' Hin. rewrite Hg1. case_decide; [done|]. apply (Hl sk' s'). by right.
  - exists ns'. split; [exact Hr|]. split; [done|]. intros n' p' sk'. rewrite Hg, Hg1. cbn [im_get].
    destruct (decide ((n', p') = (n, p))) as [Hd|Hd]; [injection Hd as -> ->|by rewrite decide_False by congruence].
    destruct (decide (sk' = sk)) as [->|Hne].
    + rewrite decide_True by done. rewrite (proj2 (im_get_None sk l)) by done. by rewrite Hs.
    + by rewrite decide_False by congruence.
Qed.

Lemma restore_flat_spec l ns : nodes_ok ns -> NoDup l.*1 ->
  (forall n p q, (n, p, q) ∈ l -> NoDup (substates q).*1 /\
     forall sk s, (sk, s) ∈ substates q -> is_Some (get_tracked ns n p sk)) ->
  exists ns', restore_flat l ns = Done ns' /\ nodes_ok ns' /\ forall n p sk,
    get_tracked ns' n p sk =
      match q ← im_get (n, p) l; im_get sk (substates q) with
      | Some forced => (fun s => with_value s forced) <$> get_tracked ns n p sk
      | None => get_tracked ns n p sk
      end.
Proof.
  revert ns. induction l as [|[[n p] q] l IH]; intros ns Hok Hnd Hl.
  { by exists ns. }
  apply NoDup_cons in Hnd as [Hn Hnd]. destruct (Hl n p q ltac:(left)) as [Hq Hqs].
  destruct (restore_substates_spec n p (substates q) ns Hok Hq Hqs) as (ns1 & Hr1 & Hok1 & Hg1).
  destruct (IH ns1) as (ns' & Hr & Hok' & Hg); [done|done| |].
  - intros n' p' q' Hin. destruct (Hl n' p' q' ltac:(by right)) as [H1 H2]. split; [done|].
    intros sk s Hs. rewrite Hg1. destruct (H2 sk s Hs) as [x Hx]. rewrite Hx.
    case_decide; [|done]. by destruct (im_get sk (substates q)).
  - exists ns'. cbn [restore_flat]. rewrite Hr1. cbn [mbind Exec_bind]. split; [done|]. split; [done|].
    intros n' p' sk. rewrite Hg, Hg1. cbn [im_get]. destruct (decide ((n', p') = (n, p))) as [Hd|Hd]; [|done].
    rewrite Hd. rewrite (proj2 (im_get_None (n, p) l)) by done. done.
Qed.
End Revert.

Lemma im_get_flat {V} (ns : IndexMap (list Z) (TrackedNode V)) n p : nodes_ok ns ->
  im_get (n, p) (flat ns) = get_partition ns n p.
Proof.
  intros Hok. destruct (get_partition ns n p) as [q|] eqn:Hq.
  - apply im_elem_get; [by apply flat_nodup|]. by apply elem_flat.
  - apply im_get_None. intros ([[n' p'] q'] & [= <- <-] & Hin)%list_elem_of_fmap.
    apply elem_flat in Hin; [|done]. congruence.
Qed.

Lemma get_tracked_flat {V} (ns : IndexMap (list Z) (TrackedNode V)) n p sk : nodes_ok ns ->
  (q ← im_get (n, p) (flat ns); im_get sk (substates q)) = get_tracked ns n p sk.
Proof.
  intros Hok. rewrite im_get_flat by done. unfold get_tracked. destruct (get_partition ns n p) as [q|] eqn:Hq; [|done].
  cbn. apply im_get_bt. by eapply get_partition_ok.
Qed.

Section RevertSpec.
Context {D V : Type} `{SubstateDatabase D} `{IndexedValue V}.
Context (hash : list Z -> list Z) (Hhash : forall bs, length (hash bs) = 32%nat).
Context (db : D) (kinds : list Z -> Z -> KeyKind).

Definition revert_substate (s : TrackedSubstate V) : TrackedSubstate V :=
  mk_substate (substate_key s) (revert_value (substate_value s)).

Lemma im_get_filter_val {K A} `{EqDecision K} (Q : A -> Prop) `{!forall a, Decision (Q a)} k (m : IndexMap K A) :
  im_ok m -> im_get k (filter (fun e => Q e.2) m) = (a ← im_get k m; if decide (Q a) then Some a else None).
Proof.
  unfold im_ok, im_keys. induction m as [|[k' a] m IH]; [done|]. intros [Hn Hm]%NoDup_cons. rewrite filter_cons.
  cbn [snd im_get]. destruct (decide (Q a)) as [Hq|Hq]; cbn [im_get]; destruct (decide (k = k')) as [->|Hne]; cbn.
  - by rewrite decide_True.
  - by apply IH.
  - rewrite IH by done. rewrite (proj2 (im_get_None k' m)) by done. by rewrite decide_False.
  - by apply IH.
Qed.

Lemma reverted_spec (ns : IndexMap (list Z) (TrackedNode V)) : nodes_ok ns ->
  let ns' := im_map revert_node (filter (fun e => is_new e.2 = false) ns) in
  nodes_ok ns' /\ forall n p sk, get_tracked ns' n p sk =
    if nodes_new ns n then None else revert_substate <$> get_tracked ns n p sk.
Proof.
  intros [Hok Hall] ns'.
  assert (forall n, im_get n ns' = (node ← im_get n ns; if is_new node then None else Some (revert_node node))) as Hg.
  { intros n. unfold ns'. rewrite im_get_map.
    pose proof (im_get_filter_val (fun node : TrackedNode V => is_new node = false) n ns Hok) as ->.
    destruct (im_get n ns) as [node|]; [|done]. cbn. by destruct (is_new node). }
  split; [split|].
  - unfold ns'. assert (im_ok (filter (fun e : list Z * TrackedNode V => is_new e.2 = false) ns)) as Hf.
    { unfold im_ok, im_keys in *. clear -Hok. induction ns as [|[n node] ns IH]; [done|].
      apply NoDup_cons in Hok as [Hn Hok]. rewrite filter_cons. case_decide; [|auto]. cbn. constructor; [|auto].
      intros ([n' node'] & -> & [_ Hin]%list_elem_of_filter)%list_elem_of_fmap. apply Hn. by apply (list_elem_of_fmap_2 fst) in Hin. }
    unfold im_ok, im_keys, im_map in *. by rewrite <- list_fmap_compose.
  - intros n node. rewrite Hg. intros (node0 & Hn & He)%bind_Some. destruct (is_new node0); [done|].
    injection He as <-. destruct (Hall n node0 Hn) as [H1 H2]. cbn. split.
    + unfold im_ok, im_keys, im_map in *. by rewrite <- list_fmap_compose.
    + intros p q. rewrite im_get_map. intros (q0 & Hq & ->)%fmap_Some. cbn.
      apply (bt_ok_fmap revert_substate). by apply (H2 p).
  - intros n p sk. unfold get_tracked, get_partition, nodes_new. rewrite Hg.
    destruct (im_get n ns) as [node|]; cbn; [|done]. destruct (is_new node); cbn; [done|].
    rewrite im_get_map. destruct (im_get p (tracked_partitions node)) as [q|]; cbn; [|done].
    apply (bt_get_fmap revert_substate).
Qed.

Lemma revert_spec t : Inv (V := V) hash db kinds t ->
  exists t', revert_non_force_write_changes t = Done t' /\ nodes_ok (tracked_nodes t') /\
    deleted_partitions t' = deleted_partitions t /\ transient_substates t' = transient_substates t /\
    forall n p sk, get_tracked (tracked_nodes t') n p sk =
      match get_tracked (force_write_tracked_nodes t) n p sk with
      | Some s => Some s
      | None => if nodes_new (tracked_nodes t) n then None
                else revert_substate <$> get_tracked (tracked_nodes t) n p sk
      end.
Proof.
  intros HI. unfold revert_non_force_write_changes. rewrite restore_nodes_flat.
  destruct (reverted_spec (tracked_nodes t) (inv_nodes _ _ _ _ HI)) as [Hok Hg].
  set (ns := im_map revert_node _) in *. pose proof (inv_forced_nodes _ _ _ _ HI) as Hfok.
  destruct (restore_flat_spec (flat (force_write_tracked_nodes t)) ns Hok (flat_nodup _ Hfok)) as (ns' & Hr & Hok' & Hg').
  - intros n p q Hin. apply elem_flat in Hin; [|done].
    assert (bt_ok (substates q)) as Hbq by (by eapply get_partition_ok). split; [by apply bt_ok_nodup|].
    intros sk s Hs. rewrite Hg. apply bt_elem in Hs; [|done].
    destruct (inv_forced _ _ _ _ HI n p sk s) as (_ & [x Hx] & ->); [unfold get_tracked; by rewrite Hin|]. by rewrite Hx.
  - rewrite Hr. exists (mk_track ns' [] (deleted_partitions t) (transient_substates t)).
    split_and!; try done. intros n p sk. cbn [tracked_nodes].
    rewrite Hg', get_tracked_flat, Hg by done.
    destruct (get_tracked (force_write_tracked_nodes t) n p sk) as [fs|] eqn:Hf; [|done].
    destruct (inv_forced _ _ _ _ HI _ _ _ _ Hf) as ((Hk & Hsk & _) & [x Hx] & ->). rewrite Hx. cbn.
    destruct (inv_entry _ _ _ _ HI _ _ _ _ Hx) as (Hk' & Hsk' & _). unfold with_value. cbn. f_equal.
    assert (substate_key x = substate_key fs) as ->; [|by destruct fs].
    apply (of_kind_inj hash (kinds n p)); [done..|congruence].
Qed.
End RevertSpec.

(** ** The state updates of a track *)
Section Updates.
Context {V : Type} `{IndexedValue V}.
Context (hash : list Z -> list Z) (Hhash : forall bs, length (hash bs) = 32%nat).
Context (kinds : list Z -> Z -> KeyKind).
Implicit Types (ns : IndexMap (list Z) (TrackedNode V)) (u : StateUpdates).

Abbreviation sort_key k := (to_db_sort_key hash k).
Abbreviation P := (fun n p k => of_kind (kinds n p) k).

Lemma P_same n p k k' : P n p k -> P n p k' -> same_kind k k'.
Proof. apply of_kind_same. Qed.

(** Entries with the keys they are stored under. *)
Definition entries_ok (n : list Z) (p : Z) (q : TrackedPartition V) : Prop :=
  bt_ok (substates q) /\ forall sk s, bt_get sk (substates q) = Some s ->
    of_kind (kinds n p) (substate_key s) /\ sk = sort_key (substate_key s).

Lemma partition_updates_spec n p q : entries_ok n p q ->
  im_ok (partition_updates q) /\ keys_in (P n p) (partition_updates q) /\
  forall k, P n p k -> im_get k (partition_updates q) =
    (s ← bt_get (sort_key k) (substates q); value_update (substate_value s)).
Proof.
  intros [Hok Hent]. unfold partition_updates.
  set (g := fun s : TrackedSubstate V => u ← value_update (substate_value s); Some (substate_key s, u)).
  assert (forall k c, (k, c) ∈ omap g (substates q).*2 <-> exists s, bt_get (sort_key k) (substates q) = Some s /\
    substate_key s = k /\ value_update (substate_value s) = Some c) as Hin.
  { intros k c. rewrite list_elem_of_omap. split.
    - intros (s & ([sk s'] & -> & Hs)%list_elem_of_fmap & He). apply bind_Some in He as (c' & Hc & [= <- <-]).
      apply bt_elem in Hs; [|done]. destruct (Hent sk s' Hs) as [_ ->]. by exists s'.
    - intros (s & Hs & <- & Hc). exists s. split; [|unfold g; by rewrite Hc].
      apply list_elem_of_fmap. exists (sort_key (substate_key s), s). split; [done|]. by apply bt_elem. }
  assert (im_ok (omap g (substates q).*2)) as Hnd.
  { unfold im_ok, im_keys. apply (NoDup_fmap_1 (to_db_sort_key hash)).
    set (h := fun e : DbSortKey * TrackedSubstate V => u ← value_update (substate_value e.2); Some (e.1, u)).
    assert (to_db_sort_key hash <$> (omap g (substates q).*2).*1 = (omap h (substates q)).*1) as ->.
    { assert (forall sk s, (sk, s) ∈ substates q -> sk = sort_key (substate_key s)) as Hall
        by (intros sk s Hs%bt_elem; [by apply Hent|done]).
      clear -Hall. unfold g, h. induction (substates q) as [|[sk s] l IH]; [done|]. cbn.
      rewrite (Hall sk s ltac:(left)). destruct (value_update (substate_value s)); cbn; [f_equal|];
        apply IH; intros; apply Hall; by right. }
    apply omap_keys; [|by apply bt_ok_nodup]. unfold h. intros [sk s] e He. by apply bind_Some in He as (? & _ & [= <-]). }
  rewrite im_collect_id by done. split; [done|]. split.
  - apply Forall_forall. intros [k c] Hkc. apply Hin in Hkc as (s & Hs & <- & _). by apply (Hent _ _ Hs).
  - intros k Hk. destruct (bt_get (sort_key k) (substates q)) as [s|] eqn:Hs; cbn.
    + destruct (Hent _ _ Hs) as [Hk' He]. apply (of_kind_inj hash (kinds n p)) in He; [|done..].
      destruct (value_update (substate_value s)) as [c|] eqn:Hc.
      * apply im_elem_get; [done|]. apply Hin. by exists s.
      * apply im_get_None. intros ([k' c'] & -> & Hkc)%list_elem_of_fmap. cbn in *.
        apply Hin in Hkc as (s' & Hs' & _ & Hc'). congruence.
    + apply im_get_None. intros ([k' c'] & -> & Hkc)%list_elem_of_fmap. cbn in *.
      apply Hin in Hkc as (s' & Hs' & _). congruence.
Qed.

Definition part_of u (n : list Z) (p : Z) : option PartitionStateUpdates := node ← im_get n u; im_get p node.

Lemma part_of_partition g n p u n' p' :
  part_of (of_partition g n p u) n' p' =
  if decide ((n', p') = (n, p)) then Some (g (default partition_default (part_of u n p))) else part_of u n' p'.
Proof.
  unfold part_of, of_partition, im_update. rewrite im_get_insert. destruct (decide (n' = n)) as [->|Hn].
  - cbn. rewrite im_get_insert. destruct (decide (p' = p)) as [->|Hp].
    + rewrite decide_True by done. by destruct (im_get n u).
    + rewrite decide_False by congruence. by destruct (im_get n u).
  - by rewrite decide_False by congruence.
Qed.

Lemma part_of_ok u n p q : state_ok P u -> part_of u n p = Some q -> pstate_ok (P n p) q.
Proof.
  intros Hu (node & Hn & Hp)%bind_Some. pose proof (state_get P u n node Hu Hn) as Hnode.
  by apply (nstate_get (P n) node p).
Qed.

Lemma of_partition_ok g n p u : state_ok P u ->
  (forall q, pstate_ok (P n p) q -> pstate_ok (P n p) (g q)) -> state_ok P (of_partition g n p u).
Proof.
  intros Hu Hg. unfold of_partition, im_update.
  assert (nstate_ok (P n) (default [] (im_get n u))) as Hn.
  { destruct (im_get n u) eqn:Hn; cbn; [by apply (state_get P u n)|]. split; constructor. }
  split; [by apply im_ok_insert, Hu|]. apply Forall_forall. intros [n' node] Hin.
  apply im_elem_get in Hin; [|by apply im_ok_insert, Hu]. rewrite im_get_insert in Hin. cbn.
  case_decide; [|by apply (state_get P u n')]. injection Hin as <-. subst n'.
  apply nstate_insert; [done|]. apply Hg.
  destruct (im_get p (default [] (im_get n u))) as [q|] eqn:Hq; cbn;
    [exact (nstate_get (P n) _ p q Hn Hq)|apply pstate_default].
Qed.

Lemma change_part u n p sk : state_ok P u ->
  change_of (create_database_updates hash u) (to_db_node_key hash n, p) sk =
  (q ← part_of u n p; get_substate_change (create_partition hash q) sk).
Proof.
  intros Hu. rewrite (change_of_create hash Hhash P) by done. cbn [fst snd].
  assert (im_get (to_db_node_key hash n) (renamed (to_db_node_key hash) u) = im_get n u) as ->.
  { destruct (im_get n u) as [node|] eqn:Hn.
    - apply im_elem_get.
      + apply (renamed_ok (to_db_node_key hash) (fun _ => True) (fun k k' _ _ => node_key_inj hash Hhash k k'));
          [apply Hu|by apply Forall_true].
      + apply im_get_elem in Hn. unfold renamed. apply list_elem_of_fmap. by exists (n, node).
    - apply (renamed_get_fresh (to_db_node_key hash) (fun _ => True) (fun k k' _ _ => node_key_inj hash Hhash k k'));
        [done|by apply Forall_true|done]. }
  unfold part_of. destruct (im_get n u) as [node|] eqn:Hn; [|done]. cbn.
  rewrite (node_change_create hash (P n)) by (by apply (state_get P u n)). by destruct (im_get p node).
Qed.

(** The deletions, then the writes of each partition. *)
Lemma deletions_spec l u : state_ok P u ->
  let u' := foldl (fun u d => of_partition (fun _ => partition_delete) d.1 d.2 u) u l in
  state_ok P u' /\ forall n p,
    part_of u' n p = if decide ((n, p) ∈ l) then Some partition_delete else part_of u n p.
Proof.
  revert u. induction l as [|[n0 p0] l IH]; intros u Hu.
  { split; [done|]. intros. cbn. rewrite decide_False; [done|apply not_elem_of_nil]. }
  cbn [foldl fst snd]. set (u1 := of_partition (fun _ => partition_delete) n0 p0 u).
  assert (state_ok P u1) as Hu1 by (apply of_partition_ok; [done|]; intros; split; constructor).
  destruct (IH u1 Hu1) as [Hok Hp]. split; [done|]. intros n p. rewrite Hp. unfold u1.
  rewrite part_of_partition. destruct (decide ((n, p) ∈ l)) as [Hin|Hin].
  - rewrite decide_True; [done|by right].
  - destruct (decide ((n, p) = (n0, p0))) as [->|Hne]; [rewrite decide_True; [done|left]|].
    rewrite decide_False; [done|]. by intros [?|?]%elem_of_cons.
Qed.

Definition add_partition u (e : list Z * Z * TrackedPartition V) : StateUpdates :=
  match partition_updates e.2 with
  | [] => u
  | us => of_partition (fun pu => mut_update_substates pu us) e.1.1 e.1.2 u
  end.

Lemma node_updates_flat ns u : foldl node_state_updates u ns = foldl add_partition u (flat ns).
Proof.
  revert u. induction ns as [|[n node] ns IH]; intros u; [done|]. rewrite flat_cons, foldl_app. cbn [foldl].
  rewrite IH. f_equal. unfold node_state_updates, node_flat. cbn. clear. revert u.
  induction (tracked_partitions node) as [|[p q] l IH]; intros u; [done|]. cbn [foldl fmap list_fmap]. by rewrite IH.
Qed.

(** Writing on top of what a partition has. *)
Lemma mut_update_spec n p pu q : pstate_ok (P n p) pu -> entries_ok n p q ->
  let us := partition_updates q in
  pstate_ok (P n p) (mut_update_substates pu us) /\ forall k, P n p k ->
    get_substate_change (create_partition hash (mut_update_substates pu us)) (sort_key k) =
    then_change (s ← bt_get (sort_key k) (substates q); value_update (substate_value s))
      (get_substate_change (create_partition hash pu) (sort_key k)).
Proof.
  intros Hpu Hq us. destruct (partition_updates_spec n p q Hq) as (Hok & Hk & Hg). fold us in Hok, Hk, Hg.
  destruct (partition_add_spec hash Hhash (P n p) (P_same n p) pu (PartitionDelta us) Hpu) as [H1 H2]; [done|].
  cbn [partition_add] in H1, H2. split; [done|]. intros k Hkk. rewrite H2. f_equal.
  rewrite (pchange_delta hash Hhash (P n p) (P_same n p)) by done. rewrite <- Hg by done.
  destruct (im_get k us) as [c|] eqn:Hc.
  - apply im_elem_get.
    + apply (renamed_ok (to_db_sort_key hash) (P n p)); [|done|done]. intros k1 k2 ? ?. by apply (of_kind_inj hash (kinds n p)).
    + apply im_get_elem in Hc. unfold renamed. apply list_elem_of_fmap. by exists (k, c).
  - apply (renamed_get_fresh (to_db_sort_key hash) (P n p)); [|done..]. intros k1 k2 ? ?. by apply (of_kind_inj hash (kinds n p)).
Qed.

Lemma add_partitions_spec l u : NoDup l.*1 -> state_ok P u ->
  (forall n p q, (n, p, q) ∈ l -> entries_ok n p q) ->
  let u' := foldl add_partition u l in
  state_ok P u' /\ forall n p k, P n p k ->
    (pu ← part_of u' n p; get_substate_change (create_partition hash pu) (sort_key k)) =
    then_change (q ← im_get (n, p) l; s ← bt_get (sort_key k) (substates q); value_update (substate_value s))
      (pu ← part_of u n p; get_substate_change (create_partition hash pu) (sort_key k)).
Proof.
  revert u. induction l as [|[[n0 p0] q0] l IH]; intros u Hnd Hu Hl; [done|].
  apply NoDup_cons in Hnd as [Hn Hnd]. cbn [foldl]. pose proof (Hl n0 p0 q0 ltac:(left)) as Hq0.
  set (u1 := add_partition u (n0, p0, q0)).
  assert (state_ok P u1 /\ forall n p k, P n p k ->
    (pu ← part_of u1 n p; get_substate_change (create_partition hash pu) (sort_key k)) =
    then_change (if decide ((n, p) = (n0, p0)) then s ← bt_get (sort_key k) (substates q0); value_update (substate_value s) else None)
      (pu ← part_of u n p; get_substate_change (create_partition hash pu) (sort_key k))) as [Hu1 Hp1].
  { unfold u1, add_partition. cbn [fst snd].
    destruct (partition_updates_spec n0 p0 q0 Hq0) as (_ & _ & Hg).
    destruct (partition_updates q0) as [|e us] eqn:Hus.
    - split; [done|]. intros n p k Hk. case_decide as Hd; [|done]. injection Hd as -> ->. by rewrite <- Hg.
    - rewrite <- Hus. split.
      + apply of_partition_ok; [done|]. intros pu Hpu. by apply mut_update_spec.
      + intros n p k Hk. rewrite part_of_partition. case_decide as Hd; [|done]. injection Hd as -> ->. cbn [mbind option_bind].
        assert (pstate_ok (P n0 p0) (default partition_default (part_of u n0 p0))) as Hdef.
        { destruct (part_of u n0 p0) eqn:Hpo; cbn; [by eapply part_of_ok|apply pstate_default]. }
        destruct (mut_update_spec n0 p0 _ q0 Hdef Hq0) as [_ ->]; [|done]. f_equal. by destruct (part_of u n0 p0). }
  destruct (IH u1 Hnd Hu1) as [Hok Hp]; [intros; apply Hl; by right|]. split; [done|].
  intros n p k Hk. rewrite Hp, Hp1 by done. cbn [im_get]. destruct (decide ((n, p) = (n0, p0))) as [Hd|Hd]; [|done].
  rewrite Hd, (proj2 (im_get_None (n0, p0) l)) by done. done.
Qed.

Lemma to_state_updates_spec (ts : TrackedSubstates (V := V)) : nodes_ok (ts_nodes ts) ->
  (forall n p q, get_partition (ts_nodes ts) n p = Some q -> entries_ok n p q) ->
  let u := (to_state_updates ts).2 in
  state_ok P u /\ forall n p k, P n p k ->
    change_of (create_database_updates hash u) (to_db_node_key hash n, p) (sort_key k) =
    then_change (s ← get_tracked (ts_nodes ts) n p (sort_key k); value_update (substate_value s))
      (if decide ((n, p) ∈ ts_deleted ts) then Some Delete else None).
Proof.
  intros Hok Hent. unfold to_state_updates. cbn [snd]. rewrite node_updates_flat.
  destruct (deletions_spec (ts_deleted ts) []) as [Hu0 Hp0]; [split; constructor|]. cbv zeta in Hp0.
  set (u0 := foldl _ [] (ts_deleted ts)) in *.
  destruct (add_partitions_spec (flat (ts_nodes ts)) u0 (flat_nodup _ Hok) Hu0) as [Hu Hp].
  { intros n p q Hin. apply Hent. by apply elem_flat. }
  split; [done|]. intros n p k Hk. rewrite change_part, Hp by done. f_equal.
  - rewrite im_get_flat by done. unfold get_tracked. by destruct (get_partition (ts_nodes ts) n p).
  - rewrite Hp0. by destruct (decide ((n, p) ∈ ts_deleted ts)).
Qed.
End Updates.

(** ** Finalizing and committing *)
Section Commit.
Context {V : Type} `{IndexedValueLaws V}.
Context (hash : list Z -> list Z) (Hhash : forall bs, length (hash bs) = 32%nat).
Context (kinds : list Z -> Z -> KeyKind).
Implicit Types (ns : IndexMap (list Z) (TrackedNode V)) (t : Track V).

Abbreviation sort_key k := (to_db_sort_key hash k).

Definition transient_keys (l : TransientSubstates) : list (list Z * Z * DbSortKey) :=
  (fun e => (e.1, sort_key e.2)) <$> l.

Lemma get_tracked_remove sk n p ns n' p' sk' : nodes_ok ns ->
  get_tracked (update_partition (remove_tracked sk) n p ns) n' p' sk' =
  if decide ((n', p', sk') = (n, p, sk)) then None else get_tracked ns n' p' sk'.
Proof.
  intros Hok. rewrite get_tracked_update. destruct (decide ((n', p') = (n, p))) as [Hd|Hd].
  - injection Hd as -> ->. cbn [remove_tracked substates].
    rewrite bt_get_remove by (by apply partition_default_ok). rewrite cmp_decide2.
    destruct (decide (sk' = sk)) as [->|Hs]; [by rewrite decide_True|].
    rewrite decide_False by congruence. unfold get_tracked. by destruct (get_partition ns n p).
  - by rewrite decide_False by congruence.
Qed.

Lemma remove_transient_spec l ns ns' : nodes_ok ns -> remove_transient hash l ns = Ok ns' ->
  nodes_ok ns' /\ forall n p sk, get_tracked ns' n p sk =
    if decide ((n, p, sk) ∈ transient_keys l) then None else get_tracked ns n p sk.
Proof.
  revert ns. induction l as [|[[n0 p0] k0] l IH]; intros ns Hok Hr.
  { injection Hr as <-. split; [done|]. intros. rewrite decide_False; [done|apply not_elem_of_nil]. }
  assert (exists ns1, remove_transient hash l ns1 = Ok ns' /\ nodes_ok ns1 /\ forall n p sk,
    get_tracked ns1 n p sk = if decide ((n, p, sk) = (n0, p0, sort_key k0)) then None else get_tracked ns n p sk)
    as (ns1 & Hr1 & Hok1 & Hg1).
  { cbn [remove_transient] in Hr. destruct (get_partition ns n0 p0) as [q|] eqn:Hq.
    - exists (update_partition (remove_tracked (sort_key k0)) n0 p0 ns). split_and!.
      + destruct (s ← bt_get (sort_key k0) (substates q); tracked_get (substate_value s)) as [v|]; [|done].
        by destruct (owned_nodes v).
      + apply update_partition_ok; [done|]. intros. by apply bt_ok_remove.
      + intros. by apply get_tracked_remove.
    - exists ns. split_and!; try done. intros n p sk. case_decide as Hd; [|done]. injection Hd as -> -> ->.
      unfold get_tracked. by rewrite Hq. }
  destruct (IH ns1 Hok1 Hr1) as [Hok' Hg]. split; [done|]. intros n p sk. rewrite Hg, Hg1.
  change (transient_keys ((n0, p0, k0) :: l)) with ((n0, p0, sort_key k0) :: transient_keys l).
  destruct (decide ((n, p, sk) ∈ transient_keys l)) as [Hin|Hin].
  - rewrite decide_True; [done|by right].
  - destruct (decide ((n, p, sk) = (n0, p0, sort_key k0))) as [->|Hne]; [rewrite decide_True; [done|left]|].
    rewrite decide_False; [done|]. by intros [?|?]%elem_of_cons.
Qed.

(** The tracks whose entries are stored under their keys, before or after a revert. *)
Record keyed t : Prop := {
  keyed_nodes : nodes_ok (tracked_nodes t);
  keyed_entry : forall n p sk s, get_tracked (tracked_nodes t) n p sk = Some s ->
    of_kind (kinds n p) (substate_key s) /\ sk = sort_key (substate_key s);
  keyed_transient : forall n p k, (n, p, k) ∈ transient_substates t -> of_kind (kinds n p) k
}.

Lemma is_transient_keys t n p k : keyed t -> of_kind (kinds n p) k ->
  (n, p, sort_key k) ∈ transient_keys (transient_substates t) <-> is_transient t n p k = true.
Proof.
  intros Ht Hk. unfold is_transient. rewrite bool_decide_eq_true. unfold transient_keys. rewrite list_elem_of_fmap. split.
  - intros ([[n' p'] k'] & [= -> -> He] & Hin). pose proof (keyed_transient t Ht _ _ _ Hin) as Hk'.
    by apply (of_kind_inj hash (kinds n' p')) in He as ->.
  - intros Hin. by exists (n, p, k).
Qed.

Lemma commit_spec (db : InMemorySubstateDatabase) t ts : db_ok db -> keyed t -> finalize hash t = Ok ts ->
  let db' := mem_commit db (create_database_updates hash (to_state_updates ts).2) in
  db_ok db' /\ forall n p k, of_kind (kinds n p) k ->
    raw_read hash db' n p k = apply_change (then_change
      (if is_transient t n p k then None
       else s ← get_tracked (tracked_nodes t) n p (sort_key k); value_update (substate_value s))
      (if decide ((n, p) ∈ deleted_partitions t) then Some Delete else None)) (raw_read hash db n p k).
Proof.
  intros Hdb Ht Hf db'. unfold finalize in Hf.
  destruct (remove_transient hash (transient_substates t) (tracked_nodes t)) as [ns|] eqn:Hr; [|done].
  injection Hf as <-. destruct (remove_transient_spec _ _ _ (keyed_nodes t Ht) Hr) as [Hok Hg].
  destruct (to_state_updates_spec hash Hhash kinds (mk_tracked_substates ns (deleted_partitions t))) as [Hu Hc].
  { done. }
  { intros n p q Hq. cbn [ts_nodes] in Hq. split; [by eapply get_partition_ok|]. intros sk s Hs.
    assert (get_tracked ns n p sk = Some s) as Hgs by (unfold get_tracked; by rewrite Hq).
    rewrite Hg in Hgs. case_decide; [done|]. by apply (keyed_entry t Ht). }
  destruct (mem_commit_spec _ db Hdb (create_ok hash Hhash _ (P_same kinds) _ Hu)) as [Hdb' Hread].
  split; [done|]. intros n p k Hk. unfold raw_read at 1. cbn [get_raw_substate_by_db_key memory_database].
  unfold db'. rewrite Hread, Hc by done. cbn [ts_nodes ts_deleted]. rewrite Hg.
  unfold raw_read. cbn [get_raw_substate_by_db_key memory_database]. f_equal. f_equal.
  pose proof (is_transient_keys t n p k Ht Hk) as Htr.
  destruct (is_transient t n p k).
  - rewrite decide_True by (by apply Htr). done.
  - rewrite decide_False; [done|]. intros Hin%Htr. done.
Qed.

Context (db : InMemorySubstateDatabase) (Hwf : db_wf (V := V) hash db kinds db_ok).

Lemma Inv_keyed t : Inv hash db kinds t -> keyed t.
Proof.
  intros HI. split; [apply HI| |].
  - intros n p sk s Hs. by destruct (inv_entry _ _ _ _ HI _ _ _ _ Hs) as (? & ? & _).
  - intros n p k Hin. by destruct (inv_transient _ _ _ _ HI _ _ _ Hin).
Qed.

Lemma raw_db_read n p k : raw_read hash db n p k = as_vec <$> db_read (V := V) hash db n p k.
Proof.
  unfold db_read. destruct (raw_read hash db n p k) as [raw|] eqn:Hr; [|done].
  destruct (db_decodes _ _ _ _ Hwf _ _ _ Hr) as [v Hv]. cbn. rewrite Hv. cbn. f_equal. symmetry. by apply from_vec_bytes.
Qed.
End Commit.
End CommitLemmas.

(** ** Theorems *)

Module TrackTheorems.
Import TrackHistory CommitLemmas.

Section Theorems.
Context {D V C E : Type} `{SubstateDatabase D} `{IndexedValue V}.
Context (hash : list Z -> list Z) (Hhash : forall bs, length (hash bs) = 32%nat).
Context (db : D) (kinds : list Z -> Z -> KeyKind) (inv : D -> Prop) `{!SubstateDatabaseLaws D inv}.
Context (Hwf : db_wf (V := V) hash db kinds inv).
Context (io : IOAccess -> C -> Result E unit * C).

Definition shows (t : Track V) (s : list Z -> Z -> SubstateKey -> option V) : Prop :=
  forall n p k, of_kind (kinds n p) k -> view hash db t n p k = s n p k.

(** C17. The track is a store: on every reachable track, whatever the callback
    does, a read returns the substate of the view and leaves the view as it is; a
    write and a removal change that substate alone, and a removal returns it; a
    new node has the substates it is created with; a scan returns the first
    entries of the partition in the view, in the order of their database keys
    where it is sorted, and draining removes exactly the entries it returns.  No
    call panics. *)
Theorem track_is_store (t : Track V) (c : C) (Hr : reachable (C := C) (E := E) hash db kinds t) :
  let s := view hash db t in
  (forall n p k, of_kind (kinds n p) k ->
     wp (get_substate hash db io n p k) (t, c)
       (fun v s' => v = s n p k /\ shows s'.1 s) (fun _ s' => shows s'.1 s)) /\
  (forall n p k v, of_kind (kinds n p) k ->
     wp (set_substate hash io n p k v) (t, c)
       (fun _ s' => shows s'.1 (store_set s n p k (Some v)))
       (fun _ s' => shows s'.1 (store_set s n p k (Some v)))) /\
  (forall n p k, of_kind (kinds n p) k ->
     wp (remove_substate hash db io n p k) (t, c)
       (fun v s' => v = s n p k /\ shows s'.1 (store_set s n p k None))
       (fun _ s' => shows s'.1 (store_set s n p k None) \/ shows s'.1 s)) /\
  (forall n subs, node_wf kinds n subs ->
     (forall p sk, get_raw_substate_by_db_key db (to_db_node_key hash n, p) sk = None) ->
     (forall p sk, get_tracked (force_write_tracked_nodes t) n p sk = None) ->
     wp (create_tracked_node hash io n subs) (t, c)
       (fun _ s' => shows s'.1 (fun n' p k => if decide (n' = n) then node_value subs p k else s n' p k))
       (fun _ s' => s'.1 = t)) /\
  (forall n p limit, 0 <= limit ->
     wp (scan_keys hash db io (kinds n p) n p limit) (t, c)
       (fun r s' => shows s'.1 s /\ exists es, lists hash db kinds t n p es /\ r = take (Z.to_nat limit) es.*1)
       (fun _ s' => shows s'.1 s)) /\
  (forall n p limit, 0 <= limit ->
     wp (drain_substates hash db io (kinds n p) n p limit) (t, c)
       (fun r s' => shows s'.1 (store_remove s n p r.*1) /\
          exists es, lists hash db kinds t n p es /\ r = take (Z.to_nat limit) es)
       (fun _ _ => True)) /\
  (forall n p limit, kinds n p = SortedKind ->
     wp (scan_sorted_substates hash db io n p limit) (t, c)
       (fun r s' => shows s'.1 s /\ exists es, lists hash db kinds t n p es /\
          bt_ok ((fun e => (to_db_sort_key hash e.1, e)) <$> es) /\ r = take (Z.to_nat limit) es)
       (fun _ s' => shows s'.1 s)).
Proof.
  intros s. pose proof (reachable_track_Inv hash Hhash db kinds inv Hwf t Hr) as HI.
  pose proof (db_decodes _ _ _ _ Hwf) as Hdec. split_and!.
  - intros n p k Hk. eapply wp_mono; [by apply get_substate_spec|by intros v s' [(_ & _ & ?) ->]|by intros e s' (_ & _ & ?)].
  - intros n p k v Hk. eapply wp_mono; [by apply (set_substate_spec hash Hhash db kinds)|by intros x s' (_ & _ & ?)|by intros e s' (_ & _ & ?)].
  - intros n p k Hk. eapply wp_mono; [by apply remove_substate_spec|by intros v s' [(_ & _ & ?) ->]|].
    intros e s' [(_ & _ & ?)|(_ & _ & ?)]; [by left|by right].
  - intros n subs Hn Hd Hf. eapply wp_mono; [by apply (create_node_spec hash Hhash db kinds)|by intros x s' (_ & _ & _ & _ & ?)|done].
  - intros n p limit Hl. eapply wp_mono; [by eapply scan_keys_spec|by intros v s' [(_ & _ & ?) ?]|by intros e s' (_ & _ & ?)].
  - intros n p limit Hl. eapply wp_mono; [by eapply drain_substates_spec|by intros v s' [(_ & _ & ?) ?]|done].
  - intros n p limit Hl. eapply wp_mono; [by eapply scan_sorted_spec|by intros v s' [(_ & _ & ?) ?]|by intros e s' (_ & _ & ?)].
Qed.
End Theorems.

Section Committed.
Context {V C E : Type} `{IndexedValueLaws V}.
Context (hash : list Z -> list Z) (Hhash : forall bs, length (hash bs) = 32%nat).
Context (kinds : list Z -> Z -> KeyKind).
Context (db : InMemorySubstateDatabase) (Hwf : db_wf (V := V) hash db kinds db_ok).

(** C18. What a transaction saw is what it commits: after the state updates of a
    reachable track are committed, every substate of the database is the one the
    track showed, except that a transient substate is not written, and that a
    deleted partition keeps only what the transaction wrote to it. *)
Theorem track_commit_exact (t : Track V) (ts : TrackedSubstates (V := V))
    (Hr : reachable (C := C) (E := E) hash db kinds t) (Hf : finalize hash t = Ok ts) :
  let db' := mem_commit db (create_database_updates hash (to_state_updates ts).2) in
  forall n p k, of_kind (kinds n p) k ->
    raw_read hash db' n p k =
      if is_transient t n p k then None
      else if decide ((n, p) ∈ deleted_partitions t /\ get_tracked_substate_info hash t n p k = InfoUnmodified)
      then None
      else as_vec <$> view hash db t n p k.
Proof.
  intros db' n p k Hk. pose proof (reachable_track_Inv hash Hhash db kinds db_ok Hwf t Hr) as HI.
  destruct (commit_spec hash Hhash kinds db t ts (db_inv _ _ _ _ Hwf) (Inv_keyed hash kinds db t HI) Hf) as [_ Hread].
  unfold db'. rewrite Hread by done. clear Hread db'.
  destruct (is_transient t n p k) eqn:Htr.
  { apply bool_decide_eq_true in Htr. destruct (inv_transient _ _ _ _ HI _ _ _ Htr) as [_ ->]. cbn. by case_decide. }
  rewrite (raw_db_read hash kinds db Hwf n p k). unfold get_tracked_substate_info, view.
  destruct (get_tracked (tracked_nodes t) n p (to_db_sort_key hash k)) as [s|] eqn:Hs; cbn.
  - destruct (tracked_key hash db kinds Hhash _ _ _ _ _ HI Hk Hs) as [_ Hv].
    destruct (substate_value s) as [v|[|v]|v [w|]|v|[w|]|]; cbn in *; rewrite ?Hv;
      repeat case_decide; cbn in *; naive_solver.
  - repeat case_decide; cbn in *; naive_solver.
Qed.

(** What committing a reverted track writes, in terms of its forced substates. *)
Lemma reverted_commit (t : Track V) : Inv hash db kinds t ->
  exists t', revert_non_force_write_changes t = Done t' /\
  forall ts, finalize hash t' = Ok ts ->
  let db' := mem_commit db (create_database_updates hash (to_state_updates ts).2) in
  forall n p k, of_kind (kinds n p) k -> (n, p) ∉ deleted_partitions t ->
    raw_read hash db' n p k =
      match get_tracked (force_write_tracked_nodes t) n p (to_db_sort_key hash k) with
      | Some s => if is_transient t n p k then None else as_vec <$> tracked_get (substate_value s)
      | None => raw_read hash db n p k
      end.
Proof.
  intros HI.
  destruct (revert_spec hash Hhash db kinds t HI) as (t' & Hrev & Hok & Hdel & Htr & Hg).
  exists t'. split; [done|]. intros ts Hf db' n p k Hk Hnd.
  assert (keyed hash kinds t') as Hkeyed.
  { split; [done| |].
    - intros n' p' sk s. rewrite Hg. destruct (get_tracked (force_write_tracked_nodes t) n' p' sk) as [fs|] eqn:Hfs.
      + intros [= <-]. by destruct (inv_forced _ _ _ _ HI _ _ _ _ Hfs) as ((? & ? & _) & _).
      + destruct (nodes_new (tracked_nodes t) n'); [done|]. intros (s0 & Hs0 & ->)%fmap_Some.
        by destruct (inv_entry _ _ _ _ HI _ _ _ _ Hs0) as (? & ? & _).
    - rewrite Htr. intros n' p' k' Hin. by destruct (inv_transient _ _ _ _ HI _ _ _ Hin). }
  destruct (commit_spec hash Hhash kinds db t' ts (db_inv _ _ _ _ Hwf) Hkeyed Hf) as [_ Hread].
  unfold db'. rewrite Hread by done. clear Hread db'. rewrite Hdel, Hg, decide_False by done.
  unfold is_transient. rewrite Htr. change (bool_decide ((n, p, k) ∈ transient_substates t)) with (is_transient t n p k).
  assert (is_transient t n p k = true -> raw_read hash db n p k = None) as Htn.
  { intros Ht%bool_decide_eq_true. by destruct (inv_transient _ _ _ _ HI _ _ _ Ht). }
  destruct (get_tracked (force_write_tracked_nodes t) n p (to_db_sort_key hash k)) as [fs|] eqn:Hfs.
  - destruct (is_transient t n p k); [by rewrite Htn|]. rewrite (raw_db_read hash kinds db Hwf n p k).
    destruct (inv_forced _ _ _ _ HI _ _ _ _ Hfs) as ((Hk' & He & Hv) & _).
    apply (of_kind_inj hash (kinds n p)) in He; [|done..]. rewrite <- He in Hv.
    cbn [mbind option_bind]. destruct (substate_value fs) as [v|[|v]|v [w|]|v|[w|]|]; cbn in *; first [done|by rewrite Hv].
  - destruct (is_transient t n p k); [done|]. destruct (nodes_new (tracked_nodes t) n); [done|].
    destruct (get_tracked (tracked_nodes t) n p (to_db_sort_key hash k)) as [s|]; [|done]. cbn.
    by destruct (substate_value s) as [v|[|v]|v [w|]|v|[w|]|].
Qed.

(** C21. A failed transaction leaves only what it forced: reverting the track
    does not panic, and committing the reverted track leaves every substate
    outside of deleted partitions as it was in the database, except those that
    were force-written, which are as the transaction saw them the last time it
    forced them, whatever it did to them before and after that; a forced substate
    that was marked as transient is not written. *)
Theorem revert_keeps_forced (t : Track V) (F : forced_values (V := V))
    (Hr : history (C := C) (E := E) hash db kinds t F) :
  exists t', revert_non_force_write_changes t = Done t' /\
  forall ts, finalize hash t' = Ok ts ->
  let db' := mem_commit db (create_database_updates hash (to_state_updates ts).2) in
  forall n p k, of_kind (kinds n p) k -> (n, p) ∉ deleted_partitions t ->
    raw_read hash db' n p k =
      match F n p k with
      | Some seen => if is_transient t n p k then None else as_vec <$> seen
      | None => raw_read hash db n p k
      end.
Proof.
  pose proof (reachable_track_Inv hash Hhash db kinds db_ok Hwf t (history_reachable _ _ _ _ _ Hr)) as HI.
  destruct (reverted_commit t HI) as (t' & Hrev & Hread). exists t'. split; [done|].
  intros ts Hf db' n p k Hk Hnd. unfold db'. rewrite (Hread ts Hf) by done.
  rewrite (history_forced hash Hhash db kinds db_ok Hwf t F Hr n p k Hk).
  by destruct (get_tracked (force_write_tracked_nodes t) n p (to_db_sort_key hash k)).
Qed.
End Committed.

(** *** Indexed values by their bytes, and a small database *)

Fixpoint collect_owned (v : Scrypto.ScryptoValue) : list (list Z) :=
  let all := fix all (l : list Scrypto.ScryptoValue) : list (list Z) :=
    match l with [] => [] | x :: l' => collect_owned x ++ all l' end in
  match v with
  | VCustom (Scrypto.SOwn node_id) => [node_id]
  | VEnum _ fields => all fields
  | VArray _ elements => all elements
  | VTuple fields => all fields
  | VMap _ _ entries =>
      (fix go (l : list (Scrypto.ScryptoValue * Scrypto.ScryptoValue)) : list (list Z) :=
        match l with [] => [] | (a, b) :: l' => collect_owned a ++ collect_owned b ++ go l' end) entries
  | _ => []
  end.

Definition indexed_new (bytes : list Z) : option (list (list Z)) :=
  match Scrypto.scrypto_decode bytes with Done (Ok v) => Some (collect_owned v) | _ => None end.

#[local] Instance bytes_indexed : IndexedValue (list Z) := {
  from_vec bytes := _ ← indexed_new bytes; Some bytes;
  as_vec bytes := bytes;
  owned_nodes bytes := default [] (indexed_new bytes)
}.

#[local] Instance bytes_indexed_laws : IndexedValueLaws (list Z).
Proof. split. intros bs v Hv. cbn in Hv |- *. destruct (indexed_new bs); cbn in Hv; congruence. Qed.

Definition demo_hash (bs : list Z) : list Z := replicate 32 (Z.of_nat (length bs)).
Definition demo_kinds (n : list Z) (p : Z) : KeyKind := FieldKind.
Definition five : list Z := [92; 7; 5].
Definition six : list Z := [92; 7; 6].
Definition seven : list Z := [92; 7; 7].
Definition demo_db : InMemorySubstateDatabase := [((to_db_node_key demo_hash [1], 0), [([0], five)])].
Definition demo_io (a : IOAccess) (c : unit) : Result unit unit * unit := (Ok tt, tt).

Lemma demo_hash_length bs : length (demo_hash bs) = 32%nat.
Proof. apply length_replicate. Qed.

Lemma demo_get pk sk raw : mem_get demo_db pk sk = Some raw -> sk = [0] /\ raw = five.
Proof.
  unfold mem_get, demo_db. cbn [bt_get]. destruct (cmp pk _); try done. cbn [mbind option_bind bt_get].
  destruct (cmp sk [0]) eqn:Hc; try done. apply cmp_eq in Hc. intros [= <-]. done.
Qed.

Lemma demo_wf : db_wf (V := list Z) demo_hash demo_db demo_kinds db_ok.
Proof.
  split.
  - split; [by repeat split|]. intros pk p. unfold demo_db. cbn [bt_get]. destruct (cmp pk _); try done.
    intros [= <-]. by repeat split.
  - intros pk sk raw [_ ->]%demo_get. exists five. vm_compute. reflexivity.
  - intros n p sk [raw [-> _]%demo_get]. by exists (Field 0).
Qed.

Lemma track_is_store_witness :
  wp (get_substate demo_hash demo_db demo_io [1] 0 (Field 0)) (track_new, tt)
    (fun v _ => v = Some five) (fun _ _ => True).
Proof.
  destruct (track_is_store demo_hash demo_hash_length demo_db demo_kinds db_ok demo_wf demo_io track_new tt
    (reach_new _ _ _)) as [Hget _].
  eapply wp_mono; [apply (Hget [1] 0 (Field 0)); exact I| |done].
  intros v s' [-> _]. vm_compute. reflexivity.
Defined.

(** The track after a run of one operation. *)
Definition ran {A} (m : M (Track (list Z) * unit) unit A) (t : Track (list Z)) : Track (list Z) :=
  match m (t, tt) with Done (_, (t', _)) => t' | Panicked => t end.
Definition written : Track (list Z) :=
  ran (remove_substate demo_hash demo_db demo_io [1] 0 (Field 0))
    (ran (set_substate demo_hash demo_io [1] 0 (Field 3) six) track_new).

Lemma track_commit_exact_witness :
  exists ts, finalize demo_hash written = Ok ts /\
  let db' := mem_commit demo_db (create_database_updates demo_hash (to_state_updates ts).2) in
  raw_read demo_hash db' [1] 0 (Field 0) = None /\ raw_read demo_hash db' [1] 0 (Field 3) = Some six.
Proof.
  eexists. split; [vm_compute; reflexivity|]. intros db'.
  assert (reachable (C := unit) (E := unit) demo_hash demo_db demo_kinds written) as Hr.
  { eapply reach_call; [eapply reach_call; [apply reach_new|]|].
    - eapply (call_set _ _ _ _ demo_io [1] 0 (Field 3) six tt); [exact I|vm_compute; reflexivity].
    - eapply (call_remove _ _ _ _ demo_io [1] 0 (Field 0) tt); [exact I|vm_compute; reflexivity]. }
  split; unfold db'; erewrite (track_commit_exact demo_hash demo_hash_length demo_kinds demo_db demo_wf written _ Hr);
    try exact I; vm_compute; reflexivity.
Defined.

(** A transaction that writes, forces and writes again one substate, and writes another. *)
Definition forced : Track (list Z) :=
  let t := ran (set_substate demo_hash demo_io [1] 0 (Field 0) six)
    (ran (get_substate demo_hash demo_db demo_io [1] 0 (Field 0)) track_new) in
  match force_write demo_hash demo_db [1] 0 (Field 0) t with
  | Done t => ran (set_substate demo_hash demo_io [1] 0 (Field 3) six)
      (ran (set_substate demo_hash demo_io [1] 0 (Field 0) seven) t)
  | Panicked => t
  end.

Lemma revert_keeps_forced_witness :
  view demo_hash demo_db forced [1] 0 (Field 0) = Some seven /\
  exists t' ts, revert_non_force_write_changes forced = Done t' /\ finalize demo_hash t' = Ok ts /\
  let db' := mem_commit demo_db (create_database_updates demo_hash (to_state_updates ts).2) in
  raw_read demo_hash db' [1] 0 (Field 0) = Some six /\ raw_read demo_hash db' [1] 0 (Field 3) = None.
Proof.
  assert (exists F, history (C := unit) (E := unit) demo_hash demo_db demo_kinds forced F /\
    F [1] 0 (Field 0) = Some (Some six) /\ F [1] 0 (Field 3) = None) as (F & Hr & HF0 & HF3).
  { eexists. split.
    - eapply history_call; [eapply history_call; [eapply history_call; [eapply history_call; [eapply history_call;
        [apply history_new|]|]|]|]|].
      + eapply (call_get _ _ _ _ demo_io [1] 0 (Field 0) tt); [exact I|vm_compute; reflexivity].
      + eapply (call_set _ _ _ _ demo_io [1] 0 (Field 0) six tt); [exact I|vm_compute; reflexivity].
      + eapply (call_force_write _ _ _ _ [1] 0 (Field 0)); [exact I|eexists; vm_compute; reflexivity|done|vm_compute; reflexivity].
      + eapply (call_set _ _ _ _ demo_io [1] 0 (Field 0) seven tt); [exact I|vm_compute; reflexivity].
      + eapply (call_set _ _ _ _ demo_io [1] 0 (Field 3) six tt); [exact I|vm_compute; reflexivity].
    - split; vm_compute; reflexivity. }
  destruct (revert_keeps_forced demo_hash demo_hash_length demo_kinds demo_db demo_wf forced F Hr) as (t' & Hrev & Hread).
  assert (exists ts, finalize demo_hash t' = Ok ts) as [ts Hf].
  { vm_compute in Hrev. injection Hrev as <-. eexists. vm_compute. reflexivity. }
  split; [vm_compute; reflexivity|]. exists t', ts. split; [exact Hrev|]. split; [exact Hf|].
  split; rewrite (Hread ts Hf); try exact I; try (apply not_elem_of_nil).
  - rewrite HF0. vm_compute. reflexivity.
  - rewrite HF3. vm_compute. reflexivity.
Defined.

(** A substate that was written without being read first is not readable after
    the revert, although the database has it. *)
Example reverted_write_hides_substate :
  exists t', revert_non_force_write_changes (ran (set_substate demo_hash demo_io [1] 0 (Field 0) six) track_new) = Done t' /\
  (exists s, get_substate demo_hash demo_db demo_io [1] 0 (Field 0) (t', tt) = Done (Ok None, s)) /\
  raw_read demo_hash demo_db [1] 0 (Field 0) = Some five.
Proof. eexists. split; [vm_compute; reflexivity|]. split; [eexists; vm_compute; reflexivity|vm_compute; reflexivity]. Qed.
End TrackTheorems.
