(* ===== verification/ResourceConstraints.v ===== *)
(** * Constraints on resource balances

    The assertions a manifest makes about the resources on its worktop, in a
    bucket or returned by a call, and the bounds the static analysis of a
    manifest computes with
    (radix-common/src/data/manifest/model/manifest_resource_assertion.rs).
    A constraint is given meaning as a set of balances; validation decides that
    meaning, a constraint is valid for non-fungibles exactly when some balance
    satisfies it, and normalization keeps the meaning while it reaches the
    canonical form the source documents. *)

From S2P Require Import Prelude Decimals IndexMap Bytes SborCustom.
Import Int Rounding Dec DecSpec.

#[global] Instance NonFungibleLocalId_eq_dec : EqDecision NonFungibleLocalId.
Proof. solve_decision. Defined.

(** A resource address is its node id. *)
Abbreviation ResourceAddress := (list Z) (only parsing).

Definition is_fungible (resource_address : ResourceAddress) : bool :=
  match resource_address with
  | b :: _ => bool_decide (from_repr b = Some GlobalFungibleResourceManager)
  | [] => false
  end.

Abbreviation Ids := (list NonFungibleLocalId) (only parsing).

(** [Decimal::from(ids.len())]: a length of 64 bits is always in range. *)
Definition decimal_of_len {A} (l : list A) : Decimal := Z.of_nat (length l) * ONE.

(** [!amount.is_negative() && amount.checked_floor() == Some(amount)] *)
Definition is_whole_non_negative (amount : Decimal) : bool :=
  negb (is_negative amount) &&
  match checked_floor amount with Done (Some f) => f =? amount | _ => false end.

(** ** Errors *)

Inductive ResourceConstraintError : Type :=
| NonFungibleConstraintNotValidForFungibleResource
| ExpectedNonZeroAmount
| ExpectedExactAmount (expected_amount actual_amount : Decimal)
| ExpectedAtLeastAmount (expected_at_least_amount actual_amount : Decimal)
| ExpectedAtMostAmount (expected_at_most_amount actual_amount : Decimal)
| NonFungibleMissing (missing_id : NonFungibleLocalId)
| NonFungibleNotAllowed (disallowed_id : NonFungibleLocalId).

Inductive ResourceConstraintsError : Type :=
| UnexpectedNonZeroBalanceOfUnspecifiedResource (resource_address : ResourceAddress)
| ResourceConstraintFailed (resource_address : ResourceAddress) (error : ResourceConstraintError).

Inductive BoundAdjustmentError : Type := BoundDecimalOverflow | BoundTakeCannotBeSatisfied.

Definition map_err {E F A} (f : E -> F) (r : Result E A) : Result F A :=
  match r with Ok a => Ok a | Err e => Err (f e) end.

(** [if b { return Err(e) }] *)
Definition fail_if {E} (b : bool) (e : E) : Result E unit := if b then Err e else Ok tt.

(** [if let Some(x) = s.next() { return Err(f(x)) }] *)
Definition fail_on_first {E A} (s : list A) (f : A -> E) : Result E unit :=
  match s with x :: _ => Err (f x) | [] => Ok tt end.

(** ** Lower bounds *)

Inductive LowerBound : Type :=
| NonZero
| LowerInclusive (amount : Decimal).

#[global] Instance LowerBound_eq_dec : EqDecision LowerBound.
Proof. solve_decision. Defined.

Definition lower_cmp (self other : LowerBound) : comparison :=
  match self, other with
  | LowerInclusive a, LowerInclusive b => Z.compare a b
  | LowerInclusive a, NonZero => if is_positive a then Gt else Lt
  | NonZero, LowerInclusive b => if is_positive b then Lt else Gt
  | NonZero, NonZero => Eq
  end.

Definition lower_zero : LowerBound := LowerInclusive ZERO.

Definition lower_at_least (decimal : Decimal) : Exec LowerBound :=
  if is_negative decimal then Panicked else Done (LowerInclusive decimal).

Definition lower_validate_amount (self : LowerBound) (amount : Decimal) :
    Result ResourceConstraintError unit :=
  match self with
  | NonZero => fail_if (is_zero amount) ExpectedNonZeroAmount
  | LowerInclusive inclusive => fail_if (amount <? inclusive) (ExpectedAtLeastAmount inclusive amount)
  end.

Definition lower_valid_for_fungible (self : LowerBound) : bool :=
  match self with NonZero => true | LowerInclusive amount => negb (is_negative amount) end.

Definition lower_valid_for_non_fungible (self : LowerBound) : bool :=
  match self with NonZero => true | LowerInclusive amount => is_whole_non_negative amount end.

Definition lower_is_zero (self : LowerBound) : bool := bool_decide (self = lower_zero).
Definition lower_is_positive (self : LowerBound) : bool := negb (lower_is_zero self).

Definition lower_add_from (self other : LowerBound) : Result BoundAdjustmentError LowerBound :=
  match self, other with
  | LowerInclusive a, LowerInclusive b =>
      c ← ok_or (checked_add a b) BoundDecimalOverflow; Ok (LowerInclusive c)
  | LowerInclusive amount, NonZero | NonZero, LowerInclusive amount =>
      Ok (if is_zero amount then NonZero else LowerInclusive amount)
  | NonZero, NonZero => Ok NonZero
  end.

Definition lower_take_amount (self : LowerBound) (take_amount : Decimal) : Exec LowerBound :=
  match self with
  | LowerInclusive lower =>
      if lower <? take_amount then Done lower_zero
      else d ← sub lower take_amount; Done (LowerInclusive d)
  | NonZero => Done (if is_zero take_amount then NonZero else lower_zero)
  end.

(** [max]: the second argument where the two are equal. *)
Definition lower_constrain_to (self other : LowerBound) : LowerBound :=
  match lower_cmp self other with Gt => self | _ => other end.

Definition lower_equivalent_decimal (self : LowerBound) : Decimal :=
  match self with LowerInclusive decimal => decimal | NonZero => 1 end.

Definition lower_is_satisfied_by (self : LowerBound) (amount : Decimal) : bool :=
  match self with NonZero => is_positive amount | LowerInclusive lower => lower <=? amount end.

(** ** Upper bounds *)

Inductive UpperBound : Type :=
| UpperInclusive (amount : Decimal)
| Unbounded.

#[global] Instance UpperBound_eq_dec : EqDecision UpperBound.
Proof. solve_decision. Defined.

Definition upper_cmp (self other : UpperBound) : comparison :=
  match self, other with
  | UpperInclusive a, UpperInclusive b => Z.compare a b
  | UpperInclusive _, Unbounded => Lt
  | Unbounded, UpperInclusive _ => Gt
  | Unbounded, Unbounded => Eq
  end.

Definition lower_cmp_upper (self : LowerBound) (other : UpperBound) : comparison :=
  match self, other with
  | LowerInclusive a, UpperInclusive b => Z.compare a b
  | _, Unbounded => Lt
  | NonZero, UpperInclusive b => if is_zero b then Gt else Lt
  end.

Definition upper_zero : UpperBound := UpperInclusive ZERO.

Definition upper_at_most (decimal : Decimal) : Exec UpperBound :=
  if is_negative decimal then Panicked else Done (UpperInclusive decimal).

Definition upper_validate_amount (self : UpperBound) (amount : Decimal) :
    Result ResourceConstraintError unit :=
  match self with
  | UpperInclusive inclusive => fail_if (inclusive <? amount) (ExpectedAtMostAmount inclusive amount)
  | Unbounded => Ok tt
  end.

Definition upper_valid_for_fungible (self : UpperBound) : bool :=
  match self with UpperInclusive amount => negb (is_negative amount) | Unbounded => true end.

Definition upper_valid_for_non_fungible (self : UpperBound) : bool :=
  match self with UpperInclusive amount => is_whole_non_negative amount | Unbounded => true end.

Definition upper_add_from (self other : UpperBound) : Result BoundAdjustmentError UpperBound :=
  match self, other with
  | UpperInclusive a, UpperInclusive b =>
      c ← ok_or (checked_add a b) BoundDecimalOverflow; Ok (UpperInclusive c)
  | _, Unbounded | Unbounded, _ => Ok Unbounded
  end.

Definition upper_take_amount (self : UpperBound) (take_amount : Decimal) :
    Exec (Result BoundAdjustmentError UpperBound) :=
  match self with
  | UpperInclusive upper =>
      if upper <? take_amount then Done (Err BoundTakeCannotBeSatisfied)
      else d ← sub upper take_amount; Done (Ok (UpperInclusive d))
  | Unbounded => Done (Ok Unbounded)
  end.

(** [min]: the first argument where the two are equal. *)
Definition upper_constrain_to (self other : UpperBound) : UpperBound :=
  match upper_cmp self other with Gt => other | _ => self end.

Definition upper_equivalent_decimal (self : UpperBound) : Decimal :=
  match self with UpperInclusive decimal => decimal | Unbounded => MAX end.

(** ** Allowed ids *)

Inductive AllowedIds : Type :=
| Allowlist (allowlist : Ids)
| AnyIds.

Fixpoint check_all_allowed (allowed ids : Ids) : Result ResourceConstraintError unit :=
  match ids with
  | [] => Ok tt
  | id :: rest =>
      if is_contains id allowed then check_all_allowed allowed rest
      else Err (NonFungibleNotAllowed id)
  end.

Definition allowed_validate_ids (self : AllowedIds) (ids : Ids) : Result ResourceConstraintError unit :=
  match self with
  | Allowlist allowed => check_all_allowed allowed ids
  | AnyIds => Ok tt
  end.

(** [usize::MAX] without an allowlist. *)
Definition allowlist_equivalent_length (self : AllowedIds) : Z :=
  match self with Allowlist allowlist => Z.of_nat (length allowlist) | AnyIds => u_max 64 end.

Definition allowed_valid_for_fungible (self : AllowedIds) : bool :=
  match self with Allowlist allowlist => bool_decide (allowlist = []) | AnyIds => true end.

(** ** General constraints *)

Record GeneralResourceConstraint : Type := mk_general {
  required_ids : Ids;
  lower_bound : LowerBound;
  upper_bound : UpperBound;
  allowed_ids : AllowedIds
}.

Definition is_valid_independent_of_resource_type (self : GeneralResourceConstraint) : bool :=
  if upper_equivalent_decimal (upper_bound self) <? lower_equivalent_decimal (lower_bound self) then false
  else if upper_equivalent_decimal (upper_bound self) <? decimal_of_len (required_ids self) then false
  else
    match allowed_ids self with
    | Allowlist allowlist =>
        if decimal_of_len allowlist <? lower_equivalent_decimal (lower_bound self) then false
        else is_subset (required_ids self) allowlist
    | AnyIds => true
    end.

Definition general_valid_for_fungible (self : GeneralResourceConstraint) : bool :=
  bool_decide (required_ids self = []) && lower_valid_for_fungible (lower_bound self) &&
  upper_valid_for_fungible (upper_bound self) && allowed_valid_for_fungible (allowed_ids self) &&
  is_valid_independent_of_resource_type self.

Definition general_valid_for_non_fungible (self : GeneralResourceConstraint) : bool :=
  lower_valid_for_non_fungible (lower_bound self) && upper_valid_for_non_fungible (upper_bound self) &&
  is_valid_independent_of_resource_type self.

(** [GeneralResourceConstraint::fungible], [::non_fungible_no_allow_list] and
    [::non_fungible_with_allow_list]. *)
Definition general_fungible (lower : LowerBound) (upper : UpperBound) : Exec GeneralResourceConstraint :=
  let constraint := mk_general [] lower upper AnyIds in
  if general_valid_for_fungible constraint then Done constraint else Panicked.

Definition non_fungible_no_allow_list (required : list NonFungibleLocalId) (lower : LowerBound)
    (upper : UpperBound) : Exec GeneralResourceConstraint :=
  let constraint := mk_general (is_from_iter required) lower upper AnyIds in
  if general_valid_for_non_fungible constraint then Done constraint else Panicked.

Definition non_fungible_with_allow_list (required : list NonFungibleLocalId) (lower : LowerBound)
    (upper : UpperBound) (allowed : list NonFungibleLocalId) : Exec GeneralResourceConstraint :=
  let constraint := mk_general (is_from_iter required) lower upper (Allowlist (is_from_iter allowed)) in
  if general_valid_for_non_fungible constraint then Done constraint else Panicked.

Definition validate_amount (self : GeneralResourceConstraint) (amount : Decimal) :
    Result ResourceConstraintError unit :=
  lower_validate_amount (lower_bound self) amount ;;
  upper_validate_amount (upper_bound self) amount.

Definition general_validate_fungible (self : GeneralResourceConstraint) (amount : Decimal) :
    Result ResourceConstraintError unit := validate_amount self amount.

Definition validate_non_fungible_ids (self : GeneralResourceConstraint) (ids : Ids) :
    Result ResourceConstraintError unit :=
  validate_amount self (decimal_of_len ids) ;;
  fail_on_first (is_difference (required_ids self) ids) NonFungibleMissing ;;
  allowed_validate_ids (allowed_ids self) ids.

Definition with_lower (g : GeneralResourceConstraint) (l : LowerBound) : GeneralResourceConstraint :=
  mk_general (required_ids g) l (upper_bound g) (allowed_ids g).
Definition with_upper (g : GeneralResourceConstraint) (u : UpperBound) : GeneralResourceConstraint :=
  mk_general (required_ids g) (lower_bound g) u (allowed_ids g).
Definition with_required (g : GeneralResourceConstraint) (ids : Ids) : GeneralResourceConstraint :=
  mk_general ids (lower_bound g) (upper_bound g) (allowed_ids g).
Definition with_allowed (g : GeneralResourceConstraint) (a : AllowedIds) : GeneralResourceConstraint :=
  mk_general (required_ids g) (lower_bound g) (upper_bound g) a.

(** First the numeric bounds are constrained by the id bounds, then the id
    bounds where the balance must have exactly these ids. *)
Definition normalize_numeric (g : GeneralResourceConstraint) : GeneralResourceConstraint :=
  let required_ids_len := decimal_of_len (required_ids g) in
  let g := if lower_equivalent_decimal (lower_bound g) <? required_ids_len
           then with_lower g (LowerInclusive required_ids_len) else g in
  match allowed_ids g with
  | Allowlist allowlist =>
      let allowlist_len := decimal_of_len allowlist in
      if allowlist_len <? upper_equivalent_decimal (upper_bound g)
      then with_upper g (UpperInclusive allowlist_len) else g
  | AnyIds => g
  end.

Definition normalize_ids (g : GeneralResourceConstraint) : GeneralResourceConstraint :=
  if Z.of_nat (length (required_ids g)) <? allowlist_equivalent_length (allowed_ids g) then
    if decimal_of_len (required_ids g) =? upper_equivalent_decimal (upper_bound g) then
      with_allowed g (Allowlist (required_ids g))
    else
      match allowed_ids g with
      | Allowlist allowlist =>
          if decimal_of_len allowlist =? lower_equivalent_decimal (lower_bound g)
          then with_required g allowlist else g
      | AnyIds => g
      end
  else g.

Definition normalize (g : GeneralResourceConstraint) : GeneralResourceConstraint :=
  normalize_ids (normalize_numeric g).

(** ** Manifest constraints *)

Inductive ManifestResourceConstraint : Type :=
| NonZeroAmount
| ExactAmount (amount : Decimal)
| AtLeastAmount (amount : Decimal)
| ExactNonFungibles (ids : Ids)
| AtLeastNonFungibles (ids : Ids)
| General (constraint : GeneralResourceConstraint).

Definition constraint_valid_for_fungible (self : ManifestResourceConstraint) : bool :=
  match self with
  | NonZeroAmount => true
  | ExactAmount amount | AtLeastAmount amount => negb (is_negative amount)
  | ExactNonFungibles _ | AtLeastNonFungibles _ => false
  | General general => general_valid_for_fungible general
  end.

Definition constraint_valid_for_non_fungible (self : ManifestResourceConstraint) : bool :=
  match self with
  | NonZeroAmount => true
  | ExactAmount amount | AtLeastAmount amount => is_whole_non_negative amount
  | ExactNonFungibles _ | AtLeastNonFungibles _ => true
  | General general => general_valid_for_non_fungible general
  end.

Definition constraint_is_valid_for (self : ManifestResourceConstraint)
    (resource_address : ResourceAddress) : bool :=
  if is_fungible resource_address then constraint_valid_for_fungible self
  else constraint_valid_for_non_fungible self.

Definition constraint_validate_non_fungible (self : ManifestResourceConstraint) (ids : Ids) :
    Result ResourceConstraintError unit :=
  let amount := decimal_of_len ids in
  match self with
  | NonZeroAmount => fail_if (bool_decide (ids = [])) ExpectedNonZeroAmount
  | ExactAmount expected => fail_if (negb (amount =? expected)) (ExpectedExactAmount expected amount)
  | AtLeastAmount expected => fail_if (amount <? expected) (ExpectedAtLeastAmount expected amount)
  | ExactNonFungibles expected =>
      fail_on_first (is_difference expected ids) NonFungibleMissing ;;
      fail_on_first (is_difference ids expected) NonFungibleNotAllowed
  | AtLeastNonFungibles expected => fail_on_first (is_difference expected ids) NonFungibleMissing
  | General constraint => validate_non_fungible_ids constraint ids
  end.

Definition constraint_validate_fungible (self : ManifestResourceConstraint) (amount : Decimal) :
    Result ResourceConstraintError unit :=
  match self with
  | NonZeroAmount => fail_if (is_zero amount) ExpectedNonZeroAmount
  | ExactAmount expected => fail_if (negb (amount =? expected)) (ExpectedExactAmount expected amount)
  | AtLeastAmount expected => fail_if (amount <? expected) (ExpectedAtLeastAmount expected amount)
  | ExactNonFungibles _ | AtLeastNonFungibles _ => Err NonFungibleConstraintNotValidForFungibleResource
  | General constraint => general_validate_fungible constraint amount
  end.

Abbreviation ManifestResourceConstraints :=
  (IndexMap ResourceAddress ManifestResourceConstraint) (only parsing).

(** [with_unchecked] and [with]: panics on a resource that has a constraint. *)
Definition constraints_with_unchecked (self : ManifestResourceConstraints)
    (resource_address : ResourceAddress) (constraint : ManifestResourceConstraint) :
    Exec ManifestResourceConstraints :=
  match im_get resource_address self with
  | Some _ => Panicked
  | None => Done (im_insert resource_address constraint self)
  end.

Definition constraints_with (self : ManifestResourceConstraints)
    (resource_address : ResourceAddress) (constraint : ManifestResourceConstraint) :
    Exec ManifestResourceConstraints :=
  if constraint_is_valid_for constraint resource_address
  then constraints_with_unchecked self resource_address constraint else Panicked.

Definition contains_specified_resource (self : ManifestResourceConstraints)
    (resource_address : ResourceAddress) : bool :=
  bool_decide (is_Some (im_get resource_address self)).

Fixpoint constraints_is_valid (self : ManifestResourceConstraints) : bool :=
  match self with
  | [] => true
  | (resource_address, constraint) :: rest =>
      if constraint_is_valid_for constraint resource_address then constraints_is_valid rest else false
  end.

(** ** Aggregated balances *)

Record AggregateResourceBalances : Type := mk_balances {
  fungible_resources : IndexMap ResourceAddress Decimal;
  non_fungible_resources : IndexMap ResourceAddress Ids
}.

Definition aggregate_new : AggregateResourceBalances := mk_balances [] [].

Definition add_fungible (self : AggregateResourceBalances) (resource_address : ResourceAddress)
    (amount : Decimal) : Exec AggregateResourceBalances :=
  if is_positive amount then
    total ← add (default ZERO (im_get resource_address (fungible_resources self))) amount;
    Done (mk_balances (im_insert resource_address total (fungible_resources self))
                      (non_fungible_resources self))
  else Done self.

Definition add_non_fungible (self : AggregateResourceBalances) (resource_address : ResourceAddress)
    (ids : Ids) : AggregateResourceBalances :=
  if bool_decide (ids = []) then self
  else mk_balances (fungible_resources self)
         (im_update [] (fun old => is_extend old ids) resource_address (non_fungible_resources self)).

Fixpoint prevent_fungible (self : ManifestResourceConstraints) (balances : IndexMap ResourceAddress Decimal) :
    Result ResourceConstraintsError unit :=
  match balances with
  | [] => Ok tt
  | (resource_address, amount) :: rest =>
      if negb (contains_specified_resource self resource_address) && is_positive amount
      then Err (UnexpectedNonZeroBalanceOfUnspecifiedResource resource_address)
      else prevent_fungible self rest
  end.

Fixpoint prevent_non_fungible (self : ManifestResourceConstraints) (balances : IndexMap ResourceAddress Ids) :
    Result ResourceConstraintsError unit :=
  match balances with
  | [] => Ok tt
  | (resource_address, ids) :: rest =>
      if negb (contains_specified_resource self resource_address) && negb (bool_decide (ids = []))
      then Err (UnexpectedNonZeroBalanceOfUnspecifiedResource resource_address)
      else prevent_non_fungible self rest
  end.

Fixpoint validate_specified (specified : ManifestResourceConstraints)
    (balances : AggregateResourceBalances) : Result ResourceConstraintsError unit :=
  match specified with
  | [] => Ok tt
  | (resource_address, constraint) :: rest =>
      map_err (ResourceConstraintFailed resource_address)
        (if is_fungible resource_address then
           constraint_validate_fungible constraint
             (default ZERO (im_get resource_address (fungible_resources balances)))
         else
           constraint_validate_non_fungible constraint
             (default [] (im_get resource_address (non_fungible_resources balances)))) ;;
      validate_specified rest balances
  end.

Definition constraints_validate (self : ManifestResourceConstraints)
    (balances : AggregateResourceBalances) (prevent_unspecified_resource_balances : bool) :
    Result ResourceConstraintsError unit :=
  (if prevent_unspecified_resource_balances then
     prevent_fungible self (fungible_resources balances) ;;
     prevent_non_fungible self (non_fungible_resources balances)
   else Ok tt) ;;
  validate_specified self balances.

Definition validate_only (self : AggregateResourceBalances) (constraints : ManifestResourceConstraints) :
    Result ResourceConstraintsError unit := constraints_validate constraints self true.
Definition validate_includes (self : AggregateResourceBalances) (constraints : ManifestResourceConstraints) :
    Result ResourceConstraintsError unit := constraints_validate constraints self false.

(** ** Meaning

    A balance has an amount and, for a non-fungible resource, the ids it
    consists of.  Amounts are never negative. *)

Module ConstraintSpec.

Record Balance : Type := mk_balance { b_amount : Z; b_ids : Ids }.

Definition balance_ok (fungible : bool) (b : Balance) : Prop :=
  0 <= b_amount b <= MAX /\ NoDup (b_ids b) /\
  if fungible then b_ids b = [] else b_amount b = decimal_of_len (b_ids b).

Definition zero_balance : Balance := mk_balance 0 [].

Definition lower_sat (l : LowerBound) (a : Z) : Prop :=
  match l with NonZero => 0 < a | LowerInclusive d => d <= a end.
Definition upper_sat (u : UpperBound) (a : Z) : Prop :=
  match u with UpperInclusive d => a <= d | Unbounded => True end.
Definition allowed_sat (a : AllowedIds) (ids : Ids) : Prop :=
  match a with Allowlist l => ids ⊆ l | AnyIds => True end.

Record sat (g : GeneralResourceConstraint) (b : Balance) : Prop := {
  sat_lower : lower_sat (lower_bound g) (b_amount b);
  sat_upper : upper_sat (upper_bound g) (b_amount b);
  sat_required : required_ids g ⊆ b_ids b;
  sat_allowed : allowed_sat (allowed_ids g) (b_ids b)
}.

(** The meaning of the other constraints of a manifest, as bounds. *)
Definition constraint_sat (fungible : bool) (c : ManifestResourceConstraint) (b : Balance) : Prop :=
  match c with
  | NonZeroAmount => 0 < b_amount b
  | ExactAmount a => b_amount b = a
  | AtLeastAmount a => a <= b_amount b
  | ExactNonFungibles ids => fungible = false /\ forall i, i ∈ b_ids b <-> i ∈ ids
  | AtLeastNonFungibles ids => fungible = false /\ ids ⊆ b_ids b
  | General g =>
      lower_sat (lower_bound g) (b_amount b) /\ upper_sat (upper_bound g) (b_amount b) /\
      if fungible then True else required_ids g ⊆ b_ids b /\ allowed_sat (allowed_ids g) (b_ids b)
  end.

Definition lower_ok (l : LowerBound) : Prop :=
  match l with NonZero => True | LowerInclusive d => 0 <= d end.
Definition upper_ok (u : UpperBound) : Prop :=
  match u with UpperInclusive d => 0 <= d | Unbounded => True end.
Definition allowed_ok (a : AllowedIds) : Prop :=
  match a with Allowlist l => NoDup l | AnyIds => True end.

(** What the documentation of [GeneralResourceConstraint] asks of the id
    bounds of a fungible resource. *)
Definition fungible_ids_ok (g : GeneralResourceConstraint) : Prop :=
  required_ids g = [] /\
  match allowed_ids g with AnyIds => True | Allowlist l => l = [] /\ upper_bound g = upper_zero end.

Record general_wf (fungible : bool) (g : GeneralResourceConstraint) : Prop := {
  wf_required : NoDup (required_ids g);
  wf_lower : lower_ok (lower_bound g);
  wf_upper : upper_ok (upper_bound g);
  wf_allowed : allowed_ok (allowed_ids g);
  wf_fungible : fungible = true -> fungible_ids_ok g
}.

(** The canonical form: the order of the bounds, and the detection of exact
    ids. *)
Record canonical (g : GeneralResourceConstraint) : Prop := {
  can_required : decimal_of_len (required_ids g) <= lower_equivalent_decimal (lower_bound g);
  can_order : lower_equivalent_decimal (lower_bound g) <= upper_equivalent_decimal (upper_bound g);
  can_allowed : match allowed_ids g with
                | Allowlist l => upper_equivalent_decimal (upper_bound g) <= decimal_of_len l /\ required_ids g ⊆ l
                | AnyIds => True end;
  can_exact_upper : decimal_of_len (required_ids g) = upper_equivalent_decimal (upper_bound g) ->
    exists l, allowed_ids g = Allowlist l /\ forall i, i ∈ l <-> i ∈ required_ids g;
  can_exact_lower : forall l, allowed_ids g = Allowlist l ->
    decimal_of_len l = lower_equivalent_decimal (lower_bound g) -> forall i, i ∈ required_ids g <-> i ∈ l
}.
End ConstraintSpec.
Import ConstraintSpec.

Module ConstraintLemmas.

Lemma ONE_pos : 0 < ONE. Proof. done. Qed.

Lemma decimal_of_len_nonneg {A} (l : list A) : 0 <= decimal_of_len l.
Proof. unfold decimal_of_len. pose proof ONE_pos. nia. Qed.

Lemma decimal_of_nil {A} : decimal_of_len (@nil A) = 0.
Proof. done. Qed.

Lemma decimal_of_len_le {A} (l k : list A) :
  decimal_of_len l <= decimal_of_len k <-> (length l <= length k)%nat.
Proof. unfold decimal_of_len. pose proof ONE_pos. nia. Qed.

Lemma decimal_of_len_subset {A} `{EqDecision A} (l k : list A) :
  NoDup l -> l ⊆ k -> decimal_of_len l <= decimal_of_len k.
Proof. intros. apply decimal_of_len_le. by apply set_length_le. Qed.

Lemma decimal_of_len_app {A} (l k : list A) :
  decimal_of_len (l ++ k) = decimal_of_len l + decimal_of_len k.
Proof. unfold decimal_of_len. rewrite length_app. lia. Qed.

(** [Decimal::MAX] and the smallest amount are no whole numbers. *)
Lemma decimal_of_len_MAX {A} (l : list A) : decimal_of_len l <> MAX.
Proof.
  unfold decimal_of_len. intros H.
  assert ((Z.of_nat (length l) * ONE) mod ONE = MAX mod ONE) as Hm by (by rewrite H).
  rewrite Z.mod_mul in Hm by (pose proof ONE_pos; lia). vm_compute in Hm. done.
Qed.

Lemma decimal_of_len_1 {A} (l : list A) : decimal_of_len l <> 1.
Proof. unfold decimal_of_len. rewrite ONE_val. lia. Qed.

Lemma decimal_of_len_pos {A} (l : list A) : 0 < decimal_of_len l <-> l <> [].
Proof. unfold decimal_of_len. pose proof ONE_pos. destruct l; cbn [length]; [split; [lia|done]|split; [done|lia]]. Qed.

Lemma is_whole_spec a : wf a -> is_whole_non_negative a = true <-> 0 <= a /\ exists n : nat, a = Z.of_nat n * ONE.
Proof.
  intros Ha. unfold is_whole_non_negative, checked_floor, is_negative.
  rewrite RoundSpec.checked_round_value by (done || unfold SCALE; lia).
  replace (10 ^ (SCALE - 0)) with ONE by done.
  destruct (RoundSpec.round_value_rounds ToNegativeInfinity a ONE ONE_pos) as ([q Hq] & Habs & Hle); cbn in Hle.
  set (r := RoundSpec.round_value ToNegativeInfinity a ONE) in *.
  split.
  - intros [Hneg Hf]%andb_true_iff. zbool. split; [lia|].
    destruct (checked_i 192 r) as [f|] eqn:Hc; [|done]. apply checked_i_Some in Hc as [-> _]. zbool.
    exists (Z.to_nat q). pose proof ONE_pos. rewrite Z2Nat.id; nia.
  - intros [H0 [n Hn]]. apply andb_true_iff. split; [apply negb_true_iff, Z.ltb_ge; lia|].
    assert (r = a) as Hra.
    { assert (q = Z.of_nat n) as ->; [|lia]. revert Habs. rewrite Hq, Hn. generalize ONE_pos. generalize ONE.
      intros o Ho Habs. rewrite <- Z.mul_sub_distr_r, Z.abs_mul, (Z.abs_eq o) in Habs by lia. nia. }
    destruct (checked_i 192 r) as [f|] eqn:Hc.
    + apply checked_i_Some in Hc as [-> _]. by apply Z.eqb_eq.
    + exfalso. apply checked_i_None in Hc. unfold wf, MIN, MAX in Ha. rewrite Hra in Hc. lia.
Qed.

(** *** Bounds *)

Lemma lower_equivalent l a : lower_sat l a <-> lower_equivalent_decimal l <= a.
Proof. destruct l; cbn; lia. Qed.

Lemma upper_equivalent u a : a <= MAX -> upper_sat u a <-> a <= upper_equivalent_decimal u.
Proof. destruct u; cbn; intros; [lia|tauto]. Qed.

(** *** Normalization *)

Section Normalize.
Context (f : bool) (b : Balance) (Hb : balance_ok f b).
Implicit Types (g : GeneralResourceConstraint).

Lemma required_amount g : general_wf f g -> required_ids g ⊆ b_ids b -> decimal_of_len (required_ids g) <= b_amount b.
Proof.
  intros Hg Hr. destruct Hb as (H0 & Hn & Hf), f.
  - destruct (wf_fungible _ _ Hg eq_refl) as [-> _]. rewrite decimal_of_nil. lia.
  - rewrite Hf. apply decimal_of_len_subset; [apply Hg|done].
Qed.

Lemma allowed_amount g l :
  general_wf f g -> allowed_ids g = Allowlist l -> upper_sat (upper_bound g) (b_amount b) -> b_ids b ⊆ l ->
  b_amount b <= decimal_of_len l.
Proof.
  intros Hg Hl Hu Hi. destruct Hb as (H0 & Hn & Hf), f.
  - destruct (wf_fungible _ _ Hg eq_refl) as [_ Ha]. rewrite Hl in Ha. destruct Ha as [-> Hz]. rewrite Hz in Hu. done.
  - rewrite Hf. by apply decimal_of_len_subset.
Qed.

Lemma raise_lower_sat g :
  general_wf f g -> lower_equivalent_decimal (lower_bound g) < decimal_of_len (required_ids g) ->
  sat (with_lower g (LowerInclusive (decimal_of_len (required_ids g)))) b <-> sat g b.
Proof.
  intros Hg Hl. split; intros [? ? Hr ?]; constructor; cbn in *; try done.
  - apply lower_equivalent. lia.
  - by apply required_amount.
Qed.

Lemma cut_upper_sat g l :
  general_wf f g -> allowed_ids g = Allowlist l -> decimal_of_len l < upper_equivalent_decimal (upper_bound g) ->
  sat (with_upper g (UpperInclusive (decimal_of_len l))) b <-> sat g b.
Proof.
  intros Hg Hl Hu. split; intros [? Hu' ? Ha]; constructor; cbn in *; try done.
  - apply upper_equivalent; [apply Hb|lia].
  - rewrite Hl in Ha. by eapply allowed_amount.
Qed.

(** A balance whose size is that of the required ids, or of the allowlist,
    consists of these ids. *)
Lemma exact_required_sat g :
  general_wf f g -> decimal_of_len (required_ids g) = upper_equivalent_decimal (upper_bound g) ->
  sat g b -> sat (with_allowed g (Allowlist (required_ids g))) b.
Proof.
  intros Hg Hu [? Hup Hr ?]. constructor; cbn; try done.
  apply upper_equivalent in Hup; [|apply Hb]. destruct Hb as (H0 & Hn & Hf), f.
  - rewrite Hf. set_solver.
  - apply set_full; [apply Hg|done|done|]. rewrite <- decimal_of_len_le. lia.
Qed.

Lemma exact_allowed_sat g l :
  general_wf f g -> allowed_ids g = Allowlist l -> decimal_of_len l = lower_equivalent_decimal (lower_bound g) ->
  sat g b -> sat (with_required g l) b.
Proof.
  intros Hg Hl Hlow [Hlo ? ? Ha]. constructor; cbn; try done. rewrite Hl in Ha. cbn in Ha.
  apply lower_equivalent in Hlo. destruct Hb as (H0 & Hn & Hf), f.
  - destruct (wf_fungible _ _ Hg eq_refl) as [_ Hfl]. rewrite Hl in Hfl. destruct Hfl as [-> _]. set_solver.
  - pose proof (wf_allowed _ _ Hg) as Hnl. rewrite Hl in Hnl.
    apply set_full; [done|done|done|]. rewrite <- decimal_of_len_le. lia.
Qed.
End Normalize.

Lemma normalize_numeric_wf f g : general_wf f g -> general_wf f (normalize_numeric g).
Proof.
  intros Hg. unfold normalize_numeric.
  set (g1 := if _ <? _ then with_lower g _ else g). assert (general_wf f g1) as Hg1.
  { subst g1. destruct (_ <? _); [|done]. destruct Hg as [? ? ? ? Hf]; constructor; cbn; try done.
    apply decimal_of_len_nonneg. }
  clearbody g1. destruct (allowed_ids g1) as [l|] eqn:Hl; [|done]. destruct (_ <? _) eqn:Hu; [|done].
  destruct Hg1 as [? ? ? ? Hf]; constructor; cbn; try done; [apply decimal_of_len_nonneg|].
  intros Hft. destruct (Hf Hft) as [? Ha]. split; [done|]. cbn. rewrite Hl in *. by destruct Ha as [-> ?].
Qed.

Lemma normalize_numeric_sat f b g :
  balance_ok f b -> general_wf f g -> sat (normalize_numeric g) b <-> sat g b.
Proof.
  intros Hb Hg. unfold normalize_numeric.
  set (g1 := if _ <? _ then with_lower g _ else g).
  assert (general_wf f g1 /\ (sat g1 b <-> sat g b)) as [Hg1 <-].
  { subst g1. destruct (_ <? _) eqn:Hl; [|done]. zbool. split.
    - destruct Hg as [? ? ? ? Hf]; constructor; cbn; try done. apply decimal_of_len_nonneg.
    - by eapply raise_lower_sat. }
  clearbody g1. destruct (allowed_ids g1) as [l|] eqn:Hl; [|done]. destruct (_ <? _) eqn:Hu; [|done]. zbool.
  by eapply cut_upper_sat.
Qed.

Lemma normalize_ids_wf f g : general_wf f g -> general_wf f (normalize_ids g).
Proof.
  intros Hg. unfold normalize_ids. destruct (_ <? _); [|done]. destruct (_ =? _) eqn:Hu.
  - destruct Hg as [? ? ? ? Hf]; constructor; cbn; try done. intros Hft. destruct (Hf Hft) as [Hr Ha].
    split; [done|]. cbn. split; [done|]. zbool. rewrite Hr, decimal_of_nil in Hu.
    destruct (upper_bound g); cbn in Hu; [by subst|done].
  - destruct (allowed_ids g) as [l|] eqn:Hl; [|done]. destruct (decimal_of_len l =? _); [|done].
    destruct Hg as [? ? ? Hal Hf]; constructor; cbn; try done; rewrite Hl in *; [done|].
    intros Hft. destruct (Hf Hft) as [Hr Ha]. unfold fungible_ids_ok. cbn. rewrite Hl in *.
    by destruct Ha as [-> ?].
Qed.

Lemma normalize_wf f g : general_wf f g -> general_wf f (normalize g).
Proof. intros. by apply normalize_ids_wf, normalize_numeric_wf. Qed.

Lemma normalize_ids_sound f b g : balance_ok f b -> general_wf f g -> sat g b -> sat (normalize_ids g) b.
Proof.
  intros Hb Hg Hs. unfold normalize_ids. destruct (_ <? _); [|done]. destruct (_ =? _) eqn:Hu.
  - zbool. by eapply exact_required_sat.
  - destruct (allowed_ids g) as [l|] eqn:Hl; [|done]. destruct (decimal_of_len l =? _) eqn:Hlow; [|done]. zbool.
    by eapply exact_allowed_sat.
Qed.

Lemma normalize_sound f b g : balance_ok f b -> general_wf f g -> sat g b -> sat (normalize g) b.
Proof.
  intros Hb Hg Hs. eapply normalize_ids_sound; [done|by apply normalize_numeric_wf|].
  by eapply normalize_numeric_sat.
Qed.

(** The checks of validity as propositions. *)
Lemma valid_independent_spec g :
  is_valid_independent_of_resource_type g = true <->
  lower_equivalent_decimal (lower_bound g) <= upper_equivalent_decimal (upper_bound g) /\
  decimal_of_len (required_ids g) <= upper_equivalent_decimal (upper_bound g) /\
  match allowed_ids g with
  | Allowlist l => lower_equivalent_decimal (lower_bound g) <= decimal_of_len l /\ required_ids g ⊆ l
  | AnyIds => True
  end.
Proof.
  unfold is_valid_independent_of_resource_type.
  destruct (_ <? _) eqn:H1; zbool; [split; [done|lia]|].
  destruct (upper_equivalent_decimal _ <? decimal_of_len _) eqn:H2; zbool; [split; [done|lia]|].
  destruct (allowed_ids g) as [l|]; [|naive_solver].
  destruct (decimal_of_len l <? _) eqn:H3; zbool; [split; [done|lia]|]. rewrite is_subset_spec. naive_solver.
Qed.

(** After the first half of normalization the bounds are ordered. *)
Record ordered (g : GeneralResourceConstraint) : Prop := {
  ord_required : decimal_of_len (required_ids g) <= lower_equivalent_decimal (lower_bound g);
  ord_bounds : lower_equivalent_decimal (lower_bound g) <= upper_equivalent_decimal (upper_bound g);
  ord_allowed : forall l, allowed_ids g = Allowlist l ->
    upper_equivalent_decimal (upper_bound g) <= decimal_of_len l /\ required_ids g ⊆ l
}.

Lemma normalize_numeric_ordered f g :
  general_wf f g -> is_valid_independent_of_resource_type g = true -> ordered (normalize_numeric g).
Proof.
  intros Hg (Hlu & Hru & Ha)%valid_independent_spec. pose proof (wf_required _ _ Hg) as Hn. unfold normalize_numeric.
  destruct (lower_equivalent_decimal _ <? _) eqn:Hl; zbool; cbn;
    destruct (allowed_ids g) as [l|] eqn:Hal; cbn.
  - destruct Ha as [Hla Hs]. assert (decimal_of_len (required_ids g) <= decimal_of_len l) by by apply decimal_of_len_subset.
    destruct (_ <? _) eqn:Hu; zbool; constructor; cbn; try lia; rewrite Hal; intros ? [= <-]; split; (done || lia).
  - constructor; cbn; try lia. by rewrite Hal.
  - destruct Ha as [Hla Hs].
    destruct (_ <? _) eqn:Hu; zbool; constructor; cbn; try lia; rewrite ?Hal; intros ? [= <-]; split; (done || lia).
  - constructor; cbn; try lia. by rewrite Hal.
Qed.

Lemma normalize_ids_complete g b : ordered g -> sat (normalize_ids g) b -> sat g b.
Proof.
  intros Ho. unfold normalize_ids. destruct (_ <? _); [|done]. destruct (_ =? _) eqn:Hu.
  - intros [? ? Hr Ha]. cbn in *. constructor; try done. destruct (allowed_ids g) as [l|] eqn:Hl; [|done].
    destruct (ord_allowed _ Ho l Hl) as [_ ?]. cbn. set_solver.
  - destruct (allowed_ids g) as [l|] eqn:Hl; [|done]. destruct (decimal_of_len l =? _) eqn:Hlow; [|done].
    intros [? ? Hr Ha]. cbn in *. constructor; try done.
    destruct (ord_allowed _ Ho l Hl) as [_ ?]. set_solver.
Qed.

Lemma normalize_ids_canonical f g :
  general_wf f g -> ordered g -> Z.of_nat (length (required_ids g)) < u_max 64 -> canonical (normalize_ids g).
Proof.
  intros Hg [Hr Hb Ha] Hlen. unfold normalize_ids. destruct (_ <? _) eqn:Hc; zbool.
  - destruct (decimal_of_len (required_ids g) =? _) eqn:Hu; zbool.
    { constructor; cbn; try done; try lia.
      - split; [lia|done].
      - intros _. eauto.
      - by intros l [= <-]. }
    destruct (allowed_ids g) as [l|] eqn:Hl; [|by constructor; rewrite ?Hl].
    destruct (Ha l eq_refl) as [Hul Hs]. destruct (decimal_of_len l =? _) eqn:Hlow; zbool.
    + constructor; cbn; rewrite ?Hl; try done; try lia.
      * intros _. eauto.
      * by intros ? [= <-].
    + constructor; rewrite ?Hl; try done. intros ? [= <-] ?. done.
  - destruct (allowed_ids g) as [l|] eqn:Hl; [|cbn in Hc; lia]. cbn in Hc. destruct (Ha l eq_refl) as [Hul Hs].
    pose proof (wf_allowed _ _ Hg) as Hnl. rewrite Hl in Hnl.
    assert (l ⊆ required_ids g) by (apply set_full; [apply Hg|done|done|lia]).
    constructor; rewrite ?Hl; try done; [set_solver|]. intros ? [= <-]. set_solver.
Qed.

(** *** Satisfiability *)

#[local] Instance id_infinite : Infinite NonFungibleLocalId :=
  inj_infinite IdInteger (fun i => match i with IdInteger v => Some v | _ => None end) (fun _ => eq_refl).

(** A set of [n] ids between the required and the allowed ones. *)
Lemma pick_ids (required : Ids) (allowed : AllowedIds) (n : nat) :
  NoDup required -> allowed_ok allowed -> (length required <= n)%nat ->
  match allowed with Allowlist l => required ⊆ l /\ (n <= length l)%nat | AnyIds => True end ->
  exists ids, NoDup ids /\ length ids = n /\ required ⊆ ids /\ allowed_sat allowed ids.
Proof.
  intros Hr Ha Hn Hl. destruct allowed as [l|].
  - destruct Hl as [Hs Hnl]. pose proof (set_difference_length l required Ha Hr Hs).
    exists (required ++ take (n - length required) (is_difference l required)). split_and!.
    + apply NoDup_app. split_and!; [done| |].
      * intros x Hx Ht%subseteq_take. apply elem_of_is_difference in Ht. by destruct Ht.
      * eapply sublist_NoDup; [by apply NoDup_is_difference|apply sublist_take].
    + rewrite length_app, length_take. lia.
    + set_solver.
    + cbn. intros x [?|Hx%subseteq_take]%elem_of_app; [by apply Hs|].
      apply elem_of_is_difference in Hx. by destruct Hx.
  - assert (exists ids, NoDup ids /\ length ids = n /\ required ⊆ ids) as (ids & ? & ? & ?); [|by exists ids].
    replace n with (length required + (n - length required))%nat by lia.
    induction (n - length required)%nat as [|k (ids & Hnd & Hlen & Hsub)].
    + exists required. split_and!; [done|lia|done].
    + exists (fresh ids :: ids). split_and!; [|cbn; lia|set_solver].
      apply NoDup_cons. split; [apply infinite_is_fresh|done].
Qed.

Lemma sat_valid f g b :
  balance_ok f b -> general_wf f g -> sat g b -> is_valid_independent_of_resource_type g = true.
Proof.
  intros Hb Hg [Hl%lower_equivalent Hu Hr Ha]. apply valid_independent_spec.
  pose proof (required_amount f b Hb g Hg Hr) as Hra. pose proof Hu as Hu'.
  apply upper_equivalent in Hu; [|apply Hb]. split_and!; [lia|lia|].
  destruct (allowed_ids g) as [l|] eqn:Hal; [|done]. cbn in Ha. split; [|set_solver].
  pose proof (allowed_amount f b Hb g l Hg Hal Hu' Ha). lia.
Qed.

(** *** Validation decides the meaning *)

Lemma fail_if_Ok {E} (c : bool) (e : E) : fail_if c e = Ok tt <-> c = false.
Proof. by destruct c. Qed.

Lemma fail_on_first_Ok {E A} (l : list A) (g : A -> E) : fail_on_first l g = Ok tt <-> l = [].
Proof. by destruct l. Qed.

Lemma is_difference_nil (s t : Ids) : is_difference s t = [] <-> s ⊆ t.
Proof.
  split.
  - intros H x Hx. destruct (decide (x ∈ t)); [done|].
    assert (x ∈ is_difference s t) as Hd by by apply elem_of_is_difference. rewrite H in Hd. set_solver.
  - intros H. destruct (is_difference s t) as [|x l] eqn:Hd; [done|].
    assert (x ∈ is_difference s t) as Hx by (rewrite Hd; set_solver). apply elem_of_is_difference in Hx. set_solver.
Qed.

Lemma seq_Ok {E A} (a : Result E unit) (b : Result E A) x : (a ;; b) = Ok x <-> a = Ok tt /\ b = Ok x.
Proof. destruct a as [[]|]; cbn; naive_solver. Qed.

Lemma check_all_allowed_Ok allowed ids : check_all_allowed allowed ids = Ok tt <-> ids ⊆ allowed.
Proof.
  induction ids as [|i ids IH]; cbn; [split; [set_solver|done]|].
  unfold is_contains. case_bool_decide; [rewrite IH; set_solver|]. split; [done|set_solver].
Qed.

Lemma validate_amount_Ok g a :
  0 <= a -> validate_amount g a = Ok tt <-> lower_sat (lower_bound g) a /\ upper_sat (upper_bound g) a.
Proof.
  intros Ha. unfold validate_amount. rewrite seq_Ok.
  assert (lower_validate_amount (lower_bound g) a = Ok tt <-> lower_sat (lower_bound g) a) as ->.
  { destruct (lower_bound g); cbn; rewrite fail_if_Ok; unfold is_zero; [rewrite Z.eqb_neq|rewrite Z.ltb_ge]; lia. }
  destruct (upper_bound g); cbn; [by rewrite fail_if_Ok, Z.ltb_ge|naive_solver].
Qed.

Lemma constraint_validate_fungible_Ok c b :
  balance_ok true b -> constraint_validate_fungible c (b_amount b) = Ok tt <-> constraint_sat true c b.
Proof.
  intros ((Ha & _) & _). destruct c; cbn; rewrite ?fail_if_Ok; unfold is_zero;
    rewrite ?negb_false_iff, ?Z.eqb_neq, ?Z.eqb_eq, ?Z.ltb_ge; try lia; [naive_solver..|].
  unfold general_validate_fungible. rewrite validate_amount_Ok by done. naive_solver.
Qed.

Lemma constraint_validate_non_fungible_Ok c b :
  balance_ok false b -> constraint_validate_non_fungible c (b_ids b) = Ok tt <-> constraint_sat false c b.
Proof.
  intros ((Ha & _) & _ & Hi). destruct c; cbn; rewrite ?seq_Ok, ?fail_on_first_Ok, ?is_difference_nil,
    ?fail_if_Ok, ?bool_decide_eq_false, ?negb_false_iff, ?Z.eqb_eq, ?Z.ltb_ge, <- ?Hi; try tauto.
  - rewrite Hi, decimal_of_len_pos. done.
  - set_solver.
  - unfold validate_non_fungible_ids. rewrite !seq_Ok, fail_on_first_Ok, is_difference_nil, <- Hi.
    rewrite validate_amount_Ok by done.
    assert (allowed_validate_ids (allowed_ids constraint) (b_ids b) = Ok tt <-> allowed_sat (allowed_ids constraint) (b_ids b)) as ->.
    { destruct (allowed_ids constraint); cbn; [apply check_all_allowed_Ok|done]. }
    tauto.
Qed.

(** The balance of a resource in aggregated balances. *)
Definition aggregate_balance (t : AggregateResourceBalances) (r : ResourceAddress) : Balance :=
  if is_fungible r then mk_balance (default ZERO (im_get r (fungible_resources t))) []
  else let ids := default [] (im_get r (non_fungible_resources t)) in mk_balance (decimal_of_len ids) ids.

Record aggregate_ok (t : AggregateResourceBalances) : Prop := {
  agg_fungible_map : im_ok (fungible_resources t);
  agg_non_fungible_map : im_ok (non_fungible_resources t);
  agg_fungible r a : im_get r (fungible_resources t) = Some a -> is_fungible r = true;
  agg_non_fungible r i : im_get r (non_fungible_resources t) = Some i -> is_fungible r = false;
  agg_balances r : balance_ok (is_fungible r) (aggregate_balance t r)
}.

Lemma prevent_fungible_Ok c t :
  prevent_fungible c t = Ok tt <-> forall r a, (r, a) ∈ t -> im_get r c = None -> a <= 0.
Proof.
  induction t as [|[r a] t IH]; cbn; [split; [set_solver|done]|].
  unfold contains_specified_resource, is_positive. case_bool_decide as Hc; cbn.
  - rewrite IH. split; intros H r' a'; [intros [[= -> ->]|?]%elem_of_cons; [|by eauto]|].
    + intros Hn. rewrite Hn in Hc. by destruct Hc.
    + intros ?. apply H. set_solver.
  - apply eq_None_not_Some in Hc. destruct (0 <? a) eqn:Hp; zbool.
    + split; [done|]. intros H. specialize (H r a ltac:(set_solver) Hc). lia.
    + rewrite IH. split; intros H r' a'; [intros [[= -> ->]|?]%elem_of_cons; [done|by eauto]|].
      intros ?. apply H. set_solver.
Qed.

Lemma prevent_non_fungible_Ok c t :
  prevent_non_fungible c t = Ok tt <-> forall r i, (r, i) ∈ t -> im_get r c = None -> i = [].
Proof.
  induction t as [|[r i] t IH]; cbn; [split; [set_solver|done]|].
  unfold contains_specified_resource. case_bool_decide as Hc; cbn.
  - rewrite IH. split; intros H r' a'; [intros [[= -> ->]|?]%elem_of_cons; [|by eauto]|].
    + intros Hn. rewrite Hn in Hc. by destruct Hc.
    + intros ?. apply H. set_solver.
  - apply eq_None_not_Some in Hc. case_bool_decide as Hp; cbn.
    + rewrite IH. split; intros H r' a'; [intros [[= -> ->]|?]%elem_of_cons; [done|by eauto]|].
      intros ?. apply H. set_solver.
    + split; [done|]. intros H. by specialize (H r i ltac:(set_solver) Hc).
Qed.

Lemma map_err_Ok {E F A} (g : E -> F) (x : Result E A) a : map_err g x = Ok a <-> x = Ok a.
Proof. destruct x; cbn; naive_solver. Qed.

Lemma validate_specified_Ok c t :
  aggregate_ok t ->
  validate_specified c t = Ok tt <->
  forall r k, (r, k) ∈ c -> constraint_sat (is_fungible r) k (aggregate_balance t r).
Proof.
  intros Ht. induction c as [|[r k] c IH]; cbn; [split; [set_solver|done]|].
  rewrite seq_Ok, IH, map_err_Ok. pose proof (agg_balances _ Ht r) as Hb.
  assert ((if is_fungible r then constraint_validate_fungible k (default ZERO (im_get r (fungible_resources t)))
           else constraint_validate_non_fungible k (default [] (im_get r (non_fungible_resources t)))) = Ok tt
          <-> constraint_sat (is_fungible r) k (aggregate_balance t r)) as ->.
  { unfold aggregate_balance in *. destruct (is_fungible r).
    - by rewrite <- constraint_validate_fungible_Ok.
    - by rewrite <- constraint_validate_non_fungible_Ok. }
  split; [intros [? ?] r' k' [[= -> ->]|?]%elem_of_cons; eauto|].
  intros H. split; [apply H; set_solver|]. intros r' k' ?. apply H. set_solver.
Qed.

(** Validation passes exactly when every specified balance satisfies its
    constraint and, where asked, every other balance is zero. *)
Lemma constraints_validate_Ok c t only :
  aggregate_ok t ->
  constraints_validate c t only = Ok tt <->
  (forall r k, (r, k) ∈ c -> constraint_sat (is_fungible r) k (aggregate_balance t r)) /\
  (only = true -> forall r, im_get r c = None -> aggregate_balance t r = zero_balance).
Proof.
  intros Ht. unfold constraints_validate. rewrite seq_Ok, validate_specified_Ok by done.
  destruct only; [|naive_solver]. rewrite seq_Ok, prevent_fungible_Ok, prevent_non_fungible_Ok.
  assert ((forall r a, (r, a) ∈ fungible_resources t -> im_get r c = None -> a <= 0) /\
          (forall r i, (r, i) ∈ non_fungible_resources t -> im_get r c = None -> i = []) <->
          (forall r, im_get r c = None -> aggregate_balance t r = zero_balance)) as ->; [|naive_solver].
  split.
  - intros [Hf Hn] r Hr. pose proof (agg_balances _ Ht r) as Hb. unfold aggregate_balance, zero_balance in *.
    destruct (is_fungible r).
    + destruct (im_get r (fungible_resources t)) as [a|] eqn:Ha; [|done].
      pose proof (Hf r a (im_get_elem _ _ _ Ha) Hr). destruct Hb as ((H0 & _) & _). cbn in *. by replace a with 0 by lia.
    + destruct (im_get r (non_fungible_resources t)) as [i|] eqn:Hi; [|done].
      by rewrite (Hn r i (im_get_elem _ _ _ Hi) Hr).
  - intros H. split; intros r x Hx Hr; specialize (H r Hr).
    + apply im_elem_get in Hx; [|apply Ht]. unfold aggregate_balance in H.
      rewrite (agg_fungible _ Ht _ _ Hx), Hx in H. injection H as ->. done.
    + apply im_elem_get in Hx; [|apply Ht]. unfold aggregate_balance in H.
      rewrite (agg_non_fungible _ Ht _ _ Hx), Hx in H. by injection H as _ ->.
Qed.

(** The number of ids a lower bound asks for. *)
Definition least_ids (l : LowerBound) : nat :=
  match l with NonZero => 1 | LowerInclusive d => Z.to_nat (d / ONE) end.

Lemma least_ids_spec l d :
  lower_ok l -> lower_equivalent_decimal l <= MAX -> lower_valid_for_non_fungible l = true ->
  lower_equivalent_decimal l <= Z.of_nat (least_ids l) * ONE /\
  ((exists n : nat, d = Z.of_nat n * ONE) \/ d = MAX -> lower_equivalent_decimal l <= d ->
   Z.of_nat (least_ids l) * ONE <= d).
Proof.
  intros Hok HM Hv. destruct l as [|a]; cbn in *.
  - split; [pose proof ONE_pos; lia|]. intros [[n ->]| ->] Hd; [|done].
    pose proof ONE_pos. destruct n; [lia|nia].
  - apply is_whole_spec in Hv as [_ [n ->]]; [|split; [|done]; etransitivity; [|exact Hok]; done].
    rewrite Z.div_mul, Nat2Z.id by (pose proof ONE_pos; lia). split; [lia|done].
Qed.

Lemma satisfiable_ids g :
  general_wf false g -> upper_equivalent_decimal (upper_bound g) <= MAX ->
  lower_valid_for_non_fungible (lower_bound g) = true -> upper_valid_for_non_fungible (upper_bound g) = true ->
  is_valid_independent_of_resource_type g = true -> exists b, balance_ok false b /\ sat g b.
Proof.
  intros Hg HM Hwl Hwu (Hlu & Hru & Ha)%valid_independent_spec.
  set (u := upper_equivalent_decimal (upper_bound g)) in *.
  assert ((exists n : nat, u = Z.of_nat n * ONE) \/ u = MAX) as Hu.
  { pose proof (wf_upper _ _ Hg). subst u. destruct (upper_bound g) as [a|]; [|by right]. left. cbn in *.
    apply is_whole_spec in Hwu; [naive_solver|]. split; [|done]. etransitivity; [|done]. done. }
  destruct (least_ids_spec (lower_bound g) u (wf_lower _ _ Hg)) as [Hll Hle]; [lia|done|].
  specialize (Hle Hu Hlu). set (n := Nat.max (least_ids (lower_bound g)) (length (required_ids g))).
  destruct (pick_ids (required_ids g) (allowed_ids g) n) as (ids & Hnd & Hlen & Hr & Hal).
  - apply Hg.
  - apply Hg.
  - lia.
  - destruct (allowed_ids g) as [l|]; [|done]. destruct Ha as [Hl Hs]. split; [done|].
    destruct (least_ids_spec (lower_bound g) (decimal_of_len l) (wf_lower _ _ Hg)) as [_ Hle']; [lia|done|].
    pose proof (set_length_le _ _ (wf_required _ _ Hg) Hs). unfold decimal_of_len in Hle' at 2.
    pose proof ONE_pos. assert (Z.of_nat (least_ids (lower_bound g)) * ONE <= Z.of_nat (length l) * ONE); [|nia].
    apply Hle'; [left; by eexists|done].
  - exists (mk_balance (decimal_of_len ids) ids).
    assert (decimal_of_len ids <= u). { unfold decimal_of_len in *. rewrite Hlen. unfold n. pose proof ONE_pos. nia. }
    split.
    + split_and!; cbn; [apply decimal_of_len_nonneg|lia|done|done].
    + constructor; cbn; [apply lower_equivalent|by apply upper_equivalent; [lia|]|done|done].
      unfold decimal_of_len. rewrite Hlen. unfold n. pose proof ONE_pos. nia.
Qed.
End ConstraintLemmas.

Module ConstraintTheorems.
Import ConstraintLemmas.

(** The constraints that the code accepts for a resource are well formed, but
    for the documented rule that a fungible constraint with an allowlist, which
    must be empty, has the upper bound zero: the code does not check it. *)
Lemma checked_wf (f : bool) (g : GeneralResourceConstraint) :
  (if f then general_valid_for_fungible g else general_valid_for_non_fungible g) = true ->
  NoDup (required_ids g) -> allowed_ok (allowed_ids g) ->
  (f = true -> forall l, allowed_ids g = Allowlist l -> upper_bound g = upper_zero) ->
  general_wf f g /\ is_valid_independent_of_resource_type g = true.
Proof.
  intros Hc Hr Ha Hdoc. destruct f.
  - unfold general_valid_for_fungible in Hc. apply andb_prop in Hc as [[[[Hq Hl]%andb_prop Hu]%andb_prop Hal]%andb_prop Hi].
    apply bool_decide_eq_true in Hq. split; [|exact Hi]. split; [done| | |done|].
    + destruct (lower_bound g); [done|]. cbn in *. unfold is_negative in Hl. lia.
    + destruct (upper_bound g); [|done]. cbn in *. unfold is_negative in Hu. lia.
    + intros _. split; [done|]. specialize (Hdoc eq_refl). destruct (allowed_ids g) as [l|]; [|done].
      split; [|by eapply Hdoc]. cbn in Hal. by destruct l.
  - unfold general_valid_for_non_fungible in Hc. apply andb_prop in Hc as [[Hl Hu]%andb_prop Hi].
    split; [|exact Hi]. split; [done| | |done|done].
    + destruct (lower_bound g); [done|]. cbn in *. unfold is_whole_non_negative, is_negative in Hl. lia.
    + destruct (upper_bound g); [|done]. cbn in *. unfold is_whole_non_negative, is_negative in Hu. lia.
Qed.

(** C35. Normalization is exact: on a constraint that passes the code's checks
    of validity for the kind of the resource, it keeps the set of balances that
    satisfy the constraint, and reaches the canonical form of the documentation:
    the number of required ids, the bounds and the size of the allowlist are in
    order, and the ids are exact as soon as the numbers make them so.  The
    conditions: id sets hold no id twice and the required ids are counted in 64
    bits; and an allowlist on a fungible resource goes with the upper bound zero,
    as the documentation asks and the code does not check: without it the
    normalized upper bound is wrong (fungible_empty_allowlist). *)
Theorem normalize_exact (f : bool) (g : GeneralResourceConstraint)
    (Hvalid : (if f then general_valid_for_fungible g else general_valid_for_non_fungible g) = true)
    (Hrequired : NoDup (required_ids g)) (Hallowed : allowed_ok (allowed_ids g))
    (Hdocumented : f = true -> forall l, allowed_ids g = Allowlist l -> upper_bound g = upper_zero)
    (Hlen : Z.of_nat (length (required_ids g)) < u_max 64) :
  (forall b, balance_ok f b -> sat (normalize g) b <-> sat g b) /\ canonical (normalize g).
Proof.
  destruct (checked_wf f g) as [Hg Hv]; [done..|].
  pose proof (normalize_numeric_ordered f g Hg Hv) as Ho. split.
  - intros b Hb. split; [|by eapply normalize_sound].
    intros Hs%normalize_ids_complete; [|done]. by eapply normalize_numeric_sat.
  - eapply normalize_ids_canonical; [by apply normalize_numeric_wf|done|].
    unfold normalize_numeric. repeat case_match; exact Hlen.
Qed.

Lemma normalize_exact_witness :
  let g := mk_general [IdInteger 1] NonZero Unbounded (Allowlist [IdInteger 1; IdInteger 2]) in
  normalize g = mk_general [IdInteger 1] (LowerInclusive ONE) (UpperInclusive (2 * ONE))
                  (Allowlist [IdInteger 1; IdInteger 2]) /\
  canonical (normalize g).
Proof.
  intros g. split; [reflexivity|].
  apply (normalize_exact false g); [reflexivity| | |discriminate|reflexivity]; cbn; (repeat constructor); set_solver.
Defined.

(** The check of validity is exact: the bounds of a constraint pass it
    if and only if some balance of the resource satisfies the constraint (for a
    non-fungible resource with whole bounds, the only ones it may have). *)
Theorem valid_iff_satisfiable (f : bool) (g : GeneralResourceConstraint) (Hg : general_wf f g)
    (Hdec : upper_equivalent_decimal (upper_bound g) <= MAX)
    (Hwhole : f = false -> lower_valid_for_non_fungible (lower_bound g) = true /\
                          upper_valid_for_non_fungible (upper_bound g) = true) :
  is_valid_independent_of_resource_type g = true <-> exists b, balance_ok f b /\ sat g b.
Proof.
  split; [|intros (b & Hb & Hs); by eapply sat_valid].
  intros Hv. pose proof Hv as (Hlu & Hru & Ha)%valid_independent_spec. destruct f.
  - exists (mk_balance (lower_equivalent_decimal (lower_bound g)) []).
    destruct (wf_fungible _ _ Hg eq_refl) as [Hr Hal]. pose proof (wf_lower _ _ Hg) as Hlo. split.
    + split_and!; cbn; [destruct (lower_bound g); cbn in *; lia|lia|constructor|done].
    + constructor; cbn; [by apply lower_equivalent|by apply upper_equivalent; [lia|]|by rewrite Hr|].
      destruct (allowed_ids g); [set_solver|done].
  - destruct (Hwhole eq_refl) as [Hwl Hwu]. by eapply satisfiable_ids.
Qed.

Lemma valid_iff_satisfiable_witness :
  let g := mk_general [IdInteger 1] NonZero (UpperInclusive (3 * ONE)) (Allowlist [IdInteger 1; IdInteger 2]) in
  is_valid_independent_of_resource_type g = true /\ exists b, balance_ok false b /\ sat g b.
Proof.
  intros g. split; [reflexivity|].
  apply (valid_iff_satisfiable false g); [|vm_compute; congruence|done|reflexivity].
  constructor; cbn; try done; (repeat constructor); set_solver.
Defined.

(** A fungible constraint with an empty allowlist passes the check of validity
    whatever its upper bound is; at runtime the allowlist is ignored, but
    normalization lowers the upper bound to zero, so the static analysis takes
    the balance for zero. *)
Example fungible_empty_allowlist :
  let g := mk_general [] lower_zero (UpperInclusive (10 * ONE)) (Allowlist []) in
  general_valid_for_fungible g = true /\ general_validate_fungible g (5 * ONE) = Ok tt /\
  upper_bound (normalize g) = upper_zero.
Proof. vm_compute. done. Qed.
End ConstraintTheorems.
