(* ===== verification/ManifestInstructions.v ===== *)
(** * Manifest instructions

    The instructions of a transaction manifest
    (radix-transactions/src/manifest/manifest_instructions.rs, with the enum of
    model/v2/instruction_v2.rs) and their effects
    (manifest_instruction_effects.rs), the grouped view that the static analyses
    of manifests read.  Node ids, hashes and names are lists of bytes. *)

From S2P Require Import Authorization.
From S2P Require Import Prelude Decimals Sbor SborCustom ResourceConstraints.
Import Manifest(ManifestValue).

Abbreviation NodeAddress := (list Z) (only parsing).
Abbreviation Name := (list Z) (only parsing).

(** [ManifestGlobalAddress] and [ManifestPackageAddress]. *)
Inductive DynamicAddress : Type :=
| StaticAddress (address : NodeAddress)
| NamedAddress (id : Z).

(** ** Effects *)

Inductive InvocationKind : Type :=
| MethodInvocation (address : DynamicAddress) (module_id : ModuleId) (method : Name)
| FunctionInvocation (address : DynamicAddress) (blueprint function : Name)
| DirectMethodInvocation (address : NodeAddress) (method : Name)
| YieldToParentInvocation
| YieldToChildInvocation (child_index : Z).

Inductive VerificationKind : Type := VerificationParent.

Inductive BucketSourceAmount : Type :=
| AllOnWorktop (resource_address : NodeAddress)
| AmountFromWorktop (resource_address : NodeAddress) (amount : Decimal)
| NonFungiblesFromWorktop (resource_address : NodeAddress) (ids : Ids).

Definition source_resource_address (s : BucketSourceAmount) : NodeAddress :=
  match s with
  | AllOnWorktop resource_address | AmountFromWorktop resource_address _
  | NonFungiblesFromWorktop resource_address _ => resource_address
  end.

Inductive ProofSourceAmount : Type :=
| AuthZonePopLastAddedProof
| AuthZoneAllOf (resource_address : NodeAddress)
| AuthZoneAmount (resource_address : NodeAddress) (amount : Decimal)
| AuthZoneNonFungibles (resource_address : NodeAddress) (ids : Ids)
| BucketAllOf (bucket : Z)
| BucketAmount (bucket : Z) (amount : Decimal)
| BucketNonFungibles (bucket : Z) (ids : Ids).

Inductive ProofKind : Type :=
| BucketProof (bucket : Z)
| AuthZoneProof.

Definition proof_kind (s : ProofSourceAmount) : ProofKind :=
  match s with
  | AuthZonePopLastAddedProof | AuthZoneAllOf _ | AuthZoneAmount _ _ | AuthZoneNonFungibles _ _ => AuthZoneProof
  | BucketAllOf bucket | BucketAmount bucket _ | BucketNonFungibles bucket _ => BucketProof bucket
  end.

Inductive BucketDestination : Type :=
| WorktopDestination
| BurnedDestination
| BucketToInvocation (kind : InvocationKind).

Inductive ProofDestination : Type :=
| AuthZoneDestination
| DropDestination
| ProofToInvocation (kind : InvocationKind).

Inductive WorktopAssertion : Type :=
| ResourceNonZeroAmount (resource_address : NodeAddress)
| ResourceAtLeastAmount (resource_address : NodeAddress) (amount : Decimal)
| ResourceAtLeastNonFungibles (resource_address : NodeAddress) (ids : Ids)
| ResourcesOnly (constraints : ManifestResourceConstraints)
| ResourcesInclude (constraints : ManifestResourceConstraints).

Inductive NextCallAssertion : Type :=
| ReturnsOnly (constraints : ManifestResourceConstraints)
| ReturnsInclude (constraints : ManifestResourceConstraints).

Inductive BucketAssertion : Type :=
| BucketContents (bucket : Z) (constraint : ManifestResourceConstraint).

Inductive ResourceAssertion : Type :=
| AssertWorktop (assertion : WorktopAssertion)
| AssertNextCall (assertion : NextCallAssertion)
| AssertBucket (assertion : BucketAssertion).

Inductive ManifestInstructionEffect : Type :=
| CreateBucket (source_amount : BucketSourceAmount)
| CreateProof (source_amount : ProofSourceAmount)
| ConsumeBucket (consumed_bucket : Z) (destination : BucketDestination)
| ConsumeProof (consumed_proof : Z) (destination : ProofDestination)
| CloneProofEffect (cloned_proof : Z)
| DropManyProofs (drop_all_named_proofs drop_all_authzone_signature_proofs
                  drop_all_authzone_non_signature_proofs : bool)
| Invocation (kind : InvocationKind) (args : ManifestValue)
| CreateAddressAndReservation (package_address : NodeAddress) (blueprint_name : Name)
| ResourceAssertionEffect (assertion : ResourceAssertion)
| Verification (verification : VerificationKind) (access_rule : AccessRule).

(** ** Instructions *)

Inductive InstructionV2 : Type :=
| TakeFromWorktop (resource_address : NodeAddress) (amount : Decimal)
| TakeNonFungiblesFromWorktop (resource_address : NodeAddress) (ids : Ids)
| TakeAllFromWorktop (resource_address : NodeAddress)
| ReturnToWorktop (bucket_id : Z)
| BurnResource (bucket_id : Z)
| AssertWorktopContainsAny (resource_address : NodeAddress)
| AssertWorktopContains (resource_address : NodeAddress) (amount : Decimal)
| AssertWorktopContainsNonFungibles (resource_address : NodeAddress) (ids : Ids)
| AssertWorktopResourcesOnly (constraints : ManifestResourceConstraints)
| AssertWorktopResourcesInclude (constraints : ManifestResourceConstraints)
| AssertNextCallReturnsOnly (constraints : ManifestResourceConstraints)
| AssertNextCallReturnsInclude (constraints : ManifestResourceConstraints)
| AssertBucketContents (bucket_id : Z) (constraint : ManifestResourceConstraint)
| CreateProofFromBucketOfAmount (bucket_id : Z) (amount : Decimal)
| CreateProofFromBucketOfNonFungibles (bucket_id : Z) (ids : Ids)
| CreateProofFromBucketOfAll (bucket_id : Z)
| CreateProofFromAuthZoneOfAmount (resource_address : NodeAddress) (amount : Decimal)
| CreateProofFromAuthZoneOfNonFungibles (resource_address : NodeAddress) (ids : Ids)
| CreateProofFromAuthZoneOfAll (resource_address : NodeAddress)
| CloneProof (proof_id : Z)
| DropProof (proof_id : Z)
| PushToAuthZone (proof_id : Z)
| PopFromAuthZone
| DropAuthZoneProofs
| DropAuthZoneRegularProofs
| DropAuthZoneSignatureProofs
| DropNamedProofs
| DropAllProofs
| CallFunction (package_address : DynamicAddress) (blueprint_name function_name : Name) (args : ManifestValue)
| CallMethod (address : DynamicAddress) (method_name : Name) (args : ManifestValue)
| CallRoyaltyMethod (address : DynamicAddress) (method_name : Name) (args : ManifestValue)
| CallMetadataMethod (address : DynamicAddress) (method_name : Name) (args : ManifestValue)
| CallRoleAssignmentMethod (address : DynamicAddress) (method_name : Name) (args : ManifestValue)
| CallDirectVaultMethod (address : NodeAddress) (method_name : Name) (args : ManifestValue)
| AllocateGlobalAddress (package_address : NodeAddress) (blueprint_name : Name)
| YieldToParent (args : ManifestValue)
| YieldToChild (child_index : Z) (args : ManifestValue)
| VerifyParent (access_rule : AccessRule).

(** The effect of each instruction, [ManifestInstruction::effect]. *)
Definition effect_TakeFromWorktop (resource_address : NodeAddress) (amount : Decimal) :=
  CreateBucket (AmountFromWorktop resource_address amount).
Definition effect_TakeNonFungiblesFromWorktop (resource_address : NodeAddress) (ids : Ids) :=
  CreateBucket (NonFungiblesFromWorktop resource_address ids).
Definition effect_TakeAllFromWorktop (resource_address : NodeAddress) :=
  CreateBucket (AllOnWorktop resource_address).
Definition effect_ReturnToWorktop (bucket_id : Z) :=
  ConsumeBucket bucket_id WorktopDestination.
Definition effect_BurnResource (bucket_id : Z) :=
  ConsumeBucket bucket_id BurnedDestination.
Definition effect_AssertWorktopContainsAny (resource_address : NodeAddress) :=
  ResourceAssertionEffect (AssertWorktop (ResourceNonZeroAmount resource_address)).
Definition effect_AssertWorktopContains (resource_address : NodeAddress) (amount : Decimal) :=
  ResourceAssertionEffect (AssertWorktop (ResourceAtLeastAmount resource_address amount)).
Definition effect_AssertWorktopContainsNonFungibles (resource_address : NodeAddress) (ids : Ids) :=
  ResourceAssertionEffect (AssertWorktop (ResourceAtLeastNonFungibles resource_address ids)).
Definition effect_AssertWorktopResourcesOnly (constraints : ManifestResourceConstraints) :=
  ResourceAssertionEffect (AssertWorktop (ResourcesOnly constraints)).
Definition effect_AssertWorktopResourcesInclude (constraints : ManifestResourceConstraints) :=
  ResourceAssertionEffect (AssertWorktop (ResourcesInclude constraints)).
Definition effect_AssertNextCallReturnsOnly (constraints : ManifestResourceConstraints) :=
  ResourceAssertionEffect (AssertNextCall (ReturnsOnly constraints)).
Definition effect_AssertNextCallReturnsInclude (constraints : ManifestResourceConstraints) :=
  ResourceAssertionEffect (AssertNextCall (ReturnsInclude constraints)).
Definition effect_AssertBucketContents (bucket_id : Z) (constraint : ManifestResourceConstraint) :=
  ResourceAssertionEffect (AssertBucket (BucketContents bucket_id constraint)).
Definition effect_CreateProofFromBucketOfAmount (bucket_id : Z) (amount : Decimal) :=
  CreateProof (BucketAmount bucket_id amount).
Definition effect_CreateProofFromBucketOfNonFungibles (bucket_id : Z) (ids : Ids) :=
  CreateProof (BucketNonFungibles bucket_id ids).
Definition effect_CreateProofFromBucketOfAll (bucket_id : Z) :=
  CreateProof (BucketAllOf bucket_id).
Definition effect_CreateProofFromAuthZoneOfAmount (resource_address : NodeAddress) (amount : Decimal) :=
  CreateProof (AuthZoneAmount resource_address amount).
Definition effect_CreateProofFromAuthZoneOfNonFungibles (resource_address : NodeAddress) (ids : Ids) :=
  CreateProof (AuthZoneNonFungibles resource_address ids).
Definition effect_CreateProofFromAuthZoneOfAll (resource_address : NodeAddress) :=
  CreateProof (AuthZoneAllOf resource_address).
Definition effect_CloneProof (proof_id : Z) :=
  CloneProofEffect proof_id.
Definition effect_DropProof (proof_id : Z) :=
  ConsumeProof proof_id DropDestination.
Definition effect_PushToAuthZone (proof_id : Z) :=
  ConsumeProof proof_id AuthZoneDestination.
Definition effect_PopFromAuthZone :=
  CreateProof AuthZonePopLastAddedProof.
Definition effect_DropAuthZoneProofs :=
  DropManyProofs false true true.
Definition effect_DropAuthZoneRegularProofs :=
  DropManyProofs false false true.
Definition effect_DropAuthZoneSignatureProofs :=
  DropManyProofs false true false.
Definition effect_DropNamedProofs :=
  DropManyProofs true false false.
Definition effect_DropAllProofs :=
  DropManyProofs true true true.
Definition effect_CallFunction (package_address : DynamicAddress) (blueprint_name function_name : Name) (args : ManifestValue) :=
  Invocation (FunctionInvocation package_address blueprint_name function_name) args.
Definition effect_CallMethod (address : DynamicAddress) (method_name : Name) (args : ManifestValue) :=
  Invocation (MethodInvocation address MainModule method_name) args.
Definition effect_CallRoyaltyMethod (address : DynamicAddress) (method_name : Name) (args : ManifestValue) :=
  Invocation (MethodInvocation address RoyaltyModule method_name) args.
Definition effect_CallMetadataMethod (address : DynamicAddress) (method_name : Name) (args : ManifestValue) :=
  Invocation (MethodInvocation address MetadataModule method_name) args.
Definition effect_CallRoleAssignmentMethod (address : DynamicAddress) (method_name : Name) (args : ManifestValue) :=
  Invocation (MethodInvocation address RoleAssignmentModule method_name) args.
Definition effect_CallDirectVaultMethod (address : NodeAddress) (method_name : Name) (args : ManifestValue) :=
  Invocation (DirectMethodInvocation address method_name) args.
Definition effect_AllocateGlobalAddress (package_address : NodeAddress) (blueprint_name : Name) :=
  CreateAddressAndReservation package_address blueprint_name.
Definition effect_YieldToParent (args : ManifestValue) :=
  Invocation YieldToParentInvocation args.
Definition effect_YieldToChild (child_index : Z) (args : ManifestValue) :=
  Invocation (YieldToChildInvocation child_index) args.
Definition effect_VerifyParent (access_rule : AccessRule) :=
  Verification VerificationParent access_rule.

Definition effect (i : InstructionV2) : ManifestInstructionEffect :=
  match i with
  | TakeFromWorktop resource_address amount => effect_TakeFromWorktop resource_address amount
  | TakeNonFungiblesFromWorktop resource_address ids => effect_TakeNonFungiblesFromWorktop resource_address ids
  | TakeAllFromWorktop resource_address => effect_TakeAllFromWorktop resource_address
  | ReturnToWorktop bucket_id => effect_ReturnToWorktop bucket_id
  | BurnResource bucket_id => effect_BurnResource bucket_id
  | AssertWorktopContainsAny resource_address => effect_AssertWorktopContainsAny resource_address
  | AssertWorktopContains resource_address amount => effect_AssertWorktopContains resource_address amount
  | AssertWorktopContainsNonFungibles resource_address ids => effect_AssertWorktopContainsNonFungibles resource_address ids
  | AssertWorktopResourcesOnly constraints => effect_AssertWorktopResourcesOnly constraints
  | AssertWorktopResourcesInclude constraints => effect_AssertWorktopResourcesInclude constraints
  | AssertNextCallReturnsOnly constraints => effect_AssertNextCallReturnsOnly constraints
  | AssertNextCallReturnsInclude constraints => effect_AssertNextCallReturnsInclude constraints
  | AssertBucketContents bucket_id constraint => effect_AssertBucketContents bucket_id constraint
  | CreateProofFromBucketOfAmount bucket_id amount => effect_CreateProofFromBucketOfAmount bucket_id amount
  | CreateProofFromBucketOfNonFungibles bucket_id ids => effect_CreateProofFromBucketOfNonFungibles bucket_id ids
  | CreateProofFromBucketOfAll bucket_id => effect_CreateProofFromBucketOfAll bucket_id
  | CreateProofFromAuthZoneOfAmount resource_address amount => effect_CreateProofFromAuthZoneOfAmount resource_address amount
  | CreateProofFromAuthZoneOfNonFungibles resource_address ids => effect_CreateProofFromAuthZoneOfNonFungibles resource_address ids
  | CreateProofFromAuthZoneOfAll resource_address => effect_CreateProofFromAuthZoneOfAll resource_address
  | CloneProof proof_id => effect_CloneProof proof_id
  | DropProof proof_id => effect_DropProof proof_id
  | PushToAuthZone proof_id => effect_PushToAuthZone proof_id
  | PopFromAuthZone => effect_PopFromAuthZone
  | DropAuthZoneProofs => effect_DropAuthZoneProofs
  | DropAuthZoneRegularProofs => effect_DropAuthZoneRegularProofs
  | DropAuthZoneSignatureProofs => effect_DropAuthZoneSignatureProofs
  | DropNamedProofs => effect_DropNamedProofs
  | DropAllProofs => effect_DropAllProofs
  | CallFunction package_address blueprint_name function_name args => effect_CallFunction package_address blueprint_name function_name args
  | CallMethod address method_name args => effect_CallMethod address method_name args
  | CallRoyaltyMethod address method_name args => effect_CallRoyaltyMethod address method_name args
  | CallMetadataMethod address method_name args => effect_CallMetadataMethod address method_name args
  | CallRoleAssignmentMethod address method_name args => effect_CallRoleAssignmentMethod address method_name args
  | CallDirectVaultMethod address method_name args => effect_CallDirectVaultMethod address method_name args
  | AllocateGlobalAddress package_address blueprint_name => effect_AllocateGlobalAddress package_address blueprint_name
  | YieldToParent args => effect_YieldToParent args
  | YieldToChild child_index args => effect_YieldToChild child_index args
  | VerifyParent access_rule => effect_VerifyParent access_rule
  end.

(** ** Manifests

    What the traits [ReadableManifestBase] and [ReadableManifest] read of a
    manifest; the names of its objects, which only appear in messages, are left
    out. *)

Record PreAllocatedAddress : Type := mk_preallocated {
  pre_package_address : NodeAddress;
  pre_blueprint_name : Name;
  pre_address : NodeAddress
}.

Record Manifest : Type := mk_manifest {
  is_subintent : bool;
  get_blobs : list (list Z * list Z);
  get_preallocated_addresses : list PreAllocatedAddress;
  get_child_subintent_hashes : list (list Z);
  instructions : list InstructionV2
}.

Definition iter_instruction_effects (m : Manifest) : list ManifestInstructionEffect := map effect (instructions m).
Definition instruction_count (m : Manifest) : Z := Z.of_nat (length (instructions m)).
Definition instruction_effect (m : Manifest) (index : Z) : Exec ManifestInstructionEffect :=
  expect (effect <$> instructions m !! Z.to_nat index).
