(* ===== verification/NativeInvocations.v ===== *)
(** * Typed invocations of native blueprints

    What the static analysis of a manifest knows about the calls it makes: the
    well-known addresses (radix-common/src/constants/native_addresses.rs), the
    blueprint behind an address (radix-engine-interface/src/blueprints/utils.rs),
    and the tables that give each function, method and direct method of a native
    blueprint its type of arguments
    (radix-transactions/src/manifest/static_resource_movements/typed_invocation.rs).
    The types of arguments are sorted by what effect.rs says of them: those whose
    invocation returns no resources, those whose output is unknown, and those
    with an output of their own, of which the fields that decide what the call
    returns are kept. *)

From S2P Require Import Resource Authorization.
From S2P Require Import Prelude Decimals Bytes SborCustom Text ResourceConstraints ManifestInstructions.
Import Int Dec Str(lit).
Import Manifest(ManifestValue).

(** ** Addresses *)

Definition RORK : NodeAddress :=
  [93; 166; 99; 24; 198; 49; 140; 97; 245; 166; 27; 76; 99; 24; 198; 49; 140; 247; 148; 170; 141; 41; 95; 20; 230;
  49; 140; 99; 24; 198].
Definition PACKAGE_OWNER_BADGE : NodeAddress :=
  [154; 76; 99; 24; 198; 49; 140; 96; 217; 14; 152; 204; 99; 24; 198; 49; 140; 247; 170; 148; 61; 41; 26; 62; 134;
  49; 140; 99; 24; 198].
Definition VALIDATOR_OWNER_BADGE : NodeAddress :=
  [154; 76; 99; 24; 198; 49; 140; 102; 52; 110; 152; 204; 99; 24; 198; 49; 140; 247; 214; 58; 162; 169; 19; 198;
  166; 49; 140; 99; 24; 198].
Definition ACCOUNT_OWNER_BADGE : NodeAddress :=
  [154; 76; 99; 24; 198; 49; 140; 110; 227; 14; 152; 204; 99; 24; 198; 49; 140; 247; 235; 90; 171; 212; 167; 233;
  70; 49; 140; 99; 24; 198].
Definition IDENTITY_OWNER_BADGE : NodeAddress :=
  [154; 76; 99; 24; 198; 49; 140; 102; 205; 110; 152; 204; 99; 24; 198; 49; 140; 247; 168; 254; 213; 107; 82; 168;
  230; 49; 140; 99; 24; 198].
Definition PACKAGE_PACKAGE : NodeAddress :=
  [13; 144; 99; 24; 198; 49; 140; 96; 247; 22; 70; 76; 99; 24; 198; 49; 140; 247; 191; 202; 214; 163; 21; 43; 70;
  49; 140; 99; 24; 198].
Definition RESOURCE_PACKAGE : NodeAddress :=
  [13; 144; 99; 24; 198; 49; 140; 97; 230; 3; 198; 76; 99; 24; 198; 49; 140; 247; 190; 145; 61; 99; 170; 251; 198;
  49; 140; 99; 24; 198].
Definition ACCOUNT_PACKAGE : NodeAddress :=
  [13; 144; 99; 24; 198; 49; 140; 110; 227; 19; 89; 140; 99; 24; 198; 49; 140; 247; 188; 170; 46; 149; 74; 150; 38;
  49; 140; 99; 24; 198].
Definition IDENTITY_PACKAGE : NodeAddress :=
  [13; 144; 99; 24; 198; 49; 140; 102; 205; 100; 49; 140; 99; 24; 198; 49; 140; 247; 158; 154; 127; 143; 23; 156;
  166; 49; 140; 99; 24; 198].
Definition CONSENSUS_MANAGER_PACKAGE : NodeAddress :=
  [13; 144; 99; 24; 198; 49; 140; 108; 78; 27; 64; 204; 99; 24; 198; 49; 140; 247; 191; 213; 212; 95; 72; 198; 134;
  49; 140; 99; 24; 198].
Definition ACCESS_CONTROLLER_PACKAGE : NodeAddress :=
  [13; 144; 99; 24; 198; 49; 140; 108; 77; 99; 248; 204; 99; 24; 198; 49; 140; 247; 191; 85; 61; 60; 165; 22; 134;
  49; 140; 99; 24; 198].
Definition POOL_PACKAGE : NodeAddress :=
  [13; 144; 99; 24; 198; 49; 140; 96; 252; 198; 49; 140; 99; 24; 198; 49; 140; 245; 62; 62; 42; 148; 250; 42; 166;
  49; 140; 99; 24; 198].
Definition METADATA_MODULE_PACKAGE : NodeAddress :=
  [13; 144; 99; 24; 198; 49; 140; 109; 173; 189; 95; 76; 99; 24; 198; 49; 140; 247; 209; 85; 213; 61; 229; 104; 166;
  49; 140; 99; 24; 198].
Definition ROYALTY_MODULE_PACKAGE : NodeAddress :=
  [13; 144; 99; 24; 198; 49; 140; 97; 147; 191; 89; 12; 99; 24; 198; 49; 140; 247; 196; 245; 45; 61; 24; 151; 70;
  49; 140; 99; 24; 198].
Definition ROLE_ASSIGNMENT_MODULE_PACKAGE : NodeAddress :=
  [13; 144; 99; 24; 198; 49; 140; 110; 143; 159; 204; 12; 99; 24; 198; 49; 140; 247; 170; 47; 173; 116; 162; 158;
  38; 49; 140; 99; 24; 198].
Definition TRANSACTION_TRACKER_PACKAGE : NodeAddress :=
  [13; 144; 99; 24; 198; 49; 140; 101; 153; 99; 237; 140; 99; 24; 198; 49; 140; 247; 190; 133; 161; 125; 72; 188;
  166; 49; 140; 99; 24; 198].
Definition LOCKER_PACKAGE : NodeAddress :=
  [13; 144; 99; 24; 198; 49; 140; 111; 226; 217; 25; 140; 99; 24; 198; 49; 140; 247; 189; 79; 59; 245; 85; 87; 198;
  49; 140; 99; 24; 198].

(** ** Blueprints *)

Record BlueprintId : Type := mk_blueprint_id {
  package_address : NodeAddress;
  blueprint_name : Name
}.
#[export] Instance BlueprintId_eq_dec : EqDecision BlueprintId.
Proof. solve_decision. Defined.

Definition PACKAGE_BLUEPRINT_ID : BlueprintId := mk_blueprint_id PACKAGE_PACKAGE (lit "Package").
Definition CONSENSUS_MANAGER_BLUEPRINT_ID : BlueprintId := mk_blueprint_id CONSENSUS_MANAGER_PACKAGE (lit "ConsensusManager").
Definition VALIDATOR_BLUEPRINT_ID : BlueprintId := mk_blueprint_id CONSENSUS_MANAGER_PACKAGE (lit "Validator").
Definition TRANSACTION_TRACKER_BLUEPRINT_ID : BlueprintId := mk_blueprint_id TRANSACTION_TRACKER_PACKAGE (lit "TransactionTracker").
Definition ACCOUNT_BLUEPRINT_ID : BlueprintId := mk_blueprint_id ACCOUNT_PACKAGE (lit "Account").
Definition IDENTITY_BLUEPRINT_ID : BlueprintId := mk_blueprint_id IDENTITY_PACKAGE (lit "Identity").
Definition ACCESS_CONTROLLER_BLUEPRINT_ID : BlueprintId := mk_blueprint_id ACCESS_CONTROLLER_PACKAGE (lit "AccessController").
Definition ONE_RESOURCE_POOL_BLUEPRINT_ID : BlueprintId := mk_blueprint_id POOL_PACKAGE (lit "OneResourcePool").
Definition TWO_RESOURCE_POOL_BLUEPRINT_ID : BlueprintId := mk_blueprint_id POOL_PACKAGE (lit "TwoResourcePool").
Definition MULTI_RESOURCE_POOL_BLUEPRINT_ID : BlueprintId := mk_blueprint_id POOL_PACKAGE (lit "MultiResourcePool").
Definition ACCOUNT_LOCKER_BLUEPRINT_ID : BlueprintId := mk_blueprint_id LOCKER_PACKAGE (lit "AccountLocker").
Definition FUNGIBLE_RESOURCE_MANAGER_BLUEPRINT_ID : BlueprintId := mk_blueprint_id RESOURCE_PACKAGE (lit "FungibleResourceManager").
Definition NON_FUNGIBLE_RESOURCE_MANAGER_BLUEPRINT_ID : BlueprintId := mk_blueprint_id RESOURCE_PACKAGE (lit "NonFungibleResourceManager").
Definition FUNGIBLE_VAULT_BLUEPRINT_ID : BlueprintId := mk_blueprint_id RESOURCE_PACKAGE (lit "FungibleVault").
Definition NON_FUNGIBLE_VAULT_BLUEPRINT_ID : BlueprintId := mk_blueprint_id RESOURCE_PACKAGE (lit "NonFungibleVault").
Definition METADATA_BLUEPRINT_ID : BlueprintId := mk_blueprint_id METADATA_MODULE_PACKAGE (lit "Metadata").
Definition ROLE_ASSIGNMENT_BLUEPRINT_ID : BlueprintId := mk_blueprint_id ROLE_ASSIGNMENT_MODULE_PACKAGE (lit "RoleAssignment").
Definition ROYALTY_BLUEPRINT_ID : BlueprintId := mk_blueprint_id ROYALTY_MODULE_PACKAGE (lit "ComponentRoyalty").

Definition resolve_main_module_blueprint_id (entity_type : EntityType) : option BlueprintId :=
  match entity_type with
  | GlobalPackage => Some PACKAGE_BLUEPRINT_ID
  | GlobalConsensusManager => Some CONSENSUS_MANAGER_BLUEPRINT_ID
  | GlobalValidator => Some VALIDATOR_BLUEPRINT_ID
  | GlobalTransactionTracker => Some TRANSACTION_TRACKER_BLUEPRINT_ID
  | GlobalAccessController => Some ACCESS_CONTROLLER_BLUEPRINT_ID
  | GlobalOneResourcePool => Some ONE_RESOURCE_POOL_BLUEPRINT_ID
  | GlobalTwoResourcePool => Some TWO_RESOURCE_POOL_BLUEPRINT_ID
  | GlobalMultiResourcePool => Some MULTI_RESOURCE_POOL_BLUEPRINT_ID
  | GlobalAccountLocker => Some ACCOUNT_LOCKER_BLUEPRINT_ID
  | GlobalFungibleResourceManager => Some FUNGIBLE_RESOURCE_MANAGER_BLUEPRINT_ID
  | GlobalNonFungibleResourceManager => Some NON_FUNGIBLE_RESOURCE_MANAGER_BLUEPRINT_ID
  | InternalFungibleVault => Some FUNGIBLE_VAULT_BLUEPRINT_ID
  | InternalNonFungibleVault => Some NON_FUNGIBLE_VAULT_BLUEPRINT_ID
  | GlobalAccount | GlobalPreallocatedSecp256k1Account | GlobalPreallocatedEd25519Account => Some ACCOUNT_BLUEPRINT_ID
  | GlobalIdentity | GlobalPreallocatedSecp256k1Identity | GlobalPreallocatedEd25519Identity => Some IDENTITY_BLUEPRINT_ID
  | InternalGenericComponent | InternalKeyValueStore | GlobalGenericComponent => None
  end.

Definition resolve_invoked_blueprint_id (main_module_blueprint_id : BlueprintId) (module_id : ModuleId) : option BlueprintId :=
  match module_id with
  | MainModule => Some main_module_blueprint_id
  | MetadataModule => Some METADATA_BLUEPRINT_ID
  | RoyaltyModule => Some ROYALTY_BLUEPRINT_ID
  | RoleAssignmentModule => Some ROLE_ASSIGNMENT_BLUEPRINT_ID
  end.

Inductive ResolvedDynamicAddress : Type :=
| ResolvedStatic (address : NodeAddress)
| BlueprintResolvedFromNamedAddress (blueprint_id : BlueprintId).

(** [NodeId::entity_type] *)
Definition node_entity_type (address : NodeAddress) : option EntityType :=
  b ← head address; from_repr b.

Definition main_module_blueprint_id (self : ResolvedDynamicAddress) : option BlueprintId :=
  match self with
  | ResolvedStatic address => t ← node_entity_type address; resolve_main_module_blueprint_id t
  | BlueprintResolvedFromNamedAddress blueprint_id => Some blueprint_id
  end.

Definition invoked_blueprint_id (self : ResolvedDynamicAddress) (module_id : ModuleId) : option BlueprintId :=
  main ← main_module_blueprint_id self; resolve_invoked_blueprint_id main module_id.

(** ** Types of arguments *)

(** Invocations that return no resources. *)
Inductive NoOutputInput : Type :=
| AccessControllerCreate | AccessControllerCreateProof | AccessControllerInitiateRecoveryAsPrimary
| AccessControllerInitiateRecoveryAsRecovery | AccessControllerQuickConfirmPrimaryRoleRecoveryProposal
| AccessControllerQuickConfirmRecoveryRoleRecoveryProposal | AccessControllerTimedConfirmRecovery
| AccessControllerCancelPrimaryRoleRecoveryProposal | AccessControllerCancelRecoveryRoleRecoveryProposal
| AccessControllerLockPrimaryRole | AccessControllerUnlockPrimaryRole | AccessControllerStopTimedRecovery
| AccessControllerInitiateBadgeWithdrawAttemptAsPrimary | AccessControllerInitiateBadgeWithdrawAttemptAsRecovery
| AccessControllerCancelPrimaryRoleBadgeWithdrawAttempt | AccessControllerCancelRecoveryRoleBadgeWithdrawAttempt
| AccessControllerLockRecoveryFee | AccessControllerContributeRecoveryFee | AccountCreateAdvanced
| AccountLockFee | AccountLockContingentFee | AccountDeposit | AccountDepositBatch | AccountBurn
| AccountBurnNonFungibles | AccountCreateProofOfAmount | AccountCreateProofOfNonFungibles
| AccountSetDefaultDepositRule | AccountSetResourcePreference | AccountRemoveResourcePreference
| AccountTryDepositOrAbort | AccountTryDepositBatchOrAbort | AccountAddAuthorizedDepositor
| AccountRemoveAuthorizedDepositor | AccountBalance | AccountNonFungibleLocalIds | AccountHasNonFungible
| ConsensusManagerCreate | ConsensusManagerGetCurrentEpoch | ConsensusManagerStart
| ConsensusManagerGetCurrentTimeV1 | ConsensusManagerGetCurrentTimeV2 | ConsensusManagerCompareCurrentTimeV1
| ConsensusManagerCompareCurrentTimeV2 | ConsensusManagerNextRound | ValidatorRegister | ValidatorUnregister
| ValidatorUpdateKey | ValidatorUpdateFee | ValidatorUpdateAcceptDelegatedStake | ValidatorAcceptsDelegatedStake
| ValidatorTotalStakeXrdAmount | ValidatorTotalStakeUnitSupply | ValidatorGetRedemptionValue
| ValidatorSignalProtocolUpdateReadiness | ValidatorGetProtocolUpdateReadiness | ValidatorLockOwnerStakeUnits
| ValidatorStartUnlockOwnerStakeUnits | ValidatorApplyEmission | ValidatorApplyReward | IdentityCreateAdvanced
| AccountLockerInstantiate | AccountLockerStore | AccountLockerGetAmount | AccountLockerGetNonFungibleLocalIds
| PackagePublishWasmAdvanced | PackagePublishNative | OneResourcePoolInstantiate
| OneResourcePoolProtectedDeposit | OneResourcePoolGetRedemptionValue | OneResourcePoolGetVaultAmount
| TwoResourcePoolInstantiate | TwoResourcePoolProtectedDeposit | TwoResourcePoolGetRedemptionValue
| TwoResourcePoolGetVaultAmounts | MultiResourcePoolInstantiate | MultiResourcePoolProtectedDeposit
| MultiResourcePoolGetRedemptionValue | MultiResourcePoolGetVaultAmounts | ResourceManagerBurn
| ResourceManagerPackageBurn | ResourceManagerGetTotalSupply | ResourceManagerGetResourceType
| ResourceManagerCreateEmptyVault | ResourceManagerGetAmountForWithdrawal | ResourceManagerDropEmptyBucket
| FungibleResourceManagerCreate | NonFungibleResourceManagerCreate | NonFungibleResourceManagerGetNonFungible
| NonFungibleResourceManagerUpdateData | NonFungibleResourceManagerExists | VaultGetAmount | VaultFreeze
| VaultUnfreeze | VaultBurn | VaultPut | FungibleVaultLockFee | FungibleVaultCreateProofOfAmount
| FungibleVaultLockFungibleAmount | FungibleVaultUnlockFungibleAmount | NonFungibleVaultGetNonFungibleLocalIds
| NonFungibleVaultContainsNonFungible | NonFungibleVaultCreateProofOfNonFungibles
| NonFungibleVaultLockNonFungibles | NonFungibleVaultUnlockNonFungibles | NonFungibleVaultBurnNonFungibles
| TransactionTrackerCreate | MetadataCreate | MetadataCreateWithData | MetadataSet | MetadataLock | MetadataGet
| MetadataRemove | RoleAssignmentCreate | RoleAssignmentSetOwner | RoleAssignmentLockOwner | RoleAssignmentSet
| RoleAssignmentGet | RoleAssignmentGetOwnerRole | ComponentRoyaltyCreate | ComponentRoyaltySet
| ComponentRoyaltyLock.

(** Invocations whose output is unknown. *)
Inductive UnknownOutputInput : Type :=
| AccessControllerQuickConfirmPrimaryRoleBadgeWithdrawAttempt
| AccessControllerQuickConfirmRecoveryRoleBadgeWithdrawAttempt | AccessControllerMintRecoveryBadges
| ValidatorStakeAsOwner | ValidatorStake | ValidatorUnstake | ValidatorFinishUnlockOwnerStakeUnits
| AccountLockerInstantiateSimple | OneResourcePoolContribute | OneResourcePoolRedeem
| OneResourcePoolProtectedWithdraw | TwoResourcePoolContribute | TwoResourcePoolRedeem
| MultiResourcePoolContribute | MultiResourcePoolRedeem | FungibleResourceManagerCreateWithInitialSupply
| NonFungibleResourceManagerCreateWithInitialSupply | NonFungibleResourceManagerCreateRuidWithInitialSupply
| VaultTake | VaultTakeAdvanced | VaultRecall | NonFungibleVaultTakeNonFungibles
| NonFungibleVaultRecallNonFungibles.

(** The modifier [no_resource_inputs_returned]. *)
Definition no_resource_inputs_returned (i : UnknownOutputInput) : bool :=
  match i with
  | ValidatorStakeAsOwner | ValidatorStake | ValidatorUnstake | ValidatorFinishUnlockOwnerStakeUnits |
  OneResourcePoolContribute | OneResourcePoolRedeem | TwoResourcePoolRedeem | MultiResourcePoolRedeem => true
  | _ => false
  end.

(** Invocations with an output of their own. *)
Inductive KnownOutputInput : Type :=
| AccessControllerWithdrawRecoveryFeeInput | AccountCreateInput | AccountSecurifyInput | AccountWithdrawInput
| AccountWithdrawNonFungiblesInput | AccountLockFeeAndWithdrawInput | AccountLockFeeAndWithdrawNonFungiblesInput
| AccountTryDepositOrRefundInput | AccountTryDepositBatchOrRefundInput | ConsensusManagerCreateValidatorInput
| ValidatorClaimXrdInput | IdentityCreateInput | IdentitySecurifyToSingleBadgeInput | AccountLockerAirdropInput
| AccountLockerRecoverInput | AccountLockerRecoverNonFungiblesInput | AccountLockerClaimInput
| AccountLockerClaimNonFungiblesInput | PackagePublishWasmInput | PackageClaimRoyaltiesInput
| TwoResourcePoolProtectedWithdrawInput | MultiResourcePoolProtectedWithdrawInput
| FungibleResourceManagerMintInput | ResourceManagerCreateEmptyBucketInput | NonFungibleResourceManagerMintInput
| NonFungibleResourceManagerMintRuidInput | NonFungibleResourceManagerMintSingleRuidInput
| ComponentClaimRoyaltiesInput.

Inductive InputType : Type :=
| NoOutput (i : NoOutputInput)
| UnknownOutput (i : UnknownOutputInput)
| KnownOutput (i : KnownOutputInput).

(** ** Decoded invocations *)

Inductive TypedManifestNativeInvocation : Type :=
| NoOutputInvocation (i : NoOutputInput)
| UnknownOutputInvocation (i : UnknownOutputInput)
| AccessControllerWithdrawRecoveryFee (amount : Decimal)
| AccountCreate
| AccountSecurify
| AccountWithdraw (resource_address : DynamicAddress) (amount : Decimal)
| AccountWithdrawNonFungibles (resource_address : DynamicAddress) (ids : Ids)
| AccountLockFeeAndWithdraw (resource_address : DynamicAddress) (amount : Decimal)
| AccountLockFeeAndWithdrawNonFungibles (resource_address : DynamicAddress) (ids : Ids)
| AccountTryDepositOrRefund
| AccountTryDepositBatchOrRefund
| ConsensusManagerCreateValidator
| ValidatorClaimXrd
| IdentityCreate
| IdentitySecurifyToSingleBadge
| AccountLockerAirdrop
| AccountLockerRecover (resource_address : DynamicAddress) (amount : Decimal)
| AccountLockerRecoverNonFungibles (resource_address : DynamicAddress) (ids : Ids)
| AccountLockerClaim (resource_address : DynamicAddress) (amount : Decimal)
| AccountLockerClaimNonFungibles (resource_address : DynamicAddress) (ids : Ids)
| PackagePublishWasm
| PackageClaimRoyalties
| TwoResourcePoolProtectedWithdraw (resource_address : DynamicAddress) (amount : Decimal) (withdraw_strategy : WithdrawStrategy)
| MultiResourcePoolProtectedWithdraw (resource_address : DynamicAddress) (amount : Decimal) (withdraw_strategy : WithdrawStrategy)
| FungibleResourceManagerMint (amount : Decimal)
| ResourceManagerCreateEmptyBucket
| NonFungibleResourceManagerMint (entry_keys : Ids)
| NonFungibleResourceManagerMintRuid (entry_count : Z)
| NonFungibleResourceManagerMintSingleRuid
| ComponentClaimRoyalties.

Definition input_type (v : TypedManifestNativeInvocation) : InputType :=
  match v with
  | NoOutputInvocation i => NoOutput i
  | UnknownOutputInvocation i => UnknownOutput i
  | AccessControllerWithdrawRecoveryFee _ => KnownOutput AccessControllerWithdrawRecoveryFeeInput
  | AccountCreate => KnownOutput AccountCreateInput
  | AccountSecurify => KnownOutput AccountSecurifyInput
  | AccountWithdraw _ _ => KnownOutput AccountWithdrawInput
  | AccountWithdrawNonFungibles _ _ => KnownOutput AccountWithdrawNonFungiblesInput
  | AccountLockFeeAndWithdraw _ _ => KnownOutput AccountLockFeeAndWithdrawInput
  | AccountLockFeeAndWithdrawNonFungibles _ _ => KnownOutput AccountLockFeeAndWithdrawNonFungiblesInput
  | AccountTryDepositOrRefund => KnownOutput AccountTryDepositOrRefundInput
  | AccountTryDepositBatchOrRefund => KnownOutput AccountTryDepositBatchOrRefundInput
  | ConsensusManagerCreateValidator => KnownOutput ConsensusManagerCreateValidatorInput
  | ValidatorClaimXrd => KnownOutput ValidatorClaimXrdInput
  | IdentityCreate => KnownOutput IdentityCreateInput
  | IdentitySecurifyToSingleBadge => KnownOutput IdentitySecurifyToSingleBadgeInput
  | AccountLockerAirdrop => KnownOutput AccountLockerAirdropInput
  | AccountLockerRecover _ _ => KnownOutput AccountLockerRecoverInput
  | AccountLockerRecoverNonFungibles _ _ => KnownOutput AccountLockerRecoverNonFungiblesInput
  | AccountLockerClaim _ _ => KnownOutput AccountLockerClaimInput
  | AccountLockerClaimNonFungibles _ _ => KnownOutput AccountLockerClaimNonFungiblesInput
  | PackagePublishWasm => KnownOutput PackagePublishWasmInput
  | PackageClaimRoyalties => KnownOutput PackageClaimRoyaltiesInput
  | TwoResourcePoolProtectedWithdraw _ _ _ => KnownOutput TwoResourcePoolProtectedWithdrawInput
  | MultiResourcePoolProtectedWithdraw _ _ _ => KnownOutput MultiResourcePoolProtectedWithdrawInput
  | FungibleResourceManagerMint _ => KnownOutput FungibleResourceManagerMintInput
  | ResourceManagerCreateEmptyBucket => KnownOutput ResourceManagerCreateEmptyBucketInput
  | NonFungibleResourceManagerMint _ => KnownOutput NonFungibleResourceManagerMintInput
  | NonFungibleResourceManagerMintRuid _ => KnownOutput NonFungibleResourceManagerMintRuidInput
  | NonFungibleResourceManagerMintSingleRuid => KnownOutput NonFungibleResourceManagerMintSingleRuidInput
  | ComponentClaimRoyalties => KnownOutput ComponentClaimRoyaltiesInput
  end.

(** ** The tables

    The functions, methods and direct methods of each supported blueprint. *)

Record NativeBlueprint : Type := mk_native {
  native_id : BlueprintId;
  functions : list (Name * InputType);
  methods : list (Name * InputType);
  direct_methods : list (Name * InputType)
}.

Definition native_AccessController : NativeBlueprint := mk_native (mk_blueprint_id ACCESS_CONTROLLER_PACKAGE (lit "AccessController"))
  [
    (lit "create", NoOutput AccessControllerCreate)]
  [
    (lit "create_proof", NoOutput AccessControllerCreateProof);
    (lit "initiate_recovery_as_primary", NoOutput AccessControllerInitiateRecoveryAsPrimary);
    (lit "initiate_recovery_as_recovery", NoOutput AccessControllerInitiateRecoveryAsRecovery);
    (lit "quick_confirm_primary_role_recovery_proposal", NoOutput AccessControllerQuickConfirmPrimaryRoleRecoveryProposal);
    (lit "quick_confirm_recovery_role_recovery_proposal", NoOutput AccessControllerQuickConfirmRecoveryRoleRecoveryProposal);
    (lit "timed_confirm_recovery", NoOutput AccessControllerTimedConfirmRecovery);
    (lit "cancel_primary_role_recovery_proposal", NoOutput AccessControllerCancelPrimaryRoleRecoveryProposal);
    (lit "cancel_recovery_role_recovery_proposal", NoOutput AccessControllerCancelRecoveryRoleRecoveryProposal);
    (lit "lock_primary_role", NoOutput AccessControllerLockPrimaryRole);
    (lit "unlock_primary_role", NoOutput AccessControllerUnlockPrimaryRole);
    (lit "stop_timed_recovery", NoOutput AccessControllerStopTimedRecovery);
    (lit "initiate_badge_withdraw_attempt_as_primary", NoOutput AccessControllerInitiateBadgeWithdrawAttemptAsPrimary);
    (lit "initiate_badge_withdraw_attempt_as_recovery", NoOutput AccessControllerInitiateBadgeWithdrawAttemptAsRecovery);
    (lit "quick_confirm_primary_role_badge_withdraw_attempt", UnknownOutput AccessControllerQuickConfirmPrimaryRoleBadgeWithdrawAttempt);
    (lit "quick_confirm_recovery_role_badge_withdraw_attempt", UnknownOutput AccessControllerQuickConfirmRecoveryRoleBadgeWithdrawAttempt);
    (lit "cancel_primary_role_badge_withdraw_attempt", NoOutput AccessControllerCancelPrimaryRoleBadgeWithdrawAttempt);
    (lit "cancel_recovery_role_badge_withdraw_attempt", NoOutput AccessControllerCancelRecoveryRoleBadgeWithdrawAttempt);
    (lit "mint_recovery_badges", UnknownOutput AccessControllerMintRecoveryBadges);
    (lit "lock_recovery_fee", NoOutput AccessControllerLockRecoveryFee);
    (lit "withdraw_recovery_fee", KnownOutput AccessControllerWithdrawRecoveryFeeInput);
    (lit "contribute_recovery_fee", NoOutput AccessControllerContributeRecoveryFee)]
  [].
Definition native_Account : NativeBlueprint := mk_native (mk_blueprint_id ACCOUNT_PACKAGE (lit "Account"))
  [
    (lit "create_advanced", NoOutput AccountCreateAdvanced);
    (lit "create", KnownOutput AccountCreateInput)]
  [
    (lit "securify", KnownOutput AccountSecurifyInput);
    (lit "lock_fee", NoOutput AccountLockFee);
    (lit "lock_contingent_fee", NoOutput AccountLockContingentFee);
    (lit "deposit", NoOutput AccountDeposit);
    (lit "deposit_batch", NoOutput AccountDepositBatch);
    (lit "withdraw", KnownOutput AccountWithdrawInput);
    (lit "withdraw_non_fungibles", KnownOutput AccountWithdrawNonFungiblesInput);
    (lit "burn", NoOutput AccountBurn);
    (lit "burn_non_fungibles", NoOutput AccountBurnNonFungibles);
    (lit "lock_fee_and_withdraw", KnownOutput AccountLockFeeAndWithdrawInput);
    (lit "lock_fee_and_withdraw_non_fungibles", KnownOutput AccountLockFeeAndWithdrawNonFungiblesInput);
    (lit "create_proof_of_amount", NoOutput AccountCreateProofOfAmount);
    (lit "create_proof_of_non_fungibles", NoOutput AccountCreateProofOfNonFungibles);
    (lit "set_default_deposit_rule", NoOutput AccountSetDefaultDepositRule);
    (lit "set_resource_preference", NoOutput AccountSetResourcePreference);
    (lit "remove_resource_preference", NoOutput AccountRemoveResourcePreference);
    (lit "try_deposit_or_refund", KnownOutput AccountTryDepositOrRefundInput);
    (lit "try_deposit_batch_or_refund", KnownOutput AccountTryDepositBatchOrRefundInput);
    (lit "try_deposit_or_abort", NoOutput AccountTryDepositOrAbort);
    (lit "try_deposit_batch_or_abort", NoOutput AccountTryDepositBatchOrAbort);
    (lit "add_authorized_depositor", NoOutput AccountAddAuthorizedDepositor);
    (lit "remove_authorized_depositor", NoOutput AccountRemoveAuthorizedDepositor);
    (lit "balance", NoOutput AccountBalance);
    (lit "non_fungible_local_ids", NoOutput AccountNonFungibleLocalIds);
    (lit "has_non_fungible", NoOutput AccountHasNonFungible)]
  [].
Definition native_ConsensusManager : NativeBlueprint := mk_native (mk_blueprint_id CONSENSUS_MANAGER_PACKAGE (lit "ConsensusManager"))
  [
    (lit "create", NoOutput ConsensusManagerCreate)]
  [
    (lit "get_current_epoch", NoOutput ConsensusManagerGetCurrentEpoch);
    (lit "start", NoOutput ConsensusManagerStart);
    (lit "get_current_time", NoOutput ConsensusManagerGetCurrentTimeV2);
    (lit "compare_current_time", NoOutput ConsensusManagerCompareCurrentTimeV2);
    (lit "next_round", NoOutput ConsensusManagerNextRound);
    (lit "create_validator", KnownOutput ConsensusManagerCreateValidatorInput)]
  [].
Definition native_Validator : NativeBlueprint := mk_native (mk_blueprint_id CONSENSUS_MANAGER_PACKAGE (lit "Validator"))
  []
  [
    (lit "register", NoOutput ValidatorRegister);
    (lit "unregister", NoOutput ValidatorUnregister);
    (lit "stake_as_owner", UnknownOutput ValidatorStakeAsOwner);
    (lit "stake", UnknownOutput ValidatorStake);
    (lit "unstake", UnknownOutput ValidatorUnstake);
    (lit "claim_xrd", KnownOutput ValidatorClaimXrdInput);
    (lit "update_key", NoOutput ValidatorUpdateKey);
    (lit "update_fee", NoOutput ValidatorUpdateFee);
    (lit "update_accept_delegated_stake", NoOutput ValidatorUpdateAcceptDelegatedStake);
    (lit "accepts_delegated_stake", NoOutput ValidatorAcceptsDelegatedStake);
    (lit "total_stake_xrd_amount", NoOutput ValidatorTotalStakeXrdAmount);
    (lit "total_stake_unit_supply", NoOutput ValidatorTotalStakeUnitSupply);
    (lit "get_redemption_value", NoOutput ValidatorGetRedemptionValue);
    (lit "signal_protocol_update_readiness", NoOutput ValidatorSignalProtocolUpdateReadiness);
    (lit "get_protocol_update_readiness", NoOutput ValidatorGetProtocolUpdateReadiness);
    (lit "lock_owner_stake_units", NoOutput ValidatorLockOwnerStakeUnits);
    (lit "start_unlock_owner_stake_units", NoOutput ValidatorStartUnlockOwnerStakeUnits);
    (lit "finish_unlock_owner_stake_units", UnknownOutput ValidatorFinishUnlockOwnerStakeUnits);
    (lit "apply_emission", NoOutput ValidatorApplyEmission);
    (lit "apply_reward", NoOutput ValidatorApplyReward)]
  [].
Definition native_Identity : NativeBlueprint := mk_native (mk_blueprint_id IDENTITY_PACKAGE (lit "Identity"))
  [
    (lit "create_advanced", NoOutput IdentityCreateAdvanced);
    (lit "create", KnownOutput IdentityCreateInput)]
  [
    (lit "securify", KnownOutput IdentitySecurifyToSingleBadgeInput)]
  [].
Definition native_AccountLocker : NativeBlueprint := mk_native (mk_blueprint_id LOCKER_PACKAGE (lit "AccountLocker"))
  [
    (lit "instantiate", NoOutput AccountLockerInstantiate);
    (lit "instantiate_simple", UnknownOutput AccountLockerInstantiateSimple)]
  [
    (lit "store", NoOutput AccountLockerStore);
    (lit "airdrop", KnownOutput AccountLockerAirdropInput);
    (lit "recover", KnownOutput AccountLockerRecoverInput);
    (lit "recover_non_fungibles", KnownOutput AccountLockerRecoverNonFungiblesInput);
    (lit "claim", KnownOutput AccountLockerClaimInput);
    (lit "claim_non_fungibles", KnownOutput AccountLockerClaimNonFungiblesInput);
    (lit "get_amount", NoOutput AccountLockerGetAmount);
    (lit "get_non_fungible_local_ids", NoOutput AccountLockerGetNonFungibleLocalIds)]
  [].
Definition native_Package : NativeBlueprint := mk_native (mk_blueprint_id PACKAGE_PACKAGE (lit "Package"))
  [
    (lit "publish_wasm", KnownOutput PackagePublishWasmInput);
    (lit "publish_wasm_advanced", NoOutput PackagePublishWasmAdvanced);
    (lit "publish_native", NoOutput PackagePublishNative)]
  [
    (lit "PackageRoyalty_claim_royalties", KnownOutput PackageClaimRoyaltiesInput)]
  [].
Definition native_OneResourcePool : NativeBlueprint := mk_native (mk_blueprint_id POOL_PACKAGE (lit "OneResourcePool"))
  [
    (lit "instantiate", NoOutput OneResourcePoolInstantiate)]
  [
    (lit "contribute", UnknownOutput OneResourcePoolContribute);
    (lit "redeem", UnknownOutput OneResourcePoolRedeem);
    (lit "protected_deposit", NoOutput OneResourcePoolProtectedDeposit);
    (lit "protected_withdraw", UnknownOutput OneResourcePoolProtectedWithdraw);
    (lit "get_redemption_value", NoOutput OneResourcePoolGetRedemptionValue);
    (lit "get_vault_amount", NoOutput OneResourcePoolGetVaultAmount)]
  [].
Definition native_TwoResourcePool : NativeBlueprint := mk_native (mk_blueprint_id POOL_PACKAGE (lit "TwoResourcePool"))
  [
    (lit "instantiate", NoOutput TwoResourcePoolInstantiate)]
  [
    (lit "contribute", UnknownOutput TwoResourcePoolContribute);
    (lit "redeem", UnknownOutput TwoResourcePoolRedeem);
    (lit "protected_deposit", NoOutput TwoResourcePoolProtectedDeposit);
    (lit "protected_withdraw", KnownOutput TwoResourcePoolProtectedWithdrawInput);
    (lit "get_redemption_value", NoOutput TwoResourcePoolGetRedemptionValue);
    (lit "get_vault_amounts", NoOutput TwoResourcePoolGetVaultAmounts)]
  [].
Definition native_MultiResourcePool : NativeBlueprint := mk_native (mk_blueprint_id POOL_PACKAGE (lit "MultiResourcePool"))
  [
    (lit "instantiate", NoOutput MultiResourcePoolInstantiate)]
  [
    (lit "contribute", UnknownOutput MultiResourcePoolContribute);
    (lit "redeem", UnknownOutput MultiResourcePoolRedeem);
    (lit "protected_deposit", NoOutput MultiResourcePoolProtectedDeposit);
    (lit "protected_withdraw", KnownOutput MultiResourcePoolProtectedWithdrawInput);
    (lit "get_redemption_value", NoOutput MultiResourcePoolGetRedemptionValue);
    (lit "get_vault_amounts", NoOutput MultiResourcePoolGetVaultAmounts)]
  [].
Definition native_FungibleResourceManager : NativeBlueprint := mk_native (mk_blueprint_id RESOURCE_PACKAGE (lit "FungibleResourceManager"))
  [
    (lit "create", NoOutput FungibleResourceManagerCreate);
    (lit "create_with_initial_supply", UnknownOutput FungibleResourceManagerCreateWithInitialSupply)]
  [
    (lit "mint", KnownOutput FungibleResourceManagerMintInput);
    (lit "burn", NoOutput ResourceManagerBurn);
    (lit "package_burn", NoOutput ResourceManagerPackageBurn);
    (lit "create_empty_vault", NoOutput ResourceManagerCreateEmptyVault);
    (lit "create_empty_bucket", KnownOutput ResourceManagerCreateEmptyBucketInput);
    (lit "get_resource_type", NoOutput ResourceManagerGetResourceType);
    (lit "get_total_supply", NoOutput ResourceManagerGetTotalSupply);
    (lit "amount_for_withdrawal", NoOutput ResourceManagerGetAmountForWithdrawal);
    (lit "drop_empty_bucket", NoOutput ResourceManagerDropEmptyBucket)]
  [].
Definition native_NonFungibleResourceManager : NativeBlueprint := mk_native (mk_blueprint_id RESOURCE_PACKAGE (lit "NonFungibleResourceManager"))
  [
    (lit "create", NoOutput NonFungibleResourceManagerCreate);
    (lit "create_with_initial_supply", UnknownOutput NonFungibleResourceManagerCreateWithInitialSupply);
    (lit "create_ruid_non_fungible_with_initial_supply", UnknownOutput NonFungibleResourceManagerCreateRuidWithInitialSupply)]
  [
    (lit "mint", KnownOutput NonFungibleResourceManagerMintInput);
    (lit "get_non_fungible", NoOutput NonFungibleResourceManagerGetNonFungible);
    (lit "update_non_fungible_data", NoOutput NonFungibleResourceManagerUpdateData);
    (lit "non_fungible_exists", NoOutput NonFungibleResourceManagerExists);
    (lit "mint_ruid", KnownOutput NonFungibleResourceManagerMintRuidInput);
    (lit "mint_single_ruid", KnownOutput NonFungibleResourceManagerMintSingleRuidInput);
    (lit "package_burn", NoOutput ResourceManagerPackageBurn);
    (lit "burn", NoOutput ResourceManagerBurn);
    (lit "create_empty_vault", NoOutput ResourceManagerCreateEmptyVault);
    (lit "create_empty_bucket", KnownOutput ResourceManagerCreateEmptyBucketInput);
    (lit "get_resource_type", NoOutput ResourceManagerGetResourceType);
    (lit "get_total_supply", NoOutput ResourceManagerGetTotalSupply);
    (lit "amount_for_withdrawal", NoOutput ResourceManagerGetAmountForWithdrawal);
    (lit "drop_empty_bucket", NoOutput ResourceManagerDropEmptyBucket)]
  [].
Definition native_FungibleVault : NativeBlueprint := mk_native (mk_blueprint_id RESOURCE_PACKAGE (lit "FungibleVault"))
  []
  [
    (lit "take", UnknownOutput VaultTake);
    (lit "take_advanced", UnknownOutput VaultTakeAdvanced);
    (lit "put", NoOutput VaultPut);
    (lit "get_amount", NoOutput VaultGetAmount);
    (lit "lock_fee", NoOutput FungibleVaultLockFee);
    (lit "create_proof_of_amount", NoOutput FungibleVaultCreateProofOfAmount);
    (lit "lock_amount", NoOutput FungibleVaultLockFungibleAmount);
    (lit "unlock_amount", NoOutput FungibleVaultUnlockFungibleAmount);
    (lit "burn", NoOutput VaultBurn)]
  [
    (lit "recall", UnknownOutput VaultRecall);
    (lit "freeze", NoOutput VaultFreeze);
    (lit "unfreeze", NoOutput VaultUnfreeze)].
Definition native_NonFungibleVault : NativeBlueprint := mk_native (mk_blueprint_id RESOURCE_PACKAGE (lit "NonFungibleVault"))
  []
  [
    (lit "take", UnknownOutput VaultTake);
    (lit "take_advanced", UnknownOutput VaultTakeAdvanced);
    (lit "take_non_fungibles", UnknownOutput NonFungibleVaultTakeNonFungibles);
    (lit "put", NoOutput VaultPut);
    (lit "get_amount", NoOutput VaultGetAmount);
    (lit "get_non_fungible_local_ids", NoOutput NonFungibleVaultGetNonFungibleLocalIds);
    (lit "contains_non_fungible", NoOutput NonFungibleVaultContainsNonFungible);
    (lit "create_proof_of_non_fungibles", NoOutput NonFungibleVaultCreateProofOfNonFungibles);
    (lit "lock_non_fungibles", NoOutput NonFungibleVaultLockNonFungibles);
    (lit "unlock_non_fungibles", NoOutput NonFungibleVaultUnlockNonFungibles);
    (lit "burn", NoOutput VaultBurn);
    (lit "burn_non_fungibles", NoOutput NonFungibleVaultBurnNonFungibles)]
  [
    (lit "recall", UnknownOutput VaultRecall);
    (lit "freeze", NoOutput VaultFreeze);
    (lit "unfreeze", NoOutput VaultUnfreeze);
    (lit "recall_non_fungibles", UnknownOutput NonFungibleVaultRecallNonFungibles)].
Definition native_TransactionTracker : NativeBlueprint := mk_native (mk_blueprint_id TRANSACTION_TRACKER_PACKAGE (lit "TransactionTracker"))
  [
    (lit "create", NoOutput TransactionTrackerCreate)]
  []
  [].
Definition native_Metadata : NativeBlueprint := mk_native (mk_blueprint_id METADATA_MODULE_PACKAGE (lit "Metadata"))
  [
    (lit "create", NoOutput MetadataCreate);
    (lit "create_with_data", NoOutput MetadataCreateWithData)]
  [
    (lit "set", NoOutput MetadataSet);
    (lit "lock", NoOutput MetadataLock);
    (lit "get", NoOutput MetadataGet);
    (lit "remove", NoOutput MetadataRemove)]
  [].
Definition native_RoleAssignment : NativeBlueprint := mk_native (mk_blueprint_id ROLE_ASSIGNMENT_MODULE_PACKAGE (lit "RoleAssignment"))
  [
    (lit "create", NoOutput RoleAssignmentCreate)]
  [
    (lit "set_owner", NoOutput RoleAssignmentSetOwner);
    (lit "lock_owner", NoOutput RoleAssignmentLockOwner);
    (lit "set", NoOutput RoleAssignmentSet);
    (lit "get", NoOutput RoleAssignmentGet);
    (lit "get_owner_role", NoOutput RoleAssignmentGetOwnerRole)]
  [].
Definition native_ComponentRoyalty : NativeBlueprint := mk_native (mk_blueprint_id ROYALTY_MODULE_PACKAGE (lit "ComponentRoyalty"))
  [
    (lit "create", NoOutput ComponentRoyaltyCreate)]
  [
    (lit "set_royalty", NoOutput ComponentRoyaltySet);
    (lit "lock_royalty", NoOutput ComponentRoyaltyLock);
    (lit "claim_royalties", KnownOutput ComponentClaimRoyaltiesInput)]
  [].

Definition native_blueprints : list NativeBlueprint :=
  [native_AccessController; native_Account; native_ConsensusManager; native_Validator; native_Identity;
   native_AccountLocker; native_Package; native_OneResourcePool; native_TwoResourcePool;
   native_MultiResourcePool; native_FungibleResourceManager; native_NonFungibleResourceManager;
   native_FungibleVault; native_NonFungibleVault; native_TransactionTracker; native_Metadata;
   native_RoleAssignment; native_ComponentRoyalty].

(** ** Resolving an invocation *)

Inductive TypedManifestNativeInvocationError : Type :=
| FailedToDecodeFunctionInvocation (blueprint_id : BlueprintId) (function_name : Name) (args : ManifestValue)
| FailedToDecodeMethodInvocation (blueprint_id : BlueprintId) (method_name : Name) (args : ManifestValue)
| FailedToDecodeDirectMethodInvocation (blueprint_id : BlueprintId) (method_name : Name) (args : ManifestValue)
| InvokedFunctionNotFoundOnNativeBlueprint (blueprint_id : BlueprintId) (function : Name)
| InvokedMethodNotFoundOnNativeBlueprint (blueprint_id : BlueprintId) (method : Name)
| InvokedDirectMethodNotFoundOnNativeBlueprint (blueprint_id : BlueprintId) (method : Name).

(** The first arm of a match on names. *)
Fixpoint lookup_name (name : Name) (table : list (Name * InputType)) : option InputType :=
  match table with
  | [] => None
  | (n, t) :: table => if decide (n = name) then Some t else lookup_name name table
  end.

Fixpoint lookup_blueprint (invoked : BlueprintId) (table : list NativeBlueprint) : option NativeBlueprint :=
  match table with
  | [] => None
  | b :: table => if decide (native_id b = invoked) then Some b else lookup_blueprint invoked table
  end.

Section Resolve.
(** The decoder of each type of arguments, which the SBOR derive macros generate. *)
Context (decode_args : InputType -> ManifestValue -> option TypedManifestNativeInvocation).

Definition decode_invocation (table : list (Name * InputType)) (name : Name) (args : ManifestValue)
    (failed not_found : TypedManifestNativeInvocationError) :
    Result TypedManifestNativeInvocationError TypedManifestNativeInvocation :=
  match lookup_name name table with
  | Some t => match decode_args t args with Some v => Ok v | None => Err failed end
  | None => Err not_found
  end.

Definition decode_function_invocation (b : NativeBlueprint) (name : Name) (args : ManifestValue) :=
  decode_invocation (functions b) name args (FailedToDecodeFunctionInvocation (native_id b) name args)
    (InvokedFunctionNotFoundOnNativeBlueprint (native_id b) name).
Definition decode_method_invocation (b : NativeBlueprint) (name : Name) (args : ManifestValue) :=
  decode_invocation (methods b) name args (FailedToDecodeMethodInvocation (native_id b) name args)
    (InvokedMethodNotFoundOnNativeBlueprint (native_id b) name).
Definition decode_direct_method_invocation (b : NativeBlueprint) (name : Name) (args : ManifestValue) :=
  decode_invocation (direct_methods b) name args (FailedToDecodeDirectMethodInvocation (native_id b) name args)
    (InvokedDirectMethodNotFoundOnNativeBlueprint (native_id b) name).

Abbreviation Resolved := (Result TypedManifestNativeInvocationError (option TypedManifestNativeInvocation)).

Definition from_function_invocation (invoked : BlueprintId) (function_name : Name) (args : ManifestValue) : Resolved :=
  match lookup_blueprint invoked native_blueprints with
  | Some b => v ← decode_function_invocation b function_name args; Ok (Some v)
  | None => Ok None
  end.

Definition from_method_invocation (address : ResolvedDynamicAddress) (module_id : ModuleId) (method_name : Name)
    (args : ManifestValue) : Resolved :=
  match invoked_blueprint_id address module_id with
  | Some invoked =>
      match lookup_blueprint invoked native_blueprints with
      | Some b => v ← decode_method_invocation b method_name args; Ok (Some v)
      | None => Ok None
      end
  | None => Ok None
  end.

Definition from_direct_method_invocation (address : ResolvedDynamicAddress) (method_name : Name)
    (args : ManifestValue) : Resolved :=
  match main_module_blueprint_id address with
  | Some invoked =>
      match lookup_blueprint invoked native_blueprints with
      | Some b => v ← decode_direct_method_invocation b method_name args; Ok (Some v)
      | None => Ok None
      end
  | None => Ok None
  end.
End Resolve.
