(* ===== verification/NodeIds.v ===== *)
(** * Kinds of entities

    What the first byte of a node id tells about the node
    (radix-common/src/types/entity_type.rs), and the same predicates on node ids
    (radix-common/src/types/node_and_substate.rs), which are false where the
    byte is of no entity type. *)

From S2P Require Import Prelude Bytes SborCustom NativeInvocations.

Module Entity.
Definition is_global (entity_type : EntityType) : bool :=
  match entity_type with
  | GlobalPackage | GlobalFungibleResourceManager | GlobalNonFungibleResourceManager | GlobalConsensusManager
  | GlobalValidator | GlobalAccessController | GlobalAccount | GlobalIdentity | GlobalGenericComponent
  | GlobalPreallocatedSecp256k1Account | GlobalPreallocatedEd25519Account | GlobalPreallocatedSecp256k1Identity
  | GlobalPreallocatedEd25519Identity | GlobalOneResourcePool | GlobalTwoResourcePool | GlobalMultiResourcePool
  | GlobalTransactionTracker | GlobalAccountLocker => true
  | InternalFungibleVault | InternalNonFungibleVault | InternalGenericComponent | InternalKeyValueStore => false
  end.

Definition is_internal (entity_type : EntityType) : bool := negb (is_global entity_type).

Definition is_global_component (entity_type : EntityType) : bool :=
  match entity_type with
  | GlobalConsensusManager | GlobalValidator | GlobalAccessController | GlobalAccount | GlobalIdentity
  | GlobalGenericComponent | GlobalPreallocatedSecp256k1Account | GlobalPreallocatedEd25519Account
  | GlobalPreallocatedSecp256k1Identity | GlobalPreallocatedEd25519Identity | GlobalOneResourcePool
  | GlobalTwoResourcePool | GlobalMultiResourcePool | GlobalTransactionTracker | GlobalAccountLocker => true
  | GlobalPackage | GlobalFungibleResourceManager | GlobalNonFungibleResourceManager | InternalFungibleVault
  | InternalNonFungibleVault | InternalGenericComponent | InternalKeyValueStore => false
  end.

Definition is_global_package (entity_type : EntityType) : bool :=
  match entity_type with GlobalPackage => true | _ => false end.

Definition is_global_account (entity_type : EntityType) : bool :=
  match entity_type with
  | GlobalAccount | GlobalPreallocatedSecp256k1Account | GlobalPreallocatedEd25519Account => true
  | _ => false
  end.

Definition is_global_resource_manager (entity_type : EntityType) : bool :=
  match entity_type with GlobalFungibleResourceManager | GlobalNonFungibleResourceManager => true | _ => false end.

Definition is_internal_kv_store (entity_type : EntityType) : bool :=
  match entity_type with InternalKeyValueStore => true | _ => false end.

Definition is_internal_vault (entity_type : EntityType) : bool :=
  match entity_type with InternalFungibleVault | InternalNonFungibleVault => true | _ => false end.
End Entity.

Module NodeId.
Definition holds (p : EntityType -> bool) (node_id : list Z) : bool :=
  match node_entity_type node_id with Some t => p t | None => false end.

Definition is_global : list Z -> bool := holds Entity.is_global.
Definition is_internal : list Z -> bool := holds Entity.is_internal.
Definition is_global_component : list Z -> bool := holds Entity.is_global_component.
Definition is_global_package : list Z -> bool := holds Entity.is_global_package.
Definition is_global_resource_manager : list Z -> bool := holds Entity.is_global_resource_manager.
Definition is_internal_kv_store : list Z -> bool := holds Entity.is_internal_kv_store.
Definition is_internal_vault : list Z -> bool := holds Entity.is_internal_vault.
End NodeId.
