(* ===== verification/ResourceBounds.v ===== *)
(** * Static bounds on resource balances

    What the static analysis of a manifest knows about resources
    (radix-transactions/src/manifest/static_resource_movements/types.rs): bounds
    on the balance of one resource with the operations that add, take and assert
    resources, their history, and the bounds of a whole worktop, where a resource
    may be known or be one of the unspecified rest.  The lemmas are soundness
    statements: when the concrete balances satisfy the bounds before an
    operation, and the operation accepts, the balances after the corresponding
    concrete movement satisfy the bounds after it. *)

From S2P Require Import Prelude Decimals IndexMap Bytes SborCustom ResourceConstraints NativeInvocations.
Import Int Dec DecSpec ConstraintSpec ConstraintLemmas.

(** ** Errors and sources of changes *)

(** The errors of this analysis, and those of the interpreter that drives it
    ([ManifestError]). *)
Inductive StaticResourceMovementsError (ManifestError : Type) : Type :=
| DecimalAmountIsNegative
| BoundsInvalidForResourceKind
| ConstraintBoundsInvalid
| AssertionCannotBeSatisfied
| TakeCannotBeSatisfied
| StaticDecimalOverflow
| DuplicateNonFungibleId
| WorktopEndsWithKnownResourcesPresent
| ManifestValidationFailed (e : ManifestError)
| NotAResourceAddress (address : ResourceAddress)
| NativeInvocationFailed (e : TypedManifestNativeInvocationError)
| AggregatedBalanceChangeWithdrawDoesNotSupportUnknownResources
| UnexpectedBoundsForNetWithdraw.
Arguments DecimalAmountIsNegative {ManifestError}.
Arguments BoundsInvalidForResourceKind {ManifestError}.
Arguments ConstraintBoundsInvalid {ManifestError}.
Arguments AssertionCannotBeSatisfied {ManifestError}.
Arguments TakeCannotBeSatisfied {ManifestError}.
Arguments StaticDecimalOverflow {ManifestError}.
Arguments DuplicateNonFungibleId {ManifestError}.
Arguments WorktopEndsWithKnownResourcesPresent {ManifestError}.
Arguments ManifestValidationFailed {ManifestError} e.
Arguments NotAResourceAddress {ManifestError} address.
Arguments NativeInvocationFailed {ManifestError} e.
Arguments AggregatedBalanceChangeWithdrawDoesNotSupportUnknownResources {ManifestError}.
Arguments UnexpectedBoundsForNetWithdraw {ManifestError}.

Inductive ChangeSource : Type :=
| InitialYieldFromParent
| SourceInvocation (instruction_index : Z)
| SourceNewBucket (instruction_index : Z)
| SourceAssertion (instruction_index : Z).

#[global] Instance ChangeSource_eq_dec : EqDecision ChangeSource.
Proof. solve_decision. Defined.

Inductive ResourceTakeAmount : Type :=
| TakeAmount (amount : Decimal)
| TakeNonFungibles (ids : Ids)
| TakeAll.

#[global] Instance ResourceTakeAmount_eq_dec : EqDecision ResourceTakeAmount.
Proof. solve_decision. Defined.

Definition aligns_with_fungible_use (self : ResourceTakeAmount) : bool :=
  match self with TakeNonFungibles _ => false | _ => true end.

(** [ResourceBounds] wraps a constraint that its operations keep valid and
    normalized. *)
Abbreviation ResourceBounds := GeneralResourceConstraint (only parsing).

Definition bounds_zero : ResourceBounds := mk_general [] lower_zero upper_zero (Allowlist []).
Definition bounds_zero_or_more : ResourceBounds := mk_general [] lower_zero Unbounded AnyIds.
Definition bounds_non_zero : ResourceBounds := mk_general [] NonZero Unbounded AnyIds.

Section Bounds.
Context {ME : Type}.
Abbreviation Err_ := (StaticResourceMovementsError ME).

Definition from_adjustment (e : BoundAdjustmentError) : Err_ :=
  match e with
  | BoundDecimalOverflow => StaticDecimalOverflow
  | BoundTakeCannotBeSatisfied => TakeCannotBeSatisfied
  end.

Section Constructors.
Context {S : Type}.

Definition exact_take_amount (amount : Decimal) : M S Err_ ResourceTakeAmount :=
  guard_or (negb (is_negative amount)) DecimalAmountIsNegative;;
  mret (TakeAmount amount).

Definition exact_amount (amount : Decimal) : M S Err_ ResourceBounds :=
  guard_or (negb (is_negative amount)) DecimalAmountIsNegative;;
  l ← lift_exec (lower_at_least amount);
  u ← lift_exec (upper_at_most amount);
  mret (mk_general [] l u AnyIds).

Definition at_least_amount (amount : Decimal) : M S Err_ ResourceBounds :=
  guard_or (negb (is_negative amount)) DecimalAmountIsNegative;;
  l ← lift_exec (lower_at_least amount);
  mret (mk_general [] l Unbounded AnyIds).

Definition exact_non_fungibles (ids : list NonFungibleLocalId) : M S Err_ ResourceBounds :=
  let ids := is_from_iter ids in
  l ← lift_exec (lower_at_least (decimal_of_len ids));
  u ← lift_exec (upper_at_most (decimal_of_len ids));
  mret (mk_general ids l u (Allowlist ids)).

Definition at_least_non_fungibles (ids : list NonFungibleLocalId) : M S Err_ ResourceBounds :=
  let ids := is_from_iter ids in
  l ← lift_exec (lower_at_least (decimal_of_len ids));
  mret (mk_general ids l Unbounded AnyIds).

(** [general_fungible], [general_non_fungible_no_allowlist] and
    [general_non_fungible_with_allowlist]. *)
Definition bounds_general (valid : bool) (constraints : GeneralResourceConstraint) : M S Err_ ResourceBounds :=
  guard_or valid ConstraintBoundsInvalid;;
  mret (normalize constraints).

Definition bounds_general_fungible (l : LowerBound) (u : UpperBound) : M S Err_ ResourceBounds :=
  let constraints := mk_general [] l u AnyIds in
  bounds_general (general_valid_for_fungible constraints) constraints.

Definition bounds_general_no_allowlist (required : list NonFungibleLocalId) (l : LowerBound)
    (u : UpperBound) : M S Err_ ResourceBounds :=
  let constraints := mk_general (is_from_iter required) l u AnyIds in
  bounds_general (general_valid_for_non_fungible constraints) constraints.

Definition bounds_general_with_allowlist (required : list NonFungibleLocalId) (l : LowerBound)
    (u : UpperBound) (id_allowlist : list NonFungibleLocalId) : M S Err_ ResourceBounds :=
  let constraints := mk_general (is_from_iter required) l u (Allowlist (is_from_iter id_allowlist)) in
  bounds_general (general_valid_for_non_fungible constraints) constraints.

Definition new_for_manifest_constraint (constraint : ManifestResourceConstraint) : M S Err_ ResourceBounds :=
  match constraint with
  | NonZeroAmount => mret bounds_non_zero
  | ExactAmount amount => exact_amount amount
  | AtLeastAmount amount => at_least_amount amount
  | ExactNonFungibles ids => exact_non_fungibles ids
  | AtLeastNonFungibles ids => at_least_non_fungibles ids
  | General constraints =>
      guard_or (is_valid_independent_of_resource_type constraints) ConstraintBoundsInvalid;;
      mret (normalize constraints)
  end.
End Constructors.

(** ** Reading bounds *)

Definition bounds_valid_for (self : ResourceBounds) (resource_address : ResourceAddress) : bool :=
  if is_fungible resource_address then general_valid_for_fungible self
  else general_valid_for_non_fungible self.

Definition bounds_is_zero (self : ResourceBounds) : bool := bool_decide (upper_bound self = upper_zero).

Definition get_exact_ids (self : ResourceBounds) : option Ids :=
  match upper_bound self with
  | UpperInclusive count =>
      if count =? decimal_of_len (required_ids self) then Some (required_ids self) else None
  | Unbounded => None
  end.

Definition get_exact_amount (self : ResourceBounds) : option Decimal :=
  match lower_bound self, upper_bound self with
  | LowerInclusive lower, UpperInclusive upper => if lower =? upper then Some lower else None
  | _, _ => None
  end.

(** ** Operations on bounds *)

Abbreviation BM := (M ResourceBounds Err_).

Fixpoint insert_required (ids : Ids) : BM unit :=
  match ids with
  | [] => mret tt
  | i :: rest =>
      this ← gets id;
      modify (fun g => with_required g (is_insert i (required_ids g)).2);;
      guard_or (is_insert i (required_ids this)).1 DuplicateNonFungibleId;;
      insert_required rest
  end.

Definition bounds_mut_add (other : ResourceBounds) : BM unit :=
  this ← gets id;
  l ← lift_result (map_err from_adjustment (lower_add_from (lower_bound this) (lower_bound other)));
  modify (fun g => with_lower g l);;
  u ← lift_result (map_err from_adjustment (upper_add_from (upper_bound this) (upper_bound other)));
  modify (fun g => with_upper g u);;
  insert_required (required_ids other);;
  modify (fun g => with_allowed g
    match allowed_ids g, allowed_ids other with
    | AnyIds, _ => AnyIds
    | _, AnyIds => AnyIds
    | Allowlist allow_list, Allowlist other_allow_list => Allowlist (is_extend allow_list other_allow_list)
    end);;
  modify normalize.

(** The numeric bounds after an amount has been taken. *)
Definition take_numeric (take_amount : Decimal) : BM unit :=
  this ← gets id;
  l ← lift_exec (lower_take_amount (lower_bound this) take_amount);
  modify (fun g => with_lower g l);;
  r ← lift_exec (upper_take_amount (upper_bound this) take_amount);
  u ← lift_result (map_err from_adjustment r);
  modify (fun g => with_upper g u).

Definition bounds_mut_take (amount : ResourceTakeAmount) : BM ResourceBounds :=
  match amount with
  | TakeAmount take_amount =>
      guard_or (negb (is_negative take_amount)) DecimalAmountIsNegative;;
      take_numeric take_amount;;
      (if is_positive take_amount then modify (fun g => with_required g []) else mret tt);;
      modify normalize;;
      exact_amount take_amount
  | TakeNonFungibles taken_ids =>
      take_numeric (decimal_of_len taken_ids);;
      modify (fun g => with_required g (is_difference (required_ids g) taken_ids));;
      this ← gets id;
      match allowed_ids this with
      | Allowlist allow_list =>
          guard_or (is_subset taken_ids allow_list) TakeCannotBeSatisfied;;
          modify (fun g => with_allowed g (Allowlist (is_difference allow_list taken_ids)))
      | AnyIds => mret tt
      end;;
      this ← gets id;
      guard_or (negb (lower_equivalent_decimal (lower_bound this) <? decimal_of_len (required_ids this)))
        TakeCannotBeSatisfied;;
      modify normalize;;
      exact_non_fungibles taken_ids
  | TakeAll =>
      this ← gets id;
      modify (fun _ => bounds_zero);;
      mret this
  end.

Definition bounds_mut_handle_assertion (assertion : ResourceBounds) : BM unit :=
  modify (fun g => with_lower g (lower_constrain_to (lower_bound g) (lower_bound assertion)));;
  modify (fun g => with_upper g (upper_constrain_to (upper_bound g) (upper_bound assertion)));;
  match allowed_ids assertion with
  | Allowlist assertion_allowlist =>
      this ← gets id;
      guard_or (is_subset (required_ids this) assertion_allowlist) AssertionCannotBeSatisfied;;
      modify (fun g => with_allowed g (Allowlist
        match allowed_ids g with
        | AnyIds => assertion_allowlist
        | Allowlist allowlist => is_intersection allowlist assertion_allowlist
        end))
  | AnyIds => mret tt
  end;;
  modify (fun g => with_required g (is_extend (required_ids g) (required_ids assertion)));;
  this ← gets id;
  guard_or (negb (upper_equivalent_decimal (upper_bound this) <? lower_equivalent_decimal (lower_bound this)))
    AssertionCannotBeSatisfied;;
  match allowed_ids this with
  | Allowlist allowlist =>
      guard_or (negb (decimal_of_len allowlist <? upper_equivalent_decimal (upper_bound this)))
        AssertionCannotBeSatisfied
  | AnyIds => mret tt
  end;;
  modify normalize.

Definition mut_replace_lower_bounds_with_zero : BM unit :=
  modify (fun g => with_lower (with_required g []) lower_zero).
Definition mut_clear_required_ids : BM unit := modify (fun g => with_required g []).
Definition mut_clear_allowed_ids : BM unit := modify (fun g => with_allowed g AnyIds).
End Bounds.

(** ** The history of a resource *)

Inductive ResourceChange : Type :=
| ChangeAdd (add_amount : ResourceBounds) (change_sources : list ChangeSource)
| ChangeAddWithForkedHistory (add_amount : ResourceBounds) (change_history : list ResourceChange)
| ChangeTake (take_amount : ResourceTakeAmount) (change_source : ChangeSource)
| ChangeAssertion (assertion : ResourceBounds) (change_source : ChangeSource).

Abbreviation ResourceChangeHistory := (list ResourceChange) (only parsing).

Definition record_add (self : ResourceChangeHistory) (add_amount : ResourceBounds)
    (change_sources : list ChangeSource) : ResourceChangeHistory :=
  self ++ [ChangeAdd add_amount (is_from_iter change_sources)].

Definition record_take (self : ResourceChangeHistory) (take_amount : ResourceTakeAmount)
    (change_source : ChangeSource) : ResourceChangeHistory :=
  self ++ [ChangeTake take_amount change_source].

Definition record_assertion (self : ResourceChangeHistory) (assertion : ResourceBounds)
    (change_source : ChangeSource) : ResourceChangeHistory :=
  self ++ [ChangeAssertion assertion change_source].

Definition record_add_with_history (self : ResourceChangeHistory) (add_amount : ResourceBounds)
    (change_history : ResourceChangeHistory) : ResourceChangeHistory :=
  match change_history with
  | [] => self
  | [single_history_item] => self ++ [single_history_item]
  | _ => match self with
         | [] => change_history
         | _ => self ++ [ChangeAddWithForkedHistory add_amount change_history]
         end
  end.

(** ** Tracked resources *)

Record TrackedResource : Type := mk_tracked {
  bounds : ResourceBounds;
  history : ResourceChangeHistory
}.

Definition tracked_zero : TrackedResource := mk_tracked bounds_zero [].
Definition tracked_general (add_amount : ResourceBounds) (change_sources : list ChangeSource) :
    TrackedResource := mk_tracked add_amount (record_add [] add_amount change_sources).
Definition tracked_zero_or_more (sources : list ChangeSource) : TrackedResource :=
  tracked_general bounds_zero_or_more sources.
Definition tracked_is_zero (self : TrackedResource) : bool := bounds_is_zero (bounds self).

Definition with_bounds (b : ResourceBounds) (t : TrackedResource) : TrackedResource :=
  mk_tracked b (history t).

(** [if self.is_zero() { history.clear() } else { history = f(history) }] *)
Definition update_history (f : ResourceChangeHistory -> ResourceChangeHistory) (t : TrackedResource) :
    TrackedResource :=
  mk_tracked (bounds t) (if tracked_is_zero t then [] else f (history t)).

Section Tracked.
Context {ME : Type}.
Abbreviation Err_ := (StaticResourceMovementsError ME).
Abbreviation TRM := (M TrackedResource Err_).

Definition tracked_add_from (existing : TrackedResource) : TRM unit :=
  zoom bounds with_bounds (bounds_mut_add (bounds existing));;
  modify (update_history (fun h => record_add_with_history h (bounds existing) (history existing))).

Definition tracked_add (amount : ResourceBounds) (change_sources : list ChangeSource) : TRM unit :=
  zoom bounds with_bounds (bounds_mut_add amount);;
  modify (update_history (fun h => record_add h amount change_sources)).

Definition tracked_take (take_amount : ResourceTakeAmount) (source : ChangeSource) : TRM TrackedResource :=
  match take_amount with
  | TakeAll => this ← gets id; modify (fun _ => tracked_zero);; mret this
  | _ =>
      taken_amount ← zoom bounds with_bounds (bounds_mut_take take_amount);
      modify (update_history (fun h => record_take h take_amount source));;
      mret (tracked_general taken_amount [source])
  end.

Definition tracked_handle_assertion (assertion : ResourceBounds) (source : ChangeSource) : TRM unit :=
  zoom bounds with_bounds (bounds_mut_handle_assertion assertion);;
  modify (update_history (fun h => record_assertion h assertion source)).
End Tracked.

(** ** The resources of a worktop *)

Inductive UnspecifiedResources : Type :=
| NonePresent
| MayBePresent (sources : IndexSet ChangeSource).

Definition unspecified_status (self : UnspecifiedResources) : TrackedResource :=
  match self with NonePresent => tracked_zero | MayBePresent sources => tracked_zero_or_more sources end.
Definition unspecified_bounds (self : UnspecifiedResources) : ResourceBounds :=
  match self with NonePresent => bounds_zero | MayBePresent _ => bounds_zero_or_more end.
Definition may_be_present (self : UnspecifiedResources) : bool :=
  match self with NonePresent => false | MayBePresent _ => true end.

Definition add_possible_resource_balance (self : UnspecifiedResources) (sources : list ChangeSource) :
    UnspecifiedResources :=
  match self with
  | NonePresent => MayBePresent (is_from_iter sources)
  | MayBePresent self_sources => MayBePresent (is_extend self_sources sources)
  end.

Definition unspecified_add (self other : UnspecifiedResources) : UnspecifiedResources :=
  match other with
  | NonePresent => self
  | MayBePresent other_sources => add_possible_resource_balance self other_sources
  end.

Record TrackedResources : Type := mk_resources {
  specified_resources : IndexMap ResourceAddress TrackedResource;
  unspecified_resources : UnspecifiedResources
}.

Definition resources_new_empty : TrackedResources := mk_resources [] NonePresent.
Definition new_with_possible_balance_of_unspecified_resources (change_sources : list ChangeSource) :
    TrackedResources := mk_resources [] (MayBePresent (is_from_iter change_sources)).

Definition resource_status (t : TrackedResources) (resource : ResourceAddress) : TrackedResource :=
  default (unspecified_status (unspecified_resources t)) (im_get resource (specified_resources t)).

Definition with_specified (m : IndexMap ResourceAddress TrackedResource) (t : TrackedResources) :
    TrackedResources := mk_resources m (unspecified_resources t).
Definition with_unspecified (u : UnspecifiedResources) (t : TrackedResources) : TrackedResources :=
  mk_resources (specified_resources t) u.

Definition mut_normalize (t : TrackedResources) : TrackedResources :=
  if negb (tracked_is_zero (unspecified_status (unspecified_resources t))) then t
  else if negb (existsb (fun e => tracked_is_zero e.2) (specified_resources t)) then t
  else with_specified (filter (fun e => tracked_is_zero e.2 = false) (specified_resources t)) t.

Section Resources.
Context {ME : Type}.
Abbreviation Err_ := (StaticResourceMovementsError ME).
Abbreviation TRSM := (M TrackedResources Err_).

(** A computation on [resource_status_mut(resource)], which makes the resource
    specified. *)
Definition on_resource {A} (resource : ResourceAddress) (m : M TrackedResource Err_ A) : TRSM A :=
  zoom (fun t => resource_status t resource)
       (fun r t => with_specified (im_insert resource r (specified_resources t)) t) m.

Definition mut_add_unspecified_resources (change_sources : list ChangeSource) : TRSM unit :=
  modify (fun t => with_unspecified
    (unspecified_add (unspecified_resources t) (MayBePresent (is_from_iter change_sources))) t).

(** The specified resources that [other] does not specify. *)
Fixpoint add_unspecified (other : TrackedResources) (keys : list ResourceAddress) : TRSM unit :=
  match keys with
  | [] => mret tt
  | resource :: rest =>
      (if bool_decide (is_Some (im_get resource (specified_resources other))) then mret tt
       else on_resource resource (tracked_add_from (unspecified_status (unspecified_resources other))));;
      add_unspecified other rest
  end.

Fixpoint add_specified (other : IndexMap ResourceAddress TrackedResource) : TRSM unit :=
  match other with
  | [] => mret tt
  | (other_resource, other_resource_bound) :: rest =>
      on_resource other_resource (tracked_add_from other_resource_bound);;
      add_specified rest
  end.

Definition resources_mut_add (other : TrackedResources) : TRSM unit :=
  t ← gets id;
  (if may_be_present (unspecified_resources other)
   then add_unspecified other (im_keys (specified_resources t)) else mret tt);;
  add_specified (specified_resources other);;
  modify (fun t => with_unspecified
    (unspecified_add (unspecified_resources t) (unspecified_resources other)) t).

Definition mut_add_resource (resource : ResourceAddress) (amount : TrackedResource) : TRSM unit :=
  guard_or (bounds_valid_for (bounds amount) resource) BoundsInvalidForResourceKind;;
  on_resource resource (tracked_add_from amount).

Definition mut_take_resource (resource : ResourceAddress) (amount : ResourceTakeAmount)
    (source : ChangeSource) : TRSM TrackedResource :=
  guard_or (negb (is_fungible resource && negb (aligns_with_fungible_use amount)))
    BoundsInvalidForResourceKind;;
  on_resource resource (tracked_take amount source).

Definition resources_take_all : TRSM TrackedResources :=
  t ← gets id; modify (fun _ => resources_new_empty);; mret t.

Definition handle_resource_assertion (resource_address : ResourceAddress) (assertion : ResourceBounds)
    (source : ChangeSource) : TRSM unit :=
  guard_or (bounds_valid_for assertion resource_address) BoundsInvalidForResourceKind;;
  on_resource resource_address (tracked_handle_assertion assertion source);;
  modify mut_normalize.

Fixpoint assert_unlisted_zero (constraints : ManifestResourceConstraints) (source : ChangeSource)
    (keys : list ResourceAddress) : TRSM unit :=
  match keys with
  | [] => mret tt
  | resource_address :: rest =>
      (if contains_specified_resource constraints resource_address then mret tt
       else on_resource resource_address (tracked_handle_assertion bounds_zero source));;
      assert_unlisted_zero constraints source rest
  end.

Fixpoint assert_listed (constraints : ManifestResourceConstraints) (source : ChangeSource) : TRSM unit :=
  match constraints with
  | [] => mret tt
  | (resource_address, constraint) :: rest =>
      assertion ← new_for_manifest_constraint constraint;
      on_resource resource_address (tracked_handle_assertion assertion source);;
      assert_listed rest source
  end.

Definition handle_resources_only_assertion (constraints : ManifestResourceConstraints)
    (source : ChangeSource) : TRSM unit :=
  t ← gets id;
  assert_unlisted_zero constraints source (im_keys (specified_resources t));;
  assert_listed constraints source;;
  modify (with_unspecified NonePresent);;
  modify mut_normalize.

Definition handle_resources_include_assertion (constraints : ManifestResourceConstraints)
    (source : ChangeSource) : TRSM unit :=
  assert_listed constraints source;;
  modify mut_normalize.
End Resources.

(** ** Meaning

    A balance splits into two where one part is taken from it or added to it. *)

Module BoundsSpec.

Definition join (b1 b2 : Balance) : Balance := mk_balance (b_amount b1 + b_amount b2) (b_ids b1 ++ b_ids b2).

(** The bounds of a resource kind are well formed and satisfied. *)
Definition bounded (f : bool) (g : ResourceBounds) (b : Balance) : Prop := general_wf f g /\ sat g b.

(** What a taken balance must be. *)
Definition take_matches (f : bool) (amount : ResourceTakeAmount) (taken rest : Balance) : Prop :=
  match amount with
  | TakeAmount a => b_amount taken = a
  | TakeNonFungibles ids => f = false /\ NoDup ids /\ forall i, i ∈ b_ids taken <-> i ∈ ids
  | TakeAll => rest = zero_balance
  end.

(** The constraints of a manifest whose meaning the analysis may rely on: sets
    of ids without repetition, non-negative amounts, and the documented form of
    the ids of a fungible resource. *)
Definition constraint_ok (f : bool) (c : ManifestResourceConstraint) : Prop :=
  match c with
  | NonZeroAmount | ExactAmount _ | AtLeastAmount _ => True
  | ExactNonFungibles ids | AtLeastNonFungibles ids => NoDup ids
  | General g => general_wf f g
  end.

(** Balances are equal up to the order of their ids. *)
#[export] Instance Balance_equiv : Equiv Balance := fun b1 b2 =>
  b_amount b1 = b_amount b2 /\ b_ids b1 ≡ₚ b_ids b2.
#[export] Instance Balance_equivalence : Equivalence (≡@{Balance}).
Proof.
  split.
  - by intros b.
  - intros b1 b2 [? ?]. by split.
  - intros b1 b2 b3 [? ?] [? ?]. split; etransitivity; eassumption.
Qed.

(** The balances of all resources. *)
Abbreviation Balances := (ResourceAddress -> Balance) (only parsing).

Definition balances_ok (W : Balances) : Prop := forall r, balance_ok (is_fungible r) (W r).
Definition no_balances : Balances := fun _ => zero_balance.
Definition join_all (W1 W2 : Balances) : Balances := fun r => join (W1 r) (W2 r).
Definition update_balance (W : Balances) (r : ResourceAddress) (b : Balance) : Balances :=
  fun r' => if decide (r' = r) then b else W r'.

(** The tracked resources are right about the balances. *)
Record holds (t : TrackedResources) (W : Balances) : Prop := {
  holds_map : im_ok (specified_resources t);
  holds_status : forall r, bounded (is_fungible r) (bounds (resource_status t r)) (W r)
}.
End BoundsSpec.
Import BoundsSpec.

Module BoundsLemmas.

Section OneResource.
Context {ME : Type} (f : bool).
Abbreviation Err_ := (StaticResourceMovementsError ME).
Implicit Types (g : ResourceBounds) (b : Balance).

Lemma balance_nonneg b : balance_ok f b -> 0 <= b_amount b.
Proof. by intros [[? _] _]. Qed.

Lemma zero_balance_ok : balance_ok f zero_balance.
Proof. split_and!; cbn; [lia|done|constructor|]. by destruct f. Qed.

Lemma join_zero_r b : join b zero_balance = b.
Proof. destruct b as [a i]. unfold join. cbn. by rewrite Z.add_0_r, app_nil_r. Qed.

Lemma join_zero_l b : join zero_balance b = b.
Proof. by destruct b as [a i]. Qed.

Lemma join_ok b1 b2 :
  balance_ok f b1 -> balance_ok f b2 -> b_amount b1 + b_amount b2 <= MAX ->
  (forall i, i ∈ b_ids b1 -> i ∉ b_ids b2) -> balance_ok f (join b1 b2).
Proof.
  intros ((Ha1 & _) & Hn1 & Hi1) ((Ha2 & _) & Hn2 & Hi2) HM Hd. split_and!; cbn; [lia|lia| |].
  - apply NoDup_app. naive_solver.
  - destruct f; [by rewrite Hi1, Hi2|]. rewrite decimal_of_len_app. lia.
Qed.

(** Only the zero balance satisfies the bounds of zero. *)
Lemma zero_sat b : balance_ok f b -> bounds_is_zero bounds_zero = true -> sat bounds_zero b -> b = zero_balance.
Proof.
  intros [[H0 _] _] _ [_ Hu _ Ha]. destruct b as [a i]. cbn in *.
  assert (i = []) as -> by (destruct i; [done|set_solver]). assert (a = 0) as -> by (unfold ZERO in *; lia). done.
Qed.

Lemma bounded_zero : bounded f bounds_zero zero_balance.
Proof. split; constructor; cbn; try done; try constructor; cbn; done || set_solver. Qed.

Lemma bounded_zero_or_more b : balance_ok f b -> bounded f bounds_zero_or_more b.
Proof.
  intros Hb. split; constructor; cbn; try done; try constructor; cbn; try done; [|set_solver].
  by apply balance_nonneg.
Qed.

(** *** Constructors *)

Lemma exact_amount_spec {S} a (s : S) :
  wlp (exact_amount (ME := ME) a) s (fun g s' => (g = mk_general [] (LowerInclusive a) (UpperInclusive a) AnyIds /\ 0 <= a) /\ s' = s).
Proof.
  unfold exact_amount, is_negative. wlp_steps. zbool.
  unfold lower_at_least, upper_at_most, is_negative in *. rewrite (proj2 (Z.ltb_ge _ _)) in * by done. by simplify_eq.
Qed.

Lemma at_least_amount_spec {S} a (s : S) :
  wlp (at_least_amount (ME := ME) a) s (fun g s' => (g = mk_general [] (LowerInclusive a) Unbounded AnyIds /\ 0 <= a) /\ s' = s).
Proof.
  unfold at_least_amount, is_negative. wlp_steps. zbool.
  unfold lower_at_least, is_negative in *. rewrite (proj2 (Z.ltb_ge _ _)) in * by done. by simplify_eq.
Qed.

Lemma exact_non_fungibles_spec {S} ids (s : S) :
  let l := is_from_iter ids in
  wlp (exact_non_fungibles (ME := ME) ids) s (fun g s' =>
    g = mk_general l (LowerInclusive (decimal_of_len l)) (UpperInclusive (decimal_of_len l)) (Allowlist l) /\ s' = s).
Proof.
  intros l. unfold exact_non_fungibles. fold l. wlp_steps.
  unfold lower_at_least, upper_at_most in *. repeat case_match; by simplify_eq.
Qed.

Lemma at_least_non_fungibles_spec {S} ids (s : S) :
  let l := is_from_iter ids in
  wlp (at_least_non_fungibles (ME := ME) ids) s (fun g s' =>
    g = mk_general l (LowerInclusive (decimal_of_len l)) Unbounded AnyIds /\ s' = s).
Proof.
  intros l. unfold at_least_non_fungibles. fold l. wlp_steps.
  unfold lower_at_least in *. case_match; by simplify_eq.
Qed.

Lemma bounded_exact_amount a b : balance_ok f b -> b_amount b = a ->
  bounded f (mk_general [] (LowerInclusive a) (UpperInclusive a) AnyIds) b.
Proof.
  intros Hb <-. pose proof (balance_nonneg b Hb).
  split; constructor; cbn; try done; try constructor; cbn; (done || set_solver).
Qed.

Lemma bounded_exact_ids ids b :
  balance_ok f b -> f = false -> (forall i, i ∈ b_ids b <-> i ∈ ids) -> NoDup ids ->
  bounded f (mk_general ids (LowerInclusive (decimal_of_len ids)) (UpperInclusive (decimal_of_len ids)) (Allowlist ids)) b.
Proof.
  intros (_ & Hn & Hf) Hff Hi Hnd. subst f.
  assert (b_amount b = decimal_of_len ids) as Ha.
  { rewrite Hf. apply Z.le_antisymm; apply decimal_of_len_subset; try done; set_solver. }
  split; constructor; cbn; try done; try apply decimal_of_len_nonneg; try lia; set_solver.
Qed.

Lemma new_for_manifest_constraint_sound {S} c b (s : S) :
  balance_ok f b -> constraint_ok f c -> constraint_sat f c b ->
  wlp (new_for_manifest_constraint (ME := ME) c) s (fun g s' => bounded f g b /\ s' = s).
Proof.
  intros Hb Hc Hs. destruct c as [|a|a|ids|ids|g]; cbn in *.
  - split; [|done]. split; constructor; cbn; try done; try constructor; cbn; (done || set_solver).
  - eapply wlp_mono; [apply exact_amount_spec|]. intros g ? [[-> ?] ->]. split; [|done]. by apply bounded_exact_amount.
  - eapply wlp_mono; [apply at_least_amount_spec|]. intros g ? [[-> ?] ->]. split; [|done].
    split; constructor; cbn; try done; try constructor; cbn; (done || set_solver).
  - destruct Hs as [Hf Hs]. eapply wlp_mono; [apply exact_non_fungibles_spec|]. intros g ? [-> ->]. split; [|done].
    rewrite is_from_iter_NoDup by done. by apply bounded_exact_ids.
  - destruct Hs as [Hf Hs]. eapply wlp_mono; [apply at_least_non_fungibles_spec|]. intros g ? [-> ->]. split; [|done].
    rewrite is_from_iter_NoDup by done. pose proof Hb as (_ & Hn & Hfb). rewrite Hf in Hfb.
    split; constructor; cbn; try done; [apply decimal_of_len_nonneg|by rewrite Hf|].
    rewrite Hfb. by apply decimal_of_len_subset.
  - wlp_steps. split; [|done]. split; [by apply normalize_wf|]. eapply normalize_sound; [done|done|].
    destruct Hs as (Hl & Hu & Hi). constructor; [done|done| |].
    + destruct f; [|by destruct Hi]. destruct (wf_fungible _ _ Hc eq_refl) as [-> _]. set_solver.
    + destruct f; [|by destruct Hi]. destruct Hb as (_ & _ & ->). destruct (allowed_ids g); cbn; [set_solver|done].
Qed.

(** *** Addition *)

Lemma insert_required_spec ids g :
  wlp (insert_required (ME := ME) ids) g (fun _ g' =>
    g' = with_required g (required_ids g ++ ids) /\
    (NoDup (required_ids g) -> NoDup (required_ids g ++ ids))).
Proof.
  revert g. induction ids as [|i ids IH]; intros g; cbn [insert_required].
  - apply wlp_ret. rewrite app_nil_r. by destruct g.
  - wlp_steps. match goal with H : (is_insert _ _).1 = true |- _ => rename H into Hn end.
    eapply wlp_mono; [apply IH|]. intros _ g' [-> Hnd]. cbn in *.
    pose proof (NoDup_is_insert i (required_ids g)) as Hi. unfold is_insert in *.
    destruct (is_contains i (required_ids g)); [done|]. cbn in *. rewrite <- app_assoc in *. by split; [|auto].
Qed.

Lemma lower_add_sound l1 l2 l a1 a2 :
  lower_add_from l1 l2 = Ok l -> lower_ok l1 -> lower_ok l2 -> 0 <= a1 -> 0 <= a2 ->
  lower_sat l1 a1 -> lower_sat l2 a2 -> lower_ok l /\ lower_sat l (a1 + a2).
Proof.
  destruct l1 as [|x], l2 as [|y]; cbn; unfold is_zero; intros Hl ? ? ? ? ? ?.
  - simplify_eq. cbn. lia.
  - destruct (y =? 0) eqn:Hy; zbool; simplify_eq; cbn; lia.
  - destruct (x =? 0) eqn:Hx; zbool; simplify_eq; cbn; lia.
  - destruct (checked_add x y) as [z|] eqn:Hz; cbn in Hl; simplify_eq. apply checked_add_Some in Hz as [-> _]. cbn. lia.
Qed.

Lemma upper_add_sound u1 u2 u a1 a2 :
  upper_add_from u1 u2 = Ok u -> upper_ok u1 -> upper_ok u2 -> upper_sat u1 a1 -> upper_sat u2 a2 ->
  upper_ok u /\ upper_sat u (a1 + a2).
Proof.
  destruct u1 as [x|], u2 as [y|]; cbn; intros Hu ? ? ? ?; try by simplify_eq.
  destruct (checked_add x y) as [z|] eqn:Hz; cbn in Hu; simplify_eq. apply checked_add_Some in Hz as [-> _]. cbn. lia.
Qed.

Lemma bounds_mut_add_sound g1 g2 b1 b2 :
  balance_ok f b1 -> balance_ok f b2 -> balance_ok f (join b1 b2) -> bounded f g1 b1 -> bounded f g2 b2 ->
  wlp (bounds_mut_add (ME := ME) g2) g1 (fun _ g' => bounded f g' (join b1 b2)).
Proof.
  intros Hb1 Hb2 Hj [Hw1 Hs1] [Hw2 Hs2]. unfold bounds_mut_add. wlp_steps.
  match goal with H : map_err _ (lower_add_from _ _) = _ |- _ => apply map_err_Ok in H; rename H into Hl end.
  match goal with H : map_err _ (upper_add_from _ _) = _ |- _ => apply map_err_Ok in H; rename H into Hu end.
  eapply wlp_mono; [apply insert_required_spec|]. intros _ g' [-> Hnd]. wlp_steps. cbn in *.
  destruct Hw1 as [Hn1 Hlo1 Hup1 Hal1 Hf1], Hw2 as [Hn2 Hlo2 Hup2 Hal2 Hf2], Hs1 as [Hsl1 Hsu1 Hsr1 Hsa1], Hs2 as [Hsl2 Hsu2 Hsr2 Hsa2].
  destruct (lower_add_sound _ _ _ (b_amount b1) (b_amount b2) Hl) as [Hlo Hsl]; try done; [by apply balance_nonneg..|].
  destruct (upper_add_sound _ _ _ (b_amount b1) (b_amount b2) Hu) as [Hup Hsu]; try done.
  match goal with |- bounded f (normalize ?g) _ => assert (bounded f g (join b1 b2)) as [Hw Hs] end.
  { split; constructor; cbn; try done.
    - by apply Hnd.
    - destruct (allowed_ids g1), (allowed_ids g2); cbn in *; try done. by apply NoDup_is_extend.
    - intros Hft. destruct (Hf1 Hft) as [Hr1 Ha1], (Hf2 Hft) as [Hr2 Ha2]. unfold fungible_ids_ok. cbn.
      rewrite Hr1, Hr2. split; [done|]. destruct (allowed_ids g1), (allowed_ids g2); cbn in *; try done.
      destruct Ha1 as [-> Hz1], Ha2 as [-> Hz2]. rewrite Hz1, Hz2 in Hu. vm_compute in Hu. by injection Hu as <-.
    - set_solver.
    - destruct (allowed_ids g1), (allowed_ids g2); cbn in *; try done.
      intros i. rewrite elem_of_is_extend. set_solver. }
  split; [by apply normalize_wf|]. by eapply normalize_sound.
Qed.

(** *** Taking *)

Lemma lower_take_sound l a1 a2 :
  lower_ok l -> 0 <= a1 -> 0 <= a2 -> lower_sat l (a1 + a2) ->
  forall l', lower_take_amount l a2 = Done l' -> lower_ok l' /\ lower_sat l' a1.
Proof.
  destruct l as [|x]; cbn; unfold is_zero; intros ? ? ? ? l'.
  - destruct (a2 =? 0) eqn:Hz; zbool; intros [= <-]; cbn; unfold ZERO; lia.
  - destruct (x <? a2) eqn:Hx; zbool; [intros [= <-]; cbn; unfold ZERO; lia|].
    unfold sub, expect. destruct (checked_sub x a2) as [d|] eqn:Hd; cbn; intros [= <-].
    apply checked_sub_Some in Hd as [-> _]. cbn. lia.
Qed.

Lemma upper_take_sound u a1 a2 :
  upper_ok u -> 0 <= a2 -> upper_sat u (a1 + a2) ->
  forall u', upper_take_amount u a2 = Done (Ok u') -> upper_ok u' /\ upper_sat u' a1.
Proof.
  destruct u as [x|]; cbn; intros ? ? ? u'; [|by intros [= <-]].
  destruct (x <? a2) eqn:Hx; zbool; [done|].
  unfold sub, expect. destruct (checked_sub x a2) as [d|] eqn:Hd; cbn; intros [= <-].
  apply checked_sub_Some in Hd as [-> _]. cbn. lia.
Qed.

Lemma take_numeric_spec g a1 a2 :
  general_wf f g -> 0 <= a1 -> 0 <= a2 -> lower_sat (lower_bound g) (a1 + a2) -> upper_sat (upper_bound g) (a1 + a2) ->
  wlp (take_numeric (ME := ME) a2) g (fun _ g' =>
    general_wf f g' /\ required_ids g' = required_ids g /\ allowed_ids g' = allowed_ids g /\
    lower_sat (lower_bound g') a1 /\ upper_sat (upper_bound g') a1).
Proof.
  intros [Hn Hlo Hup Hal Hf] H1 H2 Hl Hu. unfold take_numeric. wlp_steps. cbn in *.
  match goal with H : map_err _ _ = _ |- _ => apply map_err_Ok in H; subst end.
  match goal with H : lower_take_amount _ _ = _ |- _ => destruct (lower_take_sound _ a1 a2 Hlo H1 H2 Hl _ H) end.
  match goal with H : upper_take_amount _ _ = _ |- _ =>
    destruct (upper_take_sound _ a1 a2 Hup H2 Hu _ H); rename H into Htk end.
  split_and!; try done. constructor; cbn; try done. intros Hft. destruct (Hf Hft) as [Hr Ha].
  split; [done|]. cbn. destruct (allowed_ids g); [|done]. destruct Ha as [-> Hz]. rewrite Hz in Hu, Htk.
  cbn in Hu. unfold ZERO in Hu. assert (a2 = 0) as -> by lia. vm_compute in Htk. by injection Htk as <-.
Qed.

Lemma rest_allowed g taken rest : sat g (join rest taken) -> allowed_sat (allowed_ids g) (b_ids rest).
Proof. intros [_ _ _ Ha]. destruct (allowed_ids g); cbn in *; set_solver. Qed.

Lemma no_ids_taken taken : balance_ok f taken -> b_amount taken <= 0 -> b_ids taken = [].
Proof.
  intros (_ & _ & Hf) Ha. destruct f; [done|]. destruct (b_ids taken) eqn:Hi; [done|].
  assert (0 < decimal_of_len (b_ids taken)) by (apply decimal_of_len_pos; by rewrite Hi). rewrite Hi in *. lia.
Qed.

Lemma take_amount_sound g a taken rest :
  balance_ok f taken -> balance_ok f rest -> bounded f g (join rest taken) -> b_amount taken = a ->
  wlp (bounds_mut_take (ME := ME) (TakeAmount a)) g (fun g2 g' => bounded f g' rest /\ bounded f g2 taken).
Proof.
  intros Ht Hr [Hw Hs] Hm. pose proof (balance_nonneg _ Ht) as Hta. pose proof (balance_nonneg _ Hr) as Hra.
  cbn [bounds_mut_take]. apply wlp_bind, wlp_guard_or. intros _. apply wlp_bind.
  eapply wlp_mono; [eapply (take_numeric_spec g (b_amount rest) a); [done|done|lia|subst; apply Hs..]|].
  intros _ g' (Hw' & Hreq & Hal & Hl & Hu).
  assert (bounded f (if is_positive a then with_required g' [] else g') rest) as [Hw2 Hs2].
  { destruct (is_positive a) eqn:Hp; unfold is_positive in Hp; zbool.
    - destruct Hw' as [? ? ? ? Hf]; split; constructor; cbn; try done; [constructor| |set_solver|].
      + intros Hft. by destruct (Hf Hft).
      + rewrite Hal. by apply rest_allowed in Hs.
    - split; [done|]. constructor; try done.
      + rewrite Hreq. pose proof (sat_required _ _ Hs) as Hr2. cbn in Hr2.
        by rewrite (no_ids_taken taken), app_nil_r in Hr2 by (done || lia).
      + rewrite Hal. by apply rest_allowed in Hs. }
  destruct (is_positive a); wlp_steps; (eapply wlp_mono; [apply exact_amount_spec|]); intros g2 ? [[-> ?] ->];
    (split; [split; [by apply normalize_wf|by eapply normalize_sound]|by apply bounded_exact_amount]).
Qed.

Lemma take_non_fungibles_sound g ids taken rest :
  balance_ok f taken -> balance_ok f rest -> balance_ok f (join rest taken) -> bounded f g (join rest taken) ->
  take_matches f (TakeNonFungibles ids) taken rest ->
  wlp (bounds_mut_take (ME := ME) (TakeNonFungibles ids)) g (fun g2 g' => bounded f g' rest /\ bounded f g2 taken).
Proof.
  intros Ht Hr Hj [Hw Hs] (Hff & Hnd & Hi). pose proof (balance_nonneg _ Ht) as Hta. pose proof (balance_nonneg _ Hr) as Hra.
  assert (b_amount taken = decimal_of_len ids) as Ha.
  { destruct Ht as (_ & Hn & Hf). rewrite Hff in Hf. rewrite Hf.
    apply Z.le_antisymm; apply decimal_of_len_subset; try done; set_solver. }
  assert (forall i, i ∈ b_ids rest -> i ∉ ids) as Hd.
  { destruct Hj as (_ & Hn & _). cbn in Hn. apply NoDup_app in Hn as (_ & Hn & _). intros i Hir. rewrite <- Hi. by apply Hn. }
  cbn [bounds_mut_take]. apply wlp_bind.
  eapply wlp_mono; [eapply (take_numeric_spec g (b_amount rest) (decimal_of_len ids)); [done|done|lia|rewrite <- Ha; apply Hs..]|].
  intros _ g' (Hw' & Hreq & Hal & Hl & Hu). apply wlp_bind, wlp_modify.
  set (g1 := with_required g' _). assert (bounded f g1 rest) as [Hw1 Hs1].
  { destruct Hw' as [? ? ? ? Hf]; split; constructor; cbn; try done.
    - by apply NoDup_is_difference.
    - rewrite Hff. done.
    - rewrite Hreq. pose proof (sat_required _ _ Hs) as Hr2. cbn in Hr2. intros i [? ?]%elem_of_is_difference. set_solver.
    - rewrite Hal. by apply rest_allowed in Hs. }
  apply wlp_bind, wlp_gets. cbn [id].
  apply wlp_bind. apply wlp_mono with (fun _ g2 => bounded f g2 rest).
  { destruct (allowed_ids g1) as [l|] eqn:Hl1; [|by apply wlp_ret]. wlp_steps.
    destruct Hw1 as [? ? ? Hal1 ?], Hs1 as [? ? ? Hsa1]. rewrite Hl1 in *. split; constructor; cbn; try done.
    - by apply NoDup_is_difference.
    - rewrite Hff. done.
    - intros i Hir. apply elem_of_is_difference. split; [by apply Hsa1|by apply Hd]. }
  intros _ g2 [Hw2 Hs2]. wlp_steps. eapply wlp_mono; [apply exact_non_fungibles_spec|]. intros g3 ? [-> ->].
  rewrite is_from_iter_NoDup by done. split; [split; [by apply normalize_wf|by eapply normalize_sound]|].
  by apply bounded_exact_ids.
Qed.

Lemma bounds_mut_take_sound g amount taken rest :
  balance_ok f taken -> balance_ok f rest -> balance_ok f (join rest taken) -> bounded f g (join rest taken) ->
  take_matches f amount taken rest ->
  wlp (bounds_mut_take (ME := ME) amount) g (fun g2 g' => bounded f g' rest /\ bounded f g2 taken).
Proof.
  intros Ht Hr Hj [Hw Hs] Hm. destruct amount as [a|ids|].
  - by apply take_amount_sound.
  - by apply take_non_fungibles_sound.
  - cbn in Hm. subst. cbn. wlp_steps. split; [apply bounded_zero|]. rewrite join_zero_l in Hs. by split.
Qed.

(** *** Assertions *)

Lemma lower_constrain_sound l1 l2 a :
  lower_ok l1 -> lower_ok l2 -> lower_sat l1 a -> lower_sat l2 a ->
  lower_ok (lower_constrain_to l1 l2) /\ lower_sat (lower_constrain_to l1 l2) a.
Proof. unfold lower_constrain_to. by destruct (lower_cmp l1 l2). Qed.

Lemma upper_constrain_sound u1 u2 a :
  upper_ok u1 -> upper_ok u2 -> upper_sat u1 a -> upper_sat u2 a ->
  upper_ok (upper_constrain_to u1 u2) /\ upper_sat (upper_constrain_to u1 u2) a.
Proof. unfold upper_constrain_to. by destruct (upper_cmp u1 u2). Qed.

Lemma upper_constrain_zero u1 u2 :
  upper_ok u1 -> upper_ok u2 -> u1 = upper_zero \/ u2 = upper_zero -> upper_constrain_to u1 u2 = upper_zero.
Proof.
  unfold upper_constrain_to. destruct u1 as [x|], u2 as [y|]; cbn; intros Hx Hy Hz; try naive_solver.
  unfold upper_zero, ZERO in *. destruct (Z.compare_spec x y); destruct Hz as [[= ->]|[= ->]]; f_equal; lia.
Qed.

Lemma bounds_mut_handle_assertion_sound g a b :
  balance_ok f b -> bounded f g b -> bounded f a b ->
  wlp (bounds_mut_handle_assertion (ME := ME) a) g (fun _ g' => bounded f g' b).
Proof.
  intros Hb [Hw1 Hs1] [Hw2 Hs2]. pose proof Hw1 as [Hn1 Hlo1 Hup1 Hal1 Hf1]. pose proof Hw2 as [Hn2 Hlo2 Hup2 Hal2 Hf2].
  destruct Hs1 as [Hsl1 Hsu1 Hsr1 Hsa1], Hs2 as [Hsl2 Hsu2 Hsr2 Hsa2].
  destruct (lower_constrain_sound _ _ _ Hlo1 Hlo2 Hsl1 Hsl2) as [Hlo Hsl].
  destruct (upper_constrain_sound _ _ _ Hup1 Hup2 Hsu1 Hsu2) as [Hup Hsu].
  unfold bounds_mut_handle_assertion. apply wlp_bind, wlp_modify, wlp_bind, wlp_modify, wlp_bind.
  set (g1 := with_upper _ _). apply wlp_mono with (fun _ g2 =>
    exists al, g2 = with_allowed g1 al /\ allowed_ok al /\ allowed_sat al (b_ids b) /\
    (f = true -> match al with AnyIds => True | Allowlist l => l = [] /\ upper_bound g1 = upper_zero end)).
  { destruct (allowed_ids a) as [l|] eqn:Ha.
    - wlp_steps. eexists. split; [done|]. subst g1. cbn in *.
      destruct (allowed_ids g) as [l'|]; cbn in *; split_and!.
      + by apply NoDup_is_intersection.
      + intros i Hi. apply elem_of_is_intersection. set_solver.
      + intros Hft. destruct (Hf2 Hft) as [_ Hal2']. rewrite Ha in Hal2'. destruct Hal2' as [-> Hz]. split.
        * destruct (is_intersection l' []) as [|i t] eqn:Hi; [done|].
          assert (i ∈ is_intersection l' []) as Hin by (rewrite Hi; set_solver).
          apply elem_of_is_intersection in Hin. set_solver.
        * apply upper_constrain_zero; auto.
      + done.
      + done.
      + intros Hft. destruct (Hf2 Hft) as [_ Hal2']. rewrite Ha in Hal2'. destruct Hal2' as [-> Hz]. split; [done|].
        apply upper_constrain_zero; auto.
    - apply wlp_ret. exists (allowed_ids g1). split_and!; [by destruct g1|done|done|].
      intros Hft. destruct (Hf1 Hft) as [_ Ha1]. subst g1. cbn. destruct (allowed_ids g); [|done].
      destruct Ha1 as [-> Hz]. split; [done|]. apply upper_constrain_zero; auto. }
  intros _ g2 (al & -> & Hal & Hsal & Hfal).
  assert (bounded f (with_required (with_allowed g1 al) (is_extend (required_ids g) (required_ids a))) b) as [Hw Hs].
  { split; constructor; cbn; try done.
    - by apply NoDup_is_extend.
    - intros Hft. destruct (Hf1 Hft) as [Hr1 _], (Hf2 Hft) as [Hr2 _]. unfold fungible_ids_ok. cbn. rewrite Hr1, Hr2.
      split; [done|]. by apply Hfal.
    - intros i. rewrite elem_of_is_extend. set_solver. }
  wlp_steps; (split; [by apply normalize_wf|by eapply normalize_sound]).
Qed.
End OneResource.

(** *** Balances up to the order of ids *)

Lemma balance_ok_equiv f b1 b2 : b1 ≡ b2 -> balance_ok f b1 -> balance_ok f b2.
Proof.
  intros [Ha Hi] (Hr & Hn & Hf). unfold balance_ok, decimal_of_len in *. rewrite <- Ha.
  split_and!; [apply Hr|apply Hr|by apply (NoDup_Permutation_proper _ _ Hi)|].
  destruct f; [rewrite Hf in Hi; by apply Permutation_nil_l in Hi|]. by rewrite <- (Permutation_length Hi).
Qed.

Lemma bounded_equiv f g b1 b2 : b1 ≡ b2 -> bounded f g b1 -> bounded f g b2.
Proof.
  intros [Ha Hi] [Hw [Hl Hu Hr Hal]]. split; [done|]. constructor; rewrite <- ?Ha; try done.
  - intros i ?. rewrite <- Hi. by apply Hr.
  - destruct (allowed_ids g); cbn in *; [|done]. intros i. rewrite <- Hi. apply Hal.
Qed.

#[export] Instance balance_ok_proper f : Proper (equiv ==> iff) (balance_ok f).
Proof. intros b1 b2 Hb. split; by apply balance_ok_equiv. Qed.

#[export] Instance bounded_proper f g : Proper (equiv ==> iff) (bounded f g).
Proof. intros b1 b2 Hb. split; by apply bounded_equiv. Qed.

#[export] Instance join_proper : Proper (equiv ==> equiv ==> equiv) join.
Proof. intros b1 b2 [Ha Hi] b3 b4 [Ha' Hi']. split; cbn; [lia|by rewrite Hi, Hi']. Qed.

(** *** Tracked resources *)

Section Tracked.
Context {ME : Type} (f : bool).
Abbreviation Err_ := (StaticResourceMovementsError ME).
Implicit Types (t : TrackedResource) (b : Balance).

Lemma tracked_add_from_sound t e b1 b2 :
  balance_ok f b1 -> balance_ok f b2 -> balance_ok f (join b1 b2) ->
  bounded f (bounds t) b1 -> bounded f (bounds e) b2 ->
  wlp (tracked_add_from (ME := ME) e) t (fun _ t' => bounded f (bounds t') (join b1 b2)).
Proof.
  intros. unfold tracked_add_from. apply wlp_bind, wlp_zoom.
  eapply wlp_mono; [by apply (bounds_mut_add_sound f _ _ b1 b2)|]. intros [] g' ?. by apply wlp_modify.
Qed.

Lemma tracked_take_sound t amount source taken rest :
  balance_ok f taken -> balance_ok f rest -> balance_ok f (join rest taken) ->
  bounded f (bounds t) (join rest taken) -> take_matches f amount taken rest ->
  wlp (tracked_take (ME := ME) amount source) t (fun t2 t' => bounded f (bounds t') rest /\ bounded f (bounds t2) taken).
Proof.
  intros Ht Hr Hj Hb Hm. destruct (decide (amount = TakeAll)) as [->|Hn].
  - cbn in Hm. subst. cbn [tracked_take]. wlp_steps. split; [apply bounded_zero|]. by rewrite join_zero_l in Hb.
  - assert (tracked_take (ME := ME) amount source =
      (taken_amount ← zoom bounds with_bounds (bounds_mut_take amount);
       modify (update_history (fun h => record_take h amount source));;
       mret (tracked_general taken_amount [source]))) as -> by (by destruct amount).
    apply wlp_bind, wlp_zoom. eapply wlp_mono; [by apply (bounds_mut_take_sound f _ _ taken rest)|].
    intros g2 g' [? ?]. wlp_steps. by split.
Qed.

Lemma tracked_handle_assertion_sound t a source b :
  balance_ok f b -> bounded f (bounds t) b -> bounded f a b ->
  wlp (tracked_handle_assertion (ME := ME) a source) t (fun _ t' => bounded f (bounds t') b).
Proof.
  intros. unfold tracked_handle_assertion. apply wlp_bind, wlp_zoom.
  eapply wlp_mono; [by apply bounds_mut_handle_assertion_sound|]. intros [] g' ?. by apply wlp_modify.
Qed.
End Tracked.

(** *** Resources *)

Section AllResources.
Context {ME : Type}.
Abbreviation Err_ := (StaticResourceMovementsError ME).
Implicit Types (t : TrackedResources) (W : Balances) (r : ResourceAddress).

Definition put_status t r (s : TrackedResource) : TrackedResources :=
  with_specified (im_insert r s (specified_resources t)) t.

Lemma status_put t r s r' :
  resource_status (put_status t r s) r' = if decide (r' = r) then s else resource_status t r'.
Proof.
  unfold resource_status, put_status, with_specified. cbn. rewrite im_get_insert.
  repeat case_decide; by simplify_eq.
Qed.

Lemma wlp_on_resource {A} (m : M TrackedResource Err_ A) t r (Q : A -> TrackedResources -> Prop) :
  wlp m (resource_status t r) (fun a s => Q a (put_status t r s)) -> wlp (on_resource r m) t Q.
Proof. intros Hm. unfold on_resource. by apply wlp_zoom. Qed.

Lemma holds_ext t W W' : (forall r, W r ≡ W' r) -> holds t W -> holds t W'.
Proof. intros HW [Hm Hs]. split; [done|]. intros r. by rewrite <- HW. Qed.

Lemma holds_put t W r s b :
  holds t W -> bounded (is_fungible r) (bounds s) b -> holds (put_status t r s) (update_balance W r b).
Proof.
  intros [Hm Hs] Hb. split.
  - cbn. by apply im_ok_insert.
  - intros r'. rewrite status_put. unfold update_balance. by destruct (decide (r' = r)) as [->|].
Qed.

Lemma holds_unspecified u : (forall W, balances_ok W -> u <> NonePresent -> holds (mk_resources [] u) W).
Proof.
  intros W HW Hu. split; [constructor|]. intros r. unfold resource_status. cbn.
  destruct u; [done|]. by apply bounded_zero_or_more.
Qed.

Lemma holds_empty : holds resources_new_empty no_balances.
Proof. split; [constructor|]. intros r. apply bounded_zero. Qed.

Lemma is_zero_balance f g b : balance_ok f b -> bounded f g b -> bounds_is_zero g = true -> b = zero_balance.
Proof.
  intros Hb [_ [_ Hu _ _]] Hz. apply bool_decide_eq_true in Hz. rewrite Hz in Hu. cbn in Hu.
  pose proof (balance_nonneg f b Hb). pose proof (no_ids_taken f b Hb Hu). destruct b as [a i]. cbn in *. subst.
  unfold ZERO in *. by replace a with 0 by lia.
Qed.

Lemma im_get_filter_zero (m : IndexMap ResourceAddress TrackedResource) r :
  im_ok m -> im_get r (filter (fun e => tracked_is_zero e.2 = false) m) =
             s ← im_get r m; if tracked_is_zero s then None else Some s.
Proof.
  unfold im_ok. induction m as [|[k v] m IH]; intros Hm; [done|]. cbn [im_keys fmap list_fmap] in Hm.
  apply NoDup_cons in Hm as [Hk Hm]. rewrite filter_cons. cbn [im_get snd].
  destruct (decide (tracked_is_zero v = false)) as [Hz|Hz]; cbn [im_get].
  - destruct (decide (r = k)); [|by apply IH]. unfold mbind, option_bind. by rewrite Hz.
  - apply not_false_iff_true in Hz. destruct (decide (r = k)) as [->|]; [|by apply IH].
    rewrite IH by done. rewrite (proj2 (im_get_None k m) Hk). unfold mbind, option_bind. by rewrite Hz.
Qed.

Lemma im_ok_filter_zero (m : IndexMap ResourceAddress TrackedResource) :
  im_ok m -> im_ok (filter (fun e => tracked_is_zero e.2 = false) m).
Proof.
  unfold im_ok, im_keys. intros Hm. eapply sublist_NoDup; [exact Hm|]. apply fmap_sublist, sublist_filter.
Qed.

Lemma mut_normalize_holds t W : balances_ok W -> holds t W -> holds (mut_normalize t) W.
Proof.
  intros HW [Hm Hs]. unfold mut_normalize. destruct (negb (tracked_is_zero _)) eqn:Hu; [done|].
  destruct (negb (existsb _ _)); [done|]. zbool.
  split; [by apply im_ok_filter_zero|]. intros r. specialize (Hs r). unfold resource_status in *. cbn.
  rewrite im_get_filter_zero by done. destruct (im_get r (specified_resources t)) as [s|]; cbn in *; [|done].
  destruct (tracked_is_zero s) eqn:Hz; [|done]. cbn. rewrite (is_zero_balance _ _ _ (HW r) Hs Hz).
  destruct (unspecified_resources t); [apply bounded_zero|by vm_compute in Hu].
Qed.

Lemma mut_add_resource_sound t W r amount b :
  balances_ok W -> balance_ok (is_fungible r) b -> balance_ok (is_fungible r) (join (W r) b) ->
  holds t W -> bounded (is_fungible r) (bounds amount) b ->
  wlp (mut_add_resource (ME := ME) r amount) t (fun _ t' => holds t' (update_balance W r (join (W r) b))).
Proof.
  intros HW Hb Hj Ht Hbd. unfold mut_add_resource. apply wlp_bind, wlp_guard_or. intros _. apply wlp_on_resource.
  eapply wlp_mono; [apply (tracked_add_from_sound (is_fungible r) _ _ (W r) b); try done; apply Ht|].
  intros [] s ?. by apply holds_put.
Qed.

Lemma mut_take_resource_sound t W r amount source taken rest :
  balances_ok W -> balance_ok (is_fungible r) taken -> balance_ok (is_fungible r) rest -> W r ≡ join rest taken ->
  holds t W -> take_matches (is_fungible r) amount taken rest ->
  wlp (mut_take_resource (ME := ME) r amount source) t (fun s t' =>
    holds t' (update_balance W r rest) /\ bounded (is_fungible r) (bounds s) taken).
Proof.
  intros HW Hta Hre Heq Ht Hm. unfold mut_take_resource. apply wlp_bind, wlp_guard_or. intros _. apply wlp_on_resource.
  pose proof (holds_status _ _ Ht r) as Hbd. pose proof (HW r) as Hok. rewrite Heq in Hbd, Hok.
  eapply wlp_mono; [by apply (tracked_take_sound (is_fungible r) _ _ _ taken rest)|]. intros s t2 [? ?]. split; [by apply holds_put|done].
Qed.

Lemma handle_assertion_sound t W r a source :
  balances_ok W -> holds t W -> bounded (is_fungible r) a (W r) ->
  wlp (on_resource r (tracked_handle_assertion (ME := ME) a source)) t (fun _ t' =>
    holds t' W /\ unspecified_resources t' = unspecified_resources t).
Proof.
  intros HW Ht Ha. apply wlp_on_resource.
  eapply wlp_mono; [apply (tracked_handle_assertion_sound (is_fungible r) _ _ _ (W r)); [apply HW|apply Ht|done]|].
  intros [] s Hs. split; [|done].
  eapply holds_ext; [|by apply holds_put]. intros r'. unfold update_balance. by destruct (decide (r' = r)) as [->|].
Qed.

Lemma handle_resource_assertion_sound t W r a source :
  balances_ok W -> holds t W -> bounded (is_fungible r) a (W r) ->
  wlp (handle_resource_assertion (ME := ME) r a source) t (fun _ t' => holds t' W).
Proof.
  intros HW Ht Ha. unfold handle_resource_assertion. apply wlp_bind, wlp_guard_or. intros _. apply wlp_bind.
  eapply wlp_mono; [by apply handle_assertion_sound|]. intros [] t' [? _]. apply wlp_modify. by apply mut_normalize_holds.
Qed.

(** *** Adding all resources *)

Abbreviation keys t := (im_keys (specified_resources t)).

Lemma elem_of_keys_put t r s r' : r' ∈ keys (put_status t r s) <-> r' = r \/ r' ∈ keys t.
Proof.
  change (keys (put_status t r s)) with (im_keys (im_insert r s (specified_resources t))). rewrite im_keys_insert.
  destruct (im_get r (specified_resources t)) eqn:Hr; [|set_solver].
  apply im_get_elem in Hr. split; [by right|]. intros [->|?]; [|done]. unfold im_keys. by apply (list_elem_of_fmap_2 fst _ _ Hr).
Qed.

Lemma elem_of_keys t r : r ∈ keys t <-> is_Some (im_get r (specified_resources t)).
Proof. rewrite <- not_eq_None_Some, im_get_None. destruct (decide (r ∈ keys t)); tauto. Qed.

(** The balances after those that satisfy [P] have been added. *)
Definition join_some (P : ResourceAddress -> Prop) `{!forall r, Decision (P r)} (A W2 : Balances) : Balances :=
  fun r => if decide (P r) then join (A r) (W2 r) else A r.

Lemma join_some_step (P Q : ResourceAddress -> Prop) `{!forall r, Decision (P r)} `{!forall r, Decision (Q r)} A W2 r t :
  ~ P r -> (forall r', Q r' <-> r' = r \/ P r') ->
  holds t (join_some P (update_balance A r (join (A r) (W2 r))) W2) -> holds t (join_some Q A W2).
Proof.
  intros HP HQ. apply holds_ext. intros r'. unfold join_some, update_balance. specialize (HQ r').
  destruct (decide (r' = r)) as [->|]; repeat case_decide; done || tauto.
Qed.

Lemma balances_ok_update A r b : balances_ok A -> balance_ok (is_fungible r) b -> balances_ok (update_balance A r b).
Proof. intros HA Hb r'. unfold update_balance. by destruct (decide (r' = r)) as [->|]. Qed.

(** What a step of the loops of [mut_add] does to one resource. *)
Lemma join_step t A W2 r e :
  balances_ok A -> balance_ok (is_fungible r) (W2 r) -> balance_ok (is_fungible r) (join (A r) (W2 r)) ->
  holds t A -> bounded (is_fungible r) (bounds e) (W2 r) ->
  wlp (on_resource r (tracked_add_from (ME := ME) e)) t (fun _ t' =>
    holds t' (update_balance A r (join (A r) (W2 r))) /\ unspecified_resources t' = unspecified_resources t /\
    forall r', r' ∈ keys t' <-> r' = r \/ r' ∈ keys t).
Proof.
  intros HA H2 Hj Ht He. apply wlp_on_resource.
  eapply wlp_mono; [apply (tracked_add_from_sound (is_fungible r) _ _ (A r) (W2 r)); try done; apply Ht|].
  intros [] s Hs. split_and!; [by apply holds_put|done|]. intros r'. apply elem_of_keys_put.
Qed.

Lemma add_unspecified_sound other W2 ks t A :
  NoDup ks -> balances_ok A -> balances_ok W2 ->
  (forall r, r ∈ ks -> balance_ok (is_fungible r) (join (A r) (W2 r))) ->
  (forall r, r ∉ keys other -> bounded (is_fungible r) (bounds (unspecified_status (unspecified_resources other))) (W2 r)) ->
  (forall r, r ∈ ks -> r ∈ keys t) -> holds t A ->
  wlp (add_unspecified (ME := ME) other ks) t (fun _ t' =>
    holds t' (join_some (fun r => r ∈ ks /\ r ∉ keys other) A W2) /\
    unspecified_resources t' = unspecified_resources t /\ forall r, r ∈ keys t' <-> r ∈ keys t).
Proof.
  intros Hnd HA HW2 Hj Hb Hk Ht. revert t A HA Hj Hk Ht. induction ks as [|r ks IH]; intros t A HA Hj Hk Ht; cbn [add_unspecified].
  - apply wlp_ret. split_and!; [|done|done]. eapply holds_ext; [|done]. intros r. unfold join_some.
    rewrite decide_False by set_solver. done.
  - apply NoDup_cons in Hnd as [Hr Hnd]. apply wlp_bind. case_bool_decide as Hc.
    + apply wlp_ret. eapply wlp_mono; [apply (IH Hnd t A); try done; intros; (apply Hj || apply Hk); by right|].
      intros [] t' (Ht' & ? & ?). split_and!; try done. eapply holds_ext; [|done]. intros r'. unfold join_some.
      apply elem_of_keys in Hc. destruct (decide (r' = r)) as [->|].
      * by rewrite !decide_False by tauto.
      * destruct (decide (r' ∈ ks /\ r' ∉ keys other)); [rewrite decide_True by (rewrite elem_of_cons; tauto)|rewrite decide_False by (rewrite elem_of_cons; tauto)]; done.
    + eapply wlp_mono; [apply (join_step t A W2 r); try done; [apply Hj; by left|apply Hb]|].
      { intros Hi%elem_of_keys. done. }
      intros [] t' (Ht' & Hu & Hkt).
      eapply wlp_mono; [apply (IH Hnd t' (update_balance A r (join (A r) (W2 r))))|].
      * apply balances_ok_update; [done|]. apply Hj. by left.
      * intros r' Hr'. unfold update_balance. rewrite decide_False by (by intros ->). apply Hj. by right.
      * intros r' Hr'. apply Hkt. right. apply Hk. by right.
      * done.
      * intros [] t2 (Ht2 & Hu2 & Hk2). split_and!; [|congruence|].
        2:{ intros r'. rewrite Hk2, Hkt. split; [|by right]. intros [->|?]; [apply Hk; by left|done]. }
        eapply join_some_step; [| |done]; [cbn; tauto|]. intros r'. cbn. rewrite elem_of_cons.
        split; [tauto|]. intros [->|?]; [|tauto]. split; [by left|]. intros Hi%elem_of_keys. done.
Qed.

Lemma add_specified_sound W2 m t A :
  NoDup (im_keys m) -> balances_ok A -> balances_ok W2 ->
  (forall r, r ∈ im_keys m -> balance_ok (is_fungible r) (join (A r) (W2 r))) ->
  (forall r e, (r, e) ∈ m -> bounded (is_fungible r) (bounds e) (W2 r)) -> holds t A ->
  wlp (add_specified (ME := ME) m) t (fun _ t' =>
    holds t' (join_some (fun r => r ∈ im_keys m) A W2) /\
    unspecified_resources t' = unspecified_resources t /\ forall r, r ∈ keys t' <-> r ∈ im_keys m \/ r ∈ keys t).
Proof.
  intros Hnd HA HW2 Hj Hb Ht. revert t A HA Hj Ht. induction m as [|[r e] m IH]; intros t A HA Hj Ht; cbn [add_specified].
  - apply wlp_ret. split_and!; [|done|intros r; split; [by right|]].
    + eapply holds_ext; [|done]. intros r. unfold join_some. rewrite decide_False; [done|]. apply not_elem_of_nil.
    + intros [Hi|?]; [by apply not_elem_of_nil in Hi|done].
  - apply NoDup_cons in Hnd as [Hr Hnd]. change (im_keys ((r, e) :: m)) with (r :: im_keys m) in *. apply wlp_bind.
    eapply wlp_mono; [apply (join_step t A W2 r); try done; [apply Hj; by left|apply Hb; by left]|].
    intros [] t' (Ht' & Hu & Hkt).
    eapply wlp_mono; [apply (IH Hnd); [intros; apply Hb; by right| | | ]|].
    + apply balances_ok_update; [apply HA|]. apply Hj. by left.
    + intros r' Hr'. unfold update_balance. rewrite decide_False by (by intros ->). apply Hj. by right.
    + done.
    + intros [] t2 (Ht2 & Hu2 & Hk2). split_and!; [|congruence|].
      * eapply join_some_step; [| |done]; [done|]. intros r'. cbn. by rewrite elem_of_cons.
      * intros r'. rewrite Hk2, Hkt, elem_of_cons. tauto.
Qed.

Lemma resources_mut_add_sound t other W W2 :
  balances_ok W -> balances_ok W2 -> balances_ok (join_all W W2) -> holds t W -> holds other W2 ->
  wlp (resources_mut_add (ME := ME) other) t (fun _ t' => holds t' (join_all W W2)).
Proof.
  intros HW HW2 Hj Ht Ho. unfold resources_mut_add. apply wlp_bind, wlp_gets. cbn [id].
  assert (forall r, r ∉ keys other -> bounded (is_fungible r) (bounds (unspecified_status (unspecified_resources other))) (W2 r)) as Hun.
  { intros r Hr%im_get_None. pose proof (holds_status _ _ Ho r) as Hs. unfold resource_status in Hs. by rewrite Hr in Hs. }
  assert (unspecified_resources other = NonePresent -> forall r, r ∉ keys other -> W2 r = zero_balance) as Hnone.
  { intros Hu r Hr. specialize (Hun r Hr). rewrite Hu in Hun. by eapply is_zero_balance; [apply HW2|apply Hun|]. }
  apply wlp_bind, wlp_mono with (fun _ t1 =>
    holds t1 (join_some (fun r => r ∈ keys t /\ r ∉ keys other) W W2) /\
    unspecified_resources t1 = unspecified_resources t /\ forall r, r ∈ keys t1 <-> r ∈ keys t).
  { destruct (may_be_present (unspecified_resources other)) eqn:Hm.
    - apply add_unspecified_sound; try done. apply Ht.
    - apply wlp_ret. split_and!; [|done|done]. eapply holds_ext; [|done]. intros r. unfold join_some. case_decide as Hc; [|done].
      rewrite Hnone; [by rewrite join_zero_r| |by destruct Hc]. by destruct (unspecified_resources other). }
  intros [] t1 (Ht1 & Hu1 & Hk1). apply wlp_bind.
  eapply wlp_mono; [apply (add_specified_sound W2 (specified_resources other) t1 (join_some (fun r => r ∈ keys t /\ r ∉ keys other) W W2))|].
  - apply Ho.
  - intros r. unfold join_some. case_decide; [apply Hj|apply HW].
  - done.
  - intros r Hr. unfold join_some. rewrite decide_False by tauto. apply Hj.
  - intros r e He. pose proof (holds_status _ _ Ho r) as Hs. unfold resource_status in Hs.
    by rewrite (im_elem_get _ _ _ (holds_map _ _ Ho) He) in Hs.
  - done.
  - intros [] t2 (Ht2 & Hu2 & Hk2). apply wlp_modify. split; [apply Ht2|]. intros r.
    pose proof (holds_status _ _ Ht2 r) as Hs. unfold resource_status, with_unspecified in *. cbn.
    destruct (im_get r (specified_resources t2)) as [s|] eqn:Hr; cbn in *.
    + assert (r ∈ keys t2) as Hkr by by apply elem_of_keys. apply Hk2 in Hkr. rewrite Hk1 in Hkr.
      unfold join_some, join_all in *. repeat case_decide; done || tauto.
    + apply im_get_None in Hr. rewrite Hk2, Hk1 in Hr. unfold join_some, join_all in *.
      rewrite !decide_False in Hs by tauto. rewrite Hu2, Hu1 in *.
      destruct (unspecified_resources other) as [|srcs] eqn:Huo; cbn.
      * rewrite Hnone by (done || tauto). by rewrite join_zero_r.
      * destruct (unspecified_resources t); cbn; apply bounded_zero_or_more; apply Hj.
Qed.

(** *** Assertions on all resources *)

Lemma assert_listed_sound c source t W :
  balances_ok W -> holds t W ->
  (forall r k, (r, k) ∈ c -> constraint_ok (is_fungible r) k /\ constraint_sat (is_fungible r) k (W r)) ->
  wlp (assert_listed (ME := ME) c source) t (fun _ t' =>
    holds t' W /\ unspecified_resources t' = unspecified_resources t /\
    forall r, r ∈ im_keys c \/ r ∈ keys t -> r ∈ keys t').
Proof.
  intros HW Ht Hc. revert t Ht. induction c as [|[r k] c IH]; intros t Ht; cbn [assert_listed].
  { apply wlp_ret. split_and!; [done|done|]. intros r [Hr|?]; [by apply not_elem_of_nil in Hr|done]. }
  destruct (Hc r k) as [Hok Hsat]; [by left|]. apply wlp_bind.
  eapply wlp_mono; [by apply (new_for_manifest_constraint_sound (is_fungible r) k (W r))|].
  intros a t0 [Ha ->]. apply wlp_bind, wlp_on_resource.
  eapply wlp_mono; [apply (tracked_handle_assertion_sound (is_fungible r) _ _ _ (W r)); [apply HW|apply Ht|done]|].
  intros [] s Hs. eapply wlp_mono; [apply IH; [intros; apply Hc; by right|]|].
  { eapply holds_ext; [|by apply holds_put]. intros r'. unfold update_balance. by destruct (decide (r' = r)) as [->|]. }
  intros [] t' (Ht' & Hu & Hk). split_and!; [done|by rewrite Hu|]. intros r' Hr'. apply Hk.
  rewrite elem_of_keys_put. change (im_keys ((r, k) :: c)) with (r :: im_keys c) in Hr'. rewrite elem_of_cons in Hr'. tauto.
Qed.

Lemma assert_unlisted_zero_sound c source ks t W :
  balances_ok W -> holds t W -> (forall r, im_get r c = None -> W r = zero_balance) ->
  wlp (assert_unlisted_zero (ME := ME) c source ks) t (fun _ t' =>
    holds t' W /\ unspecified_resources t' = unspecified_resources t).
Proof.
  intros HW Ht Hz. revert t Ht. induction ks as [|r ks IH]; intros t Ht; cbn [assert_unlisted_zero]; [by apply wlp_ret|].
  apply wlp_bind. unfold contains_specified_resource. case_bool_decide as Hc; [by apply wlp_ret, IH|].
  eapply wlp_mono; [apply handle_assertion_sound; [done|done|]|].
  { rewrite (Hz r); [apply bounded_zero|by apply eq_None_not_Some]. }
  intros [] t' [Ht' Hu]. eapply wlp_mono; [by apply IH|]. intros [] t2 [? ?]. split; congruence.
Qed.

Lemma handle_resources_only_assertion_sound c source t W :
  balances_ok W -> holds t W ->
  (forall r k, (r, k) ∈ c -> constraint_ok (is_fungible r) k /\ constraint_sat (is_fungible r) k (W r)) ->
  (forall r, im_get r c = None -> W r = zero_balance) ->
  wlp (handle_resources_only_assertion (ME := ME) c source) t (fun _ t' => holds t' W).
Proof.
  intros HW Ht Hc Hz. unfold handle_resources_only_assertion. apply wlp_bind, wlp_gets, wlp_bind.
  eapply wlp_mono; [by apply assert_unlisted_zero_sound|]. intros [] t1 [Ht1 _]. apply wlp_bind.
  eapply wlp_mono; [by apply assert_listed_sound|]. intros [] t2 (Ht2 & _ & Hk). apply wlp_bind, wlp_modify, wlp_modify.
  apply mut_normalize_holds; [done|]. split; [apply Ht2|]. intros r.
  pose proof (holds_status _ _ Ht2 r) as Hs. unfold resource_status in *. cbn.
  destruct (im_get r (specified_resources t2)) as [s|] eqn:Hr; [done|]. cbn.
  rewrite (Hz r); [apply bounded_zero|]. apply im_get_None. apply im_get_None in Hr. intros Hi. apply Hr, Hk. by left.
Qed.

Lemma handle_resources_include_assertion_sound c source t W :
  balances_ok W -> holds t W ->
  (forall r k, (r, k) ∈ c -> constraint_ok (is_fungible r) k /\ constraint_sat (is_fungible r) k (W r)) ->
  wlp (handle_resources_include_assertion (ME := ME) c source) t (fun _ t' => holds t' W).
Proof.
  intros HW Ht Hc. unfold handle_resources_include_assertion. apply wlp_bind.
  eapply wlp_mono; [by apply assert_listed_sound|]. intros [] t2 (Ht2 & _ & _). apply wlp_modify. by apply mut_normalize_holds.
Qed.
End AllResources.
End BoundsLemmas.

(** ** Observations *)

Module BoundsExamples.

(** After at least the id 1 is known to be present, taking the id 2 is refused:
    the lower bound has dropped below the number of required ids, which the
    balance of both ids satisfies. *)
Example at_least_then_take_other :
  let g := mk_general [IdInteger 1] (LowerInclusive ONE) Unbounded AnyIds in
  sat g (mk_balance (2 * ONE) [IdInteger 1; IdInteger 2]) /\
  exists g', bounds_mut_take (ME := Empty_set) (TakeNonFungibles [IdInteger 2]) g = Done (Err TakeCannotBeSatisfied, g').
Proof.
  split; [|eexists; vm_compute; reflexivity].
  constructor; cbn; [by rewrite ONE_val|done| |done].
  intros i. rewrite !elem_of_cons. tauto.
Qed.

(** An assertion on a balance is refused when fewer ids are allowed by both
    than the upper bound, although a balance satisfies both. *)
Example intersecting_allowlists_refused :
  let g := mk_general [] lower_zero (UpperInclusive (2 * ONE)) (Allowlist [IdInteger 1; IdInteger 2]) in
  let a := mk_general [] lower_zero (UpperInclusive (2 * ONE)) (Allowlist [IdInteger 2; IdInteger 3]) in
  let b := mk_balance ONE [IdInteger 2] in
  sat g b /\ sat a b /\
  exists g', bounds_mut_handle_assertion (ME := Empty_set) a g = Done (Err AssertionCannotBeSatisfied, g').
Proof.
  intros g a b. split; [|split; [|eexists; vm_compute; reflexivity]].
  all: constructor; cbn [lower_zero ZERO required_ids lower_bound upper_bound allowed_ids lower_sat upper_sat allowed_sat b_amount b_ids g a b].
  all: try solve [vm_compute; congruence]; intros i; rewrite ?elem_of_cons, ?elem_of_nil; tauto.
Qed.

(** Asserting the presence of an id outside the exact ids of a balance is
    accepted, and leaves bounds that no balance satisfies. *)
Example impossible_assertion_accepted :
  let g := mk_general [IdInteger 1] (LowerInclusive ONE) (UpperInclusive ONE) (Allowlist [IdInteger 1]) in
  let a := mk_general [IdInteger 2] (LowerInclusive ONE) Unbounded AnyIds in
  exists g', bounds_mut_handle_assertion (ME := Empty_set) a g = Done (Ok tt, g') /\
    is_valid_independent_of_resource_type g' = false.
Proof. eexists. split; [vm_compute; reflexivity|vm_compute; reflexivity]. Qed.
End BoundsExamples.
