(* ===== verification/Traversal.v ===== *)
(** * Traversal of SBOR payloads

    The streaming reader of payloads (sbor/src/traversal/untyped/): a stack
    machine that turns the bytes of a value into a sequence of events, one per
    terminal value and two per container, without building the value.  The
    engine uses it to find the nodes a value owns and refers to
    (radix-engine-interface/src/types/indexed_value.rs).  Its specification is
    the codec of [Sbor]: on every payload the traversal ends, it reports an
    error exactly where decoding fails, and otherwise its events are those of
    the decoded value, in order. *)

From S2P Require Import Prelude Track Bytes Sbor SborCustom.
Import Int CodecTheory SborTheory.

(** ** Events *)

Inductive ContainerHeader (X : Type) : Type :=
| HTuple (length : Z)
| HEnumVariant (variant length : Z)
| HArray (element_value_kind : ValueKind X) (length : Z)
| HMap (key_value_kind value_value_kind : ValueKind X) (length : Z).
Arguments HTuple {X} length. Arguments HEnumVariant {X} variant length.
Arguments HArray {X} element_value_kind length.
Arguments HMap {X} key_value_kind value_value_kind length.

Inductive TerminalValueRef (Y : Type) : Type :=
| TBool (value : bool)
| TI8 (value : Z) | TI16 (value : Z) | TI32 (value : Z) | TI64 (value : Z) | TI128 (value : Z)
| TU8 (value : Z) | TU16 (value : Z) | TU32 (value : Z) | TU64 (value : Z) | TU128 (value : Z)
| TString (value : list Z)
| TCustom (value : Y).
Arguments TBool {Y}. Arguments TI8 {Y}. Arguments TI16 {Y}. Arguments TI32 {Y}.
Arguments TI64 {Y}. Arguments TI128 {Y}. Arguments TU8 {Y}. Arguments TU16 {Y}.
Arguments TU32 {Y}. Arguments TU64 {Y}. Arguments TU128 {Y}. Arguments TString {Y}.
Arguments TCustom {Y}.

Inductive TraversalEvent (X Y : Type) : Type :=
| ContainerStart (header : ContainerHeader X)
| ContainerEnd (header : ContainerHeader X)
| TerminalValue (value : TerminalValueRef Y)
| TerminalValueBatch (bytes : list Z)
| TraversalEnd
| TraversalError (e : DecodeError).
Arguments ContainerStart {X Y}. Arguments ContainerEnd {X Y}. Arguments TerminalValue {X Y}.
Arguments TerminalValueBatch {X Y}. Arguments TraversalEnd {X Y}. Arguments TraversalError {X Y}.

(** ** The traverser *)

Record AncestorState (X : Type) : Type := mk_ancestor {
  container_header : ContainerHeader X;
  container_start_offset : nat;
  current_child_index : Z
}.
Arguments mk_ancestor {X}. Arguments container_header {X}.
Arguments container_start_offset {X}. Arguments current_child_index {X}.

(** The path of containers is kept with the current container first. *)
Record LocatedTraversalEvent (X Y : Type) : Type := mk_located {
  start_offset : nat;
  end_offset : nat;
  location_path : list (AncestorState X);
  event : TraversalEvent X Y
}.
Arguments mk_located {X Y}. Arguments start_offset {X Y}. Arguments end_offset {X Y}.
Arguments location_path {X Y}. Arguments event {X Y}.

Inductive NextAction (X : Type) : Type :=
| ReadPrefix (expected_prefix : Z)
| ReadRootValue
| ReadRootValueBody (implicit_value_kind : ValueKind X)
| ReadContainerContentStart (header : ContainerHeader X) (start : nat)
| ReadNextChildOrExitContainer
| Errored
| Ended
| InProgressPlaceholder.
Arguments ReadPrefix {X}. Arguments ReadRootValue {X}. Arguments ReadRootValueBody {X}.
Arguments ReadContainerContentStart {X}. Arguments ReadNextChildOrExitContainer {X}.
Arguments Errored {X}. Arguments Ended {X}. Arguments InProgressPlaceholder {X}.

Inductive ExpectedStart (X : Type) : Type :=
| PayloadPrefix (prefix : Z)
| StartValue
| StartValueBody (value_kind : ValueKind X).
Arguments PayloadPrefix {X}. Arguments StartValue {X}. Arguments StartValueBody {X}.

Record VecTraverserConfig : Type := mk_config { max_depth : nat; check_exact_end : bool }.

Record VecTraverser (X : Type) : Type := mk_traverser {
  decoder : VecDecoder;
  ancestor_path : list (AncestorState X);
  next_action : NextAction X;
  config : VecTraverserConfig
}.
Arguments mk_traverser {X}. Arguments decoder {X}. Arguments ancestor_path {X}.
Arguments next_action {X}. Arguments config {X}.

Section Traverser.
Context {X Y : Type} `{CustomValue X Y}.
Abbreviation Event := (TraversalEvent X Y).
Abbreviation Located := (LocatedTraversalEvent X Y).

Definition get_own_value_kind (h : ContainerHeader X) : ValueKind X :=
  match h with HTuple _ => KTuple | HEnumVariant _ _ => KEnum | HArray _ _ => KArray | HMap _ _ _ => KMap end.

Definition get_child_count (h : ContainerHeader X) : Z :=
  match h with
  | HTuple length | HEnumVariant _ length | HArray _ length => length
  | HMap _ _ length => wrap_u 64 (length * 2)
  end.

Definition get_implicit_child_value_kind (h : ContainerHeader X) (index : Z) : option (ValueKind X) :=
  match h with
  | HTuple _ | HEnumVariant _ _ => None
  | HArray k _ => Some k
  | HMap k1 k2 _ => if index mod 2 =? 0 then Some k1 else Some k2
  end.

Definition get_implicit_value_kind_of_current_child (s : AncestorState X) : option (ValueKind X) :=
  get_implicit_child_value_kind (container_header s) (current_child_index s).

Definition traverser_new (input : list Z) (expected_start : ExpectedStart X) (c : VecTraverserConfig) :
    VecTraverser X :=
  mk_traverser (VecDecoder_new input (max_depth c)) []
    match expected_start with
    | PayloadPrefix prefix => ReadPrefix prefix
    | StartValue => ReadRootValue
    | StartValueBody value_kind => ReadRootValueBody value_kind
    end c.

(** *** Reading

    A reading either completes an event or, where the decoder fails, completes
    with its error ([handle_error!]). *)

Abbreviation Reading := (Dec (Event * NextAction X)).

Definition read_terminal_value {V} (value_ref_constructor : V -> TerminalValueRef Y) (m : Dec V) : Reading :=
  value ← m;
  mret (TerminalValue (value_ref_constructor value), ReadNextChildOrExitContainer).

Definition complete_container_start (start : nat) (header : ContainerHeader X) : Event * NextAction X :=
  (ContainerStart header, ReadContainerContentStart header start).

Definition read_value_body (start : nat) (value_kind : ValueKind X) : Reading :=
  let k := value_kind in
  match value_kind with
  | KBool => read_terminal_value TBool (decode_body_bool k)
  | KI8 => read_terminal_value TI8 (decode_body_i8 k)
  | KI16 => read_terminal_value TI16 (decode_body_int KI16 2 i_from_le_bytes k)
  | KI32 => read_terminal_value TI32 (decode_body_int KI32 4 i_from_le_bytes k)
  | KI64 => read_terminal_value TI64 (decode_body_int KI64 8 i_from_le_bytes k)
  | KI128 => read_terminal_value TI128 (decode_body_int KI128 16 i_from_le_bytes k)
  | KU8 => read_terminal_value TU8 (decode_body_u8 k)
  | KU16 => read_terminal_value TU16 (decode_body_int KU16 2 u_from_le_bytes k)
  | KU32 => read_terminal_value TU32 (decode_body_int KU32 4 u_from_le_bytes k)
  | KU64 => read_terminal_value TU64 (decode_body_int KU64 8 u_from_le_bytes k)
  | KU128 => read_terminal_value TU128 (decode_body_int KU128 16 u_from_le_bytes k)
  | KString =>
      length ← read_size;
      bytes ← read_slice length;
      string_body ← lift_result (ok_or (from_utf8 bytes) InvalidUtf8);
      mret (TerminalValue (TString string_body), ReadNextChildOrExitContainer)
  | KArray =>
      element_value_kind ← read_value_kind;
      length ← read_size;
      mret (complete_container_start start (HArray element_value_kind length))
  | KMap =>
      key_value_kind ← read_value_kind;
      value_value_kind ← read_value_kind;
      length ← read_size;
      mret (complete_container_start start (HMap key_value_kind value_value_kind length))
  | KEnum =>
      variant ← read_byte;
      length ← read_size;
      mret (complete_container_start start (HEnumVariant variant length))
  | KTuple =>
      length ← read_size;
      mret (complete_container_start start (HTuple length))
  | KCustom _ => read_terminal_value TCustom (custom_decode_body k)
  end.

Definition read_value (start : nat) (implicit_value_kind : option (ValueKind X)) : Reading :=
  value_kind ← match implicit_value_kind with Some k => mret k | None => read_value_kind end;
  read_value_body start value_kind.

Definition read_byte_array (array_length : Z) : Reading :=
  bytes ← read_slice array_length;
  mret (TerminalValueBatch bytes, ReadNextChildOrExitContainer).

Definition read_end (c : VecTraverserConfig) : Reading :=
  (if check_exact_end c then check_end else mret tt);;
  mret (TraversalEnd, Ended).

Definition complete_container_end (header : ContainerHeader X) : Reading :=
  mret (ContainerEnd header, ReadNextChildOrExitContainer).

(** [ActionHandler::complete] and [complete_with_error], in the state of the
    traverser. *)
Definition perform (c : VecTraverserConfig) (start : nat) (path : list (AncestorState X)) (d : VecDecoder)
    (m : Reading) : Exec (Located * VecTraverser X) :=
  match m d with
  | Done (Ok (ev, next), d') => Done (mk_located start (offset d') path ev, mk_traverser d' path next c)
  | Done (Err e, d') =>
      Done (mk_located start (offset d') path (TraversalError e), mk_traverser d' path Errored c)
  | Panicked => Panicked
  end.

Definition is_byte_array (h : ContainerHeader X) : bool :=
  match h with HArray k _ => bool_decide (k = KU8) | _ => false end.

(** [step], which [next_event] calls. *)
Definition next_event (t : VecTraverser X) : Exec (Located * VecTraverser X) :=
  let c := config t in
  let d := decoder t in
  let path := ancestor_path t in
  match next_action t with
  | ReadPrefix expected_prefix =>
      match read_and_check_payload_prefix expected_prefix d with
      | Done (Ok _, d') => perform c (offset d') path d' (read_value (offset d') None)
      | Done (Err e, d') => perform c (offset d) path d' (throw e)
      | Panicked => Panicked
      end
  | ReadRootValue => perform c (offset d) path d (read_value (offset d) None)
  | ReadRootValueBody k => perform c (offset d) path d (read_value (offset d) (Some k))
  | ReadContainerContentStart header start =>
      let container_child_size := get_child_count header in
      if container_child_size =? 0 then perform c start path d (complete_container_end header)
      else
        let parent := mk_ancestor header start 0 in
        let path' := parent :: path in
        if (max_depth c <=? length path')%nat
        then perform c (offset d) path' d (throw (DecodeMaxDepthExceeded (max_depth c)))
        else if is_byte_array header then
          let path' := mk_ancestor header start (container_child_size - 1) :: path in
          perform c (offset d) path' d (read_byte_array container_child_size)
        else perform c (offset d) path' d (read_value (offset d) (get_implicit_value_kind_of_current_child parent))
  | ReadNextChildOrExitContainer =>
      match path with
      | parent :: rest =>
          let next_child_index := wrap_u 64 (current_child_index parent + 1) in
          if get_child_count (container_header parent) <=? next_child_index
          then perform c (container_start_offset parent) rest d (complete_container_end (container_header parent))
          else
            let parent := mk_ancestor (container_header parent) (container_start_offset parent) next_child_index in
            perform c (offset d) (parent :: rest) d
              (read_value (offset d) (get_implicit_value_kind_of_current_child parent))
      | [] => perform c (offset d) [] d (read_end c)
      end
  | Errored | Ended | InProgressPlaceholder => Panicked
  end.

(** The events of a traverser until it ends or fails. *)
Fixpoint traverse (fuel : nat) (t : VecTraverser X) : Exec (list Event) :=
  match fuel with
  | O => Panicked
  | S f =>
      r ← next_event t;
      match event r.1 with
      | TraversalEnd | TraversalError _ => Done [event r.1]
      | ev => evs ← traverse f r.2; Done (ev :: evs)
      end
  end.

(** Every event but the end of a container consumes a byte, and a container
    ends once: enough for any input. *)
Definition traversal_fuel (input : list Z) : nat := 3 * length input + 3.

(** [calculate_value_tree_body_byte_length]; the current depth of a decoder is
    at most its limit. *)
Fixpoint byte_length_loop (fuel : nat) (t : VecTraverser X) : Exec (Result DecodeError nat) :=
  match fuel with
  | O => Panicked
  | S f =>
      r ← next_event t;
      match event r.1 with
      | TraversalEnd => Done (Ok (end_offset r.1))
      | TraversalError e => Done (Err e)
      | _ => byte_length_loop f r.2
      end
  end.

Definition calculate_value_tree_body_byte_length (partial_payload : list Z) (value_kind : ValueKind X)
    (current_depth depth_limit : nat) : Exec (Result DecodeError nat) :=
  byte_length_loop (traversal_fuel partial_payload)
    (traverser_new partial_payload (StartValueBody value_kind)
      (mk_config (depth_limit - current_depth) false)).
End Traverser.

(** ** Specification

    The events of a value, by recursion on the value. *)

Module TraversalSpec.
Section Events.
Context {X Y : Type} `{CustomValue X Y}.
Implicit Types (v : Value Y X).

Definition len {A} (l : list A) : Z := Z.of_nat (length l).

Definition byte_of v : Z := match v with VU8 z => z | _ => 0 end.

(** The elements of a byte array come in one batch. *)
Definition content_events (events : Value Y X -> list (TraversalEvent X Y)) (h : ContainerHeader X)
    (children : list (Value Y X)) : list (TraversalEvent X Y) :=
  match children with
  | [] => []
  | _ => if is_byte_array h then [TerminalValueBatch (map byte_of children)] else children ≫= events
  end.

Definition container (h : ContainerHeader X) (content : list (TraversalEvent X Y)) :
    list (TraversalEvent X Y) := ContainerStart h :: content ++ [ContainerEnd h].

Fixpoint value_events v : list (TraversalEvent X Y) :=
  match v with
  | VBool b => [TerminalValue (TBool b)]
  | VI8 z => [TerminalValue (TI8 z)]
  | VI16 z => [TerminalValue (TI16 z)]
  | VI32 z => [TerminalValue (TI32 z)]
  | VI64 z => [TerminalValue (TI64 z)]
  | VI128 z => [TerminalValue (TI128 z)]
  | VU8 z => [TerminalValue (TU8 z)]
  | VU16 z => [TerminalValue (TU16 z)]
  | VU32 z => [TerminalValue (TU32 z)]
  | VU64 z => [TerminalValue (TU64 z)]
  | VU128 z => [TerminalValue (TU128 z)]
  | VString s => [TerminalValue (TString s)]
  | VCustom y => [TerminalValue (TCustom y)]
  | VTuple l => container (HTuple (len l)) (l ≫= value_events)
  | VEnum d l => container (HEnumVariant d (len l)) (l ≫= value_events)
  | VArray k l =>
      container (HArray k (len l))
        match l with
        | [] => []
        | _ => if bool_decide (k = KU8) then [TerminalValueBatch (map byte_of l)] else l ≫= value_events
        end
  | VMap k1 k2 l =>
      container (HMap k1 k2 (len l)) (l ≫= (fun '(key, value) => value_events key ++ value_events value))
  end.

(** The custom values in a value, in the order of their positions. *)
Fixpoint customs v : list Y :=
  match v with
  | VTuple l | VEnum _ l | VArray _ l => l ≫= customs
  | VMap _ _ l => l ≫= (fun '(key, value) => customs key ++ customs value)
  | VCustom y => [y]
  | _ => []
  end.

Definition event_custom (e : TraversalEvent X Y) : list Y :=
  match e with TerminalValue (TCustom y) => [y] | _ => [] end.

(** Header and children of a container. *)
Definition unfold_value v : option (ContainerHeader X * list (Value Y X)) :=
  match v with
  | VTuple l => Some (HTuple (len l), l)
  | VEnum d l => Some (HEnumVariant d (len l), l)
  | VArray k l => Some (HArray k (len l), l)
  | VMap k1 k2 l => Some (HMap k1 k2 (len l), l ≫= (fun '(key, value) => [key; value]))
  | _ => None
  end.

Definition terminal_of v : option (TerminalValueRef Y) :=
  match v with
  | VBool b => Some (TBool b)
  | VI8 z => Some (TI8 z) | VI16 z => Some (TI16 z) | VI32 z => Some (TI32 z)
  | VI64 z => Some (TI64 z) | VI128 z => Some (TI128 z)
  | VU8 z => Some (TU8 z) | VU16 z => Some (TU16 z) | VU32 z => Some (TU32 z)
  | VU64 z => Some (TU64 z) | VU128 z => Some (TU128 z)
  | VString s => Some (TString s)
  | VCustom y => Some (TCustom y)
  | _ => None
  end.

Definition header_length (h : ContainerHeader X) : Z :=
  match h with HTuple n | HEnumVariant _ n | HArray _ n | HMap _ _ n => n end.

Definition header_ok (h : ContainerHeader X) : Prop :=
  0 <= header_length h <= MAX_SIZE /\
  match h with HEnumVariant d _ => in_u 8 d = true | _ => True end.

Definition header_bytes (h : ContainerHeader X) : list Z :=
  match h with
  | HTuple n => size_bytes n
  | HEnumVariant d n => [d] ++ size_bytes n
  | HArray k n => [as_u8 k] ++ size_bytes n
  | HMap k1 k2 n => [as_u8 k1] ++ [as_u8 k2] ++ size_bytes n
  end.
End Events.
End TraversalSpec.
Import TraversalSpec.

Module TraversalTheory.
Section Theory.
Context {X Y : Type} `{CustomValueLaws X Y}.
Implicit Types (v : Value Y X) (k : ValueKind X) (h : ContainerHeader X).

(** *** Events of containers and their children *)

Lemma max_child h : header_ok h -> 0 <= get_child_count h <= 2 * MAX_SIZE /\
  get_child_count h = match h with HMap _ _ n => 2 * n | _ => header_length h end.
Proof.
  intros [Hl _]. destruct h; cbn in *; try lia. unfold wrap_u, MAX_SIZE in *.
  rewrite Z.mod_small by lia. lia.
Qed.

Lemma terminal_events v e : terminal_of v = Some e -> value_events v = [TerminalValue e].
Proof. destruct v; cbn; intros; by simplify_eq. Qed.

Lemma is_byte_array_spec k n : is_byte_array (HArray k n) = bool_decide (k = KU8).
Proof. done. Qed.

Lemma pairs_bind {B} (g : Value Y X -> list B) (l : list (Value Y X * Value Y X)) :
  (l ≫= (fun '(a, b) => [a; b])) ≫= g = l ≫= (fun '(a, b) => g a ++ g b).
Proof. induction l as [|[a b] l IH]; cbn; [done|]. rewrite IH. by rewrite app_assoc. Qed.

Lemma pairs_length (l : list (Value Y X * Value Y X)) :
  length (l ≫= (fun '(a, b) => [a; b])) = (2 * length l)%nat.
Proof. induction l as [|[a b] l IH]; cbn in *; [done|]. rewrite IH. lia. Qed.

Lemma container_events v h l : unfold_value v = Some (h, l) ->
  value_events v = container h (content_events value_events h l).
Proof.
  destruct v; cbn; intros [= <- <-]; try done; try (by destruct fields).
  unfold content_events. pose proof (pairs_bind value_events entries) as Hp.
  destruct (entries ≫= (fun '(a, b) => [a; b])) eqn:E.
  - rewrite <- Hp. done.
  - cbn [is_byte_array]. by rewrite Hp.
Qed.

(** What the position of a child tells about its kind and its bytes. *)
Definition kid_kind h (i : Z) v : Prop :=
  match get_implicit_child_value_kind h i with Some k => get_value_kind v = k | None => True end.

Definition kid_bytes h (i : Z) v : list Z :=
  match get_implicit_child_value_kind h i with Some _ => body_bytes v | None => field_bytes v end.

Fixpoint kids_kind h (i : Z) (l : list (Value Y X)) : Prop :=
  match l with [] => True | v :: l => kid_kind h i v /\ kids_kind h (i + 1) l end.

Fixpoint kids_bytes h (i : Z) (l : list (Value Y X)) : list Z :=
  match l with [] => [] | v :: l => kid_bytes h i v ++ kids_bytes h (i + 1) l end.

Definition kid_ok (n : nat) v : Prop := value_ok v = true /\ encodable v = true /\ (S (height v) <= n)%nat.

Lemma kids_bytes_fields h i l : (forall j, get_implicit_child_value_kind h j = None) ->
  kids_bytes h i l = l ≫= field_bytes.
Proof. intros Hn. revert i. induction l as [|v l IH]; intros i; cbn; [done|]. rewrite IH. unfold kid_bytes. by rewrite Hn. Qed.

Lemma kids_kind_fields h i l : (forall j, get_implicit_child_value_kind h j = None) -> kids_kind h i l.
Proof. intros Hn. revert i. induction l as [|v l IH]; intros i; cbn; [done|]. split; [|apply IH]. unfold kid_kind. by rewrite Hn. Qed.

Lemma kids_bytes_array k n i l : kids_bytes (HArray k n) i l = l ≫= body_bytes.
Proof. revert i. induction l as [|v l IH]; intros i; cbn; [done|]. by rewrite IH. Qed.

Lemma kids_kind_array k n i l : kids_kind (HArray k n) i l <-> Forall (fun v => get_value_kind v = k) l.
Proof.
  revert i. induction l as [|v l IH]; intros i; cbn; [split; constructor|].
  rewrite Forall_cons, IH. done.
Qed.

Lemma implicit_even k1 k2 n i : i mod 2 = 0 ->
  get_implicit_child_value_kind (HMap k1 k2 n) i = Some k1 /\
  get_implicit_child_value_kind (HMap k1 k2 n) (i + 1) = Some k2 /\ (i + 1 + 1) mod 2 = 0.
Proof.
  intros Hi. apply Z.mod_divide in Hi as [q ->]; [|lia]. cbn [get_implicit_child_value_kind].
  rewrite <- Z.add_assoc, (Z.add_comm (q * 2) 1), (Z.add_comm (q * 2) (1 + 1)), !Z.mod_add, Z.mod_mul by lia. done.
Qed.

Lemma kids_map k1 k2 n i l : i mod 2 = 0 ->
  kids_bytes (HMap k1 k2 n) i (l ≫= (fun '(a, b) => [a; b])) =
    (l ≫= (fun '(a, b) => body_bytes a ++ body_bytes b)) /\
  (kids_kind (HMap k1 k2 n) i (l ≫= (fun '(a, b) => [a; b])) <->
   Forall (fun '(a, b) => get_value_kind a = k1 /\ get_value_kind b = k2) l).
Proof.
  revert i. induction l as [|[a b] l IH]; intros i Hi; [cbn; split; [done|split; constructor]|].
  destruct (implicit_even k1 k2 n i Hi) as (H1' & H2' & H3').
  destruct (IH _ H3') as [IH1 IH2].
  change ((a, b) :: l) with ([(a, b)] ++ l). rewrite !bind_app. cbn [app mbind list_bind].
  cbn [kids_bytes kids_kind app]. rewrite IH1, IH2, Forall_cons. unfold kid_bytes, kid_kind. rewrite H1', H2'.
  split; [|tauto]. by rewrite !app_nil_r, <- app_assoc.
Qed.

Lemma size_ok_range {A} (l : list A) : size_ok l = true <-> 0 <= len l <= MAX_SIZE.
Proof. unfold size_ok, len. rewrite Z.leb_le. lia. Qed.

Lemma kid_ok_elem n v (l : list (Value Y X)) (g : Value Y X -> nat) :
  v ∈ l -> value_ok v = true -> encodable v = true -> g v = S (height v) -> (max_of g l <= n)%nat -> kid_ok n v.
Proof. intros Hv ? ? Hg Hm. split_and!; [done|done|]. pose proof (max_of_elem g l v Hv). lia. Qed.

Lemma kids_ok_fields (l : list (Value Y X)) :
  forallb value_ok l = true -> forallb encodable l = true ->
  Forall (kid_ok (max_of (fun f => S (height f)) l)) l.
Proof.
  intros Hok He. apply Forall_forall. intros v Hv.
  eapply kid_ok_elem; [done|by eapply forallb_elem|by eapply forallb_elem| |reflexivity]. done.
Qed.

Lemma unfold_ok v h l : unfold_value v = Some (h, l) -> value_ok v = true -> encodable v = true ->
  header_ok h /\ get_own_value_kind h = get_value_kind v /\ len l = get_child_count h /\
  body_bytes v = header_bytes h ++ kids_bytes h 0 l /\ kids_kind h 0 l /\ Forall (kid_ok (height v)) l.
Proof.
  destruct v as [ | | | | | | | | | | | |d fs|k fs|fs|k1 k2 es| ]; cbn [unfold_value]; intros [= <- <-] Hok He;
    cbn in Hok, He; apply andb_true_iff in He as [Hs He].
  - zbool. split_and!; [by split; [apply size_ok_range|]|done|done| |by apply kids_kind_fields|by apply kids_ok_fields].
    rewrite kids_bytes_fields by done. done.
  - assert (Forall (fun f => get_value_kind f = k /\ encodable f = true) fs) as Hk.
    { apply Forall_forall. intros f Hf. pose proof (forallb_elem _ _ f He Hf) as Hkf.
      by apply andb_true_iff in Hkf as [?%bool_decide_eq_true ?]. }
    split_and!; [by split; [apply size_ok_range|]|done|done| | |].
    + by rewrite kids_bytes_array.
    + apply kids_kind_array. eapply Forall_impl; [exact Hk|]. by intros f [? ?].
    + apply kids_ok_fields; [done|]. apply forallb_forall. intros f Hf%list_elem_of_In.
      rewrite Forall_forall in Hk. by apply Hk.
  - split_and!; [by split; [apply size_ok_range|]|done|done| |by apply kids_kind_fields|by apply kids_ok_fields].
    rewrite kids_bytes_fields by done. done.
  - assert (header_ok (HMap k1 k2 (len es))) as Hh by by split; [apply size_ok_range|].
    destruct (kids_map k1 k2 (len es) 0 es eq_refl) as [Hb Hk].
    split_and!; [done|done| | | |].
    + rewrite (proj2 (max_child _ Hh)). unfold len. rewrite pairs_length, Nat2Z.inj_mul. done.
    + by rewrite Hb.
    + apply Hk, Forall_forall. intros [a b] Hab. pose proof (forallb_elem _ _ (a, b) He Hab) as Hkf. cbn in Hkf. zbool.
      rewrite !bool_decide_eq_true in *. done.
    + cbn [height]. apply Forall_forall. intros v ([a b] & Hv & Hab)%list_elem_of_bind.
      pose proof (forallb_elem _ _ (a, b) He Hab) as Hkf. cbn in Hkf.
      pose proof (forallb_elem _ _ (a, b) Hok Hab) as Hof. cbn in Hof. zbool.
      pose proof (max_of_elem (fun '(a, b) => S (Nat.max (height a) (height b))) es _ Hab) as Hm. cbn in Hm.
      apply elem_of_cons in Hv as [->|[->|[]%elem_of_nil]%elem_of_cons]; split_and!; try done; cbn [height]; lia.
Qed.

Lemma pairs_of (l : list (Value Y X)) n : length l = (2 * n)%nat ->
  exists es, length es = n /\ l = es ≫= (fun '(a, b) => [a; b]).
Proof.
  revert l. induction n as [|n IH]; intros l Hl; [destruct l; [by exists []|done]|].
  destruct l as [|a [|b l]]; cbn in Hl; [lia|lia|]. destruct (IH l) as (es & <- & ->); [lia|].
  exists ((a, b) :: es). done.
Qed.

Lemma fold_ok h l n : header_ok h -> len l = get_child_count h -> kids_kind h 0 l -> Forall (kid_ok n) l ->
  exists v, unfold_value v = Some (h, l) /\ value_ok v = true /\ encodable v = true /\ (height v <= n)%nat.
Proof.
  intros Hh Hl Hk Hf. rewrite (proj2 (max_child _ Hh)) in Hl.
  assert (forallb value_ok l = true) as Hok by (eapply Forall_forallb; [done|]; by intros v (? & ? & ?)).
  assert (forallb encodable l = true) as He by (eapply Forall_forallb; [done|]; by intros v (? & ? & ?)).
  assert (max_of (fun f => S (height f)) l <= n)%nat as Hm by (eapply Forall_max_of; [done|]; by intros v (? & ? & ?)).
  destruct Hh as [Hr Hd]. destruct h as [z|d z|k z|k1 k2 z]; cbn in Hl, Hr; try subst z.
  - exists (VTuple l). cbn. rewrite (proj2 (size_ok_range l)) by done. by rewrite Hok, He.
  - exists (VEnum d l). cbn. rewrite (proj2 (size_ok_range l)) by done. by rewrite Hd, Hok, He.
  - exists (VArray k l). cbn. rewrite (proj2 (size_ok_range l)), Hok by done. split_and!; [done|done| |done].
    eapply Forall_forallb; [apply Forall_and; split; [by eapply kids_kind_array|exact Hf]|].
    intros v [-> (? & -> & ?)]. by rewrite bool_decide_true.
  - destruct (pairs_of l (Z.to_nat z)) as (es & Hes & ->); [unfold len in Hl; lia|].
    assert (z = len es) as -> by (unfold len; lia).
    apply kids_map in Hk; [|done]. exists (VMap k1 k2 es). cbn.
    assert (Forall (fun '(a, b) => kid_ok n a /\ kid_ok n b) es) as Hes'.
    { apply Forall_forall. intros [a b] Hab. rewrite Forall_forall in Hf.
      split; apply Hf, list_elem_of_bind; exists (a, b); set_solver. }
    pose proof (proj2 (Forall_and _ es) (conj Hk Hes')) as Hall.
    rewrite (proj2 (size_ok_range es)) by done. split_and!; [done| | |].
    + eapply Forall_forallb; [exact Hes'|]. intros [a b] [(-> & _) (-> & _)]. done.
    + eapply Forall_forallb; [exact Hall|]. intros [a b] [[-> ->] [(? & -> & ?) (? & -> & ?)]].
      by rewrite !bool_decide_true.
    + eapply Forall_max_of; [exact Hes'|]. intros [a b] [(? & ? & ?) (? & ? & ?)]. lia.
Qed.

(** *** Reading one value *)

Abbreviation Reading := (Dec (TraversalEvent X Y * NextAction X)).

Definition leaf_kind k : bool := match k with KEnum | KArray | KTuple | KMap => false | _ => true end.

Definition leaf_event v : TraversalEvent X Y * NextAction X :=
  (match terminal_of v with Some e => TerminalValue e | None => TraversalEnd end, ReadNextChildOrExitContainer).

Lemma read_terminal_eq {A} (C : A -> TerminalValueRef Y) (V : A -> Value Y X) (m : Dec A) d :
  (forall a, terminal_of (V a) = Some (C a)) ->
  read_terminal_value (X := X) C m d = (leaf_event <$> (V <$> m)) d.
Proof.
  intros HC. unfold read_terminal_value, fmap, M_fmap, mbind, M_bind. destruct (m d) as [[[a|]]|]; [|done|done].
  unfold mret, M_ret, leaf_event. by rewrite HC.
Qed.

Lemma leaf_read start k d f : leaf_kind k = true ->
  read_value_body start k d = (leaf_event <$> decode_body_with_value_kind (S f) k) d.
Proof.
  destruct k; intros Hk; try done; cbn [decode_body_with_value_kind];
    try (by apply read_terminal_eq).
  cbn [read_value_body]. unfold decode_body_string, check_preloaded_value_kind. rewrite decide_True by done.
  unfold fmap, M_fmap, mbind, M_bind, mret, M_ret.
  destruct (read_size d) as [[[n|] d']|]; [|done|done].
  destruct (read_slice n d') as [[[bs|] d'']|]; [|done|done].
  unfold lift_result. by destruct (from_utf8 bs).
Qed.

Lemma terminal_leaf v e : terminal_of v = Some e -> leaf_kind (get_value_kind v) = true /\ height v = O.
Proof. by destruct v. Qed.

Lemma leaf_terminal v : leaf_kind (get_value_kind v) = true -> exists e, terminal_of v = Some e.
Proof. destruct v; try done; intros _; by eexists. Qed.

Lemma leaf_reads start mx v e : terminal_of v = Some e -> value_ok v = true -> encodable v = true ->
  reads (read_value_body start (get_value_kind v)) 0 mx (body_bytes v)
    (TerminalValue e, ReadNextChildOrExitContainer).
Proof.
  intros He Hok Henc d rest Hd Hm Hr. destruct (terminal_leaf v e He) as [Hk Hh].
  rewrite (leaf_read _ _ _ mx) by done.
  replace (TerminalValue e, ReadNextChildOrExitContainer) with (leaf_event v) by (unfold leaf_event; by rewrite He).
  apply (reads_fmap O mx leaf_event _ _ _ (decode_body_reads v Hok Henc O mx (S mx) ltac:(lia) ltac:(lia)) d rest); done.
Qed.

Lemma container_reads start mx h : header_ok h ->
  reads (read_value_body start (get_own_value_kind h)) 0 mx (header_bytes h)
    (ContainerStart h, ReadContainerContentStart h start).
Proof.
  intros [Hl Hd]. destruct h; cbn [get_own_value_kind read_value_body header_bytes header_length] in *.
  - eapply reads_bind_last; [by apply reads_size|]. apply reads_ret.
  - eapply reads_bind; [apply reads_byte|]. eapply reads_bind_last; [by apply reads_size|]. apply reads_ret.
  - eapply reads_bind; [apply (reads_kind _ _ (X := X))|].
    eapply reads_bind_last; [by apply reads_size|]. apply reads_ret.
  - do 2 (eapply reads_bind; [apply (reads_kind _ _ (X := X))|]).
    eapply reads_bind_last; [by apply reads_size|]. apply reads_ret.
Qed.

(** A value body is a terminal value or the header of a container. *)
Definition body_read (start : nat) k (r : TraversalEvent X Y * NextAction X) (bs : list Z) : Prop :=
  (exists v e, terminal_of v = Some e /\ get_value_kind v = k /\ value_ok v = true /\ encodable v = true /\
     r = (TerminalValue e, ReadNextChildOrExitContainer) /\ bs = body_bytes v) \/
  (exists h, header_ok h /\ get_own_value_kind h = k /\
     r = (ContainerStart h, ReadContainerContentStart h start) /\ bs = header_bytes h).

Lemma body_parses start mx k : parses (read_value_body start k) 0 mx (body_read start k).
Proof.
  destruct (leaf_kind k) eqn:Hk.
  - intros d Hd Hm Hb. rewrite (leaf_read _ _ _ mx) by done.
    apply (parses_fmap O mx leaf_event (decode_body_with_value_kind (S mx) k) (body_read start k)); try done.
    eapply parses_mono; [apply decode_body_parses; lia|]. cbn. intros v bs _ (Hok & He & _ & Hkv & ->).
    rewrite <- Hkv in Hk. destruct (leaf_terminal v Hk) as [e Ht]. left. exists v, e. unfold leaf_event. rewrite Ht. done.
  - destruct k; try discriminate Hk; cbn [read_value_body].
    + eapply parses_bind; [apply parses_byte|]. cbn beta. intros b ? _ [-> Hb].
      eapply parses_bind; [apply parses_len|]. cbn beta. intros n ? _ [-> Hn]. apply parses_ret. right.
      exists (HEnumVariant b n). rewrite app_nil_r. by split_and!.
    + eapply parses_bind; [apply (parses_kind _ _ (X := X))|]. cbn beta. intros k ? _ ->.
      eapply parses_bind; [apply parses_len|]. cbn beta. intros n ? _ [-> Hn]. apply parses_ret. right.
      exists (HArray k n). rewrite app_nil_r. by split_and!.
    + eapply parses_bind; [apply parses_len|]. cbn beta. intros n ? _ [-> Hn]. apply parses_ret. right.
      exists (HTuple n). rewrite app_nil_r. by split_and!.
    + do 2 (eapply parses_bind; [apply (parses_kind _ _ (X := X))|]; cbn beta; intros ? ? _ ->).
      eapply parses_bind; [apply parses_len|]. cbn beta. intros n ? _ [-> Hn]. apply parses_ret. right.
      eexists (HMap _ _ n). rewrite app_nil_r. by split_and!.
Qed.

(** *** Runs of the traverser *)

Section Runs.
Context (c : VecTraverserConfig).
Abbreviation mx := (max_depth c).
Abbreviation Event := (TraversalEvent X Y).
Abbreviation Outcome := (Exec (LocatedTraversalEvent X Y * VecTraverser X)).
Abbreviation at_next d p := (mk_traverser d p ReadNextChildOrExitContainer c).

Definition final (ev : Event) : bool := match ev with TraversalEnd | TraversalError _ => true | _ => false end.

(** [runs r es t]: from the outcome of a step, the traverser emits [es] and
    reaches the state [t]; [ends r es]: it emits [es] and stops. *)
Inductive runs : Outcome -> list Event -> VecTraverser X -> Prop :=
| runs_one loc t : final (event loc) = false -> runs (Done (loc, t)) [event loc] t
| runs_more loc t es t' : final (event loc) = false -> runs (next_event t) es t' ->
    runs (Done (loc, t)) (event loc :: es) t'.

Inductive ends : Outcome -> list Event -> Prop :=
| ends_now loc t : final (event loc) = true -> ends (Done (loc, t)) [event loc]
| ends_later loc t es : final (event loc) = false -> ends (next_event t) es ->
    ends (Done (loc, t)) (event loc :: es).

Lemma ends_prefix r es : ends r es -> forall es' ev, es = es' ++ [ev] -> Forall (fun e => final e = false) es'.
Proof.
  induction 1 as [loc t Hev|loc t es Hev He IH]; intros es' ev Heq.
  - destruct es' as [|e' es']; [constructor|]. injection Heq as _ Hn. by destruct es'.
  - destruct es' as [|e' es']; [constructor|]. injection Heq as <- ->. constructor; [done|]. by eapply IH.
Qed.

Lemma ends_no_end r es ev : ends r (es ++ [ev]) -> TraversalEnd ∉ es.
Proof.
  intros He Hin. pose proof (ends_prefix _ _ He _ _ eq_refl) as HF. rewrite Forall_forall in HF.
  by specialize (HF _ Hin).
Qed.

Lemma runs_app r es t es' t' : runs r es t -> runs (next_event t) es' t' -> runs r (es ++ es') t'.
Proof. intros Hr. revert es' t'. induction Hr; intros; cbn; constructor; auto. Qed.

Lemma runs_ends r es t es' : runs r es t -> ends (next_event t) es' -> ends r (es ++ es').
Proof. intros Hr. revert es'. induction Hr; intros; cbn; constructor; auto. Qed.

Definition fresh (d : VecDecoder) : Prop := dec_stack_depth d = O /\ dec_max_depth d = mx.

Lemma fresh_advance n d : fresh d -> fresh (advance_offset n d).
Proof. done. Qed.

Lemma perform_reads start p d (m : Reading) bs rest ev na : reads m 0 mx bs (ev, na) -> fresh d ->
  remaining d = bs ++ rest ->
  perform c start p d m =
    Done (mk_located start (offset d + length bs) p ev, mk_traverser (advance_offset (length bs) d) p na c).
Proof. intros Hm [? ?] Hr. unfold perform. by rewrite (Hm d rest). Qed.

Lemma perform_bind {A} start p d (m : Dec A) (f : A -> Reading) bs rest a : reads m 0 mx bs a -> fresh d ->
  remaining d = bs ++ rest -> perform c start p d (m ≫= f) = perform c start p (advance_offset (length bs) d) (f a).
Proof. intros Hm [? ?] Hr. unfold perform, mbind at 1, M_bind at 1. by rewrite (Hm d rest). Qed.

Definition runs_value v : Prop := value_ok v = true -> encodable v = true ->
  forall start start' p d rest, fresh d -> (length p + S (height v) <= mx)%nat ->
  remaining d = body_bytes v ++ rest ->
  runs (perform c start p d (read_value_body start' (get_value_kind v))) (value_events v)
    (at_next (advance_offset (length (body_bytes v)) d) p).

Lemma kid_runs v h i start start' p d rest : runs_value v -> kid_ok (mx - length p) v -> kid_kind h i v -> fresh d ->
  remaining d = kid_bytes h i v ++ rest ->
  runs (perform c start p d (read_value start' (get_implicit_child_value_kind h i))) (value_events v)
    (at_next (advance_offset (length (kid_bytes h i v)) d) p).
Proof.
  intros Hv (Hok & He & Hd) Hk Hf Hr. unfold kid_kind, kid_bytes, read_value in *.
  destruct (get_implicit_child_value_kind h i) as [k|].
  - subst k. rewrite (perform_bind _ _ _ _ _ [] (body_bytes v ++ rest) (get_value_kind v)); [|apply reads_ret|done|done].
    cbn [length]. rewrite advance_0. apply (Hv Hok He _ _ _ _ rest); [done|lia|done].
  - rewrite (perform_bind _ _ _ _ _ [as_u8 (get_value_kind v)] (body_bytes v ++ rest) (get_value_kind v));
      [|apply (reads_kind _ _ (X := X))|done|done].
    replace (length (field_bytes v)) with (1 + length (body_bytes v))%nat by done. rewrite <- advance_advance.
    apply (Hv Hok He _ _ _ _ rest); [done|lia|]. apply (remaining_after _ [as_u8 (get_value_kind v)]). done.
Qed.

Lemma next_child h s i p d : 0 <= i -> i + 1 < get_child_count h -> header_ok h ->
  next_event (Y := Y) (at_next d (mk_ancestor h s i :: p)) =
  perform c (offset d) (mk_ancestor h s (i + 1) :: p) d (read_value (offset d) (get_implicit_child_value_kind h (i + 1))).
Proof.
  intros Hi Hc Hh. cbn. destruct (max_child h Hh) as [Hb _]. unfold MAX_SIZE in Hb.
  unfold wrap_u. rewrite Z.mod_small by lia. by rewrite (proj2 (Z.leb_gt _ _)) by lia.
Qed.

Lemma exit_container h s i p d : 0 <= i -> i + 1 = get_child_count h -> header_ok h ->
  next_event (Y := Y) (at_next d (mk_ancestor h s i :: p)) = Done (mk_located s (offset d) p (ContainerEnd h), at_next d p).
Proof.
  intros Hi Hc Hh. cbn. destruct (max_child h Hh) as [Hb _]. unfold MAX_SIZE in Hb.
  unfold wrap_u. rewrite Z.mod_small by lia. by rewrite (proj2 (Z.leb_le _ _)) by lia.
Qed.

Lemma kids_run h s l i p d rest : header_ok h -> 0 <= i -> l <> [] -> Forall runs_value l ->
  Forall (kid_ok (mx - S (length p))) l -> kids_kind h i l -> i + len l = get_child_count h -> fresh d ->
  remaining d = kids_bytes h i l ++ rest ->
  runs (perform c (offset d) (mk_ancestor h s i :: p) d (read_value (offset d) (get_implicit_child_value_kind h i)))
    ((l ≫= value_events) ++ [ContainerEnd h]) (at_next (advance_offset (length (kids_bytes h i l)) d) p).
Proof.
  intros Hh Hi Hl HF Hok. revert i d Hi Hl. induction l as [|v l IH]; intros i d Hi Hl Hk Hc Hf Hr; [done|].
  apply Forall_cons in HF as [Hv HF]. apply Forall_cons in Hok as [Hvo Hok]. destruct Hk as [Hkv Hk].
  cbn [kids_bytes mbind list_bind] in Hr |- *. rewrite <- app_assoc in Hr. rewrite <- app_assoc.
  eapply runs_app; [by apply (kid_runs v h i _ _ _ _ (kids_bytes h (i + 1) l ++ rest))|].
  pose proof (remaining_after _ _ _ Hr) as Hr'. rewrite length_app, <- advance_advance.
  destruct l as [|v' l].
  - rewrite exit_container; [|done|unfold len in Hc; cbn in Hc; lia|done]. cbn [length kids_bytes]. rewrite advance_0.
    apply (runs_one (mk_located _ _ _ (ContainerEnd h))). done.
  - assert (i + 1 + len (v' :: l) = get_child_count h) as Hc' by (unfold len in *; cbn [length] in *; lia).
    rewrite next_child; [|lia|unfold len in Hc'; cbn [length] in Hc'; lia|done].
    by apply IH; [| |lia|..].
Qed.

Lemma kids_bytes_u8 n i l : Forall (fun v => get_value_kind v = KU8) l ->
  kids_bytes (HArray KU8 n) i l = map byte_of l.
Proof.
  intros HF. rewrite kids_bytes_array. induction HF as [|v l Hv _ IH]; cbn; [done|]. rewrite IH.
  by destruct v.
Qed.

Lemma next_content h s p d : header_ok h -> 0 < get_child_count h ->
  next_event (Y := Y) (mk_traverser d p (ReadContainerContentStart h s) c) =
  if (mx <=? S (length p))%nat
  then perform c (offset d) (mk_ancestor h s 0 :: p) d (throw (DecodeMaxDepthExceeded mx))
  else if is_byte_array h
  then perform c (offset d) (mk_ancestor h s (get_child_count h - 1) :: p) d (read_byte_array (get_child_count h))
  else perform c (offset d) (mk_ancestor h s 0 :: p) d (read_value (offset d) (get_implicit_child_value_kind h 0)).
Proof. intros Hh Hc. cbn. by rewrite (proj2 (Z.eqb_neq _ _)) by lia. Qed.

Lemma content_run h l s p d rest : header_ok h -> len l = get_child_count h -> kids_kind h 0 l ->
  Forall runs_value l -> Forall (kid_ok (mx - S (length p))) l -> fresh d ->
  remaining d = kids_bytes h 0 l ++ rest ->
  runs (next_event (mk_traverser d p (ReadContainerContentStart h s) c))
    (content_events value_events h l ++ [ContainerEnd h]) (at_next (advance_offset (length (kids_bytes h 0 l)) d) p).
Proof.
  intros Hh Hl Hk HF Hok Hf Hr. destruct l as [|v l].
  { cbn. rewrite <- Hl. cbn. rewrite advance_0. apply (runs_one (mk_located _ _ _ (ContainerEnd h))). done. }
  assert (0 < get_child_count h) as Hpos by (rewrite <- Hl; unfold len; cbn [length]; lia).
  rewrite next_content by done.
  assert (S (length p) < mx)%nat as Hdp by (apply Forall_cons in Hok as [(_ & _ & Hd) _]; lia).
  rewrite (proj2 (Nat.leb_gt _ _)) by done. unfold content_events. destruct (is_byte_array h) eqn:Hb.
  - destruct h as [| |k n|]; try discriminate Hb. apply bool_decide_eq_true in Hb as ->.
    apply kids_kind_array in Hk. pose proof (kids_bytes_u8 n 0 _ Hk) as Hkb. rewrite Hkb in Hr |- *.
    rewrite (perform_reads _ _ _ (read_byte_array (get_child_count (HArray KU8 n))) (map byte_of (v :: l)) rest
      (TerminalValueBatch (map byte_of (v :: l))) ReadNextChildOrExitContainer); [| |done|done].
    + cbn [app]. eapply (runs_more (mk_located _ _ _ _)); [done|].
      rewrite exit_container; [|lia|lia|done]. apply (runs_one (mk_located _ _ _ (ContainerEnd _))). done.
    + eapply reads_bind_last; [apply reads_slice|apply reads_ret].
      rewrite length_map, <- Hl. done.
  - by apply (kids_run h s (v :: l) 0 p d rest).
Qed.

Lemma value_runs v : runs_value v.
Proof.
  enough (forall n v, (height v <= n)%nat -> runs_value v) as Hn by by apply (Hn (height v)).
  clear v. intros n. induction n as [n IH] using lt_wf_ind. intros v Hv Hok He start start' p d rest Hf Hd Hr.
  destruct (leaf_kind (get_value_kind v)) eqn:Hk.
  - destruct (leaf_terminal v Hk) as [e Ht]. rewrite (terminal_events _ _ Ht).
    erewrite perform_reads; [|by apply leaf_reads|done|done].
    apply (runs_one (mk_located _ _ _ (TerminalValue e))). done.
  - assert (exists h l, unfold_value v = Some (h, l)) as (h & l & Hu) by (destruct v; try discriminate Hk; by do 2 eexists).
    destruct (unfold_ok v h l Hu Hok He) as (Hh & Hkd & Hl & Hb & Hkk & Hks).
    rewrite (container_events v h l Hu), <- Hkd, Hb, length_app, <- advance_advance. rewrite Hb, <- app_assoc in Hr.
    erewrite perform_reads; [|by apply container_reads|done|done].
    eapply (runs_more (mk_located _ _ _ (ContainerStart h))); [done|].
    eapply content_run; try done.
    + eapply Forall_impl; [exact Hks|]. intros w (? & ? & ?). apply (IH (height w)); lia.
    + eapply Forall_impl; [exact Hks|]. intros w (? & ? & ?). split_and!; [done|done|lia].
    + by apply remaining_after.
Qed.

(** *** What a traversal without an error has read *)

Definition fails (r : Outcome) : Prop := exists es e, ends r (es ++ [TraversalError e]).

Lemma fails_now loc t e : event loc = TraversalError e -> fails (Done (loc, t)).
Proof. intros He. exists [], e. cbn. rewrite <- He. apply ends_now. by rewrite He. Qed.

Lemma fails_later r es t : runs r es t -> fails (next_event t) -> fails r.
Proof. intros Hr (es' & e & He). exists (es ++ es'), e. rewrite <- app_assoc. by eapply runs_ends. Qed.

Lemma perform_parses start p d (m : Reading) P : parses m 0 mx P -> fresh d -> bytes_ok (remaining d) = true ->
  fails (perform c start p d m) \/
  exists ev na bs rest, remaining d = bs ++ rest /\ P (ev, na) bs /\
    perform c start p d m =
      Done (mk_located start (offset d + length bs) p ev, mk_traverser (advance_offset (length bs) d) p na c).
Proof.
  intros Hm [? ?] Hb. specialize (Hm d ltac:(done) ltac:(done) Hb). unfold perform.
  destruct (m d) as [[[[ev na]|e] d']|]; [| |done].
  - destruct Hm as (bs & rest & Hr & -> & HP). right. by exists ev, na, bs, rest.
  - left. by eapply fails_now.
Qed.

Lemma bytes_ok_rest d bs rest : bytes_ok (remaining d) = true -> remaining d = bs ++ rest ->
  bytes_ok (remaining (advance_offset (length bs) d)) = true.
Proof. intros Hb Hr. rewrite (remaining_after _ _ _ Hr). rewrite Hr, bytes_ok_app in Hb. by zbool. Qed.

(** A value is read at depth [n], or the traversal fails. *)
Definition value_or_fails (n : nat) : Prop := forall k start start' p d,
  fresh d -> (length p + n = mx)%nat -> bytes_ok (remaining d) = true ->
  fails (perform c start p d (read_value_body start' k)) \/
  exists v rest, get_value_kind v = k /\ kid_ok n v /\ remaining d = body_bytes v ++ rest.

Lemma kid_or_fails n h i start start' p d : value_or_fails n -> fresh d -> (length p + n = mx)%nat ->
  bytes_ok (remaining d) = true ->
  fails (perform c start p d (read_value start' (get_implicit_child_value_kind h i))) \/
  exists v rest, kid_kind h i v /\ kid_ok n v /\ remaining d = kid_bytes h i v ++ rest.
Proof.
  intros Hn Hf Hp Hb. unfold read_value, kid_kind, kid_bytes. destruct (get_implicit_child_value_kind h i) as [k|].
  - rewrite (perform_bind _ _ _ _ _ [] (remaining d) k); [|apply reads_ret|done|done]. cbn [length]. rewrite advance_0. by apply Hn.
  - assert (parses (read_value_kind (X := X)) 0 mx (fun k bs => bs = [as_u8 k])) as Hk by apply (parses_kind _ _ (X := X)).
    specialize (Hk d (proj1 Hf) (proj2 Hf) Hb).
    destruct (read_value_kind d) as [[[k|e] d']|] eqn:E; [| |done].
    + destruct Hk as (bs & rest & Hr & -> & ->).
      rewrite (perform_bind _ _ _ _ _ [as_u8 k] rest k); [|apply (reads_kind _ _ (X := X))|done|done].
      pose proof (bytes_ok_rest _ _ _ Hb Hr) as Hb'.
      destruct (Hn k start start' p (advance_offset 1 d) Hf Hp Hb') as [?|(v & rest' & <- & Hv & Hr')]; [by left|].
      right. exists v, rest'. split_and!; [done|done|]. rewrite Hr.
      assert (rest = body_bytes v ++ rest') as ->; [|done]. rewrite <- Hr'. symmetry.
      exact (remaining_after _ [_] rest Hr).
    + left. unfold perform, mbind, M_bind. rewrite E. by eapply fails_now.
Qed.

Lemma kids_or_fail n h s m i p d : value_or_fails n -> header_ok h -> 0 <= i -> (0 < m)%nat ->
  i + Z.of_nat m = get_child_count h -> (S (length p) + n = mx)%nat -> fresh d -> bytes_ok (remaining d) = true ->
  fails (perform c (offset d) (mk_ancestor h s i :: p) d (read_value (offset d) (get_implicit_child_value_kind h i))) \/
  exists l rest, length l = m /\ kids_kind h i l /\ Forall (kid_ok n) l /\ remaining d = kids_bytes h i l ++ rest.
Proof.
  intros Hn Hh. revert i d. induction m as [|m IH]; intros i d Hi Hm Hc Hp Hf Hb; [lia|].
  destruct (kid_or_fails n h i (offset d) (offset d) (mk_ancestor h s i :: p) d Hn Hf Hp Hb)
    as [?|(v & rest & Hk & Hv & Hr)]; [by left|].
  destruct m as [|m].
  { right. exists [v], rest. cbn [kids_kind kids_bytes length]. rewrite app_nil_r. split_and!; [done|done|done| |done]. by apply Forall_singleton. }
  pose proof (bytes_ok_rest _ _ _ Hb Hr) as Hb'. set (d' := advance_offset (length (kid_bytes h i v)) d) in *.
  destruct (IH (i + 1) d') as [Hfl|(l & rest' & Hl & Hkk & Hls & Hr')]; try done; try lia.
  - left. eapply fails_later.
    + eapply kid_runs with (p := mk_ancestor h s i :: p) (rest := rest); [apply value_runs| |done|done|done].
      cbn [length]. by replace (mx - S (length p))%nat with n by lia.
    + rewrite next_child by (done || lia). done.
  - right. exists (v :: l), rest'. cbn [kids_kind kids_bytes length]. split_and!; [lia|done|done|by constructor|].
    rewrite Hr, <- app_assoc. f_equal. unfold d' in Hr'. by rewrite (remaining_after _ _ _ Hr) in Hr'.
Qed.

Lemma fold_body h l n rest d : header_ok h -> len l = get_child_count h -> kids_kind h 0 l -> Forall (kid_ok n) l ->
  remaining d = header_bytes h ++ kids_bytes h 0 l ++ rest ->
  exists v rest, get_value_kind v = get_own_value_kind h /\ kid_ok (S n) v /\ remaining d = body_bytes v ++ rest.
Proof.
  intros Hh Hl Hk Hok Hr. destruct (fold_ok h l n Hh Hl Hk Hok) as (v & Hu & Hv & He & Hn).
  destruct (unfold_ok v h l Hu Hv He) as (_ & Hkd & _ & Hb & _ & _).
  exists v, rest. split_and!; [done|by split_and!; [| |lia]|]. by rewrite Hb, <- app_assoc.
Qed.

Lemma read_byte_array_or_fails h p d : header_ok h -> is_byte_array h = true -> 0 < get_child_count h -> fresh d ->
  bytes_ok (remaining d) = true ->
  fails (perform c (offset d) p d (read_byte_array (get_child_count h))) \/
  exists l rest, len l = get_child_count h /\ kids_kind h 0 l /\ Forall (kid_ok 1) l /\
    remaining d = kids_bytes h 0 l ++ rest.
Proof.
  intros Hh Hb Hpos Hf Hok. destruct h as [| |k n|]; try discriminate Hb. apply bool_decide_eq_true in Hb as ->.
  cbn [get_child_count] in *.
  assert (parses (read_byte_array (X := X) (Y := Y) n) 0 mx (fun _ bs => Z.of_nat (length bs) = n)) as Hp.
  { eapply parses_bind; [apply parses_slice; lia|]. cbn beta. intros a bs _ [-> Hn]. apply parses_ret. by rewrite app_nil_r. }
  destruct (perform_parses (offset d) p d _ _ Hp Hf Hok) as [?|(ev & na & bs & rest & Hr & Hn & _)]; [by left|].
  right. exists (VU8 <$> bs), rest. unfold len. rewrite length_fmap. split_and!; [done| | |].
  - apply kids_kind_array. apply Forall_fmap, Forall_true. done.
  - apply Forall_fmap, Forall_forall. intros b Hbe. split_and!; cbn; [|done|lia].
    rewrite Hr, bytes_ok_app in Hok. zbool. unfold bytes_ok in H2.
    pose proof (forallb_elem _ _ b H2 Hbe) as Hb. exact Hb.
  - rewrite kids_bytes_u8 by (apply Forall_fmap, Forall_true; done). rewrite Hr. f_equal. clear.
    induction bs; cbn; congruence.
Qed.

Lemma values_or_fail n : value_or_fails (S n).
Proof.
  induction n as [n IH] using lt_wf_ind. intros k start start' p d Hf Hp Hb.
  destruct (perform_parses start p d _ _ (body_parses start' mx k) Hf Hb)
    as [?|(ev & na & bs & rest & Hr & [(v & e & Ht & Hk & Hok & He & [= -> ->] & ->)|(h & Hh & Hk & [= -> ->] & ->)] & Hpf)];
    [by left| |].
  { right. exists v, rest. split_and!; [done| |done]. destruct (terminal_leaf v e Ht) as [_ Hht].
    split_and!; [done|done|lia]. }
  rewrite <- Hk. pose proof (bytes_ok_rest _ _ _ Hb Hr) as Hb'. pose proof (remaining_after _ _ _ Hr) as Hr'.
  destruct (max_child h Hh) as [Hcc _].
  destruct (Z.eqb_spec (get_child_count h) 0) as [Hz|Hz].
  { right. eapply (fold_body h [] n rest); try done. }
  rewrite Hk, Hpf. set (d' := advance_offset (length (header_bytes h)) d) in *.
  assert (fails (next_event (Y := Y) (mk_traverser d' p (ReadContainerContentStart h start') c)) \/
    exists l rest', len l = get_child_count h /\ kids_kind h 0 l /\ Forall (kid_ok n) l /\
      remaining d' = kids_bytes h 0 l ++ rest') as [Hfl|(l & rest' & Hl & Hkk & Hls & Hrl)].
  2: { left. eapply fails_later; [apply (runs_one (mk_located _ _ _ (ContainerStart h))); done|done]. }
  2: { right. rewrite <- Hk. eapply (fold_body h l n rest'); try done. by rewrite Hr, <- Hr', Hrl. }
  rewrite next_content by (done || lia). destruct (Nat.leb_spec mx (S (length p))) as [Hm|Hm].
  { left. by eapply fails_now. }
  destruct n as [|n]; [lia|]. destruct (is_byte_array h) eqn:Hba.
  - destruct (read_byte_array_or_fails h (mk_ancestor h start' (get_child_count h - 1) :: p) d' Hh Hba
      ltac:(lia) Hf Hb') as [?|(l & rest' & ? & ? & Hl & ?)]; [by left|]. right. exists l, rest'. split_and!; try done.
    eapply Forall_impl; [exact Hl|]. intros w (? & ? & ?). split_and!; [done|done|lia].
  - destruct (kids_or_fail (S n) h start' (Z.to_nat (get_child_count h)) 0 p d') as [?|(l & rest' & Hl & ? & ? & ?)];
      try done; try lia.
    + apply IH. lia.
    + by left.
    + right. exists l, rest'. split_and!; try done. unfold len. lia.
Qed.

(** *** Termination *)

(** No custom value has an empty body. *)
Definition customs_nonempty : Prop := forall y : Y, custom_ok y = true -> custom_bytes y <> [].

Definition action_cost (a : NextAction X) : nat := match a with ReadContainerContentStart _ _ => 1 | _ => 0 end.

Definition measure (t : VecTraverser X) : nat :=
  3 * length (remaining (decoder t)) + length (ancestor_path t) + action_cost (next_action t).

Definition good (t : VecTraverser X) : Prop :=
  config t = c /\ fresh (decoder t) /\ bytes_ok (remaining (decoder t)) = true /\
  match next_action t with ReadContainerContentStart h _ => header_ok h | _ => True end.

Lemma size_bytes_nonempty n : size_bytes n <> [].
Proof. unfold size_bytes. cbn. by case_match. Qed.

Lemma header_bytes_nonempty h : header_bytes h <> [].
Proof. destruct h; cbn; try done; apply size_bytes_nonempty. Qed.

Lemma terminal_bytes_nonempty v e : customs_nonempty -> terminal_of v = Some e -> value_ok v = true -> body_bytes v <> [].
Proof.
  intros Hc. destruct v; intros [= <-] Hok; cbn [body_bytes]; try (by case_match); try done.
  - intros [Hn _]%app_nil. by apply size_bytes_nonempty in Hn.
  - by apply Hc.
Qed.

(** A step that reads a value consumes a byte. *)
Lemma perform_value_decreases start start' p d imp loc t : customs_nonempty -> fresh d -> bytes_ok (remaining d) = true ->
  perform c start p d (read_value (Y := Y) start' imp) = Done (loc, t) -> final (event loc) = false ->
  good t /\ (measure t + 2 <= 3 * length (remaining d) + length p)%nat.
Proof.
  intros Hc Hf Hb Hp Hev.
  assert (parses (read_value (Y := Y) start' imp) 0 mx (fun r bs => bs <> [] /\
    match r.2 with ReadContainerContentStart h _ => header_ok h | _ => True end)) as Hpp.
  { assert (forall k, parses (read_value_body (Y := Y) start' k) 0 mx (fun r bs => bs <> [] /\
      match r.2 with ReadContainerContentStart h _ => header_ok h | _ => True end)) as Hbody.
    { intros k. eapply parses_mono; [apply body_parses|]. cbn. intros a bs _ [(v & e & Ht & _ & Hok & _ & -> & ->)|(h & Hh & _ & -> & ->)].
      - split; [by eapply terminal_bytes_nonempty|done].
      - split; [apply header_bytes_nonempty|done]. }
    unfold read_value. destruct imp as [k|].
    - eapply parses_bind; [by apply (parses_ret _ _ k (fun a bs => a = k /\ bs = []))|]. cbn beta. intros a bs _ [-> ->]. apply Hbody.
    - eapply parses_bind; [apply (parses_kind _ _ (X := X))|]. cbn beta. intros k bs _ ->.
      eapply parses_mono; [apply Hbody|]. cbn. intros r bs _ [_ ?]. done. }
  specialize (Hpp d (proj1 Hf) (proj2 Hf) Hb). unfold perform in Hp.
  destruct (read_value start' imp d) as [[[[ev na]|e] d']|]; simplify_eq.
  destruct Hpp as (bs & rest & Hr & -> & Hne & Hh). cbn in Hh.
  pose proof (bytes_ok_rest _ _ _ Hb Hr) as Hb'. pose proof (remaining_after _ _ _ Hr) as Hr'.
  split; [by split_and!|]. unfold measure. cbn [decoder ancestor_path next_action]. rewrite Hr', Hr, length_app.
  assert (0 < length bs)%nat by (destruct bs; [done|cbn; lia]). destruct na; cbn [action_cost]; lia.
Qed.

Lemma end_final start p d loc t : perform (Y := Y) c start p d (read_end c) = Done (loc, t) -> final (event loc) = true.
Proof.
  unfold perform, read_end, check_end, mbind, M_bind, gets, throw, mret, M_ret.
  destruct (check_exact_end c); [destruct (_ =? 0)%nat|]; intros; by simplify_eq.
Qed.

Lemma throw_final start p d e loc t : perform (Y := Y) c start p d (throw e) = Done (loc, t) -> final (event loc) = true.
Proof. unfold perform, throw. intros. by simplify_eq. Qed.

Lemma next_event_decreases t loc t' : customs_nonempty -> good t -> next_event (Y := Y) t = Done (loc, t') ->
  final (event loc) = false -> good t' /\ (measure t' < measure t)%nat.
Proof.
  intros Hc (Hcfg & Hf & Hb & Ha) Hn Hev. destruct t as [d p a c']. cbn in Hcfg, Hf, Hb, Ha. subst c'.
  destruct a as [pre| |k|h s| | | |]; unfold next_event in Hn;
    cbn [next_action decoder ancestor_path config] in Hn; cbv zeta in Hn; try discriminate Hn.
  - pose proof (parses_prefix 0 mx pre d (proj1 Hf) (proj2 Hf) Hb) as Hp.
    destruct (read_and_check_payload_prefix pre d) as [[[u|e] d']|]; [|apply throw_final in Hn; congruence|done].
    destruct Hp as (bs & rest & Hr & -> & ->). pose proof (bytes_ok_rest _ _ _ Hb Hr) as Hb'.
    apply perform_value_decreases in Hn as [? Hm]; [|done..]. split; [done|].
    rewrite (remaining_after _ _ _ Hr) in Hm. unfold measure in *. cbn [decoder ancestor_path next_action action_cost length app]. rewrite Hr. cbn [length app]. lia.
  - apply perform_value_decreases in Hn as [? Hm]; [|done..]. split; [done|]. unfold measure in *. cbn [decoder ancestor_path next_action action_cost length app]. lia.
  - apply perform_value_decreases in Hn as [? Hm]; [|done..]. split; [done|]. unfold measure in *. cbn [decoder ancestor_path next_action action_cost length app]. lia.
  - destruct (Z.eqb_spec (get_child_count h) 0).
    { cbn in Hn. simplify_eq. split; [done|]. unfold measure in *. cbn [decoder ancestor_path next_action action_cost length app]. lia. }
    destruct (max_child h Ha) as [Hcc _]. case_match; [apply throw_final in Hn; congruence|]. case_match.
    + unfold perform, read_byte_array in Hn. unfold mbind at 1, M_bind at 1 in Hn.
      pose proof (parses_slice 0 mx (get_child_count h) ltac:(lia) d (proj1 Hf) (proj2 Hf) Hb) as Hs.
      destruct (read_slice (get_child_count h) d) as [[[bs'|e] d']|]; cbn in Hn; [|cbn in Hn; simplify_eq; done|done].
      destruct Hs as (bs & rest & Hr & -> & _ & Hl). injection Hn as <- <-. split; [split_and!; try done; by eapply bytes_ok_rest|].
      unfold measure. cbn [decoder ancestor_path next_action action_cost length]. rewrite (remaining_after _ _ _ Hr), Hr, length_app. lia.
    + apply perform_value_decreases in Hn as [? Hm]; [|done..]. split; [done|]. unfold measure in *. cbn [length] in Hm. cbn [decoder ancestor_path next_action action_cost length app]. lia.
  - destruct p as [|a p].
    + apply end_final in Hn. congruence.
    + case_match; [cbn in Hn; simplify_eq; split; [done|]; unfold measure; cbn [decoder ancestor_path next_action action_cost length app]; lia|].
      apply perform_value_decreases in Hn as [? Hm]; [|done..]. split; [done|]. unfold measure in *. cbn [length] in Hm. cbn [decoder ancestor_path next_action action_cost length app]. lia.
Qed.

Lemma ends_length t es : customs_nonempty -> good t -> ends (next_event t) es -> (length es <= S (measure t))%nat.
Proof.
  intros Hc Hg He. remember (next_event t) as r eqn:Hr. revert t Hg Hr.
  induction He as [loc t' Hev|loc t' es Hev He IH]; intros t Hg Hr; cbn [length]; [lia|].
  destruct (next_event_decreases t loc t' Hc Hg) as [Hg' Hm]; [done|done|]. specialize (IH t' Hg' eq_refl). lia.
Qed.

Lemma ends_traverse fuel t es : ends (next_event t) es -> (length es <= fuel)%nat -> traverse fuel t = Done es.
Proof.
  intros He. remember (next_event t) as r eqn:Hr. revert fuel t Hr.
  induction He as [loc t' Hev|loc t' es Hev He IH]; intros [|fuel] t Hr Hl; cbn in Hl; try lia; cbn [traverse];
    rewrite <- Hr; cbn; [by destruct (event loc)|].
  rewrite (IH fuel t' eq_refl) by lia. by destruct (event loc).
Qed.

(** *** Payloads *)

Lemma end_of_input d : fresh d -> remaining d = [] -> check_exact_end c = true ->
  ends (next_event (at_next d [])) [TraversalEnd].
Proof.
  intros Hf Hr Hc. cbn [next_event next_action ancestor_path config decoder]. unfold perform, read_end. rewrite Hc.
  pose proof (check_end_run (X := X) (Y := Y) (VBool true) d) as He. rewrite Hr in He.
  unfold mbind, M_bind in *. destruct (check_end d) as [[[u|e] d']|]; [|done|done].
  cbn in He |- *. apply (ends_now (mk_located _ _ _ TraversalEnd)). done.
Qed.

Lemma trailing_bytes d b rest : fresh d -> remaining d = b :: rest -> check_exact_end c = true ->
  fails (next_event (at_next d [])).
Proof.
  intros Hf Hr Hc. cbn [next_event next_action ancestor_path config decoder]. unfold perform, read_end. rewrite Hc.
  pose proof (check_end_run (X := X) (Y := Y) (VBool true) d) as He. rewrite Hr in He.
  unfold mbind, M_bind in *. destruct (check_end d) as [[[u|e] d']|]; [done| |done]. by eapply fails_now.
Qed.

Abbreviation payload_start pre bs := (next_event (Y := Y) (traverser_new bs (PayloadPrefix pre) c)).

Lemma read_payload pre v rest d : value_ok v = true -> encodable v = true -> (value_depth v <= mx)%nat -> fresh d ->
  remaining d = pre :: field_bytes v ++ rest ->
  runs (next_event (mk_traverser d [] (ReadPrefix pre) c)) (value_events v)
    (at_next (advance_offset (length (pre :: field_bytes v)) d) []).
Proof.
  intros Hok He Hd Hf Hr. cbn [next_event next_action ancestor_path config decoder].
  rewrite (reads_prefix 0 mx pre d (field_bytes v ++ rest) (proj1 Hf) (proj2 Hf) Hr).
  change (length (pre :: field_bytes v)) with (length [pre] + length (field_bytes v))%nat. rewrite <- advance_advance.
  apply (kid_runs v (HTuple 0) 0 _ _ [] _ rest); [apply value_runs|split_and!; [done|done|]|done|done|].
  - unfold value_depth in Hd. cbn. lia.
  - by apply (remaining_after d [pre]).
Qed.

Lemma payload_events pre bs : bytes_ok bs = true -> (1 <= mx)%nat -> check_exact_end c = true ->
  (exists v, decode_with_depth_limit pre mx bs = Done (Ok v) /\
     ends (payload_start pre bs) (value_events v ++ [TraversalEnd])) \/
  (exists e : DecodeError, decode_with_depth_limit (Y := Y) pre mx bs = Done (Err e) /\ fails (payload_start pre bs)).
Proof.
  intros Hb Hm Hc. destruct (decode_limit_sound (X := X) (Y := Y) pre mx bs Hb) as ([v|e] & Hd & Hv).
  - left. exists v. split; [done|]. destruct (Hv v eq_refl) as (Hok & He & Hdp & ->).
    eapply runs_ends; [apply (read_payload pre v [] _ Hok He Hdp); [done|by rewrite app_nil_r]|].
    apply end_of_input; [done| |done]. by apply (remaining_after _ _ []); rewrite app_nil_r.
  - right. exists e. split; [done|]. set (d := VecDecoder_new bs mx).
    change (fails (next_event (mk_traverser d [] (ReadPrefix pre) c))).
    cbn [next_event next_action ancestor_path config decoder].
    pose proof (parses_prefix 0 mx pre d eq_refl eq_refl Hb) as Hp.
    destruct (read_and_check_payload_prefix pre d) as [[[u|e'] d']|] eqn:Hpre; [|by eapply fails_now|done].
    destruct Hp as (bs1 & rest & Hr & -> & ->). pose proof (bytes_ok_rest d _ _ Hb Hr) as Hb'.
    destruct (kid_or_fails (S (mx - 1)) (HTuple 0) 0 (offset (advance_offset (length [pre]) d))
      (offset (advance_offset (length [pre]) d)) [] (advance_offset (length [pre]) d))
      as [Hfl|(v & rest' & _ & (Hok & He & Hdp) & Hr')]; try done; [apply values_or_fail|cbn; lia|].
    rewrite (remaining_after _ _ _ Hr) in Hr'. cbn in Hr'. subst rest.
    assert (value_depth v <= mx)%nat as Hdv by (unfold value_depth; lia).
    change (remaining d = pre :: field_bytes v ++ rest') in Hr.
    pose proof (read_payload pre v rest' d Hok He Hdv ltac:(done) Hr) as Hruns.
    cbn [next_event next_action ancestor_path config decoder] in Hruns. rewrite Hpre in Hruns.
    eapply fails_later; [exact Hruns|]. destruct rest' as [|b rest'].
    + rewrite app_nil_r in Hr. pose proof (decode_limit_complete pre mx v Hok He Hdv) as Hdc.
      change (remaining d) with bs in Hr. rewrite <- Hr, Hd in Hdc. congruence.
    + eapply trailing_bytes; [done| |done]. by apply (remaining_after d (pre :: field_bytes v)).
Qed.

Lemma payload_good pre bs : bytes_ok bs = true -> good (traverser_new bs (PayloadPrefix pre) c).
Proof. done. Qed.

Lemma payload_fuel pre bs es : customs_nonempty -> bytes_ok bs = true -> ends (payload_start pre bs) es ->
  (length es <= traversal_fuel bs)%nat.
Proof.
  intros Hc Hb He. pose proof (ends_length _ _ Hc (payload_good pre bs Hb) He) as Hl.
  change (length es <= S (3 * length bs + 0 + 0))%nat in Hl. unfold traversal_fuel. lia.
Qed.

(** An encoded value has at most two events per byte. *)
Lemma value_events_length v : customs_nonempty -> value_ok v = true ->
  (length (value_events v) <= 2 * length (body_bytes v))%nat.
Proof.
  intros Hc.
  assert (forall n, 1 <= length (size_bytes n))%nat as Hs.
  { intros n. pose proof (size_bytes_nonempty n). destruct (size_bytes n); [done|cbn; lia]. }
  assert (forall (l : list (Value Y X)) (g : Value Y X -> list Z),
    Forall (fun v => value_ok v = true -> (length (value_events v) <= 2 * length (body_bytes v))%nat) l ->
    (forall v, length (body_bytes v) <= length (g v))%nat -> forallb value_ok l = true ->
    (length (l ≫= value_events) <= 2 * length (l ≫= g))%nat) as Hl.
  { intros l g HF Hg. induction HF as [|v' l Hv _ IH]; intros Ho; [done|].
    cbn in Ho |- *. apply andb_true_iff in Ho as [Ho1 Ho2].
    rewrite !length_app. specialize (Hg v'). specialize (Hv Ho1). specialize (IH Ho2). lia. }
  induction v using value_ind_nested; intros Ho.
  1-12,17: match goal with |- context [value_events ?v] =>
    destruct (terminal_of v) as [e|] eqn:He; [|discriminate He];
    pose proof (terminal_bytes_nonempty v e Hc He Ho); rewrite (terminal_events _ _ He);
    destruct (body_bytes v); [done|cbn; lia] end.
  all: cbn [value_events body_bytes value_ok] in *; unfold container; cbn [length]; rewrite ?length_app;
    pose proof (Hs (Z.of_nat (length l))); cbn [length]; zbool.
  - pose proof (Hl l (fun f => as_u8 (get_value_kind f) :: body_bytes f) ltac:(done) ltac:(cbn; lia) ltac:(done)). cbn in *. lia.
  - destruct l as [|v l]; [cbn; lia|]. case_bool_decide; [change (length [_]) with 1%nat; lia|].
    pose proof (Hl (v :: l) body_bytes ltac:(done) ltac:(done) ltac:(done)). lia.
  - pose proof (Hl l (fun f => as_u8 (get_value_kind f) :: body_bytes f) ltac:(done) ltac:(cbn; lia) ltac:(done)). cbn in *. lia.
  - assert (length (l ≫= (fun '(key, value) => value_events key ++ value_events value)) <=
      2 * length (l ≫= (fun '(key, value) => body_bytes key ++ body_bytes value)))%nat; [|lia].
    match goal with HF : Forall _ l |- _ => induction HF as [|[a b] l' [Ha Hb] _ IH] end; [done|].
    cbn in Ho, Ha, Hb |- *. apply andb_true_iff in Ho as [[Ho1 Ho2]%andb_true_iff Ho3].
    rewrite !length_app. specialize (Ha Ho1). specialize (Hb Ho2). specialize (IH Ho3 (Hs _)). lia.
Qed.

Lemma encoded_events pre v : customs_nonempty -> value_ok v = true -> encodable v = true ->
  (value_depth v <= mx)%nat -> check_exact_end c = true ->
  ends (payload_start pre (pre :: field_bytes v)) (value_events v ++ [TraversalEnd]) /\
  (length (value_events v ++ [TraversalEnd]) <= traversal_fuel (pre :: field_bytes v))%nat.
Proof.
  intros Hc Hok He Hd Hx. split.
  - eapply runs_ends; [apply (read_payload pre v [] _ Hok He Hd); [done|by rewrite app_nil_r]|].
    apply end_of_input; [done| |done]. by apply (remaining_after _ _ []); rewrite app_nil_r.
  - rewrite length_app. pose proof (value_events_length v Hc Hok). unfold traversal_fuel. cbn. lia.
Qed.
End Runs.

(** The custom values among the events are those of the value. *)
Lemma customs_events v : encodable v = true -> value_events v ≫= event_custom = customs v.
Proof.
  assert (forall l : list (Value Y X),
    Forall (fun v => encodable v = true -> value_events v ≫= event_custom = customs v) l ->
    forallb encodable l = true -> (l ≫= value_events) ≫= event_custom = l ≫= customs) as Hl.
  { intros l HF. induction HF as [|v' l Hv _ IH]; intros He; [done|]. cbn in He |- *. zbool.
    rewrite bind_app, IH, Hv by done. done. }
  assert (forall h (es : list (TraversalEvent X Y)),
    container h es ≫= event_custom = es ≫= event_custom) as Hc.
  { intros h es. unfold container. cbn [mbind list_bind event_custom app]. rewrite bind_app. cbn. by rewrite app_nil_r. }
  induction v using value_ind_nested; intros He; try done; cbn in He; apply andb_true_iff in He as [_ He];
    cbn [value_events customs]; rewrite Hc; try (by apply Hl).
  - assert (Forall (fun f => get_value_kind f = k /\ encodable f = true) l) as Hk.
    { apply Forall_forall. intros f Hf. pose proof (forallb_elem _ _ f He Hf) as Hkf.
      by apply andb_true_iff in Hkf as [?%bool_decide_eq_true ?]. }
    destruct l as [|v' l]; [done|]. case_bool_decide as Hk8.
    + subst k. symmetry. change ((v' :: l) ≫= customs = []). revert Hk. generalize (v' :: l). clear. intros l Hk.
      induction Hk as [|f l [Hf _] _ IH]; [done|]. cbn [mbind list_bind]. change (customs f ++ (l ≫= customs) = []).
      rewrite IH. by destruct f.
    + apply Hl; [done|]. eapply Forall_forallb; [exact Hk|]. by intros f [_ ?].
  - clear Hc Hl. match goal with HF : Forall _ l |- _ => induction HF as [|[a b] l [Ha Hb] _ IH] end; [done|]. cbn in He |- *. zbool.
    rewrite !bind_app. cbn in Ha, Hb. rewrite Ha, Hb by done. f_equal. by apply IH.
Qed.

Lemma customs_ok v : value_ok v = true -> Forall (fun y => custom_ok y = true) (customs v).
Proof.
  assert (forall l : list (Value Y X),
    Forall (fun v => value_ok v = true -> Forall (fun y => custom_ok y = true) (customs v)) l ->
    forallb value_ok l = true -> Forall (fun y => custom_ok y = true) (l ≫= customs)) as Hl.
  { intros l HF. induction HF as [|v' l Hv _ IH]; intros Ho; [constructor|]. cbn in Ho |- *. zbool.
    apply Forall_app. auto. }
  induction v using value_ind_nested; intros Ho; cbn in Ho |- *; zbool; try (constructor; done); try (by apply Hl).
  clear Hl. match goal with HF : Forall _ l |- _ => induction HF as [|[a b] l [Ha Hb] _ IH] end; [constructor|].
  cbn in Ho, Ha, Hb |- *. zbool. rewrite !Forall_app. auto.
Qed.
End Theory.
End TraversalTheory.

(** ** Indexed values

    [IndexedScryptoValue::new]: the bytes of a payload with the nodes it refers
    to and owns. *)

Module Indexed.
Import Scrypto.

Record IndexedScryptoValue : Type := mk_indexed {
  bytes : list Z;
  references : list (list Z);
  owned_nodes : list (list Z)
}.

Definition index_step (ev : TraversalEvent ScryptoCustomValueKind ScryptoCustomValue)
    (acc : list (list Z) * list (list Z)) : list (list Z) * list (list Z) :=
  match ev with
  | TerminalValue (TCustom (SReference node_id)) => (acc.1 ++ [node_id], acc.2)
  | TerminalValue (TCustom (SOwn node_id)) => (acc.1, acc.2 ++ [node_id])
  | _ => acc
  end.

Fixpoint index_loop (fuel : nat) (t : VecTraverser ScryptoCustomValueKind)
    (acc : list (list Z) * list (list Z)) : Exec (Result DecodeError (list (list Z) * list (list Z))) :=
  match fuel with
  | O => Panicked
  | S f =>
      r ← next_event t;
      match event r.1 with
      | TraversalEnd => Done (Ok acc)
      | TraversalError e => Done (Err e)
      | ev => index_loop f r.2 (index_step ev acc)
      end
  end.

Definition indexed_new (payload : list Z) : Exec (Result DecodeError IndexedScryptoValue) :=
  r ← index_loop (traversal_fuel payload)
        (traverser_new payload (PayloadPrefix SCRYPTO_SBOR_V1_PAYLOAD_PREFIX)
          (mk_config SCRYPTO_SBOR_V1_MAX_DEPTH true)) ([], []);
  Done match r with
       | Ok (references, owned_nodes) => Ok (mk_indexed payload references owned_nodes)
       | Err e => Err e
       end.

Definition from_scrypto_value (value : ScryptoValue) : Exec IndexedScryptoValue :=
  r ← scrypto_encode value;
  match r with
  | Ok payload => i ← indexed_new payload; match i with Ok v => Done v | Err _ => Panicked end
  | Err _ => Panicked
  end.

Definition to_scrypto_value (self : IndexedScryptoValue) : Exec ScryptoValue :=
  r ← scrypto_decode (bytes self);
  match r with Ok v => Done v | Err _ => Panicked end.

(** The values the track holds. *)
#[export] Instance scrypto_indexed : IndexedValue IndexedScryptoValue := {
  from_vec payload := match indexed_new payload with Done (Ok v) => Some v | _ => None end;
  as_vec := bytes;
  Track.owned_nodes := owned_nodes
}.

(** What a value refers to and owns. *)
Definition refs (v : ScryptoValue) : list (list Z) :=
  customs v ≫= (fun y => match y with SReference node_id => [node_id] | _ => [] end).
Definition owns (v : ScryptoValue) : list (list Z) :=
  customs v ≫= (fun y => match y with SOwn node_id => [node_id] | _ => [] end).
End Indexed.


(** *** The loop over the events *)

Module IndexedTheory.
Import Scrypto Indexed TraversalTheory.
Abbreviation Ev := (TraversalEvent ScryptoCustomValueKind ScryptoCustomValue).

Lemma scrypto_nonempty : customs_nonempty (X := ScryptoCustomValueKind) (Y := ScryptoCustomValue).
Proof.
  intros y Hok Hb. destruct y as [n|n|d|d|i]; cbn in Hok, Hb; subst; try discriminate.
  destruct i; cbn in Hb; by apply app_nil in Hb as [? _] || discriminate.
Qed.

Lemma manifest_nonempty : customs_nonempty (X := Manifest.ManifestCustomValueKind) (Y := Manifest.ManifestCustomValue).
Proof.
  intros y Hok Hb. destruct y as [a|b|p|e|h|d|d|i|r]; cbn in Hok, Hb; try (by subst); try (by destruct e);
    try (by destruct a); by destruct i.
Qed.

Lemma index_loop_end fuel t acc (evs : list Ev) r : r = next_event t -> ends r (evs ++ [TraversalEnd]) ->
  (length (evs ++ [TraversalEnd]) <= fuel)%nat ->
  index_loop fuel t acc = Done (Ok (foldl (fun acc ev => index_step ev acc) acc evs)).
Proof.
  intros Hr He Hf. remember (evs ++ [TraversalEnd]) as es eqn:Hes. revert fuel t acc evs Hr Hf Hes.
  induction He as [loc t' Hev|loc t' es Hev He IH]; intros [|fuel] t acc evs Hr Hf Hes; cbn in Hf; try lia;
    cbn [index_loop]; rewrite <- Hr; cbn.
  - destruct evs as [|ev evs]; [|by destruct evs]. injection Hes as ->. done.
  - destruct evs as [|ev evs]; [injection Hes as ?; by destruct (event loc)|]. injection Hes as <- ->. cbn [foldl].
    rewrite <- (IH fuel t' _ evs eq_refl) by (done || lia). by destruct (event loc).
Qed.

Lemma index_loop_error fuel t acc (evs : list Ev) e r : r = next_event t -> ends r (evs ++ [TraversalError e]) ->
  (length (evs ++ [TraversalError (X := ScryptoCustomValueKind) (Y := ScryptoCustomValue) e]) <= fuel)%nat ->
  index_loop fuel t acc = Done (Err e).
Proof.
  intros Hr He Hf. remember (evs ++ [TraversalError e]) as es eqn:Hes. revert fuel t acc evs Hr Hf Hes.
  induction He as [loc t' Hev|loc t' es Hev He IH]; intros [|fuel] t acc evs Hr Hf Hes; cbn in Hf; try lia;
    cbn [index_loop]; rewrite <- Hr; cbn.
  - destruct evs as [|ev evs]; [|by destruct evs]. injection Hes as ->. done.
  - destruct evs as [|ev evs]; [injection Hes as ?; by destruct (event loc)|]. injection Hes as <- ->.
    rewrite <- (IH fuel t' (index_step (event loc) acc) evs eq_refl) by (done || lia). by destruct (event loc).
Qed.

Lemma index_fold (evs : list Ev) acc :
  foldl (fun acc ev => index_step ev acc) acc evs =
  (acc.1 ++ (evs ≫= event_custom) ≫= (fun y => match y with SReference node_id => [node_id] | _ => [] end),
   acc.2 ++ (evs ≫= event_custom) ≫= (fun y => match y with SOwn node_id => [node_id] | _ => [] end)).
Proof.
  revert acc. induction evs as [|ev evs IH]; intros [a b]; cbn [foldl]; [cbn; by rewrite !app_nil_r|].
  rewrite IH. cbn [mbind list_bind]. rewrite !bind_app.
  destruct ev as [| |[ | | | | | | | | | | | |[]]| | |]; cbn; by rewrite <- ?app_assoc.
Qed.

Lemma indexed_new_spec payload : bytes_ok payload = true ->
  (exists v, scrypto_decode payload = Done (Ok v) /\ indexed_new payload = Done (Ok (mk_indexed payload (refs v) (owns v)))) \/
  (exists e, scrypto_decode payload = Done (Err e) /\ exists err, indexed_new payload = Done (Err err)).
Proof.
  intros Hb.
  pose proof (payload_events (X := ScryptoCustomValueKind) (Y := ScryptoCustomValue) (mk_config SCRYPTO_SBOR_V1_MAX_DEPTH true) SCRYPTO_SBOR_V1_PAYLOAD_PREFIX payload Hb
    ltac:(cbn; unfold SCRYPTO_SBOR_V1_MAX_DEPTH; lia) eq_refl) as Hp. cbn [max_depth] in Hp.
  destruct Hp as [(v & Hd & He)|(e & Hd & es & err & He)]; unfold scrypto_decode; rewrite Hd; unfold indexed_new;
    pose proof (payload_fuel _ _ _ _ scrypto_nonempty Hb He) as Hf; [left; exists v|right; exists e]; (split; [done|]).
  - rewrite (index_loop_end _ _ _ _ _ eq_refl He Hf). cbn. rewrite index_fold. cbn. unfold refs, owns.
    rewrite customs_events; [done|].
    destruct (decode_limit_sound (X := ScryptoCustomValueKind) (Y := ScryptoCustomValue)
      SCRYPTO_SBOR_V1_PAYLOAD_PREFIX SCRYPTO_SBOR_V1_MAX_DEPTH payload Hb) as (r & Hr & Hv).
    rewrite Hd in Hr. injection Hr as <-. by apply Hv.
  - exists err. by rewrite (index_loop_error _ _ _ _ _ _ eq_refl He Hf).
Qed.

#[export] Instance scrypto_indexed_laws : IndexedValueLaws IndexedScryptoValue.
Proof.
  split. intros payload v. cbn. unfold indexed_new.
  destruct (index_loop _ _ _) as [[[refs own]|e]|]; cbn; intros; by simplify_eq.
Qed.
End IndexedTheory.

(** ** Theorems *)

Module TraversalTheorems.
Import IndexedTheory.
Import Scrypto Indexed TraversalTheory.

Section Traversals.
Context {X Y : Type} `{CustomValueLaws X Y}.

(** C12. The streaming traversal of a payload agrees with the decoder on every
    sequence of bytes, with the same depth limit and prefix: it always ends;
    where the decoder accepts a value, its events are exactly those of that
    value in order, followed by the end; where the decoder fails, it ends with
    an error and reports no end. *)
Theorem traversal_matches_decoder (Hne : customs_nonempty (X := X) (Y := Y)) (pre : Z) (mx : nat) (bs : list Z)
    (Hb : bytes_ok bs = true) (Hmx : (1 <= mx)%nat) :
  let events := traverse (Y := Y) (traversal_fuel bs) (traverser_new bs (PayloadPrefix pre) (mk_config mx true)) in
  match decode_with_depth_limit (Y := Y) pre mx bs with
  | Done (Ok v) => events = Done (value_events v ++ [TraversalEnd])
  | Done (Err _) => exists es e, events = Done (es ++ [TraversalError e]) /\ TraversalEnd ∉ es
  | Panicked => False
  end.
Proof.
  intros events. pose proof (payload_events (Y := Y) (mk_config mx true) pre bs Hb Hmx eq_refl) as Hp.
  cbn [max_depth] in Hp. destruct Hp as [(v & -> & He)|(e & -> & es & err & He)].
  - apply ends_traverse; [done|]. by eapply payload_fuel.
  - exists es, err. split; [apply ends_traverse; [done|by eapply payload_fuel]|].
    by eapply ends_no_end.
Qed.
End Traversals.

Lemma traversal_matches_decoder_witness :
  bytes_ok SborTheorems.sample_bytes = true /\
  traverse (X := NoCustomValueKind) (Y := NoCustomValue) (traversal_fuel SborTheorems.sample_bytes)
    (traverser_new SborTheorems.sample_bytes (PayloadPrefix BASIC_SBOR_V1_PAYLOAD_PREFIX)
      (mk_config BASIC_SBOR_V1_MAX_DEPTH true)) =
  Done (value_events SborTheorems.sample ++ [TraversalEnd]).
Proof.
  split; [reflexivity|].
  assert (decode_with_depth_limit BASIC_SBOR_V1_PAYLOAD_PREFIX BASIC_SBOR_V1_MAX_DEPTH SborTheorems.sample_bytes =
    Done (Ok SborTheorems.sample)) as Hd by (vm_compute; reflexivity).
  pose proof (traversal_matches_decoder (X := NoCustomValueKind) (Y := NoCustomValue) ltac:(by intros [])
    BASIC_SBOR_V1_PAYLOAD_PREFIX BASIC_SBOR_V1_MAX_DEPTH SborTheorems.sample_bytes eq_refl
    ltac:(unfold BASIC_SBOR_V1_MAX_DEPTH; lia)) as H. rewrite Hd in H. exact H.
Defined.

(** Indexing a payload succeeds exactly on the payloads that decode to a
    value, and lists exactly the node ids that the value refers to and owns, in
    the order of their positions and with repetitions, without building the
    value. *)
Theorem indexed_value_exact (payload : list Z) (Hb : bytes_ok payload = true) :
  match scrypto_decode payload with
  | Done (Ok v) => indexed_new payload = Done (Ok (mk_indexed payload (refs v) (owns v)))
  | Done (Err _) => exists e, indexed_new payload = Done (Err e)
  | Panicked => False
  end.
Proof.
  destruct (indexed_new_spec payload Hb) as [(v & -> & ->)|(e & -> & err & ->)]; [done|by exists err].
Qed.

Lemma indexed_value_exact_witness :
  bytes_ok SborCustomTheorems.scrypto_sample_bytes = true /\
  indexed_new SborCustomTheorems.scrypto_sample_bytes =
    Done (Ok (mk_indexed SborCustomTheorems.scrypto_sample_bytes (refs SborCustomTheorems.scrypto_sample)
      (owns SborCustomTheorems.scrypto_sample))).
Proof.
  split; [reflexivity|].
  assert (scrypto_decode SborCustomTheorems.scrypto_sample_bytes = Done (Ok SborCustomTheorems.scrypto_sample)) as Hd
    by (vm_compute; reflexivity).
  pose proof (indexed_value_exact SborCustomTheorems.scrypto_sample_bytes eq_refl) as H. rewrite Hd in H. exact H.
Defined.

(** The source's test of the length of a body (an array of one byte array). *)
Example byte_length_of_array :
  calculate_value_tree_body_byte_length (X := NoCustomValueKind) (Y := NoCustomValue) [0x20; 1; 7; 2; 44; 55] KArray 0 100 =
    Done (Ok 6%nat).
Proof. reflexivity. Qed.
End TraversalTheorems.
