(* ===== verification/Schema.v ===== *)
(** * SBOR schemas

    The types of payloads (sbor/src/schema/): the kinds of types, their names and
    validations, schemas as tables of types that refer to each other by index,
    the well-known types, and the validation of a schema against itself.  The
    custom types of an extension are behind the class [CustomSchema], as in the
    source; [ScryptoSchema] has its instance. *)

From S2P Require Import Prelude IndexMap Text.
Import Int Str(Str, lit, byte_len).

(** ** Types *)

Inductive LocalTypeId : Type :=
| WellKnown (index : Z)
| SchemaLocalIndex (index : nat).

#[global] Instance LocalTypeId_eq_dec : EqDecision LocalTypeId.
Proof. solve_decision. Defined.

Inductive TypeKind (T : Type) : Type :=
| TyAny
| TyBool | TyI8 | TyI16 | TyI32 | TyI64 | TyI128 | TyU8 | TyU16 | TyU32 | TyU64 | TyU128 | TyString
| TyArray (element_type : LocalTypeId)
| TyTuple (field_types : list LocalTypeId)
| TyEnum (variants : IndexMap Z (list LocalTypeId))
| TyMap (key_type value_type : LocalTypeId)
| TyCustom (custom : T).
Arguments TyAny {T}. Arguments TyBool {T}. Arguments TyI8 {T}. Arguments TyI16 {T}. Arguments TyI32 {T}.
Arguments TyI64 {T}. Arguments TyI128 {T}. Arguments TyU8 {T}. Arguments TyU16 {T}. Arguments TyU32 {T}.
Arguments TyU64 {T}. Arguments TyU128 {T}. Arguments TyString {T}. Arguments TyArray {T}. Arguments TyTuple {T}.
Arguments TyEnum {T}. Arguments TyMap {T}. Arguments TyCustom {T}.

Inductive TypeKindLabel (L : Type) : Type :=
| LabelAny
| LabelBool | LabelI8 | LabelI16 | LabelI32 | LabelI64 | LabelI128
| LabelU8 | LabelU16 | LabelU32 | LabelU64 | LabelU128 | LabelString
| LabelArray | LabelTuple | LabelEnum | LabelMap
| LabelCustom (label : L).
Arguments LabelAny {L}. Arguments LabelBool {L}. Arguments LabelI8 {L}. Arguments LabelI16 {L}. Arguments LabelI32 {L}.
Arguments LabelI64 {L}. Arguments LabelI128 {L}. Arguments LabelU8 {L}. Arguments LabelU16 {L}. Arguments LabelU32 {L}.
Arguments LabelU64 {L}. Arguments LabelU128 {L}. Arguments LabelString {L}. Arguments LabelArray {L}.
Arguments LabelTuple {L}. Arguments LabelEnum {L}. Arguments LabelMap {L}. Arguments LabelCustom {L}.

(** *** Names *)

Inductive TypeMetadata : Type :=
| mk_metadata (type_name : option Str) (child_names : option ChildNames)
with ChildNames : Type :=
| NamedFields (names : list Str)
| EnumVariants (variants : IndexMap Z TypeMetadata).

Definition type_name (m : TypeMetadata) : option Str := match m with mk_metadata n _ => n end.
Definition child_names (m : TypeMetadata) : option ChildNames := match m with mk_metadata _ c => c end.

Definition metadata_unnamed : TypeMetadata := mk_metadata None None.
Definition metadata_no_child_names (name : Str) : TypeMetadata := mk_metadata (Some name) None.
Definition metadata_struct_fields (name : Str) (field_names : list Str) : TypeMetadata :=
  mk_metadata (Some name) (Some (NamedFields field_names)).
Definition metadata_enum_variants (name : Str) (variant_naming : IndexMap Z TypeMetadata) : TypeMetadata :=
  mk_metadata (Some name) (Some (EnumVariants variant_naming)).

(** *** Validations *)

Record LengthValidation : Type := mk_length { length_min : option Z; length_max : option Z }.
Record NumericValidation : Type := mk_numeric { numeric_min : option Z; numeric_max : option Z }.

Definition length_is_valid (self : LengthValidation) (length : Z) : bool :=
  (default 0 (length_min self) <=? length) && (length <=? default (2 ^ 32 - 1) (length_max self)).

(** The bounds of a type of integers: [NumericValidationBound]. *)
Definition i_bounds (w : Z) : Z * Z := (- 2 ^ (w - 1), 2 ^ (w - 1) - 1).
Definition u_bounds (w : Z) : Z * Z := (0, 2 ^ w - 1).

Definition effective_min (b : Z * Z) (self : NumericValidation) : Z := default b.1 (numeric_min self).
Definition effective_max (b : Z * Z) (self : NumericValidation) : Z := default b.2 (numeric_max self).
Definition numeric_is_valid (b : Z * Z) (self : NumericValidation) (value : Z) : bool :=
  (effective_min b self <=? value) && (value <=? effective_max b self).

Inductive TypeValidation (E : Type) : Type :=
| NoValidation
| ValI8 (n : NumericValidation) | ValI16 (n : NumericValidation) | ValI32 (n : NumericValidation)
| ValI64 (n : NumericValidation) | ValI128 (n : NumericValidation)
| ValU8 (n : NumericValidation) | ValU16 (n : NumericValidation) | ValU32 (n : NumericValidation)
| ValU64 (n : NumericValidation) | ValU128 (n : NumericValidation)
| ValString (l : LengthValidation)
| ValArray (l : LengthValidation)
| ValMap (l : LengthValidation)
| ValCustom (e : E).
Arguments NoValidation {E}. Arguments ValI8 {E}. Arguments ValI16 {E}. Arguments ValI32 {E}. Arguments ValI64 {E}.
Arguments ValI128 {E}. Arguments ValU8 {E}. Arguments ValU16 {E}. Arguments ValU32 {E}. Arguments ValU64 {E}.
Arguments ValU128 {E}. Arguments ValString {E}. Arguments ValArray {E}. Arguments ValMap {E}. Arguments ValCustom {E}.

(** *** Type data *)

Record TypeData (T E : Type) : Type := mk_type_data {
  type_data_kind : TypeKind T;
  type_data_metadata : TypeMetadata;
  type_data_validation : TypeValidation E
}.
Arguments mk_type_data {T E}. Arguments type_data_kind {T E}. Arguments type_data_metadata {T E}.
Arguments type_data_validation {T E}.

Section TypeData.
Context {T E : Type}.
Abbreviation Data := (TypeData T E).

Definition type_data_new (kind : TypeKind T) (metadata : TypeMetadata) : Data := mk_type_data kind metadata NoValidation.
Definition type_data_unnamed (kind : TypeKind T) : Data := mk_type_data kind metadata_unnamed NoValidation.

Definition struct_with_unnamed_fields (name : Str) (field_types : list LocalTypeId) : Data :=
  type_data_new (TyTuple field_types) (metadata_no_child_names name).

Definition struct_with_named_fields (name : Str) (fields : list (Str * LocalTypeId)) : Data :=
  type_data_new (TyTuple (snd <$> fields)) (metadata_struct_fields name (fst <$> fields)).

(** [enum_variants]: panics when the data of a variant is not a tuple. *)
Fixpoint enum_variants_split (variants : IndexMap Z Data) : Exec (IndexMap Z TypeMetadata * IndexMap Z (list LocalTypeId)) :=
  match variants with
  | [] => Done ([], [])
  | (k, variant_type_data) :: variants =>
      match type_data_kind variant_type_data with
      | TyTuple field_types =>
          r ← enum_variants_split variants;
          Done ((k, type_data_metadata variant_type_data) :: r.1, (k, field_types) :: r.2)
      | _ => Panicked
      end
  end.

Definition enum_variants (name : Str) (variants : IndexMap Z Data) : Exec Data :=
  r ← enum_variants_split variants;
  Done (type_data_new (TyEnum r.2) (metadata_enum_variants name r.1)).

Definition with_validation (type_validation : TypeValidation E) (self : Data) : Data :=
  mk_type_data (type_data_kind self) (type_data_metadata self) type_validation.

Definition metadata_with_name (name : option Str) (self : TypeMetadata) : TypeMetadata := mk_metadata name (child_names self).

Definition with_name (name : option Str) (self : Data) : Data :=
  mk_type_data (type_data_kind self) (metadata_with_name name (type_data_metadata self)) (type_data_validation self).
End TypeData.

(** ** Schemas *)

Record Schema (T E : Type) : Type := mk_schema {
  type_kinds : list (TypeKind T);
  type_metadata : list TypeMetadata;
  type_validations : list (TypeValidation E)
}.
Arguments mk_schema {T E}. Arguments type_kinds {T E}. Arguments type_metadata {T E}. Arguments type_validations {T E}.

Definition schema_empty {T E} : Schema T E := mk_schema [] [] [].

Record SchemaContext : Type := mk_schema_context { local_types_len : nat }.

Inductive SchemaValidationError : Type :=
| MetadataLengthMismatch
| ValidationsLengthMismatch
| TypeKindTupleTooLong (max_size : Z)
| TypeKindEnumVariantTooLong (max_size : Z)
| TypeKindInvalidSchemaLocalIndex
| TypeKindInvalidWellKnownIndex
| TypeMetadataContainedUnexpectedChildNames
| TypeMetadataContainedDuplicateFieldNames
| TypeMetadataFieldNameCountDoesNotMatchFieldCount
| TypeMetadataContainedUnexpectedEnumVariants
| TypeMetadataContainedUnexpectedNamedFields
| TypeMetadataContainedWrongNumberOfVariants
| TypeMetadataEnumNameIsRequired
| TypeMetadataEnumVariantNameIsRequired
| TypeMetadataForEnumIsNotEnumVariantChildNames
| TypeMetadataHasMismatchingEnumDiscriminator
| TypeMetadataContainedDuplicateEnumVariantNames
| InvalidIdentName
| TypeValidationMismatch
| TypeValidationNumericValidationInvalid
| TypeValidationLengthValidationInvalid
| TypeValidationAttachedToCustomType.

(** The custom types of an extension: [T] their kinds, [L] the labels of the
    kinds and [E] their validations. *)
Class CustomSchema (T L E : Type) : Type := {
  custom_label : T -> L;
  resolve_well_known_type : Z -> option (TypeData T E);
  validate_custom_type_kind : SchemaContext -> T -> Result SchemaValidationError unit;
  validate_custom_validation : SchemaContext -> T -> E -> Result SchemaValidationError unit;
  validate_custom_metadata : SchemaContext -> T -> TypeMetadata -> Result SchemaValidationError unit
}.

(** ** Validation of names *)

Definition MAX_NUMBER_OF_FIELDS : Z := 1024.

Definition ident_start (c : Z) : bool := (0x41 <=? c) && (c <=? 0x5a) || (0x61 <=? c) && (c <=? 0x7a).
Definition ident_char (c : Z) : bool := (0x30 <=? c) && (c <=? 0x39) || ident_start c || (c =? 0x5f).

(** [validate_schema_ident]; the error of each case carries the same kind of
    message, which is left out. *)
Definition validate_schema_ident (name : Str) : Result SchemaValidationError unit :=
  if byte_len name =? 0 then Err InvalidIdentName
  else if 100 <? byte_len name then Err InvalidIdentName
  else
    match name with
    | [] => Err InvalidIdentName
    | first_char :: _ =>
        if negb (ident_start first_char) then Err InvalidIdentName
        else if forallb ident_char name then Ok tt else Err InvalidIdentName
    end.

Fixpoint validate_unique_names (seen : list Str) (names : list Str) : Result SchemaValidationError unit :=
  match names with
  | [] => Ok tt
  | name :: names =>
      _ ← validate_schema_ident name;
      if bool_decide (name ∈ seen) then Err TypeMetadataContainedDuplicateFieldNames
      else validate_unique_names (seen ++ [name]) names
  end.

Definition validate_field_names (names : option ChildNames) (field_count : nat) : Result SchemaValidationError unit :=
  match names with
  | None => Ok tt
  | Some (NamedFields field_names) =>
      if negb (length field_names =? field_count)%nat then Err TypeMetadataFieldNameCountDoesNotMatchFieldCount
      else validate_unique_names [] field_names
  | Some (EnumVariants _) => Err TypeMetadataContainedUnexpectedEnumVariants
  end.

Definition validate_type_name (name : option Str) : Result SchemaValidationError unit :=
  match name with Some name => validate_schema_ident name | None => Ok tt end.

Definition validate_childless_metadata (m : TypeMetadata) : Result SchemaValidationError unit :=
  _ ← validate_type_name (type_name m);
  match child_names m with None => Ok tt | Some _ => Err TypeMetadataContainedUnexpectedChildNames end.

Definition validate_tuple_metadata (m : TypeMetadata) (field_count : nat) : Result SchemaValidationError unit :=
  _ ← validate_type_name (type_name m);
  validate_field_names (child_names m) field_count.

Fixpoint validate_variants_metadata (variants : IndexMap Z (list LocalTypeId)) (unique_variant_names : list Str)
    (l : IndexMap Z TypeMetadata) : Result SchemaValidationError unit :=
  match l with
  | [] => Ok tt
  | (discriminator, variant_metadata) :: l =>
      match im_get discriminator variants with
      | None => Err TypeMetadataHasMismatchingEnumDiscriminator
      | Some child_types =>
          match type_name variant_metadata with
          | None => Err TypeMetadataEnumVariantNameIsRequired
          | Some variant_name =>
              _ ← validate_schema_ident variant_name;
              if bool_decide (variant_name ∈ unique_variant_names) then Err TypeMetadataContainedDuplicateEnumVariantNames
              else
                _ ← validate_field_names (child_names variant_metadata) (length child_types);
                validate_variants_metadata variants (unique_variant_names ++ [variant_name]) l
          end
      end
  end.

Definition validate_enum_metadata (m : TypeMetadata) (variants : IndexMap Z (list LocalTypeId)) :
    Result SchemaValidationError unit :=
  match type_name m with
  | None => Err TypeMetadataEnumNameIsRequired
  | Some name =>
      _ ← validate_schema_ident name;
      match child_names m with
      | Some (NamedFields _) | None => Err TypeMetadataForEnumIsNotEnumVariantChildNames
      | Some (EnumVariants variants_metadata) =>
          if negb (length variants_metadata =? length variants)%nat then Err TypeMetadataContainedWrongNumberOfVariants
          else validate_variants_metadata variants [] variants_metadata
      end
  end.

(** ** Validation of schemas *)

Definition validate_bounds (e : SchemaValidationError) (min max : option Z) : Result SchemaValidationError unit :=
  match min, max with
  | Some min, Some max => if max <? min then Err e else Ok tt
  | _, _ => Ok tt
  end.
Definition validate_numeric_validation (n : NumericValidation) : Result SchemaValidationError unit :=
  validate_bounds TypeValidationNumericValidationInvalid (numeric_min n) (numeric_max n).
Definition validate_length_validation (l : LengthValidation) : Result SchemaValidationError unit :=
  validate_bounds TypeValidationLengthValidationInvalid (length_min l) (length_max l).

Section Schemas.
Context {T L E : Type} `{CustomSchema T L E}.
Implicit Types (s : Schema T E) (type_id : LocalTypeId) (c : SchemaContext).

Definition label (k : TypeKind T) : TypeKindLabel L :=
  match k with
  | TyAny => LabelAny | TyBool => LabelBool
  | TyI8 => LabelI8 | TyI16 => LabelI16 | TyI32 => LabelI32 | TyI64 => LabelI64 | TyI128 => LabelI128
  | TyU8 => LabelU8 | TyU16 => LabelU16 | TyU32 => LabelU32 | TyU64 => LabelU64 | TyU128 => LabelU128
  | TyString => LabelString | TyArray _ => LabelArray | TyTuple _ => LabelTuple | TyEnum _ => LabelEnum
  | TyMap _ _ => LabelMap | TyCustom custom => LabelCustom (custom_label custom)
  end.

Definition resolve_type_kind s type_id : option (TypeKind T) :=
  match type_id with
  | WellKnown index => type_data_kind <$> resolve_well_known_type index
  | SchemaLocalIndex index => type_kinds s !! index
  end.

Definition resolve_type_metadata s type_id : option TypeMetadata :=
  match type_id with
  | WellKnown index => type_data_metadata <$> resolve_well_known_type index
  | SchemaLocalIndex index => type_metadata s !! index
  end.

Definition resolve_type_validation s type_id : option (TypeValidation E) :=
  match type_id with
  | WellKnown index => type_data_validation <$> resolve_well_known_type index
  | SchemaLocalIndex index => type_validations s !! index
  end.

Definition resolve_type_data s type_id : option (TypeKind T * TypeMetadata * TypeValidation E) :=
  match type_id with
  | WellKnown index =>
      d ← resolve_well_known_type index; Some (type_data_kind d, type_data_metadata d, type_data_validation d)
  | SchemaLocalIndex index =>
      type_kind ← type_kinds s !! index;
      type_metadata ← type_metadata s !! index;
      type_validation ← type_validations s !! index;
      Some (type_kind, type_metadata, type_validation)
  end.

Definition validate_index c type_id : Result SchemaValidationError unit :=
  match type_id with
  | WellKnown well_known_index =>
      match resolve_well_known_type well_known_index with None => Err TypeKindInvalidWellKnownIndex | Some _ => Ok tt end
  | SchemaLocalIndex schema_local_index =>
      if (local_types_len c <=? schema_local_index)%nat then Err TypeKindInvalidSchemaLocalIndex else Ok tt
  end.

Fixpoint validate_indices c (l : list LocalTypeId) : Result SchemaValidationError unit :=
  match l with
  | [] => Ok tt
  | type_id :: l => _ ← validate_index c type_id; validate_indices c l
  end.

Fixpoint validate_variants c (l : IndexMap Z (list LocalTypeId)) : Result SchemaValidationError unit :=
  match l with
  | [] => Ok tt
  | (_, field_types) :: l =>
      if MAX_NUMBER_OF_FIELDS <? Z.of_nat (length field_types) then Err (TypeKindEnumVariantTooLong MAX_NUMBER_OF_FIELDS)
      else _ ← validate_indices c field_types; validate_variants c l
  end.

Definition validate_type_kind c (k : TypeKind T) : Result SchemaValidationError unit :=
  match k with
  | TyArray element_type => validate_index c element_type
  | TyTuple field_types =>
      if MAX_NUMBER_OF_FIELDS <? Z.of_nat (length field_types) then Err (TypeKindTupleTooLong MAX_NUMBER_OF_FIELDS)
      else validate_indices c field_types
  | TyEnum variants => validate_variants c variants
  | TyMap key_type value_type => _ ← validate_index c key_type; validate_index c value_type
  | TyCustom custom => validate_custom_type_kind c custom
  | _ => Ok tt
  end.

Definition validate_type_metadata_with_type_kind c (k : TypeKind T) (m : TypeMetadata) : Result SchemaValidationError unit :=
  match k with
  | TyTuple field_types => validate_tuple_metadata m (length field_types)
  | TyEnum variants => validate_enum_metadata m variants
  | TyCustom custom => validate_custom_metadata c custom m
  | _ => validate_childless_metadata m
  end.

Definition validate_custom_type_validation c (k : TypeKind T) (v : TypeValidation E) : Result SchemaValidationError unit :=
  match v with
  | NoValidation => Ok tt
  | _ =>
      match k, v with
      | TyI8, ValI8 n | TyI16, ValI16 n | TyI32, ValI32 n | TyI64, ValI64 n | TyI128, ValI128 n
      | TyU8, ValU8 n | TyU16, ValU16 n | TyU32, ValU32 n | TyU64, ValU64 n | TyU128, ValU128 n =>
          validate_numeric_validation n
      | TyString, ValString l | TyArray _, ValArray l | TyMap _ _, ValMap l => validate_length_validation l
      | TyCustom custom, ValCustom e => validate_custom_validation c custom e
      | _, _ => Err TypeValidationMismatch
      end
  end.

Fixpoint validate_types c (kinds : list (TypeKind T)) (metadata : list TypeMetadata) (validations : list (TypeValidation E)) :
    Result SchemaValidationError unit :=
  match kinds, metadata, validations with
  | k :: kinds, m :: metadata, v :: validations =>
      _ ← validate_type_kind c k;
      _ ← validate_type_metadata_with_type_kind c k m;
      _ ← validate_custom_type_validation c k v;
      validate_types c kinds metadata validations
  | _, _, _ => Ok tt
  end.

Definition validate_schema s : Result SchemaValidationError unit :=
  let types_len := length (type_kinds s) in
  if negb (length (type_metadata s) =? types_len)%nat then Err MetadataLengthMismatch
  else if negb (length (type_validations s) =? types_len)%nat then Err ValidationsLengthMismatch
  else validate_types (mk_schema_context types_len) (type_kinds s) (type_metadata s) (type_validations s).
End Schemas.
