(* ===== verification/TypedTraversal.v ===== *)
(** * Typed traversal and validation of payloads

    The traverser of [Traversal] guided by a schema
    (sbor/src/traversal/typed/), which gives each event the type of its value
    or reports how the value fails to have it, and the validation of a payload
    against a schema (sbor/src/payload_validation/).  What custom values mean to
    a schema is behind the classes [CustomExtension] and
    [ValidatableCustomExtension], as in the source. *)

From S2P Require Import Prelude IndexMap Bytes Sbor Traversal Schema.
Import Int.

(** ** Container types *)

Inductive ContainerType : Type :=
| TupleType (self : LocalTypeId) (types : list LocalTypeId)
| EnumVariantType (self : LocalTypeId) (types : list LocalTypeId)
| ArrayType (self : LocalTypeId) (child_type : LocalTypeId)
| MapType (self : LocalTypeId) (key_type value_type : LocalTypeId)
| AnyType (self : LocalTypeId).

Definition ANY_TYPE : Z := 0x40.

Definition self_type (t : ContainerType) : LocalTypeId :=
  match t with TupleType i _ | EnumVariantType i _ | ArrayType i _ | MapType i _ _ | AnyType i => i end.

Definition get_child_type_for_element (t : ContainerType) (index : Z) : option LocalTypeId :=
  match t with
  | TupleType _ types | EnumVariantType _ types => types !! Z.to_nat index
  | ArrayType _ child_type => Some child_type
  | AnyType _ => Some (WellKnown ANY_TYPE)
  | MapType _ _ _ => None
  end.

Definition get_child_type_for_map_key (t : ContainerType) : option LocalTypeId :=
  match t with MapType _ key_type _ => Some key_type | AnyType _ => Some (WellKnown ANY_TYPE) | _ => None end.

Definition get_child_type_for_map_value (t : ContainerType) : option LocalTypeId :=
  match t with MapType _ _ value_type => Some value_type | AnyType _ => Some (WellKnown ANY_TYPE) | _ => None end.

(** ** Typed events *)

Inductive TypeMismatchError (X L : Type) : Type :=
| MismatchingType (type_id : LocalTypeId) (expected_type_kind : TypeKindLabel L) (actual_value_kind : ValueKind X)
| MismatchingChildElementType (type_id : LocalTypeId) (expected_type_kind : TypeKindLabel L) (actual_value_kind : ValueKind X)
| MismatchingChildKeyType (type_id : LocalTypeId) (expected_type_kind : TypeKindLabel L) (actual_value_kind : ValueKind X)
| MismatchingChildValueType (type_id : LocalTypeId) (expected_type_kind : TypeKindLabel L) (actual_value_kind : ValueKind X)
| MismatchingTupleLength (expected actual : Z) (type_id : LocalTypeId)
| MismatchingEnumVariantLength (expected actual : Z) (variant : Z) (type_id : LocalTypeId)
| UnknownEnumVariant (type_id : LocalTypeId) (variant : Z).
Arguments MismatchingType {X L}. Arguments MismatchingChildElementType {X L}. Arguments MismatchingChildKeyType {X L}.
Arguments MismatchingChildValueType {X L}. Arguments MismatchingTupleLength {X L}.
Arguments MismatchingEnumVariantLength {X L}. Arguments UnknownEnumVariant {X L}.

Inductive TypedTraversalError (X L : Type) : Type :=
| TypeIdNotFound (type_id : LocalTypeId)
| ValueMismatchWithType (e : TypeMismatchError X L)
| TypedDecodeError (e : DecodeError).
Arguments TypeIdNotFound {X L}. Arguments ValueMismatchWithType {X L}. Arguments TypedDecodeError {X L}.

Inductive TypedTraversalEvent (X Y L : Type) : Type :=
| TypedContainerStart (type_id : LocalTypeId) (header : ContainerHeader X)
| TypedContainerEnd (type_id : LocalTypeId) (header : ContainerHeader X)
| TypedTerminalValue (type_id : LocalTypeId) (value : TerminalValueRef Y)
| TypedTerminalValueBatch (type_id : LocalTypeId) (bytes : list Z)
| TypedEnd
| TypedError (e : TypedTraversalError X L).
Arguments TypedContainerStart {X Y L}. Arguments TypedContainerEnd {X Y L}. Arguments TypedTerminalValue {X Y L}.
Arguments TypedTerminalValueBatch {X Y L}. Arguments TypedEnd {X Y L}. Arguments TypedError {X Y L}.

Record CurrentValueInfo (X : Type) : Type := mk_value_info {
  info_type_id : LocalTypeId;
  info_value_kind : ValueKind X;
  info_variant : option Z
}.
Arguments mk_value_info {X}.

(** Paths are kept with the current container first. *)
Record FullLocation (X : Type) : Type := mk_full_location {
  full_start_offset : nat;
  full_end_offset : nat;
  full_ancestor_path : list (AncestorState X * ContainerType);
  current_value_info : option (CurrentValueInfo X)
}.
Arguments mk_full_location {X}.

(** ** Extensions *)

Class CustomExtension (X Y T L E : Type) `{CustomValue X Y} `{CustomSchema T L E} : Type := {
  PAYLOAD_PREFIX : Z;
  custom_value_kind_matches_type_kind : Schema T E -> X -> TypeKind T -> bool;
  custom_type_kind_matches_non_custom_value_kind : Schema T E -> T -> ValueKind X -> bool
}.

(** [CustomError] carries a message, which is left out. *)
Inductive ValidationError : Type :=
| LengthValidationError (required : LengthValidation) (actual : Z)
| I8ValidationError (required : NumericValidation) (actual : Z)
| I16ValidationError (required : NumericValidation) (actual : Z)
| I32ValidationError (required : NumericValidation) (actual : Z)
| I64ValidationError (required : NumericValidation) (actual : Z)
| I128ValidationError (required : NumericValidation) (actual : Z)
| U8ValidationError (required : NumericValidation) (actual : Z)
| U16ValidationError (required : NumericValidation) (actual : Z)
| U32ValidationError (required : NumericValidation) (actual : Z)
| U64ValidationError (required : NumericValidation) (actual : Z)
| U128ValidationError (required : NumericValidation) (actual : Z)
| CustomError.

Inductive PayloadValidationError (X L : Type) : Type :=
| PayloadTraversalError (e : TypedTraversalError X L)
| PayloadInvalid (e : ValidationError)
| SchemaInconsistency.
Arguments PayloadTraversalError {X L}. Arguments PayloadInvalid {X L}. Arguments SchemaInconsistency {X L}.

Class ValidatableCustomExtension (X Y T L E C : Type) `{CustomExtension X Y T L E} : Type := {
  apply_validation_for_custom_value : Schema T E -> Y -> LocalTypeId -> C -> Result (PayloadValidationError X L) unit;
  apply_custom_type_validation_for_non_custom_value :
    Schema T E -> E -> TerminalValueRef Y -> C -> Result (PayloadValidationError X L) unit
}.

(** ** The typed traverser *)

Record TypedTraverser (X T E : Type) : Type := mk_typed {
  traverser : VecTraverser X;
  container_stack : list ContainerType;
  typed_schema : Schema T E;
  root_type_id : LocalTypeId
}.
Arguments mk_typed {X T E}. Arguments traverser {X T E}. Arguments container_stack {X T E}.
Arguments typed_schema {X T E}. Arguments root_type_id {X T E}.

Section TypedTraverser.
Context {X Y T L E : Type} `{CustomExtension X Y T L E}.
Abbreviation TypedEvent := (TypedTraversalEvent X Y L).
Abbreviation Mapped := (TypedEvent * list ContainerType)%type.
Implicit Types (s : Schema T E) (type_id : LocalTypeId) (stack : list ContainerType).

Definition terminal_value_kind (v : TerminalValueRef Y) : ValueKind X :=
  match v with
  | TBool _ => KBool
  | TI8 _ => KI8 | TI16 _ => KI16 | TI32 _ => KI32 | TI64 _ => KI64 | TI128 _ => KI128
  | TU8 _ => KU8 | TU16 _ => KU16 | TU32 _ => KU32 | TU64 _ => KU64 | TU128 _ => KU128
  | TString _ => KString
  | TCustom y => KCustom (get_custom_value_kind y)
  end.

Definition value_kind_matches_type_kind s (value_kind : ValueKind X) (type_kind : TypeKind T) : bool :=
  match type_kind with
  | TyAny => true
  | _ =>
      match value_kind with
      | KCustom custom_value_kind => custom_value_kind_matches_type_kind s custom_value_kind type_kind
      | _ =>
          match type_kind, value_kind with
          | TyAny, _ => true
          | TyBool, KBool | TyI8, KI8 | TyI16, KI16 | TyI32, KI32 | TyI64, KI64 | TyI128, KI128
          | TyU8, KU8 | TyU16, KU16 | TyU32, KU32 | TyU64, KU64 | TyU128, KU128 | TyString, KString
          | TyArray _, KArray | TyTuple _, KTuple | TyEnum _, KEnum | TyMap _ _, KMap => true
          | TyCustom custom_type_kind, _ => custom_type_kind_matches_non_custom_value_kind s custom_type_kind value_kind
          | _, _ => false
          end
      end
  end.

Definition mismatch (e : TypeMismatchError X L) stack : Mapped := (TypedError (ValueMismatchWithType e), stack).

(** [look_up_type!] *)
Definition look_up_type s stack type_id (k : TypeKind T -> Mapped) : Mapped :=
  match resolve_type_kind s type_id with
  | Some resolved_type => k resolved_type
  | None => (TypedError (TypeIdNotFound type_id), stack)
  end.

Definition map_container_start_event s stack type_id (header : ContainerHeader X) : Mapped :=
  look_up_type s stack type_id (fun container_type =>
    let push t := (TypedContainerStart type_id header, t :: stack) in
    let mismatching := mismatch (MismatchingType type_id (label container_type) (get_own_value_kind header)) stack in
    match header with
    | HTuple length =>
        match container_type with
        | TyAny => push (AnyType type_id)
        | TyTuple field_types =>
            if Z.of_nat (List.length field_types) =? length then push (TupleType type_id field_types)
            else mismatch (MismatchingTupleLength (Z.of_nat (List.length field_types)) length type_id) stack
        | _ => mismatching
        end
    | HEnumVariant variant length =>
        match container_type with
        | TyAny => push (AnyType type_id)
        | TyEnum variants =>
            match im_get variant variants with
            | Some variant_child_types =>
                if Z.of_nat (List.length variant_child_types) =? length
                then push (EnumVariantType type_id variant_child_types)
                else mismatch (MismatchingEnumVariantLength (Z.of_nat (List.length variant_child_types)) length variant type_id) stack
            | None => mismatch (UnknownEnumVariant type_id variant) stack
            end
        | _ => mismatching
        end
    | HArray element_value_kind _ =>
        match container_type with
        | TyAny => push (AnyType type_id)
        | TyArray element_type_id =>
            look_up_type s stack element_type_id (fun element_type =>
              if negb (value_kind_matches_type_kind s element_value_kind element_type)
              then mismatch (MismatchingChildElementType element_type_id (label element_type) element_value_kind) stack
              else push (ArrayType type_id element_type_id))
        | _ => mismatching
        end
    | HMap key_value_kind value_value_kind _ =>
        match container_type with
        | TyAny => push (AnyType type_id)
        | TyMap key_type_id value_type_id =>
            look_up_type s stack key_type_id (fun key_type =>
              if negb (value_kind_matches_type_kind s key_value_kind key_type)
              then mismatch (MismatchingChildKeyType key_type_id (label key_type) key_value_kind) stack
              else
                look_up_type s stack value_type_id (fun value_type =>
                  if negb (value_kind_matches_type_kind s value_value_kind value_type)
                  then mismatch (MismatchingChildValueType value_type_id (label value_type) value_value_kind) stack
                  else push (MapType type_id key_type_id value_type_id)))
        | _ => mismatching
        end
    end).

Definition map_terminal_value_event s stack type_id (value_ref : TerminalValueRef Y) : Mapped :=
  let value_kind := terminal_value_kind value_ref in
  look_up_type s stack type_id (fun type_kind =>
    if negb (value_kind_matches_type_kind s value_kind type_kind)
    then mismatch (MismatchingType type_id (label type_kind) value_kind) stack
    else (TypedTerminalValue type_id value_ref, stack)).

Definition map_terminal_value_batch_event s stack type_id (value_batch : list Z) : Mapped :=
  let value_kind := KU8 in
  look_up_type s stack type_id (fun type_kind =>
    if negb (value_kind_matches_type_kind s value_kind type_kind)
    then mismatch (MismatchingType type_id (label type_kind) value_kind) stack
    else (TypedTerminalValueBatch type_id value_batch, stack)).

Definition map_container_end_event stack (header : ContainerHeader X) : Exec Mapped :=
  match stack with
  | container :: stack => Done (TypedContainerEnd (self_type container) header, stack)
  | [] => Panicked
  end.

Definition get_type_id stack (root_type_id : LocalTypeId) (path : list (AncestorState X)) : Exec LocalTypeId :=
  match path with
  | [] => Done root_type_id
  | ancestor_state :: _ =>
      let child_index := current_child_index ancestor_state in
      match stack with
      | [] => Panicked
      | last :: _ =>
          let child :=
            match container_header ancestor_state with
            | HTuple _ | HEnumVariant _ _ | HArray _ _ => get_child_type_for_element last child_index
            | HMap _ _ _ =>
                if child_index mod 2 =? 0 then get_child_type_for_map_key last else get_child_type_for_map_value last
            end in
          match child with Some type_id => Done type_id | None => Panicked end
      end
  end.

Definition map_event s stack (root : LocalTypeId) (path : list (AncestorState X)) (ev : TraversalEvent X Y) : Exec Mapped :=
  match ev with
  | ContainerStart header => type_id ← get_type_id stack root path; Done (map_container_start_event s stack type_id header)
  | TerminalValue value => type_id ← get_type_id stack root path; Done (map_terminal_value_event s stack type_id value)
  | TerminalValueBatch value_batch =>
      type_id ← get_type_id stack root path; Done (map_terminal_value_batch_event s stack type_id value_batch)
  | ContainerEnd header => map_container_end_event stack header
  | TraversalEnd => Done (TypedEnd, stack)
  | TraversalError decode_error => Done (TypedError (TypedDecodeError decode_error), stack)
  end.

(** The located event with the path of types, and the next state. *)
Definition next_typed_event (t : TypedTraverser X T E) :
    Exec (LocatedTraversalEvent X Y * TypedEvent * TypedTraverser X T E) :=
  r ← next_event (traverser t);
  m ← map_event (typed_schema t) (container_stack t) (root_type_id t) (location_path r.1) (event r.1);
  Done (r.1, m.1, mk_typed r.2 m.2 (typed_schema t) (root_type_id t)).

(** *** Locations *)

Definition value_info_for_container type_id (header : ContainerHeader X) : CurrentValueInfo X :=
  mk_value_info type_id (get_own_value_kind header)
    match header with HEnumVariant variant _ => Some variant | _ => None end.

Definition event_value_info (ev : TypedEvent) : option (CurrentValueInfo X) :=
  match ev with
  | TypedContainerStart type_id header | TypedContainerEnd type_id header => Some (value_info_for_container type_id header)
  | TypedTerminalValue type_id value => Some (mk_value_info type_id (terminal_value_kind value) None)
  | TypedTerminalValueBatch type_id _ => Some (mk_value_info type_id KU8 None)
  | TypedEnd | TypedError (TypedDecodeError _) | TypedError (TypeIdNotFound _) => None
  | TypedError (ValueMismatchWithType e) =>
      match e with
      | MismatchingTupleLength _ _ type_id => Some (mk_value_info type_id KTuple None)
      | MismatchingEnumVariantLength _ _ variant type_id | UnknownEnumVariant type_id variant =>
          Some (mk_value_info type_id KEnum (Some variant))
      | _ => None
      end
  end.

(** [full_location]: the paths are zipped from the root, and the longer one is
    cut. *)
Definition full_location (loc : LocatedTraversalEvent X Y) (ev : TypedEvent) (typed_container_path : list ContainerType) :
    FullLocation X :=
  mk_full_location (start_offset loc) (end_offset loc)
    (reverse (zip (reverse (location_path loc)) (reverse typed_container_path))) (event_value_info ev).

(** *** Starting *)

Definition typed_new (input : list Z) s type_id (max_depth : nat) (expected_start : ExpectedStart X)
    (check_exact_end : bool) : TypedTraverser X T E :=
  mk_typed (traverser_new input expected_start (mk_config max_depth check_exact_end)) [] s type_id.

Definition traverse_payload_with_types (payload : list Z) s type_id (depth_limit : nat) : TypedTraverser X T E :=
  typed_new payload s type_id depth_limit (PayloadPrefix PAYLOAD_PREFIX) true.

Definition traverse_partial_payload_with_types (partial_payload : list Z) (expected_start : ExpectedStart X)
    (check_exact_end : bool) (current_depth : nat) s type_id (depth_limit : nat) : TypedTraverser X T E :=
  typed_new partial_payload s type_id (depth_limit - current_depth) expected_start check_exact_end.
End TypedTraverser.

(** ** Validation *)

Section Validation.
Context {X Y T L E C : Type} `{ValidatableCustomExtension X Y T L E C}.
Abbreviation PError := (PayloadValidationError X L).
Implicit Types (s : Schema T E) (type_id : LocalTypeId) (context : C).

Definition validate_length (l : LengthValidation) (length : Z) : Result PError unit :=
  if length_is_valid l length then Ok tt else Err (PayloadInvalid (LengthValidationError l length)).

Definition validate_container s (header : ContainerHeader X) type_id : Result PError unit :=
  match resolve_type_validation s type_id with
  | None => Err SchemaInconsistency
  | Some NoValidation => Ok tt
  | Some (ValArray l) => match header with HArray _ length => validate_length l length | _ => Err SchemaInconsistency end
  | Some (ValMap l) => match header with HMap _ _ length => validate_length l length | _ => Err SchemaInconsistency end
  | Some _ => Err SchemaInconsistency
  end.

(** [numeric_validation_match!] *)
Definition validate_numeric (b : Z * Z) (e : NumericValidation -> Z -> ValidationError) (n : NumericValidation)
    (value : option Z) : Result PError unit :=
  match value with
  | None => Err SchemaInconsistency
  | Some value => if numeric_is_valid b n value then Ok tt else Err (PayloadInvalid (e n value))
  end.

Definition validate_non_custom_terminal_value s (value : TerminalValueRef Y) context (v : TypeValidation E) :
    Result PError unit :=
  match v with
  | NoValidation => Ok tt
  | ValI8 n => validate_numeric (i_bounds 8) I8ValidationError n match value with TI8 z => Some z | _ => None end
  | ValI16 n => validate_numeric (i_bounds 16) I16ValidationError n match value with TI16 z => Some z | _ => None end
  | ValI32 n => validate_numeric (i_bounds 32) I32ValidationError n match value with TI32 z => Some z | _ => None end
  | ValI64 n => validate_numeric (i_bounds 64) I64ValidationError n match value with TI64 z => Some z | _ => None end
  | ValI128 n => validate_numeric (i_bounds 128) I128ValidationError n match value with TI128 z => Some z | _ => None end
  | ValU8 n => validate_numeric (u_bounds 8) U8ValidationError n match value with TU8 z => Some z | _ => None end
  | ValU16 n => validate_numeric (u_bounds 16) U16ValidationError n match value with TU16 z => Some z | _ => None end
  | ValU32 n => validate_numeric (u_bounds 32) U32ValidationError n match value with TU32 z => Some z | _ => None end
  | ValU64 n => validate_numeric (u_bounds 64) U64ValidationError n match value with TU64 z => Some z | _ => None end
  | ValU128 n => validate_numeric (u_bounds 128) U128ValidationError n match value with TU128 z => Some z | _ => None end
  | ValString l =>
      match value with TString x => validate_length l (Z.of_nat (length x)) | _ => Err SchemaInconsistency end
  | ValArray _ | ValMap _ => Err SchemaInconsistency
  | ValCustom custom_type_validation => apply_custom_type_validation_for_non_custom_value s custom_type_validation value context
  end.

Definition validate_terminal_value s (value : TerminalValueRef Y) type_id context : Result PError unit :=
  match value with
  | TCustom custom_value => apply_validation_for_custom_value s custom_value type_id context
  | _ =>
      match resolve_type_validation s type_id with
      | None => Err SchemaInconsistency
      | Some v => validate_non_custom_terminal_value s value context v
      end
  end.

Fixpoint validate_bytes (n : NumericValidation) (value_batch : list Z) : Result PError unit :=
  match value_batch with
  | [] => Ok tt
  | byte :: value_batch =>
      if numeric_is_valid (u_bounds 8) n byte then validate_bytes n value_batch
      else Err (PayloadInvalid (U8ValidationError n byte))
  end.

Definition validate_terminal_value_batch s (value_batch : list Z) type_id : Result PError unit :=
  match resolve_type_validation s type_id with
  | None => Err SchemaInconsistency
  | Some NoValidation => Ok tt
  | Some (ValU8 n) => validate_bytes n value_batch
  | Some _ => Err SchemaInconsistency
  end.

Definition validate_event_with_type s (ev : TypedTraversalEvent X Y L) context : Result PError bool :=
  match ev with
  | TypedContainerStart type_id header => _ ← validate_container s header type_id; Ok false
  | TypedContainerEnd _ _ => Ok false
  | TypedTerminalValue type_id value_ref => _ ← validate_terminal_value s value_ref type_id context; Ok false
  | TypedTerminalValueBatch type_id value_batch => _ ← validate_terminal_value_batch s value_batch type_id; Ok false
  | TypedEnd => Ok true
  | TypedError error => Err (PayloadTraversalError error)
  end.

Record LocatedValidationError : Type := mk_located_error {
  located_error : PError;
  error_location : FullLocation X
}.

Fixpoint run_validation (fuel : nat) (t : TypedTraverser X T E) context : Exec (Result LocatedValidationError unit) :=
  match fuel with
  | O => Panicked
  | S f =>
      r ← next_typed_event t;
      match validate_event_with_type (typed_schema t) r.1.2 context with
      | Err error => Done (Err (mk_located_error error (full_location r.1.1 r.1.2 (container_stack r.2))))
      | Ok true => Done (Ok tt)
      | Ok false => run_validation f r.2 context
      end
  end.

Definition validate_payload_against_schema (payload : list Z) s type_id context (depth_limit : nat) :
    Exec (Result LocatedValidationError unit) :=
  run_validation (traversal_fuel payload) (traverse_payload_with_types payload s type_id depth_limit) context.

Definition validate_partial_payload_against_schema (partial_payload : list Z) (expected_start : ExpectedStart X)
    (check_exact_end : bool) (current_depth : nat) s type_id context (depth_limit : nat) :
    Exec (Result LocatedValidationError unit) :=
  run_validation (traversal_fuel partial_payload)
    (traverse_partial_payload_with_types partial_payload expected_start check_exact_end current_depth s type_id depth_limit)
    context.
End Validation.
