(* ===== verification/SchemaTyping.v ===== *)
(** * Typing of payloads

    What it means for a value to have a type of a schema, and the proof that
    the validation of payloads of [TypedTraversal] decides it: on every sequence
    of bytes, for every schema that passes its own validation, validation ends
    without panic, accepts exactly the payloads that decode to a value of the
    type, and never finds the schema inconsistent. *)

From S2P Require Import Prelude IndexMap Bytes Sbor Traversal Schema TypedTraversal.
Import Int CodecTheory SborTheory TraversalSpec TraversalTheory.

(** ** Specification *)

Module TypingSpec.
Section Spec.
Context {X Y T L E C : Type} `{ValidatableCustomExtension X Y T L E C}.
Context (s : Schema T E) (context : C).
Implicit Types (id : LocalTypeId) (v : Value Y X).

Definition within (min max : option Z) (z : Z) : Prop :=
  (forall m, min = Some m -> m <= z) /\ (forall m, max = Some m -> z <= m).
Definition in_numeric (n : NumericValidation) (z : Z) : Prop := within (numeric_min n) (numeric_max n) z.
Definition in_length (l : LengthValidation) (z : Z) : Prop := within (length_min l) (length_max l) z.

(** A value of this kind may be a value of the type. *)
Definition kind_fits id (k : ValueKind X) : Prop :=
  exists t, resolve_type_kind s id = Some t /\ value_kind_matches_type_kind s k t = true.

(** The validation of a type holds for a value without children that is not
    custom. *)
Definition leaf_valid (val : TypeValidation E) v : Prop :=
  match val, v with
  | NoValidation, _ => True
  | ValI8 n, VI8 z | ValI16 n, VI16 z | ValI32 n, VI32 z | ValI64 n, VI64 z | ValI128 n, VI128 z
  | ValU8 n, VU8 z | ValU16 n, VU16 z | ValU32 n, VU32 z | ValU64 n, VU64 z | ValU128 n, VU128 z => in_numeric n z
  | ValString l, VString x => in_length l (len x)
  | _, _ => False
  end.

Definition length_valid (val : TypeValidation E) v : Prop :=
  match val, v with
  | NoValidation, _ => True
  | ValArray l, VArray _ x => in_length l (len x)
  | ValMap l, VMap _ _ x => in_length l (len x)
  | _, _ => False
  end.

Definition is_leaf v : Prop := match terminal_of v with Some (TCustom _) | None => False | Some _ => True end.

Definition any : LocalTypeId := WellKnown ANY_TYPE.

Inductive has_type : LocalTypeId -> Value Y X -> Prop :=
| type_leaf id v val : is_leaf v -> kind_fits id (get_value_kind v) ->
    resolve_type_validation s id = Some val -> leaf_valid val v -> has_type id v
| type_custom id y : kind_fits id (KCustom (get_custom_value_kind y)) ->
    apply_validation_for_custom_value s y id context = Ok tt -> has_type id (VCustom y)
| type_any id v h l val : resolve_type_kind s id = Some TyAny -> unfold_value v = Some (h, l) ->
    resolve_type_validation s id = Some val -> length_valid val v -> Forall (has_type any) l -> has_type id v
| type_tuple id types l val : resolve_type_kind s id = Some (TyTuple types) ->
    resolve_type_validation s id = Some val -> length_valid val (VTuple l) -> Forall2 has_type types l ->
    has_type id (VTuple l)
| type_enum id variants types d l val : resolve_type_kind s id = Some (TyEnum variants) -> im_get d variants = Some types ->
    resolve_type_validation s id = Some val -> length_valid val (VEnum d l) -> Forall2 has_type types l ->
    has_type id (VEnum d l)
| type_array id element k l val : resolve_type_kind s id = Some (TyArray element) -> kind_fits element k ->
    resolve_type_validation s id = Some val -> length_valid val (VArray k l) -> Forall (has_type element) l ->
    has_type id (VArray k l)
| type_map id key value k1 k2 l val : resolve_type_kind s id = Some (TyMap key value) -> kind_fits key k1 ->
    kind_fits value k2 -> resolve_type_validation s id = Some val -> length_valid val (VMap k1 k2 l) ->
    Forall (fun p => has_type key p.1 /\ has_type value p.2) l -> has_type id (VMap k1 k2 l).
End Spec.

(** What the theorems need of an extension: its well-known types are valid, no
    custom type has values that are not custom, and it finds no inconsistency
    where kinds match. *)
Class CustomSchemaLaws (T L E : Type) `{CustomSchema T L E} : Prop := {
  well_known_valid : forall c i d, resolve_well_known_type i = Some d ->
    validate_type_kind c (type_data_kind d) = Ok tt /\
    validate_custom_type_validation c (type_data_kind d) (type_data_validation d) = Ok tt;
  any_well_known : exists d, resolve_well_known_type ANY_TYPE = Some d /\ type_data_kind d = TyAny
}.

Class ExtensionLaws (X Y T L E C : Type) `{ValidatableCustomExtension X Y T L E C} : Prop := {
  #[global] extension_schema_laws :: CustomSchemaLaws T L E;
  custom_types_custom : forall (s : Schema T E) t k, custom_type_kind_matches_non_custom_value_kind s t k = false;
  custom_consistent : forall (s : Schema T E) context y id t val, validate_schema s = Ok tt ->
    resolve_type_kind s id = Some t -> resolve_type_validation s id = Some val ->
    value_kind_matches_type_kind s (KCustom (get_custom_value_kind y)) t = true ->
    apply_validation_for_custom_value s y id context = Ok tt \/
    exists e, apply_validation_for_custom_value s y id context = Err (PayloadInvalid e)
}.

(** An error that blames the payload and not the schema. *)
Definition blames_payload {X L} (e : PayloadValidationError X L) : Prop :=
  match e with PayloadTraversalError (TypeIdNotFound _) | SchemaInconsistency => False | _ => True end.
End TypingSpec.
Import TypingSpec.

(** ** Valid schemas *)

Module TypingTheory.
Section Valid.
Context {T L E : Type} `{SLaws : CustomSchemaLaws T L E}.
Context (s : Schema T E) (Hs : validate_schema s = Ok tt).
Abbreviation ctx := (mk_schema_context (length (type_kinds s))).
Implicit Types (id : LocalTypeId) (k : TypeKind T).

Lemma validate_types_elem ks ms vs i k : length ms = length ks -> length vs = length ks ->
  validate_types ctx ks ms vs = Ok tt -> ks !! i = Some k ->
  exists v, vs !! i = Some v /\ validate_type_kind ctx k = Ok tt /\ validate_custom_type_validation ctx k v = Ok tt.
Proof using.
  clear Hs. revert ms vs i. induction ks as [|k0 ks IH]; intros [|m ms] [|v vs] i Hm Hv; try discriminate.
  cbn [validate_types]. destruct (validate_type_kind ctx k0) as [[]|] eqn:Hk; [|done].
  destruct (validate_type_metadata_with_type_kind ctx k0 m) as [[]|]; [|done].
  destruct (validate_custom_type_validation ctx k0 v) as [[]|] eqn:Hval; [|done]. cbn.
  intros Ht. destruct i as [|i]; cbn; [intros [= <-]; by exists v|]. eapply IH; [| |exact Ht]; cbn in *; lia.
Qed.

(** The types of a valid schema. *)
Definition resolves id : Prop := exists k v, resolve_type_kind s id = Some k /\ resolve_type_validation s id = Some v.

Lemma resolved_valid id k : resolve_type_kind s id = Some k ->
  exists v, resolve_type_validation s id = Some v /\ validate_type_kind ctx k = Ok tt /\
    validate_custom_type_validation ctx k v = Ok tt.
Proof using Hs SLaws.
  destruct id as [i|i]; cbn.
  - destruct (resolve_well_known_type i) as [d|] eqn:Hd; [|done]. cbn. intros [= <-].
    exists (type_data_validation d). split; [done|]. by apply (well_known_valid ctx i d).
  - intros Hk. unfold validate_schema in Hs.
    destruct (Nat.eqb_spec (length (type_metadata s)) (length (type_kinds s))); [|done].
    destruct (Nat.eqb_spec (length (type_validations s)) (length (type_kinds s))); [|done].
    by eapply validate_types_elem.
Qed.

Lemma index_resolves id : validate_index (L := L) ctx id = Ok tt -> resolves id.
Proof using Hs SLaws.
  intros Hi. assert (exists k, resolve_type_kind s id = Some k) as [k Hk].
  { destruct id as [i|i]; cbn in *; [destruct (resolve_well_known_type i); [by eexists|done]|].
    destruct (Nat.leb_spec (length (type_kinds s)) i); [done|]. by apply lookup_lt_is_Some. }
  destruct (resolved_valid _ _ Hk) as (v & Hv & _). by exists k, v.
Qed.

Lemma any_resolves : resolves any.
Proof using Hs SLaws.
  destruct (any_well_known) as (d & Hd & Hk). exists TyAny, (type_data_validation d). cbn. rewrite Hd. cbn. by rewrite Hk.
Qed.

Lemma indices_resolve l : validate_indices (L := L) ctx l = Ok tt -> Forall resolves l.
Proof using Hs SLaws.
  induction l as [|id l IH]; [constructor|]. cbn. destruct (validate_index ctx id) as [[]|] eqn:Hi; [|done].
  cbn. intros Hl. constructor; [by apply index_resolves|by apply IH].
Qed.

Lemma variants_resolve l d types : validate_variants (L := L) ctx l = Ok tt -> im_get d l = Some types -> Forall resolves types.
Proof using Hs SLaws.
  induction l as [|[d0 types0] l IH]; [done|]. cbn. destruct (_ <? _); [done|].
  destruct (validate_indices ctx types0) as [[]|] eqn:Hi; [|done]. cbn. intros Hl.
  destruct (decide (d = d0)); [intros [= <-]; by apply indices_resolve|by apply IH].
Qed.

(** The children of a type resolve. *)
Lemma children_resolve id k : resolve_type_kind s id = Some k ->
  match k with
  | TyArray t => resolves t
  | TyTuple l => Forall resolves l
  | TyEnum variants => forall d types, im_get d variants = Some types -> Forall resolves types
  | TyMap t1 t2 => resolves t1 /\ resolves t2
  | _ => True
  end.
Proof using Hs SLaws.
  intros Hk. destruct (resolved_valid _ _ Hk) as (v & _ & Hv & _).
  destruct k; try done; cbn in Hv; [by apply index_resolves| | |].
  - destruct (_ <? _); [done|]. by apply indices_resolve.
  - intros. by eapply variants_resolve.
  - destruct (validate_index ctx key_type) as [[]|] eqn:Hi; [|done]. split; by apply index_resolves.
Qed.
End Valid.

(** ** Positions

    Where a traverser is, without its offsets: the containers it is in, with the
    index of the current child, and what it reads next. *)

Section Positions.
Context {X Y : Type} `{CustomValue X Y}.
Abbreviation Event := (TraversalEvent X Y).
Abbreviation Path := (list (ContainerHeader X * Z)).

Inductive Pending : Type := AtRoot | AtContent (h : ContainerHeader X) | AtNext.
Abbreviation Pos := (Path * Pending)%type.
Implicit Types (pos : Pos) (ev : Event).

Definition path_of (p : list (AncestorState X)) : Path := (fun a => (container_header a, current_child_index a)) <$> p.

Definition pos_of (t : VecTraverser X) : Pos :=
  (path_of (ancestor_path t), match next_action t with
    | ReadPrefix _ | ReadRootValue | ReadRootValueBody _ => AtRoot
    | ReadContainerContentStart h _ => AtContent h
    | _ => AtNext
    end).

Definition exits (h : ContainerHeader X) (i : Z) : bool := get_child_count h <=? wrap_u 64 (i + 1).

(** The path at the next event. *)
Definition advance pos : Path :=
  match pos.2 with
  | AtRoot => pos.1
  | AtContent h =>
      if get_child_count h =? 0 then pos.1 else (h, if is_byte_array h then get_child_count h - 1 else 0) :: pos.1
  | AtNext => match pos.1 with (h, i) :: p => if exits h i then p else (h, wrap_u 64 (i + 1)) :: p | [] => [] end
  end.

Definition value_event ev : Prop := match ev with ContainerStart _ | TerminalValue _ => True | _ => False end.

(** The events that may come next, the last ones apart. *)
Definition emits pos ev : Prop :=
  match pos.2 with
  | AtRoot => value_event ev
  | AtContent h =>
      if get_child_count h =? 0 then ev = ContainerEnd h
      else if is_byte_array h then exists b, ev = TerminalValueBatch b else value_event ev
  | AtNext => match pos.1 with (h, i) :: _ => if exits h i then ev = ContainerEnd h else value_event ev | [] => False end
  end.

Definition next_pending ev : Pending := match ev with ContainerStart h => AtContent h | _ => AtNext end.

Definition next_pos pos ev : Pos := (advance pos, next_pending ev).

Abbreviation Reading := (Dec (Event * NextAction X)).

(** What a reading completes with. *)
Definition completes (m : Reading) (P : Event -> Prop) : Prop :=
  forall d r d', m d = Done (Ok r, d') -> P r.1 /\
    match r.1 with
    | ContainerStart h => exists st, r.2 = ReadContainerContentStart h st
    | TraversalEnd => True
    | _ => r.2 = ReadNextChildOrExitContainer
    end.

Lemma completes_bind {A} (m : Dec A) f P : (forall a, completes (f a) P) -> completes (m ≫= f) P.
Proof. intros Hf d r d' (a & d1 & _ & Ha)%bind_Ok_inv. by eapply Hf. Qed.

Lemma completes_ret (P : Event -> Prop) ev na : P ev ->
  match ev with
  | ContainerStart h => exists st, na = ReadContainerContentStart h st
  | TraversalEnd => True
  | _ => na = ReadNextChildOrExitContainer
  end -> completes (mret (ev, na)) P.
Proof. by intros HP Hn d r d' [= <- _]. Qed.

Lemma read_value_completes start k : completes (read_value start k) value_event.
Proof.
  unfold read_value. apply completes_bind. intros k'.
  destruct k'; cbn [read_value_body]; unfold read_terminal_value;
    repeat (apply completes_bind; intros ?); apply completes_ret; try done; by eexists.
Qed.

Lemma perform_step c start p d (m : Reading) P loc t : completes m P -> perform c start p d m = Done (loc, t) ->
  final (event loc) = false ->
  path_of (location_path loc) = path_of p /\ P (event loc) /\ pos_of t = (path_of p, next_pending (event loc)).
Proof.
  intros Hm Hp Hf. unfold perform in Hp. destruct (m d) as [[[[ev na]|e] d']|] eqn:Hd; [|by injection Hp as <- <-|done].
  injection Hp as <- <-. destruct (Hm _ _ _ Hd) as [HP Hn]. cbn in *. split; [done|]. split; [done|].
  unfold pos_of. cbn. f_equal. destruct ev; try discriminate Hf; [destruct Hn as [st ->]|..]; by subst.
Qed.

Lemma step_pos t loc t' : next_event (Y := Y) t = Done (loc, t') -> final (event loc) = false ->
  path_of (location_path loc) = advance (pos_of t) /\ emits (pos_of t) (event loc) /\ pos_of t' = next_pos (pos_of t) (event loc).
Proof.
  intros Hn Hf. destruct t as [d p a c]. unfold next_event in Hn. cbn [next_action decoder ancestor_path config] in Hn.
  unfold next_pos. change (pos_of (mk_traverser d p a c)) with (path_of p, match a with
    | ReadPrefix _ | ReadRootValue | ReadRootValueBody _ => AtRoot
    | ReadContainerContentStart h _ => AtContent h
    | _ => AtNext
    end).
  assert (forall st d p k, perform c st d p (read_value st k) = Done (loc, t') ->
    path_of (location_path loc) = path_of d /\ value_event (event loc) /\ pos_of t' = (path_of d, next_pending (event loc))) as Hval.
  { intros. eapply perform_step; [apply read_value_completes|done|done]. }
  destruct a as [pre| |k|h s| | | |]; cbv zeta in Hn; try discriminate Hn.
  - destruct (read_and_check_payload_prefix pre d) as [[[u|e] d']|]; [|apply throw_final in Hn; congruence|done]. exact (Hval _ _ _ _ Hn).
  - exact (Hval _ _ _ _ Hn).
  - exact (Hval _ _ _ _ Hn).
  - cbn [advance emits fst snd]. destruct (get_child_count h =? 0).
    { eapply (perform_step _ _ _ _ _ (fun ev => ev = ContainerEnd h)) in Hn; [done|by apply completes_ret|done]. }
    destruct (_ <=? _)%nat; [apply throw_final in Hn; congruence|]. destruct (is_byte_array h).
    + eapply (perform_step _ _ _ _ _ (fun ev => exists b, ev = TerminalValueBatch b)) in Hn; [done| |done].
      apply completes_bind. intros b. apply completes_ret; [by eexists|done].
    + exact (Hval _ _ _ _ Hn).
  - destruct p as [|a p]; [apply end_final in Hn; congruence|]. cbn [path_of fmap list_fmap advance emits fst snd]. unfold exits.
    destruct (_ <=? _).
    + eapply (perform_step _ _ _ _ _ (fun ev => ev = ContainerEnd (container_header a))) in Hn; [done|by apply completes_ret|done].
    + exact (Hval _ _ _ _ Hn).
Qed.
End Positions.

(** ** Validation over the events alone *)

Section Checks.
Context {X Y T L E C : Type} `{Laws : ExtensionLaws X Y T L E C}.
Context (s : Schema T E) (Hs : validate_schema s = Ok tt) (root : LocalTypeId) (context : C).
Abbreviation Event := (TraversalEvent X Y).
Abbreviation Path := (list (ContainerHeader X * Z)).
Abbreviation Pos := (Path * Pending (X := X))%type.
Abbreviation Mapped := (TypedTraversalEvent X Y L * list ContainerType)%type.
Implicit Types (pos : Pos) (ev : Event) (stack : list ContainerType) (ct : ContainerType) (h : ContainerHeader X) (v : Value Y X).

Definition child_type ct h (i : Z) : option LocalTypeId :=
  match h with
  | HTuple _ | HEnumVariant _ _ | HArray _ _ => get_child_type_for_element ct i
  | HMap _ _ _ => if i mod 2 =? 0 then get_child_type_for_map_key ct else get_child_type_for_map_value ct
  end.

Definition type_at stack (p : Path) : Exec LocalTypeId :=
  match p with
  | [] => Done root
  | (h, i) :: _ =>
      match stack with
      | [] => Panicked
      | ct :: _ => match child_type ct h i with Some id => Done id | None => Panicked end
      end
  end.

Definition map_at stack (p : Path) ev : Exec Mapped :=
  match ev with
  | ContainerStart header => type_id ← type_at stack p; Done (map_container_start_event s stack type_id header)
  | TerminalValue value => type_id ← type_at stack p; Done (map_terminal_value_event s stack type_id value)
  | TerminalValueBatch value_batch => type_id ← type_at stack p; Done (map_terminal_value_batch_event s stack type_id value_batch)
  | ContainerEnd header => map_container_end_event stack header
  | TraversalEnd => Done (TypedEnd, stack)
  | TraversalError decode_error => Done (TypedError (TypedDecodeError decode_error), stack)
  end.

Lemma map_event_at stack path p ev : final ev = true \/ path_of path = p -> map_event s stack root path ev = map_at stack p ev.
Proof using.
  intros [Hf|<-]; [by destruct ev|].
  assert (get_type_id stack root path = type_at stack (path_of path)) as Ht.
  { destruct path as [|a path]; [done|]. cbn. destruct stack; [done|]. unfold child_type. by destruct (container_header a). }
  destruct ev; cbn; by rewrite ?Ht.
Qed.

Fixpoint check pos stack (es : list Event) : Exec (Result (PayloadValidationError X L) unit) :=
  match es with
  | [] => Panicked
  | ev :: es =>
      m ← map_at stack (advance pos) ev;
      match validate_event_with_type s m.1 context with
      | Err e => Done (Err e)
      | Ok true => Done (Ok tt)
      | Ok false => check (next_pos pos ev) m.2 es
      end
  end.

Definition strip (r : Result (LocatedValidationError (X := X) (L := L)) unit) : Result (PayloadValidationError X L) unit :=
  match r with Ok u => Ok u | Err e => Err (located_error e) end.

Lemma run_is_check fuel t stack es : ends (next_event t) es -> (length es <= fuel)%nat ->
  match run_validation fuel (mk_typed t stack s root) context with Done r => Done (strip r) | Panicked => Panicked end =
  check (pos_of t) stack es.
Proof using.
  intros He. remember (next_event t) as r eqn:Hr. revert fuel t stack Hr.
  induction He as [loc t' Hev|loc t' es Hev He IH]; intros [|fuel] t stack Hr Hl; cbn in Hl; try lia;
    cbn [run_validation check]; unfold next_typed_event; cbn [traverser typed_schema container_stack root_type_id];
    rewrite <- Hr; cbn [fst mbind Exec_bind].
  - rewrite (map_event_at _ _ (advance (pos_of t))) by (by left).
    destruct (event loc); try discriminate Hev; done.
  - destruct (step_pos _ _ _ (eq_sym Hr) Hev) as (Hp & _ & Hn).
    rewrite (map_event_at _ _ (advance (pos_of t))) by (by right).
    destruct (map_at stack (advance (pos_of t)) (event loc)) as [m|]; [|done]. cbn.
    destruct (validate_event_with_type s m.1 context) as [[]|e]; [done| |done]. rewrite (IH fuel t' m.2 eq_refl) by lia. by rewrite Hn.
Qed.

(** *** Safety *)

Definition fits ct h : Prop :=
  match ct, h with
  | TupleType _ types, HTuple n | EnumVariantType _ types, HEnumVariant _ n => len types = n
  | ArrayType _ _, HArray _ _ | MapType _ _ _, HMap _ _ _ | AnyType _, _ => True
  | _, _ => False
  end.

Abbreviation resolves := (resolves s).

Definition type_resolves ct : Prop :=
  match ct with
  | TupleType _ types | EnumVariantType _ types => Forall resolves types
  | ArrayType _ t => resolves t
  | MapType _ t1 t2 => resolves t1 /\ resolves t2
  | AnyType _ => True
  end.

Definition aligned stack (p : Path) : Prop := Forall2 (fun ct a => fits ct a.1 /\ type_resolves ct) stack p.

Definition invariant pos stack : Prop :=
  match pos.2 with
  | AtContent h => exists ct stack', stack = ct :: stack' /\ fits ct h /\ type_resolves ct /\ aligned stack' pos.1
  | AtRoot => stack = [] /\ pos.1 = []
  | AtNext => aligned stack pos.1
  end.

Lemma child_resolves ct h i : fits ct h -> type_resolves ct ->
  (0 <= i < get_child_count h \/ i = 0 /\ get_child_count h <> 0 \/ is_byte_array h = true) ->
  exists id, child_type ct h i = Some id /\ resolves id.
Proof using Hs Laws.
  intros Hf Hr Hlt. pose proof (any_resolves s Hs) as Hany.
  destruct ct as [self types|self types|self t|self t1 t2|self], h as [n|d n|k n|k1 k2 n]; try done; cbn in *;
    try (by eexists); try (destruct (i mod 2 =? 0); by eexists).
  - unfold len in Hf. destruct (lookup_lt_is_Some_2 types (Z.to_nat i)) as [id Hid]; [lia|]. exists id. split; [done|].
    by eapply Forall_lookup.
  - unfold len in Hf. destruct (lookup_lt_is_Some_2 types (Z.to_nat i)) as [id Hid]; [lia|]. exists id. split; [done|].
    by eapply Forall_lookup.
  - destruct Hr. destruct (i mod 2 =? 0); by eexists.
Qed.

(** What the traverser takes a container for. *)
Definition opens (id : LocalTypeId) h ct : Prop :=
  exists t, resolve_type_kind s id = Some t /\
    match t, h with
    | TyAny, _ => ct = AnyType id
    | TyTuple types, HTuple n => ct = TupleType id types /\ len types = n
    | TyEnum variants, HEnumVariant d n =>
        exists types, im_get d variants = Some types /\ len types = n /\ ct = EnumVariantType id types
    | TyArray element, HArray k _ => kind_fits s element k /\ ct = ArrayType id element
    | TyMap key value, HMap k1 k2 _ => kind_fits s key k1 /\ kind_fits s value k2 /\ ct = MapType id key value
    | _, _ => False
    end.

Lemma opens_ok id h ct : opens id h ct -> fits ct h /\ type_resolves ct.
Proof using Hs Laws.
  intros (t & Ht & Ho). pose proof (children_resolve s Hs id t Ht) as Hc.
  destruct t; [by subst ct|..]; destruct h; try done.
  - by destruct Ho as [_ ->].
  - by destruct Ho as [-> ?].
  - destruct Ho as (types & Hg & ? & ->). split; [done|]. by eapply Hc.
  - destruct Ho as (_ & _ & ->). by split.
Qed.

Definition mismatches (m : Mapped) : Prop := exists e st, m = (TypedError (ValueMismatchWithType e), st).

Lemma kind_fits_spec id t k : resolve_type_kind s id = Some t -> kind_fits s id k <-> value_kind_matches_type_kind s k t = true.
Proof using.
  intros Ht. unfold kind_fits. split; [intros (t' & Ht' & Hm)|by exists t]. rewrite Ht in Ht'. by injection Ht' as ->.
Qed.

Lemma start_spec stack id h : resolves id ->
  (exists ct, map_container_start_event (Y := Y) s stack id h = (TypedContainerStart id h, ct :: stack) /\ opens id h ct) \/
  ((forall ct, ~ opens id h ct) /\ mismatches (map_container_start_event s stack id h)).
Proof using Hs Laws.
  intros (t & _ & Ht & _). unfold map_container_start_event, look_up_type. rewrite Ht.
  pose proof (children_resolve s Hs id t Ht) as Hc.
  assert (forall e st, mismatches (mismatch (Y := Y) e st)) as Hmis by (by intros; eexists _, _).
  destruct t; [left; exists (AnyType id); split; [by destruct h|by exists TyAny]|..]; destruct h;
    try (right; split; [intros ct (t & Ht' & Ho); rewrite Ht in Ht'; by simplify_eq|by apply Hmis]).
  - (* an array *)
    destruct Hc as (te & _ & Hte & _). rewrite Hte.
    destruct (value_kind_matches_type_kind s element_value_kind te) eqn:Hm; cbn [negb].
    + left. eexists. split; [done|]. eexists. split; [exact Ht|]. cbn. split; [by exists te|done].
    + right. split; [|apply Hmis]. intros ct (t & Ht' & Ho). rewrite Ht in Ht'. injection Ht' as <-.
      destruct Ho as [Hk _]. apply (kind_fits_spec _ te) in Hk; [congruence|done].
  - (* a tuple *)
    destruct (Z.eqb_spec (Z.of_nat (List.length field_types)) length) as [He|He].
    + left. eexists. split; [done|]. by eexists.
    + right. split; [|apply Hmis]. intros ct (t & Ht' & Ho). rewrite Ht in Ht'. injection Ht' as <-. by destruct Ho.
  - (* an enum variant *)
    destruct (im_get variant variants) as [types|] eqn:Hg.
    + destruct (Z.eqb_spec (Z.of_nat (List.length types)) length) as [He|He].
      * left. eexists. split; [done|]. eexists. split; [exact Ht|]. by exists types.
      * right. split; [|apply Hmis]. intros ct (t & Ht' & Ho). rewrite Ht in Ht'. injection Ht' as <-.
        destruct Ho as (types' & Hg' & Hl & _). rewrite Hg in Hg'. injection Hg' as <-. done.
    + right. split; [|apply Hmis]. intros ct (t & Ht' & Ho). rewrite Ht in Ht'. injection Ht' as <-.
      destruct Ho as (types' & Hg' & _). congruence.
  - (* a map *)
    destruct Hc as [(t1 & _ & Ht1 & _) (t2 & _ & Ht2 & _)]. rewrite Ht1, Ht2.
    destruct (value_kind_matches_type_kind s key_value_kind t1) eqn:Hm1; cbn [negb];
      [destruct (value_kind_matches_type_kind s value_value_kind t2) eqn:Hm2; cbn [negb]|].
    + left. eexists. split; [done|]. eexists. split; [exact Ht|]. cbn. split_and!; [by exists t1|by exists t2|done].
    + right. split; [|apply Hmis]. intros ct (t & Ht' & Ho). rewrite Ht in Ht'. injection Ht' as <-.
      destruct Ho as (_ & Hk & _). apply (kind_fits_spec _ t2) in Hk; [congruence|done].
    + right. split; [|apply Hmis]. intros ct (t & Ht' & Ho). rewrite Ht in Ht'. injection Ht' as <-.
      destruct Ho as (Hk & _). apply (kind_fits_spec _ t1) in Hk; [congruence|done].
Qed.

(** The validation of a type is of the kind of the type. *)
Definition validation_fits (t : TypeKind T) (val : TypeValidation E) : Prop :=
  match val with
  | NoValidation => True
  | ValI8 _ => t = TyI8 | ValI16 _ => t = TyI16 | ValI32 _ => t = TyI32 | ValI64 _ => t = TyI64 | ValI128 _ => t = TyI128
  | ValU8 _ => t = TyU8 | ValU16 _ => t = TyU16 | ValU32 _ => t = TyU32 | ValU64 _ => t = TyU64 | ValU128 _ => t = TyU128
  | ValString _ => t = TyString
  | ValArray _ => exists e, t = TyArray e
  | ValMap _ => exists t1 t2, t = TyMap t1 t2
  | ValCustom _ => exists c, t = TyCustom c
  end.

Lemma resolved_fits id t val : resolve_type_kind s id = Some t -> resolve_type_validation s id = Some val -> validation_fits t val.
Proof using Hs Laws.
  intros Ht Hv. destruct (resolved_valid s Hs _ _ Ht) as (val' & Hv' & _ & Hval).
  rewrite Hv in Hv'. injection Hv' as <-. destruct val, t; cbn in Hval |- *; done || by repeat eexists.
Qed.

Definition good {A} (r : Result (PayloadValidationError X L) A) : Prop :=
  match r with Ok _ => True | Err e => exists i, e = PayloadInvalid i end.

Lemma good_length l n : good (validate_length (X := X) (L := L) l n).
Proof using. unfold validate_length. destruct (length_is_valid l n); [done|by eexists]. Qed.

Lemma container_good id h ct : opens id h ct -> good (validate_container s h id).
Proof using Hs Laws.
  intros (t & Ht & Ho). unfold validate_container.
  destruct (resolved_valid s Hs _ _ Ht) as (val & Hv & _). rewrite Hv.
  pose proof (resolved_fits _ _ _ Ht Hv) as Hf.
  destruct val; cbn in Hf; try done; first [subst t | destruct Hf as (? & ? & ->) | destruct Hf as [? ->] | idtac]; destruct h; try done; apply good_length.
Qed.

Lemma batch_good id bytes : kind_fits s id KU8 -> good (validate_terminal_value_batch s bytes id).
Proof using Hs Laws.
  intros (t & Ht & Hm). unfold validate_terminal_value_batch.
  destruct (resolved_valid s Hs _ _ Ht) as (val & Hv & _). rewrite Hv.
  pose proof (resolved_fits _ _ _ Ht Hv) as Hf.
  assert (t = TyAny \/ t = TyU8) as Hcase.
  { destruct t; try discriminate Hm; auto. cbn in Hm. by rewrite (custom_types_custom (X := X) (Y := Y) (C := C)) in Hm. }
  destruct val; cbn in Hf; try done; first [subst t | destruct Hf as (? & ? & ->) | destruct Hf as [? ->] | idtac]; destruct Hcase; try done.
  induction bytes as [|b bytes IH]; cbn; [done|]. destruct (numeric_is_valid _ n b); [exact IH|by eexists].
Qed.

Lemma good_numeric b f n (z : Z) : good (validate_numeric (X := X) (L := L) b f n (Some z)).
Proof using. cbn. destruct (numeric_is_valid b n z); [done|by eexists]. Qed.

Lemma terminal_good id (e : TerminalValueRef Y) : kind_fits s id (terminal_value_kind e) -> good (validate_terminal_value s e id context).
Proof using Hs Laws.
  intros (t & Ht & Hm). destruct (resolved_valid s Hs _ _ Ht) as (val & Hv & _).
  pose proof (resolved_fits _ _ _ Ht Hv) as Hf. unfold validate_terminal_value. rewrite Hv.
  destruct e as [b|z|z|z|z|z|z|z|z|z|z|x|y].
  13: { by destruct (custom_consistent s context y id t val Hs Ht Hv Hm) as [->|[e ->]]; [|eexists]. }
  all: destruct val; cbn in Hf; try done; first [subst t | destruct Hf as (? & ? & ->) | destruct Hf as [? ->] | idtac]; try discriminate Hm;
    try (cbn in Hm; by rewrite (custom_types_custom (X := X) (Y := Y) (C := C)) in Hm);
    try apply good_numeric; apply good_length.
Qed.

Context (Hroot : resolves root).

(** The type of the value that is read next. *)
Lemma value_type pos stack ev : invariant pos stack -> emits pos ev ->
  (value_event ev \/ exists b, ev = TerminalValueBatch b) ->
  aligned stack (advance pos) /\ exists id, type_at stack (advance pos) = Done id /\ resolves id.
Proof using Hs Laws Hroot.
  destruct pos as [p [|h|]]; unfold invariant, emits, advance; cbn [fst snd]; intros Hi He Hev.
  - destruct Hi as [-> ->]. split; [constructor|]. by exists root.
  - destruct Hi as (ct & stack' & -> & Hf & Hr & Hal). destruct (Z.eqb_spec (get_child_count h) 0) as [Hz|Hz];
      [subst; by destruct Hev as [|[]]|].
    destruct (is_byte_array h) eqn:Hb.
    + destruct (child_resolves ct h (get_child_count h - 1)) as (id & Hid & Hrid); [done|done|by right; right|].
      split; [by constructor|]. exists id. cbn. by rewrite Hid.
    + destruct (child_resolves ct h 0) as (id & Hid & Hrid); [done|done|by right; left|].
      split; [by constructor|]. exists id. cbn. by rewrite Hid.
  - destruct p as [|[h i] p]; [done|]. inversion Hi as [|ct a stack' p' [Hf Hr] Hal]; subst. unfold exits in *.
    destruct (Z.leb_spec (get_child_count h) (wrap_u 64 (i + 1))) as [Hlt|Hlt]; [subst; by destruct Hev as [|[]]|].
    destruct (child_resolves ct h (wrap_u 64 (i + 1))) as (id & Hid & Hrid); [done|done| |].
    { left. split; [|done]. unfold wrap_u. by apply Z.mod_pos_bound. }
    split; [by constructor|]. exists id. cbn. by rewrite Hid.
Qed.

Lemma end_type pos stack h : invariant pos stack -> emits (Y := Y) pos (ContainerEnd h) ->
  exists ct stack', stack = ct :: stack' /\ aligned stack' (advance pos).
Proof using.
  clear Hs Hroot. destruct pos as [p [|h'|]]; unfold invariant, emits, advance; cbn [fst snd]; intros Hi He.
  - done.
  - destruct Hi as (ct & stack' & -> & _ & _ & Hal). exists ct, stack'. destruct (get_child_count h' =? 0); [done|].
    destruct (is_byte_array h'); [by destruct He|done].
  - destruct p as [|[h' i] p]; [done|]. destruct (exits h' i); [|done].
    inversion Hi as [|ct a stack' p' _ Hal]; subst. by exists ct, stack'.
Qed.

Lemma good_step pos stack ev : final ev = false -> invariant pos stack -> emits pos ev ->
  exists m, map_at stack (advance pos) ev = Done m /\
    match validate_event_with_type s m.1 context with
    | Ok b => b = false /\ invariant (next_pos pos ev) m.2
    | Err e => blames_payload e
    end.
Proof using Hs Laws Hroot.
  intros Hfin Hi He. destruct ev as [h|h|e|b| |e]; try discriminate Hfin.
  - destruct (value_type pos stack (ContainerStart (Y := Y) h)) as [Hal (id & Hid & Hr)]; [done|done|by left|].
    cbn. rewrite Hid. cbn. eexists. split; [done|].
    destruct (start_spec stack id h Hr) as [(ct & -> & Ho)|[_ (e & st & ->)]]; [|done]. cbn.
    pose proof (container_good id h ct Ho) as Hg. destruct (validate_container s h id) as [u|err]; cbn.
    + split; [done|]. destruct (opens_ok _ _ _ Ho). by exists ct, stack.
    + by destruct Hg as [i ->].
  - destruct (end_type pos stack h Hi He) as (ct & stack' & -> & Hal). eexists. cbn. split; [done|]. done.
  - destruct (value_type pos stack (TerminalValue e)) as [Hal (id & Hid & (t & val & Ht & _))]; [done|done|by left|].
    cbn. rewrite Hid. cbn. eexists. split; [done|]. unfold map_terminal_value_event, look_up_type. rewrite Ht.
    destruct (value_kind_matches_type_kind s (terminal_value_kind e) t) eqn:Hm; [|done]. cbn.
    pose proof (terminal_good id e (ex_intro _ t (conj Ht Hm))) as Hg.
    destruct (validate_terminal_value s e id context) as [u|err]; cbn; [done|by destruct Hg as [i ->]].
  - destruct (value_type pos stack (TerminalValueBatch (Y := Y) b)) as [Hal (id & Hid & (t & val & Ht & _))]; [done|done|right; by eexists|].
    cbn. rewrite Hid. cbn. eexists. split; [done|]. unfold map_terminal_value_batch_event, look_up_type. rewrite Ht.
    destruct (value_kind_matches_type_kind s KU8 t) eqn:Hm; [|done]. cbn.
    pose proof (batch_good id b (ex_intro _ t (conj Ht Hm))) as Hg.
    destruct (validate_terminal_value_batch s b id) as [u|err]; cbn; [done|by destruct Hg as [i ->]].
Qed.

(** Validation ends, blames the payload, and refuses what does not decode. *)
Lemma check_ends t stack es : ends (next_event t) es -> invariant (pos_of t) stack ->
  exists r, check (pos_of t) stack es = Done r /\
    match r with Ok _ => exists es', es = es' ++ [TraversalEnd] | Err e => blames_payload e end.
Proof using Hs Laws Hroot.
  intros He. remember (next_event t) as r eqn:Hr. revert t stack Hr.
  induction He as [loc t' Hev|loc t' es Hev He IH]; intros t stack Hr Hi; cbn [check].
  - destruct (event loc); try discriminate Hev; cbn; eexists; (split; [done|]); [by exists []|done].
  - destruct (step_pos _ _ _ (eq_sym Hr) Hev) as (_ & Hem & Hn).
    destruct (good_step (pos_of t) stack (event loc) Hev Hi Hem) as (m & -> & Hm). cbn.
    destruct (validate_event_with_type s m.1 context) as [b|e]; [|by eexists]. destruct Hm as [-> Hinv]. rewrite <- Hn in *.
    destruct (IH t' m.2 eq_refl Hinv) as (r & -> & Hr'). exists r. split; [done|]. destruct r; [|done].
    destruct Hr' as [es' ->]. by exists (event loc :: es').
Qed.

(** *** Exactness *)

Context {CLaws : CustomValueLaws X Y}.

Abbreviation has_type := (has_type s context).
Abbreviation kind_fits := (kind_fits s).

Lemma within_spec lo hi min max z : lo <= z <= hi ->
  (default lo min <=? z) && (z <=? default hi max) = true <-> within min max z.
Proof using.
  clear. intros Hz. rewrite andb_true_iff, !Z.leb_le. unfold within.
  destruct min as [m|], max as [m'|]; cbn; split; try (intros [? ?]; split; intros ? [= <-]; lia);
    try (intros [H1 H2]; split; try lia; by first [apply H1|apply H2]); try (split; intros; lia || done).
Qed.

Lemma numeric_spec b n z : b.1 <= z <= b.2 -> numeric_is_valid b n z = true <-> in_numeric n z.
Proof using. apply within_spec. Qed.

Lemma length_spec l z : 0 <= z <= MAX_SIZE -> length_is_valid l z = true <-> in_length l z.
Proof using. intros Hz. apply within_spec. unfold MAX_SIZE in Hz. lia. Qed.

Lemma validate_numeric_spec b f n z : b.1 <= z <= b.2 ->
  validate_numeric (X := X) (L := L) b f n (Some z) = Ok tt <-> in_numeric n z.
Proof using. intros Hz. rewrite <- (numeric_spec b) by done. cbn. by destruct (numeric_is_valid b n z). Qed.

Lemma validate_length_spec l z : 0 <= z <= MAX_SIZE -> validate_length (X := X) (L := L) l z = Ok tt <-> in_length l z.
Proof using. intros Hz. rewrite <- length_spec by done. unfold validate_length. by destruct (length_is_valid l z). Qed.

Lemma terminal_kind v (e : TerminalValueRef Y) : terminal_of v = Some e -> terminal_value_kind e = get_value_kind v.
Proof using. clear. destruct v; cbn; intros; by simplify_eq. Qed.

Lemma leaf_validation v (e : TerminalValueRef Y) t val : terminal_of v = Some e -> is_leaf v -> value_ok v = true -> encodable v = true ->
  value_kind_matches_type_kind s (get_value_kind v) t = true -> validation_fits t val ->
  validate_non_custom_terminal_value s e context val = Ok tt <-> leaf_valid val v.
Proof using Laws.
  clear Hs Hroot. intros Ht Hl Hok He Hm Hf.
  destruct v; cbn in Ht, Hl; try done; injection Ht as <-;
    destruct val; cbn in Hf; try done; first [subst t | destruct Hf as (? & ? & ->) | destruct Hf as [? ->] | idtac];
    try discriminate Hm; try (cbn in Hm; by rewrite (custom_types_custom (X := X) (Y := Y) (C := C)) in Hm);
    cbn [value_ok encodable] in Hok, He; unfold in_i, in_u, i_min, i_max, u_max in Hok; zbool;
    cbn [validate_non_custom_terminal_value leaf_valid];
    first [apply validate_numeric_spec; cbn [i_bounds u_bounds fst snd]; lia | apply validate_length_spec; by apply size_ok_range].
Qed.

Lemma leaf_or_custom v (e : TerminalValueRef Y) : terminal_of v = Some e -> is_leaf v \/ exists y, v = VCustom y /\ e = TCustom y.
Proof using. clear. destruct v; cbn; intros He; simplify_eq; first [by left | right; by eexists]. Qed.

(** A value without children is typed when it passes the checks of its event. *)
Lemma leaf_typed id v (e : TerminalValueRef Y) : terminal_of v = Some e -> value_ok v = true -> encodable v = true ->
  has_type id v <-> kind_fits id (get_value_kind v) /\ validate_terminal_value s e id context = Ok tt.
Proof using Hs Laws.
  clear Hroot. intros Ht Hok He. destruct (leaf_or_custom v e Ht) as [Hl|(y & -> & ->)].
  - assert (validate_terminal_value s e id context = match resolve_type_validation s id with
      | None => Err SchemaInconsistency | Some v => validate_non_custom_terminal_value s e context v end) as Hval.
    { destruct e; try done. by destruct v. }
    rewrite Hval. split.
    + intros Hty. destruct Hty as [id v val ? (t & Hk & Hm) Hv Hlv|? y| ? ? ? ? ? ? Hu|? ? ? ? ?|? ? ? ? ? ?|? ? ? ? ?|? ? ? ? ? ? ?]; try done.
      2: { by destruct v. }
      rewrite Hv. split; [by exists t|]. by apply (leaf_validation v e t); [..|eapply resolved_fits|].
    + intros [(t & Hk & Hm) Hr]. destruct (resolve_type_validation s id) as [val|] eqn:Hv; [|done].
      apply (type_leaf _ _ _ _ val); [done|by exists t|done|].
      by apply (leaf_validation v e t); [..|eapply resolved_fits|].
  - split; [|by intros [? ?]; constructor]. intros Hty. by inversion Hty; subst.
Qed.

(** *** Containers *)

Fixpoint kids_typed ct h (i : Z) (l : list (Value Y X)) : Prop :=
  match l with
  | [] => True
  | v :: l => (exists id, child_type ct h i = Some id /\ has_type id v) /\ kids_typed ct h (i + 1) l
  end.

Lemma kids_typed_const ct h i l id : (forall j, child_type ct h j = Some id) -> kids_typed ct h i l <-> Forall (has_type id) l.
Proof using.
  clear Hs Hroot. intros Hc. revert i. induction l as [|v l IH]; intros i; cbn; [by split; [constructor|]|].
  rewrite Forall_cons, IH, Hc. split; intros [Ha Hb]; (split; [|done]); [by destruct Ha as (? & [= <-] & ?)|by exists id].
Qed.

Lemma kids_typed_fields ct h types l i : 0 <= i ->
  (forall j, child_type ct h j = types !! Z.to_nat j) ->
  (Z.to_nat i + length l)%nat = length types -> kids_typed ct h i l <-> Forall2 has_type (drop (Z.to_nat i) types) l.
Proof using.
  clear Hs Hroot. intros Hi Hc. revert i Hi. induction l as [|v l IH]; intros i Hi Hl; cbn in *.
  - rewrite drop_ge by lia. split; [constructor|done].
  - rewrite Hc. destruct (lookup_lt_is_Some_2 types (Z.to_nat i)) as [id Hid]; [lia|].
    rewrite Hid, (drop_S _ _ _ Hid), Forall2_cons. rewrite IH by lia.
    replace (Z.to_nat (i + 1)) with (S (Z.to_nat i)) by lia.
    split; intros [Ha Hb]; (split; [|done]); [by destruct Ha as (? & [= <-] & ?)|by exists id].
Qed.

Lemma kids_typed_map self key value k1 k2 n i (l : list (Value Y X * Value Y X)) : i mod 2 = 0 ->
  kids_typed (MapType self key value) (HMap k1 k2 n) i (l ≫= (fun '(a, b) => [a; b])) <->
  Forall (fun p => has_type key p.1 /\ has_type value p.2) l.
Proof using.
  clear Hs Hroot. revert i. induction l as [|[a b] l IH]; intros i Hi; [cbn; by split; [constructor|]|].
  destruct (implicit_even k1 k2 n i Hi) as (Hk1 & Hk2 & Hi').
  change ((a, b) :: l) with ([(a, b)] ++ l). rewrite bind_app. cbn [app mbind list_bind kids_typed].
  rewrite Forall_cons, IH by done. cbn [fst snd child_type]. rewrite Hi.
  assert ((i + 1) mod 2 =? 0 = false) as ->.
  { cbn in Hk2. destruct ((i + 1) mod 2 =? 0) eqn:Hodd; [|done]. apply Z.eqb_eq in Hodd. apply Z.mod_divide in Hi, Hodd; try lia.
    destruct Hi, Hodd. lia. }
  cbn. naive_solver.
Qed.

Lemma container_length id v h l ct : unfold_value v = Some (h, l) -> value_ok v = true -> encodable v = true -> opens id h ct ->
  validate_container s h id = Ok tt <-> exists val, resolve_type_validation s id = Some val /\ length_valid val v.
Proof using Hs Laws.
  clear Hroot. intros Hu Hok He (t & Ht & Ho).
  destruct (resolved_valid s Hs _ _ Ht) as (val & Hv & _).
  pose proof (resolved_fits _ _ _ Ht Hv) as Hf. unfold validate_container. rewrite Hv.
  transitivity (length_valid val v); [|split; [by exists val|by intros (? & [= <-] & ?)]].
  destruct val; cbn in Hf; try done; first [subst t | destruct Hf as (? & ? & ->) | destruct Hf as [? ->] | idtac];
    destruct v; cbn in Hu; try discriminate Hu; injection Hu as <- <-; try done;
    cbn in He; zbool; apply validate_length_spec; by apply size_ok_range.
Qed.

(** A container is typed when it opens, has the length and its children are
    typed. *)
Lemma container_typed id v h l : unfold_value v = Some (h, l) -> value_ok v = true -> encodable v = true ->
  has_type id v <-> exists ct, opens id h ct /\ validate_container s h id = Ok tt /\ kids_typed ct h 0 l.
Proof using Hs Laws.
  clear Hroot. intros Hu Hok He. split.
  - intros Hty. assert (exists ct, opens id h ct /\ (exists val, resolve_type_validation s id = Some val /\ length_valid val v) /\
      kids_typed ct h 0 l) as (ct & Ho & Hval & Hk).
    { destruct Hty as [id v val Hl|id y|id v h' l' val Ht Hu' Hv Hlv Hf|id types l' val Ht Hv Hlv Hf|id variants types d l' val Ht Hg Hv Hlv Hf
        |id element k l' val Ht Hk Hv Hlv Hf|id key value k1 k2 l' val Ht Hk1 Hk2 Hv Hlv Hf]; cbn in Hu; try injection Hu as <- <-; try done.
      - by destruct v.
      - rewrite Hu in Hu'. injection Hu' as <- <-. exists (AnyType id). split_and!; [by exists TyAny|by exists val|].
        apply (kids_typed_const _ _ _ _ any); [|done]. intros j. destruct h; cbn; try done. by destruct (_ =? _).
      - exists (TupleType id types). pose proof (Forall2_length _ _ _ Hf) as Hlen. split_and!; [|by exists val|].
        + exists (TyTuple types). split_and!; [done|done|]. unfold len. by rewrite Hlen.
        + by apply (kids_typed_fields _ _ types).
      - exists (EnumVariantType id types). pose proof (Forall2_length _ _ _ Hf) as Hlen. split_and!; [|by exists val|].
        + exists (TyEnum variants). split; [done|]. exists types. split_and!; [done| |done]. unfold len. by rewrite Hlen.
        + by apply (kids_typed_fields _ _ types).
      - exists (ArrayType id element). split_and!; [by exists (TyArray element)|by exists val|]. by eapply kids_typed_const.
      - exists (MapType id key value). split_and!; [by exists (TyMap key value)|by exists val|]. by apply kids_typed_map. }
    exists ct. split_and!; [done| |done]. by eapply container_length.
  - intros (ct & Ho & Hc & Hk). apply (container_length id v h l ct) in Hc as (val & Hv & Hlv); [|done..].
    destruct Ho as (t & Ht & Ho). destruct t; try done; [|destruct h; try done..].
    + subst ct. apply (type_any _ _ _ _ h l val); [done..|]. eapply kids_typed_const; [|done].
      intros j. destruct h; cbn; try done. by destruct (_ =? _).
    + destruct Ho as [Hkf ->]. destruct v; try discriminate Hu. injection Hu as <- <- <-.
      apply (type_array _ _ _ element_type _ _ val); [done..|]. by eapply kids_typed_const in Hk.
    + destruct Ho as [-> Hn]. destruct v; try discriminate Hu. injection Hu as <- <-.
      apply (type_tuple _ _ _ field_types _ val); [done..|].
      apply (kids_typed_fields _ _ field_types) in Hk; [done|done|done|]. unfold len in Hn. cbn. lia.
    + destruct Ho as (types & Hg & Hn & ->). destruct v; try discriminate Hu. injection Hu as <- <- <-.
      apply (type_enum _ _ _ variants types _ _ val); [done..|].
      apply (kids_typed_fields _ _ types) in Hk; [done|done|done|]. unfold len in Hn. cbn. lia.
    + destruct Ho as (Hk1 & Hk2 & ->). destruct v; try discriminate Hu. injection Hu as <- <- <- <-.
      eapply (type_map _ _ _ _ _ _ _ _ val); [done..|]. by eapply kids_typed_map in Hk.
Qed.

(** *** The checks of a value *)

(** The checks of the events of a value from a position of this type: they
    pass and go on when the value has the type, and end with an error when it
    does not. *)
Definition checked (typed : Prop) pos stack (es rest : list Event) (pos' : Pos) (stack' : list ContainerType) : Prop :=
  (typed /\ check pos stack (es ++ rest) = check pos' stack' rest) \/
  (~ typed /\ exists e, check pos stack (es ++ rest) = Done (Err e)).

Definition check_exact v : Prop := forall pos stack id rest, value_ok v = true -> encodable v = true ->
  type_at stack (advance pos) = Done id -> resolves id ->
  checked (has_type id v) pos stack (value_events v) rest (advance pos, AtNext) stack.

Lemma terminal_exact v (e : TerminalValueRef Y) : terminal_of v = Some e -> check_exact v.
Proof using Hs Laws.
  clear Hroot. intros Ht pos stack id rest Hok He Hid (t & _ & Hk & _). rewrite (terminal_events _ _ Ht).
  unfold checked. cbn [app check map_at]. rewrite Hid. cbn [mbind Exec_bind].
  unfold map_terminal_value_event, look_up_type. rewrite Hk, (terminal_kind _ _ Ht), (leaf_typed id v e Ht Hok He).
  rewrite (kind_fits_spec _ _ _ Hk).
  destruct (value_kind_matches_type_kind s (get_value_kind v) t) eqn:Hm; cbn; [|right; split; [by intros []|by eexists]].
  destruct (validate_terminal_value s e id context) as [[]|err]; cbn; [by left|]. right. split; [by intros []|by eexists].
Qed.

Lemma exits_spec h i : header_ok h -> 0 <= i < get_child_count h -> exits h i = (i + 1 =? get_child_count h).
Proof using.
  clear. intros Hh Hi. pose proof (max_child h Hh) as [Hm _]. unfold exits, wrap_u, MAX_SIZE in *.
  rewrite Z.mod_small by lia. destruct (Z.eqb_spec (i + 1) (get_child_count h)); lia.
Qed.

Lemma advance_kid h i p : header_ok h -> 0 <= i -> i + 1 < get_child_count h -> advance ((h, i) :: p, AtNext) = (h, i + 1) :: p.
Proof using.
  clear. intros Hh H0i Hi. unfold advance. cbn [fst snd]. rewrite exits_spec by (done || lia).
  destruct (Z.eqb_spec (i + 1) (get_child_count h)); [lia|]. pose proof (max_child h Hh) as [Hm _]. unfold wrap_u, MAX_SIZE in *.
  by rewrite Z.mod_small by lia.
Qed.

Lemma advance_exit h p : header_ok h -> 0 < get_child_count h -> advance ((h, get_child_count h - 1) :: p, AtNext) = p.
Proof using.
  clear. intros Hh Hn. unfold advance. cbn [fst snd]. rewrite exits_spec by (done || lia).
  by destruct (Z.eqb_spec (get_child_count h - 1 + 1) (get_child_count h)); [|lia].
Qed.

Lemma kids_exact ct h stack p l i pos rest : fits ct h -> type_resolves ct -> header_ok h -> 0 <= i -> l <> [] ->
  i + len l = get_child_count h -> Forall (fun v => value_ok v = true /\ encodable v = true /\ check_exact v) l ->
  advance pos = (h, i) :: p ->
  checked (kids_typed ct h i l) pos (ct :: stack) (l ≫= value_events) rest ((h, get_child_count h - 1) :: p, AtNext) (ct :: stack).
Proof using Hs Laws.
  clear Hroot. intros Hf Hr Hh. revert i pos. induction l as [|v l IH]; [done|]. intros i pos Hi _ Hlen Hl Hp.
  inversion Hl as [|? ? (Hok & He & Hv) Hl']; subst. unfold len in Hlen. cbn [length] in Hlen.
  destruct (child_resolves ct h i Hf Hr) as (id & Hid & Hrid); [left; lia|].
  cbn [kids_typed mbind list_bind]. unfold checked. rewrite <- app_assoc.
  destruct (Hv pos (ct :: stack) id ((l ≫= value_events) ++ rest) Hok He) as [[Hty Hc]|[Hty [e Hc]]]; [by rewrite Hp; cbn; rewrite Hid|done| |].
  - unfold mbind in *. rewrite Hc, Hp. destruct (decide (l = [])) as [->|Hne].
    + cbn in Hlen |- *. left. split; [split; [by exists id|done]|]. by replace i with (get_child_count h - 1) by lia.
    + assert (0 < length l)%nat by (destruct l; [done|cbn; lia]).
      destruct (IH (i + 1) ((h, i) :: p, AtNext)) as [[Hk Hck]|[Hk [e Hck]]];
        [lia|done|unfold len; lia|done|by apply advance_kid; [..|lia]| |]; unfold mbind in *; rewrite Hck; [left|right].
      * split; [|done]. split; [by exists id|done].
      * split; [by intros []|by eexists].
  - right. unfold mbind in *. rewrite Hc. split; [|by eexists]. intros [(id' & Hid' & Hty') _]. congruence.
Qed.

(** A byte array, checked in one batch. *)
Lemma batch_exact id l : resolves id -> Forall (fun v => get_value_kind v = KU8 /\ value_ok v = true) l -> l <> [] ->
  Forall (has_type id) l <-> kind_fits id KU8 /\ validate_terminal_value_batch (X := X) s (map byte_of l) id = Ok tt.
Proof using Hs Laws.
  clear Hroot. intros (t & val & Ht & Hv) Hl Hne.
  assert (forall v, get_value_kind v = KU8 -> value_ok v = true -> has_type id v <->
    kind_fits id KU8 /\ validate_non_custom_terminal_value s (TU8 (byte_of v)) context val = Ok tt) as Hleaf.
  { intros v Hk Hok. destruct v; try discriminate Hk. rewrite (leaf_typed id (VU8 value) (TU8 value)) by done. cbn. by rewrite Hv. }
  assert (Forall (has_type id) l <-> kind_fits id KU8 /\
    Forall (fun v => validate_non_custom_terminal_value s (TU8 (byte_of v)) context val = Ok tt) l) as ->.
  { clear Hv. induction Hl as [|v l [Hk Hok] Hl IH]; [done|]. rewrite !Forall_cons, Hleaf by done.
    destruct (decide (l = [])) as [->|Hn]; [split; [|naive_solver]; intros [[? ?] _]; by split_and!|].
    rewrite IH by done. naive_solver. }
  assert (forall P Q R : Prop, (P -> Q <-> R) -> P /\ Q <-> P /\ R) as Hand by tauto.
  apply Hand. intros (t' & Ht' & Hm). rewrite Ht in Ht'. injection Ht' as <-.
  pose proof (resolved_fits _ _ _ Ht Hv) as Hf. unfold validate_terminal_value_batch. rewrite Hv.
  assert (t = TyAny \/ t = TyU8) as Hcase.
  { destruct t; try discriminate Hm; auto. cbn in Hm. by rewrite (custom_types_custom (X := X) (Y := Y) (C := C)) in Hm. }
  destruct val; cbn in Hf; try done; first [subst t | destruct Hf as (? & ? & ->) | destruct Hf as [? ->] | idtac];
    destruct Hcase; try done; try (cbn; split; [done|]; intros _; by apply Forall_true).
  clear. induction l as [|v l IH]; cbn; [by split; [|constructor]|]. rewrite Forall_cons, IH. cbn.
  destruct (numeric_is_valid (u_bounds 8) n (byte_of v)); naive_solver.
Qed.

Lemma content_exact ct h stack p l rest : fits ct h -> type_resolves ct -> header_ok h -> len l = get_child_count h ->
  kids_kind h 0 l -> Forall (fun v => value_ok v = true /\ encodable v = true /\ check_exact v) l ->
  checked (kids_typed ct h 0 l) (p, AtContent h) (ct :: stack) (content_events value_events h l ++ [ContainerEnd h]) rest (p, AtNext) stack.
Proof using Hs Laws.
  clear Hroot. intros Hf Hr Hh Hlen Hk Hl.
  assert (forall pos, advance pos = p -> check pos (ct :: stack) (ContainerEnd h :: rest) = check (p, AtNext) stack rest) as Hend.
  { intros pos <-. done. }
  destruct (decide (l = [])) as [->|Hne].
  { left. split; [done|]. cbn [content_events app]. apply Hend. unfold advance. cbn [fst snd]. rewrite <- Hlen. done. }
  assert (0 < get_child_count h) as Hpos by (rewrite <- Hlen; destruct l; [done|unfold len; cbn; lia]).
  destruct (is_byte_array h) eqn:Hb.
  - destruct h as [n|d n|k n|k1 k2 n]; try discriminate Hb. apply bool_decide_eq_true in Hb as ->.
    apply kids_kind_array in Hk.
    assert (content_events value_events (HArray KU8 n) l = [TerminalValueBatch (map byte_of l)]) as -> by (by destruct l).
    destruct (child_resolves ct (HArray KU8 n) (get_child_count (HArray (X := X) KU8 n) - 1) Hf Hr) as (id & Hid & Hrid); [left; lia|].
    unfold checked. rewrite (kids_typed_const ct (HArray KU8 n) 0 l id), batch_exact; [|done| |done|].
    2: { eapply Forall_impl; [apply Forall_and; split; [exact Hk|exact Hl]|]. by intros v [? (? & ? & ?)]. }
    2: { by destruct ct. }
    cbn [app check map_at].
    assert (advance (p, AtContent (HArray KU8 n)) = (HArray (X := X) KU8 n, n - 1) :: p) as Hadv.
    { unfold advance. cbn [fst snd get_child_count]. by destruct (Z.eqb_spec n 0); [cbn in Hpos; lia|]. }
    rewrite Hadv. cbn [type_at]. cbn [get_child_count] in Hid. rewrite Hid. cbn [mbind Exec_bind].
    destruct Hrid as (t & val & Ht & _). rewrite (kind_fits_spec _ _ _ Ht). unfold map_terminal_value_batch_event, look_up_type. rewrite Ht.
    destruct (value_kind_matches_type_kind s KU8 t); cbn; [|right; split; [by intros []|by eexists]].
    destruct (validate_terminal_value_batch s (map byte_of l) id) as [[]|e]; cbn; [left|right; split; [by intros []|by eexists]].
    split; [done|]. unfold next_pos. rewrite Hadv. cbn [next_pending]. pose proof (advance_exit (HArray KU8 n) p Hh Hpos) as Hexit. cbn [get_child_count] in Hexit. by rewrite Hexit.
  - assert (content_events value_events h l = l ≫= value_events) as ->.
    { unfold content_events. rewrite Hb. by destruct l. }
    unfold checked. rewrite <- app_assoc.
    destruct (kids_exact ct h stack p l 0 (p, AtContent h) ([ContainerEnd h] ++ rest)) as [[Hty Hc]|[Hty Hc]]; try done.
    + unfold advance. cbn [fst snd]. rewrite Hb. by destruct (Z.eqb_spec (get_child_count h) 0); [lia|].
    + left. split; [done|]. rewrite Hc. apply Hend. by apply advance_exit.
    + by right.
Qed.

Lemma container_exact v h l : unfold_value v = Some (h, l) ->
  Forall (fun v => value_ok v = true /\ encodable v = true /\ check_exact v) l -> check_exact v.
Proof using Hs Laws.
  clear Hroot. intros Hu Hl pos stack id rest Hok He Hid Hr. rewrite (container_events v h l Hu).
  destruct (unfold_ok v h l Hu Hok He) as (Hh & _ & Hlen & _ & Hk & _).
  pose proof (container_typed id v h l Hu Hok He) as Hty.
  unfold checked, container. rewrite Hty. cbn [app check map_at]. rewrite Hid. cbn [mbind Exec_bind].
  destruct (start_spec stack id h Hr) as [(ct & -> & Ho)|[Hno (e & st & ->)]]; cbn.
  2: { right. split; [intros (ct & Ho & _); by eapply Hno|by eexists]. }
  assert (forall ct', opens id h ct' -> ct' = ct) as Huniq.
  { intros ct' (t & Ht & Ho'). destruct Ho as (t' & Ht' & Ho). rewrite Ht in Ht'. injection Ht' as <-.
    destruct t, h; naive_solver congruence. }
  destruct (validate_container s h id) as [[]|err]; cbn.
  2: { right. split; [by intros (? & _ & ? & _)|by eexists]. }
  destruct (opens_ok _ _ _ Ho) as [Hf Hres].
  destruct (content_exact ct h stack (advance pos) l rest) as [[Ht Hc]|[Ht [e Hc]]]; try done; rewrite <- app_assoc in Hc.
  - left. split; [by exists ct|]. unfold next_pos. cbn [next_pending]. by rewrite <- app_assoc, Hc.
  - right. split; [|exists e; unfold next_pos; cbn [next_pending]; by rewrite <- app_assoc, Hc].
    intros (ct' & Ho' & _ & Hty'). by rewrite (Huniq ct' Ho') in Hty'.
Qed.

Lemma value_exact v : check_exact v.
Proof using Hs Laws.
  clear Hroot. remember (height v) as n eqn:Hn. revert v Hn. induction n as [n IH] using lt_wf_ind. intros v ->.
  destruct (unfold_value v) as [[h l]|] eqn:Hu.
  - intros pos stack id rest Hok He. destruct (unfold_ok v h l Hu Hok He) as (_ & _ & _ & _ & _ & Hl).
    apply (container_exact v h l Hu); [|done|done]. eapply Forall_impl; [exact Hl|].
    intros v' (? & ? & ?). split_and!; [done|done|]. apply (IH (height v')); [lia|done].
  - destruct (terminal_of v) as [e|] eqn:Ht; [by eapply terminal_exact|]. by destruct v.
Qed.

(** *** Payloads *)

Lemma payload_exact (Hne : customs_nonempty (X := X) (Y := Y)) (bs : list Z) (mx : nat) :
  bytes_ok bs = true -> (1 <= mx)%nat ->
  exists r, validate_payload_against_schema bs s root context mx = Done r /\
    (r = Ok tt <-> exists v, decode_with_depth_limit (PAYLOAD_PREFIX (X := X) (Y := Y) (T := T) (L := L) (E := E)) mx bs = Done (Ok v) /\
      has_type root v) /\
    (forall e, r = Err e -> blames_payload (located_error e)).
Proof using Hs Laws Hroot CLaws.
  intros Hb Hm. unfold validate_payload_against_schema, traverse_payload_with_types, typed_new.
  set (pre := PAYLOAD_PREFIX). set (t := traverser_new bs (PayloadPrefix pre) (mk_config mx true)).
  destruct (payload_events (Y := Y) (mk_config mx true) pre bs Hb Hm eq_refl) as [(v & Hd & He)|(e & Hd & es & err & He)];
    cbn [max_depth] in Hd; rewrite Hd.
  - pose proof (payload_fuel _ _ _ _ Hne Hb He) as Hl. pose proof (run_is_check _ t [] _ He Hl) as Hrun.
    destruct (check_ends t [] _ He) as (r & Hr & Hbl); [done|]. rewrite Hr in Hrun.
    destruct (run_validation _ _ context) as [r'|]; [|done]. exists r'. injection Hrun as Hrun. split; [done|].
    destruct (decode_limit_sound (X := X) (Y := Y) pre mx bs Hb) as (rv & Hd' & Hv). rewrite Hd in Hd'. injection Hd' as <-.
    destruct (Hv v eq_refl) as (Hok & Henc & _).
    change (pos_of t) with (([], AtRoot) : Pos) in Hr.
    destruct (value_exact v ([], AtRoot) [] root [TraversalEnd] Hok Henc eq_refl Hroot) as [[Hty Hc]|[Hty [e Hc]]]; rewrite Hc in Hr.
    + cbn in Hr. injection Hr as <-. destruct r' as [[]|e]; [|done]. split; [|done]. split; [|done]. intros _. by exists v.
    + injection Hr as <-. destruct r' as [|e']; [done|]. injection Hrun as Hrun. split; [|by intros ? [= <-]; rewrite Hrun].
      split; [done|]. intros (v' & [= <-] & ?). done.
  - pose proof (payload_fuel _ _ _ _ Hne Hb He) as Hl. pose proof (run_is_check _ t [] _ He Hl) as Hrun.
    destruct (check_ends t [] _ He) as (r & Hr & Hbl); [done|]. rewrite Hr in Hrun.
    destruct (run_validation _ _ context) as [r'|]; [|done]. exists r'. injection Hrun as Hrun. split; [done|].
    destruct r' as [u|e']; cbn in Hrun; subst r.
    + destruct Hbl as [es' He']. by apply app_inj_tail in He' as [_ ?].
    + split; [|by intros ? [= <-]]. split; [done|]. by intros (v' & ? & _).
Qed.
Lemma ends_first o ev (es : list Event) : ends o (ev :: es) -> exists loc t', o = Done (loc, t') /\ event loc = ev.
Proof using. clear. inversion 1; subst; by eexists _, _. Qed.

(** A payload is refused for a type that does not resolve. *)
Lemma unresolved_refused (Hne : customs_nonempty (X := X) (Y := Y)) (bs : list Z) (mx : nat) :
  bytes_ok bs = true -> (1 <= mx)%nat -> resolve_type_kind s root = None ->
  exists e, validate_payload_against_schema (X := X) bs s root context mx = Done (Err e).
Proof using Laws CLaws.
  clear Hs Hroot. intros Hb Hm Hk. unfold validate_payload_against_schema, traverse_payload_with_types, typed_new.
  set (pre := PAYLOAD_PREFIX). set (t := traverser_new bs (PayloadPrefix pre) (mk_config mx true)).
  assert (exists es ev, ev <> TraversalEnd /\ ends (next_event (Y := Y) t) (ev :: es)) as (es & ev & Hev & He).
  { destruct (payload_events (Y := Y) (mk_config mx true) pre bs Hb Hm eq_refl) as [(v & _ & He)|(e & _ & es & err & He)].
    - destruct (unfold_value v) as [[h l]|] eqn:Hu.
      + rewrite (container_events v h l Hu) in He. cbn in He. eexists _, _. by split; [|exact He].
      + destruct (terminal_of v) as [e|] eqn:Ht; [|by destruct v]. rewrite (terminal_events _ _ Ht) in He. cbn in He.
        eexists _, _. by split; [|exact He].
    - destruct es as [|ev es]; [eexists _, _; by split; [|exact He]|]. exists (es ++ [TraversalError err]), ev. split; [|exact He].
      intros ->. apply ends_no_end in He. by apply He, elem_of_cons; left. }
  assert (value_event ev \/ exists e, ev = TraversalError e) as Hfirst.
  { destruct (ends_first _ _ _ He) as (loc & t' & Hn & <-). destruct (final (event loc)) eqn:Hf.
    - destruct (event loc); try discriminate Hf; [done|right; by eexists].
    - left. by destruct (step_pos t loc t' Hn Hf) as (_ & Hem & _). }
  pose proof (run_is_check _ t [] _ He (payload_fuel _ _ _ _ Hne Hb He)) as Hrun.
  change (pos_of t) with (([], AtRoot) : Pos) in Hrun.
  assert (exists e, check (([], AtRoot) : Pos) [] (ev :: es) = Done (Err e)) as [e Hc].
  { destruct Hfirst as [Hfirst|[e ->]]; [|by eexists]. destruct ev; try done; cbn [check map_at advance fst snd type_at mbind Exec_bind];
      unfold map_container_start_event, map_terminal_value_event, look_up_type; rewrite ?Hk; by eexists. }
  rewrite Hc in Hrun. destruct (run_validation _ _ context) as [[u|e']|]; try done. by exists e'.
Qed.

(** A payload is accepted only for a type that resolves. *)
Lemma accepted_resolves (Hne : customs_nonempty (X := X) (Y := Y)) (bs : list Z) (mx : nat) :
  bytes_ok bs = true -> (1 <= mx)%nat -> validate_payload_against_schema (X := X) bs s root context mx = Done (Ok tt) -> resolves root.
Proof using Hs Laws CLaws.
  clear Hroot. intros Hb Hm Hv. destruct (resolve_type_kind s root) as [k|] eqn:Hk.
  - destruct (resolved_valid s Hs _ _ Hk) as (v & Hval & _). by exists k, v.
  - destruct (unresolved_refused Hne bs mx Hb Hm Hk) as [e He]. congruence.
Qed.
End Checks.
(** Validation ends on every type, one that does not resolve included. *)
Lemma validation_ends {X Y T L E C : Type} `{Laws : ExtensionLaws X Y T L E C} `{CLaws : !CustomValueLaws X Y} (s : Schema T E)
    (root : LocalTypeId) (context : C) (bs : list Z) (mx : nat) :
  validate_schema s = Ok tt -> customs_nonempty (X := X) (Y := Y) -> bytes_ok bs = true -> (1 <= mx)%nat ->
  exists r, validate_payload_against_schema (X := X) bs s root context mx = Done r.
Proof.
  intros Hs Hne Hb Hm. destruct (resolve_type_kind s root) as [k|] eqn:Hk.
  - destruct (resolved_valid s Hs _ _ Hk) as (v & Hval & _).
    destruct (payload_exact s Hs root context ltac:(by exists k, v) Hne bs mx Hb Hm) as (r & Hr & _). by exists r.
  - destruct (unresolved_refused s root context Hne bs mx Hb Hm Hk) as [e He]. by exists (Err e).
Qed.

(** *** Custom values of typed values *)

Section Customs.
Context {X Y T L E C : Type} `{ValidatableCustomExtension X Y T L E C}.
Context (s : Schema T E) (context : C).
Implicit Types (v : Value Y X).

(** Every custom value in a typed value passed its validation. *)
Definition custom_passes (y : Y) : Prop := exists id, kind_fits s id (KCustom (get_custom_value_kind y)) /\
  apply_validation_for_custom_value s y id context = Ok tt.

Lemma typed_children id v h l : has_type s context id v -> unfold_value v = Some (h, l) ->
  Forall (fun v => exists id, has_type s context id v) l.
Proof.
  intros Hty Hu. destruct Hty as [id v val Hl|id y|id v h' l' val _ Hu' _ _ Hf|id types l' val _ _ _ Hf|id variants types d l' val _ _ _ _ Hf
      |id element k l' val _ _ _ _ Hf|id key value k1 k2 l' val _ _ _ _ _ Hf]; cbn in Hu; try injection Hu as <- <-; try done.
  - by destruct v.
  - rewrite Hu in Hu'. injection Hu' as <- <-. eapply Forall_impl; [exact Hf|]. intros v' ?. by eexists.
  - apply Forall_forall. intros v' (i & Hi)%list_elem_of_lookup. destruct (Forall2_lookup_r _ _ _ _ _ Hf Hi) as (id' & _ & ?). by exists id'.
  - apply Forall_forall. intros v' (i & Hi)%list_elem_of_lookup. destruct (Forall2_lookup_r _ _ _ _ _ Hf Hi) as (id' & _ & ?). by exists id'.
  - eapply Forall_impl; [exact Hf|]. intros v' ?. by eexists.
  - apply Forall_forall. intros v' ([a b] & Hv & Hab)%list_elem_of_bind. rewrite Forall_forall in Hf. destruct (Hf _ Hab) as [Ha Hb].
    apply elem_of_cons in Hv as [->|[->|[]%elem_of_nil]%elem_of_cons]; by eexists.
Qed.

Lemma customs_unfold v h l : unfold_value v = Some (h, l) -> customs v = l ≫= customs.
Proof. destruct v; cbn; intros [= <- <-]; try done. by rewrite pairs_bind. Qed.

Lemma typed_customs v : forall id, has_type s context id v -> Forall custom_passes (customs v).
Proof.
  assert (forall l : list (Value Y X), Forall (fun v => forall id, has_type s context id v -> Forall custom_passes (customs v)) l ->
    Forall (fun v => exists id, has_type s context id v) l -> Forall custom_passes (l ≫= customs)) as Hl.
  { intros l HF Ht. induction HF as [|v' l Hv _ IH]; [constructor|]. inversion Ht as [|? ? [id Hid] Ht']; subst.
    cbn [mbind list_bind]. apply Forall_app. split; [by eapply Hv|by apply IH]. }
  induction v using value_ind_nested; intros id Hty; try (constructor; done);
    try (pose proof (typed_children _ _ _ _ Hty eq_refl) as Hk; by apply (Hl l)).
  - pose proof (typed_children _ _ _ _ Hty eq_refl) as Hk. rewrite (customs_unfold (VMap k1 k2 l) _ _ eq_refl). apply Hl; [|done].
    apply Forall_forall. intros v' ([a b] & Hv & Hab)%list_elem_of_bind.
    match goal with HF : Forall _ l |- _ => rewrite Forall_forall in HF; destruct (HF _ Hab) as [Ha Hb] end.
    apply elem_of_cons in Hv as [->|[->|[]%elem_of_nil]%elem_of_cons]; done.
  - constructor; [|constructor]. inversion Hty; subst; [done| |done]. by eexists.
Qed.
End Customs.
End TypingTheory.
