(* ===== verification/ScryptoSchema.v ===== *)
(** * Schemas of Scrypto types

    The instance of [Schema] and [TypedTraversal] for the values of Scrypto and
    of manifests: the custom types and their validations
    (radix-common/src/data/scrypto/custom_schema.rs), the well-known types
    (sbor/src/schema/well_known_types.rs and
    radix-common/src/data/scrypto/custom_well_known_types.rs), the extension of
    Scrypto values with its static validation and the one that looks up the
    type of each node (radix-engine/src/system/payload_validation.rs), and the
    extension of manifest values, which are checked against Scrypto schemas
    (radix-common/src/data/manifest/). *)

From S2P Require Import Prelude IndexMap Bytes Sbor SborCustom Text ManifestInstructions NativeInvocations NodeIds Traversal Schema TypedTraversal SchemaTyping.
Import Int CodecTheory SborTheory Str(Str, lit).

(** ** Custom types *)

Inductive ScryptoCustomTypeKind : Type :=
| ReferenceKind | OwnKind | DecimalKind | PreciseDecimalKind | NonFungibleLocalIdKind.

Inductive ScryptoCustomTypeKindLabel : Type :=
| ReferenceLabel | OwnLabel | DecimalLabel | PreciseDecimalLabel | NonFungibleLocalIdLabel.

Inductive ReferenceValidation : Type :=
| IsGlobal
| IsGlobalPackage
| IsGlobalComponent
| IsGlobalResourceManager
| IsGlobalTyped (package : option NodeAddress) (blueprint : Str)
| IsInternal
| IsInternalTyped (package : option NodeAddress) (blueprint : Str).

Inductive OwnValidation : Type :=
| IsBucket
| IsProof
| IsVault
| IsKeyValueStore
| IsGlobalAddressReservation
| IsTypedObject (package : option NodeAddress) (blueprint : Str).

Inductive ScryptoCustomTypeValidation : Type :=
| ValidateReference (v : ReferenceValidation)
| ValidateOwn (v : OwnValidation).

Definition could_match_manifest_bucket (v : OwnValidation) : bool :=
  match v with
  | IsBucket | IsTypedObject _ _ => true
  | IsProof | IsVault | IsKeyValueStore | IsGlobalAddressReservation => false
  end.
Definition could_match_manifest_proof (v : OwnValidation) : bool :=
  match v with
  | IsProof | IsTypedObject _ _ => true
  | IsBucket | IsVault | IsKeyValueStore | IsGlobalAddressReservation => false
  end.
Definition could_match_manifest_address_reservation (v : OwnValidation) : bool :=
  match v with IsGlobalAddressReservation => true | _ => false end.
Definition could_match_manifest_address (v : ReferenceValidation) : bool :=
  match v with
  | IsGlobal | IsGlobalPackage | IsGlobalComponent | IsGlobalResourceManager | IsGlobalTyped _ _ | IsInternal
  | IsInternalTyped _ _ => true
  end.

Definition scrypto_label (k : ScryptoCustomTypeKind) : ScryptoCustomTypeKindLabel :=
  match k with
  | ReferenceKind => ReferenceLabel
  | OwnKind => OwnLabel
  | DecimalKind => DecimalLabel
  | PreciseDecimalKind => PreciseDecimalLabel
  | NonFungibleLocalIdKind => NonFungibleLocalIdLabel
  end.

(** ** Well-known types *)

Abbreviation Data := (TypeData ScryptoCustomTypeKind ScryptoCustomTypeValidation).

Definition custom_validation (v : option ScryptoCustomTypeValidation) : TypeValidation ScryptoCustomTypeValidation :=
  match v with Some v => ValCustom v | None => NoValidation end.
Definition unnamed_custom_type_kind (k : ScryptoCustomTypeKind) (v : option ScryptoCustomTypeValidation) : Data :=
  mk_type_data (TyCustom k) metadata_unnamed (custom_validation v).
Definition named_custom_type_kind (name : Str) (k : ScryptoCustomTypeKind) (v : option ScryptoCustomTypeValidation) : Data :=
  mk_type_data (TyCustom k) (metadata_no_child_names name) (custom_validation v).
Definition named_struct (name : Str) (fields : list (Str * Z)) : Data :=
  struct_with_named_fields name (prod_map id WellKnown <$> fields).
Definition named_tuple (name : Str) (fields : list Z) : Data := struct_with_unnamed_fields name (WellKnown <$> fields).
Definition named_transparent (name : Str) (inner : Data) : Data := with_name (Some name) inner.
Definition array_of (inner : Z) : Data := mk_type_data (TyArray (WellKnown inner)) metadata_unnamed NoValidation.
Definition named_enum (name : Str) (variants : list (Z * Data)) : Exec Data := enum_variants name variants.

Definition bytes_type_data : Data := type_data_unnamed (TyArray (WellKnown 0x07)).
Definition bytes_fixed_length_type_data (n : Z) : Data :=
  with_validation (ValArray (mk_length (Some n) (Some n))) bytes_type_data.
Definition i64_type_data : Data := type_data_unnamed TyI64.
Definition string_type_data : Data := type_data_unnamed TyString.

(** The basic types, with their indices. *)
Definition basic_well_known_types : list (Z * Exec Data) :=
  [(0x01, Done (type_data_unnamed TyBool));
   (0x02, Done (type_data_unnamed TyI8)); (0x03, Done (type_data_unnamed TyI16)); (0x04, Done (type_data_unnamed TyI32));
   (0x05, Done i64_type_data); (0x06, Done (type_data_unnamed TyI128));
   (0x07, Done (type_data_unnamed TyU8)); (0x08, Done (type_data_unnamed TyU16)); (0x09, Done (type_data_unnamed TyU32));
   (0x0a, Done (type_data_unnamed TyU64)); (0x0b, Done (type_data_unnamed TyU128));
   (0x0c, Done string_type_data);
   (0x40, Done (type_data_unnamed TyAny)); (0x41, Done bytes_type_data); (0x42, Done (type_data_unnamed (TyTuple [])))].

Definition REFERENCES_START : Z := 0x80.
Definition OWNED_ENTITIES_START : Z := 0xa0.
Definition MISC_TYPES_START : Z := 0xc0.
Definition CRYPTO_TYPES_START : Z := 0xd0.
Definition ROLE_ASSIGNMENT_TYPES_START : Z := 0xe0.
Definition OTHER_MODULE_TYPES_START : Z := 0xf0.

Definition reference_types : list (Z * Exec Data) :=
  let named name v := Done (named_custom_type_kind (lit name) ReferenceKind (Some (ValidateReference v))) in
  [(REFERENCES_START, Done (unnamed_custom_type_kind ReferenceKind None));
   (REFERENCES_START + 1, named "GlobalAddress" IsGlobal);
   (REFERENCES_START + 2, named "InternalAddress" IsInternal);
   (REFERENCES_START + 3, named "PackageAddress" IsGlobalPackage);
   (REFERENCES_START + 4, named "ComponentAddress" IsGlobalComponent);
   (REFERENCES_START + 5, named "ResourceAddress" IsGlobalResourceManager)].

Definition owned_types : list (Z * Exec Data) :=
  let named name v := Done (named_custom_type_kind (lit name) OwnKind (Some (ValidateOwn v))) in
  let object name := named name (IsTypedObject (Some RESOURCE_PACKAGE) (lit name)) in
  [(OWNED_ENTITIES_START, Done (unnamed_custom_type_kind OwnKind None));
   (OWNED_ENTITIES_START + 1, named "Bucket" IsBucket);
   (OWNED_ENTITIES_START + 2, object "FungibleBucket");
   (OWNED_ENTITIES_START + 3, object "NonFungibleBucket");
   (OWNED_ENTITIES_START + 4, named "Proof" IsProof);
   (OWNED_ENTITIES_START + 5, object "FungibleProof");
   (OWNED_ENTITIES_START + 6, object "NonFungibleProof");
   (OWNED_ENTITIES_START + 7, named "Vault" IsVault);
   (OWNED_ENTITIES_START + 8, object "FungibleVault");
   (OWNED_ENTITIES_START + 9, object "NonFungibleVault");
   (OWNED_ENTITIES_START + 10, named "KeyValueStore" IsKeyValueStore);
   (OWNED_ENTITIES_START + 11, named "GlobalAddressReservation" IsGlobalAddressReservation)].

Definition misc_types : list (Z * Exec Data) :=
  [(MISC_TYPES_START + 0, Done (unnamed_custom_type_kind DecimalKind None));
   (MISC_TYPES_START + 1, Done (unnamed_custom_type_kind PreciseDecimalKind None));
   (MISC_TYPES_START + 2, Done (unnamed_custom_type_kind NonFungibleLocalIdKind None));
   (MISC_TYPES_START + 3, Done (named_struct (lit "NonFungibleGlobalId")
      [(lit "resource_address", REFERENCES_START + 5); (lit "local_id", MISC_TYPES_START + 2)]));
   (MISC_TYPES_START + 4, Done (named_transparent (lit "Instant") i64_type_data));
   (MISC_TYPES_START + 5, Done (named_struct (lit "UtcDateTime")
      [(lit "year", 0x09); (lit "month", 0x07); (lit "day_of_month", 0x07); (lit "hour", 0x07); (lit "minute", 0x07);
       (lit "second", 0x07)]));
   (MISC_TYPES_START + 6, Done (named_transparent (lit "Url") string_type_data));
   (MISC_TYPES_START + 7, Done (named_transparent (lit "Origin") string_type_data))].

(** A public key has 33 bytes for Secp256k1 and 32 for Ed25519, a hash of a public
    key 29. *)
Definition crypto_types : list (Z * Exec Data) :=
  let bytes name n := Done (named_transparent (lit name) (bytes_fixed_length_type_data n)) in
  [(CRYPTO_TYPES_START + 0, named_enum (lit "PublicKey")
      [(0, named_tuple (lit "Secp256k1") [CRYPTO_TYPES_START + 1]); (1, named_tuple (lit "Ed25519") [CRYPTO_TYPES_START + 2])]);
   (CRYPTO_TYPES_START + 1, bytes "Secp256k1PublicKey" 33);
   (CRYPTO_TYPES_START + 2, bytes "Ed25519PublicKey" 32);
   (CRYPTO_TYPES_START + 8, named_enum (lit "PublicKeyHash")
      [(0, named_tuple (lit "Secp256k1") [CRYPTO_TYPES_START + 9]); (1, named_tuple (lit "Ed25519") [CRYPTO_TYPES_START + 10])]);
   (CRYPTO_TYPES_START + 9, bytes "Secp256k1PublicKeyHash" 29);
   (CRYPTO_TYPES_START + 10, bytes "Ed25519PublicKeyHash" 29)].

Definition role_assignment_types : list (Z * Exec Data) :=
  [(ROLE_ASSIGNMENT_TYPES_START + 0, named_enum (lit "AccessRule")
      [(0, named_tuple (lit "AllowAll") []); (1, named_tuple (lit "DenyAll") []);
       (2, named_tuple (lit "Protected") [ROLE_ASSIGNMENT_TYPES_START + 1])]);
   (ROLE_ASSIGNMENT_TYPES_START + 1, named_enum (lit "AccessRuleNode")
      [(0, named_tuple (lit "ProofRule") [ROLE_ASSIGNMENT_TYPES_START + 3]);
       (1, named_tuple (lit "AnyOf") [ROLE_ASSIGNMENT_TYPES_START + 2]);
       (2, named_tuple (lit "AllOf") [ROLE_ASSIGNMENT_TYPES_START + 2])]);
   (ROLE_ASSIGNMENT_TYPES_START + 2, Done (array_of (ROLE_ASSIGNMENT_TYPES_START + 1)));
   (ROLE_ASSIGNMENT_TYPES_START + 3, named_enum (lit "ProofRule")
      [(0, named_tuple (lit "Require") [ROLE_ASSIGNMENT_TYPES_START + 4]);
       (1, named_tuple (lit "AmountOf") [MISC_TYPES_START + 0; REFERENCES_START + 5]);
       (2, named_tuple (lit "CountOf") [0x07; ROLE_ASSIGNMENT_TYPES_START + 5]);
       (3, named_tuple (lit "AllOf") [ROLE_ASSIGNMENT_TYPES_START + 5]);
       (4, named_tuple (lit "AnyOf") [ROLE_ASSIGNMENT_TYPES_START + 5])]);
   (ROLE_ASSIGNMENT_TYPES_START + 4, named_enum (lit "ResourceOrNonFungible")
      [(0, named_tuple (lit "NonFungible") [MISC_TYPES_START + 3]); (1, named_tuple (lit "Resource") [REFERENCES_START + 5])]);
   (ROLE_ASSIGNMENT_TYPES_START + 5, Done (array_of (ROLE_ASSIGNMENT_TYPES_START + 4)));
   (ROLE_ASSIGNMENT_TYPES_START + 6, named_enum (lit "OwnerRole")
      [(0, named_tuple (lit "None") []); (1, named_tuple (lit "Fixed") [ROLE_ASSIGNMENT_TYPES_START + 0]);
       (2, named_tuple (lit "Updatable") [ROLE_ASSIGNMENT_TYPES_START + 0])]);
   (ROLE_ASSIGNMENT_TYPES_START + 7, Done (named_transparent (lit "RoleKey") string_type_data))].

Definition other_module_types : list (Z * Exec Data) :=
  let unit name := named_tuple (lit name) [] in
  [(OTHER_MODULE_TYPES_START + 0, named_enum (lit "ModuleId")
      [(0, unit "Main"); (1, unit "Metadata"); (2, unit "Royalty"); (3, unit "RoleAssignment")]);
   (OTHER_MODULE_TYPES_START + 1, named_enum (lit "AttachedModuleId")
      [(1, unit "Metadata"); (2, unit "Royalty"); (3, unit "RoleAssignment")]);
   (OTHER_MODULE_TYPES_START + 2, named_enum (lit "RoyaltyAmount")
      [(0, unit "Free"); (1, named_tuple (lit "Xrd") [MISC_TYPES_START + 0]); (2, named_tuple (lit "Usd") [MISC_TYPES_START + 0])])].

(** [create_well_known_lookup!]: panics on an index above 255 and on an index
    added twice. *)
Fixpoint add_well_known (lookup : list (Z * Data)) (types : list (Z * Exec Data)) : Exec (list (Z * Data)) :=
  match types with
  | [] => Done lookup
  | (type_id, type_data) :: types =>
      d ← type_data;
      if 256 <=? type_id then Panicked
      else
        match im_get type_id lookup with
        | Some _ => Panicked
        | None => add_well_known (lookup ++ [(type_id, d)]) types
        end
  end.

Definition WELL_KNOWN_LOOKUP : Exec (list (Z * Data)) :=
  add_well_known []
    (basic_well_known_types ++ reference_types ++ owned_types ++ misc_types ++ crypto_types ++ role_assignment_types ++
     other_module_types).

Definition resolve_scrypto_well_known_type (index : Z) : option Data :=
  match WELL_KNOWN_LOOKUP with Done lookup => im_get index lookup | Panicked => None end.

(** ** Custom schemas *)

#[global] Instance scrypto_schema : CustomSchema ScryptoCustomTypeKind ScryptoCustomTypeKindLabel ScryptoCustomTypeValidation := {
  custom_label := scrypto_label;
  resolve_well_known_type := resolve_scrypto_well_known_type;
  validate_custom_type_kind _ _ := Ok tt;
  validate_custom_validation _ k v :=
    match k, v with
    | ReferenceKind, ValidateReference _ | OwnKind, ValidateOwn _ => Ok tt
    | _, _ => Err TypeValidationMismatch
    end;
  validate_custom_metadata _ _ m := validate_childless_metadata m
}.

Abbreviation ScryptoSchema := (Schema ScryptoCustomTypeKind ScryptoCustomTypeValidation).

(** [replace_self_package_address] *)
Definition replace_self_package (package_address : NodeAddress) (v : TypeValidation ScryptoCustomTypeValidation) :
    TypeValidation ScryptoCustomTypeValidation :=
  match v with
  | ValCustom (ValidateOwn (IsTypedObject None b)) => ValCustom (ValidateOwn (IsTypedObject (Some package_address) b))
  | ValCustom (ValidateReference (IsGlobalTyped None b)) => ValCustom (ValidateReference (IsGlobalTyped (Some package_address) b))
  | ValCustom (ValidateReference (IsInternalTyped None b)) =>
      ValCustom (ValidateReference (IsInternalTyped (Some package_address) b))
  | _ => v
  end.
Definition replace_self_package_address (package_address : NodeAddress) (s : ScryptoSchema) : ScryptoSchema :=
  mk_schema (type_kinds s) (type_metadata s) (replace_self_package package_address <$> type_validations s).

(** ** Scrypto values *)

Module ScryptoExtension.
Import Scrypto.
Abbreviation XKind := ScryptoCustomValueKind.
Abbreviation PError := (PayloadValidationError XKind ScryptoCustomTypeKindLabel).

#[global] Instance scrypto_extension :
    CustomExtension XKind ScryptoCustomValue ScryptoCustomTypeKind ScryptoCustomTypeKindLabel ScryptoCustomTypeValidation := {
  PAYLOAD_PREFIX := SCRYPTO_SBOR_V1_PAYLOAD_PREFIX;
  custom_value_kind_matches_type_kind _ k t :=
    match k, t with
    | Reference, TyCustom ReferenceKind | Own, TyCustom OwnKind | Decimal, TyCustom DecimalKind
    | PreciseDecimal, TyCustom PreciseDecimalKind | NonFungibleLocalId, TyCustom NonFungibleLocalIdKind => true
    | _, _ => false
    end;
  custom_type_kind_matches_non_custom_value_kind _ _ _ := false
}.

Definition valid_if (is_valid : bool) : Result PError unit := if is_valid then Ok tt else Err (PayloadInvalid CustomError).

(** *** Static validation *)

Definition static_reference_is_valid (node_id : list Z) (v : ReferenceValidation) : bool :=
  match v with
  | IsGlobal => NodeId.is_global node_id
  | IsGlobalPackage => NodeId.is_global_package node_id
  | IsGlobalComponent => NodeId.is_global_component node_id
  | IsGlobalResourceManager => NodeId.is_global_resource_manager node_id
  | IsGlobalTyped _ _ => NodeId.is_global node_id
  | IsInternal => NodeId.is_internal node_id
  | IsInternalTyped _ _ => NodeId.is_internal node_id
  end.

Definition apply_static_custom_validation_to_custom_value (v : ScryptoCustomTypeValidation) (custom_value : ScryptoCustomValue) :
    Result PError unit :=
  match v with
  | ValidateReference reference_validation =>
      match custom_value with
      | SReference node_id => valid_if (static_reference_is_valid node_id reference_validation)
      | _ => Err SchemaInconsistency
      end
  | ValidateOwn own_validation =>
      match custom_value with
      | SOwn node_id =>
          valid_if match own_validation with
                   | IsBucket | IsProof => NodeId.is_internal node_id
                   | IsVault => NodeId.is_internal_vault node_id
                   | IsKeyValueStore => NodeId.is_internal_kv_store node_id
                   | IsGlobalAddressReservation | IsTypedObject _ _ => true
                   end
      | _ => Err SchemaInconsistency
      end
  end.

Definition apply_static_validation (s : ScryptoSchema) (custom_value : ScryptoCustomValue) (type_id : LocalTypeId) :
    Result PError unit :=
  match resolve_type_validation s type_id with
  | None => Err SchemaInconsistency
  | Some NoValidation => Ok tt
  | Some (ValCustom v) => apply_static_custom_validation_to_custom_value v custom_value
  | Some _ => Err SchemaInconsistency
  end.

#[global] Instance static_validation :
    ValidatableCustomExtension XKind ScryptoCustomValue ScryptoCustomTypeKind ScryptoCustomTypeKindLabel
      ScryptoCustomTypeValidation unit := {
  apply_validation_for_custom_value s custom_value type_id _ := apply_static_validation s custom_value type_id;
  apply_custom_type_validation_for_non_custom_value _ _ _ _ := Err SchemaInconsistency
}.

(** *** Validation that looks up the types of nodes *)

Inductive SchemaOrigin : Type :=
| OriginBlueprint (blueprint_id : BlueprintId)
| OriginInstance
| OriginKeyValueStore.

Inductive TypeInfoForValidation : Type :=
| InfoObject (package : NodeAddress) (blueprint : Str)
| InfoKeyValueStore
| InfoGlobalAddressReservation.

(** The trait, for an implementation; the error of [get_node_type_info] only
    reaches the message of an error. *)
Record ValidationContext : Type := mk_context {
  get_node_type_info : list Z -> option TypeInfoForValidation;
  schema_origin : SchemaOrigin;
  allow_ownership : bool;
  allow_non_global_ref : bool
}.

Definition info_matches (self : TypeInfoForValidation) (expected_package : NodeAddress) (expected_blueprint : Str) : bool :=
  match self with
  | InfoObject package blueprint => bool_decide (package = expected_package) && bool_decide (blueprint = expected_blueprint)
  | _ => false
  end.

Definition matches_with_origin (self : TypeInfoForValidation) (expected_package : option NodeAddress)
    (expected_blueprint : Str) (origin : SchemaOrigin) : bool :=
  match expected_package with
  | Some package_address => info_matches self package_address expected_blueprint
  | None =>
      match origin with
      | OriginBlueprint blueprint_id => info_matches self (package_address blueprint_id) expected_blueprint
      | OriginInstance | OriginKeyValueStore => false
      end
  end.

Definition resolve_type_info (node_id : list Z) (lookup : ValidationContext) : Result PError TypeInfoForValidation :=
  match get_node_type_info lookup node_id with Some info => Ok info | None => Err (PayloadInvalid CustomError) end.

Definition reference_is_valid (lookup : ValidationContext) (node_id : list Z) (type_info : TypeInfoForValidation)
    (v : ReferenceValidation) : bool :=
  match v with
  | IsGlobal => NodeId.is_global node_id
  | IsGlobalPackage => NodeId.is_global_package node_id
  | IsGlobalComponent => NodeId.is_global_component node_id
  | IsGlobalResourceManager => NodeId.is_global_resource_manager node_id
  | IsGlobalTyped expected_package expected_blueprint =>
      NodeId.is_global node_id && matches_with_origin type_info expected_package expected_blueprint (schema_origin lookup)
  | IsInternal => NodeId.is_internal node_id
  | IsInternalTyped expected_package expected_blueprint =>
      NodeId.is_internal node_id && matches_with_origin type_info expected_package expected_blueprint (schema_origin lookup)
  end.

Definition own_is_valid (lookup : ValidationContext) (node_id : list Z) (type_info : TypeInfoForValidation)
    (v : OwnValidation) : bool :=
  match v with
  | IsBucket =>
      info_matches type_info RESOURCE_PACKAGE (lit "FungibleBucket") ||
      info_matches type_info RESOURCE_PACKAGE (lit "NonFungibleBucket")
  | IsProof =>
      info_matches type_info RESOURCE_PACKAGE (lit "FungibleProof") ||
      info_matches type_info RESOURCE_PACKAGE (lit "NonFungibleProof")
  | IsVault => NodeId.is_internal_vault node_id
  | IsKeyValueStore => NodeId.is_internal_kv_store node_id
  | IsGlobalAddressReservation => match type_info with InfoGlobalAddressReservation => true | _ => false end
  | IsTypedObject expected_package expected_blueprint =>
      matches_with_origin type_info expected_package expected_blueprint (schema_origin lookup)
  end.

Definition apply_custom_validation_to_custom_value (v : ScryptoCustomTypeValidation) (custom_value : ScryptoCustomValue)
    (lookup : ValidationContext) : Result PError unit :=
  match v with
  | ValidateReference reference_validation =>
      match custom_value with
      | SReference node_id =>
          type_info ← resolve_type_info node_id lookup;
          valid_if (reference_is_valid lookup node_id type_info reference_validation)
      | _ => Err SchemaInconsistency
      end
  | ValidateOwn own_validation =>
      match custom_value with
      | SOwn node_id =>
          type_info ← resolve_type_info node_id lookup;
          valid_if (own_is_valid lookup node_id type_info own_validation)
      | _ => Err SchemaInconsistency
      end
  end.

(** The guards on ownership and on references to internal nodes. *)
Definition is_allowed (lookup : ValidationContext) (custom_value : ScryptoCustomValue) : bool :=
  match custom_value with
  | SOwn _ => allow_ownership lookup
  | SReference node_id => NodeId.is_global node_id || allow_non_global_ref lookup
  | _ => true
  end.

Definition apply_lookup_validation (s : ScryptoSchema) (custom_value : ScryptoCustomValue) (type_id : LocalTypeId)
    (context : ValidationContext) : Result PError unit :=
  if negb (is_allowed context custom_value) then Err (PayloadInvalid CustomError)
  else
    match resolve_type_validation s type_id with
    | None => Err SchemaInconsistency
    | Some NoValidation => Ok tt
    | Some (ValCustom v) => apply_custom_validation_to_custom_value v custom_value context
    | Some _ => Err SchemaInconsistency
    end.

#[global] Instance lookup_validation :
    ValidatableCustomExtension XKind ScryptoCustomValue ScryptoCustomTypeKind ScryptoCustomTypeKindLabel
      ScryptoCustomTypeValidation ValidationContext := {
  apply_validation_for_custom_value := apply_lookup_validation;
  apply_custom_type_validation_for_non_custom_value _ _ _ _ := Err SchemaInconsistency
}.
End ScryptoExtension.

(** ** Manifest values *)

Module ManifestExtension.
Import Manifest ScryptoExtension.
Abbreviation XKind := ManifestCustomValueKind.
Abbreviation PError := (PayloadValidationError XKind ScryptoCustomTypeKindLabel).

(** The type is an array with elements of a type that [p] accepts. *)
Definition is_array_of (s : ScryptoSchema) (t : TypeKind ScryptoCustomTypeKind) (p : TypeKind ScryptoCustomTypeKind -> bool) : bool :=
  match t with
  | TyArray element_type => match resolve_type_kind s element_type with Some k => p k | None => false end
  | _ => false
  end.

#[global] Instance manifest_extension :
    CustomExtension XKind ManifestCustomValue ScryptoCustomTypeKind ScryptoCustomTypeKindLabel ScryptoCustomTypeValidation := {
  PAYLOAD_PREFIX := MANIFEST_SBOR_V1_PAYLOAD_PREFIX;
  custom_value_kind_matches_type_kind s k t :=
    match k with
    | Address => match t with TyCustom ReferenceKind => true | _ => false end
    | Bucket | Proof | AddressReservation => match t with TyCustom OwnKind => true | _ => false end
    | Expression => is_array_of s t (fun k => match k with TyCustom OwnKind => true | _ => false end)
    | Blob => is_array_of s t (fun k => match k with TyU8 => true | _ => false end)
    | Decimal => match t with TyCustom DecimalKind => true | _ => false end
    | PreciseDecimal => match t with TyCustom PreciseDecimalKind => true | _ => false end
    | NonFungibleLocalId => match t with TyCustom NonFungibleLocalIdKind => true | _ => false end
    end;
  custom_type_kind_matches_non_custom_value_kind _ _ _ := false
}.

Definition invalid {A} : Result PError A := Err (PayloadInvalid CustomError).

(** [schema.resolve_type_kind(type_id).ok_or(...)?], and the same for
    validations *)
Definition type_kind_of (s : ScryptoSchema) (type_id : LocalTypeId) : Result PError (TypeKind ScryptoCustomTypeKind) :=
  match resolve_type_kind s type_id with Some k => Ok k | None => Err SchemaInconsistency end.
Definition type_validation_of (s : ScryptoSchema) (type_id : LocalTypeId) :
    Result PError (TypeValidation ScryptoCustomTypeValidation) :=
  match resolve_type_validation s type_id with Some v => Ok v | None => Err SchemaInconsistency end.

(** What is owned has a validation that could match. *)
Definition own_could_match (s : ScryptoSchema) (type_id : LocalTypeId) (could_match : OwnValidation -> bool) : Result PError unit :=
  validation ← type_validation_of s type_id;
  match validation with
  | NoValidation => Ok tt
  | ValCustom (ValidateOwn own_validation) => if could_match own_validation then Ok tt else invalid
  | _ => Err SchemaInconsistency
  end.

(** The check of an array type by its element type; any type accepts it. *)
Definition check_elements (s : ScryptoSchema) (type_id : LocalTypeId)
    (check : LocalTypeId -> TypeKind ScryptoCustomTypeKind -> Result PError unit) : Result PError unit :=
  kind ← type_kind_of s type_id;
  match kind with
  | TyAny => Ok tt
  | TyArray element_type => element_type_kind ← type_kind_of s element_type; check element_type element_type_kind
  | _ => Err SchemaInconsistency
  end.

Definition expression_could_match (e : ManifestExpression) : OwnValidation -> bool :=
  match e with EntireWorktop => could_match_manifest_bucket | EntireAuthZone => could_match_manifest_proof end.

Definition check_address (s : ScryptoSchema) (address : ManifestAddress) (type_id : LocalTypeId) : Result PError unit :=
  validation ← type_validation_of s type_id;
  match validation with
  | NoValidation => Ok tt
  | ValCustom (ValidateReference reference_validation) =>
      let is_valid :=
        match address with
        | Static node_id => static_reference_is_valid node_id reference_validation
        | Named _ => could_match_manifest_address reference_validation
        end in
      if is_valid then Ok tt else invalid
  | _ => Err SchemaInconsistency
  end.

Definition apply_manifest_validation (s : ScryptoSchema) (custom_value : ManifestCustomValue) (type_id : LocalTypeId) :
    Result PError unit :=
  match custom_value with
  | MExpression e =>
      check_elements s type_id (fun element_type element_type_kind =>
        match element_type_kind with
        | TyAny | TyCustom OwnKind => own_could_match s element_type (expression_could_match e)
        | _ => invalid
        end)
  | MBlob _ =>
      check_elements s type_id (fun _ element_type_kind =>
        match element_type_kind with TyAny | TyU8 => Ok tt | _ => invalid end)
  | MAddress address => check_address s address type_id
  | MBucket _ => own_could_match s type_id could_match_manifest_bucket
  | MProof _ => own_could_match s type_id could_match_manifest_proof
  | MAddressReservation _ => own_could_match s type_id could_match_manifest_address_reservation
  | MDecimal _ | MPreciseDecimal _ | MNonFungibleLocalId _ => Ok tt
  end.

#[global] Instance manifest_validation :
    ValidatableCustomExtension XKind ManifestCustomValue ScryptoCustomTypeKind ScryptoCustomTypeKindLabel
      ScryptoCustomTypeValidation unit := {
  apply_validation_for_custom_value s custom_value type_id _ := apply_manifest_validation s custom_value type_id;
  apply_custom_type_validation_for_non_custom_value _ _ _ _ := Err SchemaInconsistency
}.
End ManifestExtension.

(** ** The laws of the extensions *)

Module ScryptoSchemaTheory.
Import Scrypto(ScryptoCustomValueKind, ScryptoCustomValue). Import Manifest(ManifestCustomValueKind, ManifestCustomValue).
Import TypingSpec TypingTheory ScryptoExtension ManifestExtension.

Definition well_known_is_valid (c : SchemaContext) (d : Data) : bool :=
  match validate_type_kind c (type_data_kind d), validate_custom_type_validation c (type_data_kind d) (type_data_validation d),
    validate_type_metadata_with_type_kind c (type_data_kind d) (type_data_metadata d) with
  | Ok _, Ok _, Ok _ => true
  | _, _, _ => false
  end.

Lemma well_known_lookup_valid c : exists lookup, WELL_KNOWN_LOOKUP = Done lookup /\
  forallb (fun p => well_known_is_valid c p.2) lookup = true.
Proof. eexists. split; [vm_compute; reflexivity|]. vm_compute. reflexivity. Qed.

(** Every well-known type is valid, its names included. *)
Lemma scrypto_well_known_valid c i d : resolve_scrypto_well_known_type i = Some d -> well_known_is_valid c d = true.
Proof.
  unfold resolve_scrypto_well_known_type. destruct (well_known_lookup_valid c) as (lookup & -> & Hv).
  intros Hd%im_get_elem. by apply (forallb_elem _ _ (i, d) Hv).
Qed.

Lemma well_known_types_valid c i (d : Data) : resolve_well_known_type i = Some d ->
  validate_type_kind c (type_data_kind d) = Ok tt /\
  validate_custom_type_validation c (type_data_kind d) (type_data_validation d) = Ok tt.
Proof.
  intros Hd%(scrypto_well_known_valid c). unfold well_known_is_valid in Hd.
  by destruct (validate_type_kind _ _) as [[]|], (validate_custom_type_validation _ _ _) as [[]|].
Qed.

Lemma any_is_well_known : exists d : Data, resolve_well_known_type ANY_TYPE = Some d /\ type_data_kind d = TyAny.
Proof. eexists. split; [vm_compute; reflexivity|done]. Qed.

#[global] Instance scrypto_schema_laws :
  CustomSchemaLaws ScryptoCustomTypeKind ScryptoCustomTypeKindLabel ScryptoCustomTypeValidation.
Proof. split; [apply well_known_types_valid|apply any_is_well_known]. Qed.

(** The validation of a type that a custom value may have. *)
Lemma custom_type_validation (s : ScryptoSchema) id t val : validate_schema s = Ok tt -> resolve_type_kind s id = Some t ->
  resolve_type_validation s id = Some val ->
  match t with
  | TyAny | TyCustom DecimalKind | TyCustom PreciseDecimalKind | TyCustom NonFungibleLocalIdKind => val = NoValidation
  | TyCustom ReferenceKind => val = NoValidation \/ exists v, val = ValCustom (ValidateReference v)
  | TyCustom OwnKind => val = NoValidation \/ exists v, val = ValCustom (ValidateOwn v)
  | _ => True
  end.
Proof.
  intros Hs Ht Hv. destruct (resolved_valid s Hs id t Ht) as (val' & Hv' & _ & Hval). rewrite Hv in Hv'. injection Hv' as <-.
  destruct t as [| | | | | | | | | | | | | | | | |[]]; try done; destruct val as [| | | | | | | | | | | | | |[]]; try done; eauto.
Qed.

Lemma valid_if_consistent b : valid_if b = Ok tt \/ exists e, valid_if b = Err (PayloadInvalid e).
Proof. destruct b; [by left|right; by eexists]. Qed.

#[global] Instance static_laws :
  ExtensionLaws ScryptoCustomValueKind ScryptoCustomValue ScryptoCustomTypeKind ScryptoCustomTypeKindLabel
    ScryptoCustomTypeValidation unit.
Proof.
  split; [apply _|done|]. intros s context y id t val Hs Ht Hv Hm. cbn. unfold apply_static_validation. rewrite Hv.
  pose proof (custom_type_validation s id t val Hs Ht Hv) as Hc.
  destruct y, t as [| | | | | | | | | | | | | | | | |[]]; try discriminate Hm; try (rewrite Hc; by left);
    destruct Hc as [->|[v ->]]; (by left) || apply valid_if_consistent.
Qed.

Lemma type_info_consistent node_id lookup f : resolve_type_info node_id lookup ≫= (fun i => valid_if (f i)) = Ok tt \/
  exists e, resolve_type_info node_id lookup ≫= (fun i => valid_if (f i)) = Err (PayloadInvalid e).
Proof. unfold resolve_type_info. destruct (get_node_type_info lookup node_id); [apply valid_if_consistent|right; by eexists]. Qed.

#[global] Instance lookup_laws :
  ExtensionLaws ScryptoCustomValueKind ScryptoCustomValue ScryptoCustomTypeKind ScryptoCustomTypeKindLabel
    ScryptoCustomTypeValidation ValidationContext.
Proof.
  split; [apply _|done|]. intros s context y id t val Hs Ht Hv Hm. cbn. unfold apply_lookup_validation. rewrite Hv.
  destruct (is_allowed context y); cbn [negb]; [|right; by eexists].
  pose proof (custom_type_validation s id t val Hs Ht Hv) as Hc.
  destruct y, t as [| | | | | | | | | | | | | | | | |[]]; try discriminate Hm; try (rewrite Hc; by left);
    destruct Hc as [->|[v ->]]; (by left) || apply type_info_consistent.
Qed.

Lemma own_consistent s id val f : resolve_type_validation s id = Some val ->
  val = NoValidation \/ (exists v, val = ValCustom (ValidateOwn v)) ->
  own_could_match s id f = Ok tt \/ exists e, own_could_match s id f = Err (PayloadInvalid e).
Proof.
  unfold own_could_match, type_validation_of. intros -> [->|[v ->]]; cbn; [by left|].
  destruct (f v); [by left|right; by eexists].
Qed.

#[global] Instance manifest_schema_laws :
  ExtensionLaws ManifestCustomValueKind ManifestCustomValue ScryptoCustomTypeKind ScryptoCustomTypeKindLabel
    ScryptoCustomTypeValidation unit.
Proof.
  split; [apply _|done|]. intros s context y id t val Hs Ht Hv Hm. cbn.
  pose proof (custom_type_validation s id t val Hs Ht Hv) as Hc.
  assert (forall e f, resolve_type_kind s e = Some (TyCustom OwnKind) ->
    own_could_match s e f = Ok tt \/ exists err, own_could_match s e f = Err (PayloadInvalid err)) as Hown.
  { intros e f He. destruct (resolved_valid s Hs e _ He) as (v & Hve & _).
    eapply own_consistent; [exact Hve|]. exact (custom_type_validation s e _ v Hs He Hve). }
  destruct y as [a|i|i|e|h|d|d|i|i], t as [| | | | | | | | | | | | |element| | | |[]]; try discriminate Hm;
    cbn [apply_manifest_validation]; try (by left); try (by apply (Hown id));
    try (eapply own_consistent; [exact Hv|by left]);
    unfold check_elements, check_address, type_kind_of, type_validation_of; rewrite ?Ht, ?Hv; try (rewrite Hc; by left); try by left.
  - destruct Hc as [->|[v ->]]; cbn; [by left|]. destruct a; cbn; [|by destruct v; left].
    destruct (static_reference_is_valid _ _); [by left|right; by eexists].
  - cbn in Hm. cbn. destruct (resolve_type_kind s element) as [k|] eqn:Hk; [|done]. cbn.
    destruct k as [| | | | | | | | | | | | | | | | |[]]; try discriminate Hm. by apply Hown.
  - cbn in Hm. cbn. destruct (resolve_type_kind s element) as [k|] eqn:Hk; [|done]. cbn.
    destruct k as [| | | | | | | | | | | | | | | | |[]]; try discriminate Hm. by left.
Qed.
End ScryptoSchemaTheory.

(** *** Contexts *)

Module ContextTheory.
Import Scrypto ScryptoExtension TraversalSpec TypingSpec TypingTheory ScryptoSchemaTheory IndexedTheory Indexed.
Implicit Types (s : ScryptoSchema) (lookup : ValidationContext).

(** A payload that validation accepts decodes, and its custom values passed
    their validation. *)
Lemma accepted_customs s lookup id bs mx : validate_schema s = Ok tt -> bytes_ok bs = true ->
  (1 <= mx <= SCRYPTO_SBOR_V1_MAX_DEPTH)%nat ->
  validate_payload_against_schema bs s id lookup mx = Done (Ok tt) ->
  exists v, scrypto_decode bs = Done (Ok v) /\ (value_ok v = true /\ encodable v = true /\ (value_depth v <= mx)%nat) /\
    Forall (custom_passes s lookup) (customs v).
Proof.
  intros Hs Hb [Hm1 Hm2] Hv. pose proof (accepted_resolves s Hs id lookup scrypto_nonempty bs mx Hb Hm1 Hv) as Hid.
  destruct (payload_exact s Hs id lookup Hid scrypto_nonempty bs mx Hb Hm1) as (r & Hr & Hok & _).
  rewrite Hv in Hr. injection Hr as <-. destruct (proj1 Hok eq_refl) as (v & Hd & Hty). exists v.
  destruct (decode_limit_sound (X := ScryptoCustomValueKind) (Y := ScryptoCustomValue) SCRYPTO_SBOR_V1_PAYLOAD_PREFIX mx bs Hb)
    as (r & Hd' & Hsound).
  change (decode_with_depth_limit SCRYPTO_SBOR_V1_PAYLOAD_PREFIX mx bs = Done (Ok v)) in Hd.
  rewrite Hd in Hd'. injection Hd' as <-. destruct (Hsound v eq_refl) as (Hvo & He & Hdp & ->).
  split_and!; [apply decode_limit_complete; [done|done|lia]|done..|by eapply typed_customs].
Qed.

Lemma passes_allowed s lookup y : custom_passes s lookup y -> is_allowed lookup y = true.
Proof. intros (id & _ & Hy). cbn in Hy. unfold apply_lookup_validation in Hy. by destruct (is_allowed lookup y). Qed.

(** What may not own nodes owns none, and what may not refer to internal nodes
    refers to global ones. *)
Definition contained lookup (i : IndexedScryptoValue) : Prop :=
  (allow_ownership lookup = false -> owned_nodes i = []) /\
  (allow_non_global_ref lookup = false -> Forall (fun n => NodeId.is_global n = true) (references i)).

Lemma accepted_contained s lookup id bs mx : validate_schema s = Ok tt -> bytes_ok bs = true ->
  (1 <= mx <= SCRYPTO_SBOR_V1_MAX_DEPTH)%nat -> validate_payload_against_schema bs s id lookup mx = Done (Ok tt) ->
  exists v, scrypto_decode bs = Done (Ok v) /\ (value_ok v = true /\ encodable v = true /\ (value_depth v <= mx)%nat) /\
    indexed_new bs = Done (Ok (mk_indexed bs (refs v) (owns v))) /\ contained lookup (mk_indexed bs (refs v) (owns v)).
Proof.
  intros Hs Hb Hmx Hv. destruct (accepted_customs s lookup id bs mx Hs Hb Hmx Hv) as (v & Hd & Hok & Hc).
  destruct (indexed_new_spec bs Hb) as [(v' & Hd' & Hi)|(e & Hd' & _)]; [|congruence]. assert (v' = v) as -> by congruence.
  exists v. split; [done|]. split; [done|]. split; [done|]. unfold contained. cbn. unfold owns, refs.
  assert (Forall (fun y => is_allowed lookup y = true) (customs v)) as Ha by (eapply Forall_impl; [exact Hc|apply passes_allowed]).
  clear Hc Hd Hd' Hi Hv. split; intros Hno; induction Ha as [|y l Hy _ IH]; try done; cbn.
  - rewrite IH. destruct y; try done. cbn in Hy. congruence.
  - destruct y; try done. cbn in Hy. rewrite Hno, orb_false_r in Hy. by constructor.
Qed.

(** *** The package of the schema *)

Definition with_origin (o : SchemaOrigin) lookup : ValidationContext :=
  mk_context (get_node_type_info lookup) o (allow_ownership lookup) (allow_non_global_ref lookup).

Definition no_self_package (p : list Z) (d : Data) : Prop := replace_self_package p (type_data_validation d) = type_data_validation d.

Lemma well_known_no_self p i d : resolve_scrypto_well_known_type i = Some d -> no_self_package p d.
Proof.
  unfold resolve_scrypto_well_known_type. destruct (well_known_lookup_valid (mk_schema_context 0)) as (lookup & Hl & _).
  rewrite Hl. intros Hd%im_get_elem.
  assert (Forall (fun q => no_self_package p q.2) lookup) as Hall.
  { vm_compute in Hl. injection Hl as <-. repeat (apply Forall_cons; split; [done|]). by apply Forall_nil. }
  rewrite Forall_forall in Hall. exact (Hall _ Hd).
Qed.

Lemma replaced_validation p s id :
  resolve_type_validation (replace_self_package_address p s) id = replace_self_package p <$> resolve_type_validation s id.
Proof.
  destruct id as [i|i]; cbn.
  - destruct (resolve_scrypto_well_known_type i) as [d|] eqn:Hd; [|done]. cbn. f_equal. symmetry. by eapply well_known_no_self.
  - by rewrite list_lookup_fmap.
Qed.

Lemma replaced_matches p b o info lookup e name :
  matches_with_origin info (match e with Some q => Some q | None => Some p end) name (schema_origin (with_origin o lookup)) =
  matches_with_origin info e name (schema_origin (with_origin (OriginBlueprint (mk_blueprint_id p b)) lookup)).
Proof. by destruct e. Qed.

Lemma replaced_custom p b o s lookup y id :
  apply_lookup_validation (replace_self_package_address p s) y id (with_origin o lookup) =
  apply_lookup_validation s y id (with_origin (OriginBlueprint (mk_blueprint_id p b)) lookup).
Proof.
  unfold apply_lookup_validation. rewrite replaced_validation. change (is_allowed (with_origin o lookup) y) with
    (is_allowed (with_origin (OriginBlueprint (mk_blueprint_id p b)) lookup) y). destruct (is_allowed _ y); [|done]. cbn [negb].
  destruct (resolve_type_validation s id) as [[| | | | | | | | | | | | | |[[| | | |[q|] n| |[q|] n]|[| | | | |[q|] n]]]|];
    try done; by destruct y.
Qed.

Lemma replaced_event p b o s lookup ev :
  validate_event_with_type (replace_self_package_address p s) ev (with_origin o lookup) =
  validate_event_with_type s ev (with_origin (OriginBlueprint (mk_blueprint_id p b)) lookup).
Proof.
  destruct ev as [id h|id h|id v|id bytes| |e]; try done; cbn [validate_event_with_type]; f_equal.
  - unfold validate_container. rewrite replaced_validation.
    by destruct (resolve_type_validation s id) as [[| | | | | | | | | | | | | |[[| | | |[q|] n| |[q|] n]|[| | | | |[q|] n]]]|].
  - unfold validate_terminal_value. destruct v as [x|x|x|x|x|x|x|x|x|x|x|x|y]; [rewrite replaced_validation..|by apply replaced_custom];
      by destruct (resolve_type_validation s id) as [[| | | | | | | | | | | | | |[[| | | |[q|] n| |[q|] n]|[| | | | |[q|] n]]]|].
  - unfold validate_terminal_value_batch. rewrite replaced_validation.
    by destruct (resolve_type_validation s id) as [[| | | | | | | | | | | | | |[[| | | |[q|] n| |[q|] n]|[| | | | |[q|] n]]]|].
Qed.

Lemma replaced_map p s stack root path (ev : TraversalEvent ScryptoCustomValueKind ScryptoCustomValue) :
  map_event (replace_self_package_address p s) stack root path ev = map_event s stack root path ev.
Proof. by destruct ev. Qed.

Lemma run_replaced p b o s lookup id fuel stack (t : VecTraverser ScryptoCustomValueKind) :
  run_validation fuel (mk_typed t stack (replace_self_package_address p s) id) (with_origin o lookup) =
  run_validation fuel (mk_typed t stack s id) (with_origin (OriginBlueprint (mk_blueprint_id p b)) lookup).
Proof.
  revert stack t. induction fuel as [|fuel IH]; intros stack t; [done|].
  cbn [run_validation]. unfold next_typed_event. cbn [traverser typed_schema container_stack root_type_id].
  destruct (next_event t) as [[loc t']|]; [|done]. cbn [mbind Exec_bind fst snd]. rewrite replaced_map.
  destruct (map_event s stack id (location_path loc) (event loc)) as [[ev stack']|]; [|done]. cbn.
  rewrite (replaced_event p b o). by destruct (validate_event_with_type s ev _) as [[]|].
Qed.

(** *** Static validation *)

Definition resource_names : list Str := [lit "FungibleBucket"; lit "NonFungibleBucket"; lit "FungibleProof"; lit "NonFungibleProof"].

(** Buckets and proofs are internal nodes. *)
Definition transient_internal lookup : Prop := forall node_id b,
  get_node_type_info lookup node_id = Some (InfoObject RESOURCE_PACKAGE b) -> b ∈ resource_names ->
  NodeId.is_internal node_id = true.

Lemma info_matches_spec info p b : info_matches info p b = true <-> info = InfoObject p b.
Proof. destruct info; cbn; [|done..]. rewrite andb_true_iff, !bool_decide_eq_true. split; [by intros [-> ->]|by intros [= -> ->]]. Qed.

Lemma valid_if_ok b : valid_if b = Ok tt <-> b = true.
Proof. by destruct b. Qed.

Lemma custom_weaker lookup v y : transient_internal lookup ->
  apply_custom_validation_to_custom_value v y lookup = Ok tt -> apply_static_custom_validation_to_custom_value v y = Ok tt.
Proof.
  intros Ht. destruct v as [v|v], y as [n|n|d|d|i]; cbn; try done; unfold resolve_type_info;
    destruct (get_node_type_info lookup n) as [info|] eqn:Hi; cbn; try done; rewrite !valid_if_ok.
  - by destruct v; cbn; try done; intros [? _]%andb_true_iff.
  - assert (forall b, b ∈ resource_names -> info_matches info RESOURCE_PACKAGE b = true -> NodeId.is_internal n = true) as Hint.
    { intros b Hb ->%info_matches_spec. by eapply Ht. }
    unfold resource_names in Hint.
    destruct v; cbn [own_is_valid]; try done; intros [Hm|Hm]%orb_true_iff; eapply Hint; try exact Hm; set_solver.
Qed.

Lemma event_weaker s lookup ev b : transient_internal lookup ->
  validate_event_with_type s ev lookup = Ok b -> validate_event_with_type (C := unit) s ev tt = Ok b.
Proof.
  intros Ht. destruct ev as [id h|id h|id v|id bytes| |e]; try done. cbn [validate_event_with_type].
  destruct v as [x|x|x|x|x|x|x|x|x|x|x|x|y]; try done. cbn. unfold apply_lookup_validation, apply_static_validation.
  destruct (is_allowed lookup y); [|done]. cbn [negb].
  destruct (resolve_type_validation s id) as [[| | | | | | | | | | | | | |v]|]; try done.
  destruct (apply_custom_validation_to_custom_value v y lookup) as [[]|] eqn:Hv; [|done].
  by rewrite (custom_weaker lookup v y Ht Hv).
Qed.

Lemma run_weaker s lookup (Ht : transient_internal lookup) id fuel stack (t : VecTraverser ScryptoCustomValueKind) :
  run_validation fuel (mk_typed t stack s id) lookup = Done (Ok tt) ->
  run_validation (C := unit) fuel (mk_typed t stack s id) tt = Done (Ok tt).
Proof.
  revert stack t. induction fuel as [|fuel IH]; intros stack t; [done|].
  cbn [run_validation]. unfold next_typed_event. cbn [traverser typed_schema container_stack root_type_id].
  destruct (next_event t) as [[loc t']|]; [|done]. cbn [mbind Exec_bind fst snd].
  destruct (map_event s stack id (location_path loc) (event loc)) as [[ev stack']|]; [|done]. cbn.
  destruct (validate_event_with_type s ev lookup) as [end_|e] eqn:He; [|done].
  rewrite (event_weaker s lookup ev end_ Ht He). destruct end_; [done|]. apply IH.
Qed.
End ContextTheory.

(** ** Theorems *)

Module SchemaTheorems.
Import Scrypto ScryptoExtension ManifestExtension TraversalSpec TypingSpec TypingTheory ScryptoSchemaTheory ContextTheory.
Import IndexedTheory Indexed.
Abbreviation types_of s := (mk_schema_context (length (type_kinds s))).

(** C8. The validation of Scrypto payloads by the engine is sound and complete
    for typing: for every schema that passes its own validation and every type
    it resolves, on every sequence of bytes and for every lookup of node types,
    validation ends without panic, and accepts exactly the payloads that decode,
    within the depth limit, to a value that has the type; when it refuses, the
    error is about the payload and never about the schema. *)
Theorem scrypto_payload_typing (s : ScryptoSchema) (Hs : validate_schema s = Ok tt) (id : LocalTypeId)
    (Hid : validate_index (types_of s) id = Ok tt) (lookup : ValidationContext) (bs : list Z) (Hb : bytes_ok bs = true)
    (mx : nat) (Hmx : (1 <= mx)%nat) :
  exists r, validate_payload_against_schema bs s id lookup mx = Done r /\
    (r = Ok tt <-> exists v : ScryptoValue, decode_with_depth_limit SCRYPTO_SBOR_V1_PAYLOAD_PREFIX mx bs = Done (Ok v) /\
      has_type s lookup id v) /\
    (forall e, r = Err e -> blames_payload (located_error e)).
Proof.
  exact (payload_exact s Hs id lookup (index_resolves s Hs id Hid) scrypto_nonempty bs mx Hb Hmx).
Qed.

(** A struct with a resource address, bytes of at most four and a bucket. *)
Definition sample_schema : ScryptoSchema :=
  mk_schema [TyTuple [WellKnown 0x85; SchemaLocalIndex 1; WellKnown 0xa1]; TyArray (WellKnown 0x07)]
    [metadata_struct_fields (lit "Sample") [lit "resource"; lit "data"; lit "bucket"]; metadata_unnamed]
    [NoValidation; ValArray (mk_length None (Some 4))].
Definition sample_bucket : list Z := 248 :: repeat 7 29.
Definition sample_value (data : list Z) : ScryptoValue :=
  VTuple [VCustom (SReference RORK); VArray KU8 (VU8 <$> data); VCustom (SOwn sample_bucket)].
Definition sample_bytes (data : list Z) : list Z :=
  [0x5c; 0x21; 3; 0x80] ++ RORK ++ [0x20; 7; Z.of_nat (length data)] ++ data ++ [0x90] ++ sample_bucket.
Definition sample_lookup (owns non_global : bool) : ValidationContext :=
  mk_context (fun n => if bool_decide (n = sample_bucket) then Some (InfoObject RESOURCE_PACKAGE (lit "FungibleBucket"))
                       else Some (InfoObject RESOURCE_PACKAGE (lit "FungibleResourceManager")))
    OriginInstance owns non_global.

Example sample_accepted : validate_payload_against_schema (sample_bytes [1; 2; 3; 4]) sample_schema (SchemaLocalIndex 0)
  (sample_lookup true true) 64 = Done (Ok tt).
Proof. vm_compute. reflexivity. Qed.

(** Too many bytes, with the location of the error. *)
Example sample_too_long : exists loc, validate_payload_against_schema (sample_bytes [1; 2; 3; 4; 5]) sample_schema (SchemaLocalIndex 0)
  (sample_lookup true true) 64 = Done (Err (mk_located_error
    (PayloadInvalid (LengthValidationError (mk_length None (Some 4)) 5)) loc)).
Proof. eexists. vm_compute. reflexivity. Qed.

Example sample_not_allowed : exists loc, validate_payload_against_schema (sample_bytes [1]) sample_schema (SchemaLocalIndex 0)
  (sample_lookup false true) 64 = Done (Err (mk_located_error (PayloadInvalid CustomError) loc)).
Proof. eexists. vm_compute. reflexivity. Qed.

Lemma scrypto_payload_typing_witness : has_type sample_schema (sample_lookup true true) (SchemaLocalIndex 0) (sample_value [1; 2; 3; 4]).
Proof.
  destruct (scrypto_payload_typing sample_schema eq_refl (SchemaLocalIndex 0) eq_refl (sample_lookup true true)
    (sample_bytes [1; 2; 3; 4]) eq_refl 64 ltac:(lia)) as (r & Hr & Hok & _).
  assert (r = Ok tt) as -> by (vm_compute in Hr; congruence).
  destruct (proj1 Hok eq_refl) as (v & Hd & Hty). vm_compute in Hd. injection Hd as <-. exact Hty.
Defined.

(** The arguments of manifest instructions are checked against the same
    schemas: validation of a manifest payload ends without panic, accepts
    exactly the payloads that decode to a manifest value of the type, where
    buckets, proofs, named addresses, blobs and expressions stand for what they
    become, and never finds a valid schema inconsistent. *)
Theorem manifest_payload_typing (s : ScryptoSchema) (Hs : validate_schema s = Ok tt) (id : LocalTypeId)
    (Hid : validate_index (types_of s) id = Ok tt) (bs : list Z) (Hb : bytes_ok bs = true) (mx : nat) (Hmx : (1 <= mx)%nat) :
  exists r, validate_payload_against_schema (X := Manifest.ManifestCustomValueKind) bs s id tt mx = Done r /\
    (r = Ok tt <-> exists v : Manifest.ManifestValue,
      decode_with_depth_limit Manifest.MANIFEST_SBOR_V1_PAYLOAD_PREFIX mx bs = Done (Ok v) /\ has_type s tt id v) /\
    (forall e, r = Err e -> blames_payload (located_error e)).
Proof.
  exact (payload_exact s Hs id tt (index_resolves s Hs id Hid) manifest_nonempty bs mx Hb Hmx).
Qed.

(** The whole worktop for a list of buckets. *)
Definition buckets_schema : ScryptoSchema :=
  mk_schema [TyArray (WellKnown 0xa1)] [metadata_unnamed] [NoValidation].
Definition worktop_bytes : list Z := [0x4d; 0x83; 0].

Lemma manifest_payload_typing_witness :
  has_type buckets_schema tt (SchemaLocalIndex 0) (VCustom (Manifest.MExpression Manifest.EntireWorktop)) /\
  ~ has_type buckets_schema tt (SchemaLocalIndex 0) (VCustom (Manifest.MExpression Manifest.EntireAuthZone)).
Proof.
  split.
  - destruct (manifest_payload_typing buckets_schema eq_refl (SchemaLocalIndex 0) eq_refl worktop_bytes eq_refl 24 ltac:(lia))
      as (r & Hr & Hok & _).
    assert (r = Ok tt) as -> by (vm_compute in Hr; congruence).
    destruct (proj1 Hok eq_refl) as (v & Hd & Hty). vm_compute in Hd. injection Hd as <-. exact Hty.
  - destruct (manifest_payload_typing buckets_schema eq_refl (SchemaLocalIndex 0) eq_refl [0x4d; 0x83; 1] eq_refl 24 ltac:(lia))
      as (r & Hr & Hok & _).
    intros Hty. assert (r = Ok tt) as -> by (apply Hok; eexists; split; [vm_compute; reflexivity|exact Hty]).
    vm_compute in Hr. congruence.
Defined.

(** Replacing the absent package of typed validations with the package of a
    schema does what it is for: a payload is accepted or refused by the new
    schema, with any origin, exactly as the old schema accepts or refuses it as
    a schema of that package, with the same error at the same place. *)
Theorem self_package_replaced (s : ScryptoSchema) (p : list Z) (b : Str) (o : SchemaOrigin) (id : LocalTypeId)
    (lookup : ValidationContext) (bs : list Z) (mx : nat) :
  validate_payload_against_schema bs (replace_self_package_address p s) id (with_origin o lookup) mx =
  validate_payload_against_schema bs s id (with_origin (OriginBlueprint (mk_blueprint_id p b)) lookup) mx.
Proof.
  apply run_replaced.
Qed.

(** The static check never refuses what the engine accepts: where the
    lookup reports buckets and proofs only for internal nodes, a payload that
    passes the validation with the lookup passes the static validation. *)
Theorem static_validation_weaker (s : ScryptoSchema) (id : LocalTypeId) (lookup : ValidationContext)
    (Ht : transient_internal lookup) (bs : list Z) (mx : nat)
    (Hv : validate_payload_against_schema bs s id lookup mx = Done (Ok tt)) :
  validate_payload_against_schema (X := ScryptoCustomValueKind) bs s id tt mx = Done (Ok tt).
Proof.
  by apply (run_weaker s lookup Ht).
Qed.

Lemma sample_transient a b : transient_internal (sample_lookup a b).
Proof.
  intros n x Hi Hx. cbn in Hi. destruct (bool_decide_reflect (n = sample_bucket)) as [->|]; [done|].
  injection Hi as <-. unfold resource_names in Hx. exfalso. by repeat (apply elem_of_cons in Hx as [Hx|Hx]; [discriminate Hx|]); apply elem_of_nil in Hx.
Qed.

Lemma static_validation_weaker_witness :
  validate_payload_against_schema (X := ScryptoCustomValueKind) (sample_bytes [1; 2; 3; 4]) sample_schema (SchemaLocalIndex 0)
    tt 64 = Done (Ok tt).
Proof.
  exact (static_validation_weaker sample_schema (SchemaLocalIndex 0) (sample_lookup true true) (sample_transient true true)
    (sample_bytes [1; 2; 3; 4]) 64 ltac:(vm_compute; reflexivity)).
Defined.
End SchemaTheorems.
