(* ===== verification/BlueprintInterface.v ===== *)
(** * Blueprint interfaces

    The types of a blueprint's fields, collections, functions and events
    (radix-engine-interface/src/blueprints/package/substates.rs and
    radix-blueprint-schema-init/src/lib.rs), the payloads the interface defines
    with what they may own and refer to, the partitions of a blueprint's state,
    and the substates that hold its payloads
    (radix-engine/src/system/system_substates.rs). *)

From S2P Require Import Authorization.
From S2P Require Import Prelude IndexMap Bytes Sbor SborCustom Text StateUpdates ManifestInstructions NativeInvocations Schema Traversal.
Import Int Scrypto TraversalSpec Str(Str).

(** ** Payloads and their identifiers *)

Abbreviation SchemaHash := (list Z) (only parsing).
Abbreviation ScopedTypeId := (SchemaHash * LocalTypeId)%type (only parsing).

Inductive TypeRef : Type :=
| RefStatic (t : LocalTypeId)
| RefGeneric (index : Z).

Inductive BlueprintPayloadDef : Type :=
| PayloadStatic (type_id : ScopedTypeId)
| PayloadGeneric (index : Z).

Definition from_type_ref (schema_hash : SchemaHash) (type_ref : TypeRef) : BlueprintPayloadDef :=
  match type_ref with
  | RefStatic type_id => PayloadStatic (schema_hash, type_id)
  | RefGeneric index => PayloadGeneric index
  end.

Inductive KeyOrValue : Type := Key | Value_.
Inductive InputOrOutput : Type := Input | Output.

Inductive BlueprintPayloadIdentifier : Type :=
| PayloadFunction (ident : Str) (io : InputOrOutput)
| PayloadEvent (name : Str)
| PayloadField (index : Z)
| PayloadKeyValueEntry (collection : Z) (kv : KeyOrValue)
| PayloadIndexEntry (collection : Z) (kv : KeyOrValue)
| PayloadSortedIndexEntry (collection : Z) (kv : KeyOrValue).

Inductive BlueprintPartitionType : Type := KeyValueCollection | IndexCollection | SortedIndexCollection.

(** ** Interfaces *)

Inductive PartitionDescription : Type :=
| Logical (offset : Z)
| Physical (partition : Z).

Inductive Condition : Type :=
| Always
| IfFeature (feature : Str)
| IfOuterFeature (feature : Str).

Inductive FieldTransience : Type :=
| NotTransient
| TransientStatic (default_value : list Z).

Record FieldSchema (V : Type) : Type := mk_field_schema {
  field : V;
  condition : Condition;
  transience : FieldTransience
}.
Arguments mk_field_schema {V}. Arguments field {V}. Arguments condition {V}. Arguments transience {V}.

Record BlueprintKeyValueSchema (T : Type) : Type := mk_kv_schema {
  kv_key : T;
  kv_value : T;
  kv_allow_ownership : bool
}.
Arguments mk_kv_schema {T}. Arguments kv_key {T}. Arguments kv_value {T}. Arguments kv_allow_ownership {T}.

Inductive BlueprintCollectionSchema (T : Type) : Type :=
| KeyValueStoreSchema (s : BlueprintKeyValueSchema T)
| IndexSchema (s : BlueprintKeyValueSchema T)
| SortedIndexSchema (s : BlueprintKeyValueSchema T).
Arguments KeyValueStoreSchema {T}. Arguments IndexSchema {T}. Arguments SortedIndexSchema {T}.

Definition kv_map {T U} (f : T -> U) (s : BlueprintKeyValueSchema T) : BlueprintKeyValueSchema U :=
  mk_kv_schema (f (kv_key s)) (f (kv_value s)) (kv_allow_ownership s).
Definition collection_map {T U} (f : T -> U) (s : BlueprintCollectionSchema T) : BlueprintCollectionSchema U :=
  match s with
  | IndexSchema s => IndexSchema (kv_map f s)
  | SortedIndexSchema s => SortedIndexSchema (kv_map f s)
  | KeyValueStoreSchema s => KeyValueStoreSchema (kv_map f s)
  end.

Record IndexedStateSchema : Type := mk_state_schema {
  fields : option (PartitionDescription * list (FieldSchema BlueprintPayloadDef));
  collections : list (PartitionDescription * BlueprintCollectionSchema BlueprintPayloadDef);
  num_logical_partitions : Z
}.

Record BlueprintStateSchemaInit : Type := mk_state_init {
  init_fields : list (FieldSchema TypeRef);
  init_collections : list (BlueprintCollectionSchema TypeRef)
}.

(** The receiver of a method and the kinds of references it takes, as flags. *)
Inductive Receiver : Type := SelfRef | SelfRefMut.
Record ReceiverInfo : Type := mk_receiver_info { info_receiver : Receiver; ref_types : Z }.

Record FunctionSchema : Type := mk_function_schema {
  fn_receiver : option ReceiverInfo;
  fn_input : BlueprintPayloadDef;
  fn_output : BlueprintPayloadDef
}.

(** [GenericBound] has the one variant [Any]; [blueprint_type] is left out. *)
Record BlueprintInterface : Type := mk_interface {
  is_transient : bool;
  generics : list unit;
  feature_set : list Str;
  state : IndexedStateSchema;
  functions : IndexMap Str FunctionSchema;
  events : IndexMap Str BlueprintPayloadDef;
  types : IndexMap Str ScopedTypeId
}.

(** *** State schemas *)

(** The collections, from the next logical offset and the index of the first:
    a collection that the system maps has a physical partition. *)
Fixpoint collections_from_schema (schema_hash : SchemaHash) (system_mappings : IndexMap Z Z) (partition_offset index : Z)
    (l : list (BlueprintCollectionSchema TypeRef)) :
    list (PartitionDescription * BlueprintCollectionSchema BlueprintPayloadDef) * Z :=
  match l with
  | [] => ([], partition_offset)
  | collection_schema :: l =>
      let schema := collection_map (from_type_ref schema_hash) collection_schema in
      match im_get index system_mappings with
      | Some partition_num =>
          let r := collections_from_schema schema_hash system_mappings partition_offset (index + 1) l in
          ((Physical partition_num, schema) :: r.1, r.2)
      | None =>
          let r := collections_from_schema schema_hash system_mappings (wrap_u 8 (partition_offset + 1)) (index + 1) l in
          ((Logical partition_offset, schema) :: r.1, r.2)
      end
  end.

Definition from_schema (schema_hash : SchemaHash) (schema : BlueprintStateSchemaInit) (system_mappings : IndexMap Z Z) :
    IndexedStateSchema :=
  let '(fields, partition_offset) :=
    match init_fields schema with
    | [] => (None, 0)
    | l =>
        (Some (Logical 0, (fun f => mk_field_schema (from_type_ref schema_hash (field f)) (condition f) (transience f)) <$> l), 1)
    end in
  let r := collections_from_schema schema_hash system_mappings partition_offset 0 (init_collections schema) in
  mk_state_schema fields r.1 r.2.

Section StateSchema.
Implicit Types (self : IndexedStateSchema).

Definition num_fields self : nat := match fields self with Some (_, indices) => length indices | None => 0%nat end.

Definition get_partition self (collection_index : Z) : option (PartitionDescription * BlueprintPartitionType) :=
  c ← collections self !! Z.to_nat collection_index;
  Some (c.1, match c.2 with
             | KeyValueStoreSchema _ => KeyValueCollection
             | IndexSchema _ => IndexCollection
             | SortedIndexSchema _ => SortedIndexCollection
             end).

Definition get_field_payload_def self (field_index : Z) : option BlueprintPayloadDef :=
  f ← fields self; s ← f.2 !! Z.to_nat field_index; Some (field s).

Definition kv_collection self (collection_index : Z) : option (BlueprintKeyValueSchema BlueprintPayloadDef) :=
  c ← collections self !! Z.to_nat collection_index;
  match c.2 with KeyValueStoreSchema s => Some s | _ => None end.
Definition index_collection self (collection_index : Z) : option (BlueprintKeyValueSchema BlueprintPayloadDef) :=
  c ← collections self !! Z.to_nat collection_index;
  match c.2 with IndexSchema s => Some s | _ => None end.
Definition sorted_index_collection self (collection_index : Z) : option (BlueprintKeyValueSchema BlueprintPayloadDef) :=
  c ← collections self !! Z.to_nat collection_index;
  match c.2 with SortedIndexSchema s => Some s | _ => None end.

Definition get_kv_key_payload_def self (i : Z) : option BlueprintPayloadDef := kv_key <$> kv_collection self i.
Definition get_kv_value_payload_def self (i : Z) : option (BlueprintPayloadDef * bool) :=
  s ← kv_collection self i; Some (kv_value s, kv_allow_ownership s).
Definition get_index_payload_def_key self (i : Z) : option BlueprintPayloadDef := kv_key <$> index_collection self i.
Definition get_index_payload_def_value self (i : Z) : option BlueprintPayloadDef := kv_value <$> index_collection self i.
Definition get_sorted_index_payload_def_key self (i : Z) : option BlueprintPayloadDef :=
  kv_key <$> sorted_index_collection self i.
Definition get_sorted_index_payload_def_value self (i : Z) : option BlueprintPayloadDef :=
  kv_value <$> sorted_index_collection self i.

Definition fields_partition self : option PartitionDescription := fst <$> fields self.
Definition state_field self (field_index : Z) : option (PartitionDescription * FieldSchema BlueprintPayloadDef) :=
  f ← fields self; s ← f.2 !! Z.to_nat field_index; Some (f.1, s).
End StateSchema.

(** *** Payloads of an interface *)

Section Interface.
Implicit Types (self : BlueprintInterface).

Definition find_function self (ident : Str) : option FunctionSchema :=
  x ← im_get ident (functions self); if fn_receiver x then None else Some x.
Definition find_method self (ident : Str) : option FunctionSchema :=
  x ← im_get ident (functions self); if fn_receiver x then Some x else None.

Definition get_function_input_payload_def self (ident : Str) : option BlueprintPayloadDef :=
  fn_input <$> im_get ident (functions self).
Definition get_function_output_payload_def self (ident : Str) : option BlueprintPayloadDef :=
  fn_output <$> im_get ident (functions self).
Definition get_event_payload_def self (event_name : Str) : option BlueprintPayloadDef := im_get event_name (events self).

(** The type of a payload, whether it may own nodes and whether it may refer to
    nodes that are not global. *)
Definition get_payload_def self (payload_identifier : BlueprintPayloadIdentifier) : option (BlueprintPayloadDef * bool * bool) :=
  match payload_identifier with
  | PayloadFunction ident Input => d ← get_function_input_payload_def self ident; Some (d, true, true)
  | PayloadFunction ident Output => d ← get_function_output_payload_def self ident; Some (d, true, true)
  | PayloadField field_index => d ← get_field_payload_def (state self) field_index; Some (d, true, is_transient self)
  | PayloadKeyValueEntry i Key => d ← get_kv_key_payload_def (state self) i; Some (d, false, is_transient self)
  | PayloadKeyValueEntry i Value_ =>
      d ← get_kv_value_payload_def (state self) i; Some (d.1, d.2, is_transient self)
  | PayloadIndexEntry i Key => d ← get_index_payload_def_key (state self) i; Some (d, false, is_transient self)
  | PayloadIndexEntry i Value_ => d ← get_index_payload_def_value (state self) i; Some (d, false, is_transient self)
  | PayloadSortedIndexEntry i Key => d ← get_sorted_index_payload_def_key (state self) i; Some (d, false, is_transient self)
  | PayloadSortedIndexEntry i Value_ =>
      d ← get_sorted_index_payload_def_value (state self) i; Some (d, false, is_transient self)
  | PayloadEvent event_name => d ← get_event_payload_def self event_name; Some (d, false, false)
  end.
End Interface.

(** ** Substates *)

Inductive LockStatus : Type := Unlocked | Locked.

Record FieldSubstate : Type := mk_field_substate { payload : ScryptoValue; field_lock_status : LockStatus }.
Record KeyValueEntrySubstate : Type := mk_entry_substate { entry_value : option ScryptoValue; entry_lock_status : LockStatus }.

Definition new_unlocked_field (v : ScryptoValue) : FieldSubstate := mk_field_substate v Unlocked.
Definition new_locked_field (v : ScryptoValue) : FieldSubstate := mk_field_substate v Locked.
Definition unlocked_entry (v : ScryptoValue) : KeyValueEntrySubstate := mk_entry_substate (Some v) Unlocked.
Definition locked_entry (v : ScryptoValue) : KeyValueEntrySubstate := mk_entry_substate (Some v) Locked.
Definition locked_empty_entry : KeyValueEntrySubstate := mk_entry_substate None Locked.
Definition lock_entry (s : KeyValueEntrySubstate) : KeyValueEntrySubstate := mk_entry_substate (entry_value s) Locked.
Definition is_locked (s : KeyValueEntrySubstate) : bool := match entry_lock_status s with Locked => true | Unlocked => false end.
Definition remove_entry (s : KeyValueEntrySubstate) : option ScryptoValue * KeyValueEntrySubstate :=
  (entry_value s, mk_entry_substate None (entry_lock_status s)).

(** The values that the derived codecs of the substates encode: an enum with the
    one version, a struct. *)
Definition lock_status_value (s : LockStatus) : ScryptoValue := VEnum match s with Unlocked => 0 | Locked => 1 end [].
Definition option_value (o : option ScryptoValue) : ScryptoValue :=
  match o with None => VEnum 0 [] | Some v => VEnum 1 [v] end.
Definition field_substate_value (s : FieldSubstate) : ScryptoValue :=
  VEnum 0 [VTuple [payload s; lock_status_value (field_lock_status s)]].
Definition entry_substate_value (s : KeyValueEntrySubstate) : ScryptoValue :=
  VEnum 0 [VTuple [option_value (entry_value s); lock_status_value (entry_lock_status s)]].

(** ** Theorems *)

Module InterfaceTheorems.

Definition logical_offset (d : PartitionDescription) : list Z := match d with Logical o => [o] | Physical _ => [] end.

Definition logical_offsets (s : IndexedStateSchema) : list Z :=
  (match fields s with Some (d, _) => logical_offset d | None => [] end) ++
  (collections s ≫= (fun c => logical_offset c.1)).

Lemma collections_numbered h m offset index l : 0 <= offset -> offset + Z.of_nat (length l) <= 255 ->
  let r := collections_from_schema h m offset index l in
  (r.1 ≫= (fun c => logical_offset c.1)) = seqZ offset (r.2 - offset) /\ offset <= r.2 <= offset + Z.of_nat (length l) /\
  length r.1 = length l.
Proof.
  cbv zeta. revert offset index. induction l as [|s l IH]; intros offset index H0 Hl; cbn [length] in Hl.
  - cbn. split_and!; [by rewrite Z.sub_diag|lia|lia|done].
  - cbn [collections_from_schema]. destruct (im_get index m) as [p|].
    + destruct (IH offset (index + 1)) as (He & Hr & Hlen); [lia|lia|]. cbn [fst snd mbind list_bind logical_offset app length].
      split_and!; [exact He|lia|lia|by f_equal].
    + assert (wrap_u 8 (offset + 1) = offset + 1) as -> by (unfold wrap_u; apply Z.mod_small; lia).
      destruct (IH (offset + 1) (index + 1)) as (He & Hr & Hlen); [lia|lia|]. cbn [fst snd mbind list_bind logical_offset app length].
      split_and!; [|lia|lia|by f_equal]. rewrite (seqZ_cons offset) by lia. f_equal.
      replace (Z.pred _) with ((collections_from_schema h m (offset + 1) (index + 1) l).2 - (offset + 1)) by lia.
      exact He.
Qed.

(** The partitions of a blueprint's state do not overlap: with fewer than
    255 collections, the logical partitions of the fields and of the collections
    that the system does not map are numbered 0, 1, 2, ... in order, as many as
    the schema says, so that no two of them share a partition; every collection
    keeps its place. *)
Theorem state_partitions_numbered (h : list Z) (s : BlueprintStateSchemaInit) (m : IndexMap Z Z)
    (Hn : Z.of_nat (length (init_collections s)) < 255) :
  logical_offsets (from_schema h s m) = seqZ 0 (num_logical_partitions (from_schema h s m)) /\
  NoDup (logical_offsets (from_schema h s m)) /\
  length (collections (from_schema h s m)) = length (init_collections s).
Proof.
  assert (logical_offsets (from_schema h s m) = seqZ 0 (num_logical_partitions (from_schema h s m)) /\
    length (collections (from_schema h s m)) = length (init_collections s)) as [He Hl].
  2: { split_and!; [done| |done]. rewrite He. apply NoDup_seqZ. }
  unfold from_schema, logical_offsets. destruct (init_fields s) as [|f l]; cbn.
  - destruct (collections_numbered h m 0 0 (init_collections s)) as (He & _ & Hl); [lia|lia|].
    split; [|done]. rewrite He. f_equal. lia.
  - destruct (collections_numbered h m 1 0 (init_collections s)) as (He & Hr & Hl); [lia|lia|].
    split; [|done]. rewrite He, (seqZ_cons 0) by lia. done.
Qed.

Definition sample_state : BlueprintStateSchemaInit :=
  let kv := mk_kv_schema (RefStatic (WellKnown 7)) (RefGeneric 0) true in
  mk_state_init [mk_field_schema (RefStatic (WellKnown 7)) Always NotTransient]
    [KeyValueStoreSchema kv; IndexSchema kv; SortedIndexSchema kv].

(** The second collection is mapped by the system. *)
Lemma state_partitions_numbered_witness :
  logical_offsets (from_schema [] sample_state [(1, 1)]) = [0; 1; 2] /\
  logical_offsets (from_schema [] sample_state [(1, 1)]) = seqZ 0 3.
Proof.
  split; [reflexivity|]. exact (proj1 (state_partitions_numbered [] sample_state [(1, 1)] ltac:(cbn; lia))).
Defined.
End InterfaceTheorems.
