(* ===== verification/TypeChecker.v ===== *)
(** * The type checker of the system

    How the engine finds the schema of a payload and checks the payload against
    it before it is stored, emitted or passed
    (radix-engine/src/system/system_type_checker.rs), with the callers of
    radix-engine/src/system/system.rs that write fields and entries and create
    objects and key value stores up to the node they create.  Substates of the
    store are read through [SystemReads]; the schemas and definitions that were
    read are kept in the caches of the system. *)

From S2P Require Import Authorization.
From S2P Require Import Prelude IndexMap Bytes Sbor SborCustom Text StateUpdates ManifestInstructions NativeInvocations NodeIds.
From S2P Require Import Traversal Schema TypedTraversal SchemaTyping ScryptoSchema BlueprintInterface.
Import Int CodecTheory SborTheory Scrypto Indexed ScryptoExtension TraversalSpec Str(Str, lit).

(** ** Targets *)

Record BlueprintTypeIdentifier : Type := mk_type_identifier {
  type_package : NodeAddress;
  type_blueprint : Str;
  type_ident : Str
}.

Inductive GenericSubstitution : Type :=
| LocalSubstitution (type_id : ScopedTypeId)
| RemoteSubstitution (type_id : BlueprintTypeIdentifier).

(** The outer object and the features are left out. *)
Record BlueprintInfo : Type := mk_blueprint_info {
  info_blueprint_id : BlueprintId;
  generic_substitutions : list GenericSubstitution
}.

Abbreviation Schemas := (IndexMap (list Z) ScryptoSchema).

Inductive SchemaValidationMeta : Type :=
| ExistingObject (additional_schemas : NodeAddress)
| NewObject (additional_schemas : Schemas)
| MetaBlueprint.

Record BlueprintTypeTarget : Type := mk_blueprint_target {
  blueprint_info : BlueprintInfo;
  meta : SchemaValidationMeta
}.

Record KeyValueStoreGenericSubstitutions : Type := mk_kv_substitutions {
  key_generic_substitution : GenericSubstitution;
  value_generic_substitution : GenericSubstitution;
  kv_store_allow_ownership : bool
}.

Record KVStoreTypeTarget : Type := mk_kv_target {
  kv_store_type : KeyValueStoreGenericSubstitutions;
  kv_meta : NodeAddress
}.

Inductive TypeCheckError : Type :=
| InvalidNumberOfGenericArgs (expected actual : nat)
| InvalidLocalTypeId (type_id : LocalTypeId)
| InvalidBlueprintTypeIdentifier (type_id : BlueprintTypeIdentifier)
| InvalidCollectionIndex (info : BlueprintInfo) (collection_index : Z)
| BlueprintPayloadDoesNotExist (info : BlueprintInfo) (ident : BlueprintPayloadIdentifier)
| BlueprintPayloadValidationError (info : BlueprintInfo) (ident : BlueprintPayloadIdentifier)
| KeyValueStorePayloadValidationError (kv : KeyOrValue)
| InstanceSchemaNotFound
| MissingSchema.

Inductive CreateObjectError : Type :=
| InvalidFieldIndex (id : BlueprintId) (index : Z)
| InvalidFieldDueToFeature (id : BlueprintId) (index : Z)
| MissingField (id : BlueprintId) (index : Z).

(** The errors of the system that the checker meets; [KernelError] stands for
    those of the kernel that a read may end with. *)
Inductive RuntimeError : Type :=
| TypeCheckFailed (e : TypeCheckError)
| BlueprintTypeNotFound (name : Str)
| BlueprintDoesNotExist (id : BlueprintId)
| InvalidGenericArgs
| CreateObjectFailed (e : CreateObjectError)
| NotAFieldWriteHandle
| NotAKeyValueEntryWriteHandle
| KernelError.

(** [TypeInfoSubstate], with the parts that validation reads. *)
Inductive TypeInfoSubstate : Type :=
| TypeInfoObject (info : BlueprintInfo)
| TypeInfoKeyValueStore (substitutions : KeyValueStoreGenericSubstitutions)
| TypeInfoGlobalAddressReservation (address : NodeAddress)
| TypeInfoGlobalAddressPhantom (blueprint_id : BlueprintId).

Definition type_info_for_validation (info : TypeInfoSubstate) : TypeInfoForValidation :=
  match info with
  | TypeInfoObject info => InfoObject (package_address (info_blueprint_id info)) (blueprint_name (info_blueprint_id info))
  | TypeInfoKeyValueStore _ => InfoKeyValueStore
  | TypeInfoGlobalAddressReservation _ => InfoGlobalAddressReservation
  | TypeInfoGlobalAddressPhantom blueprint_id => InfoObject (package_address blueprint_id) (blueprint_name blueprint_id)
  end.

(** ** The system *)

(** Reads of the store: the entry of a schema under a node, the definition of a
    blueprint and the type of a node. *)
Class SystemReads : Type := {
  read_schema_entry : NodeAddress -> SchemaHash -> Result RuntimeError (option ScryptoSchema);
  read_definition : BlueprintId -> Result RuntimeError (option BlueprintInterface);
  read_type_info : list Z -> Result RuntimeError TypeInfoSubstate
}.

Record Caches : Type := mk_caches {
  schema_cache : gmap (list Z) ScryptoSchema;
  blueprint_cache : gmap (list Z * list Z) BlueprintInterface
}.

Abbreviation TC := (M Caches RuntimeError) (only parsing).

Definition BLUEPRINT_PAYLOAD_MAX_DEPTH : nat := 48.
Definition KEY_VALUE_STORE_PAYLOAD_MAX_DEPTH : nat := 48.

Section Checker.
Context `{SystemReads}.

Definition get_schema (node_id : NodeAddress) (schema_hash : SchemaHash) : M Caches RuntimeError ScryptoSchema :=
  def ← gets (fun c => schema_cache c !! schema_hash);
  match def with
  | Some schema => mret schema
  | None =>
      substate ← lift_result (read_schema_entry node_id schema_hash);
      schema ← lift_exec (expect substate);
      _ ← modify (fun c => mk_caches (<[schema_hash := schema]> (schema_cache c)) (blueprint_cache c));
      mret schema
  end.

(** [load_blueprint_definition], for the default version. *)
Definition get_blueprint_default_definition (id : BlueprintId) : M Caches RuntimeError BlueprintInterface :=
  let key := (package_address id, blueprint_name id) in
  def ← gets (fun c => blueprint_cache c !! key);
  match def with
  | Some definition => mret definition
  | None =>
      substate ← lift_result (read_definition id);
      match substate with
      | None => throw (BlueprintDoesNotExist id)
      | Some definition =>
          _ ← modify (fun c => mk_caches (schema_cache c) (<[key := definition]> (blueprint_cache c)));
          mret definition
      end
  end.

Definition get_blueprint_type_schema (type_id : BlueprintTypeIdentifier) :
    M Caches RuntimeError (ScryptoSchema * ScopedTypeId) :=
  definition ← get_blueprint_default_definition (mk_blueprint_id (type_package type_id) (type_blueprint type_id));
  scoped_type_id ← lift_result (ok_or (im_get (type_ident type_id) (types definition)) (BlueprintTypeNotFound (type_ident type_id)));
  schema ← get_schema (type_package type_id) scoped_type_id.1;
  mret (schema, scoped_type_id).

(** *** Generic arguments *)

Definition map_err {E E' A} (f : E -> E') (m : M Caches E A) : M Caches E' A := fun c =>
  match m c with
  | Done (Ok a, c) => Done (Ok a, c)
  | Done (Err e, c) => Done (Err (f e), c)
  | Panicked => Panicked
  end.

Definition validate_generic_substitution (schemas : Schemas) (substitution : GenericSubstitution) :
    M Caches TypeCheckError unit :=
  match substitution with
  | LocalSubstitution type_id =>
      schema ← lift_result (ok_or (im_get type_id.1 schemas) MissingSchema);
      match resolve_type_kind schema type_id.2 with
      | None => throw (InvalidLocalTypeId type_id.2)
      | Some _ => mret tt
      end
  | RemoteSubstitution type_id =>
      _ ← map_err (fun _ => InvalidBlueprintTypeIdentifier type_id) (get_blueprint_type_schema type_id);
      mret tt
  end.

Fixpoint validate_generic_substitutions (schemas : Schemas) (l : list GenericSubstitution) : M Caches TypeCheckError unit :=
  match l with
  | [] => mret tt
  | substitution :: l => _ ← validate_generic_substitution schemas substitution; validate_generic_substitutions schemas l
  end.

Definition validate_bp_generic_args (interface : BlueprintInterface) (schemas : Schemas) (l : list GenericSubstitution) :
    M Caches TypeCheckError unit :=
  if negb (length (generics interface) =? length l)%nat
  then throw (InvalidNumberOfGenericArgs (length (generics interface)) (length l))
  else validate_generic_substitutions schemas l.

Definition validate_kv_store_generic_args (schemas : Schemas) (key value : GenericSubstitution) : M Caches TypeCheckError unit :=
  _ ← validate_generic_substitution schemas key;
  _ ← validate_generic_substitution schemas value;
  mret tt.

(** *** Payloads of blueprints *)

Record PayloadSchema : Type := mk_payload_schema {
  payload_schema : ScryptoSchema;
  payload_type : LocalTypeId;
  payload_allow_ownership : bool;
  payload_allow_non_global_ref : bool;
  payload_origin : SchemaOrigin
}.

Definition get_payload_schema (target : BlueprintTypeTarget) (payload_identifier : BlueprintPayloadIdentifier) :
    M Caches RuntimeError PayloadSchema :=
  let info := blueprint_info target in
  interface ← get_blueprint_default_definition (info_blueprint_id info);
  def ← lift_result (ok_or (get_payload_def interface payload_identifier)
    (TypeCheckFailed (BlueprintPayloadDoesNotExist info payload_identifier)));
  let '(payload_def, allow_ownership, allow_non_global_ref) := def in
  match payload_def with
  | PayloadStatic type_identifier =>
      schema ← get_schema (package_address (info_blueprint_id info)) type_identifier.1;
      mret (mk_payload_schema schema type_identifier.2 allow_ownership allow_non_global_ref
        (OriginBlueprint (info_blueprint_id info)))
  | PayloadGeneric instance_index =>
      generic_substitution ← lift_result (ok_or (generic_substitutions info !! Z.to_nat instance_index)
        (TypeCheckFailed InstanceSchemaNotFound));
      match generic_substitution with
      | LocalSubstitution type_id =>
          schema ← match meta target with
                   | ExistingObject additional_schemas => get_schema additional_schemas type_id.1
                   | NewObject additional_schemas =>
                       lift_result (ok_or (im_get type_id.1 additional_schemas) (TypeCheckFailed InstanceSchemaNotFound))
                   | MetaBlueprint => throw (TypeCheckFailed InstanceSchemaNotFound)
                   end;
          mret (mk_payload_schema schema type_id.2 allow_ownership allow_non_global_ref OriginInstance)
      | RemoteSubstitution type_id =>
          r ← get_blueprint_type_schema type_id;
          mret (mk_payload_schema r.1 r.2.2 allow_ownership allow_non_global_ref
            (OriginBlueprint (mk_blueprint_id (type_package type_id) (type_blueprint type_id))))
      end
  end.

Definition type_info_lookup (node_id : list Z) : option TypeInfoForValidation :=
  match read_type_info node_id with Ok info => Some (type_info_for_validation info) | Err _ => None end.

Definition validate_payload (bs : list Z) (schema : ScryptoSchema) (type_id : LocalTypeId) (origin : SchemaOrigin)
    (allow_ownership allow_non_global_ref : bool) (depth_limit : nat) (e : RuntimeError) : M Caches RuntimeError unit :=
  r ← lift_exec (validate_payload_against_schema bs schema type_id
    (mk_context type_info_lookup origin allow_ownership allow_non_global_ref) depth_limit);
  match r with Ok _ => mret tt | Err _ => throw e end.

Definition validate_blueprint_payload (target : BlueprintTypeTarget) (payload_identifier : BlueprintPayloadIdentifier)
    (bs : list Z) : M Caches RuntimeError unit :=
  p ← get_payload_schema target payload_identifier;
  validate_payload bs (payload_schema p) (payload_type p) (payload_origin p) (payload_allow_ownership p)
    (payload_allow_non_global_ref p) BLUEPRINT_PAYLOAD_MAX_DEPTH
    (TypeCheckFailed (BlueprintPayloadValidationError (blueprint_info target) payload_identifier)).

Fixpoint validate_kv_payloads (target : BlueprintTypeTarget) (collection_index : Z) (payloads : list (list Z * list Z)) :
    M Caches RuntimeError unit :=
  match payloads with
  | [] => mret tt
  | (key, value) :: payloads =>
      _ ← validate_blueprint_payload target (PayloadKeyValueEntry collection_index Key) key;
      _ ← validate_blueprint_payload target (PayloadKeyValueEntry collection_index Value_) value;
      validate_kv_payloads target collection_index payloads
  end.

Definition validate_blueprint_kv_collection (target : BlueprintTypeTarget) (collection_index : Z)
    (payloads : list (list Z * list Z)) : M Caches RuntimeError PartitionDescription :=
  interface ← get_blueprint_default_definition (info_blueprint_id (blueprint_info target));
  collection ← lift_result (ok_or (collections (state interface) !! Z.to_nat collection_index)
    (TypeCheckFailed (InvalidCollectionIndex (blueprint_info target) collection_index)));
  _ ← validate_kv_payloads target collection_index payloads;
  mret collection.1.

(** *** Payloads of key value stores *)

Definition validate_kv_store_payload (target : KVStoreTypeTarget) (payload_identifier : KeyOrValue) (bs : list Z) :
    M Caches RuntimeError unit :=
  let t := kv_store_type target in
  let type_substitution := match payload_identifier with Key => key_generic_substitution t | Value_ => value_generic_substitution t end in
  let allow_ownership := match payload_identifier with Key => false | Value_ => kv_store_allow_ownership t end in
  r ← match type_substitution with
      | LocalSubstitution type_id => schema ← get_schema (kv_meta target) type_id.1; mret (schema, type_id.2)
      | RemoteSubstitution type_id => x ← get_blueprint_type_schema type_id; mret (x.1, x.2.2)
      end;
  validate_payload bs r.1 r.2 OriginKeyValueStore allow_ownership false KEY_VALUE_STORE_PAYLOAD_MAX_DEPTH
    (TypeCheckFailed (KeyValueStorePayloadValidationError payload_identifier)).
End Checker.

(** ** Writers *)

Inductive SystemLockData : Type :=
| FieldWrite (target : BlueprintTypeTarget) (field_index : Z)
| KVCollectionWrite (target : BlueprintTypeTarget) (collection_index : Z)
| KVStoreWrite (target : KVStoreTypeTarget)
| OtherLockData.

(** [scrypto_decode(..).expect(..)] *)
Definition decode_value (bs : list Z) : Exec ScryptoValue :=
  r ← scrypto_decode bs; match r with Ok v => Done v | Err _ => Panicked end.

Section Writers.
Context `{SystemReads}.

(** The substate that [field_write] hands to the kernel for a handle with this
    lock data. *)
Definition field_write (data : SystemLockData) (buffer : list Z) : M Caches RuntimeError IndexedScryptoValue :=
  _ ← match data with
      | FieldWrite target field_index => validate_blueprint_payload target (PayloadField field_index) buffer
      | _ => throw NotAFieldWriteHandle
      end;
  value ← lift_exec (decode_value buffer);
  lift_exec (from_scrypto_value (field_substate_value (new_unlocked_field value))).

(** The same for [key_value_entry_set]; [IndexedScryptoValue::from_slice] and
    [as_scrypto_value]. *)
Definition key_value_entry_set (data : SystemLockData) (buffer : list Z) : M Caches RuntimeError IndexedScryptoValue :=
  _ ← match data with
      | KVCollectionWrite target collection_index =>
          validate_blueprint_payload target (PayloadKeyValueEntry collection_index Value_) buffer
      | KVStoreWrite target => validate_kv_store_payload target Value_ buffer
      | _ => throw NotAKeyValueEntryWriteHandle
      end;
  substate ← lift_exec (r ← indexed_new buffer; match r with Ok i => Done i | Err _ => Panicked end);
  value ← lift_exec (to_scrypto_value substate);
  lift_exec (from_scrypto_value (entry_substate_value (unlocked_entry value))).
End Writers.

(** *** New objects *)

Record FieldValue : Type := mk_field_value { fv_value : list Z; fv_locked : bool }.
Record KVEntry : Type := mk_kv_entry { kve_value : option (list Z); kve_locked : bool }.
Record GenericArgs : Type := mk_generic_args {
  additional_schema : option ScryptoSchema;
  arg_substitutions : list GenericSubstitution
}.

(** Partitions and their substates; the order of keys is left out. *)
Abbreviation NodeSubstates := (IndexMap Z (IndexMap SubstateKey IndexedScryptoValue)).

Definition partition_number (base_partition_num : Z) (d : PartitionDescription) : Exec Z :=
  match d with
  | Physical partition_num => Done partition_num
  | Logical offset => expect (checked_u 8 (base_partition_num + offset))
  end.

(** A raw value is kept as the value it encodes. *)
Fixpoint field_substates (schema : IndexedStateSchema) (l : list (Z * FieldValue)) (acc : IndexMap SubstateKey IndexedScryptoValue) :
    Exec (IndexMap SubstateKey IndexedScryptoValue) :=
  match l with
  | [] => Done acc
  | (index, f) :: l =>
      field_schema ← expect (state_field schema index);
      match transience field_schema.2 with
      | TransientStatic _ => field_substates schema l acc
      | NotTransient =>
          value ← decode_value (fv_value f);
          substate ← from_scrypto_value (field_substate_value
            (if fv_locked f then new_locked_field value else new_unlocked_field value));
          field_substates schema l (im_insert (Field index) substate acc)
      end
  end.

Fixpoint entry_substates (l : list (list Z * KVEntry)) (acc : IndexMap SubstateKey IndexedScryptoValue) :
    Exec (IndexMap SubstateKey IndexedScryptoValue) :=
  match l with
  | [] => Done acc
  | (key, e) :: l =>
      match kve_value e with
      | Some bs =>
          value ← decode_value bs;
          substate ← from_scrypto_value (entry_substate_value
            (if kve_locked e then locked_entry value else unlocked_entry value));
          entry_substates l (im_insert (Map key) substate acc)
      | None =>
          if kve_locked e then
            substate ← from_scrypto_value (entry_substate_value locked_empty_entry);
            entry_substates l (im_insert (Map key) substate acc)
          else entry_substates l acc
      end
  end.

Fixpoint collection_substates (schema : IndexedStateSchema) (base_partition_num : Z)
    (l : list (Z * IndexMap (list Z) KVEntry)) (partitions : NodeSubstates) : Exec NodeSubstates :=
  match l with
  | [] => Done partitions
  | (collection_index, substates) :: l =>
      d ← expect (get_partition schema collection_index);
      partition_num ← partition_number base_partition_num d.1;
      partition ← entry_substates substates [];
      collection_substates schema base_partition_num l (im_insert partition_num partition partitions)
  end.

Definition system_struct_to_node_substates (schema : IndexedStateSchema) (field_values : IndexMap Z FieldValue)
    (kv_entries : IndexMap Z (IndexMap (list Z) KVEntry)) (base_partition_num : Z) : Exec NodeSubstates :=
  partitions ←
    match field_values with
    | [] => Done []
    | _ =>
        d ← expect (fields_partition schema);
        partition_num ← partition_number base_partition_num d;
        field_partition ← field_substates schema field_values [];
        Done [(partition_num, field_partition)]
    end;
  collection_substates schema base_partition_num kv_entries partitions.

Definition SCHEMAS_PARTITION : Z := 1.
Definition OBJECT_BASE_PARTITION : Z := 64.

Section NewObject.
Context `{SystemReads}.
(** The hash of a schema, and its entry as the derived codec encodes it. *)
Context (generate_schema_hash : ScryptoSchema -> SchemaHash) (schema_entry : ScryptoSchema -> IndexedScryptoValue).

(** The field at an index is there when its condition says so. *)
Definition required_field (id : BlueprintId) (index : Z) (present : bool) (maybe_field : option FieldValue) :
    Result RuntimeError (option FieldValue) :=
  match present, maybe_field with
  | false, Some _ => Err (CreateObjectFailed (InvalidFieldDueToFeature id index))
  | true, None => Err (CreateObjectFailed (MissingField id index))
  | false, None => Ok None
  | true, Some field_value => Ok (Some field_value)
  end.

Definition is_present (features outer_features : list Str) (c : Condition) : bool :=
  match c with
  | Always => true
  | IfFeature feature => bool_decide (feature ∈ features)
  | IfOuterFeature feature => bool_decide (feature ∈ outer_features)
  end.

Fixpoint validate_fields (target : BlueprintTypeTarget) (features outer_features : list Str) (field_values : IndexMap Z FieldValue)
    (i : Z) (l : list (FieldSchema BlueprintPayloadDef)) : M Caches RuntimeError unit :=
  match l with
  | [] => mret tt
  | f :: l =>
      let index := wrap_u 8 i in
      r ← lift_result (required_field (info_blueprint_id (blueprint_info target)) index
        (is_present features outer_features (condition f)) (im_get index field_values));
      _ ← match r with
          | Some field_value => validate_blueprint_payload target (PayloadField index) (fv_value field_value)
          | None => mret tt
          end;
      validate_fields target features outer_features field_values (i + 1) l
  end.

Definition entry_payloads (entries : IndexMap (list Z) KVEntry) : list (list Z * list Z) :=
  omap (fun e => (fun v => (e.1, v)) <$> kve_value e.2) entries.

Fixpoint validate_collections (target : BlueprintTypeTarget) (l : list (Z * IndexMap (list Z) KVEntry)) :
    M Caches RuntimeError unit :=
  match l with
  | [] => mret tt
  | (collection_index, entries) :: l =>
      _ ← validate_blueprint_kv_collection target collection_index (entry_payloads entries);
      validate_collections target l
  end.

(** An empty collection for each one that is not given. *)
Fixpoint fill_collections (n : nat) (i : Z) (kv_entries : IndexMap Z (IndexMap (list Z) KVEntry)) :
    IndexMap Z (IndexMap (list Z) KVEntry) :=
  match n with
  | O => kv_entries
  | S n =>
      let index := wrap_u 8 i in
      fill_collections n (i + 1) match im_get index kv_entries with Some _ => kv_entries | None => im_insert index [] kv_entries end
  end.

Definition schemas_of_args (schema : option ScryptoSchema) : M Caches RuntimeError Schemas :=
  match schema with
  | Some schema =>
      match validate_schema schema with
      | Ok _ => mret [(generate_schema_hash schema, schema)]
      | Err _ => throw InvalidGenericArgs
      end
  | None => mret []
  end.

Fixpoint schema_substates (l : Schemas) (acc : IndexMap SubstateKey IndexedScryptoValue) :
    Exec (IndexMap SubstateKey IndexedScryptoValue) :=
  match l with
  | [] => Done acc
  | (schema_hash, schema) :: l =>
      key ← scrypto_encode (VArray KU8 (VU8 <$> schema_hash));
      match key with
      | Ok key => schema_substates l (im_insert (Map key) (schema_entry schema) acc)
      | Err _ => Panicked
      end
  end.

Definition validate_new_object (blueprint_id : BlueprintId) (interface : BlueprintInterface)
    (features outer_object_features : list Str) (args : GenericArgs) (field_values : IndexMap Z FieldValue)
    (kv_entries : IndexMap Z (IndexMap (list Z) KVEntry)) : M Caches RuntimeError (BlueprintInfo * NodeSubstates) :=
  additional_schemas ← schemas_of_args (additional_schema args);
  _ ← map_err TypeCheckFailed (validate_bp_generic_args interface additional_schemas (arg_substitutions args));
  let info := mk_blueprint_info blueprint_id (arg_substitutions args) in
  let target := mk_blueprint_target info (NewObject additional_schemas) in
  _ ← lift_result
        match List.find (fun i => (num_fields (state interface) <=? Z.to_nat i)%nat) field_values.*1 with
        | Some i => Err (CreateObjectFailed (InvalidFieldIndex blueprint_id i))
        | None => Ok tt
        end;
  _ ← match fields (state interface) with
      | Some (_, field_schemas) => validate_fields target features outer_object_features field_values 0 field_schemas
      | None => mret tt
      end;
  _ ← validate_collections target kv_entries;
  let kv_entries := fill_collections (length (collections (state interface))) 0 kv_entries in
  node_substates ← lift_exec (system_struct_to_node_substates (state interface) field_values kv_entries OBJECT_BASE_PARTITION);
  schema_partition ← lift_exec (schema_substates additional_schemas (default [] (im_get SCHEMAS_PARTITION node_substates)));
  mret (info, im_insert SCHEMAS_PARTITION schema_partition node_substates).

(** *** New key value stores *)

Inductive KeyValueStoreDataSchema : Type :=
| LocalDataSchema (schema : ScryptoSchema) (key_type value_type : LocalTypeId) (allow_ownership : bool)
| RemoteDataSchema (key_type value_type : BlueprintTypeIdentifier) (allow_ownership : bool).

(** [key_value_store_new], up to the node it creates. *)
Definition key_value_store_new (data_schema : KeyValueStoreDataSchema) :
    M Caches RuntimeError (KeyValueStoreGenericSubstitutions * IndexMap SubstateKey IndexedScryptoValue) :=
  r ← match data_schema with
      | LocalDataSchema schema key_type value_type allow_ownership =>
          additional_schemas ← schemas_of_args (Some schema);
          let schema_hash := generate_schema_hash schema in
          mret (additional_schemas, LocalSubstitution (schema_hash, key_type), LocalSubstitution (schema_hash, value_type),
            allow_ownership)
      | RemoteDataSchema key_type value_type allow_ownership =>
          mret ([], RemoteSubstitution key_type, RemoteSubstitution value_type, allow_ownership)
      end;
  let '(additional_schemas, key_type, value_type, allow_ownership) := r in
  _ ← map_err TypeCheckFailed (validate_kv_store_generic_args additional_schemas key_type value_type);
  schema_partition ← lift_exec (schema_substates additional_schemas []);
  mret (mk_kv_substitutions key_type value_type allow_ownership, schema_partition).
End NewObject.

(** ** Lemmas *)

Module CheckerTheory.
Lemma bind_run {S E A B} (m : M S E A) (f : A -> M S E B) s a s' : m s = Done (Ok a, s') -> (m ≫= f) s = f a s'.
Proof. unfold mbind, M_bind. by intros ->. Qed.
Lemma bind_err {S E A B} (m : M S E A) (f : A -> M S E B) s e s' : m s = Done (Err e, s') -> (m ≫= f) s = Done (Err e, s').
Proof. unfold mbind, M_bind. by intros ->. Qed.
Lemma bind_panic {S E A B} (m : M S E A) (f : A -> M S E B) s : m s = Panicked -> (m ≫= f) s = Panicked.
Proof. unfold mbind, M_bind. by intros ->. Qed.

Import TypingSpec TypingTheory ContextTheory IndexedTheory TraversalTheory.
Section Theory.
Context `{SystemReads}.
Implicit Types (c : Caches) (t : BlueprintTypeTarget) (ti : BlueprintTypeIdentifier).

(** The schemas the system stores passed their validation when they were
    published or attached, and so did those it has cached. *)
Definition stored_schemas_valid : Prop := forall n h s, read_schema_entry n h = Ok (Some s) -> validate_schema s = Ok tt.
Definition caches_valid c : Prop := forall h s, schema_cache c !! h = Some s -> validate_schema s = Ok tt.
Definition target_valid t : Prop :=
  match meta t with NewObject l => forall h s, im_get h l = Some s -> validate_schema s = Ok tt | _ => True end.

(** Caches only grow. *)
Definition extends c c' : Prop := schema_cache c ⊆ schema_cache c' /\ blueprint_cache c ⊆ blueprint_cache c'.

#[export] Instance extends_preorder : PreOrder extends.
Proof. split; [by intros c; split|]. intros c1 c2 c3 [? ?] [? ?]. by split; etrans. Qed.

Context (Hstored : stored_schemas_valid).

Lemma get_schema_run n h c : caches_valid c -> wlp (get_schema n h) c (fun s c' =>
  validate_schema s = Ok tt /\ caches_valid c' /\ extends c c' /\ schema_cache c' !! h = Some s).
Proof using Hstored.
  intros Hc. unfold get_schema. apply wlp_bind, wlp_gets. destruct (schema_cache c !! h) as [s|] eqn:Hh.
  - apply wlp_ret. by split_and!; [eapply Hc| |done|].
  - apply wlp_bind, wlp_lift_result. intros o Ho. apply wlp_bind, wlp_lift_exec. intros s Hs.
    destruct o as [s'|]; [|done]. injection Hs as ->. apply wlp_bind, wlp_modify, wlp_ret. cbn.
    assert (validate_schema s = Ok tt) as Hv by by eapply Hstored. split_and!; [done| | |by apply lookup_insert_eq].
    + intros h' s'. cbn. intros [[<- <-]|[? ?]]%lookup_insert_Some; [done|by eapply Hc].
    + split; [|done]. by apply insert_subseteq.
Qed.

Lemma get_schema_cached n h c s : schema_cache c !! h = Some s -> get_schema n h c = Done (Ok s, c).
Proof using. clear. intros Hs. unfold get_schema, mbind, M_bind. cbn. by rewrite Hs. Qed.

Abbreviation definition_key id := (package_address id, blueprint_name id).

Lemma get_definition_run id c : wlp (get_blueprint_default_definition id) c (fun d c' =>
  schema_cache c' = schema_cache c /\ extends c c' /\ blueprint_cache c' !! definition_key id = Some d).
Proof using.
  clear Hstored. unfold get_blueprint_default_definition. apply wlp_bind, wlp_gets.
  destruct (blueprint_cache c !! _) as [d|] eqn:Hd; [by apply wlp_ret|].
  apply wlp_bind, wlp_lift_result. intros [d|] _; [|by apply wlp_throw]. apply wlp_bind, wlp_modify, wlp_ret. cbn.
  split_and!; [done| |by apply lookup_insert_eq]. split; [done|]. by apply insert_subseteq.
Qed.

Lemma get_definition_cached id c d : blueprint_cache c !! definition_key id = Some d ->
  get_blueprint_default_definition id c = Done (Ok d, c).
Proof using. clear. intros Hd. unfold get_blueprint_default_definition, mbind, M_bind. cbn. by rewrite Hd. Qed.

(** A registered type that was found is found again, without a read. *)
Definition type_cached ti c (r : ScryptoSchema * ScopedTypeId) : Prop :=
  exists d, blueprint_cache c !! (type_package ti, type_blueprint ti) = Some d /\
    im_get (type_ident ti) (types d) = Some r.2 /\ schema_cache c !! r.2.1 = Some r.1.

Lemma type_cached_run ti c c' r : type_cached ti c r -> extends c c' -> get_blueprint_type_schema ti c' = Done (Ok r, c').
Proof using.
  clear Hstored. destruct r as [s x]. intros (d & Hd & Hx & Hs) [He1 He2]. unfold get_blueprint_type_schema.
  rewrite (bind_run (get_blueprint_default_definition _) _ c' d c') by (apply get_definition_cached, (lookup_weaken _ _ _ _ Hd), He2).
  rewrite Hx. rewrite (bind_run (lift_result (ok_or (Some x) _)) _ c' x c') by done.
  by rewrite (bind_run (get_schema (type_package ti) x.1) _ c' s c') by apply get_schema_cached, (lookup_weaken _ _ _ _ Hs), He1.
Qed.

Lemma get_type_schema_run ti c : caches_valid c -> wlp (get_blueprint_type_schema ti) c (fun r c' =>
  validate_schema r.1 = Ok tt /\ caches_valid c' /\ extends c c' /\ type_cached ti c' r).
Proof using Hstored.
  intros Hc. unfold get_blueprint_type_schema at 1. apply wlp_bind.
  eapply wlp_mono; [apply get_definition_run|]. intros d c1 (Hs & He & Hd).
  apply wlp_bind, wlp_lift_result. intros x Hx. apply wlp_bind.
  eapply wlp_mono; [apply get_schema_run|]; [intros h s; rewrite Hs; apply Hc|]. intros s c2 (Hv & Hc2 & He2 & Hs2).
  apply wlp_ret. split; [exact Hv|]. split; [done|]. split; [by etrans|]. exists d.
  unfold ok_or in Hx. destruct (im_get _ _); [|done]. injection Hx as ->.
  split_and!; [by apply (lookup_weaken _ _ _ _ Hd), He2|done|done].
Qed.

(** The schema of a payload, its rights as the interface of the blueprint
    gives them. *)
Definition rights_of (interface : BlueprintInterface) (ident : BlueprintPayloadIdentifier) (p : PayloadSchema) : Prop :=
  exists d, get_payload_def interface ident = Some (d, payload_allow_ownership p, payload_allow_non_global_ref p).

Lemma get_payload_schema_run t ident c : caches_valid c -> target_valid t -> wlp (get_payload_schema t ident) c (fun p c' =>
  validate_schema (payload_schema p) = Ok tt /\ exists interface,
  blueprint_cache c' !! definition_key (info_blueprint_id (blueprint_info t)) = Some interface /\ rights_of interface ident p).
Proof using Hstored.
  intros Hc Ht. unfold get_payload_schema. apply wlp_bind.
  eapply wlp_mono; [apply get_definition_run|]. intros interface c1 (Hs & He & Hi).
  assert (caches_valid c1) as Hc1 by (intros h s; rewrite Hs; apply Hc).
  apply wlp_bind, wlp_lift_result. intros [[def own] refs] Hdef.
  assert (get_payload_def interface ident = Some (def, own, refs)) as Hpd.
  { unfold ok_or in Hdef. by destruct (get_payload_def interface ident); [injection Hdef as ->|]. }
  assert (forall s ty o c', validate_schema s = Ok tt -> extends c1 c' ->
    validate_schema (payload_schema (mk_payload_schema s ty own refs o)) = Ok tt /\ exists interface,
    blueprint_cache c' !! definition_key (info_blueprint_id (blueprint_info t)) = Some interface /\
    rights_of interface ident (mk_payload_schema s ty own refs o)) as Hdone.
  { intros s ty o c' Hv [_ Hb]. split; [done|]. exists interface. split; [by eapply lookup_weaken|]. by exists def. }
  destruct def as [ty|i].
  - apply wlp_bind. eapply wlp_mono; [by apply get_schema_run|]. intros s c2 (Hv & _ & He2 & _). by apply wlp_ret, Hdone.
  - apply wlp_bind, wlp_lift_result. intros [ty|ti] _.
    + apply wlp_bind. unfold target_valid in Ht. destruct (meta t) as [n|l|].
      * eapply wlp_mono; [by apply get_schema_run|]. intros s c2 (Hv & _ & He2 & _). by apply wlp_ret, Hdone.
      * apply wlp_lift_result. intros s Hsch. apply wlp_ret, Hdone; [|done].
        unfold ok_or in Hsch. destruct (im_get _ _) eqn:Hg; [|done]. injection Hsch as ->. by eapply Ht.
      * apply wlp_throw.
    + apply wlp_bind. eapply wlp_mono; [by apply get_type_schema_run|]. intros [s sc] c2 (Hv & _ & He2 & _). by apply wlp_ret, Hdone.
Qed.

Lemma validate_payload_run bs s id o own refs mx e c : wlp (validate_payload bs s id o own refs mx e) c (fun _ c' => c' = c /\
  validate_payload_against_schema bs s id (mk_context type_info_lookup o own refs) mx = Done (Ok tt)).
Proof using.
  clear Hstored. unfold validate_payload. apply wlp_bind, wlp_lift_exec. intros [[]|err] Hr; [by apply wlp_ret|apply wlp_throw].
Qed.

(** What a value may hold. *)
Definition respects (own refs_ : bool) (v : ScryptoValue) : Prop :=
  (own = false -> owns v = []) /\ (refs_ = false -> Forall (fun n => NodeId.is_global n = true) (refs v)).

(** A payload that was accepted: it decodes, has the depth of payloads at most,
    and respects its rights. *)
Definition accepted (bs : list Z) (own refs_ : bool) (v : ScryptoValue) : Prop :=
  scrypto_decode bs = Done (Ok v) /\ (value_ok v = true /\ encodable v = true /\ (value_depth v <= 48)%nat) /\
  indexed_new bs = Done (Ok (mk_indexed bs (refs v) (owns v))) /\ respects own refs_ v.

Lemma payload_accepted bs s id o own refs_ : validate_schema s = Ok tt -> bytes_ok bs = true ->
  validate_payload_against_schema bs s id (mk_context type_info_lookup o own refs_) 48 = Done (Ok tt) ->
  exists v, accepted bs own refs_ v.
Proof using.
  clear Hstored. intros Hs Hb Hv.
  destruct (accepted_contained s (mk_context type_info_lookup o own refs_) id bs 48 Hs Hb) as (v & Hd & Hok & Hi & Hc);
    [unfold SCRYPTO_SBOR_V1_MAX_DEPTH; lia|done|]. by exists v.
Qed.

Lemma blueprint_payload_accepted t ident bs c : caches_valid c -> target_valid t -> bytes_ok bs = true ->
  wlp (validate_blueprint_payload t ident bs) c (fun _ c' => exists interface d own refs_ v,
    blueprint_cache c' !! definition_key (info_blueprint_id (blueprint_info t)) = Some interface /\
    get_payload_def interface ident = Some (d, own, refs_) /\ accepted bs own refs_ v).
Proof using Hstored.
  intros Hc Ht Hb. unfold validate_blueprint_payload. apply wlp_bind.
  eapply wlp_mono; [by apply get_payload_schema_run|]. intros p c1 (Hv & interface & Hi & d & Hd).
  eapply wlp_mono; [apply validate_payload_run|]. intros [] c2 [-> Hr].
  destruct (payload_accepted _ _ _ _ _ _ Hv Hb Hr) as [v Ha]. by exists interface, d, (payload_allow_ownership p), (payload_allow_non_global_ref p), v.
Qed.

Lemma kv_store_payload_accepted (target : KVStoreTypeTarget) ident bs c : caches_valid c -> bytes_ok bs = true ->
  wlp (validate_kv_store_payload target ident bs) c (fun _ _ => exists v,
    accepted bs match ident with Key => false | Value_ => kv_store_allow_ownership (kv_store_type target) end false v).
Proof using Hstored.
  intros Hc Hb. unfold validate_kv_store_payload. apply wlp_bind.
  apply wlp_mono with (Q := fun r _ => validate_schema r.1 = Ok tt).
  - destruct (match ident with Key => _ | Value_ => _ end) as [ty|ti]; apply wlp_bind.
    + eapply wlp_mono; [by apply get_schema_run|]. intros s c2 (Hv & _). by apply wlp_ret.
    + eapply wlp_mono; [by apply get_type_schema_run|]. intros r c2 (Hv & _). by apply wlp_ret.
  - intros r c1 Hv. eapply wlp_mono; [apply validate_payload_run|]. intros [] c2 [-> Hr]. by eapply payload_accepted.
Qed.

(** *** Generic arguments *)

Lemma wlp_map_err {E A} (f : RuntimeError -> E) (m : M Caches RuntimeError A) c Q : wlp m c Q -> wlp (map_err f m) c Q.
Proof using. clear. unfold wlp, map_err. by destruct (m c) as [[[a|e] c']|]. Qed.

(** A generic argument for which a schema is found. *)
Definition usable (l : Schemas) c (sub : GenericSubstitution) : Prop :=
  match sub with
  | LocalSubstitution ty => exists s k, im_get ty.1 l = Some s /\ resolve_type_kind s ty.2 = Some k
  | RemoteSubstitution ti => exists r, validate_schema r.1 = Ok tt /\ type_cached ti c r
  end.

Lemma usable_extends l c c' sub : extends c c' -> usable l c sub -> usable l c' sub.
Proof using.
  clear Hstored. intros [He1 He2]. destruct sub as [ty|ti]; [done|]. intros (r & Hv & d & Hd & Hx & Hs). exists r. split; [done|].
  exists d. split_and!; [by apply (lookup_weaken _ _ _ _ Hd)|done|by apply (lookup_weaken _ _ _ _ Hs)].
Qed.

Lemma generic_substitution_run l sub c : caches_valid c -> wlp (validate_generic_substitution l sub) c (fun _ c' =>
  caches_valid c' /\ extends c c' /\ usable l c' sub).
Proof using Hstored.
  intros Hc. destruct sub as [ty|ti]; cbn [validate_generic_substitution usable]; apply wlp_bind.
  - apply wlp_lift_result. intros s Hs. destruct (resolve_type_kind s ty.2) as [k|] eqn:Hk; [|apply wlp_throw].
    apply wlp_ret. split_and!; [done|done|]. exists s, k. split; [|done].
    unfold ok_or in Hs. by destruct (im_get ty.1 l); [injection Hs as ->|].
  - apply wlp_map_err. eapply wlp_mono; [by apply get_type_schema_run|]. intros r c' (Hv & Hc' & He & Ht).
    apply wlp_ret. split_and!; [done|done|]. by exists r.
Qed.

Lemma generic_substitutions_run l subs c : caches_valid c -> wlp (validate_generic_substitutions l subs) c (fun _ c' =>
  caches_valid c' /\ extends c c' /\ Forall (usable l c') subs).
Proof using Hstored.
  revert c. induction subs as [|sub subs IH]; intros c Hc; cbn [validate_generic_substitutions].
  - apply wlp_ret. split_and!; [done|done|constructor].
  - apply wlp_bind. eapply wlp_mono; [by apply generic_substitution_run|]. intros [] c1 (Hc1 & He1 & Hu).
    eapply wlp_mono; [by apply IH|]. intros [] c2 (Hc2 & He2 & Hus).
    split_and!; [done|by etrans|]. constructor; [by eapply usable_extends|done].
Qed.
End Theory.

(** *** Substates of accepted payloads *)

Lemma indexed_encoded (w : ScryptoValue) : value_ok w = true -> encodable w = true ->
  (value_depth w <= SCRYPTO_SBOR_V1_MAX_DEPTH)%nat ->
  indexed_new (SCRYPTO_SBOR_V1_PAYLOAD_PREFIX :: field_bytes w) =
    Done (Ok (mk_indexed (SCRYPTO_SBOR_V1_PAYLOAD_PREFIX :: field_bytes w) (refs w) (owns w))).
Proof.
  intros Hok He Hd. destruct (encoded_events (mk_config SCRYPTO_SBOR_V1_MAX_DEPTH true) SCRYPTO_SBOR_V1_PAYLOAD_PREFIX w
    scrypto_nonempty Hok He Hd eq_refl) as [Hends Hlen].
  unfold indexed_new. rewrite (index_loop_end _ _ _ _ _ eq_refl Hends Hlen). cbn. rewrite index_fold. cbn. unfold refs, owns.
  by rewrite customs_events.
Qed.

Lemma wrapped_substate (w v : ScryptoValue) (n : nat) : value_ok w = true -> encodable w = true -> value_depth w = (n + value_depth v)%nat ->
  customs w = customs v -> (value_depth v <= 48)%nat -> (n <= 16)%nat ->
  exists bs, from_scrypto_value w = Done (mk_indexed bs (refs v) (owns v)) /\ scrypto_decode bs = Done (Ok w).
Proof.
  intros Hok He Hd Hc Hv Hn. unfold from_scrypto_value, scrypto_encode.
  pose proof (encode_limit_spec SCRYPTO_SBOR_V1_PAYLOAD_PREFIX SCRYPTO_SBOR_V1_MAX_DEPTH w Hok) as Henc.
  rewrite He in Henc. assert ((value_depth w <=? SCRYPTO_SBOR_V1_MAX_DEPTH)%nat = true) as Hle.
  { apply Nat.leb_le. rewrite Hd. unfold SCRYPTO_SBOR_V1_MAX_DEPTH. lia. }
  rewrite Hle in Henc. cbn [andb] in Henc. rewrite Henc. cbn [mbind Exec_bind].
  assert (scrypto_decode (SCRYPTO_SBOR_V1_PAYLOAD_PREFIX :: field_bytes w) = Done (Ok w)) as Hdec.
  { apply decode_limit_complete; [exact Hok|exact He|by apply Nat.leb_le]. }
  rewrite indexed_encoded; [|exact Hok|exact He|by apply Nat.leb_le]. eexists. split; [|exact Hdec].
  cbn [mbind Exec_bind]. unfold refs, owns. by rewrite Hc.
Qed.
End CheckerTheory.

(** ** Theorems *)

Module CheckerTheorems.
Import TypingSpec TypingTheory ContextTheory CheckerTheory.

Section Payloads.
Context `{SystemReads}.

(** C9. A payload that the type checker accepts for a place of a blueprint
    holds what the place may hold: it decodes, within the depth of payloads;
    events and the keys and index entries of collections own no node; events
    refer only to global nodes, and so does every stored payload of a blueprint
    that is not transient; values of key value collections own nodes only where
    the collection allows it. *)
Theorem blueprint_payload_contained (Hs : stored_schemas_valid) (c c' : Caches) (Hc : caches_valid c) (t : BlueprintTypeTarget)
    (Ht : target_valid t) (ident : BlueprintPayloadIdentifier) (bs : list Z) (Hb : bytes_ok bs = true)
    (Hv : validate_blueprint_payload t ident bs c = Done (Ok tt, c')) :
  exists v interface, scrypto_decode bs = Done (Ok v) /\ (value_depth v <= BLUEPRINT_PAYLOAD_MAX_DEPTH)%nat /\
    indexed_new bs = Done (Ok (mk_indexed bs (refs v) (owns v))) /\
    blueprint_cache c' !! (package_address (info_blueprint_id (blueprint_info t)), blueprint_name (info_blueprint_id (blueprint_info t))) =
      Some interface /\
    match ident with
    | PayloadEvent _ => owns v = [] /\ Forall (fun n => NodeId.is_global n = true) (refs v)
    | PayloadFunction _ _ => True
    | PayloadField _ => is_transient interface = false -> Forall (fun n => NodeId.is_global n = true) (refs v)
    | PayloadKeyValueEntry i Value_ =>
        (is_transient interface = false -> Forall (fun n => NodeId.is_global n = true) (refs v)) /\
        (forall s, kv_collection (state interface) i = Some s -> kv_allow_ownership s = false -> owns v = [])
    | _ => (is_transient interface = false -> Forall (fun n => NodeId.is_global n = true) (refs v)) /\ owns v = []
    end.
Proof.
  destruct (wlp_run _ _ _ _ _ (blueprint_payload_accepted Hs t ident bs c Hc Ht Hb) Hv)
    as (interface & d & own & refs_ & v & Hi & Hd & Hdec & (_ & _ & Hdp) & Hind & Hown & Hrefs).
  exists v, interface. split; [done|]. split; [done|]. split; [done|]. split; [done|].
  destruct ident as [f io|e|f|i [|]|i [|]|i [|]]; [done|..]; cbn in Hd; apply bind_Some in Hd as (x & Hx & Hd); simplify_eq;
    try (by split; auto); try (by auto).
  split; [done|]. intros s Hs' Hno. unfold get_kv_value_payload_def in Hx. rewrite Hs' in Hx. cbn in Hx. simplify_eq. auto.
Qed.

(** C16. A key value store holds no reference to a node that is not global, its
    keys own nothing, and its values own nodes only where the store allows it:
    every payload that the checker accepts for a store is such a value. *)
Theorem kv_store_payload_contained (Hs : stored_schemas_valid) (c c' : Caches) (Hc : caches_valid c) (t : KVStoreTypeTarget)
    (ident : KeyOrValue) (bs : list Z) (Hb : bytes_ok bs = true)
    (Hv : validate_kv_store_payload t ident bs c = Done (Ok tt, c')) :
  exists v, scrypto_decode bs = Done (Ok v) /\ (value_depth v <= KEY_VALUE_STORE_PAYLOAD_MAX_DEPTH)%nat /\
    Forall (fun n => NodeId.is_global n = true) (refs v) /\
    (ident = Key \/ kv_store_allow_ownership (kv_store_type t) = false -> owns v = []).
Proof.
  destruct (wlp_run _ _ _ _ _ (kv_store_payload_accepted Hs t ident bs c Hc Hb) Hv) as (v & Hdec & (_ & _ & Hdp) & _ & Hown & Hrefs).
  exists v. split_and!; [done|done|by apply Hrefs|]. destruct ident; intros [?|?]; try done; by apply Hown.
Qed.

(** C13. Generic arguments that were checked can be used: for a new object whose
    arguments passed [validate_bp_generic_args], the schema of every payload
    that the interface types by a generic parameter is found, is valid, and is
    found without reading the store again, whatever else is cached meanwhile;
    a local argument resolves in its schema. *)
Theorem generic_payloads_resolve (Hs : stored_schemas_valid) (c c1 c2 : Caches) (Hc : caches_valid c) (id : BlueprintId)
    (interface : BlueprintInterface) (l : Schemas) (Hl : forall h s, im_get h l = Some s -> validate_schema s = Ok tt)
    (subs : list GenericSubstitution) (Hv : validate_bp_generic_args interface l subs c = Done (Ok tt, c1))
    (He : extends c1 c2) (Hi : blueprint_cache c2 !! (package_address id, blueprint_name id) = Some interface)
    (ident : BlueprintPayloadIdentifier) (i : Z) (own refs_ : bool)
    (Hd : get_payload_def interface ident = Some (PayloadGeneric i, own, refs_))
    (Hi' : 0 <= i < Z.of_nat (length (generics interface))) :
  exists p, get_payload_schema (mk_blueprint_target (mk_blueprint_info id subs) (NewObject l)) ident c2 = Done (Ok p, c2) /\
    validate_schema (payload_schema p) = Ok tt /\
    payload_allow_ownership p = own /\ payload_allow_non_global_ref p = refs_ /\
    (forall ty, subs !! Z.to_nat i = Some (LocalSubstitution ty) -> exists k, resolve_type_kind (payload_schema p) (payload_type p) = Some k).
Proof.
  unfold validate_bp_generic_args in Hv. destruct (Nat.eqb_spec (length (generics interface)) (length subs)) as [Hlen|]; [|done].
  destruct (wlp_run _ _ _ _ _ (generic_substitutions_run Hs l subs c Hc) Hv) as (_ & _ & Hu).
  destruct (lookup_lt_is_Some_2 subs (Z.to_nat i)) as [sub Hsub]; [lia|].
  pose proof (usable_extends l c1 c2 sub He (Forall_lookup_1 _ _ _ _ Hu Hsub)) as Hus. unfold get_payload_schema. cbn [blueprint_info info_blueprint_id].
  rewrite (bind_run (get_blueprint_default_definition id) _ c2 interface c2) by by apply get_definition_cached.
  rewrite Hd. rewrite (bind_run (lift_result (ok_or (Some _) _)) _ c2 (PayloadGeneric i, own, refs_) c2) by done.
  cbn [generic_substitutions meta]. rewrite Hsub. rewrite (bind_run (lift_result (ok_or (Some _) _)) _ c2 sub c2) by done.
  destruct sub as [ty|ti].
  - destruct Hus as (s & k & Hg & Hk). rewrite Hg. rewrite (bind_run (lift_result (ok_or (Some _) _)) _ c2 s c2) by done.
    eexists. split; [done|]. cbn. split_and!; [by eapply Hl|done|done|]. intros _ _. by exists k.
  - destruct Hus as (r & Hvr & Hr). rewrite (bind_run (get_blueprint_type_schema ti) _ c2 r c2) by by apply (type_cached_run _ _ _ _ Hr).
    eexists. split; [done|]. cbn. split_and!; [done..|]. intros ty Hty. congruence.
Qed.

(** C31. A checked field is written: where the check of [field_write] accepts
    the buffer, decoding it and encoding the substate around it never panic (the
    depth left for payloads leaves room for the substate); the substate decodes
    to the unlocked field with the value, and lists exactly the nodes that the
    value refers to and owns.  Where the check fails, so does the write, with
    the error of the check. *)
Theorem field_write_exact (Hs : stored_schemas_valid) (c : Caches) (Hc : caches_valid c) (t : BlueprintTypeTarget)
    (Ht : target_valid t) (i : Z) (buffer : list Z) (Hb : bytes_ok buffer = true) :
  match validate_blueprint_payload t (PayloadField i) buffer c with
  | Done (Ok _, c') => exists v bs, scrypto_decode buffer = Done (Ok v) /\
      field_write (FieldWrite t i) buffer c = Done (Ok (mk_indexed bs (refs v) (owns v)), c') /\
      scrypto_decode bs = Done (Ok (field_substate_value (new_unlocked_field v)))
  | Done (Err e, c') => field_write (FieldWrite t i) buffer c = Done (Err e, c')
  | Panicked => field_write (FieldWrite t i) buffer c = Panicked
  end.
Proof.
  pose proof (blueprint_payload_accepted Hs t (PayloadField i) buffer c Hc Ht Hb) as Ha. unfold wlp in Ha. unfold field_write.
  destruct (validate_blueprint_payload t (PayloadField i) buffer c) as [[[[]|e] c']|] eqn:Hv;
    [|by apply bind_err|by apply bind_panic].
  destruct Ha as (interface & d & own & refs_ & v & _ & _ & Hd & (Hok & He & Hdp) & _).
  destruct (wrapped_substate (field_substate_value (new_unlocked_field v)) v 2) as (bs & Hw & Hdec).
  { cbn. by rewrite Hok. } { cbn. by rewrite He. } { unfold value_depth. cbn. lia. } { cbn. by rewrite !app_nil_r. } { done. } { lia. }
  exists v, bs. split; [done|]. split; [|done]. rewrite (bind_run (validate_blueprint_payload _ _ _) _ c tt c' Hv).
  rewrite (bind_run (lift_exec (decode_value buffer)) _ c' v c') by (unfold decode_value; by rewrite Hd).
  by rewrite Hw.
Qed.

(** C39. A checked entry is written, in a collection of a blueprint and in a key
    value store, on valid schemas: where the check accepts the buffer, nothing
    panics, and the substate is the unlocked entry with the value that the buffer
    decodes to and lists exactly the nodes that the value refers to and owns;
    where the check refuses it, the write fails with the error of the check. *)
Theorem entry_set_exact (Hs : stored_schemas_valid) (c : Caches) (Hc : caches_valid c) (data : SystemLockData)
    (Ht : match data with KVCollectionWrite t _ => target_valid t | _ => True end) (buffer : list Z) (Hb : bytes_ok buffer = true) :
  let checked := match data with
    | KVCollectionWrite t i => validate_blueprint_payload t (PayloadKeyValueEntry i Value_) buffer
    | KVStoreWrite t => validate_kv_store_payload t Value_ buffer
    | _ => throw NotAKeyValueEntryWriteHandle
    end in
  match checked c with
  | Done (Ok _, c') => exists v bs, scrypto_decode buffer = Done (Ok v) /\
      key_value_entry_set data buffer c = Done (Ok (mk_indexed bs (refs v) (owns v)), c') /\
      scrypto_decode bs = Done (Ok (entry_substate_value (unlocked_entry v)))
  | Done (Err e, c') => key_value_entry_set data buffer c = Done (Err e, c')
  | Panicked => key_value_entry_set data buffer c = Panicked
  end.
Proof.
  intros checked. assert (wlp checked c (fun _ _ => exists own refs_ v, accepted buffer own refs_ v)) as Ha.
  { subst checked. destruct data as [t i|t i|t|]; try apply wlp_throw.
    - eapply wlp_mono; [by apply blueprint_payload_accepted|]. intros _ c1 (? & ? & own & refs_ & v & _ & _ & Hv). by exists own, refs_, v.
    - eapply wlp_mono; [by apply kv_store_payload_accepted|]. intros _ c1 (v & Hv). by eexists _, _, v. }
  unfold wlp in Ha. unfold key_value_entry_set. fold checked.
  destruct (checked c) as [[[[]|e] c']|] eqn:Hv; [|by apply bind_err|by apply bind_panic].
  destruct Ha as (own & refs_ & v & Hd & (Hok & He & Hdp) & Hi & _).
  destruct (wrapped_substate (entry_substate_value (unlocked_entry v)) v 3) as (bs & Hw & Hdec).
  { cbn. by rewrite Hok. } { cbn. by rewrite He. } { unfold value_depth. cbn. lia. } { cbn. by rewrite !app_nil_r. } { done. } { lia. }
  exists v, bs. split; [done|]. split; [|done]. rewrite (bind_run checked _ c tt c' Hv).
  match goal with |- (lift_exec ?x ≫= _) c' = _ =>
    rewrite (bind_run (lift_exec x) _ c' (mk_indexed buffer (refs v) (owns v)) c') by (by rewrite Hi) end.
  match goal with |- (lift_exec ?x ≫= _) c' = _ =>
    rewrite (bind_run (lift_exec x) _ c' v c') by (unfold to_scrypto_value; cbn [bytes]; by rewrite Hd) end.
  by rewrite Hw.
Qed.

(** A payload of a type of objects of the package itself is accepted exactly
    when it owns one node that matches, under the package that the context
    gives to the type. *)
Lemma own_payload_exact (s : ScryptoSchema) (Hs : validate_schema s = Ok tt) (id : LocalTypeId) (b : Str)
    (Hk : resolve_type_kind s id = Some (TyCustom OwnKind))
    (Hv : resolve_type_validation s id = Some (ValCustom (ValidateOwn (IsTypedObject None b))))
    (context : ValidationContext) (bs : list Z) (Hb : bytes_ok bs = true) :
  exists r, validate_payload_against_schema bs s id context 48 = Done r /\
    (r = Ok tt <-> ScryptoExtension.allow_ownership context = true /\
      exists n info, scrypto_decode bs = Done (Ok (VCustom (SOwn n))) /\
        get_node_type_info context n = Some info /\ matches_with_origin info None b (schema_origin context) = true).
Proof.
  destruct (payload_exact s Hs id context ltac:(by eexists _, _) IndexedTheory.scrypto_nonempty bs 48 Hb ltac:(lia))
    as (r & Hrun & Hok & _).
  exists r. split; [exact Hrun|]. rewrite Hok. clear r Hrun Hok. split.
  - intros (v & Hd & Hty).
    destruct (decode_limit_sound (X := ScryptoCustomValueKind) (Y := ScryptoCustomValue) SCRYPTO_SBOR_V1_PAYLOAD_PREFIX 48 bs Hb)
      as (r & Hd' & Hsound).
    change (decode_with_depth_limit SCRYPTO_SBOR_V1_PAYLOAD_PREFIX 48 bs = Done (Ok v)) in Hd.
    rewrite Hd in Hd'. injection Hd' as <-. destruct (Hsound v eq_refl) as (Hvo & He & Hdp & ->).
    assert (scrypto_decode (SCRYPTO_SBOR_V1_PAYLOAD_PREFIX :: field_bytes v) = Done (Ok v)) as Hdec
      by (apply decode_limit_complete; [done|done|unfold SCRYPTO_SBOR_V1_MAX_DEPTH; lia]).
    destruct Hty as [id v val Hl (k & Hk' & Hm)|id y _ Hy|id v hd l val Hk'|id types l val Hk'|id variants types d l val Hk'
      |id el k l val Hk'|id k1 k2 x1 x2 l val Hk']; try congruence.
    + rewrite Hk in Hk'. injection Hk' as <-. by destruct v.
    + cbn in Hy. unfold apply_lookup_validation in Hy. destruct (is_allowed context y) eqn:Hal; [|done]. rewrite Hv in Hy.
      cbn [apply_custom_validation_to_custom_value] in Hy. destruct y as [n|n|x|x|x]; try done. unfold resolve_type_info in Hy.
      destruct (get_node_type_info context n) as [info|] eqn:Hi; [|done].
      cbn [mbind Result_bind own_is_valid] in Hy. destruct (matches_with_origin info None b (schema_origin context)) eqn:Hmt; [|done].
      split; [done|]. by exists n, info.
  - intros (Hal & n & info & Hd & Hi & Hm). exists (VCustom (SOwn n)).
    destruct (decode_limit_sound (X := ScryptoCustomValueKind) (Y := ScryptoCustomValue) SCRYPTO_SBOR_V1_PAYLOAD_PREFIX
      SCRYPTO_SBOR_V1_MAX_DEPTH bs Hb) as (r & Hd' & Hsound).
    change (decode_with_depth_limit SCRYPTO_SBOR_V1_PAYLOAD_PREFIX SCRYPTO_SBOR_V1_MAX_DEPTH bs = Done (Ok (VCustom (SOwn n)))) in Hd.
    rewrite Hd in Hd'. injection Hd' as <-. destruct (Hsound _ eq_refl) as (Hvo & He & _ & ->).
    split; [apply decode_limit_complete; [done|done|unfold value_depth; cbn; lia]|].
    apply type_custom; [by exists (TyCustom OwnKind)|]. cbn. unfold apply_lookup_validation. cbn [is_allowed]. rewrite Hal, Hv.
    cbn [negb apply_custom_validation_to_custom_value]. unfold resolve_type_info. rewrite Hi. cbn [mbind Result_bind own_is_valid].
    by rewrite Hm.
Qed.

(** C40. A key value store with a registered type that is an object of the
    package of the type can never hold a value: the checker judges the type as
    one of no package, so that every payload is refused, though a blueprint
    with the same type as its generic argument takes it as of its package: the
    checker then accepts exactly the payloads that own an object of that
    blueprint of the package, where the payload may own nodes at all. *)
Theorem registered_self_type_refused (c : Caches) (t : KVStoreTypeTarget) (ti : BlueprintTypeIdentifier)
    (Hti : value_generic_substitution (kv_store_type t) = RemoteSubstitution ti) (s : ScryptoSchema) (h : list Z) (id : LocalTypeId)
    (b : Str) (Hr : type_cached ti c (s, (h, id))) (Hs : validate_schema s = Ok tt)
    (Hk : resolve_type_kind s id = Some (TyCustom OwnKind))
    (Hv : resolve_type_validation s id = Some (ValCustom (ValidateOwn (IsTypedObject None b)))) (bs : list Z) (Hb : bytes_ok bs = true) :
  validate_kv_store_payload t Value_ bs c = Done (Err (TypeCheckFailed (KeyValueStorePayloadValidationError Value_)), c) /\
  forall target ident interface i own refs_, let blueprint := info_blueprint_id (blueprint_info target) in
    blueprint_cache c !! (package_address blueprint, blueprint_name blueprint) = Some interface ->
    get_payload_def interface ident = Some (PayloadGeneric i, own, refs_) ->
    generic_substitutions (blueprint_info target) !! Z.to_nat i = Some (RemoteSubstitution ti) ->
    get_payload_schema target ident c = Done (Ok (mk_payload_schema s id own refs_
      (OriginBlueprint (mk_blueprint_id (type_package ti) (type_blueprint ti)))), c) /\
    (validate_blueprint_payload target ident bs c = Done (Ok tt, c) <->
      own = true /\ exists n, scrypto_decode bs = Done (Ok (VCustom (SOwn n))) /\
        type_info_lookup n = Some (InfoObject (type_package ti) b)).
Proof.
  assert (get_blueprint_type_schema ti c = Done (Ok (s, (h, id)), c)) as Hschema by by apply (type_cached_run _ c c _ Hr).
  split.
  - unfold validate_kv_store_payload. rewrite Hti.
    rewrite (bind_run _ _ c (s, id) c) by (by rewrite (bind_run (get_blueprint_type_schema ti) _ c (s, (h, id)) c)).
    cbn [fst snd]. unfold validate_payload, KEY_VALUE_STORE_PAYLOAD_MAX_DEPTH.
    set (context := mk_context _ _ _ _).
    destruct (own_payload_exact s Hs id b Hk Hv context bs Hb) as (r & Hrun & Hok). rewrite Hrun.
    destruct r as [[]|e]; [|done]. exfalso. by destruct (proj1 Hok eq_refl) as (_ & n & info & _ & _ & ?).
  - intros target ident interface i own refs_ blueprint Hi Hdef Hg.
    assert (get_payload_schema target ident c = Done (Ok (mk_payload_schema s id own refs_
      (OriginBlueprint (mk_blueprint_id (type_package ti) (type_blueprint ti)))), c)) as Hp.
    { unfold get_payload_schema.
      rewrite (bind_run (get_blueprint_default_definition _) _ c interface c) by by apply get_definition_cached.
      rewrite Hdef. rewrite (bind_run (lift_result (ok_or (Some (PayloadGeneric i, own, refs_)) _)) _ c (PayloadGeneric i, own, refs_) c) by done.
      cbn [fst snd]. rewrite Hg.
      rewrite (bind_run (lift_result (ok_or (Some (RemoteSubstitution ti)) _)) _ c (RemoteSubstitution ti) c) by done.
      by rewrite (bind_run (get_blueprint_type_schema ti) _ c (s, (h, id)) c). }
    split; [exact Hp|]. unfold validate_blueprint_payload. rewrite (bind_run _ _ _ _ _ Hp).
    cbn [payload_schema payload_type payload_origin payload_allow_ownership payload_allow_non_global_ref].
    unfold validate_payload, BLUEPRINT_PAYLOAD_MAX_DEPTH. set (context := mk_context _ _ _ _).
    destruct (own_payload_exact s Hs id b Hk Hv context bs Hb) as (r & Hrun & Hok). rewrite Hrun.
    assert ((r = Ok tt) <-> (own = true /\ exists n, scrypto_decode bs = Done (Ok (VCustom (SOwn n))) /\
      type_info_lookup n = Some (InfoObject (type_package ti) b))) as <-.
    { rewrite Hok. subst context. cbn [ScryptoExtension.allow_ownership get_node_type_info schema_origin].
      split; intros [Hown Hx]; (split; [exact Hown|]).
      - destruct Hx as (n & info & Hd & Hinfo & Hm). exists n. split; [exact Hd|]. rewrite Hinfo.
        destruct info as [pk bl| |]; [|discriminate Hm..]. apply andb_prop in Hm as [Hm1 Hm2].
        apply bool_decide_eq_true in Hm1. apply bool_decide_eq_true in Hm2. cbn [package_address] in Hm1. congruence.
      - destruct Hx as (n & Hd & Hinfo). exists n, (InfoObject (type_package ti) b). split; [exact Hd|]. split; [exact Hinfo|].
        cbn [matches_with_origin info_matches package_address]. by rewrite !bool_decide_eq_true_2. }
    destruct r as [[]|e]; [by split|]. split; intros Hx; discriminate Hx.
Qed.
End Payloads.

(** *** A system with one blueprint *)

Definition note_schema : ScryptoSchema :=
  mk_schema [TyTuple [WellKnown 0x85; WellKnown 0x0c]] [metadata_struct_fields (lit "Note") [lit "resource"; lit "text"]] [NoValidation].
Definition note_value : ScryptoValue := VTuple [VCustom (SReference RORK); VString [104; 105]].
Definition note_bytes : list Z := [0x5c; 0x21; 2; 0x80] ++ RORK ++ [0x0c; 2; 104; 105].
Definition self_schema : ScryptoSchema :=
  mk_schema [TyCustom OwnKind] [metadata_unnamed] [ValCustom (ValidateOwn (IsTypedObject None (lit "Thing")))].

Definition sample_package : NodeAddress := 13 :: repeat 1 29.
Definition sample_id : BlueprintId := mk_blueprint_id sample_package (lit "Sample").
Definition sample_interface : BlueprintInterface :=
  mk_interface false [tt] []
    (mk_state_schema (Some (Logical 0, [mk_field_schema (PayloadStatic ([9], SchemaLocalIndex 0)) Always NotTransient]))
       [(Logical 1, KeyValueStoreSchema (mk_kv_schema (PayloadStatic ([9], WellKnown 0x0c)) (PayloadGeneric 0) false))] 2)
    [] [(lit "Noted", PayloadStatic ([9], SchemaLocalIndex 0))] [(lit "Thing", ([8], SchemaLocalIndex 0))].

Definition sample_system : SystemReads := {|
  read_schema_entry _ h := Ok (if bool_decide (h = [9]) then Some note_schema else if bool_decide (h = [8]) then Some self_schema else None);
  read_definition id := Ok (if bool_decide (id = sample_id) then Some sample_interface else None);
  read_type_info _ := Ok (TypeInfoObject (mk_blueprint_info (mk_blueprint_id RESOURCE_PACKAGE (lit "FungibleResourceManager")) []))
|}.
Definition no_caches : Caches := mk_caches ∅ ∅.
Definition sample_target (l : Schemas) : BlueprintTypeTarget :=
  mk_blueprint_target (mk_blueprint_info sample_id [LocalSubstitution ([9], SchemaLocalIndex 0)]) (NewObject l).

Lemma sample_stored : stored_schemas_valid (H := sample_system).
Proof. intros n h s. cbn. repeat case_bool_decide; intros [= <-]; reflexivity. Qed.
Lemma no_caches_valid : caches_valid no_caches.
Proof. intros h s. cbn. by rewrite lookup_empty. Qed.
Lemma note_valid h s : im_get h [([9], note_schema)] = Some s -> validate_schema s = Ok tt.
Proof. cbn. destruct (decide (h = [9])); [intros [= <-]; reflexivity|done]. Qed.
Lemma sample_target_valid : target_valid (sample_target [([9], note_schema)]).
Proof. exact note_valid. Qed.

Definition run {A} (m : M Caches RuntimeError A) : Exec (Result RuntimeError A) :=
  match m no_caches with Done (r, _) => Done r | Panicked => Panicked end.

Lemma blueprint_payload_contained_witness :
  run (validate_blueprint_payload (H := sample_system) (sample_target []) (PayloadEvent (lit "Noted")) note_bytes) = Done (Ok tt) /\
  owns note_value = [] /\ refs note_value = [RORK] /\ Forall (fun n => NodeId.is_global n = true) (refs note_value).
Proof.
  split; [vm_compute; reflexivity|].
  destruct (validate_blueprint_payload (H := sample_system) (sample_target []) (PayloadEvent (lit "Noted")) note_bytes no_caches)
    as [[[[]|e] c']|] eqn:Hv; [|exfalso; vm_compute in Hv; discriminate Hv..].
  destruct (blueprint_payload_contained (H := sample_system) sample_stored no_caches c' no_caches_valid (sample_target [])
    ltac:(intros h s Hg; discriminate Hg) (PayloadEvent (lit "Noted")) note_bytes eq_refl Hv) as (v & interface & Hd & _ & _ & _ & Ho & Hr).
  assert (v = note_value) as -> by (vm_compute in Hd; injection Hd as <-; reflexivity).
  split; [exact Ho|]. split; [reflexivity|exact Hr].
Defined.

Definition sample_store (l r : GenericSubstitution) : KVStoreTypeTarget := mk_kv_target (mk_kv_substitutions l r true) (248 :: repeat 2 29).
Definition note_store : KVStoreTypeTarget :=
  sample_store (LocalSubstitution ([9], SchemaLocalIndex 0)) (LocalSubstitution ([9], SchemaLocalIndex 0)).

Lemma kv_store_payload_contained_witness :
  run (validate_kv_store_payload (H := sample_system) note_store Key note_bytes) = Done (Ok tt) /\ owns note_value = [].
Proof.
  split; [vm_compute; reflexivity|].
  destruct (validate_kv_store_payload (H := sample_system) note_store Key note_bytes no_caches)
    as [[[[]|e] c']|] eqn:Hv; [|exfalso; vm_compute in Hv; discriminate Hv..].
  destruct (kv_store_payload_contained (H := sample_system) sample_stored no_caches c' no_caches_valid note_store
    Key note_bytes eq_refl Hv) as (v & Hd & _ & _ & Ho).
  assert (v = note_value) as -> by (vm_compute in Hd; injection Hd as <-; reflexivity). by apply Ho; left.
Defined.

Lemma generic_payloads_resolve_witness : exists c2 p,
  get_payload_schema (H := sample_system) (sample_target [([9], note_schema)]) (PayloadKeyValueEntry 0 Value_) c2 = Done (Ok p, c2) /\
  validate_schema (payload_schema p) = Ok tt.
Proof.
  set (c2 := mk_caches ∅ {[ (sample_package, lit "Sample") := sample_interface ]}). exists c2.
  destruct (generic_payloads_resolve (H := sample_system) sample_stored no_caches no_caches c2 no_caches_valid sample_id sample_interface
    [([9], note_schema)] note_valid [LocalSubstitution ([9], SchemaLocalIndex 0)] eq_refl
    ltac:(split; apply map_empty_subseteq) ltac:(apply lookup_singleton_eq) (PayloadKeyValueEntry 0 Value_) 0 false false eq_refl
    ltac:(cbn; lia)) as (p & Hp & Hv & _).
  by exists p.
Defined.

Lemma field_write_exact_witness : exists v bs c',
  field_write (H := sample_system) (FieldWrite (sample_target []) 0) note_bytes no_caches =
    Done (Ok (mk_indexed bs (refs v) (owns v)), c') /\ scrypto_decode note_bytes = Done (Ok v).
Proof.
  pose proof (field_write_exact (H := sample_system) sample_stored no_caches no_caches_valid (sample_target [])
    ltac:(intros h s Hg; discriminate Hg) 0 note_bytes eq_refl) as Hw.
  destruct (validate_blueprint_payload (H := sample_system) (sample_target []) (PayloadField 0) note_bytes no_caches)
    as [[[[]|e] c']|] eqn:Hv; [|exfalso; vm_compute in Hv; discriminate Hv..].
  destruct Hw as (v & bs & Hd & Hw & _). exists v, bs, c'. split; [exact Hw|exact Hd].
Defined.

Lemma entry_set_exact_witness : exists v bs c',
  key_value_entry_set (H := sample_system) (KVStoreWrite note_store) note_bytes no_caches =
    Done (Ok (mk_indexed bs (refs v) (owns v)), c') /\ scrypto_decode note_bytes = Done (Ok v).
Proof.
  pose proof (entry_set_exact (H := sample_system) sample_stored no_caches no_caches_valid (KVStoreWrite note_store) I note_bytes eq_refl) as Hw.
  cbv zeta in Hw.
  destruct (validate_kv_store_payload (H := sample_system) note_store Value_ note_bytes no_caches)
    as [[[[]|e] c']|] eqn:Hv; [|exfalso; vm_compute in Hv; discriminate Hv..].
  destruct Hw as (v & bs & Hd & Hw & _). exists v, bs, c'. split; [exact Hw|exact Hd].
Defined.

(** A thing of the package, as the value of a generic entry that may own nodes,
    and of a store. *)
Definition thing_id : BlueprintTypeIdentifier := mk_type_identifier sample_package (lit "Sample") (lit "Thing").
Definition thing_interface : BlueprintInterface :=
  mk_interface false [tt] []
    (mk_state_schema None
       [(Logical 0, KeyValueStoreSchema (mk_kv_schema (PayloadStatic ([9], WellKnown 0x0c)) (PayloadGeneric 0) true))] 1)
    [] [] [(lit "Thing", ([8], SchemaLocalIndex 0))].
Definition thing_caches : Caches :=
  mk_caches {[ [8] := self_schema ]} {[ (sample_package, lit "Sample") := thing_interface ]}.
Definition thing_bytes : list Z := [0x5c; 0x90; 248] ++ repeat 3 29.
Definition thing_system : SystemReads := {|
  read_schema_entry _ _ := Ok (Some self_schema);
  read_definition _ := Ok (Some thing_interface);
  read_type_info _ := Ok (TypeInfoObject (mk_blueprint_info (mk_blueprint_id sample_package (lit "Thing")) []))
|}.
Definition thing_store : KVStoreTypeTarget := sample_store (LocalSubstitution ([9], WellKnown 0x0c)) (RemoteSubstitution thing_id).
Definition thing_target : BlueprintTypeTarget :=
  mk_blueprint_target (mk_blueprint_info sample_id [RemoteSubstitution thing_id]) (NewObject []).

Lemma registered_self_type_refused_witness :
  validate_kv_store_payload (H := thing_system) thing_store Value_ thing_bytes thing_caches =
    Done (Err (TypeCheckFailed (KeyValueStorePayloadValidationError Value_)), thing_caches) /\
  validate_blueprint_payload (H := thing_system) thing_target (PayloadKeyValueEntry 0 Value_) thing_bytes thing_caches =
    Done (Ok tt, thing_caches).
Proof.
  assert (type_cached thing_id thing_caches (self_schema, ([8], SchemaLocalIndex 0))) as Hc.
  { exists thing_interface. split; [apply lookup_singleton_eq|]. split; [reflexivity|apply lookup_singleton_eq]. }
  destruct (registered_self_type_refused (H := thing_system) thing_caches thing_store thing_id eq_refl self_schema [8] (SchemaLocalIndex 0)
    (lit "Thing") Hc eq_refl eq_refl eq_refl thing_bytes eq_refl) as [Hkv Hbp].
  split; [exact Hkv|].
  destruct (Hbp thing_target (PayloadKeyValueEntry 0 Value_) thing_interface 0 true false) as [_ Hiff];
    [apply lookup_singleton_eq|reflexivity|reflexivity|].
  apply Hiff. split; [reflexivity|]. exists (248 :: repeat 3 29). split; vm_compute; reflexivity.
Defined.
End CheckerTheorems.
