(* ===== verification/ManifestInterpreter.v ===== *)
(** * The static interpreter of manifests

    The validation of a manifest before execution that supersedes the basic
    validator of [IdValidator]
    (radix-transactions/src/manifest/static_manifest_interpreter.rs): it follows
    the effects of the instructions, keeps the state of every bucket, proof,
    address reservation, named address and child intent, and reports each event
    to a visitor, which may stop it.  Names of objects and the text of error
    messages are left out. *)

From S2P Require Import Authorization.
From S2P Require Import Prelude Decimals IndexMap Bytes Sbor SborCustom Traversal ResourceConstraints ManifestInstructions.
Import Int Dec.
Import Manifest(ManifestValue, ManifestCustomValue, ManifestCustomValueKind, ManifestExpression, MAddress, MBucket,
  MProof, MExpression, MBlob, MDecimal, MPreciseDecimal, MNonFungibleLocalId, MAddressReservation, Static, Named,
  EntireWorktop, EntireAuthZone, manifest_encode, MANIFEST_SBOR_V1_PAYLOAD_PREFIX, MANIFEST_SBOR_V1_MAX_DEPTH,
  manifest_custom_value_kind, manifest_custom_value, manifest_laws).

(** ** State *)

Inductive ManifestLocation : Type :=
| Preamble
| InstructionLocation (index : Z).

Record BucketState : Type := mk_bucket_state {
  bucket_source_amount : BucketSourceAmount;
  bucket_created_at : ManifestLocation;
  proof_locks : Z;
  bucket_consumed_at : option ManifestLocation
}.

Record ProofState : Type := mk_proof_state {
  proof_source_amount : ProofSourceAmount;
  proof_created_at : ManifestLocation;
  proof_consumed_at : option ManifestLocation
}.

Record AddressReservationState : Type := mk_reservation_state {
  reservation_package_address : list Z;
  reservation_blueprint_name : list Z;
  preallocated_address : option (list Z);
  reservation_created_at : ManifestLocation;
  reservation_consumed_at : option ManifestLocation
}.

Record NamedAddressState : Type := mk_named_address_state {
  associated_reservation : option Z;
  named_address_created_at : ManifestLocation
}.

Inductive IntentType : Type := Child.

Record IntentState : Type := mk_intent_state {
  intent_hash : list Z;
  intent_type : IntentType;
  intent_created_at : ManifestLocation
}.

Inductive NextInstructionRequirement : Type :=
| NoRequirement
| RequiredInvocationDueToNextCallAssertion.

Record ValidationRuleset : Type := mk_ruleset {
  validate_no_duplicate_blobs : bool;
  validate_blob_refs : bool;
  validate_bucket_proof_lock : bool;
  validate_no_dangling_nodes : bool;
  validate_dynamic_address_in_command_part : bool;
  validate_resource_assertions : bool
}.

Definition ruleset_all : ValidationRuleset := mk_ruleset true true true true true true.
Definition ruleset_babylon_equivalent : ValidationRuleset := mk_ruleset false false true false false false.
Definition ruleset_cuttlefish : ValidationRuleset := mk_ruleset true true true true true true.

Inductive InterpreterValidationRulesetSpecifier : Type := AllValidations | Cuttlefish.
Definition for_specifier (specifier : InterpreterValidationRulesetSpecifier) : ValidationRuleset :=
  match specifier with AllValidations => ruleset_all | Cuttlefish => ruleset_cuttlefish end.

Inductive ManifestValidationError : Type :=
| DuplicateBlob (blob : list Z)
| BlobNotRegistered (blob : list Z)
| BucketNotYetCreated (b : Z)
| BucketAlreadyUsed (b : Z)
| BucketConsumedWhilstLockedByProof (b : Z)
| ProofNotYetCreated (p : Z)
| ProofAlreadyUsed (p : Z)
| AddressReservationNotYetCreated (r : Z)
| AddressReservationAlreadyUsed (r : Z)
| NamedAddressNotYetCreated (a : Z)
| ChildIntentNotRegistered (i : Z)
| DanglingBucket (b : Z)
| DanglingAddressReservation (r : Z)
| ArgsEncodeError (e : EncodeError)
| ArgsDecodeError (e : DecodeError)
| InstructionNotSupportedInTransactionIntent
| SubintentDoesNotEndWithYieldToParent
| ProofCannotBePassedToAnotherIntent
| TooManyInstructions
| InvalidResourceConstraint
| InstructionFollowingNextCallAssertionWasNotInvocation
| ManifestEndedWhilstExpectingNextCallAssertion.

Record StaticManifestInterpreter : Type := mk_interpreter {
  location : ManifestLocation;
  registered_blobs : list (list Z);
  bucket_state : list BucketState;
  proof_state : list ProofState;
  address_reservation_state : list AddressReservationState;
  named_address_state : list NamedAddressState;
  intent_state : list IntentState;
  next_instruction_requirement : NextInstructionRequirement
}.

Definition interpreter_new : StaticManifestInterpreter := mk_interpreter Preamble [] [] [] [] [] [] NoRequirement.

Section Setters.
Context (s : StaticManifestInterpreter).
Definition with_location l := mk_interpreter l (registered_blobs s) (bucket_state s) (proof_state s)
  (address_reservation_state s) (named_address_state s) (intent_state s) (next_instruction_requirement s).
Definition with_blobs b := mk_interpreter (location s) b (bucket_state s) (proof_state s)
  (address_reservation_state s) (named_address_state s) (intent_state s) (next_instruction_requirement s).
Definition with_bucket_state b := mk_interpreter (location s) (registered_blobs s) b (proof_state s)
  (address_reservation_state s) (named_address_state s) (intent_state s) (next_instruction_requirement s).
Definition with_proof_state p := mk_interpreter (location s) (registered_blobs s) (bucket_state s) p
  (address_reservation_state s) (named_address_state s) (intent_state s) (next_instruction_requirement s).
Definition with_reservation_state r := mk_interpreter (location s) (registered_blobs s) (bucket_state s) (proof_state s)
  r (named_address_state s) (intent_state s) (next_instruction_requirement s).
Definition with_named_address_state a := mk_interpreter (location s) (registered_blobs s) (bucket_state s) (proof_state s)
  (address_reservation_state s) a (intent_state s) (next_instruction_requirement s).
Definition with_intent_state i := mk_interpreter (location s) (registered_blobs s) (bucket_state s) (proof_state s)
  (address_reservation_state s) (named_address_state s) i (next_instruction_requirement s).
Definition with_requirement q := mk_interpreter (location s) (registered_blobs s) (bucket_state s) (proof_state s)
  (address_reservation_state s) (named_address_state s) (intent_state s) q.
End Setters.

Definition set_consumed (l : ManifestLocation) (b : BucketState) : BucketState :=
  mk_bucket_state (bucket_source_amount b) (bucket_created_at b) (proof_locks b) (Some l).
Definition set_proof_consumed (l : ManifestLocation) (p : ProofState) : ProofState :=
  mk_proof_state (proof_source_amount p) (proof_created_at p) (Some l).
Definition set_reservation_consumed (l : ManifestLocation) (r : AddressReservationState) : AddressReservationState :=
  mk_reservation_state (reservation_package_address r) (reservation_blueprint_name r) (preallocated_address r)
    (reservation_created_at r) (Some l).
(** [proof_locks += d] on a [u32]. *)
Definition add_locks (d : Z) (b : BucketState) : BucketState :=
  mk_bucket_state (bucket_source_amount b) (bucket_created_at b) (wrap_u 32 (proof_locks b + d)) (bucket_consumed_at b).

(** ** The visitor *)

(** [ManifestInterpretationVisitor] on a state [V], with its output type [E]. *)
Class ManifestInterpretationVisitor (V E : Type) : Type := {
  from_validation_error : ManifestValidationError -> E;
  on_start_instruction : Z -> M V E unit;
  on_end_instruction : Z -> ManifestInstructionEffect -> M V E unit;
  on_new_bucket : Z -> BucketState -> M V E unit;
  on_consume_bucket : Z -> BucketState -> BucketDestination -> M V E unit;
  on_new_proof : Z -> ProofState -> M V E unit;
  on_consume_proof : Z -> ProofState -> ProofDestination -> M V E unit;
  on_new_address_reservation : Z -> AddressReservationState -> M V E unit;
  on_consume_address_reservation : Z -> AddressReservationState -> InvocationKind -> M V E unit;
  on_new_named_address : Z -> NamedAddressState -> list Z -> list Z -> M V E unit;
  on_new_intent : Z -> IntentState -> M V E unit;
  on_drop_authzone_proofs : bool -> bool -> M V E unit;
  on_pass_expression : ManifestExpression -> InvocationKind -> M V E unit;
  on_register_blob : list Z -> list Z -> M V E unit;
  on_pass_blob : list Z -> InvocationKind -> M V E unit;
  on_resource_assertion : ResourceAssertion -> M V E unit;
  on_verification : VerificationKind -> AccessRule -> M V E unit;
  on_finish : M V E unit
}.

(** [impl ManifestInterpretationVisitor for ()]: the default of every callback. *)
#[export] Instance unit_visitor : ManifestInterpretationVisitor unit ManifestValidationError := {
  from_validation_error e := e;
  on_start_instruction _ := mret tt;
  on_end_instruction _ _ := mret tt;
  on_new_bucket _ _ := mret tt;
  on_consume_bucket _ _ _ := mret tt;
  on_new_proof _ _ := mret tt;
  on_consume_proof _ _ _ := mret tt;
  on_new_address_reservation _ _ := mret tt;
  on_consume_address_reservation _ _ _ := mret tt;
  on_new_named_address _ _ _ _ := mret tt;
  on_new_intent _ _ := mret tt;
  on_drop_authzone_proofs _ _ := mret tt;
  on_pass_expression _ _ := mret tt;
  on_register_blob _ _ := mret tt;
  on_pass_blob _ _ := mret tt;
  on_resource_assertion _ := mret tt;
  on_verification _ _ := mret tt;
  on_finish := mret tt
}.

(** ** The interpreter *)

Section Interpreter.
Context {V E : Type} `{!ManifestInterpretationVisitor V E}.
Context (ruleset : ValidationRuleset) (manifest : Manifest).

Abbreviation IM := (M (StaticManifestInterpreter * V) E).

Definition self {A} (f : StaticManifestInterpreter -> A) : IM A := gets (fun s => f s.1).
Definition update (f : StaticManifestInterpreter -> StaticManifestInterpreter) : IM unit :=
  modify (fun s => (f s.1, s.2)).
Definition visit {A} (m : M V E A) : IM A := zoom snd (fun v s => (s.1, v)) m.
(** [return ControlFlow::Break(error.into())] *)
Definition break {A} (e : ManifestValidationError) : IM A := throw (from_validation_error e).

Definition next_id {A} (l : list A) : Z := wrap_u 32 (Z.of_nat (length l)).

(** *** Buckets *)

Definition handle_new_bucket (source_amount : BucketSourceAmount) : IM unit :=
  this ← self id;
  let new_bucket := next_id (bucket_state this) in
  let state := mk_bucket_state source_amount (location this) 0 None in
  visit (on_new_bucket new_bucket state);;
  update (fun s => with_bucket_state s (bucket_state s ++ [state])).

Definition get_existing_bucket (bucket : Z) : IM BucketState :=
  this ← self id;
  match bucket_state this !! Z.to_nat bucket with
  | Some state =>
      match bucket_consumed_at state with
      | Some _ => break (BucketAlreadyUsed bucket)
      | None => mret state
      end
  | None => break (BucketNotYetCreated bucket)
  end.

Definition set_bucket (bucket : Z) (state : BucketState) : IM unit :=
  update (fun s => with_bucket_state s (<[Z.to_nat bucket := state]> (bucket_state s))).

Definition consume_bucket (bucket : Z) (destination : BucketDestination) : IM unit :=
  location ← self location;
  state ← get_existing_bucket bucket;
  (if validate_bucket_proof_lock ruleset && (0 <? proof_locks state)
   then break (BucketConsumedWhilstLockedByProof bucket) else mret tt);;
  let state := set_consumed location state in
  set_bucket bucket state;;
  visit (on_consume_bucket bucket state destination).

(** *** Proofs *)

Definition lock_bucket (d : Z) (kind : ProofKind) : IM unit :=
  match kind with
  | BucketProof bucket => state ← get_existing_bucket bucket; set_bucket bucket (add_locks d state)
  | AuthZoneProof => mret tt
  end.

Definition handle_new_proof (source_amount : ProofSourceAmount) : IM unit :=
  lock_bucket 1 (proof_kind source_amount);;
  this ← self id;
  let new_proof := next_id (proof_state this) in
  let state := mk_proof_state source_amount (location this) None in
  visit (on_new_proof new_proof state);;
  update (fun s => with_proof_state s (proof_state s ++ [state])).

Definition get_existing_proof (proof : Z) : IM ProofState :=
  this ← self id;
  match proof_state this !! Z.to_nat proof with
  | Some state =>
      match proof_consumed_at state with
      | Some _ => break (ProofAlreadyUsed proof)
      | None => mret state
      end
  | None => break (ProofNotYetCreated proof)
  end.

Definition handle_cloned_proof (cloned_proof : Z) : IM unit :=
  state ← get_existing_proof cloned_proof;
  handle_new_proof (proof_source_amount state).

Definition consume_proof (proof : Z) (destination : ProofDestination) : IM unit :=
  location ← self location;
  state ← get_existing_proof proof;
  let state := set_proof_consumed location state in
  update (fun s => with_proof_state s (<[Z.to_nat proof := state]> (proof_state s)));;
  visit (on_consume_proof proof state destination);;
  lock_bucket (-1) (proof_kind (proof_source_amount state)).

(** The proofs to drop, in the order of their ids. *)
Fixpoint live_proofs (index : Z) (l : list ProofState) : list Z :=
  match l with
  | [] => []
  | p :: l =>
      match proof_consumed_at p with
      | Some _ => live_proofs (index + 1) l
      | None => wrap_u 32 index :: live_proofs (index + 1) l
      end
  end.

Fixpoint drop_proofs (proofs : list Z) : IM unit :=
  match proofs with
  | [] => mret tt
  | p :: rest => consume_proof p DropDestination;; drop_proofs rest
  end.

Definition handle_drop_many_proofs (all_named all_signature all_non_signature : bool) : IM unit :=
  (if all_named then this ← self id; drop_proofs (live_proofs 0 (proof_state this)) else mret tt);;
  (if all_signature || all_non_signature
   then visit (on_drop_authzone_proofs all_signature all_non_signature) else mret tt).

(** *** Addresses, intents and blobs *)

Definition handle_new_address_reservation (package_address blueprint_name : list Z)
    (preallocated : option (list Z)) : IM Z :=
  this ← self id;
  let new_address_reservation := next_id (address_reservation_state this) in
  let state := mk_reservation_state package_address blueprint_name preallocated (location this) None in
  visit (on_new_address_reservation new_address_reservation state);;
  update (fun s => with_reservation_state s (address_reservation_state s ++ [state]));;
  mret new_address_reservation.

Definition get_existing_address_reservation (address_reservation : Z) : IM AddressReservationState :=
  this ← self id;
  match address_reservation_state this !! Z.to_nat address_reservation with
  | Some state =>
      match reservation_consumed_at state with
      | Some _ => break (AddressReservationAlreadyUsed address_reservation)
      | None => mret state
      end
  | None => break (AddressReservationNotYetCreated address_reservation)
  end.

Definition consume_address_reservation (address_reservation : Z) (destination : InvocationKind) : IM unit :=
  location ← self location;
  state ← get_existing_address_reservation address_reservation;
  let state := set_reservation_consumed location state in
  update (fun s =>
    with_reservation_state s (<[Z.to_nat address_reservation := state]> (address_reservation_state s)));;
  visit (on_consume_address_reservation address_reservation state destination).

Definition handle_new_named_address (reservation : option Z) (package_address blueprint_name : list Z) : IM unit :=
  this ← self id;
  let new_named_address := next_id (named_address_state this) in
  let state := mk_named_address_state reservation (location this) in
  visit (on_new_named_address new_named_address state package_address blueprint_name);;
  update (fun s => with_named_address_state s (named_address_state s ++ [state])).

Definition get_existing_named_address (named_address : Z) : IM NamedAddressState :=
  this ← self id;
  match named_address_state this !! Z.to_nat named_address with
  | Some state => mret state
  | None => break (NamedAddressNotYetCreated named_address)
  end.

Definition handle_new_intent (hash : list Z) (type : IntentType) : IM unit :=
  this ← self id;
  let new_intent := next_id (intent_state this) in
  let state := mk_intent_state hash type (location this) in
  visit (on_new_intent new_intent state);;
  update (fun s => with_intent_state s (intent_state s ++ [state])).

Fixpoint handle_preallocated_addresses (l : list PreAllocatedAddress) : IM unit :=
  match l with
  | [] => mret tt
  | p :: l =>
      handle_new_address_reservation (pre_package_address p) (pre_blueprint_name p) (Some (pre_address p));;
      handle_preallocated_addresses l
  end.

Fixpoint handle_child_subintents (l : list (list Z)) : IM unit :=
  match l with
  | [] => mret tt
  | hash :: l => handle_new_intent hash Child;; handle_child_subintents l
  end.

Fixpoint handle_blobs (l : list (list Z * list Z)) : IM unit :=
  match l with
  | [] => mret tt
  | (hash, content) :: l =>
      this ← self id;
      let r := is_insert hash (registered_blobs this) in
      update (fun s => with_blobs s r.2);;
      (if negb r.1 && validate_no_duplicate_blobs ruleset then break (DuplicateBlob hash) else mret tt);;
      visit (on_register_blob hash content);;
      handle_blobs l
  end.

(** *** Invocations *)

Definition check_dynamic_address (address : DynamicAddress) : IM unit :=
  if validate_dynamic_address_in_command_part ruleset then
    match address with
    | StaticAddress _ => mret tt
    | NamedAddress named_address => get_existing_named_address named_address;; mret tt
    end
  else mret tt.

Definition handle_invocation_kind (invocation_kind : InvocationKind) : IM bool :=
  match invocation_kind with
  | MethodInvocation address _ _ | FunctionInvocation address _ _ => check_dynamic_address address;; mret false
  | DirectMethodInvocation _ _ => mret false
  | YieldToParentInvocation =>
      if negb (is_subintent manifest) then break InstructionNotSupportedInTransactionIntent else mret true
  | YieldToChildInvocation child_index =>
      if Z.of_nat (length (get_child_subintent_hashes manifest)) <=? child_index
      then break (ChildIntentNotRegistered child_index) else mret true
  end.

Definition handle_custom_value (invocation_kind : InvocationKind) (yields_across_intent : bool)
    (c : ManifestCustomValue) : IM unit :=
  match c with
  | MAddress (Static _) => mret tt
  | MAddress (Named named_address) => get_existing_named_address named_address;; mret tt
  | MBucket bucket => consume_bucket bucket (BucketToInvocation invocation_kind)
  | MProof proof =>
      if yields_across_intent then break ProofCannotBePassedToAnotherIntent
      else consume_proof proof (ProofToInvocation invocation_kind)
  | MExpression expression => visit (on_pass_expression expression invocation_kind)
  | MBlob blob_ref =>
      this ← self id;
      (if validate_blob_refs ruleset && negb (is_contains blob_ref (registered_blobs this))
       then break (BlobNotRegistered blob_ref) else mret tt);;
      visit (on_pass_blob blob_ref invocation_kind)
  | MAddressReservation reservation => consume_address_reservation reservation invocation_kind
  | MDecimal _ | MNonFungibleLocalId _ | MPreciseDecimal _ => mret tt
  end.

Fixpoint invocation_loop (fuel : nat) (invocation_kind : InvocationKind) (yields_across_intent : bool)
    (traverser : VecTraverser ManifestCustomValueKind) : IM unit :=
  match fuel with
  | O => panic
  | S f =>
      r ← lift_exec (next_event (Y := ManifestCustomValue) traverser);
      match event r.1 with
      | TerminalValue (TCustom c) =>
          handle_custom_value invocation_kind yields_across_intent c;;
          invocation_loop f invocation_kind yields_across_intent r.2
      | TraversalEnd => mret tt
      | TraversalError e => break (ArgsDecodeError e)
      | ContainerStart _ | ContainerEnd _ | TerminalValue _ | TerminalValueBatch _ =>
          invocation_loop f invocation_kind yields_across_intent r.2
      end
  end.

Definition handle_invocation (invocation_kind : InvocationKind) (args : ManifestValue) : IM unit :=
  yields_across_intent ← handle_invocation_kind invocation_kind;
  encoded ← lift_exec (manifest_encode args);
  match encoded with
  | Err error => break (ArgsEncodeError error)
  | Ok encoded =>
      invocation_loop (traversal_fuel encoded) invocation_kind yields_across_intent
        (traverser_new encoded (PayloadPrefix MANIFEST_SBOR_V1_PAYLOAD_PREFIX)
          (mk_config MANIFEST_SBOR_V1_MAX_DEPTH true))
  end.

(** *** Assertions *)

Definition require_valid (b : bool) : IM unit := if b then mret tt else break InvalidResourceConstraint.

Definition validate_resource_assertion (assertion : ResourceAssertion) : IM unit :=
  match assertion with
  | AssertWorktop (ResourceNonZeroAmount _) => mret tt
  | AssertWorktop (ResourceAtLeastAmount _ amount) => require_valid (negb (is_negative amount))
  | AssertWorktop (ResourceAtLeastNonFungibles resource_address _) => require_valid (negb (is_fungible resource_address))
  | AssertWorktop (ResourcesOnly constraints) | AssertWorktop (ResourcesInclude constraints) =>
      require_valid (constraints_is_valid constraints)
  | AssertNextCall (ReturnsOnly constraints) | AssertNextCall (ReturnsInclude constraints) =>
      require_valid (constraints_is_valid constraints);;
      update (fun s => with_requirement s RequiredInvocationDueToNextCallAssertion)
  | AssertBucket (BucketContents bucket constraint) =>
      state ← get_existing_bucket bucket;
      require_valid (constraint_is_valid_for constraint (source_resource_address (bucket_source_amount state)))
  end.

Definition handle_resource_assertion (assertion : ResourceAssertion) : IM unit :=
  (if validate_resource_assertions ruleset then validate_resource_assertion assertion else mret tt);;
  visit (on_resource_assertion assertion).

Definition handle_verification (kind : VerificationKind) (access_rule : AccessRule) : IM unit :=
  match kind with
  | VerificationParent =>
      if negb (is_subintent manifest) then break InstructionNotSupportedInTransactionIntent else mret tt
  end;;
  visit (on_verification kind access_rule).

(** *** Instructions *)

Definition handle_next_instruction (e : ManifestInstructionEffect) : IM unit :=
  this ← self id;
  match next_instruction_requirement this with
  | NoRequirement => mret tt
  | RequiredInvocationDueToNextCallAssertion =>
      match e with
      | Invocation _ _ => update (fun s => with_requirement s NoRequirement)
      | _ => break InstructionFollowingNextCallAssertionWasNotInvocation
      end
  end.

Definition handle_effect (e : ManifestInstructionEffect) : IM unit :=
  match e with
  | CreateBucket source_amount => handle_new_bucket source_amount
  | CreateProof source_amount => handle_new_proof source_amount
  | ConsumeBucket consumed_bucket destination => consume_bucket consumed_bucket destination
  | ConsumeProof consumed_proof destination => consume_proof consumed_proof destination
  | CloneProofEffect cloned_proof => handle_cloned_proof cloned_proof
  | DropManyProofs named signature non_signature => handle_drop_many_proofs named signature non_signature
  | Invocation kind args => handle_invocation kind args
  | CreateAddressAndReservation package_address blueprint_name =>
      reservation ← handle_new_address_reservation package_address blueprint_name None;
      handle_new_named_address (Some reservation) package_address blueprint_name
  | ResourceAssertionEffect assertion => handle_resource_assertion assertion
  | Verification verification access_rule => handle_verification verification access_rule
  end.

Definition handle_instruction (index : Z) (e : ManifestInstructionEffect) : IM unit :=
  update (fun s => with_location s (InstructionLocation index));;
  handle_next_instruction e;;
  visit (on_start_instruction index);;
  handle_effect e;;
  visit (on_end_instruction index e).

Fixpoint handle_instructions (index : Z) (effects : list ManifestInstructionEffect) : IM unit :=
  match effects with
  | [] => mret tt
  | e :: effects => handle_instruction index e;; handle_instructions (index + 1) effects
  end.

Definition verify_final_instruction : IM unit :=
  if negb (is_subintent manifest) then mret tt
  else if 0 <? instruction_count manifest then
    e ← lift_exec (instruction_effect manifest (instruction_count manifest - 1));
    match e with
    | Invocation YieldToParentInvocation _ => mret tt
    | _ => break SubintentDoesNotEndWithYieldToParent
    end
  else break SubintentDoesNotEndWithYieldToParent.

Definition validate_at_end : IM unit :=
  this ← self id;
  match next_instruction_requirement this with
  | NoRequirement => mret tt
  | RequiredInvocationDueToNextCallAssertion => break ManifestEndedWhilstExpectingNextCallAssertion
  end.

(** The first index whose state is not consumed is an error. *)
Fixpoint check_dangling {A} (consumed_at : A -> option ManifestLocation) (error : Z -> ManifestValidationError)
    (index : Z) (l : list A) : IM unit :=
  match l with
  | [] => mret tt
  | a :: l =>
      match consumed_at a with
      | None => break (error (wrap_u 32 index))
      | Some _ => check_dangling consumed_at error (index + 1) l
      end
  end.

Definition handle_wrap_up : IM unit :=
  validate_at_end;;
  (if validate_no_dangling_nodes ruleset then
     this ← self id;
     check_dangling bucket_consumed_at DanglingBucket 0 (bucket_state this);;
     check_dangling reservation_consumed_at DanglingAddressReservation 0 (address_reservation_state this)
   else mret tt);;
  visit on_finish.

Definition interpret_internal : IM unit :=
  handle_preallocated_addresses (get_preallocated_addresses manifest);;
  handle_child_subintents (get_child_subintent_hashes manifest);;
  handle_blobs (get_blobs manifest);;
  handle_instructions 0 (iter_instruction_effects manifest);;
  verify_final_instruction;;
  handle_wrap_up.

Definition validate_and_apply_visitor (visitor : V) : Exec (Result E unit * V) :=
  r ← interpret_internal (interpreter_new, visitor);
  Done (r.1, r.2.2).
End Interpreter.

(** [StaticManifestInterpreter::validate]. *)
Definition validate (ruleset : ValidationRuleset) (manifest : Manifest) : Exec (Result ManifestValidationError unit) :=
  r ← validate_and_apply_visitor (V := unit) ruleset manifest tt;
  Done r.1.
