(* ===== verification/StaticMovements.v ===== *)
(** * Static resource movements

    The visitor that follows the resources of a manifest without executing it
    (radix-transactions/src/manifest/static_resource_movements/visitor.rs) and the
    resources each native invocation may return (effect.rs of the same folder).
    The visitor runs under the static interpreter of [ManifestInterpreter]. *)

From S2P Require Import Authorization.
From S2P Require Import Prelude Decimals IndexMap Bytes Sbor SborCustom ResourceConstraints ManifestInstructions.
From S2P Require Import NativeInvocations ResourceBounds ManifestInterpreter.
Import Int Dec.
Import Manifest(ManifestValue, ManifestExpression, EntireWorktop, EntireAuthZone).

Abbreviation MovementsError := (StaticResourceMovementsError ManifestValidationError).

(** ** The output of native invocations *)

Inductive InvocationReceiver : Type :=
| GlobalMethod (address : ResolvedDynamicAddress)
| DirectAccess (address : NodeAddress)
| BlueprintFunction (blueprint_id : BlueprintId).

Record InvocationDetails : Type := mk_details {
  receiver : InvocationReceiver;
  details_sent_resources : TrackedResources;
  details_source : ChangeSource
}.

(** [ResourceAddress::try_from(global_address)] *)
Definition is_global_resource_manager (address : NodeAddress) : bool :=
  match node_entity_type address with
  | Some GlobalFungibleResourceManager | Some GlobalNonFungibleResourceManager => true
  | _ => false
  end.

Section Outputs.
Context {S : Type}.
Abbreviation Output := (M S MovementsError TrackedResources).

(** A computation on a value of its own. *)
Definition on_value {T A} (t : T) (m : M T MovementsError A) : M S MovementsError (A * T) := fun s =>
  match m t with
  | Done (Ok a, t) => Done (Ok (a, t), s)
  | Done (Err e, _) => Done (Err e, s)
  | Panicked => Panicked
  end.

Definition add_resource (t : TrackedResources) (resource : ResourceAddress) (amount : TrackedResource) : Output :=
  r ← on_value t (mut_add_resource resource amount);
  mret r.2.

Definition tracked_exact_amount (amount : Decimal) (sources : list ChangeSource) : M S MovementsError TrackedResource :=
  b ← exact_amount amount;
  mret (tracked_general b sources).

Definition tracked_exact_non_fungibles (ids : Ids) (sources : list ChangeSource) : M S MovementsError TrackedResource :=
  b ← exact_non_fungibles ids;
  mret (tracked_general b sources).

Context (details : InvocationDetails).

Definition unspecified_output : TrackedResources :=
  new_with_possible_balance_of_unspecified_resources [details_source details].

Definition amount_output (resource : ResourceAddress) (amount : Decimal) : Output :=
  b ← tracked_exact_amount amount [details_source details];
  add_resource resources_new_empty resource b.

Definition non_fungibles_output (resource : ResourceAddress) (ids : Ids) : Output :=
  b ← tracked_exact_non_fungibles ids [details_source details];
  add_resource resources_new_empty resource b.

(** *** The invocations whose output is unknown *)

Fixpoint assert_none_returned (keys : list ResourceAddress) : M TrackedResources MovementsError unit :=
  match keys with
  | [] => mret tt
  | resource_address :: keys =>
      ResourceBounds.handle_resource_assertion resource_address bounds_zero (details_source details);;
      assert_none_returned keys
  end.

Definition output_unknown (i : UnknownOutputInput) : Output :=
  if no_resource_inputs_returned i then
    r ← on_value unspecified_output
          (assert_none_returned (im_keys (specified_resources (details_sent_resources details))));
    mret r.2
  else mret unspecified_output.

(** *** Refunds *)

Fixpoint refund_known (keys : list ResourceAddress) (sent_resources refunded_resources : TrackedResources) : Output :=
  match keys with
  | [] => mret refunded_resources
  | known_resource :: keys =>
      r ← on_value sent_resources (mut_take_resource known_resource TakeAll (details_source details));
      refunded_amount ← on_value (bounds r.1) mut_replace_lower_bounds_with_zero;
      refunded_resources ← add_resource refunded_resources known_resource
        (tracked_general refunded_amount.2 [details_source details]);
      refund_known keys r.2 refunded_resources
  end.

Definition handle_possible_refund : Output :=
  let sent_resources := details_sent_resources details in
  refunded_resources ← refund_known (im_keys (specified_resources sent_resources)) sent_resources resources_new_empty;
  if may_be_present (unspecified_resources sent_resources)
  then r ← on_value refunded_resources (mut_add_unspecified_resources [details_source details]); mret r.2
  else mret refunded_resources.

(** *** Amounts and ids of a resource given by the arguments *)

Definition output_amount_of (resource_address : DynamicAddress) (amount : Decimal) : Output :=
  match resource_address with
  | StaticAddress resource_address => amount_output resource_address amount
  | NamedAddress _ => mret unspecified_output
  end.

Definition output_non_fungibles_of (resource_address : DynamicAddress) (ids : Ids) : Output :=
  match resource_address with
  | StaticAddress resource_address => non_fungibles_output resource_address ids
  | NamedAddress _ => mret unspecified_output
  end.

(** *** Owner badges and minted resources *)

(** [NonFungibleLocalId::bytes(global_address.as_bytes()).unwrap()] *)
Definition id_of_address (address : NodeAddress) : Exec NonFungibleLocalId :=
  match id_bytes address with Ok id => Done id | Err _ => Panicked end.

Definition output_owner_badge (badge : ResourceAddress) : Output := amount_output badge ONE.

Definition output_securify (badge : ResourceAddress) : Output :=
  match receiver details with
  | GlobalMethod (ResolvedStatic global_address) =>
      local_id ← lift_exec (id_of_address global_address);
      non_fungibles_output badge [local_id]
  | GlobalMethod (BlueprintResolvedFromNamedAddress _) => amount_output badge ONE
  | DirectAccess _ | BlueprintFunction _ => panic
  end.

Definition output_of_receiver (output : ResourceAddress -> Output) : Output :=
  match receiver details with
  | GlobalMethod (ResolvedStatic global_address) =>
      if is_global_resource_manager global_address then output global_address
      else throw (NotAResourceAddress global_address)
  | GlobalMethod (BlueprintResolvedFromNamedAddress _) | DirectAccess _ | BlueprintFunction _ =>
      mret unspecified_output
  end.

Definition output_some_rork : Output :=
  add_resource resources_new_empty RORK (tracked_zero_or_more [details_source details]).

(** *** The output of each type of arguments *)

Definition output_AccessControllerWithdrawRecoveryFee (amount : Decimal) : Output := amount_output RORK amount.
Definition output_AccountCreate : Output := output_owner_badge ACCOUNT_OWNER_BADGE.
Definition output_AccountSecurify : Output := output_securify ACCOUNT_OWNER_BADGE.
Definition output_AccountWithdraw (resource_address : DynamicAddress) (amount : Decimal) : Output :=
  output_amount_of resource_address amount.
Definition output_AccountWithdrawNonFungibles (resource_address : DynamicAddress) (ids : Ids) : Output :=
  output_non_fungibles_of resource_address ids.
Definition output_AccountLockFeeAndWithdraw (resource_address : DynamicAddress) (amount : Decimal) : Output :=
  output_amount_of resource_address amount.
Definition output_AccountLockFeeAndWithdrawNonFungibles (resource_address : DynamicAddress) (ids : Ids) : Output :=
  output_non_fungibles_of resource_address ids.
Definition output_AccountTryDepositOrRefund : Output := handle_possible_refund.
Definition output_AccountTryDepositBatchOrRefund : Output := handle_possible_refund.
Definition output_ConsensusManagerCreateValidator : Output := output_owner_badge VALIDATOR_OWNER_BADGE.
Definition output_ValidatorClaimXrd : Output := output_some_rork.
Definition output_IdentityCreate : Output := output_owner_badge IDENTITY_OWNER_BADGE.
Definition output_IdentitySecurifyToSingleBadge : Output := output_securify IDENTITY_OWNER_BADGE.
Definition output_AccountLockerAirdrop : Output := handle_possible_refund.
Definition output_AccountLockerRecover (resource_address : DynamicAddress) (amount : Decimal) : Output :=
  output_amount_of resource_address amount.
Definition output_AccountLockerRecoverNonFungibles (resource_address : DynamicAddress) (ids : Ids) : Output :=
  output_non_fungibles_of resource_address ids.
Definition output_AccountLockerClaim (resource_address : DynamicAddress) (amount : Decimal) : Output :=
  output_amount_of resource_address amount.
Definition output_AccountLockerClaimNonFungibles (resource_address : DynamicAddress) (ids : Ids) : Output :=
  output_non_fungibles_of resource_address ids.
Definition output_PackagePublishWasm : Output := output_owner_badge PACKAGE_OWNER_BADGE.
Definition output_PackageClaimRoyalties : Output := output_some_rork.
Definition output_TwoResourcePoolProtectedWithdraw (resource_address : DynamicAddress) (amount : Decimal) : Output :=
  output_amount_of resource_address amount.
Definition output_MultiResourcePoolProtectedWithdraw (resource_address : DynamicAddress) (amount : Decimal) : Output :=
  output_amount_of resource_address amount.
Definition output_FungibleResourceManagerMint (amount : Decimal) : Output :=
  output_of_receiver (fun r => amount_output r amount).
Definition output_ResourceManagerCreateEmptyBucket : Output := mret resources_new_empty.
Definition output_NonFungibleResourceManagerMint (entry_keys : Ids) : Output :=
  output_of_receiver (fun r => non_fungibles_output r entry_keys).
Definition output_NonFungibleResourceManagerMintRuid (entry_count : Z) : Output :=
  output_of_receiver (fun r => amount_output r (entry_count * ONE)).
Definition output_NonFungibleResourceManagerMintSingleRuid : Output :=
  output_of_receiver (fun r => amount_output r ONE).
Definition output_ComponentClaimRoyalties : Output := output_some_rork.
Definition output_none : Output := mret resources_new_empty.

(** [TypedManifestNativeInvocation::output] *)
Definition output (v : TypedManifestNativeInvocation) : Output :=
  match v with
  | NoOutputInvocation _ => output_none
  | UnknownOutputInvocation i => output_unknown i
  | AccessControllerWithdrawRecoveryFee amount => output_AccessControllerWithdrawRecoveryFee amount
  | AccountCreate => output_AccountCreate
  | AccountSecurify => output_AccountSecurify
  | AccountWithdraw resource_address amount => output_AccountWithdraw resource_address amount
  | AccountWithdrawNonFungibles resource_address ids => output_AccountWithdrawNonFungibles resource_address ids
  | AccountLockFeeAndWithdraw resource_address amount => output_AccountLockFeeAndWithdraw resource_address amount
  | AccountLockFeeAndWithdrawNonFungibles resource_address ids => output_AccountLockFeeAndWithdrawNonFungibles resource_address ids
  | AccountTryDepositOrRefund => output_AccountTryDepositOrRefund
  | AccountTryDepositBatchOrRefund => output_AccountTryDepositBatchOrRefund
  | ConsensusManagerCreateValidator => output_ConsensusManagerCreateValidator
  | ValidatorClaimXrd => output_ValidatorClaimXrd
  | IdentityCreate => output_IdentityCreate
  | IdentitySecurifyToSingleBadge => output_IdentitySecurifyToSingleBadge
  | AccountLockerAirdrop => output_AccountLockerAirdrop
  | AccountLockerRecover resource_address amount => output_AccountLockerRecover resource_address amount
  | AccountLockerRecoverNonFungibles resource_address ids => output_AccountLockerRecoverNonFungibles resource_address ids
  | AccountLockerClaim resource_address amount => output_AccountLockerClaim resource_address amount
  | AccountLockerClaimNonFungibles resource_address ids => output_AccountLockerClaimNonFungibles resource_address ids
  | PackagePublishWasm => output_PackagePublishWasm
  | PackageClaimRoyalties => output_PackageClaimRoyalties
  | TwoResourcePoolProtectedWithdraw resource_address amount _ => output_TwoResourcePoolProtectedWithdraw resource_address amount
  | MultiResourcePoolProtectedWithdraw resource_address amount _ => output_MultiResourcePoolProtectedWithdraw resource_address amount
  | FungibleResourceManagerMint amount => output_FungibleResourceManagerMint amount
  | ResourceManagerCreateEmptyBucket => output_ResourceManagerCreateEmptyBucket
  | NonFungibleResourceManagerMint entry_keys => output_NonFungibleResourceManagerMint entry_keys
  | NonFungibleResourceManagerMintRuid entry_count => output_NonFungibleResourceManagerMintRuid entry_count
  | NonFungibleResourceManagerMintSingleRuid => output_NonFungibleResourceManagerMintSingleRuid
  | ComponentClaimRoyalties => output_ComponentClaimRoyalties
  end.
End Outputs.

(** ** The visitor *)

Record CurrentInstruction : Type := mk_current {
  current_index : Z;
  sent_resources : TrackedResources
}.

Record InvocationStaticInformation : Type := mk_info {
  info_kind : InvocationKind;
  info_input : TrackedResources;
  info_output : TrackedResources
}.

Record StaticResourceMovementsVisitor : Type := mk_visitor {
  worktop : TrackedResources;
  tracked_buckets : IndexMap Z (ResourceAddress * TrackedResource);
  tracked_named_addresses : IndexMap Z BlueprintId;
  invocation_static_information : IndexMap Z InvocationStaticInformation;
  current_instruction : option CurrentInstruction;
  next_invocation_assertion : option (NextCallAssertion * ChangeSource)
}.

Definition with_worktop (w : TrackedResources) (v : StaticResourceMovementsVisitor) :=
  mk_visitor w (tracked_buckets v) (tracked_named_addresses v) (invocation_static_information v)
    (current_instruction v) (next_invocation_assertion v).
Definition with_tracked_buckets (b : IndexMap Z (ResourceAddress * TrackedResource)) (v : StaticResourceMovementsVisitor) :=
  mk_visitor (worktop v) b (tracked_named_addresses v) (invocation_static_information v)
    (current_instruction v) (next_invocation_assertion v).
Definition with_named_addresses (a : IndexMap Z BlueprintId) (v : StaticResourceMovementsVisitor) :=
  mk_visitor (worktop v) (tracked_buckets v) a (invocation_static_information v)
    (current_instruction v) (next_invocation_assertion v).
Definition with_information (i : IndexMap Z InvocationStaticInformation) (v : StaticResourceMovementsVisitor) :=
  mk_visitor (worktop v) (tracked_buckets v) (tracked_named_addresses v) i
    (current_instruction v) (next_invocation_assertion v).
Definition with_current (c : option CurrentInstruction) (v : StaticResourceMovementsVisitor) :=
  mk_visitor (worktop v) (tracked_buckets v) (tracked_named_addresses v) (invocation_static_information v)
    c (next_invocation_assertion v).
Definition with_next_assertion (a : option (NextCallAssertion * ChangeSource)) (v : StaticResourceMovementsVisitor) :=
  mk_visitor (worktop v) (tracked_buckets v) (tracked_named_addresses v) (invocation_static_information v)
    (current_instruction v) a.

(** [StaticResourceMovementsVisitor::new] *)
Definition visitor_new (initial_worktop_state_is_unknown : bool) : StaticResourceMovementsVisitor :=
  mk_visitor
    (if initial_worktop_state_is_unknown
     then with_unspecified (unspecified_add NonePresent (MayBePresent (is_from_iter [InitialYieldFromParent])))
            resources_new_empty
     else resources_new_empty) [] [] [] None None.

Abbreviation VM := (M StaticResourceMovementsVisitor MovementsError).

Definition on_worktop {A} (m : M TrackedResources MovementsError A) : VM A := zoom worktop with_worktop m.

Definition the_current_instruction : VM CurrentInstruction :=
  c ← gets current_instruction; lift_exec (expect c).
Definition current_instruction_index : VM Z := c ← the_current_instruction; mret (current_index c).
(** A computation on [current_instruction_sent_resources()]. *)
Definition on_sent_resources (m : M TrackedResources MovementsError unit) : VM unit :=
  c ← the_current_instruction;
  r ← on_value (sent_resources c) m;
  modify (with_current (Some (mk_current (current_index c) r.2))).

Section Visitor.
(** The decoders of the arguments of native invocations. *)
Context (decode_args : InputType -> ManifestValue -> option TypedManifestNativeInvocation).

Definition resolve_dynamic_address (address : DynamicAddress) : VM ResolvedDynamicAddress :=
  match address with
  | StaticAddress global_address => mret (ResolvedStatic global_address)
  | NamedAddress named_address =>
      v ← gets id;
      blueprint_id ← lift_exec (expect (im_get named_address (tracked_named_addresses v)));
      mret (BlueprintResolvedFromNamedAddress blueprint_id)
  end.

Definition with_receiver (r : InvocationReceiver)
    (resolved : Result TypedManifestNativeInvocationError (option TypedManifestNativeInvocation)) :
    Result MovementsError (option (TypedManifestNativeInvocation * InvocationReceiver)) :=
  match resolved with
  | Ok (Some typed_invocation) => Ok (Some (typed_invocation, r))
  | Ok None => Ok None
  | Err e => Err (NativeInvocationFailed e)
  end.

Definition resolve_native_invocation (invocation_kind : InvocationKind) (args : ManifestValue) :
    VM (Result MovementsError (option (TypedManifestNativeInvocation * InvocationReceiver))) :=
  match invocation_kind with
  | DirectMethodInvocation address method =>
      mret (with_receiver (DirectAccess address)
        (from_direct_method_invocation decode_args (ResolvedStatic address) method args))
  | MethodInvocation address module_id method =>
      resolved ← resolve_dynamic_address address;
      mret (with_receiver (GlobalMethod resolved)
        (from_method_invocation decode_args resolved module_id method args))
  | FunctionInvocation (StaticAddress package_address) blueprint function =>
      let blueprint_id := mk_blueprint_id package_address blueprint in
      mret (with_receiver (BlueprintFunction blueprint_id)
        (from_function_invocation decode_args blueprint_id function args))
  | YieldToParentInvocation | YieldToChildInvocation _ | FunctionInvocation (NamedAddress _) _ _ => mret (Ok None)
  end.

(** The assertion on the next call, applied to what the call returns. *)
Definition apply_next_assertion (assertion : option (NextCallAssertion * ChangeSource)) :
    M TrackedResources MovementsError unit :=
  match assertion with
  | Some (ReturnsOnly constraints, change_source) => handle_resources_only_assertion constraints change_source
  | Some (ReturnsInclude constraints, change_source) => handle_resources_include_assertion constraints change_source
  | None => mret tt
  end.

Definition handle_invocation_end (invocation_kind : InvocationKind) (args : ManifestValue)
    (current : CurrentInstruction) : VM InvocationStaticInformation :=
  let invocation_input := sent_resources current in
  let change_source := SourceInvocation (current_index current) in
  resolved ← resolve_native_invocation invocation_kind args;
  invocation_output ←
    match resolved with
    | Ok (Some (matched_invocation, receiver)) =>
        output (mk_details receiver invocation_input change_source) matched_invocation
    | Err _ | Ok None => mret (new_with_possible_balance_of_unspecified_resources [change_source])
    end;
  assertion ← gets next_invocation_assertion;
  modify (with_next_assertion None);;
  r ← on_value invocation_output (apply_next_assertion assertion);
  let invocation_output := r.2 in
  on_worktop (resources_mut_add invocation_output);;
  mret (mk_info invocation_kind invocation_input invocation_output).

Definition visitor_start_instruction (index : Z) : VM unit :=
  modify (with_current (Some (mk_current index resources_new_empty))).

Definition visitor_end_instruction (index : Z) (effect : ManifestInstructionEffect) : VM unit :=
  instruction_data ← the_current_instruction;
  modify (with_current None);;
  match effect with
  | Invocation kind args =>
      info ← handle_invocation_end kind args instruction_data;
      modify (fun v => with_information (im_insert index info (invocation_static_information v)) v)
  | _ => mret tt
  end.

Definition visitor_new_bucket (bucket : Z) (state : BucketState) : VM unit :=
  index ← current_instruction_index;
  let source := SourceNewBucket index in
  amount ←
    match bucket_source_amount state with
    | AllOnWorktop resource_address => on_worktop (mut_take_resource resource_address TakeAll source)
    | AmountFromWorktop resource_address amount =>
        amount ← exact_take_amount amount;
        on_worktop (mut_take_resource resource_address amount source)
    | NonFungiblesFromWorktop resource_address ids =>
        on_worktop (mut_take_resource resource_address (TakeNonFungibles (is_from_iter ids)) source)
    end;
  modify (fun v => with_tracked_buckets
    (im_insert bucket (source_resource_address (bucket_source_amount state), amount) (tracked_buckets v)) v).

Definition visitor_consume_bucket (bucket : Z) (destination : BucketDestination) : VM unit :=
  v ← gets id;
  let r := im_swap_remove bucket (tracked_buckets v) in
  modify (with_tracked_buckets r.2);;
  b ← lift_exec (expect r.1);
  match destination with
  | WorktopDestination => on_worktop (mut_add_resource b.1 b.2)
  | BurnedDestination => mret tt
  | BucketToInvocation _ => on_sent_resources (mut_add_resource b.1 b.2)
  end.

Definition visitor_pass_expression (expression : ManifestExpression) : VM unit :=
  match expression with
  | EntireWorktop =>
      entire_worktop ← on_worktop resources_take_all;
      on_sent_resources (resources_mut_add entire_worktop)
  | EntireAuthZone => mret tt
  end.

Definition visitor_worktop_assertion (assertion : WorktopAssertion) (change_source : ChangeSource) :
    M TrackedResources MovementsError unit :=
  match assertion with
  | ResourceNonZeroAmount resource_address =>
      ResourceBounds.handle_resource_assertion resource_address bounds_non_zero change_source
  | ResourceAtLeastAmount resource_address amount =>
      b ← at_least_amount amount;
      ResourceBounds.handle_resource_assertion resource_address b change_source
  | ResourceAtLeastNonFungibles resource_address ids =>
      b ← at_least_non_fungibles ids;
      ResourceBounds.handle_resource_assertion resource_address b change_source
  | ResourcesOnly constraints => handle_resources_only_assertion constraints change_source
  | ResourcesInclude constraints => handle_resources_include_assertion constraints change_source
  end.

Definition visitor_resource_assertion (assertion : ResourceAssertion) : VM unit :=
  index ← current_instruction_index;
  let change_source := SourceAssertion index in
  match assertion with
  | AssertWorktop assertion => on_worktop (visitor_worktop_assertion assertion change_source)
  | AssertNextCall next_call_assertion =>
      v ← gets id;
      assert_ (bool_decide (next_invocation_assertion v = None));;
      modify (with_next_assertion (Some (next_call_assertion, change_source)))
  | AssertBucket (BucketContents bucket constraint) =>
      v ← gets id;
      tracked ← lift_exec (expect (im_get bucket (tracked_buckets v)));
      b ← new_for_manifest_constraint constraint;
      r ← on_value tracked.2 (tracked_handle_assertion b change_source);
      modify (fun v => with_tracked_buckets (im_insert bucket (tracked.1, r.2) (tracked_buckets v)) v)
  end.

Definition visitor_new_named_address (named_address : Z) (package_address : NodeAddress) (blueprint_name : Name) : VM unit :=
  modify (fun v => with_named_addresses
    (im_insert named_address (mk_blueprint_id package_address blueprint_name) (tracked_named_addresses v)) v).

Definition visitor_finish : VM unit :=
  v ← gets id;
  guard_or (forallb (fun e => negb (lower_is_positive (lower_bound (bounds e.2)))) (specified_resources (worktop v)))
    WorktopEndsWithKnownResourcesPresent.

Definition movements_visitor : ManifestInterpretationVisitor StaticResourceMovementsVisitor MovementsError := {|
  from_validation_error := ManifestValidationFailed;
  on_start_instruction := visitor_start_instruction;
  on_end_instruction := visitor_end_instruction;
  on_new_bucket := visitor_new_bucket;
  on_consume_bucket bucket _ destination := visitor_consume_bucket bucket destination;
  on_new_proof _ _ := mret tt;
  on_consume_proof _ _ _ := mret tt;
  on_new_address_reservation _ _ := mret tt;
  on_consume_address_reservation _ _ _ := mret tt;
  on_new_named_address named_address _ package_address blueprint_name :=
    visitor_new_named_address named_address package_address blueprint_name;
  on_new_intent _ _ := mret tt;
  on_drop_authzone_proofs _ _ := mret tt;
  on_pass_expression expression _ := visitor_pass_expression expression;
  on_register_blob _ _ := mret tt;
  on_pass_blob _ _ := mret tt;
  on_resource_assertion := visitor_resource_assertion;
  on_verification _ _ := mret tt;
  on_finish := visitor_finish
|}.

(** The movements of a manifest: the interpreter with every rule and this
    visitor; a subintent may start with resources of its parent. *)
Definition analyze_movements (manifest : Manifest) : Exec (Result MovementsError unit * StaticResourceMovementsVisitor) :=
  validate_and_apply_visitor (ManifestInterpretationVisitor0 := movements_visitor) ruleset_all manifest
    (visitor_new (is_subintent manifest)).
End Visitor.
