(* ===== verification/InterpreterSpec.v ===== *)
(** * Well-formed manifests

    What the static interpreter of manifests promises: a manifest is well formed
    when every bucket, proof, reservation, address and blob it uses exists where
    it is used, when no bucket is consumed while a proof of it lives, and when
    its calls, yields and assertions are admissible.  The specification keeps
    sets of live ids and unbounded counters; lock counts, consumption marks,
    wrap-around and the streaming traversal of arguments belong to the
    interpreter.  The lemmas relate one instruction of the interpreter, with any
    visitor, to one step of the specification. *)

From S2P Require Import Authorization.
From S2P Require Import Prelude Decimals IndexMap Bytes Sbor SborCustom Traversal ResourceConstraints ManifestInstructions ManifestInterpreter.
Import Int Dec.
Import Manifest(ManifestValue, ManifestCustomValue, ManifestCustomValueKind, ManifestExpression, MAddress, MBucket,
  MProof, MExpression, MBlob, MDecimal, MPreciseDecimal, MNonFungibleLocalId, MAddressReservation, Static, Named,
  EntireWorktop, EntireAuthZone, manifest_encode, MANIFEST_SBOR_V1_PAYLOAD_PREFIX, MANIFEST_SBOR_V1_MAX_DEPTH,
  manifest_custom_value_kind, manifest_custom_value, manifest_laws).
Import TraversalSpec TraversalTheory.

Module InterpreterSpec.

Inductive IdRef : Type :=
| UseBucket (b : Z)
| UseProof (p : Z)
| UseReservation (r : Z)
| UseAddress (a : Z)
| UseBlob (hash : list Z).

Definition value_ref (c : ManifestCustomValue) : list IdRef :=
  match c with
  | MAddress (Named a) => [UseAddress a]
  | MBucket b => [UseBucket b]
  | MProof p => [UseProof p]
  | MAddressReservation r => [UseReservation r]
  | MBlob h => [UseBlob h]
  | _ => []
  end.

(** The ids in the arguments of a call, from left to right. *)
Definition arg_refs (args : ManifestValue) : list IdRef := customs args ≫= value_ref.

(** The live objects after some instructions, and whether a call must follow. *)
Record Usage : Type := mk_usage {
  u_next_bucket : Z;
  u_next_proof : Z;
  u_next_reservation : Z;
  u_next_address : Z;
  u_buckets : gmap Z (list Z);
  u_proofs : gmap Z ProofKind;
  u_reservations : gset Z;
  u_awaiting_call : bool
}.

Definition no_proof_of (b : Z) (u : Usage) : Prop := forall p, u_proofs u !! p <> Some (BucketProof b).

Definition remove_bucket (b : Z) (u : Usage) : Usage :=
  mk_usage (u_next_bucket u) (u_next_proof u) (u_next_reservation u) (u_next_address u) (delete b (u_buckets u))
    (u_proofs u) (u_reservations u) (u_awaiting_call u).
Definition remove_proof (p : Z) (u : Usage) : Usage :=
  mk_usage (u_next_bucket u) (u_next_proof u) (u_next_reservation u) (u_next_address u) (u_buckets u)
    (delete p (u_proofs u)) (u_reservations u) (u_awaiting_call u).
Definition remove_reservation (r : Z) (u : Usage) : Usage :=
  mk_usage (u_next_bucket u) (u_next_proof u) (u_next_reservation u) (u_next_address u) (u_buckets u)
    (u_proofs u) (u_reservations u ∖ {[r]}) (u_awaiting_call u).
Definition add_bucket (resource : list Z) (u : Usage) : Usage :=
  mk_usage (u_next_bucket u + 1) (u_next_proof u) (u_next_reservation u) (u_next_address u)
    (<[u_next_bucket u := resource]> (u_buckets u)) (u_proofs u) (u_reservations u) (u_awaiting_call u).
Definition add_proof (k : ProofKind) (u : Usage) : Usage :=
  mk_usage (u_next_bucket u) (u_next_proof u + 1) (u_next_reservation u) (u_next_address u) (u_buckets u)
    (<[u_next_proof u := k]> (u_proofs u)) (u_reservations u) (u_awaiting_call u).
Definition drop_all_proofs (u : Usage) : Usage :=
  mk_usage (u_next_bucket u) (u_next_proof u) (u_next_reservation u) (u_next_address u) (u_buckets u)
    ∅ (u_reservations u) (u_awaiting_call u).
Definition add_reservation (u : Usage) : Usage :=
  mk_usage (u_next_bucket u) (u_next_proof u) (u_next_reservation u + 1) (u_next_address u) (u_buckets u)
    (u_proofs u) ({[u_next_reservation u]} ∪ u_reservations u) (u_awaiting_call u).
Definition add_address (u : Usage) : Usage :=
  mk_usage (u_next_bucket u) (u_next_proof u) (u_next_reservation u) (u_next_address u + 1) (u_buckets u)
    (u_proofs u) (u_reservations u) (u_awaiting_call u).
Definition set_awaiting (w : bool) (u : Usage) : Usage :=
  mk_usage (u_next_bucket u) (u_next_proof u) (u_next_reservation u) (u_next_address u) (u_buckets u)
    (u_proofs u) (u_reservations u) w.

Definition usage_empty : Usage := mk_usage 0 0 0 0 ∅ ∅ ∅ false.
(** The reservations of the preallocated addresses exist from the start. *)
Definition usage_start (m : Manifest) : Usage :=
  Nat.iter (length (get_preallocated_addresses m)) add_reservation usage_empty.

Definition yields (kind : InvocationKind) : bool :=
  match kind with YieldToParentInvocation | YieldToChildInvocation _ => true | _ => false end.
Definition is_proof (r : IdRef) : bool := match r with UseProof _ => true | _ => false end.
Definition is_call (e : ManifestInstructionEffect) : bool := match e with Invocation _ _ => true | _ => false end.

Section Rules.
Context (ruleset : ValidationRuleset) (m : Manifest).

Inductive use : Usage -> IdRef -> Usage -> Prop :=
| use_bucket u b resource : u_buckets u !! b = Some resource -> no_proof_of b u -> use u (UseBucket b) (remove_bucket b u)
| use_proof u p k : u_proofs u !! p = Some k -> use u (UseProof p) (remove_proof p u)
| use_reservation u r : r ∈ u_reservations u -> use u (UseReservation r) (remove_reservation r u)
| use_address u a : 0 <= a < u_next_address u -> use u (UseAddress a) u
| use_blob u h : (validate_blob_refs ruleset = true -> h ∈ (get_blobs m).*1) -> use u (UseBlob h) u.

Inductive uses : Usage -> list IdRef -> Usage -> Prop :=
| uses_nil u : uses u [] u
| uses_cons u r u1 rs u2 : use u r u1 -> uses u1 rs u2 -> uses u (r :: rs) u2.

Definition kind_ok (k : ProofKind) (u : Usage) : Prop :=
  match k with BucketProof b => is_Some (u_buckets u !! b) | AuthZoneProof => True end.

Definition address_known (address : DynamicAddress) (u : Usage) : Prop :=
  match address with NamedAddress a => 0 <= a < u_next_address u | StaticAddress _ => True end.

Definition call_allowed (kind : InvocationKind) (u : Usage) : Prop :=
  match kind with
  | MethodInvocation address _ _ | FunctionInvocation address _ _ =>
      validate_dynamic_address_in_command_part ruleset = true -> address_known address u
  | DirectMethodInvocation _ _ => True
  | YieldToParentInvocation => is_subintent m = true
  | YieldToChildInvocation child => child < Z.of_nat (length (get_child_subintent_hashes m))
  end.

(** The arguments fit in a manifest payload. *)
Definition args_ok (args : ManifestValue) : Prop :=
  encodable args = true /\ (value_depth args <= MANIFEST_SBOR_V1_MAX_DEPTH)%nat.

Definition assertion_ok (a : ResourceAssertion) (u : Usage) : Prop :=
  match a with
  | AssertWorktop (ResourceNonZeroAmount _) => True
  | AssertWorktop (ResourceAtLeastAmount _ amount) => 0 <= amount
  | AssertWorktop (ResourceAtLeastNonFungibles resource _) => is_fungible resource = false
  | AssertWorktop (ResourcesOnly constraints) | AssertWorktop (ResourcesInclude constraints)
  | AssertNextCall (ReturnsOnly constraints) | AssertNextCall (ReturnsInclude constraints) =>
      constraints_is_valid constraints = true
  | AssertBucket (BucketContents b constraint) =>
      exists resource, u_buckets u !! b = Some resource /\ constraint_is_valid_for constraint resource = true
  end.

Definition about_next_call (a : ResourceAssertion) : bool :=
  match a with AssertNextCall _ => true | _ => false end.

Inductive step : Usage -> ManifestInstructionEffect -> Usage -> Prop :=
| step_create_bucket u s : step u (CreateBucket s) (add_bucket (source_resource_address s) u)
| step_create_proof u s : kind_ok (proof_kind s) u -> step u (CreateProof s) (add_proof (proof_kind s) u)
| step_consume_bucket u b d u' : use u (UseBucket b) u' -> step u (ConsumeBucket b d) u'
| step_consume_proof u p d u' : use u (UseProof p) u' -> step u (ConsumeProof p d) u'
| step_clone_proof u p k : u_proofs u !! p = Some k -> step u (CloneProofEffect p) (add_proof k u)
| step_drop_proofs u all s n : step u (DropManyProofs all s n) (if all then drop_all_proofs u else u)
| step_invocation u kind args u' : call_allowed kind u -> args_ok args ->
    (yields kind = true -> Forall (fun r => is_proof r = false) (arg_refs args)) ->
    uses u (arg_refs args) u' -> step u (Invocation kind args) u'
| step_create_address u p n : step u (CreateAddressAndReservation p n) (add_address (add_reservation u))
| step_assertion u a : (validate_resource_assertions ruleset = true -> assertion_ok a u) ->
    step u (ResourceAssertionEffect a)
      (set_awaiting (validate_resource_assertions ruleset && about_next_call a) u)
| step_verification u k rule : is_subintent m = true -> step u (Verification k rule) u.

(** After an assertion on the next call, only a call may follow. *)
Definition next (u : Usage) (e : ManifestInstructionEffect) (u' : Usage) : Prop :=
  (u_awaiting_call u = true -> is_call e = true) /\ step (set_awaiting false u) e u'.

Inductive steps : Usage -> list ManifestInstructionEffect -> Usage -> Prop :=
| steps_nil u : steps u [] u
| steps_cons u e u1 es u2 : next u e u1 -> steps u1 es u2 -> steps u (e :: es) u2.

Definition ends_with_yield : Prop :=
  exists instrs args, instructions m = instrs ++ [YieldToParent args].

Definition well_formed : Prop :=
  (validate_no_duplicate_blobs ruleset = true -> NoDup (get_blobs m).*1) /\
  (is_subintent m = true -> ends_with_yield) /\
  exists u, steps (usage_start m) (iter_instruction_effects m) u /\ u_awaiting_call u = false /\
    (validate_no_dangling_nodes ruleset = true -> u_buckets u = ∅ /\ u_reservations u = ∅).
End Rules.

(** Ids are 32-bit integers and arguments are values of their types. *)
Definition effect_wf (e : ManifestInstructionEffect) : Prop :=
  match e with
  | CreateProof s => match proof_kind s with BucketProof b => 0 <= b | AuthZoneProof => True end
  | ConsumeBucket b _ | ResourceAssertionEffect (AssertBucket (BucketContents b _)) => 0 <= b
  | ConsumeProof p _ | CloneProofEffect p => 0 <= p
  | Invocation kind args =>
      value_ok args = true /\
      match kind with
      | MethodInvocation (NamedAddress a) _ _ | FunctionInvocation (NamedAddress a) _ _ => 0 <= a
      | _ => True
      end
  | _ => True
  end.

Definition manifest_wf (m : Manifest) : Prop :=
  Forall effect_wf (iter_instruction_effects m) /\
  Z.of_nat (length (get_preallocated_addresses m)) + instruction_count m < 2 ^ 32 - 1.
End InterpreterSpec.

(** ** Lemmas on the specification *)

Module UsageLemmas.
Import InterpreterSpec.

(** The number of live proofs of a bucket. *)
Definition live (b : Z) (ps : gmap Z ProofKind) : Z :=
  msum (fun k => match k with BucketProof b' => if b =? b' then 1 else 0 | AuthZoneProof => 0 end) ps.

Record usage_ok (n : Z) (u : Usage) : Prop := {
  ok_next_bucket : 0 <= u_next_bucket u <= n;
  ok_next_proof : 0 <= u_next_proof u <= n;
  ok_next_reservation : 0 <= u_next_reservation u <= n;
  ok_next_address : 0 <= u_next_address u <= n;
  ok_buckets : forall b a, u_buckets u !! b = Some a -> 0 <= b < u_next_bucket u;
  ok_proofs : forall p k, u_proofs u !! p = Some k -> 0 <= p < u_next_proof u;
  ok_reservations : forall r, r ∈ u_reservations u -> 0 <= r < u_next_reservation u;
  ok_live : forall b, live b (u_proofs u) <= u_next_proof u;
  ok_owned : forall p b, u_proofs u !! p = Some (BucketProof b) -> is_Some (u_buckets u !! b)
}.

Definition weight (b : Z) (k : ProofKind) : Z :=
  match k with BucketProof b' => if b =? b' then 1 else 0 | AuthZoneProof => 0 end.

Lemma weight_cases b k : (k = BucketProof b /\ weight b k = 1) \/ (k <> BucketProof b /\ weight b k = 0).
Proof. destruct k as [b'|]; cbn; [|by right]. destruct (Z.eqb_spec b b'); [left; by subst|right; split; congruence]. Qed.

Lemma locks_nonneg b ps : 0 <= live b ps.
Proof. apply msum_nonneg. intros _ k _. change (0 <= weight b k). destruct (weight_cases b k); lia. Qed.

Lemma locks_insert b k p ps : ps !! p = None -> live b (<[p := k]> ps) = weight b k + live b ps.
Proof. apply msum_insert_fresh. Qed.

Lemma locks_delete b k p ps : ps !! p = Some k -> live b (delete p ps) = live b ps - weight b k.
Proof. intros Hp. unfold live. rewrite (msum_delete _ ps p k Hp). fold (weight b k). lia. Qed.

Lemma locks_zero b u : live b (u_proofs u) = 0 <-> no_proof_of b u.
Proof.
  unfold no_proof_of. split.
  - intros Hz p Hp. pose proof (locks_nonneg b (delete p (u_proofs u))) as Hn.
    rewrite (locks_delete _ _ _ _ Hp), Hz in Hn. cbn in Hn. rewrite Z.eqb_refl in Hn. lia.
  - generalize (u_proofs u) as ps. unfold live, msum. intros ps. apply (map_fold_weak_ind
      (fun r m => (forall p, m !! p <> Some (BucketProof b)) -> r = 0)); [done|].
    intros p k mp r Hp IH Hno. fold (weight b k). destruct (weight_cases b k) as [[-> _]|[_ ->]].
    + exfalso. apply (Hno p). by rewrite lookup_insert_eq.
    + rewrite IH; [done|]. intros p' Hp'. apply (Hno p'). rewrite lookup_insert_ne by congruence. done.
Qed.

Lemma usage_ok_weaken n n' u : usage_ok n u -> n <= n' -> usage_ok n' u.
Proof. intros [] ?. split; eauto; lia. Qed.

Lemma usage_empty_ok : usage_ok 0 usage_empty.
Proof. split; cbn; [lia..| | | | |]; try done; set_solver. Qed.

Lemma remove_bucket_ok n u b : usage_ok n u -> no_proof_of b u -> usage_ok n (remove_bucket b u).
Proof.
  intros [] Hno. split; cbn; auto.
  - intros b' a [_ ?]%lookup_delete_Some. eauto.
  - intros p b' Hp. rewrite lookup_delete_is_Some. split; [|eauto]. intros ->. by apply (Hno p).
Qed.

Lemma remove_proof_ok n u p k : usage_ok n u -> u_proofs u !! p = Some k -> usage_ok n (remove_proof p u).
Proof.
  intros [] Hp. split; cbn; auto.
  - intros q k' [_ ?]%lookup_delete_Some. eauto.
  - intros b. rewrite (locks_delete _ _ _ _ Hp). destruct (weight_cases b k) as [[_ ->]|[_ ->]]; specialize (ok_live0 b); lia.
  - intros q b [_ ?]%lookup_delete_Some. eauto.
Qed.

Lemma ref_use_ok ruleset m n u r u' : usage_ok n u -> use ruleset m u r u' -> usage_ok n u'.
Proof.
  intros Hok Hu. destruct Hu; [by apply remove_bucket_ok|by eapply remove_proof_ok| |done|done].
  destruct Hok. split; cbn; auto. set_solver.
Qed.

Lemma ref_uses_ok ruleset m n u rs u' : usage_ok n u -> uses ruleset m u rs u' -> usage_ok n u'.
Proof. intros Hok Hu. induction Hu; [done|]. eauto using ref_use_ok. Qed.

Lemma add_proof_usage n u k : usage_ok n u -> kind_ok k u -> usage_ok (n + 1) (add_proof k u).
Proof.
  intros [] Hk. split; cbn; auto; try lia.
  - intros p k' [[<- <-]|[_ Hp]]%lookup_insert_Some; [lia|]. specialize (ok_proofs0 _ _ Hp). lia.
  - intros b. rewrite locks_insert.
    + specialize (ok_live0 b). destruct (weight_cases b k) as [[_ ->]|[_ ->]]; lia.
    + destruct (u_proofs u !! _) eqn:E; [|done]. apply ok_proofs0 in E. lia.
  - intros p b [[<- ->]|[_ Hp]]%lookup_insert_Some; [done|eauto].
Qed.

Lemma add_bucket_ok n u a : usage_ok n u -> usage_ok (n + 1) (add_bucket a u).
Proof.
  intros []. split; cbn; auto; try lia.
  - intros b a' [[<- <-]|[_ Hb]]%lookup_insert_Some; [lia|]. specialize (ok_buckets0 _ _ Hb). lia.
  - intros p b Hp. rewrite lookup_insert_is_Some'. eauto.
Qed.

Lemma add_reservation_ok n u : usage_ok n u -> usage_ok (n + 1) (add_reservation u).
Proof.
  intros []. split; cbn; auto; try lia.
  intros r [->%elem_of_singleton|Hr]%elem_of_union; [lia|]. apply ok_reservations0 in Hr. lia.
Qed.

Lemma set_awaiting_ok n u w : usage_ok n u -> usage_ok n (set_awaiting w u).
Proof. intros []. by split. Qed.

Lemma live_kind_ok n u p k : usage_ok n u -> u_proofs u !! p = Some k -> kind_ok k u.
Proof. intros Hok Hp. destruct k; [|done]. by eapply ok_owned. Qed.

Lemma next_ok ruleset m n u e u' : usage_ok n u -> next ruleset m u e u' -> usage_ok (n + 1) u'.
Proof.
  intros Hok [_ Hs]. apply (set_awaiting_ok _ _ false) in Hok. revert Hok Hs. generalize (set_awaiting false u).
  clear u. intros u Hok Hs. destruct Hs as [| | | | |u [] ? ?| | | |];
    try (eapply (usage_ok_weaken n); [by eauto using ref_use_ok, ref_uses_ok, set_awaiting_ok|lia]).
  - by apply add_bucket_ok.
  - by apply add_proof_usage.
  - apply add_proof_usage; [done|]. by eapply live_kind_ok.
  - destruct Hok. split; cbn; auto; try lia; try done. intros b. unfold live. rewrite msum_empty. lia.
  - pose proof (ok_next_address _ _ Hok). apply add_reservation_ok in Hok. destruct Hok. split; cbn in *; auto; lia.
Qed.

Lemma ref_use_det ruleset m u r u1 u2 : use ruleset m u r u1 -> use ruleset m u r u2 -> u1 = u2.
Proof. intros H1 H2. destruct H1; inversion H2; by simplify_eq. Qed.

Lemma ref_uses_det ruleset m u rs u1 u2 : uses ruleset m u rs u1 -> uses ruleset m u rs u2 -> u1 = u2.
Proof.
  intros H1. revert u2. induction H1 as [|u r u1 rs u3 Hr Hrs IH]; intros u2 H2;
    inversion H2 as [|? ? u1' ? ? Hr' ?]; subst; [done|].
  rewrite (ref_use_det _ _ _ _ _ _ Hr' Hr) in *. auto.
Qed.

Lemma next_det ruleset m u e u1 u2 : next ruleset m u e u1 -> next ruleset m u e u2 -> u1 = u2.
Proof. intros [_ H1] [_ H2]. destruct H1; inversion H2; simplify_eq; eauto using ref_use_det, ref_uses_det. Qed.

Lemma steps_det ruleset m u es u1 u2 : steps ruleset m u es u1 -> steps ruleset m u es u2 -> u1 = u2.
Proof.
  intros H1. revert u2. induction H1 as [|u e u1 es u3 He Hes IH]; intros u2 H2;
    inversion H2 as [|? ? u1' ? ? He' ?]; subst; [done|].
  rewrite (next_det _ _ _ _ _ _ He' He) in *. auto.
Qed.

Lemma ref_uses_app ruleset m u a b u' :
  uses ruleset m u (a ++ b) u' <-> exists u1, uses ruleset m u a u1 /\ uses ruleset m u1 b u'.
Proof.
  revert u. induction a as [|r a IH]; intros u; cbn.
  - split; [intros H; exists u; split; [constructor|done]|].
    intros (u1 & H1 & H2). inversion H1; by subst.
  - split.
    + intros H. inversion H as [|? ? u0 ? ? Hr Hrs]; subst. apply IH in Hrs as (u1 & ? & ?).
      exists u1. split; [by econstructor|done].
    + intros (u1 & H1 & H2). inversion H1 as [|? ? u0 ? ? Hr Hrs]; subst.
      econstructor; [done|]. apply IH. eauto.
Qed.
End UsageLemmas.

(** ** The interpreter against the specification *)

Module InterpreterLemmas.
Import InterpreterSpec UsageLemmas.

(** No callback of the visitor panics, and they fail only if [stops]. *)
Record visitor_laws {V E} `{ManifestInterpretationVisitor V E} (stops : Prop) : Prop := {
  start_law v i : wp (on_start_instruction i) v (fun _ _ => True) (fun _ _ => stops);
  end_law v i e : wp (on_end_instruction i e) v (fun _ _ => True) (fun _ _ => stops);
  new_bucket_law v b s : wp (on_new_bucket b s) v (fun _ _ => True) (fun _ _ => stops);
  consume_bucket_law v b s d : wp (on_consume_bucket b s d) v (fun _ _ => True) (fun _ _ => stops);
  new_proof_law v p s : wp (on_new_proof p s) v (fun _ _ => True) (fun _ _ => stops);
  consume_proof_law v p s d : wp (on_consume_proof p s d) v (fun _ _ => True) (fun _ _ => stops);
  new_reservation_law v r s : wp (on_new_address_reservation r s) v (fun _ _ => True) (fun _ _ => stops);
  consume_reservation_law v r s d : wp (on_consume_address_reservation r s d) v (fun _ _ => True) (fun _ _ => stops);
  new_named_address_law v a s p n : wp (on_new_named_address a s p n) v (fun _ _ => True) (fun _ _ => stops);
  new_intent_law v i s : wp (on_new_intent i s) v (fun _ _ => True) (fun _ _ => stops);
  drop_authzone_law v s n : wp (on_drop_authzone_proofs s n) v (fun _ _ => True) (fun _ _ => stops);
  pass_expression_law v e k : wp (on_pass_expression e k) v (fun _ _ => True) (fun _ _ => stops);
  register_blob_law v h c : wp (on_register_blob h c) v (fun _ _ => True) (fun _ _ => stops);
  pass_blob_law v h k : wp (on_pass_blob h k) v (fun _ _ => True) (fun _ _ => stops);
  assertion_law v a : wp (on_resource_assertion a) v (fun _ _ => True) (fun _ _ => stops);
  verification_law v k r : wp (on_verification k r) v (fun _ _ => True) (fun _ _ => stops);
  finish_law v : wp on_finish v (fun _ _ => True) (fun _ _ => stops)
}.

Lemma unit_laws : visitor_laws (V := unit) False.
Proof. split; intros; apply wp_ret; done. Qed.

(** The state of the interpreter that stands for a usage: the lock count of a
    live bucket is the number of its live proofs. *)
Record represents (s : StaticManifestInterpreter) (u : Usage) : Prop := {
  rep_next_bucket : Z.of_nat (length (bucket_state s)) = u_next_bucket u;
  rep_next_proof : Z.of_nat (length (proof_state s)) = u_next_proof u;
  rep_next_reservation : Z.of_nat (length (address_reservation_state s)) = u_next_reservation u;
  rep_next_address : Z.of_nat (length (named_address_state s)) = u_next_address u;
  rep_bucket : forall b st, bucket_state s !! b = Some st ->
    match bucket_consumed_at st with
    | Some _ => u_buckets u !! Z.of_nat b = None
    | None => u_buckets u !! Z.of_nat b = Some (source_resource_address (bucket_source_amount st)) /\
              proof_locks st = live (Z.of_nat b) (u_proofs u)
    end;
  rep_proof : forall p st, proof_state s !! p = Some st ->
    u_proofs u !! Z.of_nat p =
      match proof_consumed_at st with Some _ => None | None => Some (proof_kind (proof_source_amount st)) end;
  rep_reservation : forall r st, address_reservation_state s !! r = Some st ->
    (Z.of_nat r ∈ u_reservations u <-> reservation_consumed_at st = None);
  rep_awaiting : u_awaiting_call u = match next_instruction_requirement s with NoRequirement => false | _ => true end
}.

Section Visited.
Context {V E : Type} `{!ManifestInterpretationVisitor V E} (stops : Prop) (Hvis : visitor_laws (V := V) stops).
Context (ruleset : ValidationRuleset) (m : Manifest) (blobs : list (list Z)).
Context (Hlock : validate_bucket_proof_lock ruleset = true) (Hblobs : forall h, h ∈ blobs <-> h ∈ (get_blobs m).*1).

Abbreviation IM := (M (StaticManifestInterpreter * V) E).
Abbreviation use := (use ruleset m).
Abbreviation uses := (uses ruleset m).

Lemma wp_self {A} (f : StaticManifestInterpreter -> A) s v Q (R : E -> _ -> Prop) :
  Q (f s) (s, v) -> wp (self (V := V) f) (s, v) Q R.
Proof. intros. by apply wp_gets. Qed.

Lemma wp_update f s v (Q : unit -> _ -> Prop) (R : E -> _ -> Prop) :
  Q tt (f s, v) -> wp (update (V := V) f) (s, v) Q R.
Proof. intros. by apply wp_modify. Qed.

Lemma wp_break {A} e s v (Q : A -> _ -> Prop) R :
  (forall e, R e (s, v)) -> wp (break (V := V) (E := E) e) (s, v) Q R.
Proof. intros. by apply wp_throw. Qed.

Lemma wp_visit {A} (cb : M V E A) s v (Q : A -> _ -> Prop) (R : E -> _ -> Prop) :
  wp cb v (fun _ _ => True) (fun _ _ => stops) -> (forall a v', Q a (s, v')) ->
  (stops -> forall e v', R e (s, v')) -> wp (visit cb) (s, v) Q R.
Proof.
  unfold wp, visit, zoom. cbn. destruct (cb v) as [[[a|e] v']|]; eauto.
Qed.

(** A computation implements a transition of the specification: it succeeds
    exactly when there is one, unless the visitor stops it, and never panics. *)
Definition implements {A} (c : IM A) (T : Usage -> Usage -> Prop) : Prop :=
  forall n s v u, represents s u -> registered_blobs s = blobs -> usage_ok n u -> n < 2 ^ 32 - 1 ->
    wp c (s, v) (fun _ s' => exists u', T u u' /\ represents s'.1 u' /\ registered_blobs s'.1 = blobs)
      (fun _ _ => stops \/ forall u', ~ T u u').

Lemma interprets_iff {A} (c : IM A) (T T' : Usage -> Usage -> Prop) :
  implements c T -> (forall u u', T u u' <-> T' u u') -> implements c T'.
Proof.
  intros Hm Hiff n s v u Hr Hb Hok Hn. eapply wp_mono; [by apply (Hm n)| |].
  - cbn. intros _ s' (u' & ? & ?). exists u'. by rewrite <- Hiff.
  - cbn. intros _ _ [?|Hno]; [by left|right]. intros u' Hu. apply (Hno u'). by rewrite Hiff.
Qed.

(** The bucket with an id that has been created. *)
Lemma lookup_bucket s u b : represents s u -> 0 <= b ->
  match bucket_state s !! Z.to_nat b with
  | Some st =>
      match bucket_consumed_at st with
      | Some _ => u_buckets u !! b = None
      | None => u_buckets u !! b = Some (source_resource_address (bucket_source_amount st)) /\
                proof_locks st = live b (u_proofs u)
      end
  | None => u_next_bucket u <= b
  end.
Proof.
  intros Hr Hb. destruct (bucket_state s !! Z.to_nat b) as [st|] eqn:Hs.
  - pose proof (rep_bucket _ _ Hr _ _ Hs) as H. by rewrite Z2Nat.id in H.
  - apply lookup_ge_None in Hs. rewrite <- (rep_next_bucket _ _ Hr). lia.
Qed.

Lemma get_bucket_wp n s0 s v u b Q (R : E -> _ -> Prop) : represents s0 u -> usage_ok n u ->
  bucket_state s = bucket_state s0 -> 0 <= b ->
  (forall st, bucket_state s !! Z.to_nat b = Some st -> bucket_consumed_at st = None ->
     u_buckets u !! b = Some (source_resource_address (bucket_source_amount st)) ->
     proof_locks st = live b (u_proofs u) -> Q st (s, v)) ->
  (u_buckets u !! b = None -> forall e, R e (s, v)) ->
  wp (get_existing_bucket (V := V) b) (s, v) Q R.
Proof.
  intros Hr Hok Heq Hb HQ HR. pose proof (lookup_bucket s0 u b Hr Hb) as Hl. rewrite <- Heq in Hl.
  unfold get_existing_bucket.
  apply wp_bind, wp_self. unfold id. destruct (bucket_state s !! Z.to_nat b) as [st|] eqn:Hs.
  - destruct (bucket_consumed_at st) eqn:Hc; [by apply wp_break, HR|]. apply wp_ret. destruct Hl. by apply HQ.
  - apply wp_break, HR. destruct (u_buckets u !! b) eqn:Hu; [|done]. apply (ok_buckets _ _ Hok) in Hu. lia.
Qed.

Lemma consume_bucket_implements b d : 0 <= b ->
  implements (consume_bucket ruleset b d) (fun u u' => use u (UseBucket b) u').
Proof.
  intros Hb n s v u Hr Hbl Hok Hn. unfold consume_bucket. apply wp_bind, wp_self, wp_bind.
  eapply get_bucket_wp; [done..| |].
  - intros st Hs Hc Hu Hl. apply wp_bind. rewrite Hlock. cbn [andb].
    destruct (0 <? proof_locks st) eqn:Hz; zbool.
    + apply wp_break. intros e. right. intros u' Huse. inversion Huse as [? ? ? _ Hno| | | |]; subst.
      apply locks_zero in Hno. lia.
    + pose proof (locks_nonneg b (u_proofs u)). assert (live b (u_proofs u) = 0) as Hz0 by lia.
      apply locks_zero in Hz0. apply wp_ret, wp_bind, wp_update.
      apply wp_visit; [apply (consume_bucket_law _ Hvis)| |by left]. intros _ v'.
      exists (remove_bucket b u). split; [by econstructor|]. split; [|done]. destruct Hr. split; cbn; auto.
      * by rewrite length_insert.
      * intros b' st' Hb'. destruct (decide (b' = Z.to_nat b)) as [->|].
        -- rewrite list_lookup_insert_eq in Hb' by (by eapply lookup_lt_Some). injection Hb' as <-. cbn.
           rewrite Z2Nat.id by done. apply lookup_delete_eq.
        -- rewrite list_lookup_insert_ne in Hb' by done. rewrite lookup_delete_ne by lia. by apply rep_bucket0.
  - intros Hu e. right. intros u' Huse. inversion Huse; congruence.
Qed.
(** *** Proofs *)

Definition bucket_rep (bs : list BucketState) (buckets : gmap Z (list Z)) (ps : gmap Z ProofKind) : Prop :=
  forall b st, bs !! b = Some st ->
    match bucket_consumed_at st with
    | Some _ => buckets !! Z.of_nat b = None
    | None => buckets !! Z.of_nat b = Some (source_resource_address (bucket_source_amount st)) /\
              proof_locks st = live (Z.of_nat b) ps
    end.

(** The buckets after the lock count of a proof's bucket has moved. *)
Definition locked (d : Z) (k : ProofKind) (bs : list BucketState) : list BucketState :=
  match k with
  | BucketProof b =>
      match bs !! Z.to_nat b with Some st => <[Z.to_nat b := add_locks d st]> bs | None => bs end
  | AuthZoneProof => bs
  end.

Lemma locked_length d k bs : length (locked d k bs) = length bs.
Proof. destruct k; cbn; [|done]. case_match; [apply length_insert|done]. Qed.

Definition kind_wf (k : ProofKind) : Prop := match k with BucketProof b => 0 <= b | AuthZoneProof => True end.

Lemma locked_rep d k bs buckets ps ps' : bucket_rep bs buckets ps -> kind_wf k ->
  (forall b, live b ps' = live b ps + d * weight b k) -> (forall b, live b ps' < 2 ^ 32) ->
  bucket_rep (locked d k bs) buckets ps'.
Proof.
  intros Hr Hk Hl Hlt b st Hs.
  assert (forall st, bs !! b = Some st -> weight (Z.of_nat b) k = 0 ->
    match bucket_consumed_at st with
    | Some _ => buckets !! Z.of_nat b = None
    | None => buckets !! Z.of_nat b = Some (source_resource_address (bucket_source_amount st)) /\
              proof_locks st = live (Z.of_nat b) ps'
    end) as Hsame.
  { intros st0 Hs0 Hw. apply Hr in Hs0. destruct (bucket_consumed_at st0); [done|].
    rewrite Hl, Hw, Z.mul_0_r, Z.add_0_r. done. }
  destruct k as [b0|]; cbn in Hs; [|by apply Hsame].
  destruct (bs !! Z.to_nat b0) as [st0|] eqn:H0.
  2: { apply Hsame; [done|]. cbn. destruct (Z.eqb_spec (Z.of_nat b) b0) as [<-|]; [|done].
       rewrite Nat2Z.id in H0. congruence. }
  destruct (decide (b = Z.to_nat b0)) as [->|Hne].
  - rewrite list_lookup_insert_eq in Hs by (by eapply lookup_lt_Some). injection Hs as <-.
    apply Hr in H0. rewrite Z2Nat.id in H0 |- * by done. cbn.
    destruct (bucket_consumed_at st0); [done|]. destruct H0 as [? ->]. split; [done|].
    specialize (Hl b0). cbn in Hl. rewrite Z.eqb_refl, Z.mul_1_r in Hl. rewrite <- Hl.
    apply wrap_u_small. unfold u_max. pose proof (locks_nonneg b0 ps'). specialize (Hlt b0). lia.
  - rewrite list_lookup_insert_ne in Hs by done. apply Hsame; [done|]. cbn.
    destruct (Z.eqb_spec (Z.of_nat b) b0) as [<-|]; [|done]. by rewrite Nat2Z.id in Hne.
Qed.

Lemma lock_bucket_wp n s0 s v u d k (Q : unit -> _ -> Prop) (R : E -> _ -> Prop) : represents s0 u -> usage_ok n u ->
  bucket_state s = bucket_state s0 -> kind_wf k ->
  (kind_ok k u -> Q tt (with_bucket_state s (locked d k (bucket_state s)), v)) ->
  (~ kind_ok k u -> forall e, R e (s, v)) ->
  wp (lock_bucket (V := V) d k) (s, v) Q R.
Proof.
  intros Hr Hok Heq Hk HQ HR. destruct k as [b|]; cbn [lock_bucket].
  - apply wp_bind. eapply get_bucket_wp; [done..| |].
    + intros st Hs _ Hu _. apply wp_update. cbn [locked] in HQ. rewrite Hs in HQ. apply HQ. cbn. by rewrite Hu.
    + intros Hu e. apply HR. cbn. rewrite Hu. by intros [].
  - apply wp_ret. replace s with (with_bucket_state s (locked d AuthZoneProof (bucket_state s))) by (by destruct s).
    by apply HQ.
Qed.

(** Both ways to make a proof: the bucket is locked once more, the proof gets
    a fresh id. *)
Lemma handle_new_proof_implements source : kind_wf (proof_kind source) ->
  implements (handle_new_proof source) (fun u u' => kind_ok (proof_kind source) u /\ u' = add_proof (proof_kind source) u).
Proof.
  intros Hk n s v u Hr Hbl Hok Hn. unfold handle_new_proof. apply wp_bind.
  eapply (lock_bucket_wp n s); [done..| |].
  2: { intros Hno e. right. by intros u' [? _]. }
  intros Hkok. apply wp_bind, wp_self, wp_bind, wp_visit; [apply (new_proof_law _ Hvis)| |by left].
  intros _ v'. apply wp_update. exists (add_proof (proof_kind source) u). split; [done|]. split; [|done].
  pose proof (ok_next_proof _ _ Hok) as Hnp. unfold id. cbn [proof_state with_bucket_state location].
  assert (u_proofs u !! u_next_proof u = None) as Hfresh.
  { destruct (u_proofs u !! _) eqn:He; [|done]. apply (ok_proofs _ _ Hok) in He. lia. }
  pose proof (rep_bucket _ _ Hr) as Hbs. pose proof (rep_proof _ _ Hr) as Hps. pose proof (rep_next_proof _ _ Hr) as Hlp.
  destruct Hr. split; cbn -[locked]; auto.
  - by rewrite locked_length.
  - rewrite length_app. cbn. lia.
  - apply (locked_rep 1 _ _ _ (u_proofs u)); [done|done| |]; intros b; rewrite locks_insert by done; [lia|].
    pose proof (ok_live _ _ Hok b). destruct (weight_cases b (proof_kind source)) as [[_ ->]|[_ ->]]; lia.
  - intros p st Hp. apply lookup_app_Some in Hp as [Hp|[Hge Hp]].
    + rewrite lookup_insert_ne; [by apply Hps|]. apply lookup_lt_Some in Hp. lia.
    + apply list_lookup_singleton_Some in Hp as [Hi <-]. cbn.
      replace (Z.of_nat p) with (u_next_proof u) by lia. apply lookup_insert_eq.
Qed.

Lemma get_proof_wp n s v u p Q (R : E -> _ -> Prop) : represents s u -> usage_ok n u -> 0 <= p ->
  (forall st, proof_state s !! Z.to_nat p = Some st -> proof_consumed_at st = None ->
     u_proofs u !! p = Some (proof_kind (proof_source_amount st)) -> Q st (s, v)) ->
  (u_proofs u !! p = None -> forall e, R e (s, v)) ->
  wp (get_existing_proof (V := V) p) (s, v) Q R.
Proof.
  intros Hr Hok Hp HQ HR. unfold get_existing_proof. apply wp_bind, wp_self. unfold id.
  destruct (proof_state s !! Z.to_nat p) as [st|] eqn:Hs.
  - pose proof (rep_proof _ _ Hr _ _ Hs) as Hl. rewrite Z2Nat.id in Hl by done.
    destruct (proof_consumed_at st) eqn:Hc; [by apply wp_break, HR|]. apply wp_ret. by apply HQ.
  - apply wp_break, HR. destruct (u_proofs u !! p) eqn:Hu; [|done]. apply (ok_proofs _ _ Hok) in Hu.
    apply lookup_ge_None in Hs. pose proof (rep_next_proof _ _ Hr). lia.
Qed.

(** A live proof was made from an existing bucket, whose id is not negative. *)
Lemma live_kind_wf n u p k : usage_ok n u -> u_proofs u !! p = Some k -> kind_wf k.
Proof.
  intros Hok Hp. destruct k as [b|]; [|done]. destruct (ok_owned _ _ Hok _ _ Hp) as [a Ha].
  apply (ok_buckets _ _ Hok) in Ha. cbn. lia.
Qed.

Lemma consume_proof_implements p d : 0 <= p ->
  implements (consume_proof p d) (fun u u' => use u (UseProof p) u').
Proof.
  intros Hp n s v u Hr Hbl Hok Hn. unfold consume_proof. apply wp_bind, wp_self, wp_bind.
  eapply get_proof_wp; [done..| |].
  2: { intros Hu e. right. intros u' Huse. inversion Huse; congruence. }
  intros st Hs Hc Hu. apply wp_bind, wp_update, wp_bind, wp_visit; [apply (consume_proof_law _ Hvis)| |by left].
  intros _ v'. set (k := proof_kind (proof_source_amount st)) in *.
  eapply (lock_bucket_wp n s); [done..|by eapply live_kind_wf| |].
  2: { intros Hno. destruct Hno. by eapply live_kind_ok. }
  intros _. exists (remove_proof p u). split; [by econstructor|]. split; [|done].
  pose proof (rep_bucket _ _ Hr) as Hbs. pose proof (rep_proof _ _ Hr) as Hps. pose proof (rep_next_proof _ _ Hr) as Hlp.
  pose proof (live_kind_wf _ _ _ _ Hok Hu) as Hkw.
  destruct Hr. split; cbn -[locked]; auto.
  - by rewrite locked_length.
  - by rewrite length_insert.
  - change (bucket_rep (locked (-1) k (bucket_state s)) (u_buckets u) (delete p (u_proofs u))).
    apply (locked_rep _ _ _ _ (u_proofs u)); [done|done| |]; intros b; rewrite (locks_delete _ _ _ _ Hu); [lia|].
    pose proof (ok_live _ _ Hok b). pose proof (ok_next_proof _ _ Hok). destruct (weight_cases b k) as [[_ ->]|[_ ->]]; lia.
  - intros q st' Hq. destruct (decide (q = Z.to_nat p)) as [->|].
    + rewrite list_lookup_insert_eq in Hq by (by eapply lookup_lt_Some). injection Hq as <-. cbn.
      rewrite Z2Nat.id by done. apply lookup_delete_eq.
    + rewrite list_lookup_insert_ne in Hq by done. rewrite lookup_delete_ne by lia. by apply Hps.
Qed.

Lemma handle_cloned_proof_implements p : 0 <= p ->
  implements (handle_cloned_proof p) (fun u u' => exists k, u_proofs u !! p = Some k /\ u' = add_proof k u).
Proof.
  intros Hp n s v u Hr Hbl Hok Hn. unfold handle_cloned_proof. apply wp_bind. eapply get_proof_wp; [done..| |].
  - intros st Hs Hc Hu. eapply wp_mono; [eapply handle_new_proof_implements; eauto using live_kind_wf| |]; cbn beta.
    + intros _ s' (u' & [_ ->] & ?). eexists. split; [by exists (proof_kind (proof_source_amount st))|done].
    + intros _ _ [?|Hno]; [by left|]. destruct (Hno (add_proof (proof_kind (proof_source_amount st)) u)). split; [|done].
      by eapply live_kind_ok.
  - intros Hu e. right. intros u' (k & Hk & _). congruence.
Qed.

(** *** Dropping all proofs *)

Lemma live_proofs_spec i l p : 0 <= i -> i + Z.of_nat (length l) <= 2 ^ 32 ->
  p ∈ live_proofs i l <-> exists j st, l !! j = Some st /\ proof_consumed_at st = None /\ p = i + Z.of_nat j.
Proof.
  revert i. induction l as [|st l IH]; intros i Hi Hl; cbn [live_proofs length] in *.
  { split; [by intros ?%elem_of_nil|]. by intros (j & st & ? & _). }
  assert (p ∈ live_proofs (i + 1) l <-> exists j st', l !! j = Some st' /\ proof_consumed_at st' = None /\ p = i + Z.of_nat (S j))
    as Htail. { rewrite IH by lia. split; intros (j & st' & ? & ? & ?); exists j, st'; split_and!; try done; lia. }
  assert (wrap_u 32 i = i) as Hw by (apply wrap_u_small; unfold u_max; lia).
  destruct (proof_consumed_at st) eqn:Hc; rewrite ?elem_of_cons, Htail, ?Hw; split.
  - intros (j & st' & ? & ? & ?). by exists (S j), st'.
  - intros ([|j] & st' & Hs & ? & ?); cbn in Hs; [congruence|by exists j, st'].
  - intros [->|(j & st' & ? & ? & ?)]; [exists O, st; split_and!; [done..|lia]|by exists (S j), st'].
  - intros ([|j] & st' & Hs & ? & ->); cbn in Hs; [left; lia|right; by exists j, st'].
Qed.

Lemma live_proofs_NoDup i l : 0 <= i -> i + Z.of_nat (length l) <= 2 ^ 32 -> NoDup (live_proofs i l).
Proof.
  revert i. induction l as [|st l IH]; intros i Hi Hl; cbn [live_proofs length] in *; [constructor|].
  destruct (proof_consumed_at st); [apply IH; lia|]. constructor; [|apply IH; lia].
  rewrite live_proofs_spec by lia. intros (j & st' & _ & _ & Hp).
  rewrite wrap_u_small in Hp by (unfold u_max; lia). lia.
Qed.

Lemma drop_live_proofs n ids s v u : represents s u -> registered_blobs s = blobs -> usage_ok n u -> n < 2 ^ 32 - 1 ->
  NoDup ids -> (forall p, p ∈ ids <-> is_Some (u_proofs u !! p)) ->
  wp (drop_proofs ids) (s, v)
    (fun _ s' => represents s'.1 (drop_all_proofs u) /\ registered_blobs s'.1 = blobs) (fun _ _ => stops).
Proof.
  revert s v u. induction ids as [|p ids IH]; intros s v u Hr Hb Hok Hn Hnd Hin; cbn [drop_proofs].
  - apply wp_ret. split; [|done]. replace (drop_all_proofs u) with u; [done|]. unfold drop_all_proofs. destruct u. cbn in *.
    f_equal. apply map_empty. intros p. destruct (u_proofs0 !! p) eqn:He; [|done]. exfalso.
    apply (not_elem_of_nil p), Hin. by rewrite He.
  - apply NoDup_cons in Hnd as [Hp Hnd]. apply wp_bind.
    assert (is_Some (u_proofs u !! p)) as [k Hk] by (apply Hin; set_solver).
    pose proof (ok_proofs _ _ Hok _ _ Hk) as Hpr.
    eapply wp_mono; [apply (consume_proof_implements p _ ltac:(lia) n s v u); done| |]; cbn beta.
    + intros _ [s' v'] (u' & Hu' & Hr' & Hb').
      assert (u' = remove_proof p u) as -> by (inversion Hu'; by subst).
      eapply wp_mono; [apply (IH s' v' (remove_proof p u)); try done; [by eapply remove_proof_ok|]| |]; [|done..].
      intros q. cbn. rewrite lookup_delete_is_Some, <- Hin. set_solver.
    + intros e s' [?|Hno]; [done|]. destruct (Hno (remove_proof p u)). by econstructor.
Qed.

Lemma handle_drop_many_implements all sg ns :
  implements (handle_drop_many_proofs all sg ns) (fun u u' => u' = if all : bool then drop_all_proofs u else u).
Proof.
  intros n s v u Hr Hb Hok Hn. unfold handle_drop_many_proofs. apply wp_bind.
  eapply (wp_mono _ _ (fun _ s' => represents s'.1 (if all then drop_all_proofs u else u) /\ registered_blobs s'.1 = blobs)
    _ (fun _ _ => stops)); [| |by left].
  - destruct all; [|by apply wp_ret]. apply wp_bind, wp_self. unfold id.
    pose proof (ok_next_proof _ _ Hok). pose proof (rep_next_proof _ _ Hr).
    eapply drop_live_proofs; [done..|apply live_proofs_NoDup; lia|]. intros p. rewrite live_proofs_spec by lia. split.
    + intros (j & st & Hs & Hc & ->). pose proof (rep_proof _ _ Hr _ _ Hs) as Hp. by rewrite Hc, Z.add_0_l in *.
    + intros [k Hk]. pose proof (ok_proofs _ _ Hok _ _ Hk) as Hpr.
      destruct (lookup_lt_is_Some_2 (proof_state s) (Z.to_nat p)) as [st Hs]; [lia|].
      pose proof (rep_proof _ _ Hr _ _ Hs) as Hp. rewrite Z2Nat.id, Hk in Hp by lia.
      exists (Z.to_nat p), st. split_and!; [done| |lia]. by destruct (proof_consumed_at st).
  - cbn beta. intros _ [s' v'] [Hr' Hb']. destruct (sg || ns); [|by apply wp_ret; eexists].
    apply wp_visit; [apply (drop_authzone_law _ Hvis)|by eexists|by left].
Qed.

(** *** Reservations and addresses *)

Lemma new_reservation_wp n s v u p bp pre (Q : Z -> _ -> Prop) (R : E -> _ -> Prop) :
  represents s u -> usage_ok n u -> n < 2 ^ 32 - 1 ->
  (forall s' r v', represents s' (add_reservation u) -> registered_blobs s' = registered_blobs s -> Q r (s', v')) ->
  (stops -> forall e s', R e s') ->
  wp (handle_new_address_reservation p bp pre) (s, v) Q R.
Proof.
  intros Hr Hok Hn HQ HR. unfold handle_new_address_reservation. apply wp_bind, wp_self, wp_bind, wp_visit;
    [apply (new_reservation_law _ Hvis)| |eauto]. intros _ v'.
  apply wp_bind, wp_update, wp_ret, HQ; [|done]. pose proof (rep_reservation _ _ Hr) as Hrs.
  pose proof (rep_next_reservation _ _ Hr) as Hl. destruct Hr. unfold id. split; cbn; auto.
  - rewrite length_app. cbn. lia.
  - intros r st Hs. rewrite elem_of_union, elem_of_singleton. apply lookup_app_Some in Hs as [Hs|[Hge Hs]].
    + rewrite <- (Hrs _ _ Hs). apply lookup_lt_Some in Hs. split; [intros [?|?]; [lia|done]|by right].
    + apply list_lookup_singleton_Some in Hs as [Hi <-]. cbn. split; [done|]. left. lia.
Qed.

Lemma new_named_address_wp s v u r p bp (Q : unit -> _ -> Prop) (R : E -> _ -> Prop) : represents s u ->
  (forall s' v', represents s' (add_address u) -> registered_blobs s' = registered_blobs s -> Q tt (s', v')) ->
  (stops -> forall e s', R e s') ->
  wp (handle_new_named_address r p bp) (s, v) Q R.
Proof.
  intros Hr HQ HR. unfold handle_new_named_address. apply wp_bind, wp_self, wp_bind, wp_visit;
    [apply (new_named_address_law _ Hvis)| |eauto]. intros _ v'.
  apply wp_update, HQ; [|done]. destruct Hr. unfold id. split; cbn; auto. rewrite length_app. cbn. lia.
Qed.

Lemma consume_reservation_implements r kind : 0 <= r ->
  implements (consume_address_reservation r kind) (fun u u' => use u (UseReservation r) u').
Proof.
  intros Hr0 n s v u Hr Hb Hok Hn. unfold consume_address_reservation, get_existing_address_reservation.
  apply wp_bind, wp_self, wp_bind, wp_bind, wp_self. unfold id.
  pose proof (rep_reservation _ _ Hr) as Hrs. pose proof (rep_next_reservation _ _ Hr) as Hl.
  destruct (address_reservation_state s !! Z.to_nat r) as [st|] eqn:Hs.
  - pose proof (Hrs _ _ Hs) as Hst. rewrite Z2Nat.id in Hst by done.
    destruct (reservation_consumed_at st) eqn:Hc.
    + apply wp_break. intros e. right. intros u' Hu. inversion Hu as [| |? ? Hin| |]; subst. by apply Hst in Hin.
    + apply wp_ret, wp_bind, wp_update, wp_visit; [apply (consume_reservation_law _ Hvis)| |by left].
      intros _ v'. exists (remove_reservation r u). split; [constructor; by apply Hst|]. split; [|done].
      destruct Hr. split; cbn; auto; [by rewrite length_insert|].
      intros r' st' Hs'. rewrite elem_of_difference, elem_of_singleton. destruct (decide (r' = Z.to_nat r)) as [->|].
      * rewrite list_lookup_insert_eq in Hs' by (by eapply lookup_lt_Some). injection Hs' as <-. cbn.
        rewrite Z2Nat.id by done. naive_solver.
      * rewrite list_lookup_insert_ne in Hs' by done. rewrite (Hrs _ _ Hs'). split; [by intros [? _]|].
        split; [done|lia].
  - apply wp_break. intros e. right. intros u' Hu. inversion Hu as [| |? ? Hin| |]; subst.
    apply (ok_reservations _ _ Hok) in Hin. apply lookup_ge_None in Hs. lia.
Qed.

Lemma named_address_implements a : 0 <= a ->
  implements (get_existing_named_address a) (fun u u' => 0 <= a < u_next_address u /\ u' = u).
Proof.
  intros Ha n s v u Hr Hb Hok Hn. unfold get_existing_named_address. apply wp_bind, wp_self. unfold id.
  pose proof (rep_next_address _ _ Hr). destruct (named_address_state s !! Z.to_nat a) eqn:Hs.
  - apply wp_ret. exists u. apply lookup_lt_Some in Hs. split; [split; [lia|done]|done].
  - apply wp_break. intros e. right. intros u' [? _]. apply lookup_ge_None in Hs. lia.
Qed.

(** *** Calls *)

Definition custom_step (yields : bool) (c : ManifestCustomValue) (u u' : Usage) : Prop :=
  (yields = true -> Forall (fun r => is_proof r = false) (value_ref c)) /\ uses u (value_ref c) u'.

Lemma uses_one u r u' : use u r u' <-> uses u [r] u'.
Proof.
  split.
  - intros H. econstructor; [done|constructor].
  - intros H. inversion H as [|? ? u0 ? ? Hr Hrs]; subst. inversion Hrs; by subst.
Qed.

Lemma uses_none u u' : uses u [] u' <-> u' = u.
Proof. split; [by inversion 1|intros ->; constructor]. Qed.

Lemma no_id_implements yields c : value_ref c = [] -> implements (mret tt) (custom_step yields c).
Proof.
  intros Hc n s v u Hr Hb Hok Hn. apply wp_ret. exists u. unfold custom_step. rewrite Hc. split; [|done].
  split; [constructor|by apply uses_none].
Qed.

Lemma one_id_implements (c : IM unit) yields y r : value_ref y = [r] -> is_proof r = false ->
  implements c (fun u u' => use u r u') -> implements c (custom_step yields y).
Proof.
  intros Hy Hr Hc. eapply interprets_iff; [done|]. intros u u'. unfold custom_step. rewrite Hy, <- uses_one.
  split; [|by intros [_ ?]]. intros Hu. split; [|done]. intros _. by constructor.
Qed.

Lemma custom_implements kind yields c : custom_ok c = true ->
  implements (handle_custom_value ruleset kind yields c) (custom_step yields c).
Proof.
  intros Hc. destruct c as [[n|a]|b|p|e|h|d|d|i|r]; cbn in Hc |- *; try (by apply no_id_implements);
    try apply in_u_spec in Hc.
  - apply (one_id_implements _ _ _ (UseAddress a)); [done..|].
    intros n s v u Hr Hb Hok Hn. apply wp_bind. eapply wp_mono; [apply (named_address_implements a ltac:(lia) n s v u); done| |]; cbn beta.
    + intros _ s' (u' & [? ->] & ?). apply wp_ret. exists u. split; [by constructor|done].
    + intros _ _ [?|Hno]; [by left|right]. intros u' Hu. apply (Hno u). by inversion Hu.
  - apply (one_id_implements _ _ _ (UseBucket b)); [done..|]. apply consume_bucket_implements. lia.
  - destruct yields.
    + intros n s v u Hr Hb Hok Hn. apply wp_break. intros e. right. intros u' [Hno _].
      specialize (Hno eq_refl). inversion Hno. discriminate.
    + eapply interprets_iff; [apply consume_proof_implements; lia|]. intros u u'. unfold custom_step. cbn.
      rewrite <- uses_one. split; [done|by intros [_ ?]].
  - intros n s v u Hr Hb Hok Hn. apply wp_visit; [apply (pass_expression_law _ Hvis)| |by left]. intros _ v'.
    exists u. split; [|done]. split; [constructor|by apply uses_none].
  - apply (one_id_implements _ _ _ (UseBlob h)); [done..|].
    intros n s v u Hr Hb Hok Hn. apply wp_bind, wp_self. unfold id. rewrite Hb. apply wp_bind.
    unfold is_contains. case_bool_decide as Hin; rewrite Hblobs in Hin; cbn [negb]; rewrite ?andb_false_r, ?andb_true_r.
    2: destruct (validate_blob_refs ruleset) eqn:Hv.
    2: { apply wp_break. intros e. right. intros u' Hu. inversion Hu as [| | | |? ? Hi]; subst. auto. }
    all: apply wp_ret, wp_visit; [apply (pass_blob_law _ Hvis)| |by left]; intros _ v'; exists u;
      split; [constructor; congruence|done].
  - apply (one_id_implements _ _ _ (UseReservation r)); [done..|]. apply consume_reservation_implements. lia.
Qed.

Fixpoint handle_customs (kind : InvocationKind) (yields : bool) (l : list ManifestCustomValue) : IM unit :=
  match l with
  | [] => mret tt
  | c :: l => handle_custom_value ruleset kind yields c;; handle_customs kind yields l
  end.

Lemma customs_implements kind yields l : Forall (fun c => custom_ok c = true) l ->
  implements (handle_customs kind yields l) (fun u u' =>
    (yields = true -> Forall (fun r => is_proof r = false) (l ≫= value_ref)) /\ uses u (l ≫= value_ref) u').
Proof.
  induction 1 as [|c l Hc _ IH]; cbn [handle_customs mbind list_bind].
  - intros n s v u Hr Hb Hok Hn. apply wp_ret. exists u. split; [|done]. split; [constructor|by apply uses_none].
  - intros n s v u Hr Hb Hok Hn. apply wp_bind.
    eapply wp_mono; [apply (custom_implements kind yields c Hc n s v u); done| |]; cbn beta.
    + intros _ [s1 v1] (u1 & [Hp1 Hu1] & Hr1 & Hb1).
      eapply wp_mono; [apply (IH n s1 v1 u1); try done; by eapply ref_uses_ok| |]; cbn beta.
      * intros _ s2 (u2 & [Hp2 Hu2] & ?). exists u2. split; [|done]. split; [intros; apply Forall_app; auto|].
        apply ref_uses_app. eauto.
      * intros _ _ [?|Hno]; [by left|right]. intros u2 [Hp (u1' & H1 & H2)%ref_uses_app].
        rewrite (ref_uses_det _ _ _ _ _ _ H1 Hu1) in H2. apply (Hno u2). split; [|done].
        intros Hy. by apply Hp, Forall_app in Hy as [_ ?].
    + intros _ _ [?|Hno]; [by left|right]. intros u2 [Hp (u1' & H1 & H2)%ref_uses_app]. apply (Hno u1'). split; [|done].
      intros Hy. by apply Hp, Forall_app in Hy as [? _].
Qed.

Abbreviation Ev := (TraversalEvent ManifestCustomValueKind ManifestCustomValue).

(** The loop over the events of the arguments handles their custom values. *)
Lemma invocation_loop_customs fuel kind yields t (evs : list Ev) r : r = next_event t -> ends r (evs ++ [TraversalEnd]) ->
  (length (evs ++ [TraversalEnd]) <= fuel)%nat ->
  forall s, invocation_loop ruleset fuel kind yields t s = handle_customs kind yields (evs ≫= event_custom) s.
Proof.
  intros Hr He Hf. remember (evs ++ [TraversalEnd]) as es eqn:Hes. revert fuel t evs Hr Hf Hes.
  induction He as [loc t' Hev|loc t' es Hev He IH]; intros [|fuel] t evs Hr Hf Hes s; cbn in Hf; try lia;
    cbn [invocation_loop]; unfold mbind at 1, M_bind at 1, lift_exec; rewrite <- Hr; cbn [fst snd].
  - destruct evs as [|ev evs]; [|by destruct evs]. injection Hes as ->. done.
  - destruct evs as [|ev evs]; [injection Hes as ?; by destruct (event loc)|]. injection Hes as <- ->.
    pose proof (IH fuel t' evs eq_refl ltac:(lia) eq_refl) as Hrest. cbn [mbind list_bind].
    destruct (event loc) as [| |[ | | | | | | | | | | | |c]| | |]; try done; cbn [event_custom app]; try apply Hrest.
    cbn [handle_customs]. unfold mbind, M_bind. by destruct (handle_custom_value _ _ _ _ _) as [[[[]|?] ?]|].
Qed.

Lemma bind_pointwise {A B} (c : IM A) (f g : A -> IM B) s : (forall a s', f a s' = g a s') -> (c ≫= f) s = (c ≫= g) s.
Proof. intros Hfg. unfold mbind, M_bind. by destruct (c s) as [[[a|e] s']|]. Qed.

Lemma handle_invocation_eq kind args : value_ok args = true -> forall s,
  (args_ok args /\ handle_invocation ruleset m kind args s =
     (yields ← handle_invocation_kind ruleset m kind; handle_customs kind yields (customs args)) s) \/
  (~ args_ok args /\ exists e, handle_invocation ruleset m kind args s =
     (yields ← handle_invocation_kind ruleset m kind; break e) s).
Proof.
  intros Hv s. pose proof (SborTheory.encode_limit_spec MANIFEST_SBOR_V1_PAYLOAD_PREFIX MANIFEST_SBOR_V1_MAX_DEPTH args Hv) as Henc.
  change (encode_with_depth_limit _ _ args) with (manifest_encode args) in Henc. unfold args_ok, handle_invocation.
  destruct (encodable args) eqn:He; cbn [andb] in Henc.
  2: { right. split; [by intros [? _]|]. destruct Henc as [err ->].
       exists (ArgsEncodeError err). by apply bind_pointwise. }
  destruct (value_depth args <=? _)%nat eqn:Hd; [apply Nat.leb_le in Hd|apply Nat.leb_gt in Hd].
  2: { right. split; [intros [_ ?]; lia|]. destruct Henc as [err ->].
       exists (ArgsEncodeError err). by apply bind_pointwise. }
  left. split; [done|]. rewrite Henc. apply bind_pointwise. intros yields s'. unfold mbind, M_bind, lift_exec.
  destruct (encoded_events (mk_config MANIFEST_SBOR_V1_MAX_DEPTH true) MANIFEST_SBOR_V1_PAYLOAD_PREFIX args
    IndexedTheory.manifest_nonempty Hv He Hd eq_refl) as [Hends Hlen].
  rewrite (invocation_loop_customs _ kind yields _ _ _ eq_refl Hends Hlen). by rewrite customs_events.
Qed.

Lemma call_allowed_implements kind : effect_wf (Invocation kind (VBool true)) -> forall n s v u,
  represents s u -> registered_blobs s = blobs -> usage_ok n u -> n < 2 ^ 32 - 1 ->
  wp (handle_invocation_kind (E := E) ruleset m kind) (s, v)
    (fun y s' => y = yields kind /\ call_allowed ruleset m kind u /\ represents s'.1 u /\ registered_blobs s'.1 = blobs)
    (fun _ _ => stops \/ ~ call_allowed ruleset m kind u).
Proof.
  intros [_ Hwf] n s v u Hr Hb Hok Hn.
  assert (forall address (Q : Prop), (match address with NamedAddress a => 0 <= a | _ => True end) ->
    (validate_dynamic_address_in_command_part ruleset = true -> address_known address u) = Q ->
    wp (check_dynamic_address (E := E) ruleset address;; mret false) (s, v)
      (fun y s' => y = false /\ Q /\ represents s'.1 u /\ registered_blobs s'.1 = blobs)
      (fun _ _ => stops \/ ~ Q)) as Hcheck.
  { intros address Q Ha <-. apply wp_bind. unfold check_dynamic_address.
    destruct (validate_dynamic_address_in_command_part ruleset); [|by repeat apply wp_ret].
    destruct address as [|a]; [by repeat apply wp_ret|]. apply wp_bind.
    eapply wp_mono; [apply (named_address_implements a Ha n s v u); done| |]; cbn beta.
    - intros _ s' (u' & [? ->] & ? & ?). by repeat apply wp_ret.
    - intros _ _ [?|Hno]; [by left|right]. intros Hk. apply (Hno u). split; [by apply Hk|done]. }
  destruct kind as [a mo me|a bp f|a me| |c]; cbn [handle_invocation_kind yields call_allowed].
  - apply Hcheck; [by destruct a|done].
  - apply Hcheck; [by destruct a|done].
  - by apply wp_ret.
  - destruct (is_subintent m); cbn [negb]; [by apply wp_ret|]. apply wp_break. intros e. by right.
  - destruct (_ <=? c) eqn:Hc; zbool; [|by apply wp_ret]. apply wp_break. intros e. right. lia.
Qed.

Lemma invocation_implements kind args : effect_wf (Invocation kind args) ->
  implements (handle_invocation ruleset m kind args) (fun u u' => call_allowed ruleset m kind u /\ args_ok args /\
    (yields kind = true -> Forall (fun r => is_proof r = false) (arg_refs args)) /\ uses u (arg_refs args) u').
Proof.
  intros [Hv Hk] n s v u Hr Hb Hok Hn.
  pose proof (call_allowed_implements kind ltac:(by split) n s v u Hr Hb Hok Hn) as Hcall.
  assert (forall (f : bool -> IM unit) Q R,
    (forall s' v', call_allowed ruleset m kind u -> represents s' u -> registered_blobs s' = blobs ->
      wp (f (yields kind)) (s', v') Q R) ->
    ((stops \/ ~ call_allowed ruleset m kind u) -> forall e s', R e s') ->
    wp (y ← handle_invocation_kind ruleset m kind; f y) (s, v) Q R) as Hseq.
  { intros f Q R HQ HR. apply wp_bind. eapply wp_mono; [exact Hcall| |]; cbn beta; [|eauto].
    intros y [s' v'] (-> & Hc & Hr' & Hb'). by apply HQ. }
  destruct (handle_invocation_eq kind args Hv (s, v)) as [[Ha Heq]|(Ha & e & Heq)]; unfold wp; rewrite Heq; apply Hseq.
  - intros s' v' Hc Hr' Hb'. eapply wp_mono; [eapply (customs_implements _ _ _ (customs_ok _ Hv)); done| |]; cbn beta.
    + intros _ s2 (u' & [Hp Hu] & ?). exists u'. done.
    + intros _ _ [?|Hno]; [by left|right]. intros u' (_ & _ & Hp & Hu). by apply (Hno u').
  - intros [?|Hno]; [by left|right]. by intros u' (? & _).
  - intros s' v' Hc Hr' Hb'. apply wp_break. intros e'. right. by intros u' (_ & ? & _).
  - intros [?|Hno]; [by left|right]. by intros u' (? & _).
Qed.

(** *** Assertions *)

Lemma require_valid_wp b s v (Q : unit -> _ -> Prop) (R : E -> _ -> Prop) :
  (b = true -> Q tt (s, v)) -> (b = false -> forall e, R e (s, v)) -> wp (require_valid (V := V) b) (s, v) Q R.
Proof. destruct b; intros HQ HR; [by apply wp_ret, HQ|by apply wp_break, HR]. Qed.

Lemma with_requirement_rep s u : represents s u -> represents (with_requirement s RequiredInvocationDueToNextCallAssertion) (set_awaiting true u).
Proof. intros []. by split. Qed.

Lemma set_awaiting_id u : u_awaiting_call u = false -> set_awaiting false u = u.
Proof. intros H. destruct u. cbn in H. by subst. Qed.

Lemma validate_assertion_wp n a s v u : effect_wf (ResourceAssertionEffect a) -> represents s u ->
  usage_ok n u -> u_awaiting_call u = false ->
  wp (validate_resource_assertion (V := V) (E := E) a) (s, v)
    (fun _ s' => assertion_ok a u /\ represents s'.1 (set_awaiting (about_next_call a) u) /\
       registered_blobs s'.1 = registered_blobs s)
    (fun _ _ => ~ assertion_ok a u).
Proof.
  intros Hwf Hr Hok Hw. pose proof (set_awaiting_id u Hw) as Hid.
  assert (forall b (P : Prop) c, (b = true <-> P) ->
    wp (require_valid (V := V) (E := E) b;; update (fun s => if c : bool then with_requirement s RequiredInvocationDueToNextCallAssertion else s)) (s, v)
      (fun _ s' => P /\ represents s'.1 (set_awaiting c u) /\ registered_blobs s'.1 = registered_blobs s)
      (fun _ _ => ~ P)) as Hcase.
  { intros b P c HP. apply wp_bind, require_valid_wp.
    - intros Hb. apply wp_update. split; [by apply HP|]. destruct c; [by split; [apply with_requirement_rep|]|].
      by rewrite Hid.
    - intros Hb _ HP'. apply HP in HP'. congruence. }
  assert (forall b (P : Prop), (b = true <-> P) ->
    wp (require_valid (V := V) (E := E) b) (s, v)
      (fun _ s' => P /\ represents s'.1 (set_awaiting false u) /\ registered_blobs s'.1 = registered_blobs s)
      (fun _ _ => ~ P)) as Hplain.
  { intros b P HP. apply require_valid_wp; intros Hb; [|intros _ HP'; apply HP in HP'; congruence].
    rewrite Hid. by split; [apply HP|]. }
  destruct a as [[r|r amount|r ids|c|c]|[c|c]|[b c]]; cbn [validate_resource_assertion assertion_ok about_next_call].
  - apply wp_ret. by rewrite Hid.
  - apply Hplain. unfold is_negative. destruct (Z.ltb_spec amount 0); cbn; split; done || lia.
  - apply Hplain. by destruct (is_fungible r).
  - by apply Hplain.
  - by apply Hplain.
  - by apply (Hcase _ _ true).
  - by apply (Hcase _ _ true).
  - apply wp_bind. eapply get_bucket_wp; [done..| |].
    + intros st _ _ Hu _. apply Hplain. rewrite Hu. split; [eauto|]. by intros (? & [= <-] & ?).
    + intros Hu _ (? & ? & _). congruence.
Qed.

Lemma verification_implements k rule :
  implements (handle_verification (E := E) m k rule) (fun u u' => is_subintent m = true /\ u' = u).
Proof.
  intros n s v u Hr Hb Hok Hn. unfold handle_verification. destruct k. apply wp_bind. destruct (is_subintent m); cbn [negb].
  - apply wp_ret, wp_visit; [apply (verification_law _ Hvis)| |by left]. by exists u.
  - apply wp_break. intros e. right. by intros u' [? _].
Qed.

(** *** Instructions *)

Lemma effect_implements e n s v u : effect_wf e -> represents s u -> registered_blobs s = blobs -> usage_ok n u ->
  n < 2 ^ 32 - 1 -> u_awaiting_call u = false ->
  wp (handle_effect ruleset m e) (s, v)
    (fun _ s' => exists u', step ruleset m u e u' /\ represents s'.1 u' /\ registered_blobs s'.1 = blobs)
    (fun _ _ => stops \/ forall u', ~ step ruleset m u e u').
Proof.
  intros Hwf Hr Hb Hok Hn Hw.
  assert (forall (c : IM unit) T, implements c T -> (forall u', T u u' <-> step ruleset m u e u') ->
    wp c (s, v) (fun _ s' => exists u', step ruleset m u e u' /\ represents s'.1 u' /\ registered_blobs s'.1 = blobs)
      (fun _ _ => stops \/ forall u', ~ step ruleset m u e u')) as Hby.
  { intros c T Hc HT. eapply wp_mono; [by apply (Hc n s v u)| |]; cbn beta.
    - intros _ s' (u' & Hu & ?). exists u'. by rewrite <- HT.
    - intros _ _ [?|Hno]; [by left|right]. intros u' Hu. apply (Hno u'). by apply HT. }
  destruct e as [src|src|b d|p d|p|all sg ns|kind args|pa bn|a|k rule]; cbn [handle_effect].
  - unfold handle_new_bucket. apply wp_bind, wp_self, wp_bind, wp_visit; [apply (new_bucket_law _ Hvis)| |by left].
    intros _ v'. apply wp_update. eexists. split; [constructor|]. split; [|done].
    pose proof (ok_next_bucket _ _ Hok). pose proof (rep_next_bucket _ _ Hr) as Hlb. pose proof (rep_bucket _ _ Hr) as Hbs.
    destruct Hr. unfold id. split; cbn; auto; [rewrite length_app; cbn; lia|].
    intros b st Hs. apply lookup_app_Some in Hs as [Hs|[Hge Hs]].
    + rewrite lookup_insert_ne; [by apply Hbs|]. apply lookup_lt_Some in Hs. lia.
    + apply list_lookup_singleton_Some in Hs as [Hi <-]. cbn. replace (Z.of_nat b) with (u_next_bucket u) by lia.
      rewrite lookup_insert_eq. split; [done|]. symmetry. apply locks_zero. intros p Hp.
      apply (ok_owned _ _ Hok) in Hp as [a Ha]. apply (ok_buckets _ _ Hok) in Ha. lia.
  - eapply Hby; [by apply handle_new_proof_implements|]. intros u'. split; [intros [? ->]; by constructor|by inversion 1].
  - eapply Hby; [by apply consume_bucket_implements|]. intros u'. split; [by constructor|by inversion 1].
  - eapply Hby; [by apply consume_proof_implements|]. intros u'. split; [by constructor|by inversion 1].
  - eapply Hby; [by apply handle_cloned_proof_implements|]. intros u'.
    split; [intros (k & ? & ->); by constructor|inversion 1; subst; eauto].
  - eapply Hby; [by apply handle_drop_many_implements|]. intros u'. split; [intros ->; constructor|by inversion 1].
  - eapply Hby; [by apply invocation_implements|]. intros u'.
    split; [intros (? & ? & ? & ?); by constructor|by inversion 1].
  - apply wp_bind. eapply new_reservation_wp; [done..| |by left]. intros s' r v' Hr' Hb'.
    eapply new_named_address_wp; [done| |by left]. intros s'' v'' Hr'' Hb''.
    eexists. split; [constructor|]. split; [done|]. cbn. congruence.
  - unfold handle_resource_assertion. apply wp_bind.
    eapply (wp_mono _ _ (fun _ s' => exists u', step ruleset m u (ResourceAssertionEffect a) u' /\
      represents s'.1 u' /\ registered_blobs s'.1 = blobs)); [| |intros ? ? Hno; exact Hno].
    + destruct (validate_resource_assertions ruleset) eqn:Hvr.
      * eapply wp_mono; [by eapply validate_assertion_wp| |]; cbn beta.
        -- intros _ s' (Ha & Hr' & Hb'). eexists. split; [by constructor|]. rewrite Hvr. cbn [andb]. split; [done|congruence].
        -- intros _ _ Ha. right. intros u' Hs. inversion Hs; subst. auto.
      * apply wp_ret. eexists. split; [by constructor; rewrite Hvr|]. rewrite Hvr. cbn [andb].
        by rewrite set_awaiting_id.
    + cbn beta. intros _ [s' v'] (u' & Hs & Hr' & Hb'). apply wp_visit; [apply (assertion_law _ Hvis)| |by left].
      intros _ v''. by exists u'.
  - eapply Hby; [by apply verification_implements|]. intros u'. split; [intros [? ->]; by constructor|by inversion 1].
Qed.

Lemma next_instruction_wp e s v u Q (R : E -> _ -> Prop) : represents s u ->
  ((u_awaiting_call u = true -> is_call e = true) -> forall s', represents s' (set_awaiting false u) ->
     registered_blobs s' = registered_blobs s -> Q tt (s', v)) ->
  (~ (u_awaiting_call u = true -> is_call e = true) -> forall err, R err (s, v)) ->
  wp (handle_next_instruction (V := V) e) (s, v) Q R.
Proof.
  intros Hr HQ HR. unfold handle_next_instruction. apply wp_bind, wp_self. unfold id.
  pose proof (rep_awaiting _ _ Hr) as Hw. destruct (next_instruction_requirement s).
  - apply wp_ret, HQ; [congruence| |done]. by rewrite set_awaiting_id.
  - destruct e; try (apply wp_break, HR; rewrite Hw; intros Hc; by specialize (Hc eq_refl)).
    apply wp_update, HQ; [done| |done]. destruct Hr. by split.
Qed.

Lemma instruction_implements i e : effect_wf e ->
  implements (handle_instruction ruleset m i e) (fun u u' => next ruleset m u e u').
Proof.
  intros Hwf n s v u Hr Hb Hok Hn. unfold handle_instruction. apply wp_bind, wp_update, wp_bind.
  eapply next_instruction_wp.
  { instantiate (1 := u). destruct Hr. by split. }
  2: { intros Hno err. right. by intros u' [? _]. }
  intros Hcall s1 Hr1 Hb1. apply wp_bind, wp_visit; [apply (start_law _ Hvis)| |by left]. intros _ v1.
  apply wp_bind. eapply wp_mono; [apply (effect_implements e n s1 v1 (set_awaiting false u)); try done| |]; cbn beta.
  - cbn in Hb1. congruence.
  - by apply set_awaiting_ok.
  - intros _ [s2 v2] (u' & Hs & Hr2 & Hb2). apply wp_visit; [apply (end_law _ Hvis)| |by left]. intros _ v3.
    by exists u'.
  - intros _ _ [?|Hno]; [by left|right]. intros u' [_ Hs]. by apply (Hno u').
Qed.

Lemma instructions_wp i es n s v u : Forall effect_wf es -> represents s u -> registered_blobs s = blobs ->
  usage_ok n u -> n + Z.of_nat (length es) < 2 ^ 32 - 1 ->
  wp (handle_instructions ruleset m i es) (s, v)
    (fun _ s' => exists u', steps ruleset m u es u' /\ represents s'.1 u' /\ usage_ok (n + Z.of_nat (length es)) u')
    (fun _ _ => stops \/ forall u', ~ steps ruleset m u es u').
Proof.
  intros Hwf. revert i n s v u. induction Hwf as [|e es He _ IH]; intros i n s v u Hr Hb Hok Hn; cbn [handle_instructions].
  - apply wp_ret. exists u. rewrite Z.add_0_r. split; [constructor|done].
  - cbn [length] in *. apply wp_bind.
    eapply wp_mono; [apply (instruction_implements i e He n s v u); try done; lia| |]; cbn beta.
    + intros _ [s1 v1] (u1 & H1 & Hr1 & Hb1).
      eapply wp_mono; [apply (IH (i + 1) (n + 1) s1 v1 u1); eauto using next_ok; lia| |]; cbn beta.
      * intros _ s2 (u2 & H2 & ? & ?). exists u2. split_and!; [by econstructor|done|].
        by replace (n + Z.of_nat (S (length es))) with (n + 1 + Z.of_nat (length es)) by lia.
      * intros _ _ [?|Hno]; [by left|right]. intros u2 H2. inversion H2 as [|? ? u1' ? ? H1' Hes]; subst.
        rewrite (next_det _ _ _ _ _ _ H1' H1) in Hes. by apply (Hno u2).
    + intros _ _ [?|Hno]; [by left|right]. intros u2 H2. inversion H2 as [|? ? u1' ? ? H1' Hes]; subst. by apply (Hno u1').
Qed.

(** *** Beginning and end *)

Lemma preallocated_wp l n s v u Q (R : E -> _ -> Prop) : represents s u -> usage_ok n u ->
  n + Z.of_nat (length l) < 2 ^ 32 - 1 ->
  (forall s' v', represents s' (Nat.iter (length l) add_reservation u) ->
     registered_blobs s' = registered_blobs s -> usage_ok (n + Z.of_nat (length l)) (Nat.iter (length l) add_reservation u) ->
     Q tt (s', v')) ->
  (stops -> forall e s', R e s') ->
  wp (handle_preallocated_addresses l) (s, v) Q R.
Proof.
  revert n s v u. induction l as [|p l IH]; intros n s v u Hr Hok Hn HQ HR; cbn [handle_preallocated_addresses].
  - apply wp_ret. rewrite Z.add_0_r in HQ. by apply HQ.
  - cbn [length] in *. apply wp_bind. eapply new_reservation_wp; [done|done|lia| |done]. intros s1 r v1 Hr1 Hb1.
    apply (IH (n + 1) s1 v1 (add_reservation u)); [done|by apply add_reservation_ok|lia| |done].
    intros s2 v2 Hr2 Hb2 Hok2. rewrite <- Nat.iter_succ_r in Hr2, Hok2. apply HQ; [done|congruence|].
    by replace (n + Z.of_nat (S (length l))) with (n + 1 + Z.of_nat (length l)) by lia.
Qed.

Lemma children_wp l s v u Q (R : E -> _ -> Prop) : represents s u ->
  (forall s' v', represents s' u -> registered_blobs s' = registered_blobs s -> Q tt (s', v')) ->
  (stops -> forall e s', R e s') ->
  wp (handle_child_subintents l) (s, v) Q R.
Proof.
  revert s v. induction l as [|h l IH]; intros s v Hr HQ HR; cbn [handle_child_subintents]; [by apply wp_ret, HQ|].
  unfold handle_new_intent. apply wp_bind, wp_bind, wp_self, wp_bind, wp_visit; [apply (new_intent_law _ Hvis)| |eauto].
  intros _ v'. apply wp_update, IH; [|done..]. destruct Hr. by split.
Qed.

Lemma blobs_wp l s v u Q (R : E -> _ -> Prop) : represents s u -> NoDup (registered_blobs s) ->
  (forall s' v', represents s' u -> (forall h, h ∈ registered_blobs s' <-> h ∈ registered_blobs s \/ h ∈ l.*1) ->
     (validate_no_duplicate_blobs ruleset = true -> NoDup (registered_blobs s ++ l.*1)) -> Q tt (s', v')) ->
  (stops \/ (validate_no_duplicate_blobs ruleset = true /\ ~ NoDup (registered_blobs s ++ l.*1)) -> forall e s', R e s') ->
  wp (handle_blobs ruleset l) (s, v) Q R.
Proof.
  clear Hlock Hblobs.
  revert s v. induction l as [|[h c] l IH]; intros s v Hr Hnd HQ HR; cbn [handle_blobs fmap list_fmap fst] in *.
  - apply wp_ret, HQ; [done|set_solver|]. by rewrite app_nil_r.
  - apply wp_bind, wp_self, wp_bind, wp_update, wp_bind. unfold id.
    pose proof (elem_of_is_insert h) as Hin. pose proof (NoDup_is_insert h _ Hnd) as Hnd'.
    destruct (negb (is_insert h (registered_blobs s)).1 && validate_no_duplicate_blobs ruleset) eqn:Hd.
    + apply wp_break. intros e. apply HR. right. apply andb_true_iff in Hd as [Hd Hv]. split; [done|]. unfold is_insert, is_contains in Hd.
      case_bool_decide as Hh; [|done]. intros (_ & Hdis & _)%NoDup_app. apply (Hdis h Hh). set_solver.
    + apply wp_ret, wp_bind, wp_visit; [apply (register_blob_law _ Hvis)| |eauto]. intros _ v'.
      assert (validate_no_duplicate_blobs ruleset = true ->
        NoDup ((is_insert h (registered_blobs s)).2 ++ l.*1) <-> NoDup (registered_blobs s ++ h :: l.*1)) as Hiff.
      { intros Hv. rewrite Hv, andb_true_r in Hd. unfold is_insert, is_contains in Hd |- *.
        case_bool_decide; [done|]. cbn. by rewrite <- app_assoc. }
      apply IH; cbn [registered_blobs with_blobs]; [by destruct Hr; split|done| |].
      * intros s' v'' Hr' Hel Hno. apply HQ; [done| |].
        -- intros h'. rewrite Hel, elem_of_is_insert, elem_of_cons. naive_solver.
        -- intros Hv. rewrite <- Hiff by done. auto.
      * intros [?|[Hv Hno]]; apply HR; [by left|right]. by rewrite <- Hiff.
Qed.

Lemma yield_effect i args : effect i = Invocation YieldToParentInvocation args -> i = YieldToParent args.
Proof. destruct i; intros H; try discriminate H. injection H as ->. done. Qed.

Lemma final_instruction_wp s v : wp (verify_final_instruction (E := E) m) (s, v)
  (fun _ s' => (is_subintent m = true -> ends_with_yield m) /\ s' = (s, v))
  (fun _ _ => ~ (is_subintent m = true -> ends_with_yield m)).
Proof.
  unfold verify_final_instruction, ends_with_yield. destruct (is_subintent m); cbn [negb]; [|by apply wp_ret].
  unfold instruction_count, instruction_effect. destruct (instructions m) as [|i l _] eqn:Hi using rev_ind.
  - cbn. apply wp_break. intros _ H. destruct (H eq_refl) as (l & args & Hl). by destruct l.
  - rewrite length_app. cbn [length]. destruct (Z.ltb_spec 0 (Z.of_nat (length l + 1))); [|lia].
    replace (Z.to_nat (Z.of_nat (length l + 1) - 1)) with (length l) by lia.
    rewrite lookup_app_r, Nat.sub_diag by lia. cbn [fmap option_fmap option_map lookup list_lookup expect].
    apply wp_bind, (wp_lift_exec _ _ _ _ (effect i)); [done|].
    assert (forall args, i = YieldToParent args -> exists instrs args, l ++ [i] = instrs ++ [YieldToParent args]) as Hy
      by (intros args ->; eauto).
    assert ((forall args, i <> YieldToParent args) -> ~ (true = true -> exists instrs args, l ++ [i] = instrs ++ [YieldToParent args]))
      as Hn. { intros Hne H'. destruct (H' eq_refl) as (l' & args & Heq). apply app_inj_tail in Heq as [_ ->]. by apply (Hne args). }
    destruct (effect i) as [| | | | | |kind args| | |] eqn:He;
      try (apply wp_break; intros _; apply Hn; intros args ->; discriminate He).
    destruct kind; try (apply wp_break; intros _; apply Hn; intros args' ->; discriminate He).
    apply wp_ret. split; [intros _|done]. apply (Hy args). by apply yield_effect.
Qed.

Lemma check_dangling_wp {A} (consumed_at : A -> option ManifestLocation) err i l s v :
  wp (check_dangling (E := E) consumed_at err i l) (s, v)
    (fun _ s' => (forall j a, l !! j = Some a -> consumed_at a <> None) /\ s' = (s, v))
    (fun _ _ => exists j a, l !! j = Some a /\ consumed_at a = None).
Proof.
  revert i. induction l as [|a l IH]; intros i; cbn [check_dangling]; [by apply wp_ret|].
  destruct (consumed_at a) eqn:Hc; [|apply wp_break; intros _; by exists O, a].
  eapply wp_mono; [apply IH| |]; cbn beta.
  - intros _ s' [Hall ->]. split; [|done]. intros [|j] b Hb; cbn in Hb; [injection Hb as <-; congruence|eauto].
  - intros _ _ (j & b & ? & ?). by exists (S j), b.
Qed.

Lemma no_buckets n s u : represents s u -> usage_ok n u ->
  u_buckets u = ∅ <-> forall j b, bucket_state s !! j = Some b -> bucket_consumed_at b <> None.
Proof.
  intros Hr Hok. split.
  - intros Hu j b Hj Hc. pose proof (rep_bucket _ _ Hr _ _ Hj) as H. rewrite Hc, Hu, lookup_empty in H. by destruct H.
  - intros Hall. apply map_empty. intros b. destruct (u_buckets u !! b) as [a|] eqn:Hu; [|done].
    pose proof (ok_buckets _ _ Hok _ _ Hu) as Hb. pose proof (rep_next_bucket _ _ Hr).
    destruct (lookup_lt_is_Some_2 (bucket_state s) (Z.to_nat b)) as [st Hs]; [lia|].
    pose proof (rep_bucket _ _ Hr _ _ Hs) as H'. apply Hall in Hs. rewrite Z2Nat.id in H' by lia.
    destruct (bucket_consumed_at st); congruence.
Qed.

Lemma no_reservations n s u : represents s u -> usage_ok n u ->
  u_reservations u = ∅ <-> forall j r, address_reservation_state s !! j = Some r -> reservation_consumed_at r <> None.
Proof.
  clear Hlock Hblobs. intros Hr Hok. split.
  - intros Hu j r Hj Hc. apply (rep_reservation _ _ Hr _ _ Hj) in Hc. rewrite Hu in Hc. set_solver.
  - intros Hall. apply set_eq. intros r. split; [|set_solver]. intros Hin.
    pose proof (ok_reservations _ _ Hok _ Hin) as Hb. pose proof (rep_next_reservation _ _ Hr).
    destruct (lookup_lt_is_Some_2 (address_reservation_state s) (Z.to_nat r)) as [st Hs]; [lia|].
    destruct (Hall _ _ Hs). apply (rep_reservation _ _ Hr _ _ Hs). by rewrite Z2Nat.id by lia.
Qed.

Definition end_ok (u : Usage) : Prop := u_awaiting_call u = false /\
  (validate_no_dangling_nodes ruleset = true -> u_buckets u = ∅ /\ u_reservations u = ∅).

Lemma wrap_up_wp n s v u : represents s u -> usage_ok n u ->
  wp (handle_wrap_up ruleset) (s, v) (fun _ _ => end_ok u) (fun _ _ => stops \/ ~ end_ok u).
Proof.
  clear Hlock Hblobs. intros Hr Hok. unfold handle_wrap_up, validate_at_end, end_ok. apply wp_bind, wp_bind, wp_self. unfold id.
  rewrite (rep_awaiting _ _ Hr).
  destruct (next_instruction_requirement s); [|by apply wp_break; intros e; right; intros [? _]].
  apply wp_ret, wp_bind.
  eapply (wp_mono _ _ (fun _ s' => validate_no_dangling_nodes ruleset = true -> u_buckets u = ∅ /\ u_reservations u = ∅) _
    (fun _ _ => ~ (validate_no_dangling_nodes ruleset = true -> u_buckets u = ∅ /\ u_reservations u = ∅))); cbn beta.
  - destruct (validate_no_dangling_nodes ruleset); [|by apply wp_ret].
    pose proof (no_buckets n s u Hr Hok) as Hnb. pose proof (no_reservations n s u Hr Hok) as Hnr.
    apply wp_bind, wp_self, wp_bind. unfold id. eapply wp_mono; [apply check_dangling_wp| |]; cbn beta.
    + intros _ _ [Hb ->]. eapply wp_mono; [apply check_dangling_wp| |]; cbn beta.
      * intros _ _ [Hres _] _. by rewrite Hnb, Hnr.
      * intros _ _ (j & r & Hj & Hc) H. destruct (H eq_refl) as [_ H']. rewrite Hnr in H'. by apply (H' j r).
    + intros _ _ (j & b & Hj & Hc) H. destruct (H eq_refl) as [H' _]. rewrite Hnb in H'. by apply (H' j b).
  - intros _ [s' v'] H. apply wp_visit; [apply (finish_law _ Hvis)|done|by left].
  - intros _ _ Hno. right. by intros [_ ?].
Qed.
End Visited.

Lemma interpret_wp {V E} `{!ManifestInterpretationVisitor V E} (stops : Prop) (Hvis : visitor_laws (V := V) stops)
    ruleset m v : validate_bucket_proof_lock ruleset = true -> manifest_wf m ->
  wp (interpret_internal ruleset m) (interpreter_new, v) (fun _ _ => well_formed ruleset m)
    (fun _ _ => stops \/ ~ well_formed ruleset m).
Proof.
  intros Hlock [Hwf Hlen]. unfold interpret_internal, well_formed, instruction_count in *.
  assert (represents interpreter_new usage_empty) as Hr0 by (split; cbn; try done; intros; set_solver).
  apply wp_bind. eapply (preallocated_wp stops Hvis _ 0); [exact Hr0|apply usage_empty_ok|lia| |by left].
  intros s1 v1 Hr1 Hb1 Hok1. change (Nat.iter _ add_reservation usage_empty) with (usage_start m) in Hr1, Hok1.
  apply wp_bind. eapply children_wp; [done|exact Hr1| |by left]. intros s2 v2 Hr2 Hb2. rewrite Hb1 in Hb2. cbn in Hb2.
  apply wp_bind. eapply blobs_wp; [exact Hvis|exact Hr2|rewrite Hb2; constructor| |]; rewrite Hb2; cbn [app].
  2: { intros [?|[Hv Hno]] e s'; [by left|right]. intros [Hnd _]. auto. }
  intros s3 v3 Hr3 Hb3 Hnd.
  apply wp_bind. eapply wp_mono; [eapply (instructions_wp stops Hvis ruleset m (registered_blobs s3) Hlock); eauto| |]; cbn beta.
  - intros h. rewrite Hb3. set_solver.
  - unfold iter_instruction_effects. rewrite length_map. lia.
  - intros _ [s4 v4] (u & Hs & Hr4 & Hok4). apply wp_bind. eapply wp_mono; [apply final_instruction_wp| |]; cbn beta.
    + intros _ _ [Hy ->]. eapply wp_mono; [by eapply wrap_up_wp| |]; cbn beta.
      * intros _ _ [? ?]. split_and!; [done..|]. by exists u.
      * intros _ _ [?|Hno]; [by left|right]. intros (_ & _ & u' & Hs' & He & Hd). apply Hno.
        by rewrite (steps_det _ _ _ _ _ _ Hs Hs').
    + intros _ _ Hno. right. by intros (_ & Hy & _).
  - intros _ _ [?|Hno]; [by left|right]. intros (_ & _ & u & Hs & _). by apply (Hno u).
Qed.
End InterpreterLemmas.

(** ** Theorems *)

Module InterpreterTheorems.
Import InterpreterSpec InterpreterLemmas.
Section Visitors.
Context {V E : Type} `{!ManifestInterpretationVisitor V E}.

(** C25. The static interpreter decides exactly whether a manifest is well
    formed.  Take any manifest whose ids are 32-bit integers, with fewer than
    2^32 - 1 instructions and preallocated addresses, and any of the rulesets
    (all of them check bucket locks).  With any visitor whose callbacks do not
    panic, the interpretation returns without panicking; if it accepts, the
    manifest is well formed; if it refuses, the visitor stopped it or the
    manifest is not well formed.  In a well-formed manifest every id exists
    where it is used, no bucket is consumed while a proof of it lives, blobs
    are unique and registered, assertions are valid and followed by a call
    where they constrain one, a subintent yields to its parent at the end,
    and nothing is left behind: a specification with sets of live ids, without
    lock counts, consumption marks or the traversal of encoded arguments. *)
Theorem interpreter_exact (stops : Prop) (Hvis : visitor_laws (V := V) stops) (ruleset : ValidationRuleset)
    (Hlock : validate_bucket_proof_lock ruleset = true) (m : Manifest) (Hm : manifest_wf m) (v : V) :
  match validate_and_apply_visitor ruleset m v with
  | Done (Ok _, _) => well_formed ruleset m
  | Done (Err _, _) => stops \/ ~ well_formed ruleset m
  | Panicked => False
  end.
Proof.
  pose proof (interpret_wp stops Hvis ruleset m v Hlock Hm) as Hwp. unfold wp in Hwp. unfold validate_and_apply_visitor.
  destruct (interpret_internal ruleset m (interpreter_new, v)) as [[[u|e] s]|]; done.
Qed.
End Visitors.

(** A test for well-typed manifests. *)
Definition effect_wfb (e : ManifestInstructionEffect) : bool :=
  match e with
  | CreateProof s => match proof_kind s with BucketProof b => 0 <=? b | AuthZoneProof => true end
  | ConsumeBucket b _ | ResourceAssertionEffect (AssertBucket (BucketContents b _)) => 0 <=? b
  | ConsumeProof p _ | CloneProofEffect p => 0 <=? p
  | Invocation kind args =>
      value_ok args &&
      match kind with
      | MethodInvocation (NamedAddress a) _ _ | FunctionInvocation (NamedAddress a) _ _ => 0 <=? a
      | _ => true
      end
  | _ => true
  end.

Lemma effect_wf_dec e : effect_wfb e = true -> effect_wf e.
Proof. unfold effect_wfb, effect_wf. intros H. repeat case_match; zbool; done || lia. Qed.

Lemma manifest_wf_dec m : forallb effect_wfb (iter_instruction_effects m) &&
    (Z.of_nat (length (get_preallocated_addresses m)) + instruction_count m <? 2 ^ 32 - 1) = true -> manifest_wf m.
Proof.
  intros [Hf Hl]%andb_true_iff. split; [|by zbool]. apply Forall_forall. intros e He. apply effect_wf_dec.
  rewrite forallb_forall in Hf. apply Hf. by apply list_elem_of_In.
Qed.

(** A subintent: a bucket is taken, proven twice and passed on with two
    reservations, an address and a blob; the next call is constrained. *)
Definition sample_resource : list Z := 93 :: replicate 29 7.
Definition sample_manifest : Manifest := mk_manifest true [(replicate 32 5, [1; 2])]
  [mk_preallocated sample_resource [] sample_resource] []
  [TakeFromWorktop sample_resource 5; CreateProofFromBucketOfAll 0; CloneProof 0; AllocateGlobalAddress sample_resource [];
   CallMethod (NamedAddress 0) [] (VTuple [VCustom (MProof 0)]); DropNamedProofs;
   AssertNextCallReturnsOnly [];
   CallMethod (StaticAddress sample_resource) []
     (VTuple [VArray (KCustom Manifest.Bucket) [VCustom (MBucket 0)]; VCustom (MBlob (replicate 32 5));
              VMap KU8 (KCustom Manifest.AddressReservation) [(VU8 1, VCustom (MAddressReservation 0))];
              VCustom (MAddressReservation 1); VCustom (MAddress (Named 0)); VCustom (MExpression EntireWorktop)]);
   YieldToParent (VTuple [])].

Lemma interpreter_exact_witness : well_formed ruleset_cuttlefish sample_manifest.
Proof.
  assert (manifest_wf sample_manifest) as Hm by (by apply manifest_wf_dec).
  pose proof (interpreter_exact False unit_laws ruleset_cuttlefish eq_refl sample_manifest Hm tt) as H.
  assert (exists s, validate_and_apply_visitor ruleset_cuttlefish sample_manifest tt = Done (Ok tt, s)) as [s Hs]
    by (eexists; vm_compute; reflexivity).
  rewrite Hs in H. exact H.
Defined.
End InterpreterTheorems.
