(* ===== verification/MovementsSpec.v ===== *)
(** * The movements of a manifest that runs

    What the static analysis of [StaticMovements] promises.  A manifest that runs
    moves balances between the worktop, its buckets and the objects it calls; the
    rules below let it run in every way that its instructions, the contracts of
    the native blueprints it calls, and its own assertions allow.  The theorem:
    when the analysis accepts a manifest, the balances that each call of any run
    sends and receives satisfy the bounds that the analysis reports for that
    call, provided that the constraints of the manifest keep the documented rules
    and its withdrawals from pools cannot round; a withdrawal that rounds is
    reported wrongly. *)

From S2P Require Import Resource Authorization.
From S2P Require Import Prelude Decimals IndexMap Bytes Sbor SborCustom Traversal ResourceConstraints.
From S2P Require Import ManifestInstructions NativeInvocations ResourceBounds ManifestInterpreter InterpreterSpec.
From S2P Require Import StaticMovements.
Import Int Dec ConstraintSpec BoundsSpec BoundsLemmas.
Import Manifest(ManifestValue, ManifestCustomValue, ManifestCustomValueKind, ManifestExpression, MAddress, MBucket,
  MProof, MExpression, MBlob, MDecimal, MPreciseDecimal, MNonFungibleLocalId, MAddressReservation, Static, Named,
  EntireWorktop, EntireAuthZone).
Import TraversalSpec InterpreterSpec(args_ok, effect_wf, manifest_wf) InterpreterLemmas(handle_customs, handle_invocation_eq).

(** ** Runs *)

Module MovementsSpec.

Record Holdings : Type := mk_holdings {
  held_worktop : ResourceAddress -> Balance;
  held_buckets : gmap Z (ResourceAddress * Balance);
  next_bucket_id : Z;
  created_addresses : list BlueprintId;
  awaited : option NextCallAssertion
}.

Definition hold_worktop (W : ResourceAddress -> Balance) (h : Holdings) : Holdings :=
  mk_holdings W (held_buckets h) (next_bucket_id h) (created_addresses h) (awaited h).
Definition lose_bucket (b : Z) (h : Holdings) : Holdings :=
  mk_holdings (held_worktop h) (delete b (held_buckets h)) (next_bucket_id h) (created_addresses h) (awaited h).
Definition hold_bucket (r : ResourceAddress) (bal : Balance) (h : Holdings) : Holdings :=
  mk_holdings (held_worktop h) (<[next_bucket_id h := (r, bal)]> (held_buckets h)) (next_bucket_id h + 1)
    (created_addresses h) (awaited h).
Definition add_created (p : BlueprintId) (h : Holdings) : Holdings :=
  mk_holdings (held_worktop h) (held_buckets h) (next_bucket_id h) (created_addresses h ++ [p]) (awaited h).
Definition await (a : option NextCallAssertion) (h : Holdings) : Holdings :=
  mk_holdings (held_worktop h) (held_buckets h) (next_bucket_id h) (created_addresses h) a.

(** *** The contracts of native invocations

    What the analysis takes from the native blueprints, which it does not look
    into.  Creating a validator is a case where the engine returns more: the
    change of the payment comes back with the badge, so a run with change is
    not among the runs below. *)

Definition returns_only (r : ResourceAddress) (P : Balance -> Prop) (returned : Balances) : Prop :=
  P (returned r) /\ forall r', r' <> r -> returned r' = zero_balance.
Definition returns_nothing (returned : Balances) : Prop := forall r, returned r = zero_balance.
Definition returns_amount (a : Decimal) (r : ResourceAddress) : Balances -> Prop :=
  returns_only r (fun b => b_amount b = a).
(** A vault of a pool resolves the amount by the strategy of the withdrawal and
    the divisibility of its resource, which the manifest does not tell. *)
Definition returns_withdrawn (amount : Decimal) (strategy : WithdrawStrategy) (r : ResourceAddress) (returned : Balances) : Prop :=
  exists divisibility taken, 0 <= divisibility <= 18 /\
    for_withdrawal amount divisibility strategy = Done (Some taken) /\ check_fungible_amount taken divisibility = true /\
    returns_amount taken r returned.
Definition returns_ids (ids : Ids) (r : ResourceAddress) (returned : Balances) : Prop :=
  is_fungible r = false /\ returns_only r (fun b => forall i, i ∈ b_ids b <-> i ∈ ids) returned.

Definition returns_of (address : DynamicAddress) (P : ResourceAddress -> Balances -> Prop) (returned : Balances) : Prop :=
  match address with StaticAddress r => P r returned | NamedAddress _ => True end.
Definition returns_own (receiver : InvocationReceiver) (P : ResourceAddress -> Balances -> Prop) (returned : Balances) : Prop :=
  match receiver with GlobalMethod (ResolvedStatic r) => P r returned | _ => True end.

(** A part of what was sent comes back. *)
Definition returns_part (sent returned : Balances) : Prop :=
  forall r, exists kept, balance_ok (is_fungible r) kept /\ sent r ≡ join kept (returned r).

(** The badge of an object that gets an owner names its address. *)
Definition returns_badge (receiver : InvocationReceiver) (badge : ResourceAddress) (returned : Balances) : Prop :=
  match receiver with
  | GlobalMethod (ResolvedStatic address) => returns_ids [IdBytes address] badge returned
  | _ => returns_amount ONE badge returned
  end.

Definition behaves (v : TypedManifestNativeInvocation) (receiver : InvocationReceiver)
    (passed : ResourceAddress -> Prop) (sent returned : Balances) : Prop :=
  match v with
  | NoOutputInvocation _ | ResourceManagerCreateEmptyBucket => returns_nothing returned
  | UnknownOutputInvocation i =>
      no_resource_inputs_returned i = true -> forall r, passed r -> returned r = zero_balance
  | AccessControllerWithdrawRecoveryFee amount => returns_amount amount RORK returned
  | AccountCreate => returns_amount ONE ACCOUNT_OWNER_BADGE returned
  | AccountSecurify => returns_badge receiver ACCOUNT_OWNER_BADGE returned
  | AccountWithdraw r amount | AccountLockFeeAndWithdraw r amount | AccountLockerRecover r amount
  | AccountLockerClaim r amount => returns_of r (returns_amount amount) returned
  | TwoResourcePoolProtectedWithdraw r amount strategy | MultiResourcePoolProtectedWithdraw r amount strategy =>
      returns_of r (returns_withdrawn amount strategy) returned
  | AccountWithdrawNonFungibles r ids | AccountLockFeeAndWithdrawNonFungibles r ids
  | AccountLockerRecoverNonFungibles r ids | AccountLockerClaimNonFungibles r ids =>
      returns_of r (returns_ids ids) returned
  | AccountTryDepositOrRefund | AccountTryDepositBatchOrRefund | AccountLockerAirdrop => returns_part sent returned
  | ConsensusManagerCreateValidator => returns_amount ONE VALIDATOR_OWNER_BADGE returned
  | ValidatorClaimXrd | PackageClaimRoyalties | ComponentClaimRoyalties => returns_only RORK (fun _ => True) returned
  | IdentityCreate => returns_amount ONE IDENTITY_OWNER_BADGE returned
  | IdentitySecurifyToSingleBadge => returns_badge receiver IDENTITY_OWNER_BADGE returned
  | PackagePublishWasm => returns_amount ONE PACKAGE_OWNER_BADGE returned
  | FungibleResourceManagerMint amount => returns_own receiver (returns_amount amount) returned
  | NonFungibleResourceManagerMint ids => returns_own receiver (returns_ids ids) returned
  | NonFungibleResourceManagerMintRuid count => returns_own receiver (returns_amount (count * ONE)) returned
  | NonFungibleResourceManagerMintSingleRuid => returns_own receiver (returns_amount ONE) returned
  end.

(** *** Assertions *)

Definition constraints_hold (c : ManifestResourceConstraints) (W : Balances) : Prop :=
  forall r k, (r, k) ∈ c -> constraint_sat (is_fungible r) k (W r).
Definition nothing_else (c : ManifestResourceConstraints) (W : Balances) : Prop :=
  forall r, im_get r c = None -> W r = zero_balance.

Definition worktop_assertion_holds (a : WorktopAssertion) (W : Balances) : Prop :=
  match a with
  | ResourceNonZeroAmount r => constraint_sat (is_fungible r) NonZeroAmount (W r)
  | ResourceAtLeastAmount r amount => constraint_sat (is_fungible r) (AtLeastAmount amount) (W r)
  | ResourceAtLeastNonFungibles r ids => constraint_sat (is_fungible r) (AtLeastNonFungibles ids) (W r)
  | ResourcesOnly c => constraints_hold c W /\ nothing_else c W
  | ResourcesInclude c => constraints_hold c W
  end.

Definition call_assertion_holds (a : option NextCallAssertion) (W : Balances) : Prop :=
  match a with
  | Some (ReturnsOnly c) => constraints_hold c W /\ nothing_else c W
  | Some (ReturnsInclude c) => constraints_hold c W
  | None => True
  end.

(** *** Calls *)

(** The buckets and the worktop leave with the arguments, from left to right. *)
Inductive send : Holdings -> Balances -> list ManifestCustomValue -> Holdings -> Balances -> Prop :=
| send_nil h W : send h W [] h W
| send_bucket h W b r bal cs h' W' :
    held_buckets h !! b = Some (r, bal) -> balance_ok (is_fungible r) (join (W r) bal) ->
    send (lose_bucket b h) (update_balance W r (join (W r) bal)) cs h' W' ->
    send h W (MBucket b :: cs) h' W'
| send_worktop h W cs h' W' :
    balances_ok (join_all W (held_worktop h)) ->
    send (hold_worktop no_balances h) (join_all W (held_worktop h)) cs h' W' ->
    send h W (MExpression EntireWorktop :: cs) h' W'
| send_other h W c cs h' W' :
    (forall b, c <> MBucket b) -> c <> MExpression EntireWorktop -> send h W cs h' W' -> send h W (c :: cs) h' W'.

Section Calls.
Context (decode_args : InputType -> ManifestValue -> option TypedManifestNativeInvocation).

Definition resolved_address (created : list BlueprintId) (address : DynamicAddress) : option ResolvedDynamicAddress :=
  match address with
  | StaticAddress address => Some (ResolvedStatic address)
  | NamedAddress a => BlueprintResolvedFromNamedAddress <$> created !! Z.to_nat a
  end.

(** The native invocation that a call is, and its receiver. *)
Definition native_call (created : list BlueprintId) (kind : InvocationKind) (args : ManifestValue) :
    option (TypedManifestNativeInvocation * InvocationReceiver) :=
  match kind with
  | MethodInvocation address module_id method =>
      a ← resolved_address created address;
      match from_method_invocation decode_args a module_id method args with
      | Ok (Some v) => Some (v, GlobalMethod a) | _ => None
      end
  | FunctionInvocation (StaticAddress package) blueprint function =>
      match from_function_invocation decode_args (mk_blueprint_id package blueprint) function args with
      | Ok (Some v) => Some (v, BlueprintFunction (mk_blueprint_id package blueprint)) | _ => None
      end
  | DirectMethodInvocation address method =>
      match from_direct_method_invocation decode_args (ResolvedStatic address) method args with
      | Ok (Some v) => Some (v, DirectAccess address) | _ => None
      end
  | _ => None
  end.

Definition passed_resource (h : Holdings) (args : ManifestValue) (r : ResourceAddress) : Prop :=
  exists b bal, MBucket b ∈ customs args /\ held_buckets h !! b = Some (r, bal).

Definition call_behaves (h : Holdings) (kind : InvocationKind) (args : ManifestValue) (sent returned : Balances) : Prop :=
  match native_call (created_addresses h) kind args with
  | Some (v, receiver) => behaves v receiver (passed_resource h args) sent returned
  | None => True
  end.

(** *** Instructions *)

Record Movement : Type := mk_movement {
  moved_at : Z;
  moved_by : InvocationKind;
  moved_in : ResourceAddress -> Balance;
  moved_out : ResourceAddress -> Balance
}.

Inductive run_step (i : Z) : Holdings -> ManifestInstructionEffect -> list Movement -> Holdings -> Prop :=
| run_take h s amount taken rest :
    let r := source_resource_address s in
    match s with
    | AllOnWorktop _ => amount = TakeAll
    | AmountFromWorktop _ a => amount = TakeAmount a
    | NonFungiblesFromWorktop _ ids => amount = TakeNonFungibles (is_from_iter ids)
    end ->
    balance_ok (is_fungible r) taken -> balance_ok (is_fungible r) rest ->
    held_worktop h r ≡ join rest taken -> take_matches (is_fungible r) amount taken rest ->
    run_step i h (CreateBucket s) [] (hold_bucket r taken (hold_worktop (update_balance (held_worktop h) r rest) h))
| run_return h b r bal :
    held_buckets h !! b = Some (r, bal) -> balance_ok (is_fungible r) (join (held_worktop h r) bal) ->
    run_step i h (ConsumeBucket b WorktopDestination) []
      (lose_bucket b (hold_worktop (update_balance (held_worktop h) r (join (held_worktop h r) bal)) h))
| run_burn h b r bal : held_buckets h !! b = Some (r, bal) ->
    run_step i h (ConsumeBucket b BurnedDestination) [] (lose_bucket b h)
| run_assert_worktop h a : worktop_assertion_holds a (held_worktop h) ->
    run_step i h (ResourceAssertionEffect (AssertWorktop a)) [] h
| run_assert_bucket h b r bal c :
    held_buckets h !! b = Some (r, bal) -> constraint_ok (is_fungible r) c -> constraint_sat (is_fungible r) c bal ->
    run_step i h (ResourceAssertionEffect (AssertBucket (BucketContents b c))) [] h
| run_assert_next h a : awaited h = None ->
    run_step i h (ResourceAssertionEffect (AssertNextCall a)) [] (await (Some a) h)
| run_allocate h p n : run_step i h (CreateAddressAndReservation p n) [] (add_created (mk_blueprint_id p n) h)
| run_proof h s : run_step i h (CreateProof s) [] h
| run_consume_proof h p d : run_step i h (ConsumeProof p d) [] h
| run_clone h p : run_step i h (CloneProofEffect p) [] h
| run_drop h a s n : run_step i h (DropManyProofs a s n) [] h
| run_verify h k rule : run_step i h (Verification k rule) [] h
| run_call h kind args h1 sent returned :
    send h no_balances (customs args) h1 sent -> balances_ok returned ->
    call_behaves h kind args sent returned -> call_assertion_holds (awaited h) returned ->
    balances_ok (join_all (held_worktop h1) returned) ->
    run_step i h (Invocation kind args) [mk_movement i kind sent returned]
      (await None (hold_worktop (join_all (held_worktop h1) returned) h1)).

Inductive runs : Z -> Holdings -> list ManifestInstructionEffect -> list Movement -> Holdings -> Prop :=
| runs_nil i h : runs i h [] [] h
| runs_cons i h e h1 es mvs mvs' h2 :
    run_step i h e mvs h1 -> runs (i + 1) h1 es mvs' h2 -> runs i h (e :: es) (mvs ++ mvs') h2.
End Calls.

(** A manifest starts with nothing, unless its parent sends it something. *)
Definition starts (m : Manifest) (h : Holdings) : Prop :=
  exists W, balances_ok W /\ (is_subintent m = false -> W = no_balances) /\ h = mk_holdings W ∅ 0 [] None.

(** What the analysis reports for a call bounds its movement, of balances. *)
Definition reports (e : Z * InvocationStaticInformation) (mv : Movement) : Prop :=
  e.1 = moved_at mv /\ info_kind e.2 = moved_by mv /\
  (balances_ok (moved_in mv) /\ holds (info_input e.2) (moved_in mv)) /\
  (balances_ok (moved_out mv) /\ holds (info_output e.2) (moved_out mv)).

(** *** Hypotheses on manifests and decoders *)

Definition constraints_typed (c : ManifestResourceConstraints) : Prop :=
  forall r k, (r, k) ∈ c -> constraint_ok (is_fungible r) k.

(** The constraints of an instruction: sets of ids without repetition, and the
    documented form of the ids of a fungible resource. *)
Definition effect_typed (e : ManifestInstructionEffect) : Prop :=
  match e with
  | ResourceAssertionEffect (AssertWorktop (ResourceAtLeastNonFungibles _ ids)) => NoDup ids
  | ResourceAssertionEffect (AssertWorktop (ResourcesOnly c | ResourcesInclude c))
  | ResourceAssertionEffect (AssertNextCall (ReturnsOnly c | ReturnsInclude c)) => constraints_typed c
  | _ => True
  end.

(** A withdrawal from a pool that cannot round: by the exact strategy, or of a
    whole amount.  The analysis takes the requested amount for the returned one,
    whatever the strategy is. *)
Definition withdrawal_exact (v : TypedManifestNativeInvocation) : Prop :=
  match v with
  | TwoResourcePoolProtectedWithdraw _ amount strategy | MultiResourcePoolProtectedWithdraw _ amount strategy =>
      strategy = Exact \/ (ONE | amount)
  | _ => True
  end.

(** The withdrawals from pools among the calls of a manifest are of that kind. *)
Definition withdrawals_exact (decode_args : InputType -> ManifestValue -> option TypedManifestNativeInvocation)
    (e : ManifestInstructionEffect) : Prop :=
  match e with
  | Invocation kind args => forall created v receiver,
      native_call decode_args created kind args = Some (v, receiver) -> withdrawal_exact v
  | _ => True
  end.

(** The types of the invocations that return none of their inputs hold buckets,
    not expressions. *)
Definition decoders_ok (decode_args : InputType -> ManifestValue -> option TypedManifestNativeInvocation) : Prop :=
  forall t args i, decode_args t args = Some (UnknownOutputInvocation i) -> no_resource_inputs_returned i = true ->
    forall e, MExpression e ∉ customs args.
End MovementsSpec.

Import MovementsSpec.

(** ** Lemmas *)

Module MovementsLemmas.

Lemma wlp_conj {S E A} (c : M S E A) s (Q R : A -> S -> Prop) :
  wlp c s Q -> wlp c s R -> wlp c s (fun a s' => Q a s' /\ R a s').
Proof. unfold wlp. by destruct (c s) as [[[a|e] s']|]. Qed.

(** *** The output of native invocations *)

Section Outputs.
Context {S : Type}.
Implicit Types (s : S).

Lemma wlp_on_value {T A} (t : T) (c : M T MovementsError A) s (Q : A * T -> S -> Prop) :
  wlp c t (fun a t' => Q (a, t') s) -> wlp (on_value t c) s Q.
Proof. unfold wlp, on_value. by destruct (c t) as [[[a|e] t']|]. Qed.

Lemma no_balances_ok : balances_ok no_balances.
Proof. intros r. apply zero_balance_ok. Qed.

Definition single (r : ResourceAddress) (b : Balance) : Balances := update_balance no_balances r b.

Lemma single_only r P (W : Balances) : returns_only r P W -> forall r', single r (W r) r' ≡ W r'.
Proof. intros [_ Hz] r'. unfold single, update_balance. destruct (decide (r' = r)) as [->|]; [done|by rewrite Hz]. Qed.

(** A resource with known bounds is all that is returned. *)
Lemma add_to_empty_sound r t b s :
  balance_ok (is_fungible r) b -> bounded (is_fungible r) (bounds t) b ->
  wlp (add_resource resources_new_empty r t) s (fun o s' => holds o (single r b) /\ s' = s).
Proof.
  intros Hb Ht. unfold add_resource. apply wlp_bind, wlp_on_value.
  eapply wlp_mono; [apply (mut_add_resource_sound _ no_balances r t b);
    [apply no_balances_ok|done|by rewrite join_zero_l|apply holds_empty|done]|].
  intros [] o Ho. apply wlp_ret. by rewrite join_zero_l in Ho.
Qed.

Context (d : InvocationDetails).

Lemma amount_output_sound r a (W : Balances) s : balances_ok W -> returns_amount a r W ->
  wlp (amount_output d r a) s (fun o s' => holds o W /\ s' = s).
Proof.
  intros HW Hr. pose proof (single_only _ _ _ Hr) as He. destruct Hr as [Ha _].
  unfold amount_output, tracked_exact_amount. apply wlp_bind, wlp_bind.
  eapply wlp_mono; [apply exact_amount_spec|]. intros g s1 [[-> _] ->]. apply wlp_ret.
  eapply wlp_mono; [apply (add_to_empty_sound r _ (W r)); [apply HW|by apply bounded_exact_amount]|].
  intros o s' [Ho ->]. split; [|done]. by eapply holds_ext.
Qed.

Lemma non_fungibles_output_sound r ids (W : Balances) s : balances_ok W -> returns_ids ids r W ->
  wlp (non_fungibles_output d r ids) s (fun o s' => holds o W /\ s' = s).
Proof.
  intros HW [Hf Hr]. pose proof (single_only _ _ _ Hr) as He. destruct Hr as [Hi _].
  unfold non_fungibles_output, tracked_exact_non_fungibles. apply wlp_bind, wlp_bind.
  eapply wlp_mono; [apply exact_non_fungibles_spec|]. intros g s1 [-> ->]. apply wlp_ret.
  eapply wlp_mono; [apply (add_to_empty_sound r _ (W r)); [apply HW|]|].
  - cbn. apply bounded_exact_ids; [apply HW|done| |apply NoDup_is_from_iter].
    intros i. by rewrite Hi, elem_of_is_from_iter.
  - intros o s' [Ho ->]. split; [|done]. by eapply holds_ext.
Qed.

Lemma unspecified_output_sound (W : Balances) : balances_ok W -> holds (unspecified_output d) W.
Proof. intros HW. by apply holds_unspecified. Qed.

Lemma of_receiver_sound (output : ResourceAddress -> M S MovementsError TrackedResources) P (W : Balances) s :
  balances_ok W -> returns_own (receiver d) P W ->
  (forall r, P r W -> wlp (output r) s (fun o s' => holds o W /\ s' = s)) ->
  wlp (output_of_receiver d output) s (fun o s' => holds o W /\ s' = s).
Proof.
  intros HW HP Ho. unfold output_of_receiver.
  destruct (receiver d) as [[r|bp]|r|bp]; cbn in HP; try by apply wlp_ret; split; [apply unspecified_output_sound|].
  destruct (is_global_resource_manager r); [by apply Ho|apply wlp_throw].
Qed.

Lemma securify_sound badge (W : Balances) s : balances_ok W -> returns_badge (receiver d) badge W ->
  wlp (output_securify d badge) s (fun o s' => holds o W /\ s' = s).
Proof.
  intros HW Hb. unfold output_securify. destruct (receiver d) as [[r|bp]|r|bp]; cbn in Hb; [|by apply amount_output_sound|done..].
  apply wlp_bind, wlp_lift_exec. intros id Hid. unfold id_of_address, id_bytes in Hid.
  destruct (validate_bytes r); simplify_eq/=. by apply non_fungibles_output_sound.
Qed.

Lemma some_rork_sound (W : Balances) s : balances_ok W -> returns_only RORK (fun _ => True) W ->
  wlp (output_some_rork d) s (fun o s' => holds o W /\ s' = s).
Proof.
  intros HW Hr. pose proof (single_only _ _ _ Hr) as He. unfold output_some_rork.
  eapply wlp_mono; [apply (add_to_empty_sound RORK _ (W RORK)); [apply HW|by apply bounded_zero_or_more]|].
  intros o s' [Ho ->]. split; [|done]. by eapply holds_ext.
Qed.

(** *** Unknown outputs and refunds *)

Lemma assert_none_sound keys t W : balances_ok W -> holds t W -> (forall r, r ∈ keys -> W r = zero_balance) ->
  wlp (assert_none_returned d keys) t (fun _ t' => holds t' W).
Proof.
  intros HW Ht Hz. revert t Ht. induction keys as [|r keys IH]; intros t Ht; cbn [assert_none_returned]; [by apply wlp_ret|].
  apply wlp_bind. eapply wlp_mono; [apply handle_resource_assertion_sound; [done|done|]|].
  - rewrite Hz by left. apply bounded_zero.
  - intros [] t' Ht'. apply IH; [|done]. intros r' ?. apply Hz. by right.
Qed.

Lemma output_unknown_sound i (W : Balances) s : balances_ok W ->
  (no_resource_inputs_returned i = true -> forall r, r ∈ im_keys (specified_resources (details_sent_resources d)) -> W r = zero_balance) ->
  wlp (output_unknown d i) s (fun o s' => holds o W /\ s' = s).
Proof.
  intros HW Hz. unfold output_unknown. destruct (no_resource_inputs_returned i).
  - apply wlp_bind, wlp_on_value. eapply wlp_mono; [apply (assert_none_sound _ _ W); auto using unspecified_output_sound|].
    intros [] o Ho. by apply wlp_ret.
  - apply wlp_ret. split; [by apply unspecified_output_sound|done].
Qed.

(** A part of a balance satisfies the bounds of the whole without their lower
    part. *)
Lemma part_bounded f g b kept part : balance_ok f part -> balance_ok f kept -> b ≡ join kept part -> bounded f g b ->
  bounded f (with_lower (with_required g []) lower_zero) part.
Proof.
  intros Hp Hk [Ha Hi] [[Hn Hlo Hup Hal Hf] [Hsl Hsu Hsr Hsa]]. pose proof (balance_nonneg _ _ Hp).
  pose proof (balance_nonneg _ _ Hk). cbn in Ha, Hi. split; constructor; cbn; try done.
  - constructor.
  - intros Hff. by destruct (Hf Hff) as [_ ?].
  - destruct (upper_bound g); cbn in *; [lia|done].
  - set_solver.
  - destruct (allowed_ids g); cbn in *; [|done]. rewrite Hi in Hsa. set_solver.
Qed.

Lemma mut_add_resource_keys o r t :
  wlp (mut_add_resource (ME := ManifestValidationError) r t) o (fun _ o' =>
    unspecified_resources o' = unspecified_resources o /\
    forall r', r' ∈ im_keys (specified_resources o') -> r' = r \/ r' ∈ im_keys (specified_resources o)).
Proof.
  unfold mut_add_resource. apply wlp_bind, wlp_guard_or. intros _. apply wlp_on_resource.
  unfold wlp. destruct (tracked_add_from t (resource_status o r)) as [[[[]|e] t']|]; try done. cbn. split; [done|].
  intros r' Hr. apply (elem_of_keys_put o r t' r') in Hr. tauto.
Qed.

Lemma add_resource_spec o r t s (R : Balances) b :
  balances_ok R -> balance_ok (is_fungible r) b -> R r = zero_balance -> holds o R -> bounded (is_fungible r) (bounds t) b ->
  wlp (add_resource o r t) s (fun o' s' =>
    holds o' (update_balance R r b) /\ unspecified_resources o' = unspecified_resources o /\
    (forall r', r' ∈ im_keys (specified_resources o') -> r' = r \/ r' ∈ im_keys (specified_resources o)) /\ s' = s).
Proof.
  intros HR Hb Hz Ho Ht. unfold add_resource. apply wlp_bind, wlp_on_value.
  eapply wlp_mono; [apply wlp_conj; [by apply (mut_add_resource_sound o R r t b); rewrite ?Hz, ?join_zero_l|apply mut_add_resource_keys]|].
  intros [] o' (Ho' & Hu & Hk). rewrite Hz, join_zero_l in Ho'. apply wlp_ret. done.
Qed.

Section Refund.
Context (sent W : Balances) (Hsent : balances_ok sent) (HW : balances_ok W) (Hpart : returns_part sent W).

Lemma refund_known_sound keys st A o R s :
  NoDup keys -> balances_ok A -> balances_ok R -> holds st A -> holds o R ->
  (forall r, r ∈ keys -> A r = sent r /\ R r = zero_balance) ->
  wlp (refund_known d keys st o) s (fun o' s' =>
    holds o' (fun r => if decide (r ∈ keys) then W r else R r) /\ unspecified_resources o' = unspecified_resources o /\
    (forall r, r ∈ im_keys (specified_resources o') -> r ∈ keys \/ r ∈ im_keys (specified_resources o)) /\ s' = s).
Proof.
  intros Hnd HA HR Hst Ho Hk. revert st A o R HA HR Hst Ho Hk.
  induction Hnd as [|k keys Hnk Hnd IH]; intros st A o R HA HR Hst Ho Hk; cbn [refund_known].
  { apply wlp_ret. split_and!; [|done|by right|done]. eapply holds_ext; [|done]. intros r.
    destruct (decide (r ∈ [])) as [Hr|]; [by apply not_elem_of_nil in Hr|done]. }
  destruct (Hk k ltac:(left)) as [HAk HRk]. destruct (Hpart k) as (kept & Hkept & Hjoin). apply wlp_bind, wlp_on_value.
  eapply wlp_mono; [apply (mut_take_resource_sound st A k TakeAll _ (A k) zero_balance HA);
    [apply HA|apply zero_balance_ok|by rewrite join_zero_l|done|done]|].
  intros t st' [Hst' Hb]. rewrite HAk in Hb. apply wlp_bind, wlp_on_value, wlp_modify, wlp_bind. cbn [fst snd].
  eapply wlp_mono; [apply (add_resource_spec o k _ s R (W k) HR (HW k) HRk Ho)|].
  { cbn. eapply part_bounded; [apply HW|exact Hkept|done|done]. }
  intros o' s' (Ho' & Hu & Hkeys & ->).
  eapply wlp_mono; [eapply (IH st' (update_balance A k zero_balance) o' (update_balance R k (W k)))|].
  - apply balances_ok_update; [done|apply zero_balance_ok].
  - apply balances_ok_update; [done|apply HW].
  - done.
  - done.
  - intros r Hr. unfold update_balance. destruct (decide (r = k)) as [->|]; [done|]. apply Hk. by right.
  - intros o2 s2 (Ho2 & Hu2 & Hk2 & ->). split_and!; [|congruence| |done].
    + eapply holds_ext; [|exact Ho2]. intros r. unfold update_balance.
      destruct (decide (r = k)) as [->|]; repeat case_decide; set_solver.
    + intros r [?|[->|?]%Hkeys]%Hk2; [by left; right|by left; left|by right].
Qed.

Lemma refund_sound s : holds (details_sent_resources d) sent ->
  wlp (handle_possible_refund d) s (fun o s' => holds o W /\ s' = s).
Proof.
  intros Hs. unfold handle_possible_refund. apply wlp_bind.
  eapply wlp_mono; [apply (refund_known_sound _ _ sent _ no_balances);
    [apply Hs|done|apply no_balances_ok|done|apply holds_empty|done]|].
  intros o s' (Ho & Hu & Hk & ->). cbn in Hu, Hk. destruct (may_be_present _) eqn:Hm.
  - apply wlp_bind, wlp_on_value. unfold mut_add_unspecified_resources. apply wlp_modify, wlp_ret. split; [|done].
    destruct Ho as [Hok Hst]. split; [done|]. intros r. specialize (Hst r). revert Hst. unfold resource_status. cbn.
    destruct (im_get r (specified_resources o)) as [t|] eqn:Hg; cbn.
    + assert (r ∈ im_keys (specified_resources o)) as Hr. { apply im_get_elem in Hg. by apply (list_elem_of_fmap_2 fst _ _ Hg). }
      apply Hk in Hr as [Hr|Hr]; [by rewrite decide_True by done|by apply not_elem_of_nil in Hr].
    + intros _. rewrite Hu. cbn. by apply bounded_zero_or_more.
  - apply wlp_ret. split; [|done]. eapply holds_ext; [|done]. intros r. cbn. case_decide as Hr; [done|].
    assert (sent r = zero_balance) as Hz.
    { eapply is_zero_balance; [apply Hsent|apply (holds_status _ _ Hs r)|]. unfold resource_status.
      rewrite (proj2 (im_get_None _ _) Hr). cbn. by destruct (unspecified_resources (details_sent_resources d)). }
    destruct (Hpart r) as (kept & Hkept & Hj). rewrite Hz in Hj. destruct Hj as [Ha Hi]. cbn in Ha, Hi.
    pose proof (balance_nonneg _ _ Hkept). pose proof (balance_nonneg _ _ (HW r)).
    symmetry in Hi. apply Permutation_nil_r in Hi. apply app_eq_nil in Hi as [_ Hi]. split; cbn; [lia|by rewrite Hi].
Qed.
End Refund.

Lemma withdrawn_exact amount strategy r (W : Balances) : strategy = Exact \/ (ONE | amount) ->
  returns_withdrawn amount strategy r W -> returns_amount amount r W.
Proof using.
  intros Hx (dv & taken & Hdv & Hw & _ & Hr). assert (taken = amount) as ->; [|done].
  destruct strategy as [|mode]; [by injection Hw|]. destruct Hx as [|[k ->]]; [done|].
  cbn in Hw. unfold checked_round, Fixed.checked_round_at, SCALE in Hw.
  rewrite (proj2 (Z.leb_le dv 18)), (proj2 (Z.leb_le 0 dv)) in Hw by lia. cbn [negb] in Hw.
  rewrite (proj2 (Z.rem_divide (k * ONE) (10 ^ (18 - dv)) ltac:(apply Z.pow_nonzero; lia))) in Hw; [by injection Hw|].
  exists (k * 10 ^ dv). unfold ONE, SCALE. rewrite <- Z.mul_assoc, <- Z.pow_add_r by lia. do 2 f_equal. lia.
Qed.

(** The output of a native invocation bounds what it returns. *)
Lemma output_sound v (passed : ResourceAddress -> Prop) (sent W : Balances) s :
  balances_ok sent -> balances_ok W -> holds (details_sent_resources d) sent -> withdrawal_exact v ->
  behaves v (receiver d) passed sent W ->
  (forall i, v = UnknownOutputInvocation i -> no_resource_inputs_returned i = true ->
     forall r, r ∈ im_keys (specified_resources (details_sent_resources d)) -> passed r) ->
  wlp (output d v) s (fun o s' => holds o W /\ s' = s).
Proof.
  intros Hs HW Hh Hx Hb Hp.
  assert (returns_nothing W -> wlp (mret resources_new_empty : M S MovementsError _) s (fun o s' => holds o W /\ s' = s)) as Hnone.
  { intros Hn. apply wlp_ret. split; [|done]. eapply holds_ext; [|apply holds_empty]. intros r. by rewrite Hn. }
  assert (forall a r, returns_of r (returns_amount a) W -> wlp (output_amount_of d r a) s (fun o s' => holds o W /\ s' = s)) as Ham.
  { intros a [r|n] Hr; [by apply amount_output_sound|]. apply wlp_ret. by split; [apply unspecified_output_sound|]. }
  assert (forall a r, returns_of r (returns_ids a) W -> wlp (output_non_fungibles_of d r a) s (fun o s' => holds o W /\ s' = s)) as Hids.
  { intros a [r|n] Hr; [by apply non_fungibles_output_sound|]. apply wlp_ret. by split; [apply unspecified_output_sound|]. }
  assert (forall a strategy r, strategy = Exact \/ (ONE | a) -> returns_of r (returns_withdrawn a strategy) W ->
    wlp (output_amount_of d r a) s (fun o s' => holds o W /\ s' = s)) as Hpool.
  { intros a strategy [r|n] Hst Hr; apply Ham; [|done]. by eapply withdrawn_exact. }
  destruct v; cbn [output behaves withdrawal_exact] in Hb, Hx |- *; cbv delta [
    output_AccessControllerWithdrawRecoveryFee output_AccountCreate output_AccountSecurify
    output_AccountWithdraw output_AccountWithdrawNonFungibles output_AccountLockFeeAndWithdraw
    output_AccountLockFeeAndWithdrawNonFungibles output_AccountTryDepositOrRefund
    output_AccountTryDepositBatchOrRefund output_ConsensusManagerCreateValidator output_ValidatorClaimXrd
    output_IdentityCreate output_IdentitySecurifyToSingleBadge output_AccountLockerAirdrop
    output_AccountLockerRecover output_AccountLockerRecoverNonFungibles output_AccountLockerClaim
    output_AccountLockerClaimNonFungibles output_PackagePublishWasm output_PackageClaimRoyalties
    output_TwoResourcePoolProtectedWithdraw output_MultiResourcePoolProtectedWithdraw
    output_FungibleResourceManagerMint output_ResourceManagerCreateEmptyBucket
    output_NonFungibleResourceManagerMint output_NonFungibleResourceManagerMintRuid
    output_NonFungibleResourceManagerMintSingleRuid output_ComponentClaimRoyalties output_none]; cbn beta;
    lazymatch goal with
    | |- wlp (mret _) _ _ => by apply Hnone
    | |- wlp (amount_output _ _ _) _ _ => by apply amount_output_sound
    | |- wlp (output_owner_badge _ _) _ _ => by apply amount_output_sound
    | |- wlp (output_securify _ _) _ _ => by apply securify_sound
    | |- wlp (output_amount_of _ _ _) _ _ => first [by apply Ham | by eapply Hpool]
    | |- wlp (output_non_fungibles_of _ _ _) _ _ => by apply Hids
    | |- wlp (handle_possible_refund _) _ _ => by apply (refund_sound sent)
    | |- wlp (output_some_rork _) _ _ => by apply some_rork_sound
    | |- wlp (output_of_receiver _ _) _ _ =>
        eapply of_receiver_sound; [done|exact Hb|];
          intros; by first [apply amount_output_sound | apply non_fungibles_output_sound]
    | |- wlp (output_unknown _ _) _ _ => idtac
    end.
  apply output_unknown_sound; [done|]. intros Hi r Hr. apply Hb; [done|]. by eapply Hp.
Qed.

End Outputs.

(** *** What the interpreter does outside the visitor *)

Section Interpreted.
Context (decode_args : InputType -> ManifestValue -> option TypedManifestNativeInvocation).
Context (ruleset : ValidationRuleset) (m : Manifest).

#[local] Instance the_visitor : ManifestInterpretationVisitor StaticResourceMovementsVisitor MovementsError :=
  movements_visitor decode_args.

Abbreviation IM := (M (StaticManifestInterpreter * StaticResourceMovementsVisitor) MovementsError).

(** The ids that the interpreter gives next do not change. *)
Definition same_ids (s s' : StaticManifestInterpreter) : Prop :=
  length (bucket_state s') = length (bucket_state s) /\
  length (named_address_state s') = length (named_address_state s).

Definition quiet {A} (c : IM A) : Prop :=
  forall s v, wlp c (s, v) (fun _ s' => same_ids s s'.1 /\ s'.2 = v).

Lemma quiet_bind {A B} (c : IM A) (f : A -> IM B) : quiet c -> (forall a, quiet (f a)) -> quiet (c ≫= f).
Proof.
  intros Hc Hf s v. apply wlp_bind. eapply wlp_mono; [apply Hc|]. intros a [s1 v1] [[? ?] ?]. cbn in *. subst.
  eapply wlp_mono; [apply Hf|]. intros b [s2 v2] [[? ?] ?]. cbn in *. subst. unfold same_ids. split; [split; congruence|done].
Qed.

Lemma quiet_ret {A} (a : A) : quiet (mret a).
Proof. intros s v. by apply wlp_ret. Qed.
Lemma quiet_self {A} (f : StaticManifestInterpreter -> A) : quiet (self f).
Proof. intros s v. by apply wlp_gets. Qed.
Lemma quiet_update f : (forall s, same_ids s (f s)) -> quiet (update f).
Proof. intros Hf s v. apply wlp_modify. split; [apply Hf|done]. Qed.
Lemma quiet_break {A} e : quiet (break (A := A) e).
Proof. intros s v. apply wlp_throw. Qed.
Lemma quiet_lift {A} (x : Exec A) : quiet (lift_exec x).
Proof. intros s v. by apply wlp_lift_exec. Qed.
Lemma quiet_visit : quiet (visit (mret tt)).
Proof. intros s v. by apply wlp_zoom, wlp_ret. Qed.

Lemma wlp_quiet {A B} (c : IM A) (f : A -> IM B) s v Q :
  quiet c -> (forall a s', same_ids s s' -> wlp (f a) (s', v) Q) -> wlp (c ≫= f) (s, v) Q.
Proof.
  intros Hc Hf. apply wlp_bind. eapply wlp_mono; [apply Hc|]. intros a [s' v'] [Hs Hv]. cbn in *. subst. by apply Hf.
Qed.

Lemma wlp_visiting {A} (cb : M StaticResourceMovementsVisitor MovementsError A) s v Q :
  wlp cb v (fun a v' => Q a (s, v')) -> wlp (visit cb) (s, v) Q.
Proof. intros. by apply wlp_zoom. Qed.

Ltac quiet_tac :=
  repeat first
    [ apply quiet_bind; [|intros ?] | apply quiet_ret | apply quiet_self | apply quiet_break | apply quiet_lift
    | apply quiet_visit | case_match
    | apply quiet_update; intros ?; split; cbn; rewrite ?length_insert; done ].

Lemma quiet_get_bucket b : quiet (get_existing_bucket b).
Proof. unfold get_existing_bucket. quiet_tac. Qed.
Lemma quiet_set_bucket b st : quiet (set_bucket b st).
Proof. unfold set_bucket. quiet_tac. Qed.
Lemma quiet_lock d k : quiet (lock_bucket d k).
Proof. unfold lock_bucket. destruct k; [|apply quiet_ret]. apply quiet_bind; [apply quiet_get_bucket|intros; apply quiet_set_bucket]. Qed.
Lemma quiet_new_proof a : quiet (handle_new_proof a).
Proof. unfold handle_new_proof. apply quiet_bind; [apply quiet_lock|intros _]. quiet_tac. Qed.
Lemma quiet_get_proof p : quiet (get_existing_proof p).
Proof. unfold get_existing_proof. quiet_tac. Qed.
Lemma quiet_clone p : quiet (handle_cloned_proof p).
Proof. unfold handle_cloned_proof. apply quiet_bind; [apply quiet_get_proof|intros; apply quiet_new_proof]. Qed.
Lemma quiet_consume_proof p d : quiet (consume_proof p d).
Proof.
  unfold consume_proof. apply quiet_bind; [apply quiet_self|intros l]. apply quiet_bind; [apply quiet_get_proof|intros st].
  apply quiet_bind; [quiet_tac|intros _]. apply quiet_bind; [apply quiet_visit|intros; apply quiet_lock].
Qed.
Lemma quiet_drop_proofs l : quiet (drop_proofs l).
Proof. induction l; cbn; [apply quiet_ret|apply quiet_bind; [apply quiet_consume_proof|done]]. Qed.
Lemma quiet_drop_many a s n : quiet (handle_drop_many_proofs a s n).
Proof.
  unfold handle_drop_many_proofs. apply quiet_bind; [|intros; quiet_tac]. destruct a; [|apply quiet_ret].
  apply quiet_bind; [apply quiet_self|intros; apply quiet_drop_proofs].
Qed.
Lemma quiet_reservation p n pre : quiet (handle_new_address_reservation p n pre).
Proof. unfold handle_new_address_reservation. quiet_tac. Qed.
Lemma quiet_consume_reservation r k : quiet (consume_address_reservation r k).
Proof. unfold consume_address_reservation, get_existing_address_reservation. quiet_tac. Qed.
Lemma quiet_named a : quiet (get_existing_named_address a).
Proof. unfold get_existing_named_address. quiet_tac. Qed.
Lemma quiet_kind k : quiet (handle_invocation_kind ruleset m k).
Proof.
  unfold handle_invocation_kind, check_dynamic_address. destruct k; quiet_tac; try apply quiet_named; quiet_tac.
Qed.
Lemma quiet_next_instruction e : quiet (handle_next_instruction e).
Proof. unfold handle_next_instruction. quiet_tac. Qed.
Lemma quiet_verification k r : quiet (handle_verification m k r).
Proof. unfold handle_verification. quiet_tac. Qed.
Lemma quiet_validate_assertion a : quiet (validate_resource_assertion a).
Proof.
  unfold validate_resource_assertion, require_valid. quiet_tac; try apply quiet_get_bucket.
Qed.
Lemma quiet_preallocated l : quiet (handle_preallocated_addresses l).
Proof. induction l; cbn; [apply quiet_ret|apply quiet_bind; [apply quiet_reservation|done]]. Qed.
Lemma quiet_children l : quiet (handle_child_subintents l).
Proof. induction l; cbn; [apply quiet_ret|]. unfold handle_new_intent. apply quiet_bind; [quiet_tac|done]. Qed.
Lemma quiet_blobs l : quiet (handle_blobs ruleset l).
Proof. induction l as [|[h c] l IH]; cbn; [apply quiet_ret|]. repeat (apply quiet_bind; [quiet_tac|intros ?]). apply IH. Qed.
Lemma quiet_final : quiet (verify_final_instruction m).
Proof. unfold verify_final_instruction. quiet_tac. Qed.
Lemma quiet_dangling {A} (f : A -> option ManifestLocation) g i l : quiet (check_dangling f g i l).
Proof. revert i. induction l; intros i; cbn; quiet_tac; auto. Qed.

(** *** The visitor against a run *)

Definition call_typed (a : option NextCallAssertion) : Prop :=
  match a with Some (ReturnsOnly c | ReturnsInclude c) => constraints_typed c | None => True end.

Record tracks (s : StaticManifestInterpreter) (v : StaticResourceMovementsVisitor) (h : Holdings) : Prop := {
  tr_next_bucket : Z.of_nat (length (bucket_state s)) = next_bucket_id h;
  tr_next_address : length (named_address_state s) = length (created_addresses h);
  tr_worktop_ok : balances_ok (held_worktop h);
  tr_worktop : holds (worktop v) (held_worktop h);
  tr_buckets_ok : im_ok (tracked_buckets v);
  tr_bucket : forall b r t, im_get b (tracked_buckets v) = Some (r, t) -> exists bal,
    held_buckets h !! b = Some (r, bal) /\ balance_ok (is_fungible r) bal /\ bounded (is_fungible r) (bounds t) bal;
  tr_named : forall a p, im_get a (tracked_named_addresses v) = Some p -> created_addresses h !! Z.to_nat a = Some p;
  tr_awaited : fst <$> next_invocation_assertion v = awaited h;
  tr_typed : call_typed (awaited h)
}.

Lemma tracks_same s s' v h : same_ids s s' -> tracks s v h -> tracks s' v h.
Proof. intros [Hb Ha] []. split; rewrite ?Hb, ?Ha; done. Qed.

Lemma tracks_current s v h c : tracks s v h -> tracks s (with_current c v) h.
Proof. by intros []. Qed.

Lemma on_sent_wlp v i t c (Q : unit -> StaticResourceMovementsVisitor -> Prop) :
  current_instruction v = Some (mk_current i t) ->
  wlp c t (fun _ t' => Q tt (with_current (Some (mk_current i t')) v)) -> wlp (on_sent_resources c) v Q.
Proof.
  intros Hc Hm. unfold on_sent_resources, the_current_instruction. apply wlp_bind, wlp_bind, wlp_gets. rewrite Hc.
  apply wlp_lift_exec. intros ci [= <-]. apply wlp_bind, wlp_on_value. eapply wlp_mono; [exact Hm|]. intros [] t' Ht.
  by apply wlp_modify.
Qed.

(** A bucket that is consumed leaves both the tracked and the held buckets. *)
Lemma consume_wlp s v h b d r bal i t (Q : unit -> StaticResourceMovementsVisitor -> Prop) :
  tracks s v h -> held_buckets h !! b = Some (r, bal) -> current_instruction v = Some (mk_current i t) ->
  (forall tb v', tracks s v' (lose_bucket b h) -> current_instruction v' = Some (mk_current i t) ->
     invocation_static_information v' = invocation_static_information v ->
     balance_ok (is_fungible r) bal -> bounded (is_fungible r) (bounds tb) bal ->
     wlp (match d with
          | WorktopDestination => on_worktop (mut_add_resource r tb)
          | BurnedDestination => mret tt
          | BucketToInvocation _ => on_sent_resources (mut_add_resource r tb)
          end) v' Q) ->
  wlp (visitor_consume_bucket b d) v Q.
Proof.
  intros Ht Hb Hc HQ. unfold visitor_consume_bucket. apply wlp_bind, wlp_gets, wlp_bind, wlp_modify. unfold id.
  pose proof (tr_buckets_ok _ _ _ Ht) as Hok.
  destruct (im_swap_remove b (tracked_buckets v)) as [[[r' tb]|] rest] eqn:Hrm; cbn [fst snd];
    apply wlp_bind, wlp_lift_exec; [|done]. intros a [= <-]. cbn [fst snd].
  pose proof Hrm as Hrm'. apply im_swap_remove_perm in Hrm' as [Hg _]; [|done].
  destruct (tr_bucket _ _ _ Ht _ _ _ Hg) as (bal' & Hb' & Hbal & Hbd). rewrite Hb in Hb'. injection Hb' as <- <-.
  apply HQ; try done. destruct Ht. split; cbn; try done.
  - replace rest with (im_swap_remove b (tracked_buckets v)).2 by (by rewrite Hrm). by apply im_ok_swap_remove.
  - intros b' r1 t1. replace rest with (im_swap_remove b (tracked_buckets v)).2 by (by rewrite Hrm).
    rewrite im_get_swap_remove by done. destruct (decide (b' = b)) as [->|Hne]; [done|]. intros Hg'.
    rewrite lookup_delete_ne by congruence. eauto.
Qed.

Lemma tracks_worktop s v h w W : balances_ok W -> holds w W -> tracks s v h -> tracks s (with_worktop w v) (hold_worktop W h).
Proof. intros HW Hw []. by split. Qed.

(** *** Sending the arguments of a call *)

Definition sending (i : Z) (t : TrackedResources) (W : Balances) (v : StaticResourceMovementsVisitor) : Prop :=
  current_instruction v = Some (mk_current i t) /\ holds t W /\ balances_ok W.

Lemma custom_bucket_sound kind y s v h i t W b r bal :
  tracks s v h -> sending i t W v -> held_buckets h !! b = Some (r, bal) -> balance_ok (is_fungible r) (join (W r) bal) ->
  wlp (handle_custom_value ruleset kind y (MBucket b)) (s, v) (fun _ s' =>
    tracks s'.1 s'.2 (lose_bucket b h) /\ invocation_static_information s'.2 = invocation_static_information v /\
    exists t', sending i t' (update_balance W r (join (W r) bal)) s'.2 /\
      forall r', r' ∈ im_keys (specified_resources t') -> r' = r \/ r' ∈ im_keys (specified_resources t)).
Proof.
  intros Ht (Hc & Hs & HW) Hb Hj. cbn [handle_custom_value]. unfold consume_bucket.
  apply wlp_quiet; [apply quiet_self|intros l s1 Hs1]. apply wlp_quiet; [apply quiet_get_bucket|intros st s2 Hs2].
  apply wlp_quiet; [destruct (_ && _); [apply quiet_break|apply quiet_ret]|intros _ s3 Hs3].
  apply wlp_quiet; [apply quiet_set_bucket|intros _ s4 Hs4]. apply wlp_visiting. cbn [on_consume_bucket the_visitor movements_visitor].
  eapply (consume_wlp s4); [by repeat (eapply tracks_same; [eassumption|])|done|done|].
  intros tb v' Ht' Hc' Hi Hbal Hbd. eapply on_sent_wlp; [done|].
  eapply wlp_mono; [apply wlp_conj; [by apply (mut_add_resource_sound t W r tb bal)|apply mut_add_resource_keys]|].
  intros [] t' (Ht2 & _ & Hk). split_and!; [by apply tracks_current|done|]. exists t'. split; [|done].
  split_and!; [done|done|]. by apply balances_ok_update.
Qed.

Lemma custom_worktop_sound kind y s v h i t W :
  tracks s v h -> sending i t W v -> balances_ok (join_all W (held_worktop h)) ->
  wlp (handle_custom_value ruleset kind y (MExpression EntireWorktop)) (s, v) (fun _ s' =>
    tracks s'.1 s'.2 (hold_worktop no_balances h) /\ invocation_static_information s'.2 = invocation_static_information v /\
    exists t', sending i t' (join_all W (held_worktop h)) s'.2).
Proof.
  intros Ht (Hc & Hs & HW) Hj. cbn [handle_custom_value]. apply wlp_visiting.
  cbn [on_pass_expression the_visitor movements_visitor visitor_pass_expression].
  apply wlp_bind. unfold on_worktop, resources_take_all. apply wlp_zoom, wlp_bind, wlp_gets, wlp_bind, wlp_modify, wlp_ret.
  eapply on_sent_wlp; [exact Hc|]. unfold id.
  eapply wlp_mono; [apply (resources_mut_add_sound t _ W (held_worktop h)); [done|apply Ht|done|done|apply Ht]|].
  intros [] t' Ht'. split_and!; [|done|by exists t'].
  apply tracks_current, (tracks_worktop _ _ _ resources_new_empty no_balances); [apply no_balances_ok|apply holds_empty|done].
Qed.

Lemma quiet_custom kind y c : (forall b, c <> MBucket b) -> c <> MExpression EntireWorktop ->
  quiet (handle_custom_value ruleset kind y c).
Proof.
  intros Hb Hw. destruct c as [[n|a]|b|p|[]|hash|d|d|id|r]; cbn; try apply quiet_ret; try done.
  - apply quiet_bind; [apply quiet_named|intros; apply quiet_ret].
  - by destruct (Hb b).
  - destruct y; [apply quiet_break|apply quiet_consume_proof].
  - apply quiet_bind; [apply quiet_self|intros this]. apply quiet_bind; [destruct (_ && _); [apply quiet_break|apply quiet_ret]|].
    intros; apply quiet_visit.
  - apply quiet_consume_reservation.
Qed.

Lemma send_sound kind y i h W cs h' W' : send h W cs h' W' -> forall s v t,
  tracks s v h -> sending i t W v ->
  wlp (handle_customs ruleset kind y cs) (s, v) (fun _ s' =>
    tracks s'.1 s'.2 h' /\ invocation_static_information s'.2 = invocation_static_information v /\
    exists t', sending i t' W' s'.2 /\
      ((forall e, MExpression e ∉ cs) -> forall r, r ∈ im_keys (specified_resources t') ->
         r ∈ im_keys (specified_resources t) \/ exists b bal, MBucket b ∈ cs /\ held_buckets h !! b = Some (r, bal))).
Proof.
  induction 1 as [h W|h W b r bal cs h' W' Hb Hj Hsend IH|h W cs h' W' Hj Hsend IH|h W c cs h' W' Hnb Hnw Hsend IH];
    intros s v t Ht Hst; cbn [handle_customs].
  - apply wlp_ret. split_and!; [done|done|]. exists t. split; [done|]. by left.
  - apply wlp_bind. eapply wlp_mono; [by eapply custom_bucket_sound|]. intros _ [s1 v1] (Ht1 & Hi1 & t1 & Hst1 & Hk1).
    eapply wlp_mono; [by apply (IH s1 v1 t1)|]. intros _ [s2 v2] (Ht2 & Hi2 & t2 & Hst2 & Hk2). split_and!; [done|cbn in Hi1, Hi2 |- *; congruence|].
    exists t2. split; [done|]. intros Hne r' Hr'. destruct (Hk2 ltac:(set_solver) r' Hr') as [Hr|(b' & bal' & Hin & Hl)].
    + apply Hk1 in Hr as [->|?]; [right|by left]. exists b, bal. split; [left|done].
    + right. exists b', bal'. split; [by right|]. cbn in Hl. by apply lookup_delete_Some in Hl as [_ ?].
  - apply wlp_bind. eapply wlp_mono; [by eapply custom_worktop_sound|]. intros _ [s1 v1] (Ht1 & Hi1 & t1 & Hst1).
    eapply wlp_mono; [by apply (IH s1 v1 t1)|]. intros _ [s2 v2] (Ht2 & Hi2 & t2 & Hst2 & Hk2). split_and!; [done|cbn in Hi1, Hi2 |- *; congruence|].
    exists t2. split; [done|]. intros Hne. destruct (Hne EntireWorktop). left.
  - apply wlp_quiet; [by apply quiet_custom|]. intros _ s1 Hs1.
    eapply wlp_mono; [apply (IH s1 v t); [by eapply tracks_same|done]|]. intros _ [s2 v2] (Ht2 & Hi2 & t2 & Hst2 & Hk2).
    split_and!; [done|done|]. exists t2. split; [done|]. intros Hne r' Hr'.
    destruct (Hk2 ltac:(set_solver) r' Hr') as [?|(b' & bal' & Hin & Hl)]; [by left|right]. exists b', bal'. split; [by right|done].
Qed.

(** *** The end of a call *)

Lemma native_decoded created kind args v r : native_call decode_args created kind args = Some (v, r) ->
  exists t, decode_args t args = Some v.
Proof.
  assert (forall table n f g w, decode_invocation decode_args table n args f g = Ok w -> exists t, decode_args t args = Some w) as Hd.
  { intros table n f g w. unfold decode_invocation. destruct (lookup_name n table) as [t|]; [|done].
    destruct (decode_args t args) as [u|] eqn:Hu; [|done]. intros [= <-]. eauto. }
  unfold native_call, mbind, option_bind. intros Hn. destruct kind as [a mo me|[p|a] bp f|a me| |c]; try done.
  - destruct (resolved_address created a) as [ra|]; [|done].
    destruct (from_method_invocation _ _ _ _ _) as [[w|]|] eqn:Hf; simplify_eq. unfold from_method_invocation in Hf.
    destruct (invoked_blueprint_id ra mo); [|done]. destruct (lookup_blueprint _ _); [|done].
    unfold decode_method_invocation in Hf. destruct (decode_invocation _ _ _ _ _ _) eqn:Hi; simplify_eq/=. eauto.
  - destruct (from_function_invocation _ _ _ _) as [[w|]|] eqn:Hf; simplify_eq. unfold from_function_invocation in Hf.
    destruct (lookup_blueprint _ _); [|done].
    unfold decode_function_invocation in Hf. destruct (decode_invocation _ _ _ _ _ _) eqn:Hi; simplify_eq/=. eauto.
  - destruct (from_direct_method_invocation _ _ _ _) as [[w|]|] eqn:Hf; simplify_eq. unfold from_direct_method_invocation in Hf.
    destruct (main_module_blueprint_id _); [|done]. destruct (lookup_blueprint _ _); [|done].
    unfold decode_direct_method_invocation in Hf. destruct (decode_invocation _ _ _ _ _ _) eqn:Hi; simplify_eq/=. eauto.
Qed.

Lemma resolve_sound s v h kind args : tracks s v h ->
  wlp (resolve_native_invocation decode_args kind args) v (fun r v' => v' = v /\
    forall mi rc, r = Ok (Some (mi, rc)) -> native_call decode_args (created_addresses h) kind args = Some (mi, rc)).
Proof.
  intros Ht. assert (forall rc0 (x : Result TypedManifestNativeInvocationError (option TypedManifestNativeInvocation)) mi rc,
    with_receiver rc0 x = Ok (Some (mi, rc)) -> x = Ok (Some mi) /\ rc = rc0) as Hw.
  { intros rc0 [[u|]|] mi rc; cbn; intros ?; by simplify_eq. }
  unfold resolve_native_invocation, native_call. destruct kind as [a mo me|[p|a] bp f|a me| |c]; try by apply wlp_ret.
  - apply wlp_bind. eapply (wlp_mono _ _ (fun ra v' => v' = v /\ resolved_address (created_addresses h) a = Some ra)).
    + unfold resolve_dynamic_address. destruct a as [n|a]; [by apply wlp_ret|]. apply wlp_bind, wlp_gets, wlp_bind, wlp_lift_exec.
      intros bp Hbp. apply wlp_ret. split; [done|]. unfold id in Hbp.
      destruct (im_get a (tracked_named_addresses v)) eqn:Hg; simplify_eq/=.
      by rewrite (tr_named _ _ _ Ht _ _ Hg).
    + intros ra v' [-> Hra]. apply wlp_ret. split; [done|]. intros mi rc [Hf ->]%Hw. rewrite Hra. cbn. by rewrite Hf.
  - apply wlp_ret. split; [done|]. intros mi rc [Hf ->]%Hw. by rewrite Hf.
  - apply wlp_ret. split; [done|]. intros mi rc [Hf ->]%Hw. by rewrite Hf.
Qed.

Lemma apply_next_sound assertion t W : balances_ok W -> holds t W -> call_typed (fst <$> assertion) ->
  call_assertion_holds (fst <$> assertion) W ->
  wlp (apply_next_assertion assertion) t (fun _ t' => holds t' W).
Proof.
  intros HW Ht Hty Ha. destruct assertion as [[[c|c] source]|]; cbn in Hty, Ha |- *.
  - destruct Ha as [Hc Hn]. apply handle_resources_only_assertion_sound; auto.
  - apply handle_resources_include_assertion_sound; auto.
  - exact Ht.
Qed.

Lemma invocation_end_sound s v h h0 i t kind args sent W :
  decoders_ok decode_args -> withdrawals_exact decode_args (Invocation kind args) -> tracks s v h -> holds t sent -> balances_ok sent -> balances_ok W ->
  created_addresses h0 = created_addresses h ->
  call_behaves decode_args h0 kind args sent W -> call_assertion_holds (awaited h) W ->
  balances_ok (join_all (held_worktop h) W) ->
  ((forall e, MExpression e ∉ customs args) -> forall r, r ∈ im_keys (specified_resources t) -> passed_resource h0 args r) ->
  wlp (handle_invocation_end decode_args kind args (mk_current i t)) v (fun info v' =>
    reports (i, info) (mk_movement i kind sent W) /\
    tracks s v' (await None (hold_worktop (join_all (held_worktop h) W) h)) /\
    invocation_static_information v' = invocation_static_information v).
Proof.
  intros Hdec Hx Ht Hs Hsok HW Hcr Hb Ha Hj Hp. unfold handle_invocation_end. cbn [current_index sent_resources].
  apply wlp_bind. eapply wlp_mono; [by eapply resolve_sound|]. intros res v1 [-> Hres]. apply wlp_bind.
  eapply (wlp_mono _ _ (fun o v' => holds o W /\ v' = v)).
  { destruct res as [[[mi rc]|]|e]; try (apply wlp_ret; split; [by apply holds_unspecified|done]).
    specialize (Hres _ _ eq_refl). unfold call_behaves in Hb. rewrite Hcr, Hres in Hb.
    eapply (output_sound (mk_details rc t (SourceInvocation i)) mi _ sent W v); [done|done|done|by eapply Hx|done|].
    intros u -> Hf. apply Hp. apply native_decoded in Hres as [ty Hty]. intros e. by eapply Hdec. }
  intros o v2 [Ho ->]. apply wlp_bind, wlp_gets, wlp_bind, wlp_modify, wlp_bind, wlp_on_value.
  eapply wlp_mono; [apply (apply_next_sound _ o W HW Ho); rewrite (tr_awaited _ _ _ Ht); [apply Ht|done]|].
  intros [] o' Ho'. unfold on_worktop. apply wlp_bind, wlp_zoom. cbn [snd].
  eapply wlp_mono; [apply (resources_mut_add_sound _ o' (held_worktop h) W); [apply Ht|done|done|apply Ht|done]|].
  intros [] w Hw. apply wlp_ret. split_and!; [done| |done]. destruct Ht. by split.
Qed.

(** *** Instructions *)

Lemma constraint_bounded {S} f c b (s : S) : balance_ok f b -> constraint_ok f c -> constraint_sat f c b ->
  wlp (new_for_manifest_constraint (ME := ManifestValidationError) c) s (fun g s' => bounded f g b /\ s' = s).
Proof. apply new_for_manifest_constraint_sound. Qed.

Lemma worktop_assertion_sound a source t W : balances_ok W -> holds t W ->
  effect_typed (ResourceAssertionEffect (AssertWorktop a)) -> worktop_assertion_holds a W ->
  wlp (visitor_worktop_assertion a source) t (fun _ t' => holds t' W).
Proof.
  intros HW Ht Hty Ha. destruct a as [r|r amount|r ids|c|c]; cbn [effect_typed worktop_assertion_holds visitor_worktop_assertion] in *.
  - apply handle_resource_assertion_sound; [done|done|].
    by destruct (constraint_bounded (is_fungible r) NonZeroAmount (W r) t (HW r) I Ha) as [? _].
  - apply wlp_bind. eapply wlp_mono; [apply (constraint_bounded (is_fungible r) (AtLeastAmount amount) (W r) t (HW r) I Ha)|].
    intros g t' [Hg ->]. by apply handle_resource_assertion_sound.
  - apply wlp_bind. eapply wlp_mono; [apply (constraint_bounded (is_fungible r) (AtLeastNonFungibles ids) (W r) t (HW r) Hty Ha)|].
    intros g t' [Hg ->]. by apply handle_resource_assertion_sound.
  - destruct Ha as [Hc Hn]. apply handle_resources_only_assertion_sound; auto.
  - apply handle_resources_include_assertion_sound; auto.
Qed.

Lemma wlp_index v i t (Q : Z -> StaticResourceMovementsVisitor -> Prop) :
  current_instruction v = Some (mk_current i t) -> Q i v -> wlp current_instruction_index v Q.
Proof.
  intros Hc HQ. unfold current_instruction_index, the_current_instruction. apply wlp_bind, wlp_bind, wlp_gets. rewrite Hc.
  apply wlp_lift_exec. intros a [= <-]. by apply wlp_ret.
Qed.

Lemma assertion_sound i a t h h' mvs s v :
  tracks s v h -> current_instruction v = Some (mk_current i t) -> effect_typed (ResourceAssertionEffect a) ->
  run_step decode_args i h (ResourceAssertionEffect a) mvs h' ->
  wlp (visitor_resource_assertion a) v (fun _ v' =>
    tracks s v' h' /\ current_instruction v' = current_instruction v /\
    invocation_static_information v' = invocation_static_information v).
Proof.
  intros Ht Hc Hty Hrun. unfold visitor_resource_assertion. apply wlp_bind. eapply wlp_index; [done|].
  inversion Hrun as [| | |h0 a0 Ha|h0 b r bal c Hb Hco Hs|h0 a0 Haw| | | | | | |]; subst.
  - unfold on_worktop. apply wlp_zoom. eapply wlp_mono; [apply worktop_assertion_sound; [apply Ht|apply Ht|done|done]|].
    intros [] w Hw. split_and!; [|done..]. destruct Ht. by split.
  - apply wlp_bind, wlp_gets, wlp_bind, wlp_lift_exec. unfold id. intros [r' tb] Hg.
    destruct (im_get b (tracked_buckets v)) as [x|] eqn:Hg'; simplify_eq/=.
    destruct (tr_bucket _ _ _ Ht _ _ _ Hg') as (bal' & Hb' & Hbal & Hbd). rewrite Hb in Hb'. injection Hb' as <- <-.
    apply wlp_bind. eapply wlp_mono; [by apply (constraint_bounded (is_fungible r) c bal)|]. intros g v' [Hg ->].
    apply wlp_bind, wlp_on_value. eapply wlp_mono; [by apply (tracked_handle_assertion_sound (is_fungible r) tb g _ bal)|].
    intros [] tb' Htb'. apply wlp_modify. split_and!; [|done..]. destruct Ht. split; cbn; try done.
    + by apply im_ok_insert.
    + intros b' r1 t1. rewrite im_get_insert. destruct (decide (b' = b)) as [->|]; [|apply tr_bucket0].
      intros [= <- <-]. by exists bal.
  - apply wlp_bind, wlp_gets, wlp_bind. unfold id, assert_. destruct (bool_decide _); [|done]. apply wlp_ret, wlp_modify.
    split_and!; [|done..]. destruct Ht. by split.
Qed.

Lemma take_sound src amount source v h taken rest s :
  let r := source_resource_address src in
  tracks s v h ->
  match src with
  | AllOnWorktop _ => amount = TakeAll
  | AmountFromWorktop _ a => amount = TakeAmount a
  | NonFungiblesFromWorktop _ ids => amount = TakeNonFungibles (is_from_iter ids)
  end ->
  balance_ok (is_fungible r) taken -> balance_ok (is_fungible r) rest ->
  held_worktop h r ≡ join rest taken -> take_matches (is_fungible r) amount taken rest ->
  wlp (match src with
       | AllOnWorktop resource_address => on_worktop (mut_take_resource resource_address TakeAll source)
       | AmountFromWorktop resource_address amount =>
           amount ← exact_take_amount amount;
           on_worktop (mut_take_resource resource_address amount source)
       | NonFungiblesFromWorktop resource_address ids =>
           on_worktop (mut_take_resource resource_address (TakeNonFungibles (is_from_iter ids)) source)
       end) v (fun tb v' => exists w, v' = with_worktop w v /\
         holds w (update_balance (held_worktop h) r rest) /\ bounded (is_fungible r) (bounds tb) taken).
Proof.
  intros r Ht Ha Htk Hrest Heq Hm.
  assert (wlp (on_worktop (mut_take_resource r amount source)) v (fun tb v' => exists w, v' = with_worktop w v /\
         holds w (update_balance (held_worktop h) r rest) /\ bounded (is_fungible r) (bounds tb) taken)) as Hgo.
  { unfold on_worktop. apply wlp_zoom. eapply wlp_mono; [apply (mut_take_resource_sound _ (held_worktop h) r amount source taken rest);
      [apply Ht|done|done|done|apply Ht|done]|]. intros tb w [? ?]. by exists w. }
  destruct src as [r0|r0 a|r0 ids]; subst amount; try exact Hgo.
  unfold exact_take_amount. apply wlp_bind, wlp_bind, wlp_guard_or. intros _. by apply wlp_ret.
Qed.

Lemma new_bucket_sound i src h h' mvs s v t :
  tracks s v h -> current_instruction v = Some (mk_current i t) -> next_bucket_id h < 2 ^ 32 ->
  run_step decode_args i h (CreateBucket src) mvs h' ->
  wlp (handle_new_bucket src) (s, v) (fun _ s' =>
    tracks s'.1 s'.2 h' /\ current_instruction s'.2 = current_instruction v /\
    invocation_static_information s'.2 = invocation_static_information v).
Proof.
  intros Ht Hc Hlt Hrun. inversion Hrun as [h0 s0 amount taken rest r Ha Htk Hrest Heq Hm| | | | | | | | | | | |]; subst.
  unfold handle_new_bucket. apply wlp_bind, wlp_gets, wlp_bind. unfold id. cbn [fst snd]. apply wlp_visiting.
  cbn [on_new_bucket the_visitor movements_visitor]. unfold visitor_new_bucket. apply wlp_bind.
  eapply wlp_index; [done|]. apply wlp_bind. cbn [bucket_source_amount].
  eapply wlp_mono; [by apply (take_sound src amount (SourceNewBucket i) v h taken rest s)|]. intros tb v' (w & -> & Hw & Hbd). apply wlp_modify, wlp_modify.
  split_and!; [|done..]. fold r in Hw, Hbd |- *.
  assert (next_id (bucket_state s) = next_bucket_id h) as Hid.
  { unfold next_id. rewrite (tr_next_bucket _ _ _ Ht). apply wrap_u_small. unfold u_max.
    rewrite <- (tr_next_bucket _ _ _ Ht) in *. lia. }
  destruct Ht. split; cbn; try done.
  - rewrite length_app. cbn. lia.
  - by apply balances_ok_update.
  - by apply im_ok_insert.
  - rewrite Hid. intros b r1 t1. rewrite im_get_insert. destruct (decide (b = next_bucket_id h)) as [->|].
    + intros [= <- <-]. exists taken. by rewrite lookup_insert_eq.
    + rewrite lookup_insert_ne by done. apply tr_bucket0.
Qed.

Lemma allocate_sound i p n h h' mvs s v :
  tracks s v h -> Z.of_nat (length (created_addresses h)) < 2 ^ 32 ->
  run_step decode_args i h (CreateAddressAndReservation p n) mvs h' ->
  wlp (handle_effect ruleset m (CreateAddressAndReservation p n)) (s, v) (fun _ s' =>
    tracks s'.1 s'.2 h' /\ current_instruction s'.2 = current_instruction v /\
    invocation_static_information s'.2 = invocation_static_information v).
Proof.
  intros Ht Hlt Hrun. inversion Hrun; subst. cbn [handle_effect].
  apply wlp_quiet; [apply quiet_reservation|]. intros r s1 Hs1. apply (tracks_same _ _ _ _ Hs1) in Ht.
  unfold handle_new_named_address. apply wlp_bind, wlp_gets, wlp_bind. unfold id. cbn [fst snd]. apply wlp_visiting, wlp_modify, wlp_modify.
  split_and!; [|done..].
  assert (next_id (named_address_state s1) = Z.of_nat (length (created_addresses h))) as Hid.
  { unfold next_id. rewrite (tr_next_address _ _ _ Ht). apply wrap_u_small. unfold u_max. lia. }
  destruct Ht. split; cbn; try done.
  - rewrite !length_app. cbn. lia.
  - rewrite Hid. intros a q. rewrite im_get_insert. destruct (decide (a = Z.of_nat (length (created_addresses h)))) as [->|].
    + intros [= <-]. rewrite Nat2Z.id, lookup_app_r, Nat.sub_diag by lia. done.
    + intros Hq. apply lookup_app_l_Some. eauto.
Qed.

Lemma send_ids h W cs h' W' : send h W cs h' W' ->
  next_bucket_id h' = next_bucket_id h /\ created_addresses h' = created_addresses h /\ awaited h' = awaited h.
Proof. induction 1; cbn in *; naive_solver. Qed.

Lemma run_step_ids i h e mvs h' : run_step decode_args i h e mvs h' ->
  next_bucket_id h' <= next_bucket_id h + 1 /\
  (length (created_addresses h') <= length (created_addresses h) + 1)%nat.
Proof.
  destruct 1 as [| | | | | | | | | | | |h kind args h1 sent W Hs]; cbn; rewrite ?length_app; cbn; try lia.
  apply send_ids in Hs as (-> & -> & _). lia.
Qed.

Lemma current_wlp v c (Q : CurrentInstruction -> StaticResourceMovementsVisitor -> Prop) :
  current_instruction v = Some c -> Q c v -> wlp the_current_instruction v Q.
Proof.
  intros Hc HQ. unfold the_current_instruction. apply wlp_bind, wlp_gets. rewrite Hc. apply wlp_lift_exec. by intros ? [= <-].
Qed.

Definition starting (i : Z) (v : StaticResourceMovementsVisitor) : Prop :=
  current_instruction v = Some (mk_current i resources_new_empty).

(** After an effect that is no call, the visitor has nothing to report. *)
Lemma end_sound i e s v h c : tracks s v h -> current_instruction v = Some c ->
  match e with Invocation _ _ => False | _ => True end ->
  wlp (visit (visitor_end_instruction decode_args i e)) (s, v) (fun _ s' =>
    tracks s'.1 s'.2 h /\ invocation_static_information s'.2 = invocation_static_information v).
Proof.
  intros Ht Hc He. apply wlp_visiting. unfold visitor_end_instruction. apply wlp_bind. eapply current_wlp; [done|].
  apply wlp_bind, wlp_modify. destruct e; try done; apply wlp_ret; (split; [by apply tracks_current|done]).
Qed.

Lemma consume_effect_sound i b d h mvs h' s v c : tracks s v h -> current_instruction v = Some c ->
  run_step decode_args i h (ConsumeBucket b d) mvs h' ->
  wlp (consume_bucket ruleset b d) (s, v) (fun _ s' =>
    tracks s'.1 s'.2 h' /\ current_instruction s'.2 = current_instruction v /\
    invocation_static_information s'.2 = invocation_static_information v).
Proof.
  intros Ht Hc Hrun. destruct c as [i0 t0]. unfold consume_bucket.
  apply wlp_quiet; [apply quiet_self|intros l s1 Hs1]. apply wlp_quiet; [apply quiet_get_bucket|intros st s2 Hs2].
  apply wlp_quiet; [destruct (_ && _); [apply quiet_break|apply quiet_ret]|intros _ s3 Hs3].
  apply wlp_quiet; [apply quiet_set_bucket|intros _ s4 Hs4]. apply wlp_visiting. cbn [on_consume_bucket the_visitor movements_visitor].
  assert (tracks s4 v h) as Ht4 by (repeat (eapply tracks_same; [eassumption|]); done).
  inversion Hrun as [|h0 b0 r bal Hb Hj|h0 b0 r bal Hb| | | | | | | | | |]; subst.
  - eapply (consume_wlp s4); [done..|]. intros tb v' Ht' Hc' Hi Hbal Hbd. unfold on_worktop. apply wlp_zoom.
    eapply wlp_mono; [apply (mut_add_resource_sound _ (held_worktop h) r tb bal); [apply Ht|done|done|apply Ht'|done]|].
    intros [] w Hw. split_and!; [|by rewrite Hc, <- Hc'|done].
    apply (tracks_worktop _ _ _ w (update_balance (held_worktop h) r (join (held_worktop h r) bal))) in Ht'; [|apply balances_ok_update; [apply Ht|done]|done].
    done.
  - eapply (consume_wlp s4); [done..|]. intros tb v' Ht' Hc' Hi Hbal Hbd. apply wlp_ret. split_and!; [done|by rewrite Hc, <- Hc'|done].
Qed.

Lemma call_sound i kind args h mvs h' s v : decoders_ok decode_args ->
  withdrawals_exact decode_args (Invocation kind args) -> value_ok args = true ->
  run_step decode_args i h (Invocation kind args) mvs h' -> tracks s v h -> starting i v ->
  im_get i (invocation_static_information v) = None ->
  wlp (handle_invocation ruleset m kind args;; visit (visitor_end_instruction decode_args i (Invocation kind args))) (s, v)
    (fun _ s' => tracks s'.1 s'.2 h' /\
      exists new, invocation_static_information s'.2 = invocation_static_information v ++ new /\ Forall2 reports new mvs).
Proof.
  intros Hdec Hx Hv Hrun Ht Hc Hi. inversion Hrun as [| | | | | | | | | | | |h0 k0 a0 h1 sent W Hsend HW Hb Ha Hj]; subst.
  destruct (send_ids _ _ _ _ _ Hsend) as (_ & Hcr & Haw). apply wlp_bind.
  eapply (wlp_mono _ _ (fun _ s' => tracks s'.1 s'.2 h1 /\
    invocation_static_information s'.2 = invocation_static_information v /\
    exists t, sending i t sent s'.2 /\ ((forall e, MExpression e ∉ customs args) ->
      forall r, r ∈ im_keys (specified_resources t) -> passed_resource h args r))).
  - destruct (handle_invocation_eq ruleset m kind args Hv (s, v)) as [[_ Heq]|(_ & e & Heq)]; unfold wlp at 1; rewrite Heq.
    + apply wlp_quiet; [apply quiet_kind|]. intros y s1 Hs1.
      eapply wlp_mono; [eapply (send_sound kind y i); [exact Hsend|by eapply tracks_same|]|].
      * split_and!; [exact Hc|apply holds_empty|apply no_balances_ok].
      * intros [] s2 (Ht2 & Hi2 & t & Hst & Hk). split_and!; [done|done|]. exists t. split; [done|]. intros Hne r Hr.
        destruct (Hk Hne r Hr) as [Hr'|(b & bal & ? & ?)]; [by apply not_elem_of_nil in Hr'|by exists b, bal].
    + apply wlp_quiet; [apply quiet_kind|]. intros y s1 Hs1. apply wlp_throw.
  - intros [] [s2 v2] (Ht2 & Hi2 & t & (Hc2 & Hst & Hok) & Hp). cbn [fst snd] in *. apply wlp_visiting.
    unfold visitor_end_instruction. apply wlp_bind. eapply current_wlp; [done|]. apply wlp_bind, wlp_modify, wlp_bind.
    eapply wlp_mono; [eapply (invocation_end_sound s2 _ h1 h i t kind args sent W); try done|].
    + by apply tracks_current.
    + by rewrite Haw.
    + intros info v3 (Hrep & Ht3 & Hi3). apply wlp_modify. split; [destruct Ht3; by split|].
      cbn. rewrite Hi3. cbn. rewrite Hi2, im_insert_fresh by done. eexists. split; [done|]. constructor; [done|constructor].
Qed.

Lemma step_sound i e h mvs h' s v : decoders_ok decode_args -> effect_typed e -> withdrawals_exact decode_args e -> effect_wf e ->
  run_step decode_args i h e mvs h' -> tracks s v h ->
  next_bucket_id h < 2 ^ 32 -> Z.of_nat (length (created_addresses h)) < 2 ^ 32 ->
  im_get i (invocation_static_information v) = None ->
  wlp (handle_instruction ruleset m i e) (s, v) (fun _ s' => tracks s'.1 s'.2 h' /\
      exists new, invocation_static_information s'.2 = invocation_static_information v ++ new /\ Forall2 reports new mvs).
Proof.
  intros Hdec Hty Hx Hwf Hrun Ht Hb Ha Hi. unfold handle_instruction.
  apply wlp_quiet; [apply quiet_update; intros ?; split; done|intros _ s1 Hs1]. apply wlp_quiet; [apply quiet_next_instruction|intros _ s2 Hs2].
  apply wlp_bind, wlp_visiting. cbn [on_start_instruction on_end_instruction the_visitor movements_visitor]. apply wlp_modify.
  set (v1 := with_current _ v). assert (tracks s2 v1 h) as Ht1.
  { apply tracks_current. by repeat (eapply tracks_same; [eassumption|]). }
  assert (starting i v1) as Hst by done. change (invocation_static_information v) with (invocation_static_information v1) in *.
  clearbody v1. clear Hs1 Hs2 Ht.
  assert (forall h', match e with Invocation _ _ => False | _ => True end -> mvs = [] ->
    wlp (handle_effect ruleset m e) (s2, v1) (fun _ s' => tracks s'.1 s'.2 h' /\
      current_instruction s'.2 = current_instruction v1 /\ invocation_static_information s'.2 = invocation_static_information v1) ->
    wlp (handle_effect ruleset m e;; visit (visitor_end_instruction decode_args i e)) (s2, v1) (fun _ s' => tracks s'.1 s'.2 h' /\
      exists new, invocation_static_information s'.2 = invocation_static_information v1 ++ new /\ Forall2 reports new mvs)) as Hplain.
  { intros h1 He -> Hm. apply wlp_bind. eapply wlp_mono; [exact Hm|]. intros [] [s3 v3] (Ht3 & Hc3 & Hi3). cbn in *.
    eapply wlp_mono; [eapply end_sound; [done|by rewrite Hc3|done]|]. intros [] s4 [Ht4 Hi4]. split; [done|].
    exists []. rewrite app_nil_r. split; [congruence|constructor]. }
  assert (forall h1, match e with Invocation _ _ => False | _ => True end -> h1 = h -> mvs = [] -> quiet (handle_effect ruleset m e) ->
    wlp (handle_effect ruleset m e;; visit (visitor_end_instruction decode_args i e)) (s2, v1) (fun _ s' => tracks s'.1 s'.2 h1 /\
      exists new, invocation_static_information s'.2 = invocation_static_information v1 ++ new /\ Forall2 reports new mvs)) as Hquiet.
  { intros h1 He -> Hm Hq. apply Hplain; [done..|]. eapply wlp_mono; [apply Hq|]. intros [] [s3 v3] [Hs3 Hv3]. cbn in *. subst.
    split_and!; [by eapply tracks_same|done..]. }
  destruct e as [src|src|b d|p d|p|all sg ns|kind args|pa bn|a|k rule].
  - apply Hplain; [done|by inversion Hrun|]. by eapply new_bucket_sound.
  - inversion Hrun; subst. apply Hquiet; try done. apply quiet_new_proof.
  - apply Hplain; [done|by inversion Hrun|]. by eapply consume_effect_sound.
  - inversion Hrun; subst. apply Hquiet; try done. apply quiet_consume_proof.
  - inversion Hrun; subst. apply Hquiet; try done. apply quiet_clone.
  - inversion Hrun; subst. apply Hquiet; try done. apply quiet_drop_many.
  - destruct Hwf as [Hv _]. by apply call_sound with (h := h).
  - apply Hplain; [done|by inversion Hrun|]. by eapply allocate_sound.
  - apply Hplain; [done|by inversion Hrun|]. cbn [handle_effect]. unfold ManifestInterpreter.handle_resource_assertion.
    apply wlp_quiet; [destruct (validate_resource_assertions _); [apply quiet_validate_assertion|apply quiet_ret]|].
    intros [] s3 Hs3. apply wlp_visiting. cbn [on_resource_assertion the_visitor movements_visitor].
    apply (assertion_sound i a resources_new_empty h h' mvs s3 v1); [by eapply tracks_same|done..].
  - inversion Hrun; subst. apply Hquiet; try done. apply quiet_verification.
Qed.

Lemma runs_sound i h es mvs h' : runs decode_args i h es mvs h' -> forall s v,
  decoders_ok decode_args -> Forall effect_typed es -> Forall (withdrawals_exact decode_args) es -> Forall effect_wf es -> tracks s v h -> 0 <= i ->
  next_bucket_id h <= i -> Z.of_nat (length (created_addresses h)) <= i -> i + Z.of_nat (length es) <= 2 ^ 32 ->
  Forall (fun e => e.1 < i) (invocation_static_information v) ->
  wlp (handle_instructions ruleset m i es) (s, v) (fun _ s' => tracks s'.1 s'.2 h' /\
    exists new, invocation_static_information s'.2 = invocation_static_information v ++ new /\ Forall2 reports new mvs).
Proof.
  induction 1 as [i h|i h e h1 es mvs mvs' h2 Hstep Hruns IH]; intros s v Hdec Hty Hx Hwf Ht Hi Hb Ha Hlt Hkeys; cbn [handle_instructions].
  { apply wlp_ret. split; [done|]. exists []. rewrite app_nil_r. by repeat constructor. }
  apply Forall_cons in Hty as [Hty Htys], Hx as [Hx Hxs], Hwf as [Hwf Hwfs]. cbn [length] in Hlt. apply wlp_bind.
  destruct (run_step_ids _ _ _ _ _ Hstep) as [Hb1 Ha1].
  eapply wlp_mono; [eapply (step_sound i e h mvs h1); try done; try lia|].
  { apply im_get_None. intros ([k x] & -> & Hin)%list_elem_of_fmap. rewrite Forall_forall in Hkeys. specialize (Hkeys _ Hin). cbn in Hkeys. lia. }
  intros [] [s1 v1] (Ht1 & new & Hi1 & Hnew). cbn [fst snd] in *.
  assert (Forall (fun e : Z * InvocationStaticInformation => e.1 < i + 1) new) as Hnk.
  { inversion Hstep; subst; try (inversion Hnew; subst; constructor).
    - match goal with H : reports _ _ |- _ => destruct H as [-> _] end. cbn. lia.
    - match goal with H : Forall2 _ _ [] |- _ => inversion H; subst end. constructor. }
  eapply wlp_mono; [eapply (IH s1 v1); try done; try lia|].
  - rewrite Hi1. apply Forall_app. split; [|done]. eapply Forall_impl; [exact Hkeys|]. cbn. lia.
  - intros [] [s2 v2] (Ht2 & new2 & Hi2 & Hnew2). cbn in *. split; [done|]. exists (new ++ new2).
    rewrite Hi2, Hi1, app_assoc. split; [done|by apply Forall2_app].
Qed.
End Interpreted.
End MovementsLemmas.

(** ** The theorem *)

Module MovementsTheorems.
Import MovementsLemmas.

Lemma tracks_start m h : starts m h -> tracks interpreter_new (visitor_new (is_subintent m)) h.
Proof.
  intros (W & HW & Hz & ->). split; cbn; try done.
  - destruct (is_subintent m); cbn; [by apply holds_unspecified|]. rewrite Hz by done. apply holds_empty.
  - constructor.
Qed.

Lemma analysis_reports (decode_args : InputType -> ManifestValue -> option TypedManifestNativeInvocation)
    (m : Manifest) (h h' : Holdings) (mvs : list Movement) (v' : StaticResourceMovementsVisitor)
    (Hdec : decoders_ok decode_args) (Hty : Forall effect_typed (iter_instruction_effects m))
    (Hpool : Forall (withdrawals_exact decode_args) (iter_instruction_effects m)) (Hwf : manifest_wf m)
    (Hstart : starts m h) (Hrun : runs decode_args 0 h (iter_instruction_effects m) mvs h')
    (Hanalyze : analyze_movements decode_args m = Done (Ok tt, v')) :
  Forall2 reports (invocation_static_information v') mvs /\ holds (worktop v') (held_worktop h').
Proof.
  pose proof (tracks_start m h Hstart) as Ht. destruct Hwf as [Hwf Hlen]. unfold instruction_count in Hlen.
  assert (wlp (interpret_internal (ManifestInterpretationVisitor0 := the_visitor decode_args) ruleset_all m)
    (interpreter_new, visitor_new (is_subintent m)) (fun _ s' =>
      Forall2 reports (invocation_static_information s'.2) mvs /\ holds (worktop s'.2) (held_worktop h'))) as Hall.
  { unfold interpret_internal.
    apply wlp_quiet; [apply quiet_preallocated|intros _ s1 Hs1]. apply wlp_quiet; [apply quiet_children|intros _ s2 Hs2].
    apply wlp_quiet; [apply quiet_blobs|intros _ s3 Hs3]. apply wlp_bind.
    destruct Hstart as (W & _ & _ & Hh).
    eapply wlp_mono; [eapply (runs_sound _ _ _ 0 h _ mvs h' Hrun); try done; try (subst h; cbn; lia)|].
    - by repeat (eapply tracks_same; [eassumption|]).
    - unfold iter_instruction_effects. rewrite length_map. lia.
    - intros [] [s4 v4] (Ht4 & new & Hi4 & Hnew). cbn [fst snd] in *.
      apply wlp_quiet; [apply quiet_final|intros _ s5 Hs5]. unfold handle_wrap_up, validate_at_end.
      apply wlp_quiet; [apply quiet_bind; [apply quiet_self|intros s; by case_match; [apply quiet_ret|apply quiet_break]]|intros _ s6 Hs6].
      apply wlp_quiet.
      { destruct (validate_no_dangling_nodes _); [|apply quiet_ret]. apply quiet_bind; [apply quiet_self|intros s].
        apply quiet_bind; [|intros _]; apply quiet_dangling. }
      intros _ s7 Hs7. apply wlp_visiting. cbn [on_finish the_visitor movements_visitor]. unfold visitor_finish.
      apply wlp_bind, wlp_gets, wlp_guard_or. intros _. cbn. rewrite Hi4. split; [done|apply Ht4]. }
  unfold analyze_movements, validate_and_apply_visitor in Hanalyze. unfold wlp, the_visitor in Hall.
  destruct (interpret_internal ruleset_all m _) as [[r s']|]; [|done]. cbn in Hanalyze. injection Hanalyze as -> <-.
  exact Hall.
Qed.

(** C26. The static analysis of resource movements is sound: when it accepts a
    manifest, the balances that the calls of any run of the manifest send and
    receive satisfy, call by call and in order, the bounds that it reports, and
    those left on the worktop satisfy the bounds that it ends with.  The run is
    any that the instructions, the assertions of the manifest and the contracts
    of the native invocations allow, without change from creating a validator.
    The conditions on the manifest: its constraints name no id twice, have no
    negative bounds and, on a fungible resource, no required ids and an allowlist
    only with the upper bound zero, as the documentation asks (effect_typed; a
    run likewise passes a bucket assertion only where this holds for the resource
    in the bucket); and the protected withdrawals that it makes from pools of two
    or many resources cannot round, being of the exact strategy or of a whole
    amount (withdrawals_exact): the analysis ignores the strategy, and reports a
    rounded withdrawal wrongly (rounded_withdrawal_misreported). *)
Theorem movements_sound (decode_args : InputType -> ManifestValue -> option TypedManifestNativeInvocation)
    (m : Manifest) (h h' : Holdings) (mvs : list Movement) (v' : StaticResourceMovementsVisitor)
    (Hdec : decoders_ok decode_args) (Hty : Forall effect_typed (iter_instruction_effects m))
    (Hpool : Forall (withdrawals_exact decode_args) (iter_instruction_effects m)) (Hwf : manifest_wf m)
    (Hstart : starts m h) (Hrun : runs decode_args 0 h (iter_instruction_effects m) mvs h')
    (Hanalyze : analyze_movements decode_args m = Done (Ok tt, v')) :
  Forall2 reports (invocation_static_information v') mvs /\ holds (worktop v') (held_worktop h').
Proof. by eapply analysis_reports. Qed.

(** A withdrawal, and the deposit of all of it. *)
Definition sample_decode (t : InputType) (args : ManifestValue) : option TypedManifestNativeInvocation :=
  match t, args with
  | KnownOutput AccountWithdrawInput, VTuple [VCustom (MAddress (Static r)); VCustom (MDecimal bs)] =>
      Some (AccountWithdraw (StaticAddress r) (foldr (fun b acc => b + 256 * acc) 0 bs))
  | NoOutput AccountDeposit, VTuple [VCustom (MBucket _)] => Some (NoOutputInvocation AccountDeposit)
  | _, _ => None
  end.

Definition sample_account : list Z := 193 :: replicate 29 7.
Definition sample_transfer : Manifest := mk_manifest false [] [] []
  [CallMethod (StaticAddress sample_account) (Text.Str.lit "withdraw")
     (VTuple [VCustom (MAddress (Static RORK)); VCustom (MDecimal (10 :: replicate 23 0))]);
   TakeAllFromWorktop RORK;
   CallMethod (StaticAddress sample_account) (Text.Str.lit "deposit") (VTuple [VCustom (MBucket 0)])].

Definition ten : Balance := mk_balance 10 [].
Definition withdraw_kind := MethodInvocation (StaticAddress sample_account) MainModule (Text.Str.lit "withdraw").
Definition deposit_kind := MethodInvocation (StaticAddress sample_account) MainModule (Text.Str.lit "deposit").

Definition holdings0 : Holdings := mk_holdings no_balances ∅ 0 [] None.
Definition holdings1 : Holdings := await None (hold_worktop (join_all no_balances (single RORK ten)) holdings0).
Definition holdings2 : Holdings :=
  hold_bucket RORK ten (hold_worktop (update_balance (held_worktop holdings1) RORK zero_balance) holdings1).
Definition holdings3 : Holdings :=
  await None (hold_worktop (join_all (held_worktop holdings2) no_balances) (lose_bucket 0 holdings2)).

Definition sample_movements : list Movement :=
  [mk_movement 0 withdraw_kind no_balances (single RORK ten);
   mk_movement 2 deposit_kind (single RORK (join zero_balance ten)) no_balances].

Lemma single_ok r a : is_fungible r = true -> 0 <= a <= MAX -> balances_ok (single r (mk_balance a [])).
Proof.
  intros Hr Ha. apply balances_ok_update; [apply no_balances_ok|]. rewrite Hr.
  split_and!; cbn; [lia|lia|constructor|done].
Qed.

Lemma join_none_l W : balances_ok W -> balances_ok (join_all no_balances W).
Proof. intros HW r. unfold join_all. change (no_balances r) with zero_balance. rewrite join_zero_l. apply HW. Qed.
Lemma join_none_r W : balances_ok W -> balances_ok (join_all W no_balances).
Proof. intros HW r. unfold join_all. change (no_balances r) with zero_balance. rewrite join_zero_r. apply HW. Qed.

Lemma sample_runs : runs sample_decode 0 holdings0 (iter_instruction_effects sample_transfer) sample_movements holdings3.
Proof.
  assert (balance_ok (is_fungible RORK) ten) as Hten.
  { change (is_fungible RORK) with true. split_and!; cbn; [lia|by vm_compute|constructor|done]. }
  assert (balances_ok (single RORK ten)) as Hsingle by (by apply balances_ok_update; [apply no_balances_ok|]).
  assert (balances_ok (held_worktop holdings2)) as Hw2.
  { apply balances_ok_update; [by apply join_none_l|apply zero_balance_ok]. }
  change sample_movements with ([mk_movement 0 withdraw_kind no_balances (single RORK ten)] ++ [] ++
    [mk_movement 2 deposit_kind (single RORK (join zero_balance ten)) no_balances] ++ []).
  eapply runs_cons; [|eapply runs_cons; [|eapply runs_cons; [|constructor]]].
  - apply (run_call sample_decode 0 holdings0 withdraw_kind _ holdings0 no_balances (single RORK ten)); [|done| |done|by apply join_none_l].
    + do 2 (apply send_other; [done|done|]). apply send_nil.
    + unfold call_behaves. replace (native_call _ _ _ _) with
        (Some (AccountWithdraw (StaticAddress RORK) 10, GlobalMethod (ResolvedStatic sample_account))) by (vm_compute; reflexivity).
      split; [reflexivity|]. intros r Hr. unfold single, update_balance. by rewrite decide_False.
  - apply (run_take sample_decode 1 holdings1 (AllOnWorktop RORK) TakeAll ten zero_balance); [done|done|apply zero_balance_ok| |done].
    split; vm_compute; reflexivity.
  - apply (run_call sample_decode 2 holdings2 deposit_kind _ (lose_bucket 0 holdings2) (single RORK (join zero_balance ten)) no_balances);
      [|apply no_balances_ok| |done|by apply join_none_r].
    + apply (send_bucket _ _ 0 RORK ten); [reflexivity|done|]. apply send_nil.
    + unfold call_behaves. replace (native_call _ _ _ _) with
        (Some (NoOutputInvocation AccountDeposit, GlobalMethod (ResolvedStatic sample_account))) by (vm_compute; reflexivity). done.
Qed.

(** A decoder of no protected withdrawals. *)
Lemma decoder_exact decode_args es : (forall t args v, decode_args t args = Some v -> withdrawal_exact v) ->
  Forall (withdrawals_exact decode_args) es.
Proof.
  intros Hd. apply Forall_true. intros e. destruct e as [| | | | | |kind args| | |]; try exact I. intros created w rc Hn.
  apply (native_decoded decode_args) in Hn as [t Ht]. by eapply Hd.
Qed.

Lemma movements_sound_witness :
  match analyze_movements sample_decode sample_transfer with
  | Done (Ok _, v) => Forall2 reports (invocation_static_information v) sample_movements
  | _ => False
  end.
Proof.
  destruct (analyze_movements sample_decode sample_transfer) as [[[[]|e] v]|] eqn:Hv;
    [|vm_compute in Hv; discriminate|vm_compute in Hv; discriminate].
  apply (movements_sound sample_decode sample_transfer holdings0 holdings3 sample_movements v); [| | | |exists no_balances; split_and!; [apply no_balances_ok|done..]|apply sample_runs|exact Hv].
  - intros t args i. unfold sample_decode. by repeat case_match.
  - repeat constructor.
  - apply decoder_exact. intros t args w. unfold sample_decode. repeat case_match; intros [= <-]; exact I.
  - by apply InterpreterTheorems.manifest_wf_dec.
Defined.

(** *** A withdrawal that rounds *)

Definition pool_decode (t : InputType) (args : ManifestValue) : option TypedManifestNativeInvocation :=
  match t, args with
  | KnownOutput TwoResourcePoolProtectedWithdrawInput,
    VTuple [VCustom (MAddress (Static r)); VCustom (MDecimal bs); VEnum 1 [VEnum 2 []]] =>
      Some (TwoResourcePoolProtectedWithdraw (StaticAddress r) (foldr (fun b acc => b + 256 * acc) 0 bs) (Rounded Rounding.ToZero))
  | NoOutput AccountDepositBatch, VTuple [VCustom (MExpression EntireWorktop)] => Some (NoOutputInvocation AccountDepositBatch)
  | _, _ => None
  end.

Definition sample_pool : list Z := 197 :: replicate 29 7.
Definition whole_token : ResourceAddress := 93 :: replicate 29 7.
Definition pool_kind := MethodInvocation (StaticAddress sample_pool) MainModule (Text.Str.lit "protected_withdraw").
Definition batch_kind := MethodInvocation (StaticAddress sample_account) MainModule (Text.Str.lit "deposit_batch").
Definition rounded_withdraw : Manifest := mk_manifest false [] [] []
  [CallMethod (StaticAddress sample_pool) (Text.Str.lit "protected_withdraw")
     (VTuple [VCustom (MAddress (Static whole_token)); VCustom (MDecimal (10 :: replicate 23 0)); VEnum 1 [VEnum 2 []]]);
   CallMethod (StaticAddress sample_account) (Text.Str.lit "deposit_batch") (VTuple [VCustom (MExpression EntireWorktop)])].

(** Ten attos of a token without decimals, rounded to zero: the pool returns
    nothing, and the analysis reports ten. *)
Theorem rounded_withdrawal_misreported :
  exists v, analyze_movements pool_decode rounded_withdraw = Done (Ok tt, v) /\
  exists h mvs, runs pool_decode 0 holdings0 (iter_instruction_effects rounded_withdraw) mvs h /\
    ~ Forall2 reports (invocation_static_information v) mvs.
Proof.
  eexists. split; [vm_compute; reflexivity|].
  set (nothing := join_all no_balances no_balances).
  assert (balances_ok nothing) as Hn by (apply join_none_l, no_balances_ok).
  set (h1 := await None (hold_worktop nothing holdings0)).
  set (sent := join_all no_balances nothing).
  exists (await None (hold_worktop nothing (hold_worktop no_balances h1))),
    ([mk_movement 0 pool_kind no_balances no_balances] ++ [mk_movement 1 batch_kind sent no_balances] ++ []).
  split.
  - eapply runs_cons; [|eapply runs_cons; [|constructor]].
    + apply (run_call pool_decode 0 holdings0 pool_kind _ holdings0 no_balances no_balances); [|apply no_balances_ok| |done|done].
      * do 2 (apply send_other; [done|done|]). apply send_nil.
      * unfold call_behaves. replace (native_call _ _ _ _) with
          (Some (TwoResourcePoolProtectedWithdraw (StaticAddress whole_token) 10 (Rounded Rounding.ToZero), GlobalMethod (ResolvedStatic sample_pool)))
          by (vm_compute; reflexivity).
        exists 0, 0. split; [lia|]. split; [vm_compute; reflexivity|]. split; [reflexivity|]. by split.
    + apply (run_call pool_decode 1 h1 batch_kind _ (hold_worktop no_balances h1) sent no_balances); [|apply no_balances_ok| |done|done].
      * apply send_worktop; [by apply join_none_l|]. apply send_nil.
      * unfold call_behaves. replace (native_call _ _ _ _) with
          (Some (NoOutputInvocation AccountDepositBatch, GlobalMethod (ResolvedStatic sample_account))) by (vm_compute; reflexivity).
        done.
  - intros Hr. inversion Hr as [|? ? ? ? (_ & _ & _ & _ & Hout) _]; subst. cbn [snd moved_out] in Hout.
    destruct Hout as [_ Hs]. specialize (Hs whole_token). vm_compute in Hs.
    destruct Hs as [_ Hs]. by destruct (sat_lower _ _ Hs).
Qed.
End MovementsTheorems.
