(* ===== verification/MovementsOutput.v ===== *)
(** * The changes of accounts

    What the static analysis of resource movements tells a user
    ([StaticResourceMovementsOutput] and the types it returns, in
    radix-transactions/src/manifest/static_resource_movements/types.rs): the
    deposits, the withdraws and the net changes of each account that a manifest
    calls.  The theorem bounds the real totals of a run for fungible resources;
    examples show where the output of a manifest that the analysis accepts
    panics, cannot be satisfied, or counts a deposit that was returned. *)

From S2P Require Import Authorization.
From S2P Require Import Prelude Decimals IndexMap Bytes Sbor SborCustom Text ResourceConstraints ManifestInstructions.
From S2P Require Import NativeInvocations NodeIds ResourceBounds Traversal ManifestInterpreter InterpreterSpec.
From S2P Require Import StaticMovements MovementsSpec.
Import Int Dec Str(lit) ConstraintSpec BoundsSpec BoundsLemmas.

(** ** Account methods *)

(** [as_account_method], on the kind of the invocation. *)
Definition as_account_method (kind : InvocationKind) : option (NodeAddress * Name) :=
  match kind with
  | MethodInvocation (StaticAddress global_address) MainModule method =>
      entity_type ← node_entity_type global_address;
      if Entity.is_global_component entity_type && Entity.is_global_account entity_type then Some (global_address, method) else None
  | _ => None
  end.

Definition is_deposit (method : Name) : bool :=
  bool_decide (method ∈ [lit "deposit"; lit "deposit_batch"; lit "try_deposit_or_abort"; lit "try_deposit_batch_or_abort";
    lit "try_deposit_or_refund"; lit "try_deposit_batch_or_refund"]).
Definition is_withdraw (method : Name) : bool :=
  bool_decide (method ∈ [lit "withdraw"; lit "lock_fee_and_withdraw"; lit "withdraw_non_fungibles";
    lit "lock_fee_and_withdraw_non_fungibles"]).

(** ** Simplified bounds *)

Inductive SimpleFungibleResourceBounds : Type :=
| FungibleExact (amount : Decimal)
| FungibleAtMost (amount : Decimal)
| FungibleAtLeast (amount : Decimal)
| FungibleBetween (lower upper : Decimal)
| FungibleUnknownAmount.

Definition simple_fungible (b : ResourceBounds) : SimpleFungibleResourceBounds :=
  match lower_bound b, upper_bound b with
  | LowerInclusive l, Unbounded => if l =? ZERO then FungibleUnknownAmount else FungibleAtLeast l
  | NonZero, Unbounded => FungibleUnknownAmount
  | NonZero, UpperInclusive u => FungibleAtMost u
  | LowerInclusive l, UpperInclusive u =>
      if is_zero l then FungibleAtMost u else if l =? u then FungibleExact l else FungibleBetween l u
  end.

Inductive SimpleNonFungibleResourceBounds : Type :=
| NonFungibleExact (amount : Decimal) (certain_ids : Ids)
| NonFungibleNotExact (certain_ids : Ids) (lower : LowerBound) (upper : UpperBound) (allowed : AllowedIds).

Definition simple_non_fungible (b : ResourceBounds) : SimpleNonFungibleResourceBounds :=
  if decimal_of_len (required_ids b) =? upper_equivalent_decimal (upper_bound b)
  then NonFungibleExact (lower_equivalent_decimal (lower_bound b)) (required_ids b)
  else NonFungibleNotExact (required_ids b) (lower_bound b) (upper_bound b) (allowed_ids b).

Inductive SimpleResourceBounds : Type :=
| SimpleFungible (b : SimpleFungibleResourceBounds)
| SimpleNonFungible (b : SimpleNonFungibleResourceBounds).

Definition simple_from_bound (resource_address : ResourceAddress) (b : ResourceBounds) : SimpleResourceBounds :=
  if is_fungible resource_address then SimpleFungible (simple_fungible b) else SimpleNonFungible (simple_non_fungible b).

(** ** Net changes *)

Record AggregatedBalanceChange : Type := mk_change {
  deposited : ResourceBounds;
  withdrawn : ResourceBounds
}.

Section Changes.
Context {ME : Type}.
Abbreviation Err_ := (StaticResourceMovementsError ME).

(** [revise], on the pair of the partial balance and the debited bounds. *)
Definition revise : M (ResourceBounds * ResourceBounds) Err_ unit :=
  s ← gets id;
  let shared_ids := is_intersection (required_ids s.1) (required_ids s.2) in
  (if bool_decide (shared_ids <> []) then
     zoom fst (fun p s => (p, s.2)) (bounds_mut_take (TakeNonFungibles shared_ids));;
     zoom snd (fun d s => (s.1, d)) (bounds_mut_take (TakeNonFungibles shared_ids));;
     mret tt
   else mret tt);;
  s ← gets id;
  if bool_decide (get_exact_ids s.2 = None)
  then modify (fun s => (with_allowed (with_required s.1 []) AnyIds, s.2))
  else mret tt.

(** [debited] goes with [revise] and the revised value is the result. *)
Definition revise_with (debited : ResourceBounds) : M ResourceBounds Err_ ResourceBounds := fun partial =>
  match revise (partial, debited) with
  | Done (Ok _, s) => Done (Ok s.2, s.1)
  | Done (Err e, s) => Done (Err e, s.1)
  | Panicked => Panicked
  end.

Abbreviation ChangeM := (M AggregatedBalanceChange Err_).
Definition on_deposited {A} (m : M ResourceBounds Err_ A) : ChangeM A :=
  zoom deposited (fun b c => mk_change b (withdrawn c)) m.
Definition on_withdrawn {A} (m : M ResourceBounds Err_ A) : ChangeM A :=
  zoom withdrawn (fun b c => mk_change (deposited c) b) m.

Definition change_mut_deposit (deposit : ResourceBounds) : ChangeM unit :=
  deposit ← on_withdrawn (revise_with deposit);
  on_deposited (bounds_mut_add deposit).
Definition change_mut_withdraw (withdrawal : ResourceBounds) : ChangeM unit :=
  withdrawal ← on_deposited (revise_with withdrawal);
  on_withdrawn (bounds_mut_add withdrawal).
End Changes.

Record AllBalanceChanges : Type := mk_changes {
  changes_specified : IndexMap ResourceAddress AggregatedBalanceChange;
  unspecified_resource_deposits : UnspecifiedResources
}.

Definition no_changes : AllBalanceChanges := mk_changes [] NonePresent.

(** The change of a resource, specified or not. *)
Definition change_of (c : AllBalanceChanges) (resource : ResourceAddress) : AggregatedBalanceChange :=
  default (mk_change (unspecified_bounds (unspecified_resource_deposits c)) bounds_zero)
    (im_get resource (changes_specified c)).

Inductive NetWithdraw : Type :=
| NetFungible (total_amount : Decimal)
| NetNonFungible (known_ids : Ids) (additional_unknown_ids : Z).

(** [usize::try_from(decimal)] *)
Definition decimal_to_usize (d : Decimal) : Exec (option Z) :=
  rounded ← checked_round d 0 Rounding.ToZero;
  mret (rounded ← rounded;
        fraction ← checked_sub d rounded;
        if negb (is_zero fraction) then None
        else let i := rounded ÷ 10 ^ SCALE in if in_u 64 i then Some i else None).

Record NetDeposits : Type := mk_net_deposits {
  net_specified : IndexMap ResourceAddress ResourceBounds;
  net_unspecified : UnspecifiedResources
}.

Definition net_bounds_for (d : NetDeposits) (resource_address : ResourceAddress) : ResourceBounds :=
  default (unspecified_bounds (net_unspecified d)) (im_get resource_address (net_specified d)).

Abbreviation ByAccount V := (IndexMap NodeAddress V).

Section AllChanges.
Context {ME : Type}.
Abbreviation Err_ := (StaticResourceMovementsError ME).
Abbreviation ChangesM := (M AllBalanceChanges Err_).

(** A computation on [aggregated_balance_change_mut(resource)]. *)
Definition on_change (resource : ResourceAddress) (m : M AggregatedBalanceChange Err_ unit) : ChangesM unit :=
  zoom (fun c => change_of c resource)
       (fun x c => mk_changes (im_insert resource x (changes_specified c)) (unspecified_resource_deposits c)) m.

Fixpoint deposit_unspecified (deposit : TrackedResources) (keys : list ResourceAddress) : ChangesM unit :=
  match keys with
  | [] => mret tt
  | resource :: keys =>
      (if bool_decide (is_Some (im_get resource (specified_resources deposit))) then mret tt
       else on_change resource (change_mut_deposit (unspecified_bounds (unspecified_resources deposit))));;
      deposit_unspecified deposit keys
  end.

Fixpoint deposit_specified (l : IndexMap ResourceAddress TrackedResource) : ChangesM unit :=
  match l with
  | [] => mret tt
  | (resource, t) :: l => on_change resource (change_mut_deposit (bounds t));; deposit_specified l
  end.

Definition changes_mut_deposit (deposit : TrackedResources) : ChangesM unit :=
  c ← gets id;
  (if may_be_present (unspecified_resources deposit)
   then deposit_unspecified deposit (im_keys (changes_specified c)) else mret tt);;
  deposit_specified (specified_resources deposit);;
  modify (fun c => mk_changes (changes_specified c)
    (unspecified_add (unspecified_resource_deposits c) (unspecified_resources deposit))).

Fixpoint withdraw_specified (l : IndexMap ResourceAddress TrackedResource) : ChangesM unit :=
  match l with
  | [] => mret tt
  | (resource, t) :: l => on_change resource (change_mut_withdraw (bounds t));; withdraw_specified l
  end.

Definition changes_mut_withdraw (withdrawal : TrackedResources) : ChangesM unit :=
  guard_or (negb (may_be_present (unspecified_resources withdrawal)))
    AggregatedBalanceChangeWithdrawDoesNotSupportUnknownResources;;
  withdraw_specified (specified_resources withdrawal).

(** [NetWithdraw::from_bounds]; the subtraction is on [usize]. *)
Definition net_withdraw_from_bounds (resource_address : ResourceAddress) (b : ResourceBounds) :
    Exec (Result Err_ NetWithdraw) :=
  match get_exact_amount b with
  | None => Done (Err UnexpectedBoundsForNetWithdraw)
  | Some total_amount =>
      if is_fungible resource_address then Done (Ok (NetFungible total_amount))
      else
        total_ids ← decimal_to_usize total_amount;
        match total_ids with
        | None => Done (Err UnexpectedBoundsForNetWithdraw)
        | Some total_ids =>
            Done (Ok (NetNonFungible (required_ids b) (wrap_u 64 (total_ids - Z.of_nat (length (required_ids b))))))
        end
  end.

Fixpoint split_loop (l : IndexMap ResourceAddress AggregatedBalanceChange)
    (withdraws : IndexMap ResourceAddress NetWithdraw) (deposits : IndexMap ResourceAddress ResourceBounds) :
    Exec (Result Err_ (IndexMap ResourceAddress NetWithdraw * IndexMap ResourceAddress ResourceBounds)) :=
  match l with
  | [] => Done (Ok (withdraws, deposits))
  | (address, c) :: l =>
      w ← (if negb (bounds_is_zero (withdrawn c))
           then r ← net_withdraw_from_bounds address (withdrawn c);
                Done match r with Ok n => Ok (im_insert address n withdraws) | Err e => Err e end
           else Done (Ok withdraws));
      match w with
      | Err e => Done (Err e)
      | Ok withdraws =>
          split_loop l withdraws
            (if negb (bounds_is_zero (deposited c)) then im_insert address (deposited c) deposits else deposits)
      end
  end.

Definition split_changes (c : AllBalanceChanges) :
    Exec (Result Err_ (option (IndexMap ResourceAddress NetWithdraw) * option NetDeposits)) :=
  r ← split_loop (changes_specified c) [] [];
  Done match r with
       | Err e => Err e
       | Ok (withdraws, deposits) =>
           Ok (if bool_decide (withdraws <> []) then Some withdraws else None,
               if bool_decide (deposits <> []) || may_be_present (unspecified_resource_deposits c)
               then Some (mk_net_deposits deposits (unspecified_resource_deposits c)) else None)
       end.

(** *** The output *)

Definition on_account (account : NodeAddress) (m : ChangesM unit) : M (ByAccount AllBalanceChanges) Err_ unit :=
  zoom (fun a => default no_changes (im_get account a)) (fun c a => im_insert account c a) m.

Definition aggregate_invocation (info : InvocationStaticInformation) : M (ByAccount AllBalanceChanges) Err_ unit :=
  match as_account_method (info_kind info) with
  | None => mret tt
  | Some (account_address, method) =>
      if is_deposit method then on_account account_address (changes_mut_deposit (info_input info))
      else if is_withdraw method then on_account account_address (changes_mut_withdraw (info_output info))
      else mret tt
  end.

Fixpoint aggregate_invocations (l : list InvocationStaticInformation) : M (ByAccount AllBalanceChanges) Err_ unit :=
  match l with
  | [] => mret tt
  | info :: l => aggregate_invocation info;; aggregate_invocations l
  end.

Fixpoint split_accounts (l : ByAccount AllBalanceChanges) (ws : ByAccount (IndexMap ResourceAddress NetWithdraw))
    (ds : ByAccount NetDeposits) :
    Exec (Result Err_ (ByAccount (IndexMap ResourceAddress NetWithdraw) * ByAccount NetDeposits)) :=
  match l with
  | [] => Done (Ok (ws, ds))
  | (account, c) :: l =>
      r ← split_changes c;
      match r with
      | Err e => Done (Err e)
      | Ok (withdraws, deposits) =>
          split_accounts l
            match withdraws with Some w => im_insert account w ws | None => ws end
            match deposits with Some d => im_insert account d ds | None => ds end
      end
  end.

Definition resolve_account_changes (infos : IndexMap Z InvocationStaticInformation) :
    Exec (Result Err_ (ByAccount (IndexMap ResourceAddress NetWithdraw) * ByAccount NetDeposits)) :=
  r ← aggregate_invocations (im_values infos) [];
  match r with
  | (Ok _, changes) => split_accounts changes [] []
  | (Err e, _) => Done (Err e)
  end.
End AllChanges.

Record AccountDeposit : Type := mk_account_deposit {
  deposit_specified_resources : IndexMap ResourceAddress SimpleResourceBounds;
  deposit_unspecified_resources : UnspecifiedResources
}.

Inductive AccountWithdraw : Type :=
| WithdrawAmount (resource_address : ResourceAddress) (amount : Decimal)
| WithdrawIds (resource_address : ResourceAddress) (ids : Ids).

(** [account_deposits.entry(account).or_default().push(d)] *)
Definition push_entry {A} (account : NodeAddress) (a : A) (m : ByAccount (list A)) : ByAccount (list A) :=
  im_update [] (fun l => l ++ [a]) account m.

Definition account_deposit (input : TrackedResources) : AccountDeposit :=
  let input := mut_normalize input in
  mk_account_deposit
    (foldl (fun m e => im_insert e.1 (simple_from_bound e.1 (bounds e.2)) m) [] (specified_resources input))
    (unspecified_resources input).

Definition resolve_account_deposits (infos : IndexMap Z InvocationStaticInformation) : ByAccount (list AccountDeposit) :=
  foldl (fun account_deposits info =>
      match as_account_method (info_kind info) with
      | Some (account_address, method) =>
          if is_deposit method then push_entry account_address (account_deposit (info_input info)) account_deposits
          else account_deposits
      | None => account_deposits
      end) [] (im_values infos).

(** The withdraw of an output: panics unless the output is one resource. *)
Definition account_withdraw (is_non_fungible_withdraw : bool) (output : TrackedResources) : Exec AccountWithdraw :=
  if may_be_present (unspecified_resources output) then Panicked
  else
    match specified_resources output with
    | [(resource_address, specified_resource)] =>
        Done (if is_non_fungible_withdraw then WithdrawIds resource_address (required_ids (bounds specified_resource))
              else WithdrawAmount resource_address (lower_equivalent_decimal (lower_bound (bounds specified_resource))))
    | _ => Panicked
    end.

Definition is_non_fungible_withdraw (method : Name) : option bool :=
  if bool_decide (method ∈ [lit "withdraw"; lit "lock_fee_and_withdraw"]) then Some false
  else if bool_decide (method ∈ [lit "withdraw_non_fungibles"; lit "lock_fee_and_withdraw_non_fungibles"]) then Some true
  else None.

Fixpoint account_withdraws (l : list InvocationStaticInformation) (acc : ByAccount (list AccountWithdraw)) :
    Exec (ByAccount (list AccountWithdraw)) :=
  match l with
  | [] => Done acc
  | info :: l =>
      match as_account_method (info_kind info) with
      | Some (account_address, method) =>
          match is_non_fungible_withdraw method with
          | Some non_fungible =>
              w ← account_withdraw non_fungible (info_output info);
              account_withdraws l (push_entry account_address w acc)
          | None => account_withdraws l acc
          end
      | None => account_withdraws l acc
      end
  end.

Definition resolve_account_withdraws (infos : IndexMap Z InvocationStaticInformation) :
    Exec (ByAccount (list AccountWithdraw)) := account_withdraws (im_values infos) [].

(** ** What the changes mean *)

Module OutputSpec.
Import MovementsSpec.

(** What is sent to the deposit methods of an account, what they return of it,
    what stays in the account, and what its withdraw methods take out. *)
Definition sent_to (account : NodeAddress) (r : ResourceAddress) (mv : Movement) : Z :=
  match as_account_method (moved_by mv) with
  | Some (a, method) => if bool_decide (a = account) && is_deposit method then b_amount (moved_in mv r) else 0
  | None => 0
  end.
Definition returned_by (account : NodeAddress) (r : ResourceAddress) (mv : Movement) : Z :=
  match as_account_method (moved_by mv) with
  | Some (a, method) => if bool_decide (a = account) && is_deposit method then b_amount (moved_out mv r) else 0
  | None => 0
  end.
Definition deposited_by (account : NodeAddress) (r : ResourceAddress) (mv : Movement) : Z :=
  sent_to account r mv - returned_by account r mv.
Definition withdrawn_by (account : NodeAddress) (r : ResourceAddress) (mv : Movement) : Z :=
  match as_account_method (moved_by mv) with
  | Some (a, method) =>
      if bool_decide (a = account) && negb (is_deposit method) && is_withdraw method then b_amount (moved_out mv r) else 0
  | None => 0
  end.
Definition total (f : Movement -> Z) (mvs : list Movement) : Z := foldr (fun mv acc => f mv + acc) 0 mvs.

Definition reported_deposits (ds : IndexMap NodeAddress NetDeposits) (account : NodeAddress) (r : ResourceAddress) : ResourceBounds :=
  match im_get account ds with Some d => net_bounds_for d r | None => bounds_zero end.
Definition reported_withdraw (ws : IndexMap NodeAddress (IndexMap ResourceAddress NetWithdraw)) (account : NodeAddress)
    (r : ResourceAddress) : option NetWithdraw :=
  w ← im_get account ws; im_get r w.
End OutputSpec.
Import OutputSpec.

Module OutputLemmas.
Import MovementsSpec MovementsLemmas.

Section Fungible.
Context {ME : Type} (r : ResourceAddress) (Hr : is_fungible r = true).
Abbreviation Err_ := (StaticResourceMovementsError ME).

Definition coins (x : Z) : Balance := mk_balance x [].

Lemma coins_ok x : 0 <= x <= MAX -> balance_ok true (coins x).
Proof using. clear Hr. intros. split_and!; cbn; [lia|lia|constructor|done]. Qed.

Lemma coins_of b : balance_ok true b -> b = coins (b_amount b) /\ 0 <= b_amount b <= MAX.
Proof using. clear Hr. intros (? & _ & Hi). destruct b. cbn in *. by subst. Qed.

Lemma clear_bounded f p b : bounded f p b -> bounded f (with_allowed (with_required p []) AnyIds) b.
Proof using.
  clear Hr. intros [[] []]. split; constructor; cbn; try done; [apply NoDup_nil_2|set_solver].
Qed.

Lemma revise_sound p d x y : bounded true p (coins x) -> bounded true d (coins y) ->
  wlp (revise_with (ME := ME) d) p (fun d' p' => d' = d /\ bounded true p' (coins x)).
Proof using.
  clear Hr. intros Hp Hd. unfold revise_with.
  assert (wlp (revise (ME := ME)) (p, d) (fun _ s => s.2 = d /\ bounded true s.1 (coins x))) as Hrev.
  { unfold revise. apply wlp_bind, wlp_gets. unfold id. cbn [fst snd].
    destruct (wf_fungible _ _ (proj1 Hp) eq_refl) as [Hreq _]. rewrite Hreq. apply wlp_bind.
    rewrite bool_decide_eq_false_2 by (intros Hn; by apply Hn). apply wlp_ret, wlp_bind, wlp_gets. cbn [fst snd].
    case_bool_decide; [apply wlp_modify|apply wlp_ret]; (split; [done|]); cbn; [by apply clear_bounded|done]. }
  unfold wlp in *. by destruct (revise (p, d)) as [[[[]|e] s]|].
Qed.

Definition bounded_change (c : AggregatedBalanceChange) (D W : Z) : Prop :=
  bounded true (deposited c) (coins D) /\ bounded true (withdrawn c) (coins W).

Lemma join_coins x y : join (coins x) (coins y) = coins (x + y).
Proof using. done. Qed.

Lemma change_deposit_sound c g D W y : 0 <= D -> 0 <= y -> D + y <= MAX -> bounded_change c D W -> bounded true g (coins y) ->
  wlp (change_mut_deposit (ME := ME) g) c (fun _ c' => bounded_change c' (D + y) W).
Proof using.
  clear Hr. intros HD Hy HM [Hd Hw] Hg. unfold change_mut_deposit, on_withdrawn, on_deposited. apply wlp_bind, wlp_zoom.
  eapply wlp_mono; [by eapply revise_sound|]. intros d p [-> Hp]. apply wlp_zoom. cbn [deposited].
  eapply wlp_mono; [apply (bounds_mut_add_sound true (deposited c) g (coins D) (coins y)); try done; rewrite ?join_coins; apply coins_ok; lia|].
  intros [] g' Hg'. by split.
Qed.

Lemma change_withdraw_sound c g D W y : 0 <= W -> 0 <= y -> W + y <= MAX -> bounded_change c D W -> bounded true g (coins y) ->
  wlp (change_mut_withdraw (ME := ME) g) c (fun _ c' => bounded_change c' D (W + y)).
Proof using.
  clear Hr. intros HD Hy HM [Hd Hw] Hg. unfold change_mut_withdraw, on_withdrawn, on_deposited. apply wlp_bind, wlp_zoom.
  eapply wlp_mono; [by eapply revise_sound|]. intros d p [-> Hp]. apply wlp_zoom. cbn [withdrawn].
  eapply wlp_mono; [apply (bounds_mut_add_sound true (withdrawn c) g (coins W) (coins y)); try done; rewrite ?join_coins; apply coins_ok; lia|].
  intros [] g' Hg'. by split.
Qed.

(** *** One account *)

Definition put_change (c : AllBalanceChanges) (k : ResourceAddress) (x : AggregatedBalanceChange) : AllBalanceChanges :=
  mk_changes (im_insert k x (changes_specified c)) (unspecified_resource_deposits c).

Definition specified (c : AllBalanceChanges) : Prop := is_Some (im_get r (changes_specified c)).

Lemma change_of_put c k x : change_of (put_change c k x) r = if decide (r = k) then x else change_of c r.
Proof using. clear Hr. unfold change_of, put_change. cbn. rewrite im_get_insert. by case_decide. Qed.

Lemma specified_put c k x : specified (put_change c k x) <-> r = k \/ specified c.
Proof using.
  clear Hr. unfold specified, put_change. cbn. rewrite im_get_insert. case_decide as Hd; [split; [by left|done]|].
  split; [by right|by intros [?|?]].
Qed.

(** What happens to other resources leaves the change of [r]. *)
Definition unchanged (c c' : AllBalanceChanges) : Prop :=
  change_of c' r = change_of c r /\ (specified c' <-> specified c) /\
  unspecified_resource_deposits c' = unspecified_resource_deposits c /\
  (im_ok (changes_specified c) -> im_ok (changes_specified c')).

Lemma unchanged_trans c1 c2 c3 : unchanged c1 c2 -> unchanged c2 c3 -> unchanged c1 c3.
Proof using. clear Hr. unfold unchanged. intros (? & ? & ? & ?) (? & ? & ? & ?). split_and!; try congruence; tauto. Qed.

Lemma unchanged_refl c : unchanged c c.
Proof using. done. Qed.

Lemma wlp_other k m c : r <> k -> wlp (on_change (ME := ME) k m) c (fun _ c' => unchanged c c').
Proof using.
  clear Hr. intros Hk. unfold on_change. apply wlp_zoom. unfold wlp. destruct (m (change_of c k)) as [[[[]|e] x]|]; try done.
  change (unchanged c (put_change c k x)). split_and!; [by rewrite change_of_put, decide_False| |done|].
  - rewrite specified_put. tauto.
  - cbn. apply im_ok_insert.
Qed.

Lemma wlp_this m c (Q : unit -> AllBalanceChanges -> Prop) :
  wlp m (change_of c r) (fun _ x => Q tt (put_change c r x)) -> wlp (on_change (ME := ME) r m) c Q.
Proof using. intros Hm. unfold on_change. apply wlp_zoom. eapply wlp_mono; [exact Hm|]. by intros []. Qed.

Lemma this_put c x D W : bounded_change x D W -> bounded_change (change_of (put_change c r x) r) D W.
Proof using. clear Hr. intros. by rewrite change_of_put, decide_True. Qed.

Definition bounded_account (c : AllBalanceChanges) (D W : Z) : Prop :=
  im_ok (changes_specified c) /\ bounded_change (change_of c r) D W.

Lemma bounded_unchanged c c' D W : unchanged c c' -> bounded_account c D W -> bounded_account c' D W.
Proof using. clear Hr. intros (He & _ & _ & Hok) [? ?]. split; [auto|by rewrite He]. Qed.

Lemma deposit_unspecified_frame dep keys c : r ∉ keys \/ im_get r (specified_resources dep) <> None ->
  wlp (deposit_unspecified (ME := ME) dep keys) c (fun _ c' => unchanged c c').
Proof using.
  clear Hr. revert c. induction keys as [|k keys IH]; intros c Hk; cbn [deposit_unspecified]; [by apply wlp_ret|].
  rewrite not_elem_of_cons in Hk. apply wlp_bind. case_bool_decide as Hs.
  - apply wlp_ret, IH. tauto.
  - eapply wlp_mono; [apply wlp_other|].
    + intros ->. destruct Hk as [[? _]|Hk]; [done|]. by apply Hs, not_eq_None_Some.
    + intros [] c1 H1. eapply wlp_mono; [apply IH; tauto|]. intros [] c2 H2. by eapply unchanged_trans.
Qed.

Lemma deposit_unspecified_adds dep keys c D W y : NoDup keys -> r ∈ keys -> im_get r (specified_resources dep) = None ->
  0 <= D -> 0 <= y -> D + y <= MAX -> bounded_account c D W ->
  bounded true (unspecified_bounds (unspecified_resources dep)) (coins y) ->
  wlp (deposit_unspecified (ME := ME) dep keys) c (fun _ c' =>
    bounded_account c' (D + y) W /\ specified c' /\ unspecified_resource_deposits c' = unspecified_resource_deposits c).
Proof using.
  clear Hr. intros Hnd Hin Hn HD Hy HM Hc Hb. revert c Hc. induction Hnd as [|k keys Hk Hnd IH]; intros c Hc;
    [by apply not_elem_of_nil in Hin|]. cbn [deposit_unspecified]. apply wlp_bind.
  destruct (decide (r = k)) as [<-|Hrk].
  - rewrite bool_decide_eq_false_2 by (rewrite Hn; by intros []). apply wlp_this.
    eapply wlp_mono; [apply (change_deposit_sound _ _ D W y); try done; apply Hc|].
    intros [] x Hx. eapply wlp_mono; [apply deposit_unspecified_frame; by left|].
    intros [] c' H'. split_and!.
    + eapply bounded_unchanged; [done|]. split; [apply im_ok_insert, Hc|by apply this_put].
    + apply H'. apply specified_put. by left.
    + by destruct H' as (_ & _ & -> & _).
  - apply elem_of_cons in Hin as [?|Hin]; [done|]. case_bool_decide; [apply wlp_ret; auto|].
    eapply wlp_mono; [by apply wlp_other|]. intros [] c1 H1.
    eapply wlp_mono; [apply IH; [done|by eapply bounded_unchanged]|]. intros [] c2 (? & ? & Hu).
    split_and!; [done|done|]. rewrite Hu. apply H1.
Qed.

Section Specified.
Context (op : ResourceBounds -> M AggregatedBalanceChange Err_ unit).

Fixpoint each_specified (l : IndexMap ResourceAddress TrackedResource) : M AllBalanceChanges Err_ unit :=
  match l with
  | [] => mret tt
  | (resource, t) :: l => on_change resource (op (bounds t));; each_specified l
  end.

Lemma each_frame l c : r ∉ im_keys l -> wlp (each_specified l) c (fun _ c' => unchanged c c').
Proof using.
  clear Hr. revert c. induction l as [|[k t] l IH]; intros c Hk; cbn [each_specified]; [by apply wlp_ret|].
  cbn in Hk. apply not_elem_of_cons in Hk as [Hk Hl]. apply wlp_bind.
  eapply wlp_mono; [by apply wlp_other|]. intros [] c1 H1. eapply wlp_mono; [by apply IH|]. intros [] c2 H2.
  by eapply unchanged_trans.
Qed.

Lemma each_adds l c t D W D' W' : im_ok l -> im_get r l = Some t -> bounded_account c D W ->
  (forall x, bounded_change x D W -> wlp (op (bounds t)) x (fun _ x' => bounded_change x' D' W')) ->
  wlp (each_specified l) c (fun _ c' =>
    bounded_account c' D' W' /\ specified c' /\ unspecified_resource_deposits c' = unspecified_resource_deposits c).
Proof using.
  clear Hr. intros Hok Hg Hc Hop. revert c Hc. induction l as [|[k t0] l IH]; intros c Hc; [done|].
  unfold im_ok in Hok. cbn in Hok. apply NoDup_cons in Hok as [Hk Hok]. cbn [each_specified]. apply wlp_bind.
  cbn in Hg. destruct (decide (r = k)) as [<-|Hrk].
  - injection Hg as ->. apply wlp_this. eapply wlp_mono; [apply Hop, Hc|].
    intros [] x Hx. eapply wlp_mono; [by apply each_frame|]. intros [] c' H'. split_and!.
    + eapply bounded_unchanged; [done|]. split; [apply im_ok_insert, Hc|by apply this_put].
    + apply H'. apply specified_put. by left.
    + by destruct H' as (_ & _ & -> & _).
  - eapply wlp_mono; [by apply wlp_other|]. intros [] c1 H1.
    eapply wlp_mono; [apply IH; [done|done|by eapply bounded_unchanged]|]. intros [] c2 (? & ? & Hu).
    split_and!; [done|done|]. rewrite Hu. apply H1.
Qed.
End Specified.

Lemma deposit_each l : deposit_specified (ME := ME) l = each_specified change_mut_deposit l.
Proof using. clear Hr. induction l as [|[k t] l IH]; [done|]. cbn. by rewrite IH. Qed.
Lemma withdraw_each l : withdraw_specified (ME := ME) l = each_specified change_mut_withdraw l.
Proof using. clear Hr. induction l as [|[k t] l IH]; [done|]. cbn. by rewrite IH. Qed.

Lemma not_specified c : ~ specified c ->
  change_of c r = mk_change (unspecified_bounds (unspecified_resource_deposits c)) bounds_zero.
Proof using. clear Hr. unfold specified, change_of. destruct (im_get r (changes_specified c)); [intros []; by eexists|done]. Qed.

Lemma zero_coins y : 0 <= y -> bounded true bounds_zero (coins y) -> y = 0.
Proof using. clear Hr. intros Hy [_ [_ Hu _ _]]. cbn in Hu. unfold ZERO in Hu. lia. Qed.

Lemma deposit_sound dep c D W y : 0 <= D -> 0 <= y -> D + y <= MAX -> bounded_account c D W ->
  im_ok (specified_resources dep) -> bounded true (bounds (resource_status dep r)) (coins y) ->
  wlp (changes_mut_deposit (ME := ME) dep) c (fun _ c' => bounded_account c' (D + y) W).
Proof using.
  clear Hr. intros HD Hy HM Hc Hok Hb. unfold changes_mut_deposit. apply wlp_bind, wlp_gets. unfold id.
  assert (forall c', specified c' -> unspecified_resource_deposits c' = unspecified_resource_deposits c -> bounded_account c' (D + y) W ->
    bounded_account (mk_changes (changes_specified c')
      (unspecified_add (unspecified_resource_deposits c') (unspecified_resources dep))) (D + y) W) as Hend.
  { intros c' Hs _ [Hok' Hb']. split; [done|]. unfold change_of in *. cbn. unfold specified in Hs.
    destruct Hs as [x Hx]. by rewrite Hx in *. }
  rewrite deposit_each. unfold resource_status in Hb.
  destruct (im_get r (specified_resources dep)) as [t|] eqn:Hg; cbn in Hb.
  - (* the deposit specifies the resource *)
    apply wlp_bind. eapply (wlp_mono _ _ (fun _ c' => unchanged c c')).
    { destruct (may_be_present _); [apply deposit_unspecified_frame; right; by rewrite Hg|by apply wlp_ret]. }
    intros [] c1 H1. apply wlp_bind.
    eapply wlp_mono; [apply (each_adds change_mut_deposit _ c1 t D W (D + y) W); try done; [by eapply bounded_unchanged|]|].
    + intros x Hx. by apply change_deposit_sound.
    + intros [] c2 (H2 & Hs & Hu). apply wlp_modify, Hend; [done| |done]. rewrite Hu. apply H1.
  - assert (r ∉ im_keys (specified_resources dep)) as Hnk by (by apply im_get_None).
    destruct (decide (r ∈ im_keys (changes_specified c))) as [Hin|Hin].
    + (* the account has a change of the resource *)
      assert (specified c) as Hsp. { unfold specified. apply not_eq_None_Some. by rewrite im_get_None; intros ?. }
      apply wlp_bind. eapply (wlp_mono _ _ (fun _ c' => bounded_account c' (D + y) W /\ specified c' /\
        unspecified_resource_deposits c' = unspecified_resource_deposits c)).
      { destruct (unspecified_resources dep) as [|ss] eqn:Hu; cbn [may_be_present].
        - apply wlp_ret. cbn in Hb. apply zero_coins in Hb; [|done]. subst. by rewrite Z.add_0_r.
        - apply deposit_unspecified_adds; try done; [apply Hc|]. by rewrite Hu. }
      intros [] c1 (H1 & Hs1 & Hu1). apply wlp_bind. eapply wlp_mono; [by apply each_frame|]. intros [] c2 H2.
      apply wlp_modify, Hend; [by apply H2| |by eapply bounded_unchanged]. destruct H2 as (_ & _ & -> & _). done.
    + (* the resource stays unspecified *)
      assert (~ specified c) as Hns. { intros Hs%not_eq_None_Some. by apply Hs, im_get_None. }
      apply wlp_bind. eapply (wlp_mono _ _ (fun _ c' => unchanged c c')).
      { destruct (may_be_present _); [apply deposit_unspecified_frame; by left|by apply wlp_ret]. }
      intros [] c1 H1. apply wlp_bind. eapply wlp_mono; [by apply each_frame|]. intros [] c2 H2.
      pose proof (unchanged_trans _ _ _ H1 H2) as H3. apply wlp_modify.
      pose proof (bounded_unchanged _ _ _ _ H3 Hc) as [Hok3 Hb3]. split; [done|].
      assert (~ specified c2) as Hns2 by (by rewrite (proj1 (proj2 H3))). rewrite (not_specified c2 Hns2) in Hb3.
      rewrite not_specified by exact Hns2. cbn. destruct Hb3 as [Hd3 Hw3]. split; [|done]. cbn in Hd3 |- *.
      destruct (unspecified_resources dep) as [|ss] eqn:Hu, (unspecified_resource_deposits c2) as [|ss2] eqn:Hu2; cbn in *;
        try apply zero_coins in Hb; try apply zero_coins in Hd3; try done; subst; rewrite ?Z.add_0_r; try done;
        first [apply bounded_zero | apply bounded_zero_or_more, coins_ok; lia].
Qed.

Lemma withdraw_sound wd c D W y : 0 <= W -> 0 <= y -> W + y <= MAX -> bounded_account c D W ->
  im_ok (specified_resources wd) -> bounded true (bounds (resource_status wd r)) (coins y) ->
  wlp (changes_mut_withdraw (ME := ME) wd) c (fun _ c' => bounded_account c' D (W + y)).
Proof using.
  clear Hr. intros HW Hy HM Hc Hok Hb. unfold changes_mut_withdraw. apply wlp_bind, wlp_guard_or. intros Hnone.
  rewrite withdraw_each. unfold resource_status in Hb.
  destruct (im_get r (specified_resources wd)) as [t|] eqn:Hg; cbn in Hb.
  - eapply wlp_mono; [apply (each_adds change_mut_withdraw _ c t D W D (W + y)); try done|by intros [] c' [? _]].
    intros x Hx. by apply change_withdraw_sound.
  - destruct (unspecified_resources wd); [|done]. cbn in Hb. apply zero_coins in Hb; [|done]. subst. rewrite Z.add_0_r.
    eapply wlp_mono; [apply each_frame; by apply im_get_None|]. intros [] c' H'. by eapply bounded_unchanged.
Qed.
End Fungible.

(** *** All accounts *)

Section Account.
Context {ME : Type} (account : NodeAddress) (r : ResourceAddress) (Hr : is_fungible r = true).
Abbreviation Err_ := (StaticResourceMovementsError ME).

Definition bounded_in (m : IndexMap NodeAddress AllBalanceChanges) (D W : Z) : Prop :=
  im_ok m /\ bounded_account r (default no_changes (im_get account m)) D W.

Lemma bounded_in_other m a c D W : account <> a -> bounded_in m D W -> bounded_in (im_insert a c m) D W.
Proof using. clear Hr. intros Ha [Hok Hb]. split; [by apply im_ok_insert|]. by rewrite im_get_insert_ne. Qed.

Lemma holds_coins t W : balances_ok W -> holds t W ->
  im_ok (specified_resources t) /\ bounded true (bounds (resource_status t r)) (coins (b_amount (W r))) /\ 0 <= b_amount (W r).
Proof using Hr.
  intros HW Ht. pose proof (holds_status _ _ Ht r) as Hs. specialize (HW r). rewrite Hr in *.
  destruct (coins_of _ HW) as [Hc ?]. split_and!; [apply Ht| |lia]. by rewrite <- Hc.
Qed.

Lemma wlp_on_account a m accounts D W D' W' :
  bounded_in accounts D W ->
  (account = a -> forall c, bounded_account r c D W -> wlp m c (fun _ c' => bounded_account r c' D' W')) ->
  (account <> a -> D' = D /\ W' = W) ->
  wlp (on_account (ME := ME) a m) accounts (fun _ accounts' => bounded_in accounts' D' W').
Proof using.
  clear Hr. intros Hin Hm Hne. unfold on_account. apply wlp_zoom. destruct (decide (account = a)) as [<-|Ha].
  - eapply wlp_mono; [apply Hm; [done|apply Hin]|]. intros u c Hc. split; [apply im_ok_insert, Hin|by rewrite im_get_insert_eq].
  - destruct (Hne Ha) as [-> ->]. unfold wlp. destruct (m _) as [[[[]|e] c]|]; try done. by apply bounded_in_other.
Qed.

Lemma sent_nonneg i mv : reports i mv -> 0 <= sent_to account r mv.
Proof using.
  clear Hr. intros (_ & _ & [Hok _] & _). unfold sent_to. repeat case_match; try lia. by destruct (Hok r) as [[? _] _].
Qed.
Lemma withdrawn_nonneg i mv : reports i mv -> 0 <= withdrawn_by account r mv.
Proof using.
  clear Hr. intros (_ & _ & _ & [Hok _]). unfold withdrawn_by. repeat case_match; try lia. by destruct (Hok r) as [[? _] _].
Qed.

Lemma aggregate_sound i info mv accounts D W : reports (i, info) mv -> bounded_in accounts D W -> 0 <= D -> 0 <= W ->
  D + sent_to account r mv <= MAX -> W + withdrawn_by account r mv <= MAX ->
  wlp (aggregate_invocation (ME := ME) info) accounts (fun _ accounts' =>
    bounded_in accounts' (D + sent_to account r mv) (W + withdrawn_by account r mv)).
Proof using Hr.
  intros (_ & Hk & [Hiok Hin] & [Hook Hout]) Hb HD HW HDm HWm. cbn [fst snd] in *. unfold aggregate_invocation, sent_to, withdrawn_by in *.
  rewrite Hk. destruct (as_account_method _) as [[a method]|]; [|rewrite !Z.add_0_r; by apply wlp_ret].
  destruct (holds_coins _ _ Hiok Hin) as (Hi1 & Hi2 & Hi3), (holds_coins _ _ Hook Hout) as (Ho1 & Ho2 & Ho3).
  destruct (is_deposit method) eqn:Hd; [|destruct (is_withdraw method) eqn:Hw]; cbn [negb] in *;
    rewrite ?andb_true_r, ?andb_false_r, ?Z.add_0_r in *; [| |by apply wlp_ret].
  - eapply wlp_on_account; [exact Hb| |].
    + intros <- c Hc. rewrite bool_decide_eq_true_2 in * by done. by apply deposit_sound.
    + intros Ha. rewrite bool_decide_eq_false_2 by congruence. lia.
  - eapply wlp_on_account; [exact Hb| |].
    + intros <- c Hc. rewrite bool_decide_eq_true_2 in * by done. by apply withdraw_sound.
    + intros Ha. rewrite bool_decide_eq_false_2 by congruence. lia.
Qed.

Lemma total_nonneg f mvs l : (forall i mv, reports i mv -> 0 <= f mv) -> Forall2 reports l mvs -> 0 <= total f mvs.
Proof using. clear Hr. intros Hf. induction 1 as [|i mv l mvs Hi Hall IH]; [done|]. change (total f (mv :: mvs)) with (f mv + total f mvs). specialize (Hf _ _ Hi). lia. Qed.

Lemma aggregate_all l mvs : Forall2 reports l mvs -> forall accounts D W, bounded_in accounts D W -> 0 <= D -> 0 <= W ->
  D + total (sent_to account r) mvs <= MAX -> W + total (withdrawn_by account r) mvs <= MAX ->
  wlp (aggregate_invocations (ME := ME) (im_values l)) accounts (fun _ accounts' =>
    bounded_in accounts' (D + total (sent_to account r) mvs) (W + total (withdrawn_by account r) mvs)).
Proof using Hr.
  induction 1 as [|[i info] mv l mvs Hi Hall IH]; intros accounts D W Hb HD HW HDm HWm.
  { change (bounded_in accounts (D + 0) (W + 0)). by rewrite !Z.add_0_r. }
  pose proof (total_nonneg _ _ _ sent_nonneg Hall). pose proof (total_nonneg _ _ _ withdrawn_nonneg Hall).
  pose proof (sent_nonneg _ _ Hi). pose proof (withdrawn_nonneg _ _ Hi).
  change (total (sent_to account r) (mv :: mvs)) with (sent_to account r mv + total (sent_to account r) mvs) in *.
  change (total (withdrawn_by account r) (mv :: mvs)) with (withdrawn_by account r mv + total (withdrawn_by account r) mvs) in *.
  cbn [im_values fmap list_fmap aggregate_invocations]. apply wlp_bind.
  eapply wlp_mono; [eapply aggregate_sound; try done; lia|]. intros [] accounts' Hb'.
  rewrite !Z.add_assoc. apply IH; try done; lia.
Qed.

Lemma returned_nonneg i mv : reports i mv -> 0 <= returned_by account r mv.
Proof using.
  clear Hr. intros (_ & _ & _ & [Hok _]). unfold returned_by. repeat case_match; try lia. by destruct (Hok r) as [[? _] _].
Qed.

Lemma kept_total l mvs : Forall2 reports l mvs -> total (deposited_by account r) mvs <= total (sent_to account r) mvs.
Proof using.
  clear Hr. induction 1 as [|i mv l mvs Hi Hall IH]; [done|]. pose proof (returned_nonneg _ _ Hi).
  cbn. change (deposited_by account r mv) with (sent_to account r mv - returned_by account r mv).
  unfold total in IH. lia.
Qed.

Lemma unreturned_total mvs : Forall (fun mv => returned_by account r mv = 0) mvs ->
  total (deposited_by account r) mvs = total (sent_to account r) mvs.
Proof using.
  clear Hr. induction 1 as [|mv mvs Hmv Hall IH]; [done|].
  cbn. change (deposited_by account r mv) with (sent_to account r mv - returned_by account r mv).
  unfold total in IH. lia.
Qed.

Lemma upper_sat_le u x y : x <= y -> upper_sat u y -> upper_sat u x.
Proof using. clear Hr. destruct u; cbn; lia. Qed.

(** *** The split *)

Lemma split_accounts_other l ws ds ws' ds' : account ∉ im_keys l ->
  split_accounts (ME := ME) l ws ds = Done (Ok (ws', ds')) ->
  im_get account ws' = im_get account ws /\ im_get account ds' = im_get account ds.
Proof using.
  clear Hr. revert ws ds. induction l as [|[a c] l IH]; intros ws ds Hk; cbn [split_accounts]; [by intros [= -> ->]|].
  cbn in Hk. apply not_elem_of_cons in Hk as [Ha Hk].
  destruct (split_changes c) as [[[w d]|e]|]; try done. cbn. intros [-> ->]%IH; [|done].
  split; case_match; try done; by rewrite im_get_insert_ne.
Qed.

Lemma split_accounts_this l ws ds ws' ds' c : im_ok l -> im_get account l = Some c ->
  im_get account ws = None -> im_get account ds = None ->
  split_accounts (ME := ME) l ws ds = Done (Ok (ws', ds')) ->
  exists w d, split_changes (ME := ME) c = Done (Ok (w, d)) /\ im_get account ws' = w /\ im_get account ds' = d.
Proof using.
  clear Hr. unfold im_ok. revert ws ds. induction l as [|[a c0] l IH]; intros ws ds Hok Hg Hws Hds; [done|]. cbn [split_accounts].
  cbn in Hok. apply NoDup_cons in Hok as [Ha Hok]. cbn in Hg. destruct (decide (account = a)) as [<-|Hne].
  - injection Hg as ->. destruct (split_changes c) as [[[w d]|e]|]; try done. cbn. intros [-> ->]%split_accounts_other; [|done].
    exists w, d. split; [done|]. split; case_match; try done; by rewrite im_get_insert_eq.
  - destruct (split_changes c0) as [[[w d]|e]|]; try done. cbn. apply IH; try done; case_match; try done; by rewrite im_get_insert_ne.
Qed.

Lemma split_loop_other l ws ds ws' ds' : r ∉ im_keys l ->
  split_loop (ME := ME) l ws ds = Done (Ok (ws', ds')) -> im_get r ws' = im_get r ws /\ im_get r ds' = im_get r ds.
Proof using.
  clear Hr. revert ws ds. induction l as [|[k c] l IH]; intros ws ds Hk; cbn [split_loop]; [by intros [= -> ->]|].
  cbn in Hk. apply not_elem_of_cons in Hk as [Ha Hk]. cbn [negb].
  assert (forall ds, im_get r (if negb (bounds_is_zero (deposited c)) then im_insert k (deposited c) ds else ds) = im_get r ds) as Hds.
  { intros. case_match; [by rewrite im_get_insert_ne|done]. }
  destruct (negb (bounds_is_zero (withdrawn c))); cbn.
  - destruct (net_withdraw_from_bounds k (withdrawn c)) as [[n|e]|]; try done. cbn. intros [-> ->]%IH; [|done].
    by rewrite im_get_insert_ne, Hds.
  - intros [-> ->]%IH; [|done]. by rewrite Hds.
Qed.

Lemma split_loop_this l ws ds ws' ds' c : im_ok l -> im_get r l = Some c -> im_get r ws = None -> im_get r ds = None ->
  split_loop (ME := ME) l ws ds = Done (Ok (ws', ds')) ->
  (if bounds_is_zero (withdrawn c) then im_get r ws' = None
   else exists n, net_withdraw_from_bounds (ME := ME) r (withdrawn c) = Done (Ok n) /\ im_get r ws' = Some n) /\
  im_get r ds' = if bounds_is_zero (deposited c) then None else Some (deposited c).
Proof using.
  clear Hr. unfold im_ok. revert ws ds. induction l as [|[k c0] l IH]; intros ws ds Hok Hg Hws Hds; [done|]. cbn [split_loop].
  cbn in Hok. apply NoDup_cons in Hok as [Hk Hok]. cbn in Hg. destruct (decide (r = k)) as [<-|Hne].
  - injection Hg as ->. destruct (bounds_is_zero (withdrawn c)); cbn.
    + intros [-> ->]%split_loop_other; [|done]. split; [done|]. case_match; cbn; [done|by rewrite im_get_insert_eq].
    + destruct (net_withdraw_from_bounds r (withdrawn c)) as [[n|e]|]; try done. cbn. intros [-> ->]%split_loop_other; [|done].
      rewrite im_get_insert_eq. split; [by exists n|]. case_match; cbn; [done|by rewrite im_get_insert_eq].
  - destruct (bounds_is_zero (withdrawn c0)); cbn.
    + apply IH; try done. destruct (bounds_is_zero (deposited c0)); cbn; [done|by rewrite im_get_insert_ne].
    + destruct (net_withdraw_from_bounds k (withdrawn c0)) as [[n|e]|]; try done. cbn.
      apply IH; try done; [by rewrite im_get_insert_ne|]. destruct (bounds_is_zero (deposited c0)); cbn; [done|by rewrite im_get_insert_ne].
Qed.

Lemma zero_bounds_coins b x : 0 <= x -> bounds_is_zero b = true -> bounded true b (coins x) -> x = 0.
Proof using.
  clear Hr. intros Hx Hz%bool_decide_eq_true [_ [_ Hu _ _]]. rewrite Hz in Hu. cbn in Hu. unfold ZERO in Hu. lia.
Qed.

Lemma net_withdraw_coins b x n : bounded true b (coins x) -> net_withdraw_from_bounds (ME := ME) r b = Done (Ok n) -> n = NetFungible x.
Proof using Hr.
  unfold net_withdraw_from_bounds, get_exact_amount. rewrite Hr. intros [_ [Hl Hu _ _]].
  destruct (lower_bound b) as [|l], (upper_bound b) as [u|]; try done. cbn in Hl, Hu.
  destruct (Z.eqb_spec l u); [|done]. intros [= <-]. f_equal. lia.
Qed.

Lemma bounded_unspecified_zero u : bounded true (unspecified_bounds u) (coins 0).
Proof using. clear Hr. destruct u; [apply bounded_zero|by apply bounded_zero_or_more, coins_ok]. Qed.

Lemma split_changes_sound c D W w d : bounded_account r c D W -> 0 <= D -> 0 <= W ->
  split_changes (ME := ME) c = Done (Ok (w, d)) ->
  bounded true (match d with Some d => net_bounds_for d r | None => bounds_zero end) (coins D) /\
  match w ≫= im_get r with Some n => n = NetFungible W | None => W = 0 end.
Proof using Hr.
  intros [Hok [Hd Hw]] HD HW. unfold split_changes.
  destruct (split_loop _ _ _) as [[[ws ds]|e]|] eqn:Hs; try done. cbn. intros [= <- <-].
  assert ((if bool_decide (ws <> []) then Some ws else None) ≫= im_get r = im_get r ws) as ->.
  { by destruct ws. }
  assert (match (if bool_decide (ds <> []) || may_be_present (unspecified_resource_deposits c)
                 then Some (mk_net_deposits ds (unspecified_resource_deposits c)) else None)
          with Some d => net_bounds_for d r | None => bounds_zero end =
          default (unspecified_bounds (unspecified_resource_deposits c)) (im_get r ds)) as ->.
  { destruct ds; [|done]. by destruct (unspecified_resource_deposits c). }
  unfold change_of in Hd, Hw. destruct (im_get r (changes_specified c)) as [x|] eqn:Hx; cbn in Hd, Hw.
  - apply (split_loop_this _ _ _ _ _ x) in Hs as [Hws Hds]; try done. rewrite Hds. split.
    + destruct (bounds_is_zero (deposited x)) eqn:Hz; cbn; [|done].
      rewrite (zero_bounds_coins _ _ HD Hz Hd). apply bounded_unspecified_zero.
    + destruct (bounds_is_zero (withdrawn x)) eqn:Hz.
      * rewrite Hws. by eapply zero_bounds_coins.
      * destruct Hws as (n & Hn & ->). by eapply net_withdraw_coins.
  - apply im_get_None in Hx. apply split_loop_other in Hs as [-> ->]; [|done]. cbn. split; [done|]. by apply zero_coins.
Qed.

Lemma changes_sound infos mvs ws ds : Forall2 reports infos mvs ->
  total (sent_to account r) mvs <= MAX -> total (withdrawn_by account r) mvs <= MAX ->
  resolve_account_changes (ME := ME) infos = Done (Ok (ws, ds)) ->
  bounded true (reported_deposits ds account r) (coins (total (sent_to account r) mvs)) /\
  match reported_withdraw ws account r with
  | Some n => n = NetFungible (total (withdrawn_by account r) mvs)
  | None => total (withdrawn_by account r) mvs = 0
  end.
Proof using Hr.
  intros Hall HD HW. unfold resolve_account_changes.
  pose proof (total_nonneg _ _ _ sent_nonneg Hall) as HD0. pose proof (total_nonneg _ _ _ withdrawn_nonneg Hall) as HW0.
  pose proof (aggregate_all _ _ Hall [] 0 0) as Hagg. unfold wlp in Hagg.
  destruct (aggregate_invocations _ _) as [[[[]|e] l]|]; try done. cbn. intros Hs.
  destruct Hagg as [Hok Hb]; try lia.
  { split; [apply NoDup_nil_2|]. split; [apply NoDup_nil_2|]. split; apply bounded_zero. }
  rewrite !Z.add_0_l in Hb. unfold reported_deposits, reported_withdraw.
  destruct (im_get account l) as [c|] eqn:Hc.
  - apply (split_accounts_this _ _ _ _ _ c) in Hs as (w & d & Hs & -> & ->); try done.
    by apply (split_changes_sound c).
  - apply im_get_None in Hc. apply split_accounts_other in Hs as [-> ->]; [|done]. cbn.
    destruct Hb as [_ [Hd Hw]]. split; [done|]. by apply zero_coins.
Qed.
End Account.
End OutputLemmas.

(** ** The theorems *)

Module OutputTheorems.
Import MovementsSpec MovementsLemmas MovementsTheorems OutputLemmas.

(** C27. The net changes that a user is shown bound what happens: for each
    account and fungible resource, what the deposit methods of the account keep
    in any run of an accepted manifest is at most the upper bound of the reported
    net deposit, and satisfies the whole report unless a deposit is returned;
    and what its withdraw methods take out is exactly the reported net withdraw,
    or zero when none is reported.  The conditions: the total amounts fit a
    decimal, and those of the analysis itself: the constraints of the manifest
    name no id twice, have no negative bounds and, on a fungible resource, no
    required ids and an allowlist only with the upper bound zero (effect_typed),
    and its protected withdrawals from pools cannot round (withdrawals_exact).  A
    deposit that is returned is still reported (refund_reported_as_deposit). *)
Theorem account_changes_sound {ME} (decode_args : InputType -> Manifest.ManifestValue -> option TypedManifestNativeInvocation)
    (m : Manifest) (h h' : Holdings) (mvs : list Movement) (v' : StaticResourceMovementsVisitor)
    (ws : IndexMap NodeAddress (IndexMap ResourceAddress NetWithdraw)) (ds : IndexMap NodeAddress NetDeposits)
    (account : NodeAddress) (r : ResourceAddress)
    (Hdec : decoders_ok decode_args) (Hty : Forall effect_typed (iter_instruction_effects m))
    (Hpool : Forall (withdrawals_exact decode_args) (iter_instruction_effects m))
    (Hwf : InterpreterSpec.manifest_wf m)
    (Hstart : starts m h) (Hrun : runs decode_args 0 h (iter_instruction_effects m) mvs h')
    (Hanalyze : analyze_movements decode_args m = Done (Ok tt, v'))
    (Hresolve : resolve_account_changes (ME := ME) (invocation_static_information v') = Done (Ok (ws, ds)))
    (Hr : is_fungible r = true)
    (HD : total (sent_to account r) mvs <= MAX) (HW : total (withdrawn_by account r) mvs <= MAX) :
  upper_sat (upper_bound (reported_deposits ds account r)) (total (deposited_by account r) mvs) /\
  (Forall (fun mv => returned_by account r mv = 0) mvs ->
    bounded true (reported_deposits ds account r) (mk_balance (total (deposited_by account r) mvs) [])) /\
  match reported_withdraw ws account r with
  | Some n => n = NetFungible (total (withdrawn_by account r) mvs)
  | None => total (withdrawn_by account r) mvs = 0
  end.
Proof.
  destruct (analysis_reports decode_args m h h' mvs v' Hdec Hty Hpool Hwf Hstart Hrun Hanalyze) as [Hreports _].
  destruct (changes_sound account r Hr _ mvs ws ds Hreports HD HW Hresolve) as [Hd Hw]. split_and!; [| |exact Hw].
  - eapply upper_sat_le; [by eapply kept_total|]. by destruct Hd as [_ [_ Hu _ _]].
  - intros Hnone. by rewrite unreturned_total.
Qed.

Lemma account_changes_sound_witness :
  match analyze_movements sample_decode sample_transfer with
  | Done (Ok _, v) =>
      match resolve_account_changes (ME := unit) (invocation_static_information v) with
      | Done (Ok (ws, ds)) =>
          bounded true (reported_deposits ds sample_account RORK) (mk_balance 10 []) /\
          reported_withdraw ws sample_account RORK = Some (NetFungible 10)
      | _ => False
      end
  | _ => False
  end.
Proof.
  destruct (analyze_movements sample_decode sample_transfer) as [[[[]|e] v]|] eqn:Hv;
    [|vm_compute in Hv; discriminate|vm_compute in Hv; discriminate].
  destruct (resolve_account_changes (invocation_static_information v)) as [[[ws ds]|e]|] eqn:Hc;
    [|vm_compute in Hv; injection Hv as <-; vm_compute in Hc; discriminate..].
  assert (total (sent_to sample_account RORK) sample_movements = 10) as HD by (vm_compute; reflexivity).
  assert (total (withdrawn_by sample_account RORK) sample_movements = 10) as HW by (vm_compute; reflexivity).
  destruct (account_changes_sound (ME := unit) sample_decode sample_transfer holdings0 holdings3 sample_movements v ws ds sample_account RORK)
    as (_ & Hd & Hw); [| | | |exists no_balances; split_and!; [apply MovementsLemmas.no_balances_ok|done..]|apply sample_runs|exact Hv|exact Hc|done
    |by rewrite HD|by rewrite HW|].
  - intros t args i. unfold sample_decode. by repeat case_match.
  - repeat constructor.
  - apply decoder_exact. intros t args w. unfold sample_decode. repeat case_match; intros [= <-]; exact I.
  - by apply InterpreterTheorems.manifest_wf_dec.
  - rewrite HW in Hw. split; [apply Hd; repeat constructor|].
    destruct (reported_withdraw ws sample_account RORK) as [n|]; [by rewrite Hw|discriminate].
Defined.

(** *** A deposit that comes back *)

Section Refund.
Import Manifest(ManifestValue, ManifestCustomValue, MAddress, MBucket, MDecimal, MExpression, Static, EntireWorktop).

Definition refund_decode (t : InputType) (args : ManifestValue) : option TypedManifestNativeInvocation :=
  match t, args with
  | KnownOutput AccountTryDepositOrRefundInput, VTuple [VCustom (MBucket _); VEnum 0 []] => Some NativeInvocations.AccountTryDepositOrRefund
  | NoOutput NativeInvocations.AccountDepositBatch, VTuple [VCustom (MExpression EntireWorktop)] =>
      Some (NoOutputInvocation NativeInvocations.AccountDepositBatch)
  | _, _ => sample_decode t args
  end.

Definition closed_account : NodeAddress := 193 :: replicate 29 2.
Definition refunded : Manifest := mk_manifest false [] [] []
  [CallMethod (StaticAddress sample_account) (lit "withdraw")
     (VTuple [VCustom (MAddress (Static RORK)); VCustom (MDecimal (10 :: replicate 23 0))]);
   TakeAllFromWorktop RORK;
   CallMethod (StaticAddress closed_account) (lit "try_deposit_or_refund") (VTuple [VCustom (MBucket 0); VEnum 0 []]);
   CallMethod (StaticAddress sample_account) (lit "deposit_batch") (VTuple [VCustom (MExpression EntireWorktop)])].
Definition refund_kind := MethodInvocation (StaticAddress closed_account) MainModule (lit "try_deposit_or_refund").

(** The account refuses the deposit and all of it comes back; the net deposit of
    ten is reported nevertheless. *)
Theorem refund_reported_as_deposit :
  exists v ws ds h mvs, analyze_movements refund_decode refunded = Done (Ok tt, v) /\
    resolve_account_changes (ME := unit) (invocation_static_information v) = Done (Ok (ws, ds)) /\
    runs refund_decode 0 holdings0 (iter_instruction_effects refunded) mvs h /\
    total (deposited_by closed_account RORK) mvs = 0 /\
    lower_bound (reported_deposits ds closed_account RORK) = LowerInclusive 10.
Proof.
  set (tens := single RORK (join zero_balance ten)).
  set (h4 := await None (hold_worktop (join_all (held_worktop (lose_bucket 0 holdings2)) tens) (lose_bucket 0 holdings2))).
  set (sent := join_all no_balances (held_worktop h4)).
  assert (balance_ok (is_fungible RORK) ten) as Hten.
  { change (is_fungible RORK) with true. split_and!; cbn; [lia|by vm_compute|constructor|done]. }
  assert (forall b, balance_ok (is_fungible RORK) b -> balances_ok (single RORK b)) as Hsingle
    by (intros; by apply balances_ok_update; [apply MovementsLemmas.no_balances_ok|]).
  assert (balances_ok tens) as Htens by by apply Hsingle.
  assert (balances_ok (held_worktop h4)) as Hw4.
  { intros x. cbn. unfold join_all at 1, update_balance at 1. case_decide as Hx.
    - subst x. rewrite join_zero_l. apply Htens.
    - assert (tens x = zero_balance) as -> by (unfold tens, single, update_balance; by rewrite decide_False).
      unfold join_all, single, update_balance. rewrite !decide_False by done. change (no_balances x) with zero_balance.
      rewrite !join_zero_r. apply BoundsLemmas.zero_balance_ok. }
  do 5 eexists. split; [vm_compute; reflexivity|]. split; [vm_compute; reflexivity|].
  split; [|split].
  - eapply (runs_cons _ 0 holdings0 _ holdings1 _ [mk_movement 0 withdraw_kind no_balances (single RORK ten)]);
      [|eapply (runs_cons _ 1 holdings1 _ holdings2 _ []);
        [|eapply (runs_cons _ 2 holdings2 _ h4 _ [mk_movement 2 refund_kind tens tens]);
          [|eapply (runs_cons _ 3 h4 _ _ _ [mk_movement 3 batch_kind sent no_balances]); [|constructor]]]].
    + apply (run_call refund_decode 0 holdings0 withdraw_kind _ holdings0 no_balances (single RORK ten));
        [|by apply Hsingle| |done|by apply join_none_l, Hsingle].
      * do 2 (apply send_other; [done|done|]). apply send_nil.
      * unfold call_behaves. replace (native_call _ _ _ _) with
          (Some (NativeInvocations.AccountWithdraw (StaticAddress RORK) 10, GlobalMethod (ResolvedStatic sample_account))) by (vm_compute; reflexivity).
        split; [reflexivity|]. intros x Hx. unfold single, update_balance. by rewrite decide_False.
    + apply (run_take refund_decode 1 holdings1 (AllOnWorktop RORK) TakeAll ten zero_balance);
        [done|done|apply BoundsLemmas.zero_balance_ok| |done]. split; vm_compute; reflexivity.
    + apply (run_call refund_decode 2 holdings2 refund_kind _ (lose_bucket 0 holdings2) tens tens); [|done| |done|exact Hw4].
      * apply (send_bucket _ _ 0 RORK ten); [reflexivity|done|]. apply send_nil.
      * unfold call_behaves. replace (native_call _ _ _ _) with
          (Some (NativeInvocations.AccountTryDepositOrRefund, GlobalMethod (ResolvedStatic closed_account))) by (vm_compute; reflexivity).
        intros x. exists zero_balance. split; [apply BoundsLemmas.zero_balance_ok|by rewrite join_zero_l].
    + apply (run_call refund_decode 3 h4 batch_kind _ (hold_worktop no_balances h4) sent no_balances);
        [|apply MovementsLemmas.no_balances_ok| |done|by apply join_none_l, MovementsLemmas.no_balances_ok].
      * apply send_worktop; [by apply join_none_l|]. apply send_nil.
      * unfold call_behaves. replace (native_call _ _ _ _) with
          (Some (NoOutputInvocation NativeInvocations.AccountDepositBatch, GlobalMethod (ResolvedStatic sample_account)))
          by (vm_compute; reflexivity). done.
  - vm_compute. reflexivity.
  - vm_compute. reflexivity.
Qed.
End Refund.

(** *** Ids *)

Section Ids.
Import Manifest(ManifestValue, ManifestCustomValue, MAddress, MBucket, MNonFungibleLocalId, Static).

Definition art : NodeAddress := 154 :: replicate 29 7.
Definition alice : NodeAddress := 193 :: replicate 29 1.
Definition bob : NodeAddress := 193 :: replicate 29 2.

Definition ids_decode (t : InputType) (args : ManifestValue) : option TypedManifestNativeInvocation :=
  match t, args with
  | KnownOutput AccountWithdrawNonFungiblesInput, VTuple [VCustom (MAddress (Static r)); VArray _ elements] =>
      Some (AccountWithdrawNonFungibles (StaticAddress r)
        (omap (fun v => match v with
                        | VCustom (MNonFungibleLocalId (Manifest.MInteger i)) => Some (IdInteger i) | _ => None end) elements))
  | NoOutput NativeInvocations.AccountDeposit, VTuple [VCustom (MBucket _)] => Some (NoOutputInvocation NativeInvocations.AccountDeposit)
  | _, _ => None
  end.

Definition withdraw_ids (account : NodeAddress) (ids : list Z) : InstructionV2 :=
  CallMethod (StaticAddress account) (lit "withdraw_non_fungibles")
    (VTuple [VCustom (MAddress (Static art));
             VArray (KCustom Manifest.NonFungibleLocalId) ((fun i => VCustom (MNonFungibleLocalId (Manifest.MInteger i))) <$> ids)]).
Definition deposit_bucket (account : NodeAddress) (b : Z) : InstructionV2 :=
  CallMethod (StaticAddress account) (lit "deposit") (VTuple [VCustom (MBucket b)]).

(** Bob gets one of the ids 5 and 6, returns id 5 if he has it, and gets one of
    the ids again. *)
Definition one_of : ResourceBounds :=
  mk_general [] (LowerInclusive ONE) (UpperInclusive ONE) (Allowlist [IdInteger 5; IdInteger 6]).
Definition twice : Manifest := mk_manifest false [] [] []
  [withdraw_ids alice [5; 6];
   TakeFromWorktop art ONE; AssertBucketContents 0 (General one_of); deposit_bucket bob 0;
   withdraw_ids bob [5];
   TakeFromWorktop art ONE; AssertBucketContents 1 (General one_of); deposit_bucket bob 1;
   TakeAllFromWorktop art; deposit_bucket alice 2].

Definition art_only (W : ResourceAddress -> Balance) : Prop := forall r, r <> art -> W r = zero_balance.

Lemma art_only_ok W : art_only W -> balance_ok false (W art) -> balances_ok W.
Proof.
  intros Hz Ha r. destruct (decide (r = art)) as [->|Hne]; [exact Ha|]. rewrite Hz by done. apply BoundsLemmas.zero_balance_ok.
Qed.
Lemma art_only_none : art_only no_balances.
Proof. done. Qed.
Lemma art_only_update W b : art_only W -> art_only (update_balance W art b).
Proof. intros HW r Hr. unfold update_balance. rewrite decide_False by done. by apply HW. Qed.
Lemma art_only_join W1 W2 : art_only W1 -> art_only W2 -> art_only (join_all W1 W2).
Proof. intros H1 H2 r Hr. unfold join_all. by rewrite H1, H2. Qed.

Definition nf (ids : list Z) : Balance := mk_balance (decimal_of_len (IdInteger <$> ids)) (IdInteger <$> ids).

Record ready (h : Holdings) : Prop := {
  ready_created : created_addresses h = [];
  ready_awaited : awaited h = None;
  ready_worktop : art_only (held_worktop h)
}.

Definition account_kind (account : NodeAddress) (method : String.string) : InvocationKind :=
  MethodInvocation (StaticAddress account) MainModule (lit method).
Definition ids_args (ids : list Z) : ManifestValue :=
  VTuple [VCustom (MAddress (Static art));
          VArray (KCustom Manifest.NonFungibleLocalId) ((fun i => VCustom (MNonFungibleLocalId (Manifest.MInteger i))) <$> ids)].

Definition after_withdraw (ids : list Z) (h : Holdings) : Holdings :=
  await None (hold_worktop (join_all (held_worktop h) (single art (nf ids))) h).
Definition after_deposit (b : Z) (h : Holdings) : Holdings :=
  await None (hold_worktop (join_all (held_worktop (lose_bucket b h)) no_balances) (lose_bucket b h)).
Definition after_take (ids rest : list Z) (h : Holdings) : Holdings :=
  hold_bucket art (nf ids) (hold_worktop (update_balance (held_worktop h) art (nf rest)) h).

Definition withdraw_movement (i : Z) (account : NodeAddress) (ids : list Z) : Movement :=
  mk_movement i (account_kind account "withdraw_non_fungibles") no_balances (single art (nf ids)).
Definition deposit_movement (i : Z) (account : NodeAddress) (ids : list Z) : Movement :=
  mk_movement i (account_kind account "deposit") (single art (join zero_balance (nf ids))) no_balances.

Lemma ready_withdraw ids h : ready h -> ready (after_withdraw ids h).
Proof. intros [Hc Ha Hw]. split; cbn; [done|done|]. by apply art_only_join, art_only_update. Qed.
Lemma ready_deposit b h : ready h -> ready (after_deposit b h).
Proof. intros [Hc Ha Hw]. split; cbn; [done|done|]. by apply art_only_join. Qed.
Lemma ready_take ids rest h : ready h -> ready (after_take ids rest h).
Proof. intros [Hc Ha Hw]. split; cbn; [done|done|]. by apply art_only_update. Qed.

Lemma send_no_buckets h ids : send h no_balances (TraversalSpec.customs (ids_args ids)) h no_balances.
Proof.
  apply send_other; [done|done|]. induction ids as [|i ids IH]; [apply send_nil|]. by apply send_other.
Qed.

Lemma run_withdraw i h account ids receiver : ready h ->
  balance_ok false (nf ids) -> balance_ok false (join (held_worktop h art) (nf ids)) ->
  native_call ids_decode [] (account_kind account "withdraw_non_fungibles") (ids_args ids) =
    Some (AccountWithdrawNonFungibles (StaticAddress art) (IdInteger <$> ids), receiver) ->
  run_step ids_decode i h (Invocation (account_kind account "withdraw_non_fungibles") (ids_args ids))
    [withdraw_movement i account ids] (after_withdraw ids h).
Proof.
  intros [Hc Ha Hw] Hids Hall Hn. assert (single art (nf ids) art = nf ids) as Hs by (unfold single, update_balance; by rewrite decide_True).
  apply run_call with (h1 := h).
  - apply send_no_buckets.
  - apply art_only_ok; [by apply art_only_update|by rewrite Hs].
  - unfold call_behaves. rewrite Hc, Hn. split; [reflexivity|]. split; [by rewrite Hs|].
    intros r Hr. unfold single, update_balance. by rewrite decide_False.
  - by rewrite Ha.
  - apply art_only_ok; [by apply art_only_join, art_only_update|]. unfold join_all. by rewrite Hs.
Qed.

Lemma run_deposit i h account b ids receiver : ready h -> held_buckets h !! b = Some (art, nf ids) ->
  balance_ok false (nf ids) -> balance_ok false (held_worktop h art) ->
  native_call ids_decode [] (account_kind account "deposit") (VTuple [VCustom (MBucket b)]) = Some (NoOutputInvocation NativeInvocations.AccountDeposit, receiver) ->
  run_step ids_decode i h (Invocation (account_kind account "deposit") (VTuple [VCustom (MBucket b)]))
    [deposit_movement i account ids] (after_deposit b h).
Proof.
  intros [Hc Ha Hw] Hb Hids Hart Hn. apply run_call with (h1 := lose_bucket b h).
  - apply (send_bucket _ _ b art (nf ids)); [exact Hb| |apply send_nil].
    change (join (no_balances art) (nf ids)) with (join zero_balance (nf ids)). by rewrite join_zero_l.
  - apply MovementsLemmas.no_balances_ok.
  - unfold call_behaves. by rewrite Hc, Hn.
  - by rewrite Ha.
  - apply art_only_ok; [by apply art_only_join|]. unfold join_all. change (no_balances art) with zero_balance.
    by rewrite join_zero_r.
Qed.

Lemma run_take_ids i h s amount ids rest : source_resource_address s = art ->
  match s with
  | AllOnWorktop _ => amount = TakeAll
  | AmountFromWorktop _ a => amount = TakeAmount a
  | NonFungiblesFromWorktop _ ids => amount = TakeNonFungibles (is_from_iter ids)
  end ->
  balance_ok false (nf ids) -> balance_ok false (nf rest) -> held_worktop h art ≡ join (nf rest) (nf ids) ->
  take_matches false amount (nf ids) (nf rest) ->
  run_step ids_decode i h (CreateBucket s) [] (after_take ids rest h).
Proof. intros Hs. pose proof (run_take ids_decode i h s amount (nf ids) (nf rest)) as Hrun. rewrite Hs in Hrun. exact Hrun. Qed.

Definition twice_movements : list Movement :=
  [withdraw_movement 0 alice [5; 6]; deposit_movement 3 bob [5]; withdraw_movement 4 bob [5]; deposit_movement 7 bob [5];
   deposit_movement 9 alice [6]].

Ltac art_balance := split_and!; [by vm_compute|by vm_compute|apply (bool_decide_unpack _); by vm_compute|by vm_compute].

Lemma one_of_holds : constraint_ok false (General one_of) /\ constraint_sat false (General one_of) (nf [5]).
Proof.
  split; split; cbn; try done.
  - apply NoDup_nil_2.
  - apply (bool_decide_unpack _). by vm_compute.
  - split; [by vm_compute|set_solver].
Qed.

Lemma run_one_of i h b : held_buckets h !! b = Some (art, nf [5]) ->
  run_step ids_decode i h (ResourceAssertionEffect (AssertBucket (BucketContents b (General one_of)))) [] h.
Proof. intros Hb. destruct one_of_holds. by apply run_assert_bucket with (r := art) (bal := nf [5]). Qed.

Lemma run_take_one i h : held_worktop h art ≡ join (nf [6]) (nf [5]) ->
  run_step ids_decode i h (CreateBucket (AmountFromWorktop art ONE)) [] (after_take [5] [6] h).
Proof. intros Hh. apply run_take_ids with (amount := TakeAmount ONE); [done|done|art_balance|art_balance|exact Hh|by vm_compute]. Qed.

Lemma twice_runs : exists h', runs ids_decode 0 holdings0 (iter_instruction_effects twice) twice_movements h'.
Proof.
  assert (ready holdings0) as Hr0 by (split; done).
  pose proof (ready_withdraw [5; 6] _ Hr0) as Hr1. pose proof (ready_take [5] [6] _ Hr1) as Hr2.
  pose proof (ready_deposit 0 _ Hr2) as Hr3. pose proof (ready_withdraw [5] _ Hr3) as Hr4.
  pose proof (ready_take [5] [6] _ Hr4) as Hr5. pose proof (ready_deposit 1 _ Hr5) as Hr6. pose proof (ready_take [6] [] _ Hr6) as Hr7.
  eexists. unfold twice_movements.
  eapply (runs_cons ids_decode 0 _ _ _ _ [_]); [eapply run_withdraw; [exact Hr0|art_balance|art_balance|vm_compute; reflexivity]|].
  eapply (runs_cons ids_decode 1 _ _ _ _ []); [eapply run_take_one; split; vm_compute; [reflexivity|apply perm_swap]|].
  eapply (runs_cons ids_decode 2 _ _ _ _ []); [by eapply run_one_of|].
  eapply (runs_cons ids_decode 3 _ _ _ _ [_]); [eapply run_deposit; [exact Hr2|reflexivity|art_balance|art_balance|vm_compute; reflexivity]|].
  eapply (runs_cons ids_decode 4 _ _ _ _ [_]); [eapply run_withdraw; [exact Hr3|art_balance|art_balance|vm_compute; reflexivity]|].
  eapply (runs_cons ids_decode 5 _ _ _ _ []); [eapply run_take_one; split; vm_compute; reflexivity|].
  eapply (runs_cons ids_decode 6 _ _ _ _ []); [by eapply run_one_of|].
  eapply (runs_cons ids_decode 7 _ _ _ _ [_]); [eapply run_deposit; [exact Hr5|reflexivity|art_balance|art_balance|vm_compute; reflexivity]|].
  eapply (runs_cons ids_decode 8 _ _ _ _ []);
    [apply (run_take_ids 8 _ (AllOnWorktop art) TakeAll [6] []); [done|done|art_balance|art_balance|split; vm_compute; reflexivity|done]|].
  eapply (runs_cons ids_decode 9 _ _ _ _ [_]); [eapply run_deposit; [exact Hr7|reflexivity|art_balance|art_balance|vm_compute; reflexivity]|].
  constructor.
Qed.

(** The reported net deposit of ids can be wrong.  The manifest [twice] has
    a run in which id 5 is deposited to Bob, withdrawn and deposited again; the
    analysis accepts it, and reports that Bob certainly gets the ids 5 and 6,
    although no deposit of the run holds id 6. *)
Theorem net_deposit_ids_wrong :
  (exists h', runs ids_decode 0 holdings0 (iter_instruction_effects twice) twice_movements h') /\
  Forall (fun mv => moved_by mv = account_kind bob "deposit" -> IdInteger 6 ∉ b_ids (moved_in mv art)) twice_movements /\
  match analyze_movements ids_decode twice with
  | Done (Ok _, v) =>
      match resolve_account_changes (ME := unit) (invocation_static_information v) with
      | Done (Ok (_, ds)) => required_ids (reported_deposits ds bob art) = [IdInteger 5; IdInteger 6]
      | _ => False
      end
  | _ => False
  end.
Proof.
  split; [apply twice_runs|]. split; [|vm_compute; reflexivity].
  unfold twice_movements. repeat (apply Forall_cons_2; [intros Hk; try discriminate Hk|]); try apply Forall_nil_2;
    by intros Hin%list_elem_of_singleton.
Qed.

(** [resolve_account_withdraws] panics on the output of a withdraw of nothing
    after an assertion, which drops the resources that are certainly absent. *)
Example withdraw_nothing_panics :
  match analyze_movements sample_decode (mk_manifest false [] [] []
    [AssertNextCallReturnsInclude [];
     CallMethod (StaticAddress sample_account) (lit "withdraw")
       (VTuple [VCustom (MAddress (Static RORK)); VCustom (Manifest.MDecimal (replicate 24 0))])]) with
  | Done (Ok _, v) => resolve_account_withdraws (invocation_static_information v) = Panicked
  | _ => False
  end.
Proof. vm_compute. reflexivity. Qed.
End Ids.
End OutputTheorems.
