(* ===== verification/ManifestValidation.v ===== *)
(** * The two validators of manifests

    The verdict of the static interpreter on whole manifests
    (static_manifest_interpreter.rs), and its agreement with the basic validator
    of version 1 manifests (id_validator.rs), which the interpreter replaces: the
    ruleset named after the first network version accepts the same manifests. *)

From S2P Require Import IdValidator.
From S2P Require Import Authorization.
From S2P Require Import Prelude Decimals IndexMap Bytes Sbor SborCustom Traversal ResourceConstraints ManifestInstructions ManifestInterpreter InterpreterSpec.
Import Int Dec.
Import Manifest(ManifestValue, ManifestCustomValue, ManifestCustomValueKind, ManifestExpression, MAddress, MBucket,
  MProof, MExpression, MBlob, MDecimal, MPreciseDecimal, MNonFungibleLocalId, MAddressReservation, Static, Named,
  EntireWorktop, EntireAuthZone, manifest_encode, MANIFEST_SBOR_V1_PAYLOAD_PREFIX, MANIFEST_SBOR_V1_MAX_DEPTH,
  manifest_custom_value_kind, manifest_custom_value, manifest_laws).
Import TraversalSpec InterpreterSpec UsageLemmas InterpreterLemmas.
Module V1 := IdValidator.
Module V1Spec := IdValidator.ManifestSpec.

(** ** The view of the basic validator

    What the basic validator reads of the same instructions and values. *)

Module BasicView.

Definition custom_view (c : ManifestCustomValue) : V1.ManifestValue :=
  match c with
  | MAddress (Static _) => V1.StaticAddress
  | MAddress (Named a) => V1.NamedAddress a
  | MBucket b => V1.Bucket b
  | MProof p => V1.ProofValue p
  | MExpression _ => V1.Expression
  | MBlob _ => V1.Blob
  | MAddressReservation r => V1.AddressReservation r
  | MDecimal _ | MPreciseDecimal _ | MNonFungibleLocalId _ => V1.PlainCustom
  end.

Fixpoint value_view (v : ManifestValue) : V1.ManifestValue :=
  match v with
  | VEnum _ l => V1.Enum (map value_view l)
  | VArray _ l => V1.Array (map value_view l)
  | VTuple l => V1.Tuple (map value_view l)
  | VMap _ _ l => V1.Map (map (fun '(key, value) => (value_view key, value_view value)) l)
  | VCustom c => custom_view c
  | _ => V1.Primitive
  end.

Definition kind_view (k : ProofKind) : V1.ProofKind :=
  match k with BucketProof b => V1.BucketProof b | AuthZoneProof => V1.AuthZoneProof end.

(** Only the bucket of a proof's source matters. *)
Definition source_view (s : ProofSourceAmount) : V1.ProofSourceAmount :=
  match proof_kind s with
  | BucketProof b => V1.BucketAllOf b
  | AuthZoneProof => V1.AuthZonePopLastAddedProof
  end.

Definition effect_view (e : ManifestInstructionEffect) : V1.ManifestInstructionEffect :=
  match e with
  | CreateBucket _ => V1.CreateBucket
  | CreateProof s => V1.CreateProof (source_view s)
  | ConsumeBucket b _ => V1.ConsumeBucket b
  | ConsumeProof p _ => V1.ConsumeProof p
  | CloneProofEffect p => V1.CloneProof p
  | DropManyProofs named signature non_signature => V1.DropManyProofs named signature non_signature
  | Invocation _ args => V1.Invocation (value_view args)
  | CreateAddressAndReservation _ _ => V1.CreateAddressAndReservation
  | ResourceAssertionEffect _ => V1.ResourceAssertion
  | Verification _ _ => V1.Verification
  end.

(** A manifest of version 1: no yields, no verifications, no children and no
    preallocated addresses, and arguments that fit in a payload. *)
Definition version1 (m : Manifest) : Prop :=
  is_subintent m = false /\ get_preallocated_addresses m = [] /\
  Forall (fun e => match e with
                   | Invocation kind args => yields kind = false /\ args_ok args
                   | Verification _ _ => False
                   | _ => True
                   end) (iter_instruction_effects m).

(** *** The usages of both specifications *)

Definition ref_view (r : IdRef) : list V1Spec.IdRef :=
  match r with
  | UseBucket b => [V1Spec.UseBucket b]
  | UseProof p => [V1Spec.UseProof p]
  | UseReservation r => [V1Spec.UseReservation r]
  | UseAddress a => [V1Spec.UseAddress a]
  | UseBlob _ => []
  end.

Definition usage_view (u : Usage) : V1Spec.Usage :=
  V1Spec.mk_usage (u_next_bucket u) (u_next_proof u) (u_next_address u) (dom (u_buckets u))
    (kind_view <$> u_proofs u) (u_reservations u).

(** Without preallocated addresses, reservations and addresses are made in
    pairs. *)
Definition paired (u : Usage) : Prop := u_next_reservation u = u_next_address u /\ u_awaiting_call u = false.

Lemma refs_view v : V1Spec.refs (value_view v) = arg_refs v ≫= ref_view.
Proof.
  unfold arg_refs.
  assert (forall l : list ManifestValue,
    Forall (fun v => V1Spec.refs (value_view v) = (customs v ≫= value_ref) ≫= ref_view) l ->
    concat (map V1Spec.refs (map value_view l)) = ((l ≫= customs) ≫= value_ref) ≫= ref_view) as Hl.
  { induction 1 as [|v' l Hv _ IH]; [done|]. cbn. rewrite !bind_app, IH, Hv. done. }
  induction v using value_ind_nested; try done; try (by apply Hl).
  - cbn [value_view V1Spec.refs customs]. clear Hl.
    match goal with HF : Forall _ l |- _ => induction HF as [|[a b] l [Ha Hb] _ IH] end; [done|].
    cbn in Ha, Hb |- *. rewrite !bind_app, Ha, Hb. by rewrite IH.
  - by destruct y as [[n|a]|b|p|e|h|d|d|i|r].
Qed.

Lemma proofs_view u p k : u_proofs u !! p = Some k -> V1Spec.u_proofs (usage_view u) !! p = Some (kind_view k).
Proof. intros Hp. cbn. by rewrite lookup_fmap, Hp. Qed.

Lemma proofs_view_inv u p k : V1Spec.u_proofs (usage_view u) !! p = Some k ->
  exists k', u_proofs u !! p = Some k' /\ k = kind_view k'.
Proof. cbn. rewrite lookup_fmap. intros (k' & ? & ->)%fmap_Some. eauto. Qed.

Lemma no_proof_view u b : no_proof_of b u <-> V1Spec.no_proof_of b (usage_view u).
Proof.
  split.
  - intros Hno p Hp%proofs_view_inv. destruct Hp as (k & Hk & Hv). destruct k; [|done]. injection Hv as ->. by apply (Hno p).
  - intros Hno p Hp. by apply proofs_view in Hp; apply Hno in Hp.
Qed.

Section Step.
Context (m : Manifest).
Abbreviation ruleset := ruleset_babylon_equivalent.

Lemma use_view u r u' : use ruleset m u r u' ->
  V1Spec.uses (usage_view u) (ref_view r) (usage_view u') /\ (paired u -> paired u').
Proof.
  intros Hu. split; [|by destruct Hu]. destruct Hu as [u b a Hb Hno|u p k Hp|u r Hr|u a Ha|u h Hh]; cbn [ref_view];
    [..|constructor]; (econstructor; [|constructor]); unfold usage_view; cbn.
  - rewrite dom_delete_L. constructor; [by apply elem_of_dom|]. by apply no_proof_view in Hno.
  - rewrite fmap_delete. econstructor. by apply proofs_view in Hp.
  - by constructor.
  - by constructor.
Qed.

Lemma use_view_inv u r w : V1Spec.uses (usage_view u) (ref_view r) w -> exists u', use ruleset m u r u' /\ usage_view u' = w.
Proof.
  intros Hu. destruct r as [b|p|r|a|h]; cbn [ref_view] in Hu.
  5: { inversion Hu; subst. exists u. split; [by constructor|done]. }
  all: apply IdValidator.ValidatorLemmas.uses_single in Hu; inversion Hu as [? ? ? ? ? ? ? Hb Hno|? ? ? ? ? ? ? ? Hp|? ? ? ? ? ? ? Hr|? ? Ha]; subst.
  - apply elem_of_dom in Hb as [a Ha]. exists (remove_bucket b u). split.
    + econstructor; [done|]. by apply no_proof_view.
    + unfold usage_view. cbn. by rewrite dom_delete_L.
  - apply (proofs_view_inv u) in Hp as (k' & Hk & _). exists (remove_proof p u). split; [by econstructor|].
    unfold usage_view. cbn. by rewrite fmap_delete.
  - exists (remove_reservation r u). split; [by constructor|done].
  - exists u. split; [by constructor|done].
Qed.

Lemma uses_view u rs u' : uses ruleset m u rs u' ->
  V1Spec.uses (usage_view u) (rs ≫= ref_view) (usage_view u') /\ (paired u -> paired u').
Proof.
  induction 1 as [u|u r u1 rs u2 Hr _ [IH1 IH2]]; [split; [constructor|done]|].
  apply use_view in Hr as [Hr1 Hr2]. split; [|auto]. cbn. apply IdValidator.ValidatorLemmas.uses_app. eauto.
Qed.

Lemma uses_view_inv u rs w : V1Spec.uses (usage_view u) (rs ≫= ref_view) w ->
  exists u', uses ruleset m u rs u' /\ usage_view u' = w.
Proof.
  revert u. induction rs as [|r rs IH]; intros u Hu; cbn in Hu.
  - inversion Hu; subst. exists u. split; [constructor|done].
  - apply IdValidator.ValidatorLemmas.uses_app in Hu as (w1 & H1 & H2). apply use_view_inv in H1 as (u1 & Hu1 & <-).
    apply IH in H2 as (u2 & Hu2 & <-). exists u2. split; [by econstructor|done].
Qed.

Lemma source_kind s : V1.proof_kind (source_view s) = kind_view (proof_kind s).
Proof. unfold source_view. by destruct (proof_kind s). Qed.

Lemma kind_ok_view k u : kind_ok k u <-> V1Spec.kind_ok (kind_view k) (usage_view u).
Proof. destruct k; cbn; [by rewrite elem_of_dom|done]. Qed.

Lemma add_proof_view k u : usage_view (add_proof k u) = V1Spec.add_proof_spec (kind_view k) (usage_view u).
Proof. unfold usage_view, V1Spec.add_proof_spec. cbn. by rewrite fmap_insert. Qed.

Definition plain (e : ManifestInstructionEffect) : Prop :=
  match e with
  | Invocation kind args => yields kind = false /\ args_ok args
  | Verification _ _ => False
  | _ => True
  end.

Lemma next_view u e u' : plain e -> paired u -> next ruleset m u e u' ->
  V1Spec.step (usage_view u) (effect_view e) (usage_view u') /\ paired u'.
Proof.
  intros He Hp [_ Hs]. rewrite set_awaiting_id in Hs by apply Hp.
  destruct Hs as [u s|u s Hk|u b d u' Hu|u p d u' Hu|u p k Hk|u all s n|u kind args u' Hc Ha Hy Hu|u p n|u a Ha|u k rule Hk];
    cbn [effect_view].
  - split; [|done]. unfold usage_view. cbn. rewrite dom_insert_L. constructor.
  - rewrite add_proof_view, <- source_kind. split; [|done]. constructor. rewrite source_kind. by apply kind_ok_view.
  - apply use_view in Hu as [Hu Hp']. split; [|auto]. constructor.
    by apply IdValidator.ValidatorLemmas.uses_single in Hu.
  - apply use_view in Hu as [Hu Hp']. split; [|auto]. constructor.
    by apply IdValidator.ValidatorLemmas.uses_single in Hu.
  - rewrite add_proof_view. split; [|done]. constructor. by apply (proofs_view u).
  - split; [|by destruct all]. unfold usage_view.
    assert (V1Spec.mk_usage (u_next_bucket (if all then drop_all_proofs u else u)) (u_next_proof (if all then drop_all_proofs u else u))
      (u_next_address (if all then drop_all_proofs u else u)) (dom (u_buckets (if all then drop_all_proofs u else u)))
      (kind_view <$> u_proofs (if all then drop_all_proofs u else u)) (u_reservations (if all then drop_all_proofs u else u)) =
      V1Spec.mk_usage (u_next_bucket u) (u_next_proof u) (u_next_address u) (dom (u_buckets u))
        (if all then ∅ else kind_view <$> u_proofs u) (u_reservations u)) as -> by (destruct all; cbn; by rewrite ?fmap_empty).
    constructor.
  - apply uses_view in Hu as [Hu Hp']. split; [|auto]. constructor. by rewrite refs_view.
  - destruct Hp as [Hr Hw]. split; [|split; cbn; [lia|done]]. unfold usage_view. cbn. rewrite Hr. constructor.
  - split; [constructor|by destruct Hp].
  - done.
Qed.

(** The calls of a transaction manifest are all allowed. *)
Lemma plain_call kind u : yields kind = false -> call_allowed ruleset m kind u.
Proof. by destruct kind. Qed.

Lemma next_view_inv u e w : plain e -> paired u -> V1Spec.step (usage_view u) (effect_view e) w ->
  exists u', next ruleset m u e u' /\ usage_view u' = w.
Proof.
  intros He Hp Hs. unfold next. rewrite set_awaiting_id by apply Hp.
  assert (forall u', step ruleset m u e u' -> usage_view u' = w ->
    exists u', ((u_awaiting_call u = true -> is_call e = true) /\ step ruleset m u e u') /\ usage_view u' = w) as Hex.
  { intros u' Hu Hw. exists u'. split; [split; [|done]|done]. destruct Hp. congruence. }
  destruct e as [s|s|b d|p d|p|all s n|kind args|p n|a|k rule]; cbn [effect_view] in Hs; [..|done];
    inversion Hs as [| |? ? ? Hu|? ? ? Hu|? ? ? Hk| |? ? ? Hu| |]; subst.
  - eapply Hex; [constructor|]. unfold usage_view. cbn. by rewrite dom_insert_L.
  - eapply Hex; [constructor|].
    + apply kind_ok_view. by rewrite <- source_kind.
    + by rewrite add_proof_view, source_kind.
  - apply IdValidator.ValidatorLemmas.uses_single, (use_view_inv u (UseBucket b)) in Hu as (u' & Hu & Hw).
    by eapply Hex; [constructor|].
  - apply IdValidator.ValidatorLemmas.uses_single, (use_view_inv u (UseProof p)) in Hu as (u' & Hu & Hw).
    by eapply Hex; [constructor|].
  - apply (proofs_view_inv u) in Hk as (k' & Hk & ->). eapply Hex; [by constructor|]. by rewrite add_proof_view.
  - eapply Hex; [constructor|]. unfold usage_view. destruct all; cbn; by rewrite ?fmap_empty.
  - rewrite refs_view in Hu. apply uses_view_inv in Hu as (u' & Hu & Hw). destruct He as [Hy Ha].
    eapply Hex; [|exact Hw]. constructor; [by apply plain_call|done|by rewrite Hy|done].
  - eapply Hex; [constructor|]. destruct Hp as [Hr _]. unfold usage_view. cbn. by rewrite Hr.
  - eapply Hex; [by constructor|done].
Qed.

Lemma steps_view u es u' : Forall plain es -> paired u -> steps ruleset m u es u' ->
  V1Spec.steps (usage_view u) (map effect_view es) (usage_view u').
Proof.
  intros Hes Hp Hs. revert Hes Hp. induction Hs as [u|u e u1 es u2 He _ IH]; intros Hes Hp; [constructor|].
  inversion Hes; subst. apply next_view in He as [He Hp1]; [|done..]. econstructor; [done|auto].
Qed.

Lemma steps_view_inv u es w : Forall plain es -> paired u -> V1Spec.steps (usage_view u) (map effect_view es) w ->
  exists u', steps ruleset m u es u' /\ usage_view u' = w /\ paired u'.
Proof.
  intros Hes. revert u. induction Hes as [|e es He _ IH]; intros u Hp Hs; inversion Hs as [|? ? w1 ? ? H1 H2]; subst.
  - exists u. split_and!; [constructor|done..].
  - apply next_view_inv in H1 as (u1 & Hu1 & <-); [|done..].
    pose proof (proj2 (next_view _ _ _ He Hp Hu1)) as Hp1. apply IH in H2 as (u2 & Hu2 & Hw & Hp2); [|done].
    exists u2. split; [by econstructor|done].
Qed.
End Step.

(** On manifests of version 1 both specifications accept the same. *)
Lemma well_formed_view m : version1 m ->
  well_formed ruleset_babylon_equivalent m <-> V1Spec.well_formed (map effect_view (iter_instruction_effects m)).
Proof.
  intros (Hs & Hpre & Hes). unfold well_formed, usage_start. rewrite Hpre, Hs. cbn [length Nat.iter].
  unfold V1Spec.well_formed.
  assert (V1Spec.usage_init = usage_view usage_empty) as -> by (unfold usage_view; cbn; by rewrite dom_empty_L, fmap_empty).
  split.
  - intros (_ & _ & u & Hu & _). exists (usage_view u). by apply (steps_view m).
  - intros [w Hw]. apply (steps_view_inv m) in Hw as (u & Hu & _ & [_ Ha]); [|done..].
    split_and!; [done..|]. exists u. split_and!; done.
Qed.
End BasicView.

(** ** Theorems *)

Module ValidationTheorems.
Import BasicView InterpreterTheorems.

(** C28. The ruleset equivalent to the first network version accepts exactly the
    manifests that the basic validator of version 1 transactions accepts: on
    every manifest of version 1 (no yields, verifications, children or
    preallocated addresses, arguments that fit in a payload) both return
    without panicking, with the same verdict, although one marks consumed
    states in vectors and traverses encoded arguments and the other keeps maps
    of live ids and walks the values. *)
Theorem babylon_ruleset_matches_basic_validator (m : Manifest) (Hm : manifest_wf m) (Hv1 : version1 m) :
  exists r r',
    validate ruleset_babylon_equivalent m = Done r /\
    V1.validate_instructions_basic_v1 (map effect_view (iter_instruction_effects m)) = Done r' /\
    (r = Ok tt <-> r' = Ok tt).
Proof.
  pose proof (interpret_wp False unit_laws ruleset_babylon_equivalent m tt eq_refl Hm) as Hwp.
  pose proof (well_formed_view m Hv1) as Hview. unfold wp in Hwp. unfold validate, validate_and_apply_visitor.
  destruct (IdValidator.ManifestTheorems.validate_cases (map effect_view (iter_instruction_effects m))) as [[Hr Hok]|(e' & Hr & Hno)].
  - destruct Hm as [_ Hlen]. unfold iter_instruction_effects. rewrite !length_map. unfold instruction_count in Hlen. lia.
  - destruct Hv1 as (_ & _ & Hes). intros (e & He & Hin)%list_elem_of_fmap. rewrite Forall_forall in Hes.
    specialize (Hes _ Hin). by destruct e.
  - destruct (interpret_internal _ m _) as [[[[]|e] s]|]; [|by destruct Hwp as [[]|Hno]; apply Hview in Hok|done].
    by exists (Ok tt), (Ok tt).
  - destruct (interpret_internal _ m _) as [[[[]|e] s]|]; [by apply Hview in Hwp| |done].
    by exists (Err e), (Err e').
Qed.

(** The call goes to a named address that was never allocated. *)
Definition sample_v1 : Manifest := mk_manifest false [] [] []
  [TakeFromWorktop sample_resource 5; CreateProofFromBucketOfAll 0; DropNamedProofs;
   AllocateGlobalAddress sample_resource [];
   CallFunction (NamedAddress 9) [] [] (VTuple [VCustom (MAddress (Named 0)); VCustom (MBucket 0)])].

Lemma babylon_ruleset_matches_basic_validator_witness :
  validate ruleset_babylon_equivalent sample_v1 = Done (Ok tt) /\
  V1.validate_instructions_basic_v1 (map effect_view (iter_instruction_effects sample_v1)) = Done (Ok tt).
Proof.
  assert (manifest_wf sample_v1) as Hm by (by apply manifest_wf_dec).
  assert (version1 sample_v1) as Hv.
  { split_and!; [reflexivity..|]. repeat constructor; vm_compute; repeat constructor. }
  destruct (babylon_ruleset_matches_basic_validator sample_v1 Hm Hv) as (r & r' & Hr & Hr' & Hiff).
  split; [|rewrite Hr'; f_equal; apply Hiff]; assert (validate ruleset_babylon_equivalent sample_v1 = Done (Ok tt)) as Hval
    by (vm_compute; reflexivity); [exact Hval|congruence].
Defined.

(** The stricter rulesets refuse the unknown address and a locked bucket. *)
Example strict_ruleset_refuses :
  validate ruleset_cuttlefish sample_v1 = Done (Err (NamedAddressNotYetCreated 9)) /\
  validate ruleset_cuttlefish (mk_manifest false [] [] []
    [TakeFromWorktop sample_resource 5; CreateProofFromBucketOfAll 0; ReturnToWorktop 0]) =
  Done (Err (BucketConsumedWhilstLockedByProof 0)).
Proof. split; vm_compute; reflexivity. Qed.
End ValidationTheorems.
